(* ===== verification/_CoqProject ===== *)
-Q . S2P
Prelude.v
Buffers.v
CLib.v
Order.v
RecordFmt.v
Page.v
Directory.v
Heapfile.v
HeapInv.v
HeapOps.v
HeapProps.v
HeapClose.v
Scan.v
ScanProps.v
Tools.v
ToolsProps.v
PageTools.v
Library.v
SchemaProps.v
MSort.v
MSortProps.v
SortProps.v
BSort.v
BSortMain.v
Coding.v
Crc32c.v
Bloom.v
FilterBlock.v
Comparator.v
DbFormat.v
Status.v
Block.v
BlockProps.v
BlockSafe.v
Env.v
LogFile.v
LogProps.v
Random.v
Arena.v
SkipList.v
SkipProps.v
SkipSpec.v
MemTable.v
MemProps.v
WriteBatch.v
DbWrite.v
DbQueue.v
DbRecover.v
LruCache.v
LruTable.v
LruInsert.v
LruClient.v
LruSpec.v
TableFormat.v
TableBuilder.v
TableFinish.v
Iterator.v
IterProps.v
TwoLevel.v
TwoLevelProps.v
Table.v
TableProps.v
TableSpec.v
Merger.v
MergerProps.v
DbIter.v
DbIterProps.v
DbIterSpec.v
FileName.v
VersionEdit.v
VersionSet.v
VersionProps.v
VersionIters.v
VersionSpec.v
VersionBuilder.v
BuilderProps.v
Manifest.v
ManifestProps.v
Compaction.v
CompactionSpec.v
