(* ===== verification/Prelude.v ===== *)
(** * A verification library for the Database-assignments repository

    The repository holds two C++ assignments. The first (a1/) is a storage manager: records of
    fixed-length attributes, slotted pages, heap files with directory pages, and the programs
    that load, scan, select, update and delete records. The second (a2/) sorts record files:
    msort by external merge sort, bsort by inserting every line in a LevelDB database and
    iterating over it. LevelDB 1.15.0 and jsoncpp are part of a2/; of LevelDB the formats and
    data structures listed below are modelled, jsoncpp is a parameter.

    ** Reading the model

    A C++ run is a function into [res]: a value, or the way it stops early ([UB] undefined
    behaviour, [AssertFail], [Exit c], [Diverge] when a loop exhausts its fuel). Functions that
    mutate a heap file are computations of the state monad [st] over it. Memory is byte
    lists with checked accesses (Buffers); machine integers are integers with the wrap-around
    or the overflow check written out ([cint], [to_int], [u32], [u64], [clong]). Memory whose
    contents the language does not define (uninitialised or released objects) is a parameter
    of the definitions that read it. A program is a function of its arguments and of the files
    it finds to an [outcome]: exit status, standard output and the files it leaves, and of what the
    system says (the time; for msort, the names of its open files). Names that differ are names of different files.

    ** The files

    - Prelude: the error monad and the state monad, bytes, integers, shared lemmas.
      Buffers: byte objects, slices, little-endian integers. CLib: the C library functions
      the programs call (strings, [atoi], [strtok], streams), file systems and outcomes.
    - RecordFmt (record.cpp), Page (page.cpp), Directory (directory.cpp), Heapfile
      (heapfile.cpp), Scan (its RecordIterator), Tools (the [main] functions of a1/): one
      definition per function and per loop, with the source's names.
    - HeapInv, HeapOps, HeapProps: the invariant of a heap file; every operation as an equation
      on well-formed heaps; the refinement to the abstract heap, a list of pages of optional
      records; sequences of operations. HeapClose: what is closed is opened again.
      ScanProps, ToolsProps, PageTools: scans visit the filled slots in order; the programs
      refine the abstract operations on the file; csv round trips.
    - Library (library.h, library.cc: schemas and comparators), MSort (RunIterator, mk_runs
      and msort.cc). SchemaProps: the comparator is a lexicographic total preorder; record layout,
      sort attributes. MSortProps, SortProps: runs, merges, passes, and msort sorts; [QsortSpec] is what it relies on from [qsort], with
      insertion sort as an instance.
    - BSort (bsort.cc) uses the key-value store through the class [Store]; BSortMain states
      its laws ([StoreSpec], with a sorted list as an instance) and the order of keys, and shows
      that bsort sorts stably, and its behaviour when the released strings it compares have been
      overwritten.
    - Coding (util/coding: fixed-width integers, varints, slices), Crc32c (util/crc32c:
      checksums), Order and Comparator (slices, comparators, the separators they choose),
      Status (util/status.cc), Random (util/random.h), DbFormat (db/dbformat: internal keys).
    - Bloom (util/hash.cc, util/bloom.cc) and FilterBlock (table/filter_block.cc): filters have no
      false negatives, through the class [FilterPolicy].
    - Block (table/block_builder.cc, table/block.cc): BlockProps shows that what is built is
      iterated, forwards and backwards, and sought; BlockSafe that any bytes at all make the
      reader end with a status, and the one overflow that it misses.
    - Env (the interfaces of files), LogFile (db/log_writer.cc, db/log_reader.cc): LogProps
      reads a log back, whole or cut at any byte.
    - Arena (util/arena.cc) hands out addresses that do not overlap. SkipList (db/skiplist.h)
      stores nodes at such addresses; SkipProps and SkipSpec: the list is a sorted set, also for
      readers that look at it between any two stores of an insertion. MemTable (db/memtable.cc)
      uses the list; MemProps: a lookup answers the newest entry that is visible.
    - WriteBatch (db/write_batch.cc): batches are read back, and malformed ones rejected.
      DbWrite (db/db_impl.cc: the queue of writers, group commit, lookup in the memtable,
      recovery from a log); DbQueue: one group, and any interleaving of threads serves the requests
      in the order of the queue, and the one at the front gets on while the memtable has room; DbRecover: a crash loses a suffix of the groups at most
      (with paranoid checks, a log that was cut may be refused).
    - LruCache (util/cache.cc): handles in a heap, the hash table, the shards.
      LruTable: circular lists and chains in the heap. LruInsert: a shard refines an abstract one; LruClient, LruSpec: the shards share the heap; any program of a client runs, matches the abstract cache, loses no entry and never sees a stale one.
    - TableFormat (table/format.cc: handles, footer, stored blocks) and TableBuilder
      (table/table_builder.cc); TableFinish: the builder's invariant, and what is in a finished file. Iterator (the interface of iterators and its laws, cleanups,
      IteratorWrapper), IterProps (loops of clients; the instances), TwoLevel and TwoLevelProps
      (table/two_level_iterator.cc: the two-level iterator of iterators is one). Table
      (table/table.cc) over the interface of a block cache; TableProps: the iterator and the
      lookups of an open table; TableSpec: tables are read back.
    - Merger (table/merger.cc), MergerProps: the merging iterator keeps the laws of iterators over
      the sorted union of its children, when no key is in it twice. DbIter (db/db_iter.cc); DbIterProps: what a sequence number
      sees of sorted internal entries, and the iterator of a database keeps the laws over it.
      DbIterSpec: clients that move such iterators about, in any way.
    - FileName (db/filename.cc, the decimal numbers of util/logging.cc, the reading and writing of
      whole files of util/env.cc): names are parsed back, and the file CURRENT is changed as a whole
      or not at all, whatever fails.
    - VersionEdit (db/version_edit.cc): edits are read back, and what is decoded is well formed.
      VersionSet (db/version_set.cc: files by level, searches, overlaps, lookups, iterators), over
      the interface of the cache of tables; VersionProps: searches and overlaps; VersionIters:
      the files of a version and their entries, lookups, concatenating iterators; VersionSpec:
      a lookup in a version where newer entries are found first answers the newest visible entry, the iterators of a version show its entries.
    - VersionBuilder (db/version_set.cc: Builder); BuilderProps: edits applied at once give the
      version that applying them one by one gives.
    - Compaction (db/version_set.cc, db/db_impl.cc: choosing inputs, what a compaction drops, its
      outputs and its edit); CompactionSpec: dropping entries, levels without a key; a compaction
      keeps what readers see of each key, and the case in which the choice of inputs loses a value.
    - Manifest (db/version_set.cc: the numbers of the version set, LogAndApply, WriteSnapshot,
      Recover): the descriptor is a log whose first record is a snapshot of the version and whose
      other records are edits, and CURRENT names it. ManifestProps: what recovery reads back
      from a descriptor is the state that its writer had, or had at an earlier edit if it was cut.

    ** Interfaces

    [Store] (bsort's key-value store), [Comparator], [FilterPolicy], the files of Env, the
    [Handler] of a batch, [Allocator] (the blocks of the arena), [Malloc] (the addresses of cache
    entries), [Level0Spec] (tables written by recovery), [Snappy] (compression), [Iterator],
    [BlockCache], [TableCache] (open tables), [TableFiles] (the tables that a compaction writes)
    and [FileEnv] (creating, renaming and deleting files) are classes: the clients are proved against their laws, and each has an instance.

    ** Fuel

    Loops that read a stream or a chain of blocks get one round per byte of the file and one
    more, loops over pages one round per byte, msort's passes 64 rounds (the run length at
    least doubles and is an [int]); the theorems about them show a result, so the fuel is
    enough where they apply. Loops over machine integers (varints, the length of a hash
    table) have the number of rounds the width allows. Iterators of blocks and readers of
    batches consume a byte per round; a walk through a skip list has a round for each node and
    level, one through a chain or a circular list for each entry of the heap. The
    iterator of a table skips at most as many blocks as the index block has bytes. The loops of
    a database iterator pass each internal entry once at most, and its sampling loop draws at
    most two random periods per byte. The search for a file has a round per file; the search for
    overlapping files starts again at most twice per file; a concatenating iterator skips at most
    all its files; decoding an edit takes a byte per round, a compaction an entry, reading
    CURRENT a piece of the file, and reading a descriptor one of its records.

    ** Not modelled

    What programs print on standard error, the wall clock (a parameter), and the failure of
    writes by the C library. Of LevelDB: opening a database (the recovery of a log and of the descriptor are
    modelled, not their composition, nor the removal of files that are no longer used), when compactions are scheduled (the
    scores of levels, which are floating-point numbers, are arguments), references to versions and
    files, the cache of open tables, switching the memtable (a run stops where the memtable is
    full; a compaction goes on without looking for one), the environment over system calls, threads beyond the queue of writers (caches are used one operation at a
    time), its tools. Its Makefile defines NDEBUG; its assertions are modelled as if they were
    checked, so that the theorems show that they hold. jsoncpp; tests, benchmarks and scripts. *)
From Stdlib Require Export ZArith Lia ZifyBool.
From Stdlib Require Export Strings.Byte.
From stdpp Require Export base list list_numbers option.
Export list_basics.list list_relations.list list_monad.list list_misc.list
  list_tactics.list list_numbers.list.

#[export] Set Default Goal Selector "!".

Declare Scope c_scope.
Delimit Scope c_scope with c.

(** ** Lengths as integers *)

Abbreviation zlen l := (Z.of_nat (length l)).

Open Scope Z_scope.

(** ** Ways a C++ run stops early

    [UB]: undefined behaviour (an access outside its object, a null
    dereference, signed overflow, division by zero); [AssertFail]: a failed
    [assert]; [Exit c]: a call of [exit(c)]; [Diverge]: a loop of the model ran out
    of fuel (the loops whose source can run forever). *)

Inductive error : Type :=
  | UB
  | AssertFail
  | Exit (code : Z)
  | Diverge.

Inductive res (A : Type) : Type :=
  | Ok (a : A)
  | Err (e : error).
Arguments Ok {A} a.
Arguments Err {A} e.

#[export] Instance error_eq_dec : EqDecision error.
Proof. solve_decision. Defined.

#[export] Instance res_ret : MRet res := @Ok.
#[export] Instance res_bind : MBind res := λ A B f m,
  match m with Ok a => f a | Err e => Err e end.

Definition is_ok {A} (r : res A) : bool :=
  match r with Ok _ => true | Err _ => false end.

(** [assert(b)]: the Makefiles of the assignments do not define NDEBUG, so assertions are live. *)
Definition c_assert (b : bool) : res unit := if b then Ok tt else Err AssertFail.

(** An expression whose evaluation is undefined unless [b] holds. *)
Definition defined (b : bool) : res unit := if b then Ok tt else Err UB.

Definition of_option {A} (o : option A) : res A :=
  match o with Some a => Ok a | None => Err UB end.

(** Deterministic state passing over [res]: the functions that mutate an
    object through a pointer are computations in [st S]. *)
Definition st (S A : Type) : Type := S → res (A * S).

#[export] Instance st_ret S : MRet (st S) := λ A a s, Ok (a, s).
#[export] Instance st_bind S : MBind (st S) := λ A B f m s,
  match m s with Ok (a, s') => f a s' | Err e => Err e end.

Definition get_st {S} : st S S := λ s, Ok (s, s).
Definition gets {S A} (f : S → A) : st S A := λ s, Ok (f s, s).
Definition modify {S} (f : S → S) : st S unit := λ s, Ok (tt, f s).
Definition lift {S A} (r : res A) : st S A := λ s,
  match r with Ok a => Ok (a, s) | Err e => Err e end.

(** [wp m Q s]: from [s] the computation [m] returns (no error), and its
    result and final state satisfy [Q]: total correctness. *)
Definition wp {S A} (m : st S A) (Q : A → S → Prop) (s : S) : Prop :=
  match m s with Ok (a, s') => Q a s' | Err _ => False end.

Section wp.
Context {S : Type}.

Lemma wp_ret {A} (a : A) (Q : A → S → Prop) s : Q a s → wp (mret a) Q s.
Proof. done. Qed.

Lemma wp_bind {A B} (m : st S A) (f : A → st S B) (Q : B → S → Prop) s :
  wp m (λ a s', wp (f a) Q s') s → wp (m ≫= f) Q s.
Proof. unfold wp, mbind, st_bind. by destruct (m s) as [[a s']|]. Qed.

Lemma wp_gets {A} (f : S → A) (Q : A → S → Prop) s : Q (f s) s → wp (gets f) Q s.
Proof. done. Qed.

Lemma wp_modify (f : S → S) (Q : unit → S → Prop) s : Q tt (f s) → wp (modify f) Q s.
Proof. done. Qed.

Lemma wp_lift {A} (r : res A) (a : A) (Q : A → S → Prop) s :
  r = Ok a → Q a s → wp (lift r) Q s.
Proof. by intros ->. Qed.

(** One step of a run. *)
Lemma run_bind {A B} (m : st S A) (f : A → st S B) s a s' :
  m s = Ok (a, s') → (m ≫= f) s = f a s'.
Proof. unfold mbind, st_bind. by intros ->. Qed.

Lemma run_lift {A} (r : res A) a (s : S) : r = Ok a → lift r s = Ok (a, s).
Proof. unfold lift. by intros ->. Qed.

Lemma run_err {A B} (m : st S A) (f : A → st S B) s e :
  m s = Err e → (m ≫= f) s = Err e.
Proof. unfold mbind, st_bind. by intros ->. Qed.

Lemma lift_err {A} (r : res A) e (s : S) : r = Err e → lift r s = Err e.
Proof. unfold lift. by intros ->. Qed.

Lemma wp_mono {A} (m : st S A) (Q R : A → S → Prop) s :
  wp m Q s → (∀ a s', Q a s' → R a s') → wp m R s.
Proof. unfold wp. destruct (m s) as [[a s']|]; eauto. Qed.

Lemma wp_elim {A} (m : st S A) (Q : A → S → Prop) s :
  wp m Q s → ∃ a s', m s = Ok (a, s') ∧ Q a s'.
Proof. unfold wp. destruct (m s) as [[a s']|]; [eauto|done]. Qed.

Lemma wp_intro {A} (m : st S A) (Q : A → S → Prop) s a s' :
  m s = Ok (a, s') → Q a s' → wp m Q s.
Proof. unfold wp. by intros ->. Qed.
End wp.

(** Run the first computation of a sequence, whose result is the equation [H]. *)
Ltac run H := erewrite run_bind; [|apply H]; cbv beta iota.
Ltac run_lift H := erewrite run_bind; [|apply run_lift; apply H]; cbv beta iota.

(** ** Inversion of successful error-monad runs *)

Lemma bind_Ok {A B} (m : res A) (f : A → res B) b :
  m ≫= f = Ok b ↔ ∃ a, m = Ok a ∧ f a = Ok b.
Proof.
  destruct m as [a|e]; simpl; split.
  - eauto.
  - by intros (a' & [= ->] & ?).
  - done.
  - by intros (? & ? & ?).
Qed.

(** A successful [mret] in the hypotheses. *)
Ltac ret_eq := unfold mret, res_ret in *; simplify_eq/=.

Lemma c_assert_Ok b u : c_assert b = Ok u ↔ b = true.
Proof. destruct b, u; naive_solver. Qed.

Lemma defined_Ok b u : defined b = Ok u ↔ b = true.
Proof. destruct b, u; naive_solver. Qed.

Lemma c_assert_true b : b = true → c_assert b = Ok tt.
Proof. by intros ->. Qed.

Lemma defined_true b : b = true → defined b = Ok tt.
Proof. by intros ->. Qed.

(** Split a hypothesis [m1 ≫= (λ x, m2) = Ok _] into its steps. *)
Ltac inv_ok :=
  repeat match goal with
    | H : _ ≫= _ = Ok _ |- _ => apply bind_Ok in H as (? & ? & ?)
    | H : c_assert _ = Ok _ |- _ => apply c_assert_Ok in H
    | H : defined _ = Ok _ |- _ => apply defined_Ok in H
    | H : mret _ = Ok _ |- _ => injection H as H
    | H : Ok _ = Ok _ |- _ => injection H as H
    | H : Err _ = Ok _ |- _ => discriminate H
    end; subst.

(** ** Bytes

    [bz] is the value of an [unsigned char], [sz] of a [char] (signed on the
    x86 targets of the Makefiles), [zb] the conversion of an integer to a
    byte (reduction modulo 256). *)

#[export] Instance byte_eq_dec : EqDecision byte := Byte.byte_eq_dec.

Definition bz (b : byte) : Z := Z.of_N (Byte.to_N b).
Definition zb (z : Z) : byte := default x00 (Byte.of_N (Z.to_N (z mod 256))).
Definition sz (b : byte) : Z := if bz b <? 128 then bz b else bz b - 256.

Lemma bz_range b : 0 ≤ bz b < 256.
Proof. unfold bz. pose proof (Byte.to_N_bounded b). lia. Qed.

Lemma bz_zb z : bz (zb z) = z mod 256.
Proof.
  unfold bz, zb. pose proof (Z.mod_pos_bound z 256 ltac:(lia)).
  destruct (Byte.of_N (Z.to_N (z mod 256))) as [b|] eqn:E; simpl.
  - apply Byte.to_of_N in E. lia.
  - apply Byte.of_N_None_iff in E. lia.
Qed.

Lemma zb_bz b : zb (bz b) = b.
Proof. destruct b; reflexivity. Qed.

Lemma bz_inj b c : bz b = bz c → b = c.
Proof. intros H. by rewrite <-(zb_bz b), <-(zb_bz c), H. Qed.

Lemma bz_zb_small z : 0 ≤ z < 256 → bz (zb z) = z.
Proof. intros. rewrite bz_zb. by apply Z.mod_small. Qed.

Lemma zb_mod z : zb (z mod 256) = zb z.
Proof. unfold zb. by rewrite Z.mod_mod. Qed.

Lemma sz_testbit b i : 0 ≤ i < 8 → Z.testbit (sz b) i = Z.testbit (bz b) i.
Proof.
  intros Hi. unfold sz. pose proof (bz_range b). destruct (bz b <? 128); [done|].
  rewrite <-(Z.mod_pow2_bits_low (bz b - 256) 8 i), <-(Z.mod_pow2_bits_low (bz b) 8 i) by lia.
  f_equal. change (2^8) with 256. replace (bz b - 256) with (bz b + (-1) * 256) by lia.
  by rewrite Z.mod_add.
Qed.

(** ** Machine integers *)

(** [lia] with the defining inequations of quotients and remainders. *)
Ltac dlia := Z.to_euclidean_division_equations; lia.

(** The quotient and remainder of [s] by 8, as linear facts. *)
Ltac div8 s :=
  pose proof (Z.div_mod s 8 ltac:(lia)); pose proof (Z.mod_pos_bound s 8 ltac:(lia)).

Definition int_min : Z := - 2^31.
Definition int_max : Z := 2^31 - 1.
Definition is_int (z : Z) : bool := (int_min <=? z) && (z <=? int_max).

(** The result of signed [int] arithmetic: overflow is undefined. *)
Definition cint (z : Z) : res Z := if is_int z then Ok z else Err UB.

(** The same for the 64-bit [long] and [int64_t]. *)
Definition clong (z : Z) : res Z := _ ← defined ((- 2^63 <=? z) && (z <? 2^63)); mret z.

(** [int] division and remainder: truncating; undefined for a zero divisor. *)
Definition cdiv (a b : Z) : res Z := if b =? 0 then Err UB else cint (Z.quot a b).
Definition crem (a b : Z) : res Z :=
  if b =? 0 then Err UB else _ ← cint (Z.quot a b); mret (Z.rem a b).

(** Conversion of a wider value to [int] (two's complement). *)
Definition to_int (z : Z) : Z := (z + 2^31) mod 2^32 - 2^31.

Definition u32 (z : Z) : Z := z mod 2^32.
Definition u64 (z : Z) : Z := z mod 2^64.

Lemma is_int_true z : int_min ≤ z ≤ int_max → is_int z = true.
Proof. unfold is_int. intros. apply andb_true_intro. split; apply Z.leb_le; lia. Qed.

Lemma cint_ok z : int_min ≤ z ≤ int_max → cint z = Ok z.
Proof. intros. unfold cint. by rewrite is_int_true. Qed.

Lemma clong_ok z : - 2^63 ≤ z < 2^63 → clong z = Ok z.
Proof. intros. unfold clong. by rewrite defined_true by lia. Qed.

Lemma cint_Ok z y : cint z = Ok y → y = z ∧ int_min ≤ z ≤ int_max.
Proof.
  unfold cint, is_int. destruct (_ && _) eqn:E; [|done].
  apply andb_prop in E as [?%Z.leb_le ?%Z.leb_le]. intros [= ->]. lia.
Qed.

Lemma cdiv_nonneg a b : 0 ≤ a ≤ int_max → 0 < b → cdiv a b = Ok (a / b).
Proof.
  intros. unfold cdiv. destruct (Z.eqb_spec b 0); [lia|].
  rewrite Z.quot_div_nonneg by lia. apply cint_ok.
  pose proof (Z.div_pos a b). pose proof (Z.div_le_upper_bound a b a).
  unfold int_min, int_max in *. nia.
Qed.

Lemma crem_nonneg a b : 0 ≤ a ≤ int_max → 0 < b → crem a b = Ok (a mod b).
Proof.
  intros Ha Hb. pose proof (cdiv_nonneg a b Ha Hb) as H. unfold cdiv in H. unfold crem.
  destruct (Z.eqb_spec b 0); [lia|]. rewrite H. simpl. by rewrite Z.rem_mod_nonneg by lia.
Qed.

Lemma to_int_small z : int_min ≤ z ≤ int_max → to_int z = z.
Proof. unfold to_int, int_min, int_max. intros. rewrite Z.mod_small; lia. Qed.

Lemma u32_small z : 0 ≤ z < 2^32 → u32 z = z.
Proof. apply Z.mod_small. Qed.

Lemma u64_small z : 0 ≤ z < 2^64 → u64 z = z.
Proof. apply Z.mod_small. Qed.

Lemma u32_range z : 0 ≤ u32 z < 2^32.
Proof. by apply Z.mod_pos_bound. Qed.

Lemma u64_range z : 0 ≤ u64 z < 2^64.
Proof. by apply Z.mod_pos_bound. Qed.

Lemma u64_le z : 0 ≤ z → u64 z ≤ z.
Proof. intros Hz. by apply Z.mod_le. Qed.

(** [(int) ceil(k / 8.0)]: the double division is exact for every [int] [k]. *)
Definition ceil8 (k : Z) : Z := - ((- k) / 8).
Arguments ceil8 : simpl never.

(** ** Counting *)

(** How many of [0 .. n - 1] satisfy [f]. *)
Fixpoint count_upto (f : Z → bool) (n : nat) : Z :=
  match n with
  | O => 0
  | S m => count_upto f m + (if f (Z.of_nat m) then 1 else 0)
  end.

Lemma count_upto_range f n : 0 ≤ count_upto f n ≤ Z.of_nat n.
Proof. induction n; simpl count_upto; [lia|]. destruct (f _); lia. Qed.

Lemma count_upto_full f n :
  count_upto f n = Z.of_nat n ↔ ∀ i, 0 ≤ i < Z.of_nat n → f i = true.
Proof.
  induction n as [|n IH]; simpl count_upto; [split; intros; lia|].
  pose proof (count_upto_range f n). split.
  - intros Hc i Hi. destruct (f (Z.of_nat n)) eqn:E; [|lia].
    destruct (decide (i = Z.of_nat n)) as [->|]; [done|]. apply IH; lia.
  - intros Hall. rewrite Hall by lia. cut (count_upto f n = Z.of_nat n); [lia|].
    apply IH. intros. apply Hall. lia.
Qed.

Lemma count_upto_ext f g n :
  (∀ i, 0 ≤ i < Z.of_nat n → f i = g i) → count_upto f n = count_upto g n.
Proof.
  induction n as [|n IH]; intros Hfg; simpl; [done|].
  rewrite Hfg by lia. rewrite IH; [done|]. intros. apply Hfg. lia.
Qed.

Lemma count_upto_0 f n : (∀ i, 0 ≤ i < Z.of_nat n → f i = false) → count_upto f n = 0.
Proof.
  induction n as [|n IH]; intros Hf; simpl; [done|].
  rewrite Hf by lia. rewrite IH; [done|]. intros. apply Hf. lia.
Qed.

Lemma filter_keep {A} (P : A → Prop) `{∀ x, Decision (P x)} (l : list A) : (∀ x, x ∈ l → P x) → filter P l = l.
Proof.
  induction l as [|x l IH]; intros Hl; [done|]. rewrite filter_cons_True by (apply Hl; left).
  f_equal. apply IH. intros y Hy. apply Hl. by right.
Qed.

Lemma filter_drop {A} (P : A → Prop) `{∀ x, Decision (P x)} (l : list A) : (∀ x, x ∈ l → ¬ P x) → filter P l = [].
Proof.
  induction l as [|x l IH]; intros Hl; [done|]. rewrite filter_cons_False by (apply Hl; left).
  apply IH. intros y Hy. apply Hl. by right.
Qed.

Lemma concat_middle {A} (cs : list (list A)) i c : cs !! i = Some c → concat cs = concat (take i cs) ++ c ++ concat (drop (S i) cs).
Proof. intros Hi. rewrite <-(take_drop_middle cs i c Hi) at 1. by rewrite concat_app. Qed.

Lemma elem_concat {A} (cs : list (list A)) x : x ∈ concat cs ↔ ∃ i c, cs !! i = Some c ∧ x ∈ c.
Proof.
  rewrite list_elem_of_In, in_concat. split.
  - intros (c & Hc%list_elem_of_In & Hx%list_elem_of_In). apply list_elem_of_lookup in Hc as [i Hi]. by exists i, c.
  - intros (i & c & Hi & Hx). exists c. rewrite <-!list_elem_of_In. split; [|done]. by apply list_elem_of_lookup_2 in Hi.
Qed.

Lemma concat_split {A} (cs : list (list A)) i c : cs !! i = Some c →
  ∃ l1 l2, concat cs = l1 ++ c ++ l2 ∧ ∀ c', concat (<[i := c']> cs) = l1 ++ c' ++ l2.
Proof.
  intros Hi. exists (concat (take i cs)), (concat (drop (S i) cs)).
  pose proof (lookup_lt_Some _ _ _ Hi). split.
  - by apply concat_middle.
  - intros c'. rewrite insert_take_drop by done. by rewrite concat_app.
Qed.

Lemma concat_update {A} (cs : list (list A)) i c c' : cs !! i = Some c →
  ∃ l1 l2, concat cs = l1 ++ c ++ l2 ∧ concat (<[i := c']> cs) = l1 ++ c' ++ l2.
Proof. intros Hi. destruct (concat_split cs i c Hi) as (l1 & l2 & E1 & E2). exists l1, l2. by rewrite E2. Qed.

Lemma concat_apart {A} (cs : list (list A)) i j c d x : NoDup (concat cs) → cs !! i = Some c → cs !! j = Some d → i ≠ j → x ∈ c → x ∉ d.
Proof.
  intros Hnd Hi Hj Hij Hc Hd. destruct (concat_update cs i c [] Hi) as (l1 & l2 & E1 & E2).
  assert (x ∈ concat (<[i := []]> cs)) as Hin by (apply elem_concat; exists j, d; by rewrite list_lookup_insert_ne).
  rewrite E2 in Hin. rewrite E1 in Hnd. apply NoDup_app in Hnd as (_ & Hdis & (_ & Hdis2 & _)%NoDup_app).
  cbn [app] in Hin. apply elem_of_app in Hin as [Hin|Hin].
  - apply (Hdis x Hin), elem_of_app. by left.
  - by apply (Hdis2 x Hc).
Qed.

Lemma lookup_snoc {A} (l : list A) x : (l ++ [x]) !! length l = Some x.
Proof. by apply list_lookup_middle. Qed.

(** ** Single bits *)

Lemma land_bit_eqb x k : 0 ≤ k → (Z.land x (Z.shiftl 1 k) =? 0) = negb (Z.testbit x k).
Proof.
  intros Hk. rewrite Z.shiftl_1_l. destruct (Z.testbit x k) eqn:E; simpl.
  - apply Z.eqb_neq. intros H0.
    assert (Z.testbit (Z.land x (2 ^ k)) k = false) as Hf by (by rewrite H0, Z.bits_0).
    by rewrite Z.land_spec, E, Z.pow2_bits_true in Hf.
  - apply Z.eqb_eq, Z.bits_inj'. intros i Hi.
    rewrite Z.land_spec, Z.bits_0, Z.pow2_bits_eqb by done.
    destruct (Z.eqb_spec k i) as [<-|]; [by rewrite E|apply andb_false_r].
Qed.

Lemma zb_testbit z i : 0 ≤ i < 8 → Z.testbit (bz (zb z)) i = Z.testbit z i.
Proof. intros. rewrite bz_zb. change 256 with (2^8). apply Z.mod_pow2_bits_low. lia. Qed.

(** [b |= 1 << k] and [b &= ~(1 << k)] on a [char]. *)
Lemma set_bit_testbit b k i : 0 ≤ k → 0 ≤ i < 8 →
  Z.testbit (bz (zb (Z.lor (sz b) (Z.shiftl 1 k)))) i = (i =? k) || Z.testbit (bz b) i.
Proof.
  intros. rewrite zb_testbit, Z.lor_spec, sz_testbit, Z.shiftl_1_l, Z.pow2_bits_eqb by done.
  by rewrite orb_comm, Z.eqb_sym.
Qed.

Lemma clear_bit_testbit b k i : 0 ≤ k → 0 ≤ i < 8 →
  Z.testbit (bz (zb (Z.land (sz b) (Z.lnot (Z.shiftl 1 k))))) i =
    negb (i =? k) && Z.testbit (bz b) i.
Proof.
  intros. rewrite zb_testbit, Z.land_spec, Z.lnot_spec, sz_testbit, Z.shiftl_1_l,
    Z.pow2_bits_eqb by lia.
  by rewrite andb_comm, Z.eqb_sym.
Qed.

Lemma land_1_testbit x : Z.land x 1 = if Z.testbit x 0 then 1 else 0.
Proof.
  change 1 with (Z.ones 1) at 1. rewrite Z.land_ones by lia.
  change (2^1) with 2. rewrite <-Z.bit0_mod. by destruct (Z.testbit x 0).
Qed.
