(* ===== verification/Buffers.v ===== *)
(** * Byte buffers

    Objects of [char[n]] type as byte lists: bounds-checked accesses (an access
    outside the object is [UB]), the pure [slice]/[splice] they compute, and the
    4-byte little-endian [int]s the heap file's directory pages hold. *)
From S2P Require Import Prelude.

(** ** Pure slices *)

(** [n] bytes starting at [off]. *)
Definition slice (off n : Z) (l : list byte) : list byte :=
  take (Z.to_nat n) (drop (Z.to_nat off) l).

(** [l] with the bytes from [off] on overwritten by [bs]. *)
Definition splice (off : Z) (bs l : list byte) : list byte :=
  take (Z.to_nat off) l ++ bs ++ drop (Z.to_nat off + length bs) l.

(** ** Checked accesses *)

Definition in_range (off n : Z) (l : list byte) : bool :=
  (0 <=? off) && (0 <=? n) && (off + n <=? zlen l).

Definition get8 (l : list byte) (i : Z) : res byte :=
  _ ← defined (0 <=? i); of_option (l !! Z.to_nat i).

Definition read_bytes (l : list byte) (off n : Z) : res (list byte) :=
  _ ← defined (in_range off n l); mret (slice off n l).

Definition write_bytes (l : list byte) (off : Z) (bs : list byte) : res (list byte) :=
  _ ← defined (in_range off (zlen bs) l); mret (splice off bs l).

Definition set8 (l : list byte) (i : Z) (b : byte) : res (list byte) := write_bytes l i [b].

(** ** Lookup characterisations *)

Lemma lookup_slice off n l i :
  slice off n l !! i = if decide (i < Z.to_nat n)%nat then l !! (Z.to_nat off + i)%nat else None.
Proof.
  unfold slice. case_decide.
  - by rewrite lookup_take_lt, lookup_drop.
  - by rewrite lookup_take_ge by lia.
Qed.

Lemma lookup_splice off bs l i :
  (Z.to_nat off + length bs ≤ length l)%nat →
  splice off bs l !! i =
    if decide (i < Z.to_nat off)%nat then l !! i
    else if decide (i < Z.to_nat off + length bs)%nat then bs !! (i - Z.to_nat off)%nat
    else l !! i.
Proof.
  intros Hlen. unfold splice. repeat case_decide.
  - rewrite lookup_app_l by (rewrite length_take; lia). by rewrite lookup_take_lt.
  - rewrite lookup_app_r, length_take_le by (rewrite ?length_take; lia).
    by rewrite lookup_app_l by lia.
  - rewrite lookup_app_r, length_take_le by (rewrite ?length_take; lia).
    rewrite lookup_app_r, lookup_drop by lia. f_equal. lia.
Qed.

Lemma length_slice off n l :
  0 ≤ off → 0 ≤ n → off + n ≤ zlen l → zlen (slice off n l) = n.
Proof. intros. unfold slice. rewrite length_take, length_drop. lia. Qed.

Lemma length_splice off bs l :
  0 ≤ off → off + zlen bs ≤ zlen l → length (splice off bs l) = length l.
Proof. intros. unfold splice. rewrite !length_app, length_take, length_drop. lia. Qed.

Lemma in_range_true off n l : in_range off n l = true ↔ 0 ≤ off ∧ 0 ≤ n ∧ off + n ≤ zlen l.
Proof. unfold in_range. rewrite !andb_true_iff, !Z.leb_le. tauto. Qed.

(** Case analysis for goals about [slice], [splice] and list lookups. *)
Ltac slice_solver :=
  apply list_eq; intros ?i;
  repeat (rewrite lookup_slice || rewrite lookup_splice by lia);
  repeat case_decide; first [done | lia | f_equal; lia | idtac].

Lemma slice_splice_same off bs l :
  0 ≤ off → off + zlen bs ≤ zlen l → slice off (zlen bs) (splice off bs l) = bs.
Proof.
  intros. slice_solver.
  symmetry. apply lookup_ge_None. lia.
Qed.

Lemma slice_splice_disj o n off bs l :
  0 ≤ o → 0 ≤ off → off + zlen bs ≤ zlen l → o + n ≤ off ∨ off + zlen bs ≤ o →
  slice o n (splice off bs l) = slice o n l.
Proof. intros. slice_solver. Qed.

Lemma slice_slice o n off m l :
  0 ≤ o → 0 ≤ off → o + n ≤ m → slice o n (slice off m l) = slice (off + o) n l.
Proof. intros. slice_solver. Qed.

(** A splice inside a larger slice is a splice of that slice. *)
Lemma slice_splice_inside o n off bs l :
  0 ≤ o → o ≤ off → off + zlen bs ≤ o + n → o + n ≤ zlen l →
  slice o n (splice off bs l) = splice (off - o) bs (slice o n l).
Proof.
  intros. pose proof (length_slice o n l). apply list_eq. intros i.
  rewrite lookup_slice, !lookup_splice by lia.
  rewrite !lookup_slice. repeat case_decide; try lia; try done; f_equal; lia.
Qed.

Lemma slice_all l : slice 0 (zlen l) l = l.
Proof. unfold slice. rewrite Nat2Z.id. simpl. by rewrite drop_0, firstn_all. Qed.

Lemma slice_app_split off n m l :
  0 ≤ n → 0 ≤ m → 0 ≤ off → slice off (n + m) l = slice off n l ++ slice (off + n) m l.
Proof.
  intros. unfold slice. rewrite Z2Nat.inj_add by lia.
  rewrite <-(take_drop (Z.to_nat n) (take (Z.to_nat n + Z.to_nat m) _)).
  rewrite take_take, skipn_firstn_comm, drop_drop. f_equal; [f_equal; lia|].
  rewrite Z2Nat.inj_add by lia. f_equal. lia.
Qed.

Lemma slice_app_l off n l k : 0 ≤ off → 0 ≤ n → off + n ≤ zlen l → slice off n (l ++ k) = slice off n l.
Proof.
  intros. unfold slice. rewrite drop_app_le by lia.
  by rewrite take_app_le by (rewrite length_drop; lia).
Qed.

Lemma slice_app_r off n l k : off = zlen l → n = zlen k → slice off n (l ++ k) = k.
Proof.
  intros -> ->. unfold slice. rewrite !Nat2Z.id, drop_app_length. by rewrite firstn_all.
Qed.

Lemma get8_Ok l i b : 0 ≤ i → l !! Z.to_nat i = Some b → get8 l i = Ok b.
Proof.
  intros ? Hl. unfold get8. rewrite defined_true by (apply Z.leb_le; lia).
  simpl. by rewrite Hl.
Qed.

Lemma get8_in_range l i : 0 ≤ i < zlen l → ∃ b, l !! Z.to_nat i = Some b ∧ get8 l i = Ok b.
Proof.
  intros Hi. destruct (lookup_lt_is_Some_2 l (Z.to_nat i)) as [b Hb]; [lia|].
  exists b. split; [done|]. apply get8_Ok; [lia|done].
Qed.

Lemma read_bytes_Ok l off n :
  0 ≤ off → 0 ≤ n → off + n ≤ zlen l → read_bytes l off n = Ok (slice off n l).
Proof. intros. unfold read_bytes. by rewrite defined_true by (by apply in_range_true). Qed.

Lemma write_bytes_Ok l off bs :
  0 ≤ off → off + zlen bs ≤ zlen l → write_bytes l off bs = Ok (splice off bs l).
Proof. intros. unfold write_bytes. rewrite defined_true; [done|]. apply in_range_true. lia. Qed.

Lemma read_bytes_UB l off n : off + n > zlen l → read_bytes l off n = Err UB.
Proof.
  intros. unfold read_bytes, defined. destruct (in_range off n l) eqn:E; [|done].
  apply in_range_true in E. lia.
Qed.

Lemma write_bytes_UB l off bs : off + zlen bs > zlen l → write_bytes l off bs = Err UB.
Proof.
  intros. unfold write_bytes, defined. destruct (in_range off _ l) eqn:E; [|done].
  apply in_range_true in E. lia.
Qed.

Lemma set8_length l i b l' : set8 l i b = Ok l' → length l' = length l.
Proof.
  unfold set8, write_bytes, defined. destruct (in_range i (zlen [b]) l) eqn:E; [|done]. intros [= <-].
  apply in_range_true in E. by rewrite length_splice by lia.
Qed.

Lemma set8_splice1 l i b : splice i [b] l = take (Z.to_nat i) l ++ b :: drop (Z.to_nat i + 1) l.
Proof. done. Qed.

Lemma lookup_splice1 l i b j :
  0 ≤ i < zlen l → splice i [b] l !! j = if decide (j = Z.to_nat i) then Some b else l !! j.
Proof.
  intros. rewrite lookup_splice by (simpl; lia). simpl.
  repeat case_decide; subst; try lia; try done.
  by replace (Z.to_nat i - Z.to_nat i)%nat with 0%nat by lia.
Qed.

(** ** Little-endian integers *)

(** [n] bytes of [z], least significant first. *)
Fixpoint le_bytes (n : nat) (z : Z) : list byte :=
  match n with
  | O => []
  | S n => zb z :: le_bytes n (z / 256)
  end.

Fixpoint le_val (bs : list byte) : Z :=
  match bs with
  | [] => 0
  | b :: bs => bz b + 256 * le_val bs
  end.

Lemma length_le_bytes n z : length (le_bytes n z) = n.
Proof. revert z. induction n; intros; simpl; [done|by f_equal]. Qed.

Lemma le_val_bytes n z : le_val (le_bytes n z) = z mod 256 ^ Z.of_nat n.
Proof.
  revert z. induction n as [|n IH]; intros z; [by rewrite Z.mod_1_r|].
  simpl le_bytes. simpl le_val. rewrite IH, bz_zb.
  rewrite Nat2Z.inj_succ, Z.pow_succ_r by lia.
  rewrite Z.rem_mul_r; lia.
Qed.

Lemma le_val_range bs : 0 ≤ le_val bs < 256 ^ zlen bs.
Proof.
  induction bs as [|b bs IH]; simpl le_val; [simpl; lia|].
  pose proof (bz_range b). cbn [length]. rewrite Nat2Z.inj_succ, Z.pow_succ_r; lia.
Qed.

Lemma le_bytes_val bs : le_bytes (length bs) (le_val bs) = bs.
Proof.
  induction bs as [|b bs IH]; simpl; [done|]. pose proof (bz_range b).
  rewrite <-zb_mod, Z.mul_comm, Z_mod_plus_full, Z.mod_small, zb_bz by lia.
  rewrite Z.div_add, Z.div_small, Z.add_0_l by lia. by rewrite IH.
Qed.

Lemma le_val_app bs cs : le_val (bs ++ cs) = le_val bs + 256 ^ zlen bs * le_val cs.
Proof.
  induction bs as [|b bs IH]; [simpl; lia|]. cbn [app le_val length].
  rewrite IH, Nat2Z.inj_succ, Z.pow_succ_r by lia. lia.
Qed.

(** A 4-byte [int] object inside a buffer. *)
Definition load_int (l : list byte) (off : Z) : res Z :=
  bs ← read_bytes l off 4; mret (to_int (le_val bs)).

Definition store_int (l : list byte) (off v : Z) : res (list byte) :=
  write_bytes l off (le_bytes 4 (v mod 2^32)).

(** The [int] at [off] of a buffer long enough to hold it. *)
Definition int_at (l : list byte) (off : Z) : Z := to_int (le_val (slice off 4 l)).

Lemma load_int_Ok l off : 0 ≤ off → off + 4 ≤ zlen l → load_int l off = Ok (int_at l off).
Proof. intros. unfold load_int. by rewrite read_bytes_Ok by lia. Qed.

Lemma store_int_Ok l off v :
  0 ≤ off → off + 4 ≤ zlen l →
  store_int l off v = Ok (splice off (le_bytes 4 (v mod 2^32)) l).
Proof. intros. unfold store_int. by rewrite write_bytes_Ok by (rewrite ?length_le_bytes; lia). Qed.

Lemma to_int_mod z : to_int (z mod 2^32) = to_int z.
Proof. unfold to_int. by rewrite Zplus_mod_idemp_l. Qed.

Lemma int_at_store_same l off v :
  0 ≤ off → off + 4 ≤ zlen l → int_min ≤ v ≤ int_max →
  int_at (splice off (le_bytes 4 (v mod 2^32)) l) off = v.
Proof.
  intros. unfold int_at.
  pose proof (slice_splice_same off (le_bytes 4 (v mod 2^32)) l) as Hs.
  rewrite length_le_bytes in Hs. change (Z.of_nat 4) with 4 in Hs. rewrite Hs by lia.
  rewrite le_val_bytes. change (256 ^ Z.of_nat 4) with (2^32).
  rewrite Z.mod_mod, to_int_mod by lia. by apply to_int_small.
Qed.

Lemma int_at_splice_disj l o off bs :
  0 ≤ o → 0 ≤ off → off + zlen bs ≤ zlen l → o + 4 ≤ off ∨ off + zlen bs ≤ o →
  int_at (splice off bs l) o = int_at l o.
Proof. intros. unfold int_at. by rewrite slice_splice_disj. Qed.

Lemma int_at_range l off : int_min ≤ int_at l off ≤ int_max.
Proof.
  unfold int_at, to_int, int_min, int_max.
  pose proof (Z.mod_pos_bound (le_val (slice off 4 l) + 2^31) (2^32) ltac:(lia)). lia.
Qed.

Arguments le_bytes : simpl never.
Arguments le_val : simpl never.
Arguments slice : simpl never.
Arguments splice : simpl never.

Create Rewrite HintDb buf.
#[export] Hint Rewrite length_le_bytes : buf.
#[export] Hint Rewrite length_splice using lia : buf.
#[export] Hint Rewrite length_slice using lia : buf.
