(* ===== verification/CLib.v ===== *)
(** * The C library functions the programs call

    [<cstring>] functions on NUL-terminated strings, [atoi], [strtok], and the
    [FILE] streams of [<cstdio>]. A C string is the byte list its pointer points
    at; the functions look no further than the first NUL. *)
From Stdlib Require Import Strings.String.
From S2P Require Import Prelude Buffers.

#[local] Open Scope Z_scope.
#[local] Open Scope list_scope.

Abbreviation cstr := (list byte).

Definition NUL : byte := x00.
Definition COMMA : byte := x2c.
Definition NEWLINE : byte := x0a.

(** The characters before the first NUL. *)
Fixpoint until_nul (s : cstr) : cstr :=
  match s with
  | [] => []
  | b :: s => if decide (b = NUL) then [] else b :: until_nul s
  end.

Definition nul_free (s : cstr) : Prop := NUL ∉ s.

(** The [n] bytes [strncpy(dest, s, n)] stores: at most [n] characters, padded
    with NULs. *)
Definition strncpy_bytes (n : nat) (s : cstr) : list byte :=
  let s := take n (until_nul s) in s ++ replicate (n - length s) NUL.

(** Reading at most [n] characters of the string at offset [off] of an object:
    [strncpy]'s view of its source. It stops at a NUL or after [n] characters;
    running off the object before that is undefined. *)
Definition read_str (n : nat) (l : list byte) (off : Z) : res cstr :=
  _ ← defined ((0 <=? off) && (off <=? zlen l));
  let s := take n (drop (Z.to_nat off) l) in
  let t := until_nul s in
  if decide (length t < length s)%nat then mret t
  else _ ← defined (bool_decide (length s = n)); mret t.

(** [strcmp]: the sign of the first difference of the (unsigned) characters. *)
Fixpoint strcmp_aux (s t : cstr) : Z :=
  match s, t with
  | [], [] => 0
  | [], _ :: _ => -1
  | _ :: _, [] => 1
  | a :: s, b :: t => if bz a <? bz b then -1 else if bz b <? bz a then 1 else strcmp_aux s t
  end.
Definition strcmp (s t : cstr) : Z := strcmp_aux (until_nul s) (until_nul t).

(** [atoi]: white space, an optional sign, decimal digits. A value that is not
    an [int] is undefined behaviour. *)
Definition isspace (b : byte) : bool :=
  (bz b =? 32) || ((9 <=? bz b) && (bz b <=? 13)).
Definition isdigit (b : byte) : bool := (48 <=? bz b) && (bz b <=? 57).

Fixpoint skip_space (s : cstr) : cstr :=
  match s with b :: s' => if isspace b then skip_space s' else s | [] => [] end.

Fixpoint digits_val (acc : Z) (s : cstr) : Z :=
  match s with
  | b :: s' => if isdigit b then digits_val (10 * acc + (bz b - 48)) s' else acc
  | [] => acc
  end.

Definition atoi_val (s : cstr) : Z :=
  match skip_space (until_nul s) with
  | b :: s' =>
      if bz b =? 45 then - digits_val 0 s'
      else if bz b =? 43 then digits_val 0 s' else digits_val 0 (b :: s')
  | [] => 0
  end.

Definition atoi (s : cstr) : res Z := cint (atoi_val s).

(** Decimal digits of a non-negative integer, as [operator<<] and [%d] print it. *)
Fixpoint dec_aux (fuel : nat) (z : Z) (acc : cstr) : cstr :=
  match fuel with
  | O => acc
  | S f =>
      let acc := zb (48 + z mod 10) :: acc in
      if z <? 10 then acc else dec_aux f (z / 10) acc
  end.
Definition dec_of_nonneg (z : Z) : cstr := dec_aux (S (Z.to_nat (Z.log2 z))) z [].
Definition dec_of_Z (z : Z) : cstr :=
  if z <? 0 then x2d :: dec_of_nonneg (- z) else dec_of_nonneg z.

(** [strtok(line, ",")] and the following [strtok(NULL, ",")] calls: [strtok_next]
    takes what is left of the string and returns the next token and the rest. *)
Fixpoint skip_delim (d : byte) (s : cstr) : cstr :=
  match s with b :: s' => if decide (b = d) then skip_delim d s' else s | [] => [] end.

Fixpoint token_split (d : byte) (s : cstr) : cstr * cstr :=
  match s with
  | [] => ([], [])
  | b :: s' => if decide (b = d) then ([], s')
               else let '(t, r) := token_split d s' in (b :: t, r)
  end.

Definition strtok_next (d : byte) (s : cstr) : option (cstr * cstr) :=
  match skip_delim d s with
  | [] => None
  | s' => Some (token_split d s')
  end.

(** The tokens of the loop [for (t = strtok(s, d); t; t = strtok(NULL, d))]; each
    step consumes at least one character, so [length s] steps are enough. *)
Fixpoint strtok_loop (fuel : nat) (d : byte) (s : cstr) : list cstr :=
  match fuel with
  | O => []
  | S f => match strtok_next d s with
           | None => []
           | Some (t, r) => t :: strtok_loop f d r
           end
  end.
Definition strtok_all (d : byte) (s : cstr) : list cstr :=
  let s := until_nul s in strtok_loop (length s) d s.

(** ** FILE streams

    A stream is the file's bytes and the stream position; every write of the
    programs is flushed (or read back through the same stream) before it is
    observed, so no buffer is modelled. Writes do not fail. *)
Record FILE := MkFILE { fcontents : list byte; fpos : Z }.

(** [fseek(fp, off, SEEK_SET)]: a negative offset fails and leaves the position. *)
Definition fseek_set (off : Z) (f : FILE) : FILE :=
  if off <? 0 then f else MkFILE (fcontents f) off.
Definition fseek_end (f : FILE) : FILE := MkFILE (fcontents f) (zlen (fcontents f)).
Definition ftell (f : FILE) : Z := fpos f.
Definition rewind (f : FILE) : FILE := MkFILE (fcontents f) 0.

(** [fread(buf, 1, n, fp)]: the bytes read; fewer than [n] at the end of file. *)
Definition fread (n : Z) (f : FILE) : list byte * FILE :=
  let bs := slice (fpos f) n (fcontents f) in
  (bs, MkFILE (fcontents f) (fpos f + zlen bs)).

(** [fwrite(bs, 1, n, fp)]: overwrites or extends; a gap after the end of file
    reads as NULs. *)
Definition fwrite (bs : list byte) (f : FILE) : FILE :=
  let p := Z.to_nat (fpos f) in
  let c := fcontents f ++ replicate (p - length (fcontents f)) NUL in
  MkFILE (take p c ++ bs ++ drop (p + length bs) c) (fpos f + zlen bs).

(** [fgets(line, n, fp)]: up to [n - 1] bytes, through the first newline; NULL at
    the end of file. *)
Fixpoint take_line (n : nat) (s : list byte) : list byte :=
  match n, s with
  | S n, b :: s => if decide (b = NEWLINE) then [b] else b :: take_line n s
  | _, _ => []
  end.

Definition fgets (n : Z) (f : FILE) : option (list byte) * FILE :=
  match take_line (Z.to_nat (n - 1)) (drop (Z.to_nat (fpos f)) (fcontents f)) with
  | [] => (None, f)
  | l => (Some l, MkFILE (fcontents f) (fpos f + zlen l))
  end.

(** ** Files and outcomes of programs

    A program finds files by name; it ends with an exit status, what it printed on standard
    output and the files it leaves. *)

Definition str (s : string) : list byte := list_byte_of_string s.

Definition fs : Type := cstr → option (list byte).
Definition fs_set (name : cstr) (bs : list byte) (f : fs) : fs :=
  λ n, if decide (n = name) then Some bs else f n.

Record outcome := MkOutcome { status : Z; stdout : list byte; files : fs }.

Definition exit_with (code : Z) (f : fs) : res outcome := mret (MkOutcome code [] f).

(** [argv[i]]; the callers have checked [argc]. *)
Definition arg (argv : list cstr) (i : nat) : cstr := default [] (argv !! i).

(** ** Lemmas: strings *)

Lemma until_nul_id s : nul_free s → until_nul s = s.
Proof.
  unfold nul_free. induction s as [|b s IH]; simpl; [done|].
  intros H%not_elem_of_cons. destruct H as [H1 H2].
  case_decide; [by subst|]. by rewrite IH.
Qed.

Lemma until_nul_free s : nul_free (until_nul s).
Proof.
  unfold nul_free. induction s as [|b s IH]; simpl; [by apply not_elem_of_nil|].
  case_decide; [by apply not_elem_of_nil|].
  apply not_elem_of_cons. auto.
Qed.

Lemma until_nul_idemp s : until_nul (until_nul s) = until_nul s.
Proof. apply until_nul_id, until_nul_free. Qed.

Lemma until_nul_length s : (length (until_nul s) ≤ length s)%nat.
Proof. induction s; simpl; [done|]. case_decide; simpl; lia. Qed.

Lemma until_nul_app s t : nul_free s → until_nul (s ++ t) = s ++ until_nul t.
Proof.
  unfold nul_free. induction s as [|b s IH]; simpl; [done|].
  intros [H1 H2]%not_elem_of_cons. case_decide; [by subst|]. by rewrite IH.
Qed.

Lemma until_nul_app_nul s t : until_nul (s ++ NUL :: t) = until_nul s.
Proof. induction s as [|b s IH]; simpl; [done|]. case_decide; [done|]. by rewrite IH. Qed.

Lemma until_nul_take n s : until_nul (take n s) = take n (until_nul s).
Proof.
  revert n. induction s as [|b s IH]; intros [|n]; simpl; try done.
  case_decide; [done|]. simpl. by rewrite IH.
Qed.

Lemma nul_free_take n s : nul_free s → nul_free (take n s).
Proof.
  unfold nul_free. intros H Hin. apply H.
  rewrite <-(take_drop n s). by apply elem_of_app; left.
Qed.

Lemma length_strncpy n s : length (strncpy_bytes n s) = n.
Proof.
  unfold strncpy_bytes. rewrite length_app, length_replicate, length_take. lia.
Qed.

Lemma until_nul_replicate n : until_nul (replicate n NUL) = [].
Proof. by destruct n. Qed.

Lemma until_nul_strncpy n s : until_nul (strncpy_bytes n s) = take n (until_nul s).
Proof.
  unfold strncpy_bytes. rewrite until_nul_app by apply nul_free_take, until_nul_free.
  by rewrite until_nul_replicate, app_nil_r.
Qed.

(** Copying at most [n] characters twice is copying them once. *)
Lemma strncpy_bytes_idemp n s : strncpy_bytes n (take n (until_nul s)) = strncpy_bytes n s.
Proof.
  unfold strncpy_bytes. rewrite until_nul_id by apply nul_free_take, until_nul_free.
  by rewrite take_take, Nat.min_id.
Qed.

Lemma read_str_slice n l off :
  0 ≤ off → off + Z.of_nat n ≤ zlen l →
  read_str n l off = Ok (until_nul (slice off (Z.of_nat n) l)).
Proof.
  intros. unfold read_str. rewrite (defined_true (_ && _)) by lia.
  simpl. unfold slice. rewrite Nat2Z.id. case_decide; [done|].
  rewrite defined_true; [done|]. apply bool_decide_eq_true.
  rewrite length_take, length_drop. lia.
Qed.

(** ** Lemmas: streams *)

Lemma fseek_set_nonneg off f : 0 ≤ off → fseek_set off f = MkFILE (fcontents f) off.
Proof. intros. unfold fseek_set. destruct (Z.ltb_spec off 0); [lia|done]. Qed.

Lemma fread_in_range n f :
  0 ≤ fpos f → 0 ≤ n → fpos f + n ≤ zlen (fcontents f) →
  fread n f = (slice (fpos f) n (fcontents f), MkFILE (fcontents f) (fpos f + n)).
Proof. intros. unfold fread. by rewrite length_slice. Qed.

Lemma fwrite_in_range bs f :
  0 ≤ fpos f → fpos f + zlen bs ≤ zlen (fcontents f) →
  fwrite bs f = MkFILE (splice (fpos f) bs (fcontents f)) (fpos f + zlen bs).
Proof.
  intros. unfold fwrite, splice.
  replace (Z.to_nat (fpos f) - length (fcontents f))%nat with 0%nat by lia.
  by rewrite app_nil_r.
Qed.

Lemma fwrite_at_end bs f :
  fpos f = zlen (fcontents f) →
  fwrite bs f = MkFILE (fcontents f ++ bs) (fpos f + zlen bs).
Proof.
  intros Hp. unfold fwrite. rewrite Hp, Nat2Z.id, Nat.sub_diag. simpl. rewrite app_nil_r.
  by rewrite firstn_all, drop_ge, app_nil_r by lia.
Qed.

(** ** Lemmas: strtok *)

Lemma skip_delim_length d s : (length (skip_delim d s) ≤ length s)%nat.
Proof. induction s; simpl; [done|]. case_decide; simpl; lia. Qed.

Lemma token_split_length d s t r :
  token_split d s = (t, r) → (length r ≤ length s)%nat.
Proof.
  revert t r. induction s as [|b s IH]; simpl; intros t r; [by intros [= <- <-]|].
  case_decide; [intros [= <- <-]; lia|].
  destruct (token_split d s) as [t' r'] eqn:E. intros [= <- <-].
  specialize (IH _ _ eq_refl). lia.
Qed.

(** Every [strtok] step consumes input. *)
Lemma strtok_next_decreases d s t r : strtok_next d s = Some (t, r) → (length r < length s)%nat.
Proof.
  unfold strtok_next. pose proof (skip_delim_length d s) as Hl.
  destruct (skip_delim d s) as [|b s'] eqn:E; [done|].
  assert (b ≠ d) as Hb.
  { clear Hl. revert E. induction s as [|c s IH]; simpl; [done|].
    case_decide; [done|]. by intros [= -> ->]. }
  simpl. rewrite decide_False by done.
  destruct (token_split d s') as [t' r'] eqn:E'. intros [= <- <-].
  apply token_split_length in E'. simpl in Hl. lia.
Qed.

Lemma strtok_loop_enough f g d s :
  (length s ≤ f)%nat → (length s ≤ g)%nat → strtok_loop f d s = strtok_loop g d s.
Proof.
  revert g s. induction f as [|f IH]; intros g s Hf Hg.
  { destruct s; [|simpl in Hf; lia]. by destruct g. }
  destruct g as [|g]; [destruct s; [done|simpl in Hg; lia]|]. simpl.
  destruct (strtok_next d s) as [[t r]|] eqn:E; [|done].
  apply strtok_next_decreases in E. f_equal. apply IH; lia.
Qed.

(** The tokens of a string that is itself fields joined by the delimiter. *)
Definition join (d : byte) (fs : list cstr) : cstr :=
  match fs with
  | [] => []
  | f :: fs => f ++ concat (map (λ g, d :: g) fs)
  end.

Lemma token_split_free d f s : d ∉ f → token_split d (f ++ d :: s) = (f, s).
Proof.
  induction f as [|b f IH]; simpl; [by rewrite decide_True|].
  intros [? ?]%not_elem_of_cons. rewrite decide_False by congruence. by rewrite IH.
Qed.

Lemma token_split_end d f : d ∉ f → token_split d f = (f, []).
Proof.
  induction f as [|b f IH]; simpl; [done|].
  intros [? ?]%not_elem_of_cons. rewrite decide_False by congruence. by rewrite IH.
Qed.

Lemma strtok_next_token d f s :
  f ≠ [] → d ∉ f → strtok_next d (f ++ s) = Some (token_split d (f ++ s)).
Proof.
  intros Hf Hd. unfold strtok_next. destruct f as [|b f]; [done|]. simpl.
  apply not_elem_of_cons in Hd as [Hb _]. by rewrite decide_False by congruence.
Qed.

Lemma strtok_loop_join d fs n :
  Forall (λ f, f ≠ [] ∧ d ∉ f) fs → (length (join d fs) ≤ n)%nat →
  strtok_loop n d (join d fs) = fs.
Proof.
  intros Hall. revert n. induction Hall as [|f fs [Hne Hd] Hall IH]; intros n Hn.
  { by destruct n. }
  assert (∃ m, n = S m) as [m ->].
  { destruct n; [|eauto]. destruct f; [done|]. simpl in Hn. lia. }
  simpl in Hn. rewrite length_app in Hn. cbn [join strtok_loop].
  rewrite strtok_next_token by done.
  destruct fs as [|g fs]; simpl.
  - rewrite app_nil_r, token_split_end by done. by destruct m.
  - rewrite token_split_free by done. f_equal. apply IH.
    simpl in Hn |- *. destruct f; [done|]. simpl in Hn. rewrite length_app in Hn |- *. lia.
Qed.

Lemma strtok_all_join d fs :
  Forall (λ f, f ≠ [] ∧ (d ∉ f) ∧ nul_free f) fs → d ≠ NUL →
  strtok_all d (join d fs) = fs.
Proof.
  intros Hall Hd. unfold strtok_all. rewrite until_nul_id.
  - apply strtok_loop_join; [|lia]. eapply List.Forall_impl; [|exact Hall]. by intros f (? & ? & ?).
  - unfold nul_free. destruct fs as [|f fs]; [by apply not_elem_of_nil|].
    inversion Hall as [|?? (_ & _ & Hf) Hall']; subst. unfold join.
    intros [Hin|Hin]%(proj1 (elem_of_app _ _ _)); [by apply Hf|].
    clear Hf Hall. induction Hall' as [|g fs (_ & _ & Hg) _ IH]; simpl in Hin; [by apply elem_of_nil in Hin|].
    apply elem_of_cons in Hin as [?|[?|?]%elem_of_app]; [congruence|by apply Hg|by apply IH].
Qed.

(** *** Lines *)

Lemma take_line_newline n l rest : NEWLINE ∉ l → (length l < n)%nat →
  take_line n (l ++ NEWLINE :: rest) = l ++ [NEWLINE].
Proof.
  revert n. induction l as [|b l IH]; intros [|n] Hl Hn; simpl in *; try lia.
  - done.
  - apply not_elem_of_cons in Hl as [Hb Hl]. rewrite decide_False by congruence.
    by rewrite IH by (done || lia).
Qed.

Lemma take_line_nil n : take_line n [] = [].
Proof. by destruct n. Qed.

Lemma fgets_eof m bs : fgets m (MkFILE bs (zlen bs)) = (None, MkFILE bs (zlen bs)).
Proof. unfold fgets. cbn [fpos fcontents]. by rewrite Nat2Z.id, drop_all, take_line_nil. Qed.

(** A line that fits is read whole, newline included. *)
Lemma fgets_whole m pre body rest : NEWLINE ∉ body → zlen body + 1 < m →
  fgets m (MkFILE (pre ++ (body ++ [NEWLINE]) ++ rest) (zlen pre))
  = (Some (body ++ [NEWLINE]), MkFILE (pre ++ (body ++ [NEWLINE]) ++ rest) (zlen (pre ++ body ++ [NEWLINE]))).
Proof.
  intros Hb Hm. unfold fgets. cbn [fpos fcontents].
  rewrite Nat2Z.id, drop_app_length, <-!app_assoc. simpl app.
  rewrite take_line_newline by (done || lia). destruct (body ++ [NEWLINE]) eqn:E; [by destruct body|].
  rewrite <-E, !length_app. do 2 f_equal. lia.
Qed.

(** *** Decimal numbers *)

Lemma digit_isdigit d : 0 ≤ d < 10 → isdigit (zb (48 + d)) = true ∧ bz (zb (48 + d)) = 48 + d.
Proof. intros H. unfold isdigit. rewrite bz_zb_small by lia. lia. Qed.

Lemma dec_aux_val fuel : ∀ z a acc, 0 ≤ z < 10 ^ Z.of_nat fuel →
  ∃ k : nat, digits_val a (dec_aux fuel z acc) = digits_val (a * 10 ^ Z.of_nat k + z) acc.
Proof.
  induction fuel as [|fuel IH]; intros z a acc Hz.
  { exists 0%nat. simpl. f_equal. simpl in Hz. lia. }
  cbn [dec_aux]. pose proof (Z.mod_pos_bound z 10 ltac:(lia)) as Hm.
  destruct (digit_isdigit (z mod 10) Hm) as [Hd Hv]. destruct (Z.ltb_spec z 10).
  - exists 1%nat. cbn [digits_val]. rewrite Hd, Hv. f_equal. rewrite Z.mod_small by lia. lia.
  - rewrite Nat2Z.inj_succ, Z.pow_succ_r in Hz by lia.
    destruct (IH (z / 10) a (zb (48 + z mod 10) :: acc)) as [k Hk].
    { split; [apply Z.div_pos; lia|apply Z.div_lt_upper_bound; lia]. }
    exists (S k). rewrite Hk. cbn [digits_val]. rewrite Hd, Hv. f_equal.
    pose proof (Z.div_mod z 10 ltac:(lia)). rewrite Nat2Z.inj_succ, Z.pow_succ_r by lia. lia.
Qed.

Lemma dec_aux_digits fuel : ∀ z acc, Forall (λ b, isdigit b = true) acc →
  Forall (λ b, isdigit b = true) (dec_aux fuel z acc).
Proof.
  induction fuel as [|fuel IH]; intros z acc Hacc; [done|]. cbn [dec_aux].
  assert (Forall (λ b, isdigit b = true) (zb (48 + z mod 10) :: acc)).
  { constructor; [|done]. apply digit_isdigit. by apply Z.mod_pos_bound. }
  destruct (z <? 10); [done|by apply IH].
Qed.

Lemma dec_aux_nonempty fuel z acc : acc ≠ [] ∨ fuel ≠ O → dec_aux fuel z acc ≠ [].
Proof.
  revert z acc. induction fuel as [|fuel IH]; intros z acc H; simpl; [by destruct H|].
  destruct (z <? 10); [done|]. apply IH. by left.
Qed.

Lemma dec_of_nonneg_val z : 0 ≤ z → digits_val 0 (dec_of_nonneg z) = z.
Proof.
  intros Hz. destruct (dec_aux_val (S (Z.to_nat (Z.log2 z))) z 0 []) as [k Hk].
  - split; [done|]. destruct (decide (z = 0)) as [->|]; [done|].
    apply Z.lt_le_trans with (2 ^ Z.succ (Z.log2 z)); [apply Z.log2_spec; lia|].
    pose proof (Z.log2_nonneg z). rewrite Nat2Z.inj_succ, Z2Nat.id by done.
    apply Z.pow_le_mono_l. lia.
  - unfold dec_of_nonneg. by rewrite Hk.
Qed.

Lemma dec_of_nonneg_nul_free z : nul_free (dec_of_nonneg z).
Proof.
  pose proof (dec_aux_digits (S (Z.to_nat (Z.log2 z))) z [] (Forall_nil_2 _)) as H.
  unfold nul_free, dec_of_nonneg. intros Hin. rewrite Forall_forall in H. by specialize (H _ Hin).
Qed.

(** [atoi] reads back what [operator<<] prints. *)
Lemma atoi_dec z : 0 ≤ z → atoi_val (dec_of_Z z) = z.
Proof.
  intros Hz. unfold dec_of_Z. replace (z <? 0) with false by lia.
  unfold atoi_val. rewrite until_nul_id by apply dec_of_nonneg_nul_free.
  pose proof (dec_of_nonneg_val z Hz) as Hv.
  pose proof (dec_aux_digits (S (Z.to_nat (Z.log2 z))) z [] (Forall_nil_2 _)) as H.
  fold (dec_of_nonneg z) in H. destruct (dec_of_nonneg z) as [|b s] eqn:E; [done|].
  inversion H as [|? ? Hb _]; subst. unfold isdigit in Hb. simpl skip_space.
  unfold isspace. replace ((bz b =? 32) || _) with false by lia.
  replace (bz b =? 45) with false by lia. by replace (bz b =? 43) with false by lia.
Qed.
