(* ===== verification/Order.v ===== *)
(** * Three-way comparisons

    [CmpOrder]: a comparison function is a total preorder. The ways to build one from others,
    and the lexicographic order of byte strings. *)
From S2P Require Import Prelude CLib.

Class CmpOrder {X} (c : X → X → Z) : Prop := {
  cmp_anti : ∀ a b, Z.sgn (c a b) = - Z.sgn (c b a);
  cmp_trans : ∀ a b d, c a b ≤ 0 → c b d ≤ 0 → c a d ≤ 0 }.

Section order.
Context {X} (c : X → X → Z) {Hc : CmpOrder c}.

Lemma cmp_flip a b : c a b < 0 ↔ 0 < c b a.
Proof. pose proof (cmp_anti a b). lia. Qed.

Lemma cmp_refl a : c a a = 0.
Proof. pose proof (cmp_anti a a). lia. Qed.

Lemma cmp_eq_l a b d : c a b = 0 → Z.sgn (c a d) = Z.sgn (c b d).
Proof.
  intros E. pose proof (cmp_anti a b). pose proof (cmp_anti a d). pose proof (cmp_anti b d).
  pose proof (cmp_trans a b d). pose proof (cmp_trans b a d).
  pose proof (cmp_trans d a b). pose proof (cmp_trans d b a). lia.
Qed.

Lemma cmp_lt_le a b d : c a b < 0 → c b d ≤ 0 → c a d < 0.
Proof.
  intros H1 H2. pose proof (cmp_anti a b). pose proof (cmp_anti a d). pose proof (cmp_trans a b d).
  pose proof (cmp_trans b d a). lia.
Qed.

Lemma cmp_le_lt a b d : c a b ≤ 0 → c b d < 0 → c a d < 0.
Proof.
  intros H1 H2. pose proof (cmp_anti b d). pose proof (cmp_anti a d). pose proof (cmp_trans a b d).
  pose proof (cmp_trans d a b). lia.
Qed.
End order.

Definition lex_cmp {X} (c1 c2 : X → X → Z) (a b : X) : Z :=
  if c1 a b =? 0 then c2 a b else c1 a b.

#[export] Instance lex_order {X} (c1 c2 : X → X → Z) :
  CmpOrder c1 → CmpOrder c2 → CmpOrder (lex_cmp c1 c2).
Proof.
  intros H1 H2. split; unfold lex_cmp.
  - intros a b. pose proof (cmp_anti (c := c1) a b). pose proof (cmp_anti (c := c2) a b).
    repeat case_match; lia.
  - intros a b d.
    pose proof (cmp_anti (c := c1) a b). pose proof (cmp_anti (c := c1) b d).
    pose proof (cmp_anti (c := c1) a d). pose proof (cmp_trans (c := c1) a b d).
    pose proof (cmp_trans (c := c1) d a b). pose proof (cmp_trans (c := c1) b d a).
    pose proof (cmp_trans (c := c2) a b d). repeat case_match; lia.
Qed.

#[export] Instance on_order {X Y} (f : Y → X) (c : X → X → Z) :
  CmpOrder c → CmpOrder (λ a b, c (f a) (f b)).
Proof. intros H. split; intros; [apply (cmp_anti (c := c))|by eapply (cmp_trans (c := c))]. Qed.

#[export] Instance zero_order {X} : @CmpOrder X (λ _ _, 0).
Proof. by split. Qed.

#[export] Instance diff_order {X} (f : X → Z) : CmpOrder (λ a b, f a - f b).
Proof. split; intros; lia. Qed.

(** ** The lexicographic order of bytes *)

Lemma strcmp_aux_anti s t : strcmp_aux s t = - strcmp_aux t s.
Proof.
  revert t. induction s as [|a s IH]; intros [|b t]; simpl; try done.
  destruct (Z.ltb_spec (bz a) (bz b)), (Z.ltb_spec (bz b) (bz a)); try lia. apply IH.
Qed.

Lemma strcmp_aux_trans s t u : strcmp_aux s t ≤ 0 → strcmp_aux t u ≤ 0 → strcmp_aux s u ≤ 0.
Proof.
  revert t u. induction s as [|a s IH]; intros [|b t] [|d u]; simpl; try lia.
  destruct (Z.ltb_spec (bz a) (bz b)), (Z.ltb_spec (bz b) (bz a)), (Z.ltb_spec (bz b) (bz d)),
    (Z.ltb_spec (bz d) (bz b)), (Z.ltb_spec (bz a) (bz d)), (Z.ltb_spec (bz d) (bz a)); try lia.
  intros. by eapply IH.
Qed.
