(* ===== verification/RecordFmt.v ===== *)
(** * Records: a1/record.h, a1/record.cpp

    A [Record] is a vector of [const char*]; a pointer is modelled by the C string
    it points at, [None] is NULL (the value of every element of [Record rec(n)]).
    The strings are never modified after they are stored in a record, so values
    and pointers to them are not distinguished. *)
From S2P Require Import Prelude Buffers CLib.

Definition ATTRIBUTE_SIZE : Z := 10.

Abbreviation V := (option cstr).
Abbreviation record := (list (option cstr)).

(** [Record rec(n)]: [n] NULL pointers. *)
Definition new_record (n : nat) : record := replicate n None.

Definition fixed_len_sizeof (r : record) : Z := to_int (u64 (zlen r * ATTRIBUTE_SIZE)).

(** Serialise [r] into [buf] at [dest]: each attribute is [strncpy]'d into a
    field of ATTRIBUTE_SIZE bytes. *)
Fixpoint fixed_len_write (r : record) (buf : list byte) (dest : Z) : res (list byte) :=
  match r with
  | [] => mret buf
  | attr :: r =>
      s ← of_option attr;
      buf ← write_bytes buf dest (strncpy_bytes (Z.to_nat ATTRIBUTE_SIZE) s);
      fixed_len_write r buf (dest + ATTRIBUTE_SIZE)
  end.

Fixpoint read_attrs (n : nat) (buf : list byte) (src : Z) : res record :=
  match n with
  | O => mret []
  | S n =>
      value ← read_str (Z.to_nat ATTRIBUTE_SIZE) buf src;
      rest ← read_attrs n buf (src + ATTRIBUTE_SIZE);
      mret (Some value :: rest)
  end.

(** Deserialise into [r]: every element of [r] is replaced, whatever [size] is. *)
Definition fixed_len_read (buf : list byte) (src size : Z) (r : record) : res record :=
  _ ← c_assert (u64 (Z.quot size ATTRIBUTE_SIZE) <=? zlen r);
  read_attrs (length r) buf src.

Fixpoint print_attrs (r : record) : res (list byte) :=
  match r with
  | [] => Err UB
  | [a] => s ← of_option a; mret (until_nul s ++ [NEWLINE])
  | a :: r => s ← of_option a; rest ← print_attrs r; mret (until_nul s ++ COMMA :: rest)
  end.

(** What is printed; an empty record is indexed at [-1]. *)
Definition print_record_as_csv (r : record) : res (list byte) := print_attrs r.

(** The attribute a token is stored as: at most ATTRIBUTE_SIZE characters. *)
Definition attr_of_token (token : cstr) : cstr :=
  until_nul (strncpy_bytes (Z.to_nat ATTRIBUTE_SIZE) token).

Definition load_csv_record (r : record) (line : cstr) : res record :=
  let r := r ++ map (λ t, Some (attr_of_token t)) (strtok_all COMMA line) in
  _ ← c_assert (zlen r =? 100);
  mret r.

(** [tupId] points at 11 fresh bytes of which only the last is ever written:
    [uninit] stands for the 10 indeterminate ones. *)
Definition load_col_record (uninit : list byte) (r : record) (token : cstr) (tupleId : Z) : record :=
  let tupId := until_nul (take (Z.to_nat ATTRIBUTE_SIZE) uninit) in
  let attribute := attr_of_token token in
  r ++ [Some tupId; Some attribute].

(** ** The encoding *)

(** The bytes [fixed_len_write] stores for a record. *)
Fixpoint enc_record (r : list cstr) : list byte :=
  match r with
  | [] => []
  | s :: r => strncpy_bytes (Z.to_nat ATTRIBUTE_SIZE) s ++ enc_record r
  end.

(** What a stored attribute reads back as. *)
Definition trunc (s : cstr) : cstr := take (Z.to_nat ATTRIBUTE_SIZE) (until_nul s).

Lemma attr_of_token_trunc t : attr_of_token t = trunc t.
Proof. apply until_nul_strncpy. Qed.

Lemma trunc_idemp s : trunc (trunc s) = trunc s.
Proof.
  unfold trunc. rewrite until_nul_id by apply nul_free_take, until_nul_free.
  by rewrite take_take, Nat.min_id.
Qed.

Lemma length_enc_record r : zlen (enc_record r) = ATTRIBUTE_SIZE * zlen r.
Proof.
  induction r as [|s r IH]; [done|]. cbn [enc_record length].
  rewrite length_app, length_strncpy. unfold ATTRIBUTE_SIZE in *. lia.
Qed.

Lemma enc_record_trunc r : enc_record (map trunc r) = enc_record r.
Proof.
  induction r as [|s r IH]; simpl; [done|].
  unfold trunc at 1. by rewrite IH, strncpy_bytes_idemp.
Qed.

Lemma splice_app off bs cs l :
  0 ≤ off → off + zlen bs + zlen cs ≤ zlen l →
  splice (off + zlen bs) cs (splice off bs l) = splice off (bs ++ cs) l.
Proof.
  intros. pose proof (length_splice off bs l).
  apply list_eq. intros i.
  rewrite !lookup_splice by (rewrite ?length_app; lia). rewrite length_app.
  repeat case_decide; try lia; try done.
  - by rewrite lookup_app_l by lia.
  - rewrite lookup_app_r by lia. f_equal. lia.
Qed.

Lemma splice_nil off l : splice off [] l = l.
Proof. unfold splice. simpl. rewrite Nat.add_0_r. apply take_drop. Qed.

Lemma fixed_len_write_Ok r buf dest :
  0 ≤ dest → dest + ATTRIBUTE_SIZE * zlen r ≤ zlen buf →
  fixed_len_write (map Some r) buf dest = Ok (splice dest (enc_record r) buf).
Proof.
  revert buf dest. induction r as [|s r IH]; intros buf dest Hd Hlen.
  { cbn. by rewrite splice_nil. }
  cbn [map fixed_len_write length enc_record] in *. simpl mbind. unfold ATTRIBUTE_SIZE in *.
  pose proof (length_strncpy (Z.to_nat 10) s) as Hs.
  rewrite write_bytes_Ok by lia. simpl mbind. rewrite IH.
  - f_equal. rewrite <-splice_app; [f_equal; lia|lia|].
    pose proof (length_enc_record r) as He. unfold ATTRIBUTE_SIZE in He. lia.
  - lia.
  - rewrite length_splice by lia. lia.
Qed.

Lemma read_attrs_Ok r buf src :
  0 ≤ src → src + ATTRIBUTE_SIZE * zlen r ≤ zlen buf →
  slice src (ATTRIBUTE_SIZE * zlen r) buf = enc_record r →
  read_attrs (length r) buf src = Ok (map (λ s, Some (trunc s)) r).
Proof.
  revert src. induction r as [|s r IH]; intros src Hsrc Hlen Hsl; [done|].
  cbn [length read_attrs enc_record map] in *. unfold ATTRIBUTE_SIZE in *.
  rewrite read_str_slice by lia. simpl mbind.
  replace (10 * Z.of_nat (S (length r))) with (10 + 10 * zlen r) in Hsl by lia.
  rewrite slice_app_split in Hsl by lia.
  apply app_inj_1 in Hsl as [Hs Hr].
  - rewrite IH by (done || lia). simpl mbind.
    change (Z.of_nat (Z.to_nat 10)) with 10. by rewrite Hs, until_nul_strncpy.
  - rewrite length_strncpy. apply Nat2Z.inj. rewrite length_slice by lia. lia.
Qed.

(** The serialised form of a list of string attributes. *)
Definition attrs (r : record) : option (list cstr) := mapM id r.

Lemma print_attrs_Ok r :
  r ≠ [] → print_attrs (map Some r) = Ok (join COMMA (map until_nul r) ++ [NEWLINE]).
Proof.
  induction r as [|s [|t r] IH]; [done|..].
  - intros _. cbn. by rewrite app_nil_r.
  - intros _. cbn [map print_attrs] in *. rewrite IH by done. simpl.
    unfold join, mret, res_ret. f_equal. rewrite <-!app_assoc. simpl. by rewrite <-!app_assoc.
Qed.

(** ** Properties *)

(** A record of string attributes written with [fixed_len_write] into a large
    enough buffer is read back by [fixed_len_read] as the attributes cut to ATTRIBUTE_SIZE
    characters, from any offset, whatever the record read into held; the bytes of the
    buffer outside the written range are unchanged. *)
Theorem fixed_len_roundtrip (r : list cstr) (old : record) (buf : list byte) (off : Z)
    (Hoff : 0 ≤ off) (Hfit : off + ATTRIBUTE_SIZE * zlen r ≤ zlen buf)
    (Hold : length old = length r) (Hsize : zlen r < 2^60) :
  ∃ buf', fixed_len_write (map Some r) buf off = Ok buf'
    ∧ fixed_len_read buf' off (ATTRIBUTE_SIZE * zlen r) old = Ok (map (λ s, Some (trunc s)) r)
    ∧ length buf' = length buf
    ∧ ∀ i, Z.of_nat i < off ∨ off + ATTRIBUTE_SIZE * zlen r ≤ Z.of_nat i → buf' !! i = buf !! i.
Proof.
  pose proof (length_enc_record r) as He.
  eexists. split; [by apply fixed_len_write_Ok|]. repeat split.
  - unfold fixed_len_read. rewrite c_assert_true.
    + simpl. rewrite Hold. apply read_attrs_Ok; [done|rewrite length_splice; lia|].
      rewrite <-He. apply slice_splice_same; lia.
    + unfold ATTRIBUTE_SIZE in *. rewrite Z.mul_comm, Z.quot_mul by lia.
      rewrite u64_small by lia. lia.
  - apply length_splice; lia.
  - intros i Hi. rewrite lookup_splice by lia. repeat case_decide; lia || done.
Qed.

Lemma fixed_len_roundtrip_witness :
  let r := [[x61; x62]; replicate 13 x7a] in
  ∃ buf', fixed_len_write (map Some r) (replicate 30 x01) 5 = Ok buf'
    ∧ fixed_len_read buf' 5 20 [None; Some [x63]] = Ok [Some [x61; x62]; Some (replicate 10 x7a)]
    ∧ length buf' = 30%nat
    ∧ ∀ i, Z.of_nat i < 5 ∨ 5 + 20 ≤ Z.of_nat i → buf' !! i = replicate 30 x01 !! i.
Proof.
  apply (fixed_len_roundtrip [[x61; x62]; replicate 13 x7a] [None; Some [x63]]
           (replicate 30 x01) 5); vm_compute; congruence.
Defined.
