(* ===== verification/Page.v ===== *)
(** * Fixed-length-record pages: a1/page.h, a1/page.cpp

    A page is [page_size] bytes: record slots of [slot_size] bytes from the front
    and, from the last byte backwards, a bitmap with one flag per slot. The
    functions that take a [Page *] return the updated page. *)
From S2P Require Import Prelude Buffers CLib RecordFmt.

Record Page := MkPage { data : list byte; page_size : Z; slot_size : Z }.

Definition with_data (p : Page) (d : list byte) : Page := MkPage d (page_size p) (slot_size p).

(** ** Operations *)

Definition init_fixed_len_page (page_size slot_size : Z) : res Page :=
  _ ← c_assert ((0 <? slot_size) && (slot_size <? page_size));
  mret (MkPage (replicate (Z.to_nat page_size) NUL) page_size slot_size).

Definition fixed_len_page_capacity (p : Page) : res Z :=
  q ← cdiv (page_size p) (slot_size p);
  let directorySize := ceil8 q in
  cdiv (page_size p - directorySize) (slot_size p).

(** The inner loop over the bits of one bitmap byte. *)
Fixpoint count_bits (bits : nat) (charVal counter result numRecs : Z) : Z * Z :=
  match bits with
  | O => (counter, result)
  | S bits =>
      if counter <? numRecs
      then count_bits bits (Z.shiftr charVal 1) (counter + 1)
             (result + Z.land charVal 1) numRecs
      else (counter, result)
  end.

Fixpoint count_bytes (n : nat) (i : Z) (p : Page) (counter result numRecs : Z) : res Z :=
  match n with
  | O => mret result
  | S n =>
      charVal ← get8 (data p) (page_size p - i);
      let '(counter, result) := count_bits 8 (sz charVal) counter result numRecs in
      count_bytes n (i + 1) p counter result numRecs
  end.

Definition fixed_len_page_freeslots (p : Page) : res Z :=
  numRecs ← fixed_len_page_capacity p;
  let numBytes := ceil8 numRecs in
  result ← count_bytes (Z.to_nat numBytes) 1 p 0 0 numRecs;
  mret (numRecs - result).

Definition write_fixed_len_page (p : Page) (slot : Z) (r : record) : res Page :=
  _ ← c_assert (0 <=? slot);
  off ← cint (slot * slot_size p);
  d ← fixed_len_write r (data p) off;
  slot1 ← cint (slot + 1);
  let index := page_size p - ceil8 slot1 in
  b ← get8 d index;
  d ← set8 d index (zb (Z.lor (sz b) (Z.shiftl 1 (Z.rem slot 8))));
  mret (with_data p d).

Fixpoint find_bit (bits : nat) (charVal counter numRecs : Z) : Z * Z :=
  match bits with
  | O => (-1, counter)
  | S bits =>
      if counter <? numRecs
      then if Z.land charVal 1 =? 0 then (counter, counter)
           else find_bit bits (Z.shiftr charVal 1) (counter + 1) numRecs
      else (-1, counter)
  end.

Fixpoint find_slot (n : nat) (i : Z) (p : Page) (counter numRecs : Z) : res Z :=
  match n with
  | O => mret (-1)
  | S n =>
      charVal ← get8 (data p) (page_size p - i);
      let '(slot, counter) := find_bit 8 (sz charVal) counter numRecs in
      if 0 <=? slot then mret slot else find_slot n (i + 1) p counter numRecs
  end.

(** The slot written (or -1) and the page. *)
Definition add_fixed_len_page (p : Page) (r : record) : res (Z * Page) :=
  numRecs ← fixed_len_page_capacity p;
  slot ← find_slot (Z.to_nat (ceil8 numRecs)) 1 p 0 numRecs;
  p ← (if 0 <=? slot then write_fixed_len_page p slot r else mret p);
  mret (slot, p).

(** The flag is read but not acted on: [assert (valid > 0)] is commented out. *)
Definition read_fixed_len_page (p : Page) (slot : Z) (r : record) : res record :=
  _ ← c_assert (0 <=? slot);
  slot1 ← cint (slot + 1);
  let index := page_size p - ceil8 slot1 in
  b ← get8 (data p) index;
  let _valid := Z.land (sz b) (Z.shiftl 1 (Z.rem slot 8)) in
  off ← cint (slot * slot_size p);
  fixed_len_read (data p) off (slot_size p) r.

Definition delete_fixed_len_page (p : Page) (slot : Z) : res Page :=
  _ ← c_assert (0 <=? slot);
  slot1 ← cint (slot + 1);
  let index := page_size p - ceil8 slot1 in
  b ← get8 (data p) index;
  d ← set8 (data p) index (zb (Z.land (sz b) (Z.lnot (Z.shiftl 1 (Z.rem slot 8)))));
  mret (with_data p d).

Fixpoint next_filled_loop (fuel : nat) (p : Page) (slot numRecs : Z) : res Z :=
  match fuel with
  | O => mret (-1)
  | S fuel =>
      if slot <? numRecs then
        let index := page_size p - 1 - Z.quot slot 8 in
        let bit := Z.rem slot 8 in
        bit_fld ← get8 (data p) index;
        if negb (Z.land (sz bit_fld) (Z.shiftl 1 bit) =? 0) then mret slot
        else next_filled_loop fuel p (slot + 1) numRecs
      else mret (-1)
  end.

(** [slot] is at most [numRecs] after [numRecs - slot] rounds: the fuel. *)
Definition get_next_filled_slot (p : Page) (slot : Z) : res Z :=
  numRecs ← fixed_len_page_capacity p;
  slot ← cint (slot + 1);
  next_filled_loop (S (Z.to_nat (numRecs - slot))) p slot numRecs.

(** ** The abstract page: an array of optional records *)

(** The number of slots. *)
Definition cap (ps ss : Z) : Z := (ps - ceil8 (ps / ss)) / ss.
Abbreviation page_cap p := (cap (page_size p) (slot_size p)).

(** The flag of a slot. *)
Definition flag (d : list byte) (ps slot : Z) : bool :=
  match d !! Z.to_nat (ps - 1 - slot / 8) with
  | Some b => Z.testbit (bz b) (slot mod 8)
  | None => false
  end.

Definition slot_bytes (p : Page) (slot : Z) : list byte :=
  slice (slot * slot_size p) (slot_size p) (data p).

Definition slot_view (p : Page) (slot : Z) : option (list byte) :=
  if flag (data p) (page_size p) slot then Some (slot_bytes p slot) else None.

Definition page_view (p : Page) : list (option (list byte)) :=
  map (λ i, slot_view p (Z.of_nat i)) (seq 0 (Z.to_nat (page_cap p))).

(** The representation invariant [init_fixed_len_page] establishes. *)
Record page_ok (p : Page) : Prop := MkPageOk {
  ok_slot : 0 < slot_size p;
  ok_page : slot_size p < page_size p;
  ok_int : page_size p ≤ int_max;
  ok_len : zlen (data p) = page_size p }.

(** ** Geometry *)

Lemma ceil8_nonneg k : 0 ≤ k → 0 ≤ ceil8 k ∧ ceil8 k ≤ k ∧ k ≤ 8 * ceil8 k < k + 8.
Proof. unfold ceil8. intros. dlia. Qed.

Lemma ceil8_mono j k : j ≤ k → ceil8 j ≤ ceil8 k.
Proof. unfold ceil8. intros. dlia. Qed.

Section geometry.
Context (ps ss : Z) (Hss : 0 < ss) (Hps : ss < ps).

Lemma cap_bounds : 0 ≤ cap ps ss ∧ cap ps ss ≤ ps / ss
  ∧ cap ps ss * ss ≤ ps - ceil8 (ps / ss) ∧ ceil8 (cap ps ss) ≤ ceil8 (ps / ss)
  ∧ ceil8 (ps / ss) ≤ ps.
Proof.
  assert (0 ≤ ps / ss) by (apply Z.div_pos; lia).
  assert (ps / ss ≤ ps) by (apply Z.div_le_upper_bound; nia).
  pose proof (ceil8_nonneg (ps / ss)). unfold cap in *.
  assert (0 ≤ (ps - ceil8 (ps / ss)) / ss ≤ ps / ss).
  { split; [apply Z.div_pos; lia|]. apply Z.div_le_mono; lia. }
  pose proof (Z.mul_div_le (ps - ceil8 (ps / ss)) ss).
  repeat split; try lia. apply ceil8_mono. lia.
Qed.

(** The slots and the bitmap do not overlap. *)
Lemma cap_fits : cap ps ss * ss + ceil8 (cap ps ss) ≤ ps.
Proof. pose proof cap_bounds. lia. Qed.

Lemma cap_le_ps : cap ps ss ≤ ps.
Proof.
  pose proof cap_bounds. pose proof (ceil8_nonneg (ps / ss) ltac:(lia)).
  assert (cap ps ss * 1 ≤ cap ps ss * ss) by (apply Z.mul_le_mono_nonneg_l; lia). lia.
Qed.

(** Every page has at least one slot. *)
Lemma cap_pos : 1 ≤ cap ps ss.
Proof.
  unfold cap. apply Z.div_le_lower_bound; [lia|]. rewrite Z.mul_1_r.
  pose proof (Z.mul_div_le ps ss ltac:(lia)) as Hm.
  assert (1 ≤ ps / ss) as Hq by (apply Z.div_le_lower_bound; lia).
  pose proof (ceil8_nonneg (ps / ss) ltac:(lia)). nia.
Qed.

Lemma slot_fits s : 0 ≤ s < cap ps ss →
  0 ≤ s * ss ∧ s * ss + ss ≤ cap ps ss * ss ∧ cap ps ss * ss ≤ ps - 1 - s / 8
  ∧ ps - 1 - s / 8 < ps.
Proof.
  intros. pose proof cap_fits. pose proof (ceil8_nonneg (cap ps ss) ltac:(lia)).
  assert (s / 8 < ceil8 (cap ps ss)) by (apply Z.div_lt_upper_bound; lia).
  assert (0 ≤ s / 8) by (apply Z.div_pos; lia). nia.
Qed.
End geometry.

Lemma capacity_Ok p : page_ok p → fixed_len_page_capacity p = Ok (page_cap p).
Proof.
  intros [H1 H2 H3 H4]. unfold fixed_len_page_capacity.
  rewrite cdiv_nonneg by lia. cbn [mbind res_bind].
  pose proof (cap_bounds _ _ H1 H2) as (? & ? & ? & ? & ?).
  pose proof (ceil8_nonneg (page_size p / slot_size p)).
  by rewrite cdiv_nonneg by lia.
Qed.

(** ** Flags *)

(** The index expression of the bitmap byte of a slot, in its two forms. *)
Lemma flag_index ps slot : 0 ≤ slot → ps - ceil8 (slot + 1) = ps - 1 - slot / 8.
Proof. unfold ceil8. intros. dlia. Qed.

Lemma flag_splice1 d ps slot s b :
  zlen d = ps → 0 ≤ slot → slot / 8 < ps → 0 ≤ s → s / 8 < ps →
  flag (splice (ps - 1 - slot / 8) [b] d) ps s =
    if s / 8 =? slot / 8 then Z.testbit (bz b) (s mod 8) else flag d ps s.
Proof.
  intros. div8 slot. div8 s. unfold flag. rewrite lookup_splice1 by lia.
  destruct (Z.eqb_spec (s / 8) (slot / 8)); [by rewrite decide_True by lia|].
  by rewrite decide_False by lia.
Qed.

Lemma flag_splice_low d ps s off bs :
  zlen d = ps → 0 ≤ off → 0 ≤ s → s / 8 < ps → off + zlen bs ≤ ps - 1 - s / 8 →
  flag (splice off bs d) ps s = flag d ps s.
Proof.
  intros. div8 s. unfold flag. rewrite lookup_splice by lia. repeat case_decide; lia || done.
Qed.

Lemma flag_testbit d ps s b :
  d !! Z.to_nat (ps - 1 - s / 8) = Some b → flag d ps s = Z.testbit (bz b) (s mod 8).
Proof. unfold flag. by intros ->. Qed.

(** ** The bitmap loops *)

Section loops.
Context (p : Page) (Hp : page_ok p).
Local Abbreviation N := (page_cap p).
Local Abbreviation fl := (flag (data p) (page_size p)).

Lemma flag_byte j : 0 ≤ j < ceil8 N →
  ∃ b, get8 (data p) (page_size p - (j + 1)) = Ok b
    ∧ ∀ k, 0 ≤ k < 8 → fl (8 * j + k) = Z.testbit (sz b) k.
Proof.
  intros Hj. destruct Hp. pose proof (cap_bounds _ _ ok_slot0 ok_page0).
  destruct (get8_in_range (data p) (page_size p - (j + 1))) as (b & Hb & Hg); [lia|].
  exists b. split; [done|]. intros k Hk.
  rewrite sz_testbit by done.
  replace ((8 * j + k)) with (k + j * 8) by lia.
  rewrite (flag_testbit _ _ _ b).
  - by rewrite Z.mod_add, Z.mod_small by lia.
  - rewrite Z.div_add, Z.div_small by lia. rewrite <-Hb. f_equal. lia.
Qed.

Lemma count_bits_spec bits charVal c r n (f : Z → bool) :
  (∀ k, 0 ≤ k < Z.of_nat bits → f (c + k) = Z.testbit charVal k) →
  0 ≤ c ≤ n → r = count_upto f (Z.to_nat c) →
  let c' := Z.min n (c + Z.of_nat bits) in
  count_bits bits charVal c r n = (c', count_upto f (Z.to_nat c')).
Proof.
  revert charVal c r. induction bits as [|bits IH]; intros charVal c r Hf Hc ->; cbn [count_bits].
  { replace (Z.min n (c + Z.of_nat 0)) with c by lia. done. }
  destruct (Z.ltb_spec c n).
  - rewrite IH.
    + replace (c + 1 + Z.of_nat bits) with (c + Z.of_nat (S bits)) by lia. done.
    + intros k Hk. rewrite Z.shiftr_spec by lia. rewrite <-Hf by lia. f_equal. lia.
    + lia.
    + replace (Z.to_nat (c + 1)) with (S (Z.to_nat c)) by lia. simpl.
      rewrite land_1_testbit, <-Hf, Z2Nat.id by lia. by rewrite Z.add_0_r.
  - replace (Z.min n (c + Z.of_nat (S bits))) with c by lia. done.
Qed.

Lemma count_bytes_spec n j c :
  0 ≤ j → j + Z.of_nat n = ceil8 N → c = Z.min N (8 * j) →
  count_bytes n (j + 1) p c (count_upto fl (Z.to_nat c)) N = Ok (count_upto fl (Z.to_nat N)).
Proof.
  revert j c. induction n as [|n IH]; intros j c Hj Hn ->; cbn [count_bytes].
  { replace (Z.min N (8 * j)) with N by (unfold ceil8 in *; dlia). done. }
  destruct Hp. pose proof (cap_bounds _ _ ok_slot0 ok_page0) as (? & _).
  destruct (flag_byte j) as (b & -> & Hb); [lia|]. cbn [mbind res_bind].
  rewrite (count_bits_spec _ _ _ _ _ fl); [..|reflexivity].
  - apply IH; unfold ceil8 in *; dlia.
  - intros k Hk. rewrite <-Hb by lia. f_equal. unfold ceil8 in *; dlia.
  - unfold ceil8 in *; dlia.
Qed.

(** The number of slots in use. *)
Definition used : Z := count_upto fl (Z.to_nat N).

Lemma used_range : 0 ≤ used ≤ N.
Proof.
  destruct Hp. pose proof (cap_bounds _ _ ok_slot0 ok_page0) as (? & _).
  pose proof (count_upto_range fl (Z.to_nat N)). unfold used. lia.
Qed.

Lemma freeslots_used : fixed_len_page_freeslots p = Ok (N - used).
Proof.
  unfold fixed_len_page_freeslots. rewrite capacity_Ok by done. cbn [mbind res_bind].
  destruct Hp. pose proof (cap_bounds _ _ ok_slot0 ok_page0) as (? & _).
  pose proof (ceil8_nonneg N).
  pose proof (count_bytes_spec (Z.to_nat (ceil8 N)) 0 0) as Hc. simpl in Hc. change (0 + 1) with 1 in Hc.
  rewrite Hc by lia. done.
Qed.

(** [find_bit] stops at the first clear bit below [n]. *)
Lemma find_bit_spec bits charVal c n (f : Z → bool) :
  (∀ k, 0 ≤ k < Z.of_nat bits → f (c + k) = Z.testbit charVal k) → 0 ≤ c ≤ n →
  let '(slot, c') := find_bit bits charVal c n in
  (slot = -1 ∧ c' = Z.min n (c + Z.of_nat bits) ∧ (∀ i, c ≤ i < c' → f i = true))
  ∨ (c ≤ slot < n ∧ f slot = false ∧ ∀ i, c ≤ i < slot → f i = true).
Proof.
  revert charVal c. induction bits as [|bits IH]; intros charVal c Hf Hc; cbn [find_bit].
  { left. repeat split; lia. }
  destruct (Z.ltb_spec c n); [|left; repeat split; lia].
  rewrite land_1_testbit, <-(Hf 0), Z.add_0_r by lia.
  destruct (f c) eqn:E; simpl; [|right; repeat split; (lia || done)].
  assert (∀ k, 0 ≤ k < Z.of_nat bits → f (c + 1 + k) = Z.testbit (Z.shiftr charVal 1) k) as Hf'.
  { intros k Hk. rewrite Z.shiftr_spec by lia. rewrite <-Hf by lia. f_equal. lia. }
  specialize (IH _ (c + 1) Hf' ltac:(lia)).
  destruct (find_bit _ _ _ _) as [slot c'].
  destruct IH as [(-> & -> & Hi)|(? & ? & Hi)]; [left|right]; repeat split; try lia; try done.
  - intros i ?. destruct (decide (i = c)) as [->|]; [done|]. apply Hi. lia.
  - intros i ?. destruct (decide (i = c)) as [->|]; [done|]. apply Hi. lia.
Qed.

Lemma find_slot_spec n j c :
  0 ≤ j → j + Z.of_nat n = ceil8 N → c = Z.min N (8 * j) → (∀ i, 0 ≤ i < c → fl i = true) →
  (find_slot n (j + 1) p c N = Ok (-1) ∧ ∀ i, 0 ≤ i < N → fl i = true)
  ∨ (∃ s, find_slot n (j + 1) p c N = Ok s ∧ 0 ≤ s < N ∧ fl s = false
       ∧ ∀ i, 0 ≤ i < s → fl i = true).
Proof.
  revert j c. induction n as [|n IH]; intros j c Hj Hn -> Hall; cbn [find_slot].
  { left. split; [done|]. intros. apply Hall. unfold ceil8 in *; dlia. }
  destruct Hp. pose proof (cap_bounds _ _ ok_slot0 ok_page0) as (? & _).
  destruct (flag_byte j) as (b & -> & Hb); [lia|]. cbn [mbind res_bind].
  assert (Z.min N (8 * j) = 8 * j) as Hmin by (unfold ceil8 in *; dlia).
  rewrite Hmin in *.
  pose proof (find_bit_spec 8 (sz b) (8 * j) N fl Hb ltac:(lia)) as Hs.
  destruct (find_bit _ _ _ _) as [slot c'].
  destruct Hs as [(-> & -> & Hi)|(? & ? & Hi)].
  - simpl. apply IH; [lia|lia|lia|]. intros i ?.
    destruct (decide (i < 8 * j)); [apply Hall; lia|apply Hi; lia].
  - right. exists slot. destruct (Z.leb_spec 0 slot); [|lia].
    repeat split; try done; try lia. intros i ?.
    destruct (decide (i < 8 * j)); [apply Hall; lia|apply Hi; lia].
Qed.
End loops.

(** ** The operations on an initialised page *)

Lemma lookup_page_view p i :
  page_view p !! i =
    if decide (i < Z.to_nat (page_cap p))%nat then Some (slot_view p (Z.of_nat i)) else None.
Proof.
  unfold page_view. rewrite list_lookup_fmap. case_decide.
  - by rewrite lookup_seq_lt.
  - by rewrite lookup_seq_ge by lia.
Qed.

Lemma length_page_view p : length (page_view p) = Z.to_nat (page_cap p).
Proof. unfold page_view. by rewrite length_map, length_seq. Qed.

(** A page that differs from [p] only in what slot [s] holds. *)
Lemma page_view_insert p p' s v :
  page_size p' = page_size p → slot_size p' = slot_size p → 0 ≤ s < page_cap p →
  slot_view p' s = v → (∀ t, 0 ≤ t < page_cap p → t ≠ s → slot_view p' t = slot_view p t) →
  page_view p' = <[Z.to_nat s := v]> (page_view p).
Proof.
  intros E1 E2 Hs Hv Ho. apply list_eq. intros i.
  rewrite list_lookup_insert, !lookup_page_view, length_page_view, E1, E2.
  repeat case_decide; destruct_and?; subst; try lia; try done.
  - by rewrite Z2Nat.id by lia.
  - by rewrite Ho by lia.
Qed.

Section ops.
Context (p : Page) (Hp : page_ok p) (s : Z) (Hs : 0 ≤ s < page_cap p).
Local Abbreviation idx := (page_size p - 1 - s / 8).

Lemma slot_ints : cint (s * slot_size p) = Ok (s * slot_size p) ∧ cint (s + 1) = Ok (s + 1)
  ∧ page_size p - ceil8 (s + 1) = idx ∧ Z.rem s 8 = s mod 8.
Proof.
  destruct Hp. pose proof (slot_fits _ _ ok_slot0 ok_page0 s Hs). div8 s.
  unfold int_max in *. repeat split.
  - apply cint_ok. unfold int_min, int_max. lia.
  - apply cint_ok. unfold int_min, int_max. nia.
  - apply flag_index. lia.
  - by rewrite Z.rem_mod_nonneg by lia.
Qed.

(** Overwriting the bitmap byte of [s] after a write confined to slot [s]. *)
Lemma flag_update (d : list byte) b t :
  zlen d = page_size p → 0 ≤ t < page_cap p →
  flag (splice idx [b] d) (page_size p) t =
    if t / 8 =? s / 8 then Z.testbit (bz b) (t mod 8) else flag d (page_size p) t.
Proof.
  intros Hd Ht. destruct Hp.
  pose proof (slot_fits _ _ ok_slot0 ok_page0 s Hs) as (? & ? & ? & ?).
  pose proof (slot_fits _ _ ok_slot0 ok_page0 t Ht) as (? & ? & ? & ?).
  apply flag_splice1; lia || nia.
Qed.

Lemma slots_disjoint t : 0 ≤ t < page_cap p → t ≠ s →
  t * slot_size p + slot_size p ≤ s * slot_size p ∨ s * slot_size p + slot_size p ≤ t * slot_size p.
Proof. intros. destruct Hp. nia. Qed.

(** The page [delete_fixed_len_page] leaves. *)
Definition deleted : Page :=
  let b := default NUL (data p !! Z.to_nat idx) in
  with_data p (splice idx [zb (Z.land (sz b) (Z.lnot (Z.shiftl 1 (s mod 8))))] (data p)).

Lemma delete_Ok : delete_fixed_len_page p s = Ok deleted.
Proof.
  destruct slot_ints as (E1 & E2 & E3 & E4).
  destruct Hp. pose proof (slot_fits _ _ ok_slot0 ok_page0 s Hs) as (? & ? & ? & ?).
  unfold delete_fixed_len_page. rewrite c_assert_true by lia. cbn [mbind res_bind].
  rewrite E2. cbn [mbind res_bind]. rewrite E3, E4.
  destruct (get8_in_range (data p) idx) as (b & Hb & ->); [lia|]. cbn [mbind res_bind].
  unfold set8. rewrite write_bytes_Ok by (simpl; lia). cbn [mbind res_bind].
  unfold deleted. by rewrite Hb.
Qed.

Lemma deleted_ok : page_ok deleted.
Proof.
  destruct Hp. pose proof (slot_fits _ _ ok_slot0 ok_page0 s Hs) as (? & ? & ? & ?).
  split; try done. unfold deleted. cbn [data with_data page_size].
  rewrite length_splice; simpl; lia.
Qed.

Lemma deleted_view t : 0 ≤ t < page_cap p →
  slot_view deleted t = if decide (t = s) then None else slot_view p t.
Proof.
  intros Ht. destruct Hp.
  pose proof (slot_fits _ _ ok_slot0 ok_page0 s Hs) as (? & ? & ? & ?).
  pose proof (slot_fits _ _ ok_slot0 ok_page0 t Ht) as (? & ? & ? & ?).
  div8 s. div8 t. unfold slot_view, slot_bytes, deleted.
  destruct (get8_in_range (data p) idx) as (b & Hb & _); [lia|]. rewrite Hb.
  cbn [data with_data slot_size page_size default].
  rewrite slice_splice_disj by (simpl; lia).
  rewrite flag_update, clear_bit_testbit by lia.
  destruct (Z.eqb_spec (t / 8) (s / 8)) as [E|].
  - rewrite (flag_testbit (data p) _ t b) by (by rewrite E).
    case_decide; [subst; by rewrite Z.eqb_refl|].
    destruct (Z.eqb_spec (t mod 8) (s mod 8)); [lia|done].
  - case_decide; [congruence|done].
Qed.

(** The page [write_fixed_len_page] leaves. *)
Definition written (r : list cstr) : Page :=
  let d := splice (s * slot_size p) (enc_record r) (data p) in
  let b := default NUL (d !! Z.to_nat idx) in
  with_data p (splice idx [zb (Z.lor (sz b) (Z.shiftl 1 (s mod 8)))] d).

Context (r : list cstr) (Hr : ATTRIBUTE_SIZE * zlen r ≤ slot_size p).

Lemma write_Ok : write_fixed_len_page p s (map Some r) = Ok (written r).
Proof.
  destruct slot_ints as (E1 & E2 & E3 & E4).
  destruct Hp. pose proof (slot_fits _ _ ok_slot0 ok_page0 s Hs) as (? & ? & ? & ?).
  pose proof (length_enc_record r).
  unfold write_fixed_len_page. rewrite c_assert_true by lia. cbn [mbind res_bind].
  rewrite E1. cbn [mbind res_bind].
  rewrite fixed_len_write_Ok by lia. cbn [mbind res_bind]. rewrite E2. cbn [mbind res_bind].
  rewrite E3, E4. set (d := splice _ _ _).
  assert (length d = length (data p)) as Hd by (apply length_splice; lia).
  destruct (get8_in_range d idx) as (b & Hb & ->); [lia|]. cbn [mbind res_bind].
  unfold set8. rewrite write_bytes_Ok by (simpl; lia). cbn [mbind res_bind].
  unfold written. fold d. by rewrite Hb.
Qed.

Lemma written_ok : page_ok (written r).
Proof.
  destruct Hp. pose proof (slot_fits _ _ ok_slot0 ok_page0 s Hs) as (? & ? & ? & ?).
  pose proof (length_enc_record r).
  split; try done. unfold written. cbn [data with_data page_size].
  rewrite length_splice; rewrite ?length_splice; simpl; lia.
Qed.

Lemma written_flag t : 0 ≤ t < page_cap p →
  flag (data (written r)) (page_size p) t = (t =? s) || flag (data p) (page_size p) t.
Proof.
  intros Ht. destruct Hp.
  pose proof (slot_fits _ _ ok_slot0 ok_page0 s Hs) as (? & ? & ? & ?).
  pose proof (slot_fits _ _ ok_slot0 ok_page0 t Ht) as (? & ? & ? & ?).
  pose proof (length_enc_record r). div8 s. div8 t.
  unfold written. cbn [data with_data]. set (d := splice (_ * _) _ _).
  assert (zlen d = page_size p) as Hd by (unfold d; rewrite length_splice; lia).
  destruct (get8_in_range d idx) as (b & Hb & _); [lia|]. rewrite Hb. simpl.
  assert (flag d (page_size p) t = flag (data p) (page_size p) t) as Hf
    by (apply flag_splice_low; lia).
  rewrite flag_update, set_bit_testbit by lia.
  destruct (Z.eqb_spec (t / 8) (s / 8)) as [E|].
  - rewrite <-Hf, (flag_testbit d _ t b) by (by rewrite E).
    destruct (Z.eqb_spec (t mod 8) (s mod 8)), (Z.eqb_spec t s); try done; lia.
  - destruct (Z.eqb_spec t s); [congruence|done].
Qed.

Lemma written_bytes t : 0 ≤ t < page_cap p →
  slot_bytes (written r) t =
    if decide (t = s) then splice 0 (enc_record r) (slot_bytes p s) else slot_bytes p t.
Proof.
  intros Ht. destruct Hp.
  pose proof (slot_fits _ _ ok_slot0 ok_page0 s Hs) as (? & ? & ? & ?).
  pose proof (slot_fits _ _ ok_slot0 ok_page0 t Ht) as (? & ? & ? & ?).
  pose proof (length_enc_record r). pose proof (slots_disjoint t Ht).
  pose proof (length_splice (s * slot_size p) (enc_record r) (data p)).
  unfold slot_bytes, written. cbn [data with_data slot_size].
  rewrite slice_splice_disj by (simpl; lia). case_decide as E.
  - subst t. rewrite slice_splice_inside by lia. f_equal. lia.
  - apply slice_splice_disj; lia.
Qed.

Lemma written_view t : 0 ≤ t < page_cap p →
  slot_view (written r) t =
    if decide (t = s) then Some (splice 0 (enc_record r) (slot_bytes p s)) else slot_view p t.
Proof.
  intros Ht. unfold slot_view. rewrite written_bytes by done.
  change (page_size (written r)) with (page_size p). rewrite written_flag by done.
  case_decide; [subst; by rewrite Z.eqb_refl|].
  by destruct (Z.eqb_spec t s).
Qed.
End ops.

(** With a record that fills its slot, the slot holds exactly its encoding. *)
Lemma splice_full bs l : length bs = length l → splice 0 bs l = bs.
Proof.
  intros. unfold splice. simpl. rewrite drop_ge by lia. apply app_nil_r.
Qed.

Lemma length_slot_bytes p s : page_ok p → 0 ≤ s < page_cap p → zlen (slot_bytes p s) = slot_size p.
Proof.
  intros [] Hs. pose proof (slot_fits _ _ ok_slot0 ok_page0 s Hs) as (? & ? & ? & ?).
  apply length_slice; lia.
Qed.

(** ** Lemmas on the scanning operations *)

Lemma slot_view_None p s : slot_view p s = None ↔ flag (data p) (page_size p) s = false.
Proof. unfold slot_view. by destruct (flag _ _ _). Qed.

Lemma slot_view_Some p s v : slot_view p s = Some v →
  flag (data p) (page_size p) s = true ∧ v = slot_bytes p s.
Proof. unfold slot_view. destruct (flag _ _ _); [|done]. by intros [= <-]. Qed.

Lemma lookup_view_Some p i v : page_view p !! i = Some v →
  (i < Z.to_nat (page_cap p))%nat ∧ v = slot_view p (Z.of_nat i).
Proof. rewrite lookup_page_view. case_decide; [|done]. by intros [= <-]. Qed.

Lemma add_Ok p r : page_ok p → ATTRIBUTE_SIZE * zlen r ≤ slot_size p →
  (add_fixed_len_page p (map Some r) = Ok (-1, p)
     ∧ ∀ i, 0 ≤ i < page_cap p → flag (data p) (page_size p) i = true)
  ∨ (∃ s, 0 ≤ s < page_cap p ∧ flag (data p) (page_size p) s = false
       ∧ (∀ i, 0 ≤ i < s → flag (data p) (page_size p) i = true)
       ∧ add_fixed_len_page p (map Some r) = Ok (s, written p s r)).
Proof.
  intros Hp Hr. unfold add_fixed_len_page. rewrite capacity_Ok by done. cbn [mbind res_bind].
  pose proof Hp as [ok1 ok2 _ _]. pose proof (cap_bounds _ _ ok1 ok2) as (? & _).
  pose proof (ceil8_nonneg (page_cap p)).
  pose proof (find_slot_spec p Hp (Z.to_nat (ceil8 (page_cap p))) 0 0) as Hf.
  change (0 + 1) with 1 in Hf.
  destruct Hf as [[-> Hall]|(s & -> & Hs & Hfl & Hmin)]; try lia; [left|right].
  - done.
  - exists s. repeat split; try done; try lia. cbn [mbind res_bind].
    destruct (Z.leb_spec 0 s); [|lia]. by rewrite write_Ok.
Qed.

Lemma next_filled_loop_spec p fuel s : page_ok p → 0 ≤ s → page_cap p - s < Z.of_nat fuel →
  let fl := flag (data p) (page_size p) in
  (next_filled_loop fuel p s (page_cap p) = Ok (-1) ∧ ∀ t, s ≤ t < page_cap p → fl t = false)
  ∨ (∃ t, next_filled_loop fuel p s (page_cap p) = Ok t ∧ s ≤ t < page_cap p ∧ fl t = true
       ∧ ∀ u, s ≤ u < t → fl u = false).
Proof.
  intros Hp. revert s. induction fuel as [|fuel IH]; intros s Hs Hfuel; cbn [next_filled_loop].
  { left. split; [done|]. lia. }
  destruct (Z.ltb_spec s (page_cap p)); [|left; split; [done|lia]].
  pose proof Hp as []. pose proof (slot_fits _ _ ok_slot0 ok_page0 s ltac:(lia)) as (? & ? & ? & ?).
  div8 s. rewrite Z.quot_div_nonneg, Z.rem_mod_nonneg by lia.
  destruct (get8_in_range (data p) (page_size p - 1 - s / 8)) as (b & Hb & ->); [lia|].
  cbn [mbind res_bind]. rewrite land_bit_eqb, negb_involutive, sz_testbit by lia.
  rewrite <-(flag_testbit (data p) _ s b) by done.
  destruct (flag (data p) (page_size p) s) eqn:E.
  { right. exists s. repeat split; (lia || done). }
  destruct (IH (s + 1)) as [[-> Hall]|(t & -> & Ht & Htf & Hmin)]; [lia..|left|right].
  - split; [done|]. intros t ?. destruct (decide (t = s)) as [->|]; [done|apply Hall; lia].
  - exists t. repeat split; try lia; try done.
    intros u ?. destruct (decide (u = s)) as [->|]; [done|apply Hmin; lia].
Qed.

Lemma next_filled_Ok p s : page_ok p → -1 ≤ s < int_max →
  let fl := flag (data p) (page_size p) in
  (get_next_filled_slot p s = Ok (-1) ∧ ∀ t, s < t < page_cap p → fl t = false)
  ∨ (∃ t, get_next_filled_slot p s = Ok t ∧ s < t < page_cap p ∧ fl t = true
       ∧ ∀ u, s < u < t → fl u = false).
Proof.
  intros Hp Hs fl. unfold get_next_filled_slot. rewrite capacity_Ok by done. cbn [mbind res_bind].
  rewrite cint_ok by (unfold int_min; lia). cbn [mbind res_bind].
  destruct (next_filled_loop_spec p (S (Z.to_nat (page_cap p - (s + 1)))) (s + 1) Hp)
    as [[-> Hall]|(t & -> & Ht & Htf & Hmin)]; [lia..|left|right].
  - split; [done|]. intros. apply Hall. lia.
  - exists t. repeat split; try lia; try done. intros. apply Hmin. lia.
Qed.

(** Reading a slot back: [r] is any record of the length written. *)
Lemma read_Ok p s r (old : record) : page_ok p → 0 ≤ s < page_cap p →
  ATTRIBUTE_SIZE * zlen r = slot_size p → length old = length r →
  slot_bytes p s = enc_record r →
  read_fixed_len_page p s old = Ok (map (λ a, Some (trunc a)) r).
Proof.
  intros Hp Hs Hr Hold Hb. destruct (slot_ints p Hp s Hs) as (E1 & E2 & E3 & E4).
  pose proof Hp as []. pose proof (slot_fits _ _ ok_slot0 ok_page0 s Hs) as (? & ? & ? & ?).
  unfold read_fixed_len_page. rewrite c_assert_true by lia. cbn [mbind res_bind].
  rewrite E2. cbn [mbind res_bind]. rewrite E3.
  div8 s. destruct (get8_in_range (data p) (page_size p - 1 - s / 8)) as (b & _ & ->); [lia|].
  cbn [mbind res_bind]. rewrite E1. cbn [mbind res_bind].
  unfold fixed_len_read. rewrite c_assert_true.
  - cbn [mbind res_bind]. rewrite Hold. apply read_attrs_Ok; [lia..|]. by rewrite Hr.
  - unfold ATTRIBUTE_SIZE, int_max in *. rewrite <-Hr, Z.mul_comm, Z.quot_mul, u64_small; lia.
Qed.

(** The view counts and finds what the bitmap says. *)
Lemma filter_None_count (g : Z → option (list byte)) n :
  zlen (filter (λ o, o = None) (map (λ i, g (Z.of_nat i)) (seq 0 n)))
    = Z.of_nat n - count_upto (λ i, match g i with Some _ => true | None => false end) n.
Proof.
  induction n as [|n IH]; [done|].
  rewrite seq_S, map_app, filter_app, length_app, Nat2Z.inj_add, IH. simpl.
  rewrite filter_cons, filter_nil. destruct (g (Z.of_nat n)); simpl; lia.
Qed.

Lemma list_find_None_view p :
  (∀ i, 0 ≤ i < page_cap p → flag (data p) (page_size p) i = true) →
  list_find (λ o, o = None) (page_view p) = None.
Proof.
  intros Hall. apply list_find_None, Forall_forall. intros o Ho ->.
  apply list_elem_of_lookup in Ho as [i [Hi Hv]%lookup_view_Some].
  symmetry in Hv. apply slot_view_None in Hv. by rewrite Hall in Hv by lia.
Qed.

Lemma list_find_Some_view p s : 0 ≤ s < page_cap p →
  flag (data p) (page_size p) s = false →
  (∀ i, 0 ≤ i < s → flag (data p) (page_size p) i = true) →
  list_find (λ o, o = None) (page_view p) = Some (Z.to_nat s, None).
Proof.
  intros Hs Hf Hmin. apply list_find_Some. repeat split.
  - rewrite lookup_page_view, decide_True by lia. f_equal.
    rewrite Z2Nat.id by lia. by apply slot_view_None.
  - intros j y [Hj ->]%lookup_view_Some Hlt.
    rewrite slot_view_None, Hmin by lia. done.
Qed.

(** The page [init_fixed_len_page] makes. *)
Definition fresh_page (ps ss : Z) : Page := MkPage (replicate (Z.to_nat ps) NUL) ps ss.

Section fresh.
Context (ps ss : Z) (Hss : 0 < ss < ps) (Hps : ps ≤ int_max).

Lemma init_Ok : init_fixed_len_page ps ss = Ok (fresh_page ps ss).
Proof. unfold init_fixed_len_page. by rewrite c_assert_true by lia. Qed.

Lemma fresh_ok : page_ok (fresh_page ps ss).
Proof. split; simpl; rewrite ?length_replicate; lia. Qed.

Lemma fresh_flag i : flag (data (fresh_page ps ss)) ps i = false.
Proof.
  unfold flag. destruct (data (fresh_page ps ss) !! _) as [b|] eqn:E; [|done].
  apply lookup_replicate in E as [-> _]. apply Z.testbit_0_l.
Qed.

Lemma fresh_used : used (fresh_page ps ss) = 0.
Proof. apply count_upto_0. intros. apply fresh_flag. Qed.

Lemma fresh_view : page_view (fresh_page ps ss) = replicate (Z.to_nat (cap ps ss)) None.
Proof.
  apply list_eq. intros i. rewrite lookup_page_view. simpl. case_decide.
  - rewrite lookup_replicate_2 by lia. f_equal. apply slot_view_None, fresh_flag.
  - symmetry. apply lookup_replicate_None. lia.
Qed.
End fresh.

(** ** Properties *)

(** Insertion in terms of the slot array. *)
Lemma add_view_Ok p r : page_ok p → ATTRIBUTE_SIZE * zlen r = slot_size p →
  match list_find (λ o, o = None) (page_view p) with
  | Some (i, _) => ∃ p', add_fixed_len_page p (map Some r) = Ok (Z.of_nat i, p')
      ∧ page_view p' = <[i := Some (enc_record r)]> (page_view p) ∧ page_ok p'
      ∧ page_size p' = page_size p ∧ slot_size p' = slot_size p
  | None => add_fixed_len_page p (map Some r) = Ok (-1, p)
  end.
Proof.
  intros Hp Hr. destruct (add_Ok p r Hp) as [[-> Hall]|(s & Hs & Hf & Hmin & ->)]; [lia|..].
  { by rewrite list_find_None_view. }
  rewrite (list_find_Some_view p s) by done. rewrite Z2Nat.id by lia.
  eexists. split; [done|]. split; [|split_and!; [apply written_ok; (lia || done)|done..]].
  apply page_view_insert; try done.
  - rewrite written_view, decide_True by (lia || done). f_equal. apply splice_full.
    pose proof (length_enc_record r). pose proof (length_slot_bytes p s Hp Hs). lia.
  - intros t Ht Hne. by rewrite written_view, decide_False by (lia || done).
Qed.

Lemma freeslots_view_Ok p : page_ok p →
  fixed_len_page_freeslots p = Ok (zlen (filter (λ o, o = None) (page_view p))).
Proof.
  intros Hp. rewrite freeslots_used by done. f_equal. unfold page_view, used.
  rewrite (filter_None_count (slot_view p)).
  destruct Hp. pose proof (cap_bounds _ _ ok_slot0 ok_page0) as (? & _).
  rewrite Z2Nat.id by lia. f_equal. apply count_upto_ext.
  intros i _. unfold slot_view. by destruct (flag _ _ _).
Qed.

(** On every initialised page [add_fixed_len_page] implements insertion at the
    first free slot of the abstract slot array: it returns that slot's number and stores
    the record's encoding there, every other slot (free or filled) keeping its contents;
    when no slot is free it returns -1 and leaves the page as it is. The page stays
    well formed. *)
Theorem add_refines (p : Page) (r : list cstr)
    (Hp : page_ok p) (Hr : ATTRIBUTE_SIZE * zlen r = slot_size p) :
  match list_find (λ o, o = None) (page_view p) with
  | Some (i, _) => ∃ p', add_fixed_len_page p (map Some r) = Ok (Z.of_nat i, p')
      ∧ page_view p' = <[i := Some (enc_record r)]> (page_view p) ∧ page_ok p'
  | None => add_fixed_len_page p (map Some r) = Ok (-1, p)
  end.
Proof.
  pose proof (add_view_Ok p r Hp Hr) as H. destruct (list_find _ _) as [[i o]|]; [|done].
  destruct H as (p' & ? & ? & ? & _). by exists p'.
Qed.

(** A small page: two 10-byte slots and one bitmap byte. *)
Definition sample_page : Page := MkPage (replicate 24 NUL) 24 10.

Lemma sample_page_ok : page_ok sample_page.
Proof. by split. Qed.

Lemma add_refines_witness :
  ∃ p', add_fixed_len_page sample_page [Some [x61]] = Ok (0, p')
    ∧ page_view p' = [Some (x61 :: replicate 9 NUL); None] ∧ page_ok p'.
Proof. exact (add_refines sample_page [[x61]] sample_page_ok eq_refl). Defined.

(** [fixed_len_page_freeslots] is the number of free slots of the abstract slot
    array, on every initialised page: bits of the bitmap past the last slot are not
    counted. *)
Theorem freeslots_counts (p : Page) (Hp : page_ok p) :
  fixed_len_page_freeslots p = Ok (zlen (filter (λ o, o = None) (page_view p))).
Proof. by apply freeslots_view_Ok. Qed.

Lemma freeslots_counts_witness :
  fixed_len_page_freeslots (MkPage (replicate 23 NUL ++ [xfe]) 24 10) = Ok 1.
Proof. apply (freeslots_counts (MkPage (replicate 23 NUL ++ [xfe]) 24 10)). by split. Defined.

(** Claim C29. The slots and the slot bitmap fit into a page without overlap: the capacity
    [fixed_len_page_capacity] computes leaves room for one flag per slot after the last
    slot, for every page and slot size [init_fixed_len_page] accepts, and a fresh page has
    that many free slots. *)
Theorem capacity_safe (ps ss : Z) (Hss : 0 < ss < ps) (Hps : ps ≤ int_max) :
  ∃ p n, init_fixed_len_page ps ss = Ok p ∧ page_ok p
    ∧ fixed_len_page_capacity p = Ok n ∧ 0 ≤ n ∧ n * ss + ceil8 n ≤ ps
    ∧ fixed_len_page_freeslots p = Ok n ∧ page_view p = replicate (Z.to_nat n) None.
Proof.
  pose proof (cap_bounds ps ss) as Hb. pose proof (cap_fits ps ss).
  pose proof (fresh_ok ps ss Hss Hps) as Hp.
  exists (fresh_page ps ss), (cap ps ss). split_and!; try done; try lia.
  - by apply init_Ok.
  - by apply capacity_Ok.
  - rewrite freeslots_used, fresh_used by done. f_equal. simpl. lia.
  - apply fresh_view.
Qed.

Lemma capacity_safe_witness :
  ∃ p n, init_fixed_len_page 20000 1000 = Ok p ∧ page_ok p
    ∧ fixed_len_page_capacity p = Ok n ∧ 0 ≤ n ∧ n * 1000 + ceil8 n ≤ 20000
    ∧ fixed_len_page_freeslots p = Ok n ∧ page_view p = replicate (Z.to_nat n) None.
Proof. apply (capacity_safe 20000 1000); unfold int_max; lia. Defined.

(** The capacity is not the largest number of slots that would fit: a 1620-byte
    page of 10-byte slots is given 159, though 160 slots and their 20 flag bytes fill it
    exactly. *)
Theorem capacity_not_maximal :
  ∃ p n, init_fixed_len_page 1620 10 = Ok p ∧ fixed_len_page_capacity p = Ok n
    ∧ n = 159 ∧ (n + 1) * 10 + ceil8 (n + 1) ≤ 1620.
Proof. do 2 eexists. split; [reflexivity|]. split; [reflexivity|]. by vm_compute. Qed.

(** Write, read and delete act on one slot of an initialised page: after
    [write_fixed_len_page] a read of the slot returns the attributes cut to ATTRIBUTE_SIZE
    characters, after [delete_fixed_len_page] the slot is free, and in both cases every
    other slot is untouched and the page stays well formed. *)
Theorem slot_ops (p : Page) (s : Z) (r : list cstr) (old : record)
    (Hp : page_ok p) (Hs : 0 ≤ s < page_cap p)
    (Hr : ATTRIBUTE_SIZE * zlen r = slot_size p) (Hold : length old = length r) :
  (∃ p', write_fixed_len_page p s (map Some r) = Ok p' ∧ page_ok p'
     ∧ page_view p' = <[Z.to_nat s := Some (enc_record r)]> (page_view p)
     ∧ read_fixed_len_page p' s old = Ok (map (λ a, Some (trunc a)) r))
  ∧ (∃ p', delete_fixed_len_page p s = Ok p' ∧ page_ok p'
     ∧ page_view p' = <[Z.to_nat s := None]> (page_view p)).
Proof.
  pose proof (length_enc_record r) as He. pose proof (length_slot_bytes p s Hp Hs).
  assert (slot_bytes (written p s r) s = enc_record r) as Hb.
  { rewrite written_bytes, decide_True by (lia || done). apply splice_full. lia. }
  split.
  - exists (written p s r). split_and!.
    + by apply write_Ok; try lia.
    + by apply written_ok; try lia.
    + apply page_view_insert; try done.
      * rewrite written_view, decide_True by (lia || done). f_equal. apply splice_full. lia.
      * intros t Ht Hne. by rewrite written_view, decide_False by (lia || done).
    + apply read_Ok; try done. by apply written_ok; try lia.
  - exists (deleted p s). split_and!.
    + by apply delete_Ok.
    + by apply deleted_ok.
    + apply page_view_insert; try done.
      * by rewrite deleted_view, decide_True by done.
      * intros t Ht Hne. by rewrite deleted_view, decide_False by done.
Qed.

Lemma slot_ops_witness :
  (∃ p', write_fixed_len_page sample_page 1 [Some [x61; x62]] = Ok p' ∧ page_ok p'
     ∧ page_view p' = [None; Some (x61 :: x62 :: replicate 8 NUL)]
     ∧ read_fixed_len_page p' 1 [None] = Ok [Some [x61; x62]])
  ∧ (∃ p', delete_fixed_len_page sample_page 1 = Ok p' ∧ page_ok p'
     ∧ page_view p' = [None; None]).
Proof.
  apply (slot_ops sample_page 1 [[x61; x62]] [None]); [apply sample_page_ok|..]; vm_compute; intuition congruence.
Defined.

(** [get_next_filled_slot] finds the least filled slot after the given one, and
    returns -1 exactly when there is none; the loop terminates. *)
Theorem next_filled_least (p : Page) (s : Z) (Hp : page_ok p) (Hs : -1 ≤ s < int_max) :
  ∃ t, get_next_filled_slot p s = Ok t
    ∧ ((t = -1 ∧ ∀ u, s < u < zlen (page_view p) → page_view p !! Z.to_nat u = Some None)
       ∨ (s < t ∧ (∃ v, page_view p !! Z.to_nat t = Some (Some v))
            ∧ ∀ u, s < u < t → page_view p !! Z.to_nat u = Some None)).
Proof.
  assert (∀ u, 0 ≤ u < page_cap p → flag (data p) (page_size p) u = false →
    page_view p !! Z.to_nat u = Some None) as Hnone.
  { intros u Hu Hf. rewrite lookup_page_view, decide_True by lia.
    f_equal. rewrite Z2Nat.id by lia. by apply slot_view_None. }
  destruct (next_filled_Ok p s Hp Hs) as [[-> Hall]|(t & -> & Ht & Hf & Hmin)].
  - exists (-1). split; [done|]. left. split; [done|].
    rewrite length_page_view. intros u Hu. apply Hnone; [lia|]. apply Hall. lia.
  - exists t. split; [done|]. right. split_and!; [lia|..].
    + exists (slot_bytes p t). rewrite lookup_page_view, decide_True, Z2Nat.id by lia.
      unfold slot_view. by rewrite Hf.
    + intros u Hu. apply Hnone; [lia|]. apply Hmin. lia.
Qed.

Lemma next_filled_least_witness :
  let p := MkPage (replicate 23 NUL ++ [x02]) 24 10 in
  ∃ t, get_next_filled_slot p (-1) = Ok t
    ∧ ((t = -1 ∧ ∀ u, -1 < u < zlen (page_view p) → page_view p !! Z.to_nat u = Some None)
       ∨ (-1 < t ∧ (∃ v, page_view p !! Z.to_nat t = Some (Some v))
            ∧ ∀ u, -1 < u < t → page_view p !! Z.to_nat u = Some None)).
Proof.
  apply (next_filled_least (MkPage (replicate 23 NUL ++ [x02]) 24 10) (-1)).
  - by split.
  - unfold int_max. lia.
Defined.
