(* ===== verification/Directory.v ===== *)
(** * Directory pages: a1/directory.h, a1/directory.cpp

    A directory page is [page_size] bytes: the [int] offset of the next directory
    page, the [int] number of entries, and an array of entries (two [int]s). The
    [Directory] struct's pointers [next_directory], [n_entries] and [entries] always
    point at offsets 0, 4 and 8 of [data], so they are accessors here. *)
From S2P Require Import Prelude Buffers CLib.

Record Entry := MkEntry { offset : Z; free_space : Z }.

Record Directory := MkDirectory { capacity : Z; ddata : list byte; doffset : Z }.

Definition with_ddata (d : Directory) (l : list byte) : Directory :=
  MkDirectory (capacity d) l (doffset d).

Definition SIZEOF_INT : Z := 4.
Definition SIZEOF_ENTRY : Z := 8.

Definition next_directory (d : Directory) : res Z := load_int (ddata d) 0.
Definition n_entries (d : Directory) : res Z := load_int (ddata d) SIZEOF_INT.
Definition entry_pos (i : Z) : Z := SIZEOF_INT * 2 + SIZEOF_ENTRY * i.

Definition set_next_directory (d : Directory) (v : Z) : res Directory :=
  l ← store_int (ddata d) 0 v; mret (with_ddata d l).
Definition set_n_entries (d : Directory) (v : Z) : res Directory :=
  l ← store_int (ddata d) SIZEOF_INT v; mret (with_ddata d l).

(** [directory->entries[i]], read and written. *)
Definition get_dir_entry (d : Directory) (i : Z) : res Entry :=
  o ← load_int (ddata d) (entry_pos i);
  f ← load_int (ddata d) (entry_pos i + SIZEOF_INT);
  mret (MkEntry o f).
Definition set_dir_entry (d : Directory) (i : Z) (e : Entry) : res Directory :=
  l ← store_int (ddata d) (entry_pos i) (offset e);
  l ← store_int l (entry_pos i + SIZEOF_INT) (free_space e);
  mret (with_ddata d l).
Definition set_free_space (d : Directory) (i v : Z) : res Directory :=
  l ← store_int (ddata d) (entry_pos i + SIZEOF_INT) v; mret (with_ddata d l).

(** ** Operations *)

(** The capacity expression is evaluated in [size_t] and converted to [int]. *)
Definition init_directory_page (page_size offset : Z) : res Directory :=
  let capacity := to_int (u64 (u64 page_size - SIZEOF_INT * 2) / SIZEOF_ENTRY) in
  _ ← c_assert (0 <? capacity);
  let data := replicate (Z.to_nat page_size) NUL in
  set_n_entries (MkDirectory capacity data offset) 0.

Definition is_full (d : Directory) : res bool :=
  n ← n_entries d; mret (n =? capacity d).

(** The index of the new entry and the directory. *)
Definition next_vacant_slot (d : Directory) : res (Z * Directory) :=
  full ← is_full d;
  _ ← c_assert (negb full);
  n ← n_entries d;
  n ← cint (n + 1);
  d ← set_n_entries d n;
  n ← n_entries d;
  mret (n - 1, d).

Fixpoint find_free_loop (fuel : nat) (d : Directory) (i n : Z) : res Z :=
  match fuel with
  | O => mret (-1)
  | S fuel =>
      if i <? n then
        e ← get_dir_entry d i;
        if 0 <? free_space e then mret i else find_free_loop fuel d (i + 1) n
      else mret (-1)
  end.

(** The loop runs at most [n_entries] rounds. *)
Definition find_free_page (d : Directory) : res Z :=
  n ← n_entries d;
  find_free_loop (S (Z.to_nat n)) d 0 n.

(** ** The abstract directory: a list of entries and the link *)

Definition dir_cap (ps : Z) : Z := (ps - 8) / 8.

Definition dn (d : Directory) : Z := int_at (ddata d) SIZEOF_INT.
Definition dnext (d : Directory) : Z := int_at (ddata d) 0.
Definition entry_of (l : list byte) (i : Z) : Entry :=
  MkEntry (int_at l (entry_pos i)) (int_at l (entry_pos i + SIZEOF_INT)).
Definition dir_entries (d : Directory) : list Entry :=
  map (λ i, entry_of (ddata d) (Z.of_nat i)) (seq 0 (Z.to_nat (dn d))).

Record dir_ok (ps : Z) (d : Directory) : Prop := MkDirOk {
  dok_ps : 16 ≤ ps ≤ int_max;
  dok_cap : capacity d = dir_cap ps;
  dok_len : zlen (ddata d) = ps;
  dok_n : 0 ≤ dn d ≤ capacity d }.

Definition entry_ok (e : Entry) : Prop :=
  0 ≤ offset e ≤ int_max ∧ 0 ≤ free_space e ≤ int_max.

(** ** Lemmas *)

Lemma dir_cap_pos ps : 16 ≤ ps → 1 ≤ dir_cap ps ∧ 8 + 8 * dir_cap ps ≤ ps.
Proof. unfold dir_cap. intros. pose proof (Z.div_mod (ps - 8) 8). dlia. Qed.

Lemma dir_cap_C ps : 16 ≤ ps ≤ int_max →
  to_int (u64 (u64 ps - SIZEOF_INT * 2) / SIZEOF_ENTRY) = dir_cap ps.
Proof.
  intros. unfold SIZEOF_INT, SIZEOF_ENTRY, int_max in *.
  rewrite !u64_small by (rewrite ?u64_small; lia).
  change (4 * 2) with 8. pose proof (dir_cap_pos ps). unfold dir_cap in *.
  apply to_int_small. unfold int_min, int_max. lia.
Qed.

Section dir.
Context (ps : Z) (d : Directory) (Hd : dir_ok ps d).

Lemma dir_entries_length : zlen (dir_entries d) = dn d.
Proof. destruct Hd. unfold dir_entries. rewrite length_map, length_seq. lia. Qed.

Lemma lookup_dir_entries i : 0 ≤ i < dn d →
  dir_entries d !! Z.to_nat i = Some (entry_of (ddata d) i).
Proof.
  intros. unfold dir_entries. rewrite list_lookup_fmap, lookup_seq_lt by lia. simpl.
  by rewrite Z2Nat.id by lia.
Qed.

Lemma lookup_dir_entries_inv i e : dir_entries d !! i = Some e →
  e = entry_of (ddata d) (Z.of_nat i) ∧ 0 ≤ Z.of_nat i < dn d.
Proof.
  intros Hi. pose proof (lookup_lt_Some _ _ _ Hi). pose proof dir_entries_length.
  assert (0 ≤ Z.of_nat i < dn d) as Hr by lia.
  pose proof (lookup_dir_entries (Z.of_nat i) Hr) as Hl. rewrite Nat2Z.id, Hi in Hl.
  by injection Hl as ->.
Qed.

Lemma entry_pos_in i : 0 ≤ i < capacity d →
  8 ≤ entry_pos i ∧ entry_pos i + 8 ≤ zlen (ddata d).
Proof.
  destruct Hd. pose proof (dir_cap_pos ps). unfold entry_pos, SIZEOF_INT, SIZEOF_ENTRY. lia.
Qed.

Lemma dir_len : 16 ≤ zlen (ddata d).
Proof. destruct Hd. lia. Qed.

Lemma n_entries_Ok : n_entries d = Ok (dn d).
Proof. pose proof dir_len. apply load_int_Ok; unfold SIZEOF_INT; lia. Qed.

Lemma next_directory_Ok : next_directory d = Ok (dnext d).
Proof. pose proof dir_len. apply load_int_Ok; lia. Qed.

Lemma get_dir_entry_Ok i : 0 ≤ i < capacity d →
  get_dir_entry d i = Ok (entry_of (ddata d) i).
Proof.
  intros Hi. pose proof (entry_pos_in i Hi). unfold get_dir_entry, SIZEOF_INT.
  by rewrite !load_int_Ok by lia.
Qed.

Lemma is_full_Ok : is_full d = Ok (dn d =? capacity d).
Proof. unfold is_full. by rewrite n_entries_Ok. Qed.

Lemma find_free_loop_spec fuel i : 0 ≤ i → dn d - i < Z.of_nat fuel →
  (find_free_loop fuel d i (dn d) = Ok (-1)
     ∧ ∀ j, i ≤ j < dn d → free_space (entry_of (ddata d) j) ≤ 0)
  ∨ (∃ j, find_free_loop fuel d i (dn d) = Ok j ∧ i ≤ j < dn d
       ∧ 0 < free_space (entry_of (ddata d) j)
       ∧ ∀ k, i ≤ k < j → free_space (entry_of (ddata d) k) ≤ 0).
Proof.
  revert i. induction fuel as [|fuel IH]; intros i Hi Hf; cbn [find_free_loop].
  { left. split; [done|lia]. }
  destruct (Z.ltb_spec i (dn d)); [|left; split; [done|lia]].
  destruct Hd. rewrite get_dir_entry_Ok by lia. cbn [mbind res_bind].
  destruct (Z.ltb_spec 0 (free_space (entry_of (ddata d) i))) as [Hp|Hn].
  { right. exists i. repeat split; try done; lia. }
  destruct (IH (i + 1)) as [[-> Hall]|(j & -> & Hj & Hpos & Hmin)]; [lia..|left|right].
  - split; [done|]. intros j ?. destruct (decide (j = i)) as [->|]; [done|apply Hall; lia].
  - exists j. repeat split; try done; try lia.
    intros k ?. destruct (decide (k = i)) as [->|]; [done|apply Hmin; lia].
Qed.

(** [find_free_page] is the search for the first entry with free space. *)
Lemma find_free_page_Ok :
  find_free_page d = Ok match list_find (λ e, 0 < free_space e) (dir_entries d) with
                        | Some (i, _) => Z.of_nat i
                        | None => -1
                        end.
Proof.
  unfold find_free_page. rewrite n_entries_Ok. cbn [mbind res_bind]. destruct Hd.
  destruct (find_free_loop_spec (S (Z.to_nat (dn d))) 0)
    as [[-> Hall]|(j & -> & Hj & Hpos & Hmin)]; [lia..| |].
  - rewrite (proj2 (list_find_None _ _)); [done|]. apply Forall_forall. intros e He.
    apply list_elem_of_lookup in He as [i [-> Hi]%lookup_dir_entries_inv].
    specialize (Hall (Z.of_nat i)). lia.
  - rewrite (proj2 (list_find_Some (λ e, 0 < free_space e) (dir_entries d) (Z.to_nat j)
      (entry_of (ddata d) j))); [by rewrite Z2Nat.id by lia|].
    split_and!; [by apply lookup_dir_entries; lia|done|].
    intros k y [-> Hk]%lookup_dir_entries_inv Hlt.
    specialize (Hmin (Z.of_nat k)). lia.
Qed.
End dir.

(** ** What each store does *)

Lemma dir_entries_eq d l : zlen l = dn d →
  (∀ i, 0 ≤ i < dn d → l !! Z.to_nat i = Some (entry_of (ddata d) i)) → dir_entries d = l.
Proof.
  intros Hl Hi. apply list_eq. intros i.
  destruct (decide (i < length l)%nat).
  - specialize (Hi (Z.of_nat i)). rewrite Nat2Z.id in Hi. rewrite Hi by lia.
    unfold dir_entries. rewrite list_lookup_fmap, lookup_seq_lt by lia. done.
  - rewrite (lookup_ge_None_2 l) by lia. apply lookup_ge_None_2.
    unfold dir_entries. rewrite length_map, length_seq. lia.
Qed.

Lemma entry_of_splice l i off v :
  0 ≤ i → 0 ≤ off → off + 4 ≤ zlen l → off + 4 ≤ entry_pos i ∨ entry_pos i + 8 ≤ off →
  entry_of (splice off (le_bytes 4 v) l) i = entry_of l i.
Proof.
  intros. unfold entry_of. unfold entry_pos, SIZEOF_INT, SIZEOF_ENTRY in *.
  by rewrite !int_at_splice_disj by (rewrite ?length_le_bytes; lia).
Qed.

Lemma entry_of_set_free l i v :
  0 ≤ i → entry_pos i + 8 ≤ zlen l → int_min ≤ v ≤ int_max →
  entry_of (splice (entry_pos i + SIZEOF_INT) (le_bytes 4 (v mod 2^32)) l) i
    = MkEntry (offset (entry_of l i)) v.
Proof.
  intros. unfold entry_of. unfold entry_pos, SIZEOF_INT, SIZEOF_ENTRY in *.
  rewrite int_at_store_same by lia.
  by rewrite int_at_splice_disj by (rewrite ?length_le_bytes; lia).
Qed.

Lemma entry_of_set_both l i e :
  0 ≤ i → entry_pos i + 8 ≤ zlen l → entry_ok e →
  let l' := splice (entry_pos i) (le_bytes 4 (offset e mod 2^32)) l in
  entry_of (splice (entry_pos i + SIZEOF_INT) (le_bytes 4 (free_space e mod 2^32)) l') i = e.
Proof.
  intros Hi Hl [Ho Hf] l'. unfold int_max in *.
  assert (zlen l' = zlen l) as Hl'.
  { unfold l'. unfold entry_pos, SIZEOF_INT, SIZEOF_ENTRY in *.
    rewrite length_splice; rewrite ?length_le_bytes; lia. }
  rewrite entry_of_set_free by (unfold int_min, int_max; lia). unfold entry_of, l'.
  cbn [offset].
  unfold entry_pos, SIZEOF_INT, SIZEOF_ENTRY in *.
  rewrite int_at_store_same by (unfold int_min, int_max; lia). by destruct e.
Qed.

Section mutate.
Context (ps : Z) (d : Directory) (Hd : dir_ok ps d).

(** A header word or entry stored into [d]. *)
Definition stored (off v : Z) : Directory :=
  with_ddata d (splice off (le_bytes 4 (v mod 2^32)) (ddata d)).

Lemma stored_len off v : 0 ≤ off → off + 4 ≤ ps → zlen (ddata (stored off v)) = ps.
Proof. intros. destruct Hd. simpl. rewrite length_splice; rewrite ?length_le_bytes; lia. Qed.

Lemma set_next_Ok v : int_min ≤ v ≤ int_max →
  ∃ d', set_next_directory d v = Ok d' ∧ dir_ok ps d' ∧ dir_entries d' = dir_entries d
    ∧ dnext d' = v ∧ doffset d' = doffset d.
Proof.
  intros Hv. exists (stored 0 v). pose proof (dir_len ps d Hd) as Hl. pose proof Hd as [].
  assert (dn (stored 0 v) = dn d) as Hdn.
  { apply int_at_splice_disj; rewrite ?length_le_bytes; unfold SIZEOF_INT; lia. }
  split_and!; try done.
  - unfold set_next_directory. by rewrite store_int_Ok by lia.
  - split; [lia|done|apply stored_len; lia|by rewrite Hdn].
  - apply dir_entries_eq; [rewrite Hdn; by apply (dir_entries_length ps)|].
    rewrite Hdn. intros i Hi. rewrite (lookup_dir_entries d) by lia. f_equal.
    symmetry. pose proof (entry_pos_in ps d Hd i). apply entry_of_splice; lia.
  - apply int_at_store_same; lia.
Qed.

Lemma set_free_space_Ok i v : 0 ≤ i < dn d → 0 ≤ v ≤ int_max →
  ∃ d', set_free_space d i v = Ok d' ∧ dir_ok ps d'
    ∧ dir_entries d' = <[Z.to_nat i := MkEntry (offset (entry_of (ddata d) i)) v]> (dir_entries d)
    ∧ dnext d' = dnext d ∧ doffset d' = doffset d.
Proof.
  intros Hi Hv. exists (stored (entry_pos i + SIZEOF_INT) v).
  pose proof Hd as []. pose proof (entry_pos_in ps d Hd i ltac:(lia)) as Hpos.
  unfold SIZEOF_INT in *.
  assert (dn (stored (entry_pos i + 4) v) = dn d) as Hdn.
  { apply int_at_splice_disj; rewrite ?length_le_bytes; unfold SIZEOF_INT; lia. }
  split_and!; try done.
  - unfold set_free_space, SIZEOF_INT. by rewrite store_int_Ok by lia.
  - split; [lia|done|apply stored_len; lia|by rewrite Hdn].
  - apply dir_entries_eq; [rewrite length_insert, Hdn; by apply (dir_entries_length ps)|].
    rewrite Hdn. intros j Hj. rewrite list_lookup_insert.
    pose proof (dir_entries_length ps d Hd).
    destruct (decide (j = i)) as [->|Hne].
    + rewrite decide_True by lia. f_equal. symmetry.
      apply entry_of_set_free; unfold int_min, int_max in *; lia.
    + rewrite decide_False by lia. rewrite (lookup_dir_entries d) by lia. f_equal.
      symmetry. apply entry_of_splice; unfold entry_pos, SIZEOF_INT, SIZEOF_ENTRY in *; lia.
  - apply int_at_splice_disj; rewrite ?length_le_bytes; lia.
Qed.

Lemma next_vacant_slot_Ok : dn d < capacity d → next_vacant_slot d = Ok (dn d, stored SIZEOF_INT (dn d + 1)).
Proof.
  intros Hfull. pose proof Hd as []. pose proof (dir_cap_pos ps).
  assert (int_min ≤ dn d + 1 ≤ int_max) as Hint by (unfold int_min, int_max in *; lia).
  assert (dn (stored SIZEOF_INT (dn d + 1)) = dn d + 1) as Hn1 by (apply int_at_store_same; unfold SIZEOF_INT; lia).
  unfold next_vacant_slot. rewrite is_full_Ok with (ps := ps) by done. cbn [mbind res_bind].
  rewrite c_assert_true by lia. cbn [mbind res_bind]. rewrite (n_entries_Ok ps) by done. cbn [mbind res_bind].
  rewrite cint_ok by lia. cbn [mbind res_bind]. unfold set_n_entries. rewrite store_int_Ok by (unfold SIZEOF_INT; lia). cbn [mbind res_bind mret res_ret].
  change (with_ddata d _) with (stored SIZEOF_INT (dn d + 1)). unfold n_entries.
  pose proof (stored_len SIZEOF_INT (dn d + 1)) as Hl. rewrite load_int_Ok by (unfold SIZEOF_INT in *; lia). fold (dn (stored SIZEOF_INT (dn d + 1))). rewrite Hn1.
  cbn [mbind res_bind]. unfold mret, res_ret. do 2 f_equal. lia.
Qed.

(** The bytes of the directory with [e] stored after its last entry. *)
Definition pushed (e : Entry) : list byte :=
  splice (entry_pos (dn d) + SIZEOF_INT) (le_bytes 4 (free_space e mod 2^32))
    (splice (entry_pos (dn d)) (le_bytes 4 (offset e mod 2^32)) (ddata (stored SIZEOF_INT (dn d + 1)))).

Lemma pushed_spec e : dn d < capacity d → entry_ok e →
  zlen (pushed e) = ps ∧ int_at (pushed e) SIZEOF_INT = dn d + 1 ∧ int_at (pushed e) 0 = dnext d
  ∧ entry_of (pushed e) (dn d) = e ∧ (∀ i, 0 ≤ i < dn d → entry_of (pushed e) i = entry_of (ddata d) i).
Proof.
  intros Hfull He. pose proof Hd as []. pose proof (dir_cap_pos ps). pose proof (entry_pos_in ps d Hd (dn d) ltac:(lia)) as Hpos.
  assert (int_min ≤ dn d + 1 ≤ int_max) as Hint by (unfold int_min, int_max in *; lia).
  assert (zlen (ddata (stored SIZEOF_INT (dn d + 1))) = ps) as Hl1 by (apply stored_len; unfold SIZEOF_INT; lia).
  assert (∀ o, 0 ≤ o → o + 4 ≤ 8 → int_at (pushed e) o = int_at (ddata (stored SIZEOF_INT (dn d + 1))) o) as Hhead.
  { intros o ??. unfold pushed, SIZEOF_INT in *.
    rewrite !int_at_splice_disj; rewrite ?length_le_bytes; rewrite ?length_splice; rewrite ?length_le_bytes; lia. }
  split_and!.
  - unfold pushed, SIZEOF_INT in *. rewrite !length_splice; rewrite ?length_splice; rewrite ?length_le_bytes; lia.
  - rewrite Hhead by (unfold SIZEOF_INT; lia). apply int_at_store_same; unfold SIZEOF_INT; lia.
  - rewrite Hhead by lia. apply int_at_splice_disj; rewrite ?length_le_bytes; unfold SIZEOF_INT; lia.
  - apply entry_of_set_both; [lia|lia|done].
  - intros i Hi. pose proof (entry_pos_in ps d Hd i ltac:(lia)). unfold entry_pos, SIZEOF_INT, SIZEOF_ENTRY in *. unfold pushed.
    do 2 (rewrite entry_of_splice; unfold entry_pos, SIZEOF_INT, SIZEOF_ENTRY; rewrite ?length_splice; rewrite ?length_le_bytes; try lia).
    by apply entry_of_splice; unfold entry_pos, SIZEOF_INT, SIZEOF_ENTRY; lia.
Qed.

(** [next_vacant_slot] followed by the store of the entry: an append. *)
Lemma push_entry_Ok e : dn d < capacity d → entry_ok e →
  ∃ d1 d2, next_vacant_slot d = Ok (dn d, d1) ∧ set_dir_entry d1 (dn d) e = Ok d2
    ∧ dir_ok ps d2 ∧ dir_entries d2 = dir_entries d ++ [e]
    ∧ dnext d2 = dnext d ∧ doffset d2 = doffset d.
Proof.
  intros Hfull He. pose proof Hd as []. pose proof (entry_pos_in ps d Hd (dn d) ltac:(lia)) as Hpos.
  assert (zlen (ddata (stored SIZEOF_INT (dn d + 1))) = ps) as Hl1 by (apply stored_len; unfold SIZEOF_INT; lia).
  destruct (pushed_spec e Hfull He) as (Hl & Hn & Hnext & Hnew & Hold).
  exists (stored SIZEOF_INT (dn d + 1)), (with_ddata d (pushed e)).
  assert (dn (with_ddata d (pushed e)) = dn d + 1) as Hn2 by exact Hn.
  split_and!; [by apply next_vacant_slot_Ok| | | |exact Hnext|done].
  - unfold set_dir_entry. rewrite store_int_Ok by lia. cbn [mbind res_bind].
    rewrite store_int_Ok; [done|unfold SIZEOF_INT; lia|]. cbn [ddata with_ddata]. unfold SIZEOF_INT in *. rewrite length_splice; rewrite ?length_le_bytes; lia.
  - split; [lia|done|done|]. rewrite Hn2. change (capacity (with_ddata d (pushed e))) with (capacity d). lia.
  - pose proof (dir_entries_length ps d Hd) as Hdl. apply dir_entries_eq; [rewrite length_app, Hn2; simpl; lia|].
    rewrite Hn2. intros i Hi. cbn [ddata with_ddata]. destruct (decide (i = dn d)) as [->|Hne].
    + rewrite lookup_app_r by lia. replace (Z.to_nat (dn d) - length (dir_entries d))%nat with 0%nat by lia. simpl. by rewrite Hnew.
    + rewrite lookup_app_l by lia. rewrite lookup_dir_entries by lia. by rewrite Hold by lia.
Qed.
End mutate.

Lemma init_directory_Ok ps off : 16 ≤ ps ≤ int_max →
  ∃ d, init_directory_page ps off = Ok d ∧ dir_ok ps d ∧ dir_entries d = []
    ∧ dnext d = 0 ∧ doffset d = off.
Proof.
  intros Hps. pose proof (dir_cap_pos ps). unfold init_directory_page. rewrite dir_cap_C by done.
  rewrite c_assert_true by lia. cbn [mbind res_bind].
  set (l := replicate (Z.to_nat ps) NUL).
  assert (zlen l = ps) as Hl by (unfold l; rewrite length_replicate; lia).
  unfold set_n_entries. cbn [ddata]. rewrite store_int_Ok by (unfold SIZEOF_INT; lia).
  cbn [mbind res_bind]. set (l' := splice _ _ _). set (d := MkDirectory _ _ _).
  assert (zlen l' = ps) as Hl'.
  { unfold l'. rewrite length_splice; rewrite ?length_le_bytes; unfold SIZEOF_INT; lia. }
  assert (dn (with_ddata d l') = 0) as Hn.
  { apply int_at_store_same; unfold SIZEOF_INT, int_min, int_max; lia. }
  exists (with_ddata d l'). split_and!; try done.
  - split; [done|done|done|]. rewrite Hn. simpl. lia.
  - unfold dir_entries. by rewrite Hn.
  - unfold dnext. cbn [ddata with_ddata]. unfold l'.
    rewrite int_at_splice_disj by (rewrite ?length_le_bytes; unfold SIZEOF_INT; lia).
    unfold int_at. replace (slice 0 4 l) with (replicate 4 NUL); [done|].
    apply list_eq. intros i. rewrite lookup_slice. case_decide.
    + unfold l. by rewrite !lookup_replicate_2 by lia.
    + apply lookup_replicate_None. lia.
Qed.
