(* ===== verification/Heapfile.v ===== *)
(** * Heap files: a1/heapfile.h, a1/heapfile.cpp (without RecordIterator)

    A heap file is a [FILE] of [page_size]-byte blocks: directory pages, chained
    from offset 0 and kept in memory, and record pages, of which one is cached. The
    functions are computations over the [Heapfile] struct. The [Page *] that
    [get_page] returns is always [cached_page], so the callers' updates through it
    are updates of that field; [get_page] returns whether it was a cache hit, i.e.
    whether the pointer is the one of the previous call. *)
From S2P Require Import Prelude Buffers CLib RecordFmt Page Directory.

Record Heapfile := MkHeapfile {
  file_ptr : FILE;
  hpage_size : Z;
  directory_buffer : list Directory;
  cached_page : option Page;
  cached_pid : Z;
  page_cache_dirty : bool;
  hslot_size : Z }.

Abbreviation M := (st Heapfile).

Definition set_file (f : FILE) (h : Heapfile) : Heapfile :=
  MkHeapfile f (hpage_size h) (directory_buffer h) (cached_page h) (cached_pid h)
    (page_cache_dirty h) (hslot_size h).
Definition set_dirs (ds : list Directory) (h : Heapfile) : Heapfile :=
  MkHeapfile (file_ptr h) (hpage_size h) ds (cached_page h) (cached_pid h)
    (page_cache_dirty h) (hslot_size h).
Definition set_cache (p : option Page) (pid : Z) (dirty : bool) (h : Heapfile) : Heapfile :=
  MkHeapfile (file_ptr h) (hpage_size h) (directory_buffer h) p pid dirty (hslot_size h).

Record RecordID := MkRID { page_id : Z; rslot : Z }.

(** [init_heapfile] on a fresh struct, whose file pointer is not set yet. *)
Definition init_heapfile (page_size slot_size : Z) : res Heapfile :=
  _ ← c_assert (1001 <? page_size);
  mret (MkHeapfile (MkFILE [] 0) page_size [] None (-1) false slot_size).

(** ** Blocks *)

Definition read_block (offset : Z) : M (list byte) :=
  h ← get_st;
  let '(buffer, f) := fread (hpage_size h) (fseek_set offset (file_ptr h)) in
  _ ← modify (set_file f);
  if zlen buffer =? hpage_size h then mret buffer else lift (Err (Exit 1)).

Definition write_block (buffer : list byte) (offset : Z) : M unit :=
  h ← get_st;
  bs ← lift (read_bytes buffer 0 (hpage_size h));
  modify (set_file (fwrite bs (fseek_set offset (file_ptr h)))).

(** [fseek(fp, 0, SEEK_END); ftell(fp)], the [long] converted to [int]. *)
Definition seek_end : M Z :=
  h ← get_st;
  let f := fseek_end (file_ptr h) in
  _ ← modify (set_file f);
  mret (to_int (ftell f)).

(** ** Directory entries

    An [Entry *] into a buffered directory is the pair of the directory's number
    and the entry's. *)

Definition get_dir (dir_no : Z) : M Directory :=
  h ← get_st;
  _ ← lift (defined (0 <=? dir_no));
  lift (of_option (directory_buffer h !! Z.to_nat dir_no)).

Definition put_dir (dir_no : Z) (d : Directory) : M unit :=
  modify (λ h, set_dirs (<[Z.to_nat dir_no := d]> (directory_buffer h)) h).

Definition get_entry (pid : Z) : M (Z * Z) :=
  d0 ← get_dir 0;
  let capacity := capacity d0 in
  dir_no ← lift (cdiv pid capacity);
  slot_no ← lift (crem pid capacity);
  dir ← get_dir dir_no;
  n ← lift (n_entries dir);
  _ ← lift (c_assert (slot_no <? n));
  mret (dir_no, slot_no).

(** [entry->offset] and [entry->free_space = v]. *)
Definition entry_offset (e : Z * Z) : M Z :=
  dir ← get_dir e.1;
  x ← lift (get_dir_entry dir e.2);
  mret (offset x).
Definition set_entry_free (e : Z * Z) (v : Z) : M unit :=
  dir ← get_dir e.1;
  dir ← lift (set_free_space dir e.2 v);
  put_dir e.1 dir.

(** The two copies of the code that follows an [Entry *] found or made in [dir]:
    store the entry and return its page number. *)
Definition append_to (dir_no : Z) (dir : Directory) (entry : Entry) : M Z :=
  '(slot_no, dir) ← lift (next_vacant_slot dir);
  dir ← lift (set_dir_entry dir slot_no entry);
  _ ← put_dir dir_no dir;
  lift (x ← cint (dir_no * capacity dir); cint (x + slot_no)).

Fixpoint append_loop (ds : list Directory) (dir_no : Z) (entry : Entry) : M (option Z) :=
  match ds with
  | [] => mret None
  | dir :: ds =>
      full ← lift (is_full dir);
      if negb full then pid ← append_to dir_no dir entry; mret (Some pid)
      else append_loop ds (dir_no + 1) entry
  end.

Definition append_entry (entry : Entry) : M Z :=
  h ← get_st;
  let num_directories := zlen (directory_buffer h) in
  found ← append_loop (directory_buffer h) 0 entry;
  match found with
  | Some pid => mret pid
  | None =>
      last_dir ← get_dir (num_directories - 1);
      offset ← seek_end;
      last_dir ← lift (set_next_directory last_dir offset);
      _ ← put_dir (num_directories - 1) last_dir;
      new_dir ← lift (init_directory_page (hpage_size h) offset);
      _ ← write_block (ddata new_dir) offset;
      _ ← modify (λ h, set_dirs (directory_buffer h ++ [new_dir]) h);
      append_to num_directories new_dir entry
  end.

Fixpoint vacant_loop (ds : list Directory) (dir_no : Z) : res Z :=
  match ds with
  | [] => mret (-1)
  | dir :: ds =>
      slot_no ← find_free_page dir;
      if negb (slot_no =? -1) then x ← cint (dir_no * capacity dir); cint (x + slot_no)
      else vacant_loop ds (dir_no + 1)
  end.

Definition vacant_page_id : M Z :=
  h ← get_st; lift (vacant_loop (directory_buffer h) 0).

(** ** The page cache *)

(** Write the cached page back if it is dirty. *)
Definition write_back : M unit :=
  h ← get_st;
  if page_cache_dirty h then
    entry ← get_entry (cached_pid h);
    p ← lift (of_option (cached_page h));
    off ← entry_offset entry;
    write_block (data p) off
  else mret tt.

Definition get_page (pid : Z) : M bool :=
  h ← get_st;
  if cached_pid h =? pid then mret true
  else
    _ ← write_back;
    page ← lift (init_fixed_len_page (hpage_size h) (hslot_size h));
    entry ← get_entry pid;
    off ← entry_offset entry;
    buffer ← read_block off;
    _ ← modify (set_cache (Some (with_data page buffer)) pid false);
    mret false.

(** An operation on the page [get_page] returned. *)
Definition on_page {A} (f : Page → res (A * Page)) : M A :=
  h ← get_st;
  p ← lift (of_option (cached_page h));
  '(a, p) ← lift (f p);
  _ ← modify (λ h, set_cache (Some p) (cached_pid h) (page_cache_dirty h) h);
  mret a.

Definition view_page {A} (f : Page → res A) : M A :=
  on_page (λ p, a ← f p; mret (a, p)).

Definition commit_page (pid : Z) : M unit :=
  h ← get_st;
  entry ← get_entry (cached_pid h);
  n ← view_page fixed_len_page_freeslots;
  _ ← set_entry_free entry n;
  _ ← lift (c_assert (cached_pid h =? pid));
  modify (λ h, set_cache (cached_page h) (cached_pid h) true h).

Definition alloc_page : M Z :=
  h ← get_st;
  page ← lift (init_fixed_len_page (hpage_size h) (hslot_size h));
  offset ← seek_end;
  n ← lift (fixed_len_page_freeslots page);
  _ ← write_block (data page) offset;
  pid ← append_entry (MkEntry offset n);
  _ ← write_back;
  _ ← modify (set_cache (Some page) pid false);
  mret pid.

Definition get_free_pid : M Z :=
  pid ← vacant_page_id;
  if pid =? -1 then alloc_page else mret pid.

(** ** Records *)

Definition last_byte : M byte := view_page (λ p, get8 (data p) (page_size p - 1)).

Definition put_record (rec : record) : M unit :=
  pid ← get_free_pid;
  _ ← get_page pid;
  _ ← on_page (λ p, add_fixed_len_page p rec);
  byte ← last_byte;
  _ ← commit_page pid;
  hit ← get_page pid;
  byte2 ← last_byte;
  _ ← lift (c_assert (bool_decide (byte = byte2)));
  lift (c_assert hit).

Definition get_record (rid : RecordID) (rec : record) : M record :=
  _ ← get_page (page_id rid);
  view_page (λ p, read_fixed_len_page p (rslot rid) rec).

Definition update_record (rid : RecordID) (rec : record) : M unit :=
  _ ← get_page (page_id rid);
  _ ← on_page (λ p, p ← write_fixed_len_page p (rslot rid) rec; mret (tt, p));
  commit_page (page_id rid).

Definition delete_record (rid : RecordID) : M unit :=
  _ ← get_page (page_id rid);
  _ ← on_page (λ p, p ← delete_fixed_len_page p (rslot rid); mret (tt, p));
  commit_page (page_id rid).

(** ** Creating, opening and closing *)

(** The file is created empty. *)
Definition create_heapfile : M unit :=
  _ ← modify (set_file (MkFILE [] 0));
  h ← get_st;
  directory ← lift (init_directory_page (hpage_size h) 0);
  _ ← write_block (ddata directory) 0;
  modify (λ h, set_dirs (directory_buffer h ++ [directory]) h).

(** The do-while loop over the chain of directories. *)
Fixpoint open_loop (fuel : nat) (offset : Z) : M unit :=
  match fuel with
  | O => lift (Err Diverge)
  | S fuel =>
      h ← get_st;
      directory ← lift (init_directory_page (hpage_size h) offset);
      buffer ← read_block offset;
      let directory := with_ddata directory buffer in
      _ ← modify (λ h, set_dirs (directory_buffer h ++ [directory]) h);
      offset ← lift (next_directory directory);
      if negb (offset =? 0) then open_loop fuel offset else mret tt
  end.

(** [contents] are the bytes of the file opened. A chain that is not cyclic visits
    each block at most once: one round per byte of the file is enough. *)
Definition open_heapfile (contents : list byte) : M unit :=
  _ ← modify (set_file (MkFILE contents 0));
  open_loop (S (length contents)) 0.

(** The record count [close_heapfile] computes for debugging and drops. *)
Fixpoint debug_loop (fuel : nat) (d : Directory) (i n page_capacity num_records : Z) : res Z :=
  match fuel with
  | O => mret num_records
  | S fuel =>
      if i <? n then
        e ← get_dir_entry d i;
        x ← cint (page_capacity - free_space e);
        num_records ← cint (num_records + x);
        debug_loop fuel d (i + 1) n page_capacity num_records
      else mret num_records
  end.

Definition debug_count (ps ss : Z) (d : Directory) : res Z :=
  q ← cdiv ps ss;
  page_capacity ← cdiv (ps - ceil8 q) ss;
  n ← n_entries d;
  debug_loop (Z.to_nat n) d 0 n page_capacity 0.

Fixpoint close_dirs (ds : list Directory) : M unit :=
  match ds with
  | [] => mret tt
  | dir :: ds =>
      h ← get_st;
      _ ← write_block (ddata dir) (doffset dir);
      _num_records ← lift (debug_count (hpage_size h) (hslot_size h) dir);
      close_dirs ds
  end.

(** The bytes of the closed file. *)
Definition close_heapfile : M (list byte) :=
  _ ← write_back;
  h ← get_st;
  _ ← close_dirs (directory_buffer h);
  gets (λ h, fcontents (file_ptr h)).
