(* ===== verification/HeapInv.v ===== *)
(** * The heap file's representation invariant

    The buffered directories as one list of entries, the file as disjoint blocks,
    and what the block and directory operations of [Heapfile] do to them. *)
From S2P Require Import Prelude Buffers CLib RecordFmt Page Directory Heapfile.

(** ** Concatenations of rows that are full except the last *)

Section rows.
Context {A : Type} (C : nat).

Definition rows_ok (ls : list (list A)) : Prop :=
  ∀ i l, ls !! i = Some l → (length l ≤ C)%nat ∧ (S i < length ls → length l = C)%nat.

Lemma rows_ok_tail l ls : rows_ok (l :: ls) → rows_ok ls.
Proof. intros H i k Hk. destruct (H (S i) k Hk) as [? H2]. split; [done|]. simpl in H2. lia. Qed.

Lemma rows_ok_head l ls : rows_ok (l :: ls) → ls ≠ [] → length l = C.
Proof. intros H Hne. destruct (H 0%nat l eq_refl) as [_ H2]. apply H2. destruct ls; [done|simpl; lia]. Qed.

Lemma rows_lookup ls i j : rows_ok ls → (j < C)%nat →
  concat ls !! (i * C + j)%nat = ls !! i ≫= (λ l, l !! j).
Proof.
  revert i. induction ls as [|l ls IH]; intros i Hr Hj; [done|]. simpl.
  destruct (Hr 0%nat l eq_refl) as [Hle _].
  destruct (decide (ls = [])) as [->|Hne].
  { simpl. rewrite app_nil_r. destruct i as [|i]; simpl; [done|].
    apply lookup_ge_None_2. lia. }
  pose proof (rows_ok_head l ls Hr Hne) as Hl.
  destruct i as [|i]; simpl.
  - by rewrite lookup_app_l by lia.
  - rewrite lookup_app_r by lia. rewrite <-IH by (done || by eapply rows_ok_tail).
    f_equal. lia.
Qed.

Lemma rows_insert ls i j l x : rows_ok ls → ls !! i = Some l → (j < length l)%nat →
  concat (<[i := <[j := x]> l]> ls) = <[(i * C + j)%nat := x]> (concat ls).
Proof.
  revert i. induction ls as [|l0 ls IH]; intros i Hr Hi Hj; [done|].
  destruct i as [|i]; simpl in *.
  - injection Hi as ->. by rewrite insert_app_l.
  - assert (ls ≠ []) as Hne by (intros ->; done).
    pose proof (rows_ok_head l0 ls Hr Hne) as Hl.
    rewrite insert_app_r_alt by lia. rewrite IH by (done || by eapply rows_ok_tail).
    do 2 f_equal. lia.
Qed.

Lemma rows_length ls l : rows_ok (ls ++ [l]) →
  length (concat (ls ++ [l])) = (length ls * C + length l)%nat.
Proof.
  induction ls as [|l0 ls IH]; intros Hr; simpl; [by rewrite app_nil_r|].
  rewrite length_app, IH by (by eapply rows_ok_tail).
  pose proof (rows_ok_head l0 _ Hr). rewrite H by (by destruct ls). lia.
Qed.
End rows.

(** ** The buffered directories *)

Definition dents (ds : list Directory) : list Entry := concat (map dir_entries ds).

(** The directories of a heap file of [ps]-byte blocks: only the last may have
    room, and each links to the next. *)
Record dirs_ok (ps : Z) (ds : list Directory) : Prop := MkDirsOk {
  ds_ne : ds ≠ [];
  ds_all : ∀ i d, ds !! i = Some d → dir_ok ps d;
  ds_full : ∀ i d, ds !! i = Some d → (S i < length ds)%nat → dn d = dir_cap ps;
  ds_head : ∀ d, ds !! 0%nat = Some d → doffset d = 0;
  ds_chain : ∀ i d, ds !! i = Some d →
    dnext d = match ds !! S i with Some d' => doffset d' | None => 0 end }.

(** No directory but the first is empty. *)
Definition tight (ps : Z) (ds : list Directory) : Prop :=
  zlen ds = 1 ∨ (zlen ds - 1) * dir_cap ps < zlen (dents ds).

Section dirs.
Context (ps : Z) (ds : list Directory) (Hds : dirs_ok ps ds).
Local Abbreviation C := (Z.to_nat (dir_cap ps)).

Lemma dirs_ps : 16 ≤ ps ≤ int_max.
Proof.
  destruct Hds. destruct ds as [|d ds']; [done|]. by destruct (ds_all0 0%nat d eq_refl).
Qed.

Lemma dirs_cap : 1 ≤ dir_cap ps ≤ int_max.
Proof. pose proof dirs_ps. pose proof (dir_cap_pos ps). lia. Qed.

Lemma dirs_rows : rows_ok C (map dir_entries ds).
Proof.
  intros i l Hi. apply list_lookup_fmap_Some in Hi as (d & -> & Hd).
  pose proof (ds_all ps ds Hds i d Hd) as Hok.
  pose proof (dir_entries_length ps d Hok) as Hl. destruct Hok.
  rewrite length_map. split; [lia|]. intros Hlt.
  rewrite (ds_full ps ds Hds i d Hd Hlt) in Hl. lia.
Qed.

(** The directory and slot of an entry, by the source's division. *)
Lemma dents_lookup pid : 0 ≤ pid < zlen (dents ds) →
  ∃ d, ds !! Z.to_nat (pid / dir_cap ps) = Some d ∧ dir_ok ps d
    ∧ 0 ≤ pid mod dir_cap ps < dn d
    ∧ dents ds !! Z.to_nat pid = Some (entry_of (ddata d) (pid mod dir_cap ps)).
Proof.
  intros Hp. pose proof dirs_cap. set (c := dir_cap ps) in *.
  pose proof (Z.div_mod pid c ltac:(lia)). pose proof (Z.mod_pos_bound pid c ltac:(lia)).
  pose proof (Z.div_pos pid c ltac:(lia) ltac:(lia)).
  assert (Z.to_nat pid = (Z.to_nat (pid / c) * C + Z.to_nat (pid mod c))%nat) as E by nia.
  destruct (lookup_lt_is_Some_2 (dents ds) (Z.to_nat pid)) as [e He]; [lia|].
  pose proof He as He'. unfold dents in He'.
  rewrite E, rows_lookup in He' by (apply dirs_rows || lia).
  apply bind_Some in He' as (l & Hl & Hj). apply list_lookup_fmap_Some in Hl as (d & -> & Hd).
  pose proof (ds_all ps ds Hds _ d Hd) as Hok.
  apply (lookup_dir_entries_inv ps d Hok) in Hj as [-> Hj].
  rewrite Z2Nat.id in * by lia. exists d. done.
Qed.

(** Storing into an entry in place. *)
Lemma dents_insert i d d' j e : ds !! i = Some d → 0 ≤ j < dn d → dir_ok ps d' →
  dir_entries d' = <[Z.to_nat j := e]> (dir_entries d) → dnext d' = dnext d →
  doffset d' = doffset d →
  dirs_ok ps (<[i := d']> ds)
  ∧ dents (<[i := d']> ds) = <[Z.to_nat (Z.of_nat i * dir_cap ps + j) := e]> (dents ds)
  ∧ map doffset (<[i := d']> ds) = map doffset ds.
Proof.
  intros Hi Hj Hok' He Hn Ho. pose proof dirs_cap as Hc.
  pose proof (ds_all ps ds Hds i d Hi) as Hok. pose proof (lookup_lt_Some _ _ _ Hi) as Hlt.
  pose proof (dir_entries_length ps d Hok) as Hl.
  pose proof (dir_entries_length ps d' Hok') as Hl'. rewrite He, length_insert in Hl'.
  assert (∀ k x, <[i := d']> ds !! k = Some x →
    ∃ y, ds !! k = Some y ∧ dnext x = dnext y ∧ doffset x = doffset y ∧ dn x = dn y
      ∧ dir_ok ps x) as Hsame.
  { intros k x Hk. rewrite list_lookup_insert in Hk. case_decide as E.
    - destruct E as [<- _]. injection Hk as <-. exists d. split_and!; try done. lia.
    - exists x. split_and!; try done. by apply (ds_all ps ds Hds k). }
  assert (∀ k, doffset <$> (<[i := d']> ds !! k) = doffset <$> (ds !! k)) as Hoffs.
  { intros k. rewrite list_lookup_insert. case_decide as E; [|done].
    destruct E as [<- _]. rewrite Hi. simpl. by rewrite Ho. }
  split_and!.
  - destruct Hds. split.
    + intros E. apply (f_equal length) in E. rewrite length_insert in E. by destruct ds.
    + intros k x (y & ? & ? & ? & ? & ?)%Hsame. done.
    + intros k x (y & Hy & _ & _ & -> & _)%Hsame. rewrite length_insert. eauto.
    + intros x (y & Hy & _ & -> & _)%Hsame. eauto.
    + intros k x (y & Hy & -> & _)%Hsame. rewrite (ds_chain0 k y Hy).
      specialize (Hoffs (S k)). destruct (<[i := d']> ds !! S k), (ds !! S k); simpl in *; congruence.
  - unfold dents. rewrite list_fmap_insert, He.
    rewrite (rows_insert C) by (apply dirs_rows || (by rewrite list_lookup_fmap, Hi) || lia).
    f_equal. nia.
  - apply list_eq. intros k. rewrite !list_lookup_fmap. apply Hoffs.
Qed.

Lemma dents_snoc ds' d : ds = ds' ++ [d] →
  zlen (dents ds) = zlen ds' * dir_cap ps + dn d.
Proof.
  intros E. pose proof dirs_rows as Hr. pose proof dirs_cap.
  assert (dir_ok ps d) as Hok.
  { apply (ds_all ps ds Hds (length ds')). rewrite E. by rewrite lookup_snoc. }
  pose proof (dir_entries_length ps d Hok).
  rewrite E, map_app in Hr. simpl in Hr. pose proof (rows_length _ _ _ Hr) as Hlen.
  unfold dents. rewrite E, map_app. simpl. rewrite Hlen, length_map. lia.
Qed.

(** Appending an entry to the last directory. *)
Lemma dents_append ds' d d' e : ds = ds' ++ [d] → dir_ok ps d' →
  dir_entries d' = dir_entries d ++ [e] → dnext d' = dnext d → doffset d' = doffset d →
  dirs_ok ps (ds' ++ [d']) ∧ dents (ds' ++ [d']) = dents ds ++ [e]
  ∧ map doffset (ds' ++ [d']) = map doffset ds.
Proof.
  intros E Hok' He Hn Ho. rewrite E in *.
  assert ((ds' ++ [d]) !! length ds' = Some d) as Hd by (by rewrite lookup_snoc).
  split_and!.
  - destruct Hds. split.
    + by destruct ds'.
    + intros k x [[Hk Hx]|[-> <-]]%lookup_snoc_Some; [|done].
      apply (ds_all0 k). apply lookup_snoc_Some. by left.
    + intros k x [[Hk Hx]|[-> <-]]%lookup_snoc_Some; rewrite length_app; simpl; [|lia].
      intros Hlt. apply (ds_full0 k); [|rewrite length_app; simpl; lia].
      apply lookup_snoc_Some. naive_solver.
    + intros x Hx. destruct ds' as [|d0 ds'']; simpl in *.
      * injection Hx as <-. rewrite Ho. by apply ds_head0.
      * by apply ds_head0.
    + intros k x [[Hk Hx]|[Hk <-]]%lookup_snoc_Some.
      * rewrite (ds_chain0 k x) by (apply lookup_snoc_Some; naive_solver).
        destruct (decide (S k = length ds')) as [->|].
        -- rewrite !lookup_snoc. by rewrite Ho.
        -- by rewrite !lookup_app_l by lia.
      * subst k. rewrite Hn, (ds_chain0 _ d Hd).
        rewrite !(lookup_ge_None_2 _ (S (length ds'))); [done|rewrite length_app; simpl; lia..].
  - unfold dents. rewrite !map_app, !concat_app. simpl. rewrite He, !app_nil_r.
    by rewrite app_assoc.
  - rewrite !map_app. simpl. by rewrite Ho.
Qed.

(** Linking a new directory that holds one entry. *)
Lemma dents_grow ds' d d' dnew off e : ds = ds' ++ [d] → dn d = dir_cap ps → dir_ok ps d' →
  dir_entries d' = dir_entries d → dnext d' = off → doffset d' = doffset d →
  dir_ok ps dnew → dir_entries dnew = [e] → dnext dnew = 0 → doffset dnew = off →
  dirs_ok ps ((ds' ++ [d']) ++ [dnew]) ∧ dents ((ds' ++ [d']) ++ [dnew]) = dents ds ++ [e]
  ∧ map doffset ((ds' ++ [d']) ++ [dnew]) = map doffset ds ++ [off].
Proof.
  intros E Hfull Hok' He Hn Ho Hokn Hen Hnn Hon. rewrite E in *.
  assert ((ds' ++ [d]) !! length ds' = Some d) as Hd by (by rewrite lookup_snoc).
  pose proof (ds_all ps _ Hds _ d Hd) as Hok.
  pose proof (dir_entries_length ps d Hok). pose proof (dir_entries_length ps d' Hok') as Hl'.
  rewrite He in Hl'.
  split_and!.
  - destruct Hds. split.
    + by destruct ds'.
    + intros k x [[_ [[_ Hk]|[-> <-]]%lookup_snoc_Some]|[-> <-]]%lookup_snoc_Some; try done.
      apply (ds_all0 k). apply lookup_snoc_Some. left. split; [|done].
      by apply lookup_lt_Some in Hk.
    + intros k x [[_ [[Hk Hx]|[-> <-]]%lookup_snoc_Some]|[-> <-]]%lookup_snoc_Some;
        rewrite !length_app; simpl; intros Hlt; [|lia..].
      apply (ds_full0 k); [|rewrite length_app; simpl; lia].
      apply lookup_snoc_Some. naive_solver.
    + intros x Hx. destruct ds' as [|d0 ds'']; simpl in *.
      * injection Hx as <-. rewrite Ho. by apply ds_head0.
      * by apply ds_head0.
    + intros k x [[_ [[Hk Hx]|[Hk <-]]%lookup_snoc_Some]|[Hk <-]]%lookup_snoc_Some.
      * rewrite (ds_chain0 k x) by (apply lookup_snoc_Some; naive_solver).
        rewrite (lookup_app_l (ds' ++ [d'])) by (rewrite length_app; simpl; lia).
        destruct (decide (S k = length ds')) as [->|].
        -- rewrite !lookup_snoc. by rewrite Ho.
        -- by rewrite !lookup_app_l by lia.
      * subst k. rewrite lookup_app_r by (rewrite length_app; simpl; lia).
        rewrite length_app. simpl.
        replace (S (length ds') - (length ds' + 1))%nat with 0%nat by lia. simpl. congruence.
      * subst k. rewrite lookup_ge_None_2; [done|rewrite !length_app; simpl; lia].
  - unfold dents. rewrite !map_app, !concat_app. simpl. by rewrite He, Hen, !app_nil_r.
  - rewrite !map_app. simpl. by rewrite Ho, Hon.
Qed.
End dirs.

(** ** The heap *)

Abbreviation contents h := (fcontents (file_ptr h)).

Definition entries (h : Heapfile) : list Entry := dents (directory_buffer h).
Definition npages (h : Heapfile) : Z := zlen (entries h).

(** A block of the file. *)
Definition block (h : Heapfile) (off : Z) : list byte := slice off (hpage_size h) (contents h).

(** The current bytes of page [i]: those in the cache, if it is the cached page. *)
Definition pdata (h : Heapfile) (i : Z) : list byte :=
  if decide (cached_pid h = i) then from_option data [] (cached_page h)
  else from_option (λ e, block h (offset e)) [] (entries h !! Z.to_nat i).

Definition hpage (h : Heapfile) (i : Z) : Page :=
  MkPage (pdata h i) (hpage_size h) (hslot_size h).

(** The number of slots of a page. *)
Abbreviation hcap h := (cap (hpage_size h) (hslot_size h)).

(** Where the blocks are: directories first, then pages. *)
Definition offsets (h : Heapfile) : list Z :=
  map doffset (directory_buffer h) ++ map offset (entries h).

Record file_ok (ps : Z) (len : Z) (offs : list Z) : Prop := MkFileOk {
  fk_len : len = ps * zlen offs;
  fk_int : len ≤ int_max;
  fk_nodup : NoDup offs;
  fk_off : ∀ o, o ∈ offs → 0 ≤ o ∧ o + ps ≤ len ∧ (ps | o) }.

Definition cache_ok (h : Heapfile) : Prop :=
  (cached_pid h = -1 ∧ cached_page h = None ∧ page_cache_dirty h = false)
  ∨ (0 ≤ cached_pid h < npages h
     ∧ ∃ p, cached_page h = Some p ∧ page_ok p
         ∧ page_size p = hpage_size h ∧ slot_size p = hslot_size h
         ∧ (page_cache_dirty h = false →
            ∀ e, entries h !! Z.to_nat (cached_pid h) = Some e → data p = block h (offset e))).

Record heap_ok (h : Heapfile) : Prop := MkHeapOk {
  hk_ps : 1001 < hpage_size h ≤ int_max;
  hk_ss : 0 < hslot_size h < hpage_size h;
  hk_dirs : dirs_ok (hpage_size h) (directory_buffer h);
  hk_file : file_ok (hpage_size h) (zlen (contents h)) (offsets h);
  hk_free : ∀ i e, entries h !! i = Some e →
    free_space e = hcap h - used (hpage h (Z.of_nat i));
  hk_cache : cache_ok h }.

(** *** Files *)

Lemma file_ok_disj ps len offs o1 o2 : file_ok ps len offs → 0 < ps → o1 ∈ offs → o2 ∈ offs →
  o1 ≠ o2 → o1 + ps ≤ o2 ∨ o2 + ps ≤ o1.
Proof.
  intros [_ _ _ Ho] Hps H1 H2 Hne.
  destruct (Ho o1 H1) as (_ & _ & [k1 ->]), (Ho o2 H2) as (_ & _ & [k2 ->]).
  assert (k1 ≠ k2) by congruence. nia.
Qed.

(** Growing the file by one block, used at the old end. *)
Lemma file_ok_grow ps len offs offs' : file_ok ps len offs → 0 < ps → len + ps ≤ int_max →
  offs' ≡ₚ len :: offs → file_ok ps (len + ps) offs'.
Proof.
  intros [Hl Hi Hn Ho] Hps Hmax Hp. split.
  - rewrite Hp. simpl length. lia.
  - done.
  - rewrite Hp. constructor; [|done]. intros Hin. destruct (Ho len Hin). lia.
  - intros o Hin. rewrite Hp in Hin. apply elem_of_cons in Hin as [->|Hin].
    + split_and!; [lia|lia|]. exists (zlen offs). lia.
    + destruct (Ho o Hin) as (? & ? & ?). split_and!; [lia|lia|done].
Qed.

Section heap.
Context (h : Heapfile) (Hh : heap_ok h).
Local Abbreviation ps := (hpage_size h).

Lemma entry_off_in i e : entries h !! i = Some e → offset e ∈ offsets h.
Proof.
  intros Hi. unfold offsets. apply elem_of_app. right.
  apply list_elem_of_lookup. exists i. by rewrite list_lookup_fmap, Hi.
Qed.

Lemma dir_off_in i d : directory_buffer h !! i = Some d → doffset d ∈ offsets h.
Proof.
  intros Hi. unfold offsets. apply elem_of_app. left.
  apply list_elem_of_lookup. exists i. by rewrite list_lookup_fmap, Hi.
Qed.

Lemma entry_off_inj i j e e' : entries h !! i = Some e → entries h !! j = Some e' →
  offset e = offset e' → i = j.
Proof.
  intros Hi Hj E. destruct (hk_file h Hh). unfold offsets in fk_nodup0.
  apply NoDup_app in fk_nodup0 as (_ & _ & Hn).
  apply (NoDup_lookup _ i j (offset e) Hn); rewrite list_lookup_fmap; [by rewrite Hi|].
  by rewrite Hj, E.
Qed.

Lemma entry_off_range i e : entries h !! i = Some e →
  0 ≤ offset e ∧ offset e + ps ≤ zlen (contents h).
Proof. intros Hi. destruct (hk_file h Hh). destruct (fk_off0 _ (entry_off_in i e Hi)). lia. Qed.

Lemma npages_bound : npages h * ps + ps ≤ zlen (contents h) ∧ zlen (contents h) ≤ int_max.
Proof.
  destruct (hk_file h Hh). destruct (hk_ps h Hh). unfold offsets in *.
  rewrite length_app, !length_map in fk_len0. split; [|done].
  assert (1 ≤ length (directory_buffer h))%nat.
  { pose proof (ds_ne _ _ (hk_dirs h Hh)). destruct (directory_buffer h); [done|simpl; lia]. }
  unfold npages. nia.
Qed.

Lemma entries_lookup pid : 0 ≤ pid < npages h → ∃ e, entries h !! Z.to_nat pid = Some e.
Proof. intros. apply lookup_lt_is_Some_2. unfold npages in *. lia. Qed.

Lemma pdata_len pid : 0 ≤ pid < npages h → zlen (pdata h pid) = ps.
Proof.
  intros Hp. destruct (entries_lookup pid Hp) as [e He].
  pose proof (entry_off_range _ _ He). destruct (hk_ps h Hh). unfold pdata. case_decide as Hc.
  - destruct (hk_cache h Hh) as [(? & ? & ?)|(_ & p & -> & [] & ? & ? & _)]; [lia|].
    simpl. congruence.
  - rewrite He. simpl. apply length_slice; lia.
Qed.

Lemma hpage_ok pid : 0 ≤ pid < npages h → page_ok (hpage h pid).
Proof.
  intros Hp. pose proof (pdata_len pid Hp). destruct (hk_ps h Hh), (hk_ss h Hh).
  by split.
Qed.

Lemma entry_range i e : entries h !! i = Some e → entry_ok e.
Proof.
  intros Hi. pose proof (entry_off_range _ _ Hi). pose proof npages_bound.
  assert (0 ≤ Z.of_nat i < npages h) as Hr.
  { apply lookup_lt_Some in Hi. unfold npages. lia. }
  destruct (hk_ps h Hh), (hk_ss h Hh) as [Hs1 Hs2]. split; [lia|].
  rewrite (hk_free h Hh i e Hi).
  pose proof (cap_bounds _ _ Hs1 Hs2) as (? & _). pose proof (cap_le_ps _ _ Hs1 Hs2).
  pose proof (used_range _ (hpage_ok _ Hr)) as Hu. simpl in Hu. lia.
Qed.
End heap.
