(* ===== verification/HeapOps.v ===== *)
(** * What the heap file's operations do to a well-formed heap

    Each lemma gives the run of one function of [Heapfile] as an equation: its
    result and the state it leaves, in terms of the entries and page contents of
    [HeapInv]. *)
From S2P Require Import Prelude Buffers CLib RecordFmt Page Directory Heapfile HeapInv.

(** ** Streams *)

Lemma write_block_Ok h buf off :
  zlen buf = hpage_size h → 0 ≤ off → off + hpage_size h ≤ zlen (contents h) →
  ∃ p, write_block buf off h = Ok (tt, set_file (MkFILE (splice off buf (contents h)) p) h).
Proof.
  intros Hb Ho Hl. eexists. unfold write_block. run (eq_refl (get_st h)).
  run_lift (read_bytes_Ok buf 0 (hpage_size h) ltac:(lia) ltac:(lia) ltac:(lia)).
  rewrite <-Hb, slice_all, fseek_set_nonneg by lia.
  unfold modify. rewrite fwrite_in_range by (simpl; lia). done.
Qed.

Lemma write_block_end h buf off :
  zlen buf = hpage_size h → off = zlen (contents h) →
  ∃ p, write_block buf off h = Ok (tt, set_file (MkFILE (contents h ++ buf) p) h).
Proof.
  intros Hb Ho. eexists. unfold write_block. run (eq_refl (get_st h)).
  run_lift (read_bytes_Ok buf 0 (hpage_size h) ltac:(lia) ltac:(lia) ltac:(lia)).
  rewrite <-Hb, slice_all, fseek_set_nonneg by lia.
  unfold modify. rewrite fwrite_at_end by (simpl; lia). done.
Qed.

Lemma read_block_Ok h off : 0 ≤ hpage_size h →
  0 ≤ off → off + hpage_size h ≤ zlen (contents h) →
  ∃ p, read_block off h = Ok (block h off, set_file (MkFILE (contents h) p) h).
Proof.
  intros Hb Ho Hl. eexists. unfold read_block. run (eq_refl (get_st h)).
  rewrite fseek_set_nonneg, fread_in_range by (simpl; lia). cbn [fcontents fpos].
  run (eq_refl (modify (set_file (MkFILE (contents h) (off + hpage_size h))) h)).
  rewrite length_slice, Z.eqb_refl by lia. done.
Qed.

Lemma seek_end_Ok h : zlen (contents h) ≤ int_max →
  ∃ p, seek_end h = Ok (zlen (contents h), set_file (MkFILE (contents h) p) h).
Proof.
  intros Hl. eexists. unfold seek_end. run (eq_refl (get_st h)).
  run (eq_refl (modify (set_file (fseek_end (file_ptr h))) h)).
  unfold mret, st_ret, ftell, fseek_end. cbn [fpos].
  rewrite to_int_small by (unfold int_min, int_max in *; lia). done.
Qed.

(** ** Entries *)

Lemma get_dir_Ok h i d : directory_buffer h !! i = Some d → get_dir (Z.of_nat i) h = Ok (d, h).
Proof.
  intros Hi. unfold get_dir. run (eq_refl (get_st h)).
  run_lift (defined_true (0 <=? Z.of_nat i) ltac:(lia)).
  rewrite Nat2Z.id, Hi. done.
Qed.

Section entry.
Context (h : Heapfile) (Hds : dirs_ok (hpage_size h) (directory_buffer h)).
Local Abbreviation C := (dir_cap (hpage_size h)).

Lemma get_entry_Ok pid : 0 ≤ pid < npages h → pid ≤ int_max →
  get_entry pid h = Ok ((pid / C, pid mod C), h)
  ∧ ∃ e, entries h !! Z.to_nat pid = Some e ∧ entry_offset (pid / C, pid mod C) h = Ok (offset e, h).
Proof.
  intros Hp Hmax. pose proof (dirs_cap _ _ Hds) as Hc.
  destruct (dents_lookup _ _ Hds pid Hp) as (d & Hd & Hok & Hj & He).
  assert (∃ d0, directory_buffer h !! 0%nat = Some d0 ∧ capacity d0 = C) as (d0 & Hd0 & Hc0).
  { pose proof (ds_ne _ _ Hds). destruct (directory_buffer h) as [|d0 ds] eqn:E; [done|].
    exists d0. split; [done|]. by destruct (ds_all _ _ Hds 0%nat d0 eq_refl). }
  pose proof (Z.div_pos pid C ltac:(lia) ltac:(lia)) as Hq.
  assert (get_dir (pid / C) h = Ok (d, h)) as Hgd.
  { rewrite <-(Z2Nat.id (pid / C)) by done. by apply get_dir_Ok. }
  split.
  - unfold get_entry. run (get_dir_Ok h 0 d0 Hd0). rewrite Hc0.
    run_lift (cdiv_nonneg pid C ltac:(lia) ltac:(lia)).
    run_lift (crem_nonneg pid C ltac:(lia) ltac:(lia)).
    run Hgd. run_lift (n_entries_Ok _ d Hok).
    run_lift (c_assert_true (pid mod C <? dn d) ltac:(lia)). done.
  - eexists. split; [exact He|]. unfold entry_offset. cbn [fst snd]. run Hgd.
    destruct Hok. run_lift (get_dir_entry_Ok (hpage_size h) d ltac:(done) (pid mod C) ltac:(lia)).
    done.
Qed.

(** Updating the free-space count of an entry. *)
Lemma set_entry_free_Ok pid e v : 0 ≤ pid < npages h → entries h !! Z.to_nat pid = Some e →
  0 ≤ v ≤ int_max →
  ∃ ds', set_entry_free (pid / C, pid mod C) v h = Ok (tt, set_dirs ds' h)
    ∧ dirs_ok (hpage_size h) ds'
    ∧ dents ds' = <[Z.to_nat pid := MkEntry (offset e) v]> (entries h)
    ∧ map doffset ds' = map doffset (directory_buffer h).
Proof.
  intros Hp He Hv. pose proof (dirs_cap _ _ Hds) as Hc.
  destruct (dents_lookup _ _ Hds pid Hp) as (d & Hd & Hok & Hj & He').
  fold (entries h) in He'. rewrite He in He'. injection He' as ->.
  pose proof (Z.div_pos pid C ltac:(lia) ltac:(lia)) as Hq.
  destruct (set_free_space_Ok _ d Hok (pid mod C) v Hj Hv) as (d' & Hs & Hok' & Hes & Hn & Ho).
  destruct (dents_insert _ _ Hds _ d d' (pid mod C) _ Hd Hj Hok' Hes Hn Ho) as (H1 & H2 & H3).
  eexists. split_and!; [|exact H1| |exact H3].
  - unfold set_entry_free. cbn [fst snd]. rewrite <-(Z2Nat.id (pid / C)) at 1 by done.
    run (get_dir_Ok h _ d Hd). run_lift Hs. done.
  - rewrite H2. do 2 f_equal. rewrite Z2Nat.id by done.
    pose proof (Z.div_mod pid C ltac:(lia)). lia.
Qed.
End entry.

(** ** Appending an entry *)

Lemma append_to_Ok h ps dir_no d e : dir_ok ps d → dn d < dir_cap ps → entry_ok e →
  directory_buffer h !! dir_no = Some d → Z.of_nat dir_no * dir_cap ps + dn d ≤ int_max →
  ∃ d', append_to (Z.of_nat dir_no) d e h
      = Ok (Z.of_nat dir_no * dir_cap ps + dn d, set_dirs (<[dir_no := d']> (directory_buffer h)) h)
    ∧ dir_ok ps d' ∧ dir_entries d' = dir_entries d ++ [e] ∧ dnext d' = dnext d
    ∧ doffset d' = doffset d.
Proof.
  intros Hok Hlt He Hd Hmax. pose proof Hok as []. pose proof (dir_cap_pos ps).
  destruct (push_entry_Ok ps d Hok e) as (d1 & d2 & H1 & H2 & Hok2 & Hes & Hn & Ho); [lia|done|].
  exists d2. split_and!; try done. unfold append_to. run_lift H1. run_lift H2.
  assert (capacity d2 = dir_cap ps) as -> by (by destruct Hok2).
  run (eq_refl (put_dir (Z.of_nat dir_no) d2 h)). rewrite Nat2Z.id.
  apply run_lift. rewrite cint_ok by (unfold int_min in *; nia). cbn [mbind res_bind].
  apply cint_ok. unfold int_min. nia.
Qed.

Lemma append_loop_full h ps ds n e : Forall (λ d, dir_ok ps d ∧ dn d = dir_cap ps) ds →
  append_loop ds n e h = Ok (None, h).
Proof.
  intros Hall. revert n. induction Hall as [|d ds [Hok Hf] _ IH]; intros n; [done|].
  cbn [append_loop]. pose proof Hok as [].
  run_lift (is_full_Ok ps d Hok). rewrite dok_cap, Hf, Z.eqb_refl. cbn [negb]. apply IH.
Qed.

Lemma append_loop_last h ps ds d n e a h' : Forall (λ d, dir_ok ps d ∧ dn d = dir_cap ps) ds →
  dir_ok ps d → dn d < dir_cap ps → append_to (n + zlen ds) d e h = Ok (a, h') →
  append_loop (ds ++ [d]) n e h = Ok (Some a, h').
Proof.
  intros Hall. revert n. induction Hall as [|x ds [Hok Hf] _ IH]; intros n Hokd Hlt Ha;
    cbn [append_loop app].
  - pose proof Hokd as []. run_lift (is_full_Ok ps d Hokd).
    destruct (Z.eqb_spec (dn d) (capacity d)); [lia|]. cbn [negb].
    simpl length in Ha. rewrite Z.add_0_r in Ha. run Ha. done.
  - pose proof Hok as []. run_lift (is_full_Ok ps x Hok). rewrite dok_cap, Hf, Z.eqb_refl.
    cbn [negb]. apply IH; [done|done|]. cbn [length] in Ha.
    replace (n + 1 + zlen ds) with (n + Z.of_nat (S (length ds))) by lia. done.
Qed.

Lemma full_before ps ds d buf : dirs_ok ps buf → buf = ds ++ [d] → Forall (λ d, dir_ok ps d ∧ dn d = dir_cap ps) ds.
Proof.
  intros Hds E. apply Forall_lookup. intros i x Hx.
  assert (buf !! i = Some x) as Hx' by (rewrite E, lookup_app_l; [done|by eapply lookup_lt_Some]).
  split; [by apply (ds_all _ _ Hds i)|]. apply (ds_full _ _ Hds i x Hx').
  rewrite E, length_app. apply lookup_lt_Some in Hx. simpl. lia.
Qed.

(** When the last directory is full, a new one is added at the end of the file. *)
Lemma append_entry_full h e ds d : dirs_ok (hpage_size h) (directory_buffer h) → entry_ok e →
  zlen (contents h) ≤ int_max → npages h ≤ int_max → directory_buffer h = ds ++ [d] → dn d = dir_cap (hpage_size h) →
  ∃ ds' f, append_entry e h = Ok (npages h, set_dirs ds' (set_file f h))
    ∧ dirs_ok (hpage_size h) ds' ∧ dents ds' = entries h ++ [e]
    ∧ map doffset ds' = map doffset (directory_buffer h) ++ [zlen (contents h)]
    ∧ (∃ z, zlen z = hpage_size h ∧ fcontents f = contents h ++ z) ∧ tight (hpage_size h) ds'.
Proof.
  intros Hds He Hlen Hmax E Hfd. set (ps := hpage_size h) in *. unfold npages in *.
  pose proof (dirs_cap _ _ Hds) as Hc. pose proof (dirs_ps _ _ Hds) as Hps.
  pose proof (dents_snoc _ _ Hds ds d E) as Hcount. fold (entries h) in Hcount.
  assert (directory_buffer h !! length ds = Some d) as Hd by (rewrite E; apply lookup_snoc).
  assert (dir_ok ps d) as Hok by (by apply (ds_all _ _ Hds (length ds))).
  pose proof (full_before _ _ _ _ Hds E) as Hfull.
  unfold append_entry. run (eq_refl (get_st h)). pose proof Hok as [].
  erewrite run_bind; [|apply (append_loop_full h ps); rewrite E; apply Forall_app; by auto].
  assert (zlen (directory_buffer h) - 1 = zlen ds) as -> by (rewrite E, length_app; simpl; lia).
  run (get_dir_Ok h (length ds) d Hd).
  destruct (seek_end_Ok h Hlen) as [p1 Hse]. run Hse.
  set (h1 := set_file _ h).
  destruct (set_next_Ok ps d Hok (zlen (contents h))) as (d' & Hsn & Hok' & Hes & Hn & Ho).
  { unfold int_min. lia. }
  run_lift Hsn. run (eq_refl (put_dir (zlen ds) d' h1)). rewrite Nat2Z.id.
  set (h2 := set_dirs _ h1).
  destruct (init_directory_Ok ps (zlen (contents h)) Hps) as (dn0 & Hi & Hokn & Hen & Hnn & Hon).
  change (hpage_size h2) with ps in *. run_lift Hi.
  destruct (write_block_end h2 (ddata dn0) (zlen (contents h))) as [p2 Hw];
    [by destruct Hokn|done|]. run Hw. set (h3 := set_file _ h2).
  run (eq_refl (modify (λ h, set_dirs (directory_buffer h ++ [dn0]) h) h3)).
  set (h4 := set_dirs _ h3).
  assert (directory_buffer h4 = (ds ++ [d']) ++ [dn0]) as E4.
  { simpl. f_equal. rewrite E, insert_app_r_alt by lia. by rewrite Nat.sub_diag. }
  assert (length (directory_buffer h) = length (ds ++ [d'])) as El.
  { rewrite E, !length_app. done. }
  assert (dn dn0 = 0) as Hn0.
  { pose proof (dir_entries_length ps dn0 Hokn) as Hx. rewrite Hen in Hx. done. }
  destruct (append_to_Ok h4 ps (length (directory_buffer h)) dn0 e)
    as (dn1 & Ha & Hok1 & Hes1 & Hn1 & Ho1); try done; try lia.
  { rewrite E4, El. apply lookup_snoc. }
  { rewrite El, length_app. simpl. nia. }
  rewrite Hen in Hes1. simpl in Hes1.
  destruct (dents_grow _ _ Hds ds d d' dn1 (zlen (contents h)) e E Hfd Hok' Hes Hn Ho Hok1 Hes1)
    as (D1 & D2 & D3); [congruence..|].
  eexists _, (file_ptr h4). split_and!; [|exact D1|exact D2|exact D3|exists (ddata dn0); split; [by destruct Hokn|done]|].
  2:{ right. rewrite D2, !length_app. fold (entries h). simpl length. nia. }
  assert (<[length (directory_buffer h) := dn1]> (directory_buffer h4)
    = (ds ++ [d']) ++ [dn1]) as E5.
  { rewrite E4, El, insert_app_r_alt by lia. by rewrite Nat.sub_diag. }
  rewrite Ha, E5, Hn0, Hcount, El, length_app. simpl length.
  do 2 f_equal. lia.
Qed.

Lemma append_entry_Ok h e : dirs_ok (hpage_size h) (directory_buffer h) → entry_ok e →
  zlen (contents h) ≤ int_max → npages h ≤ int_max →
  ∃ ds' f, append_entry e h = Ok (npages h, set_dirs ds' (set_file f h))
    ∧ dirs_ok (hpage_size h) ds' ∧ dents ds' = entries h ++ [e]
    ∧ ((map doffset ds' = map doffset (directory_buffer h) ∧ fcontents f = contents h)
       ∨ (map doffset ds' = map doffset (directory_buffer h) ++ [zlen (contents h)]
            ∧ ∃ z, zlen z = hpage_size h ∧ fcontents f = contents h ++ z))
    ∧ (tight (hpage_size h) (directory_buffer h) → tight (hpage_size h) ds').
Proof.
  intros Hds He Hlen Hmax. set (ps := hpage_size h) in *. unfold npages in *.
  destruct (exists_last (ds_ne _ _ Hds)) as (ds & d & E).
  pose proof (dirs_cap _ _ Hds) as Hc. pose proof (dirs_ps _ _ Hds) as Hps.
  pose proof (dents_snoc _ _ Hds ds d E) as Hcount. fold (entries h) in Hcount.
  assert (directory_buffer h !! length ds = Some d) as Hd by (rewrite E; apply lookup_snoc).
  assert (dir_ok ps d) as Hok by (by apply (ds_all _ _ Hds (length ds))).
  pose proof (full_before _ _ _ _ Hds E) as Hfull.
  pose proof Hok as [].
  destruct (decide (dn d < dir_cap ps)) as [Hlt|Hge].
  - destruct (append_to_Ok h ps (length ds) d e) as (d' & Ha & Hok' & Hes & Hn & Ho); try done; [lia|].
    destruct (dents_append _ _ Hds ds d d' e E Hok' Hes Hn Ho) as (D1 & D2 & D3).
    exists (ds ++ [d']), (file_ptr h). unfold append_entry. run (eq_refl (get_st h)). split_and!; [|done|done|by left|].
    2:{ unfold tight. rewrite D2, E, !length_app. fold (entries h). simpl length. lia. }
    rewrite E at 1. erewrite run_bind; [|by apply (append_loop_last h ps); [..|exact Ha]].
    unfold mret, st_ret. rewrite Hcount. do 2 f_equal. rewrite E, insert_app_r_alt by lia.
    by rewrite Nat.sub_diag.
  - assert (dn d = dir_cap ps) as Hfd by lia.
    destruct (append_entry_full h e ds d) as (ds' & f & Ha & D1 & D2 & D3 & D4 & D5); try done.
    exists ds', f. split_and!; [exact Ha|done|done|by right|done].
Qed.

(** ** The cache *)

(** Writing the cached page back puts every page's current bytes into its block and
    changes nothing else. *)
Lemma write_back_Ok h : heap_ok h →
  ∃ f, write_back h = Ok (tt, set_file f h) ∧ zlen (fcontents f) = zlen (contents h)
    ∧ (∀ i e, entries h !! i = Some e →
         slice (offset e) (hpage_size h) (fcontents f) = pdata h (Z.of_nat i))
    ∧ (∀ d, d ∈ directory_buffer h →
         slice (doffset d) (hpage_size h) (fcontents f) = block h (doffset d)).
Proof.
  intros Hh. pose proof (hk_ps h Hh) as Hps. unfold write_back. run (eq_refl (get_st h)).
  assert (page_cache_dirty h = false →
    ∀ i e, entries h !! i = Some e → block h (offset e) = pdata h (Z.of_nat i)) as Hclean.
  { intros Hdirty i e He. unfold pdata. rewrite Nat2Z.id, He. simpl. case_decide as Hc; [|done].
    destruct (hk_cache h Hh) as [(? & ? & ?)|(_ & p & -> & _ & _ & _ & Hp)]; [lia|].
    symmetry. apply Hp; [done|]. by rewrite Hc, Nat2Z.id. }
  destruct (page_cache_dirty h) eqn:Hdirty.
  2:{ exists (file_ptr h). split_and!; [by destruct h|done|by apply Hclean|done]. }
  destruct (hk_cache h Hh) as [(_ & _ & Hx)|(Hpid & p & Hp & Hpok & Hp1 & Hp2 & _)]; [congruence|].
  pose proof (npages_bound h Hh) as Hnb. assert (cached_pid h ≤ int_max) by nia.
  destruct (get_entry_Ok h (hk_dirs h Hh) (cached_pid h) Hpid) as (Hg & e & He & Ho); [lia|].
  run Hg. rewrite Hp. run_lift (eq_refl (@of_option Page (Some p))). run Ho.
  pose proof (entry_off_range h Hh _ _ He).
  destruct (write_block_Ok h (data p) (offset e)) as [q ->]; [by destruct Hpok; congruence|lia..|].
  assert (zlen (data p) = hpage_size h) as Hlen by (destruct Hpok; congruence).
  eexists. split; [done|]. cbn [fcontents]. split_and!.
  - rewrite length_splice; lia.
  - intros i e' He'. unfold pdata. rewrite Nat2Z.id, He'. simpl. case_decide as Hc.
    + rewrite Hc, Nat2Z.id, He' in He. injection He as ->. rewrite Hp. simpl.
      rewrite <-Hlen. apply slice_splice_same; lia.
    + pose proof (entry_off_range h Hh _ _ He'). apply slice_splice_disj; try lia.
      rewrite Hlen. apply (file_ok_disj (hpage_size h) _ (offsets h)) with (1 := hk_file h Hh);
        [lia|by eapply entry_off_in..|]. intros Eo.
      pose proof (entry_off_inj h Hh _ _ _ _ He' He Eo). lia.
  - intros d [i Hd]%list_elem_of_lookup. pose proof (dir_off_in h i d Hd) as Hin.
    pose proof (entry_off_in h _ _ He) as Hin'.
    destruct (hk_file h Hh) as [_ _ Hn Hr]. destruct (Hr _ Hin) as (? & ? & _).
    apply slice_splice_disj; try lia. rewrite Hlen.
    apply (file_ok_disj (hpage_size h) _ (offsets h)) with (1 := hk_file h Hh); [lia|done..|].
    intros Eo. unfold offsets in Hn. apply NoDup_app in Hn as (_ & Hn & _).
    apply (Hn (doffset d)).
    + apply list_elem_of_lookup. exists i. by rewrite list_lookup_fmap, Hd.
    + apply list_elem_of_lookup. eexists. by rewrite list_lookup_fmap, He, Eo.
Qed.

(** The heap is rebuilt from pages: what is needed to re-establish [heap_ok] for a
    state with a new cache over the same directories. *)
Lemma heap_ok_recache h f p pid : heap_ok h → 0 ≤ pid < npages h →
  zlen (fcontents f) = zlen (contents h) →
  (∀ i e, entries h !! i = Some e →
     slice (offset e) (hpage_size h) (fcontents f) = pdata h (Z.of_nat i)) →
  page_ok p → page_size p = hpage_size h → slot_size p = hslot_size h → data p = pdata h pid →
  let h' := set_cache (Some p) pid false (set_file f h) in
  heap_ok h' ∧ ∀ i, 0 ≤ i < npages h → pdata h' i = pdata h i.
Proof.
  intros Hh Hpid Hlen Hblk Hpok Hp1 Hp2 Hpd h'.
  assert (∀ i, 0 ≤ i < npages h → pdata h' i = pdata h i) as Hsame.
  { intros i Hi. unfold pdata at 1. change (entries h') with (entries h). simpl.
    case_decide as Hc; [subst; done|].
    destruct (entries_lookup h i Hi) as [e He]. rewrite He. simpl.
    unfold block. simpl. rewrite (Hblk _ _ He). by rewrite Z2Nat.id by lia. }
  split; [|done]. pose proof Hh as []. split; try done.
  - simpl. rewrite Hlen. done.
  - intros i e He. change (entries h') with (entries h) in He. rewrite (hk_free i e He).
    unfold hpage. simpl. rewrite Hsame; [done|].
    apply lookup_lt_Some in He. unfold npages. lia.
  - right. split; [done|]. exists p. split_and!; try done. intros _ e He.
    change (entries h') with (entries h) in He. simpl in He.
    unfold block. simpl. rewrite (Hblk _ _ He). by rewrite Z2Nat.id by lia.
Qed.

(** [get_page]: a hit changes nothing; a miss replaces the cache and no page's bytes. *)
Lemma get_page_Ok h pid : heap_ok h → 0 ≤ pid < npages h →
  ∃ hit h', get_page pid h = Ok (hit, h') ∧ heap_ok h' ∧ cached_pid h' = pid
    ∧ directory_buffer h' = directory_buffer h
    ∧ hpage_size h' = hpage_size h ∧ hslot_size h' = hslot_size h
    ∧ zlen (contents h') = zlen (contents h)
    ∧ (∀ i, 0 ≤ i < npages h → pdata h' i = pdata h i)
    ∧ (cached_pid h = pid → hit = true ∧ h' = h).
Proof.
  intros Hh Hpid. unfold get_page. run (eq_refl (get_st h)).
  destruct (Z.eqb_spec (cached_pid h) pid) as [Hc|Hc].
  { exists true, h. split_and!; done. }
  destruct (write_back_Ok h Hh) as (f & Hw & Hlen & Hblk & _). run Hw.
  set (h1 := set_file f h). pose proof (hk_ps h Hh) as Hps. pose proof (hk_ss h Hh) as Hss.
  set (p0 := fresh_page (hpage_size h) (hslot_size h)).
  run_lift (init_Ok (hpage_size h) (hslot_size h) Hss). pose proof (npages_bound h Hh) as Hnb.
  destruct (get_entry_Ok h1 (hk_dirs h Hh) pid Hpid) as (Hg & e & He & Ho); [nia|].
  run Hg. run Ho. change (entries h1) with (entries h) in He.
  pose proof (entry_off_range h Hh _ _ He).
  destruct (read_block_Ok h1 (offset e)) as [q Hr]; [simpl; lia|lia|simpl; lia|].
  run Hr. set (h2 := set_file _ h1).
  assert (block h1 (offset e) = pdata h pid) as Hb.
  { unfold block, h1. simpl. rewrite (Hblk _ _ He). by rewrite Z2Nat.id by lia. }
  rewrite Hb. set (p := with_data p0 (pdata h pid)).
  assert (page_ok p) as Hpok by (split; simpl; [lia..|by apply pdata_len]).
  destruct (heap_ok_recache h (MkFILE (fcontents f) q) p pid) as [Hok Hsame]; try done.
  exists false, (set_cache (Some p) pid false (set_file (MkFILE (fcontents f) q) h)).
  split_and!; done.
Qed.

(** ** Changing the cached page *)

(** The effect of an operation on the cached page followed by [commit_page]. *)
Lemma commit_Ok h pid p' : heap_ok h → 0 ≤ pid < npages h → cached_pid h = pid →
  page_ok p' → page_size p' = hpage_size h → slot_size p' = hslot_size h →
  ∃ h', commit_page pid (set_cache (Some p') pid (page_cache_dirty h) h) = Ok (tt, h')
    ∧ heap_ok h' ∧ cached_pid h' = pid ∧ cached_page h' = Some p'
    ∧ npages h' = npages h ∧ hpage_size h' = hpage_size h ∧ hslot_size h' = hslot_size h
    ∧ contents h' = contents h
    ∧ map doffset (directory_buffer h') = map doffset (directory_buffer h)
    ∧ map offset (entries h') = map offset (entries h)
    ∧ (∀ i, 0 ≤ i < npages h → pdata h' i = if decide (i = pid) then data p' else pdata h i).
Proof.
  intros Hh Hpid Hc Hpok Hp1 Hp2. set (h1 := set_cache _ _ _ _).
  pose proof (npages_bound h Hh) as Hnb. pose proof (hk_ps h Hh) as Hps.
  pose proof (hk_ss h Hh) as [Hs1 Hs2].
  assert (dirs_ok (hpage_size h1) (directory_buffer h1)) as Hds by apply (hk_dirs h Hh).
  assert (0 ≤ pid < npages h1) as Hpid1 by done.
  unfold commit_page. run (eq_refl (get_st h1)). change (cached_pid h1) with pid.
  destruct (get_entry_Ok h1 Hds pid Hpid1) as (Hg & e & He & _); [nia|]. run Hg.
  pose proof (used_range p' Hpok) as Hu. pose proof (cap_le_ps _ _ Hs1 Hs2) as Hcap.
  rewrite Hp1, Hp2 in Hu.
  assert (view_page fixed_len_page_freeslots h1 = Ok (hcap h - used p', h1)) as Hv.
  { unfold view_page, on_page. run (eq_refl (get_st h1)).
    run_lift (eq_refl (@of_option Page (Some p'))). rewrite freeslots_used by done.
    cbn [mbind res_bind]. rewrite Hp1, Hp2. done. }
  run Hv.
  destruct (set_entry_free_Ok h1 Hds pid e (hcap h - used p') Hpid1 He)
    as (ds' & Hs & Hds' & Hd' & Ho'); [lia|].
  run Hs. rewrite Z.eqb_refl. run_lift (eq_refl (c_assert true)).
  change (entries h1) with (entries h) in *.
  set (h' := set_cache (Some p') pid true (set_dirs ds' h1)). exists h'.
  assert (entries h' = <[Z.to_nat pid := MkEntry (offset e) (hcap h - used p')]> (entries h)) as He'.
  { exact Hd'. }
  assert (map offset (entries h') = map offset (entries h)) as Hoffs.
  { rewrite He'. rewrite list_fmap_insert. simpl. apply list_insert_id.
    by rewrite list_lookup_fmap, He. }
  assert (npages h' = npages h) as Hnp by (unfold npages; by rewrite He', length_insert).
  assert (∀ i, 0 ≤ i < npages h → pdata h' i = if decide (i = pid) then data p' else pdata h i) as Hpd.
  { intros i Hi. unfold pdata at 1. simpl. case_decide as Hdec.
    - by rewrite decide_True by done.
    - rewrite decide_False by done. rewrite He', list_lookup_insert_ne by lia.
      unfold pdata. rewrite decide_False by congruence. done. }
  split_and!; try done.
  pose proof Hh as []. split; try done.
  - unfold offsets. rewrite Hoffs. simpl. rewrite Ho'. exact hk_file.
  - intros i x Hx. rewrite He', list_lookup_insert in Hx. unfold hpage. simpl.
    change (hpage_size h1) with (hpage_size h) in *. case_decide as Hdec.
    + destruct Hdec as [<- ?]. injection Hx as <-. simpl.
      rewrite Hpd, decide_True by lia. f_equal. unfold used. simpl. by rewrite Hp1, Hp2.
    + assert (Z.of_nat i < npages h) by (apply lookup_lt_Some in Hx; unfold npages; lia).
      assert (Z.of_nat i ≠ pid).
      { intros <-. apply Hdec. split; [lia|]. unfold npages in *. lia. }
      rewrite (hk_free i x Hx), Hpd by lia. by rewrite decide_False by done.
  - right. simpl. rewrite Hnp. split; [done|]. exists p'. split_and!; try done.
Qed.

(** An operation on the cached page. *)
Lemma on_page_Ok {A} h p p' (f : Page → res (A * Page)) a :
  cached_page h = Some p → f p = Ok (a, p') →
  on_page f h = Ok (a, set_cache (Some p') (cached_pid h) (page_cache_dirty h) h).
Proof.
  intros Hp Hf. unfold on_page. run (eq_refl (get_st h)). rewrite Hp.
  run_lift (eq_refl (@of_option Page (Some p))). run_lift Hf. done.
Qed.

Lemma view_page_Ok {A} h p (f : Page → res A) a :
  cached_page h = Some p → f p = Ok a → view_page f h = Ok (a, h).
Proof.
  intros Hp Hf. unfold view_page. erewrite on_page_Ok; [|done|by rewrite Hf].
  rewrite <-Hp. by destruct h.
Qed.

(** The cached page is the one whose bytes [pdata] gives. *)
Lemma cached_hpage h pid : heap_ok h → 0 ≤ pid → cached_pid h = pid →
  cached_page h = Some (hpage h pid).
Proof.
  intros Hh Hp Hc. destruct (hk_cache h Hh) as [(? & ? & ?)|(_ & [d s z] & Hpg & _ & Hp1 & Hp2 & _)]; [lia|].
  unfold hpage, pdata. rewrite decide_True by done. rewrite Hpg. simpl in *. congruence.
Qed.

(** ** Allocating a page *)

(** Appending to the file leaves the blocks in it. *)
Lemma block_app h off z p : 0 ≤ hpage_size h → 0 ≤ off → off + hpage_size h ≤ zlen (contents h) →
  slice off (hpage_size h) (fcontents (MkFILE (contents h ++ z) p)) = block h off.
Proof. intros. by apply slice_app_l. Qed.

(** A well-formed heap after a fresh page block [zs] at the end of the file and a new
    entry for it: the state [alloc_page] is in before it turns to the cache. *)
Lemma heap_ok_extend h ds' f zs z : heap_ok h →
  zlen (contents h) + 2 * hpage_size h ≤ int_max →
  zs = data (fresh_page (hpage_size h) (hslot_size h)) →
  dirs_ok (hpage_size h) ds' → dents ds' = entries h ++ [MkEntry (zlen (contents h)) (hcap h)] →
  fcontents f = (contents h ++ zs) ++ z →
  ((map doffset ds' = map doffset (directory_buffer h) ∧ z = [])
   ∨ (map doffset ds' = map doffset (directory_buffer h) ++ [zlen (contents h ++ zs)]
        ∧ zlen z = hpage_size h)) →
  let h' := set_dirs ds' (set_file f h) in
  heap_ok h' ∧ npages h' = npages h + 1
  ∧ (∀ i, 0 ≤ i < npages h → pdata h' i = pdata h i) ∧ pdata h' (npages h) = zs.
Proof.
  intros Hh Hmax Hzs Hds Hdents Hf Hcase h'.
  pose proof (hk_ps h Hh) as Hps. pose proof (hk_ss h Hh) as Hss.
  assert (zlen zs = hpage_size h) as Hzlen by (subst zs; simpl; rewrite length_replicate; lia).
  assert (entries h' = entries h ++ [MkEntry (zlen (contents h)) (hcap h)]) as He by exact Hdents.
  assert (npages h' = npages h + 1) as Hnp.
  { unfold npages. rewrite He, length_app. simpl. lia. }
  assert (cached_pid h ≠ npages h) as Hcne.
  { destruct (hk_cache h Hh) as [(-> & _)|(Hr & _)]; unfold npages in *; lia. }
  assert (∀ o, 0 ≤ o → o + hpage_size h ≤ zlen (contents h) → block h' o = block h o) as Hblk.
  { intros o ??. unfold block. simpl. rewrite Hf, <-app_assoc. apply slice_app_l; lia. }
  assert (∀ i, 0 ≤ i < npages h → pdata h' i = pdata h i) as Hold.
  { intros i Hi. unfold pdata. simpl. case_decide; [done|].
    destruct (entries_lookup h i Hi) as [e Hei].
    rewrite He, lookup_app_l, Hei by (unfold npages in *; lia). simpl.
    destruct (entry_off_range h Hh _ _ Hei). by apply Hblk. }
  assert (pdata h' (npages h) = zs) as Hnew.
  { unfold pdata. simpl. rewrite decide_False by done. unfold npages.
    rewrite He, Nat2Z.id, lookup_snoc. simpl. unfold block. simpl.
    rewrite Hf, slice_app_l by (rewrite ?length_app; lia). by apply slice_app_r. }
  split_and!; try done. split; try done.
  - pose proof (hk_file h Hh) as Hfile. unfold offsets. rewrite He, map_app. simpl.
    assert (file_ok (hpage_size h) (zlen (contents h ++ zs))
      (map doffset (directory_buffer h) ++ map offset (entries h) ++ [zlen (contents h)])) as Hfile1.
    { rewrite length_app, Nat2Z.inj_add, Hzlen. eapply file_ok_grow; [exact Hfile|lia|lia|].
      unfold offsets. rewrite app_assoc. by rewrite <-Permutation_cons_append. }
    rewrite Hf. destruct Hcase as [[-> ->]|[-> Hz]]; [by rewrite app_nil_r|].
    rewrite length_app, (Nat2Z.inj_add (length (contents h ++ zs))), Hz.
    eapply file_ok_grow; [exact Hfile1|lia|rewrite length_app; lia|].
    rewrite <-app_assoc. simpl. by rewrite <-Permutation_middle.
  - intros i e Hi. unfold hpage. simpl. rewrite He in Hi.
    apply lookup_snoc_Some in Hi as [[Hlt Hi]|[-> <-]].
    + rewrite Hold by (unfold npages; lia). by apply (hk_free h Hh).
    + simpl. fold (npages h). rewrite Hnew, Hzs.
      pose proof (fresh_used (hpage_size h) (hslot_size h)) as Hu.
      unfold fresh_page in Hu. simpl in *. rewrite Hu. lia.
  - destruct (hk_cache h Hh) as [Hc|(Hr & p & Hp & Hpok & Hp1 & Hp2 & Hcl)]; [by left|right].
    change (cached_pid h') with (cached_pid h). split; [lia|].
    exists p. split_and!; try done. intros Hd e Hi.
    rewrite He, lookup_app_l in Hi by (unfold npages in *; lia).
    destruct (entry_off_range h Hh _ _ Hi). rewrite Hblk by lia. by apply Hcl.
Qed.

Lemma alloc_page_Ok h : heap_ok h → zlen (contents h) + 2 * hpage_size h ≤ int_max →
  ∃ h', alloc_page h = Ok (npages h, h') ∧ heap_ok h' ∧ cached_pid h' = npages h
    ∧ npages h' = npages h + 1 ∧ hpage_size h' = hpage_size h ∧ hslot_size h' = hslot_size h
    ∧ zlen (contents h') ≤ zlen (contents h) + 2 * hpage_size h
    ∧ (∀ i, 0 ≤ i < npages h → pdata h' i = pdata h i)
    ∧ pdata h' (npages h) = data (fresh_page (hpage_size h) (hslot_size h))
    ∧ (tight (hpage_size h) (directory_buffer h) → tight (hpage_size h) (directory_buffer h')).
Proof.
  intros Hh Hmax. pose proof (hk_ps h Hh) as Hps. pose proof (hk_ss h Hh) as Hss.
  destruct Hss as [Hs1 Hs2]. set (p0 := fresh_page (hpage_size h) (hslot_size h)).
  assert (page_ok p0) as Hp0 by (apply fresh_ok; lia).
  pose proof (npages_bound h Hh) as Hnb.
  assert (zlen (data p0) = hpage_size h) as Hzl by (simpl; rewrite length_replicate; lia).
  unfold alloc_page. run (eq_refl (get_st h)).
  run_lift (init_Ok (hpage_size h) (hslot_size h) (conj Hs1 Hs2)). fold p0.
  destruct (seek_end_Ok h) as [q1 Hse]; [lia|]. run Hse. set (h1 := set_file _ h).
  run_lift (freeslots_used p0 Hp0).
  assert (used p0 = 0) as -> by apply fresh_used.
  change (cap (page_size p0) (slot_size p0)) with (hcap h). rewrite Z.sub_0_r.
  destruct (write_block_end h1 (data p0) (zlen (contents h))) as [q2 Hw]; [done|done|].
  run Hw. change (contents h1) with (contents h). set (h2 := set_file _ h1).
  assert (zlen (contents h2) = zlen (contents h) + hpage_size h) as Hl2
    by (simpl; rewrite length_app; simpl in Hzl; lia).
  destruct (append_entry_Ok h2 (MkEntry (zlen (contents h)) (hcap h)))
    as (ds' & f & Ha & Hds' & Hdents & Hcase & Htight).
  { exact (hk_dirs h Hh). }
  { pose proof (cap_bounds _ _ Hs1 Hs2) as (? & _). pose proof (cap_le_ps _ _ Hs1 Hs2).
    split; simpl; lia. }
  { lia. }
  { change (npages h2) with (npages h). nia. }
  run Ha. set (h3 := set_dirs ds' (set_file f h2)).
  assert (∃ z, fcontents f = (contents h ++ data p0) ++ z
    ∧ ((map doffset ds' = map doffset (directory_buffer h) ∧ z = [])
       ∨ (map doffset ds' = map doffset (directory_buffer h) ++ [zlen (contents h ++ data p0)]
            ∧ zlen z = hpage_size h))) as (z & Hf & Hcase').
  { destruct Hcase as [[Hd Hf]|[Hd (z & Hz & Hf)]].
    - exists []. rewrite app_nil_r. split; [exact Hf|by left].
    - exists z. split; [exact Hf|by right]. }
  destruct (heap_ok_extend h ds' f (data p0) z) as (Hok3 & Hnp3 & Hold & Hnew); try done.
  assert (h3 = set_dirs ds' (set_file f h)) as E3 by done.
  rewrite <-E3 in *. destruct (write_back_Ok h3 Hok3) as (f' & Hwb & Hlen & Hblk & _).
  run Hwb. set (h4 := set_file f' h3).
  assert (0 ≤ npages h < npages h3) as Hr by (rewrite Hnp3; unfold npages; lia).
  destruct (heap_ok_recache h3 f' p0 (npages h) Hok3 Hr Hlen Hblk Hp0) as [Hok4 Hsame]; try done.
  eexists. split; [reflexivity|]. split_and!; try done.
  - simpl. rewrite Hlen. rewrite E3. simpl. rewrite Hf, !length_app.
    destruct Hcase' as [[_ ->]|[_ Hz]]; simpl in *; lia.
  - intros i Hi. rewrite <-Hold by done. apply Hsame. lia.
  - by rewrite <-Hnew, <-Hsame by lia.
Qed.

(** ** Finding a page with room *)

Lemma vacant_loop_Ok ps ds n : Forall (dir_ok ps) ds → 0 ≤ n →
  (∀ i d, ds !! i = Some d → (S i < length ds)%nat → dn d = dir_cap ps) →
  n * dir_cap ps + zlen (dents ds) ≤ int_max →
  vacant_loop ds n = Ok match list_find (λ e, 0 < free_space e) (dents ds) with
                        | Some (i, _) => n * dir_cap ps + Z.of_nat i
                        | None => -1
                        end.
Proof.
  intros Hall. revert n. induction Hall as [|d ds Hok Hall IH]; intros n Hn Hfull Hmax; [done|].
  cbn [vacant_loop]. rewrite (find_free_page_Ok ps d Hok). cbn [mbind res_bind].
  change (dents (d :: ds)) with (dir_entries d ++ dents ds) in *.
  rewrite length_app in Hmax. pose proof (dir_entries_length ps d Hok) as Hl.
  assert (1 ≤ dir_cap ps) by (destruct Hok; pose proof (dir_cap_pos ps); lia).
  destruct (list_find _ (dir_entries d)) as [[i e]|] eqn:Hf.
  - rewrite (list_find_app_l _ _ _ _ _ Hf).
    destruct (Z.eqb_spec (Z.of_nat i) (-1)); [lia|]. cbn [negb].
    assert (capacity d = dir_cap ps) as -> by (by destruct Hok).
    apply list_find_Some in Hf as (Hi & _). apply lookup_lt_Some in Hi.
    rewrite cint_ok by (unfold int_min; nia). cbn [mbind res_bind].
    apply cint_ok. unfold int_min. nia.
  - rewrite (list_find_app_r _ _ _ Hf). rewrite Z.eqb_refl. cbn [negb].
    destruct ds as [|d' ds'].
    { done. }
    assert (dn d = dir_cap ps) as Hdn by (apply (Hfull 0%nat); [done|simpl; lia]).
    rewrite IH.
    + destruct (list_find _ (dents (d' :: ds'))) as [[i e]|]; simpl; [|done].
      f_equal. lia.
    + lia.
    + intros i x Hx Hlt. apply (Hfull (S i) x Hx). simpl in *. lia.
    + lia.
Qed.

Lemma vacant_page_id_Ok h : heap_ok h →
  vacant_page_id h = Ok (match list_find (λ e, 0 < free_space e) (entries h) with
                         | Some (i, _) => Z.of_nat i
                         | None => -1
                         end, h).
Proof.
  intros Hh. unfold vacant_page_id. run (eq_refl (get_st h)). apply run_lift.
  pose proof (hk_dirs h Hh) as Hds. pose proof (npages_bound h Hh) as Hnb.
  pose proof (hk_ps h Hh).
  rewrite (vacant_loop_Ok (hpage_size h)); [by destruct (list_find _ _) as [[??]|]|..].
  - apply Forall_lookup. intros i d Hd. by apply (ds_all _ _ Hds i).
  - done.
  - apply (ds_full _ _ Hds).
  - fold (entries h). unfold npages in *. nia.
Qed.
