(* ===== verification/HeapProps.v ===== *)
(** * Properties of heap files

    The abstract heap is the list of its pages' slot arrays; each record operation
    of a1/heapfile.cpp is shown to be the corresponding operation on it.

    Creation, the record operations as a refinement of the abstract heap, and any
    sequence of them. *)
From S2P Require Import Prelude Buffers CLib RecordFmt Page Directory Heapfile HeapInv HeapOps.

Abbreviation heap_view := (list (list (option (list byte)))).

Definition view (h : Heapfile) : heap_view :=
  map (λ i, page_view (hpage h (Z.of_nat i))) (seq 0 (length (entries h))).

(** ** The abstract operations *)

(** Insert at the first free slot; a new page of [n] slots when there is none. *)
Fixpoint spec_put (n : nat) (v : heap_view) (b : list byte) : heap_view :=
  match v with
  | [] => [Some b :: replicate (n - 1) None]
  | pg :: v => match list_find (λ o, o = None) pg with
               | Some (i, _) => <[i := Some b]> pg :: v
               | None => pg :: spec_put n v b
               end
  end.

Definition spec_get (v : heap_view) (rid : RecordID) : option (list byte) :=
  pg ← v !! Z.to_nat (page_id rid); o ← pg !! Z.to_nat (rslot rid); o.

Definition spec_set (v : heap_view) (rid : RecordID) (o : option (list byte)) : heap_view :=
  alter (λ pg, <[Z.to_nat (rslot rid) := o]> pg) (Z.to_nat (page_id rid)) v.

(** A record identifier that names a slot of the heap. *)
Definition rid_ok (h : Heapfile) (rid : RecordID) : Prop :=
  0 ≤ page_id rid < npages h ∧ 0 ≤ rslot rid < hcap h.

(** ** Views *)

Lemma lookup_view h i : view h !! i =
  if decide (i < length (entries h))%nat then Some (page_view (hpage h (Z.of_nat i))) else None.
Proof.
  unfold view. rewrite list_lookup_fmap. case_decide.
  - by rewrite lookup_seq_lt.
  - by rewrite lookup_seq_ge by lia.
Qed.

Lemma length_view h : length (view h) = length (entries h).
Proof. unfold view. by rewrite length_map, length_seq. Qed.

(** Equal pages give equal views. *)
Lemma view_eq h h' : npages h' = npages h → hpage_size h' = hpage_size h →
  hslot_size h' = hslot_size h → (∀ i, 0 ≤ i < npages h → pdata h' i = pdata h i) →
  view h' = view h.
Proof.
  intros Hn Hp Hs Hd. unfold npages in *. apply list_eq. intros i. rewrite !lookup_view.
  repeat case_decide; try lia; [|done]. unfold hpage. by rewrite Hp, Hs, Hd by lia.
Qed.

Lemma view_insert h h' pid p' : npages h' = npages h → hpage_size h' = hpage_size h →
  hslot_size h' = hslot_size h → page_size p' = hpage_size h → slot_size p' = hslot_size h →
  0 ≤ pid < npages h →
  (∀ i, 0 ≤ i < npages h → pdata h' i = if decide (i = pid) then data p' else pdata h i) →
  view h' = <[Z.to_nat pid := page_view p']> (view h).
Proof.
  intros Hn Hp Hs Hp1 Hp2 Hpid Hd. unfold npages in *. apply list_eq. intros i.
  rewrite list_lookup_insert, length_view, !lookup_view.
  unfold hpage. rewrite Hp, Hs. destruct (decide (i = Z.to_nat pid)) as [->|Hne].
  - rewrite !decide_True by lia. rewrite Hd, decide_True by lia. by destruct p'; simpl in *; subst.
  - rewrite (decide_False (P := _ ∧ _)) by (intros [? ?]; lia).
    repeat case_decide; try lia; try done. rewrite Hd, decide_False by lia. done.
Qed.

(** ** One operation on one page, committed *)

Definition same_shape (h h' : Heapfile) : Prop :=
  npages h' = npages h ∧ hpage_size h' = hpage_size h ∧ hslot_size h' = hslot_size h
  ∧ zlen (contents h') = zlen (contents h).

Lemma same_shape_trans h1 h2 h3 : same_shape h1 h2 → same_shape h2 h3 → same_shape h1 h3.
Proof. unfold same_shape. intuition congruence. Qed.

(** The file's length tells the number of directories. *)
Lemma dirs_count h : heap_ok h →
  zlen (contents h) = hpage_size h * (zlen (directory_buffer h) + npages h).
Proof.
  intros Hh. rewrite (fk_len _ _ _ (hk_file h Hh)). unfold offsets, npages.
  rewrite length_app, !length_map. lia.
Qed.

Lemma tight_shape h h' : heap_ok h → heap_ok h' → same_shape h h' →
  tight (hpage_size h) (directory_buffer h) → tight (hpage_size h) (directory_buffer h').
Proof.
  intros Hh Hh' (Hn & Hp & _ & Hl). pose proof (dirs_count h Hh). pose proof (dirs_count h' Hh').
  pose proof (hk_ps h Hh). rewrite Hp in *. unfold tight. fold (entries h) (entries h').
  fold (npages h) (npages h').
  assert (zlen (directory_buffer h') = zlen (directory_buffer h)) as -> by nia. by rewrite Hn.
Qed.

(** After [get_page pid] the page is cached and the heap is the same. *)
Lemma get_page_view h pid : heap_ok h → 0 ≤ pid < npages h →
  ∃ hit h', get_page pid h = Ok (hit, h') ∧ heap_ok h' ∧ cached_pid h' = pid
    ∧ cached_page h' = Some (hpage h pid) ∧ same_shape h h' ∧ view h' = view h
    ∧ (cached_pid h = pid → hit = true ∧ h' = h).
Proof.
  intros Hh Hpid. destruct (get_page_Ok h pid Hh Hpid)
    as (hit & h' & Hg & Hh' & Hc & Hd & Hp & Hs & Hl & Hsame & Hhit).
  assert (npages h' = npages h) as Hn by (unfold npages, entries; by rewrite Hd).
  exists hit, h'. split_and!; try done.
  - rewrite (cached_hpage h' pid) by (done || lia). unfold hpage. by rewrite Hp, Hs, Hsame.
  - by apply view_eq.
Qed.

Lemma commit_view h pid p' : heap_ok h → 0 ≤ pid < npages h → cached_pid h = pid →
  page_ok p' → page_size p' = hpage_size h → slot_size p' = hslot_size h →
  ∃ h', commit_page pid (set_cache (Some p') pid (page_cache_dirty h) h) = Ok (tt, h')
    ∧ heap_ok h' ∧ cached_pid h' = pid ∧ cached_page h' = Some p' ∧ same_shape h h'
    ∧ view h' = <[Z.to_nat pid := page_view p']> (view h).
Proof.
  intros Hh Hpid Hc Hpok Hp1 Hp2.
  destruct (commit_Ok h pid p' Hh Hpid Hc Hpok Hp1 Hp2)
    as (h' & Hr & Hh' & Hc' & Hcp & Hn & Hp & Hs & Hl & _ & _ & Hd).
  exists h'. split_and!; try done.
  - unfold same_shape. by rewrite Hl.
  - by apply view_insert.
Qed.

Section mutate.
Context (h : Heapfile) (pid : Z) (p' : Page) (Hh : heap_ok h) (Hpid : 0 ≤ pid < npages h)
  (Hpok : page_ok p') (Hp1 : page_size p' = hpage_size h) (Hp2 : slot_size p' = hslot_size h).

(** The bodies of [update_record] and [delete_record]. *)
Lemma mutate_Ok (f : Page → res Page) : f (hpage h pid) = Ok p' →
  ∃ h', (_ ← get_page pid; _ ← on_page (λ p, p ← f p; mret (tt, p)); commit_page pid) h
          = Ok (tt, h')
    ∧ heap_ok h' ∧ same_shape h h' ∧ view h' = <[Z.to_nat pid := page_view p']> (view h).
Proof.
  intros Hf. destruct (get_page_view h pid Hh Hpid) as (hit & h1 & Hg & Hh1 & Hc1 & Hcp & Hsh & Hv & _).
  run Hg. erewrite run_bind; [|eapply on_page_Ok; [exact Hcp|by rewrite Hf]].
  destruct Hsh as (Hn & Hps & Hss & Hl). rewrite Hc1.
  destruct (commit_view h1 pid p') as (h' & -> & Hh' & _ & _ & Hsh' & Hv'); [done|by rewrite Hn|done|done|congruence..|].
  exists h'. split_and!; try done.
  - by apply (same_shape_trans h h1 h').
  - by rewrite Hv', Hv.
Qed.

(** The body of [put_record] after [get_free_pid]. *)
Lemma put_tail_Ok r slot : add_fixed_len_page (hpage h pid) r = Ok (slot, p') →
  ∃ h', (_ ← get_page pid; _ ← on_page (λ p, add_fixed_len_page p r); byte ← last_byte;
         _ ← commit_page pid; hit ← get_page pid; byte2 ← last_byte;
         _ ← lift (c_assert (bool_decide (byte = byte2))); lift (c_assert hit)) h = Ok (tt, h')
    ∧ heap_ok h' ∧ same_shape h h' ∧ view h' = <[Z.to_nat pid := page_view p']> (view h).
Proof.
  intros Hf. destruct (get_page_view h pid Hh Hpid) as (hit & h1 & Hg & Hh1 & Hc1 & Hcp & Hsh & Hv & _).
  run Hg. erewrite run_bind; [|eapply on_page_Ok; [exact Hcp|exact Hf]].
  pose proof Hsh as (Hn & Hps & Hss & Hl). rewrite Hc1.
  destruct (get8_in_range (data p') (page_size p' - 1)) as (b & _ & Hb); [destruct Hpok; lia|].
  erewrite run_bind; [|eapply (view_page_Ok _ p'); [done|exact Hb]].
  destruct (commit_view h1 pid p') as (h' & Hcm & Hh' & Hc' & Hcp' & Hsh' & Hv'); [done|by rewrite Hn|done|done|congruence..|].
  run Hcm. pose proof Hsh' as (Hn' & _).
  destruct (get_page_view h' pid Hh') as (hit2 & h2 & Hg2 & _ & _ & _ & _ & _ & Hhit); [lia|].
  destruct (Hhit Hc') as [-> ->]. run Hg2.
  erewrite run_bind; [|eapply (view_page_Ok _ p'); [done|exact Hb]].
  rewrite bool_decide_true by done. run_lift (eq_refl (c_assert true)).
  exists h'. split_and!; try done.
  - by apply (same_shape_trans h h1 h').
  - by rewrite Hv', Hv.
Qed.
End mutate.

(** ** Which page [put_record] chooses *)

(** An entry has free space when its page has a free slot. *)
Lemma free_space_view h i e : heap_ok h → entries h !! i = Some e →
  0 < free_space e ↔ is_Some (list_find (λ o, o = None) (page_view (hpage h (Z.of_nat i)))).
Proof.
  intros Hh Hi. assert (0 ≤ Z.of_nat i < npages h) as Hr.
  { apply lookup_lt_Some in Hi. unfold npages. lia. }
  pose proof (hpage_ok h Hh _ Hr) as Hp. rewrite (hk_free h Hh i e Hi).
  set (p := hpage h (Z.of_nat i)) in *. change (hcap h) with (page_cap p).
  pose proof (used_range p Hp) as Hu. split.
  - intros Hlt. destruct (list_find _ _) eqn:E; [eauto|]. exfalso.
    apply list_find_None in E. assert (used p = page_cap p); [|lia].
    unfold used in *. rewrite <-(Z2Nat.id (page_cap p)) at 2 by lia.
    apply count_upto_full. intros j Hj.
    destruct (flag (data p) (page_size p) j) eqn:Ef; [done|].
    apply slot_view_None in Ef. rewrite Forall_lookup in E.
    destruct (E (Z.to_nat j) None); [|done].
    rewrite lookup_page_view, decide_True, Z2Nat.id by lia. by f_equal.
  - intros [[j o] (Hj & -> & _)%list_find_Some].
    apply lookup_view_Some in Hj as [Hj Ef]. symmetry in Ef. apply slot_view_None in Ef.
    destruct (decide (used p = page_cap p)) as [E|]; [|lia]. exfalso.
    unfold used in E. rewrite <-(Z2Nat.id (page_cap p)) in E at 2 by lia.
    rewrite count_upto_full in E. rewrite E in Ef by lia. done.
Qed.

Lemma spec_put_hit n (v : heap_view) b i pg j o :
  v !! i = Some pg → list_find (λ o, o = None) pg = Some (j, o) →
  (∀ k pg', (k < i)%nat → v !! k = Some pg' → list_find (λ o, o = None) pg' = None) →
  spec_put n v b = <[i := <[j := Some b]> pg]> v.
Proof.
  revert i. induction v as [|pg0 v IH]; intros i Hi Hf Hmin; [done|].
  destruct i as [|i]; simpl in *.
  - injection Hi as ->. by rewrite Hf.
  - rewrite (Hmin 0%nat pg0) by (done || lia). f_equal. apply IH; [done..|].
    intros k pg' Hk Hl. apply (Hmin (S k) pg'); [lia|done].
Qed.

Lemma spec_put_miss n (v : heap_view) b :
  (∀ k pg, v !! k = Some pg → list_find (λ o, o = None) pg = None) →
  spec_put n v b = v ++ [Some b :: replicate (n - 1) None].
Proof.
  induction v as [|pg v IH]; intros Hall; [done|]. simpl.
  rewrite (Hall 0%nat pg) by done. f_equal. apply IH. intros k pg' Hk. by apply (Hall (S k)).
Qed.

(** ** The record operations *)

Section records.
Context (h : Heapfile) (Hh : heap_ok h).

(** The tail of [put_record] on a page whose first free slot is [j]. *)
Lemma put_on_page r pid j o : ATTRIBUTE_SIZE * zlen r = hslot_size h → 0 ≤ pid < npages h →
  list_find (λ o, o = None) (page_view (hpage h pid)) = Some (j, o) →
  ∃ h', (_ ← get_page pid; _ ← on_page (λ p, add_fixed_len_page p (map Some r)); byte ← last_byte;
         _ ← commit_page pid; hit ← get_page pid; byte2 ← last_byte;
         _ ← lift (c_assert (bool_decide (byte = byte2))); lift (c_assert hit)) h = Ok (tt, h')
    ∧ heap_ok h' ∧ same_shape h h'
    ∧ view h' = <[Z.to_nat pid := <[j := Some (enc_record r)]> (page_view (hpage h pid))]> (view h).
Proof.
  intros Hr Hpid Hf. pose proof (hpage_ok h Hh pid Hpid) as Hpok.
  destruct (add_Ok (hpage h pid) r Hpok) as [[_ Hall]|(s & Hs & Hfs & Hmin & Ha)]; [simpl; lia|..].
  { rewrite list_find_None_view in Hf; done. }
  rewrite (list_find_Some_view _ s) in Hf by done. injection Hf as <- <-.
  assert (page_ok (written (hpage h pid) s r)) as Hw by (apply written_ok; simpl; (done || lia)).
  destruct (put_tail_Ok h pid _ Hh Hpid Hw eq_refl eq_refl _ _ Ha) as (h' & H1 & H2 & H3 & H4).
  exists h'. split_and!; try done. rewrite H4. f_equal.
  pose proof (length_enc_record r). pose proof (length_slot_bytes _ s Hpok Hs).
  apply page_view_insert; try done.
  - rewrite written_view, decide_True by (try done; simpl; lia). f_equal.
    apply splice_full. simpl in *. lia.
  - intros t Ht Hne. by rewrite written_view, decide_False by (try done; simpl; lia).
Qed.

Lemma view_lookup pid : 0 ≤ pid < npages h →
  view h !! Z.to_nat pid = Some (page_view (hpage h pid)).
Proof.
  intros Hp. unfold npages in Hp. by rewrite lookup_view, decide_True, Z2Nat.id by lia.
Qed.

(** [get_free_pid] finds, or makes, the page [spec_put] inserts into. *)
Lemma get_free_pid_Ok b : zlen (contents h) + 2 * hpage_size h ≤ int_max →
  ∃ pid h1 j o, get_free_pid h = Ok (pid, h1) ∧ heap_ok h1 ∧ 0 ≤ pid < npages h1
    ∧ list_find (λ o, o = None) (page_view (hpage h1 pid)) = Some (j, o)
    ∧ <[Z.to_nat pid := <[j := Some b]> (page_view (hpage h1 pid))]> (view h1)
        = spec_put (Z.to_nat (hcap h)) (view h) b
    ∧ hpage_size h1 = hpage_size h ∧ hslot_size h1 = hslot_size h
    ∧ zlen (contents h1) ≤ zlen (contents h) + 2 * hpage_size h
    ∧ (tight (hpage_size h) (directory_buffer h) → tight (hpage_size h) (directory_buffer h1)).
Proof.
  intros Hmax. pose proof (hk_ps h Hh) as Hps. pose proof (hk_ss h Hh) as [Hs1 Hs2].
  unfold get_free_pid. run (vacant_page_id_Ok h Hh).
  destruct (list_find (λ e, 0 < free_space e) (entries h)) as [[i e]|] eqn:Hf.
  - destruct (Z.eqb_spec (Z.of_nat i) (-1)); [lia|].
    apply list_find_Some in Hf as (Hi & Hpos & Hmin).
    assert (0 ≤ Z.of_nat i < npages h) as Hir by (apply lookup_lt_Some in Hi; unfold npages; lia).
    apply (free_space_view h i e Hh Hi) in Hpos as [[j o] Hj].
    exists (Z.of_nat i), h, j, o. split_and!; try done; try lia.
    rewrite Nat2Z.id. symmetry. eapply spec_put_hit; [|exact Hj|].
    + rewrite <-(Nat2Z.id i) at 1. by apply view_lookup.
    + intros k pg Hk Hpg. rewrite lookup_view in Hpg. case_decide as Hkl; [|done].
      injection Hpg as <-. destruct (lookup_lt_is_Some_2 (entries h) k Hkl) as [ek Hek].
      destruct (list_find _ (page_view (hpage h (Z.of_nat k)))) eqn:E; [|done].
      exfalso. apply (Hmin k ek Hek); [done|].
      apply (free_space_view h k ek Hh Hek). eauto.
  - rewrite Z.eqb_refl.
    destruct (alloc_page_Ok h Hh Hmax) as (h1 & Ha & Hh1 & Hc1 & Hn1 & Hp1 & Hss1 & Hl1 & Hold & Hnew & Ht).
    assert (page_view (hpage h1 (npages h)) = replicate (Z.to_nat (hcap h)) None) as Hfresh.
    { unfold hpage. rewrite Hnew, Hp1, Hss1. apply fresh_view. }
    assert (Z.to_nat (hcap h) = S (Z.to_nat (hcap h) - 1)) as Hc.
    { pose proof (cap_pos _ _ Hs1 Hs2). lia. }
    exists (npages h), h1, 0%nat, None. rewrite Hfresh, Hc.
    split_and!; try done; [unfold npages; lia|rewrite Hn1; lia|].
    assert (view h1 = view h ++ [replicate (Z.to_nat (hcap h)) None]) as ->.
    { rewrite <-Hfresh. unfold view. unfold npages in *.
      replace (length (entries h1)) with (length (entries h) + 1)%nat by lia.
      rewrite seq_app, map_app. f_equal. apply map_ext_in. intros k Hk%in_seq.
      unfold hpage. by rewrite Hold, Hp1, Hss1 by lia. }
    rewrite spec_put_miss.
    + unfold npages. rewrite Nat2Z.id, insert_app_r_alt by (rewrite length_view; lia).
      rewrite length_view, Nat.sub_diag. simpl. by rewrite Nat.sub_0_r.
    + intros k pg Hpg. rewrite lookup_view in Hpg. case_decide as Hkl; [|done].
      injection Hpg as <-. destruct (lookup_lt_is_Some_2 (entries h) k Hkl) as [ek Hek].
      destruct (list_find _ (page_view (hpage h (Z.of_nat k)))) eqn:E; [|done]. exfalso.
      apply list_find_None in Hf. rewrite Forall_lookup in Hf. apply (Hf k ek Hek).
      apply (free_space_view h k ek Hh Hek). eauto.
Qed.
End records.

Section ops.
Context (h : Heapfile) (Hh : heap_ok h) (r : list cstr)
  (Hr : ATTRIBUTE_SIZE * zlen r = hslot_size h).

Lemma put_record_Ok : zlen (contents h) + 2 * hpage_size h ≤ int_max →
  ∃ h', put_record (map Some r) h = Ok (tt, h') ∧ heap_ok h'
    ∧ view h' = spec_put (Z.to_nat (hcap h)) (view h) (enc_record r)
    ∧ hpage_size h' = hpage_size h ∧ hslot_size h' = hslot_size h
    ∧ zlen (contents h') ≤ zlen (contents h) + 2 * hpage_size h
    ∧ (tight (hpage_size h) (directory_buffer h) → tight (hpage_size h) (directory_buffer h')).
Proof.
  intros Hmax.
  destruct (get_free_pid_Ok h Hh (enc_record r) Hmax)
    as (pid & h1 & j & o & Hg & Hh1 & Hpid & Hj & Hv & Hp1 & Hs1 & Hl1 & Ht1).
  destruct (put_on_page h1 Hh1 r pid j o ltac:(congruence) Hpid Hj)
    as (h' & Hrun & Hh' & Hsh & Hv').
  pose proof Hsh as (_ & Hp2 & Hs2 & Hl2).
  exists h'. split_and!; [|done|by rewrite Hv', Hv|congruence..|lia|].
  2:{ intros Ht. rewrite <-Hp1. apply (tight_shape h1); [done..|]. rewrite Hp1. auto. }
  unfold put_record. run Hg. exact Hrun.
Qed.

Section at_rid.
Context (rid : RecordID) (Hrid : rid_ok h rid).

Lemma rid_cap : 0 ≤ rslot rid < page_cap (hpage h (page_id rid)).
Proof. by destruct Hrid. Qed.

Lemma spec_set_view o p' : page_view p' = <[Z.to_nat (rslot rid) := o]> (page_view (hpage h (page_id rid))) →
  <[Z.to_nat (page_id rid) := page_view p']> (view h) = spec_set (view h) rid o.
Proof.
  intros ->. unfold spec_set. destruct Hrid as [Hp _]. apply list_eq. intros i.
  rewrite list_lookup_insert, list_lookup_alter, length_view. unfold npages in Hp.
  case_decide as E.
  - destruct E as [<- _]. rewrite decide_True by done.
    by rewrite view_lookup by (unfold npages; done).
  - case_decide; [|done]. subst. destruct E. split; [done|lia].
Qed.

Lemma update_record_Ok : ∃ h', update_record rid (map Some r) h = Ok (tt, h') ∧ heap_ok h'
  ∧ same_shape h h' ∧ view h' = spec_set (view h) rid (Some (enc_record r)).
Proof.
  pose proof Hrid as [Hp _]. pose proof rid_cap as Hs.
  pose proof (hpage_ok h Hh _ Hp) as Hpok. set (p := hpage h (page_id rid)) in *.
  assert (page_ok (written p (rslot rid) r)) as Hw by (apply written_ok; simpl; (done || lia)).
  destruct (mutate_Ok h (page_id rid) _ Hh Hp Hw eq_refl eq_refl
    (λ p, write_fixed_len_page p (rslot rid) (map Some r))) as (h' & H1 & H2 & H3 & H4).
  { apply write_Ok; simpl; (done || lia). }
  exists h'. split_and!; try done. rewrite H4. apply spec_set_view.
  pose proof (length_enc_record r). pose proof (length_slot_bytes _ _ Hpok Hs).
  apply page_view_insert; try done.
  - rewrite written_view, decide_True by (try done; simpl; lia). f_equal.
    apply splice_full. simpl in *. lia.
  - intros t Ht Hne. by rewrite written_view, decide_False by (try done; simpl; lia).
Qed.

Lemma delete_record_Ok : ∃ h', delete_record rid h = Ok (tt, h') ∧ heap_ok h'
  ∧ same_shape h h' ∧ view h' = spec_set (view h) rid None.
Proof.
  pose proof Hrid as [Hp _]. pose proof rid_cap as Hs.
  pose proof (hpage_ok h Hh _ Hp) as Hpok. set (p := hpage h (page_id rid)) in *.
  destruct (mutate_Ok h (page_id rid) (deleted p (rslot rid)) Hh Hp
    (deleted_ok p Hpok _ Hs) eq_refl eq_refl
    (λ p, delete_fixed_len_page p (rslot rid))) as (h' & H1 & H2 & H3 & H4).
  { by apply delete_Ok. }
  exists h'. split_and!; try done. rewrite H4. apply spec_set_view.
  apply page_view_insert; try done.
  - by rewrite deleted_view, decide_True by done.
  - intros t Ht Hne. by rewrite deleted_view, decide_False by done.
Qed.

Lemma get_record_Ok (old : record) : length old = length r →
  spec_get (view h) rid = Some (enc_record r) →
  ∃ h', get_record rid old h = Ok (map (λ a, Some (trunc a)) r, h') ∧ heap_ok h'
    ∧ same_shape h h' ∧ view h' = view h.
Proof.
  intros Hold Hget. pose proof Hrid as [Hp _]. pose proof rid_cap as Hs.
  destruct (get_page_view h _ Hh Hp) as (hit & h1 & Hg & Hh1 & Hc1 & Hcp & Hsh & Hv & _).
  exists h1. split_and!; try done. unfold get_record. run Hg.
  eapply view_page_Ok; [exact Hcp|]. apply read_Ok; try done; [by apply hpage_ok|].
  unfold spec_get in Hget. rewrite view_lookup in Hget by done. simpl in Hget.
  rewrite lookup_page_view, decide_True, Z2Nat.id in Hget by lia. simpl in Hget.
  by apply slot_view_Some in Hget as [_ ->].
Qed.
End at_rid.
End ops.

(** * Properties of heap files *)

(** ** Creating a heap file *)

(** The state [create_heapfile] leaves. *)
Lemma create_Ok ps ss : 1001 < ps ≤ int_max → 0 < ss < ps →
  ∃ h0 h, init_heapfile ps ss = Ok h0 ∧ create_heapfile h0 = Ok (tt, h) ∧ heap_ok h
    ∧ view h = [] ∧ hpage_size h = ps ∧ hslot_size h = ss ∧ zlen (contents h) = ps.
Proof.
  intros Hps Hss. set (h0 := MkHeapfile (MkFILE [] 0) ps [] None (-1) false ss).
  destruct (init_directory_Ok ps 0) as (d & Hi & Hok & Hes & Hn & Ho); [lia|].
  destruct (write_block_end h0 (ddata d) 0) as [p Hw]; [by destruct Hok|done|].
  set (h := set_dirs [d] (set_file (MkFILE (ddata d) p) h0)).
  assert (dn d = 0) as Hdn.
  { pose proof (dir_entries_length ps d Hok) as Hl. by rewrite Hes in Hl. }
  assert (entries h = []) as He by (unfold entries, dents; simpl; by rewrite Hes).
  assert (zlen (ddata d) = ps) as Hl by (by destruct Hok).
  assert (dirs_ok ps [d]) as Hds.
  { split; [done|..].
    - intros [|i] x Hx; [|done]. by injection Hx as <-.
    - intros [|i] x Hx; simpl; lia.
    - by intros x [= <-].
    - intros [|i] x Hx; [|done]. by injection Hx as <-. }
  exists h0, h. split_and!; try done.
  - unfold init_heapfile. by rewrite c_assert_true by lia.
  - unfold create_heapfile. run (eq_refl (modify (set_file (MkFILE [] 0)) h0)).
    run (eq_refl (get_st h0)). run_lift Hi. run Hw. done.
  - split; try done.
    + unfold offsets. rewrite He. simpl. rewrite Ho, Hl. split; simpl; [lia|lia|..].
      * apply NoDup_singleton.
      * intros o ->%list_elem_of_singleton. split_and!; [lia|lia|by exists 0].
    + intros i e Hx. by rewrite He in Hx.
    + by left.
  - unfold view. by rewrite He.
Qed.

(** Creating a heap file makes a well-formed heap with no records: for every
    page size [init_heapfile] accepts and any smaller slot size, [create_heapfile] succeeds,
    writes one directory block and establishes the representation invariant. *)
Theorem create_heapfile_empty (ps ss : Z) (Hps : 1001 < ps ≤ int_max) (Hss : 0 < ss < ps) :
  ∃ h0 h, init_heapfile ps ss = Ok h0 ∧ create_heapfile h0 = Ok (tt, h) ∧ heap_ok h
    ∧ view h = [] ∧ zlen (contents h) = ps.
Proof. destruct (create_Ok ps ss Hps Hss) as (h0 & h & ? & ? & ? & ? & _ & _ & ?). by exists h0, h. Qed.

Lemma create_heapfile_empty_witness :
  ∃ h0 h, init_heapfile 1010 500 = Ok h0 ∧ create_heapfile h0 = Ok (tt, h) ∧ heap_ok h
    ∧ view h = [] ∧ zlen (contents h) = 1010.
Proof. apply (create_heapfile_empty 1010 500); unfold int_max; lia. Defined.

(** ** Inserting *)

Lemma spec_get_nil rid : spec_get [] rid = None.
Proof. done. Qed.

(** The slot [spec_put] fills: it was free or new, and nothing else changes. *)
Lemma spec_put_slot n v b : (1 ≤ n)%nat → ∃ i j,
  spec_get v (MkRID (Z.of_nat i) (Z.of_nat j)) = None
  ∧ spec_get (spec_put n v b) (MkRID (Z.of_nat i) (Z.of_nat j)) = Some b
  ∧ ∀ i' j' : nat, (i', j') ≠ (i, j) →
      spec_get (spec_put n v b) (MkRID (Z.of_nat i') (Z.of_nat j'))
        = spec_get v (MkRID (Z.of_nat i') (Z.of_nat j')).
Proof.
  intros Hn. unfold spec_get. cbn [page_id rslot].
  induction v as [|pg v (i & j & H1 & H2 & H3)].
  - exists 0%nat, 0%nat. split_and!; [done|done|]. intros i' j' Hne. rewrite !Nat2Z.id.
    destruct i' as [|i']; [|done]. destruct j' as [|j']; [done|]. simpl.
    destruct (replicate (n - 1) None !! j') as [o|] eqn:E; [|done].
    apply lookup_replicate in E as [-> _]. done.
  - simpl. destruct (list_find (λ o, o = None) pg) as [[j0 o]|] eqn:Hf.
    + apply list_find_Some in Hf as (Hj & -> & _). exists 0%nat, j0.
      rewrite !Nat2Z.id. simpl. rewrite Hj. simpl. split_and!; [done|..].
      * rewrite list_lookup_insert_eq; [done|]. by eapply lookup_lt_Some.
      * intros i' j' Hne. rewrite !Nat2Z.id. destruct i' as [|i']; [|done]. simpl.
        rewrite list_lookup_insert_ne; [done|]. congruence.
    + exists (S i), j. rewrite !Nat2Z.id in *. split_and!; [done|done|].
      intros i' j' Hne. rewrite !Nat2Z.id. destruct i' as [|i']; [done|]. simpl.
      specialize (H3 i' j'). rewrite !Nat2Z.id in H3. apply H3. congruence.
Qed.

(** [put_record] implements insertion into the abstract heap, and loses nothing:
    from a well-formed heap and for a record that fills a slot (with room for two more
    blocks below 2 GiB) it returns without failing any of its assertions, the heap is well
    formed, its view is the abstract insertion into the first free slot of the first page
    with one (or a new page), and so exactly one identifier changes, from free to the
    record's encoding. *)
Theorem put_record_refines (h : Heapfile) (r : list cstr) (Hh : heap_ok h)
    (Hr : ATTRIBUTE_SIZE * zlen r = hslot_size h)
    (Hroom : zlen (contents h) + 2 * hpage_size h ≤ int_max) :
  ∃ h', put_record (map Some r) h = Ok (tt, h') ∧ heap_ok h'
    ∧ view h' = spec_put (Z.to_nat (hcap h)) (view h) (enc_record r)
    ∧ ∃ i j : nat, spec_get (view h) (MkRID (Z.of_nat i) (Z.of_nat j)) = None
      ∧ spec_get (view h') (MkRID (Z.of_nat i) (Z.of_nat j)) = Some (enc_record r)
      ∧ ∀ i' j' : nat, (i', j') ≠ (i, j) →
          spec_get (view h') (MkRID (Z.of_nat i') (Z.of_nat j'))
            = spec_get (view h) (MkRID (Z.of_nat i') (Z.of_nat j')).
Proof.
  destruct (put_record_Ok h Hh r Hr Hroom) as (h' & H1 & H2 & H3 & _).
  exists h'. split_and!; try done. rewrite H3. apply spec_put_slot.
  destruct (hk_ss h Hh) as [Hs1 Hs2]. pose proof (cap_pos _ _ Hs1 Hs2). lia.
Qed.

(** A heap with one-page room for two 500-byte records. *)
Definition sample_heap : Heapfile :=
  match (h ← init_heapfile 1010 500; create_heapfile h) with
  | Ok (_, h) => h
  | Err _ => MkHeapfile (MkFILE [] 0) 0 [] None (-1) false 0
  end.

Lemma sample_heap_ok : heap_ok sample_heap ∧ view sample_heap = []
  ∧ hpage_size sample_heap = 1010 ∧ hslot_size sample_heap = 500
  ∧ zlen (contents sample_heap) = 1010.
Proof.
  destruct (create_Ok 1010 500) as (h0 & h & E1 & E2 & ? & ? & ? & ? & ?); [unfold int_max; lia..|].
  unfold sample_heap. rewrite E1. simpl. by rewrite E2.
Qed.

Definition sample_rec : list cstr := replicate 50 [x61].

Lemma put_record_refines_witness :
  ∃ h', put_record (map Some sample_rec) sample_heap = Ok (tt, h') ∧ heap_ok h'
    ∧ view h' = spec_put (Z.to_nat (hcap sample_heap)) (view sample_heap) (enc_record sample_rec)
    ∧ ∃ i j : nat, spec_get (view sample_heap) (MkRID (Z.of_nat i) (Z.of_nat j)) = None
      ∧ spec_get (view h') (MkRID (Z.of_nat i) (Z.of_nat j)) = Some (enc_record sample_rec)
      ∧ ∀ i' j' : nat, (i', j') ≠ (i, j) →
          spec_get (view h') (MkRID (Z.of_nat i') (Z.of_nat j'))
            = spec_get (view sample_heap) (MkRID (Z.of_nat i') (Z.of_nat j')).
Proof.
  destruct sample_heap_ok as (H & _ & E1 & E2 & E3).
  apply (put_record_refines sample_heap sample_rec H);
    rewrite ?E1, ?E2, ?E3; [reflexivity|unfold int_max; lia].
Defined.

(** ** Updating, deleting and reading *)

(** On a well-formed heap, at an identifier that names a slot: [update_record]
    stores the record's encoding in that slot alone, [delete_record] frees that slot alone,
    and [get_record] of a slot that holds a record returns its attributes, cut to
    ATTRIBUTE_SIZE characters, and changes nothing. The representation invariant is kept
    in every case, whatever page was cached. *)
Theorem record_ops_refine (h : Heapfile) (rid : RecordID) (r : list cstr) (old : record)
    (Hh : heap_ok h) (Hrid : rid_ok h rid) (Hr : ATTRIBUTE_SIZE * zlen r = hslot_size h)
    (Hold : length old = length r) :
  (∃ h', update_record rid (map Some r) h = Ok (tt, h') ∧ heap_ok h'
     ∧ view h' = spec_set (view h) rid (Some (enc_record r)))
  ∧ (∃ h', delete_record rid h = Ok (tt, h') ∧ heap_ok h' ∧ view h' = spec_set (view h) rid None)
  ∧ (spec_get (view h) rid = Some (enc_record r) →
     ∃ h', get_record rid old h = Ok (map (λ a, Some (trunc a)) r, h') ∧ heap_ok h'
       ∧ view h' = view h).
Proof.
  split_and!.
  - destruct (update_record_Ok h Hh r Hr rid Hrid) as (h' & ? & ? & _ & ?). by exists h'.
  - destruct (delete_record_Ok h Hh r rid Hrid) as (h' & ? & ? & _ & ?). by exists h'.
  - intros Hget. destruct (get_record_Ok h Hh r Hr rid Hrid old Hold Hget) as (h' & ? & ? & _ & ?).
    by exists h'.
Qed.

(** A heap holding one record, at slot 0 of page 0. *)
Lemma sample_put : ∃ h, put_record (map Some sample_rec) sample_heap = Ok (tt, h) ∧ heap_ok h
  ∧ view h = [[Some (enc_record sample_rec); None]] ∧ hpage_size h = 1010 ∧ hslot_size h = 500.
Proof.
  destruct sample_heap_ok as (H & E0 & E1 & E2 & E3).
  destruct (put_record_Ok sample_heap H sample_rec) as (h & H1 & H2 & H3 & H4 & H5 & _).
  { by rewrite E2. }
  { rewrite E1, E3. unfold int_max. lia. }
  exists h. split_and!; [done|done| |congruence..]. rewrite H3, E0. unfold hcap. rewrite E1, E2.
  change (Z.to_nat (cap 1010 500)) with 2%nat. reflexivity.
Qed.

Definition sample_heap1 : Heapfile :=
  match put_record (map Some sample_rec) sample_heap with Ok (_, h) => h | Err _ => sample_heap end.

Lemma sample_heap1_ok : heap_ok sample_heap1 ∧ view sample_heap1 = [[Some (enc_record sample_rec); None]]
  ∧ hpage_size sample_heap1 = 1010 ∧ hslot_size sample_heap1 = 500.
Proof. destruct sample_put as (h & E & H). unfold sample_heap1. rewrite E. exact H. Qed.

Lemma sample_rid_ok : rid_ok sample_heap1 (MkRID 0 0).
Proof.
  destruct sample_heap1_ok as (_ & E & E1 & E2). unfold rid_ok, npages, hcap.
  rewrite <-length_view, E, E1, E2. change (cap 1010 500) with 2.
  split; split; first [reflexivity | discriminate].
Qed.

Lemma record_ops_refine_witness : let h := sample_heap1 in let rid := MkRID 0 0 in
  (∃ h', update_record rid (map Some sample_rec) h = Ok (tt, h') ∧ heap_ok h'
     ∧ view h' = spec_set (view h) rid (Some (enc_record sample_rec)))
  ∧ (∃ h', delete_record rid h = Ok (tt, h') ∧ heap_ok h' ∧ view h' = spec_set (view h) rid None)
  ∧ (spec_get (view h) rid = Some (enc_record sample_rec) →
     ∃ h', get_record rid (new_record 50) h = Ok (map (λ a, Some (trunc a)) sample_rec, h')
       ∧ heap_ok h' ∧ view h' = view h).
Proof.
  destruct sample_heap1_ok as (H & E0 & E1 & E2).
  apply (record_ops_refine sample_heap1 (MkRID 0 0) sample_rec (new_record 50) H sample_rid_ok);
    [rewrite E2; reflexivity|reflexivity].
Defined.

(** ** Any sequence of operations *)

Inductive hop :=
  | Put (r : list cstr) | Get (rid : RecordID) (n : nat)
  | Update (rid : RecordID) (r : list cstr) | Delete (rid : RecordID).

(** Run an operation; a [Get] answers the record it read. *)
Definition run_hop (o : hop) : M (option record) :=
  match o with
  | Put r => _ ← put_record (map Some r); mret None
  | Get rid n => r ← get_record rid (new_record n); mret (Some r)
  | Update rid r => _ ← update_record rid (map Some r); mret None
  | Delete rid => _ ← delete_record rid; mret None
  end.

Fixpoint run_hops (os : list hop) : M (list (option record)) :=
  match os with
  | [] => mret []
  | o :: os => a ← run_hop o; rest ← run_hops os; mret (a :: rest)
  end.

(** The abstract heap also knows which record each slot holds, as attributes. *)
Abbreviation rec_view := (list (list (option (list cstr)))).

Definition enc_slot (o : option (list cstr)) : option (list byte) := option_map enc_record o.

Definition enc_view (v : rec_view) : heap_view := map (map enc_slot) v.

Fixpoint rec_put (n : nat) (v : rec_view) (r : list cstr) : rec_view :=
  match v with
  | [] => [Some r :: replicate (n - 1) None]
  | pg :: v => match list_find (λ o, o = None) pg with
               | Some (i, _) => <[i := Some r]> pg :: v
               | None => pg :: rec_put n v r
               end
  end.

Definition rec_get (v : rec_view) (rid : RecordID) : option (list cstr) :=
  pg ← v !! Z.to_nat (page_id rid); o ← pg !! Z.to_nat (rslot rid); o.

Definition rec_set (v : rec_view) (rid : RecordID) (o : option (list cstr)) : rec_view :=
  alter (λ pg, <[Z.to_nat (rslot rid) := o]> pg) (Z.to_nat (page_id rid)) v.

Definition step_hop (n : nat) (v : rec_view) (o : hop) : rec_view :=
  match o with
  | Put r => rec_put n v r
  | Get _ _ => v
  | Update rid r => rec_set v rid (Some r)
  | Delete rid => rec_set v rid None
  end.

Definition answer_hop (v : rec_view) (o : hop) : option record :=
  match o with
  | Get rid _ => map (λ a, Some (trunc a)) <$> rec_get v rid
  | _ => None
  end.

Fixpoint answers (n : nat) (v : rec_view) (os : list hop) : list (option record) :=
  match os with
  | [] => []
  | o :: os => answer_hop v o :: answers n (step_hop n v o) os
  end.

(** What the callers of these operations must respect: records fill a slot, and an
    identifier names an existing slot, holding a record when it is read. *)
Definition hop_ok (ss : Z) (n : nat) (v : rec_view) (o : hop) : Prop :=
  let slot rid := 0 ≤ page_id rid < zlen v ∧ 0 ≤ rslot rid < Z.of_nat n in
  match o with
  | Put r => ATTRIBUTE_SIZE * zlen r = ss
  | Get rid k => slot rid ∧ ATTRIBUTE_SIZE * Z.of_nat k = ss ∧ is_Some (rec_get v rid)
  | Update rid r => slot rid ∧ ATTRIBUTE_SIZE * zlen r = ss
  | Delete rid => slot rid
  end.

Fixpoint hops_ok (ss : Z) (n : nat) (v : rec_view) (os : list hop) : Prop :=
  match os with
  | [] => True
  | o :: os => hop_ok ss n v o ∧ hops_ok ss n (step_hop n v o) os
  end.

Lemma enc_view_find (pg : list (option (list cstr))) :
  list_find (λ o, o = None) (map enc_slot pg)
  = option_map (λ '(i, o), (i, enc_slot o)) (list_find (λ o, o = None) pg).
Proof.
  induction pg as [|[b|] pg IH]; simpl; [done|..].
  - rewrite IH. by destruct (list_find _ pg) as [[? ?]|].
  - done.
Qed.

Lemma enc_rec_put n v r : enc_view (rec_put n v r) = spec_put n (enc_view v) (enc_record r).
Proof.
  unfold enc_view. induction v as [|pg v IH]; simpl.
  - f_equal. f_equal. f_equal. apply (fmap_replicate enc_slot).
  - rewrite (enc_view_find pg).
    destruct (list_find _ pg) as [[i o]|]; simpl.
    + f_equal. apply (list_fmap_insert enc_slot).
    + by rewrite IH.
Qed.

Lemma enc_rec_set v rid o : enc_view (rec_set v rid o) = spec_set (enc_view v) rid (enc_slot o).
Proof.
  unfold enc_view, rec_set, spec_set. apply (list_fmap_alter (map enc_slot)).
  apply Forall_lookup_2. intros ? pg _. apply (list_fmap_insert enc_slot).
Qed.

Lemma enc_rec_get v rid : spec_get (enc_view v) rid = enc_slot (rec_get v rid).
Proof.
  unfold spec_get, rec_get, enc_view. rewrite (list_lookup_fmap (map enc_slot)).
  destruct (v !! Z.to_nat (page_id rid)) as [pg|]; [|done]. simpl.
  rewrite (list_lookup_fmap enc_slot). by destruct (pg !! Z.to_nat (rslot rid)).
Qed.

(** What relates a heap file to an abstract heap: the invariant, the view, and that the
    records of the abstract heap fill a slot. *)
Definition rec_sized (ss : Z) (v : rec_view) : Prop :=
  ∀ rid r, rec_get v rid = Some r → ATTRIBUTE_SIZE * zlen r = ss.

Definition refines (h : Heapfile) (v : rec_view) : Prop :=
  heap_ok h ∧ view h = enc_view v ∧ rec_sized (hslot_size h) v.

Lemma rec_get_set v rid rid' o r :
  rec_get (rec_set v rid o) rid' = Some r → o = Some r ∨ rec_get v rid' = Some r.
Proof.
  unfold rec_get, rec_set. rewrite list_lookup_alter. case_decide as Hd.
  - rewrite Hd. destruct (v !! Z.to_nat (page_id rid')) as [pg|]; simpl; [|done].
    rewrite list_lookup_insert. case_decide as Hd'; [simpl; auto|]. auto.
  - auto.
Qed.

Lemma rec_get_put n v rid r0 r :
  rec_get (rec_put n v r0) rid = Some r → r = r0 ∨ rec_get v rid = Some r.
Proof.
  unfold rec_get. generalize (Z.to_nat (page_id rid)) as i. induction v as [|pg v IH]; intros i.
  - destruct i as [|i]; simpl; [|done]. destruct (Z.to_nat (rslot rid)) as [|j]; simpl.
    + intros [= <-]. auto.
    + destruct (replicate _ _ !! j) as [o|] eqn:E; [|done].
      apply lookup_replicate in E as [-> _]. done.
  - simpl. destruct (list_find _ pg) as [[k o]|]; destruct i as [|i]; simpl; auto.
    rewrite list_lookup_insert. case_decide; simpl; [|auto]. intros [= <-]. auto.
Qed.

Lemma enc_view_length v : length (enc_view v) = length v.
Proof. apply length_map. Qed.

Lemma refines_rid h v rid : refines h v →
  0 ≤ page_id rid < zlen v ∧ 0 ≤ rslot rid < Z.of_nat (Z.to_nat (hcap h)) → rid_ok h rid.
Proof.
  intros (Hh & Hv & _) [Hp Hs]. unfold rid_ok, npages.
  rewrite <-length_view, Hv, enc_view_length. lia.
Qed.

(** One operation. *)
Lemma run_hop_Ok h v o : refines h v → hop_ok (hslot_size h) (Z.to_nat (hcap h)) v o →
  zlen (contents h) + 2 * hpage_size h ≤ int_max →
  ∃ h', run_hop o h = Ok (answer_hop v o, h')
    ∧ refines h' (step_hop (Z.to_nat (hcap h)) v o)
    ∧ hpage_size h' = hpage_size h ∧ hslot_size h' = hslot_size h
    ∧ zlen (contents h') ≤ zlen (contents h) + 2 * hpage_size h.
Proof.
  intros Href Ho Hroom. pose proof Href as (Hh & Hv & Hsz). pose proof (hk_ps h Hh).
  destruct o as [r|rid k|rid r|rid]; simpl in Ho.
  - destruct (put_record_Ok h Hh r Ho Hroom) as (h' & Hr & Hh' & Hv' & Hp & Hs & Hl & _).
    exists h'. split_and!; try done; [by cbn [run_hop]; run Hr|].
    split_and!; [done|by rewrite Hv', Hv, <-enc_rec_put|].
    rewrite Hs. intros rid r' [->|?]%rec_get_put; eauto.
  - destruct Ho as (Hrid & Hk & [r Hget]). pose proof (Hsz _ _ Hget) as Hr.
    destruct (get_record_Ok h Hh r Hr rid (refines_rid h v rid Href Hrid) (new_record k))
      as (h' & Hrun & Hh' & (Hn & Hp & Hs & Hl) & Hv').
    { unfold new_record. rewrite length_replicate. unfold ATTRIBUTE_SIZE in *. lia. }
    { by rewrite Hv, enc_rec_get, Hget. }
    exists h'. cbn [run_hop answer_hop step_hop]. split_and!; try done; [|..|lia].
    + run Hrun. by rewrite Hget.
    + split_and!; [done|by rewrite Hv'|by rewrite Hs].
  - destruct Ho as [Hrid Hr].
    destruct (update_record_Ok h Hh r Hr rid (refines_rid h v rid Href Hrid))
      as (h' & Hrun & Hh' & (Hn & Hp & Hs & Hl) & Hv').
    exists h'. cbn [run_hop answer_hop step_hop]. split_and!; try done; [by run Hrun| |lia].
    split_and!; [done|by rewrite Hv', Hv, enc_rec_set|].
    rewrite Hs. intros rid' r' [[= <-]|?]%rec_get_set; eauto.
  - destruct (delete_record_Ok h Hh [] rid (refines_rid h v rid Href Ho))
      as (h' & Hrun & Hh' & (Hn & Hp & Hs & Hl) & Hv').
    exists h'. cbn [run_hop answer_hop step_hop]. split_and!; try done; [by run Hrun| |lia].
    split_and!; [done|by rewrite Hv', Hv, enc_rec_set|].
    rewrite Hs. intros rid' r' [[=]|?]%rec_get_set; eauto.
Qed.

(** Claim C25. Any sequence of insertions, reads, updates and deletions on a heap file
    behaves like the same sequence on the abstract heap: as long as the callers name existing
    slots (and read filled ones), no operation fails, every read answers the attributes last
    stored in that slot (cut to ATTRIBUTE_SIZE characters), and the final file holds exactly
    the final abstract heap. *)
Theorem hops_refine (os : list hop) (h : Heapfile) (v : rec_view) (Href : refines h v)
    (Hos : hops_ok (hslot_size h) (Z.to_nat (hcap h)) v os)
    (Hroom : zlen (contents h) + zlen os * (2 * hpage_size h) ≤ int_max) :
  ∃ h', run_hops os h = Ok (answers (Z.to_nat (hcap h)) v os, h')
    ∧ refines h' (fold_left (step_hop (Z.to_nat (hcap h))) os v).
Proof.
  revert h v Href Hos Hroom. induction os as [|o os IH]; intros h v Href Hos Hroom; [by exists h|].
  destruct Hos as [Ho Hos]. pose proof (hk_ps h (proj1 Href)). cbn [length] in Hroom.
  destruct (run_hop_Ok h v o Href Ho) as (h1 & Hrun & Href1 & Hp & Hs & Hl); [nia|].
  assert (hcap h1 = hcap h) as Hc by (unfold hcap; by rewrite Hp, Hs).
  destruct (IH h1 _ Href1) as (h' & Hrest & Hf); [by rewrite Hc, Hs|rewrite Hp; nia|].
  rewrite Hc in Hrest, Hf. exists h'. cbn [run_hops answers fold_left]. split; [|done].
  run Hrun. by run Hrest.
Qed.

Definition sample_hops : list hop :=
  [Put sample_rec; Put (replicate 50 [x62]); Update (MkRID 0 0) (replicate 50 [x63]);
   Get (MkRID 0 0) 50; Delete (MkRID 0 1); Put sample_rec; Get (MkRID 0 1) 50; Put sample_rec].

Lemma hops_refine_witness : ∃ h',
  run_hops sample_hops sample_heap = Ok (answers (Z.to_nat (hcap sample_heap)) [] sample_hops, h')
  ∧ refines h' (fold_left (step_hop (Z.to_nat (hcap sample_heap))) sample_hops []).
Proof.
  destruct sample_heap_ok as (H & E0 & E1 & E2 & E3).
  apply (hops_refine sample_hops sample_heap []).
  - split_and!; [exact H|exact E0|intros ? ? [=]].
  - unfold hcap. rewrite E1, E2. change (Z.to_nat (cap 1010 500)) with 2%nat. cbn.
    repeat split; first [reflexivity | discriminate | by eexists].
  - rewrite E1, E3. unfold int_max. cbn. lia.
Defined.
