(* ===== verification/HeapClose.v ===== *)
(** * Closing a heap file and opening it again

    [close_heapfile] leaves in the file everything [open_heapfile] needs: the cached
    page and every directory are written back, and the chain of directories leads from
    block 0 to the last one. *)
From S2P Require Import Prelude Buffers CLib RecordFmt Page Directory Heapfile HeapInv HeapOps HeapProps.

(** ** The debugging count stays within [int] *)

Section debug.
Context (ps : Z) (d : Directory) (Hd : dir_ok ps d) (c : Z) (Hc : 0 ≤ c)
  (Hfree : ∀ e, e ∈ dir_entries d → 0 ≤ free_space e ≤ c) (Hmax : dn d * c ≤ int_max)
  (Hc_int : c ≤ int_max).

Lemma debug_loop_Ok fuel i acc : 0 ≤ i → i + Z.of_nat fuel = dn d → 0 ≤ acc ≤ i * c →
  ∃ n, debug_loop fuel d i (dn d) c acc = Ok n.
Proof.
  revert i acc. induction fuel as [|fuel IH]; intros i acc Hi Hf Hacc; [by exists acc|].
  cbn [debug_loop]. replace (i <? dn d) with true by lia.
  rewrite (get_dir_entry_Ok ps d Hd) by (destruct Hd; lia). cbn [mbind res_bind].
  assert (0 ≤ free_space (entry_of (ddata d) i) ≤ c) as Hi'.
  { apply Hfree. apply list_elem_of_lookup. exists (Z.to_nat i).
    apply (lookup_dir_entries d). lia. }
  assert (i * c + c ≤ dn d * c) by nia.
  rewrite cint_ok by (unfold int_min; unfold int_max in *; lia). cbn [mbind res_bind].
  rewrite cint_ok by (unfold int_min; unfold int_max in *; lia). cbn [mbind res_bind].
  apply IH; lia.
Qed.
End debug.

Lemma in_entries h d e : d ∈ directory_buffer h → e ∈ dir_entries d → e ∈ entries h.
Proof.
  intros Hd He. unfold entries, dents. apply list_elem_of_In, in_concat.
  exists (dir_entries d). split; [|by apply list_elem_of_In].
  apply in_map. by apply list_elem_of_In.
Qed.

Lemma dn_npages h d : heap_ok h → d ∈ directory_buffer h → 0 ≤ dn d ≤ npages h.
Proof.
  intros Hh [i Hi]%list_elem_of_lookup. pose proof (ds_all _ _ (hk_dirs h Hh) i d Hi) as Hok.
  pose proof (dir_entries_length _ d Hok) as Hl. unfold npages, entries, dents.
  rewrite <-(take_drop_middle _ _ _ Hi), map_app, concat_app, length_app. cbn [map concat].
  rewrite length_app. lia.
Qed.

Lemma debug_count_Ok h d : heap_ok h → d ∈ directory_buffer h →
  ∃ n, debug_count (hpage_size h) (hslot_size h) d = Ok n.
Proof.
  intros Hh Hd. pose proof (dn_npages h d Hh Hd) as Hn.
  destruct (hk_ss h Hh) as [Hs1 Hs2]. pose proof (hk_ps h Hh).
  pose proof (npages_bound h Hh). pose proof (cap_pos _ _ Hs1 Hs2).
  pose proof (cap_le_ps _ _ Hs1 Hs2). pose proof (cap_bounds _ _ Hs1 Hs2) as (? & ? & ? & ? & ?).
  pose proof (ceil8_nonneg (hpage_size h / hslot_size h)).
  assert (dir_ok (hpage_size h) d) as Hok.
  { apply list_elem_of_lookup in Hd as [i Hi]. by apply (ds_all _ _ (hk_dirs h Hh) i). }
  unfold debug_count. rewrite cdiv_nonneg by lia. cbn [mbind res_bind].
  rewrite cdiv_nonneg by lia. cbn [mbind res_bind].
  change ((hpage_size h - ceil8 (hpage_size h / hslot_size h)) / hslot_size h) with (hcap h).
  rewrite (n_entries_Ok _ d Hok). cbn [mbind res_bind].
  apply (debug_loop_Ok (hpage_size h)); try lia; [done|..|nia].
  intros e He. pose proof (in_entries h d e Hd He) as [i Hi]%list_elem_of_lookup.
  rewrite (hk_free h Hh i e Hi).
  assert (0 ≤ Z.of_nat i < npages h) as Hr by (apply lookup_lt_Some in Hi; unfold npages; lia).
  pose proof (used_range _ (hpage_ok h Hh _ Hr)). simpl in *. lia.
Qed.

(** ** Writing the directories *)

Section close.
Context (h : Heapfile) (Hh : heap_ok h).
Local Abbreviation ps := (hpage_size h).

Lemma close_dirs_Ok ds : ∀ f, NoDup (map doffset ds) →
  (∀ d, d ∈ ds → d ∈ directory_buffer h) → zlen (fcontents f) = zlen (contents h) →
  ∃ f', close_dirs ds (set_file f h) = Ok (tt, set_file f' h)
    ∧ zlen (fcontents f') = zlen (contents h)
    ∧ (∀ d, d ∈ ds → slice (doffset d) ps (fcontents f') = ddata d)
    ∧ ∀ o, o ∈ offsets h → o ∉ map doffset ds →
        slice o ps (fcontents f') = slice o ps (fcontents f).
Proof.
  pose proof (hk_ps h Hh) as Hps.
  induction ds as [|d ds IH]; intros f Hnd Hin Hlen.
  { exists f. split_and!; try done. intros d Hd. by apply not_elem_of_nil in Hd. }
  simpl in Hnd. apply NoDup_cons in Hnd as [Hd Hnd].
  pose proof (Hin d ltac:(by left)) as Hdin.
  apply list_elem_of_lookup in Hdin as [k Hk].
  pose proof (dir_off_in h k d Hk) as Hoff. pose proof (ds_all _ _ (hk_dirs h Hh) k d Hk) as Hok.
  destruct (fk_off _ _ _ (hk_file h Hh) _ Hoff) as (Ho1 & Ho2 & _).
  destruct (debug_count_Ok h d Hh) as [n Hn]; [by eapply list_elem_of_lookup_2|].
  assert (zlen (ddata d) = ps) as Hdl by (by destruct Hok).
  destruct (write_block_Ok (set_file f h) (ddata d) (doffset d)) as [p Hw];
    [done|done|simpl; lia|].
  simpl in Hw.
  assert (zlen (splice (doffset d) (ddata d) (fcontents f)) = zlen (contents h)) as Hl'
    by (rewrite length_splice; lia).
  destruct (IH (MkFILE (splice (doffset d) (ddata d) (fcontents f)) p)) as (f' & Hc & Hl & Hs & Hu).
  { done. }
  { intros x Hx. apply Hin. by right. }
  { exact Hl'. }
  exists f'. cbn [close_dirs]. split_and!.
  - run (eq_refl (get_st (set_file f h))). run Hw. run_lift Hn. exact Hc.
  - done.
  - intros x [->|Hx]%elem_of_cons; [|by apply Hs]. rewrite Hu by done. simpl.
    rewrite <-Hdl. apply slice_splice_same; lia.
  - intros o Hoin Hno. simpl in Hno. rewrite Hu; [simpl|done|intros ?; apply Hno; by right].
    destruct (fk_off _ _ _ (hk_file h Hh) o Hoin) as (? & ? & _).
    apply slice_splice_disj; try lia. rewrite Hdl.
    apply (file_ok_disj ps _ (offsets h)) with (1 := hk_file h Hh); [lia|done|done|].
    intros ->. apply Hno. by left.
Qed.

(** What the closed file holds. *)
Lemma close_Ok : ∃ f, close_heapfile h = Ok (fcontents f, set_file f h)
  ∧ zlen (fcontents f) = zlen (contents h)
  ∧ (∀ d, d ∈ directory_buffer h → slice (doffset d) ps (fcontents f) = ddata d)
  ∧ ∀ i e, entries h !! i = Some e →
      slice (offset e) ps (fcontents f) = pdata h (Z.of_nat i).
Proof.
  destruct (write_back_Ok h Hh) as (f & Hw & Hl & Hp & _).
  pose proof (fk_nodup _ _ _ (hk_file h Hh)) as Hnd. unfold offsets in Hnd.
  apply NoDup_app in Hnd as (Hnd & Hdisj & _).
  destruct (close_dirs_Ok (directory_buffer h) f Hnd) as (f' & Hc & Hl' & Hs & Hu); [done|done|].
  exists f'. split_and!; [|done|done|].
  - unfold close_heapfile. run Hw. run (eq_refl (get_st (set_file f h))). simpl. by run Hc.
  - intros i e He. rewrite Hu, (Hp i e He); [done|by eapply entry_off_in|].
    intros Hin. apply (Hdisj _ Hin). apply list_elem_of_lookup. exists i.
    by rewrite list_lookup_fmap, He.
Qed.
End close.

(** ** Opening *)

(** Reading a directory block back gives the directory. *)
Lemma init_directory_read ps d : dir_ok ps d →
  ∃ d0, init_directory_page ps (doffset d) = Ok d0 ∧ with_ddata d0 (ddata d) = d.
Proof.
  intros Hok. pose proof Hok as [Hps Hc _ _].
  destruct (init_directory_Ok ps (doffset d) Hps) as (d0 & Hi & [_ Hc0 _ _] & _ & _ & Ho).
  exists d0. split; [done|]. unfold with_ddata. rewrite Hc0, <-Hc, Ho. by destruct d.
Qed.

(** The loop follows the chain from directory number [length pre] to the end. *)
Lemma open_loop_Ok ps ds suf : dirs_ok ps ds → NoDup (map doffset ds) →
  ∀ pre d h fuel, ds = pre ++ d :: suf → (length suf < fuel)%nat → hpage_size h = ps →
  (∀ d, d ∈ ds → 0 ≤ doffset d ∧ doffset d + ps ≤ zlen (contents h)
     ∧ slice (doffset d) ps (contents h) = ddata d) →
  ∃ p, open_loop fuel (doffset d) h
    = Ok (tt, set_dirs (directory_buffer h ++ d :: suf) (set_file (MkFILE (contents h) p) h)).
Proof.
  intros Hds Hnd. pose proof (dirs_ps ps ds Hds) as Hps.
  induction suf as [|d' suf IH]; intros pre d h [|fuel] E Hf Hp Hr; simpl in Hf; try lia.
  all: assert (ds !! length pre = Some d) as Hd by (subst ds; by apply list_lookup_middle).
  all: destruct (Hr d ltac:(by eapply list_elem_of_lookup_2)) as (H1 & H2 & H3).
  all: pose proof (ds_all _ _ Hds _ d Hd) as Hok.
  all: destruct (init_directory_read ps d Hok) as (d0 & Hi & Hw).
  all: destruct (read_block_Ok h (doffset d)) as [p Hrd]; [lia|done|lia|].
  all: unfold block in Hrd; rewrite Hp, H3 in Hrd.
  all: pose proof (ds_chain _ _ Hds _ d Hd) as Hnext.
  all: set (h1 := set_dirs (directory_buffer h ++ [d]) (set_file (MkFILE (contents h) p) h)).
  all: assert (∀ k, (open_loop (S fuel) (doffset d) h = k ↔
         (if negb (dnext d =? 0) then open_loop fuel (dnext d) else mret tt) h1 = k)) as Hstep.
  1,3: (intros k; cbn [open_loop]; run (eq_refl (get_st h)); rewrite Hp; run_lift Hi; run Hrd;
    rewrite Hw; run (eq_refl (modify (λ h, set_dirs (directory_buffer h ++ [d]) h)
      (set_file (MkFILE (contents h) p) h))); run_lift (next_directory_Ok ps d Hok); done).
  - exists p. apply Hstep. rewrite Hnext.
    rewrite lookup_ge_None_2 by (subst ds; rewrite length_app; simpl; lia). done.
  - assert (ds !! S (length pre) = Some d') as Hd'.
    { subst ds. rewrite lookup_app_r by lia. by replace (S (length pre) - length pre)%nat with 1%nat by lia. }
    rewrite Hd' in Hnext.
    assert (doffset d' ≠ 0) as Hne.
    { intros H0. destruct ds as [|x ds']; [done|].
      pose proof (ds_head _ _ Hds x eq_refl) as Hx.
      assert (S (length pre) = 0%nat); [|lia].
      apply (NoDup_lookup _ _ _ 0 Hnd); rewrite list_lookup_fmap; [by rewrite Hd', <-H0|simpl; by rewrite Hx]. }
    destruct (IH (pre ++ [d]) d' h1 fuel) as [q Hq].
    { by rewrite <-app_assoc. }
    { lia. }
    { done. }
    { done. }
    exists q. apply Hstep. rewrite Hnext. destruct (Z.eqb_spec (doffset d') 0); [done|].
    cbn [negb]. rewrite Hq. unfold h1. simpl. by rewrite <-app_assoc.
Qed.

(** The heap the closed file opens to: the same directories, an empty cache. *)
Lemma open_close_Ok h : heap_ok h →
  ∃ bytes hc h0 h', close_heapfile h = Ok (bytes, hc)
    ∧ init_heapfile (hpage_size h) (hslot_size h) = Ok h0
    ∧ open_heapfile bytes h0 = Ok (tt, h') ∧ heap_ok h' ∧ view h' = view h
    ∧ directory_buffer h' = directory_buffer h ∧ cached_pid h' = -1
    ∧ hpage_size h' = hpage_size h ∧ hslot_size h' = hslot_size h
    ∧ zlen (contents h') = zlen (contents h).
Proof.
  intros Hh. destruct (close_Ok h Hh) as (f & Hc & Hl & Hd & He). pose proof (hk_ps h Hh) as Hps.
  set (ps := hpage_size h) in *. set (ds := directory_buffer h) in *.
  set (h0 := MkHeapfile (MkFILE [] 0) ps [] None (-1) false (hslot_size h)).
  pose proof (fk_nodup _ _ _ (hk_file h Hh)) as Hnd. unfold offsets in Hnd.
  apply NoDup_app in Hnd as (Hnd & _ & _). fold ds in Hnd.
  pose proof (hk_dirs h Hh) as Hds. fold ps ds in Hds.
  destruct ds as [|d suf] eqn:Eds; [by destruct (ds_ne _ _ Hds)|].
  assert (length suf < S (length (fcontents f)))%nat as Hfuel.
  { destruct (hk_file h Hh) as [Hk _ _ _]. unfold offsets in Hk. fold ds in Hk.
    rewrite Eds, length_app, !length_map in Hk. simpl length in Hk. fold ps in Hk. nia. }
  destruct (open_loop_Ok ps _ suf Hds Hnd [] d (set_file (MkFILE (fcontents f) 0) h0) _ eq_refl Hfuel eq_refl)
    as [p Hopen].
  { intros x Hx. apply list_elem_of_lookup in Hx as Hx'. destruct Hx' as [k Hk].
    rewrite <-Eds in Hk. pose proof (dir_off_in h k x Hk) as Hin.
    destruct (fk_off _ _ _ (hk_file h Hh) _ Hin) as (? & ? & _).
    split_and!; [done|unfold ps; simpl; lia|by apply Hd]. }
  rewrite (ds_head _ _ Hds d eq_refl) in Hopen.
  set (h' := set_dirs (d :: suf) (set_file (MkFILE (fcontents f) p) h0)).
  assert (entries h' = entries h) as Hent by (unfold entries; fold ds; by rewrite Eds).
  assert (∀ i, 0 ≤ i < npages h → pdata h' i = pdata h i) as Hsame.
  { intros i Hi. unfold pdata at 1. rewrite decide_False by (simpl; lia). rewrite Hent.
    destruct (lookup_lt_is_Some_2 (entries h) (Z.to_nat i)) as [e Hi']; [unfold npages in Hi; lia|].
    rewrite Hi'. simpl. rewrite <-(Z2Nat.id i) by lia. by apply He. }
  exists (fcontents f), (set_file f h), h0, h'. split_and!; try done.
  - unfold init_heapfile. fold ps. by rewrite c_assert_true by lia.
  - split; try done.
    + exact (hk_ss h Hh).
    + unfold offsets. rewrite Hent. change (directory_buffer h') with (d :: suf). rewrite <-Eds.
      simpl. rewrite Hl. exact (hk_file h Hh).
    + intros i e Hi. rewrite Hent in Hi. rewrite (hk_free h Hh i e Hi).
      assert (0 ≤ Z.of_nat i < npages h) as Hr by (apply lookup_lt_Some in Hi; unfold npages; lia).
      unfold hpage. by rewrite (Hsame _ Hr).
    + by left.
  - apply view_eq; try done. unfold npages. by rewrite Hent.
Qed.

(** Claim C26. A heap file survives being closed and opened: closing a well-formed heap
    succeeds (its debugging count cannot overflow), and opening the bytes it leaves with the
    same page and slot sizes follows the whole chain of directories, ends, and gives a
    well-formed heap with an empty cache and exactly the same records in the same slots, even
    when the cached page was dirty and the directories had changed since they were last
    written. *)
Theorem close_open_persists (h : Heapfile) (Hh : heap_ok h) :
  ∃ bytes hc h0 h', close_heapfile h = Ok (bytes, hc)
    ∧ init_heapfile (hpage_size h) (hslot_size h) = Ok h0
    ∧ open_heapfile bytes h0 = Ok (tt, h') ∧ heap_ok h' ∧ view h' = view h
    ∧ cached_pid h' = -1.
Proof.
  destruct (open_close_Ok h Hh) as (bytes & hc & h0 & h' & H1 & H2 & H3 & H4 & H5 & _ & H6 & _).
  by exists bytes, hc, h0, h'.
Qed.

Lemma close_open_persists_witness : ∃ bytes hc h0 h',
  close_heapfile sample_heap1 = Ok (bytes, hc)
  ∧ init_heapfile (hpage_size sample_heap1) (hslot_size sample_heap1) = Ok h0
  ∧ open_heapfile bytes h0 = Ok (tt, h') ∧ heap_ok h' ∧ view h' = view sample_heap1
  ∧ cached_pid h' = -1.
Proof. apply (close_open_persists sample_heap1 (proj1 sample_heap1_ok)). Defined.
