(* ===== verification/Scan.v ===== *)
(** * Scanning a heap file: [RecordIterator] of a1/heapfile.cpp

    The iterator and the loops its clients write around it. The heap file it points to is
    the state of the monad. *)
From S2P Require Import Prelude Buffers CLib RecordFmt Page Directory Heapfile.

(** ** The iterator *)

Record RecordIterator := MkIter { pid : Z; slot : Z; has_next : bool }.

Definition set_slot (s : Z) (it : RecordIterator) : RecordIterator := MkIter (pid it) s (has_next it).

(** Whether the directory that would hold page [pid] counts it. A [pid] past the last
    directory indexes the vector of directories out of range. *)
Definition page_is_allocated (dir_capacity pid : Z) : M bool :=
  dir_no ← lift (cdiv pid dir_capacity);
  slot_no ← lift (crem pid dir_capacity);
  dir ← get_dir dir_no;
  n ← lift (n_entries dir);
  mret (slot_no <? n).

Fixpoint increment_loop (fuel : nat) (dir_capacity : Z) (it : RecordIterator) : M RecordIterator :=
  match fuel with
  | O => lift (Err Diverge)
  | S fuel =>
      allocated ← page_is_allocated dir_capacity (pid it);
      if (allocated : bool) then
        _ ← get_page (pid it);
        s ← view_page (λ p, get_next_filled_slot p (slot it));
        if 0 <=? s then mret (set_slot s it)
        else
          p ← lift (cint (pid it + 1));
          increment_loop fuel dir_capacity (MkIter p s (has_next it))
      else mret (MkIter (pid it) (slot it) false)
  end.

(** Each round moves to the next page, and there are no more pages than bytes. *)
Definition scan_fuel (h : Heapfile) : nat := S (length (fcontents (file_ptr h))).

Definition increment_iterator (it : RecordIterator) : M RecordIterator :=
  h ← get_st;
  d0 ← get_dir 0;
  increment_loop (scan_fuel h) (capacity d0) it.

(** The constructor never assigns [has_next]: [garbage] is what its memory held. *)
Definition new_RecordIterator (garbage : bool) : M RecordIterator :=
  increment_iterator (MkIter 0 (-1) garbage).

Definition hasNext (it : RecordIterator) : bool := has_next it.

Definition nextRID (it : RecordIterator) : RecordID := MkRID (pid it) (slot it).

(** The record and the moved iterator. *)
Definition next (it : RecordIterator) : M (record * RecordIterator) :=
  _ ← get_page (pid it);
  rec ← view_page (λ p, read_fixed_len_page p (slot it) (new_record 100));
  it ← increment_iterator it;
  mret (rec, it).

(** ** The loop of its clients

    [while (rit.hasNext()) { rid = rit.nextRID(); rec = rit.next(); body }]: [body] works on
    the client's variables [a] and says whether to [break]. No more rounds than bytes of the
    file, as each visits another slot. *)
Fixpoint rit_loop {A} (fuel : nat) (body : RecordID → record → A → res (A * bool))
    (it : RecordIterator) (a : A) : M A :=
  match fuel with
  | O => lift (Err Diverge)
  | S fuel =>
      if hasNext it then
        let rid := nextRID it in
        r ← next it;
        b ← lift (body rid r.1 a);
        if (b.2 : bool) then mret b.1 else rit_loop fuel body r.2 b.1
      else mret a
  end.

Definition scan_with {A} (garbage : bool) (body : RecordID → record → A → res (A * bool)) (a : A)
    : M A :=
  rit ← new_RecordIterator garbage;
  h ← get_st;
  rit_loop (scan_fuel h) body rit a.

(** ** The abstract scan: the filled slots, page by page *)

Fixpoint slots_from {A} (j : Z) (pg : list (option A)) : list (Z * A) :=
  match pg with
  | [] => []
  | o :: pg => match o with Some b => [(j, b)] | None => [] end ++ slots_from (j + 1) pg
  end.

Definition page_from {A} (i j : Z) (pg : list (option A)) : list (RecordID * A) :=
  map (λ x, (MkRID i x.1, x.2)) (slots_from j pg).

Fixpoint heap_from {A} (i : Z) (v : list (list (option A))) : list (RecordID * A) :=
  match v with
  | [] => []
  | pg :: v => page_from i 0 pg ++ heap_from (i + 1) v
  end.

Definition records {A} (v : list (list (option A))) : list (RecordID * A) := heap_from 0 v.

(** The filled slots after slot [s] of page [i]. *)
Definition remaining {A} (v : list (list (option A))) (i s : Z) : list (RecordID * A) :=
  match drop (Z.to_nat i) v with
  | [] => []
  | pg :: v => page_from i (s + 1) (drop (Z.to_nat (s + 1)) pg) ++ heap_from (i + 1) v
  end.

(** A client loop over the records it is given. *)
Fixpoint run_body {A R} (body : RecordID → R → A → res (A * bool)) (l : list (RecordID * R)) (a : A)
    : res A :=
  match l with
  | [] => mret a
  | (rid, r) :: l => b ← body rid r a; if (b.2 : bool) then mret b.1 else run_body body l b.1
  end.

(** ** Lemmas on the abstract scan *)

Section remaining.
Context {A : Type}.
Implicit Types v : list (list (option A)).

Lemma remaining_all v : remaining v 0 (-1) = records v.
Proof. unfold remaining, records. by destruct v. Qed.

Lemma remaining_end v i s : zlen v ≤ i → remaining v i s = [].
Proof. intros H. unfold remaining. by rewrite drop_ge by lia. Qed.

Lemma slots_from_free j (pg : list (option A)) : (∀ k o, pg !! k = Some o → o = None) → slots_from j pg = [].
Proof.
  revert j. induction pg as [|o pg IH]; intros j H; [done|]. simpl.
  rewrite (H 0%nat o) by done. apply IH. intros k. apply (H (S k)).
Qed.

Lemma slots_from_hit n j (pg : list (option A)) b : pg !! n = Some (Some b) →
  (∀ k o, (k < n)%nat → pg !! k = Some o → o = None) →
  slots_from j pg = (j + Z.of_nat n, b) :: slots_from (j + Z.of_nat n + 1) (drop (S n) pg).
Proof.
  revert j pg. induction n as [|n IH]; intros j [|o pg] Hn Hb; try done.
  - injection Hn as ->. simpl. by rewrite Z.add_0_r.
  - simpl in *. rewrite (Hb 0%nat o) by (done || lia). simpl.
    rewrite (IH (j + 1) pg Hn).
    + f_equal; [f_equal; lia|]. f_equal. lia.
    + intros k o' Hk. apply (Hb (S k)). lia.
Qed.

Lemma drop_lookup_cons v i pg : v !! i = Some pg → drop i v = pg :: drop (S i) v.
Proof. apply drop_S. Qed.

Lemma remaining_skip v i s pg : 0 ≤ i → -1 ≤ s → v !! Z.to_nat i = Some pg →
  (∀ t o, s < t → pg !! Z.to_nat t = Some o → o = None) → remaining v i s = remaining v (i + 1) (-1).
Proof.
  intros Hi Hs Hpg Hf. unfold remaining. rewrite (drop_lookup_cons _ _ _ Hpg).
  unfold page_from at 1. rewrite slots_from_free.
  - simpl. replace (Z.to_nat (i + 1)) with (S (Z.to_nat i)) by lia.
    by destruct (drop (S (Z.to_nat i)) v).
  - intros k o Hk. rewrite lookup_drop in Hk.
    apply (Hf (s + 1 + Z.of_nat k)); [lia|]. rewrite <-Hk. f_equal. lia.
Qed.

Lemma remaining_hit v i s pg t b : 0 ≤ i → -1 ≤ s < t → v !! Z.to_nat i = Some pg →
  pg !! Z.to_nat t = Some (Some b) →
  (∀ u o, s < u < t → pg !! Z.to_nat u = Some o → o = None) →
  remaining v i s = (MkRID i t, b) :: remaining v i t.
Proof.
  intros Hi Hs Hpg Ht Hf. unfold remaining. rewrite (drop_lookup_cons _ _ _ Hpg).
  unfold page_from. rewrite (slots_from_hit (Z.to_nat (t - (s + 1))) (s + 1) _ b).
  - rewrite drop_drop. simpl. replace (s + 1 + Z.of_nat (Z.to_nat (t - (s + 1)))) with t by lia.
    replace (Z.to_nat (s + 1) + S (Z.to_nat (t - (s + 1))))%nat with (Z.to_nat (t + 1)) by lia. done.
  - rewrite lookup_drop, <-Ht. f_equal. lia.
  - intros k o Hk Hl. rewrite lookup_drop in Hl.
    apply (Hf (s + 1 + Z.of_nat k)); [lia|]. rewrite <-Hl. f_equal. lia.
Qed.

(** The records are the filled slots, each once. *)
Lemma slots_from_elem j (pg : list (option A)) k b :
  (k, b) ∈ slots_from j pg ↔ j ≤ k ∧ pg !! Z.to_nat (k - j) = Some (Some b).
Proof.
  revert j. induction pg as [|o pg IH]; intros j; simpl.
  - split; [by intros ?%elem_of_nil|by intros [_ ?]].
  - rewrite elem_of_app, IH. split.
    + intros [H|[H1 H2]].
      * destruct o as [b'|]; [|by apply elem_of_nil in H].
        apply list_elem_of_singleton in H as [= -> ->]. split; [lia|].
        by rewrite Z.sub_diag.
      * split; [lia|]. by replace (Z.to_nat (k - j)) with (S (Z.to_nat (k - (j + 1)))) by lia.
    + intros [H1 H2]. destruct (decide (k = j)) as [->|].
      * rewrite Z.sub_diag in H2. injection H2 as ->. left. by apply list_elem_of_singleton.
      * right. split; [lia|].
        by replace (Z.to_nat (k - j)) with (S (Z.to_nat (k - (j + 1)))) in H2 by lia.
Qed.
End remaining.
