(* ===== verification/ScanProps.v ===== *)
(** * Properties of scans

    A scan visits exactly the filled slots, in order, when the last directory has a vacant
    entry and the iterator's uninitialised flag happens to be true; what happens otherwise
    is stated too. *)
From Stdlib Require Import Sorted.
From S2P Require Import Prelude Buffers CLib RecordFmt Page Directory Heapfile HeapInv HeapOps HeapProps HeapClose Scan.

(** The number of pages the directories have room for. *)
Definition dir_room (h : Heapfile) : Z := zlen (directory_buffer h) * dir_cap (hpage_size h).

(** A later state of a heap that was only read. *)
Definition seen (h h' : Heapfile) : Prop :=
  heap_ok h' ∧ view h' = view h ∧ directory_buffer h' = directory_buffer h ∧ same_shape h h'.

Lemma seen_refl h : heap_ok h → seen h h.
Proof. by split. Qed.

Lemma seen_trans h1 h2 h3 : seen h1 h2 → seen h2 h3 → seen h1 h3.
Proof.
  intros (_ & V1 & D1 & S1) (H & V2 & D2 & S2).
  split_and!; [done|congruence|congruence|by eapply same_shape_trans].
Qed.

Lemma seen_refines h h' v : seen h h' → refines h v → refines h' v.
Proof.
  intros (H & V & _ & (_ & _ & S & _)) (_ & V' & Z). split_and!; [done|congruence|by rewrite S].
Qed.

(** [get_page] only changes the cache. *)
Lemma get_page_seen h i : heap_ok h → 0 ≤ i < npages h →
  ∃ hit h', get_page i h = Ok (hit, h') ∧ seen h h' ∧ cached_page h' = Some (hpage h i).
Proof.
  intros Hh Hi. destruct (get_page_Ok h i Hh Hi)
    as (hit & h' & Hg & Hh' & Hc & Hd & Hp & Hs & Hl & Hsame & _).
  assert (npages h' = npages h) as Hn by (unfold npages, entries; by rewrite Hd).
  exists hit, h'. split_and!; try done.
  - split_and!; [done|by apply view_eq|done|done].
  - rewrite (cached_hpage h' i) by (done || lia). unfold hpage. by rewrite Hp, Hs, Hsame.
Qed.

Section allocated.
Context (h : Heapfile) (Hh : heap_ok h).
Local Abbreviation C := (dir_cap (hpage_size h)).

Lemma C_pos : 1 ≤ C ≤ int_max.
Proof. apply (dirs_cap _ _ (hk_dirs h Hh)). Qed.

Lemma npages_room : npages h ≤ dir_room h ∧ npages h < int_max
  ∧ npages h < zlen (contents h).
Proof.
  pose proof C_pos. pose proof (npages_bound h Hh). pose proof (hk_ps h Hh).
  pose proof (hk_dirs h Hh) as Hds. pose proof (ds_ne _ _ Hds) as Hne.
  destruct (exists_last Hne) as (ds & d & E).
  pose proof (dents_snoc _ _ Hds ds d E) as Hn. unfold dir_room, npages, entries in *.
  assert (dir_ok (hpage_size h) d) as [_ Hcap _ Hdn].
  { apply (ds_all _ _ Hds (length ds)). rewrite E. by rewrite lookup_snoc. }
  rewrite E at 2. rewrite length_app. simpl length. split_and!; nia.
Qed.

Lemma dir0 : ∃ d0, get_dir 0 h = Ok (d0, h) ∧ capacity d0 = C.
Proof.
  pose proof (hk_dirs h Hh) as Hds. pose proof (ds_ne _ _ Hds).
  destruct (directory_buffer h) as [|d0 ds] eqn:E; [done|].
  exists d0. split; [|by destruct (ds_all _ _ Hds 0%nat d0 eq_refl)].
  change 0 with (Z.of_nat 0). apply get_dir_Ok. by rewrite E.
Qed.

Lemma allocated_lt i : 0 ≤ i < npages h → page_is_allocated C i h = Ok (true, h).
Proof.
  intros Hi. pose proof C_pos. pose proof npages_room.
  destruct (dents_lookup _ _ (hk_dirs h Hh) i Hi) as (d & Hd & Hok & Hm & _).
  unfold page_is_allocated. rewrite cdiv_nonneg, crem_nonneg by lia.
  run_lift (eq_refl (Ok (i / C))). run_lift (eq_refl (Ok (i mod C))).
  assert (get_dir (i / C) h = Ok (d, h)) as Hg.
  { rewrite <-(Z2Nat.id (i / C)) by (apply Z.div_pos; lia). by apply get_dir_Ok. }
  run Hg. run_lift (n_entries_Ok _ d Hok). unfold mret, st_ret.
  by replace (i mod C <? dn d) with true by lia.
Qed.

Lemma allocated_end : npages h < dir_room h → page_is_allocated C (npages h) h = Ok (false, h).
Proof.
  intros Hroom. pose proof C_pos. pose proof npages_room as (_ & Hmax & _).
  pose proof (hk_dirs h Hh) as Hds. destruct (exists_last (ds_ne _ _ Hds)) as (ds & d & E).
  pose proof (dents_snoc _ _ Hds ds d E) as Hn. fold (entries h) (npages h) in Hn.
  assert (directory_buffer h !! length ds = Some d) as Hd by (rewrite E; by rewrite lookup_snoc).
  pose proof (ds_all _ _ Hds _ d Hd) as Hok. pose proof Hok as [_ Hcap _ Hdn].
  unfold dir_room in Hroom. rewrite E, length_app in Hroom. simpl in Hroom.
  assert (npages h / C = zlen ds ∧ npages h mod C = dn d) as [E1 E2].
  { split; [symmetry; apply (Z.div_unique_pos _ _ _ (dn d)); lia|].
    symmetry. apply (Z.mod_unique_pos _ _ (zlen ds)); lia. }
  unfold page_is_allocated. rewrite cdiv_nonneg, crem_nonneg by lia. rewrite E1, E2.
  run_lift (eq_refl (@Ok Z (zlen ds))). run_lift (eq_refl (Ok (dn d))).
  run (get_dir_Ok h _ d Hd). run_lift (n_entries_Ok _ d Hok). unfold mret, st_ret.
  by rewrite Z.ltb_irrefl.
Qed.

Lemma allocated_full : npages h = dir_room h → page_is_allocated C (npages h) h = Err UB.
Proof.
  intros Hroom. pose proof C_pos. pose proof npages_room as (_ & Hmax & _).
  assert (0 ≤ npages h) by (unfold npages; lia).
  assert (npages h / C = zlen (directory_buffer h)) as E1.
  { unfold dir_room in Hroom. rewrite Hroom. apply Z.div_mul. lia. }
  unfold page_is_allocated. rewrite cdiv_nonneg, crem_nonneg by lia. rewrite E1.
  run_lift (eq_refl (@Ok Z (zlen (directory_buffer h)))).
  run_lift (eq_refl (Ok (npages h mod C))).
  unfold get_dir, mbind, st_bind, get_st, lift, defined.
  replace (0 <=? zlen (directory_buffer h)) with true by lia.
  by rewrite Nat2Z.id, lookup_ge_None_2.
Qed.
End allocated.

(** ** One step of the iterator *)

Section scan.
Context (v : rec_view).

Lemma refines_page h i : refines h v → 0 ≤ i < npages h →
  ∃ pg, v !! Z.to_nat i = Some pg ∧ page_view (hpage h i) = map enc_slot pg.
Proof.
  intros (Hh & Hv & _) Hi. pose proof (view_lookup h i Hi) as Hl.
  rewrite Hv in Hl. apply list_lookup_fmap_Some in Hl as (pg & -> & Hpg). by exists pg.
Qed.

Lemma refines_len h : refines h v → npages h = zlen v.
Proof. intros (_ & Hv & _). unfold npages. by rewrite <-length_view, Hv, enc_view_length. Qed.

(** A slot of the page is filled when the abstract slot is. *)
Lemma refines_slot h i pg t : refines h v → page_view (hpage h i) = map enc_slot pg →
  0 ≤ t < hcap h →
  ∃ o, pg !! Z.to_nat t = Some o
    ∧ flag (pdata h i) (hpage_size h) t = bool_decide (is_Some o)
    ∧ (∀ r, o = Some r → slot_bytes (hpage h i) t = enc_record r).
Proof.
  intros Href Hpv Ht.
  assert (page_view (hpage h i) !! Z.to_nat t = Some (slot_view (hpage h i) t)) as Hl.
  { rewrite lookup_page_view. change (page_cap (hpage h i)) with (hcap h).
    by rewrite decide_True, Z2Nat.id by lia. }
  rewrite Hpv in Hl. apply list_lookup_fmap_Some in Hl as (o & Hsv & Ho).
  exists o. split; [done|]. destruct o as [r|]; simpl in Hsv.
  - apply slot_view_Some in Hsv as [Hf Hb]. split; [by rewrite bool_decide_true by eauto|].
    by intros ? [= <-].
  - apply slot_view_None in Hsv. split; [|done]. by rewrite bool_decide_false by (by intros [? ?]).
Qed.

Lemma pg_len h i pg : page_view (hpage h i) = map enc_slot pg → length pg = Z.to_nat (hcap h).
Proof.
  intros E. apply (f_equal length) in E. by rewrite length_map, length_page_view in E.
Qed.

(** Where the iterator goes. *)
Definition step_to (h : Heapfile) (it : RecordIterator) (run : res (RecordIterator * Heapfile)) : Prop :=
  match remaining v (pid it) (slot it) with
  | [] =>
      (npages h < dir_room h → ∃ it' h', run = Ok (it', h') ∧ seen h h' ∧ has_next it' = false)
      ∧ (npages h = dir_room h → run = Err UB)
  | (rid, r) :: rest =>
      ∃ h', run = Ok (MkIter (page_id rid) (rslot rid) (has_next it), h') ∧ seen h h'
        ∧ rid_ok h rid ∧ rec_get v rid = Some r
        ∧ remaining v (page_id rid) (rslot rid) = rest
  end.

Definition it_ok (h : Heapfile) (it : RecordIterator) : Prop :=
  0 ≤ pid it ≤ npages h ∧ -1 ≤ slot it < hcap h.

Lemma step_to_seen h h' it it' run : seen h h' → has_next it' = has_next it →
  remaining v (pid it) (slot it) = remaining v (pid it') (slot it') →
  step_to h' it' run → step_to h it run.
Proof.
  intros Hs Hn E. pose proof Hs as (_ & _ & Hd & (Hnp & Hps & Hss & Hl)).
  unfold step_to. rewrite E, <-Hn. clear E.
  assert (dir_room h' = dir_room h) as -> by (unfold dir_room; by rewrite Hd, Hps). rewrite Hnp.
  destruct (remaining _ _ _) as [|[rid r] rest].
  - intros [H1 H2]. split; [|done]. intros Hr. destruct (H1 Hr) as (a & b & ? & ? & ?).
    exists a, b. split_and!; [done|by eapply seen_trans|done].
  - intros (h2 & ? & ? & Hrid & ? & ?). exists h2. split_and!; try done; [by eapply seen_trans|].
    unfold rid_ok in *. by rewrite Hnp, Hps, Hss in Hrid.
Qed.

Lemma increment_loop_Ok fuel : ∀ it h, refines h v → it_ok h it →
  npages h - pid it < Z.of_nat fuel →
  step_to h it (increment_loop fuel (dir_cap (hpage_size h)) it h).
Proof.
  induction fuel as [|fuel IH]; intros it h Href [Hpid Hslot] Hf; [lia|].
  pose proof (proj1 Href) as Hh. pose proof (npages_room h Hh) as (Hroom & Hmax & _).
  destruct (hk_ss h Hh) as [Hs1 Hs2]. pose proof (cap_le_ps _ _ Hs1 Hs2). pose proof (hk_ps h Hh).
  cbn [increment_loop]. destruct (decide (pid it = npages h)) as [Hend|Hne].
  { unfold step_to. rewrite remaining_end by (rewrite <-(refines_len h Href); lia).
    rewrite Hend. split; intros Hr.
    - run (allocated_end h Hh Hr). eexists _, h. split; [done|]. split; [by apply seen_refl|done].
    - unfold mbind at 1, st_bind. by rewrite (allocated_full h Hh Hr). }
  assert (0 ≤ pid it < npages h) as Hp by lia. run (allocated_lt h Hh _ Hp).
  destruct (refines_page h _ Href Hp) as (pg & Hpg & Hpv). pose proof (pg_len _ _ _ Hpv) as Hlen.
  pose proof (hpage_ok h Hh _ Hp) as Hpok.
  destruct (get_page_seen h _ Hh Hp) as (hit & h1 & Hg & Hseen & Hc). run Hg.
  pose proof Hseen as (Hh1 & _ & _ & (Hn1 & Hp1 & Hss1 & _)).
  pose proof (seen_refines _ _ _ Hseen Href) as Href1.
  destruct (next_filled_Ok (hpage h (pid it)) (slot it) Hpok) as [[Hg' Hall]|(t & Hg' & Ht & Hft & Hmin)];
    [lia|..]; simpl in *.
  - erewrite run_bind; [|eapply view_page_Ok; [exact Hc|exact Hg']]. cbv beta iota.
    change (0 <=? -1) with false. cbv iota.
    run_lift (cint_ok (pid it + 1) ltac:(unfold int_min; lia)).
    apply (step_to_seen h h1 it (MkIter (pid it + 1) (-1) (has_next it))); [done|done|..].
    + apply (remaining_skip _ _ _ pg); [lia|lia|done|]. intros t o Ht Ho.
      destruct (decide (t < hcap h)) as [Hlt|];
        [|by rewrite lookup_ge_None_2 in Ho by lia].
      destruct (refines_slot h (pid it) pg t Href Hpv ltac:(lia)) as (o' & Ho' & Hfl & _).
      rewrite Ho in Ho'. injection Ho' as <-. rewrite (Hall t) in Hfl by lia.
      destruct o; [by rewrite bool_decide_true in Hfl by eauto|done].
    + rewrite <-Hp1. apply IH; [done| |simpl; lia].
      split; simpl; [lia|]. rewrite Hp1, Hss1. lia.
  - erewrite run_bind; [|eapply view_page_Ok; [exact Hc|exact Hg']]. cbv beta iota.
    replace (0 <=? t) with true by lia. cbv iota.
    destruct (refines_slot h (pid it) pg t Href Hpv ltac:(lia)) as (o & Ho & Hfl & Hb).
    rewrite Hft in Hfl. destruct o as [r|]; [|by rewrite bool_decide_false in Hfl by (by intros [? ?])].
    unfold step_to. rewrite (remaining_hit v _ _ pg t r); [|lia|lia|done|done|].
    + exists h1. split_and!; [done|done|split; simpl; lia| |done].
      unfold rec_get. cbn [page_id rslot]. rewrite Hpg. simpl. by rewrite Ho.
    + intros u o Hu Hou.
      destruct (refines_slot h (pid it) pg u Href Hpv ltac:(lia)) as (o' & Ho' & Hfl' & _).
      rewrite Hou in Ho'. injection Ho' as <-. rewrite (Hmin u) in Hfl' by lia.
      destruct o; [by rewrite bool_decide_true in Hfl' by eauto|done].
Qed.

Lemma increment_iterator_Ok it h : refines h v → it_ok h it →
  step_to h it (increment_iterator it h).
Proof.
  intros Href Hit. pose proof (proj1 Href) as Hh.
  destruct (dir0 h Hh) as (d0 & Hd0 & Hc). pose proof (npages_room h Hh) as (_ & _ & Hn).
  unfold increment_iterator. run (eq_refl (get_st h)). run Hd0. rewrite Hc.
  apply increment_loop_Ok; [done|done|]. unfold scan_fuel. destruct Hit as [? _]. lia.
Qed.

(** ** The whole loop *)

(** The iterator stands at the first record of [l], or at the end. *)
Definition stands (h : Heapfile) (it : RecordIterator) (l : list (RecordID * list cstr)) : Prop :=
  match l with
  | [] => has_next it = false
  | (rid, r) :: rest =>
      it = MkIter (page_id rid) (rslot rid) true ∧ rid_ok h rid ∧ rec_get v rid = Some r
      ∧ remaining v (page_id rid) (rslot rid) = rest
  end.

Lemma stands_seen h h' it l : seen h h' → stands h it l → stands h' it l.
Proof.
  intros (_ & _ & _ & (Hn & Hp & Hs & _)). destruct l as [|[rid r] rest]; [done|].
  unfold stands, rid_ok. by rewrite Hn, Hp, Hs.
Qed.

Lemma step_to_stands h it run : has_next it = true → npages h < dir_room h → step_to h it run →
  ∃ it' h', run = Ok (it', h') ∧ seen h h' ∧ stands h' it' (remaining v (pid it) (slot it)).
Proof.
  unfold step_to. intros Hn Hroom. destruct (remaining _ _ _) as [|[rid r] rest].
  - intros [H _]. by apply H.
  - intros (h' & -> & Hs & ? & ? & ?). eexists _, h'. split_and!; [done|done|].
    apply (stands_seen h h'); [done|]. split_and!; [by rewrite Hn|done..].
Qed.

(** Reading the record the iterator stands at. *)
Lemma next_read h rid r : refines h v → hslot_size h = 1000 → rid_ok h rid →
  rec_get v rid = Some r →
  ∃ h', (∀ it, pid it = page_id rid → slot it = rslot rid →
      next it h = (it' ← increment_iterator it; mret (map (λ a, Some (trunc a)) r, it')) h')
    ∧ seen h h'.
Proof.
  intros Href Hss [Hp Hs] Hr. pose proof (proj1 Href) as Hh.
  destruct (refines_page h _ Href Hp) as (pg & Hpg & Hpv).
  destruct (refines_slot h _ pg _ Href Hpv Hs) as (o & Ho & _ & Hb).
  unfold rec_get in Hr. rewrite Hpg in Hr. simpl in Hr. rewrite Ho in Hr. simpl in Hr. subst o.
  specialize (Hb r eq_refl).
  assert (ATTRIBUTE_SIZE * zlen r = hslot_size h) as Hlen.
  { apply (proj2 (proj2 Href) rid). unfold rec_get. rewrite Hpg. simpl. by rewrite Ho. }
  destruct (get_page_seen h _ Hh Hp) as (hit & h1 & Hg & Hseen & Hc).
  exists h1. split; [|done]. intros it E1 E2. unfold next. rewrite E1, E2. run Hg.
  erewrite run_bind; [|eapply view_page_Ok; [exact Hc|]]; [reflexivity|].
  apply read_Ok; simpl; [by apply hpage_ok|done|done| |done].
  rewrite Hss in Hlen. unfold ATTRIBUTE_SIZE in Hlen. lia.
Qed.

Definition decoded (l : list (RecordID * list cstr)) : list (RecordID * record) :=
  map (λ x, (x.1, map (λ a, Some (trunc a)) x.2)) l.

Lemma rit_loop_Ok {A} (body : RecordID → record → A → res (A * bool)) l : ∀ fuel it a h,
  refines h v → hslot_size h = 1000 → npages h < dir_room h → (length l < fuel)%nat →
  stands h it l →
  match run_body body (decoded l) a with
  | Ok b => ∃ h', rit_loop fuel body it a h = Ok (b, h') ∧ seen h h'
  | Err e => rit_loop fuel body it a h = Err e
  end.
Proof.
  induction l as [|[rid r] l IH]; intros [|fuel] it a h Href Hss Hroom Hf Hst; simpl in Hf; try lia.
  { simpl in Hst. cbn [rit_loop decoded map run_body]. unfold hasNext. rewrite Hst.
    exists h. split; [done|]. apply seen_refl. by destruct Href. }
  destruct Hst as (-> & Hrid & Hr & Hrest).
  destruct (next_read h rid r Href Hss Hrid Hr) as (h1 & Hnext & Hs1).
  cbn [rit_loop decoded map run_body fst snd hasNext has_next nextRID pid slot].
  pose proof (seen_refines _ _ _ Hs1 Href) as Href1.
  pose proof Hs1 as (_ & _ & Hd1 & (Hn1 & Hp1 & Hss1 & _)).
  assert (dir_room h1 = dir_room h) as Hdr by (unfold dir_room; by rewrite Hd1, Hp1).
  set (it := MkIter (page_id rid) (rslot rid) true).
  destruct (step_to_stands h1 it (increment_iterator it h1)) as (it2 & h2 & Hinc & Hs2 & Hst2);
    [done|by rewrite Hn1, Hdr|apply increment_iterator_Ok; [done|]|].
  { unfold it_ok. destruct Hrid. simpl. rewrite Hn1, Hp1, Hss1. lia. }
  simpl in Hst2. rewrite Hrest in Hst2.
  assert (next it h = Ok ((map (λ a, Some (trunc a)) r, it2), h2)) as Hn.
  { rewrite (Hnext it) by done. by run Hinc. }
  pose proof (seen_trans _ _ _ Hs1 Hs2) as Hs. destruct rid as [i j]. simpl. run Hn.
  destruct (body _ _ a) as [[b stop]|e] eqn:Hb; simpl.
  2:{ by apply run_err, lift_err. }
  run_lift (eq_refl (Ok (b, stop))). simpl.
  destruct stop; [by exists h2|]. pose proof (seen_refines _ _ _ Hs Href) as Href2.
  pose proof Hs as (_ & _ & Hd2 & (Hn2 & Hp2 & Hss2 & _)).
  pose proof (IH fuel it2 b h2 Href2) as IH'. fold (decoded l).
  destruct (run_body body (decoded l) b) as [c|e].
  - destruct IH' as (h' & ? & ?); [congruence|unfold dir_room in *; congruence|lia|done|].
    exists h'. split; [done|by eapply seen_trans].
  - apply IH'; [congruence|unfold dir_room in *; congruence|lia|done].
Qed.

(** There is fuel for every record. *)
Lemma slots_from_le {A} j (pg : list (option A)) : (length (slots_from j pg) ≤ length pg)%nat.
Proof.
  revert j. induction pg as [|[b|] pg IH]; intros j; simpl; [done|..]; specialize (IH (j + 1)); lia.
Qed.

Lemma heap_from_le {A} i n (w : list (list (option A))) :
  Forall (λ pg, (length pg ≤ n)%nat) w → (length (heap_from i w) ≤ n * length w)%nat.
Proof.
  intros H. revert i. induction H as [|pg w Hpg _ IH]; intros i; simpl; [lia|].
  rewrite length_app. unfold page_from. rewrite length_map.
  pose proof (slots_from_le 0 pg). specialize (IH (i + 1)). nia.
Qed.

Lemma records_fuel h : refines h v → (length (records v) < scan_fuel h)%nat.
Proof.
  intros Href. pose proof (proj1 Href) as Hh. destruct (hk_ss h Hh) as [Hs1 Hs2].
  pose proof (cap_le_ps _ _ Hs1 Hs2). pose proof (npages_bound h Hh).
  pose proof (cap_pos _ _ Hs1 Hs2). pose proof (hk_ps h Hh).
  assert (length (records v) ≤ Z.to_nat (hcap h) * length v)%nat as Hle.
  { apply heap_from_le. apply Forall_lookup. intros i pg Hi.
    assert (0 ≤ Z.of_nat i < npages h) as Hp.
    { rewrite (refines_len h Href). apply lookup_lt_Some in Hi. lia. }
    destruct (refines_page h _ Href Hp) as (pg' & Hpg' & Hpv). rewrite Nat2Z.id, Hi in Hpg'.
    injection Hpg' as <-. by rewrite (pg_len _ _ _ Hpv). }
  pose proof (refines_len h Href). unfold scan_fuel. nia.
Qed.
End scan.

(** ** What the abstract scan visits *)

Definition rid_lt (a b : RecordID) : Prop :=
  page_id a < page_id b ∨ page_id a = page_id b ∧ rslot a < rslot b.

Lemma page_from_elem {A} i (pg : list (option A)) rid b :
  (rid, b) ∈ page_from i 0 pg ↔
  page_id rid = i ∧ 0 ≤ rslot rid ∧ pg !! Z.to_nat (rslot rid) = Some (Some b).
Proof.
  unfold page_from. split.
  - intros ([k c] & [= -> ->] & H)%list_elem_of_fmap. apply slots_from_elem in H as [? H].
    by rewrite Z.sub_0_r in H.
  - intros (Hp & Hs & H). apply list_elem_of_fmap. exists (rslot rid, b). split.
    + subst i. by destruct rid.
    + apply slots_from_elem. by rewrite Z.sub_0_r.
Qed.

Lemma heap_from_elem {A} (v : list (list (option A))) : ∀ i rid b,
  (rid, b) ∈ heap_from i v ↔ i ≤ page_id rid ∧ 0 ≤ rslot rid ∧
    ∃ pg, v !! Z.to_nat (page_id rid - i) = Some pg ∧ pg !! Z.to_nat (rslot rid) = Some (Some b).
Proof.
  induction v as [|pg v IH]; intros i rid b; simpl.
  - split; [by intros ?%elem_of_nil|by intros (_ & _ & ? & ? & _)].
  - rewrite elem_of_app, page_from_elem, IH. split.
    + intros [(<- & ? & ?)|(? & ? & pg' & H & ?)].
      * split_and!; [lia|done|]. exists pg. by rewrite Z.sub_diag.
      * split_and!; [lia|done|]. exists pg'. split; [|done].
        by replace (Z.to_nat (page_id rid - i)) with (S (Z.to_nat (page_id rid - (i + 1)))) by lia.
    + intros (? & ? & pg' & H & ?). destruct (decide (page_id rid = i)) as [<-|].
      * left. rewrite Z.sub_diag in H. injection H as <-. done.
      * right. split_and!; [lia|done|]. exists pg'. split; [|done].
        by replace (Z.to_nat (page_id rid - i)) with (S (Z.to_nat (page_id rid - (i + 1)))) in H by lia.
Qed.

Lemma StronglySorted_append {A} (R : A → A → Prop) l1 l2 :
  StronglySorted R l1 → StronglySorted R l2 →
  (∀ x y, x ∈ l1 → y ∈ l2 → R x y) → StronglySorted R (l1 ++ l2).
Proof.
  induction 1 as [|x l1 H1 IH Hx]; intros H2 H; [done|]. simpl. constructor.
  - apply IH; [done|]. intros a b Ha. apply H. by right.
  - apply Forall_app. split; [done|]. apply Forall_forall. intros y Hy. apply H; [by left|done].
Qed.

Lemma page_from_sorted {A} i j (pg : list (option A)) :
  StronglySorted rid_lt (map fst (page_from i j pg))
  ∧ Forall (λ rid, page_id rid = i ∧ j ≤ rslot rid) (map fst (page_from i j pg)).
Proof.
  unfold page_from. revert j. induction pg as [|o pg IH]; intros j; [by repeat constructor|].
  destruct (IH (j + 1)) as [H1 H2]. simpl. rewrite !map_app.
  assert (Forall (λ rid, page_id rid = i ∧ j ≤ rslot rid)
    (map fst (map (λ x : Z * A, (MkRID i x.1, x.2)) (slots_from (j + 1) pg)))) as H3.
  { eapply Forall_impl; [exact H2|]. simpl. intros ? [? ?]. split; [done|lia]. }
  destruct o as [b|]; simpl; [|done]. split; constructor; [done| |simpl; lia|done].
  eapply Forall_impl; [exact H2|]. intros y [? ?]. right. simpl. lia.
Qed.

Lemma records_sorted {A} (v : list (list (option A))) :
  StronglySorted rid_lt (map fst (records v)).
Proof.
  unfold records. generalize 0. induction v as [|pg v IH]; intros i; [constructor|].
  simpl. rewrite map_app. destruct (page_from_sorted i 0 pg) as [H1 H2].
  apply StronglySorted_append; [done|apply IH|].
  intros x y Hx [[y' b] [-> Hy]]%list_elem_of_fmap. apply heap_from_elem in Hy as (? & _).
  rewrite Forall_forall in H2. destruct (H2 x Hx). left. simpl. lia.
Qed.

Lemma records_elem (v : rec_view) rid r : 0 ≤ page_id rid → 0 ≤ rslot rid →
  (rid, r) ∈ records v ↔ rec_get v rid = Some r.
Proof.
  intros Hp Hs. unfold records. rewrite heap_from_elem, Z.sub_0_r. unfold rec_get. split.
  - intros (_ & _ & pg & -> & E). simpl. by rewrite E.
  - intros H. split_and!; [done..|]. destruct (v !! _) as [pg|]; [|done]. simpl in H.
    exists pg. split; [done|]. destruct (pg !! _) as [o|]; [|done]. simpl in H. by subst.
Qed.

(** ** The claims *)

Lemma it_start h : heap_ok h → it_ok h (MkIter 0 (-1) true).
Proof.
  intros Hh. destruct (hk_ss h Hh) as [Hs1 Hs2]. pose proof (cap_pos _ _ Hs1 Hs2).
  unfold it_ok, npages. simpl. lia.
Qed.

Lemma scan_Ok {A} (body : RecordID → record → A → res (A * bool)) h v a :
  refines h v → hslot_size h = 1000 → npages h < dir_room h →
  match run_body body (decoded (records v)) a with
  | Ok b => ∃ h', scan_with true body a h = Ok (b, h') ∧ seen h h'
  | Err e => scan_with true body a h = Err e
  end.
Proof.
  intros Href Hss Hroom. unfold scan_with, new_RecordIterator. set (it0 := MkIter 0 (-1) true).
  destruct (step_to_stands v h it0 (increment_iterator it0 h)) as (it & h1 & Hinc & Hs & Hst);
    [done|done|by apply increment_iterator_Ok; [done|apply it_start; destruct Href]|].
  pose proof Hs as (_ & _ & Hd & (Hn & Hp & Hs1 & Hl)).
  pose proof (seen_refines _ _ _ Hs Href) as Href1.
  pose proof (rit_loop_Ok v body (records v) (scan_fuel h1) it a h1 Href1) as Hloop.
  unfold it0 in Hst. simpl in Hst. rewrite remaining_all in Hst.
  destruct (run_body body (decoded (records v)) a) as [b|e].
  - destruct Hloop as (h' & Hrun & Hs'); [congruence|unfold dir_room in *; congruence| |done|].
    { by apply records_fuel. }
    exists h'. split; [|by eapply seen_trans]. run Hinc. run (eq_refl (get_st h1)). exact Hrun.
  - run Hinc. run (eq_refl (get_st h1)).
    apply Hloop; [congruence|unfold dir_room in *; congruence|by apply records_fuel|done].
Qed.

(** Claim C27. A scan visits every record exactly once, in order. On a heap file of 1000-byte
    slots whose last directory has a vacant entry, and when the iterator's uninitialised flag
    happens to be true, every client loop over the iterator does what it would do on the list
    of the filled slots' identifiers and attributes, including where its body fails or breaks;
    that list holds exactly the filled slots, sorted by page and slot (so none twice), and the
    loop ends with the heap unchanged. *)
Theorem scan_visits_records {A} (body : RecordID → record → A → res (A * bool)) (h : Heapfile)
    (v : rec_view) (a : A) (Href : refines h v) (Hss : hslot_size h = 1000)
    (Hroom : npages h < dir_room h) :
  match run_body body (decoded (records v)) a with
  | Ok b => ∃ h', scan_with true body a h = Ok (b, h') ∧ heap_ok h' ∧ view h' = view h
  | Err e => scan_with true body a h = Err e
  end
  ∧ (∀ rid r, 0 ≤ page_id rid → 0 ≤ rslot rid → (rid, r) ∈ records v ↔ rec_get v rid = Some r)
  ∧ StronglySorted rid_lt (map fst (records v)).
Proof.
  split_and!; [|apply records_elem|apply records_sorted].
  pose proof (scan_Ok body h v a Href Hss Hroom) as H.
  destruct (run_body _ _ _); [|done]. destruct H as (h' & ? & ? & ? & _). by exists h'.
Qed.

(** *** Sample heaps: [n] pages of one 1000-byte record each *)

Definition wide_rec : list cstr := replicate 100 [x61].

Lemma rec_put_full n r : rec_put 1 (replicate n [Some r]) r = replicate (S n) [Some r].
Proof. induction n as [|n IH]; [done|]. cbn [replicate rec_put list_find]. simpl. f_equal. exact IH. Qed.

Lemma filled_heap (n : nat) : (n ≤ 1000)%nat →
  ∃ h, refines h (replicate n [Some wide_rec]) ∧ hpage_size h = 1010 ∧ hslot_size h = 1000
    ∧ tight 1010 (directory_buffer h) ∧ zlen (contents h) ≤ 1010 + Z.of_nat n * 2020.
Proof.
  induction n as [|n IH]; intros Hn.
  - destruct (create_Ok 1010 1000) as (h0 & h & _ & _ & Hh & Hv & Hp & Hs & Hl);
      [unfold int_max; lia..|].
    exists h. split_and!; [|done|done| |lia].
    + split_and!; [done|done|by intros ? ? [=]].
    + left. pose proof (dirs_count h Hh) as Hd. unfold npages in Hd.
      rewrite <-length_view, Hv, Hl, Hp in Hd. simpl in Hd. lia.
  - destruct IH as (h & Href & Hp & Hs & Ht & Hl); [lia|]. pose proof Href as (Hh & Hv & Hz).
    destruct (put_record_Ok h Hh wide_rec) as (h' & _ & Hh' & Hv' & Hp' & Hs' & Hl' & Ht').
    { rewrite Hs. reflexivity. }
    { rewrite Hp. unfold int_max. lia. }
    exists h'. split_and!; [|congruence|congruence|rewrite Hp in Ht'; auto|rewrite Hp in Hl'; lia].
    rewrite <-rec_put_full. split_and!; [done| |].
    + rewrite Hv', Hv, <-enc_rec_put. by rewrite Hp, Hs.
    + rewrite Hs', Hs. intros rid r [->|Hr]%rec_get_put; [reflexivity|].
      rewrite <-Hs. by eapply Hz.
Qed.

Lemma one_page : ∃ h, refines h [[Some wide_rec]] ∧ hslot_size h = 1000 ∧ npages h < dir_room h.
Proof.
  destruct (filled_heap 1) as (h & Href & Hp & Hs & _); [lia|]. exists h. split_and!; [done|done|].
  pose proof (refines_len _ h Href) as Hn. simpl in Hn. rewrite Hn. unfold dir_room. rewrite Hp.
  pose proof (ds_ne _ _ (hk_dirs h (proj1 Href))). destruct (directory_buffer h); [done|].
  simpl length. change (dir_cap 1010) with 125. lia.
Qed.

Lemma full_directory : ∃ h v, refines h v ∧ hslot_size h = 1000 ∧ npages h = dir_room h
  ∧ records v ≠ [].
Proof.
  destruct (filled_heap 125) as (h & Href & Hp & Hs & Ht & _); [lia|].
  exists h, (replicate 125 [Some wide_rec]). split_and!; [done|done| |done].
  pose proof (refines_len _ h Href) as Hn. rewrite length_replicate in Hn.
  unfold tight in Ht. change (dir_cap 1010) with 125 in Ht. fold (entries h) (npages h) in Ht.
  pose proof (npages_room h (proj1 Href)) as (Hr & _).
  unfold dir_room in *. rewrite Hp in *. change (dir_cap 1010) with 125 in *. lia.
Qed.

(** A client that collects what it is given. *)
Definition collect (rid : RecordID) (rec : record) (l : list (RecordID * record))
    : res (list (RecordID * record) * bool) := Ok (l ++ [(rid, rec)], false).

Lemma scan_visits_records_witness : ∃ h, let v := [[Some wide_rec]] in
  match run_body collect (decoded (records v)) [] with
  | Ok b => ∃ h', scan_with true collect [] h = Ok (b, h') ∧ heap_ok h' ∧ view h' = view h
  | Err e => scan_with true collect [] h = Err e
  end
  ∧ (∀ rid r, 0 ≤ page_id rid → 0 ≤ rslot rid → (rid, r) ∈ records v ↔ rec_get v rid = Some r)
  ∧ StronglySorted rid_lt (map fst (records v)).
Proof.
  destruct one_page as (h & Href & Hs & Hr). exists h.
  apply (scan_visits_records collect h [[Some wide_rec]] [] Href Hs Hr).
Defined.

(** ** When the flag happens to be false, and when the directories are full *)

(** Nothing in [RecordIterator]'s constructor sets [has_next] when it finds a
    record: if the uninitialised flag holds false, a scan of a heap with records visits none of
    them, whatever the loop does, and returns as if the heap were empty. *)
Theorem scan_flag_uninitialised {A} (body : RecordID → record → A → res (A * bool)) (h : Heapfile)
    (v : rec_view) (a : A) (Href : refines h v) (Hne : records v ≠ []) :
  ∃ h', scan_with false body a h = Ok (a, h') ∧ heap_ok h' ∧ view h' = view h.
Proof.
  pose proof (increment_iterator_Ok v (MkIter 0 (-1) false) h Href (it_start h (proj1 Href))) as H.
  unfold step_to in H. simpl in H. rewrite remaining_all in H.
  destruct (records v) as [|[rid r] l]; [done|]. destruct H as (h1 & Hinc & (H1 & H2 & _) & _).
  exists h1. split_and!; [|done|done]. unfold scan_with, new_RecordIterator.
  run Hinc. run (eq_refl (get_st h1)). done.
Qed.

Lemma scan_flag_uninitialised_witness : ∃ h h',
  scan_with false collect [] h = Ok ([], h') ∧ heap_ok h' ∧ view h' = view h.
Proof.
  destruct one_page as (h & Href & Hs & Hr). exists h.
  apply (scan_flag_uninitialised collect h [[Some wide_rec]] [] Href). discriminate.
Defined.

(** At full directories the loop fails at the last record. *)
Lemma rit_loop_full {A} (body : RecordID → record → A → res (A * bool)) v l : ∀ fuel it a h,
  (∀ rid r a, ∃ b, body rid r a = Ok (b, false)) →
  refines h v → hslot_size h = 1000 → npages h = dir_room h → (length l < fuel)%nat →
  stands v h it l → l ≠ [] → rit_loop fuel body it a h = Err UB.
Proof.
  induction l as [|[rid r] l IH]; intros [|fuel] it a h Hb Href Hss Hroom Hf Hst Hne; simpl in Hf;
    try lia; [done|].
  destruct Hst as (-> & Hrid & Hr & Hrest).
  destruct (next_read v h rid r Href Hss Hrid Hr) as (h1 & Hnext & Hs1).
  pose proof (seen_refines _ _ _ Hs1 Href) as Href1.
  pose proof Hs1 as (_ & _ & Hd1 & (Hn1 & Hp1 & Hss1 & _)).
  assert (dir_room h1 = dir_room h) as Hdr by (unfold dir_room; by rewrite Hd1, Hp1).
  set (it := MkIter (page_id rid) (rslot rid) true) in *. destruct rid as [i j].
  assert (it_ok h1 it) as Hit.
  { unfold it_ok. destruct Hrid. simpl in *. rewrite Hn1, Hp1, Hss1. lia. }
  pose proof (increment_iterator_Ok v it h1 Href1 Hit) as Hstep. unfold step_to in Hstep.
  simpl in Hstep, Hrest. rewrite Hrest in Hstep. cbn [rit_loop hasNext].
  simpl. destruct l as [|[rid' r'] l].
  - apply run_err. rewrite (Hnext it) by done. apply run_err. apply Hstep. by rewrite Hn1, Hdr.
  - destruct Hstep as (h2 & Hinc & Hs2 & Hrid' & Hr' & Hrest').
    pose proof (seen_trans _ _ _ Hs1 Hs2) as Hs. pose proof (seen_refines _ _ _ Hs Href) as Href2.
    pose proof Hs as (_ & _ & Hd2 & (Hn2 & Hp2 & Hss2 & _)).
    destruct (Hb (MkRID i j) (map (λ a, Some (trunc a)) r) a) as [b Hbody].
    erewrite run_bind; [|rewrite (Hnext it) by done; run Hinc; done]. cbv beta iota.
    unfold nextRID. simpl. run_lift Hbody. simpl.
    apply IH; [done|done|congruence|unfold dir_room in *; congruence|simpl in *; lia| |done].
    split_and!; [done| |done|done]. unfold rid_ok in *.
    pose proof Hs2 as (_ & _ & _ & (-> & -> & -> & _)). done.
Qed.

(** When the pages exactly fill the directories, a scan runs off the end of the
    directory vector: after the last record [increment_iterator] looks up the directory of the
    page after the last one, which does not exist (undefined behaviour), so no client loop that
    reads the whole heap ever finishes. *)
Theorem scan_full_directories {A} (body : RecordID → record → A → res (A * bool)) (h : Heapfile)
    (v : rec_view) (a : A) (Href : refines h v) (Hss : hslot_size h = 1000)
    (Hfull : npages h = dir_room h) (Hne : records v ≠ [])
    (Hbody : ∀ rid r a, ∃ b, body rid r a = Ok (b, false)) :
  scan_with true body a h = Err UB.
Proof.
  pose proof (increment_iterator_Ok v (MkIter 0 (-1) true) h Href (it_start h (proj1 Href))) as H.
  unfold step_to in H. simpl in H. rewrite remaining_all in H.
  destruct (records v) as [|[rid r] l] eqn:E; [done|].
  destruct H as (h1 & Hinc & Hs & Hrid & Hr & Hrest). pose proof (seen_refines _ _ _ Hs Href) as Href1.
  pose proof Hs as (_ & _ & Hd & (Hn & Hp & Hs1 & _)).
  unfold scan_with, new_RecordIterator. run Hinc. run (eq_refl (get_st h1)).
  apply (rit_loop_full body v (records v)); [done|done|congruence| |by apply records_fuel| |by rewrite E].
  - unfold dir_room in *. congruence.
  - rewrite E. split_and!; [done| |done|done]. unfold rid_ok in *. by rewrite Hn, Hp, Hs1.
Qed.

Lemma scan_full_directories_witness : ∃ h, scan_with true collect [] h = Err UB.
Proof.
  destruct full_directory as (h & v & Href & Hs & Hf & Hne). exists h.
  apply (scan_full_directories collect h v [] Href Hs Hf Hne).
  intros rid r l. by eexists.
Defined.
