(* ===== verification/Tools.v ===== *)
(** * The command-line tools of a1

    One definition per [main]: its arguments [argv] (the program's name included), the files
    it finds, and its outcome: exit status, what it prints on standard output and the files it
    leaves. Messages to [cerr] are not modelled. [fopen(name, "w")] and ["w+"] succeed;
    ["r"] and ["r+"] fail when the file does not exist. The times [ftime] reports and the
    values of uninitialised variables are parameters. Names that differ are names of different files.
    The csv file and the heap files of a run
    are taken to be different files; write_fixed_len_pages, which empties the page file first, is modelled also when
    that is its csv file. *)
From Stdlib Require Import Strings.String.
From S2P Require Import Prelude Buffers CLib RecordFmt Page Directory Heapfile Scan.

#[local] Open Scope Z_scope.
#[local] Open Scope list_scope.

(** A [struct timeb]: seconds and milliseconds. *)
Definition get_time_ms (t : Z * Z) : Z := t.1 * 1000 + t.2.

Definition print_time (t0 t1 : Z * Z) : list byte :=
  str "TIME: " ++ dec_of_Z (get_time_ms t1 - get_time_ms t0) ++ str " milliseconds" ++ [NEWLINE].

Definition SLOT_SIZE : Z := 1000.
Definition COL_SLOT_SIZE : Z := 20.
Definition MAX_LINE_LEN : Z := 10000.
Definition NUM_ATTR : nat := 100.

(** [new Heapfile; init_heapfile; open_heapfile]; a missing file fails the assertion in
    [open_heapfile]. *)
Definition open_file (f : fs) (name : cstr) (page_size slot_size : Z) : res Heapfile :=
  h ← init_heapfile page_size slot_size;
  match f name with
  | None => Err AssertFail
  | Some bs => r ← open_heapfile bs h; mret r.2
  end.

(** ** csv2heapfile.cpp, insert.cpp *)

(** [while (fgets(line, MAX_LINE_LEN, csv_file)) { load_csv_record; put_record }]: every line
    consumes a byte, so the length of the file is enough rounds. *)
Fixpoint load_lines (fuel : nat) (csv : FILE) : M unit :=
  match fuel with
  | O => lift (Err Diverge)
  | S fuel =>
      match fgets MAX_LINE_LEN csv with
      | (None, _) => mret tt
      | (Some line, csv) =>
          rec ← lift (load_csv_record [] line);
          _ ← put_record rec;
          load_lines fuel csv
      end
  end.

Definition load_csv (csv : list byte) : M unit := load_lines (S (length csv)) (MkFILE csv 0).

Definition csv2heapfile_main (t0 t1 : Z * Z) (argv : list cstr) (f : fs) : res outcome :=
  if negb (zlen argv =? 4) then exit_with 1 f
  else
    let csv_file := f (arg argv 1) in
    let heapfile_name := arg argv 2 in
    page_size ← atoi (arg argv 3);
    match csv_file with
    | None => exit_with 1 f
    | Some csv =>
        if negb (0 <? page_size) then exit_with 1 f
        else
          h ← init_heapfile page_size SLOT_SIZE;
          r ← (_ ← create_heapfile; _ ← load_csv csv; close_heapfile) h;
          mret (MkOutcome 0 (print_time t0 t1) (fs_set heapfile_name r.1 f))
    end.

Definition insert_main (argv : list cstr) (f : fs) : res outcome :=
  if negb (zlen argv =? 4) then exit_with 1 f
  else
    let heapfile_name := arg argv 1 in
    let csv_file := f (arg argv 2) in
    page_size ← atoi (arg argv 3);
    match csv_file with
    | None => exit_with 1 f
    | Some csv =>
        if negb (0 <? page_size) then exit_with 1 f
        else
          h ← open_file f heapfile_name page_size SLOT_SIZE;
          r ← (_ ← load_csv csv; close_heapfile) h;
          mret (MkOutcome 0 [] (fs_set heapfile_name r.1 f))
    end.

(** ** scan.cpp *)

Definition print_rid (rid : RecordID) : list byte :=
  str "RID(" ++ dec_of_Z (page_id rid) ++ str "," ++ dec_of_Z (rslot rid) ++ str ") ".

Definition scan_body (rid : RecordID) (rec : record) (out : list byte) : res (list byte * bool) :=
  line ← print_record_as_csv rec;
  mret (out ++ print_rid rid ++ line, false).

(** The page size is checked only after the file has been opened with it. *)
Definition scan_main (garbage : bool) (argv : list cstr) (f : fs) : res outcome :=
  if negb (zlen argv =? 3) then exit_with 1 f
  else
    let heapfile_name := arg argv 1 in
    page_size ← atoi (arg argv 2);
    h ← open_file f heapfile_name page_size SLOT_SIZE;
    if negb (0 <? page_size) then exit_with 1 f
    else
      r ← (out ← scan_with garbage scan_body []; bs ← close_heapfile; mret (out, bs)) h;
      mret (MkOutcome 0 r.1.1 (fs_set heapfile_name r.1.2 f)).

(** ** delete.cpp, update.cpp *)

(** The record id [<page_id>,<slot>]; [garbage] is what [pid] and [slot] hold before. *)
Definition parse_rid (garbage : Z * Z) (s : cstr) : res RecordID :=
  match strtok_next COMMA (until_nul s) with
  | None => mret (MkRID garbage.1 garbage.2)
  | Some (t, rest) =>
      p ← atoi t;
      match strtok_next COMMA rest with
      | None => mret (MkRID p garbage.2)
      | Some (t, _) => s ← atoi t; mret (MkRID p s)
      end
  end.

Definition delete_main (garbage : Z * Z) (argv : list cstr) (f : fs) : res outcome :=
  if negb (zlen argv =? 4) then exit_with 1 f
  else
    let heapfile_name := arg argv 1 in
    page_size ← atoi (arg argv 3);
    rid ← parse_rid garbage (arg argv 2);
    if negb (0 <=? page_id rid) || negb (0 <=? rslot rid) || negb (0 <? page_size)
    then exit_with 1 f
    else
      h ← open_file f heapfile_name page_size SLOT_SIZE;
      r ← (_ ← delete_record rid; close_heapfile) h;
      mret (MkOutcome 0 [] (fs_set heapfile_name r.1 f)).

(** [rec[attribute_id] = new_value]: [operator[]] does not check its index. *)
Definition set_attr (i : Z) (a : cstr) (rec : record) : res record :=
  _ ← defined ((0 <=? i) && (i <? zlen rec));
  mret (<[Z.to_nat i := Some a]> rec).

Definition get_attribute (i : Z) (rec : record) : res cstr :=
  _ ← defined ((0 <=? i) && (i <? zlen rec));
  a ← of_option (rec !! Z.to_nat i);
  of_option a.

Definition update_main (garbage : Z * Z) (argv : list cstr) (f : fs) : res outcome :=
  if negb (zlen argv =? 6) then exit_with 1 f
  else
    let heapfile_name := arg argv 1 in
    attribute_id ← atoi (arg argv 3);
    page_size ← atoi (arg argv 5);
    rid ← parse_rid garbage (arg argv 2);
    let new_value := attr_of_token (arg argv 4) in
    if negb (0 <=? page_id rid) || negb (0 <=? rslot rid) || negb (0 <=? attribute_id)
       || negb (0 <? page_size)
    then exit_with 1 f
    else
      h ← open_file f heapfile_name page_size SLOT_SIZE;
      r ← (rec ← get_record rid (new_record NUM_ATTR);
           rec ← lift (set_attr attribute_id new_value rec);
           _ ← update_record rid rec;
           close_heapfile) h;
      mret (MkOutcome 0 [] (fs_set heapfile_name r.1 f)).

(** ** select.cpp, select2.cpp, select3.cpp *)

(** [strncpy(buf, a, 5); buf[5] = 0; cout << buf << endl]. *)
Definition substr5 (a : cstr) : list byte := take 5 (until_nul a) ++ [NEWLINE].

Definition in_range (a lo hi : cstr) : bool := (0 <=? strcmp a lo) && (strcmp a hi <=? 0).

(** The bodies of the loops: attribute [i] between [lo] and [hi]. *)
Definition select_body (i : Z) (lo hi : cstr) (rid : RecordID) (rec : record) (out : list byte)
    : res (list byte * bool) :=
  a ← get_attribute i rec;
  mret (if in_range a lo hi then (out ++ substr5 a, false) else (out, false)).

Definition select_main (garbage : bool) (t0 t1 : Z * Z) (argv : list cstr) (f : fs) : res outcome :=
  if negb (zlen argv =? 6) then exit_with 1 f
  else
    let heapfile_name := arg argv 1 in
    attribute_id ← atoi (arg argv 2);
    page_size ← atoi (arg argv 5);
    if negb (0 <? page_size) || negb (0 <=? attribute_id) then exit_with 1 f
    else
      h ← open_file f heapfile_name page_size SLOT_SIZE;
      r ← (out ← scan_with garbage (select_body attribute_id (arg argv 3) (arg argv 4)) [];
           bs ← close_heapfile; mret (out, bs)) h;
      mret (MkOutcome 0 (r.1.1 ++ print_time t0 t1) (fs_set heapfile_name r.1.2 f)).

(** [sprintf(filename, "%s/%d", dir, n)] into 20 bytes. *)
Definition col_filename (dir : cstr) (n : Z) : res cstr :=
  let s := until_nul dir ++ str "/" ++ dec_of_Z n in
  _ ← defined (zlen s <? 20);
  mret s.

Definition select2_main (garbage : bool) (t0 t1 : Z * Z) (argv : list cstr) (f : fs) : res outcome :=
  if negb (zlen argv =? 6) then exit_with 1 f
  else
    let directory_name := arg argv 1 in
    attribute_id ← atoi (arg argv 2);
    page_size ← atoi (arg argv 5);
    if negb (0 <? page_size) || negb (0 <=? attribute_id) then exit_with 1 f
    else
      filename ← col_filename directory_name attribute_id;
      h ← open_file f filename page_size COL_SLOT_SIZE;
      r ← (out ← scan_with garbage (select_body 1 (arg argv 3) (arg argv 4)) [];
           bs ← close_heapfile; mret (out, bs)) h;
      mret (MkOutcome 0 (r.1.1 ++ print_time t0 t1) (fs_set filename r.1.2 f)).

(** The tuple ids of the selected records. *)
Definition tuple_body (lo hi : cstr) (rid : RecordID) (rec : record) (ids : list Z)
    : res (list Z * bool) :=
  a ← get_attribute 1 rec;
  if in_range a lo hi then
    t ← get_attribute 0 rec; n ← atoi t; mret (ids ++ [n], false)
  else mret (ids, false).

(** Print the attribute of the record with tuple id [id], and stop there. *)
Definition find_body (id : Z) (rid : RecordID) (rec : record) (out : list byte)
    : res (list byte * bool) :=
  t ← get_attribute 0 rec;
  n ← atoi t;
  if id =? n then a ← get_attribute 1 rec; mret (out ++ substr5 a, true)
  else mret (out, false).

Fixpoint find_all (garbage : bool) (ids : list Z) (out : list byte) : M (list byte) :=
  match ids with
  | [] => mret out
  | id :: ids => out ← scan_with garbage (find_body id) out; find_all garbage ids out
  end.

Definition select3_main (garbage : bool) (t0 t1 : Z * Z) (argv : list cstr) (f : fs) : res outcome :=
  if negb (zlen argv =? 7) then exit_with 1 f
  else
    let directory_name := arg argv 1 in
    attribute_id ← atoi (arg argv 2);
    return_attribute_id ← atoi (arg argv 3);
    page_size ← atoi (arg argv 6);
    if negb (0 <? page_size) || negb (0 <=? attribute_id) || negb (0 <=? return_attribute_id)
    then exit_with 1 f
    else
      filename ← col_filename directory_name attribute_id;
      h ← open_file f filename page_size COL_SLOT_SIZE;
      r ← (ids ← scan_with garbage (tuple_body (arg argv 4) (arg argv 5)) [];
           bs ← close_heapfile; mret (ids, bs)) h;
      let f := fs_set filename r.1.2 f in
      filename ← col_filename directory_name return_attribute_id;
      h ← open_file f filename page_size COL_SLOT_SIZE;
      r ← (out ← find_all garbage r.1.1 []; bs ← close_heapfile; mret (out, bs)) h;
      mret (MkOutcome 0 (r.1.1 ++ print_time t0 t1) (fs_set filename r.1.2 f)).

(** ** csv2colstore.cpp

    [Heapfile *heapfiles[100]] is uninitialised: the model keeps the pointers assigned so
    far, with their files' names; using another element is undefined. *)

Abbreviation columns := (list (cstr * Heapfile)).

(** Run a heap operation on column [i]. *)
Definition put_column (i : nat) (rec : record) (cols : columns) : res columns :=
  c ← of_option (cols !! i);
  r ← put_record rec c.2;
  mret (<[i := (c.1, r.2)]> cols).

(** The first line: a new heap file per token. *)
Fixpoint create_columns (uninit : nat → list byte) (dir : cstr) (page_size : Z)
    (tokens : list cstr) (cols : columns) : res columns :=
  match tokens with
  | [] => mret cols
  | token :: tokens =>
      let attribute_id := length cols in
      filename ← col_filename dir (Z.of_nat attribute_id);
      h ← init_heapfile page_size COL_SLOT_SIZE;
      r ← create_heapfile h;
      _ ← defined (zlen cols <? 100);
      cols ← put_column attribute_id (load_col_record (uninit attribute_id) [] token 0)
               (cols ++ [(filename, r.2)]);
      create_columns uninit dir page_size tokens cols
  end.

(** A later line: one record per token. *)
Fixpoint put_columns (uninit : nat → list byte) (tuple_id : Z) (i : nat) (tokens : list cstr)
    (cols : columns) : res columns :=
  match tokens with
  | [] => mret cols
  | token :: tokens =>
      cols ← put_column i (load_col_record (uninit i) [] token tuple_id) cols;
      put_columns uninit tuple_id (S i) tokens cols
  end.

Fixpoint col_lines (uninit : Z → nat → list byte) (fuel : nat) (csv : FILE) (tuple_id : Z)
    (cols : columns) : res columns :=
  match fuel with
  | O => Err Diverge
  | S fuel =>
      match fgets MAX_LINE_LEN csv with
      | (None, _) => mret cols
      | (Some line, csv) =>
          cols ← put_columns (uninit tuple_id) tuple_id 0 (strtok_all COMMA line) cols;
          tuple_id ← cint (tuple_id + 1);
          col_lines uninit fuel csv tuple_id cols
      end
  end.

Fixpoint close_columns (cols : columns) (f : fs) : res fs :=
  match cols with
  | [] => mret f
  | (name, h) :: cols => r ← close_heapfile h; close_columns cols (fs_set name r.1 f)
  end.

Definition csv2colstore_main (uninit : Z → nat → list byte) (t0 t1 : Z * Z) (argv : list cstr)
    (f : fs) : res outcome :=
  if negb (zlen argv =? 4) then exit_with 1 f
  else
    let csv_file := f (arg argv 1) in
    let directory_name := arg argv 2 in
    page_size ← atoi (arg argv 3);
    match csv_file with
    | None => exit_with 1 f
    | Some csv =>
        if negb (0 <? page_size) then exit_with 1 f
        else
          match fgets MAX_LINE_LEN (MkFILE csv 0) with
          | (None, _) => Err UB (* [line] is read although [fgets] has not set it *)
          | (Some line, csv) =>
              cols ← create_columns (uninit 0) directory_name page_size (strtok_all COMMA line) [];
              cols ← col_lines uninit (S (length (fcontents csv))) csv 1 cols;
              _ ← defined (zlen cols =? 100); (* all 100 pointers are tested *)
              f ← close_columns cols f;
              mret (MkOutcome 0 (print_time t0 t1) f)
          end
    end.

(** ** write_fixed_len_pages.cpp, read_fixed_len_pages.cpp *)

Definition load_record (record : record) (line : cstr) : res (list (option cstr)) :=
  let r := record ++ map (λ t, Some (attr_of_token t)) (strtok_all COMMA line) in
  _ ← c_assert (zlen r =? 100);
  mret r.

(** The loop's variables: the page ([None] is NULL), the page file, and the counters. *)
Record writer := MkWriter { wpage : option Page; wfile : FILE; num_records : Z; num_pages : Z }.

(** Allocate a new page if necessary. *)
Definition next_page (page_size : Z) (w : writer) : res (Page * writer) :=
  full ← match wpage w with
         | None => mret true
         | Some p => n ← fixed_len_page_freeslots p; mret (n =? 0)
         end;
  if (full : bool) then
    let file := match wpage w with
                | Some p => fwrite (data p) (wfile w)
                | None => wfile w
                end in
    p ← init_fixed_len_page page_size SLOT_SIZE;
    n ← cint (num_pages w + 1);
    mret (p, MkWriter (Some p) file (num_records w) n)
  else p ← of_option (wpage w); mret (p, w).

Definition write_record (page_size : Z) (rec : record) (w : writer) : res writer :=
  n ← cint (num_records w + 1);
  '(p, w) ← next_page page_size (MkWriter (wpage w) (wfile w) n (num_pages w));
  '(_, p) ← add_fixed_len_page p rec;
  mret (MkWriter (Some p) (wfile w) (num_records w) (num_pages w)).

Fixpoint write_lines (page_size : Z) (fuel : nat) (csv : FILE) (w : writer) : res writer :=
  match fuel with
  | O => Err Diverge
  | S fuel =>
      match fgets MAX_LINE_LEN csv with
      | (None, _) => mret w
      | (Some line, csv) =>
          rec ← load_record [] line;
          w ← write_record page_size rec w;
          write_lines page_size fuel csv w
      end
  end.

(** Both files are opened before the arguments are checked; opening the page file empties it, also when it is the csv file. *)
Definition write_fixed_len_pages_main (t0 t1 : Z * Z) (argv : list cstr) (f : fs) : res outcome :=
  if negb (zlen argv =? 4) then exit_with 1 f
  else
    let csv_file := f (arg argv 1) in
    let f := fs_set (arg argv 2) [] f in
    page_size ← atoi (arg argv 3);
    match csv_file with
    | None => exit_with 1 f
    | Some _ =>
        if negb (0 <? page_size) then exit_with 1 f
        else
          let csv := default [] (f (arg argv 1)) in
          w ← write_lines page_size (S (length csv)) (MkFILE csv 0)
                (MkWriter None (MkFILE [] 0) 0 0);
          p ← of_option (wpage w);
          let file := fwrite (data p) (wfile w) in
          mret (MkOutcome 0
            (str "NUMBER OF RECORDS: " ++ dec_of_Z (num_records w) ++ [NEWLINE]
             ++ str "NUMBER OF PAGES: " ++ dec_of_Z (num_pages w) ++ [NEWLINE]
             ++ print_time t0 t1)
            (fs_set (arg argv 2) (fcontents file) f))
    end.

(** The records in slots [i], [i + 1], ... of a page, printed. [rec] keeps its values. *)
Fixpoint print_slots (n : nat) (p : Page) (i : Z) (rec : record) (out : list byte)
    : res (list byte) :=
  match n with
  | O => mret out
  | S n =>
      rec ← read_fixed_len_page p i rec;
      line ← print_record_as_csv rec;
      print_slots n p (i + 1) rec (out ++ line)
  end.

(** Each non-empty [fread] overwrites the front of [line]. *)
Fixpoint read_pages (fuel : nat) (page_size : Z) (file : FILE) (line : list byte) (out : list byte)
    : res (list byte) :=
  match fuel with
  | O => Err Diverge
  | S fuel =>
      match fread page_size file with
      | ([], _) => mret out
      | (bs, file) =>
          let line := bs ++ drop (length bs) line in
          page ← init_fixed_len_page page_size SLOT_SIZE;
          let page := with_data page line in
          c ← fixed_len_page_capacity page;
          n ← fixed_len_page_freeslots page;
          numRecs ← cint (c - n);
          out ← print_slots (Z.to_nat numRecs) page 0 (new_record NUM_ATTR) out;
          read_pages fuel page_size file line out
      end
  end.

(** [uninit]: the [page_size] bytes of [char line[page_size]] before they are read. *)
Definition read_fixed_len_pages_main (uninit : list byte) (t0 t1 : Z * Z) (argv : list cstr)
    (f : fs) : res outcome :=
  if negb (zlen argv =? 3) then exit_with 1 f
  else
    let page_file := f (arg argv 1) in
    page_size ← atoi (arg argv 2);
    match page_file with
    | None => exit_with 1 f
    | Some bs =>
        if negb (0 <? page_size) then exit_with 1 f
        else
          out ← read_pages (S (length bs)) page_size (MkFILE bs 0)
                  (take (Z.to_nat page_size) uninit) [];
          mret (MkOutcome 0 (out ++ print_time t0 t1) f)
    end.
