(* ===== verification/ToolsProps.v ===== *)
(** * What the command-line tools of a1 do

    The tools work on files; [holds] relates a heap file on disk to an abstract heap, and
    the theorems say which abstract heap each tool leaves and what it prints. *)
From S2P Require Import Prelude Buffers CLib RecordFmt Page Directory Heapfile HeapInv HeapOps HeapProps HeapClose Scan ScanProps Tools.

(** ** Heap files on disk *)

(** [name] is a heap file of pages of [ps] bytes and of 1000-byte slots that holds [v]. *)
Definition holds (f : fs) (name : cstr) (ps : Z) (v : rec_view) : Prop :=
  ∃ h, open_file f name ps SLOT_SIZE = Ok h ∧ refines h v ∧ hpage_size h = ps
    ∧ hslot_size h = SLOT_SIZE ∧ tight ps (directory_buffer h).

Lemma fs_set_same name bs f : fs_set name bs f name = Some bs.
Proof. unfold fs_set. by rewrite decide_True. Qed.

Lemma fs_set_other name bs f n : n ≠ name → fs_set name bs f n = f n.
Proof. intros. unfold fs_set. by rewrite decide_False. Qed.

(** Closing leaves a file that holds what the heap held. *)
Lemma close_holds h v : refines h v → hslot_size h = SLOT_SIZE →
  tight (hpage_size h) (directory_buffer h) →
  ∃ bs hc, close_heapfile h = Ok (bs, hc) ∧ ∀ f name, holds (fs_set name bs f) name (hpage_size h) v.
Proof.
  intros (Hh & Hv & Hz) Hs Ht.
  destruct (open_close_Ok h Hh) as (bs & hc & h0 & h' & Hc & Hi & Ho & Hh' & Hv' & Hd & _ & Hp' & Hs' & _).
  exists bs, hc. split; [done|]. intros f name. exists h'. split_and!.
  - unfold open_file. rewrite <-Hs, Hi. simpl. rewrite fs_set_same, Ho. done.
  - split_and!; [done|congruence|by rewrite Hs'].
  - done.
  - congruence.
  - by rewrite Hd.
Qed.

Section held.
Context (h : Heapfile) (v : rec_view) (Href : refines h v)
  (Ht : tight (hpage_size h) (directory_buffer h)).

(** The size of a file is bounded by its pages. *)
Lemma held_size : zlen (contents h) ≤ hpage_size h * (2 * zlen v + 1).
Proof.
  pose proof (dirs_count h (proj1 Href)) as Hd. pose proof (refines_len v h Href) as Hn.
  pose proof (C_pos h (proj1 Href)). pose proof (hk_ps h (proj1 Href)).
  unfold tight in Ht. fold (entries h) (npages h) in Ht. rewrite Hn in *.
  assert (zlen (directory_buffer h) ≤ zlen v + 1) by nia. nia.
Qed.

Lemma held_room : zlen v = 0 ∨ zlen v mod dir_cap (hpage_size h) ≠ 0 → npages h < dir_room h.
Proof.
  intros Hm. pose proof (npages_room h (proj1 Href)) as (Hr & _).
  pose proof (refines_len v h Href) as Hn. pose proof (C_pos h (proj1 Href)).
  pose proof (ds_ne _ _ (hk_dirs h (proj1 Href))) as Hne.
  assert (1 ≤ zlen (directory_buffer h)) by (destruct (directory_buffer h); [done|simpl; lia]).
  destruct (decide (npages h = dir_room h)) as [E|]; [|lia]. exfalso.
  unfold dir_room in E. rewrite Hn in E. destruct Hm as [Hm|Hm]; [nia|].
  apply Hm. rewrite E. apply Z.mod_mul. lia.
Qed.
End held.

Lemma seen_close h h' v : seen h h' → refines h v → hslot_size h = SLOT_SIZE →
  tight (hpage_size h) (directory_buffer h) →
  ∃ bs hc, close_heapfile h' = Ok (bs, hc) ∧ ∀ f name, holds (fs_set name bs f) name (hpage_size h) v.
Proof.
  intros Hs Href Hss Ht. pose proof Hs as (_ & _ & Hd & (_ & Hp & Hs' & _)). rewrite <-Hp.
  apply close_holds; [by eapply seen_refines|congruence|by rewrite Hp, Hd].
Qed.

(** ** delete and update *)

Definition rid_in (ps : Z) (v : rec_view) (rid : RecordID) : Prop :=
  0 ≤ page_id rid < zlen v ∧ 0 ≤ rslot rid < cap ps SLOT_SIZE.

Lemma holds_rid h ps v rid : refines h v → hpage_size h = ps → hslot_size h = SLOT_SIZE →
  rid_in ps v rid → rid_ok h rid.
Proof.
  intros Href Hp Hs [H1 H2]. unfold rid_ok. rewrite (refines_len v h Href), Hp, Hs. done.
Qed.

Lemma shape_tight h h' ps : heap_ok h → heap_ok h' → same_shape h h' → hpage_size h = ps →
  tight ps (directory_buffer h) → tight ps (directory_buffer h').
Proof. intros Hh Hh' Hs <-. by apply tight_shape. Qed.

Lemma holds_ps f name ps v : holds f name ps v → 1001 < ps ≤ int_max.
Proof. intros (h & _ & [Hok _] & <- & _). apply (hk_ps h Hok). Qed.

Section rid.
Context (f : fs) (name psarg ridarg : cstr) (ps : Z) (v : rec_view) (rid : RecordID)
  (garbage : Z * Z) (Hh : holds f name ps v) (Hps : atoi psarg = Ok ps)
  (Hrid : parse_rid garbage ridarg = Ok rid) (Hin : rid_in ps v rid).

Lemma delete_main_Ok prog : ∃ out, delete_main garbage [prog; name; ridarg; psarg] f = Ok out
  ∧ status out = 0 ∧ holds (files out) name ps (rec_set v rid None)
  ∧ ∀ n, n ≠ name → files out n = f n.
Proof.
  pose proof (holds_ps f name ps v Hh). destruct Hh as (h & Ho & Href & Hp & Hs & Ht). pose proof Href as (Hok & Hv & Hz).
  destruct (delete_record_Ok h Hok [] rid (holds_rid h ps v rid Href Hp Hs Hin))
    as (h' & Hrun & Hh' & Hsh & Hv').
  pose proof Hsh as (_ & Hp' & Hs' & _).
  destruct (close_holds h' (rec_set v rid None)) as (bs & hc & Hc & Hhold).
  { split_and!; [done|by rewrite Hv', Hv, enc_rec_set|].
    rewrite Hs'. intros rid' r' [[=]|?]%rec_get_set. by eapply Hz. }
  { congruence. }
  { rewrite Hp', Hp. by apply (shape_tight h). }
  destruct Hin as [? ?]. eexists. split.
  - unfold delete_main, arg. simpl. rewrite Hps. simpl. rewrite Hrid. simpl.
    replace (negb (0 <=? page_id rid) || negb (0 <=? rslot rid) || negb (0 <? ps)) with false by lia.
    rewrite Ho. simpl. run Hrun. rewrite Hc. done.
  - split_and!; [done|rewrite <-Hp, <-Hp'; apply Hhold|]. intros n Hn. by apply fs_set_other.
Qed.

Lemma update_main_Ok prog attrarg valarg i r : atoi attrarg = Ok i → 0 ≤ i < 100 →
  rec_get v rid = Some r →
  ∃ out, update_main garbage [prog; name; ridarg; attrarg; valarg; psarg] f = Ok out
  ∧ status out = 0
  ∧ holds (files out) name ps (rec_set v rid (Some (<[Z.to_nat i := trunc valarg]> (map trunc r))))
  ∧ ∀ n, n ≠ name → files out n = f n.
Proof.
  intros Hi Hir Hr. pose proof (holds_ps f name ps v Hh). destruct Hh as (h & Ho & Href & Hp & Hs & Ht).
  pose proof Href as (Hok & Hv & Hz). pose proof (Hz _ _ Hr) as Hlen. rewrite Hs in Hlen.
  assert (length r = 100%nat) as Hl by (unfold ATTRIBUTE_SIZE, SLOT_SIZE in Hlen; lia).
  pose proof (holds_rid h ps v rid Href Hp Hs Hin) as Hok1.
  destruct (get_record_Ok h Hok r ltac:(by rewrite Hs) rid Hok1 (new_record NUM_ATTR))
    as (h1 & Hrun1 & Hh1 & Hsh1 & Hv1); [done|by rewrite Hv, enc_rec_get, Hr|].
  pose proof Hsh1 as (Hn1 & Hp1 & Hs1 & _).
  set (r' := <[Z.to_nat i := trunc valarg]> (map trunc r)).
  assert (length r' = 100%nat) as Hl' by (unfold r'; by rewrite length_insert, length_map).
  assert (ATTRIBUTE_SIZE * zlen r' = hslot_size h1) as Hlen' by (rewrite Hs1, Hs, Hl'; done).
  assert (rid_ok h1 rid) as Hok2 by (unfold rid_ok in *; by rewrite Hn1, Hp1, Hs1).
  destruct (update_record_Ok h1 Hh1 r' Hlen' rid Hok2) as (h' & Hrun & Hh' & Hsh & Hv').
  pose proof Hsh as (_ & Hp' & Hs' & _).
  destruct (close_holds h' (rec_set v rid (Some r'))) as (bs & hc & Hc & Hhold).
  { split_and!; [done|by rewrite Hv', Hv1, Hv, enc_rec_set|].
    rewrite Hs'. intros rid' r'' [[= <-]|?]%rec_get_set; [done|]. rewrite Hs1. by eapply Hz. }
  { congruence. }
  { rewrite Hp', Hp1, Hp. apply (shape_tight h1); [done..|congruence|]. by apply (shape_tight h). }
  destruct Hin as [? ?]. eexists. split.
  - unfold update_main, arg. simpl. rewrite Hi. simpl. rewrite Hps. simpl. rewrite Hrid. simpl.
    replace (negb (0 <=? page_id rid) || negb (0 <=? rslot rid) || negb (0 <=? i) || negb (0 <? ps))
      with false by lia.
    rewrite Ho. simpl. run Hrun1.
    assert (set_attr i (attr_of_token valarg) (map (λ a, Some (trunc a)) r) = Ok (map Some r')) as Hset.
    { unfold set_attr. rewrite length_map, Hl, defined_true by lia. simpl. f_equal.
      unfold r'. rewrite attr_of_token_trunc. rewrite <-(map_map trunc Some).
      symmetry. apply (list_fmap_insert Some). }
    run_lift Hset. run Hrun. rewrite Hc. done.
  - split_and!; [done|rewrite <-Hp, <-Hp1, <-Hp'; apply Hhold|]. intros n Hn. by apply fs_set_other.
Qed.
End rid.

(** ** insert and csv2heapfile *)

(** A row of a csv file: fields without commas, newlines or NULs. *)
Definition field_ok (s : cstr) : Prop := s ≠ [] ∧ (COMMA ∉ s) ∧ (NEWLINE ∉ s) ∧ nul_free s.
Definition row_ok (row : list cstr) : Prop :=
  length row = 100%nat ∧ Forall field_ok row ∧ zlen (join COMMA row) + 1 < MAX_LINE_LEN.

Definition csv_line (row : list cstr) : list byte := join COMMA row ++ [NEWLINE].
Definition csv_of (rows : list (list cstr)) : list byte := concat (map csv_line rows).

(** [fgets] leaves the newline in the line, so it is part of the last attribute. *)
Fixpoint add_newline (row : list cstr) : list cstr :=
  match row with
  | [] => []
  | [f] => [f ++ [NEWLINE]]
  | f :: row => f :: add_newline row
  end.

(** The record a row is loaded as. *)
Definition row_rec (row : list cstr) : list cstr := map trunc (add_newline row).

Lemma add_newline_length row : length (add_newline row) = length row.
Proof. induction row as [|f [|g row] IH]; [done..|]. simpl in *. by rewrite IH. Qed.

Lemma join_newline row : row ≠ [] → csv_line row = join COMMA (add_newline row).
Proof.
  unfold csv_line. induction row as [|f [|g row] IH]; [done|..]; intros _.
  - simpl. by rewrite !app_nil_r.
  - specialize (IH ltac:(done)).
    assert (∀ a b l, join COMMA (a :: b :: l) = a ++ COMMA :: join COMMA (b :: l)) as E by done.
    rewrite E, <-app_assoc, <-app_comm_cons, IH.
    change (add_newline (f :: g :: row)) with (f :: add_newline (g :: row)).
    by destruct row.
Qed.

Lemma join_free d x row : x ≠ d → Forall (λ f, x ∉ f) row → x ∉ join d row.
Proof.
  intros Hx Hall. destruct Hall as [|f row Hf Hall]; simpl; [by apply not_elem_of_nil|].
  intros [Hin|Hin]%elem_of_app; [done|].
  induction Hall as [|g row Hg _ IH]; simpl in Hin; [by apply elem_of_nil in Hin|].
  apply elem_of_cons in Hin as [?|[?|?]%elem_of_app]; [congruence|done|by apply IH].
Qed.

Lemma fgets_line pre row rest : row_ok row →
  fgets MAX_LINE_LEN (MkFILE (pre ++ csv_line row ++ rest) (zlen pre))
  = (Some (csv_line row), MkFILE (pre ++ csv_line row ++ rest) (zlen pre + zlen (csv_line row))).
Proof.
  intros (Hlen & Hf & Hl). unfold fgets. cbn [fpos fcontents].
  rewrite Nat2Z.id, drop_app_length. unfold csv_line at 1. rewrite <-app_assoc. simpl app.
  rewrite take_line_newline; [|apply join_free; [done|]|unfold MAX_LINE_LEN in *; lia].
  - fold (csv_line row). destruct (csv_line row) eqn:E; [|done].
    apply (f_equal length) in E. unfold csv_line in E. rewrite length_app in E. simpl in E. lia.
  - eapply Forall_impl; [exact Hf|]. by intros s (_ & _ & ? & _).
Qed.

Lemma load_row row : row_ok row → load_csv_record [] (csv_line row) = Ok (map Some (row_rec row)).
Proof.
  intros (Hlen & Hf & _). unfold load_csv_record. simpl app.
  rewrite join_newline by (by destruct row). rewrite strtok_all_join; [|clear Hlen|done].
  - rewrite c_assert_true by (rewrite length_map, add_newline_length; lia). simpl. f_equal.
    unfold row_rec. rewrite map_map. apply map_ext. intros t. by rewrite attr_of_token_trunc.
  - induction Hf as [|f [|g row] (H1 & H2 & H3 & H4) Hf IH]; [constructor| |].
    + simpl. constructor; [|constructor]. split_and!; [by destruct f|..].
      * intros [?|?%list_elem_of_singleton]%elem_of_app; done.
      * unfold nul_free. intros [?|?%list_elem_of_singleton]%elem_of_app; done.
    + change (add_newline (f :: g :: row)) with (f :: add_newline (g :: row)). by constructor.
Qed.

Lemma row_rec_length row : row_ok row → length (row_rec row) = 100%nat.
Proof. intros (H & _). unfold row_rec. by rewrite length_map, add_newline_length. Qed.

(** The loading loop inserts the rows' records in order. *)
Lemma load_lines_Ok rows : ∀ fuel pre h v, Forall row_ok rows → refines h v →
  hslot_size h = SLOT_SIZE → tight (hpage_size h) (directory_buffer h) →
  zlen (contents h) + zlen rows * (2 * hpage_size h) ≤ int_max → (length rows < fuel)%nat →
  ∃ h', load_lines fuel (MkFILE (pre ++ csv_of rows) (zlen pre)) h = Ok (tt, h')
    ∧ refines h' (fold_left (rec_put (Z.to_nat (hcap h))) (map row_rec rows) v)
    ∧ hpage_size h' = hpage_size h ∧ hslot_size h' = hslot_size h
    ∧ tight (hpage_size h) (directory_buffer h').
Proof.
  induction rows as [|row rows IH]; intros [|fuel] pre h v Hrows Href Hs Ht Hroom Hf; simpl in Hf; try lia.
  - exists h. cbn [load_lines]. unfold csv_of. simpl. rewrite app_nil_r, fgets_eof. done.
  - apply Forall_cons in Hrows as [Hrow Hrows]. pose proof Href as (Hok & Hv & Hz).
    pose proof (hk_ps h Hok) as Hps. cbn [length] in Hroom.
    assert (ATTRIBUTE_SIZE * zlen (row_rec row) = hslot_size h) as Hlen
      by (rewrite Hs, row_rec_length by done; done).
    destruct (put_record_Ok h Hok (row_rec row) Hlen) as (h1 & Hput & Hok1 & Hv1 & Hp1 & Hs1 & Hl1 & Ht1);
      [nia|].
    destruct (IH fuel (pre ++ csv_line row) h1 (rec_put (Z.to_nat (hcap h)) v (row_rec row)))
      as (h' & Hload & Href' & Hp' & Hs' & Ht'); [done|..|].
    { split_and!; [done|by rewrite Hv1, Hv, <-enc_rec_put|].
      rewrite Hs1. intros rid r' [->|?]%rec_get_put; [done|]. by eapply Hz. }
    { congruence. }
    { rewrite Hp1. auto. }
    { rewrite Hp1. nia. }
    { lia. }
    exists h'. split_and!; [|rewrite Hp1, Hs1 in Href'; done|congruence|congruence|congruence].
    cbn [load_lines]. unfold csv_of. cbn [map concat]. fold (csv_of rows).
    rewrite fgets_line by done. run_lift (load_row row Hrow). run Hput.
    rewrite <-Hload. do 2 f_equal; [by rewrite <-app_assoc|]. by rewrite length_app, Nat2Z.inj_add.
Qed.

Lemma rows_fuel rows : (length rows < S (length (csv_of rows)))%nat.
Proof.
  unfold csv_of. induction rows as [|row rows IH]; simpl; [lia|].
  rewrite length_app. unfold csv_line at 1. rewrite length_app. simpl. lia.
Qed.

Lemma load_csv_Ok rows h v : Forall row_ok rows → refines h v →
  hslot_size h = SLOT_SIZE → tight (hpage_size h) (directory_buffer h) →
  zlen (contents h) + zlen rows * (2 * hpage_size h) ≤ int_max →
  ∃ h' bs hc, load_csv (csv_of rows) h = Ok (tt, h') ∧ close_heapfile h' = Ok (bs, hc)
    ∧ ∀ f name, holds (fs_set name bs f) name (hpage_size h)
        (fold_left (rec_put (Z.to_nat (cap (hpage_size h) SLOT_SIZE))) (map row_rec rows) v).
Proof.
  intros Hrows Href Hs Ht Hroom.
  destruct (load_lines_Ok rows (S (length (csv_of rows))) [] h v) as (h' & Hl & Href' & Hp' & Hs' & Ht');
    [done..|apply rows_fuel|].
  rewrite Hs in Href', Hs'.
  destruct (close_holds h' _ Href' Hs') as (bs & hc & Hc & Hh); [by rewrite Hp'|].
  exists h', bs, hc. split_and!; [exact Hl|exact Hc|]. intros f name. rewrite <-Hp'. rewrite <-Hp' in Hh. apply Hh.
Qed.

Section load.
Context (f : fs) (heapname csvname psarg : cstr) (ps : Z) (rows : list (list cstr))
  (Hcsv : f csvname = Some (csv_of rows)) (Hrows : Forall row_ok rows) (Hps : atoi psarg = Ok ps).

Lemma csv2heapfile_main_Ok prog t0 t1 : 1001 < ps ≤ int_max →
  ps * (2 * zlen rows + 1) ≤ int_max →
  ∃ out, csv2heapfile_main t0 t1 [prog; csvname; heapname; psarg] f = Ok out
    ∧ status out = 0 ∧ stdout out = print_time t0 t1
    ∧ holds (files out) heapname ps
        (fold_left (rec_put (Z.to_nat (cap ps SLOT_SIZE))) (map row_rec rows) []).
Proof.
  intros Hr Hroom. destruct (create_Ok ps SLOT_SIZE) as (h0 & h & Hi & Hc & Hok & Hv & Hp & Hs & Hl);
    [done|unfold SLOT_SIZE; lia|].
  destruct (load_csv_Ok rows h [] Hrows) as (h' & bs & hc & Hload & Hclose & Hh).
  { split_and!; [done|done|by intros ? ? [=]]. }
  { done. }
  { left. pose proof (dirs_count h Hok) as Hd. unfold npages in Hd.
    rewrite <-length_view, Hv, Hl, Hp in Hd. simpl in Hd. nia. }
  { rewrite Hl, Hp. nia. }
  rewrite Hp in Hh. eexists. split.
  - unfold csv2heapfile_main, arg. simpl. rewrite Hps, Hcsv. simpl.
    replace (negb (0 <? ps)) with false by lia. rewrite Hi. simpl.
    run Hc. run Hload. rewrite Hclose. done.
  - split_and!; [done|done|apply Hh].
Qed.

Lemma insert_main_Ok prog v : holds f heapname ps v →
  ps * (2 * zlen v + 2 * zlen rows + 1) ≤ int_max →
  ∃ out, insert_main [prog; heapname; csvname; psarg] f = Ok out
    ∧ status out = 0
    ∧ holds (files out) heapname ps
        (fold_left (rec_put (Z.to_nat (cap ps SLOT_SIZE))) (map row_rec rows) v).
Proof.
  intros (h & Ho & Href & Hp & Hs & Ht) Hroom. pose proof (hk_ps h (proj1 Href)) as Hpr.
  rewrite <-Hp in Ht. pose proof (held_size h v Href Ht) as Hsz.
  destruct (load_csv_Ok rows h v Hrows Href Hs Ht) as (h' & bs & hc & Hload & Hclose & Hh).
  { rewrite Hp in *. nia. }
  rewrite Hp in Hh, Hpr. eexists. split.
  - unfold insert_main, arg. simpl. rewrite Hps, Hcsv. simpl.
    replace (negb (0 <? ps)) with false by lia. rewrite Ho. simpl.
    run Hload. rewrite Hclose. done.
  - split_and!; [done|apply Hh].
Qed.
End load.

(** ** Records inserted into an empty heap fill it in order *)

(** The pages of [n] slots the list [l] fills. *)
Fixpoint pack {A} (fuel n : nat) (l : list A) : list (list (option A)) :=
  match fuel with
  | O => []
  | S fuel => match l with
              | [] => []
              | _ => (map Some (take n l) ++ replicate (n - length l) None) :: pack fuel n (drop n l)
              end
  end.

(** The identifier of the [k]th record. *)
Definition rid_at (n k : nat) : RecordID := MkRID (Z.of_nat (k / n)) (Z.of_nat (k mod n)).

Lemma find_filled {A} (l : list A) : list_find (λ o, o = None) (map Some l) = None.
Proof. apply list_find_None, Forall_forall. by intros o (x & -> & _)%list_elem_of_fmap. Qed.

Lemma rec_put_pack n r : (1 ≤ n)%nat → ∀ f l, (length l ≤ f)%nat →
  rec_put n (pack f n l) r = pack (S f) n (l ++ [r]).
Proof.
  intros Hn. induction f as [|f IH]; intros l Hf.
  { destruct l; [|simpl in Hf; lia]. simpl. destruct n; [lia|]. simpl. by rewrite take_nil. }
  destruct l as [|x l].
  { destruct n as [|n]; [lia|]. simpl. by rewrite drop_nil, take_nil. }
  assert (∀ g (l : list (list cstr)), l ≠ [] → pack (S g) n l
    = (map Some (take n l) ++ replicate (n - length l) None) :: pack g n (drop n l)) as Hpack
    by (intros g l'; by destruct l').
  rewrite (Hpack f), (Hpack (S f)) by (done || by destruct l). set (xl := x :: l) in *.
  assert (1 ≤ length xl)%nat as Hx by (simpl; lia). clearbody xl. cbn [rec_put].
  destruct (decide (length xl < n)%nat) as [Hlt|Hge].
  - rewrite (drop_ge xl), take_ge by lia. rewrite (drop_ge (xl ++ [r])), take_ge
      by (rewrite length_app; simpl; lia).
    destruct (n - length xl)%nat as [|m] eqn:E; [lia|]. simpl replicate.
    rewrite list_find_app_r by apply find_filled. simpl. rewrite length_map.
    rewrite map_app, length_app. simpl.
    replace (n - (length xl + 1))%nat with m by lia. f_equal; [|by destruct f].
    rewrite insert_app_r_alt by (rewrite length_map; lia).
    rewrite length_map, Nat.sub_diag. simpl. by rewrite <-app_assoc.
  - replace (n - length xl)%nat with 0%nat by lia.
    replace (n - length (xl ++ [r]))%nat with 0%nat by (rewrite length_app; simpl; lia).
    simpl replicate. rewrite !app_nil_r, find_filled, take_app_le, drop_app_le by lia.
    f_equal. apply IH. rewrite length_drop. lia.
Qed.

Lemma pack_enough {A} n : (1 ≤ n)%nat → ∀ f g (l : list A), (length l ≤ f)%nat → (length l ≤ g)%nat →
  pack f n l = pack g n l.
Proof.
  intros Hn. induction f as [|f IH]; intros [|g] [|x l] Hf Hg; simpl in *; try lia; try done.
  f_equal. apply IH; rewrite length_drop; simpl; lia.
Qed.

Lemma fold_rec_put n rs : (1 ≤ n)%nat → ∀ l,
  fold_left (rec_put n) rs (pack (length l) n l) = pack (length (l ++ rs)) n (l ++ rs).
Proof.
  intros Hn. induction rs as [|r rs IH]; intros l; simpl; [by rewrite app_nil_r|].
  rewrite rec_put_pack by lia.
  rewrite (pack_enough n Hn _ (length (l ++ [r]))) by (rewrite ?length_app; simpl; lia).
  rewrite IH. by rewrite <-app_assoc.
Qed.

Lemma slots_from_full {A} j (l : list A) m :
  slots_from j (map Some l ++ replicate m None) = imap (λ k r, (j + Z.of_nat k, r)) l.
Proof.
  revert j. induction l as [|x l IH]; intros j; simpl.
  - apply slots_from_free. intros k o Hk. by apply lookup_replicate in Hk as [-> _].
  - rewrite Z.add_0_r. f_equal. rewrite IH. apply imap_ext. intros k r _. simpl. f_equal. lia.
Qed.

Lemma heap_from_pack {A} n : (1 ≤ n)%nat → ∀ f i (l : list A), (length l ≤ f)%nat →
  heap_from (Z.of_nat i) (pack f n l) = imap (λ k r, (rid_at n (i * n + k), r)) l.
Proof.
  intros Hn. induction f as [|f IH]; intros i l Hf.
  { by destruct l; [|simpl in Hf; lia]. }
  destruct l as [|x l]; [done|]. cbn [pack heap_from]. unfold page_from.
  rewrite slots_from_full. replace (Z.of_nat i + 1) with (Z.of_nat (S i)) by lia.
  rewrite IH by (rewrite length_drop; simpl in *; lia).
  rewrite <-(take_drop n (x :: l)) at 3. rewrite imap_app. f_equal.
  - rewrite fmap_imap. apply imap_ext. intros k r Hk. apply lookup_lt_Some in Hk.
    rewrite length_take in Hk. unfold rid_at. simpl. f_equal. f_equal; f_equal.
    + rewrite Nat.div_add_l, Nat.div_small by lia. lia.
    + rewrite Nat.add_comm, Nat.Div0.mod_add, Nat.mod_small by lia. done.
  - apply imap_ext. intros k r Hk. f_equal. f_equal.
    apply lookup_lt_Some in Hk. rewrite length_drop in Hk. rewrite length_take. lia.
Qed.

(** The scan of the heap a list of records makes. *)
Lemma records_of_list n rs : (1 ≤ n)%nat →
  records (fold_left (rec_put n) rs []) = imap (λ k r, (rid_at n k, r)) rs.
Proof.
  intros Hn. pose proof (fold_rec_put n rs Hn []) as E. simpl in E. rewrite E.
  unfold records. change 0 with (Z.of_nat 0). by rewrite heap_from_pack.
Qed.

Lemma pack_length {A} n : (1 ≤ n)%nat → ∀ f (l : list A), (length l ≤ f)%nat →
  Z.of_nat n * zlen (pack f n l) - Z.of_nat n < zlen l ≤ Z.of_nat n * zlen (pack f n l).
Proof.
  intros Hn. induction f as [|f IH]; intros [|x l] Hf; simpl in Hf; try (simpl; lia).
  cbn [pack]. specialize (IH (drop n (x :: l))). rewrite length_drop in IH. cbn [length] in *.
  destruct (decide (length l < n)%nat).
  - assert (drop n (x :: l) = []) as -> by (apply drop_ge; simpl; lia).
    destruct f; simpl; lia.
  - specialize (IH ltac:(lia)). lia.
Qed.

(** ** scan and select *)

Lemma until_nul_trunc s : until_nul (trunc s) = trunc s.
Proof. unfold trunc. rewrite until_nul_take. by rewrite until_nul_idemp. Qed.

(** What scan prints for a record. *)
Definition printed (x : RecordID * list cstr) : list byte :=
  print_rid x.1 ++ join COMMA (map trunc x.2) ++ [NEWLINE].

Lemma scan_body_Ok rid r out : r ≠ [] →
  scan_body rid (map (λ a, Some (trunc a)) r) out = Ok (out ++ printed (rid, r), false).
Proof.
  intros Hr. unfold scan_body, print_record_as_csv.
  rewrite <-(map_map trunc Some), print_attrs_Ok by (by destruct r). simpl.
  rewrite map_map. by rewrite (map_ext _ _ until_nul_trunc).
Qed.

Lemma run_scan_body l : Forall (λ x, x.2 ≠ []) l → ∀ out,
  run_body scan_body (decoded l) out = Ok (out ++ concat (map printed l)).
Proof.
  induction 1 as [|[rid r] l Hr Hl IH]; intros out; cbn [decoded map run_body concat];
    [by rewrite app_nil_r|].
  rewrite scan_body_Ok by done. simpl. fold (decoded l). by rewrite IH, <-app_assoc.
Qed.

(** What select prints for a record: nothing unless attribute [i] is in the range. *)
Definition selected (i : nat) (lo hi : cstr) (x : RecordID * list cstr) : list byte :=
  match x.2 !! i with
  | Some a => if in_range (trunc a) lo hi then substr5 (trunc a) else []
  | None => []
  end.

Lemma select_body_Ok i lo hi rid r out : 0 ≤ i < zlen r →
  select_body i lo hi rid (map (λ a, Some (trunc a)) r) out
    = Ok (out ++ selected (Z.to_nat i) lo hi (rid, r), false).
Proof.
  intros Hi. destruct (lookup_lt_is_Some_2 r (Z.to_nat i)) as [a Ha]; [lia|].
  unfold select_body, get_attribute, selected. rewrite length_map, defined_true by lia. simpl.
  rewrite (list_lookup_fmap (λ a, Some (trunc a))), Ha. simpl.
  destruct (in_range _ _ _); [done|]. by rewrite app_nil_r.
Qed.

Lemma run_select_body i lo hi l : 0 ≤ i → Forall (λ x, i < zlen x.2) l → ∀ out,
  run_body (select_body i lo hi) (decoded l) out
    = Ok (out ++ concat (map (selected (Z.to_nat i) lo hi) l)).
Proof.
  intros Hi. induction 1 as [|[rid r] l Hr Hl IH]; intros out; cbn [decoded map run_body concat];
    [by rewrite app_nil_r|].
  rewrite select_body_Ok by (simpl in *; lia). simpl. fold (decoded l). by rewrite IH, <-app_assoc.
Qed.

(** Every scanned record has 100 attributes. *)
Lemma records_wide h v : refines h v → hslot_size h = SLOT_SIZE →
  Forall (λ x : RecordID * list cstr, length x.2 = 100%nat) (records v).
Proof.
  intros (_ & _ & Hz) Hs. apply Forall_forall. intros [rid r] Hin.
  assert (0 ≤ page_id rid ∧ 0 ≤ rslot rid) as [Hp Hsl].
  { unfold records in Hin. apply heap_from_elem in Hin. tauto. }
  apply (records_elem v rid r Hp Hsl) in Hin. apply Hz in Hin. rewrite Hs in Hin.
  unfold ATTRIBUTE_SIZE, SLOT_SIZE in Hin. simpl. lia.
Qed.

(** The pages do not exactly fill the directories. *)
Definition not_full (ps : Z) (v : rec_view) : Prop := zlen v = 0 ∨ zlen v mod dir_cap ps ≠ 0.

Section scanning.
Context (f : fs) (name psarg : cstr) (ps : Z) (v : rec_view) (Hh : holds f name ps v)
  (Hps : atoi psarg = Ok ps) (Hroom : not_full ps v).

(** Scanning and closing, for any body that works on the records. *)
Lemma scan_close {A} (body : RecordID → record → A → res (A * bool)) a b :
  (Forall (λ x : RecordID * list cstr, length x.2 = 100%nat) (records v) →
     run_body body (decoded (records v)) a = Ok b) →
  ∃ h bs hc, open_file f name ps SLOT_SIZE = Ok h
    ∧ (out ← scan_with true body a; bs ← close_heapfile; mret (out, bs)) h = Ok ((b, bs), hc)
    ∧ ∀ f, holds (fs_set name bs f) name ps v.
Proof.
  intros Hbody. destruct Hh as (h & Ho & Href & Hp & Hs & Ht).
  pose proof (held_room h v Href) as Hr. rewrite Hp in Hr. specialize (Hr Ht Hroom).
  pose proof (scan_Ok body h v a Href Hs Hr) as Hscan.
  rewrite (Hbody (records_wide h v Href Hs)) in Hscan. destruct Hscan as (h' & Hrun & Hseen).
  rewrite <-Hp in Ht. destruct (seen_close h h' v Hseen Href Hs Ht) as (bs & hc & Hc & Hhold).
  exists h, bs, hc. split_and!; [done| |intros f'; rewrite <-Hp; apply Hhold].
  run Hrun. run Hc. done.
Qed.

Lemma scan_main_Ok prog : ∃ out, scan_main true [prog; name; psarg] f = Ok out
  ∧ status out = 0 ∧ stdout out = concat (map printed (records v))
  ∧ holds (files out) name ps v.
Proof.
  pose proof (holds_ps f name ps v Hh).
  destruct (scan_close scan_body [] (concat (map printed (records v)))) as (h & bs & hc & Ho & Hrun & Hhold).
  { intros Hw. rewrite run_scan_body; [done|]. eapply Forall_impl; [exact Hw|].
    intros [rid r] ?. by destruct r. }
  eexists. split.
  - unfold scan_main, arg. simpl. rewrite Hps. simpl. rewrite Ho. simpl.
    replace (negb (0 <? ps)) with false by lia. rewrite Hrun. done.
  - split_and!; [done|done|apply Hhold].
Qed.

Lemma select_main_Ok prog attrarg lo hi t0 t1 i : atoi attrarg = Ok i → 0 ≤ i < 100 →
  ∃ out, select_main true t0 t1 [prog; name; attrarg; lo; hi; psarg] f = Ok out
  ∧ status out = 0
  ∧ stdout out = concat (map (selected (Z.to_nat i) lo hi) (records v)) ++ print_time t0 t1
  ∧ holds (files out) name ps v.
Proof.
  intros Hi Hir. pose proof (holds_ps f name ps v Hh).
  destruct (scan_close (select_body i lo hi) [] (concat (map (selected (Z.to_nat i) lo hi) (records v))))
    as (h & bs & hc & Ho & Hrun & Hhold).
  { intros Hw. rewrite run_select_body; [done|lia|]. eapply Forall_impl; [exact Hw|].
    intros [rid r] Hr. simpl in *. lia. }
  eexists. split.
  - unfold select_main, arg. simpl. rewrite Hi. simpl. rewrite Hps. simpl.
    replace (negb (0 <? ps) || negb (0 <=? i)) with false by lia. rewrite Ho. simpl.
    rewrite Hrun. done.
  - split_and!; [done|done|apply Hhold].
Qed.
End scanning.

(** ** The claims *)

(** The heap file on disk of the witnesses: one page with one record. *)
Definition h_name : cstr := [x68].
Definition c_name : cstr := [x63].
Definition ps_arg : cstr := [x31; x30; x31; x30].

Lemma sample_disk : ∃ f, holds f h_name 1010 [[Some wide_rec]].
Proof.
  destruct (filled_heap 1) as (h & Href & Hp & Hs & Ht & _); [lia|].
  destruct (close_holds h _ Href Hs) as (bs & hc & _ & Hh); [by rewrite Hp|].
  exists (fs_set h_name bs (λ _, None)). rewrite <-Hp. apply Hh.
Qed.

(** Claim C2. csv2heapfile then scan prints the csv back: for a csv file of rows of 100
    non-empty fields, csv2heapfile exits with 0 and leaves a well-formed heap file, and (when
    its pages do not exactly fill the directories and the iterator's flag is true) scan prints
    every row once, in the file's order, under consecutive record identifiers, each attribute
    cut to ATTRIBUTE_SIZE characters. The newline of a line belongs to its last attribute. *)
Theorem csv_scan_roundtrip (f : fs) (rows : list (list cstr)) (prog heapname csvname psarg : cstr)
    (ps : Z) (t0 t1 : Z * Z) (Hcsv : f csvname = Some (csv_of rows)) (Hrows : Forall row_ok rows)
    (Hps : atoi psarg = Ok ps) (Hr : 1001 < ps ≤ int_max)
    (Hsize : ps * (2 * zlen rows + 1) ≤ int_max) :
  let n := Z.to_nat (cap ps SLOT_SIZE) in
  ∃ out v, csv2heapfile_main t0 t1 [prog; csvname; heapname; psarg] f = Ok out
    ∧ status out = 0 ∧ holds (files out) heapname ps v
    ∧ (not_full ps v → ∃ out', scan_main true [prog; heapname; psarg] (files out) = Ok out'
        ∧ status out' = 0
        ∧ stdout out' = concat (imap (λ k row, print_rid (rid_at n k)
            ++ join COMMA (map trunc (add_newline row)) ++ [NEWLINE]) rows)).
Proof.
  intros n. destruct (csv2heapfile_main_Ok f heapname csvname psarg ps rows Hcsv Hrows Hps prog t0 t1 Hr Hsize)
    as (out & Hrun & Hst & _ & Hh).
  exists out. eexists. split_and!; [done|done|exact Hh|]. intros Hroom.
  destruct (scan_main_Ok (files out) heapname psarg ps _ Hh Hps Hroom prog) as (out' & H1 & H2 & H3 & _).
  exists out'. split_and!; [done|done|]. rewrite H3, records_of_list.
  - f_equal. change (map printed) with (fmap (M := list) printed).
    rewrite fmap_imap. change (map row_rec rows) with (row_rec <$> rows). rewrite imap_fmap.
    apply imap_ext. intros k row _. unfold printed, row_rec. simpl.
    rewrite map_map. by rewrite (map_ext _ _ trunc_idemp).
  - pose proof (cap_pos ps SLOT_SIZE ltac:(done) ltac:(unfold SLOT_SIZE; lia)). lia.
Qed.

Definition sample_row : list cstr := replicate 100 [x61; x62].

Lemma sample_row_ok : row_ok sample_row.
Proof.
  split_and!; [done| |vm_compute; done].
  apply Forall_forall. intros s [-> _]%elem_of_replicate. unfold field_ok, nul_free.
  split_and!; [done|..]; intros [?|[?|?%elem_of_nil]%elem_of_cons]%elem_of_cons; done.
Qed.

Lemma csv_scan_roundtrip_witness :
  let rows := [sample_row; sample_row] in
  let f : fs := λ n, if decide (n = c_name) then Some (csv_of rows) else None in
  let n := Z.to_nat (cap 1010 SLOT_SIZE) in
  ∃ out v, csv2heapfile_main (0, 0) (0, 5) [[]; c_name; h_name; ps_arg] f = Ok out
    ∧ status out = 0 ∧ holds (files out) h_name 1010 v
    ∧ (not_full 1010 v → ∃ out', scan_main true [[]; h_name; ps_arg] (files out) = Ok out'
        ∧ status out' = 0
        ∧ stdout out' = concat (imap (λ k row, print_rid (rid_at n k)
            ++ join COMMA (map trunc (add_newline row)) ++ [NEWLINE]) rows)).
Proof.
  apply (csv_scan_roundtrip _ [sample_row; sample_row] [] h_name c_name ps_arg 1010 (0, 0) (0, 5));
    [done| |done|unfold int_max; lia|vm_compute; done].
  constructor; [apply sample_row_ok|]. constructor; [apply sample_row_ok|constructor].
Defined.

(** insert appends to what a heap file holds: given a csv file of rows of 100
    non-empty fields, it exits with 0 and leaves a file that holds the old heap with the rows'
    records inserted one after the other, each into the first free slot. *)
Theorem insert_main_refines (f : fs) (rows : list (list cstr)) (prog heapname csvname psarg : cstr)
    (ps : Z) (v : rec_view) (Hh : holds f heapname ps v) (Hcsv : f csvname = Some (csv_of rows))
    (Hrows : Forall row_ok rows) (Hps : atoi psarg = Ok ps)
    (Hsize : ps * (2 * zlen v + 2 * zlen rows + 1) ≤ int_max) :
  ∃ out, insert_main [prog; heapname; csvname; psarg] f = Ok out ∧ status out = 0
    ∧ holds (files out) heapname ps
        (fold_left (rec_put (Z.to_nat (cap ps SLOT_SIZE))) (map row_rec rows) v).
Proof. by apply insert_main_Ok. Qed.

(** delete and update change one record of a heap file on disk: at an existing slot,
    delete leaves a file that holds the old heap with that slot free; at a filled slot, update
    leaves the old heap with that record's attribute replaced by the new value and the others
    kept (all cut to ATTRIBUTE_SIZE characters). Both exit with 0 and leave every other file
    alone. *)
Theorem edit_main_refines (f : fs) (prog name psarg ridarg attrarg valarg : cstr) (ps i : Z)
    (v : rec_view) (rid : RecordID) (r : list cstr) (garbage : Z * Z) (Hh : holds f name ps v)
    (Hps : atoi psarg = Ok ps) (Hrid : parse_rid garbage ridarg = Ok rid) (Hin : rid_in ps v rid)
    (Hi : atoi attrarg = Ok i) (Hir : 0 ≤ i < 100) (Hr : rec_get v rid = Some r) :
  (∃ out, delete_main garbage [prog; name; ridarg; psarg] f = Ok out ∧ status out = 0
     ∧ holds (files out) name ps (rec_set v rid None) ∧ ∀ n, n ≠ name → files out n = f n)
  ∧ (∃ out, update_main garbage [prog; name; ridarg; attrarg; valarg; psarg] f = Ok out
     ∧ status out = 0
     ∧ holds (files out) name ps (rec_set v rid (Some (<[Z.to_nat i := trunc valarg]> (map trunc r))))
     ∧ ∀ n, n ≠ name → files out n = f n).
Proof. split; [by apply delete_main_Ok|by apply update_main_Ok]. Qed.

Definition rid_arg : cstr := [x30; COMMA; x30].

Lemma edit_main_refines_witness : ∃ f, let v := [[Some wide_rec]] in let rid := MkRID 0 0 in
  (∃ out, delete_main (7, 7) [[]; h_name; rid_arg; ps_arg] f = Ok out ∧ status out = 0
     ∧ holds (files out) h_name 1010 (rec_set v rid None) ∧ ∀ n, n ≠ h_name → files out n = f n)
  ∧ (∃ out, update_main (7, 7) [[]; h_name; rid_arg; [x33]; [x7a]; ps_arg] f = Ok out
     ∧ status out = 0
     ∧ holds (files out) h_name 1010
         (rec_set v rid (Some (<[Z.to_nat 3 := trunc [x7a]]> (map trunc wide_rec))))
     ∧ ∀ n, n ≠ h_name → files out n = f n).
Proof.
  destruct sample_disk as [f Hh]. exists f.
  apply (edit_main_refines f [] h_name ps_arg rid_arg [x33] [x7a] 1010 3 [[Some wide_rec]]
    (MkRID 0 0) wide_rec (7, 7) Hh); try reflexivity; [|lia].
  split; split; first [reflexivity | discriminate].
Defined.

Lemma insert_main_refines_witness : ∃ f out,
  insert_main [[]; h_name; c_name; ps_arg] f = Ok out ∧ status out = 0
  ∧ holds (files out) h_name 1010
      (fold_left (rec_put (Z.to_nat (cap 1010 SLOT_SIZE))) (map row_rec [sample_row]) [[Some wide_rec]]).
Proof.
  destruct sample_disk as [f (h & Ho & Hh)].
  set (g := fs_set c_name (csv_of [sample_row]) f).
  assert (holds g h_name 1010 [[Some wide_rec]]) as Hg.
  { exists h. split; [|done]. unfold open_file in *. unfold g. by rewrite fs_set_other. }
  exists g. apply (insert_main_refines g [sample_row] [] h_name c_name ps_arg 1010 [[Some wide_rec]] Hg).
  - apply fs_set_same.
  - constructor; [apply sample_row_ok|constructor].
  - reflexivity.
  - unfold int_max. simpl. lia.
Defined.

(** select prints the first five characters of the chosen attribute of exactly the
    records whose attribute lies between the two bounds (in strcmp's order), in the heap's order,
    and leaves the heap file as it was, when the pages do not exactly fill the directories and
    the iterator's flag is true. *)
Theorem select_main_filters (f : fs) (prog name psarg attrarg lo hi : cstr) (ps i : Z)
    (v : rec_view) (t0 t1 : Z * Z) (Hh : holds f name ps v) (Hps : atoi psarg = Ok ps)
    (Hroom : not_full ps v) (Hi : atoi attrarg = Ok i) (Hir : 0 ≤ i < 100) :
  ∃ out, select_main true t0 t1 [prog; name; attrarg; lo; hi; psarg] f = Ok out ∧ status out = 0
    ∧ stdout out = concat (map (selected (Z.to_nat i) lo hi) (records v)) ++ print_time t0 t1
    ∧ holds (files out) name ps v.
Proof. by apply select_main_Ok. Qed.

Lemma select_main_filters_witness : ∃ f out,
  select_main true (1, 0) (1, 2) [[]; h_name; [x33]; [x61]; [x7a]; ps_arg] f = Ok out
  ∧ status out = 0
  ∧ stdout out = concat (map (selected (Z.to_nat 3) [x61] [x7a]) (records [[Some wide_rec]]))
      ++ print_time (1, 0) (1, 2)
  ∧ holds (files out) h_name 1010 [[Some wide_rec]].
Proof.
  destruct sample_disk as [f Hh]. exists f.
  apply (select_main_filters f [] h_name ps_arg [x33] [x61] [x7a] 1010 3 [[Some wide_rec]] (1, 0) (1, 2) Hh);
    [reflexivity|right; discriminate|reflexivity|lia].
Defined.
