(* ===== verification/PageTools.v ===== *)
(** * write_fixed_len_pages and read_fixed_len_pages

    The page file the first tool writes is the concatenation of slotted pages, all but the
    last of them full; the second prints its records back. *)
From S2P Require Import Prelude Buffers CLib RecordFmt Page Directory Heapfile Scan Tools ToolsProps.

(** ** Packed pages *)

(** A page that holds the records [l] in its first slots. *)
Definition page_holds (ps : Z) (p : Page) (l : list (list cstr)) : Prop :=
  page_ok p ∧ page_size p = ps ∧ slot_size p = SLOT_SIZE
  ∧ page_view p = map (λ r, Some (enc_record r)) l ++ replicate (Z.to_nat (cap ps SLOT_SIZE) - length l) None
  ∧ (length l ≤ Z.to_nat (cap ps SLOT_SIZE))%nat.

Lemma filter_holds (l : list (list cstr)) m :
  zlen (filter (λ o : option (list byte), o = None)
    (map (λ r, Some (enc_record r)) l ++ replicate m None)) = Z.of_nat m.
Proof.
  rewrite filter_app, length_app. assert (filter (λ o : option (list byte), o = None)
    (map (λ r, Some (enc_record r)) l) = []) as ->.
  { induction l as [|r l IH]; [done|]. cbn [map]. by rewrite filter_cons_False. }
  induction m as [|m IH]; [done|]. cbn [replicate]. rewrite filter_cons_True by done. simpl in *. lia.
Qed.

Section pages.
Context (ps : Z) (Hps : 1000 < ps ≤ int_max).
Local Abbreviation N := (cap ps SLOT_SIZE).

Lemma N_pos : 1 ≤ N ≤ ps.
Proof.
  pose proof (cap_pos ps SLOT_SIZE ltac:(done) ltac:(unfold SLOT_SIZE; lia)).
  pose proof (cap_le_ps ps SLOT_SIZE ltac:(done) ltac:(unfold SLOT_SIZE; lia)). lia.
Qed.

Lemma holds_free p l : page_holds ps p l → fixed_len_page_freeslots p = Ok (N - zlen l).
Proof.
  intros (Hok & Hp & Hs & Hv & Hl). rewrite freeslots_view_Ok by done. rewrite Hv, filter_holds.
  f_equal. pose proof N_pos. lia.
Qed.

Lemma fresh_holds : page_holds ps (fresh_page ps SLOT_SIZE) [].
Proof.
  pose proof N_pos. split_and!; [apply fresh_ok; unfold SLOT_SIZE; lia|done|done| |simpl; lia].
  rewrite fresh_view. simpl. by rewrite Nat.sub_0_r.
Qed.

(** Adding a record to a page with room. *)
Lemma add_holds p l r : page_holds ps p l → zlen l < N → length r = 100%nat →
  ∃ s p', add_fixed_len_page p (map Some r) = Ok (s, p') ∧ page_holds ps p' (l ++ [r]).
Proof.
  intros (Hok & Hp & Hs & Hv & Hl) Hlt Hr.
  pose proof (add_view_Ok p r Hok ltac:(rewrite Hs, Hr; done)) as Ha. rewrite Hv in Ha.
  destruct (Z.to_nat N - length l)%nat as [|m] eqn:E; [lia|]. simpl replicate in Ha.
  rewrite list_find_app_r in Ha.
  2:{ apply list_find_None, Forall_forall. by intros o (x & -> & _)%list_elem_of_fmap. }
  simpl in Ha. rewrite length_map in Ha. destruct Ha as (p' & Ha & Hv' & Hok' & Hp' & Hs').
  eexists _, p'. split; [exact Ha|]. split_and!; [done|congruence|congruence| |rewrite length_app; simpl; lia].
  rewrite Hv', insert_app_r_alt by (rewrite length_map; lia).
  rewrite length_map, Nat.sub_diag, map_app, length_app. simpl. rewrite <-app_assoc. simpl.
  do 3 f_equal. lia.
Qed.

(** ** Writing *)

(** The writer after the records [rs], whose last page holds the last of [chunks]. *)
Record written_ok (rs : list (list cstr)) (w : writer) (pages : list Page)
    (chunks : list (list (list cstr))) (p : Page) (l : list (list cstr)) : Prop := MkWritten {
  wk_page : wpage w = Some p;
  wk_last : page_holds ps p l;
  wk_full : Forall2 (λ p c, page_holds ps p c ∧ zlen c = N) pages chunks;
  wk_file : wfile w = MkFILE (concat (map data pages)) (zlen (concat (map data pages)));
  wk_recs : concat chunks ++ l = rs;
  wk_ne : l ≠ [];
  wk_num : num_records w = zlen rs;
  wk_pages : num_pages w = zlen pages + 1 }.

Lemma full_records pages chunks :
  Forall2 (λ p c, page_holds ps p c ∧ zlen c = N) pages chunks →
  zlen (concat chunks) = zlen pages * N.
Proof.
  induction 1 as [|p c pages chunks [_ Hc] _ IH]; [done|]. simpl. rewrite length_app. lia.
Qed.

(** One more record, after [rs]. *)
Lemma write_first r : length r = 100%nat →
  ∃ w p, write_record ps (map Some r) (MkWriter None (MkFILE [] 0) 0 0) = Ok w
    ∧ written_ok [r] w [] [] p [r].
Proof.
  intros Hr. pose proof N_pos.
  destruct (add_holds _ [] r fresh_holds ltac:(simpl; lia) Hr) as (s & p' & Ha & Hh).
  eexists _, p'. split.
  - unfold write_record, next_page. simpl.
    rewrite init_Ok by (unfold SLOT_SIZE; lia). simpl. rewrite Ha. reflexivity.
  - by split.
Qed.

Lemma write_more rs w pages chunks p l r : written_ok rs w pages chunks p l →
  length r = 100%nat → zlen rs < int_max →
  ∃ w' pages' chunks' p' l', write_record ps (map Some r) w = Ok w'
    ∧ written_ok (rs ++ [r]) w' pages' chunks' p' l'.
Proof.
  intros [Hp Hlast Hfull Hfile Hrecs Hne Hnum Hpg] Hr Hmax. pose proof N_pos.
  pose proof (full_records _ _ Hfull) as Hcnt.
  assert (zlen rs = zlen pages * N + zlen l) as Hlen by (subst rs; rewrite length_app; lia).
  assert (zlen l ≤ N) as Hl by (destruct Hlast as (_ & _ & _ & _ & ?); lia).
  assert (1 ≤ zlen l) by (destruct l; [done|simpl; lia]).
  assert (zlen pages + 1 < int_max) by nia.
  unfold write_record. rewrite Hnum, cint_ok by (unfold int_min; lia). simpl.
  unfold next_page. cbn [wpage wfile num_pages num_records]. rewrite Hp, (holds_free p l Hlast). simpl.
  destruct (Z.eqb_spec (N - zlen l) 0) as [Hz|Hz].
  - rewrite init_Ok by (unfold SLOT_SIZE; lia). simpl. rewrite Hpg, cint_ok by (unfold int_min; lia). simpl.
    destruct (add_holds _ [] r fresh_holds ltac:(simpl; lia) Hr) as (s & p' & Ha & Hh).
    rewrite Ha. simpl. eexists _, (pages ++ [p]), (chunks ++ [l]), p', [r]. split; [reflexivity|].
    split; simpl; try done.
    + apply Forall2_app; [done|]. constructor; [|constructor]. split; [done|lia].
    + rewrite Hfile, fwrite_at_end by done. simpl. rewrite map_app, concat_app. simpl.
      rewrite app_nil_r, length_app. f_equal. lia.
    + rewrite concat_app. simpl. by rewrite app_nil_r, Hrecs.
    + rewrite length_app. simpl. lia.
    + rewrite length_app. simpl. lia.
  - destruct (add_holds p l r Hlast ltac:(lia) Hr) as (s & p' & Ha & Hh). cbn [mret mbind res_ret res_bind]. rewrite Ha. simpl.
    eexists _, pages, chunks, p', (l ++ [r]). split; [reflexivity|].
    split; simpl; try done.
    + by rewrite app_assoc, Hrecs.
    + by destruct l.
    + rewrite length_app. simpl. lia.
Qed.

Lemma write_lines_Ok rows : ∀ fuel pre w rs pages chunks p l, Forall row_ok rows →
  written_ok rs w pages chunks p l → zlen rs + zlen rows ≤ int_max → (length rows < fuel)%nat →
  ∃ w' pages' chunks' p' l',
    write_lines ps fuel (MkFILE (pre ++ csv_of rows) (zlen pre)) w = Ok w'
    ∧ written_ok (rs ++ map row_rec rows) w' pages' chunks' p' l'.
Proof.
  induction rows as [|row rows IH]; intros [|fuel] pre w rs pages chunks p l Hrows Hw Hmax Hf;
    simpl in Hf; try lia.
  - exists w, pages, chunks, p, l. cbn [write_lines]. unfold csv_of. simpl.
    rewrite !app_nil_r, fgets_eof. done.
  - apply Forall_cons in Hrows as [Hrow Hrows]. cbn [length] in Hmax.
    destruct (write_more _ _ _ _ _ _ (row_rec row) Hw) as (w1 & pages1 & chunks1 & p1 & l1 & Hw1 & Hok1);
      [by apply row_rec_length|lia|].
    destruct (IH fuel (pre ++ csv_line row) w1 (rs ++ [row_rec row]) pages1 chunks1 p1 l1)
      as (w' & pages' & chunks' & p' & l' & Hw' & Hok'); [done|done|rewrite length_app; simpl; lia|lia|].
    exists w', pages', chunks', p', l'. rewrite <-app_assoc in Hok'. split; [|exact Hok'].
    cbn [write_lines]. unfold csv_of. cbn [map concat]. fold (csv_of rows).
    rewrite fgets_line by done. change load_record with load_csv_record. rewrite load_row by done.
    simpl. rewrite Hw1. simpl. rewrite <-Hw'. do 2 f_equal; [by rewrite <-app_assoc|].
    by rewrite length_app, Nat2Z.inj_add.
Qed.

(** ** Reading *)

Definition print_row (r : list cstr) : list byte := join COMMA (map trunc r) ++ [NEWLINE].

Lemma holds_slot p l i r : page_holds ps p l → l !! i = Some r → length r = 100%nat →
  ∀ old : record, length old = 100%nat →
  read_fixed_len_page p (Z.of_nat i) old = Ok (map (λ a, Some (trunc a)) r).
Proof.
  intros (Hok & Hp & Hs & Hv & Hl) Hi Hr old Hold. pose proof N_pos.
  pose proof (lookup_lt_Some _ _ _ Hi) as Hlt.
  assert (page_view p !! i = Some (Some (enc_record r))) as Hpv.
  { rewrite Hv, lookup_app_l by (rewrite length_map; lia).
    rewrite (list_lookup_fmap (λ r, Some (enc_record r))), Hi. done. }
  apply lookup_view_Some in Hpv as [Hic Hsv]. symmetry in Hsv.
  apply slot_view_Some in Hsv as [_ Hb]. rewrite Hp, Hs in Hic.
  apply read_Ok; [done|rewrite Hp, Hs; lia|rewrite Hs, Hr; done|congruence|done].
Qed.

Lemma print_slots_Ok p l : page_holds ps p l → Forall (λ r, length r = 100%nat) l →
  ∀ n i old out, (i + n = length l)%nat → length old = 100%nat →
  print_slots n p (Z.of_nat i) old out = Ok (out ++ concat (map print_row (drop i l))).
Proof.
  intros Hh Hl. induction n as [|n IH]; intros i old out Hn Hold; cbn [print_slots].
  - rewrite drop_ge by lia. simpl. by rewrite app_nil_r.
  - destruct (lookup_lt_is_Some_2 l i) as [r Hr]; [lia|].
    rewrite Forall_lookup in Hl. pose proof (Hl i r Hr) as Hlr.
    rewrite (holds_slot p l i r Hh Hr Hlr old Hold). cbn [mbind res_bind].
    unfold print_record_as_csv. rewrite <-(map_map trunc Some), print_attrs_Ok by (by destruct r).
    cbn [mbind res_bind]. rewrite (map_map trunc until_nul), (map_ext _ _ until_nul_trunc).
    replace (Z.of_nat i + 1) with (Z.of_nat (S i)) by lia.
    rewrite IH by (rewrite ?length_map; lia). rewrite (drop_S _ _ _ Hr). simpl.
    unfold print_row at 2. by rewrite <-!app_assoc.
Qed.

Lemma read_page_Ok p l old : page_holds ps p l → Forall (λ r, length r = 100%nat) l →
  ∀ out, length old = Z.to_nat ps →
  (let line := data p ++ drop (length (data p)) old in
   page ← init_fixed_len_page ps SLOT_SIZE;
   let page := with_data page line in
   c ← fixed_len_page_capacity page;
   n ← fixed_len_page_freeslots page;
   numRecs ← cint (c - n);
   print_slots (Z.to_nat numRecs) page 0 (new_record NUM_ATTR) out)
  = Ok (out ++ concat (map print_row l)).
Proof.
  intros Hh Hl out Hold. pose proof N_pos. pose proof Hh as (Hok & Hp & Hs & _ & Hle).
  assert (zlen (data p) = ps) as Hd by (destruct Hok; congruence).
  rewrite drop_ge, app_nil_r by lia. cbv zeta.
  rewrite init_Ok by (unfold SLOT_SIZE; lia). cbn [mbind res_bind].
  assert (with_data (fresh_page ps SLOT_SIZE) (data p) = p) as ->
    by (unfold with_data; simpl; rewrite <-Hp, <-Hs; by destruct p).
  rewrite capacity_Ok by done. cbn [mbind res_bind]. rewrite Hp, Hs.
  rewrite (holds_free p l Hh). cbn [mbind res_bind].
  replace (N - (N - zlen l)) with (zlen l) by lia.
  rewrite cint_ok by (unfold int_min; lia). cbn [mbind res_bind]. rewrite Nat2Z.id.
  by rewrite (print_slots_Ok p l Hh Hl (length l) 0) by done.
Qed.

Lemma read_pages_Ok pages chunks : Forall2 (page_holds ps) pages chunks →
  Forall (Forall (λ r, length r = 100%nat)) chunks →
  ∀ fuel pre line out, (length pages < fuel)%nat → length line = Z.to_nat ps →
  read_pages fuel ps (MkFILE (pre ++ concat (map data pages)) (zlen pre)) line out
    = Ok (out ++ concat (map print_row (concat chunks))).
Proof.
  induction 1 as [|p c pages chunks Hp _ IH]; intros Hall [|fuel] pre line out Hf Hline;
    simpl in Hf; try lia.
  - cbn [read_pages]. unfold fread. cbn [fpos fcontents].
    assert (slice (zlen pre) ps (pre ++ concat (map data [])) = []) as ->.
    { unfold slice. simpl. rewrite app_nil_r, Nat2Z.id, drop_all. by destruct (Z.to_nat ps). }
    simpl. by rewrite app_nil_r.
  - apply Forall_cons in Hall as [Hc Hall]. pose proof Hp as (Hok & Hps1 & _).
    assert (zlen (data p) = ps) as Hd by (destruct Hok; congruence).
    cbn [read_pages map concat]. unfold fread. cbn [fpos fcontents].
    assert (slice (zlen pre) ps (pre ++ data p ++ concat (map data pages)) = data p) as ->.
    { unfold slice. rewrite Nat2Z.id, drop_app_length. rewrite take_app_le by lia.
      apply firstn_all2. lia. }
    destruct (data p) as [|b bs] eqn:E; [simpl in Hd; lia|]. rewrite <-E in *.
    pose proof (read_page_Ok p c line Hp Hc out Hline) as Hr. cbv zeta in Hr |- *.
    revert Hr. destruct (init_fixed_len_page _ _) as [pg|]; [|done]. cbn [mbind res_bind].
    destruct (fixed_len_page_capacity _) as [cp|]; [|done]. cbn [mbind res_bind].
    destruct (fixed_len_page_freeslots _) as [n|]; [|done]. cbn [mbind res_bind].
    destruct (cint _) as [k|]; [|done]. cbn [mbind res_bind]. intros ->. cbn [mbind res_bind].
    rewrite app_assoc. replace (zlen pre + zlen (data p)) with (zlen (pre ++ data p))
      by (rewrite length_app; lia).
    rewrite (IH Hall); [|lia|rewrite length_app, length_drop; lia].
    rewrite map_app, concat_app. by rewrite app_assoc.
Qed.
End pages.

#[local] Arguments read_pages : simpl never.

(** A csv file without lines, or that is emptied as the page file: the page pointer is still NULL when it is written. *)
Lemma write_empty_csv f prog csvname pagename psarg ps t0 t1 csv : f csvname = Some csv → csv = [] ∨ csvname = pagename →
  atoi psarg = Ok ps → 0 < ps →
  write_fixed_len_pages_main t0 t1 [prog; csvname; pagename; psarg] f = Err UB.
Proof.
  intros Hcsv Hempty Hps Hp. unfold write_fixed_len_pages_main, arg. simpl. rewrite Hps, Hcsv. simpl.
  replace (negb (0 <? ps)) with false by lia. assert (default [] (fs_set pagename [] f csvname) = []) as ->; [|done].
  unfold fs_set. destruct (decide (csvname = pagename)); [done|]. destruct Hempty as [->|]; [by rewrite Hcsv|done].
Qed.

Lemma pages_fuel ps ps' cs : 0 < ps → Forall2 (page_holds ps) ps' cs → (length ps' < S (length (concat (map data ps'))))%nat.
Proof.
  intros Hps Hpages. assert (length ps' ≤ length (concat (map data ps')))%nat; [|lia].
  induction Hpages as [|q c pages chunks Hq _ IH]; [done|]. simpl. rewrite length_app.
  assert (1 ≤ length (data q))%nat; [|lia]. destruct Hq as (Hok & Hq & _). destruct Hok. lia.
Qed.

Lemma chunks_wide cs rows : concat cs = map row_rec rows → Forall row_ok rows → Forall (Forall (λ r : list cstr, length r = 100%nat)) cs.
Proof.
  intros Hall Hrows. apply Forall_forall. intros c Hc. apply Forall_forall. intros r Hin.
  assert (r ∈ map row_rec rows) as Hr.
  { rewrite <-Hall. apply list_elem_of_In, in_concat. exists c. split; by apply list_elem_of_In. }
  apply list_elem_of_fmap in Hr as (row & -> & Hin'). apply row_rec_length. rewrite Forall_forall in Hrows. auto.
Qed.

(** Claim C28. read_fixed_len_pages prints back what write_fixed_len_pages wrote: for a csv file
    of one or more rows of 100 non-empty fields, a page file of another name and any page size above the slot size, the first
    tool exits with 0 and the second, on the page file it leaves, prints every row once and in
    order, each attribute cut to ATTRIBUTE_SIZE characters, whatever its line buffer held. *)
Theorem write_read_pages (f : fs) (rows : list (list cstr)) (prog csvname pagename psarg : cstr)
    (ps : Z) (t0 t1 t2 t3 : Z * Z) (uninit : list byte) (Hcsv : f csvname = Some (csv_of rows)) (Hother : csvname ≠ pagename)
    (Hne : rows ≠ []) (Hrows : Forall row_ok rows) (Hps : atoi psarg = Ok ps)
    (Hr : 1000 < ps ≤ int_max) (Hmax : zlen rows ≤ int_max) (Hu : zlen uninit = ps) :
  ∃ out out', write_fixed_len_pages_main t0 t1 [prog; csvname; pagename; psarg] f = Ok out
    ∧ status out = 0
    ∧ read_fixed_len_pages_main uninit t2 t3 [prog; pagename; psarg] (files out) = Ok out'
    ∧ status out' = 0
    ∧ stdout out' = concat (map print_row (map row_rec rows)) ++ print_time t2 t3.
Proof.
  destruct rows as [|row rows]; [done|]. apply Forall_cons in Hrows as [Hrow Hrows].
  cbn [length] in Hmax. pose proof (N_pos ps Hr).
  destruct (write_first ps Hr (row_rec row)) as (w0 & p0 & Hw0 & Hok0); [by apply row_rec_length|].
  destruct (write_lines_Ok ps Hr rows (length (csv_of (row :: rows))) (csv_line row) w0 [row_rec row]
    [] [] p0 [row_rec row] Hrows Hok0) as (w & pages & chunks & p & l & Hw & Hok).
  { simpl length. lia. }
  { pose proof (rows_fuel rows) as Hf. unfold csv_of in *. cbn [map concat]. rewrite length_app.
    unfold csv_line at 1. rewrite length_app. simpl. lia. }
  destruct Hok as [Hp Hlast Hfull Hfile Hrecs Hl0 _ _].
  set (bytes := concat (map data (pages ++ [p]))).
  assert (fcontents (fwrite (data p) (wfile w)) = bytes) as Hbytes.
  { rewrite Hfile, fwrite_at_end by done. unfold bytes. rewrite map_app, concat_app. simpl.
    by rewrite app_nil_r. }
  assert (Forall2 (page_holds ps) (pages ++ [p]) (chunks ++ [l])) as Hpages.
  { apply Forall2_app; [|by constructor]. eapply Forall2_impl; [exact Hfull|]. by intros ? ? [? _]. }
  assert (concat (chunks ++ [l]) = map row_rec (row :: rows)) as Hall.
  { rewrite concat_app. simpl. rewrite app_nil_r, Hrecs. done. }
  pose proof (chunks_wide _ (row :: rows) Hall ltac:(by constructor)) as Hwide.
  pose proof (pages_fuel ps _ _ ltac:(lia) Hpages) as Hfuel. fold bytes in Hfuel.
  eexists (MkOutcome 0 _ (fs_set pagename bytes (fs_set pagename [] f))), (MkOutcome 0 _ _). split_and!; [|done| |done|].
  - unfold write_fixed_len_pages_main, arg. simpl. rewrite Hps, Hcsv. simpl.
    replace (negb (0 <? ps)) with false by lia. rewrite fs_set_other, Hcsv by done. cbn [from_option id].
    pose proof (fgets_line [] row (csv_of rows) Hrow) as Hg. simpl app in Hg.
    change (zlen []) with 0 in Hg.
    change (csv_of (row :: rows)) with (csv_line row ++ csv_of rows) in *. rewrite Hg. change load_record with load_csv_record. rewrite load_row by done. simpl.
    rewrite Hw0. simpl. change (zlen (csv_line row)) with (0 + zlen (csv_line row)) in Hw.
    rewrite Hw. cbn [mbind res_bind]. rewrite Hp. cbn [of_option mbind res_bind].
    rewrite <-Hbytes. reflexivity.
  - unfold read_fixed_len_pages_main, arg. simpl. rewrite Hps, fs_set_same. cbn [mbind res_bind].
    replace (negb (0 <? ps)) with false by lia.
    pose proof (read_pages_Ok ps Hr _ _ Hpages Hwide _ [] (take (Z.to_nat ps) uninit) [] Hfuel) as Hread.
    simpl app in Hread. fold bytes in Hread. change (zlen []) with 0 in Hread. rewrite Hread.
    + simpl. reflexivity.
    + rewrite length_take. lia.
  - simpl. by rewrite Hall.
Qed.

Lemma write_read_pages_witness : let rows := [sample_row; sample_row] in
  let f : fs := λ n, if decide (n = c_name) then Some (csv_of rows) else None in
  ∃ out out', write_fixed_len_pages_main (0, 0) (0, 1) [[]; c_name; h_name; ps_arg] f = Ok out
    ∧ status out = 0
    ∧ read_fixed_len_pages_main (replicate 1010 x01) (0, 0) (0, 1) [[]; h_name; ps_arg] (files out)
        = Ok out'
    ∧ status out' = 0
    ∧ stdout out' = concat (map print_row (map row_rec rows)) ++ print_time (0, 0) (0, 1).
Proof.
  apply (write_read_pages _ [sample_row; sample_row] [] c_name h_name ps_arg 1010);
    [reflexivity|discriminate|discriminate| |reflexivity|unfold int_max; lia|unfold int_max; simpl; lia|reflexivity].
  constructor; [apply sample_row_ok|]. constructor; [apply sample_row_ok|constructor].
Defined.
