(* ===== verification/Library.v ===== *)
(** * Schemas and record comparison: a2/library.h, a2/library.cc

    Records of the sorting programs are runs of [record_size] bytes; a schema says where
    each attribute starts and how long it is. *)
From Stdlib Require Import Strings.String.
From S2P Require Import Prelude Buffers CLib.

#[local] Open Scope Z_scope.
#[local] Open Scope list_scope.

Inductive TYPE := INT | FLOAT | STRING.

(** [type] is [None] when it is not set: [set_schema] leaves it uninitialised for a type name
    it does not know, and no case of a [switch] on it is taken. *)
Record Attribute := MkAttribute { name : cstr; type : option TYPE; length_ : Z }.

Record Schema := MkSchema {
  attrs : list Attribute;
  sort_attrs : list Z;
  data_offset : list Z;
  record_size : Z }.

Definition empty_schema : Schema := MkSchema [] [] [] 0.

Definition add_attr (a : Attribute) (s : Schema) : Schema :=
  MkSchema (attrs s ++ [a]) (sort_attrs s) (data_offset s) (record_size s).
Definition add_sort_attr (i : Z) (s : Schema) : Schema :=
  MkSchema (attrs s) (sort_attrs s ++ [i]) (data_offset s) (record_size s).
Definition add_offset (o : Z) (s : Schema) : Schema :=
  MkSchema (attrs s) (sort_attrs s) (data_offset s ++ [o]) (record_size s).
Definition set_record_size (n : Z) (s : Schema) : Schema :=
  MkSchema (attrs s) (sort_attrs s) (data_offset s) n.

Definition type_of_name (type : cstr) : option TYPE :=
  if decide (type = list_byte_of_string "integer") then Some INT
  else if decide (type = list_byte_of_string "float") then Some FLOAT
  else if decide (type = list_byte_of_string "string") then Some STRING
  else None.

Definition set_schema (name type : cstr) (len : Z) (schema : Schema) : Z * Schema :=
  let attr := MkAttribute name (type_of_name type) len in
  (length_ attr, add_attr attr schema).

(** The index of the first attribute of that name. *)
Fixpoint find_attr (sort_attr : cstr) (i : Z) (l : list Attribute) : option Z :=
  match l with
  | [] => None
  | a :: l => if decide (sort_attr = name a) then Some i else find_attr sort_attr (i + 1) l
  end.

Fixpoint sort_attr_loop (tokens : list cstr) (schema : Schema) : res Schema :=
  match tokens with
  | [] => mret schema
  | t :: tokens =>
      match find_attr t 0 (attrs schema) with
      | Some i => sort_attr_loop tokens (add_sort_attr i schema)
      | None => Err (Exit 1)
      end
  end.

Definition set_schema_sort_attr (schema : Schema) (sorting_attr : cstr) : res Schema :=
  sort_attr_loop (strtok_all COMMA sorting_attr) schema.

(** An unchecked [vector] subscript. *)
Definition vec_at {A} (l : list A) (i : Z) : res A :=
  _ ← defined (0 <=? i);
  of_option (l !! Z.to_nat i).

(** The offset of attribute [i] of the record that starts at [data]. *)
Definition get_attr (i data : Z) (schema : Schema) : res Z :=
  o ← vec_at (data_offset schema) i; mret (data + o).

(** ** Comparing attributes

    The floats [atof] yields (rounded to [float]) and their order are parameters: [F],
    [atof] and [flt]. The strings end at their first NUL. *)
Section compare.
Context {F : Type} (atof : cstr → F) (flt : F → F → bool).

Definition int_cmp (lhs rhs : cstr) : res Z :=
  l ← atoi lhs; r ← atoi rhs; cint (l - r).

Definition float_cmp (lhs rhs : cstr) : res Z :=
  let fl := atof (until_nul lhs) in
  let fr := atof (until_nul rhs) in
  mret (Z.b2z (flt fr fl) - Z.b2z (flt fl fr)).

Definition string_cmp (lhs rhs : cstr) : res Z := mret (strcmp lhs rhs).

Definition cmp_fn (t : TYPE) : cstr → cstr → res Z :=
  match t with INT => int_cmp | FLOAT => float_cmp | STRING => string_cmp end.

(** A [RecordComparator]: the functions its constructor collects, named by their types. *)
Fixpoint cmp_fns_of (sorts : list Z) (attrs : list Attribute) : res (list TYPE) :=
  match sorts with
  | [] => mret []
  | i :: sorts =>
      a ← vec_at attrs i;
      fns ← cmp_fns_of sorts attrs;
      mret (match type a with Some t => t :: fns | None => fns end)
  end.

Record RecordComparator := MkComparator { cmp_fns : list TYPE; schema : Schema }.

Definition new_RecordComparator (s : Schema) : res RecordComparator :=
  fns ← cmp_fns_of (sort_attrs s) (attrs s); mret (MkComparator fns s).

(** [char lhs_attr[40]; memcpy(lhs_attr, get_attr(sort_idx, ...), length of sort_idx);
    lhs_attr[length of i] = 0], for the record [rec]; [junk] is what the array held. *)
Definition copy_attr (s : Schema) (junk : list byte) (rec : list byte) (i sort_idx : Z)
    : res (list byte) :=
  off ← get_attr sort_idx 0 s;
  a ← vec_at (attrs s) sort_idx;
  bs ← read_bytes rec off (u64 (length_ a));
  buf ← write_bytes junk 0 bs;
  b ← vec_at (attrs s) i;
  set8 buf (length_ b) NUL.

(** The loop of [qsort_cmp] and of [RecordComparator::operator()] from sort attribute [i]. *)
Fixpoint cmp_loop (c : RecordComparator) (junk : list byte) (lhs rhs : list byte) (i : Z)
    (sorts : list Z) : res Z :=
  match sorts with
  | [] => mret 0
  | sort_idx :: sorts =>
      lhs_attr ← copy_attr (schema c) junk lhs i sort_idx;
      rhs_attr ← copy_attr (schema c) junk rhs i sort_idx;
      t ← vec_at (cmp_fns c) i;
      cmp ← cmp_fn t lhs_attr rhs_attr;
      if negb (cmp =? 0) then mret cmp else cmp_loop c junk lhs rhs (i + 1) sorts
  end.

Definition qsort_cmp (c : RecordComparator) (junk lhs rhs : list byte) : res Z :=
  cmp_loop c junk lhs rhs 0 (sort_attrs (schema c)).

Definition record_less (c : RecordComparator) (junk lhs rhs : list byte) : res bool :=
  cmp ← cmp_loop c junk lhs rhs 0 (sort_attrs (schema c)); mret (cmp <? 0).
End compare.

(** ** Reading a schema

    What both programs do with the parsed JSON array: a list of names, type names and
    lengths. *)
Fixpoint load_attrs (l : list (cstr * cstr * Z)) (total_length : Z) (s : Schema) : res Schema :=
  match l with
  | [] => mret s
  | (name, type, len) :: l =>
      let '(len, s) := set_schema name type len s in
      let s := add_offset total_length s in
      len1 ← cint (len + 1);
      total_length ← cint (total_length + len1);
      load_attrs l total_length s
  end.

(** [record_size += length + 1], in [size_t]; the sum is an [int] first. *)
Fixpoint sum_lengths (l : list Attribute) (acc : Z) : res Z :=
  match l with
  | [] => mret acc
  | a :: l => n ← cint (length_ a + 1); sum_lengths l (u64 (acc + u64 n))
  end.
