(* ===== verification/SchemaProps.v ===== *)
(** * Comparing records, and reading a schema

    The comparison of well-formed records is the lexicographic comparison of their sort
    attributes, a total preorder.

    What the loops of both sorting programs make of the JSON array: the layout of a record
    and the sort attributes. *)
From Stdlib Require Import Strings.String.
From S2P Require Import Prelude Buffers CLib Order Library.

(** ** strcmp *)

#[export] Instance strcmp_order : CmpOrder strcmp.
Proof.
  split; unfold strcmp.
  - intros a b. rewrite strcmp_aux_anti. apply Z.sgn_opp.
  - intros a b d. apply strcmp_aux_trans.
Qed.

(** ** The comparison of records *)

(** [flt] is the order of the floats that are not NaN. *)
Class FloatOrder {F} (flt : F → F → bool) : Prop := {
  flt_irrefl : ∀ x, flt x x = false;
  flt_trans : ∀ x y z, flt x y = true → flt y z = true → flt x z = true;
  flt_weak : ∀ x y z, flt x y = true → flt x z = true ∨ flt z y = true }.

Section records.
Context {F : Type} (atof : cstr → F) (flt : F → F → bool) {Hflt : FloatOrder flt}.

(** What [cmp_fn] computes when no integer overflows. *)
Definition type_cmp (t : TYPE) (x y : cstr) : Z :=
  match t with
  | INT => atoi_val x - atoi_val y
  | FLOAT => Z.b2z (flt (atof (until_nul y)) (atof (until_nul x)))
             - Z.b2z (flt (atof (until_nul x)) (atof (until_nul y)))
  | STRING => strcmp x y
  end.

#[export] Instance type_cmp_order t : CmpOrder (type_cmp t).
Proof using Hflt.
  destruct t; simpl; [apply diff_order| |apply strcmp_order].
  split.
  - intros a b. unfold type_cmp. set (x := atof (until_nul a)). set (y := atof (until_nul b)).
    by destruct (flt y x), (flt x y).
  - intros a b d. unfold type_cmp. set (x := atof (until_nul a)). set (y := atof (until_nul b)).
    set (z := atof (until_nul d)). intros H1 H2.
    destruct (flt z x) eqn:E; simpl; [|destruct (flt x z); simpl; lia].
    assert (flt x z = false) as ->.
    { destruct (flt x z) eqn:E'; [|done]. pose proof (flt_trans x z x E' E) as H.
      by rewrite flt_irrefl in H. }
    exfalso. destruct (flt_weak z x y E) as [H|H].
    + rewrite H in H2. destruct (flt y z) eqn:E'; simpl in H2; [|lia].
      pose proof (flt_trans z y z H E') as Hx. by rewrite flt_irrefl in Hx.
    + rewrite H in H1. destruct (flt x y) eqn:E'; simpl in H1; [|lia].
      pose proof (flt_trans x y x E' H) as Hx. by rewrite flt_irrefl in Hx.
Qed.

(** Attribute [i] of a record, as a string, and its type. *)
Definition field (s : Schema) (i : Z) (rec : list byte) : cstr :=
  until_nul (slice (default 0 (data_offset s !! Z.to_nat i))
    (from_option length_ 0 (attrs s !! Z.to_nat i)) rec).

Definition field_type (s : Schema) (i : Z) : TYPE :=
  default STRING (attrs s !! Z.to_nat i ≫= type).

(** The order of the sort: lexicographic, by the sort attributes in turn. *)
Fixpoint sort_cmp (s : Schema) (sorts : list Z) (a b : list byte) : Z :=
  match sorts with
  | [] => 0
  | i :: sorts =>
      lex_cmp (λ a b, type_cmp (field_type s i) (field s i a) (field s i b)) (sort_cmp s sorts) a b
  end.

Definition rec_cmp (s : Schema) : list byte → list byte → Z := sort_cmp s (sort_attrs s).

Lemma sort_cmp_order s sorts : CmpOrder (sort_cmp s sorts).
Proof using Hflt.
  induction sorts as [|i sorts IH]; [apply zero_order|]. simpl.
  apply lex_order; [|exact IH]. apply (on_order (field s i)). apply _.
Qed.

#[export] Instance rec_cmp_order s : CmpOrder (rec_cmp s).
Proof using Hflt. apply sort_cmp_order. Qed.

(** A sort attribute the comparator handles: known type, short enough for the buffers, inside
    the record, and as long as the attribute whose number is its rank. *)
Definition sort_attr_ok (s : Schema) (rank i : Z) : Prop :=
  ∃ a a' o, 0 ≤ i ∧ attrs s !! Z.to_nat i = Some a ∧ data_offset s !! Z.to_nat i = Some o
    ∧ is_Some (type a) ∧ 0 ≤ length_ a < 40 ∧ 0 ≤ o ∧ o + length_ a ≤ record_size s
    ∧ 0 ≤ rank ∧ attrs s !! Z.to_nat rank = Some a' ∧ length_ a' = length_ a.

Definition schema_ok (s : Schema) : Prop :=
  ∀ k i, sort_attrs s !! k = Some i → sort_attr_ok s (Z.of_nat k) i.

(** A record of the schema whose integer sort attributes do not overflow when compared. *)
Definition rec_ok (s : Schema) (rec : list byte) : Prop :=
  zlen rec = record_size s
  ∧ ∀ i, i ∈ sort_attrs s → field_type s i = INT → - 2^30 < atoi_val (field s i rec) < 2^30.

Lemma copy_attr_Ok s junk rec rank i : sort_attr_ok s rank i → zlen junk = 40 →
  zlen rec = record_size s →
  ∃ buf, copy_attr s junk rec rank i = Ok buf ∧ until_nul buf = field s i rec.
Proof.
  intros (a & a' & o & Hi & Ha & Ho & _ & Hl & Ho0 & Hfit & Hr & Ha' & Hl') Hj Hrec.
  unfold copy_attr, get_attr, vec_at.
  rewrite !defined_true by lia. cbn [mbind res_bind]. rewrite Ho, Ha, Ha'.
  cbn [of_option mret res_ret mbind res_bind]. rewrite Hl', u64_small, Z.add_0_l by lia.
  rewrite read_bytes_Ok by lia. cbn [mbind res_bind].
  assert (zlen (slice o (length_ a) rec) = length_ a) as Hsl by (rewrite length_slice; lia).
  rewrite write_bytes_Ok by lia. cbn [mbind res_bind]. unfold set8.
  assert (zlen (splice 0 (slice o (length_ a) rec) junk) = 40) as Hsp by (rewrite length_splice; lia).
  rewrite write_bytes_Ok by (simpl; lia). eexists. split; [done|].
  unfold field. rewrite Ha, Ho. simpl default. simpl from_option.
  set (f := slice o (length_ a) rec) in *. unfold splice. simpl.
  rewrite (take_app_length' f) by lia.
  apply until_nul_app_nul.
Qed.

Lemma cmp_fn_Ok t x y : (t = INT → - 2^30 < atoi_val (until_nul x) < 2^30) →
  (t = INT → - 2^30 < atoi_val (until_nul y) < 2^30) →
  cmp_fn atof flt t x y = Ok (type_cmp t (until_nul x) (until_nul y)).
Proof.
  intros Hx Hy. assert (∀ s, atoi_val (until_nul s) = atoi_val s) as E
    by (intros s; unfold atoi_val; by rewrite until_nul_idemp).
  destruct t; simpl.
  - unfold int_cmp, atoi. rewrite !E in *. specialize (Hx eq_refl). specialize (Hy eq_refl).
    rewrite !cint_ok by (unfold int_min, int_max; lia). cbn [mbind res_bind].
    by rewrite cint_ok by (unfold int_min, int_max; lia).
  - unfold float_cmp. by rewrite !until_nul_idemp.
  - unfold string_cmp, strcmp. by rewrite !until_nul_idemp.
Qed.

(** The comparator's functions are those of its schema's sort attributes. *)
Lemma cmp_fns_Ok s sorts : (∀ i, i ∈ sorts → ∃ r, sort_attr_ok s r i) →
  cmp_fns_of sorts (attrs s) = Ok (map (field_type s) sorts).
Proof.
  induction sorts as [|i sorts IH]; intros H; [done|]. cbn [cmp_fns_of map].
  destruct (H i ltac:(by left)) as (r & a & a' & o & Hi & Ha & _ & [t Ht] & _).
  unfold vec_at. rewrite defined_true by lia. cbn [mbind res_bind]. rewrite Ha. cbn [of_option mbind res_bind].
  rewrite IH by (intros j Hj; apply H; by right). cbn [mbind res_bind]. rewrite Ht.
  unfold field_type at 2. by rewrite Ha; simpl; rewrite Ht.
Qed.

Lemma comparator_Ok s : schema_ok s →
  new_RecordComparator s = Ok (MkComparator (map (field_type s) (sort_attrs s)) s).
Proof.
  intros Hs. unfold new_RecordComparator. rewrite cmp_fns_Ok; [done|].
  intros i [k Hk]%list_elem_of_lookup. exists (Z.of_nat k). by apply Hs.
Qed.

Lemma cmp_loop_Ok s junk a b : schema_ok s → zlen junk = 40 → rec_ok s a → rec_ok s b →
  ∀ sorts pre, sort_attrs s = pre ++ sorts →
  cmp_loop atof flt (MkComparator (map (field_type s) (sort_attrs s)) s) junk a b (zlen pre) sorts
    = Ok (sort_cmp s sorts a b).
Proof.
  intros Hs Hj [Hla Ha] [Hlb Hb]. induction sorts as [|i sorts IH]; intros pre Hpre; [done|].
  assert (sort_attrs s !! length pre = Some i) as Hi by (rewrite Hpre; by apply list_lookup_middle).
  pose proof (Hs _ _ Hi) as Hok. cbn [cmp_loop schema].
  destruct (copy_attr_Ok s junk a _ i Hok Hj Hla) as (ba & -> & Eb).
  destruct (copy_attr_Ok s junk b _ i Hok Hj Hlb) as (bb & -> & Ebb). cbn [mbind res_bind].
  unfold vec_at. rewrite defined_true by lia. cbn [mbind res_bind cmp_fns].
  rewrite Nat2Z.id, list_lookup_fmap, Hi. cbn [fmap option_fmap option_map of_option mbind res_bind].
  assert (i ∈ sort_attrs s) as Hin by (by eapply list_elem_of_lookup_2).
  rewrite cmp_fn_Ok by (rewrite ?Eb, ?Ebb; auto). rewrite Eb, Ebb. cbn [mbind res_bind sort_cmp].
  unfold lex_cmp. destruct (_ =? 0); simpl; [|done].
  replace (zlen pre + 1) with (zlen (pre ++ [i])) by (rewrite length_app; simpl; lia).
  apply IH. by rewrite <-app_assoc.
Qed.

Lemma qsort_cmp_Ok s junk a b : schema_ok s → zlen junk = 40 → rec_ok s a → rec_ok s b →
  qsort_cmp atof flt (MkComparator (map (field_type s) (sort_attrs s)) s) junk a b
    = Ok (rec_cmp s a b).
Proof. intros. by apply (cmp_loop_Ok s junk a b) with (pre := []). Qed.

Lemma record_less_Ok s junk a b : schema_ok s → zlen junk = 40 → rec_ok s a → rec_ok s b →
  record_less atof flt (MkComparator (map (field_type s) (sort_attrs s)) s) junk a b
    = Ok (rec_cmp s a b <? 0).
Proof.
  intros. unfold record_less. change 0 with (zlen (@nil Z)) at 1.
  by rewrite (cmp_loop_Ok s junk a b) with (pre := []).
Qed.
End records.

(** * Reading a schema *)

#[local] Open Scope Z_scope.
#[local] Open Scope list_scope.

Abbreviation json_attr := (cstr * cstr * Z)%type.

Definition attr_of (a : json_attr) : Attribute := MkAttribute a.1.1 (type_of_name a.1.2) a.2.

(** The bytes of the attributes: each is followed by a separator. *)
Fixpoint width (l : list json_attr) : Z :=
  match l with [] => 0 | a :: l => (a.2 + 1) + width l end.

Definition offsets (l : list json_attr) : list Z := map (λ i, width (take i l)) (seq 0 (length l)).

(** The schema of the JSON array [l], sorted by the attributes [sorts]. *)
Definition json_schema (l : list json_attr) (sorts : list Z) : Schema :=
  MkSchema (map attr_of l) sorts (offsets l) (width l).

Lemma width_app l l' : width (l ++ l') = width l + width l'.
Proof. induction l as [|a l IH]; simpl; lia. Qed.

Lemma width_nonneg l : Forall (λ a : json_attr, 0 ≤ a.2) l → 0 ≤ width l.
Proof. induction 1; simpl; lia. Qed.

Lemma offsets_snoc l a : offsets (l ++ [a]) = offsets l ++ [width l].
Proof.
  unfold offsets. rewrite length_app, Nat.add_1_r, seq_S, map_app. simpl. f_equal.
  - apply map_ext_in. intros i Hi%in_seq. by rewrite take_app_le by lia.
  - by rewrite take_app_length.
Qed.

Lemma offsets_lookup l i : (i < length l)%nat → offsets l !! i = Some (width (take i l)).
Proof. intros Hi. unfold offsets. by rewrite list_lookup_fmap, lookup_seq_lt by done. Qed.

Lemma load_attrs_app l : ∀ pre n, Forall (λ a : json_attr, 0 ≤ a.2) (pre ++ l) →
  width (pre ++ l) ≤ int_max →
  load_attrs l (width pre) (MkSchema (map attr_of pre) [] (offsets pre) n)
    = Ok (MkSchema (map attr_of (pre ++ l)) [] (offsets (pre ++ l)) n).
Proof.
  induction l as [|[[nm ty] len] l IH]; intros pre n Hf Hw; [by rewrite app_nil_r|].
  pose proof Hf as Hf'. apply Forall_app in Hf' as [Hp Hc]. inversion Hc as [|? ? Hlen Hl]; subst.
  simpl in Hlen. pose proof (width_nonneg _ Hp). pose proof (width_nonneg _ Hl).
  rewrite width_app in Hw. simpl in Hw. cbn [load_attrs set_schema attr_of fst snd length_].
  rewrite (cint_ok (len + 1)) by (unfold int_min; lia). cbn [mbind res_bind].
  rewrite (cint_ok (width pre + (len + 1))) by (unfold int_min; lia). cbn [mbind res_bind].
  specialize (IH (pre ++ [(nm, ty, len)]) n). rewrite <-app_assoc in IH. simpl app in IH.
  rewrite <-IH; [|done|rewrite width_app; simpl; lia].
  rewrite map_app, offsets_snoc, width_app. f_equal. simpl. lia.
Qed.

Lemma load_attrs_Ok l : Forall (λ a : json_attr, 0 ≤ a.2) l → width l ≤ int_max →
  load_attrs l 0 empty_schema = Ok (MkSchema (map attr_of l) [] (offsets l) 0).
Proof. intros. by apply (load_attrs_app l [] 0). Qed.

Lemma sum_lengths_Ok l : ∀ acc, Forall (λ a : json_attr, 0 ≤ a.2) l → 0 ≤ acc →
  acc + width l ≤ int_max → sum_lengths (map attr_of l) acc = Ok (acc + width l).
Proof.
  induction l as [|a l IH]; intros acc Hf Ha Hw; simpl in *; [by rewrite Z.add_0_r|].
  inversion Hf as [|? ? Hl Hf']; subst. pose proof (width_nonneg _ Hf').
  rewrite (cint_ok (a.2 + 1)) by (unfold int_min; lia). cbn [mbind res_bind].
  rewrite (u64_small (a.2 + 1)), (u64_small (acc + (a.2 + 1))) by (unfold int_max in *; lia).
  rewrite IH by (done || lia). f_equal. lia.
Qed.

(** ** The sort attributes *)

Lemma find_attr_some t l i j : find_attr t i l = Some j →
  i ≤ j ∧ ∃ a, l !! Z.to_nat (j - i) = Some a ∧ name a = t
    ∧ Forall (λ b, name b ≠ t) (take (Z.to_nat (j - i)) l).
Proof.
  revert i. induction l as [|a l IH]; intros i H; simpl in H; [done|]. case_decide; simplify_eq.
  - split; [lia|]. rewrite Z.sub_diag. exists a. by split_and!; [| |constructor].
  - apply IH in H as (Hij & b & Hb & Hn & Hall). split; [lia|]. exists b.
    replace (Z.to_nat (j - i)) with (S (Z.to_nat (j - (i + 1)))) by lia. simpl.
    split_and!; [done|done|]. constructor; [congruence|done].
Qed.

Lemma find_attr_none t l i : find_attr t i l = None ↔ Forall (λ a, name a ≠ t) l.
Proof.
  revert i. induction l as [|a l IH]; intros i; simpl; [by split|]. rewrite Forall_cons.
  case_decide; [by split; [|intros []]|]. rewrite IH.
  split; [split; [congruence|done]|by intros []].
Qed.

Lemma sort_attr_loop_Ok tokens : ∀ s, sort_attr_loop tokens s =
  match mapM (λ t, find_attr t 0 (attrs s)) tokens with
  | Some is_ => Ok (MkSchema (attrs s) (sort_attrs s ++ is_) (data_offset s) (record_size s))
  | None => Err (Exit 1)
  end.
Proof.
  induction tokens as [|t tokens IH]; intros s; simpl; [rewrite app_nil_r; by destruct s|].
  destruct (find_attr t 0 (attrs s)) as [i|]; simpl; [|done]. rewrite IH. simpl.
  destruct (mapM _ tokens); simpl; [|done]. by rewrite <-app_assoc.
Qed.

(** ** Properties *)

(** A record of the values [vs], each followed by its separator byte. *)
Definition make_record (vs : list (cstr * byte)) : list byte := concat (map (λ v, v.1 ++ [v.2]) vs).

Lemma make_record_width l vs : Forall2 (λ (a : json_attr) v, zlen v.1 = a.2) l vs →
  zlen (make_record vs) = width l.
Proof.
  unfold make_record. induction 1 as [|a v l vs Hv _ IH]; simpl; [done|].
  rewrite !length_app. simpl. lia.
Qed.

Lemma make_record_slice l vs i v a : Forall2 (λ (a : json_attr) v, zlen v.1 = a.2) l vs →
  vs !! i = Some v → l !! i = Some a → slice (width (take i l)) a.2 (make_record vs) = v.1.
Proof.
  intros H Hv Ha. rewrite <-(take_drop_middle vs i v Hv). unfold make_record.
  rewrite map_app, concat_app. cbn [map concat].
  assert (zlen (make_record (take i vs)) = width (take i l)) as Hw.
  { apply make_record_width. by apply Forall2_take. }
  pose proof (Forall2_lookup_lr _ _ _ _ _ _ H Ha Hv) as Hl. simpl in Hl.
  unfold slice. rewrite <-Hw, Nat2Z.id. unfold make_record. rewrite drop_app_length, <-Hl, Nat2Z.id.
  by rewrite <-app_assoc, take_app_length.
Qed.

(** Reading a schema of attributes of nonnegative length whose total width is an
    [int] succeeds, [record_size] is that width, and the layout is the one of a record that
    stores the values one after the other, each followed by one separator byte: slicing such
    a record at the offset of attribute [i] gives its value back, and each attribute with its
    separator ends before the next one starts. *)
Theorem schema_layout l vs
  (Hlen : Forall (λ a : json_attr, 0 ≤ a.2) l) (Hw : width l ≤ int_max)
  (Hvs : Forall2 (λ (a : json_attr) v, zlen v.1 = a.2) l vs) :
  ∃ s, load_attrs l 0 empty_schema = Ok s
    ∧ sum_lengths (attrs s) 0 = Ok (zlen (make_record vs))
    ∧ ∀ i v, vs !! i = Some v → ∃ a o, attrs s !! i = Some a ∧ data_offset s !! i = Some o
        ∧ slice o (length_ a) (make_record vs) = v.1
        ∧ 0 ≤ o ∧ o + length_ a < zlen (make_record vs)
        ∧ ∀ o', data_offset s !! S i = Some o' → o' = o + length_ a + 1.
Proof.
  eexists. split; [by apply load_attrs_Ok|]. cbn [attrs data_offset].
  rewrite (make_record_width l vs Hvs). split; [by apply sum_lengths_Ok|].
  intros i v Hv. pose proof (Forall2_length _ _ _ Hvs) as Hlv.
  destruct (lookup_lt_is_Some_2 l i) as [a Ha]; [rewrite Hlv; by eapply lookup_lt_Some|].
  pose proof (lookup_lt_Some _ _ _ Ha) as Hi.
  exists (attr_of a), (width (take i l)). rewrite list_lookup_fmap, Ha. cbn [length_ attr_of].
  split_and!; [done|by apply offsets_lookup|by apply make_record_slice| | |].
  - apply width_nonneg. by apply Forall_take.
  - rewrite <-(take_drop_middle l i a Ha) at 2. rewrite width_app. simpl.
    assert (0 ≤ width (drop (S i) l)) by (apply width_nonneg; by apply Forall_drop). lia.
  - intros o' Ho'. destruct (decide (S i < length l)%nat) as [Hs|Hs].
    + rewrite offsets_lookup in Ho' by done. simplify_eq. rewrite (take_S_r _ _ _ Ha), width_app. simpl. lia.
    + rewrite lookup_ge_None_2 in Ho'; [done|]. unfold offsets. rewrite length_map, length_seq. lia.
Qed.

Definition sample_json : list json_attr :=
  [(str "id", str "integer", 3); (str "name", str "string", 2)].
Definition sample_values : list (cstr * byte) := [(str "042", COMMA); (str "ab", NEWLINE)].

Lemma schema_layout_witness : ∃ s, load_attrs sample_json 0 empty_schema = Ok s
    ∧ sum_lengths (attrs s) 0 = Ok (zlen (make_record sample_values))
    ∧ ∀ i v, sample_values !! i = Some v → ∃ a o, attrs s !! i = Some a ∧ data_offset s !! i = Some o
        ∧ slice o (length_ a) (make_record sample_values) = v.1
        ∧ 0 ≤ o ∧ o + length_ a < zlen (make_record sample_values)
        ∧ ∀ o', data_offset s !! S i = Some o' → o' = o + length_ a + 1.
Proof.
  apply (schema_layout sample_json sample_values).
  - repeat constructor; simpl; lia.
  - vm_compute. discriminate.
  - repeat constructor.
Defined.

(** [set_schema_sort_attr] on a comma-separated list of names appends, for each name
    in turn, the index of the first attribute of that name; if a name is no attribute's, the
    program exits with status 1. *)
Theorem sort_attrs_by_name s (names : list cstr)
  (Hnames : Forall (λ n, n ≠ [] ∧ (COMMA ∉ n) ∧ nul_free n) names) :
  (∀ is_, mapM (λ t, find_attr t 0 (attrs s)) names = Some is_ →
     set_schema_sort_attr s (join COMMA names)
       = Ok (MkSchema (attrs s) (sort_attrs s ++ is_) (data_offset s) (record_size s))
     ∧ Forall2 (λ t i, ∃ a, 0 ≤ i ∧ attrs s !! Z.to_nat i = Some a ∧ name a = t
                  ∧ Forall (λ b, name b ≠ t) (take (Z.to_nat i) (attrs s))) names is_)
  ∧ (Exists (λ t, Forall (λ a, name a ≠ t) (attrs s)) names →
     set_schema_sort_attr s (join COMMA names) = Err (Exit 1)).
Proof.
  unfold set_schema_sort_attr. rewrite strtok_all_join, sort_attr_loop_Ok by done. split.
  - intros is_ His. rewrite His. split; [done|]. apply mapM_Some in His.
    eapply Forall2_impl; [exact His|]. intros t i Hf%find_attr_some. rewrite Z.sub_0_r in Hf.
    destruct Hf as (? & a & ? & ? & ?). by exists a.
  - intros Hex. destruct (mapM _ names) as [is_|] eqn:E; [|done]. exfalso.
    apply mapM_Some in E. apply Exists_exists in Hex as (t & Ht & Hall).
    apply list_elem_of_lookup in Ht as [k Hk]. eapply Forall2_lookup_l in E as (i & _ & Hf); [|done].
    rewrite <-(find_attr_none t (attrs s) 0) in Hall. congruence.
Qed.

Lemma sort_attrs_by_name_witness :
  set_schema_sort_attr (json_schema sample_json []) (join COMMA [str "name"; str "id"])
    = Ok (json_schema sample_json [1; 0])
  ∧ set_schema_sort_attr (json_schema sample_json []) (join COMMA [str "name"; str "x"]) = Err (Exit 1).
Proof.
  split.
  - refine (proj1 (proj1 (sort_attrs_by_name (json_schema sample_json []) [str "name"; str "id"] _) _ _)).
    + repeat constructor; try done; apply (bool_decide_unpack _); vm_compute; exact I.
    + reflexivity.
  - refine (proj2 (sort_attrs_by_name (json_schema sample_json []) [str "name"; str "x"] _) _).
    + repeat constructor; try done; apply (bool_decide_unpack _); vm_compute; exact I.
    + apply Exists_cons_tl, Exists_cons_hd. repeat constructor; done.
Defined.
