(* ===== verification/MSort.v ===== *)
(** * External merge sort: [RunIterator], [mk_runs] of a2/library.cc and a2/msort.cc

    A temporary file is a [FILE] with its name; the program leaves both of them. What [main] prints on standard
    output is modelled, except what comes before a run that ends in an error of [res] ([exit] in a function it calls,
    a failed assertion, undefined behaviour). Opening files for writing succeeds; names that differ are names of
    different files. *)
From Stdlib Require Import Strings.String.
From S2P Require Import Prelude Buffers CLib Library.

#[local] Open Scope Z_scope.
#[local] Open Scope list_scope.

(** ** 64-bit [long] arithmetic *)

Definition to_long (z : Z) : Z := (z + 2^63) mod 2^64 - 2^63.

(** [atol], with a value that is not a [long] undefined. *)
Definition atol (s : cstr) : res Z := clong (atoi_val s).

(** The [n] records of [rs] bytes at the start of [bs]. *)
Definition recs_of (rs : Z) (n : nat) (bs : list byte) : list (list byte) :=
  map (λ i, slice (Z.of_nat i * rs) rs bs) (seq 0 n).

(** [fread(buf, size, n, fp)]: all the bytes read, the number of whole items, the stream. *)
Definition fread_items (size n : Z) (f : FILE) : list byte * Z * FILE :=
  if (size =? 0) || (n =? 0) then ([], 0, f)
  else let '(bs, f) := fread (size * n) f in (bs, zlen bs / size, f).

(** ** RunIterator *)

Record RunIterator := MkRun {
  start_pos : Z; run_length : Z; buf_size : Z; read_buf : list byte;
  pos : Z; buf_no : Z; rec_per_buf : Z }.

(** The constructor; [junk] is the memory [new char[buf_size]] gives. *)
Definition new_RunIterator (junk : list byte) (start_pos run_length buf_size : Z) (s : Schema)
    : res RunIterator :=
  _ ← defined (negb (record_size s =? 0));
  let rec_per_buf := to_long (u64 buf_size / record_size s) in
  if rec_per_buf <? 1 then Err (Exit 1)
  else mret (MkRun start_pos run_length buf_size (take (Z.to_nat buf_size) junk) 0 0 rec_per_buf).

Definition has_next (it : RunIterator) : bool := pos it <? run_length it.

(** Load the next buffer when the current one is used up. *)
Definition refill (input : FILE) (s : Schema) (it : RunIterator) : res RunIterator :=
  if Z.rem (pos it) (rec_per_buf it) =? 0 then
    a ← clong (buf_no it * rec_per_buf it);
    b ← clong (start_pos it + a);
    let offset := to_long (u64 (u64 b * record_size s)) in
    if offset <? 0 then Err (Exit 1)
    else
      let '(bs, _, _) := fread_items (record_size s) (rec_per_buf it) (fseek_set offset input) in
      buf ← write_bytes (read_buf it) 0 bs;
      n ← clong (buf_no it + 1);
      mret (MkRun (start_pos it) (run_length it) (buf_size it) buf (pos it) n (rec_per_buf it))
  else mret it.

(** The record is a pointer into [read_buf]: its offset there. *)
Definition next (input : FILE) (s : Schema) (it : RunIterator) : res (Z * RunIterator) :=
  it ← refill input s it;
  let data := u64 (u64 (Z.rem (pos it) (rec_per_buf it)) * record_size s) in
  p ← clong (pos it + 1);
  mret (data, MkRun (start_pos it) (run_length it) (buf_size it) (read_buf it) p
                (buf_no it) (rec_per_buf it)).

(** The bytes a record points at. *)
Definition rec_data (s : Schema) (it : RunIterator) (data : Z) : res (list byte) :=
  read_bytes (read_buf it) data (record_size s).

(** [write_records]: one round per record of the run. *)
Fixpoint write_records_loop (fuel : nat) (input : FILE) (s : Schema) (it : RunIterator) (out : FILE)
    : res FILE :=
  match fuel with
  | O => Err Diverge
  | S fuel =>
      if has_next it then
        '(d, it) ← next input s it;
        r ← rec_data s it d;
        write_records_loop fuel input s it (fwrite r out)
      else mret out
  end.

Definition write_records (input : FILE) (s : Schema) (it : RunIterator) (out : FILE) : res FILE :=
  write_records_loop (S (Z.to_nat (run_length it - pos it))) input s it out.

(** [merge_runs] has an empty body. *)
Definition merge_runs {A} (iterators : list RunIterator) (st : A) : A := st.

(** A stream on the file of that name. *)
Abbreviation stream := (cstr * FILE)%type.

(** ** Sorting

    [qsort], the order of the comparator and the strict comparison of records are
    parameters here; [Programs] below instantiates them. *)
Section sort.
Context (sort_recs : list (list byte) → res (list (list byte)))
  (less : list byte → list byte → res bool).

(** The loop of [mk_runs]: [num] records so far. Each round reads at least one record. *)
Fixpoint mk_runs_loop (fuel : nat) (in_fp out_fp : FILE) (run_length : Z) (s : Schema) (num : Z)
    : res (Z * FILE * FILE) :=
  match fuel with
  | O => Err Diverge
  | S fuel =>
      let '(bs, rd, in_fp) := fread_items (record_size s) run_length in_fp in
      if rd =? 0 then mret (num, in_fp, out_fp)
      else
        recs ← sort_recs (recs_of (record_size s) (Z.to_nat rd) bs);
        let out_fp := fwrite (concat recs) out_fp in
        let num := to_int (u64 (u64 num + rd)) in
        mk_runs_loop fuel in_fp out_fp run_length s num
  end.

Definition mk_runs (in_fp out_fp : FILE) (run_length : Z) (s : Schema) : res (Z * FILE * FILE) :=
  mk_runs_loop (S (length (fcontents in_fp))) in_fp out_fp run_length s 0.

(** *** kway_merge

    [buf[i]] is the record taken from iterator [i], or NULL. *)
Definition advance (input : FILE) (s : Schema) (it : RunIterator)
    : res (option Z * RunIterator) :=
  if has_next it then '(d, it) ← next input s it; mret (Some d, it) else mret (None, it).

Fixpoint fill_bufs (input : FILE) (s : Schema) (its : list RunIterator)
    : res (list (option Z * RunIterator)) :=
  match its with
  | [] => mret []
  | it :: its => l ← advance input s it; rest ← fill_bufs input s its; mret (l :: rest)
  end.

(** The loop over [i]: [min] is [(min_idx, *min_rec)]. *)
Fixpoint find_min (s : Schema) (i : nat) (lanes : list (option Z * RunIterator))
    (min : option (nat * list byte)) : res (option (nat * list byte)) :=
  match lanes with
  | [] => mret min
  | (None, _) :: lanes => find_min s (S i) lanes min
  | (Some d, it) :: lanes =>
      r ← rec_data s it d;
      smaller ← match min with None => mret true | Some (_, m) => less r m end;
      find_min s (S i) lanes (if (smaller : bool) then Some (i, r) else min)
  end.

Definition all_null (lanes : list (option Z * RunIterator)) : bool :=
  forallb (λ l, match l.1 with None => true | Some _ => false end) lanes.

Fixpoint merge_loop (fuel : nat) (input : FILE) (s : Schema)
    (lanes : list (option Z * RunIterator)) (fp : FILE) : res FILE :=
  match fuel with
  | O => Err Diverge
  | S fuel =>
      if all_null lanes then mret fp
      else
        min ← find_min s 0 lanes None;
        '(min_idx, r) ← of_option min;
        let fp := fwrite r fp in
        l ← of_option (lanes !! min_idx);
        l ← advance input s l.2;
        merge_loop fuel input s (<[min_idx := l]> lanes) fp
  end.

(** Each round writes one record of one of the runs. *)
Definition merge_fuel (its : list RunIterator) : nat :=
  S (sum_list_with (λ it, Z.to_nat (run_length it - pos it)) its).

Definition kway_merge (input : FILE) (s : Schema) (its : list RunIterator) (fp : FILE) : res FILE :=
  lanes ← fill_bufs input s its;
  merge_loop (merge_fuel its) input s lanes fp.

(** *** The passes of [main] *)

(** The iterators of the group at [offset]: the [i]th of [k] starts at [offset + i * n]. *)
Fixpoint make_iterators (junk : list byte) (j : nat) (i offset n unprocessed buf_size : Z) (s : Schema)
    : res (list RunIterator * Z) :=
  match j with
  | O => mret ([], unprocessed)
  | S j =>
      '(length, unprocessed) ←
        (if unprocessed <? n then _ ← defined (negb (n =? 0)); mret (Z.rem unprocessed n, n)
         else mret (n, unprocessed));
      a ← cint (i * n);
      st ← cint (offset + a);
      it ← new_RunIterator junk st length buf_size s;
      unprocessed ← clong (unprocessed - n);
      '(its, unprocessed) ← make_iterators junk j (i + 1) offset n unprocessed buf_size s;
      mret (it :: its, unprocessed)
  end.

(** One pass: groups of [k] runs of [n] records. *)
Fixpoint pass_loop (fuel : nat) (junk : list byte) (input out : FILE) (s : Schema)
    (num_records n k buf_size offset unprocessed : Z) : res FILE :=
  match fuel with
  | O => Err Diverge
  | S fuel =>
      if offset <? num_records then
        '(its, unprocessed) ← make_iterators junk (Z.to_nat k) 0 offset n unprocessed buf_size s;
        out ← kway_merge input s its out;
        nk ← cint (n * k);
        offset ← cint (offset + nk);
        pass_loop fuel junk input out s num_records n k buf_size offset unprocessed
      else mret out
  end.

(** What is printed before a pass. *)
Definition print_pass (pass n k run_length num_records : Z) : list byte :=
  str "Pass: " ++ dec_of_Z pass ++ str " n: " ++ dec_of_Z n ++ str " k: " ++ dec_of_Z k
  ++ str " runlength: " ++ dec_of_Z run_length ++ str " numrec: " ++ dec_of_Z num_records ++ [NEWLINE].

(** The loop over passes: [n] is the length of the sorted segments of [tmp_in]. Its length at
    least doubles, so an [int] allows no more than 32 rounds. The two streams are swapped after each pass. *)
Fixpoint merge_passes (fuel : nat) (junk : list byte) (tmp_in tmp_out : stream) (s : Schema)
    (run_length num_records n k buf_size pass : Z) (text : list byte) : res (list byte * stream * stream) :=
  match fuel with
  | O => Err Diverge
  | S fuel =>
      limit ← cint (num_records * k);
      if n <? limit then
        let text := text ++ print_pass pass n k run_length num_records in
        pass ← cint (pass + 1);
        out ← pass_loop (S (Z.to_nat num_records)) junk tmp_in.2 tmp_out.2 s num_records n k buf_size
                0 num_records;
        n ← cint (n * k);
        merge_passes fuel junk (tmp_out.1, rewind out) (tmp_in.1, rewind tmp_in.2) s run_length num_records n k buf_size pass text
      else mret (text, tmp_in, tmp_out)
  end.

Definition TMP_OUTPUT : cstr := str "/tmp/output".
Definition TMP_INPUT : cstr := str "/tmp/input".

(** [main] from the opened files on: what it prints, the stream with the sorted records, and the other one. *)
Definition msort (junk : list byte) (input : list byte) (mem_capacity k : Z) (s : Schema)
    : res (list byte * stream * stream) :=
  _ ← defined (negb (record_size s =? 0));
  let run_length := to_long (u64 mem_capacity / record_size s) in
  '(num_records, _, tmp_out) ← mk_runs (MkFILE input 0) (MkFILE [] 0) run_length s;
  k1 ← cint (k + 1);
  let buf_size := to_int (Z.quot mem_capacity k1) in
  merge_passes 64 junk (TMP_OUTPUT, tmp_out) (TMP_INPUT, MkFILE [] 0) s run_length num_records (to_int run_length) k buf_size 0 [].
End sort.

(** ** The program

    [qsort] applies a comparison function to an array of records; what the JSON
    parser makes of the schema file ([None] if there is none), a message or the attributes, is a parameter, as are the floats. *)

Definition print_attr (a : cstr * cstr * Z) : list byte :=
  str "{name : " ++ a.1.1 ++ str ", length : " ++ dec_of_Z a.2 ++ str ", type : " ++ a.1.2 ++ str "}" ++ [NEWLINE].

(** What the system says of an open file: its descriptor and how [printf] shows the address of its stream,
    by its name, and where a symbolic link leads. *)
Record Process := MkProcess { fileno : cstr → Z; address : cstr → list byte; readlink : cstr → option cstr }.

(** The link by which the name of an open file is found. *)
Definition proclnk (p : Process) (name : cstr) : cstr := str "/proc/self/fd/" ++ dec_of_Z (fileno p name).

Definition print_link (p : Process) (name filename : cstr) : list byte :=
  str "fp -> fno -> filename: " ++ address p name ++ str " -> " ++ dec_of_Z (fileno p name) ++ str " -> " ++ until_nul filename ++ [NEWLINE].

(** The end of [main]: the sorted file is found by its name, and copied after the output file was emptied. *)
Definition copy_output (p : Process) (tmp_in tmp_out : stream) (output_file : cstr) (text : list byte) (f : fs) : res outcome :=
  let f := fs_set tmp_in.1 (fcontents tmp_in.2) (fs_set tmp_out.1 (fcontents tmp_out.2) f) in
  match readlink p (proclnk p tmp_in.1) with
  | None => mret (MkOutcome 1 (text ++ str "failed to readlink" ++ [NEWLINE]) f)
  | Some link =>
      let filename := take 0xFFF link in
      _ ← defined (zlen filename <? 0xFFF);
      let f := fs_set output_file [] f in
      mret (MkOutcome 0 (text ++ print_link p tmp_in.1 filename) (fs_set output_file (default [] (f (until_nul filename))) f))
  end.

Definition msort_usage : list byte :=
  str "ERROR: invalid input parameters!" ++ [NEWLINE]
  ++ str "Please enter <schema_file> <input_file> <output_file> <mem_capacity> <k> <sorting_attributes>" ++ [NEWLINE].

Section program.
Context {F : Type} (atof : cstr → F) (flt : F → F → bool)
  (qsort : (list byte → list byte → res Z) → list (list byte) → res (list (list byte))).

(** The input is read after the temporary files were emptied, one of which it may be. *)
Definition msort_main (parse_json : option (list byte) → list byte + list (cstr * cstr * Z)) (p : Process)
    (stack_junk heap_junk : list byte) (argv : list cstr) (f : fs) : res outcome :=
  if zlen argv <? 7 then mret (MkOutcome 1 msort_usage f)
  else
    mem_capacity ← atol (arg argv 4);
    k ← atoi (arg argv 5);
    _ ← c_assert (0 <? mem_capacity);
    _ ← c_assert (1 <? k);
    match parse_json (f (arg argv 1)) with
    | inl message => mret (MkOutcome 1 (str "ERROR: " ++ message ++ [NEWLINE]) f)
    | inr l =>
        let text := concat (map print_attr l) in
        s ← load_attrs l 0 empty_schema;
        n ← sum_lengths (attrs s) 0;
        s ← set_schema_sort_attr (set_record_size n s) (arg argv 6);
        cmp ← new_RecordComparator s;
        match f (arg argv 2) with
        | None => mret (MkOutcome 1 text f)
        | Some _ =>
            let f := fs_set TMP_INPUT [] (fs_set TMP_OUTPUT [] f) in
            '(passes, tmp_in, tmp_out) ← msort (qsort (qsort_cmp atof flt cmp stack_junk)) (record_less atof flt cmp stack_junk)
                    heap_junk (default [] (f (arg argv 2))) mem_capacity k s;
            copy_output p tmp_in tmp_out (arg argv 3) (text ++ passes) f
        end
    end.
End program.
