(* ===== verification/MSortProps.v ===== *)
(** * External merge sort sorts

    [RunIterator] delivers the records of its run whatever the buffer size, and
    [kway_merge] writes a sorted permutation of the records of sorted runs.

    [mk_runs] makes sorted runs, each pass multiplies their length by [k], and [msort] ends
    with a sorted permutation of the input's records. *)
From Stdlib Require Import Sorted.
From S2P Require Import Prelude Buffers CLib Order Library SchemaProps MSort.

(** ** Merging lists *)

Section merges.
Context {X : Type} (c : X → X → Z) {Hc : CmpOrder c}.

Definition cmp_le (a b : X) : Prop := c a b ≤ 0.

(** [out] takes, again and again, a least head of the lists [ls]. *)
Inductive merges : list (list X) → list X → Prop :=
  | merges_done ls : Forall (λ l, l = []) ls → merges ls []
  | merges_step ls j r l out : ls !! j = Some (r :: l) →
      (∀ h t, h :: t ∈ ls → c r h ≤ 0) → merges (<[j := l]> ls) out → merges ls (r :: out).

Lemma concat_insert (ls : list (list X)) j r l : ls !! j = Some (r :: l) →
  concat ls ≡ₚ r :: concat (<[j := l]> ls).
Proof.
  revert j. induction ls as [|l0 ls IH]; intros [|j] Hj; simplify_eq/=; [done|].
  rewrite (IH j Hj). by rewrite Permutation_middle.
Qed.

Lemma merges_perm ls out : merges ls out → out ≡ₚ concat ls.
Proof.
  induction 1 as [ls H|ls j r l out Hj _ _ IH].
  - induction H as [|l ls -> _ IH]; done.
  - rewrite (concat_insert ls j r l Hj). by rewrite IH.
Qed.

Lemma sorted_tail_insert (ls : list (list X)) j r l : ls !! j = Some (r :: l) →
  Forall (StronglySorted cmp_le) ls → Forall (StronglySorted cmp_le) (<[j := l]> ls).
Proof.
  intros Hj H. apply Forall_insert; [done|]. rewrite Forall_lookup in H.
  specialize (H j _ Hj). by inversion H.
Qed.

(** A least head is below every record. *)
Lemma least_head_all (ls : list (list X)) r x : Forall (StronglySorted cmp_le) ls →
  (∀ h t, h :: t ∈ ls → c r h ≤ 0) → x ∈ concat ls → c r x ≤ 0.
Proof.
  intros Hs Hmin (l & Hl & Hx)%list_elem_of_In%in_concat.
  apply list_elem_of_In in Hl, Hx. destruct l as [|h t]; [by apply elem_of_nil in Hx|].
  pose proof (Hmin h t Hl) as Hh. apply elem_of_cons in Hx as [->|Hx]; [done|].
  rewrite Forall_forall in Hs. specialize (Hs _ Hl). inversion Hs as [|? ? _ Ht]; subst.
  rewrite Forall_forall in Ht. eapply (cmp_trans (c := c)); [exact Hh|]. by apply Ht.
Qed.

Lemma merges_sorted ls out : merges ls out → Forall (StronglySorted cmp_le) ls →
  StronglySorted cmp_le out.
Proof using Hc.
  induction 1 as [ls H|ls j r l out Hj Hmin Hm IH]; intros Hs; [constructor|].
  constructor; [by apply IH, (sorted_tail_insert ls j r)|].
  apply Forall_forall. intros x Hx. rewrite (merges_perm _ _ Hm) in Hx.
  apply (least_head_all ls r x Hs Hmin). rewrite (concat_insert ls j r l Hj). by right.
Qed.
End merges.

(** ** Arithmetic and streams *)

Lemma ceil_div p q : 0 < q → 0 ≤ p →
  (p + q - 1) / q = if decide (p mod q = 0) then p / q else p / q + 1.
Proof.
  intros Hq Hp. pose proof (Z.div_mod p q ltac:(lia)). pose proof (Z.mod_pos_bound p q ltac:(lia)).
  case_decide; symmetry.
  - apply (Z.div_unique_pos _ _ _ (q - 1)); nia.
  - apply (Z.div_unique_pos _ _ _ (p mod q - 1)); nia.
Qed.

Lemma ceil_div_next p q : 0 < q → 0 ≤ p → (p + 1 + q - 1) / q = p / q + 1.
Proof.
  intros Hq Hp. replace (p + 1 + q - 1) with (p + 1 * q) by lia. by rewrite Z.div_add by lia.
Qed.

(** Appending at the position where the file has been written. *)
Definition written_to (pre tail : list byte) : FILE := MkFILE (pre ++ tail) (zlen pre).

Lemma fwrite_written pre tail bs :
  fwrite bs (written_to pre tail) = written_to (pre ++ bs) (drop (length bs) tail).
Proof.
  unfold fwrite, written_to. cbn [fpos fcontents]. rewrite Nat2Z.id.
  replace (length pre - length (pre ++ tail))%nat with 0%nat by (rewrite length_app; lia).
  simpl. rewrite app_nil_r, take_app_length, <-app_assoc.
  rewrite <-drop_drop, drop_app_length. f_equal. rewrite length_app. lia.
Qed.

(** ** RunIterator *)

Section run.
Context (s : Schema) (inp : list byte).
Local Abbreviation rs := (record_size s).
Context (Hrs : 1 ≤ rs) (Hinp : zlen inp ≤ int_max).

(** Record number [i] of the file. *)
Definition rec_i (i : Z) : list byte := slice (i * rs) rs inp.

Record run_ok (it : RunIterator) : Prop := MkRunOk {
  ro_start : 0 ≤ start_pos it ≤ int_max;
  ro_pos : 0 ≤ pos it ≤ run_length it;
  ro_fits : 0 < run_length it → (start_pos it + run_length it) * rs ≤ zlen inp;
  ro_rpb : 1 ≤ rec_per_buf it ≤ int_max;
  ro_buf : rec_per_buf it * rs ≤ zlen (read_buf it);
  ro_max : zlen (read_buf it) ≤ int_max;
  ro_no : buf_no it = (pos it + rec_per_buf it - 1) / rec_per_buf it;
  ro_data : pos it mod rec_per_buf it ≠ 0 → ∀ j, 0 ≤ j < rec_per_buf it →
    (buf_no it - 1) * rec_per_buf it + j < run_length it →
    slice (j * rs) rs (read_buf it) = rec_i (start_pos it + (buf_no it - 1) * rec_per_buf it + j) }.

(** The records still to come. *)
Definition run_rest (it : RunIterator) : list (list byte) :=
  map rec_i (seqZ (start_pos it + pos it) (run_length it - pos it)).

Lemma run_rest_end it : run_length it ≤ pos it → run_rest it = [].
Proof. intros H. unfold run_rest. by rewrite seqZ_nil by lia. Qed.

Lemma run_rest_next it : pos it < run_length it →
  run_rest it = rec_i (start_pos it + pos it)
    :: map rec_i (seqZ (start_pos it + (pos it + 1)) (run_length it - (pos it + 1))).
Proof.
  intros H. unfold run_rest. rewrite seqZ_cons by lia. simpl. f_equal. f_equal. f_equal; lia.
Qed.

(** After [refill] the buffer holds the block of [pos]. *)
Lemma refill_Ok fpos0 it : run_ok it → pos it < run_length it →
  ∃ buf, refill (MkFILE inp fpos0) s it
    = Ok (MkRun (start_pos it) (run_length it) (buf_size it) buf (pos it)
            (pos it / rec_per_buf it + 1) (rec_per_buf it))
    ∧ zlen buf = zlen (read_buf it)
    ∧ ∀ j, 0 ≤ j < rec_per_buf it → pos it / rec_per_buf it * rec_per_buf it + j < run_length it →
        slice (j * rs) rs buf = rec_i (start_pos it + pos it / rec_per_buf it * rec_per_buf it + j).
Proof.
  intros [] Hlt. unfold refill.
  set (q := rec_per_buf it) in *. set (p := pos it) in *. set (st := start_pos it) in *.
  pose proof (Z.div_mod p q ltac:(lia)) as Hdm. pose proof (Z.mod_pos_bound p q ltac:(lia)).
  assert (0 ≤ p / q) by (apply Z.div_pos; lia).
  rewrite Z.rem_mod_nonneg by lia. rewrite ceil_div in ro_no0 by lia.
  assert (0 < run_length it) as Hpos by lia. specialize (ro_fits0 Hpos).
  assert (run_length it ≤ zlen inp) by nia. assert (p / q * q ≤ p) by lia.
  destruct (Z.eqb_spec (p mod q) 0) as [Hz|Hz].
  - rewrite decide_True in ro_no0 by done. rewrite ro_no0.
    rewrite (clong_ok (p / q * q)) by (unfold int_max in *; lia). cbn [mbind res_bind].
    rewrite (clong_ok (st + p / q * q)) by (unfold int_max in *; lia). cbn [mbind res_bind].
    assert (0 ≤ (st + p / q * q) * rs ≤ int_max) as Hoff by nia.
    assert (0 ≤ st + p / q * q ≤ int_max) as Hst by (unfold int_max in *; nia).
    rewrite (u64_small (st + p / q * q)) by (unfold int_max in *; lia).
    rewrite (u64_small (_ * rs)) by (unfold int_max in *; lia).
    assert (to_long ((st + p / q * q) * rs) = (st + p / q * q) * rs) as ->.
    { unfold to_long. rewrite Z.mod_small; unfold int_max in *; lia. }
    set (off := (st + p / q * q) * rs) in *.
    replace (off <? 0) with false by lia. rewrite fseek_set_nonneg by lia.
    unfold fread_items. replace ((rs =? 0) || (q =? 0)) with false by lia.
    unfold fread. cbn [fcontents MSort.pos fpos].
    set (bs := slice off (rs * q) inp).
    assert (zlen bs ≤ rs * q) as Hbl by (unfold bs, slice; rewrite length_take; nia).
    rewrite write_bytes_Ok by lia. cbn [mbind res_bind].
    rewrite (clong_ok (p / q + 1)) by (unfold int_max in *; nia). cbn [mbind res_bind].
    eexists. split; [done|]. split; [rewrite length_splice; lia|].
    intros j Hj Hjr. unfold rec_i.
    assert ((st + p / q * q + j) * rs + rs ≤ zlen inp) by nia.
    assert (bs = slice off (rs * q) inp) as Hbs by done.
    assert (j * rs + rs ≤ zlen bs) as Hjb.
    { unfold bs, slice. rewrite length_take, length_drop. nia. }
    transitivity (slice (j * rs) rs bs).
    + unfold slice, splice. simpl. rewrite drop_app_le, take_app_le by (rewrite ?length_drop; nia).
      done.
    + unfold bs. rewrite slice_slice by nia. f_equal. unfold off. lia.
  - rewrite decide_False in ro_no0 by done. exists (read_buf it).
    split; [rewrite <-ro_no0; by destruct it|]. split; [done|].
    intros j Hj Hjr. rewrite ro_no0 in ro_data0.
    replace (p / q + 1 - 1) with (p / q) in ro_data0 by lia. by apply ro_data0.
Qed.

Lemma slice_rec_len i : 0 ≤ i → (i + 1) * rs ≤ zlen inp → zlen (rec_i i) = rs.
Proof. intros. unfold rec_i. apply length_slice; lia. Qed.

(** [next] delivers the next record of the run. *)
Lemma next_Ok fpos0 it : run_ok it → pos it < run_length it →
  ∃ d it', next (MkFILE inp fpos0) s it = Ok (d, it') ∧ run_ok it'
    ∧ rec_data s it' d = Ok (rec_i (start_pos it + pos it))
    ∧ run_rest it = rec_i (start_pos it + pos it) :: run_rest it'
    ∧ run_length it' = run_length it ∧ pos it' = pos it + 1.
Proof.
  intros Hok Hlt. destruct (refill_Ok fpos0 it Hok Hlt) as (buf & Hr & Hlen & Hbuf).
  rewrite (run_rest_next it Hlt). destruct Hok.
  set (q := rec_per_buf it) in *. set (p := pos it) in *. set (st := start_pos it) in *.
  pose proof (Z.div_mod p q ltac:(lia)) as Hdm. pose proof (Z.mod_pos_bound p q ltac:(lia)).
  assert (0 ≤ p / q) by (apply Z.div_pos; lia).
  assert (0 ≤ p mod q * rs ≤ int_max) by nia.
  assert (p + 1 ≤ zlen inp) by nia. assert (p mod q * rs + rs ≤ zlen buf) by nia.
  unfold next. rewrite Hr. cbn [mbind res_bind MSort.pos rec_per_buf read_buf].
  rewrite Z.rem_mod_nonneg by lia. rewrite (u64_small (p mod q)) by (unfold int_max in *; nia).
  rewrite u64_small by (unfold int_max in *; lia).
  rewrite clong_ok by (unfold int_max in *; lia). cbn [mbind res_bind].
  eexists _, _. split; [reflexivity|]. split_and!; try done.
  - split; cbn [start_pos MSort.pos run_length rec_per_buf read_buf buf_no]; fold q p st; try lia.
    + rewrite ceil_div_next by lia. done.
    + intros _ j Hj Hjr. replace (p / q + 1 - 1) with (p / q) in * by lia. by apply Hbuf.
  - unfold rec_data. cbn [read_buf]. rewrite read_bytes_Ok by lia.
    f_equal. rewrite Hbuf by lia. f_equal. lia.
Qed.

Lemma new_run_Ok junk st len bsz : 0 ≤ st ≤ int_max → 0 ≤ len → rs ≤ bsz ≤ int_max →
  bsz ≤ zlen junk → (0 < len → (st + len) * rs ≤ zlen inp) →
  ∃ it, new_RunIterator junk st len bsz s = Ok it ∧ run_ok it ∧ run_length it = len ∧ pos it = 0
    ∧ run_rest it = map rec_i (seqZ st len).
Proof.
  intros Hst Hlen Hb Hj Hfit. unfold new_RunIterator.
  rewrite defined_true by lia. cbn [mbind res_bind]. rewrite u64_small by (unfold int_max in *; lia).
  assert (1 ≤ bsz / rs ∧ bsz / rs * rs ≤ bsz) as [Hq1 Hq2].
  { pose proof (Z.div_mod bsz rs ltac:(lia)). pose proof (Z.mod_pos_bound bsz rs ltac:(lia)).
    assert (1 ≤ bsz / rs) by (apply Z.div_le_lower_bound; lia). lia. }
  assert (bsz / rs ≤ int_max) by nia.
  assert (to_long (bsz / rs) = bsz / rs) as ->.
  { unfold to_long. rewrite Z.mod_small; unfold int_max in *; lia. }
  replace (bsz / rs <? 1) with false by lia. eexists. split; [reflexivity|].
  assert (zlen (take (Z.to_nat bsz) junk) = bsz) as Hl by (rewrite length_take; lia).
  split_and!; [|done|done|unfold run_rest; cbn; by rewrite Z.add_0_r, Z.sub_0_r].
  split; cbn [start_pos pos run_length rec_per_buf read_buf buf_no]; try lia.
  - rewrite Z.div_small by lia. done.
  - rewrite Z.mod_0_l by lia. done.
Qed.

(** *** write_records copies a run *)

Lemma write_records_Ok fpos0 n : ∀ it pre tail, run_ok it → Z.to_nat (run_length it - pos it) = n →
  ∀ fuel, (n < fuel)%nat →
  write_records_loop fuel (MkFILE inp fpos0) s it (written_to pre tail)
    = Ok (written_to (pre ++ concat (run_rest it)) (drop (length (concat (run_rest it))) tail)).
Proof.
  induction n as [|n IH]; intros it pre tail Hok Hn [|fuel] Hf; try lia; cbn [write_records_loop];
    unfold has_next.
  - replace (pos it <? run_length it) with false by lia. rewrite run_rest_end by lia.
    simpl. by rewrite app_nil_r.
  - replace (pos it <? run_length it) with true by lia.
    destruct (next_Ok fpos0 it Hok ltac:(lia)) as (d & it' & -> & Hok' & Hd & Hrest & Hl & Hp).
    cbn [mbind res_bind]. rewrite Hd. cbn [mbind res_bind]. rewrite fwrite_written.
    rewrite IH by (done || lia). rewrite Hrest. cbn [concat].
    by rewrite <-app_assoc, length_app, drop_drop.
Qed.

(** ** kway_merge *)

Context (good : list byte → Prop) (c : list byte → list byte → Z)
  (less : list byte → list byte → res bool)
  (Hless : ∀ a b, good a → good b → less a b = Ok (c a b <? 0)).

(** What a lane still has to give: the record taken and the rest of its run. *)
Definition lane_ok (l : option Z * RunIterator) (recs : list (list byte)) : Prop :=
  run_ok l.2 ∧
  match l.1 with
  | None => recs = []
  | Some d => ∃ r, recs = r :: run_rest l.2 ∧ rec_data s l.2 d = Ok r
  end.

Lemma advance_Ok fpos0 it : run_ok it →
  ∃ l, advance (MkFILE inp fpos0) s it = Ok l ∧ lane_ok l (run_rest it).
Proof.
  intros Hok. unfold advance, has_next. destruct (Z.ltb_spec (pos it) (run_length it)) as [Hlt|Hge].
  - destruct (next_Ok fpos0 it Hok Hlt) as (d & it' & -> & Hok' & Hd & Hrest & _).
    eexists. split; [reflexivity|]. split; [done|]. by exists (rec_i (start_pos it + pos it)).
  - eexists. split; [reflexivity|]. split; [done|]. by apply run_rest_end.
Qed.

Lemma fill_bufs_Ok fpos0 its : Forall run_ok its →
  ∃ lanes, fill_bufs (MkFILE inp fpos0) s its = Ok lanes ∧ Forall2 lane_ok lanes (map run_rest its).
Proof.
  induction 1 as [|it its Hit _ (lanes & IH & Hl)]; [by exists []|].
  destruct (advance_Ok fpos0 it Hit) as (l & Hadv & Hok). exists (l :: lanes).
  split; [|by constructor]. cbn [fill_bufs]. rewrite Hadv. cbn [mbind res_bind]. by rewrite IH.
Qed.

Lemma all_null_spec lanes ls : Forall2 lane_ok lanes ls →
  all_null lanes = bool_decide (Forall (λ l, l = []) ls).
Proof.
  intros H. induction H as [|[b it] l lanes ls [_ Hl] _ IH]; [done|]. simpl in *. rewrite IH.
  destruct b as [d|].
  - destruct Hl as (r & -> & _). symmetry. apply bool_decide_false. by inversion 1.
  - subst l. simpl. apply bool_decide_ext. rewrite Forall_cons. tauto.
Qed.

(** [find_min]: the answer is [min] or a head of a lane, and no head is smaller. *)
Lemma find_min_Ok {Hc : CmpOrder c} lanes ls : Forall2 lane_ok lanes ls →
  Forall (Forall good) ls → ∀ i min,
  (∀ j m, min = Some (j, m) → good m) →
  ∃ res, find_min less s i lanes min = Ok res
    ∧ (res = min ∨ ∃ k r t, res = Some ((i + k)%nat, r) ∧ ls !! k = Some (r :: t))
    ∧ (∀ h t, h :: t ∈ ls → ∃ j r, res = Some (j, r) ∧ c r h ≤ 0)
    ∧ (∀ j m, min = Some (j, m) → ∃ j' r, res = Some (j', r) ∧ c r m ≤ 0).
Proof.
  intros H. induction H as [|[b it] l lanes ls [_ Hl] _ IH]; intros Hg i min Hmin.
  { exists min. split_and!; [done|by left|by intros ? ? ?%elem_of_nil|].
    intros j m E. exists j, m. split; [done|]. by rewrite cmp_refl. }
  apply Forall_cons in Hg as [Hgl Hg]. simpl in Hl. destruct b as [d|].
  - destruct Hl as (r & -> & Hd). cbn [find_min]. rewrite Hd. cbn [mbind res_bind].
    apply Forall_cons in Hgl as [Hgr _].
    assert (∃ sm, (match min with None => mret true | Some (_, m) => less r m end) = Ok sm
      ∧ sm = match min with None => true | Some (_, m) => c r m <? 0 end) as (sm & -> & Hsm).
    { destruct min as [[j m]|]; [|by eexists]. exists (c r m <? 0). split; [|done].
      apply Hless; [done|by eapply Hmin]. }
    cbn [mbind res_bind].
    destruct (IH Hg (S i) (if sm then Some (i, r) else min)) as (res & Hres & Hfrom & Hheads & Hold).
    { destruct sm; [by intros j m [= <- <-]|done]. }
    assert (∃ j' r', res = Some (j', r') ∧ c r' r ≤ 0
      ∧ ∀ j m, min = Some (j, m) → c r' m ≤ 0) as (j' & r' & -> & Hrr & Hrm).
    { destruct sm.
      - destruct (Hold i r eq_refl) as (j' & r' & -> & Hle). exists j', r'. split_and!; [done|done|].
        intros j m ->. eapply cmp_trans; [exact Hle|]. lia.
      - destruct min as [[j m]|]; [|done]. destruct (Hold j m eq_refl) as (j' & r' & -> & Hle).
        exists j', r'. split_and!; [done| |by intros ? ? [= <- <-]].
        eapply cmp_trans; [exact Hle|]. pose proof (cmp_flip c r m). pose proof (cmp_anti (c := c) r m). lia. }
    exists (Some (j', r')). split_and!; [done|..].
    + destruct Hfrom as [Hf|(k & r0 & t & Hf & Hk)].
      * destruct sm; [|by left]. injection Hf as -> ->. right. exists 0%nat, r, (run_rest it).
        split; [|done]. f_equal. f_equal. lia.
      * right. exists (S k), r0, t. split; [|done]. rewrite Hf. f_equal. f_equal. lia.
    + intros h t [[= -> ->]|Hin]%elem_of_cons; [by exists j', r'|by eapply Hheads].
    + intros j m E. exists j', r'. split; [done|]. by eapply Hrm.
  - subst l. cbn [find_min]. destruct (IH Hg (S i) min Hmin) as (res & -> & Hfrom & Hheads & Hold).
    exists res. split_and!; [done| | |done].
    + destruct Hfrom as [->|(k & r0 & t & -> & Hk)]; [by left|]. right. exists (S k), r0, t.
      split; [|done]. f_equal. f_equal. lia.
    + intros h t [[=]|Hin]%elem_of_cons. by eapply Hheads.
Qed.

Lemma merge_loop_Ok {Hc : CmpOrder c} fpos0 n : ∀ lanes ls pre tail, Forall2 lane_ok lanes ls →
  Forall (Forall good) ls → length (concat ls) = n → ∀ fuel, (n < fuel)%nat →
  ∃ out, merge_loop less fuel (MkFILE inp fpos0) s lanes (written_to pre tail)
      = Ok (written_to (pre ++ concat out) (drop (length (concat out)) tail))
    ∧ merges c ls out.
Proof.
  induction n as [|n IH]; intros lanes ls pre tail Hl Hg Hn [|fuel] Hf; try lia; cbn [merge_loop];
    rewrite (all_null_spec lanes ls Hl).
  - assert (Forall (λ l, l = []) ls) as Hnil.
    { apply Forall_forall. intros l Hin. destruct l as [|x l]; [done|]. exfalso.
      apply list_elem_of_lookup in Hin as [j Hj]. apply length_zero_iff_nil in Hn.
      pose proof (concat_insert ls j x l Hj) as Hp. rewrite Hn in Hp.
      by apply Permutation_nil_cons in Hp. }
    rewrite bool_decide_true by done. exists []. simpl. rewrite app_nil_r. by split; [|constructor].
  - destruct (bool_decide_reflect (Forall (λ l : list (list byte), l = []) ls)) as [Hall|Hne].
    { exfalso. assert (concat ls = []) as E; [|by rewrite E in Hn].
      clear -Hall. induction Hall as [|l ls -> _ IH]; done. }
    destruct (find_min_Ok lanes ls Hl Hg 0 None) as (res & Hmin & Hfrom & Hheads & _); [done|].
    assert (∃ h t, h :: t ∈ ls) as (h & t & Hht).
    { apply not_Forall_Exists in Hne; [|intros []; [by left|by right]].
      apply Exists_exists in Hne as (l & Hin & Hl'). destruct l as [|h t]; [by destruct Hl'|by exists h, t]. }
    destruct (Hheads h t Hht) as (j0 & r0 & -> & _).
    destruct Hfrom as [[=]|(j & r & t' & [= -> ->] & Hj)].
    rewrite Hmin. cbn [mbind res_bind of_option]. rewrite fwrite_written. simpl (0 + j)%nat.
    destruct (Forall2_lookup_r _ _ _ _ _ Hl Hj) as ([b it] & Hlj & [Hit Hb]). simpl in Hit, Hb.
    rewrite Hlj. cbn [mbind res_bind of_option snd].
    destruct b as [d|]; [|done]. destruct Hb as (r' & [= <- ->] & Hd).
    destruct (advance_Ok fpos0 it Hit) as (l' & -> & Hl'). cbn [mbind res_bind].
    pose proof (concat_insert ls j r _ Hj) as Hp.
    destruct (IH (<[j := l']> lanes) (<[j := run_rest it]> ls) (pre ++ r) (drop (length r) tail))
      with (fuel := fuel) as (out & Hrun & Hm).
    { by apply Forall2_insert. }
    { apply Forall_insert; [done|]. rewrite Forall_lookup in Hg. specialize (Hg j _ Hj).
      by apply Forall_cons in Hg as [_ ?]. }
    { apply Permutation_length in Hp. simpl in Hp. lia. }
    { lia. }
    exists (r :: out). split.
    + rewrite Hrun. simpl. by rewrite <-app_assoc, length_app, drop_drop.
    + eapply merges_step; [exact Hj| |exact Hm]. intros h' t'' Hin.
      destruct (Hheads h' t'' Hin) as (j' & r'' & [= <- <-] & Hle). done.
Qed.

Lemma merge_fuel_rest its : length (concat (map run_rest its))
  = sum_list_with (λ it, Z.to_nat (run_length it - pos it)) its.
Proof.
  induction its as [|it its IH]; [done|]. simpl. rewrite length_app, IH.
  unfold run_rest. by rewrite length_map, length_seqZ.
Qed.

(** [kway_merge] merges the rests of its runs into the file at its position. *)
Lemma kway_merge_Ok {Hc : CmpOrder c} fpos0 its pre tail : Forall run_ok its →
  Forall (Forall good) (map run_rest its) →
  ∃ out, kway_merge less (MkFILE inp fpos0) s its (written_to pre tail)
      = Ok (written_to (pre ++ concat out) (drop (length (concat out)) tail))
    ∧ merges c (map run_rest its) out.
Proof.
  intros Hits Hg. destruct (fill_bufs_Ok fpos0 its Hits) as (lanes & Hfill & Hl).
  destruct (merge_loop_Ok fpos0 _ lanes _ pre tail Hl Hg eq_refl (merge_fuel its)) as (out & Hrun & Hm).
  { unfold merge_fuel. rewrite merge_fuel_rest. lia. }
  exists out. split; [|done]. unfold kway_merge. rewrite Hfill. exact Hrun.
Qed.
End run.

(** * External merge sort sorts *)

(** ** Files of records *)

Section files.
Context (rs : Z) (Hrs : 1 ≤ rs).

Definition sized (l : list (list byte)) : Prop := Forall (λ r, zlen r = rs) l.

#[export] Instance sized_proper : Proper (Permutation ==> iff) sized.
Proof. intros l l' Hp. unfold sized. by rewrite Hp. Qed.

Lemma length_concat l : sized l → zlen (concat l) = rs * zlen l.
Proof. induction 1 as [|r l Hr _ IH]; simpl; [lia|]. rewrite length_app. lia. Qed.

Lemma sized_take n l : sized l → sized (take n l).
Proof. apply Forall_take. Qed.

Lemma sized_drop n l : sized l → sized (drop n l).
Proof. apply Forall_drop. Qed.

Lemma concat_drop n l : sized l → drop (Z.to_nat (rs * Z.of_nat n)) (concat l) = concat (drop n l).
Proof.
  intros Hl. revert n. induction Hl as [|r l Hr _ IH]; intros n; [simpl; by rewrite !drop_nil|].
  destruct n as [|n]; [by replace (rs * Z.of_nat 0) with 0 by lia|]. cbn [concat drop take].
  rewrite <-IH. replace (Z.to_nat (rs * Z.of_nat (S n))) with (length r + Z.to_nat (rs * Z.of_nat n))%nat by lia.
  by rewrite <-drop_drop, drop_app_length.
Qed.

Lemma concat_take n l : sized l → take (Z.to_nat (rs * Z.of_nat n)) (concat l) = concat (take n l).
Proof.
  intros Hl. revert n. induction Hl as [|r l Hr _ IH]; intros n; [simpl; by rewrite !take_nil|].
  destruct n as [|n]; [by replace (rs * Z.of_nat 0) with 0 by lia|]. cbn [concat drop take].
  rewrite <-IH. replace (Z.to_nat (rs * Z.of_nat (S n))) with (length r + Z.to_nat (rs * Z.of_nat n))%nat by lia.
  by rewrite take_app_add.
Qed.

Lemma slice_concat i r l : sized l → l !! i = Some r → slice (Z.of_nat i * rs) rs (concat l) = r.
Proof.
  intros Hl Hi. unfold slice. rewrite Z.mul_comm, concat_drop by done. rewrite (drop_S _ _ _ Hi). simpl.
  unfold sized in Hl. rewrite Forall_lookup in Hl. specialize (Hl i r Hi).
  rewrite take_app_le by lia. apply firstn_all2. lia.
Qed.

Lemma recs_of_concat l : sized l → recs_of rs (length l) (concat l) = l.
Proof.
  intros Hl. unfold recs_of. apply list_eq. intros i. rewrite list_lookup_fmap.
  destruct (l !! i) as [r|] eqn:Hi.
  - rewrite lookup_seq_lt by (by eapply lookup_lt_Some). simpl. f_equal. by apply slice_concat.
  - rewrite lookup_seq_ge; [done|]. by apply lookup_ge_None.
Qed.
End files.

(** ** Sorted segments *)

Section segs.
Context {X : Type} (c : X → X → Z) {Hc : CmpOrder c}.

Definition segs (n : nat) (l : list X) : Prop :=
  ∀ i, StronglySorted (cmp_le c) (take n (drop (i * n) l)).

Lemma segs_nil n : segs n [].
Proof. intros i. rewrite drop_nil, take_nil. constructor. Qed.

(** Adding a sorted segment at a multiple of [n]. *)
Lemma segs_app n q l g : length l = (q * n)%nat → (length g ≤ n)%nat → segs n l →
  StronglySorted (cmp_le c) g → segs n (l ++ g).
Proof.
  intros Hl Hg Hs Hsg i. destruct (decide (i < q)%nat) as [Hi|Hi].
  - assert (i * n + n ≤ q * n)%nat by nia.
    rewrite drop_app_le by lia. rewrite take_app_le by (rewrite length_drop; lia). apply Hs.
  - assert (q * n ≤ i * n)%nat by nia. rewrite drop_app_ge by lia. rewrite Hl.
    destruct (decide (i = q)) as [->|].
    + rewrite Nat.sub_diag. change (drop 0 g) with g. by rewrite (take_ge g n).
    + assert (q * n + n ≤ i * n)%nat by nia. rewrite drop_ge by lia. rewrite take_nil. constructor.
Qed.

Lemma segs_whole n l : (length l ≤ n)%nat → segs n l → StronglySorted (cmp_le c) l.
Proof. intros Hl Hs. specialize (Hs 0%nat). by rewrite Nat.mul_0_l, drop_0, take_ge in Hs by lia. Qed.

(** The [k] segments after [o] make up [k * n] elements. *)
Lemma concat_segments n k o (l : list X) :
  concat (map (λ t, take n (drop (o + t * n) l)) (seq 0 k)) = take (k * n) (drop o l).
Proof.
  revert o. induction k as [|k IH]; intros o; [done|]. cbn [seq map concat].
  rewrite Nat.mul_0_l, Nat.add_0_r, <-seq_shift, map_map.
  rewrite (map_ext _ (λ t, take n (drop ((o + n) + t * n) l))).
  - rewrite IH. cbn [Nat.mul]. rewrite <-drop_drop. generalize (drop o l) as m. intros m.
    rewrite <-(take_drop n (take (n + k * n) m)). rewrite take_take, Nat.min_l by lia. f_equal.
    rewrite skipn_firstn_comm. f_equal. lia.
  - intros t. f_equal. f_equal. lia.
Qed.
End segs.

(** ** mk_runs and the passes *)

Section msort.
Context (s : Schema) (c : list byte → list byte → Z) {Hc : CmpOrder c}
  (good : list byte → Prop) (less : list byte → list byte → res bool)
  (sort_recs : list (list byte) → res (list (list byte))).
Local Abbreviation rs := (record_size s).
Context (Hrs : 1 ≤ rs).
Context (Hgood : ∀ r, good r → zlen r = rs).
Context (Hless : ∀ a b, good a → good b → less a b = Ok (c a b <? 0)).
Context (Hsort : ∀ l, Forall good l → ∃ l', sort_recs l = Ok l' ∧ l' ≡ₚ l
  ∧ StronglySorted (cmp_le c) l').

Lemma good_sized l : Forall good l → sized rs l.
Proof. intros H. eapply Forall_impl; [exact H|done]. Qed.

Lemma good_perm l l' : l' ≡ₚ l → Forall good l → Forall good l'.
Proof. intros Hp H. by rewrite Hp. Qed.

(** [fread] of [n] records from position [zlen (concat done)]. *)
Lemma fread_records done_ rest n : sized rs done_ → sized rs rest → 1 ≤ n →
  rs * n ≤ int_max →
  fread_items rs n (MkFILE (concat (done_ ++ rest)) (zlen (concat done_)))
    = (concat (take (Z.to_nat n) rest), zlen (take (Z.to_nat n) rest),
       MkFILE (concat (done_ ++ rest)) (zlen (concat (done_ ++ take (Z.to_nat n) rest)))).
Proof.
  intros Hd Hr Hn Hmax. unfold fread_items. replace ((rs =? 0) || (n =? 0)) with false by lia.
  unfold fread. cbn [fpos fcontents].
  assert (slice (zlen (concat done_)) (rs * n) (concat (done_ ++ rest)) = concat (take (Z.to_nat n) rest)) as ->.
  { unfold slice. rewrite concat_app, Nat2Z.id, drop_app_length.
    rewrite <-(concat_take rs) by done. f_equal. f_equal. lia. }
  rewrite (length_concat rs) by (by apply sized_take).
  rewrite Z.mul_comm, Z.div_mul by lia. do 2 f_equal.
  rewrite concat_app, length_app, Nat2Z.inj_add. f_equal.
  rewrite (length_concat rs) by (by apply sized_take). lia.
Qed.

Lemma mk_runs_loop_Ok rl : 1 ≤ rl → rs * rl ≤ int_max → ∀ fuel q done_ rest outr,
  Forall good (done_ ++ rest) → zlen (done_ ++ rest) ≤ int_max → outr ≡ₚ done_ →
  segs c (Z.to_nat rl) outr → (rest = [] ∨ length outr = (q * Z.to_nat rl)%nat) →
  (length rest < fuel)%nat →
  ∃ f outr', mk_runs_loop sort_recs fuel
      (MkFILE (concat (done_ ++ rest)) (zlen (concat done_))) (written_to (concat outr) []) rl s (zlen done_)
    = Ok (zlen (done_ ++ rest), f, written_to (concat outr') [])
    ∧ outr' ≡ₚ done_ ++ rest ∧ segs c (Z.to_nat rl) outr'.
Proof.
  intros Hrl Hmax. induction fuel as [|fuel IH]; intros q done_ rest outr Hg Hlen Hp Hs Hq Hf; [lia|].
  cbn [mk_runs_loop]. pose proof Hg as Hg'. apply Forall_app in Hg' as [Hgd Hgr].
  rewrite (fread_records done_ rest rl) by (done || by apply good_sized).
  set (chunk := take (Z.to_nat rl) rest).
  destruct (Z.eqb_spec (zlen chunk) 0) as [Hz|Hz].
  - assert (rest = []) as ->.
    { destruct rest as [|r rest]; [done|]. unfold chunk in Hz. rewrite length_take in Hz. simpl in Hz. lia. }
    rewrite app_nil_r in *. by eexists _, outr.
  - assert (Forall good chunk) as Hgc by (by apply Forall_take).
    assert (recs_of rs (Z.to_nat (zlen chunk)) (concat chunk) = chunk) as ->.
    { rewrite Nat2Z.id. by apply recs_of_concat, good_sized. }
    destruct (Hsort chunk Hgc) as (sorted & -> & Hps & Hss). cbn [mbind res_bind].
    rewrite fwrite_written, drop_nil, <-concat_app.
    rewrite length_app in Hlen.
    assert (zlen chunk ≤ zlen rest) by (unfold chunk; rewrite length_take; lia).
    assert (to_int (u64 (u64 (zlen done_) + zlen chunk)) = zlen (done_ ++ chunk)) as ->.
    { rewrite (u64_small (zlen done_)) by (unfold int_max in *; lia).
      rewrite u64_small by (unfold int_max in *; lia).
      rewrite to_int_small by (unfold int_min, int_max in *; lia). rewrite length_app. lia. }
    assert (done_ ++ rest = (done_ ++ chunk) ++ drop (Z.to_nat rl) rest) as E
      by (unfold chunk; by rewrite <-app_assoc, take_drop).
    rewrite E. destruct (IH (S q) (done_ ++ chunk) (drop (Z.to_nat rl) rest) (outr ++ sorted))
      as (f & outr' & Hrun & Hp' & Hs').
    + by rewrite <-E.
    + rewrite <-E, length_app. done.
    + by rewrite Hp, Hps.
    + destruct Hq as [->|Hq]; [unfold chunk in Hz; by rewrite take_nil in Hz|].
      apply (segs_app c _ q); [done|..]; [|done|done].
      rewrite Hps. unfold chunk. rewrite length_take. lia.
    + destruct Hq as [->|Hq]; [unfold chunk in Hz; by rewrite take_nil in Hz|].
      destruct (decide (length rest ≤ Z.to_nat rl)%nat); [left; by apply drop_ge|right].
      rewrite length_app, Hq, Hps. unfold chunk. rewrite length_take. lia.
    + rewrite length_drop. destruct rest; simpl in *; lia.
    + exists f, outr'. by rewrite Hrun.
Qed.

(** ** One pass *)

Lemma take_grows {A} (l done next : list A) g m : done ≡ₚ take (g * m) l → next ≡ₚ take m (drop (g * m) l) → done ++ next ≡ₚ take (S g * m) l.
Proof.
  intros -> ->. rewrite <-(take_drop (g * m) (take (S g * m) l)), take_take, Nat.min_l by lia.
  rewrite skipn_firstn_comm. by replace (S g * m - g * m)%nat with m by lia.
Qed.

Section pass.
Context (l : list (list byte)) (Hl : Forall good l).
Local Abbreviation N := (zlen l).
Context (Hbytes : rs * N ≤ int_max).
Context (junk : list byte) (bsz : Z) (Hbsz : rs ≤ bsz ≤ int_max) (Hjunk : bsz ≤ zlen junk).

Lemma N_bound : 0 ≤ N ≤ int_max.
Proof. clear Hjunk Hbsz junk bsz. nia. Qed.

Lemma rec_i_lookup i r : l !! i = Some r → rec_i s (concat l) (Z.of_nat i) = r.
Proof. intros Hi. unfold rec_i. apply slice_concat; [lia|by apply good_sized|done]. Qed.

Lemma recs_segment st len : 0 ≤ st → 0 ≤ len → (0 < len → st + len ≤ N) →
  map (rec_i s (concat l)) (seqZ st len) = take (Z.to_nat len) (drop (Z.to_nat st) l).
Proof.
  intros Hst Hlen Hfit. apply list_eq. intros i. rewrite list_lookup_fmap.
  destruct (decide (Z.of_nat i < len)) as [Hi|Hi].
  - rewrite lookup_seqZ_lt by lia. simpl. rewrite lookup_take_lt, lookup_drop by lia.
    destruct (lookup_lt_is_Some_2 l (Z.to_nat st + i)) as [r Hr]; [lia|]. rewrite Hr. f_equal.
    rewrite <-(rec_i_lookup _ _ Hr). f_equal. lia.
  - rewrite lookup_seqZ_ge by lia. simpl. rewrite lookup_ge_None_2; [done|]. rewrite length_take. lia.
Qed.

Lemma make_iterators_Ok n offset j : ∀ i, 1 ≤ n → 0 ≤ offset → 0 ≤ i →
  offset + (i + Z.of_nat j) * n ≤ int_max →
  ∃ its u, make_iterators junk j i offset n (Z.max 0 (N - (offset + i * n))) bsz s = Ok (its, u)
    ∧ u = Z.max 0 (N - (offset + (i + Z.of_nat j) * n))
    ∧ Forall (run_ok s (concat l)) its
    ∧ map (run_rest s (concat l)) its
      = map (λ t, take (Z.to_nat n) (drop (Z.to_nat offset + t * Z.to_nat n) l)) (seq (Z.to_nat i) j).
Proof using Hl Hgood Hrs Hbytes Hbsz Hjunk.
  induction j as [|j IH]; intros i Hn Ho Hi Hmax.
  { eexists [], _. split; [reflexivity|]. split_and!; [f_equal; lia|constructor|done]. }
  pose proof N_bound. cbn [make_iterators]. set (u := Z.max 0 (N - (offset + i * n))).
  assert (0 ≤ i * n) by nia.
  assert ((i + Z.of_nat (S j)) * n = i * n + n + Z.of_nat j * n) as Ek by lia.
  assert (0 ≤ Z.of_nat j * n) by nia.
  set (len := Z.min u n).
  assert ((if u <? n then _ ← defined (negb (n =? 0)); mret (Z.rem u n, n) else mret (n, u))
    = Ok (len, Z.max n u)) as ->.
  { destruct (Z.ltb_spec u n).
    - rewrite defined_true by lia. cbn [mbind res_bind]. rewrite Z.rem_mod_nonneg, Z.mod_small by lia.
      unfold mret, res_ret. do 2 f_equal; lia.
    - unfold mret, res_ret. do 2 f_equal; lia. }
  cbn [mbind res_bind]. rewrite (cint_ok (i * n)) by (unfold int_min; lia). cbn [mbind res_bind].
  rewrite (cint_ok (offset + i * n)) by (unfold int_min; lia). cbn [mbind res_bind].
  destruct (new_run_Ok s (concat l) ltac:(done) junk (offset + i * n) len bsz) as (it & -> & Hit & _ & _ & Hrest);
    [lia|lia|done|done| |].
  { intros Hpos. rewrite (length_concat rs) by (by apply good_sized). nia. }
  cbn [mbind res_bind]. rewrite clong_ok by (unfold int_max in *; lia). cbn [mbind res_bind].
  destruct (IH (i + 1) Hn Ho ltac:(lia)) as (its & u' & Hmk & Hu & Hits & Hrests); [lia|].
  replace (Z.max n u - n) with (Z.max 0 (N - (offset + (i + 1) * n))) by lia.
  rewrite Hmk. cbn [mbind res_bind]. eexists (it :: its), u'. split; [done|].
  split_and!; [rewrite Hu; f_equal; lia|by constructor|].
  cbn [seq map]. rewrite Hrest, Hrests. f_equal.
  - rewrite recs_segment by lia. replace (Z.to_nat (offset + i * n)) with (Z.to_nat offset + Z.to_nat i * Z.to_nat n)%nat by nia.
    destruct (decide (N ≤ offset + i * n)) as [Hend|].
    + rewrite drop_ge by nia. by rewrite !take_nil.
    + destruct (decide (u < n)); [|f_equal; lia]. rewrite !take_ge; [done|..]; rewrite length_drop; nia.
  - by replace (Z.to_nat (i + 1)) with (S (Z.to_nat i)) by lia.
Qed.

(** The groups at [offset], [offset + n * k], ...; the output so far holds the first [offset]
    records in sorted segments of [n * k]. *)
Lemma pass_loop_Ok fpos0 n k : 1 ≤ n → 2 ≤ k → N + n * k ≤ int_max → segs c (Z.to_nat n) l →
  ∀ fuel g outr tail, outr ≡ₚ take (g * Z.to_nat (n * k)) l → segs c (Z.to_nat (n * k)) outr →
  Z.max 0 (N - Z.of_nat g * (n * k)) < Z.of_nat fuel → zlen tail ≤ rs * N - zlen (concat outr) →
  ∃ outr', pass_loop less fuel junk (MkFILE (concat l) fpos0) (written_to (concat outr) tail) s
      N n k bsz (Z.of_nat g * (n * k)) (Z.max 0 (N - Z.of_nat g * (n * k)))
    = Ok (written_to (concat outr') [])
    ∧ outr' ≡ₚ l ∧ segs c (Z.to_nat (n * k)) outr'.
Proof using All.
  intros Hn Hk Hmax Hsegs. pose proof N_bound as HN.
  induction fuel as [|fuel IH]; intros g outr tail Hp Hs Hf Htail; [lia|].
  cbn [pass_loop]. set (off := Z.of_nat g * (n * k)) in *. assert (0 ≤ off) by (unfold off; nia).
  assert (sized rs outr) as Hsz by (rewrite Hp; by apply sized_take, good_sized).
  pose proof (length_concat rs outr Hsz) as Hco.
  destruct (Z.ltb_spec off N) as [Hlt|Hge].
  - assert (zlen outr = off) as Hlen by (rewrite Hp, length_take; unfold off in *; nia).
    pose proof (make_iterators_Ok n off (Z.to_nat k) 0 Hn ltac:(lia) ltac:(lia)) as Hmk.
    replace (off + (0 + Z.of_nat (Z.to_nat k)) * n) with (off + n * k) in Hmk by lia.
    replace (off + 0 * n) with off in Hmk by lia.
    destruct Hmk as (its & u & -> & -> & Hits & Hrests); [lia|]. cbn [mbind res_bind].
    destruct (kway_merge_Ok s (concat l) Hrs ltac:(rewrite (length_concat rs); [lia|by apply good_sized])
      good c less Hless fpos0 its (concat outr) tail Hits) as (out & -> & Hm).
    { rewrite Hrests. apply Forall_forall. intros x (t & -> & _)%list_elem_of_fmap.
      by apply Forall_take, Forall_drop. }
    rewrite Hrests in Hm. change (Z.to_nat 0) with 0%nat in Hm.
    assert (out ≡ₚ take (Z.to_nat (n * k)) (drop (Z.to_nat off) l)) as Hpo.
    { rewrite (merges_perm c _ _ Hm), concat_segments. by replace (Z.to_nat k * Z.to_nat n)%nat with (Z.to_nat (n * k)) by nia. }
    assert (StronglySorted (cmp_le c) out) as Hso.
    { apply (merges_sorted c _ _ Hm). apply Forall_forall. intros x (t & -> & _)%list_elem_of_fmap.
      replace (Z.to_nat off + t * Z.to_nat n)%nat with ((g * Z.to_nat k + t) * Z.to_nat n)%nat
        by (unfold off; nia). apply Hsegs. }
    assert (Z.to_nat off = (g * Z.to_nat (n * k))%nat) as Hon by (unfold off; nia).
    assert (outr ++ out ≡ₚ take (S g * Z.to_nat (n * k)) l) as Hp' by (apply take_grows; [exact Hp|by rewrite <-Hon]).
    assert (sized rs (outr ++ out)) as Hsz' by (rewrite Hp'; by apply sized_take, good_sized).
    pose proof (length_concat rs _ Hsz') as Hco'. rewrite concat_app, length_app in Hco'.
    assert (zlen (outr ++ out) ≤ N) by (rewrite Hp', length_take; lia).
    assert (0 ≤ n * k) by nia.
    cbn [mbind res_bind]. rewrite (cint_ok (n * k)) by (unfold int_min; lia). cbn [mbind res_bind].
    rewrite (cint_ok (off + n * k)) by (unfold int_min; lia). cbn [mbind res_bind].
    destruct (IH (S g) (outr ++ out) (drop (length (concat out)) tail)) as (outr' & Hrun & Hp2 & Hs2).
    + exact Hp'.
    + apply (segs_app c _ g); [lia| |done|done]. rewrite Hpo, length_take. lia.
    + unfold off in *. nia.
    + rewrite concat_app, length_app, length_drop. nia.
    + exists outr'. split; [|done]. rewrite <-Hrun, concat_app.
      replace (Z.of_nat (S g) * (n * k)) with (off + n * k) by (unfold off; lia). done.
  - assert (take (g * Z.to_nat (n * k)) l = l) as E by (apply take_ge; unfold off in *; nia).
    rewrite E in Hp. exists outr. split; [|done].
    assert (tail = []) as ->; [|done].
    rewrite Hco, Hp in Htail. destruct tail; [done|simpl in Htail; lia].
Qed.
End pass.

(** ** All passes *)

(** What the passes print. *)
Fixpoint pass_lines (fuel : nat) (pass n k run_length N : Z) : list byte :=
  match fuel with
  | O => []
  | S fuel => if n <? N * k then print_pass pass n k run_length N ++ pass_lines fuel (pass + 1) (n * k) k run_length N else []
  end.

(** The two streams, in either order. *)
Definition swapped (a b x y : cstr) : Prop := (x = a ∧ y = b) ∨ (x = b ∧ y = a).

Lemma merge_passes_Ok junk bsz k N rl : rs ≤ bsz ≤ int_max → bsz ≤ zlen junk → 2 ≤ k →
  0 ≤ N → rs * N ≤ int_max → N + N * k * k ≤ int_max →
  ∀ fuel l n p tail a b pass text, Forall good l → zlen l = N → 1 ≤ n → segs c (Z.to_nat n) l →
  N * k < n * 2 ^ Z.of_nat fuel → zlen tail ≤ rs * N → 0 ≤ pass → pass + Z.of_nat fuel ≤ int_max →
  ∃ l' p' out a' b', merge_passes less (S fuel) junk (a, MkFILE (concat l) p) (b, MkFILE tail 0) s rl N n k bsz pass text
      = Ok (text ++ pass_lines fuel pass n k rl N, (a', MkFILE (concat l') p'), (b', out))
    ∧ l' ≡ₚ l ∧ StronglySorted (cmp_le c) l' ∧ swapped a b a' b'.
Proof using All.
  intros Hb Hj Hk HN Hbytes Hmax.
  assert (0 ≤ N * k) by nia. assert (N * k ≤ N * k * k) by (clear - H Hk; set (m := N * k) in *; nia).
  induction fuel as [|fuel IH]; intros l n p tail a b pass text Hg Hl Hn Hs Hf Htail Hpass Hpmax.
  - cbn [merge_passes pass_lines]. rewrite (cint_ok (N * k)) by (unfold int_min; lia). cbn [mbind res_bind].
    replace (n <? N * k) with false by lia. exists l, p, (MkFILE tail 0), a, b. rewrite app_nil_r.
    split_and!; [done|done| |by left]. apply (segs_whole c (Z.to_nat n)); [nia|done].
  - remember (S fuel) as f1 eqn:Ef in IH |- *. cbn [merge_passes]. rewrite (cint_ok (N * k)) by (unfold int_min; lia). cbn [mbind res_bind].
    destruct (Z.ltb_spec n (N * k)) as [Hlt|Hge].
    2:{ exists l, p, (MkFILE tail 0), a, b. subst f1. cbn [pass_lines]. replace (n <? N * k) with false by lia. rewrite app_nil_r.
        split_and!; [done|done| |by left]. apply (segs_whole c (Z.to_nat n)); [nia|done]. }
    rewrite (cint_ok (pass + 1)) by (unfold int_min; lia). cbn [mbind res_bind fst snd].
    assert (n * k ≤ N * k * k) by nia.
    destruct (pass_loop_Ok l Hg ltac:(lia) junk bsz Hb Hj p n k Hn Hk ltac:(lia) Hs
      (S (Z.to_nat N)) 0 [] tail) as (l1 & Hrun & Hp1 & Hs1);
      [done|apply segs_nil|lia|simpl; lia|].
    rewrite Z.mul_0_l, Z.sub_0_r, Hl, Z.max_r in Hrun by lia.
    change (written_to (concat []) tail) with (MkFILE tail 0) in Hrun. rewrite Hrun. cbn [mbind res_bind].
    rewrite (cint_ok (n * k)) by (unfold int_min; nia). cbn [mbind res_bind].
    unfold written_to, rewind. cbn [fcontents]. rewrite app_nil_r.
    assert (Forall good l1) as Hg1 by (by rewrite Hp1).
    destruct (IH l1 (n * k) 0 (concat l) b a (pass + 1) (text ++ print_pass pass n k rl N)) as (l' & p' & out & a' & b' & Hm & Hp' & Hs' & Hsw).
    { done. }
    { by rewrite Hp1. }
    { nia. }
    { done. }
    { rewrite Nat2Z.inj_succ, Z.pow_succ_r in Hf by lia.
      assert (0 < 2 ^ Z.of_nat fuel) by (apply Z.pow_pos_nonneg; lia). nia. }
    { rewrite (length_concat rs) by (by apply good_sized). lia. }
    { lia. }
    { lia. }
    exists l', p', out, a', b'. rewrite Hm. split_and!; [|by rewrite Hp'|done|unfold swapped in *; tauto].
    subst f1. cbn [pass_lines]. replace (n <? N * k) with true by lia. by rewrite <-app_assoc.
Qed.

(** The whole sort. *)
Lemma msort_Ok l junk mem k : Forall good l → 2 ≤ k →
  rs * (k + 1) ≤ mem ≤ int_max → rs * zlen l ≤ int_max → zlen l + zlen l * k * k ≤ int_max →
  mem ≤ zlen junk →
  ∃ l' p out name other, msort sort_recs less junk (concat l) mem k s
      = Ok (pass_lines 63 0 (mem / rs) k (mem / rs) (zlen l), (name, MkFILE (concat l') p), (other, out))
    ∧ l' ≡ₚ l ∧ StronglySorted (cmp_le c) l' ∧ swapped TMP_OUTPUT TMP_INPUT name other.
Proof using All.
  intros Hg Hk Hmem Hbytes Hmax Hj. unfold msort. rewrite defined_true by lia. cbn [mbind res_bind].
  rewrite u64_small by (unfold int_max in *; nia).
  assert (1 ≤ mem / rs ∧ rs * (mem / rs) ≤ mem) as [Hq1 Hq2].
  { split; [apply Z.div_le_lower_bound; nia|apply Z.mul_div_le; lia]. }
  assert (mem / rs ≤ mem) by nia.
  assert (to_long (mem / rs) = mem / rs) as ->.
  { unfold to_long. rewrite Z.mod_small; unfold int_max in *; lia. }
  set (rl := mem / rs) in *. assert (zlen l ≤ rs * zlen l) by nia.
  destruct (mk_runs_loop_Ok rl Hq1 ltac:(lia) (S (length (concat l))) 0 [] l []) as (f & runs & Hmk & Hp & Hs).
  { done. } { simpl. lia. } { done. } { apply segs_nil. } { by right. }
  { pose proof (length_concat rs l (good_sized l Hg)). nia. }
  unfold mk_runs. change (written_to (concat []) []) with (MkFILE [] 0) in Hmk.
  simpl app in Hmk. change (zlen (concat [])) with 0 in Hmk. change (zlen []) with 0 in Hmk.
  cbn [fcontents]. rewrite Hmk. cbn [mbind res_bind].
  assert (k ≤ int_max) by nia. assert (rs ≤ int_max) by nia.
  rewrite (cint_ok (k + 1)) by (unfold int_min; nia). cbn [mbind res_bind].
  rewrite Z.quot_div_nonneg by lia.
  assert (rs ≤ mem / (k + 1) ∧ mem / (k + 1) ≤ mem) as [Hb1 Hb2].
  { split; [apply Z.div_le_lower_bound; nia|apply Z.div_le_upper_bound; nia]. }
  rewrite (to_int_small (mem / (k + 1))) by (unfold int_min, int_max in *; lia).
  rewrite (to_int_small rl) by (unfold int_min, int_max in *; lia).
  unfold written_to. rewrite app_nil_r. simpl app in Hp.
  destruct (merge_passes_Ok junk (mem / (k + 1)) k (zlen l) rl ltac:(lia) ltac:(lia) Hk ltac:(lia) Hbytes Hmax
    63 runs rl (zlen (concat runs)) [] TMP_OUTPUT TMP_INPUT 0 []) as (l' & p' & out & name & other & Hrun & Hp' & Hs' & Hsw).
  { by rewrite Hp. } { by rewrite Hp. } { done. } { done. }
  { assert (zlen l * k ≤ int_max) by nia. unfold int_max in *. change (2 ^ Z.of_nat 63) with (2^63). lia. }
  { simpl. lia. }
  { done. }
  { unfold int_max. lia. }
  exists l', p', out, name, other. rewrite Hrun. split_and!; [done|by rewrite Hp'|done|done].
Qed.
End msort.
