(* ===== verification/SortProps.v ===== *)
(** * What msort guarantees

    The theorems on the sorting program of a2/msort.cc and a2/library.cc, with the interface
    the program relies on: [qsort] of the C library. *)
From Stdlib Require Import Strings.String Sorted.
From S2P Require Import Prelude Buffers CLib Order Library SchemaProps MSort MSortProps.

#[local] Open Scope Z_scope.
#[local] Open Scope list_scope.

Definition cmp_res : Type := list byte → list byte → res Z.

(** [qsort]: with a comparison function that is a total preorder on the array, the array ends
    up a sorted permutation of itself. *)
Class QsortSpec (qsort : cmp_res → list (list byte) → res (list (list byte))) : Prop :=
  qsort_sorts : ∀ (cmp : cmp_res) c (l : list (list byte)), CmpOrder c →
    (∀ a b, a ∈ l → b ∈ l → cmp a b = Ok (c a b)) →
    ∃ l', qsort cmp l = Ok l' ∧ l' ≡ₚ l ∧ StronglySorted (cmp_le c) l'.

(** One implementation: insertion sort. *)
Fixpoint insert_rec (cmp : cmp_res) (x : list byte) (l : list (list byte)) : res (list (list byte)) :=
  match l with
  | [] => mret [x]
  | y :: l' =>
      v ← cmp x y;
      if v <=? 0 then mret (x :: l) else r ← insert_rec cmp x l'; mret (y :: r)
  end.

Fixpoint insertion_qsort (cmp : cmp_res) (l : list (list byte)) : res (list (list byte)) :=
  match l with
  | [] => mret []
  | x :: l => r ← insertion_qsort cmp l; insert_rec cmp x r
  end.

Lemma insert_rec_Ok cmp c {Hc : CmpOrder c} x l : (∀ a, a ∈ l → cmp x a = Ok (c x a)) →
  StronglySorted (cmp_le c) l →
  ∃ l', insert_rec cmp x l = Ok l' ∧ l' ≡ₚ x :: l ∧ StronglySorted (cmp_le c) l'.
Proof.
  induction l as [|y l IH]; intros Hcmp Hs.
  { exists [x]. split_and!; [done|done|]. by repeat constructor. }
  cbn [insert_rec]. rewrite Hcmp by (by left). cbn [mbind res_bind].
  inversion Hs as [|? ? Hs' Hy]; subst. destruct (Z.leb_spec (c x y) 0) as [Hle|Hgt].
  - exists (x :: y :: l). split_and!; [done|done|]. constructor; [done|]. constructor; [done|].
    eapply Forall_impl; [exact Hy|]. intros z Hz. by eapply (cmp_trans (c := c)).
  - destruct IH as (l' & -> & Hp & Hl'); [intros a Ha; apply Hcmp; by right|done|].
    exists (y :: l'). cbn [mbind res_bind]. split_and!; [done| |].
    + rewrite Hp. constructor.
    + constructor; [done|]. rewrite Hp. constructor; [|done].
      unfold cmp_le. pose proof (cmp_flip c y x). lia.
Qed.

#[export] Instance insertion_qsort_spec : QsortSpec insertion_qsort.
Proof.
  intros cmp c l Hc. induction l as [|x l IH]; intros Hcmp.
  { exists []. by split_and!; [| |constructor]. }
  destruct IH as (r & Hr & Hp & Hs); [intros a b Ha Hb; apply Hcmp; by right|].
  cbn [insertion_qsort]. rewrite Hr. cbn [mbind res_bind].
  destruct (insert_rec_Ok cmp c x r) as (l' & Hl' & Hp' & Hs'); [|done|].
  - intros a Ha. rewrite Hp in Ha. apply Hcmp; [by left|by right].
  - exists l'. split_and!; [done|by rewrite Hp', Hp|done].
Qed.

Lemma le_mul a b : 1 ≤ a → 0 ≤ b → b ≤ a * b.
Proof. nia. Qed.

(** The temporary files, by name. *)
Definition temps : list cstr := [TMP_OUTPUT; TMP_INPUT].

Lemma temps_short name : name ∈ temps → take 0xFFF name = name ∧ zlen name < 0xFFF ∧ until_nul name = name.
Proof. unfold temps. rewrite !elem_of_cons, elem_of_nil. by intros [->|[->|[]]]. Qed.

Lemma not_temp f n : n ∉ temps → fs_set TMP_INPUT [] (fs_set TMP_OUTPUT [] f) n = f n ∧ n ≠ TMP_INPUT.
Proof. unfold temps. rewrite !not_elem_of_cons. intros (? & ? & _). unfold fs_set. by rewrite !decide_False. Qed.

(** The end of the program. *)
Lemma copy_output_Ok p name q c other o output text f : swapped TMP_OUTPUT TMP_INPUT name other → output ∉ temps →
  readlink p (proclnk p name) = Some name →
  ∃ f', copy_output p (name, MkFILE c q) (other, o) output text f = Ok (MkOutcome 0 (text ++ print_link p name name) f')
    ∧ name ∈ temps ∧ f' output = Some c ∧ f' name = Some c ∧ ∀ n, n ∉ output :: temps → f' n = f n.
Proof.
  intros Hsw Hout Hlink. assert (name ∈ temps ∧ other ∈ temps ∧ name ≠ other) as (Hname & Hother & Hne).
  { unfold temps. rewrite !elem_of_cons. destruct Hsw as [[-> ->]|[-> ->]]; (split; [tauto|]; split; [tauto|done]). }
  destruct (temps_short name Hname) as (E1 & E2 & E3). unfold copy_output. cbn [fst snd fcontents]. rewrite Hlink, E1, defined_true by lia. cbn [mbind res_bind].
  assert (name ≠ output) as Hno by (intros ->; done).
  eexists. split; [reflexivity|]. rewrite E3. split; [done|]. unfold fs_set. rewrite decide_True by done.
  rewrite !(decide_False (P := name = output)), !(decide_True (P := name = name)) by done. split; [done|]. split; [done|].
  intros n Hn. unfold temps in *. rewrite !not_elem_of_cons in Hn. destruct Hn as (? & ? & ? & _).
  rewrite !(decide_False (P := n = output)) by done. destruct Hsw as [[-> ->]|[-> ->]]; by rewrite !decide_False.
Qed.

Lemma merge_passes_stop less fuel junk a b s rl N n k bsz pass text : cint (N * k) = Ok (N * k) → N * k ≤ n →
  merge_passes less (S fuel) junk a b s rl N n k bsz pass text = Ok (text, a, b).
Proof. intros E Hle. cbn [merge_passes]. rewrite E. cbn [mbind res_bind]. by replace (n <? N * k) with false by lia. Qed.

Section props.
Context {F : Type} (atof : cstr → F) (flt : F → F → bool) {Hflt : FloatOrder flt}.

(** ** Runs *)

(** [write_records] copies a run: whatever the size of the iterator's buffer (as long
    as it holds a record), the [len] records from number [st] of the input are appended to the
    output, each once and in order, through refills at every buffer boundary. *)
Theorem write_records_copies s recs junk st len bsz fpos0 pre
  (Hrs : 1 ≤ record_size s) (Hsized : sized (record_size s) recs)
  (Hbytes : record_size s * zlen recs ≤ int_max)
  (Hbsz : record_size s ≤ bsz ≤ int_max) (Hjunk : bsz ≤ zlen junk)
  (Hrun : 0 ≤ st ∧ 0 ≤ len ∧ st + len ≤ zlen recs) :
  ∃ it, new_RunIterator junk st len bsz s = Ok it
    ∧ write_records (MkFILE (concat recs) fpos0) s it (written_to pre [])
      = Ok (written_to (pre ++ concat (take (Z.to_nat len) (drop (Z.to_nat st) recs))) []).
Proof.
  destruct Hrun as (Hst & Hlen & Hfit).
  pose proof (length_concat _ recs Hsized) as Hcl.
  assert (zlen recs ≤ record_size s * zlen recs) by (apply le_mul; lia).
  destruct (new_run_Ok s (concat recs) Hrs junk st len bsz)
    as (it & Hit & Hok & _ & _ & Hrest); [lia|lia|done|done|intros _; rewrite Hcl, Z.mul_comm; by apply Z.mul_le_mono_nonneg_l; lia|].
  exists it. split; [done|]. unfold write_records.
  rewrite (write_records_Ok s (concat recs) Hrs ltac:(lia) fpos0 _ it pre [] Hok eq_refl) by lia.
  rewrite drop_nil, Hrest. do 4 f_equal.
  apply (recs_segment s (λ r, zlen r = record_size s)); auto.
Qed.

(** Run [(st, len)] of the records [recs]. *)
Definition segment (recs : list (list byte)) (r : Z * Z) : list (list byte) :=
  take (Z.to_nat r.2) (drop (Z.to_nat r.1) recs).

(** The iterators over in-range runs are well formed and have the runs to deliver. *)
Lemma new_runs_Ok s recs junk bsz runs its (Hrs : 1 ≤ record_size s)
  (Hsized : sized (record_size s) recs) (Hbytes : record_size s * zlen recs ≤ int_max)
  (Hbsz : record_size s ≤ bsz ≤ int_max) (Hjunk : bsz ≤ zlen junk) :
  Forall (λ r, 0 ≤ r.1 ∧ 0 ≤ r.2 ∧ r.1 + r.2 ≤ zlen recs) runs →
  Forall2 (λ r it, new_RunIterator junk r.1 r.2 bsz s = Ok it) runs its →
  Forall (run_ok s (concat recs)) its
  ∧ map (run_rest s (concat recs)) its = map (segment recs) runs.
Proof using.
  pose proof (length_concat _ recs Hsized) as Hcl.
  assert (zlen recs ≤ record_size s * zlen recs) by (apply le_mul; lia).
  intros Hr Hf2. induction Hf2 as [|[st len] it runs its Hit Hf2 IH]; [done|]. simpl in *.
  inversion Hr as [|? ? (Hst & Hlen & Hfit) Hr']; subst. simpl in *.
  destruct (new_run_Ok s (concat recs) Hrs junk st len bsz) as (it' & Hit' & Hok & _ & _ & Hrest);
    [lia|lia|done|done|intros _; rewrite Hcl, Z.mul_comm; by apply Z.mul_le_mono_nonneg_l; lia|].
  rewrite Hit in Hit'. simplify_eq. destruct (IH Hr') as [IH1 IH2]. split; [by constructor|].
  rewrite IH2, Hrest. f_equal. apply (recs_segment s (λ r, zlen r = record_size s)); auto.
Qed.

(** [kway_merge] on iterators over sorted runs of the input file appends to the
    output a sorted permutation of all the records of the runs, with the order of the sort
    attributes, whatever the size of the buffers. *)
Theorem kway_merge_sorts s stack_junk recs runs its junk bsz fpos0 pre
  (Hschema : schema_ok s) (Hrs : 1 ≤ record_size s) (Hstack : zlen stack_junk = 40)
  (Hrecs : Forall (rec_ok s) recs) (Hbytes : record_size s * zlen recs ≤ int_max)
  (Hbsz : record_size s ≤ bsz ≤ int_max) (Hjunk : bsz ≤ zlen junk)
  (Hruns : Forall (λ r, 0 ≤ r.1 ∧ 0 ≤ r.2 ∧ r.1 + r.2 ≤ zlen recs) runs)
  (Hits : Forall2 (λ r it, new_RunIterator junk r.1 r.2 bsz s = Ok it) runs its)
  (Hsorted : Forall (λ r, StronglySorted (cmp_le (rec_cmp atof flt s)) (segment recs r)) runs) :
  ∃ cmp out, new_RecordComparator s = Ok cmp
    ∧ kway_merge (record_less atof flt cmp stack_junk) (MkFILE (concat recs) fpos0) s its
        (written_to pre []) = Ok (written_to (pre ++ concat out) [])
    ∧ out ≡ₚ concat (map (segment recs) runs)
    ∧ StronglySorted (cmp_le (rec_cmp atof flt s)) out.
Proof.
  assert (sized (record_size s) recs) as Hsized.
  { eapply Forall_impl; [exact Hrecs|]. by intros r []. }
  destruct (new_runs_Ok s recs junk bsz runs its) as [Hok Hrests]; [done..|].
  destruct (kway_merge_Ok s (concat recs) Hrs ltac:(rewrite (length_concat (record_size s)); done)
    (rec_ok s) (rec_cmp atof flt s) (record_less atof flt (MkComparator (map (field_type s) (sort_attrs s)) s) stack_junk)
    (λ a b, record_less_Ok atof flt s stack_junk a b Hschema Hstack) fpos0 its pre [] Hok) as (out & Hrun & Hm).
  { rewrite Hrests. apply Forall_forall. intros x (r & -> & _)%list_elem_of_fmap.
    by apply Forall_take, Forall_drop. }
  eexists _, out. split; [by apply comparator_Ok|]. rewrite Hrun, drop_nil, Hrests in *.
  split_and!; [done|by rewrite (merges_perm _ _ _ Hm)|].
  apply (merges_sorted _ _ _ Hm). by apply Forall_map.
Qed.

(** Claim C1. msort sorts: with a readable schema whose sort attributes its comparator handles,
    memory for a record in each of [k + 1 >= 3] buffers, and a file of whole records of the
    schema small enough for [int] counts, [main] ends with status 0 and the output file holds
    a permutation of the records of the input file sorted lexicographically by the sort
    attributes in turn. It prints the attributes, a line for each pass and the name of the temporary file that the records are copied
    from; besides the output file, only the two temporary files /tmp/output and /tmp/input change. Neither of them may be the
    input or the output file, and the links of /proc must lead to them. In particular the passes terminate. *)
Theorem msort_main_sorts qsort {Hq : QsortSpec qsort} parse_json p stack_junk heap_junk argv f l sorts recs mem k
  (Hargc : 7 ≤ zlen argv) (Hmem : atol (arg argv 4) = Ok mem) (Hk : atoi (arg argv 5) = Ok k)
  (Hjson : parse_json (f (arg argv 1)) = inr l)
  (Hlen : Forall (λ a : json_attr, 0 ≤ a.2) l) (Hwidth : 1 ≤ width l ≤ int_max)
  (Hattrs : set_schema_sort_attr (json_schema l []) (arg argv 6) = Ok (json_schema l sorts))
  (Hschema : schema_ok (json_schema l sorts))
  (Hin : f (arg argv 2) = Some (concat recs)) (Hrecs : Forall (rec_ok (json_schema l sorts)) recs)
  (Hintmp : arg argv 2 ∉ temps) (Houttmp : arg argv 3 ∉ temps)
  (Hlink : ∀ name, name ∈ temps → readlink p (proclnk p name) = Some name)
  (Hbounds : 2 ≤ k ∧ width l * (k + 1) ≤ mem ≤ int_max ∧ width l * zlen recs ≤ int_max
     ∧ zlen recs + zlen recs * k * k ≤ int_max)
  (Hstack : zlen stack_junk = 40) (Hheap : mem ≤ zlen heap_junk) :
  ∃ sorted name out,
    msort_main atof flt qsort parse_json p stack_junk heap_junk argv f = Ok out ∧ status out = 0
    ∧ stdout out = concat (map print_attr l) ++ pass_lines 63 0 (mem / width l) k (mem / width l) (zlen recs) ++ print_link p name name
    ∧ files out (arg argv 3) = Some (concat sorted) ∧ name ∈ temps ∧ files out name = Some (concat sorted)
    ∧ (∀ n, n ∉ arg argv 3 :: temps → files out n = f n)
    ∧ sorted ≡ₚ recs
    ∧ StronglySorted (cmp_le (rec_cmp atof flt (json_schema l sorts))) sorted.
Proof.
  destruct Hbounds as (Hk2 & Hm & Hbytes & Hmax). set (s := json_schema l sorts) in *.
  unfold msort_main. replace (zlen argv <? 7) with false by lia. rewrite Hmem, Hk, Hjson.
  assert (0 < mem) by nia. unfold c_assert.
  cbn [mbind res_bind]. replace (0 <? mem) with true by lia. replace (1 <? k) with true by lia.
  cbn [mbind res_bind].
  rewrite load_attrs_Ok by (done || lia). cbn [mbind res_bind attrs].
  rewrite sum_lengths_Ok by (done || lia). cbn [mbind res_bind set_record_size attrs sort_attrs data_offset].
  change (set_record_size _ _) with (json_schema l []).
  rewrite Hattrs. cbn [mbind res_bind].
  rewrite comparator_Ok by done. cbn [mbind res_bind]. rewrite Hin.
  destruct (not_temp f (arg argv 2) Hintmp) as [-> _]. rewrite Hin. cbn [from_option id].
  destruct (msort_Ok s (rec_cmp atof flt s) (rec_ok s)
    (record_less atof flt (MkComparator (map (field_type s) (sort_attrs s)) s) stack_junk)
    (qsort (qsort_cmp atof flt (MkComparator (map (field_type s) (sort_attrs s)) s) stack_junk)))
    with (l := recs) (junk := heap_junk) (mem := mem) (k := k) as (sorted & q & o & name & other & -> & Hp & Hs & Hsw); try done.
  - simpl. lia.
  - by intros r [].
  - intros a b. by apply record_less_Ok.
  - intros recs' Hrecs'. apply (qsort_sorts _ (rec_cmp atof flt s)); [apply _|].
    intros a b Ha Hb. rewrite Forall_forall in Hrecs'. apply qsort_cmp_Ok; auto.
  - cbn [mbind res_bind]. destruct (copy_output_Ok p name q (concat sorted) other o (arg argv 3)
      (concat (map print_attr l) ++ pass_lines 63 0 (mem / width l) k (mem / width l) (zlen recs)) (fs_set TMP_INPUT [] (fs_set TMP_OUTPUT [] f)) Hsw Houttmp)
      as (f' & Hc & Hname & H1 & H2 & H3); [apply Hlink; destruct Hsw as [[-> _]|[-> _]]; unfold temps; rewrite !elem_of_cons; tauto|].
    eexists sorted, name, _. split; [exact Hc|]. cbn [status stdout files]. rewrite <-app_assoc. split_and!; try done.
    intros n Hn. rewrite (H3 n Hn). apply not_elem_of_cons in Hn as [_ Hn]. apply (not_temp f n Hn).
Qed.

(** ** What the comparator gets wrong *)

(** The attribute is copied whole but ended at the length of the attribute numbered [rank]. *)
Lemma copy_attr_prefix s junk rec rank i a a' o : 0 ≤ i → 0 ≤ rank →
  attrs s !! Z.to_nat i = Some a → attrs s !! Z.to_nat rank = Some a' →
  data_offset s !! Z.to_nat i = Some o → 0 ≤ length_ a' ≤ length_ a → length_ a < 40 →
  0 ≤ o → o + length_ a ≤ record_size s → zlen junk = 40 → zlen rec = record_size s →
  ∃ buf, copy_attr s junk rec rank i = Ok buf
    ∧ until_nul buf = until_nul (take (Z.to_nat (length_ a')) (slice o (length_ a) rec)).
Proof using.
  intros Hi Hr Ha Ha' Ho Hl Hl40 Ho0 Hfit Hj Hrec. unfold copy_attr, get_attr, vec_at.
  rewrite !defined_true by lia. cbn [mbind res_bind]. rewrite Ho, Ha, Ha'.
  cbn [of_option mret res_ret mbind res_bind]. rewrite u64_small, Z.add_0_l by lia.
  rewrite read_bytes_Ok by lia. cbn [mbind res_bind].
  assert (zlen (slice o (length_ a) rec) = length_ a) as Hsl by (rewrite length_slice; lia).
  rewrite write_bytes_Ok by lia. cbn [mbind res_bind]. unfold set8.
  assert (zlen (splice 0 (slice o (length_ a) rec) junk) = 40) as Hsp by (rewrite length_splice; lia).
  rewrite write_bytes_Ok by (simpl; lia). eexists. split; [done|].
  set (f := slice o (length_ a) rec) in *. unfold splice. simpl.
  rewrite until_nul_app_nul, take_app_le by lia. done.
Qed.

(** Sorting by one string attribute [i] compares only its first [n] bytes, where [n]
    is the length of attribute 0 of the schema and not that of attribute [i]: the copies of
    the attribute are terminated at [attrs[0].length]. Records that differ later in the sort
    attribute compare equal. *)
Theorem qsort_cmp_prefix s cmp junk ra rb i a a0 o
  (Hsort : sort_attrs s = [i]) (Hi : 0 ≤ i)
  (Ha : attrs s !! Z.to_nat i = Some a) (Ht : type a = Some STRING)
  (Ha0 : attrs s !! 0%nat = Some a0) (Ho : data_offset s !! Z.to_nat i = Some o)
  (Hlen : 0 ≤ length_ a0 ≤ length_ a) (Hlen40 : length_ a < 40)
  (Hfit : 0 ≤ o ∧ o + length_ a ≤ record_size s) (Hjunk : zlen junk = 40)
  (Hra : zlen ra = record_size s) (Hrb : zlen rb = record_size s)
  (Hcmp : new_RecordComparator s = Ok cmp) :
  let prefix r := take (Z.to_nat (length_ a0)) (slice o (length_ a) r) in
  qsort_cmp atof flt cmp junk ra rb = Ok (strcmp (prefix ra) (prefix rb))
  ∧ (prefix ra = prefix rb → qsort_cmp atof flt cmp junk ra rb = Ok 0).
Proof using.
  intros prefix. assert (qsort_cmp atof flt cmp junk ra rb = Ok (strcmp (prefix ra) (prefix rb))) as E.
  { unfold new_RecordComparator in Hcmp. rewrite Hsort in Hcmp. cbn [cmp_fns_of] in Hcmp.
    unfold vec_at in Hcmp. rewrite defined_true, Ha in Hcmp by lia. cbn [mbind res_bind of_option] in Hcmp.
    rewrite Ht in Hcmp. injection Hcmp as <-. unfold qsort_cmp. cbn [schema]. rewrite Hsort.
    cbn [cmp_loop schema].
    destruct (copy_attr_prefix s junk ra 0 i a a0 o) as (ba & -> & Ea); [done || lia..|].
    destruct (copy_attr_prefix s junk rb 0 i a a0 o) as (bb & -> & Eb); [done || lia..|].
    unfold vec_at. rewrite defined_true by lia. cbn [mbind res_bind cmp_fns].
    change (_ !! Z.to_nat 0) with (Some STRING). cbn [mbind res_bind of_option cmp_fn].
    unfold string_cmp, mret, res_ret. cbn [mbind res_bind].
    assert (strcmp ba bb = strcmp (prefix ra) (prefix rb)) as ->
      by (unfold strcmp; by rewrite Ea, Eb).
    by destruct (Z.eqb_spec (strcmp (prefix ra) (prefix rb)) 0) as [->|]. }
  split; [done|]. intros Heq. by rewrite E, Heq, (cmp_refl strcmp).
Qed.

(** ** Too little memory *)

(** With less memory than a record, msort silently loses its input: no run is read,
    [main] ends with status 0 and an empty output file, whatever the input file holds. *)
Theorem msort_small_memory qsort parse_json p stack_junk heap_junk argv f l sorts input mem k
  (Hargc : 7 ≤ zlen argv) (Hmem : atol (arg argv 4) = Ok mem) (Hk : atoi (arg argv 5) = Ok k)
  (Hjson : parse_json (f (arg argv 1)) = inr l)
  (Hlen : Forall (λ a : json_attr, 0 ≤ a.2) l) (Hwidth : width l ≤ int_max)
  (Hattrs : set_schema_sort_attr (json_schema l []) (arg argv 6) = Ok (json_schema l sorts))
  (Hschema : schema_ok (json_schema l sorts))
  (Hin : f (arg argv 2) = Some input) (Houttmp : arg argv 3 ∉ temps)
  (Hlink : ∀ name, name ∈ temps → readlink p (proclnk p name) = Some name) (Hsmall : 0 < mem < width l) (Hk1 : 1 < k < int_max) :
  ∃ out, msort_main atof flt qsort parse_json p stack_junk heap_junk argv f = Ok out ∧ status out = 0 ∧ files out (arg argv 3) = Some [].
Proof using.
  set (s := json_schema l sorts) in *.
  unfold msort_main. replace (zlen argv <? 7) with false by lia. rewrite Hmem, Hk, Hjson.
  unfold c_assert. cbn [mbind res_bind].
  replace (0 <? mem) with true by lia. replace (1 <? k) with true by lia.
  cbn [mbind res_bind].
  rewrite load_attrs_Ok by (done || lia). cbn [mbind res_bind attrs].
  rewrite sum_lengths_Ok by (done || lia). cbn [mbind res_bind set_record_size attrs sort_attrs data_offset].
  change (set_record_size _ _) with (json_schema l []).
  rewrite Hattrs. cbn [mbind res_bind].
  rewrite comparator_Ok by done. cbn [mbind res_bind]. rewrite Hin.
  unfold msort. change (record_size s) with (width l).
  rewrite defined_true by lia. cbn [mbind res_bind].
  rewrite u64_small by (unfold int_max in *; lia). rewrite Z.div_small by lia.
  unfold mk_runs. cbn [mk_runs_loop]. unfold fread_items at 1. rewrite orb_true_r. cbn [mbind res_bind].
  cbn [Z.eqb]. unfold mret at 1, res_ret at 1. cbn [mbind res_bind].
  rewrite (cint_ok (k + 1)) by (unfold int_min; lia). cbn [mbind res_bind].
  rewrite merge_passes_stop by done. cbn [mret res_ret mbind res_bind].
  destruct (copy_output_Ok p TMP_OUTPUT 0 [] TMP_INPUT (MkFILE [] 0) (arg argv 3) (concat (map print_attr l) ++ []) (fs_set TMP_INPUT [] (fs_set TMP_OUTPUT [] f)))
    as (f' & Hc & _ & Hf & _); [by left|done|apply Hlink; by left|]. eexists. by split; [exact Hc|].
Qed.
End props.

(** ** Sample runs *)

#[export] Instance Zltb_float_order : FloatOrder Z.ltb.
Proof. split; intros; lia. Qed.

Definition key_json : list json_attr := [(str "k", str "string", 2)].
Definition key_schema : Schema := json_schema key_json [0].
Definition key_recs : list (list byte) := map str ["bb,"; "ab,"; "ba,"; "aa,"; "zz,"; "cc,"]%string.

Definition msort_argv : list cstr := map str ["msort"; "schema"; "in"; "out"; "9"; "2"; "k"]%string.
Definition msort_fs (input : list byte) : fs := fs_set (str "schema") [] (fs_set (str "in") input (λ _, None)).

Lemma key_schema_ok : schema_ok key_schema.
Proof.
  intros [|[|k]] i Hi; simplify_eq/=. exists (attr_of (str "k", str "string", 2)), (attr_of (str "k", str "string", 2)), 0.
  split_and!; try reflexivity; simpl; try lia. by eexists.
Qed.

Lemma key_recs_ok : Forall (rec_ok key_schema) key_recs.
Proof.
  repeat (constructor; [split; [reflexivity|]; intros i Hi Ht;
    apply list_elem_of_singleton in Hi as ->; vm_compute in Ht; discriminate|]). constructor.
Qed.

Lemma key_recs_sized : sized (record_size key_schema) key_recs.
Proof. repeat constructor. Qed.

Lemma write_records_copies_witness : ∃ it,
  new_RunIterator (replicate 7 NUL) 1 5 7 key_schema = Ok it
  ∧ write_records (MkFILE (concat key_recs) 0) key_schema it (written_to [] [])
    = Ok (written_to ([] ++ concat (take (Z.to_nat 5) (drop (Z.to_nat 1) key_recs))) []).
Proof.
  apply (write_records_copies key_schema key_recs (replicate 7 NUL) 1 5 7 0 []).
  - vm_compute. discriminate.
  - exact key_recs_sized.
  - vm_compute. discriminate.
  - split; vm_compute; discriminate.
  - vm_compute. discriminate.
  - repeat split; vm_compute; discriminate.
Defined.

Definition key_runs : list (Z * Z) := [(1, 2); (3, 2)].
Definition key_its : list RunIterator :=
  [MkRun 1 2 7 (replicate 7 NUL) 0 0 2; MkRun 3 2 7 (replicate 7 NUL) 0 0 2].

Lemma kway_merge_sorts_witness : ∃ cmp out,
  new_RecordComparator key_schema = Ok cmp
  ∧ kway_merge (record_less atoi_val Z.ltb cmp (replicate 40 NUL)) (MkFILE (concat key_recs) 0)
      key_schema key_its (written_to [] []) = Ok (written_to ([] ++ concat out) [])
  ∧ out ≡ₚ concat (map (segment key_recs) key_runs)
  ∧ StronglySorted (cmp_le (rec_cmp atoi_val Z.ltb key_schema)) out.
Proof.
  apply (kway_merge_sorts atoi_val Z.ltb key_schema (replicate 40 NUL) key_recs key_runs key_its
    (replicate 7 NUL) 7 0 []).
  - exact key_schema_ok.
  - vm_compute. discriminate.
  - reflexivity.
  - exact key_recs_ok.
  - vm_compute. discriminate.
  - split; vm_compute; discriminate.
  - vm_compute. discriminate.
  - repeat constructor; vm_compute; discriminate.
  - repeat constructor.
  - repeat constructor; vm_compute; discriminate.
Defined.

(** The two temporary files are open as 4 and 5. *)
Definition sample_process : Process :=
  MkProcess (λ n, if decide (n = TMP_OUTPUT) then 4 else 5) (λ _, str "0x55")
    (λ n, if decide (n = str "/proc/self/fd/4") then Some TMP_OUTPUT else if decide (n = str "/proc/self/fd/5") then Some TMP_INPUT else None).

Lemma sample_links name : name ∈ temps → readlink sample_process (proclnk sample_process name) = Some name.
Proof. unfold temps. rewrite !elem_of_cons, elem_of_nil. by intros [->|[->|[]]]. Qed.

Lemma msort_main_sorts_witness : ∃ sorted name out,
  msort_main atoi_val Z.ltb insertion_qsort (λ _, inr key_json) sample_process (replicate 40 NUL) (replicate 9 NUL)
      msort_argv (msort_fs (concat key_recs)) = Ok out ∧ status out = 0
  ∧ stdout out = concat (map print_attr key_json) ++ pass_lines 63 0 3 2 3 6 ++ print_link sample_process name name
  ∧ files out (str "out") = Some (concat sorted) ∧ name ∈ temps ∧ files out name = Some (concat sorted)
  ∧ (∀ n, n ∉ str "out" :: temps → files out n = msort_fs (concat key_recs) n)
  ∧ sorted ≡ₚ key_recs
  ∧ StronglySorted (cmp_le (rec_cmp atoi_val Z.ltb key_schema)) sorted.
Proof.
  apply (msort_main_sorts atoi_val Z.ltb insertion_qsort (λ _, inr key_json) sample_process (replicate 40 NUL)
    (replicate 9 NUL) msort_argv (msort_fs (concat key_recs)) key_json [0] key_recs 9 2).
  - vm_compute. discriminate.
  - reflexivity.
  - reflexivity.
  - reflexivity.
  - repeat constructor; vm_compute; discriminate.
  - split; vm_compute; discriminate.
  - reflexivity.
  - exact key_schema_ok.
  - reflexivity.
  - exact key_recs_ok.
  - apply (bool_decide_unpack _). vm_compute. exact I.
  - apply (bool_decide_unpack _). vm_compute. exact I.
  - exact sample_links.
  - repeat split; vm_compute; discriminate.
  - reflexivity.
  - vm_compute. discriminate.
Defined.

(** The same run, computed: three records to a run, buffers of one record, two passes. *)
Example msort_run : match msort_main atoi_val Z.ltb insertion_qsort (λ _, inr key_json) sample_process
    (replicate 40 NUL) (replicate 9 NUL) msort_argv (msort_fs (concat key_recs)) with
  | Ok out => status out = 0 ∧ files out (str "out") = Some (str "aa,ab,ba,bb,cc,zz,")
      ∧ stdout out = concat (map (λ l, str l ++ [NEWLINE]) ["{name : k, length : 2, type : string}"; "Pass: 0 n: 3 k: 2 runlength: 3 numrec: 6";
          "Pass: 1 n: 6 k: 2 runlength: 3 numrec: 6"; "fp -> fno -> filename: 0x55 -> 4 -> /tmp/output"]%string)
  | Err _ => False
  end.
Proof. by vm_compute. Qed.

(** When the input is one of the temporary files, it is emptied before it is read; when the output is the one that the records are in,
    it is emptied before they are copied. *)
Example msort_temps :
  let run inp out f := match msort_main atoi_val Z.ltb insertion_qsort (λ _, inr key_json) sample_process (replicate 40 NUL) (replicate 9 NUL)
      [str "msort"; str "schema"; inp; out; str "9"; str "2"; str "k"] f with Ok o => files o out | Err _ => None end in
  run TMP_INPUT (str "out") (fs_set TMP_INPUT (concat key_recs) (λ _, None)) = Some []
  ∧ run (str "in") TMP_OUTPUT (msort_fs (concat key_recs)) = Some [].
Proof. by vm_compute. Qed.

Lemma msort_small_memory_witness : ∃ out,
  msort_main atoi_val Z.ltb insertion_qsort (λ _, inr key_json) sample_process (replicate 40 NUL) (replicate 9 NUL)
      (map str ["msort"; "schema"; "in"; "out"; "2"; "2"; "k"]%string) (msort_fs (concat key_recs)) = Ok out
  ∧ status out = 0 ∧ files out (str "out") = Some [].
Proof.
  apply (msort_small_memory atoi_val Z.ltb insertion_qsort (λ _, inr key_json) sample_process (replicate 40 NUL)
    (replicate 9 NUL) (map str ["msort"; "schema"; "in"; "out"; "2"; "2"; "k"]%string)
    (msort_fs (concat key_recs)) key_json [0] (concat key_recs) 2 2).
  - vm_compute. discriminate.
  - reflexivity.
  - reflexivity.
  - reflexivity.
  - repeat constructor; vm_compute; discriminate.
  - vm_compute. discriminate.
  - reflexivity.
  - exact key_schema_ok.
  - reflexivity.
  - apply (bool_decide_unpack _). vm_compute. exact I.
  - exact sample_links.
  - split; reflexivity.
  - split; reflexivity.
Defined.

(** Sorting by [name], three bytes long, in a schema whose first attribute has length 1:
    "abc" and "aXY" compare equal. *)
Definition name_schema : Schema :=
  json_schema [(str "f", str "string", 1); (str "name", str "string", 3)] [1].

Lemma qsort_cmp_prefix_witness :
  qsort_cmp atoi_val Z.ltb (MkComparator [STRING] name_schema) (replicate 40 NUL)
    (str "x,abc,") (str "x,aXY,") = Ok 0.
Proof.
  refine (proj2 (qsort_cmp_prefix atoi_val Z.ltb name_schema (MkComparator [STRING] name_schema)
    (replicate 40 NUL) (str "x,abc,") (str "x,aXY,") 1 (attr_of (str "name", str "string", 3))
    (attr_of (str "f", str "string", 1)) 2 _ _ _ _ _ _ _ _ _ _ _ _ _) _);
    try reflexivity; try (split; vm_compute; discriminate); vm_compute; discriminate.
Defined.
