(* ===== verification/BSort.v ===== *)
(** * Sorting with a key-value store: a2/bsort.cc

    Every line of the input is stored under the values of its sort attributes and its line
    number; iterating over the store yields the lines in order. The store ([leveldb::DB]) is
    used through the interface [Store]; the files it keeps in ./leveldb_dir are not among those of the model, and
    the program's files are taken to be elsewhere. The lines printed on standard error for a failed
    insertion are not modelled. *)
From Stdlib Require Import Strings.String.
From S2P Require Import Prelude Buffers CLib Library.

#[local] Open Scope Z_scope.
#[local] Open Scope list_scope.

(** What the program uses of [leveldb::DB]: a store opened with a comparator, [Put] with the
    [ok()] of its status, and the entries an iterator visits from [SeekToFirst] on. *)
Class Store (DB : Type) := {
  db_open : (list byte → list byte → res Z) → option DB;
  db_put : list byte → list byte → DB → res (bool * DB);
  db_entries : DB → res (list (list byte * list byte)) }.

(** The C string at offset [off] of the object [buf]. *)
Definition str_at (buf : list byte) (off : Z) : res cstr :=
  _ ← defined ((0 <=? off) && (off <=? zlen buf));
  let s := drop (Z.to_nat off) buf in
  _ ← defined (negb (Z.of_nat (length (until_nul s)) =? zlen s));
  mret (until_nul s).

Section compare.
Context {F : Type} (atof : cstr → F) (flt : F → F → bool).

(** [if (a < b) return -1; if (a > b) return 1], going on otherwise. *)
Definition three_way {A} (lt : A → A → bool) (a b : A) : Z :=
  if lt a b then -1 else if lt b a then 1 else 0.

(** The values at offset [off] of the two buffers; none is read for an unset type. *)
Definition compare_values (type : option TYPE) (a_buf b_buf : list byte) (off : Z) : res Z :=
  match type with
  | None => mret 0
  | Some t =>
      a ← str_at a_buf off;
      b ← str_at b_buf off;
      match t with
      | INT => a_int ← atoi a; b_int ← atoi b; mret (three_way Z.ltb a_int b_int)
      | FLOAT => mret (three_way flt (atof a) (atof b))
      | STRING =>
          let cmp := strcmp a b in
          mret (if cmp <? 0 then -1 else if 0 <? cmp then 1 else 0)
      end
  end.

(** The loop of [Compare] and what follows it; [off] is how far [a_buf] and [b_buf] have
    advanced. *)
Fixpoint compare_loop (s : Schema) (sorts : list Z) (off : Z) (a_buf b_buf : list byte) : res Z :=
  match sorts with
  | [] =>
      a ← str_at a_buf off;
      b ← str_at b_buf off;
      last_a ← atoi a;
      last_b ← atoi b;
      mret (three_way Z.ltb last_a last_b)
  | attrs_idx :: sorts =>
      attr ← vec_at (attrs s) attrs_idx;
      v ← compare_values (type attr) a_buf b_buf off;
      if negb (v =? 0) then mret v
      else compare_loop s sorts (off + length_ attr + 1) a_buf b_buf
  end.

(** [a.ToString().c_str()] points into a string that is destroyed at the end of the
    declaration, as does [b.ToString().c_str()]: [freed a b] is what the memory of the two
    strings holds during the comparison. *)
Definition Compare (freed : list byte → list byte → list byte * list byte) (s : Schema)
    (a b : list byte) : res Z :=
  let '(a_buf, b_buf) := freed a b in compare_loop s (sort_attrs s) 0 a_buf b_buf.
End compare.

(** ** get_key *)

(** The value of one attribute of the line. [new char[attr_len]] is followed by [slack] bytes
    that belong to no object the program uses: none for the C++ language, usually a few with
    the allocator's rounding. *)
Definition key_attr (slack : Z) (s : Schema) (line : list byte) (attrs_idx : Z) : res cstr :=
  offset ← vec_at (data_offset s) attrs_idx;
  attr ← vec_at (attrs s) attrs_idx;
  let attr_len := length_ attr in
  _ ← defined (0 <=? attr_len);
  bs ← read_str (Z.to_nat attr_len) line offset;
  let attribute := strncpy_bytes (Z.to_nat attr_len) bs ++ replicate (Z.to_nat slack) NUL in
  attribute ← set8 attribute attr_len NUL;
  str_at attribute 0.

Fixpoint key_loop (slack : Z) (s : Schema) (line : list byte) (i : nat) (sorts : list Z)
    (key : list byte) : res (list byte) :=
  match sorts with
  | [] => mret key
  | attrs_idx :: sorts =>
      attribute ← key_attr slack s line attrs_idx;
      let key := if (0 <? i)%nat then key ++ [NUL] ++ attribute else attribute in
      key_loop slack s line (S i) sorts key
  end.

Definition get_key (slack : Z) (s : Schema) (line : list byte) (unique_counter : Z) : res (list byte) :=
  key ← key_loop slack s line 0 (sort_attrs s) [];
  mret (key ++ [NUL] ++ dec_of_Z unique_counter).

(** ** The program *)

Definition MAX_LINE_LEN : Z := 10000.

Section program.
Context {F : Type} (atof : cstr → F) (flt : F → F → bool).
Context {DB : Type} `{Store DB}.

(** [line] is the array [char line[MAX_LINE_LEN]]: [fgets] overwrites its front. *)
Fixpoint insert_loop (fuel : nat) (slack : Z) (s : Schema) (in_fp : FILE) (line : list byte)
    (unique_counter : Z) (db : DB) : res DB :=
  match fuel with
  | O => Err Diverge
  | S fuel =>
      match fgets MAX_LINE_LEN in_fp with
      | (None, _) => mret db
      | (Some bs, in_fp) =>
          line ← write_bytes line 0 (bs ++ [NUL]);
          key ← get_key slack s line (to_int unique_counter);
          '(_, db) ← db_put key (until_nul line) db;
          insert_loop fuel slack s in_fp line (unique_counter + 1) db
      end
  end.

Definition insert_tree (slack : Z) (s : Schema) (in_fp : FILE) (junk : list byte) (db : DB) : res DB :=
  insert_loop (S (length (fcontents in_fp))) slack s in_fp junk 0 db.

Fixpoint write_values (l : list (list byte * list byte)) (out_fp : FILE) : FILE :=
  match l with
  | [] => out_fp
  | (_, val_str) :: l => write_values l (fwrite (val_str ++ [NUL]) out_fp)
  end.

Definition retrieve_tree (out_fp : FILE) (db : DB) : res FILE :=
  l ← db_entries db; mret (write_values l out_fp).

(** [get_time_ms] of library.cc; a [struct timeb] is seconds and milliseconds. *)
Definition get_time_ms (t : Z * Z) : Z := t.1 * 1000 + t.2.

Definition print_time (t0 t1 : Z * Z) : list byte :=
  str "TIME: " ++ dec_of_Z (get_time_ms t1 - get_time_ms t0) ++ str " milliseconds" ++ [NEWLINE].

Definition bsort_usage : list byte :=
  str "ERROR: invalid input parameters!" ++ [NEWLINE]
  ++ str "Please enter <schema_file> <input_file> <out_index> <sorting_attributes>" ++ [NEWLINE].

(** [t0], [t1]: the times at the start and the end. *)
Definition bsort_main (parse_json : option (list byte) → list byte + list (cstr * cstr * Z)) (t0 t1 : Z * Z)
    (freed : list byte → list byte → list byte * list byte) (slack : Z) (stack_junk : list byte)
    (argv : list cstr) (f : fs) : res outcome :=
  if negb (zlen argv =? 5) then mret (MkOutcome 1 bsort_usage f)
  else
    match parse_json (f (arg argv 1)) with
    | inl message => mret (MkOutcome 1 (str "ERROR: " ++ message ++ [NEWLINE]) f)
    | inr l =>
        s ← load_attrs l 0 empty_schema;
        s ← set_schema_sort_attr s (arg argv 4);
        match db_open (Compare atof flt freed s) with
        | None => exit_with 1 f
        | Some db =>
            match f (arg argv 2) with
            | None => exit_with 1 f
            | Some input =>
                db ← insert_tree slack s (MkFILE input 0) stack_junk db;
                out ← retrieve_tree (MkFILE [] 0) db;
                mret (MkOutcome 0 (print_time t0 t1) (fs_set (arg argv 3) (fcontents out) f))
            end
        end
    end.
End program.
