(* ===== verification/BSortMain.v ===== *)
(** * The theorems on bsort

    The interface [StoreSpec] of the key-value store, the order of the keys, and the theorem
    that the program sorts stably. *)
From Stdlib Require Import Strings.String Sorted.
From S2P Require Import Prelude Buffers CLib Order Library SchemaProps BSort SortProps.

#[local] Open Scope Z_scope.
#[local] Open Scope list_scope.

(** ** The interface of the store *)

Abbreviation entry := (list byte * list byte)%type.

(** The entries after a [Put]: the new one replaces those its key is equal to. *)
Definition put_entries (c : list byte → list byte → Z) (k v : list byte) (l : list entry) : list entry :=
  List.filter (λ e, c e.1 k <? 0) l ++ (k, v) :: List.filter (λ e, 0 <? c e.1 k) l.

(** [store_inv db c P l]: [db] is ordered by [c] on the keys in [P] and has the entries [l], in
    iteration order. *)
Class StoreSpec (DB : Type) `{Store DB} := {
  store_inv : DB → (list byte → list byte → Z) → (list byte → Prop) → list entry → Prop;
  open_spec cmp c P db : CmpOrder c → (∀ a b, P a → P b → cmp a b = Ok (c a b)) →
    db_open cmp = Some db → store_inv db c P [];
  put_spec db c P l k v : store_inv db c P l → P k →
    ∃ db', db_put k v db = Ok (true, db') ∧ store_inv db' c P (put_entries c k v l);
  entries_spec db c P l : store_inv db c P l → db_entries db = Ok l }.

(** A store that implements it: a sorted association list. *)
Record list_db := MkListDB { ldb_cmp : list byte → list byte → res Z; ldb_entries : list entry }.

Fixpoint list_put (cmp : list byte → list byte → res Z) (k v : list byte) (l : list entry)
    : res (list entry) :=
  match l with
  | [] => mret [(k, v)]
  | e :: l' =>
      x ← cmp e.1 k;
      if x <? 0 then r ← list_put cmp k v l'; mret (e :: r)
      else if x =? 0 then mret ((k, v) :: l') else mret ((k, v) :: l)
  end.

#[export] Instance list_store : Store list_db := {
  db_open := λ cmp, Some (MkListDB cmp []);
  db_put := λ k v db, l ← list_put (ldb_cmp db) k v (ldb_entries db);
    mret (true, MkListDB (ldb_cmp db) l);
  db_entries := λ db, mret (ldb_entries db) }.

Definition strictly (c : list byte → list byte → Z) (l : list entry) : Prop :=
  StronglySorted (λ a b : entry, c a.1 b.1 < 0) l.

Lemma filter_all {A} (f : A → bool) l : Forall (λ x, f x = true) l → List.filter f l = l.
Proof. induction 1 as [|x l Hx _ IH]; simpl; [done|]. by rewrite Hx, IH. Qed.

Lemma filter_none {A} (f : A → bool) l : Forall (λ x, f x = false) l → List.filter f l = [].
Proof. induction 1 as [|x l Hx _ IH]; simpl; [done|]. by rewrite Hx. Qed.

(** The entries after one that is not below [k] are above [k]. *)
Lemma later_greater c {Hc : CmpOrder c} (e : entry) k l : 0 ≤ c e.1 k →
  Forall (λ x : entry, c e.1 x.1 < 0) l →
  Forall (λ x : entry, (c x.1 k <? 0) = false ∧ (0 <? c x.1 k) = true) l.
Proof.
  intros Hge He. eapply Forall_impl; [exact He|]. intros x Hx. simpl in *.
  pose proof (cmp_anti (c := c) e.1 k). pose proof (cmp_anti (c := c) e.1 x.1).
  pose proof (cmp_trans (c := c) x.1 k e.1). lia.
Qed.

Lemma strictly_put c {Hc : CmpOrder c} k v l : strictly c l → strictly c (put_entries c k v l).
Proof.
  intros H. unfold put_entries. induction H as [|e l Hs IH He]; [by repeat constructor|].
  cbn [List.filter]. destruct (Z.ltb_spec (c e.1 k) 0) as [Hlt|Hge].
  - replace (0 <? c e.1 k) with false by lia. cbn [app]. constructor; [done|].
    apply Forall_app. rewrite !Forall_forall in *. split.
    + intros x [Hx _]%list_elem_of_In%filter_In. apply He. by apply list_elem_of_In.
    + intros x [->|Hx]%elem_of_cons; [done|]. apply list_elem_of_In, filter_In in Hx as [Hx _].
      apply He. by apply list_elem_of_In.
  - pose proof (later_greater c e k l Hge He) as Hall.
    rewrite filter_none by (eapply Forall_impl; [exact Hall|]; by intros x []).
    rewrite (filter_all _ l) by (eapply Forall_impl; [exact Hall|]; by intros x []). simpl.
    assert (Forall (λ x : entry, c k x.1 < 0) l) as Hk.
    { eapply Forall_impl; [exact Hall|]. intros x [_ Hx]. simpl in Hx. apply cmp_flip; [done|lia]. }
    destruct (Z.ltb_spec 0 (c e.1 k)); constructor; try done; [by constructor|].
    constructor; [by apply (cmp_flip c k e.1)|done].
Qed.

Lemma list_put_Ok cmp c {Hc : CmpOrder c} k v l : strictly c l →
  (∀ e, e ∈ l → cmp e.1 k = Ok (c e.1 k)) → list_put cmp k v l = Ok (put_entries c k v l).
Proof.
  intros H. unfold put_entries. induction H as [|e l Hs IH He]; intros Hcmp; [done|].
  cbn [list_put List.filter]. rewrite Hcmp by (by left). cbn [mbind res_bind].
  destruct (Z.ltb_spec (c e.1 k) 0) as [Hlt|Hge].
  - replace (0 <? c e.1 k) with false by lia. rewrite IH by (intros x Hx; apply Hcmp; by right). done.
  - pose proof (later_greater c e k l Hge He) as Hall.
    rewrite filter_none by (eapply Forall_impl; [exact Hall|]; by intros x []).
    rewrite (filter_all _ l) by (eapply Forall_impl; [exact Hall|]; by intros x []). simpl.
    destruct (Z.eqb_spec (c e.1 k) 0) as [->|]; [done|]. by replace (0 <? c e.1 k) with true by lia.
Qed.

Definition list_inv (db : list_db) (c : list byte → list byte → Z) (P : list byte → Prop)
    (l : list entry) : Prop :=
  ldb_entries db = l ∧ strictly c l ∧ CmpOrder c ∧ Forall (λ e, P e.1) l
  ∧ ∀ a b, P a → P b → ldb_cmp db a b = Ok (c a b).

#[export] Instance list_store_spec : StoreSpec list_db.
Proof.
  refine {| store_inv := list_inv |}.
  - intros cmp c P db Hc Hcmp [= <-]. split_and!; try done. constructor.
  - intros db c P l k v (El & Hs & Hc & HP & Hcmp) Hk. simpl. rewrite El.
    rewrite (list_put_Ok _ c); [|done|].
    + cbn [mbind res_bind]. eexists. split; [done|]. simpl. split_and!; try done.
      * by apply strictly_put.
      * apply Forall_app. rewrite Forall_forall in HP. split; [|constructor; [done|]];
          apply Forall_forall; intros x [Hx _]%list_elem_of_In%filter_In; apply HP; by apply list_elem_of_In.
    + intros e He. rewrite Forall_forall in HP. apply Hcmp; [by apply HP|done].
  - intros db c P l (El & _). simpl. by rewrite El.
Defined.

(** ** The order of the keys *)

#[export] Instance sgn_order {X} (c : X → X → Z) : CmpOrder c → CmpOrder (λ a b, Z.sgn (c a b)).
Proof.
  intros H. split; intros.
  - rewrite !Z.sgn_sgn. apply (cmp_anti (c := c)).
  - pose proof (cmp_trans (c := c) a b d). lia.
Qed.

Section keys.
Context {F : Type} (atof : cstr → F) (flt : F → F → bool) {Hflt : FloatOrder flt}.
Context (s : Schema).

Definition attr_len (i : Z) : Z := from_option length_ 0 (attrs s !! Z.to_nat i).

Definition cstr_at (key : list byte) (off : Z) : cstr := until_nul (drop (Z.to_nat off) key).

(** What [Compare] computes: lexicographically, the values at the successive offsets, then the
    numbers after them. *)
Fixpoint key_cmp (sorts : list Z) (off : Z) (a b : list byte) : Z :=
  match sorts with
  | [] => Z.sgn (atoi_val (cstr_at a off) - atoi_val (cstr_at b off))
  | i :: sorts =>
      lex_cmp (λ a b, Z.sgn (type_cmp atof flt (field_type s i) (cstr_at a off) (cstr_at b off)))
        (key_cmp sorts (off + attr_len i + 1)) a b
  end.

#[export] Instance key_cmp_order sorts off : CmpOrder (key_cmp sorts off).
Proof using Hflt.
  revert off. induction sorts as [|i sorts IH]; intros off; cbn [key_cmp].
  - apply (sgn_order (λ a b, _ - _)). apply (diff_order (λ a, atoi_val (cstr_at a off))).
  - apply lex_order; [|apply IH]. apply (sgn_order (λ a b, type_cmp _ _ _ _ _)).
    apply (on_order (λ a, cstr_at a off)). by apply type_cmp_order.
Qed.

Definition is_int_val (v : cstr) : Prop := int_min ≤ atoi_val v ≤ int_max.

(** A key [Compare] can read. *)
Fixpoint key_ok (sorts : list Z) (off : Z) (key : list byte) : Prop :=
  match sorts with
  | [] => off ≤ zlen key ∧ is_int_val (cstr_at key off)
  | i :: sorts => (field_type s i = INT → is_int_val (cstr_at key off))
      ∧ key_ok sorts (off + attr_len i + 1) key
  end.

(** A usable sort attribute. *)
Definition typed_attr (i : Z) : Prop :=
  ∃ a o, 0 ≤ i ∧ attrs s !! Z.to_nat i = Some a ∧ data_offset s !! Z.to_nat i = Some o
    ∧ is_Some (type a) ∧ 0 ≤ length_ a ∧ 0 ≤ o.

Lemma key_ok_end sorts off key : Forall typed_attr sorts → key_ok sorts off key → off ≤ zlen key.
Proof using.
  intros Ht. revert off. induction Ht as [|i sorts (a & o & _ & Ha & _ & _ & Hl & _) _ IH]; intros off; [by intros []|].
  intros [_ Hk]. apply IH in Hk. unfold attr_len in Hk. rewrite Ha in Hk. simpl in Hk. lia.
Qed.

Lemma str_at_Ok key off : 0 ≤ off ≤ zlen key → str_at (key ++ [NUL]) off = Ok (cstr_at key off).
Proof using.
  intros H. unfold str_at, cstr_at. rewrite (defined_true (_ && _)) by (rewrite length_app; lia). cbn [mbind res_bind].
  rewrite drop_app_le by lia. set (k := drop (Z.to_nat off) key).
  rewrite until_nul_app_nul. pose proof (until_nul_length k). rewrite defined_true by (rewrite length_app; simpl; lia). done.
Qed.

Lemma three_way_Z x y : three_way Z.ltb x y = Z.sgn (x - y).
Proof using. unfold three_way. destruct (Z.ltb_spec x y), (Z.ltb_spec y x); lia. Qed.

Lemma three_way_flt x y : three_way flt x y = Z.sgn (Z.b2z (flt y x) - Z.b2z (flt x y)).
Proof using Hflt.
  unfold three_way. destruct (flt x y) eqn:E; [|by destruct (flt y x)].
  destruct (flt y x) eqn:E'; [|done]. pose proof (flt_trans x y x E E') as H. by rewrite flt_irrefl in H.
Qed.

Lemma compare_values_Ok t ka kb off : 0 ≤ off ≤ zlen ka → off ≤ zlen kb →
  (t = INT → is_int_val (cstr_at ka off) ∧ is_int_val (cstr_at kb off)) →
  compare_values atof flt (Some t) (ka ++ [NUL]) (kb ++ [NUL]) off
    = Ok (Z.sgn (type_cmp atof flt t (cstr_at ka off) (cstr_at kb off))).
Proof using Hflt.
  intros Ha Hb Hint. unfold compare_values. rewrite !str_at_Ok by lia. cbn [mbind res_bind].
  assert (∀ k, until_nul (cstr_at k off) = cstr_at k off) as E by (intros; apply until_nul_idemp).
  destruct t; simpl.
  - destruct (Hint eq_refl). unfold atoi. rewrite !cint_ok by done. cbn [mbind res_bind].
    by rewrite three_way_Z.
  - by rewrite three_way_flt, !E.
  - unfold mret, res_ret. f_equal. destruct (Z.ltb_spec (strcmp (cstr_at ka off) (cstr_at kb off)) 0);
      [lia|]. destruct (Z.ltb_spec 0 (strcmp (cstr_at ka off) (cstr_at kb off))); lia.
Qed.

Lemma compare_loop_Ok sorts : ∀ off ka kb, Forall typed_attr sorts → 0 ≤ off →
  key_ok sorts off ka → key_ok sorts off kb →
  compare_loop atof flt s sorts off (ka ++ [NUL]) (kb ++ [NUL]) = Ok (key_cmp sorts off ka kb).
Proof using Hflt.
  induction sorts as [|i sorts IH]; intros off ka kb Ht Ho Ha Hb; cbn [compare_loop].
  - destruct Ha as [Hla Ha], Hb as [Hlb Hb]. rewrite !str_at_Ok by lia. cbn [mbind res_bind].
    unfold atoi. rewrite !cint_ok by done. cbn [mbind res_bind key_cmp]. by rewrite three_way_Z.
  - pose proof (key_ok_end _ _ _ Ht Ha). pose proof (key_ok_end _ _ _ Ht Hb).
    inversion Ht as [|? ? (a & o & Hi & Hat & _ & [t Hty] & Hl & _) Ht']; subst.
    destruct Ha as [Hai Ha], Hb as [Hbi Hb]. unfold vec_at. rewrite defined_true by lia.
    cbn [mbind res_bind]. rewrite Hat. cbn [of_option mbind res_bind]. rewrite Hty.
    assert (field_type s i = t) as Eft by (unfold field_type; by rewrite Hat; simpl; rewrite Hty).
    rewrite Eft in *. rewrite compare_values_Ok by (done || auto). cbn [mbind res_bind key_cmp].
    unfold lex_cmp. rewrite Eft. destruct (_ =? 0); simpl; [|done].
    unfold attr_len in *. rewrite Hat in *. simpl in *. apply IH; [done|lia|done|done].
Qed.

(** When the memory of the temporary strings is intact. *)
Lemma Compare_Ok freed ka kb : freed ka kb = (ka ++ [NUL], kb ++ [NUL]) →
  Forall typed_attr (sort_attrs s) → key_ok (sort_attrs s) 0 ka → key_ok (sort_attrs s) 0 kb →
  Compare atof flt freed s ka kb = Ok (key_cmp (sort_attrs s) 0 ka kb).
Proof using Hflt. intros E ?. unfold Compare. rewrite E. intros. by apply compare_loop_Ok. Qed.

(** ** The keys of the lines *)

(** The key of line number [n]. *)
Definition key_of (vs : list cstr) (n : Z) : list byte := concat (map (λ v, v ++ [NUL]) vs) ++ dec_of_Z n.

Definition line_key (line : list byte) (n : Z) : list byte :=
  key_of (map (λ i, field s i line) (sort_attrs s)) n.

(** The sort attributes lie inside the line, and those that are integers fit an [int]. *)
Definition fields_ok (line : list byte) : Prop :=
  ∀ i, i ∈ sort_attrs s →
    default 0 (data_offset s !! Z.to_nat i) + attr_len i ≤ zlen line
    ∧ zlen (field s i line) = attr_len i
    ∧ (field_type s i = INT → is_int_val (field s i line)).

Lemma key_of_cons v vs n : key_of (v :: vs) n = (v ++ [NUL]) ++ key_of vs n.
Proof using. unfold key_of. cbn [map concat]. by rewrite <-app_assoc. Qed.

Lemma cstr_at_value pre v rest : nul_free v →
  cstr_at (pre ++ (v ++ [NUL]) ++ rest) (zlen pre) = v.
Proof using.
  intros Hv. unfold cstr_at. rewrite Nat2Z.id, drop_app_length, <-app_assoc, until_nul_app by done.
  simpl. by rewrite app_nil_r.
Qed.

Lemma cstr_at_counter pre n : cstr_at (pre ++ dec_of_Z n) (zlen pre) = until_nul (dec_of_Z n).
Proof using. unfold cstr_at. by rewrite Nat2Z.id, drop_app_length. Qed.

Lemma dec_until_nul n : 0 ≤ n → until_nul (dec_of_Z n) = dec_of_Z n.
Proof using.
  intros. unfold dec_of_Z. replace (n <? 0) with false by lia.
  apply until_nul_id, dec_of_nonneg_nul_free.
Qed.

(** The key of a record is usable. *)
Lemma key_ok_key_of la n sorts : ∀ pa, 0 ≤ n ≤ int_max →
  (∀ i, i ∈ sorts → zlen (field s i la) = attr_len i ∧ (field_type s i = INT → is_int_val (field s i la))) →
  key_ok sorts (zlen pa) (pa ++ key_of (map (λ i, field s i la) sorts) n).
Proof using.
  induction sorts as [|i sorts IH]; intros pa Hn Hf; cbn [key_ok map].
  - unfold key_of. cbn [map concat]. simpl app. rewrite cstr_at_counter, dec_until_nul by lia.
    unfold is_int_val. rewrite atoi_dec by lia. rewrite length_app. unfold int_min. lia.
  - destruct (Hf i ltac:(by left)) as [Hl Hi]. rewrite key_of_cons.
    rewrite cstr_at_value by apply until_nul_free. split; [done|].
    specialize (IH (pa ++ field s i la ++ [NUL]) Hn ltac:(intros j Hj; apply Hf; by right)).
    rewrite <-app_assoc in IH.
    replace (zlen pa + attr_len i + 1) with (zlen (pa ++ field s i la ++ [NUL])); [done|].
    rewrite !length_app. simpl. lia.
Qed.

(** The order of keys is the order of the records, then that of the counters. *)
Lemma key_cmp_lines la lb n m sorts : ∀ pa pb, 0 ≤ n → 0 ≤ m → zlen pa = zlen pb →
  (∀ i, i ∈ sorts → zlen (field s i la) = attr_len i) →
  (∀ i, i ∈ sorts → zlen (field s i lb) = attr_len i) →
  key_cmp sorts (zlen pa) (pa ++ key_of (map (λ i, field s i la) sorts) n)
      (pb ++ key_of (map (λ i, field s i lb) sorts) m)
    = Z.sgn (lex_cmp (λ _ _ : unit, sort_cmp atof flt s sorts la lb) (λ _ _, n - m) tt tt).
Proof using.
  induction sorts as [|i sorts IH]; intros pa pb Hn Hm Hp Ha Hb; cbn [key_cmp map].
  - unfold key_of, lex_cmp. cbn [map concat sort_cmp Z.eqb]. simpl app.
    rewrite cstr_at_counter, Hp, cstr_at_counter, !dec_until_nul, !atoi_dec by lia. done.
  - specialize (IH (pa ++ field s i la ++ [NUL]) (pb ++ field s i lb ++ [NUL]) Hn Hm).
    pose proof (Ha i ltac:(by left)) as Hla. pose proof (Hb i ltac:(by left)) as Hlb.
    rewrite !key_of_cons. unfold lex_cmp at 1.
    rewrite cstr_at_value by apply until_nul_free.
    rewrite Hp, cstr_at_value by apply until_nul_free. rewrite <-Hp.
    unfold lex_cmp. cbn [sort_cmp]. unfold lex_cmp at 1 2.
    set (v := type_cmp _ _ _ _ _). destruct (Z.eqb_spec (Z.sgn v) 0) as [E|E].
    + replace (v =? 0) with true by lia.
      replace (zlen pa + attr_len i + 1) with (zlen (pa ++ field s i la ++ [NUL]))
        by (rewrite !length_app; simpl; lia).
      assert (zlen (pa ++ field s i la ++ [NUL]) = zlen (pb ++ field s i lb ++ [NUL])) as Hp'
        by (rewrite !length_app; simpl; lia).
      specialize (IH Hp' ltac:(intros j Hj; apply Ha; by right) ltac:(intros j Hj; apply Hb; by right)).
      rewrite (app_assoc pa _ (key_of _ _)), (app_assoc pb _ (key_of _ _)). exact IH.
    + replace (v =? 0) with false by lia. by replace (v =? 0) with false by lia.
Qed.

Lemma key_attr_Ok slack arr line i : typed_attr i → 1 ≤ slack →
  (∀ o n, 0 ≤ o → 0 ≤ n → o + n ≤ zlen line → slice o n arr = slice o n line ∧ o + n ≤ zlen arr) →
  default 0 (data_offset s !! Z.to_nat i) + attr_len i ≤ zlen line →
  key_attr slack s arr i = Ok (field s i line).
Proof using.
  intros (a & o & Hi & Ha & Ho & _ & Hl & Ho0) Hs Harr Hf. unfold key_attr, vec_at.
  unfold field, attr_len in *. rewrite Ha, Ho in *. simpl default in *. simpl from_option in *.
  rewrite !defined_true by lia. cbn [mbind res_bind]. cbn [of_option mbind res_bind].
  rewrite (defined_true (0 <=? length_ a)) by lia. cbn [mbind res_bind].
  destruct (Harr o (length_ a) Ho0 Hl Hf) as [E1 E2].
  rewrite read_str_slice by lia. rewrite Z2Nat.id, E1 by lia. cbn [mbind res_bind].
  set (v := slice o (length_ a) line). set (b := strncpy_bytes _ _).
  assert (zlen b = length_ a) as Hb by (unfold b; rewrite length_strncpy; lia).
  unfold set8. rewrite write_bytes_Ok by (rewrite ?length_app, ?length_replicate; simpl; lia).
  cbn [mbind res_bind]. unfold splice. rewrite take_app_length' by lia. unfold str_at.
  rewrite (defined_true (_ && _)) by lia. cbn [mbind res_bind]. rewrite drop_0. simpl app.
  rewrite until_nul_app_nul. pose proof (until_nul_length b).
  rewrite defined_true by (rewrite length_app; simpl; lia). cbn [mbind res_bind].
  unfold b. rewrite until_nul_strncpy, until_nul_idemp.
  assert (zlen v = length_ a) by (unfold v; rewrite length_slice; lia).
  pose proof (until_nul_length v). by rewrite take_ge by lia.
Qed.

Lemma key_loop_Ok slack arr line sorts : 1 ≤ slack → Forall typed_attr sorts →
  (∀ o n, 0 ≤ o → 0 ≤ n → o + n ≤ zlen line → slice o n arr = slice o n line ∧ o + n ≤ zlen arr) →
  (∀ i, i ∈ sorts → default 0 (data_offset s !! Z.to_nat i) + attr_len i ≤ zlen line) →
  ∀ i key, (0 < i)%nat → key_loop slack s arr i sorts key
    = Ok (key ++ concat (map (λ i, NUL :: field s i line) sorts)).
Proof using.
  intros Hs Ht Harr Hin. induction Ht as [|j sorts Hj Ht IH]; intros i key Hi; cbn [key_loop map concat].
  { by rewrite app_nil_r. }
  rewrite (key_attr_Ok slack arr line) by (done || apply Hin; by left). cbn [mbind res_bind].
  replace (0 <? i)%nat with true by lia. rewrite IH by (lia || intros; apply Hin; by right).
  by rewrite <-app_assoc.
Qed.

(** [get_key] builds the key of the line the array starts with. *)
Lemma get_key_Ok slack arr line n : 1 ≤ slack → sort_attrs s ≠ [] → Forall typed_attr (sort_attrs s) →
  (∀ o n, 0 ≤ o → 0 ≤ n → o + n ≤ zlen line → slice o n arr = slice o n line ∧ o + n ≤ zlen arr) →
  fields_ok line → get_key slack s arr n = Ok (line_key line n).
Proof using.
  intros Hs Hne Ht Harr Hf. unfold get_key, line_key, fields_ok in *.
  destruct (sort_attrs s) as [|i sorts]; [done|]. inversion Ht as [|? ? Hi Ht']; subst. cbn [key_loop].
  rewrite (key_attr_Ok slack arr line) by (done || apply Hf; by left). cbn [mbind res_bind].
  cbn [Nat.ltb Nat.leb]. rewrite (key_loop_Ok slack arr line) by (done || lia || (intros; apply Hf; by right)).
  cbn [mbind res_bind map]. rewrite key_of_cons. unfold mret, res_ret. f_equal.
  generalize (field s i line) as v. clear -sorts. induction sorts as [|j sorts IH]; intros v; simpl.
  - by rewrite app_nil_r, <-!app_assoc.
  - rewrite key_of_cons. specialize (IH (field s j line)). rewrite <-!app_assoc in *.
    f_equal. simpl in *. by rewrite <-IH, <-app_assoc.
Qed.
End keys.

(** ** The program *)

Lemma put_fresh c k v l : Forall (λ e : entry, c e.1 k ≠ 0) l → put_entries c k v l ≡ₚ (k, v) :: l.
Proof.
  unfold put_entries. induction 1 as [|e l He _ IH]; simpl; [done|].
  destruct (Z.ltb_spec (c e.1 k) 0), (Z.ltb_spec 0 (c e.1 k)); try lia; simpl.
  - rewrite IH. apply perm_swap.
  - rewrite <-Permutation_middle in IH |- *. rewrite <-Permutation_middle.
    by rewrite perm_swap, IH, perm_swap.
Qed.

Definition line_at (lines : list (list byte)) (i : nat) : list byte := default [] (lines !! i).

Section bsort.
Context {F : Type} (atof : cstr → F) (flt : F → F → bool) {Hflt : FloatOrder flt}.
Context {DB : Type} `{StoreSpec DB}.
Context (s : Schema) (slack : Z) (Hslack : 1 ≤ slack).
Context (Hne : sort_attrs s ≠ []) (Htyped : Forall (typed_attr s) (sort_attrs s)).
Local Abbreviation c := (key_cmp atof flt s (sort_attrs s) 0).
Local Abbreviation P := (key_ok s (sort_attrs s) 0).

(** A line that [fgets] reads whole and whose sort attributes are in place. *)
Definition line_ok (line : list byte) : Prop :=
  ∃ body, line = body ++ [NEWLINE] ∧ (NEWLINE ∉ body) ∧ nul_free body ∧ zlen body + 1 < MAX_LINE_LEN
    ∧ fields_ok s line.

Definition line_entry (lines : list (list byte)) (i : nat) : entry :=
  (line_key s (line_at lines i) (Z.of_nat i), line_at lines i).

Definition entries_of (lines : list (list byte)) : list entry :=
  map (line_entry lines) (seq 0 (length lines)).

Lemma entries_snoc lines x :
  entries_of (lines ++ [x]) = entries_of lines ++ [(line_key s x (zlen lines), x)].
Proof using.
  unfold entries_of. rewrite length_app, Nat.add_1_r, seq_S, map_app. simpl. f_equal.
  - apply map_ext_in. intros i Hi%in_seq. unfold line_entry, line_at. by rewrite lookup_app_l by lia.
  - unfold line_entry, line_at. by rewrite lookup_app_r, Nat.sub_diag by done.
Qed.

Lemma line_key_ok line n : line_ok line → 0 ≤ n ≤ int_max → P (line_key s line n).
Proof using.
  intros (body & -> & _ & _ & _ & Hf) Hn.
  apply (key_ok_key_of s (body ++ [NEWLINE]) n (sort_attrs s) [] Hn).
  intros i Hi. destruct (Hf i Hi) as (_ & ? & ?). done.
Qed.

Lemma line_cmp la lb n m : line_ok la → line_ok lb → 0 ≤ n → 0 ≤ m →
  c (line_key s la n) (line_key s lb m)
    = Z.sgn (if sort_cmp atof flt s (sort_attrs s) la lb =? 0 then n - m
             else sort_cmp atof flt s (sort_attrs s) la lb).
Proof using.
  intros (ba & -> & _ & _ & _ & Ha) (bb & -> & _ & _ & _ & Hb) Hn Hm.
  apply (key_cmp_lines atof flt s (ba ++ [NEWLINE]) (bb ++ [NEWLINE]) n m (sort_attrs s) [] []);
    try done; intros i Hi; [by destruct (Ha i Hi) as (_ & ? & _)|by destruct (Hb i Hi) as (_ & ? & _)].
Qed.

(** Reading a line into the array leaves it at the front, terminated. *)
Lemma line_array line arr : line_ok line → zlen arr = MAX_LINE_LEN →
  ∃ arr', write_bytes arr 0 (line ++ [NUL]) = Ok arr' ∧ zlen arr' = MAX_LINE_LEN
    ∧ until_nul arr' = line
    ∧ ∀ o n, 0 ≤ o → 0 ≤ n → o + n ≤ zlen line → slice o n arr' = slice o n line ∧ o + n ≤ zlen arr'.
Proof using.
  intros (body & -> & _ & Hnul & Hl & _) Ha. unfold MAX_LINE_LEN in *.
  assert (zlen ((body ++ [NEWLINE]) ++ [NUL]) ≤ zlen arr) as Hfit by (rewrite !length_app; simpl; lia).
  rewrite write_bytes_Ok by lia. eexists. split; [done|].
  assert (zlen (splice 0 ((body ++ [NEWLINE]) ++ [NUL]) arr) = 10000) as Hlen
    by (rewrite length_splice; lia).
  split; [done|]. split.
  - unfold splice. simpl take. simpl app. rewrite <-!app_assoc. simpl app.
    rewrite until_nul_app by done. done.
  - intros o n Ho Hn Hin. split; [|rewrite Hlen; rewrite length_app in Hin; simpl in Hin; lia].
    unfold splice. simpl take. simpl app. rewrite <-(app_assoc (body ++ [NEWLINE])).
    by rewrite slice_app_l.
Qed.

(** The entries after the lines [lines], numbered from [n], are put. *)
Fixpoint put_lines (cmp : list byte → list byte → Z) (n : Z) (lines : list (list byte)) (l : list entry)
    : list entry :=
  match lines with
  | [] => l
  | x :: lines => put_lines cmp (n + 1) lines (put_entries cmp (line_key s x n) x l)
  end.

(** Whatever the order of the store, every line is put under its key. *)
Lemma insert_loop_Ok cmp lines : ∀ fuel done_ arr db l, Forall line_ok lines →
  zlen arr = MAX_LINE_LEN → store_inv db cmp P l →
  zlen (done_ ++ lines) ≤ int_max → (length lines < fuel)%nat →
  ∃ db', insert_loop fuel slack s (MkFILE (concat (done_ ++ lines)) (zlen (concat done_))) arr
      (zlen done_) db = Ok db' ∧ store_inv db' cmp P (put_lines cmp (zlen done_) lines l).
Proof using Hslack Hne Htyped.
  induction lines as [|x lines IH]; intros [|fuel] done_ arr db l Hok Harr Hinv Hmax Hf;
    try (simpl in Hf; lia); cbn [insert_loop put_lines].
  - rewrite app_nil_r, fgets_eof. by exists db.
  - inversion Hok as [|? ? Hx Hl]; subst.
    destruct (line_array x arr Hx Harr) as (arr' & Hw & Harr' & Hstr & Hslice).
    pose proof Hx as (body & Ebody & Hnl & _ & Hlen & Hfields).
    assert (fgets MAX_LINE_LEN (MkFILE (concat (done_ ++ x :: lines)) (zlen (concat done_)))
      = (Some x, MkFILE (concat (done_ ++ x :: lines)) (zlen (concat (done_ ++ [x]))))) as ->.
    { rewrite !concat_app. cbn [concat]. rewrite app_nil_r, Ebody. by apply fgets_whole. }
    rewrite Hw. cbn [mbind res_bind]. rewrite length_app in Hmax. simpl in Hmax.
    rewrite to_int_small by (unfold int_min; lia).
    rewrite (get_key_Ok s slack arr' x) by done. cbn [mbind res_bind]. rewrite Hstr.
    destruct (put_spec db cmp P l (line_key s x (zlen done_)) x Hinv) as (db' & -> & Hinv').
    { apply line_key_ok; [done|lia]. }
    cbn [mbind res_bind]. replace (zlen done_ + 1) with (zlen (done_ ++ [x])) by (rewrite length_app; simpl; lia).
    assert (done_ ++ x :: lines = (done_ ++ [x]) ++ lines) as E by (by rewrite <-app_assoc).
    rewrite E. apply (IH fuel (done_ ++ [x]) arr' db'); try done.
    + rewrite <-E, length_app. simpl. lia.
    + simpl in Hf. lia.
Qed.

(** With the order of the keys no line is lost. *)
Lemma put_lines_sorted lines : ∀ done_ l, Forall line_ok (done_ ++ lines) →
  strictly c l → l ≡ₚ entries_of done_ →
  strictly c (put_lines c (zlen done_) lines l)
  ∧ put_lines c (zlen done_) lines l ≡ₚ entries_of (done_ ++ lines).
Proof using Hflt.
  induction lines as [|x lines IH]; intros done_ l Hok Hs Hp; cbn [put_lines]; [by rewrite app_nil_r|].
  pose proof Hok as Hok'. apply Forall_app in Hok' as [Hdone Hxs]. inversion Hxs as [|? ? Hx Hl]; subst.
  replace (zlen done_ + 1) with (zlen (done_ ++ [x])) by (rewrite length_app; simpl; lia).
  assert (done_ ++ x :: lines = (done_ ++ [x]) ++ lines) as E by (by rewrite <-app_assoc).
  rewrite E in *. apply IH; [done| |].
  - by apply strictly_put; [apply key_cmp_order|].
  - rewrite entries_snoc, put_fresh, Hp; [by rewrite <-Permutation_cons_append|].
    rewrite Hp. apply Forall_forall. intros e (i & -> & Hi)%list_elem_of_fmap.
    apply list_elem_of_In, in_seq in Hi. simpl in Hi. unfold line_entry. cbn [fst].
    destruct (lookup_lt_is_Some_2 done_ i) as [y Hy]; [lia|].
    assert (line_ok y) as Hyok by (rewrite Forall_lookup in Hdone; by eapply Hdone).
    unfold line_at. rewrite Hy. simpl default. rewrite line_cmp by (done || lia).
    destruct (Z.eqb_spec (sort_cmp atof flt s (sort_attrs s) y x) 0); lia.
Qed.

(** If all keys compare equal only the last line stays. *)
Lemma put_lines_equal lines x : ∀ n l,
  put_lines (λ _ _, 0) n (lines ++ [x]) l = [(line_key s x (n + zlen lines), x)].
Proof using.
  induction lines as [|y lines IH]; intros n l; cbn [put_lines app].
  - rewrite Z.add_0_r. unfold put_entries. by rewrite !filter_none by (by apply Forall_true).
  - rewrite IH. do 3 f_equal. simpl. lia.
Qed.

Lemma write_values_Ok l : ∀ bs, fcontents (write_values l (MkFILE bs (zlen bs)))
  = bs ++ concat (map (λ e, e.2 ++ [NUL]) l).
Proof using.
  induction l as [|[k v] l IH]; intros bs; cbn [write_values map concat]; [by rewrite app_nil_r|].
  rewrite fwrite_at_end by done. cbn [fpos fcontents].
  replace (zlen bs + zlen (v ++ [NUL])) with (zlen (bs ++ v ++ [NUL])) by (rewrite (length_app bs); lia).
  rewrite IH. by rewrite <-app_assoc.
Qed.

(** The lines of the entries, in iteration order, are in stable sorted order. *)
Lemma entries_sorted lines l : Forall line_ok lines → strictly c l → l ≡ₚ entries_of lines →
  ∃ order, order ≡ₚ seq 0 (length lines) ∧ l = map (line_entry lines) order
    ∧ StronglySorted (λ i j, let v := sort_cmp atof flt s (sort_attrs s) (line_at lines i) (line_at lines j) in
        v < 0 ∨ (v = 0 ∧ (i < j)%nat)) order.
Proof using.
  intros Hok Hs Hp. unfold entries_of in Hp.
  apply Permutation_map_inv in Hp as (order & -> & Hp). exists order. split; [by symmetry|]. split; [done|].
  assert (∀ i, i ∈ order → line_ok (line_at lines i)) as Hall.
  { intros i Hi. rewrite <-Hp in Hi. apply list_elem_of_In, in_seq in Hi. simpl in Hi.
    destruct (lookup_lt_is_Some_2 lines i) as [y Hy]; [lia|]. unfold line_at. rewrite Hy.
    rewrite Forall_lookup in Hok. by eapply Hok. }
  clear Hp. induction order as [|i order IH]; [constructor|]. inversion Hs as [|? ? Hs' Hi]; subst.
  constructor; [apply IH; [done|]; intros j Hj; apply Hall; by right|].
  apply Forall_forall. intros j Hj. rewrite Forall_forall in Hi.
  specialize (Hi (line_entry lines j) ltac:(apply list_elem_of_fmap; by exists j)). unfold line_entry in Hi.
  cbn [fst] in Hi. rewrite line_cmp in Hi by (lia || (apply Hall; (by left) || (by right))). simpl.
  destruct (Z.eqb_spec (sort_cmp atof flt s (sort_attrs s) (line_at lines i) (line_at lines j)) 0); lia.
Qed.
End bsort.

(** * The theorems on bsort *)

(** The schema [main] of bsort.cc builds; it does not set [record_size]. *)
Definition bsort_schema (l : list json_attr) (sorts : list Z) : Schema :=
  MkSchema (map attr_of l) sorts (offsets l) 0.

Section props.
Context {F : Type} (atof : cstr → F) (flt : F → F → bool) {Hflt : FloatOrder flt}.

(** The keys order the lines: for two lines whose sort attributes are in place, and
    two counters, [get_key] builds both keys when the allocator leaves a spare byte after each
    attribute, and, if the memory of the released strings is intact, [Compare] gives the sign
    of the lexicographic comparison of the sort attributes, ties being resolved by the
    counters. *)
Theorem Compare_keys s slack freed la lb n m
  (Hslack : 1 ≤ slack) (Hfreed : ∀ a b, freed a b = (a ++ [NUL], b ++ [NUL]))
  (Hne : sort_attrs s ≠ []) (Htyped : Forall (typed_attr s) (sort_attrs s))
  (Hla : line_ok s la) (Hlb : line_ok s lb) (Hn : 0 ≤ n ≤ int_max) (Hm : 0 ≤ m ≤ int_max) :
  let v := sort_cmp atof flt s (sort_attrs s) la lb in
  ∃ ka kb, get_key slack s la n = Ok ka ∧ get_key slack s lb m = Ok kb
    ∧ Compare atof flt freed s ka kb = Ok (Z.sgn (if v =? 0 then n - m else v)).
Proof.
  intros v. pose proof Hla as (ba & _ & _ & _ & _ & Hfa). pose proof Hlb as (bb & _ & _ & _ & _ & Hfb).
  exists (line_key s la n), (line_key s lb m).
  split; [by apply get_key_Ok|]. split; [by apply get_key_Ok|].
  rewrite Compare_Ok by (done || by apply line_key_ok). by rewrite line_cmp by (done || lia).
Qed.

(** [get_key] writes past the end of its buffer: [new char[attr_len]] has no room for
    the NUL stored at index [attr_len], so under the rules of the language every call with a
    sort attribute is undefined, whatever the line. *)
Theorem get_key_overflow s line n i sorts (Hs : sort_attrs s = i :: sorts) :
  typed_attr s i → zlen line = MAX_LINE_LEN →
  default 0 (data_offset s !! Z.to_nat i) + attr_len s i ≤ MAX_LINE_LEN →
  get_key 0 s line n = Err UB.
Proof.
  intros (a & o & Hi & Ha & Ho & _ & Hl & Ho0) Hline Hfit. unfold get_key. rewrite Hs.
  cbn [key_loop]. unfold key_attr, vec_at, attr_len in *. rewrite Ha, Ho in *. simpl in Hfit.
  rewrite !defined_true by lia. cbn [mbind res_bind of_option mret res_ret].
  rewrite (defined_true (0 <=? length_ a)) by lia. cbn [mbind res_bind].
  rewrite read_str_slice by lia. cbn [mbind res_bind]. unfold set8.
  rewrite write_bytes_UB; [done|]. rewrite app_nil_r, length_strncpy. simpl. lia.
Qed.

Lemma lines_fuel s lines : Forall (line_ok s) lines → (length lines < S (length (concat lines)))%nat.
Proof using.
  induction 1 as [|x lines (body & -> & _) _ IH]; cbn [concat length]; [lia|].
  rewrite !length_app. simpl. lia.
Qed.

Section main.
Context {DB : Type} `{Hstore : Store DB} {Hspec : @StoreSpec DB Hstore}.
Context (parse_json : option (list byte) → list byte + list json_attr) (t0 t1 : Z * Z) (stack_junk : list byte) (argv : list cstr) (f : fs).
Context (l : list json_attr) (sorts : list Z) (slack : Z) (lines : list (list byte)).
Local Abbreviation s := (bsort_schema l sorts).
Context (Hargc : zlen argv = 5) (Hjson : parse_json (f (arg argv 1)) = inr l).
Context (Hlen : Forall (λ a : json_attr, 0 ≤ a.2) l) (Hwidth : width l ≤ int_max).
Context (Hattrs : set_schema_sort_attr (bsort_schema l []) (arg argv 4) = Ok s).
Context (Hne : sorts ≠ []) (Htyped : Forall (typed_attr s) sorts).
Context (Hin : f (arg argv 2) = Some (concat lines)) (Hlines : Forall (line_ok s) lines).
Context (Hmax : zlen lines ≤ int_max) (Hslack : 1 ≤ slack) (Hstack : zlen stack_junk = MAX_LINE_LEN).

(** [main] on a store opened with an order that [Compare] computes. *)
Lemma bsort_main_Ok freed cmp db0 : CmpOrder cmp →
  (∀ a b, key_ok s sorts 0 a → key_ok s sorts 0 b → Compare atof flt freed s a b = Ok (cmp a b)) →
  db_open (Compare atof flt freed s) = Some db0 →
  bsort_main atof flt parse_json t0 t1 freed slack stack_junk argv f
    = Ok (MkOutcome 0 (print_time t0 t1) (fs_set (arg argv 3)
        (concat (map (λ e, e.2 ++ [NUL]) (put_lines s cmp 0 lines []))) f)).
Proof using Hspec Hargc Hjson Hlen Hwidth Hattrs Hne Htyped Hin Hlines Hmax Hslack Hstack.
  intros Hc Hcmp Hopen. pose proof (open_spec _ cmp (key_ok s sorts 0) db0 Hc Hcmp Hopen) as Hinv.
  unfold bsort_main. replace (zlen argv =? 5) with true by lia. simpl negb. cbv iota.
  rewrite Hjson, load_attrs_Ok by done. cbn [mbind res_bind].
  change (MkSchema (map attr_of l) [] (offsets l) 0) with (bsort_schema l []).
  rewrite Hattrs. cbn [mbind res_bind]. rewrite Hopen, Hin. unfold insert_tree. cbn [fcontents].
  destruct (insert_loop_Ok s slack Hslack Hne Htyped cmp lines (S (length (concat lines))) []
    stack_junk db0 [] Hlines Hstack Hinv) as (db & Hrun & Hinv'); [done|by apply (lines_fuel (bsort_schema l sorts))|].
  simpl app in Hrun. change (zlen (concat [])) with 0 in Hrun. change (zlen []) with 0 in Hrun.
  rewrite Hrun. cbn [mbind res_bind]. unfold retrieve_tree. rewrite (entries_spec _ _ _ _ Hinv').
  cbn [mbind res_bind mret res_ret]. change (MkFILE [] 0) with (MkFILE [] (zlen (@nil byte))). by rewrite write_values_Ok.
Qed.

(** Claim C3. bsort sorts stably: if the store implements its interface and opens, the memory of
    the comparator's released strings is intact, the allocator leaves a spare byte, and every
    line fits the line buffer and has its sort attributes in place, [main] ends with status 0
    and the output file holds every input line exactly once, each followed by a NUL, in
    lexicographic order of the sort attributes, equal ones in input order. It prints the time it took, and no other file
    changes but those of the store. *)
Theorem bsort_main_sorts freed db0
  (Hfreed : ∀ a b, freed a b = (a ++ [NUL], b ++ [NUL]))
  (Hopen : db_open (Compare atof flt freed s) = Some db0) :
  ∃ order,
    bsort_main atof flt parse_json t0 t1 freed slack stack_junk argv f
      = Ok (MkOutcome 0 (print_time t0 t1) (fs_set (arg argv 3)
          (concat (map (λ i, line_at lines i ++ [NUL]) order)) f))
    ∧ order ≡ₚ seq 0 (length lines)
    ∧ StronglySorted (λ i j, let v := sort_cmp atof flt s sorts (line_at lines i) (line_at lines j) in
        v < 0 ∨ (v = 0 ∧ (i < j)%nat)) order.
Proof using Hspec Hargc Hjson Hlen Hwidth Hattrs Hne Htyped Hin Hlines Hmax Hslack Hstack Hflt.
  destruct (put_lines_sorted atof flt s lines [] [] Hlines) as [Hs Hp]; [constructor|done|].
  destruct (entries_sorted atof flt s lines _ Hlines Hs Hp) as (order & Ho & El & Hso).
  exists order. split_and!; [|done|done].
  rewrite (bsort_main_Ok freed (key_cmp atof flt s sorts 0) db0); [|by apply key_cmp_order| |done].
  - change (zlen []) with 0 in El. cbn [sort_attrs bsort_schema] in El. rewrite El, map_map. done.
  - intros a b Ha Hb. by apply Compare_Ok.
Qed.

(** [Compare] reads strings that have been released. If the allocator gives the second
    temporary string the block of the first one, all keys compare equal, every [Put] replaces
    the entry before it, and bsort outputs only the last line of its input. *)
Theorem bsort_reused_block freed db0 init last
  (Hfreed : ∀ a b, freed a b = (b ++ [NUL], b ++ [NUL])) (Hlast : lines = init ++ [last])
  (Hopen : db_open (Compare atof flt freed s) = Some db0) :
  bsort_main atof flt parse_json t0 t1 freed slack stack_junk argv f
    = Ok (MkOutcome 0 (print_time t0 t1) (fs_set (arg argv 3) (last ++ [NUL]) f)).
Proof using Hspec Hargc Hjson Hlen Hwidth Hattrs Hne Htyped Hin Hlines Hmax Hslack Hstack Hflt.
  rewrite (bsort_main_Ok freed (λ _ _, 0) db0); [|apply zero_order| |done].
  - rewrite Hlast, put_lines_equal. simpl. by rewrite app_nil_r.
  - intros a b Ha Hb. unfold Compare. rewrite Hfreed. cbn [sort_attrs bsort_schema].
    rewrite compare_loop_Ok by done. f_equal. apply (cmp_refl (key_cmp atof flt s sorts 0)).
Qed.
End main.
End props.

(** ** Sample run *)

Definition pair_lines : list (list byte) :=
  map (λ s, str s ++ [NEWLINE]) ["bb,1"; "aa,2"; "bb,0"; "ab,7"]%string.
Definition bsort_argv : list cstr := map str ["bsort"; "schema"; "in"; "out"; "k"]%string.
Definition intact (a b : list byte) : list byte * list byte := (a ++ [NUL], b ++ [NUL]).
Definition reused (a b : list byte) : list byte * list byte := (b ++ [NUL], b ++ [NUL]).
Definition pair_schema : Schema := bsort_schema key_json [0].

Lemma pair_typed : Forall (typed_attr pair_schema) [0].
Proof.
  repeat constructor. exists (attr_of (str "k", str "string", 2)), 0. by split_and!.
Qed.

Lemma pair_line_ok body : NEWLINE ∉ body → nul_free body → zlen body = 4 → line_ok pair_schema (body ++ [NEWLINE]).
Proof.
  intros Hb Hn Hl. exists body. unfold MAX_LINE_LEN. split_and!; try done; [lia|].
  intros i ->%list_elem_of_singleton. destruct body as [|b1 [|b2 [|b3 [|b4 [|]]]]]; try (simpl in Hl; lia).
  unfold nul_free in Hn. rewrite !not_elem_of_cons in Hn. destruct Hn as (? & ? & _).
  split_and!; [simpl; unfold attr_len; simpl; lia| |done].
  unfold field, attr_len. simpl. rewrite !decide_False by congruence. done.
Qed.

Lemma pair_lines_ok : Forall (line_ok pair_schema) pair_lines.
Proof.
  repeat constructor; apply pair_line_ok; try reflexivity;
    apply (bool_decide_unpack _); vm_compute; exact I.
Qed.

Lemma bsort_main_sorts_witness : ∃ order,
  bsort_main (DB := list_db) atoi_val Z.ltb (λ _, inr key_json) (3, 500) (7, 250) intact 1 (replicate (Z.to_nat MAX_LINE_LEN) NUL) bsort_argv
      (msort_fs (concat pair_lines))
    = Ok (MkOutcome 0 (print_time (3, 500) (7, 250)) (fs_set (str "out")
        (concat (map (λ i, line_at pair_lines i ++ [NUL]) order)) (msort_fs (concat pair_lines))))
  ∧ order ≡ₚ seq 0 4
  ∧ StronglySorted (λ i j, let v := sort_cmp atoi_val Z.ltb pair_schema [0] (line_at pair_lines i) (line_at pair_lines j) in
      v < 0 ∨ (v = 0 ∧ (i < j)%nat)) order.
Proof.
  apply (bsort_main_sorts atoi_val Z.ltb (λ _, inr key_json) (3, 500) (7, 250) (replicate (Z.to_nat MAX_LINE_LEN) NUL)
    bsort_argv (msort_fs (concat pair_lines)) key_json [0] 1 pair_lines)
    with (db0 := MkListDB (Compare atoi_val Z.ltb intact pair_schema) []).
  - reflexivity.
  - reflexivity.
  - repeat constructor; vm_compute; discriminate.
  - vm_compute. discriminate.
  - reflexivity.
  - discriminate.
  - exact pair_typed.
  - reflexivity.
  - exact pair_lines_ok.
  - vm_compute. discriminate.
  - lia.
  - by rewrite length_replicate.
  - reflexivity.
  - reflexivity.
Defined.

Lemma bsort_reused_block_witness :
  bsort_main (DB := list_db) atoi_val Z.ltb (λ _, inr key_json) (3, 500) (7, 250) reused 1 (replicate (Z.to_nat MAX_LINE_LEN) NUL) bsort_argv
      (msort_fs (concat pair_lines))
    = Ok (MkOutcome 0 (print_time (3, 500) (7, 250)) (fs_set (str "out") ((str "ab,7" ++ [NEWLINE]) ++ [NUL])
        (msort_fs (concat pair_lines)))).
Proof.
  apply (bsort_reused_block atoi_val Z.ltb (λ _, inr key_json) (3, 500) (7, 250) (replicate (Z.to_nat MAX_LINE_LEN) NUL)
    bsort_argv (msort_fs (concat pair_lines)) key_json [0] 1 pair_lines)
    with (db0 := MkListDB (Compare atoi_val Z.ltb reused pair_schema) [])
         (init := map (λ s, str s ++ [NEWLINE]) ["bb,1"; "aa,2"; "bb,0"]%string).
  - reflexivity.
  - reflexivity.
  - repeat constructor; vm_compute; discriminate.
  - vm_compute. discriminate.
  - reflexivity.
  - discriminate.
  - exact pair_typed.
  - reflexivity.
  - exact pair_lines_ok.
  - vm_compute. discriminate.
  - lia.
  - by rewrite length_replicate.
  - reflexivity.
  - reflexivity.
  - reflexivity.
Defined.

Lemma Compare_keys_witness : ∃ ka kb,
  get_key 1 pair_schema (str "bb,1" ++ [NEWLINE]) 3 = Ok ka
  ∧ get_key 1 pair_schema (str "bb,0" ++ [NEWLINE]) 5 = Ok kb
  ∧ Compare atoi_val Z.ltb intact pair_schema ka kb = Ok (-1).
Proof.
  apply (Compare_keys atoi_val Z.ltb pair_schema 1 intact (str "bb,1" ++ [NEWLINE]) (str "bb,0" ++ [NEWLINE]) 3 5).
  - lia.
  - reflexivity.
  - discriminate.
  - exact pair_typed.
  - apply pair_line_ok; [apply (bool_decide_unpack _); vm_compute; exact I..|reflexivity].
  - apply pair_line_ok; [apply (bool_decide_unpack _); vm_compute; exact I..|reflexivity].
  - unfold int_max. lia.
  - unfold int_max. lia.
Defined.

Lemma get_key_overflow_witness :
  get_key 0 pair_schema (replicate (Z.to_nat MAX_LINE_LEN) x61) 0 = Err UB.
Proof.
  apply (get_key_overflow pair_schema (replicate (Z.to_nat MAX_LINE_LEN) x61) 0 0 []).
  - reflexivity.
  - exact (Forall_inv pair_typed).
  - by rewrite length_replicate.
  - vm_compute. discriminate.
Defined.
