(* ===== verification/Coding.v ===== *)
(** * Integer and string encodings: leveldb util/coding.cc, coding.h

    A [Slice] and a range [p, limit) of characters are the list of their bytes; a function
    that advances a pointer returns the bytes that are left. Unsigned values are integers in
    their range. *)
From S2P Require Import Prelude Buffers.

(** ** Fixed-width integers

    The programs run on ports where [port::kLittleEndian] holds: the bytes of the object are
    copied. The [_portable] versions are the other branches. *)

Definition EncodeFixed32 (value : Z) : list byte := le_bytes 4 value.
Definition EncodeFixed64 (value : Z) : list byte := le_bytes 8 value.

Definition EncodeFixed32_portable (value : Z) : list byte :=
  map (λ k, zb (Z.land (Z.shiftr value k) 255)) [0; 8; 16; 24].
Definition EncodeFixed64_portable (value : Z) : list byte :=
  map (λ k, zb (Z.land (Z.shiftr value k) 255)) [0; 8; 16; 24; 32; 40; 48; 56].

Definition PutFixed32 (dst : list byte) (value : Z) : list byte := dst ++ EncodeFixed32 value.
Definition PutFixed64 (dst : list byte) (value : Z) : list byte := dst ++ EncodeFixed64 value.

(** Reading fewer bytes than the object has is undefined. *)
Definition DecodeFixed32 (ptr : list byte) : res Z := bs ← read_bytes ptr 0 4; mret (le_val bs).
Definition DecodeFixed64 (ptr : list byte) : res Z := bs ← read_bytes ptr 0 8; mret (le_val bs).

Definition DecodeFixed32_portable (ptr : list byte) : res Z :=
  b0 ← get8 ptr 0; b1 ← get8 ptr 1; b2 ← get8 ptr 2; b3 ← get8 ptr 3;
  mret (Z.lor (Z.lor (Z.lor (bz b0) (u32 (Z.shiftl (bz b1) 8))) (u32 (Z.shiftl (bz b2) 16)))
          (u32 (Z.shiftl (bz b3) 24))).

(** ** Varints *)

Definition EncodeVarint32 (v : Z) : list byte :=
  let B := 128 in
  if v <? Z.shiftl 1 7 then [zb v]
  else if v <? Z.shiftl 1 14 then [zb (Z.lor v B); zb (Z.shiftr v 7)]
  else if v <? Z.shiftl 1 21 then [zb (Z.lor v B); zb (Z.lor (Z.shiftr v 7) B); zb (Z.shiftr v 14)]
  else if v <? Z.shiftl 1 28 then
    [zb (Z.lor v B); zb (Z.lor (Z.shiftr v 7) B); zb (Z.lor (Z.shiftr v 14) B); zb (Z.shiftr v 21)]
  else
    [zb (Z.lor v B); zb (Z.lor (Z.shiftr v 7) B); zb (Z.lor (Z.shiftr v 14) B);
     zb (Z.lor (Z.shiftr v 21) B); zb (Z.shiftr v 28)].

Definition PutVarint32 (dst : list byte) (v : Z) : list byte := dst ++ EncodeVarint32 v.

(** [while (v >= B)]: a 64-bit value allows nine rounds at most. *)
Fixpoint varint64_loop (n : nat) (v : Z) : list byte :=
  match n with
  | O => [zb v]
  | S n =>
      if 128 <=? v then zb (Z.lor (Z.land v 127) 128) :: varint64_loop n (Z.shiftr v 7) else [zb v]
  end.

Definition EncodeVarint64 (v : Z) : list byte := varint64_loop 9 v.
Definition PutVarint64 (dst : list byte) (v : Z) : list byte := dst ++ EncodeVarint64 v.

Definition PutLengthPrefixedSlice (dst value : list byte) : list byte :=
  PutVarint32 dst (u32 (Z.of_nat (length value))) ++ value.

Fixpoint varint_length_loop (n : nat) (v len : Z) : Z :=
  match n with
  | O => len
  | S n => if 128 <=? v then varint_length_loop n (Z.shiftr v 7) (len + 1) else len
  end.

Definition VarintLength (v : Z) : Z := varint_length_loop 9 v 1.

(** The loops of [GetVarint32PtrFallback] and [GetVarint64Ptr] from [shift] on, [n] rounds left;
    [wrap] is the width of [result]. *)
Fixpoint get_varint_loop (wrap : Z → Z) (n : nat) (shift result : Z) (p : list byte)
    : option (Z * list byte) :=
  match n, p with
  | S n, b :: p =>
      let byte := bz b in
      if negb (Z.land byte 128 =? 0) then
        get_varint_loop wrap n (shift + 7)
          (Z.lor result (wrap (Z.shiftl (Z.land byte 127) shift))) p
      else Some (Z.lor result (wrap (Z.shiftl byte shift)), p)
  | _, _ => None
  end.

(** [shift <= 28] and [shift <= 63], in steps of 7. *)
Definition GetVarint32PtrFallback (p : list byte) : option (Z * list byte) :=
  get_varint_loop u32 5 0 0 p.
Definition GetVarint64Ptr (p : list byte) : option (Z * list byte) :=
  get_varint_loop u64 10 0 0 p.

Definition GetVarint32Ptr (p : list byte) : option (Z * list byte) :=
  match p with
  | b :: q => if Z.land (bz b) 128 =? 0 then Some (bz b, q) else GetVarint32PtrFallback p
  | [] => GetVarint32PtrFallback p
  end.

Definition GetVarint32 (input : list byte) : option (Z * list byte) := GetVarint32Ptr input.
Definition GetVarint64 (input : list byte) : option (Z * list byte) := GetVarint64Ptr input.

(** Both versions: the slice and the rest. *)
Definition GetLengthPrefixedSlice (input : list byte) : option (list byte * list byte) :=
  match GetVarint32 input with
  | Some (len, input) =>
      if len <=? Z.of_nat (length input) then
        Some (take (Z.to_nat len) input, drop (Z.to_nat len) input)
      else None
  | None => None
  end.

(** ** Lemmas: bits *)

Lemma bit_above a s i : 0 ≤ s ≤ i → 0 ≤ a < 2 ^ s → Z.testbit a i = false.
Proof.
  intros Hs Ha. destruct (decide (a = 0)) as [->|]; [apply Z.bits_0|].
  apply Z.bits_above_log2; [lia|]. apply Z.lt_le_trans with s; [|lia]. apply Z.log2_lt_pow2; lia.
Qed.

Lemma land_shiftl_0 a b s : 0 ≤ s → 0 ≤ a < 2 ^ s → Z.land a (Z.shiftl b s) = 0.
Proof.
  intros Hs Ha. apply Z.bits_inj'. intros i Hi. rewrite Z.land_spec, Z.bits_0.
  destruct (Z.ltb_spec i s).
  - by rewrite Z.shiftl_spec_low, andb_false_r by lia.
  - by rewrite (bit_above a s i) by lia.
Qed.

Lemma lxor_shiftl_add a b s : 0 ≤ s → 0 ≤ a < 2 ^ s → Z.lxor a (Z.shiftl b s) = a + b * 2 ^ s.
Proof.
  intros Hs Ha. rewrite <-Z.shiftl_mul_pow2 by done.
  by rewrite Z.add_nocarry_lxor by (by apply land_shiftl_0).
Qed.

Lemma lor_shiftl_add a b s : 0 ≤ s → 0 ≤ a < 2 ^ s → Z.lor a (Z.shiftl b s) = a + b * 2 ^ s.
Proof.
  intros Hs Ha. rewrite <-lxor_shiftl_add by done. symmetry. by apply Z.lxor_lor, land_shiftl_0.
Qed.

Lemma land_127 v : Z.land v 127 = v mod 128.
Proof. change 127 with (Z.ones 7). by rewrite Z.land_ones. Qed.

Lemma zb_lor_128 v : zb (Z.lor v 128) = zb (v mod 128 + 128).
Proof.
  apply bz_inj. rewrite !bz_zb. change 256 with (2 ^ 8). rewrite <-!Z.land_ones by done.
  change 128 with (Z.shiftl 1 7) at 1 3.
  replace (v mod 128 + Z.shiftl 1 7) with (Z.lor (Z.land v 127) (Z.shiftl 1 7)).
  2:{ pose proof (Z.mod_pos_bound v 128 ltac:(lia)).
      rewrite land_127, lor_shiftl_add by (change (2 ^ 7) with 128; lia). done. }
  apply Z.bits_inj'. intros i Hi. rewrite !Z.land_spec, !Z.lor_spec, Z.land_spec.
  change 127 with (Z.ones 7). destruct (Z.ltb_spec i 7).
  - by rewrite (Z.ones_spec_low 7 i), andb_true_r by lia.
  - destruct (Z.ltb_spec i 8).
    + replace i with 7 by lia. change (Z.testbit (Z.shiftl 1 7) 7) with true. by rewrite !orb_true_r.
    + by rewrite (Z.ones_spec_high 8 i), !andb_false_r by lia.
Qed.

Lemma land_128_low b : 0 ≤ b < 128 → Z.land b 128 = 0.
Proof.
  intros H. apply Z.bits_inj'. intros i Hi. rewrite Z.land_spec, Z.bits_0.
  change 128 with (Z.shiftl 1 7). destruct (decide (i = 7)) as [->|].
  - by rewrite (bit_above b 7 7) by lia.
  - replace (Z.testbit (Z.shiftl 1 7) i) with false; [by rewrite andb_false_r|].
    symmetry. rewrite Z.shiftl_spec by lia. change 1 with (2 ^ 0).
    by apply Z.pow2_bits_false; lia.
Qed.

Lemma land_128_high b : 0 ≤ b < 128 → (Z.land (b + 128) 128 =? 0) = false.
Proof.
  intros H. apply Z.eqb_neq. intros E. apply (f_equal (λ z, Z.testbit z 7)) in E.
  rewrite Z.land_spec, Z.bits_0 in E. change (Z.testbit 128 7) with true in E.
  rewrite andb_true_r in E. apply Z.testbit_false in E; [|lia]. revert E. change (2 ^ 7) with 128.
  rewrite <-(Z.mul_1_l 128) at 1. rewrite Z.div_add, Z.div_small by lia. done.
Qed.

(** ** Lemmas: varints *)

(** The encoding, by division. *)
Lemma varint64_loop_step n v : 128 ≤ v →
  varint64_loop (S n) v = zb (v mod 128 + 128) :: varint64_loop n (v / 128).
Proof.
  intros H. cbn [varint64_loop]. replace (128 <=? v) with true by lia.
  rewrite zb_lor_128, land_127, Z.mod_mod by lia. do 2 f_equal. by rewrite Z.shiftr_div_pow2.
Qed.

Lemma varint64_loop_last n v : v < 128 → varint64_loop n v = [zb v].
Proof. intros H. destruct n; [done|]. simpl. by replace (128 <=? v) with false by lia. Qed.

Lemma get_varint_loop_Ok wrap w n : ∀ m v shift result rest,
  (∀ z, 0 ≤ z < 2 ^ w → wrap z = z) → 0 ≤ shift → 0 ≤ w →
  0 ≤ result < 2 ^ shift → 0 ≤ v < 128 * 128 ^ Z.of_nat n → result + v * 2 ^ shift < 2 ^ w →
  (n < m)%nat →
  get_varint_loop wrap m shift result (varint64_loop n v ++ rest) = Some (result + v * 2 ^ shift, rest).
Proof.
  intros m v shift result rest Hwrap. revert m v shift result rest.
  induction n as [|n IH]; intros m v shift result rest Hs Hw Hr Hv Hmax Hm;
    (destruct m as [|m]; [lia|]).
  all: assert (0 < 2 ^ shift) as Hp by (apply Z.pow_pos_nonneg; lia).
  all: destruct (Z.ltb_spec v 128) as [Hlt|Hge].
  1, 3: rewrite varint64_loop_last by done; cbn [app get_varint_loop];
    rewrite bz_zb_small, land_128_low by lia; cbn [negb Z.eqb];
    rewrite Hwrap by (rewrite Z.shiftl_mul_pow2 by done; nia); by rewrite lor_shiftl_add by lia.
  - simpl in Hv. lia.
  - rewrite varint64_loop_step by done. cbn [app get_varint_loop].
    pose proof (Z.mod_pos_bound v 128 ltac:(lia)). pose proof (Z.div_mod v 128 ltac:(lia)) as Hdm.
    rewrite bz_zb_small, land_128_high by lia. cbn [negb].
    assert (Z.land (v mod 128 + 128) 127 = v mod 128) as ->.
    { rewrite land_127. rewrite <-(Z.mul_1_l 128) at 2. rewrite Z.mod_add by lia. by rewrite Z.mod_mod. }
    assert (2 ^ (shift + 7) = 2 ^ shift * 128) as E7 by (by rewrite Z.pow_add_r by lia).
    assert (0 ≤ v / 128) by (apply Z.div_pos; lia).
    rewrite Hwrap by (rewrite Z.shiftl_mul_pow2 by done; nia).
    rewrite lor_shiftl_add by lia. rewrite IH; try lia.
    + f_equal. f_equal. rewrite E7. rewrite Hdm at 3. ring.
    + rewrite E7. nia.
    + split; [lia|]. rewrite Nat2Z.inj_succ, Z.pow_succ_r in Hv by lia. apply Z.div_lt_upper_bound; lia.
Qed.

(** The branches of [EncodeVarint32] are the first rounds of the loop. *)
Lemma EncodeVarint32_loop v : 0 ≤ v < 2^32 → EncodeVarint32 v = EncodeVarint64 v.
Proof.
  intros Hv. unfold EncodeVarint32, EncodeVarint64. change (Z.shiftl 1 7) with 128.
  change (Z.shiftl 1 14) with 16384. change (Z.shiftl 1 21) with 2097152. change (Z.shiftl 1 28) with 268435456.
  cbv zeta. rewrite !Z.shiftr_div_pow2 by lia.
  change (2^14) with (128 * 128). change (2^21) with (128 * 128 * 128). change (2^28) with (128 * 128 * 128 * 128).
  rewrite <-!Z.div_div by lia. rewrite !zb_lor_128. change (2^7) with 128.
  assert (∀ x, 0 ≤ x → 0 ≤ x / 128) as Hpos by (intros; apply Z.div_pos; lia).
  assert (∀ x k, 0 < k → x < 128 * k → x / 128 < k) as Hlt by (intros; apply Z.div_lt_upper_bound; lia).
  assert (∀ x k, 0 ≤ k → 128 * k ≤ x → k ≤ x / 128) as Hge by (intros; apply Z.div_le_lower_bound; lia).
  repeat case_match; rewrite ?varint64_loop_last by lia; try done;
    rewrite varint64_loop_step by lia; f_equal;
    rewrite ?(varint64_loop_last _ (v / 128)) by (apply Hlt; lia); try done.
  - rewrite varint64_loop_step by (apply Hge; lia). f_equal.
    by rewrite varint64_loop_last by (apply Hlt; [lia|]; apply Hlt; lia).
  - rewrite varint64_loop_step by (apply Hge; lia). f_equal.
    rewrite varint64_loop_step by (apply Hge; [lia|]; apply Hge; lia). f_equal.
    by rewrite varint64_loop_last by (apply Hlt; [lia|]; apply Hlt; [lia|]; apply Hlt; lia).
  - rewrite varint64_loop_step by (apply Hge; lia). f_equal.
    rewrite varint64_loop_step by (apply Hge; [lia|]; apply Hge; lia). f_equal.
    rewrite varint64_loop_step by (apply Hge; [lia|]; apply Hge; [lia|]; apply Hge; lia). f_equal.
    by rewrite varint64_loop_last by (do 3 (apply Hlt; [lia|]); apply Hlt; lia).
Qed.

Lemma GetVarint64Ptr_Ok v rest : 0 ≤ v < 2^64 → GetVarint64Ptr (EncodeVarint64 v ++ rest) = Some (v, rest).
Proof.
  intros Hv. unfold GetVarint64Ptr, EncodeVarint64.
  rewrite (get_varint_loop_Ok u64 64 9); rewrite ?Z.mul_1_r; try done; try lia.
  apply u64_small.
Qed.

(** Enough rounds. *)
Lemma varint64_loop_more n : ∀ m v, 0 ≤ v < 128 * 128 ^ Z.of_nat n → (n ≤ m)%nat →
  varint64_loop m v = varint64_loop n v.
Proof.
  induction n as [|n IH]; intros m v Hv Hm.
  - simpl in Hv. by rewrite !varint64_loop_last by lia.
  - destruct m as [|m]; [lia|]. destruct (Z.ltb_spec v 128); [by rewrite !varint64_loop_last|].
    rewrite !varint64_loop_step by done. f_equal. apply IH; [|lia].
    rewrite Nat2Z.inj_succ, Z.pow_succ_r in Hv by lia.
    split; [apply Z.div_pos; lia|apply Z.div_lt_upper_bound; lia].
Qed.

(** The fast path is the first round of the fallback. *)
Lemma GetVarint32Ptr_fallback p : GetVarint32Ptr p = GetVarint32PtrFallback p.
Proof.
  destruct p as [|b p]; [done|]. unfold GetVarint32Ptr, GetVarint32PtrFallback. cbn [get_varint_loop].
  destruct (Z.land (bz b) 128 =? 0); [|done]. simpl negb. cbv iota.
  pose proof (bz_range b). by rewrite Z.shiftl_0_r, u32_small by lia.
Qed.

Lemma GetVarint32Ptr_Ok v rest : 0 ≤ v < 2^32 → GetVarint32Ptr (EncodeVarint32 v ++ rest) = Some (v, rest).
Proof.
  intros Hv. rewrite EncodeVarint32_loop, GetVarint32Ptr_fallback by done. unfold EncodeVarint64.
  rewrite (varint64_loop_more 4) by (lia || (simpl; lia)). unfold GetVarint32PtrFallback.
  rewrite (get_varint_loop_Ok u32 32 4); rewrite ?Z.mul_1_r; try done; try lia.
  apply u32_small.
Qed.

Lemma varint_length_Ok n v len : varint_length_loop n v len = len + zlen (varint64_loop n v) - 1.
Proof.
  revert v len. induction n as [|n IH]; intros v len; [simpl; lia|].
  cbn [varint_length_loop varint64_loop]. destruct (128 <=? v); [|simpl; lia].
  rewrite IH. cbn [length]. lia.
Qed.

Lemma varint64_loop_bound n v : (1 ≤ length (varint64_loop n v) ≤ S n)%nat.
Proof.
  revert v. induction n as [|n IH]; intros v; cbn [varint64_loop length]; [lia|].
  destruct (128 <=? v); cbn [length]; [|lia]. specialize (IH (Z.shiftr v 7)). lia.
Qed.

Lemma GetLengthPrefixedSlice_Ok dst value rest : zlen value < 2^32 →
  PutLengthPrefixedSlice dst value = dst ++ EncodeVarint32 (zlen value) ++ value
  ∧ GetLengthPrefixedSlice (EncodeVarint32 (zlen value) ++ value ++ rest) = Some (value, rest).
Proof.
  intros Hv. unfold PutLengthPrefixedSlice, PutVarint32. rewrite u32_small, <-app_assoc by lia.
  split; [done|]. unfold GetLengthPrefixedSlice, GetVarint32. rewrite GetVarint32Ptr_Ok by lia.
  rewrite length_app. replace (zlen value <=? _) with true by lia.
  by rewrite Nat2Z.id, take_app_length, drop_app_length.
Qed.

(** Fixed-width integers. *)
(** A parsed number takes at least a byte. *)
Lemma get_varint_loop_shorter wrap m : ∀ shift result p v rest,
  get_varint_loop wrap m shift result p = Some (v, rest) → (length rest < length p)%nat.
Proof.
  induction m as [|m IH]; intros shift result p v rest Hg; [done|]. cbn [get_varint_loop] in Hg.
  destruct p as [|b p]; [done|]. destruct (negb _).
  - apply IH in Hg. simpl. lia.
  - injection Hg as _ <-. simpl. lia.
Qed.

Lemma GetVarint32Ptr_shorter p v rest : GetVarint32Ptr p = Some (v, rest) → (length rest < length p)%nat.
Proof. rewrite GetVarint32Ptr_fallback. apply get_varint_loop_shorter. Qed.

Lemma slice_prefix n l k : zlen l = n → slice 0 n (l ++ k) = l.
Proof. intros <-. unfold slice. change (drop (Z.to_nat 0) ?x) with x. by rewrite Nat2Z.id, take_app_length. Qed.

Lemma length_EncodeFixed32 v : length (EncodeFixed32 v) = 4%nat.
Proof. apply length_le_bytes. Qed.

Lemma length_EncodeFixed64 v : length (EncodeFixed64 v) = 8%nat.
Proof. apply length_le_bytes. Qed.

Lemma DecodeFixed32_Ok v rest : DecodeFixed32 (EncodeFixed32 v ++ rest) = Ok (u32 v).
Proof.
  unfold DecodeFixed32. rewrite read_bytes_Ok by (rewrite ?length_app, ?length_EncodeFixed32; lia).
  cbn [mbind res_bind]. rewrite slice_prefix by (by rewrite length_EncodeFixed32).
  unfold EncodeFixed32. by rewrite le_val_bytes.
Qed.

Lemma DecodeFixed64_Ok v rest : DecodeFixed64 (EncodeFixed64 v ++ rest) = Ok (u64 v).
Proof.
  unfold DecodeFixed64. rewrite read_bytes_Ok by (rewrite ?length_app, ?length_EncodeFixed64; lia).
  cbn [mbind res_bind]. rewrite slice_prefix by (by rewrite length_EncodeFixed64).
  unfold EncodeFixed64. by rewrite le_val_bytes.
Qed.

(** ** Lists of pieces and of fixed-width words *)

(** The offsets of pieces laid out from [acc] on. *)
Fixpoint sizes_from (acc : Z) (l : list (list byte)) : list Z :=
  match l with [] => [] | x :: l => acc :: sizes_from (acc + zlen x) l end.

Lemma sizes_snoc acc l x : sizes_from acc (l ++ [x]) = sizes_from acc l ++ [acc + zlen (concat l)].
Proof.
  revert acc. induction l as [|y l IH]; intros acc; simpl; [by rewrite Z.add_0_r|].
  rewrite IH. do 3 f_equal. rewrite length_app. lia.
Qed.

Lemma sizes_length acc l : length (sizes_from acc l) = length l.
Proof. revert acc. induction l as [|x l IH]; intros acc; simpl; [done|]. by rewrite IH. Qed.

Lemma sizes_lookup acc l i : (i < length l)%nat →
  sizes_from acc l !! i = Some (acc + zlen (concat (take i l))).
Proof.
  revert acc i. induction l as [|x l IH]; intros acc i Hi; simpl in Hi; [lia|].
  destruct i as [|i]; simpl; [by rewrite Z.add_0_r|]. rewrite IH by lia. rewrite length_app. f_equal. lia.
Qed.

Lemma concat_take_le (fs : list (list byte)) i : zlen (concat (take i fs)) ≤ zlen (concat fs).
Proof. rewrite <-(take_drop i fs) at 2. rewrite concat_app, length_app. lia. Qed.

Lemma fold_PutFixed32 l : ∀ dst, fold_left PutFixed32 l dst = dst ++ concat (map EncodeFixed32 l).
Proof.
  induction l as [|x l IH]; intros dst; simpl; [by rewrite app_nil_r|]. rewrite IH. unfold PutFixed32.
  by rewrite <-app_assoc.
Qed.

Lemma word_at pre ws j w rest : ws !! j = Some w → 0 ≤ w < 2^32 →
  DecodeFixed32 (drop (Z.to_nat (zlen pre + Z.of_nat j * 4)) (pre ++ concat (map EncodeFixed32 ws) ++ rest)) = Ok w.
Proof.
  intros Hw Hr. replace (Z.to_nat _) with (length pre + 4 * j)%nat by lia. rewrite <-drop_drop, drop_app_length.
  revert j Hw. induction ws as [|x ws IH]; intros [|j] Hw; try done; cbn [map concat]; rewrite <-app_assoc.
  - injection Hw as ->. rewrite Nat.mul_0_r, drop_0, DecodeFixed32_Ok. by rewrite u32_small.
  - replace (4 * S j)%nat with (length (EncodeFixed32 x) + 4 * j)%nat by (rewrite length_EncodeFixed32; lia).
    rewrite <-drop_drop, drop_app_length. by apply IH.
Qed.

Lemma words_length ws : length (concat (map EncodeFixed32 ws)) = (4 * length ws)%nat.
Proof. induction ws as [|w ws IH]; [done|]. cbn [map concat length]. rewrite length_app, length_EncodeFixed32, IH. lia. Qed.

Lemma zb_land_255 z : zb (Z.land z 255) = zb z.
Proof. change 255 with (Z.ones 8). rewrite Z.land_ones by done. apply zb_mod. Qed.

Lemma EncodeFixed_portable v :
  EncodeFixed32_portable v = EncodeFixed32 v ∧ EncodeFixed64_portable v = EncodeFixed64 v.
Proof.
  unfold EncodeFixed32_portable, EncodeFixed64_portable, EncodeFixed32, EncodeFixed64.
  unfold le_bytes. cbn [map]. rewrite !zb_land_255, !Z.shiftr_div_pow2 by lia.
  rewrite !Z.div_div by lia. split; repeat f_equal; by rewrite Z.div_1_r.
Qed.

(** Claim C30. Varints: what [EncodeVarint32] and [EncodeVarint64] write is read back by
    [GetVarint32] and [GetVarint64] with the bytes after it untouched; the unrolled 32-bit
    encoder agrees with the 64-bit loop; encodings have [VarintLength] bytes, at most 5 and 10
    (the sizes of the buffers of [PutVarint32] and [PutVarint64]). *)
Theorem varint_roundtrip v rest (Hv : 0 ≤ v < 2^64) :
  GetVarint64 (EncodeVarint64 v ++ rest) = Some (v, rest)
  ∧ zlen (EncodeVarint64 v) = VarintLength v ∧ VarintLength v ≤ 10
  ∧ (v < 2^32 → GetVarint32 (EncodeVarint32 v ++ rest) = Some (v, rest)
       ∧ EncodeVarint32 v = EncodeVarint64 v ∧ VarintLength v ≤ 5).
Proof.
  assert (zlen (EncodeVarint64 v) = VarintLength v) as El.
  { unfold VarintLength, EncodeVarint64. rewrite varint_length_Ok. lia. }
  split_and!; [by apply GetVarint64Ptr_Ok|done| |].
  - rewrite <-El. pose proof (varint64_loop_bound 9 v). unfold EncodeVarint64. lia.
  - intros H32. split_and!; [apply GetVarint32Ptr_Ok; lia|apply EncodeVarint32_loop; lia|].
    rewrite <-El. unfold EncodeVarint64. rewrite (varint64_loop_more 4) by (lia || (simpl; lia)).
    pose proof (varint64_loop_bound 4 v). lia.
Qed.

Lemma varint_roundtrip_witness :
  GetVarint64 (EncodeVarint64 300 ++ [x07]) = Some (300, [x07])
  ∧ zlen (EncodeVarint64 300) = VarintLength 300 ∧ VarintLength 300 ≤ 10
  ∧ (300 < 2^32 → GetVarint32 (EncodeVarint32 300 ++ [x07]) = Some (300, [x07])
       ∧ EncodeVarint32 300 = EncodeVarint64 300 ∧ VarintLength 300 ≤ 5).
Proof. apply (varint_roundtrip 300 [x07]). lia. Defined.
