(* ===== verification/Bloom.v ===== *)
(** * Hashing and Bloom filters: leveldb util/hash.cc, util/bloom.cc, filter_policy.h

    [FilterPolicy] is the interface of filter policies and [FilterPolicySpec] their promise: a
    filter matches every key it was created from. The Bloom filter implements it. *)
From Stdlib Require Import SpecFloat.
From S2P Require Import Prelude Buffers Coding.

(** ** Hash *)

Definition hash_m : Z := 0xc6a4a793.
Definition hash_r : Z := 24.

Definition hash_word (h w : Z) : Z :=
  let h := u32 (h + w) in
  let h := u32 (h * hash_m) in
  Z.lxor h (Z.shiftr h 16).

(** Four bytes at a time; what is left. *)
Fixpoint hash_words (h : Z) (data : list byte) : Z * list byte :=
  match data with
  | b0 :: b1 :: b2 :: b3 :: data => hash_words (hash_word h (le_val [b0; b1; b2; b3])) data
  | _ => (h, data)
  end.

(** The [switch] with its fall-through; [char] is signed, and shifting a negative one is the
    two's complement shift compilers perform. *)
Definition hash_tail (h : Z) (data : list byte) : Z :=
  let fin h d0 := let h := u32 (h + sz d0) in let h := u32 (h * hash_m) in
    Z.lxor h (Z.shiftr h hash_r) in
  match data with
  | [d0; d1; d2] => fin (u32 (u32 (h + sz d2 * 2^16) + sz d1 * 2^8)) d0
  | [d0; d1] => fin (u32 (h + sz d1 * 2^8)) d0
  | [d0] => fin h d0
  | _ => h
  end.

Definition Hash (data : list byte) (seed : Z) : Z :=
  let h := u32 (Z.lxor seed (u64 (Z.of_nat (length data) * hash_m))) in
  let '(h, data) := hash_words h data in
  hash_tail h data.

(** ** Filter policies *)

Class FilterPolicy := {
  CreateFilter : list (list byte) → list byte → res (list byte);
  KeyMayMatch : list byte → list byte → res bool }.

(** On at most [max_keys] keys satisfying [ok]. *)
Class FilterPolicySpec `{FilterPolicy} (max_keys : Z) (ok : list byte → Prop) : Prop :=
  filter_matches : ∀ keys dst, keys ≠ [] → zlen keys ≤ max_keys → Forall ok keys →
    ∃ f, CreateFilter keys dst = Ok (dst ++ f) ∧ f ≠ []
      ∧ ∀ key, key ∈ keys → KeyMayMatch key f = Ok true.

(** A filter takes at most [K] bytes for each key, and [K] more. *)
Definition slim (K : Z) (p : FilterPolicy) : Prop :=
  0 ≤ K ∧ ∀ keys dst out, CreateFilter keys dst = Ok out → zlen out ≤ zlen dst + K * zlen keys + K.

(** The policy answers for any filter. *)
Definition answers (ok : list byte → Prop) (p : FilterPolicy) : Prop := ∀ key f, ok key → ∃ m, KeyMayMatch key f = Ok m.

(** ** Bloom filters *)

Definition BloomHash (key : list byte) : Z := Hash key 0xbc9f1d34.

Record BloomFilterPolicy := MkBloom { bits_per_key_ : Z; k_ : Z }.

(** [bits_per_key * 0.69] in double precision, truncated to a [size_t]; the conversion is
    undefined where the truncated value is negative. *)
Definition double_069 : spec_float := S754_finite false 6214967485771284 (-53).

Definition double_to_size_t (x : spec_float) : res Z :=
  match x with
  | S754_zero _ => mret 0
  | S754_finite s m e =>
      let t := Z.shiftl (Zpos m) e in
      _ ← defined ((negb s || (t =? 0)) && (t <? 2^64));
      mret t
  | _ => Err UB
  end.

Definition new_BloomFilterPolicy (bits_per_key : Z) : res BloomFilterPolicy :=
  k ← double_to_size_t (SFmul 53 1024 (binary_normalize 53 1024 bits_per_key 0 false) double_069);
  let k := if k <? 1 then 1 else k in
  let k := if 30 <? k then 30 else k in
  mret (MkBloom (u64 bits_per_key) k).

(** Rotate right 17 bits. *)
Definition bloom_delta (h : Z) : Z := Z.lor (Z.shiftr h 17) (u32 (Z.shiftl h 15)).

(** The [k] probes of a key from hash [h]: set the bits. *)
Fixpoint bloom_set (k : nat) (bits h delta : Z) (array : list byte) : res (list byte) :=
  match k with
  | O => mret array
  | S k =>
      _ ← defined (negb (bits =? 0));
      let bitpos := u32 (h mod bits) in
      b ← get8 array (bitpos / 8);
      array ← set8 array (bitpos / 8) (zb (Z.lor (sz b) (Z.shiftl 1 (bitpos mod 8))));
      bloom_set k bits (u32 (h + delta)) delta array
  end.

Fixpoint bloom_add_keys (k : nat) (bits : Z) (keys : list (list byte)) (array : list byte)
    : res (list byte) :=
  match keys with
  | [] => mret array
  | key :: keys =>
      let h := BloomHash key in
      array ← bloom_set k bits h (bloom_delta h) array;
      bloom_add_keys k bits keys array
  end.

(** [array] points into [dst] after its initial bytes; the byte after the bits is [k_]. *)
Definition bloom_CreateFilter (p : BloomFilterPolicy) (keys : list (list byte)) (dst : list byte)
    : res (list byte) :=
  let bits := u64 (Z.of_nat (length keys) * bits_per_key_ p) in
  let bits := if bits <? 64 then 64 else bits in
  let bytes := u64 (bits + 7) / 8 in
  let bits := u64 (bytes * 8) in
  array ← bloom_add_keys (Z.to_nat (k_ p)) bits keys (replicate (Z.to_nat bytes) x00 ++ [zb (k_ p)]);
  mret (dst ++ array).

Fixpoint bloom_test (k : nat) (bits h delta : Z) (array : list byte) : res bool :=
  match k with
  | O => mret true
  | S k =>
      _ ← defined (negb (bits =? 0));
      let bitpos := u32 (h mod bits) in
      b ← get8 array (bitpos / 8);
      if Z.land (sz b) (Z.shiftl 1 (bitpos mod 8)) =? 0 then mret false
      else bloom_test k bits (u32 (h + delta)) delta array
  end.

Definition bloom_KeyMayMatch (key bloom_filter : list byte) : res bool :=
  let len := Z.of_nat (length bloom_filter) in
  if len <? 2 then mret false
  else
    let bits := (len - 1) * 8 in
    b ← get8 bloom_filter (len - 1);
    let k := u64 (sz b) in
    if 30 <? k then mret true
    else
      let h := BloomHash key in
      bloom_test (Z.to_nat k) bits h (bloom_delta h) bloom_filter.

#[export] Instance bloom_policy (p : BloomFilterPolicy) : FilterPolicy := {
  CreateFilter := bloom_CreateFilter p;
  KeyMayMatch := bloom_KeyMayMatch }.

(** ** Lemmas *)

(** [array] has at least the bits of [array0] set, in the first [n] bytes, and the same bytes
    after them. *)
Definition covers (n : Z) (array0 array : list byte) : Prop :=
  length array = length array0
  ∧ (∀ i b0 b, array0 !! i = Some b0 → array !! i = Some b →
       if decide (Z.of_nat i < n) then ∀ j, 0 ≤ j < 8 → Z.testbit (bz b0) j = true → Z.testbit (bz b) j = true
       else b = b0).

#[export] Instance covers_preorder n : PreOrder (covers n).
Proof.
  split.
  - intros a. split; [done|]. intros i b0 b H1 H2. simplify_eq. by case_decide.
  - intros a1 a2 a3 [L1 H1] [L2 H2]. split; [congruence|]. intros i b1 b3 E1 E3.
    destruct (lookup_lt_is_Some_2 a2 i) as [b2 E2]; [rewrite L1; by eapply lookup_lt_Some|].
    specialize (H1 i b1 b2 E1 E2). specialize (H2 i b2 b3 E2 E3). case_decide; [auto|congruence].
Qed.

Definition bit_set (array : list byte) (pos : Z) : Prop :=
  ∃ b, array !! Z.to_nat (pos / 8) = Some b ∧ Z.testbit (bz b) (pos mod 8) = true.

Lemma covers_bit n a a' pos : 0 ≤ pos < 8 * n → covers n a a' → bit_set a pos → bit_set a' pos.
Proof.
  intros Hp [L H] (b & Hb & Ht).
  destruct (lookup_lt_is_Some_2 a' (Z.to_nat (pos / 8))) as [b' Hb']; [rewrite L; by eapply lookup_lt_Some|].
  exists b'. split; [done|]. specialize (H _ b b' Hb Hb').
  pose proof (Z.div_mod pos 8 ltac:(lia)). pose proof (Z.mod_pos_bound pos 8 ltac:(lia)).
  case_decide; [apply H; [lia|done]|lia].
Qed.

Lemma set_bit_covers n a pos : 0 ≤ pos < 8 * n → n ≤ zlen a →
  ∃ b a', get8 a (pos / 8) = Ok b
    ∧ set8 a (pos / 8) (zb (Z.lor (sz b) (Z.shiftl 1 (pos mod 8)))) = Ok a'
    ∧ covers n a a' ∧ bit_set a' pos.
Proof.
  intros Hp Hn. pose proof (Z.div_mod pos 8 ltac:(lia)). pose proof (Z.mod_pos_bound pos 8 ltac:(lia)).
  destruct (get8_in_range a (pos / 8)) as (b & Hb & Hg); [lia|].
  exists b. eexists. split; [done|]. split.
  { unfold set8. rewrite write_bytes_Ok by (simpl; lia). done. }
  assert (∀ j, 0 ≤ j < 8 → Z.testbit (bz (zb (Z.lor (sz b) (Z.shiftl 1 (pos mod 8))))) j
    = Z.testbit (bz b) j || (j =? pos mod 8)) as Hbit.
  { intros j Hj. rewrite zb_testbit, Z.lor_spec, sz_testbit by lia. f_equal.
    rewrite Z.shiftl_1_l. rewrite Z.pow2_bits_eqb by lia. apply Z.eqb_sym. }
  split.
  - split; [rewrite length_splice; simpl; lia|]. intros i b0 b1 E0 E1.
    rewrite lookup_splice1 in E1 by lia. case_decide; simplify_eq/=.
    + rewrite decide_True by lia. intros j Hj Ht. by rewrite Hbit, Ht.
    + by case_decide.
  - eexists. rewrite lookup_splice1, decide_True by lia. split; [done|].
    rewrite Hbit by lia. by rewrite Z.eqb_refl, orb_true_r.
Qed.

(** The positions a key probes. *)
Fixpoint probes_of (k : nat) (bits h delta : Z) : list Z :=
  match k with
  | O => []
  | S k => u32 (h mod bits) :: probes_of k bits (u32 (h + delta)) delta
  end.

Lemma u32_mod_range h bits : 0 < bits → 0 ≤ u32 (h mod bits) < bits.
Proof.
  intros Hb. pose proof (Z.mod_pos_bound h bits Hb). pose proof (u32_range (h mod bits)).
  assert (u32 (h mod bits) ≤ h mod bits) by (apply Z.mod_le; lia). lia.
Qed.

Lemma probes_range k bits h delta : 0 < bits → Forall (λ pos, 0 ≤ pos < bits) (probes_of k bits h delta).
Proof.
  intros Hb. revert h. induction k as [|k IH]; intros h; simpl; [constructor|].
  constructor; [by apply u32_mod_range|apply IH].
Qed.

Lemma bloom_set_Ok n k : ∀ h delta a, 0 < n → n ≤ zlen a →
  ∃ a', bloom_set k (8 * n) h delta a = Ok a' ∧ covers n a a'
    ∧ Forall (bit_set a') (probes_of k (8 * n) h delta).
Proof.
  induction k as [|k IH]; intros h delta a Hn Ha; cbn [bloom_set probes_of]; [by exists a|].
  rewrite defined_true by lia. cbn [mbind res_bind].
  pose proof (u32_mod_range h (8 * n) ltac:(lia)) as Hp.
  destruct (set_bit_covers n a _ Hp Ha) as (b & a1 & Eg & Es & Hc & Hb).
  rewrite Eg. cbn [mbind res_bind]. rewrite Es. cbn [mbind res_bind].
  destruct (IH (u32 (h + delta)) delta a1) as (a' & -> & Hc' & Hf); [done|destruct Hc; lia|].
  exists a'. split; [done|]. split; [by etrans|]. constructor; [|done]. by eapply covers_bit.
Qed.

Lemma bloom_test_Ok n k : ∀ h delta a, 0 < n → n ≤ zlen a →
  Forall (bit_set a) (probes_of k (8 * n) h delta) → bloom_test k (8 * n) h delta a = Ok true.
Proof.
  induction k as [|k IH]; intros h delta a Hn Ha Hf; cbn [bloom_test probes_of] in *; [done|].
  inversion Hf as [|? ? (b & Hb & Ht) Hf']; subst.
  rewrite defined_true by lia. cbn [mbind res_bind]. set (pos := u32 (h mod (8 * n))) in *.
  pose proof (u32_mod_range h (8 * n) ltac:(lia)) as Hp. fold pos in Hp.
  rewrite (get8_Ok _ _ b) by (done || (apply Z.div_pos; lia)). cbn [mbind res_bind].
  pose proof (Z.mod_pos_bound pos 8 ltac:(lia)).
  rewrite land_bit_eqb, sz_testbit, Ht by lia. simpl. by apply IH.
Qed.

Lemma bloom_add_keys_Ok n k keys : ∀ a, 0 < n → n ≤ zlen a →
  ∃ a', bloom_add_keys k (8 * n) keys a = Ok a' ∧ covers n a a'
    ∧ Forall (λ key, Forall (bit_set a')
        (probes_of k (8 * n) (BloomHash key) (bloom_delta (BloomHash key)))) keys.
Proof.
  induction keys as [|key keys IH]; intros a Hn Ha; cbn [bloom_add_keys]; [by exists a|].
  destruct (bloom_set_Ok n k (BloomHash key) (bloom_delta (BloomHash key)) a Hn Ha) as (a1 & -> & Hc & Hb).
  cbn [mbind res_bind]. destruct (IH a1) as (a' & -> & Hc' & Hf); [done|destruct Hc; lia|].
  exists a'. split; [done|]. split; [by etrans|]. constructor; [|done].
  rewrite Forall_forall in Hb |- *. intros pos Hpos. apply (covers_bit n a1); [|exact Hc'|by apply Hb].
  pose proof (probes_range k (8 * n) (BloomHash key) (bloom_delta (BloomHash key)) ltac:(lia)) as Hr.
  rewrite Forall_forall in Hr. by apply Hr.
Qed.

(** What the policy's constructor guarantees. *)
Definition bloom_ok (p : BloomFilterPolicy) : Prop := 1 ≤ k_ p ≤ 30 ∧ 0 ≤ bits_per_key_ p.

Lemma new_bloom_ok bits_per_key p : new_BloomFilterPolicy bits_per_key = Ok p →
  bloom_ok p ∧ bits_per_key_ p = u64 bits_per_key.
Proof.
  unfold bloom_ok, new_BloomFilterPolicy. destruct (double_to_size_t _) as [k|]; [|done].
  cbn [mbind res_bind]. intros [= <-]. cbn [k_ bits_per_key_]. pose proof (u64_range bits_per_key).
  destruct (Z.ltb_spec k 1); [simpl; lia|]. destruct (Z.ltb_spec 30 k); lia.
Qed.

Lemma bloom_filter_Ok p keys dst : bloom_ok p → zlen keys * bits_per_key_ p < 2^63 →
  ∃ f, bloom_CreateFilter p keys dst = Ok (dst ++ f) ∧ f ≠ []
    ∧ ∀ key, key ∈ keys → bloom_KeyMayMatch key f = Ok true.
Proof.
  intros [Hk Hbpk] Hmax. assert (0 ≤ zlen keys * bits_per_key_ p) by (apply Z.mul_nonneg_nonneg; lia).
  unfold bloom_CreateFilter. rewrite (u64_small (zlen keys * _)) by lia.
  set (bits := if _ <? 64 then 64 else _). assert (64 ≤ bits < 2^63) as Hbits.
  { unfold bits. destruct (Z.ltb_spec (zlen keys * bits_per_key_ p) 64); lia. }
  rewrite (u64_small (bits + 7)) by lia. set (n := (bits + 7) / 8).
  assert (8 ≤ n ∧ n * 8 ≤ bits + 7) as [Hn1 Hn2].
  { split; [apply Z.div_le_lower_bound; lia|]. rewrite Z.mul_comm. apply Z.mul_div_le. lia. }
  rewrite u64_small, (Z.mul_comm n 8) by lia.
  set (a := replicate (Z.to_nat n) x00 ++ [zb (k_ p)]).
  assert (zlen a = n + 1) as Ha by (unfold a; rewrite length_app, length_replicate; simpl; lia).
  destruct (bloom_add_keys_Ok n (Z.to_nat (k_ p)) keys a) as (f & -> & [Hl Hc] & Hf); [lia|lia|].
  exists f. cbn [mbind res_bind]. split; [done|]. split; [by intros ->; simpl in Hl; lia|].
  intros key Hkey. unfold bloom_KeyMayMatch. rewrite Hl, Ha.
  replace (n + 1 <? 2) with false by lia. replace (n + 1 - 1) with n by lia.
  destruct (get8_in_range f n) as (b & Hb & ->); [lia|]. cbn [mbind res_bind].
  assert (b = zb (k_ p)) as ->.
  { assert (a !! Z.to_nat n = Some (zb (k_ p))) as E.
    { unfold a. by rewrite lookup_app_r, length_replicate, Nat.sub_diag by (rewrite length_replicate; lia). }
    specialize (Hc _ _ _ E Hb). rewrite decide_False in Hc by lia. done. }
  assert (u64 (sz (zb (k_ p))) = k_ p) as ->.
  { unfold sz. rewrite bz_zb_small by lia. replace (k_ p <? 128) with true by lia.
    apply u64_small. lia. }
  replace (30 <? k_ p) with false by lia. rewrite (Z.mul_comm n 8).
  apply bloom_test_Ok; [lia|lia|]. rewrite Forall_forall in Hf. by apply Hf.
Qed.

(** Claim C40. A Bloom filter has no false negatives: for any policy the constructor makes, any
    keys (whatever their hashes, repeated or empty keys included) and any bytes already in the
    destination, [CreateFilter] appends a filter for which [KeyMayMatch] answers true on each
    of the keys; no access leaves the filter's bytes. *)
Theorem bloom_no_false_negative bits_per_key p keys dst
  (Hp : new_BloomFilterPolicy bits_per_key = Ok p)
  (Hmax : zlen keys * u64 bits_per_key < 2^63) :
  ∃ f, bloom_CreateFilter p keys dst = Ok (dst ++ f)
    ∧ ∀ key, key ∈ keys → bloom_KeyMayMatch key f = Ok true.
Proof.
  apply new_bloom_ok in Hp as [Hok Hbits].
  destruct (bloom_filter_Ok p keys dst Hok) as (f & Hf & _ & Hm); [by rewrite Hbits|]. by exists f.
Qed.

Lemma bloom_no_false_negative_witness :
  let p := MkBloom 10 6 in let keys := [[x68; xe9]; []; [xff; x00; x01; x02; x03]] in
  new_BloomFilterPolicy 10 = Ok p
  ∧ ∃ f, bloom_CreateFilter p keys [x2a] = Ok ([x2a] ++ f)
    ∧ ∀ key, key ∈ keys → bloom_KeyMayMatch key f = Ok true.
Proof.
  intros p keys. assert (new_BloomFilterPolicy 10 = Ok p) as Hp by (vm_compute; reflexivity).
  split; [exact Hp|]. apply (bloom_no_false_negative 10 p keys [x2a] Hp). vm_compute. reflexivity.
Defined.

(** The interface is discharged. *)
#[export] Instance bloom_policy_spec p max_keys ok :
  bloom_ok p → max_keys * bits_per_key_ p < 2^63 → @FilterPolicySpec (bloom_policy p) max_keys ok.
Proof.
  intros Hp Hmax keys dst _ Hk _. apply bloom_filter_Ok; [done|].
  destruct Hp. apply Z.le_lt_trans with (max_keys * bits_per_key_ p); [|done].
  by apply Z.mul_le_mono_nonneg_r.
Qed.

(** *** Sizes, and arbitrary filters *)

Lemma bloom_set_length k bits : ∀ h delta a a', bloom_set k bits h delta a = Ok a' → length a' = length a.
Proof.
  induction k as [|k IH]; intros h delta a a'; [by intros [= <-]|]. cbn [bloom_set]. intros H. inv_ok.
  match goal with Hr : bloom_set _ _ _ _ _ = Ok _ |- _ => rewrite (IH _ _ _ _ Hr) end.
  match goal with Hs : set8 _ _ _ = Ok _ |- _ => by rewrite (set8_length _ _ _ _ Hs) end.
Qed.

Lemma bloom_add_keys_length k bits keys : ∀ a a', bloom_add_keys k bits keys a = Ok a' → length a' = length a.
Proof.
  induction keys as [|key keys IH]; intros a a'; [by intros [= <-]|]. cbn [bloom_add_keys]. intros H. apply bind_Ok in H as (a1 & H1 & H2).
  by rewrite (IH _ _ H2), (bloom_set_length _ _ _ _ _ _ H1).
Qed.

Lemma bloom_slim p : 0 ≤ bits_per_key_ p → slim (bits_per_key_ p + 10) (bloom_policy p).
Proof.
  intros Hb. split; [lia|]. intros keys dst out. cbn [CreateFilter bloom_policy]. unfold bloom_CreateFilter.
  assert (0 ≤ zlen keys * bits_per_key_ p) as Hn by (apply Z.mul_nonneg_nonneg; lia).
  set (bits := if _ <? 64 then 64 else _). assert (0 ≤ bits ≤ zlen keys * bits_per_key_ p + 64) as Hbits.
  { unfold bits. pose proof (u64_le (zlen keys * bits_per_key_ p) ltac:(lia)). pose proof (u64_range (zlen keys * bits_per_key_ p)). destruct (_ <? 64); lia. }
  intros H. apply bind_Ok in H as (a & Ha & [= <-]). apply bloom_add_keys_length in Ha. rewrite !length_app, Ha, !length_app, length_replicate. cbn [length].
  pose proof (u64_le (bits + 7) ltac:(lia)). pose proof (u64_range (bits + 7)). pose proof (Z.mul_div_le (u64 (bits + 7)) 8). pose proof (Z.div_pos (u64 (bits + 7)) 8). lia.
Qed.

Lemma bloom_test_total bits k a : 0 < bits → bits ≤ zlen a * 8 → ∀ h delta, ∃ m, bloom_test k bits h delta a = Ok m.
Proof.
  intros Hb Ha. induction k as [|k IH]; intros h delta; [by exists true|]. cbn [bloom_test]. rewrite defined_true by lia. cbn [mbind res_bind].
  pose proof (u32_mod_range h bits Hb) as Hr. destruct (get8_in_range a (u32 (h mod bits) / 8)) as (b & _ & ->).
  { split; [apply Z.div_pos; lia|apply Z.div_lt_upper_bound; lia]. }
  cbn [mbind res_bind]. destruct (_ =? 0); [by eexists|apply IH].
Qed.

Lemma bloom_answers ok p : answers ok (bloom_policy p).
Proof.
  intros key f _. cbn [KeyMayMatch bloom_policy]. unfold bloom_KeyMayMatch. destruct (Z.ltb_spec (zlen f) 2); [by eexists|].
  destruct (get8_in_range f (zlen f - 1)) as (b & _ & ->); [lia|]. cbn [mbind res_bind]. destruct (_ <? _); [by eexists|].
  apply bloom_test_total; lia.
Qed.
