(* ===== verification/FilterBlock.v ===== *)
(** * Filter blocks: leveldb table/filter_block.cc, filter_block.h

    A filter block holds a filter for every 2KB range of block offsets of a table. The builder
    and the reader use the policy through the interface of Bloom. *)
From S2P Require Import Prelude Buffers Coding Bloom.

Definition kFilterBaseLg : Z := 11.
Definition kFilterBase : Z := Z.shiftl 1 kFilterBaseLg.

(** [start_] has the offset in [keys_] of each pending key. *)
Record FilterBlockBuilder := MkFilterBuilder {
  keys_ : list byte; start_ : list Z; result_ : list byte; filter_offsets_ : list Z }.

Definition new_FilterBlockBuilder : FilterBlockBuilder := MkFilterBuilder [] [] [] [].

Section builder.
Context `{FilterPolicy}.

(** The loop that makes [tmp_keys_]: [starts] ends with the length of [keys]. *)
Fixpoint tmp_keys (starts : list Z) (keys : list byte) : res (list (list byte)) :=
  match starts with
  | s :: ((s' :: _) as starts) =>
      let length := u64 (s' - s) in
      key ← read_bytes keys s length;
      rest ← tmp_keys starts keys;
      mret (key :: rest)
  | _ => mret []
  end.

Definition GenerateFilter (b : FilterBlockBuilder) : res FilterBlockBuilder :=
  let num_keys := Z.of_nat (length (start_ b)) in
  let offsets := filter_offsets_ b ++ [u32 (Z.of_nat (length (result_ b)))] in
  if num_keys =? 0 then mret (MkFilterBuilder (keys_ b) (start_ b) (result_ b) offsets)
  else
    keys ← tmp_keys (start_ b ++ [Z.of_nat (length (keys_ b))]) (keys_ b);
    result ← CreateFilter keys (result_ b);
    mret (MkFilterBuilder [] [] result offsets).

Fixpoint start_loop (fuel : nat) (filter_index : Z) (b : FilterBlockBuilder) : res FilterBlockBuilder :=
  match fuel with
  | O => Err Diverge
  | S fuel =>
      if Z.of_nat (length (filter_offsets_ b)) <? filter_index then
        b ← GenerateFilter b; start_loop fuel filter_index b
      else mret b
  end.

Definition StartBlock (block_offset : Z) (b : FilterBlockBuilder) : res FilterBlockBuilder :=
  let filter_index := block_offset / kFilterBase in
  _ ← c_assert (Z.of_nat (length (filter_offsets_ b)) <=? filter_index);
  start_loop (S (Z.to_nat filter_index)) filter_index b.

Definition AddKey (key : list byte) (b : FilterBlockBuilder) : FilterBlockBuilder :=
  MkFilterBuilder (keys_ b ++ key) (start_ b ++ [Z.of_nat (length (keys_ b))]) (result_ b)
    (filter_offsets_ b).

(** The contents of the block. *)
Definition Finish (b : FilterBlockBuilder) : res (list byte) :=
  b ← (if 0 <? Z.of_nat (length (start_ b)) then GenerateFilter b else mret b);
  let array_offset := u32 (Z.of_nat (length (result_ b))) in
  let result := fold_left PutFixed32 (filter_offsets_ b) (result_ b) in
  mret (PutFixed32 result array_offset ++ [zb kFilterBaseLg]).

(** ** The reader: [offset_] is relative to [data_] *)

Record FilterBlockReader := MkFilterReader {
  data_ : list byte; offset_ : Z; num_ : Z; base_lg_ : Z }.

Definition new_FilterBlockReader (contents : list byte) : res FilterBlockReader :=
  let n := Z.of_nat (length contents) in
  if n <? 5 then mret (MkFilterReader [] 0 0 0)
  else
    b ← get8 contents (n - 1);
    let base_lg := u64 (sz b) in
    last_word ← DecodeFixed32 (drop (Z.to_nat (n - 5)) contents);
    if n - 5 <? last_word then mret (MkFilterReader [] 0 0 base_lg)
    else mret (MkFilterReader contents last_word ((n - 5 - last_word) / 4) base_lg).

Definition Reader_KeyMayMatch (r : FilterBlockReader) (block_offset : Z) (key : list byte) : res bool :=
  _ ← defined (base_lg_ r <? 64);
  let index := Z.shiftr block_offset (base_lg_ r) in
  if index <? num_ r then
    start ← DecodeFixed32 (drop (Z.to_nat (offset_ r + index * 4)) (data_ r));
    limit ← DecodeFixed32 (drop (Z.to_nat (offset_ r + index * 4 + 4)) (data_ r));
    if (start <=? limit) && (limit <=? offset_ r) then
      filter ← read_bytes (data_ r) start (limit - start);
      KeyMayMatch key filter
    else if start =? limit then mret false
    else mret true
  else mret true.

(** ** How a table uses the builder

    For each data block, [StartBlock] with its offset and [AddKey] for its keys; then [Finish]. *)
Fixpoint build_blocks (blocks : list (Z * list (list byte))) (b : FilterBlockBuilder) : res FilterBlockBuilder :=
  match blocks with
  | [] => mret b
  | (off, keys) :: blocks =>
      b ← StartBlock off b;
      build_blocks blocks (fold_left (λ b k, AddKey k b) keys b)
  end.

Definition build_filter_block (blocks : list (Z * list (list byte))) : res (list byte) :=
  b ← build_blocks blocks new_FilterBlockBuilder; Finish b.
End builder.

(** ** Correctness *)

Section correct.
Context `{Hspec : FilterPolicySpec max_keys ok}.

Lemma tmp_keys_cons s s' starts keys : tmp_keys (s :: s' :: starts) keys =
  (key ← read_bytes keys s (u64 (s' - s)); rest ← tmp_keys (s' :: starts) keys; mret (key :: rest)).
Proof using. done. Qed.

(** Splitting the concatenation at the offsets gives the keys back. *)
Lemma tmp_keys_Ok pend : ∀ pre, zlen (pre ++ concat pend) < 2^64 →
  tmp_keys (sizes_from (zlen pre) pend ++ [zlen (pre ++ concat pend)]) (pre ++ concat pend) = Ok pend.
Proof using.
  induction pend as [|k pend IH]; intros pre Hmax; [done|].
  assert (pre ++ concat (k :: pend) = (pre ++ k) ++ concat pend) as E by (by rewrite <-app_assoc).
  specialize (IH (pre ++ k)). rewrite <-E in IH. specialize (IH Hmax).
  assert (∃ rest, sizes_from (zlen (pre ++ k)) pend ++ [zlen (pre ++ concat (k :: pend))]
    = zlen (pre ++ k) :: rest) as [rest Er].
  { destruct pend; [|by eexists]. exists []. rewrite E. simpl. by rewrite app_nil_r. }
  cbn [sizes_from app]. replace (zlen pre + zlen k) with (zlen (pre ++ k)) by (rewrite length_app; lia).
  rewrite Er in IH |- *. rewrite tmp_keys_cons.
  rewrite !length_app in Hmax. cbn [concat] in Hmax. rewrite length_app in Hmax.
  rewrite u64_small by (rewrite length_app; lia).
  rewrite read_bytes_Ok by (rewrite ?E, ?length_app; lia). cbn [mbind res_bind].
  rewrite IH. cbn [mbind res_bind]. unfold mret, res_ret. do 2 f_equal.
  cbn [concat]. unfold slice. rewrite Nat2Z.id, drop_app_length, length_app.
  replace (Z.to_nat _) with (length k) by lia. by rewrite take_app_length.
Qed.

(** The builder has finished the filters [fs], for the keys [kss], and holds the keys [pend]. *)
Record builder_inv (b : FilterBlockBuilder) (fs : list (list byte)) (kss : list (list (list byte)))
    (pend : list (list byte)) : Prop := {
  bi_keys : keys_ b = concat pend;
  bi_start : start_ b = sizes_from 0 pend;
  bi_result : result_ b = concat fs;
  bi_offsets : filter_offsets_ b = map u32 (sizes_from 0 fs);
  bi_filters : Forall2 (λ f ks, ∀ k, k ∈ ks → KeyMayMatch k f = Ok true ∧ f ≠ []) fs kss;
  bi_pend : Forall ok pend;
  bi_size : zlen (concat pend) < 2^64 }.

Lemma AddKey_inv b fs kss pend k : builder_inv b fs kss pend → ok k →
  zlen (concat (pend ++ [k])) < 2^64 → builder_inv (AddKey k b) fs kss (pend ++ [k]).
Proof using.
  intros [] Hk Hmax. split; cbn; try done.
  - by rewrite bi_keys0, concat_app, (app_nil_r k : concat [k] = k).
  - by rewrite bi_start0, bi_keys0, sizes_snoc.
  - by apply Forall_app_2; [|constructor].
Qed.

Lemma GenerateFilter_inv b fs kss pend : builder_inv b fs kss pend → zlen pend ≤ max_keys →
  ∃ b' f, GenerateFilter b = Ok b' ∧ builder_inv b' (fs ++ [f]) (kss ++ [pend]) [].
Proof using Hspec.
  intros [] Hmax. unfold GenerateFilter. rewrite bi_start0, sizes_length, bi_offsets0, bi_result0.
  assert (∀ f, map u32 (sizes_from 0 fs) ++ [u32 (zlen (concat fs))]
    = map u32 (sizes_from 0 (fs ++ [f]))) as Eoff.
  { intros f. by rewrite sizes_snoc, map_app. }
  destruct pend as [|k pend].
  - exists (MkFilterBuilder (keys_ b) [] (concat fs) (map u32 (sizes_from 0 (fs ++ [[]])))), [].
    split; [by rewrite (Eoff [])|]. split; cbn; try done.
    + by rewrite concat_app, app_nil_r.
    + apply Forall2_app; [done|]. constructor; [|constructor]. by intros k ?%elem_of_nil.
  - replace (zlen (k :: pend) =? 0) with false by (simpl; lia).
    rewrite bi_keys0. pose proof (tmp_keys_Ok (k :: pend) [] bi_size0) as Ht.
    change ([] ++ concat (k :: pend)) with (concat (k :: pend)) in Ht. change (zlen []) with 0 in Ht. rewrite Ht. cbn [mbind res_bind].
    destruct (filter_matches (k :: pend) (concat fs)) as (f & -> & Hf & Hm); [done..|].
    cbn [mbind res_bind]. exists (MkFilterBuilder [] [] (concat (fs ++ [f])) (map u32 (sizes_from 0 (fs ++ [f])))), f.
    split; [by rewrite (Eoff f), concat_app, (app_nil_r f : concat [f] = f)|]. split; cbn; try done.
    + apply Forall2_app; [done|]. constructor; [|constructor]. intros k' Hk'. split; [by apply Hm|done].
Qed.

Lemma start_loop_inv idx n : ∀ fuel b fs kss pend, builder_inv b fs kss pend → zlen pend ≤ max_keys →
  0 ≤ max_keys → Z.to_nat (idx - zlen fs) = n → zlen fs ≤ idx → (n < fuel)%nat →
  ∃ b' fs' kss', start_loop fuel idx b = Ok b' ∧ zlen fs' = idx
    ∧ ((n = 0%nat ∧ fs' = fs ∧ kss' = kss ∧ b' = b)
       ∨ ((0 < n)%nat ∧ builder_inv b' fs' kss' [] ∧ ∃ gs hss, fs' = fs ++ gs ∧ kss' = kss ++ pend :: hss)).
Proof using Hspec.
  induction n as [|n IH]; intros [|fuel] b fs kss pend Hinv Hp H0 Hn Hle Hf; try lia; cbn [start_loop];
    pose proof Hinv as []; rewrite bi_offsets0, length_map, sizes_length.
  - replace (zlen fs <? idx) with false by lia. exists b, fs, kss. split; [done|]. split; [lia|]. by left.
  - replace (zlen fs <? idx) with true by lia.
    destruct (GenerateFilter_inv b fs kss pend Hinv Hp) as (b1 & f & -> & Hinv1). cbn [mbind res_bind].
    destruct (IH fuel b1 (fs ++ [f]) (kss ++ [pend]) [] Hinv1) as (b' & fs' & kss' & Hrun & Hl & Hcase);
      [simpl; lia|done|rewrite length_app; simpl; lia|rewrite length_app; simpl; lia|lia|].
    exists b', fs', kss'. split; [done|]. split; [done|]. right. split; [lia|].
    destruct Hcase as [(-> & -> & -> & ->)|(_ & Hinv' & gs & hss & -> & ->)].
    + split; [done|]. by exists [f], [].
    + split; [done|]. exists (f :: gs), ([] :: hss). by rewrite <-!app_assoc.
Qed.

Lemma AddKeys_inv keys : ∀ b fs kss pend, builder_inv b fs kss pend → Forall ok keys →
  zlen (concat (pend ++ keys)) < 2^64 →
  builder_inv (fold_left (λ b k, AddKey k b) keys b) fs kss (pend ++ keys).
Proof using.
  induction keys as [|k keys IH]; intros b fs kss pend Hinv Hok Hmax; simpl; [by rewrite app_nil_r|].
  inversion Hok as [|? ? Hk Hok']; subst. replace (pend ++ k :: keys) with ((pend ++ [k]) ++ keys) in *
    by (by rewrite <-app_assoc).
  apply IH; [|done|done]. apply AddKey_inv; [done|done|].
  rewrite concat_app, length_app in Hmax. lia.
Qed.
(** Block offsets in nondecreasing order, from filter [cur] on. *)
Fixpoint blocks_ok (cur : Z) (blocks : list (Z * list (list byte))) : Prop :=
  match blocks with
  | [] => True
  | (off, keys) :: blocks => cur ≤ off / kFilterBase ∧ Forall ok keys ∧ blocks_ok (off / kFilterBase) blocks
  end.

Definition all_keys (blocks : list (Z * list (list byte))) : list (list byte) := concat (map snd blocks).

(** Key [k] of a block at [off] is in the list for its filter, or pending for it. *)
Definition kept (fs : list (list byte)) (kss : list (list (list byte))) (pend : list (list byte)) (off : Z)
    (k : list byte) : Prop :=
  let j := Z.to_nat (off / kFilterBase) in
  (∃ ks, kss !! j = Some ks ∧ k ∈ ks) ∨ (j = length fs ∧ k ∈ pend).

(** [StartBlock]: the filters of the ranges before the block are finished, and no key is lost. *)
Lemma StartBlock_inv off b fs kss pend : builder_inv b fs kss pend → zlen pend ≤ max_keys → 0 ≤ max_keys → zlen fs ≤ off / kFilterBase →
  ∃ b' fs' kss' pend', StartBlock off b = Ok b' ∧ builder_inv b' fs' kss' pend' ∧ zlen fs' = off / kFilterBase
    ∧ (length pend' ≤ length pend)%nat ∧ (length (concat pend') ≤ length (concat pend))%nat
    ∧ ∀ o k, kept fs kss pend o k → kept fs' kss' pend' o k.
Proof using Hspec.
  intros Hinv Hp H0 Hcur. set (idx := off / kFilterBase) in *. pose proof Hinv as []. pose proof (Forall2_length _ _ _ bi_filters0) as Hlen.
  unfold StartBlock. fold idx. rewrite bi_offsets0, length_map, sizes_length.
  unfold c_assert. replace (zlen fs <=? idx) with true by lia. cbn [mbind res_bind].
  destruct (start_loop_inv idx (Z.to_nat (idx - zlen fs)) (S (Z.to_nat idx)) b fs kss pend)
    as (b1 & fs1 & kss1 & -> & Hl1 & Hcase); [done|lia|done|done|done|lia|].
  destruct Hcase as [(_ & -> & -> & ->)|(_ & Hinv1 & gs & hss & -> & ->)]; [by exists b, fs, kss, pend|].
  exists b1, (fs ++ gs), (kss ++ pend :: hss), []. split; [done|]. split; [done|]. split; [done|]. split; [simpl; lia|]. split; [simpl; lia|].
  intros o k [(ks & Hks & Hk)|[Hj Hk]]; left.
  - exists ks. split; [|done]. by apply lookup_app_l_Some.
  - exists pend. split; [|done]. rewrite Hj, Hlen. apply list_lookup_middle. done.
Qed.

Lemma build_blocks_inv blocks : ∀ b fs kss pend, builder_inv b fs kss pend → 0 ≤ max_keys →
  blocks_ok (zlen fs) blocks → zlen (pend ++ all_keys blocks) ≤ max_keys →
  zlen (concat (pend ++ all_keys blocks)) < 2^64 →
  ∃ b' fs' kss' pend', build_blocks blocks b = Ok b' ∧ builder_inv b' fs' kss' pend'
    ∧ zlen pend' ≤ max_keys
    ∧ (∀ off k, kept fs kss pend off k → kept fs' kss' pend' off k)
    ∧ (∀ off keys k, (off, keys) ∈ blocks → k ∈ keys → kept fs' kss' pend' off k).
Proof using Hspec.
  induction blocks as [|[off keys] blocks IH]; intros b fs kss pend Hinv H0 Hok Hmax Hsz; cbn [build_blocks].
  { exists b, fs, kss, pend. rewrite app_nil_r in Hmax. split_and!; try done. by intros ? ? ? ?%elem_of_nil. }
  destruct Hok as (Hcur & Hkeys & Hok). set (idx := off / kFilterBase) in *.
  assert (all_keys ((off, keys) :: blocks) = keys ++ all_keys blocks) as Eall by done.
  rewrite Eall in Hmax, Hsz. rewrite !length_app in Hmax. rewrite !concat_app, !length_app in Hsz.
  destruct (StartBlock_inv off b fs kss pend) as (b1 & fs1 & kss1 & pend1 & -> & Hinv1 & Hl1 & Hp1 & Hc1 & Hkept); [done|lia|done|done|].
  fold idx in Hl1. cbn [mbind res_bind].
  destruct (IH (fold_left (λ b k, AddKey k b) keys b1) fs1 kss1 (pend1 ++ keys))
    as (b' & fs' & kss' & pend' & Hrun & Hinv' & Hmax' & Hold & Hnew).
  - apply AddKeys_inv; [done|done|]. rewrite concat_app, length_app. lia.
  - done.
  - by rewrite Hl1.
  - rewrite !length_app. lia.
  - rewrite !concat_app, !length_app. lia.
  - exists b', fs', kss', pend'. split_and!; [done|done|done| |].
    + intros o k Hk. apply Hold. destruct (Hkept o k Hk) as [?|[? ?]]; [by left|right].
      split; [done|]. apply elem_of_app. by left.
    + intros o ks k [[= -> ->]|Hin]%elem_of_cons Hk; [|by eapply Hnew].
      apply Hold. right. fold idx. split; [lia|]. apply elem_of_app. by right.
Qed.

(** The bytes of a finished block. *)
Definition block_bytes (fs : list (list byte)) : list byte :=
  concat fs ++ concat (map (λ o, EncodeFixed32 (u32 o)) (sizes_from 0 fs))
  ++ EncodeFixed32 (u32 (zlen (concat fs))) ++ [zb kFilterBaseLg].

Lemma Finish_Ok b fs kss pend : builder_inv b fs kss pend → zlen pend ≤ max_keys →
  ∃ (fs' : list (list byte)) (kss' : list (list (list byte))), Finish b = Ok (block_bytes fs')
    ∧ Forall2 (λ f ks, ∀ k, k ∈ ks → KeyMayMatch k f = Ok true ∧ f ≠ []) fs' kss'
    ∧ ∀ off k, kept fs kss pend off k → ∃ ks, kss' !! Z.to_nat (off / kFilterBase) = Some ks ∧ k ∈ ks.
Proof using Hspec.
  intros Hinv Hmax. pose proof Hinv as []. pose proof (Forall2_length _ _ _ bi_filters0) as Hlen. unfold Finish.
  rewrite bi_start0, sizes_length.
  destruct (Z.ltb_spec 0 (zlen pend)) as [Hpos|Hz].
  - destruct (GenerateFilter_inv b fs kss pend Hinv Hmax) as (b1 & f & -> & Hinv1). cbn [mbind res_bind].
    exists (fs ++ [f]), (kss ++ [pend]). destruct Hinv1. rewrite fold_PutFixed32, bi_result1, bi_offsets1.
    split; [unfold block_bytes, PutFixed32; by rewrite map_map, <-!app_assoc|]. split; [done|].
    intros off k [(ks & Hks & Hk)|[Hj Hk]].
    + exists ks. split; [|done]. by apply lookup_app_l_Some.
    + exists pend. split; [|done]. rewrite Hj, Hlen. by apply list_lookup_middle.
  - destruct pend; [|simpl in Hz; lia]. cbn [mbind res_bind mret res_ret]. exists fs, kss.
    rewrite fold_PutFixed32, bi_result0, bi_offsets0.
    split; [unfold block_bytes, PutFixed32; by rewrite map_map, <-!app_assoc|]. split; [done|].
    intros off k [?|[_ ?%elem_of_nil]]; done.
Qed.
(** *** Reading it *)

Definition words_of (fs : list (list byte)) : list Z := sizes_from 0 fs ++ [zlen (concat fs)].

Lemma words_lookup fs j : (j ≤ length fs)%nat → words_of fs !! j = Some (zlen (concat (take j fs))).
Proof using.
  intros Hj. unfold words_of. destruct (decide (j < length fs)%nat) as [Hlt|].
  - rewrite lookup_app_l by (by rewrite sizes_length). by rewrite sizes_lookup.
  - replace j with (length fs) by lia. rewrite lookup_app_r, sizes_length, Nat.sub_diag by (by rewrite sizes_length).
    by rewrite firstn_all.
Qed.

Lemma block_bytes_words fs : zlen (concat fs) < 2^32 →
  block_bytes fs = concat fs ++ concat (map EncodeFixed32 (words_of fs)) ++ [zb kFilterBaseLg].
Proof using.
  intros Hmax. unfold block_bytes, words_of. rewrite map_app, concat_app. cbn [map concat].
  rewrite u32_small, app_nil_r, <-!app_assoc by lia. do 2 f_equal. f_equal. apply map_ext_in.
  intros o Ho%list_elem_of_In%list_elem_of_lookup. destruct Ho as [i Hi].
  pose proof (lookup_lt_Some _ _ _ Hi) as Hl. rewrite sizes_length in Hl. rewrite sizes_lookup in Hi by done.
  simplify_eq. f_equal. apply u32_small. rewrite <-(take_drop i fs), concat_app, length_app in Hmax. lia.
Qed.

(** The reader of a finished block asks the filter of the range of an offset. *)
Lemma reader_reads (fs : list (list byte)) : zlen (block_bytes fs) < 2^32 →
  ∃ r, new_FilterBlockReader (block_bytes fs) = Ok r
    ∧ ∀ off k f, 0 ≤ off → fs !! Z.to_nat (off / kFilterBase) = Some f → Reader_KeyMayMatch r off k = KeyMayMatch k f.
Proof using.
  intros Hmax. assert (zlen (concat fs) < 2^32) as Hc by (unfold block_bytes in Hmax; rewrite length_app in Hmax; lia).
  rewrite block_bytes_words in * by done. set (A := zlen (concat fs)) in *.
  set (bytes := concat fs ++ concat (map EncodeFixed32 (words_of fs)) ++ [zb kFilterBaseLg]) in *.
  assert (length (words_of fs) = S (length fs)) as Hwl by (unfold words_of; rewrite length_app, sizes_length; simpl; lia).
  assert (zlen bytes = A + 4 * (zlen fs + 1) + 1) as Hn.
  { unfold bytes. rewrite !length_app, words_length, Hwl. simpl. lia. }
  unfold new_FilterBlockReader. replace (zlen bytes <? 5) with false by lia.
  assert (bytes !! Z.to_nat (zlen bytes - 1) = Some (zb kFilterBaseLg)) as Hlast.
  { rewrite Hn. unfold bytes. rewrite app_assoc. apply list_lookup_middle. rewrite length_app, words_length, Hwl. lia. }
  rewrite (get8_Ok bytes (zlen bytes - 1) _ ltac:(lia) Hlast). cbn [mbind res_bind].
  assert (∀ i, (i ≤ length fs)%nat → DecodeFixed32 (drop (Z.to_nat (A + Z.of_nat i * 4)) bytes)
    = Ok (zlen (concat (take i fs)))) as Hword.
  { intros i Hi. apply word_at; [by apply words_lookup|].
    pose proof (concat_take_le fs i). lia. }
  replace (Z.to_nat (zlen bytes - 5)) with (Z.to_nat (A + Z.of_nat (length fs) * 4)) by lia.
  rewrite Hword, firstn_all by done. fold A. cbn [mbind res_bind].
  replace (zlen bytes - 5 <? A) with false by lia. eexists. split; [done|].
  intros off k f Hoff Hf. set (j := Z.to_nat (off / kFilterBase)) in *. pose proof (lookup_lt_Some _ _ _ Hf) as Hj.
  unfold Reader_KeyMayMatch. cbn [base_lg_ num_ offset_ data_].
  change (u64 (sz (zb kFilterBaseLg))) with 11. rewrite defined_true by lia. cbn [mbind res_bind].
  rewrite Z.shiftr_div_pow2 by lia. change (2 ^ 11) with kFilterBase.
  assert (off / kFilterBase = Z.of_nat j) as ->
    by (unfold j; rewrite Z2Nat.id; [done|]; apply Z.div_pos; [lia|reflexivity]).
  replace ((zlen bytes - 5 - A) / 4) with (zlen fs) by (rewrite Hn; apply Z.div_unique_exact; lia).
  replace (Z.of_nat j <? zlen fs) with true by lia.
  rewrite Hword by lia. replace (A + Z.of_nat j * 4 + 4) with (A + Z.of_nat (S j) * 4) by lia.
  rewrite Hword by lia. cbn [mbind res_bind].
  rewrite (take_S_r _ _ _ Hf), concat_app, length_app. cbn [concat]. rewrite app_nil_r.
  pose proof (concat_middle fs j f Hf) as Efs. assert (zlen (concat (take j fs)) + zlen f ≤ A) as Hfit.
  { unfold A. rewrite Efs, !length_app. lia. }
  replace (_ && _) with true by lia. rewrite read_bytes_Ok by lia. cbn [mbind res_bind].
  replace (Z.of_nat (length (concat (take j fs)) + length f) - zlen (concat (take j fs))) with (zlen f) by lia.
  f_equal. unfold bytes. rewrite Efs. unfold slice. by rewrite <-!app_assoc, !Nat2Z.id, drop_app_length, take_app_length.
Qed.

Lemma reader_Ok (fs : list (list byte)) (kss : list (list (list byte))) off k : zlen (block_bytes fs) < 2^32 → 0 ≤ off →
  Forall2 (λ f ks, ∀ k, k ∈ ks → KeyMayMatch k f = Ok true ∧ f ≠ []) fs kss →
  (∃ ks, kss !! Z.to_nat (off / kFilterBase) = Some ks ∧ k ∈ ks) →
  ∃ r, new_FilterBlockReader (block_bytes fs) = Ok r ∧ Reader_KeyMayMatch r off k = Ok true.
Proof using.
  intros Hmax Hoff Hfs (ks & Hks & Hk). destruct (reader_reads fs Hmax) as (r & Hr & Hread). exists r. split; [done|].
  destruct (Forall2_lookup_r _ _ _ _ _ Hfs Hks) as (f & Hf & Hm). rewrite (Hread _ _ f Hoff Hf). by apply Hm.
Qed.

(** Filter blocks have no false negatives, for any filter policy with none: when a
    table gives the builder its data blocks in order of their offsets, each with its keys,
    building succeeds (the assertion on the order of blocks holds), and if the finished block
    has less than 4GB, a reader of its bytes answers that a key may match at an offset for
    every key added at that offset, however blocks share filters or leave ranges empty. *)
Theorem filter_block_no_false_negative blocks (H0 : 0 ≤ max_keys)
  (Hblocks : blocks_ok 0 blocks) (Hcount : zlen (all_keys blocks) ≤ max_keys)
  (Hsize : zlen (concat (all_keys blocks)) < 2^64) :
  ∃ contents, build_filter_block blocks = Ok contents
    ∧ (zlen contents < 2^32 → ∀ off keys key, (off, keys) ∈ blocks → 0 ≤ off → key ∈ keys →
        ∃ r, new_FilterBlockReader contents = Ok r ∧ Reader_KeyMayMatch r off key = Ok true).
Proof using Hspec.
  destruct (build_blocks_inv blocks new_FilterBlockBuilder [] [] []) as (b & fs & kss & pend & Hrun & Hinv & Hp & _ & Hk);
    [by split|done|done|done|done|].
  destruct (Finish_Ok b fs kss pend Hinv Hp) as (fs' & kss' & Hfin & Hm & Hkept).
  exists (block_bytes fs'). unfold build_filter_block. rewrite Hrun. cbn [mbind res_bind]. split; [done|].
  intros Hmax off keys key Hin Hoff Hkey. apply (reader_Ok fs' kss'); [done|done|done|].
  apply Hkept. by eapply Hk.
Qed.
End correct.

(** Three data blocks, two of them sharing a filter, one range without keys. *)
Lemma filter_block_no_false_negative_witness :
  let p := MkBloom 10 6 in
  let blocks := [(0, [[x66; x6f]; [x62]]); (100, [[x62; x6f]]); (5000, [[]; [xff; x00]])] in
  ∃ contents, @build_filter_block (bloom_policy p) blocks = Ok contents
    ∧ (zlen contents < 2^32 → ∀ off keys key, (off, keys) ∈ blocks → 0 ≤ off → key ∈ keys →
        ∃ r, new_FilterBlockReader contents = Ok r
          ∧ @Reader_KeyMayMatch (bloom_policy p) r off key = Ok true).
Proof.
  intros p blocks.
  assert (@FilterPolicySpec (bloom_policy p) 100 (λ _, True)) as Hspec
    by (apply bloom_policy_spec; [by apply (new_bloom_ok 10)|reflexivity]).
  apply (@filter_block_no_false_negative (bloom_policy p) 100 (λ _, True) Hspec blocks).
  - discriminate.
  - repeat split; repeat constructor; vm_compute; discriminate.
  - vm_compute. discriminate.
  - vm_compute. reflexivity.
Defined.
