(* ===== verification/Comparator.v ===== *)
(** * Comparators: leveldb include/leveldb/slice.h, comparator.h, util/comparator.cc

    [Comparator] is the interface of comparators and [ComparatorSpec] their promise, which the
    sorted structures of LevelDB rely on: on the keys [ok], [Compare] computes a total preorder
    [c], and the two shortening operations stay on the right side. The bytewise comparator
    implements it. *)
From S2P Require Import Prelude Buffers CLib Order.

(** ** Slices *)

(** The first [n] bytes of both objects, as unsigned characters. *)
Definition memcmp (a b : list byte) (n : Z) : res Z :=
  _ ← defined (in_range 0 n a && in_range 0 n b);
  mret (strcmp_aux (take (Z.to_nat n) a) (take (Z.to_nat n) b)).

(** [min_len] is an [int], converted back to a [size_t] for [memcmp]. *)
Definition Slice_compare (a b : list byte) : res Z :=
  let min_len := to_int (if zlen a <? zlen b then zlen a else zlen b) in
  r ← memcmp a b (u64 min_len);
  mret (if r =? 0 then if zlen a <? zlen b then -1 else if zlen b <? zlen a then 1 else r else r).

Definition Slice_eq (x y : list byte) : res bool :=
  if zlen x =? zlen y then r ← memcmp x y (zlen x); mret (r =? 0) else mret false.

Definition remove_prefix (n : Z) (s : list byte) : res (list byte) :=
  _ ← c_assert (n <=? zlen s); mret (drop (Z.to_nat n) s).

Definition starts_with (s x : list byte) : res bool :=
  if zlen x <=? zlen s then r ← memcmp s x (zlen x); mret (r =? 0) else mret false.

(** ** The interface *)

Class Comparator := {
  Compare : list byte → list byte → res Z;
  FindShortestSeparator : list byte → list byte → res (list byte);
  FindShortSuccessor : list byte → res (list byte) }.

Class ComparatorSpec (C : Comparator) (ok : list byte → Prop) (c : list byte → list byte → Z) : Prop := {
  spec_order : CmpOrder c;
  Compare_spec a b : ok a → ok b → Compare a b = Ok (c a b);
  separator_spec start limit : ok start → ok limit → c start limit ≤ 0 →
    ∃ s, FindShortestSeparator start limit = Ok s ∧ ok s ∧ c start s ≤ 0
      ∧ (c start limit < 0 → c s limit < 0) ∧ (c start limit = 0 → c start s = 0);
  successor_spec key : ok key →
    ∃ s, FindShortSuccessor key = Ok s ∧ ok s ∧ c key s ≤ 0 }.

(** A comparator whose shortening operations do nothing. *)
Definition plain_comparator (cmp : list byte → list byte → res Z) : Comparator := {|
  Compare := cmp;
  FindShortestSeparator := λ start _, mret start;
  FindShortSuccessor := λ key, mret key |}.

(** ** The bytewise comparator *)

(** The loops that look for the length of the common prefix. *)
Fixpoint common_prefix (a b : list byte) : Z :=
  match a, b with
  | x :: a, y :: b => if decide (x = y) then 1 + common_prefix a b else 0
  | _, _ => 0
  end.

Definition bytewise_separator (start limit : list byte) : res (list byte) :=
  let min_length := Z.min (zlen start) (zlen limit) in
  let diff_index := common_prefix start limit in
  if min_length <=? diff_index then mret start
  else
    s ← get8 start diff_index;
    let diff_byte := bz s in
    l ← get8 limit diff_index;
    if (diff_byte <? 255) && (diff_byte + 1 <? bz l) then
      start ← set8 start diff_index (zb (sz s + 1));
      let start := take (Z.to_nat (diff_index + 1)) start in
      r ← Slice_compare start limit;
      _ ← c_assert (r <? 0);
      mret start
    else mret start.

(** [done] is what the loop has passed, all 0xff. *)
Fixpoint successor_loop (done key : list byte) : list byte :=
  match key with
  | [] => done
  | b :: key =>
      if negb (bz b =? 255) then done ++ [zb (bz b + 1)]
      else successor_loop (done ++ [b]) key
  end.

Definition BytewiseComparator : Comparator := {|
  Compare := Slice_compare;
  FindShortestSeparator := bytewise_separator;
  FindShortSuccessor := λ key, mret (successor_loop [] key) |}.

(** ** Lemmas *)

(** The lengths for which [int] lengths are exact. *)
Definition short (a : list byte) : Prop := zlen a ≤ int_max.

#[export] Instance bytes_order : CmpOrder strcmp_aux.
Proof.
  split; [|apply strcmp_aux_trans]. intros a b. rewrite strcmp_aux_anti. apply Z.sgn_opp.
Qed.

Lemma strcmp_aux_eq a b : strcmp_aux a b = 0 → a = b.
Proof.
  revert b. induction a as [|x a IH]; intros [|y b]; simpl; try done.
  destruct (Z.ltb_spec (bz x) (bz y)), (Z.ltb_spec (bz y) (bz x)); try done.
  intros ->%IH. f_equal. apply bz_inj. lia.
Qed.

Lemma strcmp_aux_app p a b : strcmp_aux (p ++ a) (p ++ b) = strcmp_aux a b.
Proof. induction p as [|x p IH]; simpl; [done|]. by rewrite Z.ltb_irrefl. Qed.

Lemma strcmp_take a b :
  let r := strcmp_aux (take (length a `min` length b) a) (take (length a `min` length b) b) in
  (if r =? 0 then if zlen a <? zlen b then -1 else if zlen b <? zlen a then 1 else r else r)
  = strcmp_aux a b.
Proof.
  revert b. induction a as [|x a IH]; intros [|y b]; simpl in *; try done.
  destruct (Z.ltb_spec (bz x) (bz y)), (Z.ltb_spec (bz y) (bz x)); simpl; try done.
  rewrite <-(IH b). case_match; [|done]. repeat case_match; lia.
Qed.

Lemma Slice_compare_Ok a b : short a ∨ short b → Slice_compare a b = Ok (strcmp_aux a b).
Proof.
  unfold short. intros Hs. unfold Slice_compare, memcmp.
  assert ((if zlen a <? zlen b then zlen a else zlen b) = Z.of_nat (length a `min` length b)) as ->.
  { destruct (Z.ltb_spec (zlen a) (zlen b)); lia. }
  rewrite to_int_small, u64_small by (unfold int_min, int_max in *; lia).
  rewrite defined_true by (apply andb_true_intro; split; apply in_range_true; lia).
  cbn [mbind res_bind mret res_ret]. rewrite Nat2Z.id, <-(strcmp_take a b). by cbn zeta.
Qed.

Lemma Slice_eq_Ok a b : Slice_eq a b = Ok (bool_decide (a = b)).
Proof.
  unfold Slice_eq, memcmp. destruct (Z.eqb_spec (zlen a) (zlen b)) as [E|E].
  - rewrite defined_true by (apply andb_true_intro; split; apply in_range_true; lia).
    cbn [mbind res_bind mret res_ret]. rewrite Nat2Z.id, firstn_all, take_ge by lia. f_equal.
    case_bool_decide as Hab; [subst; by rewrite (cmp_refl strcmp_aux)|].
    apply Z.eqb_neq. by intros ?%strcmp_aux_eq.
  - rewrite bool_decide_false; [done|]. congruence.
Qed.

(** What [common_prefix] finds: where one string ends or the strings differ. *)
Lemma common_prefix_split a b : ∃ p a' b', a = p ++ a' ∧ b = p ++ b' ∧ zlen p = common_prefix a b
  ∧ match a', b' with x :: _, y :: _ => x ≠ y | _, _ => True end.
Proof.
  revert b. induction a as [|x a IH]; intros b; simpl; [by exists [], [], b|].
  destruct b as [|y b]; [by exists [], (x :: a), []|]. destruct (decide (x = y)) as [->|Hne].
  - destruct (IH b) as (p & a' & b' & -> & -> & Hp & Hd). exists (y :: p), a', b'.
    split_and!; try done. simpl. lia.
  - by exists [], (x :: a), (y :: b).
Qed.

Lemma get8_middle p (x : byte) a n : n = zlen p → get8 (p ++ x :: a) n = Ok x.
Proof. intros ->. apply get8_Ok; [lia|]. by rewrite Nat2Z.id, list_lookup_middle. Qed.

Lemma set8_middle p (x y : byte) a n : n = zlen p → set8 (p ++ x :: a) n y = Ok (p ++ y :: a).
Proof.
  intros ->. unfold set8. rewrite write_bytes_Ok by (rewrite ?length_app; simpl; lia). f_equal.
  rewrite set8_splice1, Nat2Z.id, take_app_length. do 2 f_equal.
  rewrite <-drop_drop, drop_app_length. done.
Qed.

Lemma bytewise_separator_Ok start limit : short start →
  ∃ s, bytewise_separator start limit = Ok s ∧ (length s ≤ length start)%nat
    ∧ strcmp_aux start s ≤ 0
    ∧ (s = start ∨ strcmp_aux s limit < 0).
Proof.
  intros Hs. unfold bytewise_separator.
  destruct (common_prefix_split start limit) as (p & a & b & -> & -> & Hp & Hd).
  rewrite <-Hp, !length_app. destruct a as [|x a], b as [|y b]; simpl in Hd;
    try (rewrite (proj2 (Z.leb_le _ _)) by (simpl; lia); eexists; split; [done|];
         split; [rewrite ?length_app; lia|]; rewrite (cmp_refl strcmp_aux); split; [done|by left]).
  replace (_ <=? zlen p) with false by (simpl; lia).
  rewrite !get8_middle by done. cbn [mbind res_bind].
  destruct (_ && _) eqn:E; [|eexists; split; [done|]; rewrite length_app;
    rewrite (cmp_refl strcmp_aux); split; [done|split; [done|by left]]].
  assert (bz x < 255 ∧ bz x + 1 < bz y) as [H1 H2] by lia. pose proof (bz_range x). pose proof (bz_range y).
  rewrite set8_middle by done. cbn [mbind res_bind].
  assert (zb (sz x + 1) = zb (bz x + 1)) as ->.
  { unfold sz. destruct (bz x <? 128); [done|]. rewrite <-(zb_mod (bz x - 256 + 1)), <-(zb_mod (bz x + 1)).
    f_equal. by rewrite <-(Z_mod_plus_full (bz x - 256 + 1) 1 256) by lia; f_equal; lia. }
  replace (Z.to_nat (zlen p + 1)) with (length p + 1)%nat by lia.
  rewrite take_app_add. cbn [take]. rewrite take_0.
  assert (strcmp_aux (p ++ [zb (bz x + 1)]) (p ++ y :: b) < 0) as Hlt.
  { rewrite strcmp_aux_app. simpl. rewrite bz_zb_small by lia. by replace (_ <? bz y) with true by lia. }
  rewrite Slice_compare_Ok by (left; unfold short in *; rewrite length_app in *; simpl in *; lia).
  cbn [mbind res_bind]. rewrite c_assert_true by lia. cbn [mbind res_bind mret res_ret].
  eexists. split; [done|]. rewrite !length_app. split; [simpl; lia|]. split; [|by right].
  rewrite strcmp_aux_app. simpl. rewrite bz_zb_small by lia. by replace (bz x <? _) with true by lia.
Qed.

Lemma successor_loop_Ok key : ∀ done,
  strcmp_aux (done ++ key) (successor_loop done key) ≤ 0
  ∧ (length (successor_loop done key) ≤ length done + length key)%nat.
Proof.
  induction key as [|b key IH]; intros d; simpl.
  - rewrite app_nil_r, (cmp_refl strcmp_aux). lia.
  - pose proof (bz_range b). destruct (Z.eqb_spec (bz b) 255) as [E|E]; simpl.
    + destruct (IH (d ++ [b])) as [H1 H2]. rewrite <-app_assoc in H1. rewrite length_app in H2. simpl in *. lia.
    + rewrite strcmp_aux_app, length_app. simpl. rewrite bz_zb_small by lia.
      replace (bz b <? bz b + 1) with true by lia. lia.
Qed.

#[export] Instance bytewise_spec : ComparatorSpec BytewiseComparator short strcmp_aux.
Proof.
  split.
  - apply _.
  - intros a b Ha _. apply Slice_compare_Ok. by left.
  - intros start limit Hs Hl Hle. destruct (bytewise_separator_Ok start limit Hs) as (s & E & Hn & H1 & H2).
    exists s. unfold short in *. split_and!; [done|lia|done| |].
    + intros Hlt. destruct H2 as [->|]; lia.
    + intros ->%strcmp_aux_eq. destruct H2 as [->|H2]; [apply (cmp_refl strcmp_aux)|].
      pose proof (cmp_anti (c := strcmp_aux) limit s). lia.
  - intros key Hk. eexists. split; [done|]. destruct (successor_loop_Ok key []) as [H1 H2].
    unfold short in *. split; [simpl in *; lia|done].
Qed.

#[export] Instance plain_spec cmp ok c : CmpOrder c →
  (∀ a b, ok a → ok b → cmp a b = Ok (c a b)) → ComparatorSpec (plain_comparator cmp) ok c.
Proof.
  intros Hc Hcmp. split; [done|done| |].
  - intros start limit Hs Hl Hle. exists start. simpl. rewrite (cmp_refl c). split_and!; try done; lia.
  - intros key Hk. exists key. by rewrite (cmp_refl c).
Qed.
