(* ===== verification/DbFormat.v ===== *)
(** * Internal keys: leveldb db/dbformat.h, dbformat.cc

    An internal key is a user key followed by eight bytes that pack a sequence number and a
    value type. [InternalKeyComparator] turns a comparator of user keys into one of internal
    keys, [InternalFilterPolicy] a filter policy; both keep the promises of their interfaces. *)
From S2P Require Import Prelude Buffers CLib Order Coding Comparator Bloom.

Definition kTypeDeletion : Z := 0.
Definition kTypeValue : Z := 1.
Definition kValueTypeForSeek : Z := kTypeValue.
Definition kMaxSequenceNumber : Z := Z.shiftl 1 56 - 1.

(** [type] is the number in the tag, whether or not it is one of the two types. *)
Record ParsedInternalKey := MkParsed { user_key : list byte; sequence : Z; type : Z }.

Definition InternalKeyEncodingLength (key : ParsedInternalKey) : Z := zlen (user_key key) + 8.

Definition PackSequenceAndType (seq t : Z) : res Z :=
  _ ← c_assert (seq <=? kMaxSequenceNumber);
  _ ← c_assert (t <=? kValueTypeForSeek);
  mret (Z.lor (u64 (Z.shiftl seq 8)) t).

Definition AppendInternalKey (result : list byte) (key : ParsedInternalKey) : res (list byte) :=
  tag ← PackSequenceAndType (sequence key) (type key);
  mret (PutFixed64 (result ++ user_key key) tag).

Definition ParseInternalKey (internal_key : list byte) : res (option ParsedInternalKey) :=
  let n := zlen internal_key in
  if n <? 8 then mret None
  else
    num ← DecodeFixed64 (drop (Z.to_nat (n - 8)) internal_key);
    let c := Z.land num 0xff in
    let result := MkParsed (take (Z.to_nat (n - 8)) internal_key) (Z.shiftr num 8) c in
    mret (if c <=? kTypeValue then Some result else None).

Definition ExtractUserKey (internal_key : list byte) : res (list byte) :=
  _ ← c_assert (8 <=? zlen internal_key);
  mret (take (Z.to_nat (zlen internal_key - 8)) internal_key).

Definition ExtractValueType (internal_key : list byte) : res Z :=
  _ ← c_assert (8 <=? zlen internal_key);
  num ← DecodeFixed64 (drop (Z.to_nat (zlen internal_key - 8)) internal_key);
  mret (Z.land num 0xff).

(** ** InternalKey: the encoded key is [rep_] *)

Definition new_InternalKey (user_key : list byte) (s t : Z) : res (list byte) :=
  AppendInternalKey [] (MkParsed user_key s t).
Definition InternalKey_Encode (rep_ : list byte) : res (list byte) :=
  _ ← c_assert (negb (zlen rep_ =? 0)); mret rep_.
Definition InternalKey_user_key (rep_ : list byte) : res (list byte) := ExtractUserKey rep_.
Definition InternalKey_SetFrom (p : ParsedInternalKey) : res (list byte) := AppendInternalKey [] p.

(** ** InternalKeyComparator *)

Section comparator.
Context {user_comparator_ : Comparator}.

Definition internal_Compare (akey bkey : list byte) : res Z :=
  ua ← ExtractUserKey akey;
  ub ← ExtractUserKey bkey;
  r ← Compare ua ub;
  if r =? 0 then
    anum ← DecodeFixed64 (drop (Z.to_nat (zlen akey - 8)) akey);
    bnum ← DecodeFixed64 (drop (Z.to_nat (zlen bkey - 8)) bkey);
    mret (if bnum <? anum then -1 else if anum <? bnum then 1 else r)
  else mret r.

Definition InternalKey_Compare (a b : list byte) : res Z :=
  a ← InternalKey_Encode a; b ← InternalKey_Encode b; internal_Compare a b.

(** [tmp.size() < user.size() && user_comparator_->Compare(user, tmp) < 0]. *)
Definition shortened (user tmp : list byte) : res bool :=
  if zlen tmp <? zlen user then r ← Compare user tmp; mret (r <? 0) else mret false.

Definition internal_FindShortestSeparator (start limit : list byte) : res (list byte) :=
  user_start ← ExtractUserKey start;
  user_limit ← ExtractUserKey limit;
  tmp ← FindShortestSeparator user_start user_limit;
  b ← shortened user_start tmp;
  if (b : bool) then
    tag ← PackSequenceAndType kMaxSequenceNumber kValueTypeForSeek;
    let tmp := PutFixed64 tmp tag in
    r ← internal_Compare start tmp;
    _ ← c_assert (r <? 0);
    r ← internal_Compare tmp limit;
    _ ← c_assert (r <? 0);
    mret tmp
  else mret start.

Definition internal_FindShortSuccessor (key : list byte) : res (list byte) :=
  user_key ← ExtractUserKey key;
  tmp ← FindShortSuccessor user_key;
  b ← shortened user_key tmp;
  if (b : bool) then
    tag ← PackSequenceAndType kMaxSequenceNumber kValueTypeForSeek;
    let tmp := PutFixed64 tmp tag in
    r ← internal_Compare key tmp;
    _ ← c_assert (r <? 0);
    mret tmp
  else mret key.

Definition InternalKeyComparator : Comparator := {|
  Compare := internal_Compare;
  FindShortestSeparator := internal_FindShortestSeparator;
  FindShortSuccessor := internal_FindShortSuccessor |}.
End comparator.
Arguments InternalKeyComparator : clear implicits.

(** ** InternalFilterPolicy *)

Section filter.
Context {user_policy_ : FilterPolicy}.

Fixpoint extract_keys (keys : list (list byte)) : res (list (list byte)) :=
  match keys with
  | [] => mret []
  | k :: keys => u ← ExtractUserKey k; us ← extract_keys keys; mret (u :: us)
  end.

Definition InternalFilterPolicy : FilterPolicy := {|
  CreateFilter := λ keys dst, mkey ← extract_keys keys; CreateFilter mkey dst;
  KeyMayMatch := λ key f, u ← ExtractUserKey key; KeyMayMatch u f |}.
End filter.
Arguments InternalFilterPolicy : clear implicits.

(** ** LookupKey: [start_] is the start of [buf], [fresh n] uninitialised memory of [n] bytes *)

Record LookupKey := MkLookup { lk_buf : list byte; kstart_ : Z; end_ : Z }.

Definition new_LookupKey (fresh : Z → list byte) (user_key : list byte) (s : Z) : res LookupKey :=
  let usize := zlen user_key in
  let needed := u64 (usize + 13) in
  let dst := fresh (if needed <=? 200 then 200 else needed) in
  let klength := EncodeVarint32 (u32 (usize + 8)) in
  dst ← write_bytes dst 0 klength;
  let kstart := zlen klength in
  dst ← write_bytes dst kstart user_key;
  tag ← PackSequenceAndType s kValueTypeForSeek;
  dst ← write_bytes dst (kstart + usize) (EncodeFixed64 tag);
  mret (MkLookup dst kstart (kstart + usize + 8)).

Definition LookupKey_memtable_key (k : LookupKey) : res (list byte) := read_bytes (lk_buf k) 0 (end_ k).
Definition LookupKey_internal_key (k : LookupKey) : res (list byte) :=
  read_bytes (lk_buf k) (kstart_ k) (end_ k - kstart_ k).
Definition LookupKey_user_key (k : LookupKey) : res (list byte) :=
  read_bytes (lk_buf k) (kstart_ k) (end_ k - kstart_ k - 8).

(** ** Lemmas *)

Definition user_part (k : list byte) : list byte := take (Z.to_nat (zlen k - 8)) k.
Definition tag_part (k : list byte) : Z := le_val (drop (Z.to_nat (zlen k - 8)) k).

Definition pack (seq t : Z) : Z := seq * 256 + t.
Definition internal (u : list byte) (seq t : Z) : list byte := u ++ EncodeFixed64 (pack seq t).

(** Sequence numbers and types that can be packed. *)
Definition packable (seq t : Z) : Prop := 0 ≤ seq ≤ kMaxSequenceNumber ∧ 0 ≤ t ≤ kTypeValue.

Lemma packable_range seq t : packable seq t → 0 ≤ pack seq t < 2^64.
Proof. unfold packable, pack, kMaxSequenceNumber, kTypeValue. change (Z.shiftl 1 56) with (2^56). lia. Qed.

Lemma Pack_Ok seq t : packable seq t → PackSequenceAndType seq t = Ok (pack seq t).
Proof.
  intros Hp. pose proof (packable_range seq t Hp) as Hr. destruct Hp as [Hs Ht].
  unfold PackSequenceAndType, kValueTypeForSeek. rewrite !c_assert_true by lia. cbn [mbind res_bind].
  unfold pack, kTypeValue in *.
  rewrite (u64_small (Z.shiftl seq 8)) by (rewrite Z.shiftl_mul_pow2 by lia; change (2^8) with 256; lia).
  rewrite Z.lor_comm, lor_shiftl_add by lia. unfold mret, res_ret. f_equal. change (2^8) with 256. lia.
Qed.

Lemma AppendInternalKey_Ok result u seq t : packable seq t →
  AppendInternalKey result (MkParsed u seq t) = Ok (result ++ internal u seq t).
Proof.
  intros Hp. unfold AppendInternalKey. cbn [sequence type user_key]. rewrite Pack_Ok by done.
  cbn [mbind res_bind]. unfold PutFixed64, internal. by rewrite app_assoc.
Qed.

(** An internal key is a user part and eight bytes of tag. *)
Lemma internal_split k : 8 ≤ zlen k →
  k = user_part k ++ EncodeFixed64 (tag_part k) ∧ 0 ≤ tag_part k < 2^64
  ∧ zlen (user_part k) = zlen k - 8.
Proof.
  intros Hk. unfold user_part, tag_part. set (n := Z.to_nat (zlen k - 8)).
  assert (length (drop n k) = 8)%nat as Hd by (rewrite length_drop; lia).
  pose proof (le_val_range (drop n k)) as Hr. rewrite Hd in Hr. split; [|split; [exact Hr|rewrite length_take; lia]].
  unfold EncodeFixed64. pose proof (le_bytes_val (drop n k)) as E. rewrite Hd in E. rewrite E.
  by rewrite take_drop.
Qed.

Lemma parts_app u w : 0 ≤ w < 2^64 →
  user_part (u ++ EncodeFixed64 w) = u ∧ tag_part (u ++ EncodeFixed64 w) = w.
Proof.
  intros Hw. unfold user_part, tag_part. rewrite length_app, length_EncodeFixed64.
  replace (Z.to_nat _) with (length u) by lia. rewrite take_app_length, drop_app_length. split; [done|].
  unfold EncodeFixed64. rewrite le_val_bytes. by apply Z.mod_small.
Qed.

Lemma tag_Ok k : 8 ≤ zlen k → DecodeFixed64 (drop (Z.to_nat (zlen k - 8)) k) = Ok (tag_part k).
Proof.
  intros Hk. destruct (internal_split k Hk) as (E & Hr & Hl). rewrite E at 2.
  replace (Z.to_nat (zlen k - 8)) with (length (user_part k)) by lia. rewrite drop_app_length.
  rewrite <-(app_nil_r (EncodeFixed64 _)), DecodeFixed64_Ok. by rewrite u64_small.
Qed.

Lemma ExtractUserKey_Ok k : 8 ≤ zlen k → ExtractUserKey k = Ok (user_part k).
Proof. intros Hk. unfold ExtractUserKey. by rewrite c_assert_true by lia. Qed.

Lemma ParseInternalKey_Ok k : 8 ≤ zlen k → ParseInternalKey k =
  Ok (if tag_part k mod 256 <=? 1 then Some (MkParsed (user_part k) (tag_part k / 256) (tag_part k mod 256)) else None).
Proof.
  intros Hk. unfold ParseInternalKey. replace (_ <? 8) with false by lia. rewrite tag_Ok by done.
  cbn [mbind res_bind]. change 0xff with (Z.ones 8). rewrite Z.land_ones, Z.shiftr_div_pow2 by lia. done.
Qed.

Lemma ExtractValueType_Ok k : 8 ≤ zlen k → ExtractValueType k = Ok (tag_part k mod 256).
Proof.
  intros Hk. unfold ExtractValueType. rewrite c_assert_true by lia. cbn [mbind res_bind]. rewrite tag_Ok by done.
  cbn [mbind res_bind]. change 0xff with (Z.ones 8). by rewrite Z.land_ones by lia.
Qed.

Lemma length_internal u seq t : zlen (internal u seq t) = zlen u + 8.
Proof. unfold internal. rewrite length_app, length_EncodeFixed64. lia. Qed.

Lemma internal_parts u seq t : packable seq t →
  user_part (internal u seq t) = u ∧ tag_part (internal u seq t) = pack seq t.
Proof. intros Hp. apply parts_app, packable_range, Hp. Qed.

Lemma pack_inv seq t : packable seq t → pack seq t mod 256 = t ∧ pack seq t / 256 = seq.
Proof.
  intros [_ Ht]. unfold kTypeValue in Ht. unfold pack. rewrite Z.add_comm, Z.mod_add, Z.div_add by lia.
  rewrite Z.mod_small, Z.div_small by lia. done.
Qed.

(** ** The order of internal keys *)

Definition internal_order (c : list byte → list byte → Z) : list byte → list byte → Z :=
  lex_cmp (λ a b, c (user_part a) (user_part b)) (λ a b, Z.sgn (tag_part b - tag_part a)).

Definition internal_ok (ok : list byte → Prop) (k : list byte) : Prop := 8 ≤ zlen k ∧ ok (user_part k).

Lemma internal_order_parts c a b : internal_order c a b =
  if c (user_part a) (user_part b) =? 0 then Z.sgn (tag_part b - tag_part a)
  else c (user_part a) (user_part b).
Proof. done. Qed.

#[export] Instance internal_cmp_order c : CmpOrder c → CmpOrder (internal_order c).
Proof. intros Hc. apply lex_order; [by apply on_order|]. split; intros; lia. Qed.

Lemma internal_ok_app ok u w : 0 ≤ w < 2^64 → ok u → internal_ok ok (u ++ EncodeFixed64 w).
Proof.
  intros Hw Hu. split; [rewrite length_app, length_EncodeFixed64; lia|]. by rewrite (proj1 (parts_app u w Hw)).
Qed.

(** The tag that [FindShortestSeparator] and [FindShortSuccessor] append: the largest. *)
Lemma max_tag : packable kMaxSequenceNumber kValueTypeForSeek ∧ pack kMaxSequenceNumber kValueTypeForSeek < 2^64.
Proof. split; [repeat split; discriminate|reflexivity]. Qed.

Section ordered.
Context {C : Comparator} {ok : list byte → Prop} {c : list byte → list byte → Z} {Hspec : ComparatorSpec C ok c}.

Lemma internal_Compare_Ok a b : internal_ok ok a → internal_ok ok b →
  internal_Compare a b = Ok (internal_order c a b).
Proof using Hspec.
  intros [La Ha] [Lb Hb]. unfold internal_Compare. rewrite !ExtractUserKey_Ok by done. cbn [mbind res_bind].
  rewrite (Compare_spec (user_part a) (user_part b)) by done. cbn [mbind res_bind]. rewrite internal_order_parts.
  destruct (Z.eqb_spec (c (user_part a) (user_part b)) 0) as [E|]; [|done].
  rewrite !tag_Ok by done. cbn [mbind res_bind mret res_ret]. f_equal.
  destruct (Z.ltb_spec (tag_part b) (tag_part a)), (Z.ltb_spec (tag_part a) (tag_part b)); lia.
Qed.

Lemma shortened_Ok u tmp : ok u → ok tmp → shortened u tmp = Ok ((zlen tmp <? zlen u) && (c u tmp <? 0)).
Proof using Hspec.
  intros Hu Ht. unfold shortened. destruct (_ <? _); [|done]. by rewrite (Compare_spec u tmp).
Qed.

(** A user key above that of [a], whatever the tag, makes an internal key above [a]; one
    below that of [a] makes one below. *)
Lemma internal_above a u w : 0 ≤ w < 2^64 → c (user_part a) u < 0 →
  internal_order c a (u ++ EncodeFixed64 w) < 0.
Proof using.
  intros Hw Hu. rewrite internal_order_parts, (proj1 (parts_app u w Hw)).
  by replace (c (user_part a) u =? 0) with false by lia.
Qed.

Lemma internal_below a u w : 0 ≤ w < 2^64 → c u (user_part a) < 0 →
  internal_order c (u ++ EncodeFixed64 w) a < 0.
Proof using.
  intros Hw Hu. rewrite internal_order_parts, (proj1 (parts_app u w Hw)).
  by replace (c u (user_part a) =? 0) with false by lia.
Qed.

Lemma internal_order_le a b : internal_order c a b ≤ 0 → c (user_part a) (user_part b) ≤ 0.
Proof using. rewrite internal_order_parts. destruct (Z.eqb_spec (c (user_part a) (user_part b)) 0); lia. Qed.

Lemma internal_separator_Ok start limit : internal_ok ok start → internal_ok ok limit →
  internal_order c start limit ≤ 0 →
  ∃ s, internal_FindShortestSeparator start limit = Ok s ∧ internal_ok ok s ∧ zlen s ≤ zlen start
    ∧ (s = start ∨ internal_order c start s < 0 ∧ internal_order c s limit < 0).
Proof using Hspec.
  intros Hs Hl Hle. pose proof Hs as [Ls Os]. pose proof Hl as [Ll Ol].
  pose proof (@spec_order _ _ _ Hspec) as Hc.
  pose proof (internal_order_le _ _ Hle) as Hu.
  unfold internal_FindShortestSeparator. rewrite !ExtractUserKey_Ok by done. cbn [mbind res_bind].
  destruct (separator_spec (user_part start) (user_part limit) Os Ol Hu) as (tmp & -> & Ot & H1 & H2 & H3).
  cbn [mbind res_bind]. rewrite shortened_Ok by done. cbn [mbind res_bind].
  destruct (_ && _) eqn:E; [|exists start; split; [done|]; split; [done|]; split; [done|by left]].
  destruct max_tag as [Hp Hm]. rewrite Pack_Ok by done. cbn [mbind res_bind].
  pose proof (packable_range _ _ Hp) as Hw. unfold PutFixed64. set (s := tmp ++ EncodeFixed64 _).
  assert (internal_ok ok s) as Hok by (by apply internal_ok_app).
  assert (internal_order c start s < 0) as Hlow by (apply internal_above; [done|lia]).
  assert (internal_order c s limit < 0) as Hhigh by (apply internal_below; [done|lia]).
  rewrite !internal_Compare_Ok by done. cbn [mbind res_bind].
  rewrite !c_assert_true by lia. cbn [mbind res_bind]. exists s. split; [done|]. split; [done|]. split; [|by right].
  unfold s. rewrite length_app, length_EncodeFixed64. destruct (internal_split start Ls) as (_ & _ & Hn). lia.
Qed.

Lemma internal_successor_Ok key : internal_ok ok key →
  ∃ s, internal_FindShortSuccessor key = Ok s ∧ internal_ok ok s ∧ zlen s ≤ zlen key
    ∧ (s = key ∨ internal_order c key s < 0).
Proof using Hspec.
  intros Hk. pose proof Hk as [Lk Ok_]. pose proof (@spec_order _ _ _ Hspec) as Hc.
  unfold internal_FindShortSuccessor. rewrite !ExtractUserKey_Ok by done. cbn [mbind res_bind].
  destruct (successor_spec (user_part key) Ok_) as (tmp & -> & Ot & H1).
  cbn [mbind res_bind]. rewrite shortened_Ok by done. cbn [mbind res_bind].
  destruct (_ && _) eqn:E; [|exists key; split; [done|]; split; [done|]; split; [done|by left]].
  destruct max_tag as [Hp Hm]. rewrite Pack_Ok by done. cbn [mbind res_bind].
  pose proof (packable_range _ _ Hp) as Hw. unfold PutFixed64. set (s := tmp ++ EncodeFixed64 _).
  assert (internal_ok ok s) as Hok by (by apply internal_ok_app).
  assert (internal_order c key s < 0) as Hlow by (apply internal_above; [done|lia]).
  rewrite internal_Compare_Ok by done. cbn [mbind res_bind].
  rewrite c_assert_true by lia. cbn [mbind res_bind]. exists s. split; [done|]. split; [done|]. split; [|by right].
  unfold s. rewrite length_app, length_EncodeFixed64. destruct (internal_split key Lk) as (_ & _ & Hn). lia.
Qed.

#[export] Instance internal_comparator_spec :
  ComparatorSpec (InternalKeyComparator C) (internal_ok ok) (internal_order c).
Proof using Hspec.
  pose proof (@spec_order _ _ _ Hspec) as Hc. pose proof (internal_cmp_order c Hc) as Hic. split.
  - done.
  - intros a b. apply internal_Compare_Ok.
  - intros start limit Hs Hl Hle. destruct (internal_separator_Ok start limit Hs Hl Hle) as (s & Es & Hok & _ & Hr).
    exists s. split; [done|]. split; [done|]. destruct Hr as [->|[H1 H2]]; rewrite ?(cmp_refl (internal_order c)).
    + split_and!; [done|done|done].
    + split_and!; [lia|done|]. intros E. pose proof (cmp_eq_l (internal_order c) _ _ s E).
      pose proof (cmp_anti (c := internal_order c) limit s). lia.
  - intros key Hk. destruct (internal_successor_Ok key Hk) as (s & Es & Hok & _ & Hr).
    exists s. split; [done|]. split; [done|]. destruct Hr as [->|H1]; rewrite ?(cmp_refl (internal_order c)); lia.
Qed.
End ordered.

(** ** Filters on user keys *)

Lemma extract_keys_Ok keys : Forall (λ k, 8 ≤ zlen k) keys → extract_keys keys = Ok (map user_part keys).
Proof.
  induction 1 as [|k keys Hk _ IH]; [done|]. cbn [extract_keys]. rewrite ExtractUserKey_Ok by done.
  cbn [mbind res_bind]. rewrite IH. done.
Qed.

#[export] Instance internal_policy_spec P max_keys ok : @FilterPolicySpec P max_keys ok →
  @FilterPolicySpec (InternalFilterPolicy P) max_keys (internal_ok ok).
Proof.
  intros HP keys dst Hne Hmax Hok.
  assert (Forall (λ k, 8 ≤ zlen k) keys) as H8 by (eapply Forall_impl; [exact Hok|by intros k []]).
  destruct (filter_matches (map user_part keys) dst) as (f & Hf & Hne' & Hm).
  - by destruct keys.
  - by rewrite length_map.
  - apply Forall_map. eapply Forall_impl; [exact Hok|]. by intros k [].
  - exists f. cbn [CreateFilter KeyMayMatch InternalFilterPolicy]. rewrite extract_keys_Ok by done.
    cbn [mbind res_bind]. split; [done|]. split; [done|]. intros key Hkey.
    rewrite Forall_forall in H8. rewrite ExtractUserKey_Ok by (by apply H8). cbn [mbind res_bind].
    apply Hm. by apply list_elem_of_fmap_2.
Qed.

(** ** Lookup keys *)

Lemma EncodeVarint32_length v : 0 ≤ v < 2^32 → zlen (EncodeVarint32 v) ≤ 5.
Proof.
  intros Hv. rewrite EncodeVarint32_loop by done. unfold EncodeVarint64.
  rewrite (varint64_loop_more 4) by (lia || (simpl; lia)).
  pose proof (varint64_loop_bound 4 v). lia.
Qed.

(** Writing in the middle of a buffer whose first bytes are [pre]. *)
Lemma write_next pre rest bs : zlen bs ≤ zlen rest →
  write_bytes (pre ++ rest) (zlen pre) bs = Ok ((pre ++ bs) ++ drop (length bs) rest).
Proof.
  intros Hb. rewrite write_bytes_Ok by (rewrite ?length_app; lia). f_equal. unfold splice.
  rewrite Nat2Z.id, take_app_length, <-app_assoc. do 2 f_equal.
  replace (_ + _)%nat with (length pre + length bs)%nat by lia. by rewrite <-drop_drop, drop_app_length.
Qed.

Lemma LookupKey_Ok fresh u s : (∀ n, 0 ≤ n → zlen (fresh n) = n) → packable s kValueTypeForSeek →
  zlen u + 13 < 2^32 →
  let ik := internal u s kValueTypeForSeek in
  ∃ lk, new_LookupKey fresh u s = Ok lk
    ∧ LookupKey_memtable_key lk = Ok (EncodeVarint32 (zlen ik) ++ ik)
    ∧ LookupKey_internal_key lk = Ok ik ∧ LookupKey_user_key lk = Ok u.
Proof.
  intros Hfresh Hs Hu ik. unfold ik. rewrite length_internal. unfold new_LookupKey.
  rewrite u64_small, u32_small by lia. set (n := if _ <=? 200 then 200 else _).
  assert (zlen u + 13 ≤ n) as Hn by (unfold n; destruct (Z.leb_spec (zlen u + 13) 200); lia).
  set (pre := EncodeVarint32 (zlen u + 8)). pose proof (EncodeVarint32_length (zlen u + 8) ltac:(lia)) as Hpre.
  fold pre in Hpre. pose proof (Hfresh n ltac:(lia)) as Hlen.
  pose proof (write_next [] (fresh n) pre ltac:(lia)) as E.
  change (zlen []) with 0 in E. change ([] ++ ?l) with l in E. rewrite E. cbn [mbind res_bind].
  rewrite write_next by (rewrite length_drop; lia). cbn [mbind res_bind].
  rewrite Pack_Ok by done. cbn [mbind res_bind].
  replace (zlen pre + zlen u) with (zlen (pre ++ u)) by (rewrite length_app; lia).
  rewrite write_next by (rewrite length_EncodeFixed64, !length_drop; lia). cbn [mbind res_bind].
  rewrite <-!app_assoc. eexists. split; [done|]. unfold LookupKey_memtable_key, LookupKey_internal_key, LookupKey_user_key.
  cbn [lk_buf kstart_ end_]. set (tag := EncodeFixed64 _). set (rest := drop _ _).
  assert (length tag = 8%nat) as Ht by apply length_EncodeFixed64. unfold internal. fold tag.
  assert (read_bytes (pre ++ u ++ tag ++ rest) 0 (zlen (pre ++ u) + 8) = Ok (pre ++ u ++ tag)) as ->.
  { rewrite read_bytes_Ok by (rewrite ?length_app; lia). f_equal.
    rewrite (app_assoc u), app_assoc. apply slice_prefix. rewrite !length_app. lia. }
  assert (∀ m bs, zlen bs = m → (∃ r, u ++ tag ++ rest = bs ++ r) →
    read_bytes (pre ++ u ++ tag ++ rest) (zlen pre) m = Ok bs) as Hread.
  { intros m bs Hm [r Er]. rewrite Er, read_bytes_Ok by (rewrite ?length_app; lia). f_equal. unfold slice.
    rewrite Nat2Z.id, drop_app_length, <-Hm, Nat2Z.id. by rewrite take_app_length. }
  rewrite (Hread _ (u ++ tag)), (Hread _ u); [done| | | |].
  - rewrite length_app. lia.
  - by exists (tag ++ rest).
  - rewrite !length_app. lia.
  - exists rest. by rewrite <-app_assoc.
Qed.

(** ** Properties *)

(** Internal keys round trip: appending an internal key with a 56-bit sequence number
    and a valid type adds [InternalKeyEncodingLength] bytes, from which [ParseInternalKey],
    [ExtractUserKey] and [ExtractValueType] read the parts back; and whatever bytes
    [ParseInternalKey] accepts are the encoding of what it returns. *)
Theorem internal_key_roundtrip :
  (∀ result u seq t, packable seq t → ∃ ik,
     AppendInternalKey result (MkParsed u seq t) = Ok (result ++ ik)
     ∧ zlen ik = InternalKeyEncodingLength (MkParsed u seq t)
     ∧ ParseInternalKey ik = Ok (Some (MkParsed u seq t))
     ∧ ExtractUserKey ik = Ok u ∧ ExtractValueType ik = Ok t)
  ∧ ∀ ik p, ParseInternalKey ik = Ok (Some p) → AppendInternalKey [] p = Ok ik.
Proof.
  split.
  - intros result u seq t Hp. exists (internal u seq t). rewrite AppendInternalKey_Ok by done.
    pose proof (length_internal u seq t) as Hl.
    rewrite ParseInternalKey_Ok, ExtractUserKey_Ok, ExtractValueType_Ok by lia.
    destruct (internal_parts u seq t Hp) as [-> ->]. destruct (pack_inv seq t Hp) as [-> ->].
    destruct Hp as [_ Ht]. unfold kTypeValue in Ht. replace (t <=? 1) with true by lia. done.
  - intros ik p Hpa. destruct (decide (8 ≤ zlen ik)) as [H8|].
    + rewrite ParseInternalKey_Ok in Hpa by done. destruct (internal_split ik H8) as (E & Hr & _).
      destruct (Z.leb_spec (tag_part ik mod 256) 1) as [Ht|]; [|done]. injection Hpa as <-.
      pose proof (Z.mod_pos_bound (tag_part ik) 256 ltac:(lia)). pose proof (Z.div_mod (tag_part ik) 256 ltac:(lia)).
      rewrite AppendInternalKey_Ok.
      * simpl. rewrite E at 4. unfold internal, pack. do 3 f_equal. lia.
      * unfold packable, kMaxSequenceNumber, kTypeValue. change (Z.shiftl 1 56) with (2^56).
        split; [|lia]. split; [apply Z.div_pos; lia|]. assert (tag_part ik / 256 < 2^56); [|lia].
        apply Z.div_lt_upper_bound; lia.
    + unfold ParseInternalKey in Hpa. by replace (_ <? 8) with true in Hpa by lia.
Qed.

(** Internal keys are ordered by increasing user key (in the order of the user's
    comparator), then by decreasing sequence number, then by decreasing type. *)
Theorem internal_key_order (C : Comparator) ok c u1 s1 t1 u2 s2 t2
  (Hspec : ComparatorSpec C ok c) (Hu1 : ok u1) (Hu2 : ok u2)
  (Hp1 : packable s1 t1) (Hp2 : packable s2 t2) :
  ∃ k1 k2 r, new_InternalKey u1 s1 t1 = Ok k1 ∧ new_InternalKey u2 s2 t2 = Ok k2
    ∧ InternalKey_Compare k1 k2 = Ok r
    ∧ Z.sgn r = if decide (c u1 u2 = 0) then if decide (s1 = s2) then Z.sgn (t2 - t1) else Z.sgn (s2 - s1)
                else Z.sgn (c u1 u2).
Proof.
  exists (internal u1 s1 t1), (internal u2 s2 t2), (internal_order c (internal u1 s1 t1) (internal u2 s2 t2)).
  unfold new_InternalKey. rewrite !AppendInternalKey_Ok by done.
  destruct (internal_parts u1 s1 t1 Hp1) as [Eu1 Et1]. destruct (internal_parts u2 s2 t2 Hp2) as [Eu2 Et2].
  pose proof (length_internal u1 s1 t1) as L1. pose proof (length_internal u2 s2 t2) as L2.
  split; [done|]. split; [done|]. split.
  - unfold InternalKey_Compare, InternalKey_Encode. rewrite !c_assert_true by lia. cbn [mbind res_bind].
    apply internal_Compare_Ok; (split; [lia|]); by rewrite ?Eu1, ?Eu2.
  - rewrite internal_order_parts, Eu1, Eu2, Et1, Et2. unfold pack.
    destruct Hp1 as [_ Ht1], Hp2 as [_ Ht2]. unfold kTypeValue in *.
    destruct (Z.eqb_spec (c u1 u2) 0), (decide (c u1 u2 = 0)); try lia. case_decide; lia.
Qed.

Lemma internal_key_order_witness :
  ∃ k1 k2 r, new_InternalKey [x61] 7 1 = Ok k1 ∧ new_InternalKey [x61] 9 0 = Ok k2
    ∧ @InternalKey_Compare BytewiseComparator k1 k2 = Ok r
    ∧ Z.sgn r = if decide (strcmp_aux [x61] [x61] = 0)
                then if decide (7 = 9) then Z.sgn (0 - 1) else Z.sgn (9 - 7)
                else Z.sgn (strcmp_aux [x61] [x61]).
Proof.
  apply (internal_key_order BytewiseComparator short strcmp_aux [x61] 7 1 [x61] 9 0 bytewise_spec);
    [discriminate|discriminate| |]; repeat split; discriminate.
Defined.

(** For any user comparator that keeps its promise, shortening internal keys is safe:
    from keys in order, [FindShortestSeparator] passes its assertions and returns a key no
    longer than the first, not below it, and below the second unless it is the first;
    [FindShortSuccessor] passes its assertion and returns a key no longer than its argument
    and not below it. *)
Theorem internal_separator_safe (C : Comparator) ok c start limit
  (Hspec : ComparatorSpec C ok c) (Hstart : internal_ok ok start) (Hlimit : internal_ok ok limit)
  (Hle : internal_order c start limit ≤ 0) :
  (∃ s, @FindShortestSeparator (InternalKeyComparator C) start limit = Ok s ∧ zlen s ≤ zlen start
     ∧ (s = start ∨ @Compare (InternalKeyComparator C) start s = Ok (internal_order c start s)
          ∧ internal_order c start s < 0
          ∧ @Compare (InternalKeyComparator C) s limit = Ok (internal_order c s limit)
          ∧ internal_order c s limit < 0))
  ∧ ∃ s, @FindShortSuccessor (InternalKeyComparator C) start = Ok s ∧ zlen s ≤ zlen start
     ∧ (s = start ∨ @Compare (InternalKeyComparator C) start s = Ok (internal_order c start s)
          ∧ internal_order c start s < 0).
Proof.
  split.
  - destruct (internal_separator_Ok start limit Hstart Hlimit Hle) as (s & Hs & Hok & Hl & Hr).
    exists s. split; [done|]. split; [done|]. destruct Hr as [->|[H1 H2]]; [by left|right].
    cbn [Compare InternalKeyComparator]. by rewrite !internal_Compare_Ok.
  - destruct (internal_successor_Ok start Hstart) as (s & Hs & Hok & Hl & Hr).
    exists s. split; [done|]. split; [done|]. destruct Hr as [->|H1]; [by left|right].
    cbn [Compare InternalKeyComparator]. by rewrite internal_Compare_Ok.
Qed.

Lemma internal_separator_safe_witness :
  let start := internal [x61; x62; x63; x64] 7 1 in let limit := internal [x61; x66] 9 1 in
  (∃ s, @FindShortestSeparator (InternalKeyComparator BytewiseComparator) start limit = Ok s ∧ zlen s ≤ zlen start
     ∧ (s = start ∨ @Compare (InternalKeyComparator BytewiseComparator) start s = Ok (internal_order strcmp_aux start s)
          ∧ internal_order strcmp_aux start s < 0
          ∧ @Compare (InternalKeyComparator BytewiseComparator) s limit = Ok (internal_order strcmp_aux s limit)
          ∧ internal_order strcmp_aux s limit < 0))
  ∧ ∃ s, @FindShortSuccessor (InternalKeyComparator BytewiseComparator) start = Ok s ∧ zlen s ≤ zlen start
     ∧ (s = start ∨ @Compare (InternalKeyComparator BytewiseComparator) start s = Ok (internal_order strcmp_aux start s)
          ∧ internal_order strcmp_aux start s < 0).
Proof.
  intros start limit. apply (internal_separator_safe BytewiseComparator short strcmp_aux start limit bytewise_spec).
  - split; vm_compute; discriminate.
  - split; vm_compute; discriminate.
  - vm_compute. discriminate.
Defined.

Lemma extract_keys_length keys : ∀ us, extract_keys keys = Ok us → length us = length keys.
Proof.
  induction keys as [|k keys IH]; intros us; [by intros [= <-]|]. cbn [extract_keys]. intros H. apply bind_Ok in H as (u & _ & H).
  apply bind_Ok in H as (us' & H & [= <-]). cbn. by rewrite (IH us').
Qed.

Lemma internal_slim K P : slim K P → slim K (InternalFilterPolicy P).
Proof.
  intros [HK Hs]. split; [done|]. intros keys dst out. cbn [CreateFilter InternalFilterPolicy]. intros H. apply bind_Ok in H as (us & Hu & H).
  rewrite <-(extract_keys_length _ _ Hu). by apply Hs.
Qed.

Lemma internal_answers ok P : answers ok P → answers (internal_ok ok) (InternalFilterPolicy P).
Proof.
  intros Ha key f [H8 Hok]. cbn [KeyMayMatch InternalFilterPolicy]. rewrite ExtractUserKey_Ok by done. cbn [mbind res_bind]. by apply Ha.
Qed.
