(* ===== verification/Status.v ===== *)
(** * Statuses: leveldb include/leveldb/status.h, util/status.cc

    A status is its [state_]: no array, or an array with the length of the message, the code
    and the message. *)
From Stdlib Require Import Strings.String.
From S2P Require Import Prelude Buffers CLib Coding.

#[local] Open Scope Z_scope.
#[local] Open Scope list_scope.

Abbreviation Status := (option (list byte)).

Definition kOk : Z := 0.
Definition kNotFound : Z := 1.
Definition kCorruption : Z := 2.
Definition kNotSupported : Z := 3.
Definition kInvalidArgument : Z := 4.
Definition kIOError : Z := 5.

(** The bytes in the order they are stored; they must fit in the array. *)
Definition new_Status (code : Z) (msg msg2 : list byte) : res Status :=
  _ ← c_assert (negb (code =? kOk));
  let len1 := u32 (zlen msg) in
  let len2 := u32 (zlen msg2) in
  let size := u32 (len1 + (if negb (len2 =? 0) then u32 (2 + len2) else 0)) in
  let result := EncodeFixed32 size ++ [zb code] ++ take (Z.to_nat len1) msg
    ++ (if negb (len2 =? 0) then str ": " ++ take (Z.to_nat len2) msg2 else []) in
  _ ← defined (zlen result <=? u32 (size + 5));
  mret (Some result).

Definition OK : Status := None.
Definition NotFound (msg msg2 : list byte) : res Status := new_Status kNotFound msg msg2.
Definition Corruption (msg msg2 : list byte) : res Status := new_Status kCorruption msg msg2.
Definition NotSupported (msg msg2 : list byte) : res Status := new_Status kNotSupported msg msg2.
Definition InvalidArgument (msg msg2 : list byte) : res Status := new_Status kInvalidArgument msg msg2.
Definition IOError (msg msg2 : list byte) : res Status := new_Status kIOError msg msg2.

Definition CopyState (state : list byte) : res (list byte) :=
  size ← DecodeFixed32 state; read_bytes state 0 (u32 (size + 5)).
Definition copy_Status (s : Status) : res Status :=
  match s with None => mret None | Some state => r ← CopyState state; mret (Some r) end.

Definition ok (s : Status) : bool := bool_decide (s = None).
Definition code (s : Status) : res Z :=
  match s with None => mret kOk | Some state => b ← get8 state 4; mret (sz b) end.
Definition IsNotFound (s : Status) : res bool := c ← code s; mret (c =? kNotFound).
Definition IsCorruption (s : Status) : res bool := c ← code s; mret (c =? kCorruption).
Definition IsIOError (s : Status) : res bool := c ← code s; mret (c =? kIOError).

Definition type_name (code : Z) : list byte :=
  if code =? kOk then str "OK"
  else if code =? kNotFound then str "NotFound: "
  else if code =? kCorruption then str "Corruption: "
  else if code =? kNotSupported then str "Not implemented: "
  else if code =? kInvalidArgument then str "Invalid argument: "
  else if code =? kIOError then str "IO error: "
  else str "Unknown code(" ++ dec_of_Z code ++ str "): ".

Definition ToString (s : Status) : res (list byte) :=
  match s with
  | None => mret (str "OK")
  | Some state =>
      c ← code s;
      length ← DecodeFixed32 state;
      msg ← read_bytes state 5 length;
      mret (type_name c ++ msg)
  end.

(** ** Lemmas *)

(** The message of a status. *)
Definition message (msg msg2 : list byte) : list byte :=
  msg ++ match msg2 with [] => [] | _ => str ": " ++ msg2 end.

Definition status_of (code : Z) (msg msg2 : list byte) : Status :=
  Some (EncodeFixed32 (zlen (message msg msg2)) ++ [zb code] ++ message msg msg2).

Lemma new_Status_Ok c msg msg2 : c ≠ kOk → zlen msg + zlen msg2 + 7 < 2^32 →
  new_Status c msg msg2 = Ok (status_of c msg msg2).
Proof.
  intros Hc Hl. unfold new_Status, status_of. rewrite c_assert_true by (unfold kOk in *; lia).
  cbn [mbind res_bind]. rewrite !(u32_small (zlen _)) by lia. rewrite !Nat2Z.id, !firstn_all.
  assert (u32 (zlen msg + (if negb (zlen msg2 =? 0) then u32 (2 + zlen msg2) else 0)) = zlen (message msg msg2)
    ∧ (if negb (zlen msg2 =? 0) then str ": " ++ msg2 else []) = match msg2 with [] => [] | _ => str ": " ++ msg2 end)
    as [-> ->].
  { unfold message. destruct msg2 as [|b msg2].
    - rewrite app_nil_r. split; [|done]. change (negb (zlen [] =? 0)) with false. cbv iota.
      rewrite Z.add_0_r. apply u32_small. lia.
    - split; [|done]. replace (negb _) with true by (simpl; lia). rewrite (u32_small (2 + _)), length_app by lia.
      rewrite length_app. change (zlen (str ": ")) with 2. rewrite u32_small by lia. simpl. lia. }
  fold (message msg msg2). assert (zlen (message msg msg2) + 5 < 2^32) as Hm.
  { unfold message. destruct msg2; rewrite ?app_nil_r, ?length_app in *; simpl in *; lia. }
  rewrite defined_true; [done|].
  rewrite u32_small, !length_app, length_EncodeFixed32 by lia. simpl. lia.
Qed.

Lemma ToString_Ok c msg msg2 : c ≠ kOk → 0 ≤ c < 128 → zlen msg + zlen msg2 + 7 < 2^32 →
  code (status_of c msg msg2) = Ok c ∧ copy_Status (status_of c msg msg2) = Ok (status_of c msg msg2)
  ∧ ToString (status_of c msg msg2) = Ok (type_name c ++ message msg msg2).
Proof.
  intros Hc Hr Hl. assert (zlen (message msg msg2) + 5 < 2^32) as Hm.
  { unfold message. destruct msg2; rewrite ?app_nil_r, ?length_app in *; simpl in *; lia. }
  unfold status_of. set (m := message msg msg2) in *. set (state := _ ++ _).
  assert (code (Some state) = Ok c) as Hcode.
  { unfold code. rewrite (get8_Ok _ _ (zb c)); [|lia|done]. cbn [mbind res_bind].
    unfold sz. rewrite bz_zb_small by lia. by replace (c <? 128) with true by lia. }
  assert (zlen state = zlen m + 5) as Hlen
    by (unfold state; rewrite !length_app, length_EncodeFixed32; simpl; lia).
  assert (DecodeFixed32 state = Ok (zlen m)) as Hsize
    by (unfold state; by rewrite DecodeFixed32_Ok, u32_small by lia).
  split; [done|]. split.
  - unfold copy_Status, CopyState. rewrite Hsize. cbn [mbind res_bind].
    rewrite u32_small, read_bytes_Ok, <-Hlen, slice_all by lia. done.
  - unfold ToString. rewrite Hcode. cbn [mbind res_bind]. rewrite Hsize. cbn [mbind res_bind].
    rewrite read_bytes_Ok by lia. cbn [mbind res_bind mret res_ret]. do 2 f_equal.
    unfold state. rewrite app_assoc. apply slice_app_r; [|done]. rewrite length_app, length_EncodeFixed32. done.
Qed.
