(* ===== verification/Block.v ===== *)
(** * Blocks of sorted entries: leveldb table/block_builder.cc, table/block.cc

    The builder compresses keys against the previous one and records restart points; the
    iterator decodes entries, and searches the restart points. Both use the comparator through
    its interface. Pointers into the block are offsets in [data_]. *)
From Stdlib Require Import Strings.String.
From S2P Require Import Prelude Buffers CLib Coding Comparator Status.

#[local] Open Scope Z_scope.
#[local] Open Scope list_scope.

(** ** BlockBuilder *)

Record BlockBuilder := MkBlockBuilder {
  buffer_ : list byte; restarts_ : list Z; counter_ : Z; finished_ : bool; last_key_ : list byte }.

Section builder.
Context {comparator : Comparator} (block_restart_interval : Z).

Definition new_BlockBuilder : res BlockBuilder :=
  _ ← c_assert (1 <=? block_restart_interval);
  mret (MkBlockBuilder [] [0] 0 false []).

Definition Reset (b : BlockBuilder) : BlockBuilder := MkBlockBuilder [] [0] 0 false [].

Definition CurrentSizeEstimate (b : BlockBuilder) : Z :=
  u64 (zlen (buffer_ b) + zlen (restarts_ b) * 4 + 4).

Definition builder_empty (b : BlockBuilder) : bool := zlen (buffer_ b) =? 0.

Definition Finish (b : BlockBuilder) : list byte * BlockBuilder :=
  let buffer := fold_left PutFixed32 (restarts_ b) (buffer_ b) in
  let buffer := PutFixed32 buffer (u32 (zlen (restarts_ b))) in
  (buffer, MkBlockBuilder buffer (restarts_ b) (counter_ b) true (last_key_ b)).

Definition Add (key value : list byte) (b : BlockBuilder) : res BlockBuilder :=
  let last_key_piece := last_key_ b in
  _ ← c_assert (negb (finished_ b));
  _ ← c_assert (counter_ b <=? block_restart_interval);
  larger ← (if zlen (buffer_ b) =? 0 then mret true
            else r ← Compare key last_key_piece; mret (0 <? r));
  _ ← c_assert larger;
  let '(shared, restarts, counter) :=
    if counter_ b <? block_restart_interval then
      (common_prefix last_key_piece key, restarts_ b, counter_ b)
    else (0, restarts_ b ++ [u32 (zlen (buffer_ b))], 0) in
  let non_shared := zlen key - shared in
  let buffer := PutVarint32 (buffer_ b) (u32 shared) in
  let buffer := PutVarint32 buffer (u32 non_shared) in
  let buffer := PutVarint32 buffer (u32 (zlen value)) in
  delta ← read_bytes key shared non_shared;
  let buffer := buffer ++ delta ++ value in
  let last_key := take (Z.to_nat shared) (last_key_ b) ++ delta in
  same ← Slice_eq last_key key;
  _ ← c_assert same;
  counter ← cint (counter + 1);
  mret (MkBlockBuilder buffer restarts counter (finished_ b) last_key).
End builder.

(** ** Block *)

(** [restart_offset_] is not initialised where [size_] is 0, and not read. *)
Record Block := MkBlock { blk_data : list byte; size_ : Z; restart_offset_ : Z }.

Definition NumRestarts (data : list byte) (size : Z) : res Z :=
  _ ← c_assert (4 <=? size);
  DecodeFixed32 (drop (Z.to_nat (size - 4)) data).

Definition new_Block (contents : list byte) : res Block :=
  let size := zlen contents in
  if size <? 4 then mret (MkBlock contents 0 0)
  else
    let max_restarts_allowed := (size - 4) / 4 in
    n ← NumRestarts contents size;
    if max_restarts_allowed <? n then mret (MkBlock contents 0 0)
    else mret (MkBlock contents size (u32 (size - u32 (1 + n) * 4))).

(** From offset [p], not past [limit]: the three lengths and the offset of the key delta. *)
Definition DecodeEntry (data : list byte) (p limit : Z) : res (option (Z * Z * Z * Z)) :=
  if limit - p <? 3 then mret None
  else
    b0 ← get8 data p; b1 ← get8 data (p + 1); b2 ← get8 data (p + 2);
    let header :=
      if Z.lor (Z.lor (bz b0) (bz b1)) (bz b2) <? 128 then Some (bz b0, bz b1, bz b2, p + 3)
      else
        let bytes := slice p (limit - p) data in
        '(shared, bytes) ← GetVarint32Ptr bytes;
        '(non_shared, bytes) ← GetVarint32Ptr bytes;
        '(value_length, bytes) ← GetVarint32Ptr bytes;
        Some (shared, non_shared, value_length, limit - zlen bytes) in
    match header with
    | None => mret None
    | Some (shared, non_shared, value_length, p) =>
        if u32 (limit - p) <? u32 (non_shared + value_length) then mret None else mret header
    end.

(** ** Block::Iter *)

(** [value_] is an offset in the block and a length, or the empty slice outside of it.
    [it_restarts] and [it_num] are the offset and number of restart points. *)
Record Iter := MkIter {
  it_data : list byte; it_restarts : Z; it_num : Z;
  current_ : Z; restart_index_ : Z; key_ : list byte; value_ : option (Z * Z); status_ : Status }.

Section iter.
Context {comparator_ : Comparator}.

Definition new_Iter (data : list byte) (restarts num_restarts : Z) : res Iter :=
  _ ← c_assert (0 <? num_restarts);
  mret (MkIter data restarts num_restarts restarts num_restarts [] None OK).

Definition Valid (it : Iter) : bool := current_ it <? it_restarts it.
Definition status (it : Iter) : Status := status_ it.
Definition key (it : Iter) : res (list byte) := _ ← c_assert (Valid it); mret (key_ it).
Definition value (it : Iter) : res (list byte) :=
  _ ← c_assert (Valid it);
  match value_ it with Some (p, n) => read_bytes (it_data it) p n | None => mret [] end.

Definition NextEntryOffset (it : Iter) : res Z :=
  '(p, n) ← of_option (value_ it); mret (u32 (p + n)).

Definition GetRestartPoint (it : Iter) (index : Z) : res Z :=
  _ ← c_assert (index <? it_num it);
  DecodeFixed32 (drop (Z.to_nat (it_restarts it + index * 4)) (it_data it)).

Definition SeekToRestartPoint (index : Z) (it : Iter) : res Iter :=
  offset ← GetRestartPoint it index;
  mret (MkIter (it_data it) (it_restarts it) (it_num it) (current_ it) index [] (Some (offset, 0)) (status_ it)).

Definition CorruptionError (it : Iter) : res Iter :=
  s ← Corruption (str "bad entry in block") [];
  mret (MkIter (it_data it) (it_restarts it) (it_num it) (it_restarts it) (it_num it) [] None s).

Definition mark_invalid (it : Iter) : Iter :=
  MkIter (it_data it) (it_restarts it) (it_num it) (it_restarts it) (it_num it) (key_ it) (value_ it) (status_ it).

(** The loop that moves [restart_index_], before [current]. *)
Fixpoint restart_loop (fuel : nat) (it : Iter) (current index : Z) : res Z :=
  match fuel with
  | O => Err Diverge
  | S fuel =>
      if u32 (index + 1) <? it_num it then
        r ← GetRestartPoint it (u32 (index + 1));
        if r <? current then restart_loop fuel it current (u32 (index + 1)) else mret index
      else mret index
  end.

Definition ParseNextKey (it : Iter) : res (bool * Iter) :=
  current ← NextEntryOffset it;
  let p := current in
  let limit := it_restarts it in
  if limit <=? p then mret (false, mark_invalid it)
  else
    e ← DecodeEntry (it_data it) p limit;
    let corrupt := it ← CorruptionError it; mret (false, it) in
    match e with
    | None => corrupt
    | Some (shared, non_shared, value_length, p) =>
        if zlen (key_ it) <? shared then corrupt
        else
          delta ← read_bytes (it_data it) p non_shared;
          let key := take (Z.to_nat shared) (key_ it) ++ delta in
          index ← restart_loop (S (Z.to_nat (it_num it))) it current (restart_index_ it);
          mret (true, MkIter (it_data it) (it_restarts it) (it_num it) current index key
                        (Some (p + non_shared, value_length)) (status_ it))
    end.

Definition Next (it : Iter) : res Iter :=
  _ ← c_assert (Valid it); '(_, it) ← ParseNextKey it; mret it.

(** The first restart point before [original], from [index] down. *)
Fixpoint prev_restart (fuel : nat) (it : Iter) (original index : Z) : res (option Z) :=
  match fuel with
  | O => Err Diverge
  | S fuel =>
      r ← GetRestartPoint it index;
      if original <=? r then
        if index =? 0 then mret None else prev_restart fuel it original (index - 1)
      else mret (Some index)
  end.

(** [do {} while (ParseNextKey() && NextEntryOffset() < bound)]. *)
Fixpoint skip_loop (fuel : nat) (bound : Z) (it : Iter) : res Iter :=
  match fuel with
  | O => Err Diverge
  | S fuel =>
      '(more, it) ← ParseNextKey it;
      if more : bool then
        next ← NextEntryOffset it;
        if next <? bound then skip_loop fuel bound it else mret it
      else mret it
  end.

Definition loop_fuel (it : Iter) : nat := S (Z.to_nat (it_restarts it)).

Definition Prev (it : Iter) : res Iter :=
  _ ← c_assert (Valid it);
  let original := current_ it in
  r ← prev_restart (S (Z.to_nat (restart_index_ it))) it original (restart_index_ it);
  match r with
  | None => mret (mark_invalid it)
  | Some index => it ← SeekToRestartPoint index it; skip_loop (loop_fuel it) original it
  end.

(** The binary search; [None] is the return after a corrupt entry. *)
Fixpoint search_loop (fuel : nat) (it : Iter) (target : list byte) (left right : Z) : res (option Z) :=
  match fuel with
  | O => Err Diverge
  | S fuel =>
      if left <? right then
        let mid := u32 (left + right + 1) / 2 in
        region_offset ← GetRestartPoint it mid;
        e ← DecodeEntry (it_data it) region_offset (it_restarts it);
        match e with
        | Some (0, non_shared, _, key_ptr) =>
            mid_key ← read_bytes (it_data it) key_ptr non_shared;
            r ← Compare mid_key target;
            if r <? 0 then search_loop fuel it target mid right
            else search_loop fuel it target left (mid - 1)
        | _ => mret None
        end
      else mret (Some left)
  end.

Fixpoint linear_loop (fuel : nat) (target : list byte) (it : Iter) : res Iter :=
  match fuel with
  | O => Err Diverge
  | S fuel =>
      '(more, it) ← ParseNextKey it;
      if more : bool then
        r ← Compare (key_ it) target;
        if 0 <=? r then mret it else linear_loop fuel target it
      else mret it
  end.

Definition Seek (target : list byte) (it : Iter) : res Iter :=
  r ← search_loop (S (Z.to_nat (it_num it))) it target 0 (u32 (it_num it - 1));
  match r with
  | None => CorruptionError it
  | Some i => it ← SeekToRestartPoint i it; linear_loop (loop_fuel it) target it
  end.

Definition SeekToFirst (it : Iter) : res Iter :=
  it ← SeekToRestartPoint 0 it; '(_, it) ← ParseNextKey it; mret it.

Definition SeekToLast (it : Iter) : res Iter :=
  it ← SeekToRestartPoint (u32 (it_num it - 1)) it; skip_loop (loop_fuel it) (it_restarts it) it.

(** [NewIterator]: an error status, the empty iterator, or an iterator of the block. *)
Inductive block_iterator := ErrorIterator (s : Status) | EmptyIterator | BlockIterator (it : Iter).

Definition NewIterator (b : Block) : res block_iterator :=
  if size_ b <? 4 then s ← Corruption (str "bad block contents") []; mret (ErrorIterator s)
  else
    num_restarts ← NumRestarts (blk_data b) (size_ b);
    if num_restarts =? 0 then mret EmptyIterator
    else it ← new_Iter (blk_data b) (restart_offset_ b) num_restarts; mret (BlockIterator it).
End iter.

(** ** How clients use them *)

(** All entries in a builder, and its contents. *)
Fixpoint add_all `{Comparator} (interval : Z) (es : list (list byte * list byte)) (b : BlockBuilder)
    : res BlockBuilder :=
  match es with
  | [] => mret b
  | (k, v) :: es => b ← Add interval k v b; add_all interval es b
  end.

Definition build_block `{Comparator} (interval : Z) (es : list (list byte * list byte)) : res (list byte) :=
  b ← new_BlockBuilder interval; b ← add_all interval es b; mret (Finish b).1.

(** [for (; it->Valid(); it->Next()) ...], or [Prev]: the entries and the iterator after them. *)
Fixpoint iterate (step : Iter → res Iter) (fuel : nat) (it : Iter)
    : res (list (list byte * list byte) * Iter) :=
  match fuel with
  | O => Err Diverge
  | S fuel =>
      if Valid it then
        k ← key it; v ← value it;
        it ← step it;
        '(rest, it) ← iterate step fuel it;
        mret ((k, v) :: rest, it)
      else mret ([], it)
  end.
