(* ===== verification/BlockProps.v ===== *)
(** * What blocks guarantee

    [layout] is the format of a block: how much of each key is shared with the one before, and
    which entries are restart points. The builder produces a layout; on any layout the iterator
    visits the entries in both directions and finds keys. *)
From Stdlib Require Import Sorted.
From stdpp Require Import sorting.
From S2P Require Import Prelude Buffers CLib Order Coding Comparator Status Block.

Abbreviation entry := (list byte * list byte)%type.

(** ** The format *)

Definition enc (sh : Z) (e : entry) : list byte :=
  EncodeVarint32 (u32 sh) ++ EncodeVarint32 (u32 (zlen e.1 - sh)) ++ EncodeVarint32 (u32 (zlen e.2))
  ++ drop (Z.to_nat sh) e.1 ++ e.2.

(** The offset of entry [i]. *)
Definition off (shs : list Z) (es : list entry) (i : nat) : Z := zlen (concat (take i (zip_with enc shs es))).

Record layout (es : list entry) (shs : list Z) (rs : list nat) : Prop := {
  lay_length : length shs = length es;
  lay_shared : ∀ i sh e, shs !! i = Some sh → es !! i = Some e → 0 ≤ sh ≤ zlen e.1
    ∧ (sh = 0 ∨ ∃ j e', i = S j ∧ es !! j = Some e' ∧ sh ≤ zlen e'.1
                  ∧ take (Z.to_nat sh) e'.1 = take (Z.to_nat sh) e.1);
  lay_first : rs !! 0%nat = Some 0%nat;
  lay_sorted : StronglySorted lt rs;
  lay_restarts : ∀ r, r ∈ rs → r = 0%nat ∨ (r < length es)%nat ∧ shs !! r = Some 0 }.

Definition block_of (es : list entry) (shs : list Z) (rs : list nat) : list byte :=
  concat (zip_with enc shs es)
  ++ concat (map EncodeFixed32 (map (λ r, u32 (off shs es r)) rs)) ++ EncodeFixed32 (u32 (zlen rs)).

(** ** Decoding one entry *)

Lemma lor_small a b : 0 ≤ a → 0 ≤ b → Z.lor a b < 128 → a < 128 ∧ b < 128.
Proof.
  intros Ha Hb Hl. assert (Z.shiftr (Z.lor a b) 7 = 0) as E.
  { rewrite Z.shiftr_div_pow2 by lia. apply Z.div_small. split; [apply Z.lor_nonneg; lia|done]. }
  rewrite Z.shiftr_lor in E. apply Z.lor_eq_0_iff in E as [E1 E2]. rewrite !Z.shiftr_div_pow2 in * by lia.
  change (2^7) with 128 in *. pose proof (Z.div_mod a 128). pose proof (Z.div_mod b 128).
  pose proof (Z.mod_pos_bound a 128). pose proof (Z.mod_pos_bound b 128). lia.
Qed.

Lemma GetVarint32Ptr_byte b rest : bz b < 128 → GetVarint32Ptr (b :: rest) = Some (bz b, rest).
Proof.
  intros Hb. pose proof (bz_range b). unfold GetVarint32Ptr. by rewrite land_128_low by lia.
Qed.

(** The three lengths, one varint after the other. *)
Definition decode_header (bytes : list byte) : option (Z * Z * Z * list byte) :=
  '(shared, bytes) ← GetVarint32Ptr bytes;
  '(non_shared, bytes) ← GetVarint32Ptr bytes;
  '(value_length, bytes) ← GetVarint32Ptr bytes;
  Some (shared, non_shared, value_length, bytes).

(** The fast path decodes what the slow path does. *)
Lemma DecodeEntry_slow data p limit : 0 ≤ p → p + 3 ≤ limit → limit ≤ zlen data →
  DecodeEntry data p limit =
    match decode_header (slice p (limit - p) data) with
    | Some (shared, non_shared, value_length, bytes) =>
        if u32 (zlen bytes) <? u32 (non_shared + value_length) then Ok None
        else Ok (Some (shared, non_shared, value_length, limit - zlen bytes))
    | None => Ok None
    end.
Proof.
  intros Hp Hlim Hdata. unfold DecodeEntry. replace (limit - p <? 3) with false by lia.
  destruct (get8_in_range data p) as (b0 & E0 & ->); [lia|].
  destruct (get8_in_range data (p + 1)) as (b1 & E1 & ->); [lia|].
  destruct (get8_in_range data (p + 2)) as (b2 & E2 & ->); [lia|]. cbn [mbind res_bind].
  assert (∃ tl, slice p (limit - p) data = b0 :: b1 :: b2 :: tl ∧ limit - zlen tl = p + 3) as (tl & Es & Htl).
  { unfold slice. replace (Z.to_nat (limit - p)) with (S (S (S (Z.to_nat (limit - p - 3))))) by lia.
    rewrite (drop_S _ b0), (drop_S _ b1), (drop_S _ b2); [|rewrite <-E2; f_equal; lia|rewrite <-E1; f_equal; lia|done].
    cbn [take]. eexists. split; [done|]. rewrite length_take, length_drop. lia. }
  rewrite Es. destruct (Z.ltb_spec (Z.lor (Z.lor (bz b0) (bz b1)) (bz b2)) 128) as [Hf|].
  - pose proof (bz_range b0). pose proof (bz_range b1). pose proof (bz_range b2).
    assert (Z.lor (bz b0) (bz b1) < 128 ∧ bz b2 < 128) as [L01 L2].
    { apply lor_small; [apply Z.lor_nonneg; lia|lia|done]. }
    apply lor_small in L01 as [L0 L1]; [|lia|lia].
    unfold decode_header. rewrite GetVarint32Ptr_byte by done. cbn [mbind option_bind].
    rewrite GetVarint32Ptr_byte by done. cbn [mbind option_bind]. rewrite GetVarint32Ptr_byte by done.
    cbn [mbind option_bind]. rewrite Htl. replace (limit - (p + 3)) with (zlen tl) by lia. by case_match.
  - fold (decode_header (b0 :: b1 :: b2 :: tl)). rewrite <-Es. unfold decode_header.
    destruct (GetVarint32Ptr (slice p (limit - p) data)) as [[s r1]|]; [|done]. cbn [mbind option_bind].
    destruct (GetVarint32Ptr r1) as [[n r2]|]; [|done]. cbn [mbind option_bind].
    destruct (GetVarint32Ptr r2) as [[v r3]|]; [|done]. cbn [mbind option_bind].
    replace (limit - (limit - zlen r3)) with (zlen r3) by lia. by case_match.
Qed.

(** ** Reading a layout *)

Section reader.
Context (es : list entry) (shs : list Z) (rs : list nat) (Hlay : layout es shs rs).
Context (Hsize : zlen (block_of es shs rs) < 2^32).

#[local] Abbreviation bytes := (block_of es shs rs).
#[local] Abbreviation n := (length es).
#[local] Abbreviation o := (off shs es).
#[local] Abbreviation R := (o n).
#[local] Abbreviation pieces := (zip_with enc shs es).

Lemma pieces_length : length pieces = n.
Proof using Hlay. rewrite length_zip_with, (lay_length _ _ _ Hlay). lia. Qed.

Lemma entry_at i : (i < n)%nat → ∃ sh k v, shs !! i = Some sh ∧ es !! i = Some (k, v)
  ∧ pieces !! i = Some (enc sh (k, v)).
Proof using Hlay.
  intros Hi. destruct (lookup_lt_is_Some_2 es i Hi) as [[k v] He].
  destruct (lookup_lt_is_Some_2 shs i) as [sh Hs]; [by rewrite (lay_length _ _ _ Hlay)|].
  exists sh, k, v. split; [done|]. split; [done|]. by rewrite lookup_zip_with, Hs, He.
Qed.

Lemma concat_pieces : R = zlen (concat pieces).
Proof using Hlay. unfold off. by rewrite take_ge by (rewrite pieces_length; lia). Qed.

Lemma bytes_length : zlen bytes = R + 4 * zlen rs + 4.
Proof using Hlay.
  unfold block_of. rewrite !length_app, words_length, length_EncodeFixed32, length_map, concat_pieces. lia.
Qed.

Lemma off_S i sh e : shs !! i = Some sh → es !! i = Some e → o (S i) = o i + zlen (enc sh e).
Proof using.
  clear Hlay Hsize.
  intros Hs He. unfold off. rewrite (take_S_r _ _ (enc sh e)) by (by rewrite lookup_zip_with, Hs, He).
  rewrite concat_app, length_app. simpl. rewrite app_nil_r. lia.
Qed.

Lemma EncodeVarint32_nonempty v : 1 ≤ zlen (EncodeVarint32 (u32 v)).
Proof using.
  clear Hlay Hsize.
  rewrite EncodeVarint32_loop by apply u32_range. pose proof (varint64_loop_bound 9 (u32 v)).
  unfold EncodeVarint64. lia.
Qed.

Lemma enc_length sh e : 0 ≤ sh → 3 + (zlen e.1 - sh) + zlen e.2 ≤ zlen (enc sh e).
Proof using.
  clear Hlay Hsize.
  intros Hs. unfold enc. rewrite !length_app, length_drop.
  pose proof (EncodeVarint32_nonempty sh). pose proof (EncodeVarint32_nonempty (zlen e.1 - sh)).
  pose proof (EncodeVarint32_nonempty (zlen e.2)). lia.
Qed.

Lemma off_step i : (i < n)%nat → o i + 3 ≤ o (S i).
Proof using Hlay.
  intros Hi. destruct (entry_at i Hi) as (sh & k & v & Hs & He & _). rewrite (off_S i sh (k, v)) by done.
  destruct (lay_shared _ _ _ Hlay i sh (k, v) Hs He) as [? _]. pose proof (enc_length sh (k, v)). simpl in *. lia.
Qed.

Lemma off_lt i j : (i < j)%nat → (j ≤ n)%nat → o i + 3 ≤ o j.
Proof using Hlay.
  induction 1 as [|j Hj IH]; intros Hn; [by apply off_step|]. pose proof (off_step j ltac:(lia)). lia.
Qed.

Lemma off_le i j : (i ≤ j)%nat → (j ≤ n)%nat → o i ≤ o j.
Proof using Hlay. intros Hi Hj. destruct (decide (i = j)) as [->|]; [lia|]. pose proof (off_lt i j). lia. Qed.

Lemma off_range i : (i ≤ n)%nat → 0 ≤ o i ∧ o i ≤ R ∧ R + 8 < 2^32.
Proof using Hlay Hsize.
  intros Hi. pose proof (off_le i n Hi). pose proof bytes_length as Hb.
  assert (1 ≤ zlen rs) by (pose proof (lookup_lt_Some _ _ _ (lay_first _ _ _ Hlay)); lia).
  split; [unfold off; lia|]. split; [by apply H|]. lia.
Qed.

Lemma key_bound i k v : es !! i = Some (k, v) → zlen k ≤ o (S i) ∧ zlen v ≤ o (S i).
Proof using Hlay.
  revert k v. induction i as [|i IH]; intros k v He;
    destruct (entry_at _ (lookup_lt_Some _ _ _ He)) as (sh & k' & v' & Hs & He' & _); simplify_eq;
    destruct (lay_shared _ _ _ Hlay _ sh (k, v) Hs He) as [Hr Hcase]; rewrite (off_S _ sh (k, v)) by done;
    pose proof (enc_length sh (k, v)); simpl in *; unfold off in *; simpl in *.
  - destruct Hcase as [->|(j & e' & ? & _)]; [lia|done].
  - destruct Hcase as [->|(j & [k' v'] & [= <-] & He' & Hj & _)]; [lia|].
    destruct (IH _ _ He'). simpl in *. lia.
Qed.

(** The pieces around entry [i]. *)
Lemma bytes_split i sh e : shs !! i = Some sh → es !! i = Some e →
  ∃ post trailer, bytes = concat (take i pieces) ++ enc sh e ++ post ++ trailer
    ∧ R = o i + zlen (enc sh e) + zlen post.
Proof using Hlay.
  intros Hs He. exists (concat (drop (S i) pieces)). eexists.
  assert (pieces !! i = Some (enc sh e)) as Hp by (by rewrite lookup_zip_with, Hs, He).
  assert (concat pieces = concat (take i pieces) ++ enc sh e ++ concat (drop (S i) pieces)) as Ec.
  { rewrite <-(take_drop_middle pieces i (enc sh e) Hp) at 1. by rewrite concat_app. }
  split; [unfold block_of; rewrite Ec, <-!app_assoc; done|].
  rewrite concat_pieces, Ec, !length_app. unfold off. lia.
Qed.

Lemma decode_header_enc sh k v tail : 0 ≤ sh ≤ zlen k → zlen k < 2^32 → zlen v < 2^32 →
  decode_header (enc sh (k, v) ++ tail) =
    Some (sh, zlen k - sh, zlen v, drop (Z.to_nat sh) k ++ v ++ tail).
Proof using.
  clear Hlay Hsize.
  intros Hs Hk Hv. unfold enc, decode_header. cbn [fst snd]. rewrite !u32_small by lia. rewrite <-!app_assoc.
  rewrite GetVarint32Ptr_Ok by lia. cbn [mbind option_bind].
  rewrite GetVarint32Ptr_Ok by lia. cbn [mbind option_bind].
  by rewrite GetVarint32Ptr_Ok by lia.
Qed.

Lemma slice_middle pre (l post : list byte) p m : p = zlen pre → m = zlen l → slice p m (pre ++ l ++ post) = l.
Proof using. clear Hlay Hsize. intros -> ->. unfold slice. by rewrite !Nat2Z.id, drop_app_length, take_app_length. Qed.

Lemma DecodeEntry_at i sh k v : shs !! i = Some sh → es !! i = Some (k, v) →
  ∃ p, DecodeEntry bytes (o i) R = Ok (Some (sh, zlen k - sh, zlen v, p))
    ∧ 0 ≤ p ∧ p + (zlen k - sh) + zlen v = o (S i)
    ∧ slice p (zlen k - sh) bytes = drop (Z.to_nat sh) k
    ∧ slice (p + (zlen k - sh)) (zlen v) bytes = v.
Proof using Hlay Hsize.
  intros Hs He. pose proof (lookup_lt_Some _ _ _ He) as Hi.
  destruct (lay_shared _ _ _ Hlay i sh (k, v) Hs He) as [Hr _]. cbn [fst] in Hr.
  destruct (bytes_split i sh (k, v) Hs He) as (post & trailer & Eb & ER).
  destruct (off_range i ltac:(lia)) as (Ho & Hle & HR). pose proof (off_step i Hi) as Hstep.
  pose proof (off_S i sh (k, v) Hs He) as HS. pose proof (off_le (S i) n ltac:(lia) ltac:(lia)) as HSn.
  destruct (key_bound i k v He) as [Hk Hv]. pose proof bytes_length as Hb.
  rewrite DecodeEntry_slow by lia.
  assert (slice (o i) (R - o i) bytes = enc sh (k, v) ++ post) as ->.
  { rewrite Eb, (app_assoc (enc sh (k, v))). apply slice_middle; [done|]. rewrite length_app. lia. }
  set (w := EncodeVarint32 (u32 sh) ++ EncodeVarint32 (u32 (zlen k - sh)) ++ EncodeVarint32 (u32 (zlen v))).
  assert (enc sh (k, v) = w ++ drop (Z.to_nat sh) k ++ v) as Ew by (unfold enc, w; by rewrite <-!app_assoc).
  assert (zlen (enc sh (k, v)) = zlen w + (zlen k - sh) + zlen v) as Hw
    by (rewrite Ew, !length_app, length_drop; lia).
  rewrite decode_header_enc by lia. rewrite !length_app, length_drop.
  replace (_ <? _) with false by (rewrite !u32_small by lia; lia).
  exists (R - Z.of_nat (length k - Z.to_nat sh + (length v + length post))). split; [done|].
  assert (R - Z.of_nat (length k - Z.to_nat sh + (length v + length post)) = zlen (concat (take i pieces) ++ w)) as ->.
  { rewrite length_app, ER, Hw. unfold off. lia. }
  split; [lia|]. split; [rewrite HS, Hw, length_app; unfold off; lia|].
  rewrite Eb, Ew, <-!app_assoc, (app_assoc (concat _)). split.
  - apply slice_middle; [done|]. rewrite length_drop. lia.
  - rewrite (app_assoc (_ ++ w)). apply slice_middle; [rewrite !length_app, length_drop; lia|done].
Qed.

(** *** Restart points *)

Definition it_ok (it : Iter) : Prop :=
  it_data it = bytes ∧ it_restarts it = R ∧ it_num it = zlen rs ∧ status_ it = OK.

Lemma restart_bound r j : rs !! r = Some j → (j ≤ n)%nat.
Proof using Hlay.
  intros Hr. destruct (lay_restarts _ _ _ Hlay j) as [->|[? _]]; [by eapply list_elem_of_lookup_2|lia|lia].
Qed.

Lemma restart_mono r r' j j' : rs !! r = Some j → rs !! r' = Some j' → (r < r')%nat → (j < j')%nat.
Proof using Hlay.
  intros Hj Hj' Hr. pose proof (lay_sorted _ _ _ Hlay) as Hs. clear Hlay Hsize. revert r r' Hj Hj' Hr.
  induction Hs as [|x l Hs IH Hx]; intros [|r] [|r'] Hj Hj' Hr; try done; try lia; simpl in *.
  - simplify_eq. rewrite Forall_forall in Hx. apply Hx. by eapply list_elem_of_lookup_2.
  - apply (IH r r'); [done|done|lia].
Qed.

Lemma GetRestartPoint_Ok it r j : it_ok it → rs !! r = Some j →
  GetRestartPoint it (Z.of_nat r) = Ok (o j).
Proof using Hlay Hsize.
  intros (Hd & HR & Hn & _) Hj. unfold GetRestartPoint. pose proof (lookup_lt_Some _ _ _ Hj).
  rewrite Hn, c_assert_true by lia. cbn [mbind res_bind]. rewrite Hd, HR, concat_pieces. unfold block_of.
  pose proof (off_range j (restart_bound r j Hj)).
  apply word_at; [|lia]. rewrite list_lookup_fmap, Hj. simpl. f_equal. apply u32_small. lia.
Qed.

(** *** States of the iterator

    The restart index points at or before entry [i]. *)
Definition index_ok (it : Iter) (i : nat) : Prop :=
  ∃ r j, restart_index_ it = Z.of_nat r ∧ rs !! r = Some j ∧ (j ≤ i)%nat.

(** At entry [i]. *)
Definition at_entry (it : Iter) (i : nat) : Prop :=
  it_ok it ∧ index_ok it i ∧ ∃ k v, es !! i = Some (k, v) ∧ current_ it = o i ∧ key_ it = k
    ∧ value_ it = Some (o (S i) - zlen v, zlen v).

(** Ready to parse entry [i]. *)
Definition ready (it : Iter) (i : nat) : Prop :=
  it_ok it ∧ index_ok it i ∧ NextEntryOffset it = Ok (o i)
  ∧ (shs !! i = Some 0 ∨ i = n ∨ ∃ i' k v, i = S i' ∧ es !! i' = Some (k, v) ∧ key_ it = k).

(** Past the last entry. *)
Definition at_end (it : Iter) : Prop := it_ok it ∧ current_ it = R.

Lemma at_entry_valid it i : at_entry it i → Valid it = true ∧ (i < n)%nat.
Proof using Hlay Hsize.
  intros ((_ & HR & _) & _ & k & v & He & Hc & _). pose proof (lookup_lt_Some _ _ _ He) as Hi.
  unfold Valid. rewrite HR, Hc. pose proof (off_lt i n Hi). split; [lia|done].
Qed.

Lemma at_entry_read it i k v : at_entry it i → es !! i = Some (k, v) → key it = Ok k ∧ value it = Ok v.
Proof using Hlay Hsize.
  intros Hat He. destruct (at_entry_valid it i Hat) as [Hv Hi].
  destruct (entry_at i Hi) as (sh & k1 & v1 & Hs & He1 & _).
  destruct Hat as ((Hd & _) & _ & k' & v' & He' & _ & Hk & Hval). rewrite He1 in He, He'. simplify_eq.
  unfold key, value. rewrite Hv, Hval, Hd. cbn [c_assert mbind res_bind]. split; [done|].
  destruct (DecodeEntry_at i sh _ _ Hs He1) as (p & _ & Hp & HS & _ & Hslice).
  destruct (lay_shared _ _ _ Hlay i sh _ Hs He1) as [? _]. simpl in *.
  pose proof (off_le (S i) n ltac:(lia) ltac:(lia)). pose proof bytes_length as Hb.
  rewrite read_bytes_Ok by lia. f_equal. etrans; [|exact Hslice]. f_equal. lia.
Qed.

Lemma at_end_invalid it : at_end it → Valid it = false.
Proof using. clear Hlay Hsize. intros ((_ & HR & _) & Hc). unfold Valid. rewrite HR, Hc. lia. Qed.

Lemma at_ready it i : at_entry it i → ready it (S i).
Proof using Hlay Hsize.
  intros Hat. destruct (at_entry_valid it i Hat) as [_ Hi].
  destruct Hat as (Hok & (r & j & Hr & Hj & Hle) & k & v & He & _ & Hk & Hval).
  split; [done|]. split; [exists r, j; split; [done|split; [done|lia]]|].
  split.
  - unfold NextEntryOffset. rewrite Hval. cbn. destruct (off_range (S i)) as (? & ? & ?); [lia|].
    rewrite u32_small by lia. f_equal. lia.
  - right; right. by exists i, k, v.
Qed.

Lemma restart_loop_Ok it i fuel : ∀ r j, it_ok it → (i < n)%nat → rs !! r = Some j → (j ≤ i)%nat →
  (length rs - r < fuel)%nat →
  ∃ r' j', restart_loop fuel it (o i) (Z.of_nat r) = Ok (Z.of_nat r') ∧ rs !! r' = Some j' ∧ (j' ≤ i)%nat.
Proof using Hlay Hsize.
  induction fuel as [|fuel IH]; intros r j Hok Hi Hj Hle Hf; [lia|]. cbn [restart_loop].
  pose proof Hok as (_ & _ & Hn & _). pose proof (lookup_lt_Some _ _ _ Hj) as Hr.
  pose proof bytes_length as Hb. pose proof (off_range i ltac:(lia)).
  rewrite u32_small, Hn by lia. replace (Z.of_nat r + 1) with (Z.of_nat (S r)) by lia.
  destruct (Z.ltb_spec (Z.of_nat (S r)) (zlen rs)) as [Hlt|]; [|by exists r, j].
  destruct (lookup_lt_is_Some_2 rs (S r)) as [j1 Hj1]; [lia|].
  rewrite (GetRestartPoint_Ok it (S r) j1) by done. cbn [mbind res_bind].
  destruct (Z.ltb_spec (o j1) (o i)) as [Hlt'|]; [|by exists r, j].
  apply (IH (S r) j1); [done|done|done| |lia].
  destruct (decide (j1 ≤ i)%nat); [done|]. pose proof (off_lt i j1 ltac:(lia) (restart_bound _ _ Hj1)). lia.
Qed.

Lemma parse_ready it i : ready it i → (i < n)%nat → ∃ it', ParseNextKey it = Ok (true, it') ∧ at_entry it' i.
Proof using Hlay Hsize.
  intros (Hok & (r & j & Hr & Hj & Hle) & Hnext & Hkey) Hi. pose proof Hok as (Hd & HR & Hn & Hst).
  destruct (entry_at i Hi) as (sh & k & v & Hs & He & _).
  destruct (lay_shared _ _ _ Hlay i sh (k, v) Hs He) as [Hsh Hcase]. cbn [fst] in Hsh.
  destruct (DecodeEntry_at i sh k v Hs He) as (p & Hdec & Hp & HS & Hdelta & Hval).
  pose proof (off_lt i n Hi ltac:(lia)). pose proof (off_le (S i) n ltac:(lia) ltac:(lia)).
  pose proof bytes_length as Hb.
  unfold ParseNextKey. rewrite Hnext. cbn [mbind res_bind]. rewrite HR, Hd.
  replace (R <=? o i) with false by lia. rewrite Hdec. cbn [mbind res_bind].
  assert ((zlen (key_ it) <? sh) = false ∧ take (Z.to_nat sh) (key_ it) = take (Z.to_nat sh) k) as [-> Htake].
  { destruct Hkey as [Hz|[->|(i' & k' & v' & -> & He' & ->)]]; [| lia|].
    - simplify_eq. split; [lia|done].
    - destruct Hcase as [->|(j' & e' & [= <-] & He'' & Hl & Ht)]; [split; [lia|done]|].
      simplify_eq. simpl in *. split; [lia|done]. }
  rewrite read_bytes_Ok by lia. cbn [mbind res_bind]. rewrite Hdelta, Htake, take_drop, Hr.
  destruct (restart_loop_Ok it i (S (Z.to_nat (it_num it))) r j) as (r' & j' & -> & Hj' & Hle');
    [done|done|done|done|lia|].
  cbn [mbind res_bind]. eexists. split; [done|]. split; [by repeat split|].
  split; [by exists r', j'|]. exists k, v. split; [done|]. split; [done|]. split; [done|]. simpl. do 2 f_equal. lia.
Qed.

Lemma parse_end it : ready it n → ∃ it', ParseNextKey it = Ok (false, it') ∧ at_end it'.
Proof using.
  clear Hlay Hsize. intros (Hok & _ & Hnext & _). pose proof Hok as (Hd & HR & Hn & Hst). unfold ParseNextKey.
  rewrite Hnext. cbn [mbind res_bind]. rewrite HR, Z.leb_refl. eexists. split; [done|]. by repeat split.
Qed.

Lemma SeekToRestartPoint_Ok it r j : it_ok it → rs !! r = Some j →
  ∃ it', SeekToRestartPoint (Z.of_nat r) it = Ok it' ∧ ready it' j.
Proof using Hlay Hsize.
  intros Hok Hj. unfold SeekToRestartPoint. rewrite (GetRestartPoint_Ok it r j) by done. cbn [mbind res_bind].
  pose proof Hok as (Hd & HR & Hn & Hst).
  eexists. split; [done|]. split; [by repeat split|]. split; [by exists r, j|].
  pose proof (off_range j (restart_bound r j Hj)). split.
  - unfold NextEntryOffset. cbn. rewrite u32_small by lia. f_equal. lia.
  - destruct (lay_restarts _ _ _ Hlay j) as [->|[? ?]]; [by eapply list_elem_of_lookup_2| |by left].
    destruct (decide (n = 0%nat)) as [->|]; [by right; left|left].
    destruct (entry_at 0) as (sh & k & v & Hs & He & _); [lia|].
    destruct (lay_shared _ _ _ Hlay 0 sh (k, v) Hs He) as [_ [->|(? & ? & ? & _)]]; done.
Qed.

(** *** Forwards *)

Lemma parse_any it i : ready it i → (i ≤ n)%nat →
  ∃ b it', ParseNextKey it = Ok (b, it') ∧ (b = true ∧ (i < n)%nat ∧ at_entry it' i ∨ b = false ∧ i = n ∧ at_end it').
Proof using Hlay Hsize.
  intros Hr Hi. destruct (decide (i = n)) as [->|Hne].
  - destruct (parse_end it Hr) as (it' & -> & He). exists false, it'. by split; [|right].
  - destruct (parse_ready it i Hr) as (it' & -> & He); [lia|]. exists true, it'. split; [done|]. left. split; [done|]. by split; [lia|].
Qed.

Definition at_or_end (it : Iter) (i : nat) : Prop := (i < n)%nat ∧ at_entry it i ∨ i = n ∧ at_end it.

Lemma SeekToFirst_Ok it : it_ok it → ∃ it', SeekToFirst it = Ok it' ∧ at_or_end it' 0.
Proof using Hlay Hsize.
  intros Hok. unfold SeekToFirst.
  destruct (SeekToRestartPoint_Ok it 0 0 Hok (lay_first _ _ _ Hlay)) as (it1 & E & Hr).
  change (Z.of_nat 0) with 0 in E. rewrite E. cbn [mbind res_bind].
  destruct (parse_any it1 0 Hr ltac:(lia)) as (b & it' & -> & Hcase). cbn [mbind res_bind].
  exists it'. split; [done|]. destruct Hcase as [(_ & ? & ?)|(_ & ? & ?)]; [by left|by right].
Qed.

Lemma Next_Ok it i : at_entry it i → ∃ it', Next it = Ok it' ∧ at_or_end it' (S i).
Proof using Hlay Hsize.
  intros Hat. destruct (at_entry_valid it i Hat) as [Hv Hi]. unfold Next. rewrite Hv. cbn [c_assert mbind res_bind].
  destruct (parse_any it (S i) (at_ready it i Hat) ltac:(lia)) as (b & it' & -> & Hcase). cbn [mbind res_bind].
  exists it'. split; [done|]. destruct Hcase as [(_ & ? & ?)|(_ & ? & ?)]; [by left|by right].
Qed.

Lemma iterate_Next fuel : ∀ it i, at_or_end it i → (n - i < fuel)%nat →
  ∃ it', iterate Next fuel it = Ok (drop i es, it') ∧ at_end it'.
Proof using Hlay Hsize.
  induction fuel as [|fuel IH]; intros it i Hat Hf; [lia|]. cbn [iterate].
  destruct Hat as [[Hi Hat]|[-> Hend]].
  - destruct (at_entry_valid it i Hat) as [-> _]. destruct (entry_at i Hi) as (_ & k & v & _ & He & _).
    destruct (at_entry_read it i k v Hat He) as [-> ->]. cbn [mbind res_bind].
    destruct (Next_Ok it i Hat) as (it1 & -> & Hat1). cbn [mbind res_bind].
    destruct (IH it1 (S i) Hat1) as (it' & -> & He'); [lia|]. cbn [mbind res_bind].
    exists it'. split; [|done]. by rewrite (drop_S es (k, v) i He).
  - rewrite (at_end_invalid it Hend). exists it. by rewrite drop_ge by lia.
Qed.

(** *** Backwards *)

Lemma skip_loop_Ok m fuel : ∀ it i, ready it i → (i < m)%nat → (m ≤ n)%nat → (m - i ≤ fuel)%nat →
  ∃ it', skip_loop fuel (o m) it = Ok it' ∧ at_entry it' (m - 1).
Proof using Hlay Hsize.
  induction fuel as [|fuel IH]; intros it i Hr Hi Hm Hf; [lia|]. cbn [skip_loop].
  destruct (parse_ready it i Hr) as (it1 & -> & Hat); [lia|]. cbn [mbind res_bind].
  pose proof (at_ready it1 i Hat) as Hr1. pose proof Hr1 as (_ & _ & -> & _). cbn [mbind res_bind].
  destruct (Z.ltb_spec (o (S i)) (o m)) as [Hlt|Hge].
  - apply (IH it1 (S i)); [done| |done|lia]. destruct (decide (S i < m)%nat); [done|].
    pose proof (off_le m (S i) ltac:(lia) ltac:(lia)). lia.
  - exists it1. split; [done|]. assert (m - 1 = i)%nat as ->; [|done].
    destruct (decide (S i < m)%nat); [|lia]. pose proof (off_lt (S i) m). lia.
Qed.

Lemma loop_fuel_enough it : it_ok it → (n < loop_fuel it)%nat.
Proof using Hlay Hsize.
  intros (_ & HR & _). unfold loop_fuel. rewrite HR.
  assert (∀ i, (i ≤ n)%nat → Z.of_nat i ≤ o i) as Hi; [|specialize (Hi n); lia].
  induction i as [|i IH]; intros Hi; [unfold off; simpl; lia|]. pose proof (off_step i). lia.
Qed.

Lemma SeekToLast_Ok it : it_ok it → ∃ it', SeekToLast it = Ok it'
  ∧ ((0 < n)%nat ∧ at_entry it' (n - 1) ∨ n = 0%nat ∧ at_end it').
Proof using Hlay Hsize.
  intros Hok. pose proof Hok as (_ & HR & Hn & _). unfold SeekToLast. rewrite Hn.
  pose proof (lookup_lt_Some _ _ _ (lay_first _ _ _ Hlay)). pose proof bytes_length. pose proof (off_range 0).
  rewrite u32_small by lia. replace (zlen rs - 1) with (Z.of_nat (length rs - 1)) by lia.
  destruct (lookup_lt_is_Some_2 rs (length rs - 1)) as [j Hj]; [lia|].
  destruct (SeekToRestartPoint_Ok it _ j Hok Hj) as (it1 & -> & Hr). cbn [mbind res_bind].
  pose proof Hr as (Hok1 & _). pose proof (loop_fuel_enough it1 Hok1). pose proof Hok1 as (_ & -> & _).
  destruct (decide (n = 0%nat)) as [En|Hne].
  - unfold loop_fuel. cbn [skip_loop]. pose proof (restart_bound _ _ Hj). replace j with n in Hr by lia.
    destruct (parse_end it1 Hr) as (it' & -> & He). cbn [mbind res_bind]. exists it'. split; [done|]. by right.
  - assert (j < n)%nat.
    { destruct (lay_restarts _ _ _ Hlay j) as [->|[? _]]; [by eapply list_elem_of_lookup_2|lia|lia]. }
    destruct (skip_loop_Ok n (loop_fuel it1) it1 j Hr) as (it' & -> & Hat); [lia|lia|lia|].
    exists it'. split; [done|]. left. split; [lia|done].
Qed.

Lemma prev_restart_Ok it i fuel : ∀ r j, it_ok it → rs !! r = Some j → (j ≤ i)%nat → (0 < i)%nat → (i ≤ n)%nat →
  (r < fuel)%nat →
  ∃ r' j', prev_restart fuel it (o i) (Z.of_nat r) = Ok (Some (Z.of_nat r')) ∧ rs !! r' = Some j' ∧ (j' < i)%nat.
Proof using Hlay Hsize.
  induction fuel as [|fuel IH]; intros r j Hok Hj Hle Hi Hn Hf; [lia|]. cbn [prev_restart].
  rewrite (GetRestartPoint_Ok it r j) by done. cbn [mbind res_bind].
  destruct (Z.leb_spec (o i) (o j)) as [Hge|Hlt].
  - assert (j = i) as ->. { destruct (decide (j = i)); [done|]. pose proof (off_lt j i). lia. }
    destruct r as [|r]; [rewrite (lay_first _ _ _ Hlay) in Hj; simplify_eq; lia|].
    replace (Z.of_nat (S r) =? 0) with false by lia. replace (Z.of_nat (S r) - 1) with (Z.of_nat r) by lia.
    destruct (lookup_lt_is_Some_2 rs r) as [j' Hj']; [apply lookup_lt_Some in Hj; lia|].
    pose proof (restart_mono r (S r) j' i Hj' Hj). apply (IH r j'); try done; lia.
  - exists r, j. split; [done|]. split; [done|]. destruct (decide (j < i)%nat); [done|].
    pose proof (off_le i j ltac:(lia) ltac:(lia)). lia.
Qed.

Lemma Prev_Ok it i : at_entry it i → ∃ it', Prev it = Ok it'
  ∧ match i with O => at_end it' | S i => at_entry it' i end.
Proof using Hlay Hsize.
  intros Hat. destruct (at_entry_valid it i Hat) as [Hv Hi]. unfold Prev. rewrite Hv. cbn [c_assert mbind res_bind].
  destruct Hat as (Hok & (r & j & -> & Hj & Hle) & k & v & He & -> & _). rewrite Nat2Z.id.
  destruct i as [|i].
  - cbn [prev_restart]. rewrite (GetRestartPoint_Ok it r j) by done. cbn [mbind res_bind].
    assert (j = 0%nat) as -> by lia. rewrite Z.leb_refl. assert (r = 0%nat) as ->.
    { destruct r as [|r]; [done|]. pose proof (restart_mono 0 (S r) 0 0 (lay_first _ _ _ Hlay) Hj). lia. }
    change (Z.of_nat 0 =? 0) with true. cbn [mbind res_bind]. eexists. split; [done|].
    destruct Hok as (? & ? & ? & ?). by repeat split.
  - destruct (prev_restart_Ok it (S i) (S r) r j) as (r' & j' & -> & Hj' & Hlt); try done; try lia.
    cbn [mbind res_bind]. destruct (SeekToRestartPoint_Ok it r' j' Hok Hj') as (it1 & -> & Hr).
    cbn [mbind res_bind]. pose proof Hr as (Hok1 & _). pose proof (loop_fuel_enough it1 Hok1).
    destruct (skip_loop_Ok (S i) (loop_fuel it1) it1 j' Hr) as (it' & -> & Hat); [lia|lia|lia|].
    exists it'. split; [done|]. by rewrite Nat.sub_1_r in Hat.
Qed.

Lemma iterate_Prev fuel : ∀ it i, at_entry it i → (S i < fuel)%nat →
  ∃ it', iterate Prev fuel it = Ok (reverse (take (S i) es), it') ∧ at_end it'.
Proof using Hlay Hsize.
  induction fuel as [|fuel IH]; intros it i Hat Hf; [lia|]. cbn [iterate].
  destruct (at_entry_valid it i Hat) as [-> Hi]. destruct (entry_at i Hi) as (_ & k & v & _ & He & _).
  destruct (at_entry_read it i k v Hat He) as [-> ->]. cbn [mbind res_bind].
  rewrite (take_S_r _ _ (k, v)), reverse_snoc by done.
  destruct (Prev_Ok it i Hat) as (it1 & -> & Hat1). cbn [mbind res_bind]. destruct i as [|i].
  - destruct fuel as [|fuel]; [lia|]. cbn [iterate]. rewrite (at_end_invalid it1 Hat1). by exists it1.
  - destruct (IH it1 i Hat1) as (it' & -> & He'); [lia|]. cbn [mbind res_bind]. by exists it'.
Qed.

(** *** Seeking *)

Context {C : Comparator} {okk : list byte → Prop} {c : list byte → list byte → Z} {Hspec : ComparatorSpec C okk c}.
Context (Hsorted : StronglySorted (λ a b : entry, c a.1 b.1 < 0) es) (Hokk : Forall (λ e : entry, okk e.1) es).

(** All entries before [i] are below [target]. *)
Definition below (target : list byte) (i : nat) : Prop :=
  ∀ i' k v, (i' < i)%nat → es !! i' = Some (k, v) → c k target < 0.

Lemma key_ok i k v : es !! i = Some (k, v) → okk k.
Proof using Hokk.
  clear Hsize Hsorted. intros He. rewrite Forall_forall in Hokk. apply (Hokk (k, v)). by eapply list_elem_of_lookup_2.
Qed.

Lemma sorted_lt i i' k v k' v' : es !! i = Some (k, v) → es !! i' = Some (k', v') → (i < i')%nat → c k k' < 0.
Proof using Hsorted.
  clear Hlay Hsize Hokk. revert i i'. induction Hsorted as [|x l Hs IH Hx]; intros [|i] [|i'] He He' Hi; try done; try lia; simpl in *.
  - simplify_eq. rewrite Forall_forall in Hx. apply (Hx (k', v')). by eapply list_elem_of_lookup_2.
  - apply (IH Hs i i'); [done|done|lia].
Qed.

Lemma below_upto target i k v : es !! i = Some (k, v) → c k target < 0 → below target (S i).
Proof using Hsorted Hspec.
  clear Hlay Hsize Hokk. intros He Hc i' k' v' Hi He'. pose proof (@spec_order _ _ _ Hspec) as Hord.
  destruct (decide (i' = i)) as [->|]; [by simplify_eq|].
  pose proof (sorted_lt i' i k' v' k v He' He ltac:(lia)).
  pose proof (cmp_trans (c := c) target k k'). pose proof (cmp_anti (c := c) k' target).
  pose proof (cmp_anti (c := c) k target). pose proof (cmp_anti (c := c) k' k).
  pose proof (cmp_trans (c := c) k' k target). pose proof (cmp_trans (c := c) k target k'). lia.
Qed.

Lemma search_loop_Ok target it fuel : ∀ l r, it_ok it → okk target → (l ≤ r)%nat → (r < length rs)%nat →
  (∀ j, rs !! l = Some j → below target j) → (r - l < fuel)%nat →
  ∃ m j, search_loop fuel it target (Z.of_nat l) (Z.of_nat r) = Ok (Some (Z.of_nat m))
    ∧ rs !! m = Some j ∧ below target j.
Proof using Hlay Hsize Hsorted Hokk Hspec.
  induction fuel as [|fuel IH]; intros l r Hok Ht Hlr Hr Hbelow Hf; [lia|]. cbn [search_loop].
  pose proof Hok as (Hd & HR & Hn & _). pose proof bytes_length. pose proof (off_range 0).
  destruct (Z.ltb_spec (Z.of_nat l) (Z.of_nat r)) as [Hlt|Hge].
  - rewrite u32_small by lia. assert (∃ m, (Z.of_nat l + Z.of_nat r + 1) / 2 = Z.of_nat m ∧ (l < m ≤ r)%nat)
      as (m & -> & Hm).
    { exists (Z.to_nat ((Z.of_nat l + Z.of_nat r + 1) / 2)).
      assert (Z.of_nat l < (Z.of_nat l + Z.of_nat r + 1) / 2 ≤ Z.of_nat r); [|lia].
      split; [apply Z.le_succ_l, Z.div_le_lower_bound; lia|]. apply Z.lt_succ_r, Z.div_lt_upper_bound; lia. }
    destruct (lookup_lt_is_Some_2 rs m) as [j Hj]; [lia|].
    rewrite (GetRestartPoint_Ok it m j) by done. cbn [mbind res_bind]. rewrite Hd, HR.
    pose proof (restart_mono 0 m 0 j (lay_first _ _ _ Hlay) Hj ltac:(lia)).
    destruct (lay_restarts _ _ _ Hlay j) as [->|[Hjn Hs]]; [by eapply list_elem_of_lookup_2|lia|].
    destruct (entry_at j Hjn) as (_ & k & v & _ & He & _).
    destruct (DecodeEntry_at j 0 k v Hs He) as (p & -> & Hp & HS & Hdelta & _). cbn [mbind res_bind].
    pose proof (off_le (S j) n ltac:(lia) ltac:(lia)).
    rewrite read_bytes_Ok, Hdelta by lia. change (drop (Z.to_nat 0) k) with k. cbn [mbind res_bind].
    rewrite (Compare_spec k target) by (done || by eapply key_ok). cbn [mbind res_bind].
    destruct (Z.ltb_spec (c k target) 0) as [Hc|Hc].
    + apply IH; [done|done|lia|done| |lia]. intros j' Hj'. simplify_eq. intros i' k' v' Hi.
      apply (below_upto target j k v He Hc). lia.
    + replace (Z.of_nat m - 1) with (Z.of_nat (m - 1)) by lia. apply IH; [done|done|lia|lia|done|lia].
  - destruct (lookup_lt_is_Some_2 rs l) as [j Hj]; [lia|]. exists l, j. split; [done|]. split; [done|]. by apply Hbelow.
Qed.

Lemma linear_loop_Ok target fuel : ∀ it i, ready it i → okk target → (i ≤ n)%nat → below target i → (n - i < fuel)%nat →
  ∃ it' m, linear_loop fuel target it = Ok it' ∧ at_or_end it' m ∧ below target m
    ∧ ∀ k v, es !! m = Some (k, v) → 0 ≤ c k target.
Proof using Hlay Hsize Hsorted Hokk Hspec.
  induction fuel as [|fuel IH]; intros it i Hr Ht Hi Hb Hf; [lia|]. cbn [linear_loop].
  destruct (parse_any it i Hr Hi) as (b & it1 & -> & Hcase). cbn [mbind res_bind].
  destruct Hcase as [(-> & Hlt & Hat)|(-> & -> & Hend)].
  - pose proof Hat as (_ & _ & k & v & He & _ & -> & _).
    rewrite (Compare_spec k target) by (done || by eapply key_ok). cbn [mbind res_bind].
    destruct (Z.leb_spec 0 (c k target)) as [Hge|Hc].
    + exists it1, i. split; [done|]. split; [by left|]. split; [done|]. intros k' v' He'. by simplify_eq.
    + apply (IH it1 (S i)); [by apply at_ready|done|lia| |lia]. by eapply below_upto.
  - exists it1, n. split; [done|]. split; [by right|]. split; [done|].
    intros k v He. apply lookup_lt_Some in He. lia.
Qed.

Lemma Seek_Ok target it : it_ok it → okk target →
  ∃ it' m, Seek target it = Ok it' ∧ at_or_end it' m ∧ below target m
    ∧ ∀ k v, es !! m = Some (k, v) → 0 ≤ c k target.
Proof using Hlay Hsize Hsorted Hokk Hspec.
  intros Hok Ht. pose proof Hok as (_ & _ & Hn & _). unfold Seek. rewrite Hn.
  pose proof (lookup_lt_Some _ _ _ (lay_first _ _ _ Hlay)). pose proof bytes_length. pose proof (off_range 0).
  rewrite u32_small by lia. replace (zlen rs - 1) with (Z.of_nat (length rs - 1)) by lia.
  destruct (search_loop_Ok target it (S (Z.to_nat (zlen rs))) 0 (length rs - 1) Hok Ht) as (m & j & E & Hj & Hb);
    [lia|lia| |lia|].
  { intros j Hj. rewrite (lay_first _ _ _ Hlay) in Hj. simplify_eq. intros ? ? ? ?. lia. }
  change (Z.of_nat 0) with 0 in E. rewrite E. cbn [mbind res_bind].
  destruct (SeekToRestartPoint_Ok it m j Hok Hj) as (it1 & -> & Hr). cbn [mbind res_bind].
  pose proof Hr as (Hok1 & _). pose proof (loop_fuel_enough it1 Hok1).
  apply (linear_loop_Ok target (loop_fuel it1) it1 j Hr Ht); [by eapply restart_bound|done|lia].
Qed.
End reader.

(** ** Opening a layout *)

Lemma new_Block_Ok es shs rs : layout es shs rs → zlen (block_of es shs rs) < 2^32 →
  ∃ b it, new_Block (block_of es shs rs) = Ok b ∧ NewIterator b = Ok (BlockIterator it) ∧ at_end es shs rs it.
Proof.
  intros Hlay Hsize. pose proof (bytes_length es shs rs Hlay) as Hb.
  pose proof (lookup_lt_Some _ _ _ (lay_first _ _ _ Hlay)) as Hrs.
  destruct (off_range es shs rs Hlay Hsize 0) as (_ & HR & _); [lia|].
  assert (0 ≤ off shs es (length es)) as HR0 by (unfold off; lia).
  assert (NumRestarts (block_of es shs rs) (zlen (block_of es shs rs)) = Ok (zlen rs)) as Hnum.
  { unfold NumRestarts. rewrite c_assert_true by lia. cbn [mbind res_bind].
    unfold block_of at 2. rewrite app_assoc. set (pre := concat (zip_with _ _ _) ++ _).
    replace (Z.to_nat _) with (length pre)
      by (rewrite Hb; unfold pre; rewrite length_app, words_length, length_map, (concat_pieces es shs rs Hlay); lia).
    rewrite drop_app_length, <-(app_nil_r (EncodeFixed32 _)), DecodeFixed32_Ok.
    rewrite (u32_small (zlen rs)) by lia. by rewrite u32_small by lia. }
  unfold new_Block. replace (_ <? 4) with false by lia. rewrite Hnum. cbn [mbind res_bind].
  replace (_ <? zlen rs) with false
    by (symmetry; apply Z.ltb_ge, Z.div_le_lower_bound; lia).
  rewrite (u32_small (1 + _)), u32_small by lia. do 2 eexists. split; [done|].
  unfold NewIterator. cbn [size_ blk_data restart_offset_]. replace (_ <? 4) with false by lia.
  rewrite Hnum. cbn [mbind res_bind]. replace (zlen rs =? 0) with false by lia.
  unfold new_Iter. rewrite c_assert_true by lia. cbn [mbind res_bind]. split; [done|].
  repeat split; cbn; lia.
Qed.

(** ** Building a layout *)

Section builder.
Context {C : Comparator} {okk : list byte → Prop} {c : list byte → list byte → Z} {Hspec : ComparatorSpec C okk c}.
Context (interval : Z) (Hint : 1 ≤ interval ≤ int_max).

Definition last_key (es : list entry) : list byte := default [] (fst <$> last es).

Record builder_inv (b : BlockBuilder) (es : list entry) (shs : list Z) (rs : list nat) : Prop := {
  bi_layout : layout es shs rs;
  bi_buffer : buffer_ b = concat (zip_with enc shs es);
  bi_restarts : restarts_ b = map (λ r, u32 (off shs es r)) rs;
  bi_finished : finished_ b = false;
  bi_last : last_key_ b = last_key es;
  bi_counter : 0 ≤ counter_ b ≤ interval;
  bi_empty : es = [] → counter_ b = 0 }.

Lemma off_app es shs e sh r : length shs = length es → (r ≤ length es)%nat →
  off (shs ++ [sh]) (es ++ [e]) r = off shs es r.
Proof using.
  clear Hint. intros Hl Hr. unfold off. rewrite zip_with_app by done.
  by rewrite take_app_le by (rewrite length_zip_with; lia).
Qed.

Lemma restarts_app es shs rs e sh : layout es shs rs →
  map (λ r, u32 (off shs es r)) rs = map (λ r, u32 (off (shs ++ [sh]) (es ++ [e]) r)) rs.
Proof using.
  clear Hint. intros Hlay. apply map_ext_in. intros r Hr%list_elem_of_In. f_equal. symmetry. apply off_app; [apply Hlay|].
  destruct (lay_restarts _ _ _ Hlay r Hr) as [->|[? _]]; lia.
Qed.

(** A layout with one more entry, sharing [sh] bytes with the last key. *)
Lemma layout_snoc es shs rs k v sh : layout es shs rs → 0 ≤ sh ≤ zlen k →
  (sh = 0 ∨ es ≠ [] ∧ sh ≤ zlen (last_key es) ∧ take (Z.to_nat sh) (last_key es) = take (Z.to_nat sh) k) →
  layout (es ++ [(k, v)]) (shs ++ [sh]) rs
  ∧ (es ≠ [] → sh = 0 → layout (es ++ [(k, v)]) (shs ++ [sh]) (rs ++ [length es])).
Proof using.
  clear Hint. intros Hlay Hsh Hcase. pose proof (lay_length _ _ _ Hlay) as Hl.
  assert (∀ i sh' e, (shs ++ [sh]) !! i = Some sh' → (es ++ [(k, v)]) !! i = Some e → 0 ≤ sh' ≤ zlen e.1
    ∧ (sh' = 0 ∨ ∃ j e', i = S j ∧ (es ++ [(k, v)]) !! j = Some e' ∧ sh' ≤ zlen e'.1
        ∧ take (Z.to_nat sh') e'.1 = take (Z.to_nat sh') e.1)) as Hshared.
  { intros i sh' e Hs He. apply lookup_app_Some in He as [He|[Hi He]].
    - apply lookup_app_Some in Hs as [Hs|[Hs _]]; [|apply lookup_lt_Some in He; lia].
      destruct (lay_shared _ _ _ Hlay i sh' e Hs He) as [? [|(j & e' & -> & He' & ? & ?)]]; [by auto|].
      split; [done|right]. exists j, e'. split; [done|]. split; [by apply lookup_app_l_Some|done].
    - apply lookup_app_Some in Hs as [Hs|[_ Hs]]; [apply lookup_lt_Some in Hs; lia|].
      apply list_lookup_singleton_Some in Hs as [_ <-]. apply list_lookup_singleton_Some in He as [E <-].
      split; [done|]. destruct Hcase as [|(Hne & ? & ?)]; [by left|right]. unfold last_key in *.
      destruct (last es) as [e'|] eqn:El; [|by apply last_None in El].
      apply last_Some in El as [es' ->]. rewrite length_app in *. simpl in *.
      exists (length es'), e'. split; [lia|]. split; [|done]. apply lookup_app_l_Some. by apply list_lookup_middle. }
  assert (∀ r, r ∈ rs → r = 0%nat ∨ (r < length (es ++ [(k, v)]))%nat ∧ (shs ++ [sh]) !! r = Some 0) as Hrs.
  { intros r Hr. destruct (lay_restarts _ _ _ Hlay r Hr) as [|[? ?]]; [by left|right].
    split; [rewrite length_app; lia|by apply lookup_app_l_Some]. }
  split.
  - split; [by rewrite !length_app, Hl|done|apply Hlay|apply Hlay|done].
  - intros Hne ->. assert (0 < length es)%nat by (destruct es; simpl; [done|lia]).
    split; [by rewrite !length_app, Hl|done|apply lookup_app_l_Some, Hlay| |].
    + apply StronglySorted_app_2; [|by apply Hlay|by repeat constructor].
      intros r r' Hr ->%list_elem_of_singleton. destruct (lay_restarts _ _ _ Hlay r Hr) as [->|[? _]]; lia.
    + intros r [Hr| ->%list_elem_of_singleton]%elem_of_app; [by apply Hrs|right].
      split; [rewrite length_app; simpl; lia|]. rewrite <-Hl. apply list_lookup_middle. done.
Qed.

Lemma concat_snoc es shs (e : entry) sh : length shs = length es →
  concat (zip_with enc (shs ++ [sh]) (es ++ [e])) = concat (zip_with enc shs es) ++ enc sh e.
Proof using. clear Hint. intros Hl. rewrite zip_with_app, concat_app by done. simpl. by rewrite app_nil_r. Qed.

Lemma buffer_empty es shs rs : layout es shs rs → (zlen (concat (zip_with enc shs es)) =? 0) = bool_decide (es = []).
Proof using.
  clear Hint. intros Hlay. rewrite <-(concat_pieces es shs rs Hlay). destruct es as [|e es].
  - by rewrite bool_decide_true by done.
  - rewrite bool_decide_false by done. pose proof (off_lt _ _ _ Hlay 0 (length (e :: es)) ltac:(simpl; lia) ltac:(lia)).
    assert (0 ≤ off shs (e :: es) 0) by (unfold off; lia). lia.
Qed.

Lemma Add_Ok b es shs rs k v : builder_inv b es shs rs → okk k → (es = [] ∨ okk (last_key es) ∧ c (last_key es) k < 0) →
  ∃ b' shs' rs', Add interval k v b = Ok b' ∧ builder_inv b' (es ++ [(k, v)]) shs' rs'.
Proof using Hint Hspec.
  intros [Hlay Hbuf Hres Hfin Hlast Hcnt Hemp] Hk Hord. pose proof (lay_length _ _ _ Hlay) as Hl. unfold Add.
  rewrite Hfin. cbn [negb c_assert mbind res_bind]. rewrite c_assert_true by lia. cbn [mbind res_bind].
  rewrite Hbuf, (buffer_empty es shs rs Hlay), Hlast.
  assert ((if bool_decide (es = []) then mret true else r ← Compare k (last_key es); mret (0 <? r)) = Ok true) as ->.
  { case_bool_decide as He; [done|]. destruct Hord as [|[Ho Hc]]; [done|].
    rewrite (Compare_spec k (last_key es)) by done. cbn [mbind res_bind mret res_ret]. f_equal.
    pose proof (@cmp_anti _ _ (@spec_order _ _ _ Hspec) (last_key es) k). lia. }
  cbn [c_assert mbind res_bind].
  set (t := if counter_ b <? interval then _ else _).
  assert (∃ sh rs', t = (sh, map (λ r, u32 (off (shs ++ [sh]) (es ++ [(k, v)]) r)) rs', if counter_ b <? interval then counter_ b else 0)
    ∧ layout (es ++ [(k, v)]) (shs ++ [sh]) rs' ∧ 0 ≤ sh ≤ zlen k
    ∧ take (Z.to_nat sh) (last_key es) = take (Z.to_nat sh) k) as (sh & rs' & -> & Hlay' & Hsh & Ht).
  { unfold t. destruct (Z.ltb_spec (counter_ b) interval).
    - destruct (common_prefix_split (last_key es) k) as (p & a & d & Ea & Ed & Hp & _). rewrite <-Hp.
      assert (take (Z.to_nat (zlen p)) (last_key es) = take (Z.to_nat (zlen p)) k) as Ht
        by (rewrite Ea, Ed, Nat2Z.id; by rewrite !take_app_length).
      exists (zlen p), rs. assert (0 ≤ zlen p ≤ zlen k) as Hr by (rewrite Ed, length_app; lia).
      rewrite Hres, (restarts_app es shs rs (k, v) (zlen p) Hlay). split; [done|]. split; [|done].
      apply layout_snoc; [done|done|]. destruct (decide (es = [])) as [->|].
      + left. unfold last_key in Ea. simpl in Ea. by destruct p.
      + right. split; [done|]. split; [|done]. rewrite Ea, length_app. lia.
    - assert (es ≠ []) as Hne by (intros He; specialize (Hemp He); lia).
      exists 0, (rs ++ [length es]). split; [|split; [apply layout_snoc; by auto with lia|by split; [lia|]]].
      rewrite map_app, Hres, (restarts_app es shs rs (k, v) 0 Hlay). do 3 f_equal. simpl.
      rewrite off_app by (done || lia). by rewrite (concat_pieces es shs rs Hlay). }
  rewrite read_bytes_Ok by lia. cbn [mbind res_bind].
  assert (slice sh (zlen k - sh) k = drop (Z.to_nat sh) k) as ->
    by (unfold slice; apply take_ge; rewrite length_drop; lia).
  rewrite Slice_eq_Ok, Ht, take_drop, bool_decide_true by done. cbn [c_assert mbind res_bind].
  rewrite cint_ok by (unfold int_min; destruct (Z.ltb_spec (counter_ b) interval); lia).
  cbn [mbind res_bind]. do 3 eexists. split; [done|].
  split; cbn [buffer_ restarts_ finished_ last_key_ counter_]; [done| |done|done| | |].
  - rewrite concat_snoc by done. unfold PutVarint32, enc. by rewrite <-!app_assoc.
  - unfold last_key. by rewrite last_snoc.
  - destruct (Z.ltb_spec (counter_ b) interval); lia.
  - intros E. by destruct es.
Qed.

Lemma new_BlockBuilder_Ok : ∃ b, new_BlockBuilder interval = Ok b ∧ builder_inv b [] [] [0%nat].
Proof using Hint.
  unfold new_BlockBuilder. rewrite c_assert_true by lia. eexists. split; [done|].
  split; try done; [|cbn; lia]. split; try done.
  - by repeat constructor.
  - intros r ->%list_elem_of_singleton. by left.
Qed.

Lemma add_all_Ok es2 : ∀ b es1 shs rs, builder_inv b es1 shs rs →
  StronglySorted (λ a b : entry, c a.1 b.1 < 0) (es1 ++ es2) → Forall (λ e : entry, okk e.1) (es1 ++ es2) →
  ∃ b' shs' rs', add_all interval es2 b = Ok b' ∧ builder_inv b' (es1 ++ es2) shs' rs'.
Proof using Hint Hspec.
  induction es2 as [|[k v] es2 IH]; intros b es1 shs rs Hinv Hs Hok; cbn [add_all].
  { exists b, shs, rs. by rewrite app_nil_r. }
  pose proof Hok as [Hok1 [Hk _]%Forall_cons]%Forall_app.
  destruct (Add_Ok b es1 shs rs k v Hinv Hk) as (b1 & shs1 & rs1 & -> & Hinv1).
  { destruct (decide (es1 = [])) as [|Hne]; [by left|right]. unfold last_key.
    destruct (last es1) as [e|] eqn:El; [|by apply last_None in El].
    assert (e ∈ es1) as He by (apply last_Some in El as [l ->]; apply elem_of_app; right; by left).
    simpl. rewrite Forall_forall in Hok1. split; [by apply Hok1|].
    apply (StronglySorted_app_1_elem_of _ _ _ e (k, v) Hs He). by left. }
  cbn [mbind res_bind]. replace (es1 ++ (k, v) :: es2) with ((es1 ++ [(k, v)]) ++ es2) in * by (by rewrite <-app_assoc).
  by apply (IH b1 (es1 ++ [(k, v)]) shs1 rs1).
Qed.

Lemma build_block_Ok es : StronglySorted (λ a b : entry, c a.1 b.1 < 0) es → Forall (λ e : entry, okk e.1) es →
  ∃ shs rs, build_block interval es = Ok (block_of es shs rs) ∧ layout es shs rs.
Proof using Hint Hspec.
  intros Hs Hok. unfold build_block. destruct new_BlockBuilder_Ok as (b0 & -> & Hinv). cbn [mbind res_bind].
  destruct (add_all_Ok es b0 [] [] [0%nat] Hinv Hs Hok) as (b & shs & rs & -> & [Hlay Hbuf Hres _ _ _ _]).
  cbn [mbind res_bind]. exists shs, rs. split; [|done]. unfold Finish. cbn [fst].
  rewrite fold_PutFixed32, Hbuf, Hres, length_map. unfold PutFixed32, block_of. by rewrite <-app_assoc.
Qed.
End builder.

(** ** Properties *)

(** Claim C32. Blocks round trip: for any comparator that keeps its promise and any entries in
    strictly increasing order of their keys, the builder passes its assertions, and a block of
    less than 4GB opens to an iterator which visits exactly the entries, in order from
    [SeekToFirst] by [Next] and in reverse from [SeekToLast] by [Prev], whatever the restart
    interval, and ends invalid with an OK status. *)
Theorem block_roundtrip (C : Comparator) ok c interval es
  (Hspec : ComparatorSpec C ok c) (Hint : 1 ≤ interval ≤ int_max)
  (Hsorted : StronglySorted (λ a b : entry, c a.1 b.1 < 0) es) (Hok : Forall (λ e : entry, ok e.1) es) :
  ∃ contents, build_block interval es = Ok contents ∧ (zlen contents < 2^32 →
    ∃ b it, new_Block contents = Ok b ∧ NewIterator b = Ok (BlockIterator it)
    ∧ (∃ it0 it', SeekToFirst it = Ok it0 ∧ iterate Next (S (length es)) it0 = Ok (es, it')
         ∧ Valid it' = false ∧ status it' = OK)
    ∧ ∃ it0 it', SeekToLast it = Ok it0 ∧ iterate Prev (S (length es)) it0 = Ok (reverse es, it')
         ∧ Valid it' = false ∧ status it' = OK).
Proof.
  destruct (build_block_Ok interval Hint es Hsorted Hok) as (shs & rs & Hb & Hlay).
  exists (block_of es shs rs). split; [done|]. intros Hsize.
  destruct (new_Block_Ok es shs rs Hlay Hsize) as (b & it & Hbk & Hit & [Hok1 _]). exists b, it.
  split; [done|]. split; [done|]. split.
  - destruct (SeekToFirst_Ok es shs rs Hlay Hsize it Hok1) as (it0 & H0 & Hat).
    destruct (iterate_Next es shs rs Hlay Hsize (S (length es)) it0 0 Hat) as (it' & H1 & Hend); [lia|].
    exists it0, it'. split; [done|]. split; [done|]. split; [by eapply at_end_invalid|apply Hend].
  - destruct (SeekToLast_Ok es shs rs Hlay Hsize it Hok1) as (it0 & H0 & [[Hn Hat]|[Hn Hend]]).
    + destruct (iterate_Prev es shs rs Hlay Hsize (S (length es)) it0 (length es - 1) Hat) as (it' & H1 & Hend); [lia|].
      rewrite take_ge in H1 by lia. exists it0, it'. split; [done|]. split; [done|].
      split; [by eapply at_end_invalid|apply Hend].
    + exists it0, it0. split; [done|]. destruct es; [|done]. cbn [iterate length].
      rewrite (at_end_invalid _ _ _ it0 Hend). split; [done|]. split; [done|]. apply Hend.
Qed.

(** Seeking in a block: on a block built from entries in order, [Seek] positions the
    iterator at the first entry whose key is not below the target, and makes it invalid when
    there is none; its searches terminate. *)
Theorem block_seek (C : Comparator) ok c interval es target
  (Hspec : ComparatorSpec C ok c) (Hint : 1 ≤ interval ≤ int_max)
  (Hsorted : StronglySorted (λ a b : entry, c a.1 b.1 < 0) es) (Hok : Forall (λ e : entry, ok e.1) es)
  (Htarget : ok target) :
  ∃ contents, build_block interval es = Ok contents ∧ (zlen contents < 2^32 →
    ∃ b it it', new_Block contents = Ok b ∧ NewIterator b = Ok (BlockIterator it) ∧ Seek target it = Ok it'
    ∧ match List.find (λ e : entry, 0 <=? c e.1 target) es with
      | Some (k, v) => key it' = Ok k ∧ value it' = Ok v
      | None => Valid it' = false
      end).
Proof.
  destruct (build_block_Ok interval Hint es Hsorted Hok) as (shs & rs & Hb & Hlay).
  exists (block_of es shs rs). split; [done|]. intros Hsize.
  destruct (new_Block_Ok es shs rs Hlay Hsize) as (b & it & Hbk & Hit & [Hok1 _]).
  destruct (Seek_Ok es shs rs Hlay Hsize Hsorted Hok target it Hok1 Htarget) as (it' & m & Hs & Hat & Hbelow & Hm).
  exists b, it, it'. do 3 (split; [done|]).
  assert (∀ l i, (∀ i' e, (i' < i)%nat → l !! i' = Some e → c e.1 target < 0) →
    (∀ e, l !! i = Some e → 0 ≤ c e.1 target) → List.find (λ e : entry, 0 <=? c e.1 target) l = l !! i) as Hfind.
  { clear. induction l as [|e l IH]; intros i Hlo Hhi; [done|]. cbn [List.find]. destruct i as [|i].
    - specialize (Hhi e eq_refl). by replace (0 <=? _) with true by lia.
    - pose proof (Hlo 0%nat e ltac:(lia) eq_refl). replace (0 <=? _) with false by lia.
      apply IH; [|done]. intros i' e' Hi He. apply (Hlo (S i') e'); [lia|done]. }
  rewrite (Hfind es m); [|intros i' [k v] Hi He; by eapply Hbelow|intros [k v] He; by eapply Hm].
  destruct Hat as [[Hlt Hat]|[-> Hend]].
  - destruct (lookup_lt_is_Some_2 es m Hlt) as [[k v] He]. rewrite He. by eapply at_entry_read.
  - rewrite (lookup_ge_None_2 es) by lia. by eapply at_end_invalid.
Qed.

(** Five entries, restart interval 2. *)
Definition sample : list entry :=
  [([x61], [x01]); ([x61; x62], [x02]); ([x61; x62; x63], []); ([x61; x64], [x03]); ([x62], [x04])].

Lemma sample_sorted : StronglySorted (λ a b : entry, strcmp_aux a.1 b.1 < 0) sample
  ∧ Forall (λ e : entry, short e.1) sample.
Proof. split; repeat constructor; discriminate. Qed.

Lemma block_roundtrip_witness :
  ∃ contents, @build_block BytewiseComparator 2 sample = Ok contents ∧ (zlen contents < 2^32 →
    ∃ b it, new_Block contents = Ok b ∧ NewIterator b = Ok (BlockIterator it)
    ∧ (∃ it0 it', SeekToFirst it = Ok it0 ∧ iterate Next (S (length sample)) it0 = Ok (sample, it')
         ∧ Valid it' = false ∧ status it' = OK)
    ∧ ∃ it0 it', SeekToLast it = Ok it0 ∧ iterate Prev (S (length sample)) it0 = Ok (reverse sample, it')
         ∧ Valid it' = false ∧ status it' = OK).
Proof.
  apply (block_roundtrip BytewiseComparator short strcmp_aux 2 sample bytewise_spec);
    [split; discriminate|apply sample_sorted|apply sample_sorted].
Defined.

Lemma block_seek_witness :
  ∃ contents, @build_block BytewiseComparator 2 sample = Ok contents ∧ (zlen contents < 2^32 →
    ∃ b it it', new_Block contents = Ok b ∧ NewIterator b = Ok (BlockIterator it)
    ∧ @Seek BytewiseComparator [x61; x63] it = Ok it'
    ∧ match List.find (λ e : entry, 0 <=? strcmp_aux e.1 [x61; x63]) sample with
      | Some (k, v) => key it' = Ok k ∧ value it' = Ok v
      | None => Valid it' = false
      end).
Proof.
  apply (block_seek BytewiseComparator short strcmp_aux 2 sample [x61; x63] bytewise_spec);
    [split; discriminate|apply sample_sorted|apply sample_sorted|discriminate].
Defined.
