(* ===== verification/BlockSafe.v ===== *)
(** * Blocks with arbitrary contents

    The contents of a block come from a file. Whatever they are, opening the block succeeds and
    every sequence of iterator operations terminates; but a length that overflows makes the
    iterator read out of bounds. *)
From Stdlib Require Import Strings.String.
From S2P Require Import Prelude Buffers CLib Coding Comparator Status Block BlockProps.

#[local] Open Scope Z_scope.
#[local] Open Scope list_scope.

(** ** Computations that do not diverge *)

Definition terminates {A} (r : res A) : Prop := r ≠ Err Diverge.

Lemma terminates_bind {A B} (m : res A) (f : A → res B) :
  terminates m → (∀ a, m = Ok a → terminates (f a)) → terminates (m ≫= f).
Proof. unfold terminates. destruct m; simpl; [auto|]. intros H _ [= ->]. by apply H. Qed.

Lemma terminates_Ok {A} (a : A) : terminates (Ok a).
Proof. discriminate. Qed.

Lemma terminates_assert b : terminates (c_assert b).
Proof. by destruct b. Qed.

Lemma terminates_defined b : terminates (defined b).
Proof. by destruct b. Qed.

Lemma terminates_get8 l i : terminates (get8 l i).
Proof.
  unfold get8. apply terminates_bind; [apply terminates_defined|]. intros _ _. by destruct (l !! _).
Qed.

Lemma terminates_read l p m : terminates (read_bytes l p m).
Proof. unfold read_bytes. apply terminates_bind; [apply terminates_defined|]. intros _ _. apply terminates_Ok. Qed.

Lemma terminates_word l : terminates (DecodeFixed32 l).
Proof. unfold DecodeFixed32. apply terminates_bind; [apply terminates_read|]. intros. apply terminates_Ok. Qed.

Create HintDb terminates.
#[export] Hint Resolve terminates_bind terminates_Ok terminates_assert terminates_defined terminates_get8
  terminates_read terminates_word : terminates.

Lemma terminates_restart it index : terminates (GetRestartPoint it index).
Proof. unfold GetRestartPoint. auto with terminates. Qed.

Lemma terminates_status code msg msg2 : terminates (new_Status code msg msg2).
Proof. unfold new_Status. eauto 6 with terminates. Qed.

Lemma terminates_corruption it : terminates (CorruptionError it).
Proof.
  unfold CorruptionError, Corruption. apply terminates_bind; [apply terminates_status|]. intros. apply terminates_Ok.
Qed.
#[export] Hint Resolve terminates_restart terminates_status terminates_corruption : terminates.

Lemma terminates_decode data p limit : terminates (DecodeEntry data p limit).
Proof.
  unfold DecodeEntry. destruct (_ <? 3); [apply terminates_Ok|].
  do 3 (apply terminates_bind; [apply terminates_get8|intros]).
  case_match; [|apply terminates_Ok]. repeat case_match; apply terminates_Ok.
Qed.
#[export] Hint Resolve terminates_decode : terminates.

Lemma terminates_next it : terminates (NextEntryOffset it).
Proof. unfold NextEntryOffset. destruct (value_ it) as [[p m]|]; discriminate. Qed.
#[export] Hint Resolve terminates_next : terminates.

(** ** Progress of decoding *)

(** A decoded entry ends after its start, and, with its lengths added modulo 2{^32}, before the
    limit. *)
Lemma DecodeEntry_progress data p limit sh ns vl q : 0 ≤ p → limit ≤ zlen data →
  DecodeEntry data p limit = Ok (Some (sh, ns, vl, q)) →
  p + 3 ≤ q ∧ q ≤ limit ∧ u32 (ns + vl) ≤ u32 (limit - q).
Proof.
  intros Hp Hdata Hdec. destruct (Z.ltb_spec (limit - p) 3) as [Hlt|Hge].
  { unfold DecodeEntry in Hdec. by replace (_ <? 3) with true in Hdec by lia. }
  rewrite DecodeEntry_slow in Hdec by lia. destruct (decode_header _) as [[[[s n] v] bytes]|] eqn:Eh; [|done].
  destruct (Z.ltb_spec (u32 (zlen bytes)) (u32 (n + v))); [done|]. injection Hdec as -> -> -> <-.
  assert (3 + zlen bytes ≤ limit - p).
  { unfold decode_header in Eh.
    destruct (GetVarint32Ptr (slice _ _ _)) as [[a r1]|] eqn:E1; [|done]. cbn [mbind option_bind] in Eh.
    destruct (GetVarint32Ptr r1) as [[a2 r2]|] eqn:E2; [|done]. cbn [mbind option_bind] in Eh.
    destruct (GetVarint32Ptr r2) as [[a3 r3]|] eqn:E3; [|done]. cbn [mbind option_bind] in Eh. simplify_eq.
    apply GetVarint32Ptr_shorter in E1, E2, E3. pose proof (length_slice p (limit - p) data). lia. }
  replace (limit - (limit - zlen bytes)) with (zlen bytes) by lia. lia.
Qed.

(** ** The iterator *)

Record wf_iter (it : Iter) : Prop := {
  wf_restarts : 0 ≤ it_restarts it ≤ zlen (it_data it) ∧ zlen (it_data it) < 2^32;
  wf_num : 0 < it_num it < 2^31;
  wf_index : 0 ≤ restart_index_ it ≤ it_num it;
  wf_current : 0 ≤ current_ it }.

#[local] Hint Resolve wf_restarts wf_num wf_index wf_current : core.

(** Where parsing continues from. *)
Definition next_of (it : Iter) : Z :=
  match value_ it with Some (p, m) => u32 (p + m) | None => 0 end.

(** The same block. *)
Definition same_block (it it' : Iter) : Prop :=
  it_data it' = it_data it ∧ it_restarts it' = it_restarts it ∧ it_num it' = it_num it.

#[export] Instance same_block_preorder : PreOrder same_block.
Proof. unfold same_block. split; [done|]. intros a b d. intuition congruence. Qed.

Lemma restart_loop_bound fuel it current : ∀ index r, restart_loop fuel it current index = Ok r →
  0 ≤ index ≤ it_num it → it_num it < 2^31 → 0 ≤ r ≤ it_num it.
Proof.
  induction fuel as [|fuel IH]; intros index r Hrun Hi Hn; [done|]. cbn [restart_loop] in Hrun.
  rewrite u32_small in Hrun by lia. destruct (Z.ltb_spec (index + 1) (it_num it)); [|by injection Hrun as <-].
  apply bind_Ok in Hrun as (x & _ & Hrun). destruct (x <? current); [|by injection Hrun as <-].
  apply (IH (index + 1) r); [done|lia|done].
Qed.

Lemma restart_loop_terminates fuel it current : ∀ index, 0 ≤ index ≤ it_num it → it_num it < 2^31 →
  (Z.to_nat (it_num it - index) < fuel)%nat → terminates (restart_loop fuel it current index).
Proof.
  induction fuel as [|fuel IH]; intros index Hi Hn Hf; [lia|]. cbn [restart_loop]. rewrite u32_small by lia.
  destruct (Z.ltb_spec (index + 1) (it_num it)) as [Hlt|]; [|apply terminates_Ok].
  apply terminates_bind; [apply terminates_restart|]. intros r _.
  destruct (r <? current); [|apply terminates_Ok]. apply IH; lia.
Qed.

Lemma ParseNextKey_terminates it : wf_iter it → terminates (ParseNextKey it).
Proof.
  intros [Hr Hn Hi Hc]. unfold ParseNextKey. apply terminates_bind.
  { apply terminates_next. }
  intros current _. destruct (_ <=? current); [apply terminates_Ok|].
  apply terminates_bind; [apply terminates_decode|]. intros e _.
  assert (terminates (it' ← CorruptionError it; mret (false, it'))) as Hcor
    by (apply terminates_bind; [apply terminates_corruption|]; intros; apply terminates_Ok).
  destruct e as [[[[sh ns] vl] q]|]; [|done]. destruct (_ <? sh); [done|].
  apply terminates_bind; [apply terminates_read|]. intros delta _.
  apply terminates_bind; [apply restart_loop_terminates; lia|]. intros. apply terminates_Ok.
Qed.

(** Parsing keeps the invariant, and makes progress where it finds an entry. *)
Lemma ParseNextKey_wf it b it' : wf_iter it → ParseNextKey it = Ok (b, it') →
  wf_iter it' ∧ same_block it it' ∧ (b = true → next_of it + 3 ≤ next_of it' ≤ it_restarts it).
Proof.
  intros Hwf Hrun. pose proof Hwf as [Hr Hn Hi Hc]. unfold ParseNextKey in Hrun.
  apply bind_Ok in Hrun as (current & Hnext & Hrun).
  assert (current = next_of it ∧ 0 ≤ current) as [-> Hcur].
  { unfold NextEntryOffset, next_of in *. destruct (value_ it) as [[p m]|]; [|discriminate].
    injection Hnext as <-. split; [reflexivity|apply u32_range]. }
  assert (∀ it', CorruptionError it = Ok it' → wf_iter it' ∧ same_block it it') as Hcor.
  { intros it1 H1. unfold CorruptionError in H1. apply bind_Ok in H1 as (s & _ & H1). ret_eq.
    split; [|by unfold same_block]. split; cbn; lia. }
  destruct (Z.leb_spec (it_restarts it) (next_of it)) as [|Hlt].
  { ret_eq. split; [split; cbn; lia|]. by split; [unfold same_block|]. }
  apply bind_Ok in Hrun as (e & Hdec & Hrun).
  assert ((it1 ← CorruptionError it; mret (false, it1)) = Ok (b, it') →
    wf_iter it' ∧ same_block it it' ∧ (b = true → next_of it + 3 ≤ next_of it' ≤ it_restarts it)) as Hcor'.
  { intros Hc'. apply bind_Ok in Hc' as (it1 & H1 & H2). ret_eq. destruct (Hcor _ H1). done. }
  destruct e as [[[[sh ns] vl] q]|]; [|by apply Hcor']. destruct (_ <? sh); [by apply Hcor'|].
  apply bind_Ok in Hrun as (delta & _ & Hrun). apply bind_Ok in Hrun as (r & Hloop & Hrun).
  apply restart_loop_bound in Hloop; [|done|lia]. ret_eq.
  destruct (DecodeEntry_progress _ _ _ _ _ _ _ Hcur (proj2 (proj1 Hr)) Hdec) as (Hq & Hql & Hw).
  split; [split; cbn; lia|]. split; [by unfold same_block|]. intros _. unfold next_of at 2 3. cbn.
  assert (u32 (q + ns + vl) = q + u32 (ns + vl)) as ->; [|rewrite (u32_small (it_restarts it - q)) in Hw by lia;
    pose proof (u32_range (ns + vl)); lia].
  rewrite (u32_small (it_restarts it - q)) in Hw by lia. pose proof (u32_range (ns + vl)).
  rewrite <-(u32_small (q + u32 (ns + vl))) by lia. unfold u32. rewrite Zplus_mod_idemp_r. f_equal. lia.
Qed.

(** The loops that parse entry after entry. *)
Lemma skip_loop_terminates bound fuel : ∀ it, wf_iter it → (Z.to_nat (it_restarts it - next_of it) < fuel)%nat →
  terminates (skip_loop fuel bound it).
Proof.
  induction fuel as [|fuel IH]; intros it Hwf Hf; [lia|]. cbn [skip_loop].
  apply terminates_bind; [by apply ParseNextKey_terminates|]. intros [b it1] Hrun.
  destruct (ParseNextKey_wf it b it1 Hwf Hrun) as (Hwf1 & (_ & Hr & _) & Hprog). destruct b; [|apply terminates_Ok].
  specialize (Hprog eq_refl). apply terminates_bind; [apply terminates_next|].
  intros next _. destruct (next <? bound); [|apply terminates_Ok]. apply IH; [done|]. lia.
Qed.

Lemma skip_loop_wf bound fuel : ∀ it it', wf_iter it → skip_loop fuel bound it = Ok it' → wf_iter it' ∧ same_block it it'.
Proof.
  induction fuel as [|fuel IH]; intros it it' Hwf Hrun; [done|]. cbn [skip_loop] in Hrun.
  apply bind_Ok in Hrun as ([b it1] & H1 & Hrun). destruct (ParseNextKey_wf it b it1 Hwf H1) as (Hwf1 & Hs & _).
  destruct b; [|by ret_eq]. apply bind_Ok in Hrun as (next & _ & Hrun).
  destruct (next <? bound); [|by ret_eq]. destruct (IH _ _ Hwf1 Hrun) as [? Hs']. split; [done|by etrans].
Qed.

(** Operations that keep the block and its invariant. *)
Definition keeps (it : Iter) (r : res Iter) : Prop :=
  terminates r ∧ ∀ it', r = Ok it' → wf_iter it' ∧ same_block it it'.

Lemma keeps_bind it (r : res Iter) (f : Iter → res Iter) : keeps it r →
  (∀ it', wf_iter it' → same_block it it' → keeps it' (f it')) → keeps it (r ≫= f).
Proof.
  intros [Ht Hk] Hf. split.
  - apply terminates_bind; [done|]. intros it' E. destruct (Hk it' E). by apply Hf.
  - intros it2 (it1 & E & E2)%bind_Ok. destruct (Hk it1 E) as [Hwf Hs].
    destruct (Hf it1 Hwf Hs) as [_ Hk2]. destruct (Hk2 it2 E2). split; [done|by etrans].
Qed.

Lemma keeps_mret it it' : wf_iter it' → same_block it it' → keeps it (mret it').
Proof. intros Hwf Hs. split; [apply terminates_Ok|]. intros it1 E. ret_eq. by split. Qed.

Lemma keeps_skip it bound : wf_iter it → keeps it (skip_loop (loop_fuel it) bound it).
Proof.
  intros Hwf. split; [|intros it' Hrun; by eapply skip_loop_wf].
  apply skip_loop_terminates; [done|]. pose proof Hwf as [[] _ _ _]. unfold loop_fuel.
  assert (0 ≤ next_of it); [|lia]. unfold next_of. destruct (value_ it) as [[p m]|]; [apply u32_range|done].
Qed.

Lemma keeps_mark it : wf_iter it → keeps it (mret (mark_invalid it)).
Proof. intros [Hr Hn Hi Hc]. apply keeps_mret; [split; cbn; lia|by unfold same_block]. Qed.

Lemma keeps_corruption it : wf_iter it → keeps it (CorruptionError it).
Proof.
  intros [Hr Hn Hi Hc]. split; [apply terminates_corruption|]. intros it' H1. unfold CorruptionError in H1.
  apply bind_Ok in H1 as (s & _ & H1). ret_eq. split; [split; cbn; lia|by unfold same_block].
Qed.

Lemma keeps_seek_restart it index : wf_iter it → 0 ≤ index → keeps it (SeekToRestartPoint index it).
Proof.
  intros [Hr Hn Hi Hc] Hx. unfold SeekToRestartPoint. split; [auto with terminates|].
  intros it' (offset & Ho & E)%bind_Ok. ret_eq. split; [|by unfold same_block]. split; cbn; try lia.
  unfold GetRestartPoint in Ho. apply bind_Ok in Ho as (u & Ha & _). apply c_assert_Ok in Ha. lia.
Qed.

Lemma keeps_parse it : wf_iter it → keeps it ('(_, it') ← ParseNextKey it; mret it').
Proof.
  intros Hwf. split.
  - apply terminates_bind; [by apply ParseNextKey_terminates|]. intros [b it'] _. apply terminates_Ok.
  - intros it2 ([b it1] & E & E2)%bind_Ok. ret_eq. by destruct (ParseNextKey_wf it b it2 Hwf E) as (? & ? & _).
Qed.

Lemma keeps_assert it b (r : res Iter) : keeps it r → keeps it (_ ← c_assert b; r).
Proof. intros Hr. destruct b; [done|]. by split. Qed.

Lemma prev_restart_terminates fuel it original : ∀ index, 0 ≤ index → (Z.to_nat index < fuel)%nat →
  terminates (prev_restart fuel it original index).
Proof.
  induction fuel as [|fuel IH]; intros index Hi Hf; [lia|]. cbn [prev_restart].
  apply terminates_bind; [apply terminates_restart|]. intros r _. destruct (original <=? r); [|apply terminates_Ok].
  destruct (Z.eqb_spec index 0); [apply terminates_Ok|]. apply IH; lia.
Qed.

Lemma prev_restart_nonneg fuel it original : ∀ index r, 0 ≤ index →
  prev_restart fuel it original index = Ok (Some r) → 0 ≤ r.
Proof.
  induction fuel as [|fuel IH]; intros index r Hi Hrun; [done|]. cbn [prev_restart] in Hrun.
  apply bind_Ok in Hrun as (x & _ & Hrun). destruct (original <=? x); [|by ret_eq].
  destruct (Z.eqb_spec index 0); [by ret_eq|]. apply (IH (index - 1) r); [lia|done].
Qed.

Lemma keeps_Prev it : wf_iter it → keeps it (Prev it).
Proof.
  intros Hwf. pose proof Hwf as [Hr Hn Hi Hc]. unfold Prev. apply keeps_assert.
  pose proof (prev_restart_terminates (S (Z.to_nat (restart_index_ it))) it (current_ it) (restart_index_ it)) as Ht.
  destruct (prev_restart _ _ _ _) as [[r|]|e] eqn:E; cbn [mbind res_bind]; [|by apply keeps_mark|].
  - apply keeps_bind; [apply keeps_seek_restart; [done|]; apply prev_restart_nonneg in E; lia|].
    intros it' Hwf' _. by apply keeps_skip.
  - split; [|done]. intros [= ->]. apply Ht; lia || done.
Qed.

Section compared.
Context {C : Comparator} (Hcmp : ∀ a b, terminates (Compare a b)).

Lemma search_loop_terminates fuel it target : ∀ l r, 0 ≤ l → 0 ≤ r < 2^31 → (Z.to_nat (r - l) < fuel)%nat →
  terminates (search_loop fuel it target l r).
Proof using Hcmp.
  induction fuel as [|fuel IH]; intros l r Hl Hr Hf; [lia|]. cbn [search_loop].
  destruct (Z.ltb_spec l r) as [Hlt|]; [|apply terminates_Ok]. rewrite u32_small by lia.
  assert (l < (l + r + 1) / 2 ≤ r) as Hm.
  { split; [apply Z.le_succ_l, Z.div_le_lower_bound; lia|]. apply Z.lt_succ_r, Z.div_lt_upper_bound; lia. }
  apply terminates_bind; [apply terminates_restart|]. intros x _.
  apply terminates_bind; [apply terminates_decode|]. intros e _.
  destruct e as [[[[[| |] ns] vl] q]|]; try apply terminates_Ok.
  apply terminates_bind; [apply terminates_read|]. intros mid_key _.
  apply terminates_bind; [apply Hcmp|]. intros d _. destruct (d <? 0); apply IH; lia.
Qed.

Lemma search_loop_nonneg fuel it target : ∀ l r x, 0 ≤ l → search_loop fuel it target l r = Ok (Some x) →
  0 ≤ r < 2^31 → 0 ≤ x.
Proof using.
  induction fuel as [|fuel IH]; intros l r x Hl Hrun Hr; [done|]. cbn [search_loop] in Hrun.
  destruct (Z.ltb_spec l r) as [Hlt|]; [|by ret_eq]. rewrite u32_small in Hrun by lia.
  assert (l < (l + r + 1) / 2 ≤ r) as Hm.
  { split; [apply Z.le_succ_l, Z.div_le_lower_bound; lia|]. apply Z.lt_succ_r, Z.div_lt_upper_bound; lia. }
  apply bind_Ok in Hrun as (y & _ & Hrun). apply bind_Ok in Hrun as (e & _ & Hrun).
  destruct e as [[[[[| |] ns] vl] q]|]; try done.
  apply bind_Ok in Hrun as (k & _ & Hrun). apply bind_Ok in Hrun as (d & _ & Hrun).
  destruct (d <? 0); (apply IH in Hrun; [done|lia|lia]).
Qed.

Lemma linear_loop_keeps target fuel : ∀ it, wf_iter it → (Z.to_nat (it_restarts it - next_of it) < fuel)%nat →
  keeps it (linear_loop fuel target it).
Proof using Hcmp.
  induction fuel as [|fuel IH]; intros it Hwf Hf; [lia|]. cbn [linear_loop].
  pose proof (ParseNextKey_terminates it Hwf) as Ht. destruct (ParseNextKey it) as [[b it1]|e] eqn:E.
  2: { split; [|done]. intros [= ->]. by apply Ht. }
  destruct (ParseNextKey_wf it b it1 Hwf E) as (Hwf1 & Hs & Hprog). cbn [mbind res_bind].
  destruct b; [|by apply keeps_mret]. specialize (Hprog eq_refl).
  assert (∀ d, keeps it (if 0 <=? d then mret it1 else linear_loop fuel target it1)) as Hd.
  { intros d. destruct (0 <=? d); [by apply keeps_mret|]. pose proof Hs as (_ & Hr & _).
    destruct (IH it1 Hwf1 ltac:(lia)) as [Ht1 Hk1]. split; [done|]. intros it' E'. destruct (Hk1 it' E').
    split; [done|by etrans]. }
  pose proof (Hcmp (key_ it1) target) as Hc. destruct (Compare _ _) as [d|e]; [apply Hd|].
  split; [|done]. intros [= ->]. by apply Hc.
Qed.

Lemma keeps_Seek target it : wf_iter it → keeps it (Seek target it).
Proof using Hcmp.
  intros Hwf. pose proof Hwf as [Hr Hn Hi Hc]. unfold Seek. rewrite u32_small by lia.
  pose proof (search_loop_terminates (S (Z.to_nat (it_num it))) it target 0 (it_num it - 1)) as Ht.
  destruct (search_loop _ _ _ _ _) as [[r|]|e] eqn:E; cbn [mbind res_bind]; [|by apply keeps_corruption|].
  - apply keeps_bind; [apply keeps_seek_restart; [done|]; apply search_loop_nonneg in E; lia|].
    intros it' Hwf' _. apply linear_loop_keeps; [done|]. pose proof Hwf' as [[] _ _ _]. unfold loop_fuel.
    assert (0 ≤ next_of it'); [|lia]. unfold next_of. destruct (value_ it') as [[p m]|]; [apply u32_range|done].
  - split; [|done]. intros [= ->]. apply Ht; lia || done.
Qed.

(** ** Sequences of operations *)

Inductive iter_op := OpSeekToFirst | OpSeekToLast | OpSeek (target : list byte) | OpNext | OpPrev.

Definition run_op (op : iter_op) (it : Iter) : res Iter :=
  match op with
  | OpSeekToFirst => SeekToFirst it
  | OpSeekToLast => SeekToLast it
  | OpSeek target => Seek target it
  | OpNext => Next it
  | OpPrev => Prev it
  end.

Fixpoint run_ops (ops : list iter_op) (it : Iter) : res Iter :=
  match ops with [] => mret it | op :: ops => it ← run_op op it; run_ops ops it end.

Lemma run_op_keeps op it : wf_iter it → keeps it (run_op op it).
Proof using Hcmp.
  intros Hwf. pose proof Hwf as [Hr Hn Hi Hc]. destruct op; simpl.
  - unfold SeekToFirst. apply keeps_bind; [by apply keeps_seek_restart|]. intros it' Hwf' _. by apply keeps_parse.
  - unfold SeekToLast. rewrite u32_small by lia. apply keeps_bind; [apply keeps_seek_restart; [done|lia]|].
    intros it' Hwf' _. by apply keeps_skip.
  - by apply keeps_Seek.
  - unfold Next. apply keeps_assert. by apply keeps_parse.
  - by apply keeps_Prev.
Qed.

Lemma run_ops_keeps ops : ∀ it, wf_iter it → keeps it (run_ops ops it).
Proof using Hcmp.
  induction ops as [|op ops IH]; intros it Hwf; simpl; [by apply keeps_mret|].
  apply keeps_bind; [by apply run_op_keeps|]. intros it' Hwf' _. by apply IH.
Qed.
End compared.

(** Opening a block always succeeds. *)
Lemma open_block contents : zlen contents < 2^32 → ∃ b r, new_Block contents = Ok b ∧ NewIterator b = Ok r
  ∧ ∀ it, r = BlockIterator it → wf_iter it.
Proof.
  intros Hsize. assert (∀ n, 4 ≤ n → n = zlen contents → ∃ x, NumRestarts contents n = Ok x ∧ 0 ≤ x < 2^32) as Hnum.
  { intros n Hn ->. unfold NumRestarts, DecodeFixed32. rewrite c_assert_true by lia. cbn [mbind res_bind].
    rewrite read_bytes_Ok by (rewrite ?length_drop; lia). cbn [mbind res_bind]. eexists. split; [done|].
    set (w := slice _ _ _). assert (zlen w = 4) as Hw by (apply length_slice; rewrite ?length_drop; lia).
    pose proof (le_val_range w) as Hr. rewrite Hw in Hr. exact Hr. }
  assert (∃ s, Corruption (str "bad block contents") [] = Ok s) as [s Hs] by (by eexists; vm_compute).
  unfold new_Block. destruct (Z.ltb_spec (zlen contents) 4) as [|H4].
  { do 2 eexists. split; [done|]. unfold NewIterator. cbn [size_ Z.ltb Z.compare]. rewrite Hs. cbn [mbind res_bind].
    split; [done|]. intros it. discriminate. }
  destruct (Hnum _ H4 eq_refl) as (x & Ex & Hx). rewrite Ex. cbn [mbind res_bind].
  destruct (Z.ltb_spec ((zlen contents - 4) / 4) x) as [|Hle].
  { do 2 eexists. split; [done|]. unfold NewIterator. cbn [size_ Z.ltb Z.compare]. rewrite Hs. cbn [mbind res_bind].
    split; [done|]. intros it. discriminate. }
  assert (4 * x ≤ zlen contents - 4) as Hfit.
  { pose proof (Z.mul_div_le (zlen contents - 4) 4). lia. }
  rewrite (u32_small (1 + x)), u32_small by lia. eexists.
  unfold NewIterator, new_Iter. destruct (Z.eqb_spec x 0) as [->|Hne].
  - exists EmptyIterator. split; [done|]. cbn [size_ blk_data]. replace (_ <? 4) with false by lia.
    rewrite Ex. cbn [mbind res_bind]. split; [done|]. intros it. discriminate.
  - eexists. split; [done|]. cbn [size_ blk_data restart_offset_]. replace (_ <? 4) with false by lia.
    rewrite Ex. cbn [mbind res_bind]. replace (x =? 0) with false by lia.
    rewrite c_assert_true by lia. cbn [mbind res_bind]. split; [done|]. intros it [= <-]. split; cbn; lia.
Qed.

(** ** Properties *)

(** Claim C33. Reading an arbitrary block terminates: whatever the contents (up to 4GB, corrupt
    or not), opening the block and making its iterator succeed, and every sequence of
    [SeekToFirst], [SeekToLast], [Seek], [Next] and [Prev] on it ends, although the offsets the
    loops follow come from the contents, provided the comparator does. *)
Theorem block_terminates (C : Comparator) contents ops
  (Hcmp : ∀ a b, terminates (Compare a b)) (Hsize : zlen contents < 2^32) :
  ∃ b r, new_Block contents = Ok b ∧ NewIterator b = Ok r
    ∧ ∀ it, r = BlockIterator it → terminates (run_ops ops it).
Proof.
  destruct (open_block contents Hsize) as (b & r & Hb & Hr & Hwf). exists b, r. split; [done|]. split; [done|].
  intros it E. by apply run_ops_keeps, Hwf.
Qed.

Lemma block_terminates_witness :
  ∃ b r, new_Block [x00; x07; x01; x61; x62; x00; x00; x00; x00; x01; x00; x00; x00] = Ok b ∧ NewIterator b = Ok r
    ∧ ∀ it, r = BlockIterator it → terminates (@run_ops BytewiseComparator [OpSeekToFirst; OpSeek [x61]; OpPrev] it).
Proof.
  apply (block_terminates BytewiseComparator
    [x00; x07; x01; x61; x62; x00; x00; x00; x00; x01; x00; x00; x00] [OpSeekToFirst; OpSeek [x61]; OpPrev]).
  - intros a b. cbn [Compare BytewiseComparator]. unfold Slice_compare, memcmp.
    apply terminates_bind; [|intros; apply terminates_Ok].
    apply terminates_bind; [apply terminates_defined|intros; apply terminates_Ok].
  - reflexivity.
Defined.

(** A block of one entry whose lengths are 0, 2{^32} - 1 and 1. *)
Definition overflow_block : list byte :=
  [x00; xff; xff; xff; xff; x0f; x01; x61; x00; x00; x00; x00; x01; x00; x00; x00].

(** The check of lengths against the end of the block adds them in 32 bits: a corrupt
    entry whose lengths wrap around passes it, and reading the first entry appends 4GB from
    outside of the block to the key, where any smaller excess is reported as corruption. *)
Theorem block_length_overflow :
  (∃ b it, new_Block overflow_block = Ok b ∧ NewIterator b = Ok (BlockIterator it)
     ∧ SeekToFirst it = Err UB)
  ∧ ∃ b it it', new_Block (<[6%nat := x00]> overflow_block) = Ok b ∧ NewIterator b = Ok (BlockIterator it)
     ∧ SeekToFirst it = Ok it' ∧ Valid it' = false ∧ IsCorruption (status it') = Ok true.
Proof.
  split.
  - do 2 eexists. split; [vm_compute; reflexivity|]. split; [vm_compute; reflexivity|]. vm_compute. reflexivity.
  - do 3 eexists. split; [vm_compute; reflexivity|]. split; [vm_compute; reflexivity|]. split; [vm_compute; reflexivity|].
    split; vm_compute; reflexivity.
Qed.
