(* ===== verification/Env.v ===== *)
(** * Files of the environment: leveldb include/leveldb/env.h

    The interfaces of sequential and writable files, what their documentation promises, and an
    implementation in memory. The operations return the status and the new state of the file. *)
From S2P Require Import Prelude Buffers CLib Status.

Class SequentialFile (F : Type) := {
  sf_Read : Z → F → Status * list byte * F;
  sf_Skip : Z → F → Status * F }.

Class WritableFile (W : Type) := {
  wf_Append : list byte → W → Status * W;
  wf_Close : W → Status * W;
  wf_Flush : W → Status * W;
  wf_Sync : W → Status * W }.

(** A file without errors: [Read] is short at the end of the file only. *)
Class SequentialFileSpec (F : Type) `{SequentialFile F} := {
  sf_rest : F → list byte;
  Read_spec n f : ∃ f', sf_Read n f = (OK, take (Z.to_nat n) (sf_rest f), f')
    ∧ sf_rest f' = drop (Z.to_nat n) (sf_rest f);
  Skip_spec n f : ∃ f', sf_Skip n f = (OK, f') ∧ sf_rest f' = drop (Z.to_nat n) (sf_rest f) }.

Class WritableFileSpec (W : Type) `{WritableFile W} := {
  wf_contents : W → list byte;
  Append_spec bs w : ∃ w', wf_Append bs w = (OK, w') ∧ wf_contents w' = wf_contents w ++ bs;
  Close_spec w : ∃ w', wf_Close w = (OK, w') ∧ wf_contents w' = wf_contents w;
  Flush_spec w : ∃ w', wf_Flush w = (OK, w') ∧ wf_contents w' = wf_contents w;
  Sync_spec w : ∃ w', wf_Sync w = (OK, w') ∧ wf_contents w' = wf_contents w }.

(** In memory: what is left to read, what was written. *)
Record mem_reader := MemReader { mem_rest : list byte }.
Record mem_writer := MemWriter { mem_contents : list byte }.

#[export] Instance mem_sequential : SequentialFile mem_reader := {
  sf_Read := λ n f, (OK, take (Z.to_nat n) (mem_rest f), MemReader (drop (Z.to_nat n) (mem_rest f)));
  sf_Skip := λ n f, (OK, MemReader (drop (Z.to_nat n) (mem_rest f))) }.

#[export] Instance mem_writable : WritableFile mem_writer := {
  wf_Append := λ bs w, (OK, MemWriter (mem_contents w ++ bs));
  wf_Close := λ w, (OK, w); wf_Flush := λ w, (OK, w); wf_Sync := λ w, (OK, w) }.

#[export] Instance mem_sequential_spec : SequentialFileSpec mem_reader.
Proof. refine {| sf_rest := mem_rest |}; intros; by eexists. Defined.

#[export] Instance mem_writable_spec : WritableFileSpec mem_writer.
Proof. refine {| wf_contents := mem_contents |}; intros; by eexists. Defined.
