(* ===== verification/LogFile.v ===== *)
(** * Log files: leveldb db/log_format.h, log_writer.cc, log_reader.cc

    A log is a sequence of 32KB blocks of physical records; a record that does not fit in what
    is left of a block is split into fragments. The writer and the reader, over the interfaces
    of files. *)
From Stdlib Require Import Strings.String.
From S2P Require Import Prelude Buffers CLib Coding Crc32c Comparator Status Env.

#[local] Open Scope Z_scope.
#[local] Open Scope list_scope.

Definition kZeroType : Z := 0.
Definition kFullType : Z := 1.
Definition kFirstType : Z := 2.
Definition kMiddleType : Z := 3.
Definition kLastType : Z := 4.
Definition kMaxRecordType : Z := kLastType.
Definition kBlockSize : Z := 32768.
Definition kHeaderSize : Z := 4 + 1 + 2.

Section log.
(** The address of a buffer, which [Extend] aligns on. *)
Context (addr : list byte → Z).

(** ** Writer *)

Section writer.
Context {W : Type} `{WritableFile W}.

Record Writer := MkWriter { dest_ : W; block_offset_ : Z; type_crc_ : list Z }.

Fixpoint type_crcs (types : list Z) : res (list Z) :=
  match types with
  | [] => mret []
  | i :: types => c ← Value (addr [zb i]) [zb i]; cs ← type_crcs types; mret (c :: cs)
  end.

Definition new_Writer (dest : W) : res Writer :=
  cs ← type_crcs (seqZ 0 (kMaxRecordType + 1)); mret (MkWriter dest 0 cs).

Definition EmitPhysicalRecord (t : Z) (ptr : list byte) (n : Z) (w : Writer) : res (Status * Writer) :=
  _ ← c_assert (n <=? 0xffff);
  _ ← c_assert (u64 (block_offset_ w + kHeaderSize + n) <=? kBlockSize);
  type_crc ← of_option (type_crc_ w !! Z.to_nat t);
  payload ← read_bytes ptr 0 n;
  crc ← Extend type_crc (addr payload) payload;
  let crc := Mask crc in
  let buf := EncodeFixed32 crc ++ [zb (Z.land n 0xff); zb (Z.shiftr n 8); zb t] in
  let '(s, dest) := wf_Append buf (dest_ w) in
  let '(s, dest) :=
    if ok s then
      let '(s, dest) := wf_Append payload dest in
      if ok s then wf_Flush dest else (s, dest)
    else (s, dest) in
  mret (s, MkWriter dest (to_int (block_offset_ w + kHeaderSize + n)) (type_crc_ w)).

(** [ptr] is what is left of the record. *)
Fixpoint add_loop (fuel : nat) (begin : bool) (ptr : list byte) (w : Writer) : res (Status * Writer) :=
  match fuel with
  | O => Err Diverge
  | S fuel =>
      let left := zlen ptr in
      let leftover := kBlockSize - block_offset_ w in
      _ ← c_assert (0 <=? leftover);
      w ← (if leftover <? kHeaderSize then
             dest ← (if 0 <? leftover then
                       zeros ← read_bytes (replicate 7 x00) 0 leftover;
                       mret (wf_Append zeros (dest_ w)).2
                     else mret (dest_ w));
             mret (MkWriter dest 0 (type_crc_ w))
           else mret w);
      _ ← c_assert (0 <=? kBlockSize - block_offset_ w - kHeaderSize);
      let avail := kBlockSize - block_offset_ w - kHeaderSize in
      let fragment_length := if left <? avail then left else avail in
      let last := left =? fragment_length in
      let type := if begin && last then kFullType else if begin then kFirstType
                  else if last then kLastType else kMiddleType in
      '(s, w) ← EmitPhysicalRecord type ptr fragment_length w;
      let ptr := drop (Z.to_nat fragment_length) ptr in
      if ok s && (0 <? zlen ptr) then add_loop fuel false ptr w else mret (s, w)
  end.

(** A block with no room for data takes one round, any other stores a byte. *)
Definition AddRecord (slice : list byte) (w : Writer) : res (Status * Writer) :=
  add_loop (2 + 2 * length slice) true slice w.
End writer.

(** ** Reader *)

Section reader.
Context {F : Type} `{SequentialFile F}.

(** [reports]: the calls of [reporter_->Corruption], where there is a reporter. *)
Record Reader := MkReader {
  file_ : F; reporter_ : bool; reports : list (Z * Status); checksum_ : bool; buffer_ : list byte;
  eof_ : bool; last_record_offset_ : Z; end_of_buffer_offset_ : Z; initial_offset_ : Z }.

Definition kEof : Z := kMaxRecordType + 1.
Definition kBadRecord : Z := kMaxRecordType + 2.

Definition new_Reader (file : F) (reporter checksum : bool) (initial_offset : Z) : Reader :=
  MkReader file reporter [] checksum [] false 0 0 initial_offset.

Definition set_buffer (buffer : list byte) (r : Reader) : Reader :=
  MkReader (file_ r) (reporter_ r) (reports r) (checksum_ r) buffer (eof_ r) (last_record_offset_ r)
    (end_of_buffer_offset_ r) (initial_offset_ r).
Definition set_last_record_offset (o : Z) (r : Reader) : Reader :=
  MkReader (file_ r) (reporter_ r) (reports r) (checksum_ r) (buffer_ r) (eof_ r) o
    (end_of_buffer_offset_ r) (initial_offset_ r).

Definition LastRecordOffset (r : Reader) : Z := last_record_offset_ r.

Definition ReportDrop (bytes : Z) (reason : Status) (r : Reader) : Reader :=
  if reporter_ r && (initial_offset_ r <=? u64 (end_of_buffer_offset_ r - zlen (buffer_ r) - bytes)) then
    MkReader (file_ r) (reporter_ r) (reports r ++ [(bytes, reason)]) (checksum_ r) (buffer_ r) (eof_ r)
      (last_record_offset_ r) (end_of_buffer_offset_ r) (initial_offset_ r)
  else r.

Definition ReportCorruption (bytes : Z) (reason : list byte) (r : Reader) : res Reader :=
  s ← Corruption reason []; mret (ReportDrop bytes s r).

Definition SkipToInitialBlock (r : Reader) : res (bool * Reader) :=
  let offset_in_block := initial_offset_ r mod kBlockSize in
  let block_start_location := u64 (initial_offset_ r - offset_in_block) in
  let block_start_location :=
    if kBlockSize - 6 <? offset_in_block then u64 (block_start_location + kBlockSize) else block_start_location in
  let r := MkReader (file_ r) (reporter_ r) (reports r) (checksum_ r) (buffer_ r) (eof_ r)
    (last_record_offset_ r) block_start_location (initial_offset_ r) in
  if 0 <? block_start_location then
    let '(skip_status, file) := sf_Skip block_start_location (file_ r) in
    let r := MkReader file (reporter_ r) (reports r) (checksum_ r) (buffer_ r) (eof_ r)
      (last_record_offset_ r) (end_of_buffer_offset_ r) (initial_offset_ r) in
    if ok skip_status then mret (true, r) else mret (false, ReportDrop block_start_location skip_status r)
  else mret (true, r).

(** The next block of the file in [buffer_]; false on an error of the file. *)
Definition read_block (r : Reader) : bool * Reader :=
  let '(status, buffer, file) := sf_Read kBlockSize (file_ r) in
  let e := u64 (end_of_buffer_offset_ r + zlen buffer) in
  if ok status then
    (true, MkReader file (reporter_ r) (reports r) (checksum_ r) buffer (zlen buffer <? kBlockSize)
       (last_record_offset_ r) e (initial_offset_ r))
  else
    let r := ReportDrop kBlockSize status (MkReader file (reporter_ r) (reports r) (checksum_ r) [] (eof_ r)
       (last_record_offset_ r) e (initial_offset_ r)) in
    (false, MkReader (file_ r) (reporter_ r) (reports r) (checksum_ r) [] true
       (last_record_offset_ r) (end_of_buffer_offset_ r) (initial_offset_ r)).

(** From the header in [buffer_] on: the type, the fragment and the reader after it. *)
Definition parse_record (result : list byte) (r : Reader) : res (Z * list byte * Reader) :=
  let header := buffer_ r in
  h4 ← get8 header 4; h5 ← get8 header 5; h6 ← get8 header 6;
  let type := u32 (sz h6) in
  let length := Z.lor (bz h4) (Z.shiftl (bz h5) 8) in
  let drop_buffer reason :=
    r ← ReportCorruption (zlen (buffer_ r)) reason (set_buffer [] r); mret (kBadRecord, result, r) in
  if zlen (buffer_ r) <? kHeaderSize + length then drop_buffer (str "bad record length")
  else if (type =? kZeroType) && (length =? 0) then mret (kBadRecord, result, set_buffer [] r)
  else
    good ← (if checksum_ r then
              stored ← DecodeFixed32 header;
              let expected_crc := Unmask stored in
              data ← read_bytes header 6 (1 + length);
              actual_crc ← Value (addr data) data;
              mret (actual_crc =? expected_crc)
            else mret true);
    if negb good then drop_buffer (str "checksum mismatch")
    else
      buffer ← remove_prefix (kHeaderSize + length) (buffer_ r);
      let r := set_buffer buffer r in
      if u64 (end_of_buffer_offset_ r - zlen (buffer_ r) - kHeaderSize - length) <? initial_offset_ r then
        mret (kBadRecord, [], r)
      else
        result ← read_bytes header kHeaderSize length;
        mret (type, result, r).

(** [result] is the slice passed in, left alone on some errors. *)
Fixpoint physical_loop (fuel : nat) (result : list byte) (r : Reader) : res (Z * list byte * Reader) :=
  match fuel with
  | O => Err Diverge
  | S fuel =>
      if zlen (buffer_ r) <? kHeaderSize then
        if negb (eof_ r) then
          let '(fine, r) := read_block (set_buffer [] r) in
          if fine : bool then physical_loop fuel result r else mret (kEof, result, r)
        else if zlen (buffer_ r) =? 0 then mret (kEof, result, r)
        else
          r ← ReportCorruption (zlen (buffer_ r)) (str "truncated record at end of file") (set_buffer [] r);
          mret (kEof, result, r)
      else parse_record result r
  end.

(** After reading a block, the buffer has a header or the file has ended. *)
Definition ReadPhysicalRecord (result : list byte) (r : Reader) : res (Z * list byte * Reader) :=
  physical_loop 3 result r.

(** The loop of [ReadRecord]: [frag] is [in_fragmented_record], [prospective]
    [prospective_record_offset]. Returns the record, if any. *)
Fixpoint record_loop (fuel : nat) (fragment scratch : list byte) (frag : bool) (prospective : Z) (r : Reader)
    : res (option (list byte) * Reader) :=
  match fuel with
  | O => Err Diverge
  | S fuel =>
      let physical_record_offset := u64 (end_of_buffer_offset_ r - zlen (buffer_ r)) in
      '(record_type, fragment, r) ← ReadPhysicalRecord fragment r;
      let partial reason r :=
        if frag && negb (zlen scratch =? 0) then ReportCorruption (zlen scratch) reason r else mret r in
      if record_type =? kFullType then
        r ← partial (str "partial record without end(1)") r;
        mret (Some fragment, set_last_record_offset physical_record_offset r)
      else if record_type =? kFirstType then
        r ← partial (str "partial record without end(2)") r;
        record_loop fuel fragment fragment true physical_record_offset r
      else if record_type =? kMiddleType then
        if negb frag then
          r ← ReportCorruption (zlen fragment) (str "missing start of fragmented record(1)") r;
          record_loop fuel fragment scratch frag prospective r
        else record_loop fuel fragment (scratch ++ fragment) frag prospective r
      else if record_type =? kLastType then
        if negb frag then
          r ← ReportCorruption (zlen fragment) (str "missing start of fragmented record(2)") r;
          record_loop fuel fragment scratch frag prospective r
        else mret (Some (scratch ++ fragment), set_last_record_offset prospective r)
      else if record_type =? kEof then
        r ← (if frag then ReportCorruption (zlen scratch) (str "partial record without end(3)") r else mret r);
        mret (None, r)
      else if record_type =? kBadRecord then
        if frag then
          r ← ReportCorruption (zlen scratch) (str "error in middle of record") r;
          record_loop fuel fragment [] false prospective r
        else record_loop fuel fragment scratch frag prospective r
      else
        r ← ReportCorruption (zlen fragment + (if frag then zlen scratch else 0))
              (str "unknown record type " ++ dec_of_Z record_type) r;
        record_loop fuel fragment [] false prospective r
  end.

(** [None]: the end of the input. *)
Definition ReadRecord (fuel : nat) (r : Reader) : res (option (list byte) * Reader) :=
  '(fine, r) ← (if last_record_offset_ r <? initial_offset_ r then SkipToInitialBlock r else mret (true, r));
  if fine : bool then record_loop fuel [] [] false 0 r else mret (None, r).
End reader.
Arguments Writer : clear implicits.
Arguments Reader : clear implicits.

(** ** How clients use them *)

(** Records one after the other, while the status is OK. *)
Fixpoint add_records {W} `{WritableFile W} (records : list (list byte)) (w : Writer W) : res (Status * Writer W) :=
  match records with
  | [] => mret (OK, w)
  | rec :: records =>
      '(s, w) ← AddRecord rec w;
      if ok s then add_records records w else mret (s, w)
  end.

(** [while (reader.ReadRecord(&record, &scratch)) ...]. *)
Fixpoint read_records {F} `{SequentialFile F} (fuel : nat) (r : Reader F) : res (list (list byte) * Reader F) :=
  match fuel with
  | O => Err Diverge
  | S fuel' =>
      '(rec, r) ← ReadRecord fuel r;
      match rec with
      | None => mret ([], r)
      | Some rec => '(rest, r) ← read_records fuel' r; mret (rec :: rest, r)
      end
  end.
End log.
Arguments Writer : clear implicits.
Arguments Reader : clear implicits.
