(* ===== verification/LogProps.v ===== *)
(** * What log files guarantee

    The bytes of a log as a list of fragments with padding; the writer appends the fragments of
    a record, the reader consumes them. Records round trip, and a log cut at any byte reads as a
    prefix of its records. *)
From Stdlib Require Import Strings.String.
From S2P Require Import Prelude Buffers CLib Coding Crc32c Comparator Status Env LogFile.

#[local] Open Scope Z_scope.
#[local] Open Scope list_scope.

(** ** The format *)

Definition header_of (t : Z) (p : list byte) : list byte :=
  EncodeFixed32 (Mask (crc32c 0 (zb t :: p))) ++ [zb (Z.land (zlen p) 0xff); zb (Z.shiftr (zlen p) 8); zb t].
Definition phys (t : Z) (p : list byte) : list byte := header_of t p ++ p.

(** At offset [off] of a block: what pads the block, and where the next header goes. *)
Definition pad (off : Z) : list byte :=
  if kBlockSize - off <? kHeaderSize then replicate (Z.to_nat (kBlockSize - off)) x00 else [].
Definition norm (off : Z) : Z := if kBlockSize - off <? kHeaderSize then 0 else off.
Definition after (off : Z) (p : list byte) : Z := norm off + kHeaderSize + zlen p.
Definition chunk (off t : Z) (p : list byte) : list byte := pad off ++ phys t p.

Abbreviation frag := (Z * list byte)%type.

Fixpoint log_bytes (off : Z) (fs : list frag) : list byte :=
  match fs with [] => [] | (t, p) :: fs => chunk off t p ++ log_bytes (after off p) fs end.
Fixpoint log_end (off : Z) (fs : list frag) : Z :=
  match fs with [] => off | (_, p) :: fs => log_end (after off p) fs end.
(** Every fragment fits in its block. *)
Fixpoint frags_ok (off : Z) (fs : list frag) : Prop :=
  match fs with
  | [] => 0 ≤ off ≤ kBlockSize
  | (t, p) :: fs => 0 ≤ off ≤ kBlockSize ∧ 1 ≤ t ≤ 4 ∧ after off p ≤ kBlockSize ∧ frags_ok (after off p) fs
  end.

(** The fragments of a record, or of what is left of one. *)
Inductive fragments : bool → list byte → list frag → Prop :=
  | frag_last begin rec : fragments begin rec [(if begin then kFullType else kLastType, rec)]
  | frag_more (begin : bool) p rest fs : fragments false rest fs →
      fragments begin (p ++ rest) ((if begin then kFirstType else kMiddleType, p) :: fs).

Lemma log_bytes_app off fs gs : log_bytes off (fs ++ gs) = log_bytes off fs ++ log_bytes (log_end off fs) gs.
Proof.
  revert off. induction fs as [|[t p] fs IH]; intros off; simpl; [done|]. by rewrite IH, <-app_assoc.
Qed.

Lemma frags_ok_app off fs gs : frags_ok off fs → frags_ok (log_end off fs) gs → frags_ok off (fs ++ gs).
Proof.
  revert off. induction fs as [|[t p] fs IH]; intros off; simpl; [done|]. intros (? & ? & ? & ?) ?.
  split_and!; auto; lia.
Qed.

Lemma norm_range off : 0 ≤ off ≤ kBlockSize → 0 ≤ norm off ≤ kBlockSize - kHeaderSize.
Proof. unfold norm, kBlockSize, kHeaderSize. intros H. case_match; lia. Qed.

Lemma after_range off p : 0 ≤ off ≤ kBlockSize → 0 ≤ after off p ∧ (after off p ≤ kBlockSize → zlen p ≤ 32761).
Proof.
  intros H. pose proof (norm_range off H). unfold after, kBlockSize, kHeaderSize in *. lia.
Qed.

Lemma header_length t p : zlen (header_of t p) = 7.
Proof. unfold header_of. rewrite length_app, length_EncodeFixed32. done. Qed.

Lemma phys_length t p : zlen (phys t p) = 7 + zlen p.
Proof. unfold phys. rewrite length_app, Nat2Z.inj_add, header_length. done. Qed.

(** The length in the header. *)
Lemma length_bytes n : 0 ≤ n < 65536 →
  Z.lor (bz (zb (Z.land n 0xff))) (Z.shiftl (bz (zb (Z.shiftr n 8))) 8) = n.
Proof.
  intros Hn. change 0xff with (Z.ones 8). rewrite Z.land_ones, Z.shiftr_div_pow2 by lia. change (2^8) with 256.
  pose proof (Z.div_mod n 256). pose proof (Z.mod_pos_bound n 256).
  assert (0 ≤ n / 256 < 256) by (split; [apply Z.div_pos; lia|apply Z.div_lt_upper_bound; lia]).
  rewrite !bz_zb_small by lia. rewrite lor_shiftl_add by (change (2^8) with 256; lia). change (2^8) with 256. lia.
Qed.

Section log.
Context (addr : list byte → Z) (Haddr : ∀ bs, zlen bs ≤ kBlockSize → 0 ≤ addr bs < 2^63).

(** ** The writer *)

Section writer.
Context {W : Type} `{WritableFileSpec W}.

Definition writer_ok (w : Writer W) : Prop :=
  type_crc_ w = map (λ i, crc32c 0 [zb i]) (seqZ 0 (kMaxRecordType + 1)) ∧ 0 ≤ block_offset_ w ≤ kBlockSize.

Lemma Extend_addr crc bs : word crc → zlen bs ≤ kBlockSize → Extend crc (addr bs) bs = Ok (crc32c crc bs).
Proof using Haddr.
  intros Hc Hl. pose proof (Haddr bs Hl). apply Extend_Ok; [done|]. unfold kBlockSize in *. lia.
Qed.

Lemma word_0 : word 0.
Proof using. clear. by unfold word. Qed.

Lemma type_crcs_Ok types : type_crcs addr types = Ok (map (λ i, crc32c 0 [zb i]) types).
Proof using Haddr.
  induction types as [|i types IH]; [done|]. cbn [type_crcs]. unfold Value.
  rewrite Extend_addr by (apply word_0 || (simpl; unfold kBlockSize; lia)). cbn [mbind res_bind]. by rewrite IH.
Qed.

Lemma new_Writer_Ok dest : ∃ w, new_Writer addr dest = Ok w ∧ writer_ok w ∧ dest_ w = dest ∧ block_offset_ w = 0.
Proof using Haddr.
  unfold new_Writer. rewrite type_crcs_Ok. cbn [mbind res_bind]. eexists. split; [done|].
  split; [|done]. split; [done|]. cbn. unfold kBlockSize. lia.
Qed.

Lemma Emit_Ok t p rest w : writer_ok w → 1 ≤ t ≤ 4 → norm (block_offset_ w) = block_offset_ w →
  after (block_offset_ w) p ≤ kBlockSize →
  ∃ w', EmitPhysicalRecord addr t (p ++ rest) (zlen p) w = Ok (OK, w') ∧ writer_ok w'
    ∧ wf_contents (dest_ w') = wf_contents (dest_ w) ++ phys t p ∧ block_offset_ w' = after (block_offset_ w) p.
Proof using Haddr.
  intros [Hcrc Hoff] Ht Hn Hfit. unfold EmitPhysicalRecord. pose proof (after_range _ p Hoff) as [Hr Hp].
  unfold after in Hfit, Hp, Hr. rewrite Hn in Hfit, Hp, Hr. specialize (Hp Hfit). unfold kHeaderSize, kBlockSize in *.
  rewrite u64_small, !c_assert_true by lia. cbn [mbind res_bind].
  assert (type_crc_ w !! Z.to_nat t = Some (crc32c 0 [zb t])) as ->.
  { rewrite Hcrc, list_lookup_fmap. rewrite (lookup_seqZ_lt 0) by (unfold kMaxRecordType, kLastType; lia). simpl.
    by replace (0 + Z.of_nat (Z.to_nat t)) with t by lia. }
  cbn [of_option mbind res_bind]. rewrite read_bytes_Ok by (rewrite ?length_app; lia). cbn [mbind res_bind].
  assert (slice 0 (zlen p) (p ++ rest) = p) as -> by (by apply slice_prefix).
  rewrite Extend_addr by (apply crc32c_word, word_0 || (unfold kBlockSize; lia)). cbn [mbind res_bind].
  rewrite crc32c_app. change ([zb t] ++ p) with (zb t :: p).
  fold (header_of t p). destruct (Append_spec (header_of t p) (dest_ w)) as (d1 & -> & E1). change (ok OK) with true.
  cbv iota. destruct (Append_spec p d1) as (d2 & -> & E2). change (ok OK) with true.
  cbv iota. destruct (Flush_spec d2) as (d3 & -> & E3).
  eexists. split; [done|]. cbn [dest_ block_offset_ type_crc_]. rewrite to_int_small by (unfold int_min, int_max; lia).
  split; [split; [done|unfold kBlockSize; cbn; lia]|]. split; [|unfold after; rewrite Hn; done].
  unfold phys. rewrite E3, E2, E1. by rewrite <-app_assoc.
Qed.

(** A trailer too short for a header is filled up. *)
Lemma trailer_Ok w : writer_ok w →
  ∃ w1, (if kBlockSize - block_offset_ w <? kHeaderSize then
           dest ← (if 0 <? kBlockSize - block_offset_ w then zeros ← read_bytes (replicate 7 x00) 0 (kBlockSize - block_offset_ w); mret (wf_Append zeros (dest_ w)).2
                   else mret (dest_ w));
           mret (MkWriter dest 0 (type_crc_ w))
         else mret w) = Ok w1 ∧ writer_ok w1 ∧ wf_contents (dest_ w1) = wf_contents (dest_ w) ++ pad (block_offset_ w) ∧ block_offset_ w1 = norm (block_offset_ w).
Proof using.
  intros [Hcrc Hoff]. unfold pad, norm. destruct (Z.ltb_spec (kBlockSize - block_offset_ w) kHeaderSize) as [Hlt|].
  - unfold kHeaderSize in *. destruct (Z.ltb_spec 0 (kBlockSize - block_offset_ w)).
    + rewrite read_bytes_Ok by (rewrite ?length_replicate; lia). cbn [mbind res_bind].
      destruct (Append_spec (slice 0 (kBlockSize - block_offset_ w) (replicate 7 x00)) (dest_ w)) as (d & -> & E).
      eexists. split; [done|]. split; [split; [done|unfold kBlockSize; cbn; lia]|]. split; [|done].
      cbn [dest_ snd]. rewrite E. f_equal. unfold slice. rewrite drop_0, take_replicate. f_equal. lia.
    + cbn [mbind res_bind]. eexists. split; [done|]. split; [split; [done|unfold kBlockSize; cbn; lia]|].
      split; [|done]. replace (Z.to_nat _) with 0%nat by lia. simpl. by rewrite app_nil_r.
  - exists w. rewrite app_nil_r. done.
Qed.

Lemma add_loop_Ok fuel : ∀ begin ptr w, writer_ok w →
  (2 * length ptr + (if decide (norm (block_offset_ w) = kBlockSize - kHeaderSize)%Z then 2 else 1) ≤ fuel)%nat →
  ∃ w' fs, add_loop addr fuel begin ptr w = Ok (OK, w') ∧ writer_ok w' ∧ fragments begin ptr fs
    ∧ frags_ok (block_offset_ w) fs
    ∧ wf_contents (dest_ w') = wf_contents (dest_ w) ++ log_bytes (block_offset_ w) fs
    ∧ block_offset_ w' = log_end (block_offset_ w) fs.
Proof using Haddr.
  induction fuel as [|fuel IH]; intros begin ptr w Hw Hf; [case_decide; lia|]. cbn [add_loop].
  pose proof Hw as [Hcrc Hoff]. pose proof (norm_range _ Hoff) as Hn.
  rewrite c_assert_true by lia. cbn [mbind res_bind].
  destruct (trailer_Ok w Hw) as (w1 & -> & Hw1 & Ed1 & Eo1).
  cbn [mbind res_bind]. rewrite Eo1. rewrite c_assert_true by lia. cbn [mbind res_bind].
  set (avail := kBlockSize - norm (block_offset_ w) - kHeaderSize).
  set (len := if zlen ptr <? avail then zlen ptr else avail).
  assert (0 ≤ len ≤ zlen ptr ∧ len ≤ avail ∧ (len = zlen ptr ∨ len = avail)) as (Hlen & Hav & Hcase).
  { unfold len. destruct (Z.ltb_spec (zlen ptr) avail); unfold avail in *; lia. }
  assert (∃ p rest, ptr = p ++ rest ∧ zlen p = len) as (p & rest & -> & Hp).
  { exists (take (Z.to_nat len) ptr), (drop (Z.to_nat len) ptr). rewrite take_drop, length_take. split; [done|lia]. }
  clearbody len. subst len.
  assert (norm (norm (block_offset_ w)) = norm (block_offset_ w)) as Hnn.
  { unfold norm at 1. destruct (Z.ltb_spec (kBlockSize - norm (block_offset_ w)) kHeaderSize); [lia|done]. }
  set (t := if _ && _ then kFullType else _).
  assert (1 ≤ t ≤ 4) as Ht by (unfold t, kFullType, kFirstType, kLastType, kMiddleType; repeat case_match; lia).
  destruct (Emit_Ok t p rest w1 Hw1 Ht) as (w2 & -> & Hw2 & Ed2 & Eo2).
  { by rewrite Eo1. }
  { unfold after. rewrite Eo1, Hnn. unfold avail in *. lia. }
  cbn [mbind res_bind]. rewrite Nat2Z.id, drop_app_length.
  assert (after (block_offset_ w1) p = after (block_offset_ w) p) as Ea by (unfold after; by rewrite Eo1, Hnn).
  assert (after (block_offset_ w) p ≤ kBlockSize) as Hfit by (unfold after; unfold avail in *; lia).
  pose proof (proj1 (after_range (block_offset_ w) p Hoff)) as Hr.
  change (ok OK) with true. cbn [andb]. rewrite length_app in *.
  destruct (Z.ltb_spec 0 (zlen rest)) as [Hrest|Hrest].
  - assert (t = if begin then kFirstType else kMiddleType) as ->.
    { unfold t. rewrite ?length_app. replace (_ =? zlen p) with false by lia. by destruct begin. }
    destruct (IH false rest w2 Hw2) as (w' & fs & -> & Hw' & Hfr & Hok & Ed & Eo).
    { rewrite Eo2, Ea. unfold after in *. destruct (decide (norm (block_offset_ w) = kBlockSize - kHeaderSize)) as [E|E].
      - assert (zlen p = 0) by (unfold avail in *; lia). rewrite E. replace (kBlockSize - kHeaderSize + kHeaderSize + zlen p) with kBlockSize by lia.
        rewrite decide_False by (unfold norm, kBlockSize, kHeaderSize; simpl; lia). lia.
      - assert (0 < zlen p) by (unfold avail in *; lia). case_decide; lia. }
    exists w', ((if begin then kFirstType else kMiddleType, p) :: fs). split; [done|]. split; [done|].
    split; [by apply frag_more|]. rewrite Eo2, Ea in Hok, Ed, Eo. cbn [frags_ok log_bytes log_end].
    split; [split; [done|]; split; [destruct begin; unfold kFirstType, kMiddleType; lia|done]|].
    split; [|done]. rewrite Ed, Ed2, Ed1. unfold chunk. by rewrite <-!app_assoc.
  - assert (rest = []) as -> by (destruct rest; [done|simpl in Hrest; lia]).
    assert (t = if begin then kFullType else kLastType) as ->.
    { unfold t. rewrite ?length_app. replace (_ =? zlen p) with true by (simpl; lia). by destruct begin. }
    exists w2, [(if begin then kFullType else kLastType, p)]. split; [done|]. split; [done|]. rewrite app_nil_r.
    split; [apply frag_last|]. cbn [frags_ok log_bytes log_end]. rewrite Eo2, Ea.
    split; [split; [done|]; split; [destruct begin; unfold kFullType, kLastType; lia|by split]|].
    split; [|done]. rewrite Ed2, Ed1. unfold chunk. by rewrite app_nil_r, <-app_assoc.
Qed.

(** Each record with its fragments. *)
Lemma add_records_Ok records : ∀ w, writer_ok w →
  ∃ w' fss, add_records addr records w = Ok (OK, w') ∧ writer_ok w' ∧ Forall2 (fragments true) records fss
    ∧ frags_ok (block_offset_ w) (concat fss)
    ∧ wf_contents (dest_ w') = wf_contents (dest_ w) ++ log_bytes (block_offset_ w) (concat fss).
Proof using Haddr.
  induction records as [|rec records IH]; intros w Hw; cbn [add_records].
  { exists w, []. split; [done|]. split; [done|]. split; [done|]. split; [apply Hw|]. by rewrite app_nil_r. }
  unfold AddRecord. destruct (add_loop_Ok (2 + 2 * length rec) true rec w Hw) as (w1 & fs & -> & Hw1 & Hfr & Hok & Ed & Eo).
  { case_decide; lia. }
  cbn [mbind res_bind]. change (ok OK) with true. cbv iota.
  destruct (IH w1 Hw1) as (w' & fss & -> & Hw' & Hfss & Hoks & Ed'). exists w', (fs :: fss).
  split; [done|]. split; [done|]. split; [by constructor|]. rewrite Eo in Hoks, Ed'. cbn [concat].
  split; [by apply frags_ok_app|]. by rewrite Ed', Ed, log_bytes_app, <-app_assoc.
Qed.
End writer.

(** ** The reader *)

Section reader.
Context {F : Type} `{SequentialFileSpec F}.

(** What is left to read is [stream], from offset [off] of a block. *)
Record rinv (r : Reader F) (off : Z) (stream : list byte) : Prop := {
  ri_stream : stream = buffer_ r ++ sf_rest (file_ r);
  ri_off : 0 ≤ off ≤ kBlockSize;
  ri_buffer : if eof_ r then sf_rest (file_ r) = [] ∧ (zlen (buffer_ r) ≤ kBlockSize - off)
              else zlen (buffer_ r) = kBlockSize - off ∨ off = 0 ∧ buffer_ r = [];
  ri_initial : initial_offset_ r = 0;
  ri_last : 0 ≤ last_record_offset_ r }.

(** The same reports and settings. *)
Definition quiet (r r' : Reader F) : Prop := reports r' = reports r.

Lemma header_bytes t p b : 1 ≤ t ≤ 4 → zlen p ≤ 32761 →
  let buf := phys t p ++ b in
  ∃ h4 h5 h6, get8 buf 4 = Ok h4 ∧ get8 buf 5 = Ok h5 ∧ get8 buf 6 = Ok h6
    ∧ Z.lor (bz h4) (Z.shiftl (bz h5) 8) = zlen p ∧ u32 (sz h6) = t.
Proof using.
  clear. intros Ht Hp buf. exists (zb (Z.land (zlen p) 0xff)), (zb (Z.shiftr (zlen p) 8)), (zb t).
  unfold buf, phys, header_of. rewrite <-!app_assoc.
  set (crc := EncodeFixed32 _). assert (length crc = 4%nat) as Hc by apply length_EncodeFixed32.
  assert (∀ i x, 4 ≤ i → ([zb (Z.land (zlen p) 255); zb (Z.shiftr (zlen p) 8); zb t] ++ p ++ b) !! Z.to_nat (i - 4) = Some x →
    get8 (crc ++ [zb (Z.land (zlen p) 255); zb (Z.shiftr (zlen p) 8); zb t] ++ p ++ b) i = Ok x) as Hget.
  { intros i x Hi Hx. apply get8_Ok; [lia|]. rewrite lookup_app_r by lia. rewrite Hc, <-Hx. f_equal. lia. }
  split; [by apply Hget|]. split; [by apply Hget|]. split; [by apply Hget|]. split; [apply length_bytes; lia|].
  unfold sz. rewrite bz_zb_small by lia. replace (t <? 128) with true by lia. apply u32_small. lia.
Qed.

Lemma parse_full result (r : Reader F) t p b : buffer_ r = phys t p ++ b → 1 ≤ t ≤ 4 → zlen p ≤ 32761 → initial_offset_ r = 0 →
  parse_record addr result r = Ok (t, p, set_buffer b r).
Proof using Haddr.
  intros Hb Ht Hp Hini. unfold parse_record. rewrite Hb.
  destruct (header_bytes t p b Ht Hp) as (h4 & h5 & h6 & -> & -> & -> & Hlen & Hty). cbn [mbind res_bind].
  rewrite Hlen, Hty. replace (zlen (phys t p ++ b) <? kHeaderSize + zlen p) with false
    by (rewrite length_app, Nat2Z.inj_add, phys_length; unfold kHeaderSize; lia).
  replace (t =? kZeroType) with false by (unfold kZeroType; lia). cbn [andb].
  set (check := if checksum_ r then _ else _). assert (check = Ok true) as ->.
  { unfold check. destruct (checksum_ r); [|done].
    assert (DecodeFixed32 (phys t p ++ b) = Ok (u32 (Mask (crc32c 0 (zb t :: p))))) as ->
      by (unfold phys, header_of; rewrite <-!app_assoc; apply DecodeFixed32_Ok).
    cbn [mbind res_bind]. assert (word (crc32c 0 (zb t :: p))) as Hw by (apply crc32c_word; by unfold word).
    destruct (Unmask_Mask _ Hw) as [Hum Hmw]. unfold word in Hmw. rewrite (u32_small (Mask _)), Hum by done.
    assert (read_bytes (phys t p ++ b) 6 (1 + zlen p) = Ok (zb t :: p)) as ->.
    { unfold phys, header_of. set (crc := EncodeFixed32 _). set (l4 := zb (Z.land _ _)). set (l5 := zb (Z.shiftr _ _)).
      replace (((crc ++ [l4; l5; zb t]) ++ p) ++ b) with ((crc ++ [l4; l5]) ++ (zb t :: p) ++ b)
        by (by rewrite <-!app_assoc).
      assert (length crc = 4%nat) as Hc by apply length_EncodeFixed32.
      rewrite read_bytes_Ok by (rewrite ?length_app; simpl; lia). f_equal. unfold slice.
      replace (Z.to_nat 6) with (length (crc ++ [l4; l5])) by (rewrite length_app, Hc; done). rewrite drop_app_length.
      replace (Z.to_nat (1 + zlen p)) with (length (zb t :: p)) by (simpl; lia). by rewrite take_app_length. }
    cbn [mbind res_bind]. unfold Value. pose proof (Haddr (zb t :: p)) as Ha. unfold kBlockSize in Ha.
    rewrite Extend_Ok by (by unfold word || (simpl in *; lia)). cbn [mbind res_bind]. by rewrite Z.eqb_refl. }
  cbn [mbind res_bind negb]. unfold remove_prefix. rewrite c_assert_true
    by (rewrite length_app, Nat2Z.inj_add, phys_length; unfold kHeaderSize; lia).
  cbn [mbind res_bind].
  replace (Z.to_nat (kHeaderSize + zlen p)) with (length (phys t p))
    by (apply Nat2Z.inj; rewrite phys_length; unfold kHeaderSize; lia).
  rewrite drop_app_length. cbn [mbind res_bind mret res_ret set_buffer buffer_ end_of_buffer_offset_ initial_offset_].
  rewrite Hini. pose proof (u64_range (end_of_buffer_offset_ r - zlen b - kHeaderSize - zlen p)).
  replace (_ <? 0) with false by lia.
  assert (read_bytes (phys t p ++ b) kHeaderSize (zlen p) = Ok p) as ->; [|done].
  unfold phys. rewrite <-app_assoc. pose proof (header_length t p) as Hh. unfold kHeaderSize.
  rewrite read_bytes_Ok by (rewrite ?length_app; lia). f_equal. unfold slice.
  replace (Z.to_nat (4 + 1 + 2)) with (length (header_of t p)) by lia. by rewrite drop_app_length, Nat2Z.id, take_app_length.
Qed.

Lemma next_block_Ok (r : Reader F) : initial_offset_ r = 0 → let s := sf_rest (file_ r) in
  ∃ r', read_block r = (true, r') ∧ buffer_ r' = take (Z.to_nat kBlockSize) s
    ∧ sf_rest (file_ r') = drop (Z.to_nat kBlockSize) s ∧ eof_ r' = (zlen (buffer_ r') <? kBlockSize)
    ∧ initial_offset_ r' = 0 ∧ last_record_offset_ r' = last_record_offset_ r ∧ quiet r r'.
Proof using.
  clear Haddr. intros Hini s. unfold read_block. destruct (Read_spec kBlockSize (file_ r)) as (f & -> & Hf).
  change (ok OK) with true. cbv iota. eexists. split; [reflexivity|].
  cbn [buffer_ file_ eof_ initial_offset_ last_record_offset_ reports quiet].
  exact (conj eq_refl (conj Hf (conj eq_refl (conj Hini (conj eq_refl eq_refl))))).
Qed.

(** Where a block has to be read first: nothing but padding in the buffer. *)
Lemma physical_refill result r off fuel stream : rinv r off stream → eof_ r = false → zlen (buffer_ r) < kHeaderSize →
  ∃ r', physical_loop addr (S fuel) result r = physical_loop addr fuel result r'
    ∧ rinv r' 0 (sf_rest (file_ r)) ∧ buffer_ r' = take (Z.to_nat kBlockSize) (sf_rest (file_ r))
    ∧ eof_ r' = (zlen (buffer_ r') <? kBlockSize) ∧ last_record_offset_ r' = last_record_offset_ r ∧ quiet r r'.
Proof using.
  clear Haddr. intros [Hs Ho Hb Hini Hlast] He Hsmall. cbn [physical_loop].
  replace (_ <? kHeaderSize) with true by lia. rewrite He. cbn [negb].
  destruct (next_block_Ok (set_buffer [] r) Hini) as (r' & -> & Eb & Ef & Ee & Ei & El & Eq).
  exists r'. split; [done|]. cbn [set_buffer file_ last_record_offset_] in *. split; [|exact (conj Eb (conj Ee (conj El Eq)))].
  split; [rewrite Eb, Ef, take_drop; reflexivity|unfold kBlockSize; lia| |exact Ei|rewrite El; exact Hlast].
  rewrite Ee, Eb, Ef, length_take. unfold kBlockSize.
  destruct (Z.ltb_spec (Z.of_nat (Z.to_nat 32768 `min` length (sf_rest (file_ r)))) 32768).
  - split; [apply drop_ge; lia|lia].
  - left. lia.
Qed.

Lemma pad_length off : 0 ≤ off ≤ kBlockSize →
  zlen (pad off) = if kBlockSize - off <? kHeaderSize then kBlockSize - off else 0.
Proof using. clear. intros Ho. unfold pad. destruct (_ <? kHeaderSize); [rewrite length_replicate; lia|done]. Qed.

(** A record at the start of the buffer. *)
Lemma physical_parse result r off t p rest fuel : rinv r off (phys t p ++ rest) → 1 ≤ t ≤ 4 →
  off + kHeaderSize + zlen p ≤ kBlockSize → (eof_ r = false → zlen (buffer_ r) = kBlockSize - off) →
  ∃ r', physical_loop addr (S fuel) result r = Ok (t, p, r') ∧ rinv r' (off + kHeaderSize + zlen p) rest
    ∧ last_record_offset_ r' = last_record_offset_ r ∧ quiet r r'.
Proof using Haddr.
  intros [Hs Ho Hb Hini Hlast] Ht Hfit He. unfold kHeaderSize, kBlockSize in *.
  pose proof (phys_length t p) as Hpl. pose proof (f_equal length Hs) as Hl. rewrite !length_app in Hl.
  assert (zlen (phys t p) ≤ zlen (buffer_ r)) as Hin.
  { destruct (eof_ r); [destruct Hb as [E _]; rewrite E in Hl; simpl in Hl; lia|]. specialize (He eq_refl). lia. }
  assert (∃ b, buffer_ r = phys t p ++ b ∧ rest = b ++ sf_rest (file_ r)) as (b & Eb & Er).
  { exists (drop (length (phys t p)) (buffer_ r)).
    assert (phys t p = take (length (phys t p)) (buffer_ r)) as E.
    { apply (f_equal (take (length (phys t p)))) in Hs. by rewrite take_app_length, take_app_le in Hs by lia. }
    split; [rewrite E at 1; by rewrite take_drop|].
    apply (f_equal (drop (length (phys t p)))) in Hs. rewrite drop_app_length, drop_app_le in Hs by lia. done. }
  cbn [physical_loop]. replace (zlen (buffer_ r) <? _) with false by (unfold kHeaderSize; lia).
  rewrite (parse_full result r t p b) by (done || lia). eexists. split; [done|]. split; [|done].
  assert (zlen (buffer_ r) = 7 + zlen p + zlen b) as Hbl by (rewrite Eb, length_app; lia).
  split; cbn [set_buffer buffer_ file_ eof_ initial_offset_ last_record_offset_]; [done|unfold kBlockSize; lia| |done|done].
  unfold kBlockSize. destruct (eof_ r); [split; [apply Hb|lia]|]. left. specialize (He eq_refl). lia.
Qed.

Lemma read_phys result r off t p rest : rinv r off (chunk off t p ++ rest) → 1 ≤ t ≤ 4 → after off p ≤ kBlockSize →
  ∃ r', ReadPhysicalRecord addr result r = Ok (t, p, r') ∧ rinv r' (after off p) rest
    ∧ last_record_offset_ r' = last_record_offset_ r ∧ quiet r r'.
Proof using Haddr.
  intros Hinv Ht Hfit. pose proof Hinv as [Hs Ho Hb Hini Hlast]. unfold ReadPhysicalRecord.
  pose proof (pad_length off Ho) as Hpad. pose proof (phys_length t p) as Hpl.
  pose proof (f_equal length Hs) as Hl. unfold chunk in Hl. rewrite !length_app in Hl.
  unfold chunk, after, norm in *. rewrite <-app_assoc in *. destruct (eof_ r) eqn:He.
  - destruct Hb as [Ef Hbl]. rewrite Ef in Hl. simpl in Hl. unfold kHeaderSize in *.
    destruct (Z.ltb_spec (kBlockSize - off) (4 + 1 + 2)); [lia|].
    apply physical_parse; [|done|done|congruence]. unfold pad in Hinv. unfold kHeaderSize in Hinv.
    by replace (_ <? 4 + 1 + 2) with false in Hinv by lia.
  - destruct (decide (zlen (buffer_ r) < kHeaderSize)) as [Hsmall|Hbig].
    + destruct (physical_refill result r off 2 _ Hinv He Hsmall) as (r1 & -> & Hinv1 & Eb1 & Ee1 & El1 & Hq1).
      assert (sf_rest (file_ r) = phys t p ++ rest ∧ (if kBlockSize - off <? kHeaderSize then 0 else off) = 0) as [Ef En].
      { unfold pad in Hs, Hpad. destruct (Z.ltb_spec (kBlockSize - off) kHeaderSize).
        - split; [|done]. destruct Hb as [Hbl|[-> _]]; [|unfold kBlockSize, kHeaderSize in *; lia].
          apply (f_equal (drop (length (replicate (Z.to_nat (kBlockSize - off)) x00)))) in Hs.
          rewrite drop_app_length in Hs. replace (length _) with (length (buffer_ r)) in Hs by lia.
          by rewrite drop_app_length in Hs.
        - destruct Hb as [Hbl|[-> Eb]]; [lia|]. rewrite Eb in Hs. split; done. }
      rewrite En in *. rewrite Ef in Hinv1.
      destruct (physical_parse result r1 0 t p rest 1 Hinv1 Ht Hfit) as (r' & -> & Hinv' & El' & Hq').
      { intros E. rewrite E in Ee1. pose proof (f_equal length Eb1) as E2. rewrite length_take in E2. lia. }
      exists r'. split; [done|]. split; [done|]. split; [congruence|]. unfold quiet in *. congruence.
    + assert ((kBlockSize - off <? kHeaderSize) = false) as E.
      { destruct Hb as [Hbl|[_ Eb]]; [lia|]. rewrite Eb in Hbig. simpl in Hbig. unfold kHeaderSize in Hbig. lia. }
      unfold pad in Hinv. rewrite E in *. apply physical_parse; [done|done|done|].
      intros _. destruct Hb as [Hbl|[_ Eb]]; [done|]. rewrite Eb in Hbig. simpl in Hbig. unfold kHeaderSize in Hbig. lia.
Qed.

Lemma quiet_trans (r1 r2 r3 : Reader F) : quiet r1 r2 → quiet r2 r3 → quiet r1 r3.
Proof using. clear. unfold quiet. congruence. Qed.

(** *** Whole records *)

Lemma record_loop_Ok begin rec fs : fragments begin rec fs → ∀ fuel fragment scratch prosp r off rest,
  rinv r off (log_bytes off fs ++ rest) → frags_ok off fs → (length fs ≤ fuel)%nat → 0 ≤ prosp →
  (begin = true → scratch = []) →
  ∃ r', record_loop addr fuel fragment scratch (negb begin) prosp r = Ok (Some (scratch ++ rec), r')
    ∧ rinv r' (log_end off fs) rest ∧ quiet r r'.
Proof using Haddr.
  induction 1 as [begin rec|begin p rec fs Hfr IH]; intros fuel fragment scratch prosp r off rest Hinv Hok Hf Hp Hs;
    simpl in Hf; destruct fuel as [|fuel]; try lia; cbn [record_loop];
    destruct Hok as (Ho & Ht & Hfit & Hok); cbn [log_bytes log_end] in *; rewrite ?app_nil_r, <-?app_assoc in Hinv;
    destruct (read_phys fragment r off _ _ _ Hinv Ht Hfit) as (r1 & -> & Hinv1 & El & Hq); cbn [mbind res_bind].
  - destruct begin; cbn [negb andb].
    + rewrite (Hs eq_refl). change (kFullType =? kFullType) with true. cbv iota. cbn [mbind res_bind mret res_ret].
      eexists. split; [reflexivity|]. split; [|exact Hq]. destruct Hinv1. split; try assumption. apply u64_range.
    + change (kLastType =? kFullType) with false. change (kLastType =? kFirstType) with false.
      change (kLastType =? kMiddleType) with false. change (kLastType =? kLastType) with true. cbv iota.
      eexists. split; [reflexivity|]. split; [|exact Hq]. destruct Hinv1. split; try assumption.
  - destruct begin; cbn [negb andb].
    + rewrite (Hs eq_refl). change (kFirstType =? kFullType) with false. change (kFirstType =? kFirstType) with true.
      cbv iota. cbn [mbind res_bind mret res_ret].
      destruct (IH fuel p p (u64 (end_of_buffer_offset_ r - zlen (buffer_ r))) r1 (after off p) rest Hinv1 Hok)
        as (r' & E & Hinv' & Hq'); [lia|apply u64_range|done|].
      exists r'. split; [exact E|]. split; [exact Hinv'|]. by eapply quiet_trans.
    + change (kMiddleType =? kFullType) with false. change (kMiddleType =? kFirstType) with false.
      change (kMiddleType =? kMiddleType) with true. cbv iota.
      destruct (IH fuel p (scratch ++ p) prosp r1 (after off p) rest Hinv1 Hok) as (r' & E & Hinv' & Hq'); [lia|done|done|].
      exists r'. split; [by rewrite app_assoc|]. split; [exact Hinv'|]. by eapply quiet_trans.
Qed.

Lemma ReadRecord_Ok fuel rec fs r off rest : fragments true rec fs → rinv r off (log_bytes off fs ++ rest) →
  frags_ok off fs → (length fs ≤ fuel)%nat →
  ∃ r', ReadRecord addr fuel r = Ok (Some rec, r') ∧ rinv r' (log_end off fs) rest ∧ quiet r r'.
Proof using Haddr.
  intros Hfr Hinv Hok Hf. unfold ReadRecord. pose proof Hinv as [_ _ _ Hini Hlast].
  replace (last_record_offset_ r <? initial_offset_ r) with false by lia. cbn [mbind res_bind mret res_ret].
  by apply (record_loop_Ok true rec fs Hfr fuel [] [] 0 r off rest).
Qed.

(** *** The end of the input *)

(** Nothing left. *)
Definition drained (r : Reader F) : Prop :=
  buffer_ r = [] ∧ (eof_ r = true ∨ sf_rest (file_ r) = []) ∧ initial_offset_ r = 0.

Lemma read_drained result r : drained r →
  ∃ r', ReadPhysicalRecord addr result r = Ok (kEof, result, r') ∧ quiet r r'.
Proof using.
  clear Haddr. intros (Hb & He & Hini). unfold ReadPhysicalRecord. cbn [physical_loop]. rewrite Hb.
  change (zlen [] <? kHeaderSize) with true. change (zlen [] =? 0) with true.
  destruct (eof_ r) eqn:E; cbn [negb]; [by exists r|]. destruct He as [|He]; [done|].
  destruct (next_block_Ok (set_buffer [] r) Hini) as (r1 & -> & Eb & Ef & Ee & Ei & El & Eq).
  cbn [set_buffer file_] in *. rewrite He in Eb. rewrite take_nil in Eb. rewrite Ee, Eb.
  change (zlen [] <? kBlockSize) with true. cbn [negb].
  change (zlen [] <? kHeaderSize) with true. change (zlen [] =? 0) with true. by exists r1.
Qed.

Lemma record_loop_drained fuel fragment prosp r : drained r → (0 < fuel)%nat →
  ∃ r', record_loop addr fuel fragment [] false prosp r = Ok (None, r') ∧ quiet r r'.
Proof using.
  clear Haddr. intros Hd Hf. destruct fuel as [|fuel]; [lia|]. cbn [record_loop].
  destruct (read_drained fragment r Hd) as (r' & -> & Hq). cbn [mbind res_bind]. exists r'. by split.
Qed.

(** An empty stream is the end, without reports. *)
Lemma record_loop_end fuel r off : rinv r off [] → (0 < fuel)%nat →
  ∃ r', ReadRecord addr fuel r = Ok (None, r') ∧ quiet r r'.
Proof using.
  clear Haddr. intros [Hs Ho Hb Hini Hlast] Hf. unfold ReadRecord.
  replace (last_record_offset_ r <? initial_offset_ r) with false by lia. cbn [mbind res_bind mret res_ret].
  symmetry in Hs. apply app_nil in Hs as [E1 E2]. apply record_loop_drained; [|done]. by split; [|split; [right|]].
Qed.

(** *** A log cut in the middle of a record *)

Lemma report_Ok bytes reason (r : Reader F) : zlen reason < 100 →
  ∃ r', ReportCorruption bytes reason r = Ok r' ∧ buffer_ r' = buffer_ r ∧ eof_ r' = eof_ r
    ∧ file_ r' = file_ r ∧ initial_offset_ r' = initial_offset_ r.
Proof using.
  clear. intros Hl. unfold ReportCorruption, Corruption. rewrite new_Status_Ok by (done || (simpl; lia)).
  cbn [mbind res_bind]. eexists. split; [reflexivity|]. unfold ReportDrop. by destruct (_ && _).
Qed.

(** A buffer with part of a record. *)
Lemma parse_cut result r t p m : buffer_ r = take m (phys t p) → (7 ≤ m)%nat → (m < length (phys t p))%nat →
  1 ≤ t ≤ 4 → zlen p ≤ 32761 → eof_ r = true → initial_offset_ r = 0 →
  ∃ r', parse_record addr result r = Ok (kBadRecord, result, r') ∧ drained r'.
Proof using.
  clear Haddr. intros Hb Hm7 Hm Ht Hp He Hini. unfold parse_record.
  destruct (header_bytes t p [] Ht Hp) as (h4 & h5 & h6 & E4 & E5 & E6 & Hlen & Hty). rewrite app_nil_r in *.
  assert (∀ i h, 0 ≤ i < 7 → get8 (phys t p) i = Ok h → get8 (buffer_ r) i = Ok h) as Hget.
  { intros i h Hi Hg. unfold get8 in *. rewrite defined_true in * by lia. cbn [mbind res_bind] in *.
    rewrite Hb, lookup_take_lt by lia. done. }
  rewrite (Hget 4 h4), (Hget 5 h5), (Hget 6 h6) by (done || lia). cbn [mbind res_bind].
  rewrite Hlen. pose proof (phys_length t p) as Hpl.
  replace (zlen (buffer_ r) <? kHeaderSize + zlen p) with true
    by (rewrite Hb, length_take; unfold kHeaderSize; lia).
  destruct (report_Ok (zlen (buffer_ r)) (str "bad record length") (set_buffer [] r) eq_refl) as (r' & -> & Eb & Ee & Ef & Ei).
  cbn [mbind res_bind]. exists r'. split; [done|]. split; [by rewrite Eb|]. split; [left; by rewrite Ee|by rewrite Ei].
Qed.

(** The last bytes of the file are part of a record, or of its header. *)
Lemma physical_cut result r t p m fuel : buffer_ r = take m (phys t p) → (m < length (phys t p))%nat →
  1 ≤ t ≤ 4 → zlen p ≤ 32761 → eof_ r = true → initial_offset_ r = 0 →
  ∃ ty r', physical_loop addr (S fuel) result r = Ok (ty, result, r') ∧ (ty = kEof ∨ ty = kBadRecord) ∧ drained r'.
Proof using.
  clear Haddr. intros Hb Hm Ht Hp He Hini. cbn [physical_loop].
  destruct (Z.ltb_spec (zlen (buffer_ r)) kHeaderSize) as [Hlt|Hge].
  - rewrite He. cbn [negb]. destruct (Z.eqb_spec (zlen (buffer_ r)) 0) as [E0|].
    + exists kEof, r. split; [done|]. split; [by left|]. split; [by destruct (buffer_ r)|]. split; [by left|done].
    + destruct (report_Ok (zlen (buffer_ r)) (str "truncated record at end of file") (set_buffer [] r) eq_refl) as (r' & -> & Eb & Ee & Ef & Ei).
      cbn [mbind res_bind]. exists kEof, r'. split; [done|]. split; [by left|]. split; [by rewrite Eb|].
      split; [left; by rewrite Ee|by rewrite Ei].
  - destruct (parse_cut result r t p m) as (r' & -> & Hd); try done.
    { rewrite Hb, length_take in Hge. unfold kHeaderSize in Hge. lia. }
    exists kBadRecord, r'. split; [done|]. split; [by right|done].
Qed.

Lemma read_cut result r off t p m : rinv r off (take m (chunk off t p)) → (m < length (chunk off t p))%nat →
  1 ≤ t ≤ 4 → after off p ≤ kBlockSize →
  ∃ ty r', ReadPhysicalRecord addr result r = Ok (ty, result, r') ∧ (ty = kEof ∨ ty = kBadRecord) ∧ drained r'.
Proof using.
  clear Haddr. intros Hinv Hm Ht Hfit. pose proof Hinv as [Hs Ho Hb Hini Hlast]. unfold ReadPhysicalRecord.
  pose proof (proj2 (after_range off p Ho) Hfit) as Hp. pose proof (pad_length off Ho) as Hpad.
  pose proof (phys_length t p) as Hpl. pose proof (f_equal length Hs) as Hl. rewrite length_take, length_app in Hl.
  unfold chunk in *. rewrite length_app in *. unfold after, norm in *. destruct (eof_ r) eqn:He.
  - destruct Hb as [Ef Hbl]. rewrite Ef, app_nil_r in Hs. rewrite Ef in Hl. cbn [length] in Hl.
    destruct (Z.ltb_spec (kBlockSize - off) kHeaderSize) as [Hlt|Hge].
    + assert ((zlen (buffer_ r) <? kHeaderSize) = true) as Hsmall by lia. cbn [physical_loop]. rewrite Hsmall, He. cbn [negb].
      destruct (Z.eqb_spec (zlen (buffer_ r)) 0) as [E0|].
      * exists kEof, r. split; [done|]. split; [by left|]. split; [by destruct (buffer_ r)|]. split; [by left|done].
      * destruct (report_Ok (zlen (buffer_ r)) (str "truncated record at end of file") (set_buffer [] r) eq_refl) as (r' & -> & Eb & Ee & _ & Ei).
        cbn [mbind res_bind]. exists kEof, r'. split; [done|]. split; [by left|]. split; [by rewrite Eb|].
        split; [left; by rewrite Ee|by rewrite Ei].
    + assert (pad off = []) as Ep by (destruct (pad off); [done|simpl in Hpad; lia]). rewrite Ep in *. cbn [app length Nat.add] in *.
      apply (physical_cut result r t p m); try done; lia.
  - assert (zlen (buffer_ r) < kHeaderSize ∧ sf_rest (file_ r) = take (m - length (pad off)) (phys t p)) as [Hsmall Ef].
    { destruct (Z.ltb_spec (kBlockSize - off) kHeaderSize) as [Hlt|Hge].
      - destruct Hb as [Hbl|[-> _]]; [|unfold kBlockSize, kHeaderSize in *; lia]. split; [lia|].
        assert (length (buffer_ r) = length (pad off)) as E by lia.
        apply (f_equal (drop (length (buffer_ r)))) in Hs. rewrite drop_app_length in Hs. rewrite <-Hs.
        rewrite E. rewrite skipn_firstn_comm, drop_app_length. done.
      - assert (pad off = []) as Ep by (destruct (pad off); [done|simpl in Hpad; lia]). rewrite Ep in *. cbn [app length Nat.add] in *.
        destruct Hb as [Hbl|[-> Eb]]; [unfold kHeaderSize in *; lia|]. rewrite Eb in *. split; [unfold kHeaderSize; simpl; lia|].
        simpl in Hs. by rewrite Nat.sub_0_r. }
    destruct (physical_refill result r off 2 _ Hinv He Hsmall) as (r1 & -> & Hinv1 & Eb1 & Ee1 & _ & _).
    pose proof (f_equal length Ef) as Elen. rewrite length_take in Elen.
    assert (zlen (sf_rest (file_ r)) < kBlockSize) as Hshort.
    { destruct (kBlockSize - off <? kHeaderSize) eqn:Eq; unfold kBlockSize, kHeaderSize in *; lia. }
    rewrite take_ge in Eb1 by lia.
    apply (physical_cut result r1 t p (m - length (pad off)) 1); [by rewrite Eb1|lia|done|done| |].
    + rewrite Ee1, Eb1. lia.
    + by destruct Hinv1.
Qed.

Lemma report_drained bytes reason r : zlen reason < 100 → drained r →
  ∃ r', ReportCorruption bytes reason r = Ok r' ∧ drained r'.
Proof using.
  clear Haddr. intros Hl (Hb & He & Hi). destruct (report_Ok bytes reason r Hl) as (r' & -> & Eb & Ee & Ef & Ei).
  exists r'. split; [done|]. unfold drained. by rewrite Eb, Ee, Ef, Ei.
Qed.

(** After what [read_cut] finds, the record in progress is dropped. *)
Lemma cut_fragment ty fuel fragment result scratch frag prosp r r1 : ReadPhysicalRecord addr fragment r = Ok (ty, result, r1) →
  (ty = kEof ∨ ty = kBadRecord) → drained r1 → (1 < fuel)%nat → (frag = false → scratch = []) →
  ∃ r', record_loop addr fuel fragment scratch frag prosp r = Ok (None, r').
Proof using.
  clear Haddr. intros Hrun Hty Hd Hf Hs. destruct fuel as [|fuel]; [lia|]. cbn [record_loop]. rewrite Hrun.
  cbn [mbind res_bind]. destruct Hty as [->| ->].
  - change (kEof =? kFullType) with false. change (kEof =? kFirstType) with false. change (kEof =? kMiddleType) with false.
    change (kEof =? kLastType) with false. change (kEof =? kEof) with true. cbv iota. destruct frag; [|by exists r1].
    destruct (report_drained (zlen scratch) (str "partial record without end(3)") r1 eq_refl Hd) as (r' & -> & _).
    by exists r'.
  - change (kBadRecord =? kFullType) with false. change (kBadRecord =? kFirstType) with false.
    change (kBadRecord =? kMiddleType) with false. change (kBadRecord =? kLastType) with false.
    change (kBadRecord =? kEof) with false. change (kBadRecord =? kBadRecord) with true. cbv iota. destruct frag.
    + destruct (report_drained (zlen scratch) (str "error in middle of record") r1 eq_refl Hd) as (r2 & -> & Hd2).
      cbn [mbind res_bind]. destruct (record_loop_drained fuel result prosp r2 Hd2) as (r' & E & _); [lia|]. by exists r'.
    + rewrite (Hs eq_refl). destruct (record_loop_drained fuel result prosp r1 Hd) as (r' & E & _); [lia|]. by exists r'.
Qed.

Lemma record_loop_cut begin rec fs : fragments begin rec fs → ∀ fuel fragment scratch prosp r off m,
  rinv r off (take m (log_bytes off fs)) → (m < length (log_bytes off fs))%nat → frags_ok off fs →
  (length fs < fuel)%nat → 0 ≤ prosp → (begin = true → scratch = []) →
  ∃ r', record_loop addr fuel fragment scratch (negb begin) prosp r = Ok (None, r').
Proof using Haddr.
  induction 1 as [begin rec|begin p rec fs Hfr IH]; intros fuel fragment scratch prosp r off m Hinv Hm Hok Hf Hp Hs;
    destruct Hok as (Ho & Ht & Hfit & Hok); cbn [log_bytes length] in *.
  - rewrite app_nil_r in *. destruct (read_cut fragment r off _ rec m Hinv Hm Ht Hfit) as (ty & r1 & E & Hty & Hd).
    eapply cut_fragment; [exact E|done|done|lia|]. intros E0; apply Hs; by destruct begin.
  - set (t := if begin then kFirstType else kMiddleType) in *.
    destruct (decide (m < length (chunk off t p))%nat) as [Hcut|Hge].
    { rewrite take_app_le in Hinv by lia.
      destruct (read_cut fragment r off _ p m Hinv Hcut Ht Hfit) as (ty & r1 & E & Hty & Hd).
      eapply cut_fragment; [exact E|done|done|lia|]. intros E0; apply Hs; by destruct begin. }
    rewrite length_app in Hm. rewrite take_app_ge in Hinv by lia. destruct fuel as [|fuel]; [lia|].
    destruct (read_phys fragment r off _ _ _ Hinv Ht Hfit) as (r1 & E & Hinv1 & El & Hq).
    cbn [record_loop]. rewrite E. cbn [mbind res_bind]. unfold t. destruct begin; cbn [negb andb].
    + rewrite (Hs eq_refl). change (kFirstType =? kFullType) with false. change (kFirstType =? kFirstType) with true.
      cbv iota. cbn [mbind res_bind mret res_ret].
      by apply (IH fuel p p _ r1 (after off p) _ Hinv1); [lia|done|lia|apply u64_range|].
    + change (kMiddleType =? kFullType) with false. change (kMiddleType =? kFirstType) with false.
      change (kMiddleType =? kMiddleType) with true. cbv iota.
      by apply (IH fuel p (scratch ++ p) prosp r1 (after off p) _ Hinv1); [lia|done|lia|done|].
Qed.

(** *** The whole log *)

Lemma fragments_nonempty begin rec fs : fragments begin rec fs → (0 < length fs)%nat.
Proof using. clear. destruct 1; simpl; lia. Qed.

Lemma frags_ok_app_inv off fs gs : frags_ok off (fs ++ gs) → frags_ok off fs ∧ frags_ok (log_end off fs) gs.
Proof using.
  clear. revert off. induction fs as [|[t p] fs IH]; intros off; simpl; [|intros (? & ? & ? & [? ?]%IH); done].
  intros Hok. split; [|done]. destruct gs as [|[t p] gs]; [done|]. by destruct Hok.
Qed.

Lemma read_records_Ok records fss : Forall2 (fragments true) records fss → ∀ fuel r off,
  rinv r off (log_bytes off (concat fss)) → frags_ok off (concat fss) → (length (concat fss) < fuel)%nat →
  ∃ r', read_records addr fuel r = Ok (records, r') ∧ quiet r r'.
Proof using Haddr.
  induction 1 as [|rec fs records fss Hfr _ IH]; intros fuel r off Hinv Hok Hf; destruct fuel as [|fuel]; try (simpl in *; lia).
  - cbn [read_records]. destruct (record_loop_end (S fuel) r off Hinv) as (r' & E & Hq); [lia|].
    rewrite E. cbn [mbind res_bind]. by exists r'.
  - cbn [concat] in *. rewrite length_app in Hf. rewrite log_bytes_app in Hinv.
    apply frags_ok_app_inv in Hok as [Hok1 Hok2]. pose proof (fragments_nonempty _ _ _ Hfr).
    cbn [read_records]. destruct (ReadRecord_Ok (S fuel) rec fs r off _ Hfr Hinv Hok1) as (r1 & -> & Hinv1 & Hq1); [lia|].
    cbn [mbind res_bind]. destruct (IH fuel r1 _ Hinv1 Hok2) as (r' & -> & Hq'); [lia|].
    cbn [mbind res_bind]. exists r'. split; [done|]. by eapply quiet_trans.
Qed.

Lemma read_records_cut records fss : Forall2 (fragments true) records fss → ∀ fuel r off m,
  rinv r off (take m (log_bytes off (concat fss))) → frags_ok off (concat fss) → (length (concat fss) < fuel)%nat →
  ∃ l r', read_records addr fuel r = Ok (l, r') ∧ l `prefix_of` records.
Proof using Haddr.
  induction 1 as [|rec fs records fss Hfr _ IH]; intros fuel r off m Hinv Hok Hf; destruct fuel as [|fuel]; try (simpl in *; lia).
  - cbn [read_records]. simpl in Hinv. rewrite take_nil in Hinv.
    destruct (record_loop_end (S fuel) r off Hinv) as (r' & E & Hq); [lia|].
    rewrite E. cbn [mbind res_bind]. by exists [], r'.
  - cbn [concat] in *. rewrite length_app in Hf. rewrite log_bytes_app in Hinv.
    apply frags_ok_app_inv in Hok as [Hok1 Hok2]. pose proof (fragments_nonempty _ _ _ Hfr).
    cbn [read_records]. destruct (decide (m < length (log_bytes off fs))%nat) as [Hcut|Hge].
    + rewrite take_app_le in Hinv by lia. unfold ReadRecord. pose proof Hinv as [_ _ _ Hini Hlast].
      replace (last_record_offset_ r <? initial_offset_ r) with false by lia. cbn [mbind res_bind mret res_ret].
      destruct (record_loop_cut true rec fs Hfr (S fuel) [] [] 0 r off m Hinv Hcut Hok1) as (r' & E); [lia|done|done|].
      cbn [negb] in E. rewrite E. cbn [mbind res_bind]. exists [], r'. split; [done|]. apply prefix_nil.
    + rewrite take_app_ge in Hinv by lia.
      destruct (ReadRecord_Ok (S fuel) rec fs r off _ Hfr Hinv Hok1) as (r1 & -> & Hinv1 & Hq1); [lia|].
      cbn [mbind res_bind]. destruct (IH fuel r1 _ _ Hinv1 Hok2) as (l & r' & -> & Hl); [lia|].
      cbn [mbind res_bind]. exists (rec :: l), r'. split; [done|]. by apply prefix_cons.
Qed.

(** Reading one record after the other, without a report. *)
Inductive reads_quietly : nat → Reader F → list (list byte) → Prop :=
  | quiet_end fuel r r' : ReadRecord addr (S fuel) r = Ok (None, r') → reports r' = reports r → reads_quietly (S fuel) r []
  | quiet_record fuel r rec r1 records : ReadRecord addr (S fuel) r = Ok (Some rec, r1) → reports r1 = reports r → reads_quietly fuel r1 records →
      reads_quietly (S fuel) r (rec :: records).

Lemma reads_quietly_Ok records fss : Forall2 (fragments true) records fss → ∀ fuel r off,
  rinv r off (log_bytes off (concat fss)) → frags_ok off (concat fss) → (length (concat fss) < fuel)%nat → reads_quietly fuel r records.
Proof using Haddr.
  induction 1 as [|rec fs records fss Hfr _ IH]; intros fuel r off Hinv Hok Hf; destruct fuel as [|fuel]; try (simpl in *; lia).
  - destruct (record_loop_end (S fuel) r off Hinv) as (r' & E & Hq); [lia|]. by apply (quiet_end fuel r r'); [|apply Hq].
  - cbn [concat] in *. rewrite length_app in Hf. rewrite log_bytes_app in Hinv. apply frags_ok_app_inv in Hok as [Hok1 Hok2]. pose proof (fragments_nonempty _ _ _ Hfr).
    destruct (ReadRecord_Ok (S fuel) rec fs r off _ Hfr Hinv Hok1) as (r1 & E & Hinv1 & Hq1); [lia|].
    apply (quiet_record fuel r rec r1); [done|apply Hq1|]. apply (IH fuel r1 _ Hinv1 Hok2). lia.
Qed.

Lemma log_bytes_length off fs : frags_ok off fs → (length fs ≤ length (log_bytes off fs))%nat.
Proof using.
  clear. revert off. induction fs as [|[t p] fs IH]; intros off; simpl; [lia|]. intros (_ & _ & _ & Hok).
  apply IH in Hok. unfold chunk. rewrite !length_app. pose proof (phys_length t p). lia.
Qed.

Lemma new_Reader_rinv f reporter checksum : rinv (new_Reader f reporter checksum 0) 0 (sf_rest f).
Proof using. clear. split; cbn; [done|unfold kBlockSize; lia|by right|done|lia]. Qed.
End reader.

(** ** Logs and the records in them *)

Section contents.
Context {W F : Type} `{WritableFileSpec W} `{SequentialFileSpec F}.

(** A writer on a file that holds exactly these records. *)
Definition log_holds (w : Writer W) (records : list (list byte)) : Prop :=
  writer_ok w ∧ ∃ fss, Forall2 (fragments true) records fss ∧ frags_ok 0 (concat fss)
    ∧ wf_contents (dest_ w) = log_bytes 0 (concat fss) ∧ block_offset_ w = log_end 0 (concat fss).

Lemma new_log_holds dest : wf_contents dest = [] → ∃ w, new_Writer addr dest = Ok w ∧ log_holds w [].
Proof using Haddr.
  intros Hempty. destruct (new_Writer_Ok dest) as (w & Hw & Hok & Hd & Ho). exists w. split; [done|]. split; [done|].
  exists []. split; [done|]. split; [cbn; unfold kBlockSize; lia|]. by rewrite Hd, Hempty, Ho.
Qed.

Lemma log_end_app off fs gs : log_end off (fs ++ gs) = log_end (log_end off fs) gs.
Proof using. clear. revert off. induction fs as [|[t p] fs IH]; intros off; simpl; [done|]. apply IH. Qed.

Lemma AddRecord_holds w records rec : log_holds w records →
  ∃ w', AddRecord addr rec w = Ok (OK, w') ∧ log_holds w' (records ++ [rec]).
Proof using Haddr.
  intros (Hw & fss & Hfss & Hok & Hc & Ho). unfold AddRecord.
  destruct (add_loop_Ok (2 + 2 * length rec) true rec w Hw) as (w' & fs & Hrun & Hw' & Hfr & Hfok & Ed & Eo); [case_decide; lia|].
  exists w'. split; [done|]. split; [done|]. exists (fss ++ [fs]). rewrite concat_app. cbn [concat]. rewrite app_nil_r.
  split; [by apply Forall2_app; [|constructor]|]. rewrite Ed, Eo, Hc, log_bytes_app, log_end_app, Ho. rewrite Ho in Hfok.
  split; [by apply frags_ok_app|done].
Qed.

Lemma add_records_holds new : ∀ w records, log_holds w records →
  ∃ w', add_records addr new w = Ok (OK, w') ∧ log_holds w' (records ++ new).
Proof using Haddr.
  induction new as [|rec new IH]; intros w records Hw; cbn [add_records]; [exists w; by rewrite app_nil_r|].
  destruct (AddRecord_holds w records rec Hw) as (w1 & -> & Hw1). cbn [mbind res_bind]. change (ok OK) with true. cbv iota.
  destruct (IH w1 _ Hw1) as (w' & -> & Hw'). exists w'. split; [done|]. by rewrite <-app_assoc in Hw'.
Qed.

(** Another state of the same file. *)
Lemma log_holds_dest w records dest : log_holds w records → wf_contents dest = wf_contents (dest_ w) →
  log_holds (MkWriter dest (block_offset_ w) (type_crc_ w)) records.
Proof using.
  clear. intros (Hw & fss & Hfss & Hok & Hc & Ho) Hd. split; [done|]. exists fss. cbn [dest_ block_offset_]. by rewrite Hd.
Qed.

Lemma read_records_holds w records f reporter checksum fuel : log_holds w records →
  sf_rest f = wf_contents (dest_ w) → (length (sf_rest f) < fuel)%nat →
  ∃ r', read_records addr fuel (new_Reader f reporter checksum 0) = Ok (records, r') ∧ reports r' = [].
Proof using Haddr.
  intros (_ & fss & Hfss & Hfok & Hc & _) Hf Hfuel. pose proof (log_bytes_length _ _ Hfok).
  pose proof (new_Reader_rinv f reporter checksum) as Hinv. rewrite Hf, Hc in Hinv, Hfuel.
  destruct (read_records_Ok records fss Hfss fuel _ 0 Hinv Hfok) as (r' & Hr & Hq); [lia|]. by exists r'.
Qed.

Lemma reads_quietly_holds w records f reporter checksum fuel : log_holds w records →
  sf_rest f = wf_contents (dest_ w) → (length (sf_rest f) < fuel)%nat → reads_quietly fuel (new_Reader f reporter checksum 0) records.
Proof using Haddr.
  intros (_ & fss & Hfss & Hfok & Hc & _) Hf Hfuel. pose proof (log_bytes_length _ _ Hfok).
  pose proof (new_Reader_rinv f reporter checksum) as Hinv. rewrite Hf, Hc in Hinv, Hfuel. apply (reads_quietly_Ok records fss Hfss fuel _ 0 Hinv Hfok). lia.
Qed.

Lemma read_records_prefix w records f reporter checksum fuel m : log_holds w records →
  sf_rest f = take m (wf_contents (dest_ w)) → (length (wf_contents (dest_ w)) < fuel)%nat →
  ∃ l r', read_records addr fuel (new_Reader f reporter checksum 0) = Ok (l, r') ∧ l `prefix_of` records.
Proof using Haddr.
  intros (_ & fss & Hfss & Hfok & Hc & _) Hf Hfuel. pose proof (log_bytes_length _ _ Hfok).
  pose proof (new_Reader_rinv f reporter checksum) as Hinv. rewrite Hf, Hc in Hinv. rewrite Hc in Hfuel.
  apply (read_records_cut records fss Hfss fuel _ 0 m Hinv Hfok). lia.
Qed.
End contents.

(** ** Properties *)

Section properties.
Context {W F : Type} `{WritableFileSpec W} `{SequentialFileSpec F}.

(** Claim C38. Logs round trip: for any records (empty, or larger than a block), any
    implementation of files that keeps its promise and any alignment of buffers, appending the
    records to an empty log succeeds, and reading the file gives back exactly the records, in
    order, without reporting any corruption, with or without checksums. *)
Theorem log_roundtrip (dest : W) (records : list (list byte)) (Hempty : wf_contents dest = []) :
  ∃ w w', new_Writer addr dest = Ok w ∧ add_records addr records w = Ok (OK, w')
    ∧ ∀ f reporter checksum fuel, sf_rest f = wf_contents (dest_ w') → (length (sf_rest f) < fuel)%nat →
        ∃ r', read_records addr fuel (new_Reader f reporter checksum 0) = Ok (records, r') ∧ reports r' = [].
Proof using Haddr.
  destruct (new_log_holds dest Hempty) as (w & Hw & Hl).
  destruct (add_records_holds records w [] Hl) as (w' & Hadd & Hl'). exists w, w'. split; [done|]. split; [done|].
  intros f reporter checksum fuel Hf Hfuel. by apply (read_records_holds w').
Qed.

(** Claim C39. A log that was cut anywhere (a crash in the middle of a write) is safe to read:
    whatever number of its bytes are in the file, the reader ends, and what it returns is a
    prefix of the records that were added; no record is made up, reordered or altered. *)
Theorem log_crash_prefix (dest : W) (records : list (list byte)) (Hempty : wf_contents dest = []) :
  ∃ w w', new_Writer addr dest = Ok w ∧ add_records addr records w = Ok (OK, w')
    ∧ ∀ f reporter checksum fuel m, sf_rest f = take m (wf_contents (dest_ w')) →
        (length (wf_contents (dest_ w')) < fuel)%nat →
        ∃ l r', read_records addr fuel (new_Reader f reporter checksum 0) = Ok (l, r') ∧ l `prefix_of` records.
Proof using Haddr.
  destruct (new_log_holds dest Hempty) as (w & Hw & Hl).
  destruct (add_records_holds records w [] Hl) as (w' & Hadd & Hl'). exists w, w'. split; [done|]. split; [done|].
  intros f reporter checksum fuel m Hf Hfuel. by apply (read_records_prefix w' records f reporter checksum fuel m).
Qed.
End properties.
End log.

Lemma log_roundtrip_witness :
  ∃ w w', new_Writer (λ _, 0) (MemWriter []) = Ok w
    ∧ add_records (λ _, 0) [[x68; x69]; []; [xff]] w = Ok (OK, w')
    ∧ ∀ (f : mem_reader) reporter checksum fuel, sf_rest f = wf_contents (dest_ w') → (length (sf_rest f) < fuel)%nat →
        ∃ r', read_records (λ _, 0) fuel (new_Reader f reporter checksum 0) = Ok ([[x68; x69]; []; [xff]], r')
          ∧ reports r' = [].
Proof.
  apply (log_roundtrip (λ _, 0)); [|reflexivity]. intros bs _. split; [discriminate|reflexivity].
Defined.

Lemma log_crash_prefix_witness :
  ∃ w w', new_Writer (λ _, 0) (MemWriter []) = Ok w
    ∧ add_records (λ _, 0) [[x68; x69]; []; [xff]] w = Ok (OK, w')
    ∧ ∀ (f : mem_reader) reporter checksum fuel m, sf_rest f = take m (wf_contents (dest_ w')) →
        (length (wf_contents (dest_ w')) < fuel)%nat →
        ∃ l r', read_records (λ _, 0) fuel (new_Reader f reporter checksum 0) = Ok (l, r')
          ∧ l `prefix_of` [[x68; x69]; []; [xff]].
Proof.
  apply (log_crash_prefix (λ _, 0)); [|reflexivity]. intros bs _. split; [discriminate|reflexivity].
Defined.
