(* ===== verification/Random.v ===== *)
(** * Random numbers: leveldb util/random.h

    The Lehmer generator modulo [2^31 - 1], with its division-free reduction. A generator is
    its seed. *)
From S2P Require Import Prelude.

Definition new_Random (s : Z) : Z :=
  let seed := Z.land (u32 s) 0x7fffffff in
  if (seed =? 0) || (seed =? 2147483647) then 1 else seed.

Definition Random_Next (seed : Z) : Z :=
  let M := 2147483647 in
  let A := 16807 in
  let product := u64 (seed * A) in
  let seed := u32 (Z.shiftr product 31 + Z.land product M) in
  if M <? seed then u32 (seed - M) else seed.

(** The operations below return the number and the next seed. The argument is an [int], which
    the remainder converts. *)
Definition Uniform (n seed : Z) : res (Z * Z) :=
  let seed := Random_Next seed in
  _ ← defined (negb (u32 n =? 0));
  mret (seed mod u32 n, seed).

Definition OneIn (n seed : Z) : res (bool * Z) :=
  '(r, seed) ← Uniform n seed; mret (r =? 0, seed).

Definition Skewed (max_log seed : Z) : res (Z * Z) :=
  n ← cint (max_log + 1);
  '(base, seed) ← Uniform n seed;
  _ ← defined (base <? 31);
  Uniform (Z.shiftl 1 base) seed.

(** ** Lemmas *)

Definition seed_ok (seed : Z) : Prop := 1 ≤ seed < 2147483647.

Lemma new_Random_ok s : seed_ok (new_Random s).
Proof.
  unfold new_Random, seed_ok. replace (Z.land (u32 s) 0x7fffffff) with (u32 s mod 2^31) by (symmetry; apply (Z.land_ones _ 31); lia).
  pose proof (Z.mod_pos_bound (u32 s) (2^31) ltac:(lia)).
  destruct (Z.eqb_spec (u32 s mod 2^31) 0), (Z.eqb_spec (u32 s mod 2^31) 2147483647); simpl; lia.
Qed.

(** The modulus divides no product: it is prime to the factor. *)
Lemma product_mod seed : seed_ok seed → (seed * 16807) mod 2147483647 ≠ 0.
Proof.
  unfold seed_ok. intros Hs E. apply Z.mod_divide in E; [|lia]. rewrite Z.mul_comm in E.
  apply Z.gauss in E; [|done]. apply Z.divide_pos_le in E; lia.
Qed.

Lemma Next_mod seed : seed_ok seed → Random_Next seed = (seed * 16807) mod 2147483647.
Proof.
  intros Hs. pose proof (product_mod seed Hs) as Hnz. unfold seed_ok in Hs. unfold Random_Next.
  rewrite u64_small by lia. set (p := seed * 16807) in *.
  replace (Z.land p 2147483647) with (p mod 2^31) by (symmetry; apply (Z.land_ones _ 31); lia).
  rewrite Z.shiftr_div_pow2 by lia.
  pose proof (Z.div_mod p (2^31) ltac:(lia)) as Hdm. pose proof (Z.mod_pos_bound p (2^31) ltac:(lia)).
  assert (0 ≤ p / 2^31 < 16807) by (split; [apply Z.div_pos; lia|apply Z.div_lt_upper_bound; lia]).
  rewrite u32_small by lia. set (s := p / 2^31 + p mod 2^31) in *.
  assert (p = s + (p / 2^31) * 2147483647) as Ep by lia.
  assert (p mod 2147483647 = s mod 2147483647) as Em by (rewrite Ep at 1; by rewrite Z.mod_add by lia).
  rewrite Em in Hnz |- *. destruct (Z.ltb_spec 2147483647 s).
  - rewrite u32_small by lia. replace s with ((s - 2147483647) + 1 * 2147483647) at 2 by lia.
    rewrite Z.mod_add, Z.mod_small; lia.
  - rewrite Z.mod_small; [done|]. split; [lia|]. destruct (decide (s = 2147483647)) as [E|]; [|lia].
    by rewrite E in Hnz.
Qed.

Lemma Next_ok seed : seed_ok seed → seed_ok (Random_Next seed).
Proof.
  intros Hs. rewrite Next_mod by done. pose proof (product_mod seed Hs).
  pose proof (Z.mod_pos_bound (seed * 16807) 2147483647 ltac:(lia)). unfold seed_ok. lia.
Qed.

(** ** Property *)

(** The generator computes [seed * 16807 mod (2^31 - 1)] without a division: from any
    seed that the constructor makes, [Next] is that remainder, and it stays in the range
    1..2^31 - 2, on which the recurrence never degenerates to 0 or to the modulus. *)
Theorem random_lehmer s n :
  let seed := new_Random s in
  Nat.iter n Random_Next seed = (seed * 16807 ^ Z.of_nat n) mod (2^31 - 1)
  ∧ 1 ≤ Nat.iter n Random_Next seed ≤ 2^31 - 2.
Proof.
  intros seed. assert (∀ n, seed_ok (Nat.iter n Random_Next seed)) as Hok.
  { intros m. induction m as [|m IH]; [apply new_Random_ok|]. by apply Next_ok. }
  split; [|specialize (Hok n); unfold seed_ok in Hok; lia].
  change (2^31 - 1) with 2147483647. induction n as [|n IH].
  - specialize (Hok 0%nat). unfold seed_ok in Hok. simpl in *. rewrite Z.mul_1_r, Z.mod_small; lia.
  - cbn [Nat.iter nat_rect]. change (nat_rect _ _ _ n) with (Nat.iter n Random_Next seed).
    rewrite Next_mod by done. rewrite IH, Z.mul_mod_idemp_l by lia. f_equal.
    rewrite Nat2Z.inj_succ, Z.pow_succ_r by lia. ring.
Qed.
