(* ===== verification/Arena.v ===== *)
(** * The arena: leveldb util/arena.h, util/arena.cc

    The allocator of the memtable, which cuts small objects from blocks. [new char[n]] is the
    class [Allocator]: it chooses an address, given the live objects of the arena; its promise
    is [AllocatorSpec]. Memory does not run out. *)
From S2P Require Import Prelude.

(** Addresses are integers; a region is an address and a number of bytes. *)
Class Allocator := new_char : list (Z * Z) → Z → Z.

Definition apart (r s : Z * Z) : Prop := r.1 + r.2 ≤ s.1 ∨ s.1 + s.2 ≤ r.1.

Class AllocatorSpec (A : Allocator) : Prop := {
  new_char_positive live n : 0 < n → 0 < new_char live n;
  new_char_aligned live n : 0 < n → new_char live n mod 8 = 0;
  new_char_apart live n r : 0 < n → r ∈ live → apart r (new_char live n, n) }.

Definition kBlockSize : Z := 4096.

(** [blocks_]: the objects, with their sizes, which the allocator keeps. *)
Record Arena := MkArena {
  alloc_ptr_ : Z; alloc_bytes_remaining_ : Z; blocks_ : list (Z * Z); blocks_memory_ : Z }.

Definition new_Arena : Arena := MkArena 0 0 [] 0.

Section arena.
Context `{Allocator}.

Definition AllocateNewBlock (block_bytes : Z) (a : Arena) : Z * Arena :=
  let result := new_char (blocks_ a) block_bytes in
  (result, MkArena (alloc_ptr_ a) (alloc_bytes_remaining_ a) (blocks_ a ++ [(result, block_bytes)])
     (u64 (blocks_memory_ a + block_bytes))).

Definition AllocateFallback (bytes : Z) (a : Arena) : Z * Arena :=
  if kBlockSize / 4 <? bytes then AllocateNewBlock bytes a
  else
    let '(block, a) := AllocateNewBlock kBlockSize a in
    (block, MkArena (block + bytes) (u64 (kBlockSize - bytes)) (blocks_ a) (blocks_memory_ a)).

Definition Allocate (bytes : Z) (a : Arena) : res (Z * Arena) :=
  _ ← c_assert (0 <? bytes);
  mret (if bytes <=? alloc_bytes_remaining_ a then
          (alloc_ptr_ a, MkArena (alloc_ptr_ a + bytes) (u64 (alloc_bytes_remaining_ a - bytes))
             (blocks_ a) (blocks_memory_ a))
        else AllocateFallback bytes a).

Definition AllocateAligned (bytes : Z) (a : Arena) : res (Z * Arena) :=
  let align := 8 in
  let current_mod := Z.land (alloc_ptr_ a) (align - 1) in
  let slop := if current_mod =? 0 then 0 else align - current_mod in
  let needed := u64 (bytes + slop) in
  let '(result, a) :=
    if needed <=? alloc_bytes_remaining_ a then
      (alloc_ptr_ a + slop, MkArena (alloc_ptr_ a + needed) (u64 (alloc_bytes_remaining_ a - needed))
         (blocks_ a) (blocks_memory_ a))
    else AllocateFallback bytes a in
  _ ← c_assert (Z.land result (align - 1) =? 0);
  mret (result, a).

(** [capacity]: the capacity of the vector [blocks_], which the library chooses. *)
Definition MemoryUsage (capacity : Z) (a : Arena) : Z := u64 (blocks_memory_ a + capacity * 8).

(** ** The invariant, for the regions [rs] that were handed out *)

Definition within (r s : Z * Z) : Prop := s.1 ≤ r.1 ∧ r.1 + r.2 ≤ s.1 + s.2.
Definition all_apart (l : list (Z * Z)) : Prop := ∀ i j r s, i ≠ j → l !! i = Some r → l !! j = Some s → apart r s.
Definition free (a : Arena) : Z * Z := (alloc_ptr_ a, alloc_bytes_remaining_ a).

Record arena_ok (a : Arena) (rs : list (Z * Z)) : Prop := {
  arena_blocks : all_apart (blocks_ a);
  arena_positive b : b ∈ blocks_ a → 0 < b.1 ∧ 0 < b.2;
  arena_within r : r ∈ rs → 0 < r.2 ∧ ∃ b, b ∈ blocks_ a ∧ within r b;
  arena_apart : all_apart rs;
  arena_free : 0 ≤ alloc_bytes_remaining_ a < 2^64 ∧ (free a = (0, 0) ∨ ∃ b, b ∈ blocks_ a ∧ within (free a) b);
  arena_unused r : r ∈ rs → apart r (free a) }.

Lemma apart_sym r s : apart r s → apart s r.
Proof using. unfold apart. lia. Qed.

Lemma all_apart_snoc l r : all_apart l → (∀ s, s ∈ l → apart s r) → all_apart (l ++ [r]).
Proof using.
  intros Hl Hr i j x y Hij. rewrite !lookup_app_Some, !list_lookup_singleton_Some.
  intros [Hi|[? [? <-]]] [Hj|[? [? <-]]].
  - by apply (Hl i j).
  - apply Hr. by eapply list_elem_of_lookup_2.
  - apply apart_sym, Hr. by eapply list_elem_of_lookup_2.
  - lia.
Qed.

Lemma apart_within r s b : apart b s → within r b → apart r s.
Proof using. unfold apart, within. lia. Qed.

Lemma new_Arena_ok : arena_ok new_Arena [].
Proof using.
  split; cbn; try (intros; by rewrite ?elem_of_nil in *); try (intros ? ? ? ? ?; by rewrite lookup_nil).
  split; [lia|by left].
Qed.

Context {Hspec : AllocatorSpec _}.

(** A new block is apart from what was handed out, and from the block in use. *)
Lemma new_block_ok n a rs : arena_ok a rs → 0 < n → ∃ p a', AllocateNewBlock n a = (p, a') ∧ 0 < p ∧ p mod 8 = 0
  ∧ arena_ok a' rs ∧ (p, n) ∈ blocks_ a' ∧ free a' = free a
  ∧ (∀ r, r ∈ rs → apart r (p, n)) ∧ (apart (p, n) (free a)).
Proof using Hspec.
  intros [Hb Hp Hw Ha [Hf Hfree] Hu] Hn. eexists _, _. split; [reflexivity|].
  assert (∀ b, b ∈ blocks_ a → apart b (new_char (blocks_ a) n, n)) as Hnew by (intros; by apply new_char_apart).
  pose proof (new_char_positive (blocks_ a) n Hn) as Hpos.
  split; [done|]. split; [by apply new_char_aligned|].
  assert (∀ P : Z * Z → Prop, (∃ b, b ∈ blocks_ a ∧ P b) →
    ∃ b, b ∈ blocks_ a ++ [(new_char (blocks_ a) n, n)] ∧ P b) as Hmono.
  { intros P (b & Hin & HP). exists b. split; [|done]. apply elem_of_app. by left. }
  split; [|split; [|split; [done|split]]].
  - split; cbn [blocks_ alloc_ptr_ alloc_bytes_remaining_]; [by apply all_apart_snoc| | |done| |done].
    + intros b [Hin|Hin%list_elem_of_singleton]%elem_of_app; [by apply Hp|by subst].
    + intros r Hr. destruct (Hw r Hr) as [? ?]. split; [done|]. by apply Hmono.
    + split; [done|]. destruct Hfree as [?|?]; [by left|right]. by apply Hmono.
  - cbn [blocks_]. apply elem_of_app. right. by apply list_elem_of_singleton.
  - intros r Hr. destruct (Hw r Hr) as (_ & b & Hin & Hwi). eapply apart_within; [|done]. by apply Hnew.
  - apply apart_sym. destruct Hfree as [->|(b & Hin & Hwi)]; [left; simpl; lia|].
    eapply apart_within; [|done]. by apply Hnew.
Qed.

(** Handing out [(p, n)]: part of the free region, or a whole block. *)
Lemma hand_out a rs p n a' : arena_ok a' rs → 0 < n → (∃ b, b ∈ blocks_ a' ∧ within (p, n) b) →
  (∀ r, r ∈ rs → apart r (p, n)) → apart (p, n) (free a') → a = a' → arena_ok a (rs ++ [(p, n)]).
Proof using.
  intros [Hb Hp Hw Ha Hf Hu] Hn Hin Hap Hfr ->. split; [done|done| |by apply all_apart_snoc|done|].
  - intros r [Hr|Hr%list_elem_of_singleton]%elem_of_app; [by apply Hw|subst r; done].
  - intros r [Hr|Hr%list_elem_of_singleton]%elem_of_app; [by apply Hu|subst r; done].
Qed.

(** Moving the free region forward within its block. *)
Lemma shrink_ok a rs k : arena_ok a rs → 0 ≤ k ≤ alloc_bytes_remaining_ a → 0 < alloc_bytes_remaining_ a →
  arena_ok (MkArena (alloc_ptr_ a + k) (u64 (alloc_bytes_remaining_ a - k)) (blocks_ a) (blocks_memory_ a)) rs.
Proof using.
  intros [Hb Hp Hw Ha [Hf Hfree] Hu] Hk Hpos. rewrite u64_small by lia. split; cbn; try done.
  - split; [lia|]. right. destruct Hfree as [Hz|(b & Hin & Hwi)]; [unfold free in Hz; simplify_eq; lia|].
    exists b. split; [done|]. unfold within, free in *. cbn in *. lia.
  - intros r Hr. specialize (Hu r Hr). unfold apart, free in *. cbn in *. lia.
Qed.

Lemma Fallback_Ok n a rs : arena_ok a rs → 0 < n → ∃ p a', AllocateFallback n a = (p, a') ∧ 0 < p ∧ p mod 8 = 0
  ∧ arena_ok a' (rs ++ [(p, n)]).
Proof using Hspec.
  intros Hok Hn. unfold AllocateFallback, kBlockSize. change (4096 / 4) with 1024. destruct (Z.ltb_spec 1024 n).
  - destruct (new_block_ok n a rs Hok Hn) as (p & a' & -> & Hp & H8 & Hok' & Hin & Hfr & Hap & Hf).
    exists p, a'. split; [done|]. split; [done|]. split; [done|]. eapply hand_out; [done|done| |done|by rewrite Hfr|done].
    exists (p, n). split; [done|]. split; lia.
  - destruct (new_block_ok 4096 a rs Hok) as (p & a' & -> & Hp & H8 & Hok' & Hin & Hfr & Hap & Hf); [lia|].
    eexists p, _. split; [done|]. split; [done|]. split; [done|]. pose proof Hok' as [Hb Hp' Hw Ha _ _].
    rewrite u64_small by lia. split; cbn; [done|done| | | |].
    + intros r [Hr|Hr%list_elem_of_singleton]%elem_of_app; [by apply Hw|subst r]. split; [done|].
      exists (p, 4096). split; [done|]. split; simpl; lia.
    + apply all_apart_snoc; [done|]. intros r Hr. specialize (Hap r Hr). unfold apart in *. simpl in *. lia.
    + split; [lia|]. right. exists (p, 4096). split; [done|]. unfold within, free. simpl. lia.
    + intros r [Hr|Hr%list_elem_of_singleton]%elem_of_app; [|subst r; left; simpl; lia].
      specialize (Hap r Hr). unfold apart, free in *. simpl in *. lia.
Qed.

Lemma Allocate_Ok n a rs : arena_ok a rs → 0 < n → ∃ p a', Allocate n a = Ok (p, a') ∧ 0 < p
  ∧ arena_ok a' (rs ++ [(p, n)]).
Proof using Hspec.
  intros Hok Hn. unfold Allocate. rewrite c_assert_true by lia. cbn [mbind res_bind].
  destruct (Z.leb_spec n (alloc_bytes_remaining_ a)) as [Hle|].
  - eexists _, _. split; [reflexivity|]. destruct Hok as [Hb Hp Hw Ha [Hf Hfree] Hu] eqn:E. clear E.
    destruct Hfree as [Hz|(b & Hin & Hwi)]; [unfold free in Hz; simplify_eq; lia|].
    pose proof (Hp b Hin). split; [unfold within, free in *; simpl in *; lia|].
    eapply hand_out; [by apply (shrink_ok a rs n); [|lia|lia]|done| | | |reflexivity]; cbn.
    + exists b. split; [done|]. unfold within, free in *. simpl in *. lia.
    + intros r Hr. specialize (Hu r Hr). unfold apart, free in *. simpl in *. lia.
    + left. simpl. lia.
  - destruct (Fallback_Ok n a rs Hok Hn) as (p & a' & -> & Hp & _ & Hok'). by exists p, a'.
Qed.

Lemma land_7 x : Z.land x (8 - 1) = x mod 8.
Proof using. apply (Z.land_ones x 3). lia. Qed.

Lemma AllocateAligned_Ok n a rs : arena_ok a rs → 0 < n < 2^63 → ∃ p a', AllocateAligned n a = Ok (p, a') ∧ 0 < p
  ∧ p mod 8 = 0 ∧ arena_ok a' (rs ++ [(p, n)]).
Proof using Hspec.
  intros Hok Hn. unfold AllocateAligned. rewrite land_7. set (slop := if _ =? 0 then 0 else _).
  assert (0 ≤ slop < 8 ∧ (alloc_ptr_ a + slop) mod 8 = 0) as [Hs H8] by
    (unfold slop; destruct (Z.eqb_spec (alloc_ptr_ a mod 8) 0); dlia).
  rewrite (u64_small (n + slop)) by lia. destruct (Z.leb_spec (n + slop) (alloc_bytes_remaining_ a)) as [Hle|].
  - rewrite land_7, H8. cbn [mbind res_bind c_assert Z.eqb]. eexists _, _. split; [reflexivity|].
    pose proof Hok as [Hb Hp Hw Ha [Hf Hfree] Hu].
    destruct Hfree as [Hz|(b & Hin & Hwi)]; [unfold free in Hz; simplify_eq; lia|].
    pose proof (Hp b Hin). split; [unfold within, free in *; simpl in *; lia|]. split; [done|].
    eapply hand_out; [by apply (shrink_ok a rs (n + slop)); [|lia|lia]|lia| | | |reflexivity]; cbn.
    + exists b. split; [done|]. unfold within, free in *. simpl in *. lia.
    + intros r Hr. specialize (Hu r Hr). unfold apart, free in *. simpl in *. lia.
    + left. simpl. lia.
  - destruct (Fallback_Ok n a rs Hok) as (p & a' & -> & Hp & Hm & Hok'); [lia|].
    rewrite land_7, Hm. cbn [mbind res_bind c_assert Z.eqb]. by exists p, a'.
Qed.

(** Distinct regions start at distinct addresses. *)
Lemma arena_fresh a rs p n q m : arena_ok a (rs ++ [(p, n)]) → (q, m) ∈ rs → p ≠ q.
Proof using.
  intros [_ _ Hw Ha _ _] [i Hi]%list_elem_of_lookup_1 ->.
  pose proof (lookup_lt_Some _ _ _ Hi).
  destruct (Hw (q, n)) as [? _]; [apply elem_of_app; right; by apply list_elem_of_singleton|].
  destruct (Hw (q, m)) as [? _]; [apply elem_of_app; left; by eapply list_elem_of_lookup_2|].
  assert (apart (q, m) (q, n)) as Hap; [|unfold apart in Hap; simpl in *; lia].
  apply (Ha i (length rs)); [lia| |by apply lookup_snoc]. by rewrite lookup_app_l by lia.
Qed.

(** ** Property *)

(** Requests, each for a number of bytes, aligned or not. *)
Fixpoint allocate_all (requests : list (bool * Z)) (a : Arena) : res (list (Z * Z) * Arena) :=
  match requests with
  | [] => mret ([], a)
  | (aligned, n) :: requests =>
      '(p, a) ← (if aligned : bool then AllocateAligned n a else Allocate n a);
      '(rs, a) ← allocate_all requests a;
      mret ((p, n) :: rs, a)
  end.

Lemma allocate_all_Ok requests : ∀ a rs, arena_ok a rs → Forall (λ q, 0 < q.2 < 2^63) requests →
  ∃ rs' a', allocate_all requests a = Ok (rs', a') ∧ arena_ok a' (rs ++ rs')
    ∧ Forall2 (λ q r, r.2 = q.2 ∧ 0 < r.1 ∧ (q.1 = true → r.1 mod 8 = 0)) requests rs'.
Proof using Hspec.
  induction requests as [|[al n] requests IH]; intros a rs Hok Hq; cbn [allocate_all].
  { exists [], a. rewrite app_nil_r. split; [done|]. by split. }
  apply Forall_cons_1 in Hq as [Hn Hq]. cbn in Hn.
  assert (∃ p a', (if al then AllocateAligned n a else Allocate n a) = Ok (p, a') ∧ 0 < p
    ∧ (al = true → p mod 8 = 0) ∧ arena_ok a' (rs ++ [(p, n)])) as (p & a' & -> & Hp & Hal & Hok').
  { destruct al.
    - destruct (AllocateAligned_Ok n a rs Hok Hn) as (p & a' & ? & ? & ? & ?). by exists p, a'.
    - destruct (Allocate_Ok n a rs Hok) as (p & a' & ? & ? & ?); [lia|]. by exists p, a'. }
  cbn [mbind res_bind]. destruct (IH a' _ Hok' Hq) as (rs' & a'' & -> & Hok'' & Hrs).
  cbn [mbind res_bind]. rewrite <-app_assoc in Hok''. exists ((p, n) :: rs'), a''. split; [done|]. split; [done|].
  by constructor.
Qed.

(** Claim C37. The arena is a correct allocator, for any allocator of blocks that keeps its
    promise: a sequence of requests never fails an assertion, each answer has the size asked
    for (and is aligned to 8 if asked for), lies within one block that the arena owns, and no
    two answers overlap. *)
Theorem arena_apart_within (requests : list (bool * Z)) (Hsizes : Forall (λ q, 0 < q.2 < 2^63) requests) :
  ∃ rs a, allocate_all requests new_Arena = Ok (rs, a)
    ∧ Forall2 (λ q r, r.2 = q.2 ∧ 0 < r.1 ∧ (q.1 = true → r.1 mod 8 = 0)) requests rs
    ∧ all_apart rs ∧ all_apart (blocks_ a)
    ∧ ∀ r, r ∈ rs → ∃ b, b ∈ blocks_ a ∧ within r b.
Proof using Hspec.
  destruct (allocate_all_Ok requests _ _ new_Arena_ok Hsizes) as (rs & a & Hr & Hok & Hq).
  exists rs, a. split; [done|]. split; [done|]. destruct Hok as [Hb _ Hw Ha _ _]. split; [done|]. split; [done|].
  intros r Hin. by apply Hw.
Qed.
End arena.

(** An allocator that keeps the promise: above everything that is live. *)
Definition bump_allocator : Allocator := λ live _, 16 + 8 * foldr (λ r m, Z.max (r.1 + Z.max 0 r.2) m) 0 live.

#[export] Instance bump_spec : AllocatorSpec bump_allocator.
Proof.
  assert (∀ live : list (Z * Z), 0 ≤ foldr (λ r m, Z.max (r.1 + Z.max 0 r.2) m) 0 live) as Hpos.
  { induction live; simpl; lia. }
  split; unfold new_char, bump_allocator.
  - intros live n _. specialize (Hpos live). lia.
  - intros live n _. dlia.
  - intros live n r _ Hr. left. simpl. specialize (Hpos live).
    assert (r.1 + r.2 ≤ foldr (λ r m, Z.max (r.1 + Z.max 0 r.2) m) 0 live); [|lia].
    clear Hpos. induction live as [|x live IH]; [by apply elem_of_nil in Hr|]. simpl.
    apply elem_of_cons in Hr as [->|Hr]; [lia|]. specialize (IH Hr). lia.
Qed.

Lemma arena_apart_within_witness :
  ∃ rs a, @allocate_all bump_allocator [(false, 13); (true, 40); (true, 2000); (false, 1)] new_Arena = Ok (rs, a)
    ∧ Forall2 (λ q r, r.2 = q.2 ∧ 0 < r.1 ∧ (q.1 = true → r.1 mod 8 = 0))
        [(false, 13); (true, 40); (true, 2000); (false, 1)] rs
    ∧ all_apart rs ∧ all_apart (blocks_ a)
    ∧ ∀ r, r ∈ rs → ∃ b, b ∈ blocks_ a ∧ within r b.
Proof.
  apply (@arena_apart_within bump_allocator bump_spec). repeat constructor.
Defined.
