(* ===== verification/SkipList.v ===== *)
(** * Skip lists: leveldb db/skiplist.h

    Nodes live in a store indexed by their address, which the arena chooses; a link that was
    never written is [None], reading it is undefined behaviour, and NULL is the address 0.
    The operations of the list, its iterator, and the places where a concurrent reader can
    look at a list that an insertion is changing. *)
From stdpp Require Import gmap.
From S2P Require Import Prelude Random Arena.

Definition kMaxHeight : Z := 12.
Definition kBranching : Z := 4.

Record Node (Key : Type) := MkNode { node_key : Key; next_ : list (option Z) }.
Arguments MkNode {Key}.
Arguments node_key {Key}.
Arguments next_ {Key}.

(** [nodes]: the memory. [arena_] is shared with the owner of the list and passed along. *)
Record SkipList (Key : Type) := MkSkip {
  head_ : Z; max_height_ : Z; rnd_ : Z; nodes : gmap Z (Node Key) }.
Arguments MkSkip {Key}.
Arguments head_ {Key}.
Arguments max_height_ {Key}.
Arguments rnd_ {Key}.
Arguments nodes {Key}.

Section skiplist.
Context `{Allocator} {Key : Type} (null : Key) (compare_ : Key → Key → res Z).

Definition GetMaxHeight (sl : SkipList Key) : Z := max_height_ sl.

Definition Equal (a b : Key) : res bool := r ← compare_ a b; mret (r =? 0).

(** ** Nodes *)

Definition key_of (n : Z) (sl : SkipList Key) : res Key :=
  node ← of_option (nodes sl !! n); mret (node_key node).

Definition NoBarrier_Next (x n : Z) (sl : SkipList Key) : res Z :=
  _ ← c_assert (0 <=? n);
  node ← of_option (nodes sl !! x);
  cell ← of_option (next_ node !! Z.to_nat n);
  of_option cell.
Definition Node_Next (x n : Z) (sl : SkipList Key) : res Z := NoBarrier_Next x n sl.

Definition NoBarrier_SetNext (x n p : Z) (sl : SkipList Key) : res (SkipList Key) :=
  _ ← c_assert (0 <=? n);
  node ← of_option (nodes sl !! x);
  _ ← defined (n <? zlen (next_ node));
  mret (MkSkip (head_ sl) (max_height_ sl) (rnd_ sl)
    (<[x := MkNode (node_key node) (<[Z.to_nat n := Some p]> (next_ node))]> (nodes sl))).
Definition SetNext (x n p : Z) (sl : SkipList Key) : res (SkipList Key) := NoBarrier_SetNext x n p sl.

(** A [Node] is a key and one link, of 8 bytes each. *)
Definition NewNode (key : Key) (height : Z) (a : Arena) (sl : SkipList Key) : res (Z * Arena * SkipList Key) :=
  '(mem, a) ← AllocateAligned (u64 (16 + 8 * (height - 1))) a;
  mret (mem, a, MkSkip (head_ sl) (max_height_ sl) (rnd_ sl)
    (<[mem := MkNode key (replicate (Z.to_nat height) None)]> (nodes sl))).

Fixpoint height_loop (fuel : nat) (height seed : Z) : Z * Z :=
  match fuel with
  | O => (height, seed)
  | S fuel =>
      if height <? kMaxHeight then
        let seed := Random_Next seed in
        if seed mod kBranching =? 0 then height_loop fuel (height + 1) seed else (height, seed)
      else (height, seed)
  end.

Definition RandomHeight (seed : Z) : res (Z * Z) :=
  let '(height, seed) := height_loop (Z.to_nat kMaxHeight) 1 seed in
  _ ← c_assert (0 <? height);
  _ ← c_assert (height <=? kMaxHeight);
  mret (height, seed).

(** ** Searches *)

Definition KeyIsAfterNode (key : Key) (n : Z) (sl : SkipList Key) : res bool :=
  if n =? 0 then mret false else k ← key_of n sl; r ← compare_ k key; mret (r <? 0).

(** [prev[level] = x], if there is a [prev]. *)
Definition set_prev (level x : Z) (prev : option (list (option Z))) : res (option (list (option Z))) :=
  match prev with
  | None => mret None
  | Some p => _ ← defined (level <? zlen p); mret (Some (<[Z.to_nat level := Some x]> p))
  end.

Fixpoint find_ge_loop (fuel : nat) (key : Key) (x level : Z) (prev : option (list (option Z))) (sl : SkipList Key)
    : res (Z * option (list (option Z))) :=
  match fuel with
  | O => Err Diverge
  | S fuel =>
      next ← Node_Next x level sl;
      after ← KeyIsAfterNode key next sl;
      if after : bool then find_ge_loop fuel key next level prev sl
      else
        prev ← set_prev level x prev;
        if level =? 0 then mret (next, prev) else find_ge_loop fuel key x (level - 1) prev sl
  end.

(** Each round moves to another node or goes down a level. *)
Definition rounds (sl : SkipList Key) : nat := size (nodes sl) + Z.to_nat kMaxHeight.

Definition FindGreaterOrEqual (key : Key) (prev : option (list (option Z))) (sl : SkipList Key)
    : res (Z * option (list (option Z))) :=
  find_ge_loop (rounds sl) key (head_ sl) (GetMaxHeight sl - 1) prev sl.

Fixpoint find_less_loop (fuel : nat) (key : Key) (x level : Z) (sl : SkipList Key) : res Z :=
  match fuel with
  | O => Err Diverge
  | S fuel =>
      _ ← (if x =? head_ sl then mret tt else k ← key_of x sl; r ← compare_ k key; c_assert (r <? 0));
      next ← Node_Next x level sl;
      stop ← (if next =? 0 then mret true else k ← key_of next sl; r ← compare_ k key; mret (0 <=? r));
      if stop : bool then if level =? 0 then mret x else find_less_loop fuel key x (level - 1) sl
      else find_less_loop fuel key next level sl
  end.

Definition FindLessThan (key : Key) (sl : SkipList Key) : res Z :=
  find_less_loop (rounds sl) key (head_ sl) (GetMaxHeight sl - 1) sl.

Fixpoint find_last_loop (fuel : nat) (x level : Z) (sl : SkipList Key) : res Z :=
  match fuel with
  | O => Err Diverge
  | S fuel =>
      next ← Node_Next x level sl;
      if next =? 0 then if level =? 0 then mret x else find_last_loop fuel x (level - 1) sl
      else find_last_loop fuel next level sl
  end.

Definition FindLast (sl : SkipList Key) : res Z :=
  find_last_loop (rounds sl) (head_ sl) (GetMaxHeight sl - 1) sl.

Definition Contains (key : Key) (sl : SkipList Key) : res bool :=
  '(x, _) ← FindGreaterOrEqual key None sl;
  if x =? 0 then mret false else k ← key_of x sl; Equal key k.

(** ** Updates *)

(** [head_->SetNext(i, NULL)] for the levels from [i] on. *)
Fixpoint clear_loop (n : nat) (i : Z) (sl : SkipList Key) : res (SkipList Key) :=
  match n with
  | O => mret sl
  | S n => sl ← SetNext (head_ sl) i 0 sl; clear_loop n (i + 1) sl
  end.

Definition new_SkipList (a : Arena) : res (Arena * SkipList Key) :=
  '(head, a, sl) ← NewNode null kMaxHeight a (MkSkip 0 0 0 ∅);
  let sl := MkSkip head 1 (new_Random 0xdeadbeef) (nodes sl) in
  sl ← clear_loop (Z.to_nat kMaxHeight) 0 sl;
  mret (a, sl).

(** [prev[i] = head_] for the levels from [i] on. *)
Fixpoint raise_loop (n : nat) (i head : Z) (prev : list (option Z)) : res (list (option Z)) :=
  match n with
  | O => mret prev
  | S n =>
      _ ← defined (i <? zlen prev);
      raise_loop n (i + 1) head (<[Z.to_nat i := Some head]> prev)
  end.

(** [Insert] up to the links of the new node: the node, its height, its predecessors. *)
Definition insert_node (key : Key) (a : Arena) (sl : SkipList Key)
    : res (Z * Z * list (option Z) * Arena * SkipList Key) :=
  '(x, prev) ← FindGreaterOrEqual key (Some (replicate (Z.to_nat kMaxHeight) None)) sl;
  prev ← of_option prev;
  _ ← (if x =? 0 then mret tt else k ← key_of x sl; e ← Equal key k; c_assert (negb e));
  '(height, rnd) ← RandomHeight (rnd_ sl);
  let raised := GetMaxHeight sl <? height in
  prev ← (if raised then raise_loop (Z.to_nat (height - GetMaxHeight sl)) (GetMaxHeight sl) (head_ sl) prev
          else mret prev);
  let sl := MkSkip (head_ sl) (if raised then height else max_height_ sl) rnd (nodes sl) in
  '(x, a, sl) ← NewNode key height a sl;
  mret (x, height, prev, a, sl).

(** The two stores of a round: the link of the new node, then the link to it. *)
Definition link_node (x : Z) (prev : list (option Z)) (i : Z) (sl : SkipList Key) : res (SkipList Key) :=
  cell ← of_option (prev !! Z.to_nat i);
  p ← of_option cell;
  next ← NoBarrier_Next p i sl;
  NoBarrier_SetNext x i next sl.
Definition publish_node (x : Z) (prev : list (option Z)) (i : Z) (sl : SkipList Key) : res (SkipList Key) :=
  cell ← of_option (prev !! Z.to_nat i);
  p ← of_option cell;
  SetNext p i x sl.

Fixpoint link_loop (n : nat) (i x : Z) (prev : list (option Z)) (sl : SkipList Key) : res (SkipList Key) :=
  match n with
  | O => mret sl
  | S n => sl ← link_node x prev i sl; sl ← publish_node x prev i sl; link_loop n (i + 1) x prev sl
  end.

Definition Insert (key : Key) (a : Arena) (sl : SkipList Key) : res (Arena * SkipList Key) :=
  '(x, height, prev, a, sl) ← insert_node key a sl;
  sl ← link_loop (Z.to_nat height) 0 x prev sl;
  mret (a, sl).

(** What another thread can see: the list when [Insert] has done the first [k] stores of its
    last loop. *)
Definition Insert_upto (k : nat) (key : Key) (a : Arena) (sl : SkipList Key) : res (SkipList Key) :=
  '(x, height, prev, a, sl) ← insert_node key a sl;
  sl ← link_loop (Nat.min (k / 2) (Z.to_nat height)) 0 x prev sl;
  if Nat.odd k && (Z.of_nat (k / 2) <? height) then link_node x prev (Z.of_nat (k / 2)) sl else mret sl.

(** ** Iterators: the address [node_] *)

Definition new_Iterator : Z := 0.
Definition Iter_Valid (node_ : Z) : bool := negb (node_ =? 0).
Definition Iter_key (node_ : Z) (sl : SkipList Key) : res Key :=
  _ ← c_assert (Iter_Valid node_); key_of node_ sl.
Definition Iter_Next (node_ : Z) (sl : SkipList Key) : res Z :=
  _ ← c_assert (Iter_Valid node_); Node_Next node_ 0 sl.
Definition Iter_Prev (node_ : Z) (sl : SkipList Key) : res Z :=
  _ ← c_assert (Iter_Valid node_);
  k ← key_of node_ sl;
  node_ ← FindLessThan k sl;
  mret (if node_ =? head_ sl then 0 else node_).
Definition Iter_Seek (target : Key) (sl : SkipList Key) : res Z :=
  '(node_, _) ← FindGreaterOrEqual target None sl; mret node_.
Definition Iter_SeekToFirst (sl : SkipList Key) : res Z := Node_Next (head_ sl) 0 sl.
Definition Iter_SeekToLast (sl : SkipList Key) : res Z :=
  node_ ← FindLast sl; mret (if node_ =? head_ sl then 0 else node_).
End skiplist.
