(* ===== verification/SkipProps.v ===== *)
(** * Skip lists are sorted lists

    [rep sl es]: the memory of [sl] is a skip list whose nodes are, in order, the entries [es].
    An entry counts on the levels below its height; while an insertion is linking a node, its
    height is the number of levels that it is linked on. *)
From stdpp Require Import gmap sorting.
From S2P Require Import Prelude Order Random Arena SkipList.

Record entry (Key : Type) := MkEntry { e_ptr : Z; e_height : nat; e_key : Key }.
Arguments MkEntry {Key}.
Arguments e_ptr {Key}.
Arguments e_height {Key}.
Arguments e_key {Key}.

(** The entries on a level, the first of them, the last of them. *)
Section levels.
Context {Key : Type}.
Implicit Types es : list (entry Key).

Definition lvl (l : nat) es : list (entry Key) := filter (λ e, (l < e_height e)%nat) es.
Definition first (l : nat) es : Z := match lvl l es with [] => 0 | e :: _ => e_ptr e end.
Definition last_on (head : Z) (l : nat) es : Z := match last (lvl l es) with Some e => e_ptr e | None => head end.

Lemma lvl_app l es es' : lvl l (es ++ es') = lvl l es ++ lvl l es'.
Proof. apply filter_app. Qed.

Lemma first_app l es es' : first l (es ++ es') = match lvl l es with [] => first l es' | e :: _ => e_ptr e end.
Proof. unfold first. rewrite lvl_app. by destruct (lvl l es). Qed.

Lemma lvl_cons_in l e es : (l < e_height e)%nat → lvl l (e :: es) = e :: lvl l es.
Proof. intros H. unfold lvl. by rewrite filter_cons_True. Qed.

Lemma lvl_cons_out l e es : (e_height e ≤ l)%nat → lvl l (e :: es) = lvl l es.
Proof. intros H. unfold lvl. by rewrite filter_cons_False by lia. Qed.

Lemma lvl_snoc_in l es e : (l < e_height e)%nat → lvl l (es ++ [e]) = lvl l es ++ [e].
Proof. intros H. by rewrite lvl_app, lvl_cons_in. Qed.

Lemma lvl_snoc_out l es e : (e_height e ≤ l)%nat → lvl l (es ++ [e]) = lvl l es.
Proof. intros H. rewrite lvl_app, lvl_cons_out by done. apply app_nil_r. Qed.

(** Going down, a level has more entries. *)
Lemma lvl_nil_mono l l' es : (l' ≤ l)%nat → lvl l' es = [] → lvl l es = [].
Proof.
  intros Hl. unfold lvl. induction es as [|e es IH]; [done|]. rewrite !filter_cons.
  repeat case_decide; try done; lia.
Qed.

Lemma lvl_split l es e rest : lvl l es = e :: rest →
  ∃ a b, es = a ++ e :: b ∧ lvl l a = [] ∧ lvl l b = rest ∧ (l < e_height e)%nat.
Proof.
  unfold lvl. induction es as [|x es IH]; [done|]. rewrite filter_cons. case_decide as Hx.
  - intros [= -> <-]. by exists [], es.
  - intros (a & b & -> & Ha & Hb & He)%IH. exists (x :: a), b. by rewrite filter_cons, decide_False.
Qed.

Lemma last_on_snoc head l es e : (l < e_height e)%nat → last_on head l (es ++ [e]) = e_ptr e.
Proof. intros He. unfold last_on. by rewrite lvl_snoc_in, last_snoc. Qed.

Lemma last_on_app_nil head l es es' : lvl l es' = [] → last_on head l (es ++ es') = last_on head l es.
Proof. intros E. unfold last_on. by rewrite lvl_app, E, app_nil_r. Qed.

(** The last entry of a level, or none. *)
Lemma last_on_cases head l es : (last_on head l es = head ∧ lvl l es = [])
  ∨ ∃ a e b, es = a ++ e :: b ∧ lvl l b = [] ∧ (l < e_height e)%nat ∧ last_on head l es = e_ptr e.
Proof.
  unfold last_on. induction es as [|e es IH] using rev_ind; [by left|].
  destruct (decide (l < e_height e)%nat) as [He|He].
  - right. exists es, e, []. by rewrite lvl_snoc_in, last_snoc by done.
  - rewrite lvl_snoc_out by lia. destruct IH as [[? ->]|(a & e' & b & -> & Hb & He' & IH)]; [by left|right].
    exists a, e', (b ++ [e]). rewrite <-app_assoc, lvl_snoc_out by lia. done.
Qed.
End levels.

Section rep.
Context {Key : Type} {ok : Key → Prop} {c : Key → Key → Z} {Hc : CmpOrder c}.
Implicit Types es : list (entry Key).

(** The links of a node up to height [h], when [es] comes after it. *)
Definition links (node : Node Key) (h : nat) es : Prop := ∀ i, (i < h)%nat → next_ node !! i = Some (Some (first i es)).

Record rep (sl : SkipList Key) es : Prop := {
  rep_head : ∃ node, nodes sl !! head_ sl = Some node ∧ links node 12 es ∧ length (next_ node) = 12%nat;
  rep_entry pre e post : es = pre ++ e :: post →
    ∃ node, nodes sl !! e_ptr e = Some node ∧ node_key node = e_key e ∧ links node (e_height e) post;
  rep_ptrs : NoDup (head_ sl :: map e_ptr es);
  rep_null e : e ∈ es → e_ptr e ≠ 0;
  rep_max : 1 ≤ max_height_ sl ≤ 12;
  rep_heights e : e ∈ es → Z.of_nat (e_height e) ≤ max_height_ sl;
  rep_sorted : StronglySorted (λ a b, c (e_key a) (e_key b) < 0) es;
  rep_keys e : e ∈ es → ok (e_key e) }.

(** [x] is the head or an entry, [done] comes up to it and [rest] after it; it is on level [l]. *)
Record at_node (sl : SkipList Key) (x : Z) (done rest : list (entry Key)) (l : nat) : Prop := {
  at_node_x : ∃ node, nodes sl !! x = Some node ∧ links node (S l) rest;
  at_last i : (i ≤ l)%nat → last_on (head_ sl) i done = x }.

Lemma at_head sl es l : rep sl es → (l < 12)%nat → at_node sl (head_ sl) [] es l.
Proof using.
  intros Hrep Hl. destruct (rep_head _ _ Hrep) as (node & Hn & Hlinks & _). split; [|done].
  exists node. split; [done|]. intros i Hi. apply Hlinks. lia.
Qed.

Lemma at_lower sl x done rest l l' : at_node sl x done rest l → (l' ≤ l)%nat → at_node sl x done rest l'.
Proof using.
  intros [(node & Hn & Hlinks) Hlast] Hl. split; [|intros; apply Hlast; lia].
  exists node. split; [done|]. intros i Hi. apply Hlinks. lia.
Qed.

Lemma Next_at sl x done rest l : at_node sl x done rest l → Node_Next x (Z.of_nat l) sl = Ok (first l rest).
Proof using.
  intros [(node & Hn & Hlinks) _]. unfold Node_Next, NoBarrier_Next. rewrite c_assert_true by lia.
  cbn [mbind res_bind]. rewrite Hn. cbn [of_option mbind res_bind]. rewrite Nat2Z.id, Hlinks by lia. done.
Qed.

Lemma at_entry sl es pre e post l : rep sl es → es = pre ++ e :: post → (l < e_height e)%nat →
  at_node sl (e_ptr e) (pre ++ [e]) post l.
Proof using.
  intros Hrep Hes Hl. destruct (rep_entry _ _ Hrep _ _ _ Hes) as (node & Hn & Hk & Hlinks). split.
  - exists node. split; [done|]. intros i Hi. apply Hlinks. lia.
  - intros i Hi. apply last_on_snoc. lia.
Qed.

(** One round of a search on level [l]: nothing before [post] is left on the level, or the
    next node is an entry before [post]. *)
Lemma search_step sl es x done mid post l : rep sl es → es = done ++ mid ++ post → at_node sl x done (mid ++ post) l →
  (lvl l mid = [] ∧ Node_Next x (Z.of_nat l) sl = Ok (first l post) ∧ last_on (head_ sl) l (done ++ mid) = x)
  ∨ ∃ a e b, mid = a ++ e :: b ∧ Node_Next x (Z.of_nat l) sl = Ok (e_ptr e)
      ∧ at_node sl (e_ptr e) (done ++ a ++ [e]) (b ++ post) l.
Proof using.
  intros Hrep Hes Hat. rewrite (Next_at _ _ _ _ _ Hat). rewrite first_app. destruct (lvl l mid) as [|e rest] eqn:E.
  - left. split; [done|]. split; [done|]. rewrite last_on_app_nil by done. by apply Hat.
  - right. apply lvl_split in E as (a & b & -> & Ha & Hb & He). exists a, e, b. split; [done|]. split; [done|].
    rewrite app_assoc. apply (at_entry sl es); [done| |done]. rewrite Hes, <-!app_assoc. done.
Qed.

Lemma key_of_entry sl es e : rep sl es → e ∈ es → key_of (e_ptr e) sl = Ok (e_key e).
Proof using.
  intros Hrep (pre & post & Hes)%list_elem_of_split. destruct (rep_entry _ _ Hrep _ _ _ Hes) as (node & Hn & Hk & _).
  unfold key_of. rewrite Hn. cbn [of_option mbind res_bind mret res_ret]. by rewrite Hk.
Qed.

(** The first entry on a level, which is the null pointer or an entry. *)
Lemma first_cases l es : (first l es = 0 ∧ lvl l es = []) ∨ ∃ e, e ∈ es ∧ (l < e_height e)%nat ∧ first l es = e_ptr e ∧ head (lvl l es) = Some e.
Proof using.
  unfold first. destruct (lvl l es) as [|e rest] eqn:E; [by left|right]. apply lvl_split in E as (a & b & -> & _ & _ & He).
  exists e. split; [|done]. apply elem_of_app. right. left.
Qed.

(** No entry is at the address of the head. *)
Lemma ptr_not_head sl es e : rep sl es → e ∈ es → e_ptr e ≠ head_ sl.
Proof using.
  intros Hrep He E. destruct (NoDup_cons_1_1 _ _ (rep_ptrs _ _ Hrep)) as []. rewrite <-E.
  apply list_elem_of_In, in_map, list_elem_of_In. done.
Qed.

(** The memory has a node per entry. *)
Lemma rounds_enough sl es : rep sl es → (length es + 12 ≤ rounds sl)%nat.
Proof using.
  intros Hrep. unfold rounds, kMaxHeight. change (Z.to_nat 12) with 12%nat.
  assert (length es ≤ size (nodes sl))%nat; [|lia].
  pose proof (rep_ptrs _ _ Hrep) as Hnd. apply NoDup_cons_1_2 in Hnd.
  rewrite <-(length_map e_ptr es), <-(size_list_to_set (C := gset Z)) by done. rewrite <-size_dom.
  apply subseteq_size. intros p Hp%elem_of_list_to_set. apply list_elem_of_In, in_map_iff in Hp as (e & <- & He%list_elem_of_In).
  apply list_elem_of_split in He as (pre & post & Hes). destruct (rep_entry _ _ Hrep _ _ _ Hes) as (node & Hn & _).
  by apply elem_of_dom_2 in Hn.
Qed.
End rep.

(** ** Searches *)

Section search.
Context `{Allocator} {Key : Type} {ok : Key → Prop} {c : Key → Key → Z} {Hc : CmpOrder c} {compare_ : Key → Key → res Z}
  (Hcmp : ∀ a b, ok a → ok b → compare_ a b = Ok (c a b)).
Implicit Types es : list (entry Key).
Implicit Types sl : SkipList Key.

Abbreviation rep := (@rep Key ok c).

(** [pre] is below the key, [post] is not. *)
Definition split_at (k : Key) es pre post : Prop :=
  es = pre ++ post ∧ (∀ e, e ∈ pre → c (e_key e) k < 0) ∧ (∀ e, e ∈ post → 0 ≤ c (e_key e) k).

Lemma split_exists sl es k : rep sl es → ∃ pre post, split_at k es pre post.
Proof using Hc.
  intros Hrep. pose proof (rep_sorted _ _ Hrep) as Hs. clear Hrep.
  induction es as [|e es IH]; [exists [], []; split; [done|]; split; intros ? ?%elem_of_nil; done|].
  apply StronglySorted_inv in Hs as [Hs He]. destruct (Z.ltb_spec (c (e_key e) k) 0) as [Hlt|Hge].
  - destruct (IH Hs) as (pre & post & -> & Hpre & Hpost). exists (e :: pre), post. split; [done|].
    split; [|done]. intros x [->|Hx]%elem_of_cons; [done|by apply Hpre].
  - exists [], (e :: es). split; [done|]. split; [by intros ? ?%elem_of_nil|].
    intros x [->|Hx]%elem_of_cons; [done|]. rewrite Forall_forall in He. specialize (He x Hx).
    destruct (Z.ltb_spec (c (e_key x) k) 0); [|done].
    pose proof (cmp_lt_le c (e_key e) (e_key x) k). lia.
Qed.

Lemma KeyIsAfter_first sl es k pre post l : rep sl es → ok k → split_at k es pre post →
  KeyIsAfterNode compare_ k (first l post) sl = Ok false.
Proof using Hcmp.
  intros Hrep Hk (-> & _ & Hpost). unfold KeyIsAfterNode.
  destruct (first_cases l post) as [[-> _]|(e & He & _ & -> & _)]; [done|].
  assert (e ∈ pre ++ post) as Hin by (apply elem_of_app; by right).
  pose proof (rep_null _ _ Hrep e Hin). replace (e_ptr e =? 0) with false by lia.
  rewrite (key_of_entry _ _ _ Hrep Hin). cbn [mbind res_bind]. rewrite Hcmp by (done || by eapply rep_keys).
  cbn [mbind res_bind mret res_ret]. specialize (Hpost e He). by replace (_ <? 0) with false by lia.
Qed.

Lemma KeyIsAfter_pre sl es k pre post e : rep sl es → ok k → split_at k es pre post → e ∈ pre →
  KeyIsAfterNode compare_ k (e_ptr e) sl = Ok true.
Proof using Hcmp.
  intros Hrep Hk (-> & Hpre & _) He. unfold KeyIsAfterNode.
  assert (e ∈ pre ++ post) as Hin by (apply elem_of_app; by left).
  pose proof (rep_null _ _ Hrep e Hin). replace (e_ptr e =? 0) with false by lia.
  rewrite (key_of_entry _ _ _ Hrep Hin). cbn [mbind res_bind]. rewrite Hcmp by (done || by eapply rep_keys).
  cbn [mbind res_bind mret res_ret]. specialize (Hpre e He). by replace (_ <? 0) with true by lia.
Qed.

(** What a search leaves in [prev]: the last node before the key on each level it visits. *)
Definition prev_set (head : Z) (pre : list (entry Key)) (l : nat) (prev prev' : option (list (option Z))) : Prop :=
  match prev, prev' with
  | None, None => True
  | Some p, Some p' => length p' = length p ∧ (∀ i, (i ≤ l)%nat → p' !! i = Some (Some (last_on head i pre)))
      ∧ ∀ i, (l < i)%nat → p' !! i = p !! i
  | _, _ => False
  end.

Lemma find_ge_loop_Ok sl es k pre post : rep sl es → ok k → split_at k es pre post →
  ∀ fuel x done mid l prev, pre = done ++ mid → at_node sl x done (mid ++ post) l →
  (length mid + l < fuel)%nat → (∀ p, prev = Some p → (l < length p)%nat) →
  ∃ prev', find_ge_loop compare_ fuel k x (Z.of_nat l) prev sl = Ok (first 0 post, prev')
    ∧ prev_set (head_ sl) pre l prev prev'.
Proof using Hcmp.
  intros Hrep Hk Hsplit. induction fuel as [|fuel IH]; intros x done mid l prev Hpre Hat Hfuel Hlen; [lia|].
  cbn [find_ge_loop]. pose proof Hsplit as (Hes & _ & _). rewrite Hpre, <-app_assoc in Hes.
  destruct (search_step sl es x done mid post l Hrep Hes Hat) as [(Hnil & -> & Hlast)|(a & e & b & -> & -> & Hat')].
  - cbn [mbind res_bind]. rewrite (KeyIsAfter_first sl es k pre post l) by done. cbn [mbind res_bind].
    rewrite <-Hpre in Hlast.
    assert (∃ prev1, set_prev (Z.of_nat l) x prev = Ok prev1 ∧ match prev, prev1 with
      | None, None => True | Some p, Some p1 => p1 = <[l := Some x]> p | _, _ => False end) as (prev1 & -> & Hp1).
    { destruct prev as [p|]; [|by exists None]. exists (Some (<[l := Some x]> p)). cbn [set_prev].
      specialize (Hlen p eq_refl). rewrite defined_true, Nat2Z.id by lia. done. }
    cbn [mbind res_bind]. destruct l as [|l].
    + cbn [Z.of_nat Z.eqb]. eexists. split; [reflexivity|]. destruct prev as [p|], prev1 as [p1|]; try done.
      subst p1. specialize (Hlen p eq_refl). split; [by rewrite length_insert|]. split.
      * intros i Hi. replace i with 0%nat by lia. rewrite list_lookup_insert_eq by lia. by rewrite Hlast.
      * intros i Hi. by rewrite list_lookup_insert_ne by lia.
    + replace (Z.of_nat (S l) =? 0) with false by lia. replace (Z.of_nat (S l) - 1) with (Z.of_nat l) by lia.
      destruct (IH x done mid l prev1) as (prev' & -> & Hp'); [done|eapply at_lower; [done|lia]|lia| |].
      { destruct prev as [p|], prev1 as [p1|]; try done. subst p1. intros ? [= <-].
        specialize (Hlen p eq_refl). rewrite length_insert. lia. }
      exists prev'. split; [done|]. destruct prev as [p|], prev1 as [p1|], prev' as [p'|]; try done.
      subst p1. specialize (Hlen p eq_refl). destruct Hp' as (HL & Hlow & Hhigh). rewrite length_insert in HL.
      split; [done|]. split.
      * intros i Hi. destruct (decide (i = S l)) as [->|]; [|apply Hlow; lia].
        rewrite Hhigh, list_lookup_insert_eq by lia. by rewrite Hlast.
      * intros i Hi. by rewrite Hhigh, list_lookup_insert_ne by lia.
  - cbn [mbind res_bind]. assert (e ∈ pre) as He.
    { rewrite Hpre. apply elem_of_app. right. apply elem_of_app. right. left. }
    rewrite (KeyIsAfter_pre sl es k pre post e) by done. cbn [mbind res_bind].
    apply (IH (e_ptr e) (done ++ a ++ [e]) b l prev); [|done| |done].
    + by rewrite Hpre, <-!app_assoc.
    + rewrite !length_app in Hfuel. simpl in Hfuel. lia.
Qed.

Lemma FindGE_Ok sl es k pre post prev : rep sl es → ok k → split_at k es pre post →
  (∀ p, prev = Some p → length p = 12%nat) →
  ∃ prev', FindGreaterOrEqual compare_ k prev sl = Ok (first 0 post, prev')
    ∧ prev_set (head_ sl) pre (Z.to_nat (max_height_ sl) - 1) prev prev'.
Proof using Hcmp.
  intros Hrep Hk Hsplit Hlen. unfold FindGreaterOrEqual, GetMaxHeight. pose proof (rep_max _ _ Hrep) as Hm.
  replace (max_height_ sl - 1) with (Z.of_nat (Z.to_nat (max_height_ sl) - 1)) by lia.
  pose proof Hsplit as (Hes & _ & _). pose proof (rounds_enough _ _ Hrep) as Hr.
  apply (find_ge_loop_Ok sl es k pre post Hrep Hk Hsplit _ _ [] pre); [done| | |].
  - rewrite <-Hes. apply (at_head sl es _ Hrep); lia.
  - rewrite Hes, length_app in Hr. lia.
  - intros p Hp. rewrite (Hlen p Hp). lia.
Qed.

Lemma find_less_loop_Ok sl es k pre post : rep sl es → ok k → split_at k es pre post →
  ∀ fuel x done mid l, pre = done ++ mid → at_node sl x done (mid ++ post) l → (length mid + l < fuel)%nat →
  find_less_loop compare_ fuel k x (Z.of_nat l) sl = Ok (last_on (head_ sl) 0 pre).
Proof using Hcmp.
  intros Hrep Hk Hsplit. induction fuel as [|fuel IH]; intros x done mid l Hpre Hat Hfuel; [lia|].
  cbn [find_less_loop]. pose proof Hsplit as (Hes & Hlow & Hhigh). rewrite Hpre, <-app_assoc in Hes.
  assert ((if x =? head_ sl then mret () else k' ← key_of x sl; r ← compare_ k' k; c_assert (r <? 0)) = Ok tt) as ->.
  { destruct (Z.eqb_spec x (head_ sl)) as [|Hne]; [done|].
    pose proof (at_last _ _ _ _ _ Hat l ltac:(lia)) as Hl.
    destruct (last_on_cases (head_ sl) l done) as [[? _]|(a & e & b & Hd & _ & _ & Hx)]; [congruence|].
    rewrite Hl in Hx. rewrite Hx.
    assert (e ∈ pre) as He by (rewrite Hpre, Hd; apply elem_of_app; left; apply elem_of_app; right; left).
    assert (e ∈ es) as Hin by (rewrite Hes, app_assoc, <-Hpre; apply elem_of_app; by left).
    rewrite (key_of_entry _ _ _ Hrep Hin). cbn [mbind res_bind]. rewrite Hcmp by (done || by eapply rep_keys).
    cbn [mbind res_bind]. specialize (Hlow e He). by rewrite c_assert_true by lia. }
  cbn [mbind res_bind].
  destruct (search_step sl es x done mid post l Hrep Hes Hat) as [(Hnil & -> & Hlast)|(a & e & b & -> & -> & Hat')].
  - cbn [mbind res_bind].
    assert ((if first l post =? 0 then mret true
             else k' ← key_of (first l post) sl; r ← compare_ k' k; mret (0 <=? r)) = Ok true) as ->.
    { destruct (first_cases l post) as [[-> _]|(e & He & _ & -> & _)]; [done|].
      assert (e ∈ es) as Hin by (rewrite Hes; apply elem_of_app; right; apply elem_of_app; by right).
      pose proof (rep_null _ _ Hrep e Hin). replace (e_ptr e =? 0) with false by lia.
      rewrite (key_of_entry _ _ _ Hrep Hin). cbn [mbind res_bind]. rewrite Hcmp by (done || by eapply rep_keys).
      cbn [mbind res_bind mret res_ret]. specialize (Hhigh e He). by rewrite (proj2 (Z.leb_le 0 _) Hhigh). }
    cbn [mbind res_bind]. rewrite <-Hpre in Hlast. destruct l as [|l].
    + cbn [Z.of_nat Z.eqb mret res_ret]. by rewrite Hlast.
    + replace (Z.of_nat (S l) =? 0) with false by lia. replace (Z.of_nat (S l) - 1) with (Z.of_nat l) by lia.
      apply (IH x done mid l); [done|eapply at_lower; [done|lia]|lia].
  - cbn [mbind res_bind].
    assert (e ∈ pre) as He by (rewrite Hpre; apply elem_of_app; right; apply elem_of_app; right; left).
    assert (e ∈ es) as Hin by (rewrite Hes, app_assoc, <-Hpre; apply elem_of_app; by left).
    pose proof (rep_null _ _ Hrep e Hin). replace (e_ptr e =? 0) with false by lia.
    rewrite (key_of_entry _ _ _ Hrep Hin). cbn [mbind res_bind]. rewrite Hcmp by (done || by eapply rep_keys).
    cbn [mbind res_bind mret res_ret]. specialize (Hlow e He). rewrite (proj2 (Z.leb_gt 0 _) Hlow).
    apply (IH (e_ptr e) (done ++ a ++ [e]) b l); [|done|].
    + by rewrite Hpre, <-!app_assoc.
    + rewrite !length_app in Hfuel. simpl in Hfuel. lia.
Qed.

Lemma FindLess_Ok sl es k pre post : rep sl es → ok k → split_at k es pre post →
  FindLessThan compare_ k sl = Ok (last_on (head_ sl) 0 pre).
Proof using Hcmp.
  intros Hrep Hk Hsplit. unfold FindLessThan, GetMaxHeight. pose proof (rep_max _ _ Hrep) as Hm.
  replace (max_height_ sl - 1) with (Z.of_nat (Z.to_nat (max_height_ sl) - 1)) by lia.
  pose proof Hsplit as (Hes & _ & _). pose proof (rounds_enough _ _ Hrep) as Hr.
  apply (find_less_loop_Ok sl es k pre post Hrep Hk Hsplit _ _ [] pre); [done| |].
  - rewrite <-Hes. apply (at_head sl es _ Hrep); lia.
  - rewrite Hes, length_app in Hr. lia.
Qed.

Lemma find_last_loop_Ok sl es : rep sl es → ∀ fuel x done mid l, es = done ++ mid → at_node sl x done mid l →
  (length mid + l < fuel)%nat → find_last_loop fuel x (Z.of_nat l) sl = Ok (last_on (head_ sl) 0 es).
Proof using.
  clear Hcmp. intros Hrep. induction fuel as [|fuel IH]; intros x done mid l Hes Hat Hfuel; [lia|]. cbn [find_last_loop].
  destruct (search_step sl es x done mid [] l Hrep) as [(Hnil & -> & Hlast)|(a & e & b & -> & -> & Hat')];
    rewrite ?app_nil_r in *; try done.
  - cbn [mbind res_bind]. change (first l [] =? 0) with true. cbv iota. rewrite <-Hes in Hlast. destruct l as [|l].
    + cbn [Z.of_nat Z.eqb mret res_ret]. by rewrite Hlast.
    + replace (Z.of_nat (S l) =? 0) with false by lia. replace (Z.of_nat (S l) - 1) with (Z.of_nat l) by lia.
      apply (IH x done mid l); [done|eapply at_lower; [done|lia]|lia].
  - cbn [mbind res_bind].
    assert (e ∈ es) as Hin by (rewrite Hes; apply elem_of_app; right; apply elem_of_app; right; left).
    pose proof (rep_null _ _ Hrep e Hin). replace (e_ptr e =? 0) with false by lia.
    apply (IH (e_ptr e) (done ++ a ++ [e]) b l); [|done|].
    + by rewrite Hes, <-!app_assoc.
    + rewrite !length_app in Hfuel. simpl in Hfuel. lia.
Qed.

Lemma FindLast_Ok sl es : rep sl es → FindLast sl = Ok (last_on (head_ sl) 0 es).
Proof using.
  clear Hcmp. intros Hrep. unfold FindLast, GetMaxHeight. pose proof (rep_max _ _ Hrep) as Hm.
  replace (max_height_ sl - 1) with (Z.of_nat (Z.to_nat (max_height_ sl) - 1)) by lia.
  pose proof (rounds_enough _ _ Hrep) as Hr.
  apply (find_last_loop_Ok sl es Hrep _ _ [] es); [done| |lia]. apply (at_head sl es _ Hrep); lia.
Qed.
End search.

(** ** Linking a node *)

Lemma app_cons_cases {A} (pre post a b : list A) x e : pre ++ x :: post = a ++ e :: b →
  (∃ b', pre = a ++ e :: b' ∧ b = b' ++ x :: post) ∨ (a = pre ∧ e = x ∧ b = post)
  ∨ ∃ a', a = pre ++ x :: a' ∧ post = a' ++ e :: b.
Proof.
  revert a. induction pre as [|y pre IH]; intros [|z a] E; simplify_eq/=.
  - right. left. done.
  - right. right. by exists a.
  - left. by exists pre.
  - match goal with Heq : _ ++ _ = _ ++ _ |- _ => apply IH in Heq as [(b' & -> & ->)|[(-> & -> & ->)|(a' & -> & ->)]] end.
    + left. by exists b'.
    + right. by left.
    + right. right. by exists a'.
Qed.

Lemma NoDup_position {A B} (f : A → B) a e b a' e' b' : NoDup (map f (a ++ e :: b)) →
  a ++ e :: b = a' ++ e' :: b' → f e = f e' → e = e' ∧ b = b'.
Proof.
  intros Hnd [(m & -> & ->)|[(-> & -> & ->)|(m & -> & ->)]]%app_cons_cases Hf; [|done|].
  - exfalso. rewrite <-app_assoc, !map_app in Hnd. apply NoDup_app in Hnd as (_ & _ & Hnd). simpl in Hnd.
    apply NoDup_cons_1_1 in Hnd. apply Hnd. rewrite <-Hf. apply elem_of_app. right. left.
  - exfalso. rewrite !map_app in Hnd. apply NoDup_app in Hnd as (_ & _ & Hnd). simpl in Hnd.
    apply NoDup_cons_1_1 in Hnd. apply Hnd. rewrite Hf, map_app. apply elem_of_app. right. left.
Qed.

Section link.
Context `{Allocator} {Key : Type} {ok : Key → Prop} {c : Key → Key → Z} {Hc : CmpOrder c}.
Implicit Types es : list (entry Key).
Implicit Types sl : SkipList Key.
Context (x : Z) (key : Key) (pre post : list (entry Key)).

Abbreviation rep := (@rep Key ok c).
(** The new node, linked on [i] levels. *)
Abbreviation E i := (MkEntry x i key).
Abbreviation es i := (pre ++ E i :: post).

Lemma first_raise l i b : l ≠ i → first l (b ++ E (S i) :: post) = first l (b ++ E i :: post).
Proof using.
  intros Hl. rewrite !first_app. destruct (lvl l b); [|done]. unfold first. destruct (decide (l < i)%nat).
  - by rewrite !lvl_cons_in by (simpl; lia).
  - by rewrite !lvl_cons_out by (simpl; lia).
Qed.

Lemma first_published i b : lvl i b = [] → first i (b ++ E (S i) :: post) = x.
Proof using. intros Hb. rewrite first_app, Hb. unfold first. by rewrite lvl_cons_in by (simpl; lia). Qed.

Lemma first_unlinked i b : lvl i b = [] → first i (b ++ E i :: post) = first i post.
Proof using. intros Hb. rewrite first_app, Hb. unfold first. by rewrite lvl_cons_out by (simpl; lia). Qed.

Lemma links_publish (node : Node Key) h b i (upd : bool) : links node h (b ++ E i :: post) →
  ((i < h)%nat → if upd then lvl i b = [] else lvl i b ≠ []) →
  links (if upd then MkNode (node_key node) (<[i := Some x]> (next_ node)) else node) h (b ++ E (S i) :: post).
Proof using.
  intros Hl Hi j Hj. destruct (decide (j = i)) as [->|Hne].
  - specialize (Hi Hj). specialize (Hl i Hj). destruct upd; cbn [next_].
    + rewrite list_lookup_insert_eq by (by eapply lookup_lt_Some). by rewrite first_published.
    + rewrite Hl. rewrite !first_app. by destruct (lvl i b).
  - rewrite first_raise by done. specialize (Hl j Hj). destruct upd; cbn [next_]; [|done].
    by rewrite list_lookup_insert_ne.
Qed.

(** The node before the new one on level [i], and what is between them. *)
Lemma before_on sl i : rep sl (es i) → (i < 12)%nat → ∃ mid done, pre = done ++ mid ∧ lvl i mid = []
  ∧ at_node sl (last_on (head_ sl) i pre) done (mid ++ E i :: post) i.
Proof using.
  intros Hrep Hi. destruct (last_on_cases (head_ sl) i pre) as [[-> Hnil]|(a & e & b & Hpre & Hb & He & ->)].
  - exists pre, []. split; [done|]. split; [done|]. by apply (at_head sl (es i) _ Hrep).
  - exists b, (a ++ [e]). rewrite <-app_assoc. split; [done|]. split; [done|].
    eapply (at_entry sl (es i)); [exact Hrep| |done]. by rewrite Hpre, <-app_assoc.
Qed.

Lemma x_not_head sl i : rep sl (es i) → x ≠ head_ sl.
Proof using. intros Hrep. apply (ptr_not_head sl (es i) (E i) Hrep). apply elem_of_app. right. left. Qed.

Lemma pre_not_x sl i e : rep sl (es i) → e ∈ pre → e_ptr e ≠ x.
Proof using.
  intros Hrep He Hx. pose proof (rep_ptrs _ _ Hrep) as Hnd. apply NoDup_cons_1_2 in Hnd. rewrite map_app in Hnd.
  apply NoDup_app in Hnd as (_ & Hnd & _). apply (Hnd (e_ptr e)).
  - apply list_elem_of_In, in_map, list_elem_of_In. done.
  - rewrite Hx. left.
Qed.

Lemma last_on_not_x sl i : rep sl (es i) → last_on (head_ sl) i pre ≠ x.
Proof using.
  intros Hrep. destruct (last_on_cases (head_ sl) i pre) as [[-> _]|(a & e & b & Hpre & _ & _ & ->)].
  - intros Hx. by apply (x_not_head sl i Hrep).
  - apply (pre_not_x sl i); [done|]. rewrite Hpre. apply elem_of_app. right. left.
Qed.

(** Changes to the node of [x] above its height, or to the links of others, that keep [rep]. *)
Lemma rep_link sl prev i nx : rep sl (es i) → (i < 12)%nat → prev !! i = Some (Some (last_on (head_ sl) i pre)) →
  nodes sl !! x = Some nx → (i < length (next_ nx))%nat →
  ∃ sl', link_node x prev (Z.of_nat i) sl = Ok sl' ∧ rep sl' (es i)
    ∧ head_ sl' = head_ sl ∧ max_height_ sl' = max_height_ sl
    ∧ nodes sl' !! x = Some (MkNode (node_key nx) (<[i := Some (first i post)]> (next_ nx))).
Proof using.
  intros Hrep Hi Hprev Hnx Hlen. unfold link_node. rewrite Nat2Z.id, Hprev. cbn [of_option mbind res_bind].
  destruct (before_on sl i Hrep Hi) as (mid & done & Hpre & Hmid & Hat).
  pose proof (Next_at _ _ _ _ _ Hat) as Hnext. unfold Node_Next in Hnext. rewrite Hnext. cbn [mbind res_bind].
  rewrite first_unlinked by done. unfold NoBarrier_SetNext. rewrite c_assert_true by lia. cbn [mbind res_bind].
  rewrite Hnx. cbn [of_option mbind res_bind]. rewrite defined_true by lia. cbn [mbind res_bind mret res_ret].
  rewrite Nat2Z.id. eexists. split; [reflexivity|]. cbn [head_ max_height_ nodes]. split; [|split; [done|split; [done|]]].
  2:{ by rewrite lookup_insert_eq. }
  destruct Hrep as [(nh & Hh & Hlh & Hlenh) Hent Hnd Hnull Hmax Hheights Hs Hk].
  split; cbn [head_ max_height_ nodes]; try done.
  - exists nh. rewrite lookup_insert_ne; [done|]. intros Hx. apply NoDup_cons_1_1 in Hnd. apply Hnd.
    rewrite map_app. apply elem_of_app. right. rewrite Hx. left.
  - intros pre' e post' Heq. destruct (Hent pre' e post' Heq) as (node & Hn & Hkey & Hlinks).
    destruct (decide (e_ptr e = x)) as [Hx|Hx].
    + rewrite Hx in *. rewrite Hnx in Hn. injection Hn as <-. rewrite lookup_insert_eq. eexists. split; [done|]. split; [done|].
      apply NoDup_cons_1_2 in Hnd. destruct (NoDup_position e_ptr _ _ _ _ _ _ Hnd Heq) as [He ->]; [by rewrite Hx|].
      rewrite <-He in *. cbn [e_height] in *. intros j Hj. cbn [next_]. rewrite list_lookup_insert_ne by lia. by apply Hlinks.
    + exists node. by rewrite lookup_insert_ne by done.
Qed.

(** The memory after the link [p] to the new node on level [i] is set. *)
Abbreviation published sl p np i := (<[p := MkNode (node_key np) (<[i := Some x]> (next_ np))]> (nodes sl)).

Lemma publish_head sl i np : let p := last_on (head_ sl) i pre in rep sl (es i) → nodes sl !! p = Some np →
  ∃ node, published sl p np i !! head_ sl = Some node ∧ links node 12 (es (S i)) ∧ length (next_ node) = 12%nat.
Proof using.
  intros p Hrep Hnp. pose proof (rep_head _ _ Hrep) as (nh & Hh & Hlh & Hlenh).
  destruct (decide (p = head_ sl)) as [Hp|Hp].
  - rewrite Hp, lookup_insert_eq. eexists. split; [reflexivity|]. rewrite Hp, Hh in Hnp. injection Hnp as <-.
    split; [|cbn [next_]; by rewrite length_insert]. apply (links_publish nh 12 pre i true Hlh). intros _.
    destruct (last_on_cases (head_ sl) i pre) as [[_ ?]|(a & e & b & Hpre & _ & _ & Hl)]; [done|].
    exfalso. apply (ptr_not_head sl (es i) e Hrep); [|unfold p in Hp; congruence].
    apply elem_of_app. left. rewrite Hpre. apply elem_of_app. right. left.
  - exists nh. rewrite lookup_insert_ne by done. split; [done|]. split; [|done].
    apply (links_publish nh 12 pre i false Hlh). intros _ Hnil. apply Hp. unfold p, last_on. by rewrite Hnil.
Qed.

Lemma publish_pre sl i np pre' e b : let p := last_on (head_ sl) i pre in rep sl (es i) → nodes sl !! p = Some np →
  pre = pre' ++ e :: b →
  ∃ node, published sl p np i !! e_ptr e = Some node ∧ node_key node = e_key e
    ∧ links node (e_height e) (b ++ E (S i) :: post).
Proof using.
  intros p Hrep Hnp Hp'.
  destruct (rep_entry _ _ Hrep pre' e (b ++ E i :: post)) as (node & Hn & Hkey & Hlinks); [by rewrite Hp', <-app_assoc|].
  destruct (decide (p = e_ptr e)) as [Hpe|Hpe].
  - rewrite Hpe, lookup_insert_eq. rewrite Hpe, Hn in Hnp. injection Hnp as <-. eexists. split; [reflexivity|].
    split; [done|]. apply (links_publish node _ b i true Hlinks). intros _.
    destruct (last_on_cases (head_ sl) i pre) as [[Hl _]|(a' & e' & b' & Hpre' & Hb' & _ & Hl)]; fold p in Hl.
    + exfalso. apply (ptr_not_head sl (es i) e Hrep); [|congruence]. apply elem_of_app. left. rewrite Hp'.
      apply elem_of_app. right. left.
    + rewrite Hp' in Hpre'. pose proof (rep_ptrs _ _ Hrep) as Hnd. apply NoDup_cons_1_2 in Hnd. rewrite map_app in Hnd.
      apply NoDup_app in Hnd as (Hnd & _ & _). rewrite Hp' in Hnd.
      destruct (NoDup_position e_ptr _ _ _ _ _ _ Hnd Hpre') as [_ ->]; [congruence|done].
  - exists node. rewrite lookup_insert_ne by done. split; [done|]. split; [done|].
    apply (links_publish node _ b i false Hlinks). intros Hie Hnil. apply Hpe. unfold p. rewrite Hp'.
    replace (pre' ++ e :: b) with ((pre' ++ [e]) ++ b) by (by rewrite <-app_assoc).
    rewrite last_on_app_nil by done. by apply last_on_snoc.
Qed.

Lemma publish_post sl i np a e post' : let p := last_on (head_ sl) i pre in rep sl (es i) → post = a ++ e :: post' →
  ∃ node, published sl p np i !! e_ptr e = Some node ∧ node_key node = e_key e ∧ links node (e_height e) post'.
Proof using.
  intros p Hrep Hp'. destruct (rep_entry _ _ Hrep (pre ++ E i :: a) e post') as (node & Hn & Hkey & Hlinks);
    [by rewrite Hp', <-app_assoc|].
  exists node. rewrite lookup_insert_ne; [done|]. intros Hpe.
  destruct (last_on_cases (head_ sl) i pre) as [[Hl _]|(a' & e' & b' & Hpre' & _ & _ & Hl)]; fold p in Hl.
  - apply (ptr_not_head sl (es i) e Hrep); [|congruence]. apply elem_of_app. right. right. rewrite Hp'.
    apply elem_of_app. right. left.
  - pose proof (rep_ptrs _ _ Hrep) as Hnd. apply NoDup_cons_1_2 in Hnd. rewrite map_app in Hnd.
    apply NoDup_app in Hnd as (_ & Hnd & _). apply (Hnd (e_ptr e')).
    + rewrite Hpre', map_app. apply elem_of_app. right. left.
    + rewrite <-Hl, Hpe, Hp'. simpl. right. rewrite map_app. apply elem_of_app. right. left.
Qed.

Lemma sorted_raise i j : StronglySorted (λ a b, c (e_key a) (e_key b) < 0) (es i) →
  StronglySorted (λ a b, c (e_key a) (e_key b) < 0) (es j).
Proof using.
  induction pre as [|y l IH]; intros Hs; simpl in *; apply StronglySorted_inv in Hs as [Hs Hf]; [by constructor|].
  constructor; [by apply IH|]. apply Forall_app in Hf as [Hf1 Hf2]. apply Forall_app. split; [done|].
  by inversion Hf2; constructor.
Qed.

Lemma rep_publish sl prev i nx : rep sl (es i) → (i < 12)%nat → Z.of_nat (S i) ≤ max_height_ sl →
  prev !! i = Some (Some (last_on (head_ sl) i pre)) →
  nodes sl !! x = Some nx → next_ nx !! i = Some (Some (first i post)) →
  ∃ sl', publish_node x prev (Z.of_nat i) sl = Ok sl' ∧ rep sl' (es (S i))
    ∧ head_ sl' = head_ sl ∧ max_height_ sl' = max_height_ sl ∧ nodes sl' !! x = Some nx.
Proof using.
  intros Hrep Hi Hmh Hprev Hnx Hcell. pose proof (last_on_not_x sl i Hrep) as Hpx.
  destruct (before_on sl i Hrep Hi) as (mid & done & Hpre & Hmid & Hat).
  destruct (at_node_x _ _ _ _ _ Hat) as (np & Hnp & Hlp).
  unfold publish_node, SetNext, NoBarrier_SetNext. rewrite Nat2Z.id, Hprev. cbn [of_option mbind res_bind].
  rewrite c_assert_true by lia. cbn [mbind res_bind]. rewrite Hnp. cbn [of_option mbind res_bind].
  assert (i < length (next_ np))%nat as Hilen by (eapply lookup_lt_Some, (Hlp i); lia).
  rewrite defined_true by lia. cbn [mbind res_bind mret res_ret].
  eexists. split; [reflexivity|]. cbn [head_ max_height_ nodes]. split; [|split; [done|split; [done|]]].
  2:{ by rewrite lookup_insert_ne. }
  assert (∀ e, e ∈ es (S i) → e = E (S i) ∨ e ∈ es i) as Hin.
  { intros e [?|[?|?]%elem_of_cons]%elem_of_app; [right|by left|right]; apply elem_of_app; [by left|right; by right]. }
  assert (E i ∈ es i) as HE by (apply elem_of_app; right; left).
  split; cbn [head_ max_height_ nodes].
  - by apply publish_head.
  - intros pre' e post' [(b & Hp' & ->)|[(-> & -> & ->)|(a & -> & Hp')]]%app_cons_cases.
    + by apply (publish_pre sl i np pre').
    + destruct (rep_entry _ _ Hrep pre (E i) post eq_refl) as (node & Hn & Hkey & Hlinks). cbn [e_ptr e_key e_height] in *.
      rewrite Hnx in Hn. injection Hn as <-. exists nx. rewrite lookup_insert_ne by done. split; [done|]. split; [done|].
      intros j Hj. destruct (decide (j = i)) as [->|]; [done|]. apply Hlinks. lia.
    + by apply (publish_post sl i np a).
  - rewrite map_app. pose proof (rep_ptrs _ _ Hrep) as Hnd. by rewrite map_app in Hnd.
  - intros e [->|He]%Hin; [apply (rep_null _ _ Hrep (E i) HE)|by eapply rep_null].
  - by eapply rep_max.
  - intros e [->|He]%Hin; [done|by eapply rep_heights].
  - eapply sorted_raise, rep_sorted, Hrep.
  - intros e [->|He]%Hin; [apply (rep_keys _ _ Hrep (E i) HE)|by eapply rep_keys].
Qed.
End link.

(** ** Insertion *)

Section insert.
Context `{Hspec : AllocatorSpec} {Key : Type} {ok : Key → Prop} {c : Key → Key → Z} {Hc : CmpOrder c}
  {compare_ : Key → Key → res Z} (Hcmp : ∀ a b, ok a → ok b → compare_ a b = Ok (c a b)).
Implicit Types es : list (entry Key).
Implicit Types sl : SkipList Key.

Abbreviation rep := (@rep Key ok c).

Lemma link_loop_Ok x key pre post h n : ∀ i sl prev nx, rep sl (pre ++ MkEntry x i key :: post) → (i + n ≤ h)%nat →
  Z.of_nat h ≤ max_height_ sl → (∀ j, (j < h)%nat → prev !! j = Some (Some (last_on (head_ sl) j pre))) →
  nodes sl !! x = Some nx → length (next_ nx) = h →
  ∃ sl' nx', link_loop n (Z.of_nat i) x prev sl = Ok sl' ∧ rep sl' (pre ++ MkEntry x (i + n) key :: post)
    ∧ head_ sl' = head_ sl ∧ max_height_ sl' = max_height_ sl ∧ nodes sl' !! x = Some nx' ∧ length (next_ nx') = h.
Proof using.
  clear Hcmp. induction n as [|n IH]; intros i sl prev nx Hrep Hn Hh Hprev Hnx Hlen; cbn [link_loop].
  { rewrite Nat.add_0_r. by exists sl, nx. }
  pose proof (rep_max _ _ Hrep) as Hmax.
  destruct (rep_link x key pre post sl prev i nx Hrep) as (sl1 & -> & Hrep1 & Hh1 & Hm1 & Hnx1);
    [lia|apply Hprev; lia|done|lia|]. cbn [mbind res_bind].
  set (nx1 := MkNode _ _) in Hnx1.
  destruct (rep_publish x key pre post sl1 prev i nx1 Hrep1) as (sl2 & -> & Hrep2 & Hh2 & Hm2 & Hnx2);
    [lia|lia|rewrite Hh1; apply Hprev; lia|exact Hnx1|cbn [nx1 next_]; apply list_lookup_insert_eq; lia|].
  cbn [mbind res_bind]. replace (Z.of_nat i + 1) with (Z.of_nat (S i)) by lia.
  destruct (IH (S i) sl2 prev nx1 Hrep2) as (sl' & nx' & -> & Hrep' & Hh' & Hm' & Hnx' & Hlen');
    [lia|lia| |exact Hnx2|cbn [nx1 next_]; by rewrite length_insert|].
  { intros j Hj. rewrite Hh2, Hh1. by apply Hprev. }
  exists sl', nx'. split; [done|]. rewrite Nat.add_succ_comm in Hrep'. split; [exact Hrep'|].
  split; [congruence|]. split; [congruence|]. done.
Qed.

Lemma raise_loop_Ok n : ∀ i head prev, (i + n ≤ length prev)%nat →
  ∃ prev', raise_loop n (Z.of_nat i) head prev = Ok prev' ∧ length prev' = length prev
    ∧ ∀ j, prev' !! j = if decide (i ≤ j < i + n)%nat then Some (Some head) else prev !! j.
Proof using.
  clear. induction n as [|n IH]; intros i head prev Hi; cbn [raise_loop].
  { exists prev. split; [done|]. split; [done|]. intros j. by rewrite decide_False by lia. }
  rewrite defined_true by lia. cbn [mbind res_bind]. replace (Z.of_nat i + 1) with (Z.of_nat (S i)) by lia.
  destruct (IH (S i) head (<[Z.to_nat (Z.of_nat i):=Some head]> prev)) as (prev' & -> & Hlen & Hl); [rewrite length_insert; lia|].
  exists prev'. split; [done|]. rewrite Nat2Z.id, length_insert in *. split; [done|]. intros j. rewrite Hl.
  destruct (decide (j = i)) as [->|].
  - rewrite decide_False, decide_True by lia. apply list_lookup_insert_eq. lia.
  - rewrite list_lookup_insert_ne by done. repeat case_decide; try done; lia.
Qed.

Lemma height_loop_range fuel : ∀ height seed, 0 < height ≤ kMaxHeight → 0 < (height_loop fuel height seed).1 ≤ kMaxHeight.
Proof using.
  clear. induction fuel as [|fuel IH]; intros height seed Hh; cbn [height_loop]; [done|].
  destruct (Z.ltb_spec height kMaxHeight); [|done]. destruct (_ =? 0); [|done]. apply IH. lia.
Qed.

Lemma RandomHeight_Ok seed : ∃ h seed', RandomHeight seed = Ok (Z.of_nat h, seed') ∧ (1 ≤ h ≤ 12)%nat.
Proof using.
  clear. unfold RandomHeight. pose proof (height_loop_range (Z.to_nat kMaxHeight) 1 seed ltac:(unfold kMaxHeight; lia)) as Hr.
  destruct (height_loop (Z.to_nat kMaxHeight) 1 seed) as [h seed']. cbn in Hr. unfold kMaxHeight in *.
  rewrite !c_assert_true by lia. cbn [mbind res_bind]. exists (Z.to_nat h), seed'. split; [by rewrite Z2Nat.id by lia|lia].
Qed.

(** The nodes are in memory of the arena. *)
Definition owned (a : Arena) (rs : list (Z * Z)) sl es : Prop :=
  arena_ok a rs ∧ ∀ p, p ∈ head_ sl :: map e_ptr es → ∃ m, (p, m) ∈ rs.

(** A node that no link points to. *)
Lemma rep_new sl pre post x k node mh rnd : rep sl (pre ++ post) → x ≠ 0 → x ∉ head_ sl :: map e_ptr (pre ++ post) →
  ok k → node_key node = k → (∀ e, e ∈ pre → c (e_key e) k < 0) → (∀ e, e ∈ post → c k (e_key e) < 0) →
  max_height_ sl ≤ mh ≤ 12 →
  rep (MkSkip (head_ sl) mh rnd (<[x := node]> (nodes sl))) (pre ++ MkEntry x 0 k :: post).
Proof using.
  clear dependent compare_. intros Hrep Hx Hfresh Hk Hnode Hpre Hpost Hmh.
  assert (∀ l b, first l (b ++ MkEntry x 0 k :: post) = first l (b ++ post)) as Hfirst.
  { intros l b. rewrite !first_app. destruct (lvl l b); [|done]. unfold first. by rewrite lvl_cons_out by (simpl; lia). }
  assert (∀ e, e ∈ pre ++ MkEntry x 0 k :: post → e = MkEntry x 0 k ∨ e ∈ pre ++ post) as Hin.
  { intros e [?|[?|?]%elem_of_cons]%elem_of_app; [right|by left|right]; apply elem_of_app; [by left|by right]. }
  assert (∀ e, e ∈ pre ++ post → e_ptr e ≠ x) as Hne.
  { intros e He E. apply Hfresh. right. rewrite <-E. by apply list_elem_of_In, in_map, list_elem_of_In. }
  split; cbn [head_ max_height_ nodes].
  - destruct (rep_head _ _ Hrep) as (nh & Hh & Hl & Hlen). exists nh. rewrite lookup_insert_ne by (intros ->; apply Hfresh; left).
    split; [done|]. split; [|done]. intros i Hi. by rewrite Hfirst, Hl.
  - intros pre' e post' [(b & Hp & ->)|[(-> & -> & ->)|(a & -> & Hp)]]%app_cons_cases.
    + destruct (rep_entry _ _ Hrep pre' e (b ++ post)) as (n & Hn & Hkey & Hl); [by rewrite Hp, <-app_assoc|].
      exists n. rewrite lookup_insert_ne. { split; [done|]. split; [done|]. intros i Hi. by rewrite Hfirst, Hl. }
      intros E. apply (Hne e); [|done]. rewrite Hp. apply elem_of_app. left. apply elem_of_app. right. left.
    + exists node. cbn [e_ptr e_key e_height]. rewrite lookup_insert_eq. split; [done|]. split; [done|]. intros i Hi. lia.
    + destruct (rep_entry _ _ Hrep (pre ++ a) e post') as (n & Hn & Hkey & Hl); [by rewrite Hp, <-app_assoc|].
      exists n. rewrite lookup_insert_ne; [done|]. intros E. apply (Hne e); [|done]. rewrite Hp.
      apply elem_of_app. right. apply elem_of_app. right. left.
  - pose proof (rep_ptrs _ _ Hrep) as Hnd. rewrite map_app in *. cbn [map e_ptr].
    rewrite (app_comm_cons _ (map e_ptr post) (head_ sl)) in Hnd, Hfresh. rewrite (app_comm_cons _ (x :: _) (head_ sl)).
    apply NoDup_app in Hnd as (H1 & H2 & H3). rewrite elem_of_app in Hfresh.
    apply NoDup_app. split; [done|]. split; [|constructor; [tauto|done]].
    intros p Hp [->|Hp']%elem_of_cons; [tauto|by apply (H2 p)].
  - intros e [->|He]%Hin; [done|by eapply rep_null].
  - pose proof (rep_max _ _ Hrep). lia.
  - pose proof (rep_max _ _ Hrep). intros e [->|He]%Hin; [simpl; lia|]. pose proof (rep_heights _ _ Hrep e He). lia.
  - pose proof (rep_sorted _ _ Hrep) as Hs. clear -Hs Hpre Hpost. induction pre as [|y l IH]; simpl in *.
    + constructor; [done|]. rewrite Forall_forall. intros e He. by apply Hpost.
    + apply StronglySorted_inv in Hs as [Hs Hf]. constructor; [apply IH; [|done]; intros; apply Hpre; by right|].
      apply Forall_app in Hf as [Hf1 Hf2]. apply Forall_app. split; [done|]. constructor; [|done]. apply Hpre. left.
  - intros e [->|He]%Hin; [done|by eapply rep_keys].
Qed.

Lemma insert_node_Ok sl es k a rs pre post : rep sl es → owned a rs sl es → ok k → split_at (c := c) k es pre post →
  (∀ e, e ∈ es → c (e_key e) k ≠ 0) →
  ∃ x h prev a' sl', insert_node compare_ k a sl = Ok (x, Z.of_nat h, prev, a', sl') ∧ (1 ≤ h ≤ 12)%nat
    ∧ rep sl' (pre ++ MkEntry x 0 k :: post)
    ∧ (∃ rs', arena_ok a' (rs ++ rs') ∧ ∃ m, (x, m) ∈ rs')
    ∧ head_ sl' = head_ sl ∧ Z.of_nat h ≤ max_height_ sl'
    ∧ (∀ j, (j < h)%nat → prev !! j = Some (Some (last_on (head_ sl') j pre)))
    ∧ ∃ nx, nodes sl' !! x = Some nx ∧ length (next_ nx) = h.
Proof using Hcmp Hc Hspec.
  intros Hrep [Harena Hown] Hk Hsplit Hne. unfold insert_node.
  destruct (FindGE_Ok Hcmp sl es k pre post (Some (replicate (Z.to_nat kMaxHeight) None)) Hrep Hk Hsplit)
    as (prev' & -> & Hprev); [by intros ? [= <-]|].
  destruct prev' as [p|]; [|done]. destruct Hprev as (Hlen & Hlow & Hhigh). cbn [mbind res_bind of_option].
  pose proof Hsplit as (Hes & Hpre & Hpost).
  assert ((if first 0 post =? 0 then mret ()
           else k' ← key_of (first 0 post) sl; e ← Equal compare_ k k'; c_assert (negb e)) = Ok tt) as ->.
  { destruct (first_cases 0 post) as [[-> _]|(e & He & _ & -> & _)]; [done|].
    assert (e ∈ es) as Hin by (rewrite Hes; apply elem_of_app; by right).
    pose proof (rep_null _ _ Hrep e Hin). replace (e_ptr e =? 0) with false by lia.
    rewrite (key_of_entry _ _ _ Hrep Hin). unfold Equal. cbn [mbind res_bind].
    rewrite Hcmp by (done || by eapply rep_keys). cbn [mbind res_bind mret res_ret].
    pose proof (Hne e Hin). pose proof (cmp_anti k (e_key e)). by rewrite c_assert_true by lia. }
  cbn [mbind res_bind]. destruct (RandomHeight_Ok (rnd_ sl)) as (h & seed & -> & Hh). cbn [mbind res_bind].
  pose proof (rep_max _ _ Hrep) as Hmax. unfold GetMaxHeight. set (m := Z.to_nat (max_height_ sl)) in *.
  assert (length p = 12%nat) as Hlp by (rewrite Hlen; apply length_replicate).
  assert (∀ j, (m ≤ j)%nat → lvl j pre = []) as Habove.
  { intros j Hj. destruct (lvl j pre) as [|e l] eqn:E; [done|]. apply lvl_split in E as (a1 & b1 & -> & _ & _ & He).
    assert (e ∈ es) as Hin by (rewrite Hes; apply elem_of_app; left; apply elem_of_app; right; left).
    pose proof (rep_heights _ _ Hrep e Hin). lia. }
  assert (∃ p', (if max_height_ sl <? Z.of_nat h then raise_loop (Z.to_nat (Z.of_nat h - max_height_ sl)) (max_height_ sl) (head_ sl) p
                 else mret p) = Ok p' ∧ ∀ j, (j < h)%nat → p' !! j = Some (Some (last_on (head_ sl) j pre))) as (p' & -> & Hp').
  { destruct (Z.ltb_spec (max_height_ sl) (Z.of_nat h)).
    - replace (max_height_ sl) with (Z.of_nat m) by lia. replace (Z.to_nat (Z.of_nat h - Z.of_nat m)) with (h - m)%nat by lia.
      destruct (raise_loop_Ok (h - m) m (head_ sl) p) as (p' & -> & _ & Hl); [lia|]. exists p'. split; [done|].
      intros j Hj. rewrite Hl. case_decide; [|apply Hlow; lia]. unfold last_on. by rewrite Habove by lia.
    - exists p. split; [done|]. intros j Hj. apply Hlow. lia. }
  cbn [mbind res_bind]. unfold NewNode. rewrite u64_small by lia.
  destruct (AllocateAligned_Ok (16 + 8 * (Z.of_nat h - 1)) a rs Harena) as (x & a' & -> & Hx & _ & Harena'); [lia|].
  cbn [mbind res_bind mret res_ret]. rewrite Nat2Z.id.
  set (mh := if max_height_ sl <? Z.of_nat h then Z.of_nat h else max_height_ sl).
  assert (max_height_ sl ≤ mh ≤ 12 ∧ Z.of_nat h ≤ mh) as [Hmh Hhm] by (unfold mh; destruct (Z.ltb_spec (max_height_ sl) (Z.of_nat h)); lia).
  eexists x, h, p', a', _. split; [reflexivity|]. split; [done|]. cbn [head_ max_height_ nodes].
  split; [|split; [|split; [done|split; [done|split; [done|]]]]].
  - rewrite Hes in Hrep. apply rep_new; try done; [lia| |].
    + intros Hin. rewrite <-Hes in Hin. destruct (Hown x Hin) as (m' & Hm'). by apply (arena_fresh _ _ _ _ _ _ Harena' Hm').
    + intros e He. pose proof (Hpost e He). pose proof (cmp_anti k (e_key e)).
      assert (c (e_key e) k ≠ 0); [|lia]. apply Hne. rewrite Hes. apply elem_of_app. by right.
  - eexists. split; [exact Harena'|]. eexists. by apply list_elem_of_singleton.
  - eexists. rewrite lookup_insert_eq. split; [reflexivity|]. cbn [next_]. apply length_replicate.
Qed.
End insert.
