(* ===== verification/SkipSpec.v ===== *)
(** * What a skip list promises

    [observes sl ks]: every read of [sl], forwards, backwards, by key, answers as the sorted list
    of keys [ks] would. Insertion adds its key to that list, and a reader that looks at any point
    during an insertion sees the list before or the list after. *)
From stdpp Require Import gmap sorting.
From S2P Require Import Prelude Order Random Arena SkipList SkipProps.

Section loops.
Context `{Allocator} {Key : Type} (compare_ : Key → Key → res Z).

(** [for (it.SeekToFirst(); it.Valid(); it.Next()) ...] and its mirror image. *)
Fixpoint forward_loop (fuel : nat) (node_ : Z) (sl : SkipList Key) : res (list Key) :=
  match fuel with
  | O => Err Diverge
  | S fuel =>
      if Iter_Valid node_ then
        k ← Iter_key node_ sl; node_ ← Iter_Next node_ sl; ks ← forward_loop fuel node_ sl; mret (k :: ks)
      else mret []
  end.
Fixpoint backward_loop (fuel : nat) (node_ : Z) (sl : SkipList Key) : res (list Key) :=
  match fuel with
  | O => Err Diverge
  | S fuel =>
      if Iter_Valid node_ then
        k ← Iter_key node_ sl; node_ ← Iter_Prev compare_ node_ sl; ks ← backward_loop fuel node_ sl; mret (k :: ks)
      else mret []
  end.

Fixpoint insert_all (keys : list Key) (a : Arena) (sl : SkipList Key) : res (Arena * SkipList Key) :=
  match keys with
  | [] => mret (a, sl)
  | k :: keys => '(a, sl) ← Insert compare_ k a sl; insert_all keys a sl
  end.
End loops.

Record observes {Key} (compare_ : Key → Key → res Z) (ok : Key → Prop) (c : Key → Key → Z)
    (sl : SkipList Key) (ks : list Key) : Prop := {
  obs_forward fuel : (length ks < fuel)%nat →
    (node_ ← Iter_SeekToFirst sl; forward_loop fuel node_ sl) = Ok ks;
  obs_backward fuel : (length ks < fuel)%nat →
    (node_ ← Iter_SeekToLast sl; backward_loop compare_ fuel node_ sl) = Ok (reverse ks);
  obs_contains k : ok k → Contains compare_ k sl = Ok (existsb (λ x, c k x =? 0) ks);
  obs_seek t : ok t → ∃ node_, Iter_Seek compare_ t sl = Ok node_
    ∧ match filter (λ x, 0 ≤ c x t) ks with
      | [] => Iter_Valid node_ = false
      | k :: _ => Iter_Valid node_ = true ∧ Iter_key node_ sl = Ok k
      end }.

Section reads.
Context `{Allocator} {Key : Type} {ok : Key → Prop} {c : Key → Key → Z} {Hc : CmpOrder c}
  {compare_ : Key → Key → res Z} (Hcmp : ∀ a b, ok a → ok b → compare_ a b = Ok (c a b)).
Implicit Types es : list (entry Key).
Implicit Types sl : SkipList Key.

Abbreviation rep := (@rep Key ok c).

(** The keys that readers see. *)
Definition visible es : list Key := map e_key (lvl 0 es).

Lemma valid_entry sl es e : rep sl es → e ∈ es → Iter_Valid (e_ptr e) = true.
Proof using. intros Hrep He. pose proof (rep_null _ _ Hrep e He). unfold Iter_Valid. lia. Qed.

Lemma Iter_key_entry sl es e : rep sl es → e ∈ es → Iter_key (e_ptr e) sl = Ok (e_key e).
Proof using.
  intros Hrep He. unfold Iter_key. rewrite (valid_entry _ _ _ Hrep He). by apply (key_of_entry _ _ _ Hrep).
Qed.

Lemma Iter_Next_entry sl es pre e post : rep sl es → es = pre ++ e :: post → (0 < e_height e)%nat →
  Iter_Next (e_ptr e) sl = Ok (first 0 post).
Proof using.
  intros Hrep Hes He. unfold Iter_Next. rewrite (valid_entry sl es e Hrep).
  - cbn [c_assert mbind res_bind]. apply (Next_at sl _ (pre ++ [e]) post 0). by eapply at_entry.
  - rewrite Hes. apply elem_of_app. right. left.
Qed.

Lemma forward_Ok sl es : rep sl es → ∀ fuel pre post, es = pre ++ post → (length (visible post) < fuel)%nat →
  forward_loop fuel (first 0 post) sl = Ok (visible post).
Proof using.
  clear dependent compare_. intros Hrep. induction fuel as [|fuel IH]; intros pre post Hes Hfuel; [lia|].
  cbn [forward_loop]. unfold visible, first in *. destruct (lvl 0 post) as [|e rest] eqn:El; [done|].
  apply lvl_split in El as (a & b & -> & _ & <- & He).
  assert (e ∈ es) as Hin by (rewrite Hes; apply elem_of_app; right; apply elem_of_app; right; left).
  rewrite (valid_entry sl es e), (Iter_key_entry sl es e) by done. cbn [mbind res_bind].
  rewrite (Iter_Next_entry sl es (pre ++ a) e b) by (done || by rewrite Hes, <-app_assoc). cbn [mbind res_bind].
  unfold first. rewrite (IH (pre ++ a ++ [e]) b); [done|by rewrite Hes, <-!app_assoc|]. simpl in Hfuel. lia.
Qed.

(** The entry before an entry. *)
Lemma split_entry sl es pre e post : rep sl es → es = pre ++ e :: post →
  split_at (c := c) (e_key e) es pre (e :: post).
Proof using Hc.
  clear dependent compare_. intros Hrep Hes. split; [done|]. pose proof (rep_sorted _ _ Hrep) as Hs. rewrite Hes in Hs.
  pose proof (cmp_refl c (e_key e)). split.
  - intros x Hx. by apply (StronglySorted_app_1_elem_of _ _ _ _ _ Hs Hx); left.
  - apply StronglySorted_app_1_r in Hs. apply StronglySorted_inv in Hs as [_ Hf]. rewrite Forall_forall in Hf.
    intros x [->|Hx]%elem_of_cons; [lia|]. specialize (Hf x Hx). pose proof (cmp_flip c (e_key e) (e_key x)). lia.
Qed.

Lemma last_on_zero sl es pre : rep sl es → (∃ post, es = pre ++ post) →
  (if last_on (head_ sl) 0 pre =? head_ sl then 0 else last_on (head_ sl) 0 pre)
  = match last (lvl 0 pre) with Some e => e_ptr e | None => 0 end.
Proof using.
  clear dependent compare_. intros Hrep [post Hes]. unfold last_on. destruct (last (lvl 0 pre)) as [e|] eqn:E.
  - assert (e ∈ es) as Hin.
    { rewrite Hes. apply elem_of_app. left. apply last_Some_elem_of in E. unfold lvl in E. by apply list_elem_of_filter in E as [_ E]. }
    pose proof (ptr_not_head sl es e Hrep Hin). by replace (e_ptr e =? head_ sl) with false by lia.
  - by rewrite Z.eqb_refl.
Qed.

Lemma backward_Ok sl es : rep sl es → ∀ fuel pre post, es = pre ++ post → (length (visible pre) < fuel)%nat →
  backward_loop compare_ fuel (match last (lvl 0 pre) with Some e => e_ptr e | None => 0 end) sl = Ok (reverse (visible pre)).
Proof using Hcmp Hc.
  intros Hrep. induction fuel as [|fuel IH]; intros pre post Hes Hfuel; [lia|]. cbn [backward_loop].
  destruct (last_on_cases 0 0 pre) as [[_ Hnil]|(a & e & b & -> & Hb & He & _)].
  { unfold visible. by rewrite Hnil. }
  assert (lvl 0 (a ++ e :: b) = lvl 0 a ++ [e]) as El by (by rewrite lvl_app, lvl_cons_in, Hb by done).
  unfold visible in *. rewrite El, last_snoc, map_app, reverse_app in *. cbn [map] in *.
  assert (e ∈ es) as Hin by (rewrite Hes; apply elem_of_app; left; apply elem_of_app; right; left).
  rewrite (valid_entry sl es e), (Iter_key_entry sl es e) by done. cbn [mbind res_bind].
  unfold Iter_Prev. rewrite (valid_entry sl es e), (key_of_entry sl es e) by done. cbn [mbind res_bind c_assert].
  assert (es = a ++ e :: b ++ post) as Hes' by (by rewrite Hes, <-app_assoc).
  rewrite (FindLess_Ok Hcmp sl es (e_key e) a (e :: b ++ post) Hrep); [|by eapply rep_keys|by eapply split_entry].
  cbn [mbind res_bind mret res_ret]. rewrite (last_on_zero sl es a) by eauto.
  rewrite (IH a (e :: b ++ post)); [done|done|]. rewrite length_app in Hfuel. simpl in Hfuel. lia.
Qed.

(** The visible keys not below [t] are those of the entries not below it. *)
Lemma visible_split es t pre post : split_at (c := c) t es pre post → filter (λ x, 0 ≤ c x t) (visible es) = visible post.
Proof using.
  clear dependent compare_. intros (-> & Hpre & Hpost). unfold visible. rewrite lvl_app, map_app, filter_app.
  assert (∀ x, x ∈ map e_key (lvl 0 pre) → ¬ 0 ≤ c x t) as H1.
  { intros x (e & <- & He%list_elem_of_In)%list_elem_of_In%in_map_iff. unfold lvl in He. apply list_elem_of_filter in He as [_ He].
    specialize (Hpre e He). lia. }
  assert (∀ x, x ∈ map e_key (lvl 0 post) → 0 ≤ c x t) as H2.
  { intros x (e & <- & He%list_elem_of_In)%list_elem_of_In%in_map_iff. unfold lvl in He. apply list_elem_of_filter in He as [_ He].
    by apply Hpost. }
  by rewrite filter_drop, filter_keep.
Qed.

Lemma visible_elem es k : k ∈ visible es → ∃ e, e ∈ es ∧ e_key e = k.
Proof using.
  clear. intros (e & <- & He%list_elem_of_In)%list_elem_of_In%in_map_iff. exists e. split; [|done].
  unfold lvl in He. by apply list_elem_of_filter in He as [_ He].
Qed.

Lemma visible_sorted sl es : rep sl es → StronglySorted (λ a b, c a b < 0) (visible es).
Proof using.
  clear dependent compare_. intros Hrep. pose proof (rep_sorted _ _ Hrep) as Hs. clear Hrep. unfold visible, lvl.
  induction Hs as [|e es Hs IH He]; [constructor|]. rewrite filter_cons. case_decide; [|done].
  constructor; [done|]. rewrite Forall_forall in He. apply Forall_forall. intros k (x & Hx & <-)%visible_elem. by apply He.
Qed.

Lemma Contains_Ok sl es k : rep sl es → ok k → Contains compare_ k sl = Ok (existsb (λ x, c k x =? 0) (visible es)).
Proof using Hcmp Hc.
  intros Hrep Hk. destruct (split_exists sl es k Hrep) as (pre & post & Hsplit). pose proof Hsplit as (Hes & Hpre & Hpost).
  unfold Contains. destruct (FindGE_Ok Hcmp sl es k pre post None Hrep Hk Hsplit) as (prev & -> & _); [done|].
  cbn [mbind res_bind]. pose proof (visible_sorted _ _ Hrep) as Hs. rewrite Hes in Hs |- *.
  unfold visible in *. rewrite lvl_app, map_app, existsb_app in *.
  assert (existsb (λ x, c k x =? 0) (map e_key (lvl 0 pre)) = false) as ->.
  { apply not_true_is_false. intros (x & (e & He & <-)%list_elem_of_In%visible_elem & Hx)%existsb_exists.
    specialize (Hpre e He). pose proof (cmp_flip c (e_key e) k). lia. }
  apply StronglySorted_app_1_r in Hs. unfold first. destruct (lvl 0 post) as [|e rest] eqn:El; [done|].
  assert (e ∈ post) as He.
  { apply lvl_split in El as (a & b & -> & _). apply elem_of_app. right. left. }
  assert (e ∈ es) as Hin by (rewrite Hes; apply elem_of_app; by right).
  pose proof (rep_null _ _ Hrep e Hin). replace (e_ptr e =? 0) with false by lia.
  rewrite (key_of_entry _ _ _ Hrep Hin). unfold Equal. cbn [mbind res_bind].
  rewrite Hcmp by (done || by eapply rep_keys). cbn [mbind res_bind mret res_ret map existsb orb]. f_equal.
  destruct (Z.eqb_spec (c k (e_key e)) 0); [done|]. symmetry. apply not_true_is_false.
  intros (x & Hx%list_elem_of_In & Heq)%existsb_exists. simpl in Hs. apply StronglySorted_inv in Hs as [_ Hf].
  rewrite Forall_forall in Hf. specialize (Hf x Hx). specialize (Hpost e He). pose proof (cmp_anti (e_key e) k).
  pose proof (cmp_lt_le c k (e_key e) x). lia.
Qed.

Lemma Iter_Seek_Ok sl es t pre post : rep sl es → ok t → split_at (c := c) t es pre post → Iter_Seek compare_ t sl = Ok (first 0 post).
Proof using Hcmp.
  intros Hrep Ht Hsplit. unfold Iter_Seek.
  by destruct (FindGE_Ok Hcmp sl es t pre post None Hrep Ht Hsplit) as (prev & -> & _).
Qed.

Lemma rep_observes sl es : rep sl es → observes compare_ ok c sl (visible es).
Proof using Hcmp Hc.
  intros Hrep. pose proof (rep_max _ _ Hrep). split.
  - intros fuel Hf. unfold Iter_SeekToFirst.
    pose proof (Next_at sl _ [] es 0 (at_head sl es 0 Hrep ltac:(lia))) as Hn. change (Z.of_nat 0) with 0 in Hn. rewrite Hn.
    cbn [mbind res_bind]. by apply (forward_Ok sl es Hrep fuel [] es).
  - intros fuel Hf. unfold Iter_SeekToLast. rewrite (FindLast_Ok _ _ Hrep). cbn [mbind res_bind mret res_ret].
    assert (∃ post, es = es ++ post) as Hes by (exists []; by rewrite app_nil_r).
    rewrite (last_on_zero sl es es Hrep Hes). apply (backward_Ok sl es Hrep fuel es []); [by rewrite app_nil_r|done].
  - intros k Hk. by apply Contains_Ok.
  - intros t Ht. destruct (split_exists sl es t Hrep) as (pre & post & Hsplit). exists (first 0 post).
    split; [by apply (Iter_Seek_Ok sl es t pre)|]. rewrite (visible_split es t pre post Hsplit). unfold visible, first.
    destruct (lvl 0 post) as [|e rest] eqn:El; [done|]. cbn [map].
    assert (e ∈ es) as Hin.
    { destruct Hsplit as (-> & _ & _). apply elem_of_app. right. apply lvl_split in El as (a & b & -> & _). apply elem_of_app. right. left. }
    split; [by apply (valid_entry sl es)|by apply (Iter_key_entry sl es)].
Qed.
End reads.

(** ** The insertions *)

Section inserts.
Context `{Hspec : AllocatorSpec} {Key : Type} (null : Key) {ok : Key → Prop} {c : Key → Key → Z} {Hc : CmpOrder c}
  {compare_ : Key → Key → res Z} (Hcmp : ∀ a b, ok a → ok b → compare_ a b = Ok (c a b)).
Implicit Types es : list (entry Key).
Implicit Types sl : SkipList Key.

Abbreviation rep := (@rep Key ok c).

(** A list at rest: every node is linked. *)
Definition linked es : Prop := ∀ e, e ∈ es → (0 < e_height e)%nat.

Lemma visible_linked es : linked es → visible es = map e_key es.
Proof using. clear. intros Hl. unfold visible, lvl. by rewrite filter_keep. Qed.

Lemma visible_new (pre post : list (entry Key)) x i k : visible (pre ++ MkEntry x i k :: post) =
  visible pre ++ (if decide (0 < i)%nat then [k] else []) ++ visible post.
Proof using.
  clear. unfold visible. rewrite lvl_app, map_app. f_equal. case_decide.
  - by rewrite lvl_cons_in.
  - by rewrite lvl_cons_out by (simpl; lia).
Qed.

Lemma Insert_Ok sl es k a rs pre post : rep sl es → linked es → owned a rs sl es → ok k → split_at (c := c) k es pre post →
  (∀ e, e ∈ es → c (e_key e) k ≠ 0) →
  ∃ x h a' rs' sl', Insert compare_ k a sl = Ok (a', sl') ∧ let es' := pre ++ MkEntry x h k :: post in
    rep sl' es' ∧ linked es' ∧ owned a' (rs ++ rs') sl' es'.
Proof using Hcmp Hc Hspec.
  intros Hrep Hl Hown Hk Hsplit Hne. unfold Insert.
  destruct (insert_node_Ok Hcmp sl es k a rs pre post Hrep Hown Hk Hsplit Hne)
    as (x & h & prev & a' & sl1 & -> & Hh & Hrep1 & (rs' & Har & m & Hm) & Hhd & Hmh & Hprev & nx & Hnx & Hlen).
  cbn [mbind res_bind]. rewrite Nat2Z.id.
  destruct (link_loop_Ok x k pre post h h 0 sl1 prev nx Hrep1) as (sl' & nx' & Hrun & Hrep' & Hhd' & _ & _ & _); [lia|done..|].
  change (Z.of_nat 0) with 0 in Hrun. rewrite Hrun. cbn [mbind res_bind]. exists x, h, a', rs', sl'. split; [done|].
  split; [done|]. pose proof Hsplit as (Hes & _ & _). split.
  - intros e [?|[->|?]%elem_of_cons]%elem_of_app; [|simpl; lia|]; apply Hl; rewrite Hes; apply elem_of_app; [by left|by right].
  - split; [done|]. rewrite Hhd', Hhd, map_app. intros p Hp. apply elem_of_cons in Hp as [->|[Hp|Hp]%elem_of_app].
    + destruct (proj2 Hown (head_ sl)) as (m' & ?); [left|]. exists m'. apply elem_of_app. by left.
    + destruct (proj2 Hown p) as (m' & ?); [right; rewrite Hes, map_app; apply elem_of_app; by left|].
      exists m'. apply elem_of_app. by left.
    + cbn [map] in Hp. apply elem_of_cons in Hp as [->|Hp]; [exists m; apply elem_of_app; by right|].
      destruct (proj2 Hown p) as (m' & ?); [right; rewrite Hes, map_app; apply elem_of_app; by right|].
      exists m'. apply elem_of_app. by left.
Qed.

Lemma Insert_upto_Ok n sl es k a rs pre post : rep sl es → owned a rs sl es → ok k → split_at (c := c) k es pre post →
  (∀ e, e ∈ es → c (e_key e) k ≠ 0) →
  ∃ x i sl', Insert_upto compare_ n k a sl = Ok sl' ∧ rep sl' (pre ++ MkEntry x i k :: post) ∧ ((0 < i)%nat ↔ (2 ≤ n)%nat).
Proof using Hcmp Hc Hspec.
  intros Hrep Hown Hk Hsplit Hne. unfold Insert_upto.
  destruct (insert_node_Ok Hcmp sl es k a rs pre post Hrep Hown Hk Hsplit Hne)
    as (x & h & prev & a' & sl1 & -> & Hh & Hrep1 & _ & Hhd & Hmh & Hprev & nx & Hnx & Hlen).
  cbn [mbind res_bind]. rewrite Nat2Z.id. set (j := Nat.min (n / 2) h).
  destruct (link_loop_Ok x k pre post h j 0 sl1 prev nx Hrep1) as (sl2 & nx2 & Hrun & Hrep2 & Hhd2 & Hm2 & Hnx2 & Hlen2); [lia|done..|].
  change (Z.of_nat 0) with 0 in Hrun. rewrite Hrun. cbn [mbind res_bind Nat.add] in *.
  assert ((0 < j)%nat ↔ (2 ≤ n)%nat) as Hj.
  { unfold j. pose proof (Nat.div_mod n 2 ltac:(lia)). pose proof (Nat.mod_upper_bound n 2 ltac:(lia)). lia. }
  destruct (Nat.odd n && (Z.of_nat (n / 2) <? Z.of_nat h)) eqn:E; [|by exists x, j, sl2].
  assert (j = n / 2)%nat as Ej by lia. rewrite <-Ej.
  pose proof (rep_max _ _ Hrep2). destruct (rep_link x k pre post sl2 prev j nx2 Hrep2) as (sl' & -> & Hrep' & _);
    [lia|rewrite Hhd2; apply Hprev; lia|done|lia|]. by exists x, j, sl'.
Qed.

(** *** The constructor *)

Lemma clear_loop_Ok n : ∀ i sl node, nodes sl !! head_ sl = Some node → (i + n = length (next_ node))%nat →
  (∀ j, (j < i)%nat → next_ node !! j = Some (Some 0)) →
  ∃ sl' node', clear_loop n (Z.of_nat i) sl = Ok sl' ∧ head_ sl' = head_ sl ∧ max_height_ sl' = max_height_ sl
    ∧ nodes sl' !! head_ sl = Some node' ∧ length (next_ node') = length (next_ node)
    ∧ ∀ j, (j < i + n)%nat → next_ node' !! j = Some (Some 0).
Proof using.
  clear. induction n as [|n IH]; intros i sl node Hnode Hlen Hlow; cbn [clear_loop].
  { exists sl, node. rewrite Nat.add_0_r. done. }
  unfold SetNext, NoBarrier_SetNext. rewrite c_assert_true by lia. cbn [mbind res_bind]. rewrite Hnode.
  cbn [of_option mbind res_bind]. rewrite defined_true by lia. cbn [mbind res_bind mret res_ret]. rewrite Nat2Z.id.
  replace (Z.of_nat i + 1) with (Z.of_nat (S i)) by lia. set (node1 := MkNode _ _). set (sl1 := MkSkip _ _ _ _).
  destruct (IH (S i) sl1 node1) as (sl' & node' & Hrun & Hh & Hm & Hn & Hl & Hz).
  - apply lookup_insert_eq.
  - cbn [node1 next_]. rewrite length_insert. lia.
  - intros j Hj. cbn [node1 next_]. destruct (decide (j = i)) as [->|]; [apply list_lookup_insert_eq; lia|].
    rewrite list_lookup_insert_ne by done. apply Hlow. lia.
  - exists sl', node'. split; [done|]. split; [done|]. split; [done|]. split; [done|].
    cbn [node1 next_] in Hl. rewrite length_insert in Hl. split; [done|]. intros j Hj. apply Hz. lia.
Qed.

Lemma new_SkipList_Ok a rs : arena_ok a rs → ∃ a' rs' sl, new_SkipList null a = Ok (a', sl) ∧ rep sl []
  ∧ owned a' (rs ++ rs') sl [].
Proof using Hspec.
  clear dependent compare_. intros Ha. unfold new_SkipList, NewNode. cbn [head_ max_height_ rnd_ nodes].
  destruct (AllocateAligned_Ok (u64 (16 + 8 * (kMaxHeight - 1))) a rs Ha) as (p & a' & -> & Hp & _ & Ha').
  { unfold kMaxHeight. rewrite u64_small; lia. }
  cbn [mbind res_bind mret res_ret head_ max_height_ rnd_ nodes]. set (sl0 := MkSkip p 1 _ _). set (node := MkNode null _) in *.
  destruct (clear_loop_Ok 12 0 sl0 node) as (sl & node' & Hrun & Hh & Hm & Hn & Hl & Hz);
    [apply lookup_insert_eq|done|intros j Hj; lia|].
  change (Z.to_nat kMaxHeight) with 12%nat. change (Z.of_nat 0) with 0 in Hrun. rewrite Hrun. cbn [mbind res_bind].
  eexists a', _, sl. split; [done|]. split.
  - split; rewrite ?Hh, ?Hm; cbn [sl0 head_ max_height_] in *; try (intros; by rewrite ?elem_of_nil in *); try lia.
    + exists node'. split; [done|]. split; [|done]. intros i Hi. rewrite Hz by lia. done.
    + intros pre e post Hnil. by destruct pre.
    + apply NoDup_singleton.
    + constructor.
  - split; [exact Ha'|]. rewrite Hh. cbn [sl0 head_ map]. intros q ->%list_elem_of_singleton. eexists. apply elem_of_app. right. left.
Qed.

(** *** Sequences of insertions *)

(** No two of the keys are equal in the order. *)
Fixpoint distinct (keys : list Key) : Prop :=
  match keys with
  | [] => True
  | k :: keys => (∀ x, x ∈ keys → c x k ≠ 0) ∧ distinct keys
  end.

Lemma visible_insert es k pre post x h : linked es → split_at (c := c) k es pre post → (0 < h)%nat →
  visible (pre ++ MkEntry x h k :: post) ≡ₚ k :: visible es.
Proof using.
  clear. intros Hl (-> & _) Hh. rewrite visible_new, decide_True by done. unfold visible. rewrite lvl_app, map_app.
  symmetry. apply Permutation_middle.
Qed.

Lemma insert_all_Ok keys : ∀ sl es a rs, rep sl es → linked es → owned a rs sl es → Forall ok keys → distinct keys →
  (∀ e k, e ∈ es → k ∈ keys → c (e_key e) k ≠ 0) →
  ∃ a' rs' sl' es', insert_all compare_ keys a sl = Ok (a', sl') ∧ rep sl' es' ∧ linked es' ∧ owned a' rs' sl' es'
    ∧ visible es' ≡ₚ visible es ++ keys.
Proof using Hcmp Hc Hspec.
  induction keys as [|k keys IH]; intros sl es a rs Hrep Hl Hown Hok Hd Hne; cbn [insert_all].
  { exists a, rs, sl, es. rewrite app_nil_r. done. }
  apply Forall_cons_1 in Hok as [Hk Hok]. destruct Hd as [Hdk Hd].
  destruct (split_exists sl es k Hrep) as (pre & post & Hsplit).
  destruct (Insert_Ok sl es k a rs pre post Hrep Hl Hown Hk Hsplit) as (x & h & a1 & rs' & sl1 & -> & Hrep1 & Hl1 & Hown1).
  { intros e He. apply Hne; [done|left]. }
  cbn [mbind res_bind]. assert (0 < h)%nat as Hh by (apply (Hl1 (MkEntry x h k)); apply elem_of_app; right; left).
  destruct (IH sl1 (pre ++ MkEntry x h k :: post) a1 (rs ++ rs') Hrep1 Hl1 Hown1 Hok Hd) as (a' & rs'' & sl' & es' & -> & Hrep' & Hl' & Hown' & Hv).
  { intros e y He Hy. pose proof Hsplit as (Hes & _ & _).
    apply elem_of_app in He as [He|[->|He]%elem_of_cons].
    - apply Hne; [|by right]. rewrite Hes. apply elem_of_app. by left.
    - simpl. pose proof (Hdk y Hy). pose proof (cmp_anti y k). lia.
    - apply Hne; [|by right]. rewrite Hes. apply elem_of_app. by right. }
  exists a', rs'', sl', es'. split; [done|]. split; [done|]. split; [done|]. split; [done|].
  rewrite Hv, (visible_insert es k pre post x h Hl Hsplit Hh). simpl. apply Permutation_middle.
Qed.

(** A list built by insertions. *)
Lemma built_Ok keys : Forall ok keys → distinct keys → ∃ a0 sl0 a rs sl es, new_SkipList null new_Arena = Ok (a0, sl0)
  ∧ insert_all compare_ keys a0 sl0 = Ok (a, sl) ∧ rep sl es ∧ linked es ∧ owned a rs sl es ∧ visible es ≡ₚ keys.
Proof using Hcmp Hc Hspec.
  intros Hok Hd. destruct (new_SkipList_Ok new_Arena [] new_Arena_ok) as (a0 & rs0 & sl0 & -> & Hrep0 & Hown0).
  destruct (insert_all_Ok keys sl0 [] a0 ([] ++ rs0) Hrep0) as (a & rs & sl & es & Hrun & Hrep & Hl & Hown & Hv); try done.
  - by intros e ?%elem_of_nil.
  - by intros e k ?%elem_of_nil.
  - exists a0, sl0, a, rs, sl, es. done.
Qed.

(** An equal key is refused. *)
Lemma Insert_equal sl es k a e : rep sl es → linked es → ok k → e ∈ es → c (e_key e) k = 0 →
  Insert compare_ k a sl = Err AssertFail.
Proof using Hcmp Hc.
  clear Hspec. intros Hrep Hl Hk He Heq. destruct (split_exists sl es k Hrep) as (pre & post & Hsplit). unfold Insert, insert_node.
  destruct (FindGE_Ok Hcmp sl es k pre post (Some (replicate (Z.to_nat kMaxHeight) None)) Hrep Hk Hsplit)
    as (prev' & -> & Hprev); [by intros ? [= <-]|].
  destruct prev' as [p|]; [|done]. cbn [mbind res_bind of_option]. pose proof Hsplit as (Hes & Hpre & Hpost).
  rewrite Hes in He. apply elem_of_app in He as [He|He]; [specialize (Hpre e He); lia|].
  destruct post as [|e0 post]; [by apply elem_of_nil in He|].
  assert (e0 ∈ es) as Hin by (rewrite Hes; apply elem_of_app; right; left).
  unfold first. rewrite lvl_cons_in by by apply Hl.
  pose proof (rep_null _ _ Hrep e0 Hin). replace (e_ptr e0 =? 0) with false by lia.
  rewrite (key_of_entry _ _ _ Hrep Hin). unfold Equal. cbn [mbind res_bind].
  rewrite Hcmp by (done || by eapply rep_keys). cbn [mbind res_bind mret res_ret].
  assert (c (e_key e0) (e_key e) ≤ 0) as Hle.
  { pose proof (rep_sorted _ _ Hrep) as Hs. rewrite Hes in Hs. apply StronglySorted_app_1_r, StronglySorted_inv in Hs as [_ Hs].
    rewrite Forall_forall in Hs. apply elem_of_cons in He as [->|He]; [by rewrite (cmp_refl c)|]. specialize (Hs e He). simpl in Hs. lia. }
  assert (c k (e_key e0) = 0) as ->; [|done].
  assert (0 ≤ c (e_key e0) k) as H0 by (apply Hpost; left). pose proof (cmp_trans (e_key e0) (e_key e) k Hle ltac:(lia)).
  pose proof (cmp_anti k (e_key e0)). lia.
Qed.

(** ** Properties *)

(** Claim C34. A skip list is a sorted set: for any allocator and any comparison that is a total
    preorder on the keys, starting with an empty list and inserting keys no two of which are
    equal, in any order, succeeds; from then on iteration forwards and backwards, [Contains] and
    [Seek] answer as the sorted list of the keys would. Inserting a key equal to one in the list
    fails its assertion. *)
Theorem skiplist_sorted_set (keys : list Key) (Hok : Forall ok keys) (Hdistinct : distinct keys) :
  ∃ a0 sl0 a sl ks, new_SkipList null new_Arena = Ok (a0, sl0)
    ∧ insert_all compare_ keys a0 sl0 = Ok (a, sl)
    ∧ ks ≡ₚ keys ∧ StronglySorted (λ x y, c x y < 0) ks ∧ observes compare_ ok c sl ks
    ∧ ∀ k x, ok k → x ∈ keys → c x k = 0 → Insert compare_ k a sl = Err AssertFail.
Proof using Hcmp Hc Hspec.
  destruct (built_Ok keys Hok Hdistinct) as (a0 & sl0 & a & rs & sl & es & Hnew & Hrun & Hrep & Hl & Hown & Hv).
  exists a0, sl0, a, sl, (visible es). split; [done|]. split; [done|]. split; [done|].
  split; [by eapply visible_sorted|]. split; [by apply rep_observes|]. intros k x Hk Hx Heq.
  rewrite <-Hv in Hx. apply visible_elem in Hx as (e & He & <-). by apply (Insert_equal sl es k a e).
Qed.

(** Claim C35. Readers need no lock: a thread that looks at a skip list while another one
    inserts a key, after any number of the stores that link the new node, sees a complete sorted
    list, the one before the insertion or the one after it. The switch is the second store, the
    link on the lowest level. *)
Theorem skiplist_readers (keys : list Key) (key : Key) (Hok : Forall ok (key :: keys)) (Hdistinct : distinct (key :: keys)) :
  ∃ a0 sl0 a sl old new, new_SkipList null new_Arena = Ok (a0, sl0)
    ∧ insert_all compare_ keys a0 sl0 = Ok (a, sl)
    ∧ old ≡ₚ keys ∧ StronglySorted (λ x y, c x y < 0) old
    ∧ new ≡ₚ key :: keys ∧ StronglySorted (λ x y, c x y < 0) new
    ∧ ∀ n, ∃ sl', Insert_upto compare_ n key a sl = Ok sl'
        ∧ observes compare_ ok c sl' (if decide (n < 2)%nat then old else new).
Proof using Hcmp Hc Hspec.
  apply Forall_cons_1 in Hok as [Hk Hok]. destruct Hdistinct as [Hdk Hd].
  destruct (built_Ok keys Hok Hd) as (a0 & sl0 & a & rs & sl & es & Hnew & Hrun & Hrep & Hl & Hown & Hv).
  destruct (split_exists sl es key Hrep) as (pre & post & Hsplit). pose proof Hsplit as (Hes & _ & _).
  assert (∀ e, e ∈ es → c (e_key e) key ≠ 0) as Hne.
  { intros e He. apply Hdk. rewrite <-Hv, visible_linked by done. by apply list_elem_of_In, in_map, list_elem_of_In. }
  exists a0, sl0, a, sl, (visible es), (visible pre ++ key :: visible post). split; [done|]. split; [done|]. split; [done|].
  split; [by eapply visible_sorted|].
  destruct (Insert_Ok sl es key a rs pre post Hrep Hl Hown Hk Hsplit Hne) as (x & h & a' & rs' & sl' & _ & Hrep' & Hl' & _).
  assert (0 < h)%nat as Hh by (apply (Hl' (MkEntry x h key)); apply elem_of_app; right; left).
  pose proof (visible_new pre post x h key) as Hvn. rewrite decide_True in Hvn by done. cbn [app] in Hvn.
  split; [by rewrite <-Hvn, (visible_insert es key pre post x h), Hv|].
  split; [rewrite <-Hvn; by eapply visible_sorted|]. intros n.
  destruct (Insert_upto_Ok n sl es key a rs pre post Hrep Hown Hk Hsplit Hne) as (y & i & sl2 & -> & Hrep2 & Hi).
  exists sl2. split; [done|]. pose proof (rep_observes Hcmp _ _ Hrep2) as Hobs. rewrite visible_new in Hobs.
  destruct (decide (n < 2)%nat).
  - rewrite decide_False in Hobs by lia. rewrite Hes. unfold visible in *. by rewrite lvl_app, map_app.
  - by rewrite decide_True in Hobs by lia.
Qed.
End inserts.

(** Integers, compared by their difference. *)
Definition int_compare (a b : Z) : res Z := mret (a - b).

Lemma skiplist_sorted_set_witness :
  ∃ a0 sl0 a sl ks, @new_SkipList bump_allocator Z 0 new_Arena = Ok (a0, sl0)
    ∧ @insert_all bump_allocator Z int_compare [7; 3; 12; 5] a0 sl0 = Ok (a, sl)
    ∧ ks ≡ₚ [7; 3; 12; 5] ∧ StronglySorted (λ x y, x - y < 0) ks
    ∧ observes int_compare (λ _, True) (λ x y, x - y) sl ks
    ∧ ∀ k x, True → x ∈ [7; 3; 12; 5] → x - k = 0 → @Insert bump_allocator Z int_compare k a sl = Err AssertFail.
Proof.
  apply (@skiplist_sorted_set bump_allocator bump_spec Z 0 (λ _, True) (λ x y, x - y) (diff_order id) int_compare); [done| |].
  - repeat constructor.
  - simpl. split_and!; try done; intros x Hx; repeat (apply elem_of_cons in Hx as [->|Hx]; [lia|]); by apply elem_of_nil in Hx.
Defined.

Lemma skiplist_readers_witness :
  ∃ a0 sl0 a sl old new, @new_SkipList bump_allocator Z 0 new_Arena = Ok (a0, sl0)
    ∧ @insert_all bump_allocator Z int_compare [7; 3] a0 sl0 = Ok (a, sl)
    ∧ old ≡ₚ [7; 3] ∧ StronglySorted (λ x y, x - y < 0) old
    ∧ new ≡ₚ [5; 7; 3] ∧ StronglySorted (λ x y, x - y < 0) new
    ∧ ∀ n, ∃ sl', @Insert_upto bump_allocator Z int_compare n 5 a sl = Ok sl'
        ∧ observes int_compare (λ _, True) (λ x y, x - y) sl' (if decide (n < 2)%nat then old else new).
Proof.
  apply (@skiplist_readers bump_allocator bump_spec Z 0 (λ _, True) (λ x y, x - y) (diff_order id) int_compare); [done| |].
  - repeat constructor.
  - simpl. split_and!; try done; intros x Hx; repeat (apply elem_of_cons in Hx as [->|Hx]; [lia|]); by apply elem_of_nil in Hx.
Defined.
