(* ===== verification/MemTable.v ===== *)
(** * The memtable: leveldb db/memtable.h, db/memtable.cc

    A skip list of entries in an arena; an entry is a length-prefixed internal key followed by a
    length-prefixed value, and a pointer to one is the bytes from there on. *)
From stdpp Require Import gmap sorting.
From S2P Require Import Prelude Buffers CLib Order Coding Comparator DbFormat Status Random Arena SkipList SkipProps SkipSpec.

(** [GetVarint32Ptr(p, p + 5, &len)], when it finds a number: the number and what follows. *)
Definition varint_at (p : list byte) : res (Z * list byte) :=
  match GetVarint32Ptr (take 5 p) with
  | Some (len, rest) => mret (len, drop (length (take 5 p) - length rest) p)
  | None => Err UB
  end.

(** The slice, and the bytes after it. *)
Definition prefixed_slice (data : list byte) : res (list byte * list byte) :=
  '(len, p) ← varint_at data;
  s ← read_bytes p 0 len;
  mret (s, drop (Z.to_nat len) p).

Definition GetLengthPrefixedSlice_at (data : list byte) : res (list byte) :=
  '(s, _) ← prefixed_slice data; mret s.

Definition EncodeKey (target : list byte) : list byte := PutVarint32 [] (u32 (zlen target)) ++ target.

Record MemTable := MkMem { refs_ : Z; arena_ : Arena; table_ : SkipList (list byte) }.

Section memtable.
Context `{Allocator} {user_comparator : Comparator} (fresh : Z → list byte).

Definition KeyComparator_call (aptr bptr : list byte) : res Z :=
  a ← GetLengthPrefixedSlice_at aptr;
  b ← GetLengthPrefixedSlice_at bptr;
  @Compare (InternalKeyComparator user_comparator) a b.

(** The key of the head of the list, NULL, is never read. *)
Definition new_MemTable : res MemTable :=
  '(a, table) ← new_SkipList [] new_Arena; mret (MkMem 0 a table).

Definition Ref (m : MemTable) : res MemTable :=
  r ← cint (refs_ m + 1); mret (MkMem r (arena_ m) (table_ m)).
(** [None]: deleted; the destructor has its own assertion. *)
Definition Unref (m : MemTable) : res (option MemTable) :=
  r ← cint (refs_ m - 1);
  _ ← c_assert (0 <=? r);
  if r <=? 0 then _ ← c_assert (r =? 0); mret None else mret (Some (MkMem r (arena_ m) (table_ m))).

Definition ApproximateMemoryUsage (capacity : Z) (m : MemTable) : Z := MemoryUsage capacity (arena_ m).

(** [fresh n]: the uninitialised memory of an allocation of [n] bytes. *)
Definition MemTable_Add (s type : Z) (key value : list byte) (m : MemTable) : res MemTable :=
  let key_size := zlen key in
  let val_size := zlen value in
  let internal_key_size := u64 (key_size + 8) in
  let encoded_len := u64 (VarintLength internal_key_size + internal_key_size + VarintLength val_size + val_size) in
  '(_, a) ← Allocate encoded_len (arena_ m);
  let klength := EncodeVarint32 (u32 internal_key_size) in
  buf ← write_bytes (fresh encoded_len) 0 klength;
  let p := zlen klength in
  buf ← write_bytes buf p key;
  let p := p + key_size in
  buf ← write_bytes buf p (EncodeFixed64 (Z.lor (u64 (Z.shiftl s 8)) type));
  let p := p + 8 in
  let vlength := EncodeVarint32 (u32 val_size) in
  buf ← write_bytes buf p vlength;
  let p := p + zlen vlength in
  buf ← write_bytes buf p value;
  _ ← c_assert (p + val_size =? encoded_len);
  '(a, table) ← Insert KeyComparator_call buf a (table_ m);
  mret (MkMem (refs_ m) a table).

(** [value] and [s] are left alone when nothing is found; the answer, and both of them. *)
Definition MemTable_Get (key : LookupKey) (value : list byte) (s : Status) (m : MemTable) : res (bool * list byte * Status) :=
  memkey ← LookupKey_memtable_key key;
  iter ← Iter_Seek KeyComparator_call memkey (table_ m);
  if Iter_Valid iter then
    entry ← Iter_key iter (table_ m);
    '(key_length, key_ptr) ← varint_at entry;
    ukey ← read_bytes key_ptr 0 (u32 (key_length - 8));
    wanted ← LookupKey_user_key key;
    r ← Compare ukey wanted;
    if r =? 0 then
      _ ← defined (8 <=? key_length);
      tag ← DecodeFixed64 (drop (Z.to_nat (key_length - 8)) key_ptr);
      let type := Z.land tag 0xff in
      if type =? kTypeValue then
        v ← GetLengthPrefixedSlice_at (drop (Z.to_nat key_length) key_ptr);
        mret (true, v, s)
      else if type =? kTypeDeletion then s ← NotFound [] []; mret (true, value, s)
      else mret (false, value, s)
    else mret (false, value, s)
  else mret (false, value, s).

(** ** MemTableIterator, over an iterator of the list *)

Definition MemIter_Valid (iter_ : Z) : bool := Iter_Valid iter_.
Definition MemIter_Seek (k : list byte) (m : MemTable) : res Z := Iter_Seek KeyComparator_call (EncodeKey k) (table_ m).
Definition MemIter_SeekToFirst (m : MemTable) : res Z := Iter_SeekToFirst (table_ m).
Definition MemIter_SeekToLast (m : MemTable) : res Z := Iter_SeekToLast (table_ m).
Definition MemIter_Next (iter_ : Z) (m : MemTable) : res Z := Iter_Next iter_ (table_ m).
Definition MemIter_Prev (iter_ : Z) (m : MemTable) : res Z := Iter_Prev KeyComparator_call iter_ (table_ m).
Definition MemIter_key (iter_ : Z) (m : MemTable) : res (list byte) :=
  k ← Iter_key iter_ (table_ m); GetLengthPrefixedSlice_at k.
Definition MemIter_value (iter_ : Z) (m : MemTable) : res (list byte) :=
  k ← Iter_key iter_ (table_ m); '(_, rest) ← prefixed_slice k; GetLengthPrefixedSlice_at rest.
Definition MemIter_status : Status := OK.
End memtable.

(** ** Entries *)

(** The bytes of an entry; a lookup key is the first half of one. *)
Definition entry_key (ik : list byte) : list byte := EncodeVarint32 (zlen ik) ++ ik.
Definition entry_bytes (ik v : list byte) : list byte := entry_key ik ++ entry_key v.

Lemma varint_at_Ok v rest : 0 ≤ v < 2^32 → varint_at (EncodeVarint32 v ++ rest) = Ok (v, rest).
Proof.
  intros Hv. unfold varint_at. pose proof (EncodeVarint32_length v Hv) as Hl.
  rewrite take_app_ge by lia. rewrite GetVarint32Ptr_Ok by done. unfold mret, res_ret. do 2 f_equal.
  rewrite length_app. replace (_ + _ - _)%nat with (length (EncodeVarint32 v)) by lia. apply drop_app_length.
Qed.

Lemma read_prefix s rest : read_bytes (s ++ rest) 0 (zlen s) = Ok s.
Proof. rewrite read_bytes_Ok by (rewrite ?length_app; lia). by rewrite slice_prefix. Qed.

Lemma prefixed_slice_Ok s rest : zlen s < 2^32 → prefixed_slice (entry_key s ++ rest) = Ok (s, rest).
Proof.
  intros Hs. unfold prefixed_slice, entry_key. rewrite <-app_assoc, varint_at_Ok by lia. cbn [mbind res_bind].
  rewrite read_prefix. cbn [mbind res_bind mret res_ret]. by rewrite Nat2Z.id, drop_app_length.
Qed.

Lemma slice_at_Ok s rest : zlen s < 2^32 → GetLengthPrefixedSlice_at (entry_key s ++ rest) = Ok s.
Proof. intros Hs. unfold GetLengthPrefixedSlice_at. by rewrite prefixed_slice_Ok. Qed.

Lemma EncodeKey_Ok target : zlen target < 2^32 → EncodeKey target = entry_key target.
Proof. intros Ht. unfold EncodeKey, entry_key, PutVarint32. by rewrite u32_small by lia. Qed.

(** The internal key in an entry, and the order of entries by it. *)
Definition ikey_of (k : list byte) : list byte := match prefixed_slice k with Ok (s, _) => s | Err _ => [] end.
Definition entry_order (c : list byte → list byte → Z) (a b : list byte) : Z := internal_order c (ikey_of a) (ikey_of b).
Definition entry_ok (ok : list byte → Prop) (k : list byte) : Prop :=
  ∃ ik rest, k = entry_key ik ++ rest ∧ zlen ik < 2^32 ∧ internal_ok ok ik.

Lemma ikey_of_Ok ik rest : zlen ik < 2^32 → ikey_of (entry_key ik ++ rest) = ik.
Proof. intros Hik. unfold ikey_of. by rewrite prefixed_slice_Ok. Qed.

#[export] Instance entry_cmp_order c : CmpOrder c → CmpOrder (entry_order c).
Proof. intros Hc. apply (on_order ikey_of (internal_order c)). by apply internal_cmp_order. Qed.

Lemma KeyComparator_Ok (C : Comparator) ok c a b : ComparatorSpec C ok c → entry_ok ok a → entry_ok ok b →
  @KeyComparator_call C a b = Ok (entry_order c a b).
Proof.
  intros Hspec (ia & ra & -> & La & Ha) (ib & rb & -> & Lb & Hb). unfold KeyComparator_call, entry_order.
  rewrite !slice_at_Ok, !ikey_of_Ok by done. cbn [mbind res_bind Compare InternalKeyComparator].
  by apply internal_Compare_Ok.
Qed.
