(* ===== verification/MemProps.v ===== *)
(** * The memtable is a multi-version map

    A memtable holds versions: a user key, the sequence number and type of the write, a value.
    [MemTable_Get] answers with the newest version of a key that a snapshot can see, and the
    iterator visits all versions in the order of internal keys. *)
From stdpp Require Import gmap sorting.
From S2P Require Import Prelude Buffers CLib Order Coding Comparator DbFormat Status Random Arena SkipList SkipProps SkipSpec MemTable.

Record version := MkVersion { v_key : list byte; v_seq : Z; v_type : Z; v_value : list byte }.

Definition v_ikey (v : version) : list byte := internal (v_key v) (v_seq v) (v_type v).
Definition v_entry (v : version) : list byte := entry_bytes (v_ikey v) (v_value v).
Definition v_tag (v : version) : Z := pack (v_seq v) (v_type v).

Definition version_ok (ok : list byte → Prop) (v : version) : Prop :=
  packable (v_seq v) (v_type v) ∧ ok (v_key v) ∧ zlen (v_key v) + 13 < 2^32 ∧ zlen (v_value v) < 2^32.

(** What a snapshot [s] sees of the key [u]: the version with the greatest tag. *)
Definition candidate (c : list byte → list byte → Z) (u : list byte) (s : Z) (v : version) : bool :=
  (c (v_key v) u =? 0) && (v_seq v <=? s).

Fixpoint newest (c : list byte → list byte → Z) (u : list byte) (s : Z) (vs : list version) : option version :=
  match vs with
  | [] => None
  | v :: vs =>
      match newest c u s vs with
      | Some w => if candidate c u s v && (v_tag w <? v_tag v) then Some v else Some w
      | None => if candidate c u s v then Some v else None
      end
  end.

Lemma newest_spec c u s vs : match newest c u s vs with
  | None => ∀ v, v ∈ vs → candidate c u s v = false
  | Some w => w ∈ vs ∧ candidate c u s w = true ∧ ∀ v, v ∈ vs → candidate c u s v = true → v_tag v ≤ v_tag w
  end.
Proof.
  induction vs as [|v vs IH]; [by intros v ?%elem_of_nil|]. simpl. destruct (newest c u s vs) as [w|].
  - destruct IH as (Hw & Hcw & Hmax). destruct (candidate c u s v && (v_tag w <? v_tag v)) eqn:E.
    + apply andb_prop in E as [Hv Hlt]. split; [left|]. split; [done|].
      intros x [->|Hx]%elem_of_cons Hcx; [done|]. specialize (Hmax x Hx Hcx). lia.
    + split; [by right|]. split; [done|]. intros x [->|Hx]%elem_of_cons Hcx; [|by apply Hmax].
      rewrite Hcx in E. simpl in E. lia.
  - destruct (candidate c u s v) eqn:E.
    + split; [left|]. split; [done|]. intros x [->|Hx]%elem_of_cons Hcx; [done|]. by rewrite IH in Hcx.
    + intros x [->|Hx]%elem_of_cons; [done|by apply IH].
Qed.

Section mem.
Context `{Hspec : AllocatorSpec} {C : Comparator} {ok : list byte → Prop} {c : list byte → list byte → Z}
  {HC : ComparatorSpec C ok c} (fresh : Z → list byte) (Hfresh : ∀ n, 0 ≤ n → zlen (fresh n) = n).

Abbreviation eok := (entry_ok ok).
Abbreviation ec := (entry_order c).
Abbreviation erep := (@rep (list byte) eok ec).

#[local] Instance c_order : CmpOrder c.
Proof using HC. apply (@spec_order _ _ _ HC). Qed.

Lemma entry_compare a b : eok a → eok b → @KeyComparator_call C a b = Ok (ec a b).
Proof using HC. by apply KeyComparator_Ok. Qed.

Lemma ikey_ok v : version_ok ok v → internal_ok ok (v_ikey v) ∧ zlen (v_ikey v) + 5 < 2^32
  ∧ user_part (v_ikey v) = v_key v ∧ tag_part (v_ikey v) = v_tag v.
Proof using.
  intros (Hp & Hk & Hl & _). destruct (internal_parts (v_key v) (v_seq v) (v_type v) Hp) as [Hu Ht].
  pose proof (length_internal (v_key v) (v_seq v) (v_type v)) as Hlen. unfold v_ikey, v_tag.
  split; [split; [lia|by rewrite Hu]|]. split; [lia|]. done.
Qed.

Lemma v_entry_ok v : version_ok ok v → eok (v_entry v) ∧ ikey_of (v_entry v) = v_ikey v.
Proof using.
  intros Hv. destruct (ikey_ok v Hv) as (Hi & Hl & _). unfold v_entry, entry_bytes. split; [|apply ikey_of_Ok; lia].
  eexists _, _. split; [reflexivity|]. split; [lia|done].
Qed.

(** The order of entries: user keys, then tags from the greatest. *)
Lemma entry_order_versions v w : version_ok ok v → version_ok ok w →
  ec (v_entry v) (v_entry w) = if c (v_key v) (v_key w) =? 0 then Z.sgn (v_tag w - v_tag v) else c (v_key v) (v_key w).
Proof using.
  intros Hv Hw. unfold entry_order. destruct (v_entry_ok v Hv) as [_ ->]. destruct (v_entry_ok w Hw) as [_ ->].
  rewrite internal_order_parts. destruct (ikey_ok v Hv) as (_ & _ & -> & ->). by destruct (ikey_ok w Hw) as (_ & _ & -> & ->).
Qed.

(** ** The memory of a table *)

Definition mem_inv (m : MemTable) (vs : list version) : Prop :=
  ∃ rs es, erep (table_ m) es ∧ linked es ∧ owned (arena_ m) rs (table_ m) es ∧ visible es ≡ₚ map v_entry vs
    ∧ Forall (version_ok ok) vs.

Lemma new_MemTable_Ok : ∃ m, new_MemTable = Ok m ∧ mem_inv m [] ∧ refs_ m = 0.
Proof using Hspec.
  unfold new_MemTable. destruct (new_SkipList_Ok (ok := eok) (c := ec) [] new_Arena [] new_Arena_ok) as (a & rs & sl & -> & Hrep & Hown).
  cbn [mbind res_bind mret res_ret]. eexists. split; [reflexivity|]. split; [|done]. exists ([] ++ rs), []. split; [done|].
  split; [by intros e ?%elem_of_nil|]. done.
Qed.

Lemma VarintLength_32 v : 0 ≤ v < 2^32 → VarintLength v = zlen (EncodeVarint32 v).
Proof using. intros Hv. unfold VarintLength. rewrite varint_length_Ok, EncodeVarint32_loop by done. unfold EncodeVarint64. lia. Qed.

Lemma lor_pack s t : packable s t → Z.lor (u64 (Z.shiftl s 8)) t = pack s t.
Proof using.
  intros Hp. pose proof (Pack_Ok s t Hp) as H. unfold PackSequenceAndType in H. destruct Hp as [Hs Ht].
  rewrite !c_assert_true in H by (unfold kValueTypeForSeek in *; lia). by injection H.
Qed.

(** [MemTable_Add] builds the entry and inserts it. *)
Lemma build_entry v : version_ok ok v →
  let n := zlen (v_entry v) in
  u64 (VarintLength (u64 (zlen (v_key v) + 8)) + u64 (zlen (v_key v) + 8) + VarintLength (zlen (v_value v)) + zlen (v_value v)) = n
  ∧ 0 < n < 2^63
  ∧ ∀ R (k : list byte → res R),
    (buf ← write_bytes (fresh n) 0 (EncodeVarint32 (u32 (u64 (zlen (v_key v) + 8))));
     let p := zlen (EncodeVarint32 (u32 (u64 (zlen (v_key v) + 8)))) in
     buf ← write_bytes buf p (v_key v);
     let p := p + zlen (v_key v) in
     buf ← write_bytes buf p (EncodeFixed64 (Z.lor (u64 (Z.shiftl (v_seq v) 8)) (v_type v)));
     let p := p + 8 in
     buf ← write_bytes buf p (EncodeVarint32 (u32 (zlen (v_value v))));
     let p := p + zlen (EncodeVarint32 (u32 (zlen (v_value v)))) in
     buf ← write_bytes buf p (v_value v);
     _ ← c_assert (p + zlen (v_value v) =? n);
     k buf) = k (v_entry v).
Proof using Hfresh.
  intros (Hp & _ & Hk & Hv) n. pose proof (length_internal (v_key v) (v_seq v) (v_type v)) as Hil.
  rewrite lor_pack by done. rewrite !(u64_small (zlen (v_key v) + 8)) by lia. rewrite !u32_small by lia.
  set (kl := EncodeVarint32 (zlen (v_key v) + 8)). set (vl := EncodeVarint32 (zlen (v_value v))). set (tag := EncodeFixed64 (pack (v_seq v) (v_type v))).
  assert (v_entry v = (((kl ++ v_key v) ++ tag) ++ vl) ++ v_value v) as He.
  { unfold v_entry, entry_bytes, entry_key, v_ikey. rewrite Hil. fold kl vl. unfold internal. fold tag. by rewrite <-!app_assoc. }
  assert (zlen tag = 8) as Htag by (unfold tag; rewrite length_EncodeFixed64; lia).
  assert (n = zlen kl + zlen (v_key v) + 8 + zlen vl + zlen (v_value v)) as Hn by (unfold n; rewrite He, !length_app; lia).
  pose proof (EncodeVarint32_length (zlen (v_key v) + 8) ltac:(lia)) as Hkl. fold kl in Hkl.
  pose proof (EncodeVarint32_length (zlen (v_value v)) ltac:(lia)) as Hvl. fold vl in Hvl.
  rewrite !VarintLength_32 by lia. fold kl vl. rewrite u64_small by lia. split; [lia|]. split; [lia|].
  intros R k. pose proof (Hfresh n ltac:(lia)) as Hf.
  pose proof (write_next [] (fresh n) kl ltac:(lia)) as E. change (zlen []) with 0 in E. change ([] ++ ?l) with l in E.
  rewrite E. cbn [mbind res_bind]. rewrite write_next by (rewrite length_drop; lia). cbn [mbind res_bind].
  replace (zlen kl + zlen (v_key v)) with (zlen (kl ++ v_key v)) by (rewrite length_app; lia).
  rewrite write_next by (rewrite !length_drop; lia). cbn [mbind res_bind].
  replace (zlen (kl ++ v_key v) + 8) with (zlen ((kl ++ v_key v) ++ tag)) by (rewrite !length_app; lia).
  rewrite write_next by (rewrite !length_drop; lia). cbn [mbind res_bind].
  replace (zlen ((kl ++ v_key v) ++ tag) + zlen vl) with (zlen (((kl ++ v_key v) ++ tag) ++ vl)) by (rewrite !length_app; lia).
  rewrite write_next by (rewrite !length_drop; lia). cbn [mbind res_bind].
  rewrite c_assert_true by (rewrite !length_app; lia). cbn [mbind res_bind]. f_equal.
  rewrite He. rewrite <-(app_nil_r (_ ++ v_value v)) at 2. f_equal. apply length_zero_iff_nil. rewrite !length_drop. lia.
Qed.

Lemma owned_allocate a a' rs p n (sl : SkipList (list byte)) es : owned a rs sl es → arena_ok a' (rs ++ [(p, n)]) →
  owned a' (rs ++ [(p, n)]) sl es.
Proof using.
  intros [_ Hown] Ha. split; [done|]. intros q Hq. destruct (Hown q Hq) as (m & Hm). exists m. apply elem_of_app. by left.
Qed.

Lemma visible_version (m : MemTable) vs es e : visible es ≡ₚ map v_entry vs → linked es → e ∈ es →
  ∃ v, v ∈ vs ∧ e_key e = v_entry v.
Proof using.
  intros Hv Hl He. assert (e_key e ∈ map v_entry vs) as Hin.
  { rewrite <-Hv, visible_linked by done. by apply list_elem_of_In, in_map, list_elem_of_In. }
  apply list_elem_of_In, in_map_iff in Hin as (v & <- & Hin%list_elem_of_In). by exists v.
Qed.

Lemma MemTable_Add_Ok m vs v : mem_inv m vs → version_ok ok v → v_seq v ∉ map v_seq vs →
  ∃ m', @MemTable_Add _ C fresh (v_seq v) (v_type v) (v_key v) (v_value v) m = Ok m' ∧ mem_inv m' (vs ++ [v])
    ∧ refs_ m' = refs_ m.
Proof using HC Hfresh Hspec.
  intros (rs & es & Hrep & Hl & Hown & Hvis & Hvs) Hv Hnew. unfold MemTable_Add.
  destruct (build_entry v Hv) as (-> & Hn & Hbuild).
  destruct (Allocate_Ok (zlen (v_entry v)) (arena_ m) rs (proj1 Hown)) as (p & a1 & -> & _ & Ha1); [lia|].
  cbn [mbind res_bind]. cbv zeta in Hbuild |- *. cbn [mbind res_bind] in Hbuild. rewrite Hbuild.
  destruct (v_entry_ok v Hv) as [Hok _].
  destruct (split_exists (table_ m) es (v_entry v) Hrep) as (pre & post & Hsplit).
  destruct (Insert_Ok entry_compare (table_ m) es (v_entry v) a1 _ pre post Hrep Hl (owned_allocate _ _ _ _ _ _ _ Hown Ha1) Hok Hsplit)
    as (x & h & a' & rs' & sl' & -> & Hrep' & Hl' & Hown').
  { intros e He. destruct (visible_version m vs es e Hvis Hl He) as (w & Hw & ->).
    rewrite Forall_forall in Hvs. rewrite entry_order_versions by (done || by apply Hvs).
    destruct (Z.eqb_spec (c (v_key w) (v_key v)) 0); [|done]. intros E.
    destruct (Hvs w Hw) as ((_ & Ht1) & _). destruct Hv as ((_ & Ht2) & _). unfold v_tag, pack, kTypeValue in *.
    apply Hnew. replace (v_seq v) with (v_seq w) by lia. by apply list_elem_of_In, in_map, list_elem_of_In. }
  cbn [mbind res_bind mret res_ret]. eexists. split; [reflexivity|]. split; [|done]. eexists _, _. split; [exact Hrep'|].
  split; [done|]. split; [exact Hown'|]. split; [|apply Forall_app; split; [done|by constructor]].
  rewrite (visible_insert es (v_entry v) pre post x h Hl Hsplit).
  - rewrite Hvis, map_app. simpl. apply Permutation_cons_append.
  - apply (Hl' (MkEntry x h (v_entry v))). apply elem_of_app. right. left.
Qed.

(** ** Lookups *)

(** The target of a lookup: all versions of the key that the snapshot sees are not below it. *)
Definition target (u : list byte) (s : Z) : version := MkVersion u s kValueTypeForSeek [].

Lemma target_ok u s : ok u → zlen u + 13 < 2^32 → 0 ≤ s ≤ kMaxSequenceNumber →
  packable s kValueTypeForSeek ∧ version_ok ok (target u s).
Proof using.
  intros Hu Hl Hs. assert (packable s kValueTypeForSeek) as Hp by (split; [done|unfold kValueTypeForSeek, kTypeValue; lia]).
  split; [done|]. split; [done|]. split; [done|]. simpl. lia.
Qed.

Lemma candidate_above v u s : version_ok ok v → version_ok ok (target u s) →
  candidate c u s v = true ↔ c (v_key v) u = 0 ∧ 0 ≤ ec (v_entry v) (v_entry (target u s)).
Proof using HC.
  intros Hv Ht. rewrite entry_order_versions by done. unfold candidate. cbn [target v_key v_seq].
  destruct Hv as ((_ & Ht1) & _). unfold v_tag, pack, target, kValueTypeForSeek, kTypeValue in *. simpl in *.
  destruct (Z.eqb_spec (c (v_key v) u) 0); simpl; [|split; [done|by intros [? _]]]. split; [lia|]. intros [_ H]. lia.
Qed.

(** What the entry that [Seek] finds says about the versions. *)
Lemma first_newest vs u s v0 : Forall (version_ok ok) vs → NoDup (map v_seq vs) → version_ok ok (target u s) →
  v0 ∈ vs → 0 ≤ ec (v_entry v0) (v_entry (target u s)) →
  (∀ v, v ∈ vs → 0 ≤ ec (v_entry v) (v_entry (target u s)) → ec (v_entry v0) (v_entry v) ≤ 0) →
  newest c u s vs = if c (v_key v0) u =? 0 then Some v0 else None.
Proof using HC.
  intros Hvs Hnd Ht Hv0 H0 Hmin. rewrite Forall_forall in Hvs.
  pose proof (newest_spec c u s vs) as Hs. destruct (Z.eqb_spec (c (v_key v0) u) 0) as [E|E].
  - assert (candidate c u s v0 = true) as Hc0 by (by apply candidate_above; [apply Hvs| |]).
    destruct (newest c u s vs) as [w|]; [|by rewrite Hs in Hc0]. destruct Hs as (Hw & Hcw & Hmax). f_equal.
    specialize (Hmax v0 Hv0 Hc0). apply candidate_above in Hcw as [Ew Hw0]; [|by apply Hvs|done].
    specialize (Hmin w Hw Hw0). rewrite entry_order_versions in Hmin by by apply Hvs.
    assert (c (v_key v0) (v_key w) = 0) as Ec.
    { pose proof (cmp_eq_l c (v_key v0) u (v_key w) E) as H1. pose proof (cmp_anti (c := c) u (v_key w)). lia. }
    rewrite Ec in Hmin. cbn in Hmin.
    destruct (Hvs w Hw) as ((_ & Ht1) & _). destruct (Hvs v0 Hv0) as ((_ & Ht2) & _). unfold v_tag, pack, kTypeValue in *.
    assert (v_seq w = v_seq v0) as Eseq by lia.
    apply list_elem_of_lookup in Hw as [i Hi], Hv0 as [j Hj].
    assert (i = j) as ->; [|congruence].
    by apply (NoDup_lookup (map v_seq vs) i j (v_seq w)); [|rewrite list_lookup_fmap, Hi|rewrite list_lookup_fmap, Hj, Eseq].
  - destruct (newest c u s vs) as [w|]; [|done]. destruct Hs as (Hw & Hcw & _). exfalso.
    apply candidate_above in Hcw as [Ew Hw0]; [|by apply Hvs|done]. specialize (Hmin w Hw Hw0).
    rewrite entry_order_versions in Hmin by by apply Hvs. rewrite entry_order_versions in H0 by (done || by apply Hvs).
    cbn [target v_key] in H0. pose proof (cmp_trans (v_key v0) (v_key w) u) as Htr.
    destruct (Z.eqb_spec (c (v_key v0) u) 0), (Z.eqb_spec (c (v_key v0) (v_key w)) 0); lia.
Qed.

Lemma get_found v (st : Status) value u lk : version_ok ok v → ok u → LookupKey_user_key lk = Ok u →
  ('(key_length, key_ptr) ← varint_at (v_entry v);
   ukey ← read_bytes key_ptr 0 (u32 (key_length - 8));
   wanted ← LookupKey_user_key lk;
   r ← Compare ukey wanted;
   if r =? 0 then
     _ ← defined (8 <=? key_length);
     tag ← DecodeFixed64 (drop (Z.to_nat (key_length - 8)) key_ptr);
     let type := Z.land tag 0xff in
     if type =? kTypeValue then
       v ← GetLengthPrefixedSlice_at (drop (Z.to_nat key_length) key_ptr);
       mret (true, v, st)
     else if type =? kTypeDeletion then s ← NotFound [] []; mret (true, value, s)
     else mret (false, value, st)
   else mret (false, value, st)) =
  Ok (if c (v_key v) u =? 0 then
        if v_type v =? kTypeValue then (true, v_value v, st) else (true, value, status_of kNotFound [] [])
      else (false, value, st)).
Proof using HC.
  intros Hv Hu Hlk. pose proof Hv as (Hp & Hk & Hl & Hvl). pose proof (length_internal (v_key v) (v_seq v) (v_type v)) as Hil.
  unfold v_entry, entry_bytes, entry_key, v_ikey. rewrite <-app_assoc, varint_at_Ok by lia. cbn [mbind res_bind].
  rewrite Hil. replace (zlen (v_key v) + 8 - 8) with (zlen (v_key v)) by lia. rewrite u32_small by lia.
  unfold internal. rewrite <-app_assoc, read_prefix. cbn [mbind res_bind]. rewrite Hlk. cbn [mbind res_bind].
  rewrite (Compare_spec (v_key v) u) by done. cbn [mbind res_bind]. destruct (c (v_key v) u =? 0); [|done].
  rewrite defined_true by lia. cbn [mbind res_bind]. rewrite Nat2Z.id, drop_app_length, DecodeFixed64_Ok.
  cbn [mbind res_bind]. pose proof (packable_range _ _ Hp) as Hr. rewrite u64_small by done.
  change 0xff with (Z.ones 8). rewrite Z.land_ones by lia. change (2^8) with 256.
  destruct (pack_inv _ _ Hp) as [-> _]. destruct (Z.eqb_spec (v_type v) kTypeValue) as [E|E].
  - rewrite app_assoc. replace (Z.to_nat (zlen (v_key v) + 8)) with (length (v_key v ++ EncodeFixed64 (pack (v_seq v) (v_type v))))
      by (rewrite length_app, length_EncodeFixed64; lia).
    rewrite drop_app_length. rewrite <-(app_nil_r (_ ++ v_value v)).
    change (EncodeVarint32 (zlen (v_value v)) ++ v_value v) with (entry_key (v_value v)). rewrite slice_at_Ok by done. done.
  - destruct Hp as [_ Ht]. unfold kTypeValue, kTypeDeletion in *. replace (v_type v =? 0) with true by lia.
    unfold NotFound. rewrite new_Status_Ok by (done || (simpl; lia)). done.
Qed.

Lemma Get_Ok m vs u s value (st : Status) : mem_inv m vs → NoDup (map v_seq vs) → ok u → zlen u + 13 < 2^32 →
  0 ≤ s ≤ kMaxSequenceNumber →
  ∃ lk, new_LookupKey fresh u s = Ok lk ∧ @MemTable_Get C lk value st m =
    Ok (match newest c u s vs with
        | Some v => if v_type v =? kTypeValue then (true, v_value v, st) else (true, value, status_of kNotFound [] [])
        | None => (false, value, st)
        end).
Proof using HC Hfresh.
  intros (rs & es & Hrep & Hl & _ & Hvis & Hvs) Hnd Hu Hlen Hs.
  destruct (target_ok u s Hu Hlen Hs) as [Hp Ht]. set (t := target u s) in *.
  destruct (LookupKey_Ok fresh u s Hfresh Hp Hlen) as (lk & Hlk & Hmk & _ & Huk). exists lk. split; [done|].
  unfold MemTable_Get. rewrite Hmk. cbn [mbind res_bind]. fold (entry_key (internal u s kValueTypeForSeek)).
  destruct (ikey_ok t Ht) as (Hti & Htl & _). change (internal u s kValueTypeForSeek) with (v_ikey t).
  assert (∀ k, ec k (entry_key (v_ikey t)) = ec k (v_entry t)) as Hec.
  { intros k. unfold entry_order. f_equal. destruct (v_entry_ok t Ht) as [_ ->].
    rewrite <-(app_nil_r (entry_key _)). apply ikey_of_Ok. lia. }
  assert (eok (entry_key (v_ikey t))) as Heok.
  { exists (v_ikey t), []. rewrite app_nil_r. split; [done|]. split; [lia|done]. }
  destruct (split_exists (table_ m) es (entry_key (v_ikey t)) Hrep) as (pre & post & Hsplit).
  rewrite (Iter_Seek_Ok entry_compare (table_ m) es _ pre post Hrep Heok Hsplit). cbn [mbind res_bind].
  pose proof Hsplit as (Hes & Hpre & Hpost).
  (* every version is an entry *)
  assert (∀ v, v ∈ vs → ∃ e, e ∈ es ∧ e_key e = v_entry v) as Hentry.
  { intros v Hv. assert (v_entry v ∈ visible es) as Hin by (rewrite Hvis; by apply list_elem_of_In, in_map, list_elem_of_In).
    by apply visible_elem in Hin. }
  destruct post as [|e0 post].
  - cbn. pose proof (newest_spec c u s vs) as Hn. destruct (newest c u s vs) as [w|]; [|done].
    destruct Hn as (Hw & Hcw & _). rewrite Forall_forall in Hvs. apply candidate_above in Hcw as [_ Hge]; [|by apply Hvs|done].
    destruct (Hentry w Hw) as (e & He & Hke). rewrite Hes, app_nil_r in He. specialize (Hpre e He).
    rewrite Hke, Hec in Hpre. fold t in Hge. lia.
  - assert (e0 ∈ es) as Hin by (rewrite Hes; apply elem_of_app; right; left).
    unfold first. rewrite lvl_cons_in by by apply Hl.
    rewrite (valid_entry (table_ m) es e0 Hrep Hin), (Iter_key_entry (table_ m) es e0 Hrep Hin). cbn [mbind res_bind].
    destruct (visible_version m vs es e0 Hvis Hl Hin) as (v0 & Hv0 & Hk0). rewrite Hk0.
    pose proof Hvs as Hvs'. rewrite Forall_forall in Hvs'. pose proof (get_found v0 st value u lk (Hvs' v0 Hv0) Hu Huk) as Hg.
    cbn [mbind res_bind] in Hg. rewrite Hg. f_equal.
    rewrite (first_newest vs u s v0 Hvs Hnd Ht Hv0).
    + by destruct (c (v_key v0) u =? 0).
    + rewrite <-Hk0, <-Hec. apply Hpost. left.
    + intros v Hv Hge. destruct (Hentry v Hv) as (e & He & Hke). rewrite <-Hke, <-Hk0. rewrite Hes in He.
      apply elem_of_app in He as [He|He]; [specialize (Hpre e He); rewrite Hke, Hec in Hpre; unfold t in Hpre; lia|].
      apply elem_of_cons in He as [->|He]; [by rewrite (cmp_refl ec)|].
      pose proof (rep_sorted _ _ Hrep) as Hsort. rewrite Hes in Hsort. apply StronglySorted_app_1_r, StronglySorted_inv in Hsort as [_ Hf].
      rewrite Forall_forall in Hf. specialize (Hf e He). simpl in Hf. lia.
Qed.

(** ** Sequences of additions *)

Fixpoint add_versions (vs : list version) (m : MemTable) : res MemTable :=
  match vs with
  | [] => mret m
  | v :: vs => m ← @MemTable_Add _ C fresh (v_seq v) (v_type v) (v_key v) (v_value v) m; add_versions vs m
  end.

Lemma add_versions_Ok ws : ∀ m vs, mem_inv m vs → Forall (version_ok ok) ws → NoDup (map v_seq (vs ++ ws)) →
  ∃ m', add_versions ws m = Ok m' ∧ mem_inv m' (vs ++ ws).
Proof using HC Hfresh Hspec.
  induction ws as [|w ws IH]; intros m vs Hm Hok Hnd; cbn [add_versions]; [exists m; by rewrite app_nil_r|].
  apply Forall_cons_1 in Hok as [Hw Hok]. destruct (MemTable_Add_Ok m vs w Hm Hw) as (m1 & -> & Hm1 & _).
  { rewrite map_app in Hnd. apply NoDup_app in Hnd as (_ & Hnd & _). intros Hin. apply (Hnd _ Hin). left. }
  cbn [mbind res_bind]. destruct (IH m1 (vs ++ [w]) Hm1 Hok) as (m' & -> & Hm'); [by rewrite <-app_assoc|].
  exists m'. split; [done|]. by rewrite <-app_assoc in Hm'.
Qed.

(** [for (it->SeekToFirst(); it->Valid(); it->Next())], keys and values. *)
Fixpoint mem_forward (fuel : nat) (iter_ : Z) (m : MemTable) : res (list (list byte * list byte)) :=
  match fuel with
  | O => Err Diverge
  | S fuel =>
      if MemIter_Valid iter_ then
        k ← MemIter_key iter_ m; v ← MemIter_value iter_ m;
        iter_ ← MemIter_Next iter_ m; kvs ← mem_forward fuel iter_ m; mret ((k, v) :: kvs)
      else mret []
  end.

Lemma mem_forward_Ok m es : erep (table_ m) es → linked es → ∀ fuel ws pre post, es = pre ++ post →
  map e_key post = map v_entry ws → Forall (version_ok ok) ws → (length ws < fuel)%nat →
  mem_forward fuel (first 0 post) m = Ok (map (λ w, (v_ikey w, v_value w)) ws).
Proof using.
  intros Hrep Hl. induction fuel as [|fuel IH]; intros ws pre post Hes Hks Hok Hf; [lia|]. cbn [mem_forward].
  destruct post as [|e post], ws as [|w ws]; try discriminate Hks; [done|].
  injection Hks as Hk Hks. apply Forall_cons_1 in Hok as [Hw Hok].
  assert (e ∈ es) as Hin by (rewrite Hes; apply elem_of_app; right; left).
  unfold first. rewrite lvl_cons_in by by apply Hl. unfold MemIter_Valid. rewrite (valid_entry (table_ m) es e Hrep Hin).
  unfold MemIter_key, MemIter_value, MemIter_Next. rewrite (Iter_key_entry (table_ m) es e Hrep Hin). cbn [mbind res_bind].
  destruct (ikey_ok w Hw) as (_ & Hil & _). destruct Hw as (_ & _ & _ & Hvl).
  rewrite Hk. unfold v_entry, entry_bytes. rewrite slice_at_Ok, prefixed_slice_Ok by lia. cbn [mbind res_bind].
  rewrite <-(app_nil_r (entry_key (v_value w))), slice_at_Ok by done. cbn [mbind res_bind].
  rewrite (Iter_Next_entry (table_ m) es pre e post Hrep Hes) by by apply Hl. cbn [mbind res_bind].
  rewrite (IH ws (pre ++ [e]) post); [done|by rewrite Hes, <-app_assoc|done|done|]. simpl in Hf. lia.
Qed.

Lemma mem_iterates m vs : mem_inv m vs → ∃ ws, ws ≡ₚ vs
  ∧ StronglySorted (λ v w, internal_order c (v_ikey v) (v_ikey w) < 0) ws
  ∧ ∀ fuel, (length vs < fuel)%nat →
      (iter_ ← MemIter_SeekToFirst m; mem_forward fuel iter_ m) = Ok (map (λ w, (v_ikey w, v_value w)) ws).
Proof using.
  intros (rs & es & Hrep & Hl & _ & Hvis & Hok). rewrite visible_linked in Hvis by done.
  apply Permutation_map_inv in Hvis as (ws & Hws & Hp). exists ws. split; [done|].
  assert (Forall (version_ok ok) ws) as Hokw by (by rewrite <-Hp). split.
  - pose proof (rep_sorted _ _ Hrep) as Hs. clear Hrep Hl Hp. revert ws Hws Hokw.
    induction Hs as [|e es Hs IH He]; intros [|w ws] Hws Hokw; try discriminate Hws; constructor.
    + apply Forall_cons_1 in Hokw as [_ Hokw]. injection Hws as _ Hws. by apply IH.
    + injection Hws as Hk Hws. apply Forall_cons_1 in Hokw as [Hw Hokw]. apply Forall_forall. intros x Hx.
      assert (v_entry x ∈ map e_key es) as Hin by (rewrite Hws; by apply list_elem_of_In, in_map, list_elem_of_In).
      apply list_elem_of_In, in_map_iff in Hin as (e' & He' & Hin%list_elem_of_In).
      rewrite Forall_forall in He. rewrite Forall_forall in Hokw. specialize (He e' Hin). rewrite Hk, He' in He. unfold entry_order in He.
      destruct (v_entry_ok w Hw) as [_ E1]. destruct (v_entry_ok x (Hokw x Hx)) as [_ E2]. by rewrite E1, E2 in He.
  - intros fuel Hf. unfold MemIter_SeekToFirst, Iter_SeekToFirst.
    pose proof (Next_at (table_ m) _ [] es 0 (at_head (table_ m) es 0 Hrep ltac:(lia))) as Hn. change (Z.of_nat 0) with 0 in Hn.
    rewrite Hn. cbn [mbind res_bind]. apply (mem_forward_Ok m es Hrep Hl fuel ws []); [done|done|done|].
    by rewrite <-(Permutation_length Hp).
Qed.

(** ** Property *)

(** Claim C36. A memtable is a multi-version map, for any user comparator and any allocator that
    keep their promises: adding versions with sequence numbers of their own succeeds, in any
    order; a lookup of a key at a snapshot then answers with the version that has the greatest
    sequence number the snapshot sees: its value, or NotFound for a deletion, or, when there is
    none, false with the results left alone; and its iterator visits every version, in the order
    of internal keys. *)
Theorem memtable_get (vs : list version) (Hok : Forall (version_ok ok) vs) (Hseqs : NoDup (map v_seq vs)) :
  ∃ m0 m, new_MemTable = Ok m0 ∧ add_versions vs m0 = Ok m
    ∧ (∀ u s value (st : Status), ok u → zlen u + 13 < 2^32 → 0 ≤ s ≤ kMaxSequenceNumber →
         ∃ lk, new_LookupKey fresh u s = Ok lk ∧ @MemTable_Get C lk value st m =
           Ok (match newest c u s vs with
               | Some v => if v_type v =? kTypeValue then (true, v_value v, st) else (true, value, status_of kNotFound [] [])
               | None => (false, value, st)
               end))
    ∧ ∃ ws, ws ≡ₚ vs ∧ StronglySorted (λ v w, internal_order c (v_ikey v) (v_ikey w) < 0) ws
        ∧ ∀ fuel, (length vs < fuel)%nat →
            (iter_ ← MemIter_SeekToFirst m; mem_forward fuel iter_ m) = Ok (map (λ w, (v_ikey w, v_value w)) ws).
Proof using HC Hfresh Hspec.
  destruct new_MemTable_Ok as (m0 & Hnew & Hm0 & _).
  destruct (add_versions_Ok vs m0 [] Hm0 Hok Hseqs) as (m & Hadd & Hm). exists m0, m. split; [done|]. split; [done|].
  split; [|by apply mem_iterates]. intros u s value st Hu Hl Hs. by apply (Get_Ok m vs).
Qed.
End mem.

(** Uninitialised memory, as zeros. *)
Definition zeros (n : Z) : list byte := replicate (Z.to_nat n) x00.
Lemma zeros_length n : 0 ≤ n → zlen (zeros n) = n.
Proof. intros Hn. unfold zeros. rewrite length_replicate. lia. Qed.

Definition sample_versions : list version :=
  [MkVersion [x61] 1 1 [x31]; MkVersion [x62] 2 1 [x32]; MkVersion [x61] 3 0 []].

Lemma memtable_get_witness :
  ∃ m0 m, @new_MemTable bump_allocator = Ok m0
    ∧ @add_versions bump_allocator BytewiseComparator zeros sample_versions m0 = Ok m
    ∧ (∀ u s value (st : Status), short u → zlen u + 13 < 2^32 → 0 ≤ s ≤ kMaxSequenceNumber →
         ∃ lk, new_LookupKey zeros u s = Ok lk ∧ @MemTable_Get BytewiseComparator lk value st m =
           Ok (match newest strcmp_aux u s sample_versions with
               | Some v => if v_type v =? kTypeValue then (true, v_value v, st) else (true, value, status_of kNotFound [] [])
               | None => (false, value, st)
               end))
    ∧ ∃ ws, ws ≡ₚ sample_versions ∧ StronglySorted (λ v w, internal_order strcmp_aux (v_ikey v) (v_ikey w) < 0) ws
        ∧ ∀ fuel, (length sample_versions < fuel)%nat →
            (iter_ ← MemIter_SeekToFirst m; mem_forward fuel iter_ m) = Ok (map (λ w, (v_ikey w, v_value w)) ws).
Proof.
  apply (@memtable_get bump_allocator bump_spec BytewiseComparator short strcmp_aux bytewise_spec zeros zeros_length sample_versions).
  - repeat constructor; simpl; unfold kMaxSequenceNumber; try discriminate; reflexivity.
  - apply (bool_decide_unpack (NoDup _)). reflexivity.
Defined.
