(* ===== verification/WriteBatch.v ===== *)
(** * Write batches: leveldb include/leveldb/write_batch.h, db/write_batch.cc

    A batch is a string: a sequence number, a count, and one record per operation. It is read
    through the interface of handlers; one of them inserts into a memtable. *)
From Stdlib Require Import Strings.String.
From stdpp Require Import gmap.
From S2P Require Import Prelude Buffers CLib Order Coding Comparator DbFormat Status Random Arena SkipList MemTable.

#[local] Open Scope Z_scope.
#[local] Open Scope list_scope.

Definition kHeader : Z := 12.

(** [rep_]. *)
Definition WriteBatch : Type := list byte.

Definition WriteBatch_Clear : WriteBatch := replicate (Z.to_nat kHeader) x00.
Definition new_WriteBatch : WriteBatch := WriteBatch_Clear.

Definition Count (b : WriteBatch) : res Z := n ← DecodeFixed32 (drop 8 b); mret (to_int n).
Definition SetCount (b : WriteBatch) (n : Z) : res WriteBatch := write_bytes b 8 (EncodeFixed32 (u32 n)).
Definition Sequence (b : WriteBatch) : res Z := DecodeFixed64 b.
Definition SetSequence (b : WriteBatch) (seq : Z) : res WriteBatch := write_bytes b 0 (EncodeFixed64 seq).
Definition Contents (b : WriteBatch) : list byte := b.
Definition ByteSize (b : WriteBatch) : Z := zlen b.

Definition WriteBatch_Put (key value : list byte) (b : WriteBatch) : res WriteBatch :=
  n ← Count b; n ← cint (n + 1); b ← SetCount b n;
  mret (PutLengthPrefixedSlice (PutLengthPrefixedSlice (b ++ [zb kTypeValue]) key) value).
Definition WriteBatch_Delete (key : list byte) (b : WriteBatch) : res WriteBatch :=
  n ← Count b; n ← cint (n + 1); b ← SetCount b n;
  mret (PutLengthPrefixedSlice (b ++ [zb kTypeDeletion]) key).

Definition SetContents (contents : list byte) : res WriteBatch :=
  _ ← c_assert (kHeader <=? zlen contents); mret contents.

Definition Append (dst src : WriteBatch) : res WriteBatch :=
  n ← Count dst; k ← Count src; n ← cint (n + k);
  dst ← SetCount dst n;
  _ ← c_assert (kHeader <=? zlen src);
  mret (dst ++ drop (Z.to_nat kHeader) src).

(** ** Handlers *)

Class Handler (H : Type) := {
  handler_Put : list byte → list byte → H → res H;
  handler_Delete : list byte → H → res H }.

Section iterate.
Context {H : Type} `{Handler H}.

(** The records in [input], of which [found] came before; an error, or the end. *)
Fixpoint iterate_loop (fuel : nat) (found : Z) (input : list byte) (handler : H) : res (Status * Z * H) :=
  match input with
  | [] => mret (OK, found, handler)
  | tag :: input =>
      match fuel with
      | O => Err Diverge
      | S fuel =>
          found ← cint (found + 1);
          if sz tag =? kTypeValue then
            match GetLengthPrefixedSlice input with
            | Some (key, input) =>
                match GetLengthPrefixedSlice input with
                | Some (value, input) =>
                    handler ← handler_Put key value handler; iterate_loop fuel found input handler
                | None => s ← Corruption (str "bad WriteBatch Put") []; mret (s, found, handler)
                end
            | None => s ← Corruption (str "bad WriteBatch Put") []; mret (s, found, handler)
            end
          else if sz tag =? kTypeDeletion then
            match GetLengthPrefixedSlice input with
            | Some (key, input) => handler ← handler_Delete key handler; iterate_loop fuel found input handler
            | None => s ← Corruption (str "bad WriteBatch Delete") []; mret (s, found, handler)
            end
          else s ← Corruption (str "unknown WriteBatch tag") []; mret (s, found, handler)
      end
  end.

Definition Iterate (b : WriteBatch) (handler : H) : res (Status * H) :=
  if zlen b <? kHeader then
    s ← Corruption (str "malformed WriteBatch (too small)") []; mret (s, handler)
  else
    input ← remove_prefix kHeader b;
    '(s, found, handler) ← iterate_loop (length b) 0 input handler;
    if ok s then
      n ← Count b;
      if found =? n then mret (OK, handler)
      else s ← Corruption (str "WriteBatch has wrong count") []; mret (s, handler)
    else mret (s, handler).
End iterate.

(** ** Insertion in a memtable *)

Record MemTableInserter := MkInserter { sequence_ : Z; mem_ : MemTable }.

Section inserter.
Context `{Allocator} {C : Comparator} (fresh : Z → list byte).

Definition inserter_Put (key value : list byte) (h : MemTableInserter) : res MemTableInserter :=
  m ← @MemTable_Add _ C fresh (sequence_ h) kTypeValue key value (mem_ h);
  mret (MkInserter (u64 (sequence_ h + 1)) m).
Definition inserter_Delete (key : list byte) (h : MemTableInserter) : res MemTableInserter :=
  m ← @MemTable_Add _ C fresh (sequence_ h) kTypeDeletion key [] (mem_ h);
  mret (MkInserter (u64 (sequence_ h + 1)) m).

Definition MemTableInserter_handler : Handler MemTableInserter := {|
  handler_Put := inserter_Put; handler_Delete := inserter_Delete |}.

Definition InsertInto (b : WriteBatch) (memtable : MemTable) : res (Status * MemTable) :=
  seq ← Sequence b;
  '(s, inserter) ← @Iterate _ MemTableInserter_handler b (MkInserter seq memtable);
  mret (s, mem_ inserter).
End inserter.

(** ** The operations in a batch *)

Inductive batch_op : Type :=
  | OpPut (key value : list byte)
  | OpDelete (key : list byte).

Definition encode_slice (s : list byte) : list byte := EncodeVarint32 (u32 (zlen s)) ++ s.

Definition encode_op (op : batch_op) : list byte :=
  match op with
  | OpPut k v => zb kTypeValue :: encode_slice k ++ encode_slice v
  | OpDelete k => zb kTypeDeletion :: encode_slice k
  end.

Definition op_ok (op : batch_op) : Prop :=
  match op with OpPut k v => zlen k < 2^32 ∧ zlen v < 2^32 | OpDelete k => zlen k < 2^32 end.

(** What batches are built with. *)
Definition apply_op (op : batch_op) (b : WriteBatch) : res WriteBatch :=
  match op with OpPut k v => WriteBatch_Put k v b | OpDelete k => WriteBatch_Delete k b end.
Fixpoint apply_ops (ops : list batch_op) (b : WriteBatch) : res WriteBatch :=
  match ops with [] => mret b | op :: ops => b ← apply_op op b; apply_ops ops b end.

(** The calls that a handler gets. *)
Fixpoint handle_ops {H} `{Handler H} (ops : list batch_op) (h : H) : res H :=
  match ops with
  | [] => mret h
  | OpPut k v :: ops => h ← handler_Put k v h; handle_ops ops h
  | OpDelete k :: ops => h ← handler_Delete k h; handle_ops ops h
  end.

(** A batch with the sequence number [seq] and the operations [ops]. *)
Definition batch (seq : Z) (ops : list batch_op) : WriteBatch :=
  EncodeFixed64 seq ++ EncodeFixed32 (Z.of_nat (length ops)) ++ concat (map encode_op ops).

Lemma PutLength_encode dst s : PutLengthPrefixedSlice dst s = dst ++ encode_slice s.
Proof. unfold PutLengthPrefixedSlice, PutVarint32, encode_slice. by rewrite <-app_assoc. Qed.

Lemma GetLength_encode s rest : zlen s < 2^32 → GetLengthPrefixedSlice (encode_slice s ++ rest) = Some (s, rest).
Proof.
  intros Hs. unfold encode_slice, GetLengthPrefixedSlice, GetVarint32. rewrite <-app_assoc, u32_small by lia.
  rewrite GetVarint32Ptr_Ok by lia. replace (_ <=? _) with true by (rewrite length_app; lia).
  by rewrite Nat2Z.id, take_app_length, drop_app_length.
Qed.

Lemma batch_length seq ops : 12 ≤ zlen (batch seq ops).
Proof. unfold batch. rewrite !length_app, length_EncodeFixed64, length_EncodeFixed32. lia. Qed.

Lemma batch_Count seq ops : Z.of_nat (length ops) < 2^31 → Count (batch seq ops) = Ok (Z.of_nat (length ops)).
Proof.
  intros Hl. unfold Count, batch. replace 8%nat with (length (EncodeFixed64 seq)) by apply length_EncodeFixed64.
  rewrite drop_app_length, DecodeFixed32_Ok. cbn [mbind res_bind mret res_ret].
  by rewrite u32_small, to_int_small by (unfold int_min, int_max; lia).
Qed.

Lemma batch_SetCount seq ops n : SetCount (batch seq ops) n =
  Ok (EncodeFixed64 seq ++ EncodeFixed32 (u32 n) ++ concat (map encode_op ops)).
Proof.
  unfold SetCount, batch. replace 8 with (zlen (EncodeFixed64 seq)) by (by rewrite length_EncodeFixed64).
  rewrite write_next by (rewrite length_app, !length_EncodeFixed32; lia). by rewrite <-app_assoc.
Qed.

Lemma batch_SetSequence seq seq' ops : SetSequence (batch seq ops) seq' = Ok (batch seq' ops).
Proof.
  unfold SetSequence, batch. pose proof (write_next [] (EncodeFixed64 seq ++ EncodeFixed32 (Z.of_nat (length ops)) ++ concat (map encode_op ops)) (EncodeFixed64 seq')) as E.
  change (zlen []) with 0 in E. change ([] ++ ?l) with l in E. rewrite E by (rewrite length_app, !length_EncodeFixed64; lia).
  done.
Qed.

Lemma batch_Sequence seq ops : 0 ≤ seq < 2^64 → Sequence (batch seq ops) = Ok seq.
Proof. intros Hs. unfold Sequence, batch. by rewrite DecodeFixed64_Ok, u64_small. Qed.

Lemma new_batch : new_WriteBatch = batch 0 [].
Proof. reflexivity. Qed.

Lemma apply_op_Ok seq ops op : Z.of_nat (length ops) + 1 < 2^31 → apply_op op (batch seq ops) = Ok (batch seq (ops ++ [op])).
Proof.
  intros Hl. assert (∀ k, (n ← Count (batch seq ops); n ← cint (n + 1); b ← SetCount (batch seq ops) n; mret (b ++ k)) =
    Ok (EncodeFixed64 seq ++ EncodeFixed32 (Z.of_nat (length ops) + 1) ++ concat (map encode_op ops) ++ k)) as E.
  { intros k. rewrite batch_Count by lia. cbn [mbind res_bind]. rewrite cint_ok by (unfold int_min, int_max; lia).
    cbn [mbind res_bind]. rewrite batch_SetCount. cbn [mbind res_bind mret res_ret].
    rewrite u32_small by lia. by rewrite <-!app_assoc. }
  assert (batch seq (ops ++ [op]) = EncodeFixed64 seq ++ EncodeFixed32 (Z.of_nat (length ops) + 1) ++ concat (map encode_op ops) ++ encode_op op) as ->.
  { unfold batch. rewrite length_app, Nat2Z.inj_add, map_app, concat_app. cbn [map concat]. by rewrite app_nil_r. }
  rewrite <-E. destruct op as [k v|k]; unfold apply_op, WriteBatch_Put, WriteBatch_Delete, encode_op;
    rewrite batch_Count by lia; cbn [mbind res_bind]; rewrite cint_ok by (unfold int_min, int_max; lia); cbn [mbind res_bind];
    rewrite batch_SetCount; cbn [mbind res_bind]; rewrite !PutLength_encode, <-!app_assoc; done.
Qed.

Lemma apply_ops_Ok ops2 : ∀ seq ops, Z.of_nat (length (ops ++ ops2)) < 2^31 →
  apply_ops ops2 (batch seq ops) = Ok (batch seq (ops ++ ops2)).
Proof.
  induction ops2 as [|op ops2 IH]; intros seq ops Hl; cbn [apply_ops]; [by rewrite app_nil_r|].
  rewrite length_app in Hl. simpl in Hl. rewrite apply_op_Ok by lia. cbn [mbind res_bind].
  rewrite IH; [by rewrite <-app_assoc|]. rewrite !length_app. simpl. lia.
Qed.

Lemma Append_Ok s1 ops1 s2 ops2 : Z.of_nat (length (ops1 ++ ops2)) < 2^31 →
  Append (batch s1 ops1) (batch s2 ops2) = Ok (batch s1 (ops1 ++ ops2)).
Proof.
  intros Hl. rewrite length_app in Hl. unfold Append. rewrite !batch_Count by lia. cbn [mbind res_bind].
  rewrite cint_ok by (unfold int_min, int_max; lia). cbn [mbind res_bind]. rewrite batch_SetCount. cbn [mbind res_bind].
  pose proof (batch_length s2 ops2). rewrite c_assert_true by (unfold kHeader; lia). cbn [mbind res_bind mret res_ret].
  f_equal. rewrite u32_small by lia. change (Z.to_nat kHeader) with (8 + 4)%nat. unfold batch at 1. rewrite <-drop_drop.
  replace 8%nat with (length (EncodeFixed64 s2)) by apply length_EncodeFixed64. rewrite drop_app_length.
  replace 4%nat with (length (EncodeFixed32 (Z.of_nat (length ops2)))) by apply length_EncodeFixed32. rewrite drop_app_length.
  unfold batch. rewrite length_app, map_app, concat_app, Nat2Z.inj_add. by rewrite <-!app_assoc.
Qed.

(** ** Reading *)

Lemma iterate_loop_Ok {H} `{Handler H} ops : ∀ fuel found h, Forall op_ok ops → (length (concat (map encode_op ops)) ≤ fuel)%nat →
  0 ≤ found → found + Z.of_nat (length ops) < 2^31 →
  iterate_loop fuel found (concat (map encode_op ops)) h =
  (h ← handle_ops ops h; mret (OK, found + Z.of_nat (length ops), h)).
Proof.
  induction ops as [|op ops IH]; intros fuel found h Hok Hf H1 Hc.
  { cbn. rewrite Z.add_0_r. by destruct fuel. }
  apply Forall_cons_1 in Hok as [Hop Hok]. cbn [map concat] in *. rewrite length_app in Hf. cbn [length] in Hc.
  assert (found + Z.of_nat (length (op :: ops)) = found + 1 + Z.of_nat (length ops)) as -> by (simpl; lia).
  destruct op as [k v|k]; cbn [encode_op app length] in Hf |- *; (destruct fuel as [|fuel]; [lia|]); cbn [iterate_loop handle_ops];
    rewrite cint_ok by (unfold int_min, int_max; lia); cbn [mbind res_bind].
  - change (sz (zb kTypeValue) =? kTypeValue) with true. cbv iota. destruct Hop as [Hk Hv].
    rewrite <-app_assoc, !GetLength_encode by done. destruct (handler_Put k v h) as [h'|e]; [|done]. cbn [mbind res_bind].
    apply IH; [done|lia|lia|lia].
  - change (sz (zb kTypeDeletion) =? kTypeValue) with false. change (sz (zb kTypeDeletion) =? kTypeDeletion) with true. cbv iota.
    rewrite GetLength_encode by done. destruct (handler_Delete k h) as [h'|e]; [|done]. cbn [mbind res_bind].
    apply IH; [done|lia|lia|lia].
Qed.

Lemma Iterate_Ok {H} `{Handler H} seq ops h : Forall op_ok ops → Z.of_nat (length ops) < 2^31 →
  Iterate (batch seq ops) h = (h ← handle_ops ops h; mret (OK, h)).
Proof.
  intros Hok Hl. unfold Iterate. pose proof (batch_length seq ops). replace (zlen (batch seq ops) <? kHeader) with false by (unfold kHeader; lia).
  unfold remove_prefix. rewrite c_assert_true by (unfold kHeader; lia). cbn [mbind res_bind mret res_ret].
  assert (drop (Z.to_nat kHeader) (batch seq ops) = concat (map encode_op ops)) as ->.
  { change (Z.to_nat kHeader) with (8 + 4)%nat. unfold batch. rewrite <-drop_drop.
    replace 8%nat with (length (EncodeFixed64 seq)) by apply length_EncodeFixed64. rewrite drop_app_length.
    replace 4%nat with (length (EncodeFixed32 (Z.of_nat (length ops)))) by apply length_EncodeFixed32. apply drop_app_length. }
  rewrite iterate_loop_Ok; [|done| |lia|lia].
  - destruct (handle_ops ops h) as [h'|e]; [|done]. cbn [mbind res_bind mret res_ret]. change (ok OK) with true. cbv iota.
    rewrite batch_Count by done. cbn [mbind res_bind]. by rewrite Z.add_0_l, Z.eqb_refl.
  - unfold batch. rewrite !length_app. lia.
Qed.

(** ** Properties *)

(** A handler that records its calls. *)
#[export] Instance recording : Handler (list batch_op) := {|
  handler_Put := λ k v calls, mret (calls ++ [OpPut k v]);
  handler_Delete := λ k calls, mret (calls ++ [OpDelete k]) |}.

Lemma handle_recording ops : ∀ calls, handle_ops ops calls = Ok (calls ++ ops).
Proof.
  induction ops as [|[k v|k] ops IH]; intros calls; cbn [handle_ops handler_Put handler_Delete recording];
    [by rewrite app_nil_r| |]; cbn [mbind res_bind mret res_ret]; rewrite IH, <-app_assoc; done.
Qed.

(** Write batches round trip: a batch built by [Put]s and [Delete]s, with a second batch
    appended to it and any sequence number set, has that sequence number and the number of
    operations as its count, and [Iterate] gives any handler exactly the operations, in
    order, and then returns OK. *)
Theorem writebatch_roundtrip (ops1 ops2 : list batch_op) (seq : Z)
  (Hok : Forall op_ok (ops1 ++ ops2)) (Hcount : Z.of_nat (length (ops1 ++ ops2)) < 2^31) (Hseq : 0 ≤ seq < 2^64) :
  ∃ b1 b2 b3 b, apply_ops ops1 new_WriteBatch = Ok b1 ∧ apply_ops ops2 new_WriteBatch = Ok b2
    ∧ Append b1 b2 = Ok b3 ∧ SetSequence b3 seq = Ok b
    ∧ Sequence b = Ok seq ∧ Count b = Ok (Z.of_nat (length (ops1 ++ ops2)))
    ∧ ∀ H (HH : Handler H) (h : H), Iterate b h = (h ← handle_ops (ops1 ++ ops2) h; mret (OK, h)).
Proof.
  pose proof Hcount as Hcount'. rewrite length_app in Hcount'.
  exists (batch 0 ops1), (batch 0 ops2), (batch 0 (ops1 ++ ops2)), (batch seq (ops1 ++ ops2)).
  rewrite new_batch. rewrite !apply_ops_Ok by (simpl; lia). split; [done|]. split; [done|].
  rewrite Append_Ok by done. split; [done|]. rewrite batch_SetSequence. split; [done|].
  split; [by apply batch_Sequence|]. split; [by apply batch_Count|]. intros H HH h. by apply Iterate_Ok.
Qed.

Lemma writebatch_roundtrip_witness :
  ∃ b1 b2 b3 b, apply_ops [OpPut [x61] [x31]; OpDelete [x62]] new_WriteBatch = Ok b1
    ∧ apply_ops [OpPut [] [x32]] new_WriteBatch = Ok b2
    ∧ Append b1 b2 = Ok b3 ∧ SetSequence b3 100 = Ok b
    ∧ Sequence b = Ok 100 ∧ Count b = Ok (Z.of_nat (length [OpPut [x61] [x31]; OpDelete [x62]; OpPut [] [x32]]))
    ∧ ∀ H (HH : Handler H) (h : H), Iterate b h =
        (h ← handle_ops [OpPut [x61] [x31]; OpDelete [x62]; OpPut [] [x32]] h; mret (OK, h)).
Proof.
  apply (writebatch_roundtrip [OpPut [x61] [x31]; OpDelete [x62]] [OpPut [] [x32]] 100); [|done|lia].
  repeat constructor.
Defined.

(** The statuses of a malformed batch. *)
Definition batch_errors : list Status :=
  map (λ m, status_of kCorruption m [])
    [str "malformed WriteBatch (too small)"; str "bad WriteBatch Put"; str "bad WriteBatch Delete";
     str "unknown WriteBatch tag"; str "WriteBatch has wrong count"].

Lemma Corruption_Ok m : zlen m < 100 → Corruption m [] = Ok (status_of kCorruption m []).
Proof. intros Hm. unfold Corruption. rewrite new_Status_Ok; [done|done|]. simpl. lia. Qed.

Lemma GetLength_shorter input s rest : GetLengthPrefixedSlice input = Some (s, rest) → (length rest ≤ length input)%nat.
Proof.
  unfold GetLengthPrefixedSlice, GetVarint32. destruct (GetVarint32Ptr input) as [[len p]|] eqn:E; [|done].
  destruct (len <=? Z.of_nat (length p)); [|done]. intros [= <- <-]. rewrite length_drop.
  apply GetVarint32Ptr_shorter in E. lia.
Qed.

(** Whatever the input is, the loop ends, after counting the calls that it makes. *)
Lemma iterate_loop_total fuel : ∀ found input calls, (length input ≤ fuel)%nat → 0 ≤ found →
  found + zlen input < 2^31 → found = zlen calls →
  ∃ s n calls', iterate_loop fuel found input calls = Ok (s, n, calls') ∧ (s = OK ∧ n = zlen calls' ∨ s ∈ batch_errors).
Proof.
  assert (∀ m, m ∈ [str "bad WriteBatch Put"; str "bad WriteBatch Delete"; str "unknown WriteBatch tag"] →
    ∃ s, Corruption m [] = Ok s ∧ s ∈ batch_errors) as Herr.
  { intros m Hm. exists (status_of kCorruption m []). split.
    - apply Corruption_Ok. repeat (apply elem_of_cons in Hm as [->|Hm]; [reflexivity|]). by apply elem_of_nil in Hm.
    - apply list_elem_of_In, (in_map (λ m, status_of kCorruption m [])), list_elem_of_In. right.
      repeat (apply elem_of_cons in Hm as [->|Hm]; [rewrite !elem_of_cons; tauto|]). by apply elem_of_nil in Hm. }
  assert (∀ m n calls, m ∈ [str "bad WriteBatch Put"; str "bad WriteBatch Delete"; str "unknown WriteBatch tag"] →
    ∃ s k (calls' : list batch_op), (s ← Corruption m []; mret (s, n, calls)) = Ok (s, k, calls')
      ∧ (s = OK ∧ k = zlen calls' ∨ s ∈ batch_errors)) as Hstop.
  { intros m n calls Hm. destruct (Herr m Hm) as (s & -> & Hs). exists s, n, calls. split; [done|]. by right. }
  induction fuel as [|fuel IH]; intros found input calls Hf H0 Hmax Hcalls.
  { destruct input; [|simpl in Hf; lia]. cbn. exists OK, found, calls. split; [done|]. by left. }
  destruct input as [|tag input]; cbn [iterate_loop]; [exists OK, found, calls; split; [done|by left]|].
  cbn [length] in *. rewrite cint_ok by (unfold int_min, int_max; lia). cbn [mbind res_bind].
  assert (∀ op, found + 1 = zlen (calls ++ [op])) as Hnext by (intros; rewrite length_app; simpl; lia).
  destruct (sz tag =? kTypeValue).
  - destruct (GetLengthPrefixedSlice input) as [[key rest]|] eqn:E1; [|apply Hstop; left].
    destruct (GetLengthPrefixedSlice rest) as [[value rest']|] eqn:E2; [|apply Hstop; left].
    apply GetLength_shorter in E1, E2. cbn [handler_Put recording mbind res_bind mret res_ret].
    apply IH; [lia|lia|lia|apply Hnext].
  - destruct (sz tag =? kTypeDeletion); [|apply Hstop; right; right; left].
    destruct (GetLengthPrefixedSlice input) as [[key rest]|] eqn:E1; [|apply Hstop; right; left].
    apply GetLength_shorter in E1. cbn [handler_Delete recording mbind res_bind mret res_ret].
    apply IH; [lia|lia|lia|apply Hnext].
Qed.

(** A batch is read safely whatever its bytes are: [Iterate] ends without reading out of
    the string, and returns OK, in which case its calls are as many as the count says, or one
    of the five corruption statuses. *)
Theorem writebatch_malformed (b : WriteBatch) (Hsize : zlen b < 2^31) :
  ∃ s calls, Iterate b [] = Ok (s, calls) ∧ (s = OK ∧ Count b = Ok (zlen calls) ∨ s ∈ batch_errors).
Proof.
  unfold Iterate. destruct (Z.ltb_spec (zlen b) kHeader) as [Hs|Hl].
  { rewrite Corruption_Ok by reflexivity. eexists _, _. split; [reflexivity|]. right. left. }
  unfold remove_prefix. rewrite c_assert_true by lia. cbn [mbind res_bind mret res_ret].
  destruct (iterate_loop_total (length b) 0 (drop (Z.to_nat kHeader) b) []) as (s & n & calls & -> & Hs);
    [rewrite length_drop; lia|done|rewrite length_drop; lia|done|].
  cbn [mbind res_bind]. destruct (decide (s = OK)) as [->|Hne].
  - change (ok OK) with true. cbv iota. destruct Hs as [[_ ->]|Hin].
    2:{ exfalso. repeat (apply elem_of_cons in Hin as [Hin|Hin]; [discriminate Hin|]). by apply elem_of_nil in Hin. }
    assert (∃ k, Count b = Ok k) as [k Hk].
    { unfold Count, DecodeFixed32. rewrite read_bytes_Ok by (rewrite ?length_drop; unfold kHeader in Hl; lia). by eexists. }
    rewrite Hk. cbn [mbind res_bind]. destruct (Z.eqb_spec (zlen calls) k) as [<-|].
    + eexists _, _. split; [reflexivity|]. by left.
    + rewrite Corruption_Ok by reflexivity. eexists _, _. split; [reflexivity|]. right. do 4 right. left.
  - destruct Hs as [[? _]|Hin]; [done|]. unfold ok. rewrite bool_decide_eq_false_2 by done.
    eexists _, _. split; [reflexivity|]. by right.
Qed.

Lemma writebatch_malformed_witness :
  ∃ s calls, Iterate [x00; x01] [] = Ok (s, calls) ∧ (s = OK ∧ Count [x00; x01] = Ok (zlen calls) ∨ s ∈ batch_errors).
Proof. apply (writebatch_malformed [x00; x01]). reflexivity. Defined.
