(* ===== verification/DbWrite.v ===== *)
(** * The write path of the database: leveldb db/db_impl.h, db/db_impl.cc

    Threads that write stand in a queue. The one at its front writes for a group: it joins the
    batches of those behind it, releases the lock while it appends the joined batch to the log and
    inserts it in the memtable, and then tells the group. Each stretch of [DBImpl::Write]
    under the lock is an operation here, and the unlocked stretch is another one; any number of
    threads can enter in between. After a crash, [RecoverLogFile] reads the log again.

    Runs are modelled as long as the memtable has room: when [MakeRoomForWrite] would switch the
    memtable, or wait for a compaction, it has no result here. *)
From Stdlib Require Import Strings.String.
From stdpp Require Import gmap.
From S2P Require Import Prelude Buffers CLib Order Coding Comparator DbFormat Status Env LogFile Random Arena SkipList MemTable WriteBatch.

#[local] Open Scope Z_scope.
#[local] Open Scope list_scope.

Definition kL0_SlowdownWritesTrigger : Z := 8.

(** A thread in the queue. Its status is in [told_] once it is done. *)
Record DBWriter := MkDBWriter { w_batch : option WriteBatch; w_sync : bool }.

(** What the front thread keeps in local variables: how many threads the group has, whether
    [updates] is [tmp_batch_], its contents (none if nothing is written), [status],
    [last_sequence]. *)
Record Group := MkGroup {
  g_writers : nat; g_tmp : bool; g_updates : option WriteBatch; g_status : Status; g_sequence : Z }.

(** Where the front thread is. *)
Inductive phase : Type :=
  | Waiting
  | Unlocked (g : Group)
  | Written (g : Group) (status : Status) (sync_error : bool).

Section db.
Context {W : Type} `{WritableFile W} `{Allocator} {C : Comparator}
  (fresh : Z → list byte) (addr : list byte → Z) (capacity : Arena → Z) (write_buffer_size : Z).

(** [level0_files_] is [versions_->NumLevelFiles(0)], [last_sequence_]
    [versions_->LastSequence()]. *)
Record DB := MkDB {
  writers_ : list DBWriter; phase_ : phase; tmp_batch_ : WriteBatch; last_sequence_ : Z; level0_files_ : Z;
  log_ : LogFile.Writer W; mem_ : MemTable; bg_error_ : Status; told_ : list (DBWriter * Status) }.

(** An open database without data, whose log is the empty file [dest]. *)
Definition new_DB (dest : W) : res DB :=
  mem ← new_MemTable; mem ← Ref mem;
  log ← new_Writer addr dest;
  mret (MkDB [] Waiting new_WriteBatch 0 0 log mem OK []).

Definition RecordBackgroundError (s : Status) (bg_error : Status) : Status := if ok bg_error then s else bg_error.

(** None: the memtable is full, or a switch is forced. *)
Fixpoint make_room_loop (fuel : nat) (force allow_delay : bool) (db : DB) : option Status :=
  match fuel with
  | O => None
  | S fuel =>
      if negb (ok (bg_error_ db)) then Some (bg_error_ db)
      else if allow_delay && (kL0_SlowdownWritesTrigger <=? level0_files_ db) then make_room_loop fuel force false db
      else if negb force && (ApproximateMemoryUsage (capacity (arena_ (mem_ db))) (mem_ db) <=? write_buffer_size) then Some OK
      else None
  end.
(** A write is delayed at most once. *)
Definition MakeRoomForWrite (force : bool) (db : DB) : option Status := make_room_loop 2 force (negb force) db.

(** The threads [ws] behind the first one; [joined] is [tmp_batch_] if the group has taken it,
    [last] the number of threads up to [last_writer], [n] those passed. *)
Fixpoint group_loop (ws : list DBWriter) (n : nat) (first : WriteBatch) (first_sync : bool) (max_size size : Z)
    (tmp : WriteBatch) (joined : bool) (last : nat) : res (nat * bool * WriteBatch) :=
  match ws with
  | [] => mret (last, joined, tmp)
  | w :: ws =>
      if w_sync w && negb first_sync then mret (last, joined, tmp)
      else
        match w_batch w with
        | None => group_loop ws (S n) first first_sync max_size size tmp joined (S n)
        | Some b =>
            let size := u64 (size + ByteSize b) in
            if max_size <? size then mret (last, joined, tmp)
            else
              tmp ← (if joined then mret tmp
                     else k ← Count tmp; _ ← c_assert (k =? 0); Append tmp first);
              tmp ← Append tmp b;
              group_loop ws (S n) first first_sync max_size size tmp true (S n)
        end
  end.

(** The number of threads, and whether the result is [tmp_batch_], with its contents. *)
Definition BuildBatchGroup (db : DB) : res (nat * bool * WriteBatch) :=
  match writers_ db with
  | [] => Err AssertFail
  | first :: ws =>
      match w_batch first with
      | None => Err AssertFail
      | Some b =>
          let size := ByteSize b in
          let max_size := if size <=? Z.shiftl 128 10 then u64 (size + Z.shiftl 128 10) else Z.shiftl 1 20 in
          group_loop ws 1 b (w_sync first) max_size size (tmp_batch_ db) false 1
      end
  end.

(** ** DBImpl::Write *)

(** Until the thread waits for its turn. *)
Definition Write_enter (w : DBWriter) (db : DB) : DB :=
  MkDB (writers_ db ++ [w]) (phase_ db) (tmp_batch_ db) (last_sequence_ db) (level0_files_ db) (log_ db) (mem_ db)
    (bg_error_ db) (told_ db).

(** At the front, until the lock is released. *)
Definition Write_begin (db : DB) : res (option DB) :=
  match writers_ db with
  | [] => Err UB
  | w :: ws =>
      match MakeRoomForWrite (bool_decide (w_batch w = None)) db with
      | None => mret None
      | Some status =>
          let last_sequence := last_sequence_ db in
          match w_batch w with
          | Some b =>
              if ok status then
                '(n, joined, tmp) ← BuildBatchGroup db;
                updates ← SetSequence (if joined then tmp else b) (u64 (last_sequence + 1));
                count ← Count updates;
                let g := MkGroup n joined (Some updates) status (u64 (last_sequence + count)) in
                mret (Some (MkDB (if joined then w :: ws else MkDBWriter (Some updates) (w_sync w) :: ws) (Unlocked g)
                  (if joined then updates else tmp) (last_sequence_ db) (level0_files_ db) (log_ db) (mem_ db)
                  (bg_error_ db) (told_ db)))
              else
                mret (Some (MkDB (w :: ws) (Unlocked (MkGroup 1 false None status last_sequence)) (tmp_batch_ db)
                  (last_sequence_ db) (level0_files_ db) (log_ db) (mem_ db) (bg_error_ db) (told_ db)))
          | None =>
              mret (Some (MkDB (w :: ws) (Unlocked (MkGroup 1 false None status last_sequence)) (tmp_batch_ db)
                (last_sequence_ db) (level0_files_ db) (log_ db) (mem_ db) (bg_error_ db) (told_ db)))
          end
      end
  end.

(** Without the lock: the log and the memtable. *)
Definition Write_apply (sync : bool) (g : Group) (db : DB) : res DB :=
  match g_updates g with
  | None =>
      mret (MkDB (writers_ db) (Written g (g_status g) false) (tmp_batch_ db) (last_sequence_ db) (level0_files_ db)
        (log_ db) (mem_ db) (bg_error_ db) (told_ db))
  | Some updates =>
      '(status, log) ← AddRecord addr (Contents updates) (log_ db);
      let '(status, sync_error, log) :=
        if ok status && sync then
          let '(status, dest) := wf_Sync (dest_ log) in
          (status, negb (ok status), LogFile.MkWriter dest (block_offset_ log) (type_crc_ log))
        else (status, false, log) in
      '(status, mem) ← (if ok status then InsertInto (C := C) fresh updates (mem_ db) else mret (status, mem_ db));
      mret (MkDB (writers_ db) (Written g status sync_error) (tmp_batch_ db) (last_sequence_ db) (level0_files_ db)
        log mem (bg_error_ db) (told_ db))
  end.

(** With the lock again, to the end: the group leaves the queue. *)
Definition Write_finish (g : Group) (status : Status) (sync_error : bool) (db : DB) : DB :=
  let bg_error := if sync_error then RecordBackgroundError status (bg_error_ db) else bg_error_ db in
  let tmp := match g_updates g with Some _ => if g_tmp g then WriteBatch_Clear else tmp_batch_ db | None => tmp_batch_ db end in
  let last_sequence := match g_updates g with Some _ => g_sequence g | None => last_sequence_ db end in
  MkDB (drop (g_writers g) (writers_ db)) Waiting tmp last_sequence (level0_files_ db) (log_ db) (mem_ db) bg_error
    (told_ db ++ map (λ w, (w, status)) (take (g_writers g) (writers_ db))).

(** The step of the front thread, if it can make one. *)
Definition front_step (db : DB) : res (option DB) :=
  match phase_ db, writers_ db with
  | Waiting, [] => mret None
  | Waiting, _ => Write_begin db
  | Unlocked g, w :: _ => db ← Write_apply (w_sync w) g db; mret (Some db)
  | Unlocked _, [] => Err UB
  | Written g status sync_error, _ => mret (Some (Write_finish g status sync_error db))
  end.

(** [DB::Put] and [DB::Delete]: the thread enters with a batch of one operation. *)
Definition DB_Put (sync : bool) (key value : list byte) (db : DB) : res DB :=
  b ← WriteBatch_Put key value new_WriteBatch; mret (Write_enter (MkDBWriter (Some b) sync) db).
Definition DB_Delete (sync : bool) (key : list byte) (db : DB) : res DB :=
  b ← WriteBatch_Delete key new_WriteBatch; mret (Write_enter (MkDBWriter (Some b) sync) db).

(** The memtable's part of [DBImpl::Get], at the latest sequence number. *)
Definition Get_mem (key : list byte) (value : list byte) (s : Status) (db : DB) : res (bool * list byte * Status) :=
  lkey ← new_LookupKey fresh key (last_sequence_ db);
  @MemTable_Get C lkey value s (mem_ db).
End db.
Arguments DB : clear implicits.

(** ** Recovery *)

(** Where recovery writes memtables as tables. *)
Class Level0 (L : Type) := WriteLevel0Table : MemTable → L → Status * L.

Section recover.
Context {F : Type} `{SequentialFile F} `{Allocator} {C : Comparator} {L : Type} `{Level0 L}
  (fresh : Z → list byte) (addr : list byte → Z) (capacity : Arena → Z) (write_buffer_size : Z) (paranoid_checks : bool).

Definition MaybeIgnoreError (s : Status) : Status := if ok s || paranoid_checks then s else OK.

(** The reporter sets the status only under paranoid checks, and keeps the first error. *)
Definition Reporter_Corruption (s : Status) (status : Status) : Status :=
  if paranoid_checks && ok status then s else status.

Record Recovery := MkRecovery { r_status : Status; r_max_sequence : Z; r_mem : option MemTable; r_level0 : L }.

Definition set_status (s : Status) (st : Recovery) : Recovery :=
  MkRecovery s (r_max_sequence st) (r_mem st) (r_level0 st).

Fixpoint recover_loop (fuel : nat) (reader : Reader F) (st : Recovery) : res Recovery :=
  match fuel with
  | O => Err Diverge
  | S fuel' =>
      '(record, reader') ← ReadRecord addr fuel reader;
      let status := foldl (λ st r, Reporter_Corruption r.2 st) (r_status st)
                      (drop (length (reports reader)) (reports reader')) in
      let st := set_status status st in
      match record with
      | None => mret st
      | Some record =>
          if negb (ok status) then mret st
          else if zlen record <? 12 then
            s ← Corruption (str "log record too small") [];
            recover_loop fuel' reader' (set_status (Reporter_Corruption s status) st)
          else
            batch ← SetContents record;
            mem ← (match r_mem st with Some mem => mret mem | None => mem ← new_MemTable; Ref mem end);
            '(s, mem) ← InsertInto (C := C) fresh batch mem;
            let status := MaybeIgnoreError s in
            if negb (ok status) then mret (MkRecovery status (r_max_sequence st) (Some mem) (r_level0 st))
            else
              seq ← Sequence batch;
              count ← Count batch;
              let last_seq := u64 (seq + count - 1) in
              let max := if r_max_sequence st <? last_seq then last_seq else r_max_sequence st in
              if write_buffer_size <? ApproximateMemoryUsage (capacity (arena_ mem)) mem then
                let '(status, l) := WriteLevel0Table mem (r_level0 st) in
                if negb (ok status) then mret (MkRecovery status max (Some mem) l)
                else _ ← Unref mem; recover_loop fuel' reader' (MkRecovery status max None l)
              else recover_loop fuel' reader' (MkRecovery status max (Some mem) (r_level0 st))
      end
  end.

(** [file]: the answer of [NewSequentialFile]. Returns the status, [*max_sequence] and what
    was written. *)
Definition RecoverLogFile (fuel : nat) (file : Status * F) (max_sequence : Z) (l : L) : res (Status * Z * L) :=
  let '(status, f) := file in
  if negb (ok status) then mret (MaybeIgnoreError status, max_sequence, l)
  else
    let reader := new_Reader f true true 0 in
    st ← recover_loop fuel reader (MkRecovery status max_sequence None l);
    let '(status, l) :=
      match r_mem st with
      | Some mem => if ok (r_status st) then WriteLevel0Table mem (r_level0 st) else (r_status st, r_level0 st)
      | None => (r_status st, r_level0 st)
      end in
    _ ← (match r_mem st with Some mem => Unref mem | None => mret None end);
    mret (status, r_max_sequence st, l).
End recover.
