(* ===== verification/DbQueue.v ===== *)
(** * The memtable, the log and the queue of writers

    The memtable answers as the sequence of operations of the threads that were told, in the
    order in which they entered; the log holds the same operations, group by group; recovery
    from any prefix of the log gives the operations of a prefix of the groups.

    The reachable states of the write path, with any number of threads entering between the
    steps of the front thread, and the invariant that relates them to the requests in the order
    of their entry. *)
From Stdlib Require Import Strings.String.
From stdpp Require Import gmap sorting.
From S2P Require Import Prelude Buffers CLib Order Coding Comparator DbFormat Status Env LogFile LogProps Random Arena SkipList SkipProps SkipSpec MemTable MemProps WriteBatch DbWrite.

#[local] Open Scope Z_scope.
#[local] Open Scope list_scope.

(** ** Operations and versions *)

Definition op_key (op : batch_op) : list byte := match op with OpPut k _ => k | OpDelete k => k end.
Definition op_version (s : Z) (op : batch_op) : version :=
  match op with OpPut k v => MkVersion k s kTypeValue v | OpDelete k => MkVersion k s kTypeDeletion [] end.
(** Numbered from [s]. *)
Fixpoint versions_from (s : Z) (ops : list batch_op) : list version :=
  match ops with [] => [] | op :: ops => op_version s op :: versions_from (s + 1) ops end.

(** The operation that decides what a key holds: the last one on it. *)
Fixpoint last_op (c : list byte → list byte → Z) (u : list byte) (ops : list batch_op) : option batch_op :=
  match ops with
  | [] => None
  | op :: ops => match last_op c u ops with Some o => Some o | None => if c (op_key op) u =? 0 then Some op else None end
  end.

(** What a lookup returns, and leaves in its results. *)
Definition answer (c : list byte → list byte → Z) (u : list byte) (ops : list batch_op) (value : list byte) (st : Status)
    : bool * list byte * Status :=
  match last_op c u ops with
  | Some (OpPut _ v) => (true, v, st)
  | Some (OpDelete _) => (true, value, status_of kNotFound [] [])
  | None => (false, value, st)
  end.

Definition fits (ok : list byte → Prop) (op : batch_op) : Prop :=
  ok (op_key op) ∧ zlen (op_key op) + 13 < 2^32 ∧ match op with OpPut _ v => zlen v < 2^32 | OpDelete _ => True end.

Lemma fits_op_ok ok op : fits ok op → op_ok op.
Proof. destruct op; unfold fits, op_ok; simpl; intros (_ & ? & ?); [split; lia|lia]. Qed.

Lemma versions_app s a b : versions_from s (a ++ b) = versions_from s a ++ versions_from (s + zlen a) b.
Proof.
  revert s. induction a as [|op a IH]; intros s; cbn [app versions_from]; [by rewrite Z.add_0_r|].
  rewrite IH. do 3 f_equal. cbn [length]. lia.
Qed.

Lemma versions_seqs s ops : map v_seq (versions_from s ops) = seqZ s (zlen ops).
Proof.
  revert s. induction ops as [|op ops IH]; intros s; [done|]. cbn [versions_from map]. rewrite IH.
  rewrite (seqZ_cons s) by (cbn [length]; lia). f_equal; [by destruct op|]. f_equal. cbn [length]. lia.
Qed.

Lemma versions_elem s ops v : v ∈ versions_from s ops → s ≤ v_seq v < s + zlen ops.
Proof.
  intros Hv. assert (v_seq v ∈ map v_seq (versions_from s ops)) as Hin by by apply list_elem_of_In, in_map, list_elem_of_In.
  rewrite versions_seqs in Hin. by apply elem_of_seqZ in Hin.
Qed.

Lemma versions_ok ok s ops : Forall (fits ok) ops → 0 ≤ s → s + zlen ops ≤ 2^56 → Forall (version_ok ok) (versions_from s ops).
Proof.
  intros Hops. revert s. induction Hops as [|op ops Hop _ IH]; intros s Hs Hl; [constructor|]. simpl length in Hl.
  cbn [versions_from]. constructor; [|apply IH; lia]. destruct Hop as (Hk & Hkl & Hv).
  assert (0 ≤ s ≤ kMaxSequenceNumber) by (unfold kMaxSequenceNumber; change (Z.shiftl 1 56) with (2^56); lia).
  destruct op; (split; [split; [done|cbn; unfold kTypeValue, kTypeDeletion; lia]|done]).
Qed.

Lemma newest_versions c u s s0 ops : s0 + zlen ops ≤ s + 1 →
  match newest c u s (versions_from s0 ops), last_op c u ops with
  | Some w, Some op => ∃ i, w = op_version i op ∧ s0 ≤ i
  | None, None => True
  | _, _ => False
  end.
Proof.
  revert s0. induction ops as [|op ops IH]; intros s0 Hs; [done|]. cbn [versions_from newest last_op]. simpl length in Hs.
  specialize (IH (s0 + 1) ltac:(lia)).
  destruct (newest c u s (versions_from (s0 + 1) ops)) as [w|], (last_op c u ops) as [o|]; try done.
  - destruct IH as (i & -> & Hi). replace (v_tag (op_version i o) <? v_tag (op_version s0 op)) with false.
    { rewrite andb_false_r. exists i. split; [done|lia]. }
    unfold v_tag, pack. destruct o, op; simpl; unfold kTypeValue, kTypeDeletion; lia.
  - unfold candidate. replace (v_key (op_version s0 op)) with (op_key op) by by destruct op.
    replace (v_seq (op_version s0 op)) with s0 by by destruct op. replace (s0 <=? s) with true by lia. rewrite andb_true_r.
    destruct (c (op_key op) u =? 0); [|done]. exists s0. split; [done|lia].
Qed.

Lemma newest_later c u s vs ws : (∀ w, w ∈ ws → s < v_seq w) → newest c u s (vs ++ ws) = newest c u s vs.
Proof.
  intros Hw. induction vs as [|v vs IH]; simpl; [|by rewrite IH].
  pose proof (newest_spec c u s ws) as Hn. destruct (newest c u s ws) as [w|]; [|done]. destruct Hn as (Hin & Hc & _).
  specialize (Hw w Hin). unfold candidate in Hc. lia.
Qed.

(** The snapshot that sees [ops], when the table has more. *)
Lemma newest_answer c u ops more value (st : Status) :
  match newest c u (zlen ops) (versions_from 1 (ops ++ more)) with
  | Some v => if v_type v =? kTypeValue then (true, v_value v, st) else (true, value, status_of kNotFound [] [])
  | None => (false, value, st)
  end = answer c u ops value st.
Proof.
  rewrite versions_app, newest_later.
  - pose proof (newest_versions c u (zlen ops) 1 ops ltac:(lia)) as Hn. unfold answer.
    destruct (newest c u (zlen ops) (versions_from 1 ops)) as [w|], (last_op c u ops) as [o|]; try done.
    destruct Hn as (i & -> & _). by destruct o.
  - intros w Hw. apply versions_elem in Hw. lia.
Qed.

Section mem.
Context `{Hspec : AllocatorSpec} {C : Comparator} {ok : list byte → Prop} {c : list byte → list byte → Z}
  {HC : ComparatorSpec C ok c} (fresh : Z → list byte) (Hfresh : ∀ n, 0 ≤ n → zlen (fresh n) = n).

Abbreviation minv := (@mem_inv ok c).

(** ** Batches in a memtable *)

Lemma handle_inserter ops : ∀ s m vs, minv m vs → Forall (fits ok) ops → 0 ≤ s → s + zlen ops ≤ 2^56 →
  (∀ v, v ∈ vs → v_seq v < s) →
  ∃ m', @handle_ops _ (@MemTableInserter_handler _ C fresh) ops (MkInserter s m) = Ok (MkInserter (s + zlen ops) m')
    ∧ minv m' (vs ++ versions_from s ops) ∧ refs_ m' = refs_ m.
Proof using HC Hfresh Hspec.
  induction ops as [|op ops IH]; intros s m vs Hm Hops Hs Hmax Hvs.
  { exists m. cbn. by rewrite Z.add_0_r, app_nil_r. }
  apply Forall_cons_1 in Hops as [Hop Hops]. cbn [length] in Hmax.
  pose proof (versions_ok ok s [op] (Forall_cons_2 _ _ _ Hop (Forall_nil_2 _)) Hs ltac:(simpl; lia)) as Hv. apply Forall_cons_1 in Hv as [Hv _].
  destruct (MemTable_Add_Ok fresh Hfresh m vs (op_version s op) Hm Hv) as (m1 & Hadd & Hm1 & Hr1).
  { intros Hin%list_elem_of_In%in_map_iff. destruct Hin as (v & Hseq & Hin%list_elem_of_In). specialize (Hvs v Hin).
    destruct op; simpl in Hseq; lia. }
  destruct (IH (s + 1) m1 (vs ++ [op_version s op]) Hm1 Hops) as (m' & Hrun & Hm' & Hr'); [lia|lia| |].
  { intros v [Hin|Hin%list_elem_of_singleton]%elem_of_app; [specialize (Hvs v Hin); lia|]. subst v. destruct op; simpl; lia. }
  exists m'. cbn [versions_from]. rewrite <-app_assoc in Hm'. split; [|split; [done|congruence]].
  replace (s + zlen (op :: ops)) with (s + 1 + zlen ops) by (simpl; lia). rewrite <-Hrun.
  destruct op as [k v|k]; cbn [handle_ops handler_Put handler_Delete MemTableInserter_handler];
    unfold inserter_Put, inserter_Delete; cbn [sequence_ WriteBatch.mem_]; cbn [op_version v_seq v_type v_key v_value] in Hadd;
    rewrite Hadd; cbn [mbind res_bind mret res_ret]; rewrite u64_small by lia; done.
Qed.

Lemma InsertInto_Ok ops s m vs : minv m vs → Forall (fits ok) ops → 0 ≤ s → s + zlen ops ≤ 2^56 → zlen ops < 2^31 →
  (∀ v, v ∈ vs → v_seq v < s) →
  ∃ m', @InsertInto _ C fresh (batch s ops) m = Ok (OK, m') ∧ minv m' (vs ++ versions_from s ops) ∧ refs_ m' = refs_ m.
Proof using HC Hfresh Hspec.
  intros Hm Hops Hs Hmax Hl Hvs. unfold InsertInto. rewrite batch_Sequence by lia. cbn [mbind res_bind].
  destruct (handle_inserter ops s m vs Hm Hops Hs Hmax Hvs) as (m' & Hrun & Hm' & Hr).
  rewrite Iterate_Ok by (done || (eapply Forall_impl; [exact Hops|]; apply fits_op_ok)).
  rewrite Hrun. cbn [mbind res_bind mret res_ret WriteBatch.mem_]. by exists m'.
Qed.

(** What a table with the versions of [ops ++ more] answers at the snapshot of [ops]. *)
Lemma Get_answer m ops more u value (st : Status) : minv m (versions_from 1 (ops ++ more)) →
  zlen ops < 2^56 → ok u → zlen u + 13 < 2^32 →
  ∃ lk, new_LookupKey fresh u (zlen ops) = Ok lk ∧ @MemTable_Get C lk value st m = Ok (answer c u ops value st).
Proof using HC Hfresh.
  intros Hm Hl Hu Hul. destruct (Get_Ok fresh Hfresh m (versions_from 1 (ops ++ more)) u (zlen ops) value st Hm) as (lk & Hlk & Hget); try done.
  - rewrite versions_seqs. apply NoDup_seqZ.
  - unfold kMaxSequenceNumber. change (Z.shiftl 1 56) with (2^56). lia.
  - exists lk. split; [done|]. by rewrite Hget, newest_answer.
Qed.
End mem.

(** * The queue of writers: group commit is first in, first out *)

(** What a thread asks for: the operations of its batch, or no batch, and whether to sync. *)
Record request := MkRequest { r_ops : option (list batch_op); r_sync : bool }.

Definition request_ops (r : request) : list batch_op := match r_ops r with Some ops => ops | None => [] end.
Definition all_ops (rs : list request) : list batch_op := concat (map request_ops rs).

Definition request_ok (ok : list byte → Prop) (r : request) : Prop :=
  Forall (fits ok) (request_ops r) ∧ zlen (batch 0 (request_ops r)) < 2^31.

(** The writer of a request: its batch is built by [Put] and [Delete]. *)
Definition make_writer (r : request) : res DBWriter :=
  match r_ops r with
  | None => mret (MkDBWriter None (r_sync r))
  | Some ops => b ← apply_ops ops new_WriteBatch; mret (MkDBWriter (Some b) (r_sync r))
  end.

(** [DB::Put] and [DB::Delete] enter with such a writer. *)
Lemma DB_Put_enter {W} sync key value (db : DB W) :
  DB_Put sync key value db = (w ← make_writer (MkRequest (Some [OpPut key value]) sync); mret (Write_enter w db)).
Proof. unfold DB_Put, make_writer. cbn [r_ops r_sync apply_ops apply_op]. by destruct (WriteBatch_Put _ _ _). Qed.
Lemma DB_Delete_enter {W} sync key (db : DB W) :
  DB_Delete sync key db = (w ← make_writer (MkRequest (Some [OpDelete key]) sync); mret (Write_enter w db)).
Proof. unfold DB_Delete, make_writer. cbn [r_ops r_sync apply_ops apply_op]. by destruct (WriteBatch_Delete _ _). Qed.

Definition set_files {W} (n : Z) (db : DB W) : DB W :=
  MkDB (writers_ db) (phase_ db) (tmp_batch_ db) (last_sequence_ db) n (log_ db) (mem_ db) (bg_error_ db) (told_ db).

(** The records of the log: one batch for every group, numbered from [s]. *)
Fixpoint recs (s : Z) (gs : list (list request)) : list (list byte) :=
  match gs with [] => [] | g :: gs => batch s (all_ops g) :: recs (s + zlen (all_ops g)) gs end.

Lemma all_ops_app a b : all_ops (a ++ b) = all_ops a ++ all_ops b.
Proof. unfold all_ops. by rewrite map_app, concat_app. Qed.

Lemma all_ops_cons r rs : all_ops (r :: rs) = request_ops r ++ all_ops rs.
Proof. done. Qed.

Lemma recs_app s gs g : recs s (gs ++ [g]) = recs s gs ++ [batch (s + zlen (all_ops (concat gs))) (all_ops g)].
Proof.
  revert s. induction gs as [|x gs IH]; intros s; cbn [app recs concat]; [by rewrite Z.add_0_r|].
  rewrite IH, all_ops_app, length_app. do 4 f_equal. lia.
Qed.

Lemma recs_take s gs i : take i (recs s gs) = recs s (take i gs).
Proof. revert s i. induction gs as [|g gs IH]; intros s [|i]; cbn [recs take]; [done..|]. by rewrite IH. Qed.

Lemma recs_length s gs : length (recs s gs) = length gs.
Proof. revert s. induction gs as [|g gs IH]; intros s; [done|]. cbn [recs length]. by rewrite IH. Qed.

(** Each operation takes a byte at least. *)
Lemma ops_bytes s ops : (length ops ≤ length (batch s ops))%nat.
Proof.
  unfold batch. rewrite !length_app. enough (length ops ≤ length (concat (map encode_op ops)))%nat by lia.
  induction ops as [|op ops IH]; [done|]. cbn [map concat length]. rewrite length_app. destruct op; cbn [encode_op length]; lia.
Qed.

Lemma batch_size s ops : ByteSize (batch s ops) = zlen (batch 0 ops).
Proof. unfold ByteSize, batch. by rewrite !length_app, !length_EncodeFixed64. Qed.

Lemma all_fits ok rs : Forall (request_ok ok) rs → Forall (fits ok) (all_ops rs).
Proof. induction 1 as [|r rs [Hr _] _ IH]; [constructor|]. rewrite all_ops_cons. by apply Forall_app. Qed.

(** ** Groups *)

Definition is_writer (w : DBWriter) (r : request) : Prop :=
  w_sync w = r_sync r
  ∧ match r_ops r with None => w_batch w = None | Some ops => ∃ s, w_batch w = Some (batch s ops) end.

Lemma make_writer_Ok ok r : request_ok ok r → ∃ w, make_writer r = Ok w ∧ is_writer w r.
Proof.
  intros [_ Hl]. unfold make_writer, is_writer, request_ops in *. destruct (r_ops r) as [ops|]; [|by eexists].
  pose proof (ops_bytes 0 ops). rewrite new_batch, apply_ops_Ok by (cbn [app]; lia). cbn [mbind res_bind app].
  eexists. split; [reflexivity|]. split; [done|]. by eexists.
Qed.

(** What [group_loop] has joined: the operations [acc] of the threads passed, those of the
    first one being [ops1]. *)
Definition joins (ops1 acc : list batch_op) (joined : bool) (tmp : WriteBatch) : Prop :=
  if joined then tmp = batch 0 acc else tmp = batch 0 [] ∧ acc = ops1.

Lemma group_loop_Ok ok ws rs : Forall2 is_writer ws rs → Forall (request_ok ok) rs →
  ∀ n s1 ops1 sync max size tmp joined acc, joins ops1 acc joined tmp →
    zlen acc ≤ size < 2^31 → max < 2^31 → zlen ops1 < 2^31 →
  ∃ k joined' tmp', group_loop ws n (batch s1 ops1) sync max size tmp joined n = Ok ((n + k)%nat, joined', tmp')
    ∧ (k ≤ length rs)%nat ∧ joins ops1 (acc ++ all_ops (take k rs)) joined' tmp'
    ∧ zlen (acc ++ all_ops (take k rs)) < 2^31.
Proof.
  assert (∀ (rs : list request) n ops1 acc joined tmp, joins ops1 acc joined tmp → zlen acc < 2^31 →
    ∃ k joined' tmp', Ok (n, joined, tmp) = Ok ((n + k)%nat, joined', tmp') ∧ (k ≤ length rs)%nat
      ∧ joins ops1 (acc ++ all_ops (take k rs)) joined' tmp' ∧ zlen (acc ++ all_ops (take k rs)) < 2^31) as Hstop.
  { intros rs' n ops1 acc joined tmp Hj Hl. exists 0%nat, joined, tmp. rewrite Nat.add_0_r.
    change (all_ops (take 0 rs')) with (@nil batch_op). rewrite app_nil_r. split_and!; [done|lia|done|done]. }
  induction 1 as [|w r ws rs [_ Hw] Hws IH]; intros Hok n s1 ops1 sync max size tmp joined acc Hj Hs Hmax H1;
    cbn [group_loop]; [by apply Hstop; [|lia]|].
  apply Forall_cons_1 in Hok as [Hr Hok]. destruct (w_sync w && negb sync); [by apply Hstop; [|lia]|].
  assert (∀ size' tmp' joined', joins ops1 (acc ++ request_ops r) joined' tmp' →
    zlen (acc ++ request_ops r) ≤ size' < 2^31 →
    ∃ k j t, group_loop ws (S n) (batch s1 ops1) sync max size' tmp' joined' (S n) = Ok ((n + k)%nat, j, t)
      ∧ (k ≤ length (r :: rs))%nat ∧ joins ops1 (acc ++ all_ops (take k (r :: rs))) j t
      ∧ zlen (acc ++ all_ops (take k (r :: rs))) < 2^31) as Hnext.
  { intros size' tmp' joined' Hj' Hs'. destruct (IH Hok (S n) s1 ops1 sync max size' tmp' joined' _ Hj' Hs' Hmax H1) as (k & j & t & E & Hk & HJ & HL).
    exists (S k), j, t. replace (n + S k)%nat with (S n + k)%nat by lia. cbn [take length]. rewrite all_ops_cons, app_assoc.
    split; [done|]. split; [lia|]. by split. }
  destruct Hr as [_ Hrl]. unfold request_ops in Hnext, Hrl. destruct (r_ops r) as [ops|].
  2:{ rewrite Hw. apply Hnext; rewrite app_nil_r; [done|lia]. }
  destruct Hw as (s & ->). rewrite batch_size, u64_small by lia. destruct (Z.ltb_spec max (size + zlen (batch 0 ops))); [by apply Hstop; [|lia]|].
  pose proof (ops_bytes 0 ops). assert (zlen (acc ++ ops) ≤ size + zlen (batch 0 ops)) by (rewrite length_app; lia).
  assert ((if joined then mret tmp else k ← Count tmp; _ ← c_assert (k =? 0); WriteBatch.Append tmp (batch s1 ops1)) = Ok (batch 0 acc)) as ->.
  { destruct joined; [by rewrite Hj|]. destruct Hj as [-> ->]. rewrite batch_Count by (simpl; lia). cbn [mbind res_bind].
    rewrite c_assert_true by done. cbn [mbind res_bind]. by rewrite Append_Ok by (cbn [app]; lia). }
  cbn [mbind res_bind]. rewrite Append_Ok by lia. cbn [mbind res_bind]. apply Hnext; [done|lia].
Qed.

(** What happens: a thread enters, the front thread makes a step, a compaction ends. *)
Inductive event : Type := Enter (r : request) | Front | Files (n : Z).

Fixpoint entered (evs : list event) : list request :=
  match evs with [] => [] | Enter r :: evs => r :: entered evs | _ :: evs => entered evs end.

Section queue.
Context {W : Type} `{HW : WritableFileSpec W} `{Hspec : AllocatorSpec} {C : Comparator} {ok : list byte → Prop}
  {c : list byte → list byte → Z} {HC : ComparatorSpec C ok c}
  (fresh : Z → list byte) (Hfresh : ∀ n, 0 ≤ n → zlen (fresh n) = n)
  (addr : list byte → Z) (Haddr : ∀ bs, zlen bs ≤ LogFile.kBlockSize → 0 ≤ addr bs < 2^63)
  (capacity : Arena → Z) (write_buffer_size : Z).

Abbreviation minv := (@mem_inv ok c).
Abbreviation step := (@front_step W _ _ C fresh addr capacity write_buffer_size).

(** ** Runs *)

(** A database on the empty log [dest], the requests that entered so far, and its state.
    Compactions change the number of files at any time. *)
Inductive run (dest : W) : list request → DB W → Prop :=
  | run_new db : new_DB addr dest = Ok db → run dest [] db
  | run_enter rs db r w : run dest rs db → make_writer r = Ok w → run dest (rs ++ [r]) (Write_enter w db)
  | run_front rs db db' : run dest rs db → step db = Ok (Some db') → run dest rs db'
  | run_files rs db n : run dest rs db → run dest rs (set_files n db).

(** ** The invariant *)

(** The group [grp] that the front thread writes for, when the requests before are [done]. *)
Record group_inv (done grp rs : list request) (g : Group) (tmp : WriteBatch) : Prop := {
  gi_rs : ∃ rest, rs = done ++ grp ++ rest;
  gi_n : g_writers g = length grp;
  gi_pos : (0 < length grp)%nat;
  gi_updates : g_updates g = Some (batch (1 + zlen (all_ops done)) (all_ops grp));
  gi_status : g_status g = OK;
  gi_sequence : g_sequence g = zlen (all_ops done) + zlen (all_ops grp);
  gi_tmp : g_tmp g = false → tmp = batch 0 [] }.

(** The log and the memtable hold the operations of the groups [gs]. *)
Definition stored (gs : list (list request)) (db : DB W) : Prop :=
  Forall (λ g, zlen (all_ops g) < 2^31) gs ∧ log_holds (log_ db) (recs 1 gs)
  ∧ minv (mem_ db) (versions_from 1 (all_ops (concat gs))) ∧ refs_ (mem_ db) = 1.

Definition phase_inv (done rs : list request) (db : DB W) : Prop :=
  match phase_ db with
  | Waiting => tmp_batch_ db = batch 0 [] ∧ ∃ gs, concat gs = done ∧ stored gs db
  | Unlocked g => ∃ grp gs, group_inv done grp rs g (tmp_batch_ db) ∧ zlen (all_ops grp) < 2^31 ∧ concat gs = done ∧ stored gs db
  | Written g status sync_error => status = OK ∧ sync_error = false
      ∧ ∃ grp gs, group_inv done grp rs g (tmp_batch_ db) ∧ concat gs = done ++ grp ∧ stored gs db
  end.

Record db_inv (rs : list request) (db : DB W) : Prop := {
  di_writers : Forall2 is_writer (map fst (told_ db) ++ writers_ db) rs;
  di_told : Forall (λ x, x.2 = OK) (told_ db);
  di_sequence : last_sequence_ db = zlen (all_ops (take (length (told_ db)) rs));
  di_error : bg_error_ db = OK;
  di_phase : phase_inv (take (length (told_ db)) rs) rs db }.

(** All requests can be written. *)
Definition requests_ok (rs : list request) : Prop := Forall (request_ok ok) rs ∧ zlen (all_ops rs) < 2^56.

Lemma new_DB_inv dest : wf_contents dest = [] → ∃ db, new_DB addr dest = Ok db ∧ db_inv [] db.
Proof using Haddr Hspec.
  intros Hd. unfold new_DB. destruct (new_MemTable_Ok (ok := ok) (c := c)) as (m & -> & Hm & Hr). cbn [mbind res_bind]. unfold Ref.
  rewrite Hr, cint_ok by (unfold int_min, int_max; lia). cbn [mbind res_bind mret res_ret].
  destruct (new_log_holds addr Haddr dest Hd) as (log & -> & Hlog). cbn [mbind res_bind].
  eexists. split; [reflexivity|]. split; [constructor|constructor|done|done|]. split; [done|]. exists [].
  split; [done|]. split; [constructor|]. by split.
Qed.

Lemma inv_told_length rs db : db_inv rs db → (length (told_ db) + length (writers_ db) = length rs)%nat.
Proof using. intros [Hw _ _ _ _]. apply Forall2_length in Hw. by rewrite length_app, length_map in Hw. Qed.

Lemma enter_inv rs db r w : db_inv rs db → is_writer w r → db_inv (rs ++ [r]) (Write_enter w db).
Proof using.
  intros Hinv Hw. pose proof (inv_told_length _ _ Hinv) as Hl. destruct Hinv as [Hws Ht Hs He Hp].
  assert (take (length (told_ db)) (rs ++ [r]) = take (length (told_ db)) rs) as Etake by (apply take_app_le; lia).
  split; cbn [Write_enter writers_ told_ last_sequence_ bg_error_]; rewrite ?Etake; try done.
  - rewrite app_assoc. apply Forall2_app; [done|by constructor].
  - assert (∀ grp g tmp, group_inv (take (length (told_ db)) rs) grp rs g tmp →
      group_inv (take (length (told_ db)) rs) grp (rs ++ [r]) g tmp) as Hgrp.
    { intros grp g tmp [(rest & E) ? ? ? ? ? ?]. split; try done. exists (rest ++ [r]). by rewrite E at 1; rewrite <-!app_assoc. }
    unfold phase_inv in *. cbn [Write_enter phase_ tmp_batch_]. destruct (phase_ db) as [|g|g st se].
    + exact Hp.
    + destruct Hp as (grp & gs & Hg & ? & ? & Hst). exists grp, gs. split; [by apply Hgrp|]. by split.
    + destruct Hp as (? & ? & grp & gs & Hg & ? & Hst). split; [done|]. split; [done|]. exists grp, gs. split; [by apply Hgrp|]. by split.
Qed.

(** ** The steps of the front thread *)

(** There is room: no switch of the memtable is forced, and its size is within the limit. *)
Definition has_room (force : bool) (db : DB W) : Prop :=
  force = false ∧ ApproximateMemoryUsage (capacity (arena_ (mem_ db))) (mem_ db) ≤ write_buffer_size.

Lemma make_room_spec (db : DB W) force : bg_error_ db = OK →
  if decide (has_room force db) then MakeRoomForWrite capacity write_buffer_size force db = Some OK
  else MakeRoomForWrite capacity write_buffer_size force db = None.
Proof using.
  intros He. unfold MakeRoomForWrite. cbn [make_room_loop]. rewrite He. change (negb (Status.ok OK)) with false. cbv iota.
  destruct (decide (has_room force db)) as [[-> Hu]|Hno].
  - cbn [negb andb]. replace (ApproximateMemoryUsage _ _ <=? write_buffer_size) with true by lia. by destruct (_ <=? level0_files_ db).
  - assert (negb force && (ApproximateMemoryUsage (capacity (arena_ (mem_ db))) (mem_ db) <=? write_buffer_size) = false) as ->.
    { destruct force; [done|]. cbn [negb andb]. apply Z.leb_gt. unfold has_room in Hno. destruct (Z_le_gt_dec (ApproximateMemoryUsage (capacity (arena_ (mem_ db))) (mem_ db)) write_buffer_size); [|lia].
      by destruct Hno. }
    by destruct (_ && _).
Qed.

Lemma begin_group w ws r rs (db : DB W) : writers_ db = w :: ws → Forall2 is_writer (w :: ws) (r :: rs) → Forall (request_ok ok) (r :: rs) →
  tmp_batch_ db = batch 0 [] → is_Some (w_batch w) →
  ∃ k joined tmp s, BuildBatchGroup db = Ok (S k, joined, tmp) ∧ (k ≤ length rs)%nat ∧ w_batch w = Some (batch s (request_ops r))
    ∧ joins (request_ops r) (all_ops (take (S k) (r :: rs))) joined tmp ∧ zlen (all_ops (take (S k) (r :: rs))) < 2^31.
Proof using.
  intros Hq Hws Hok Htmp Hsome. apply Forall2_cons_1 in Hws as [[Hsync Hw] Hws]. apply Forall_cons_1 in Hok as [[_ Hr] Hok].
  unfold BuildBatchGroup. rewrite Hq. destruct (r_ops r) as [ops|] eqn:Er.
  2:{ rewrite Hw in Hsome. by destruct Hsome. }
  destruct Hw as (s & ->). rewrite batch_size. pose proof (ops_bytes 0 ops).
  assert (request_ops r = ops) as Eops by (unfold request_ops; by rewrite Er). rewrite Eops in *. set (max := if _ <=? _ then _ else _).
  assert (max < 2^31) as Hmax.
  { unfold max. change (Z.shiftl 128 10) with 131072. change (Z.shiftl 1 20) with 1048576.
    destruct (Z.leb_spec (zlen (batch 0 ops)) 131072); [rewrite u64_small by lia|]; lia. }
  destruct (group_loop_Ok ok ws rs Hws Hok 1 s ops (w_sync w) max (zlen (batch 0 ops)) (tmp_batch_ db) false ops)
    as (k & j & tmp & E & Hk & HJ & HL); [done|lia|done|lia|].
  exists k, j, tmp, s. cbn [take]. rewrite all_ops_cons, Eops. by split_and!.
Qed.

Lemma inv_split rs db : db_inv rs db → ∃ done rest, rs = done ++ rest ∧ take (length (told_ db)) rs = done
  ∧ length done = length (told_ db) ∧ Forall2 is_writer (map fst (told_ db)) done ∧ Forall2 is_writer (writers_ db) rest.
Proof using.
  intros [Hw _ _ _ _]. apply Forall2_app_inv_l in Hw as (dn & rest & H1 & H2 & ->). exists dn, rest.
  pose proof (Forall2_length _ _ _ H1) as Hl. rewrite length_map in Hl. rewrite Hl, take_app_length. by split_and!.
Qed.

(** No thread is left, or the one at the front finds no room. *)
Definition waits (db : DB W) : Prop :=
  match writers_ db with
  | [] => True
  | w :: _ => ¬ has_room (bool_decide (w_batch w = None)) db
  end.

(** The steps that are left. *)
Definition rank (db : DB W) : nat :=
  match phase_ db with
  | Waiting => 3 * length (writers_ db)
  | Unlocked _ => 3 * length (writers_ db) - 1
  | Written _ _ _ => 3 * length (writers_ db) - 2
  end.

Lemma begin_inv rs db : db_inv rs db → requests_ok rs → phase_ db = Waiting → writers_ db ≠ [] → ¬ waits db →
  ∃ db', step db = Ok (Some db') ∧ db_inv rs db' ∧ told_ db' = told_ db ∧ (rank db' < rank db)%nat.
Proof using.
  intros Hinv [Hok Hmax] Hph Hne Hnw. pose proof Hinv as [_ Htold Hseq Herr Hp].
  destruct (inv_split rs db Hinv) as (dn & rest & -> & Edn & Hdn & Hw1 & Hw2). rewrite Edn in *.
  unfold phase_inv in Hp. rewrite Hph in Hp. destruct Hp as (Htmp & gs & Hgs & Hst).
  unfold waits in Hnw. destruct (writers_ db) as [|w ws] eqn:Hq; [done|].
  destruct rest as [|r rest]; [by apply Forall2_nil_inv_r in Hw2|]. apply Forall_app in Hok as [Hok1 Hok2].
  destruct (decide (w_batch w = None)) as [Hb|Hb].
  { rewrite bool_decide_true in Hnw by done. destruct Hnw. by intros [? _]. }
  rewrite bool_decide_false in Hnw by done. assert (is_Some (w_batch w)) as Hsome by (by apply not_eq_None_Some).
  destruct (begin_group w ws r rest db Hq Hw2 Hok2 Htmp Hsome) as (k & joined & tmp & s & Hgroup & Hk & Hwb & HJ & HL).
  unfold front_step. rewrite Hph, Hq. unfold Write_begin. rewrite Hq, bool_decide_false by done.
  pose proof (make_room_spec db false Herr) as Hroom. destruct (decide (has_room false db)); [|done]. rewrite Hroom, Hwb. change (Status.ok OK) with true. cbv iota.
  rewrite Hgroup. cbn [mbind res_bind]. set (grp := take (S k) (r :: rest)) in *. rewrite all_ops_app, length_app in Hmax.
  assert (zlen (all_ops grp) ≤ zlen (all_ops (r :: rest))) as Hgl.
  { rewrite <-(take_drop (S k) (r :: rest)). fold grp. rewrite all_ops_app, length_app. lia. }
  assert ((if joined then tmp else batch s (request_ops r)) = batch (if joined then 0 else s) (all_ops grp)) as ->.
  { destruct joined; [done|]. by destruct HJ as [_ ->]. }
  rewrite batch_SetSequence. cbn [mbind res_bind]. rewrite batch_Count by done. cbn [mbind res_bind mret res_ret].
  rewrite Hseq, u64_small by lia. rewrite u64_small by lia. eexists. split; [reflexivity|].
  split; [|split; [done|unfold rank; cbn [phase_ writers_]; rewrite Hph, Hq; destruct joined; cbn [length]; lia]].
  split; cbn [told_ writers_ last_sequence_ bg_error_]; rewrite ?Edn; [|done..|].
  - apply Forall2_app; [done|]. destruct joined; [done|]. apply Forall2_cons_1 in Hw2 as [[Hs Hw] Hw2]. constructor; [|done].
    split; [done|]. cbn [w_batch]. destruct HJ as [_ EJ]. rewrite EJ. unfold request_ops. destruct (r_ops r); [by eexists|congruence].
  - unfold phase_inv. cbn [phase_ tmp_batch_]. exists grp, gs. split; [|done]. split; cbn [g_writers g_tmp g_updates g_status g_sequence].
    + exists (drop (S k) (r :: rest)). by rewrite <-(take_drop (S k) (r :: rest)) at 1.
    + unfold grp. rewrite length_take. cbn [length]. lia.
    + unfold grp. cbn [take length]. lia.
    + by rewrite Z.add_comm.
    + done.
    + done.
    + intros ->. apply HJ.
Qed.

Lemma apply_inv rs db g : db_inv rs db → requests_ok rs → phase_ db = Unlocked g →
  ∃ db', step db = Ok (Some db') ∧ db_inv rs db' ∧ told_ db' = told_ db ∧ (rank db' < rank db)%nat.
Proof using Haddr Hfresh HC Hspec.
  intros Hinv [Hok Hmax] Hph. pose proof Hinv as [Hws Htold Hseq Herr Hp].
  destruct (inv_split rs db Hinv) as (dn & rest & Ers & Edn & Hdn & Hw1 & Hw2). rewrite Edn in *.
  unfold phase_inv in Hp. rewrite Hph in Hp. destruct Hp as (grp & gs & Hg & HL & Hgs & Hsmall & Hlog & Hmem & Hrefs).
  pose proof Hg as [(rest' & Erest) Hn Hpos Hup Hst Hgs' Htmp].
  assert (rest = grp ++ rest') as -> by (rewrite Ers in Erest; by apply app_inv_head in Erest).
  destruct (writers_ db) as [|w ws] eqn:Hq; [apply Forall2_length in Hw2; rewrite length_app in Hw2; simpl in Hw2; lia|].
  unfold front_step. rewrite Hph, Hq. unfold Write_apply. rewrite Hup. unfold Contents.
  destruct (AddRecord_holds addr Haddr (log_ db) _ (batch (1 + zlen (all_ops dn)) (all_ops grp)) Hlog) as (log1 & -> & Hlog1).
  cbn [mbind res_bind]. change (Status.ok OK) with true. cbn [andb].
  rewrite <-Hgs, <-recs_app in Hlog1.
  assert (∃ log2, (if w_sync w then
      let '(status, dest) := wf_Sync (dest_ log1) in (status, negb (Status.ok status), LogFile.MkWriter dest (block_offset_ log1) (type_crc_ log1))
    else (OK, false, log1)) = (OK, false, log2) ∧ log_holds log2 (recs 1 (gs ++ [grp]))) as (log2 & -> & Hlog2).
  { destruct (w_sync w); [|by exists log1]. destruct (Sync_spec (dest_ log1)) as (d & -> & Ed). eexists. split; [reflexivity|].
    by apply log_holds_dest. }
  change (Status.ok OK) with true. cbv iota. rewrite Ers in Hok, Hmax. rewrite !all_ops_app, !length_app in Hmax.
  apply Forall_app in Hok as [Hok1 [Hok2 _]%Forall_app].
  destruct (InsertInto_Ok fresh Hfresh (all_ops grp) (1 + zlen (all_ops dn)) (mem_ db) _ Hmem (all_fits ok grp Hok2)) as (m' & -> & Hm' & Hr');
    [lia|lia|done|rewrite Hgs; intros v Hv; apply versions_elem in Hv; lia|].
  cbn [mbind res_bind mret res_ret]. eexists. split; [reflexivity|].
  split; [|split; [done|unfold rank; cbn [phase_ writers_]; rewrite Hph, Hq; cbn [length]; lia]].
  split; cbn [told_ writers_ last_sequence_ bg_error_]; rewrite ?Edn; [by rewrite Hq|done..|].
  unfold phase_inv. cbn [phase_ tmp_batch_]. split; [done|]. split; [done|]. exists grp, (gs ++ [grp]). split; [done|].
  rewrite concat_app. cbn [concat]. rewrite app_nil_r, Hgs. split; [done|]. split; [by apply Forall_app; split; [|constructor]|].
  cbn [log_ mem_]. split; [done|]. rewrite concat_app. cbn [concat]. rewrite app_nil_r, Hgs, all_ops_app, versions_app, <-Hgs.
  rewrite Hgs in *. split; [done|congruence].
Qed.

Lemma finish_inv rs db g st se : db_inv rs db → phase_ db = Written g st se →
  ∃ db', step db = Ok (Some db') ∧ db_inv rs db' ∧ told_ db `prefix_of` told_ db' ∧ (rank db' < rank db)%nat.
Proof using.
  intros Hinv Hph. pose proof Hinv as [Hws Htold Hseq Herr Hp].
  destruct (inv_split rs db Hinv) as (dn & rest & Ers & Edn & Hdn & Hw1 & Hw2). rewrite Edn in *.
  unfold phase_inv in Hp. rewrite Hph in Hp. destruct Hp as (-> & -> & grp & gs & Hg & Hgs & Hst).
  pose proof Hg as [(rest' & Erest) Hn Hpos Hup Hgst Hgs' Htmp].
  assert (rest = grp ++ rest') as -> by (rewrite Ers in Erest; by apply app_inv_head in Erest).
  pose proof (Forall2_length _ _ _ Hw2) as Hl. rewrite length_app in Hl.
  assert (length (take (g_writers g) (writers_ db)) = length grp) as Hlt by (rewrite length_take; lia).
  unfold front_step. rewrite Hph.
  eexists. split; [reflexivity|].
  split; [|split; [by eexists|unfold rank; cbn [Write_finish phase_ writers_]; rewrite Hph, length_drop; lia]].
  assert (take (length (told_ db ++ map (λ w, (w, OK)) (take (g_writers g) (writers_ db)))) rs = dn ++ grp) as Etk.
  { rewrite length_app, length_map, Hlt, <-Hdn, Ers, app_assoc, <-length_app. apply take_app_length. }
  split; cbn [Write_finish told_ writers_ last_sequence_ bg_error_]; rewrite ?Etk.
  - rewrite map_app, map_map, map_id, <-app_assoc, take_drop. done.
  - apply Forall_app. split; [done|]. apply Forall_forall. intros x Hx. by apply list_elem_of_In, in_map_iff in Hx as (w & <- & _).
  - by rewrite Hup, Hgs', all_ops_app, length_app, Nat2Z.inj_add.
  - done.
  - unfold phase_inv. cbn [Write_finish phase_ tmp_batch_]. rewrite Hup. split; [|by exists gs].
    destruct (g_tmp g); [done|by apply Htmp].
Qed.

Lemma waits_dec db : waits db ∨ ¬ waits db.
Proof using.
  unfold waits. destruct (writers_ db) as [|w ws]; [by left|]. destruct (decide (has_room (bool_decide (w_batch w = None)) db)); [right; tauto|by left].
Qed.

Lemma waits_stop db : bg_error_ db = OK → phase_ db = Waiting → waits db → step db = Ok None.
Proof using.
  intros He Hph Hw. unfold front_step, waits, Write_begin in *. rewrite Hph. destruct (writers_ db) as [|w ws]; [done|].
  pose proof (make_room_spec db (bool_decide (w_batch w = None)) He) as Hroom. destruct (decide (has_room _ _)); [done|]. by rewrite Hroom.
Qed.

(** The front thread waits with the lock, or makes a step. *)
Lemma front_inv rs db : db_inv rs db → requests_ok rs →
  (phase_ db = Waiting ∧ waits db ∧ step db = Ok None)
  ∨ ∃ db', step db = Ok (Some db') ∧ db_inv rs db' ∧ told_ db `prefix_of` told_ db' ∧ (rank db' < rank db)%nat.
Proof using Haddr Hfresh HC Hspec.
  intros Hinv Hrs. destruct (phase_ db) as [|g|g st se] eqn:Hph.
  - destruct (waits_dec db) as [Hw|Hw]; [left; split; [done|]; split; [done|]; apply waits_stop; [apply Hinv|done|done]|]. right.
    destruct (begin_inv rs db Hinv Hrs Hph) as (db' & ? & ? & Ht & ?); [|done|exists db'; rewrite Ht; by split_and!].
    intros E. apply Hw. unfold waits. by rewrite E.
  - right. destruct (apply_inv rs db g Hinv Hrs Hph) as (db' & ? & ? & Ht & ?). exists db'. rewrite Ht. by split_and!.
  - right. by apply (finish_inv rs db g st se).
Qed.

Lemma run_inv dest rs db : wf_contents dest = [] → run dest rs db → requests_ok rs → db_inv rs db.
Proof using Haddr Hfresh HC Hspec.
  intros Hd Hrun. induction Hrun as [db Hdb|rs db r w _ IH Hw|rs db db' _ IH Hstep|rs db n _ IH]; intros Hrs.
  - destruct (new_DB_inv dest Hd) as (db' & E & Hinv). rewrite Hdb in E. by injection E as ->.
  - destruct Hrs as [Hok Hmax]. apply Forall_app in Hok as [Hok Hr]. apply Forall_cons_1 in Hr as [Hr _].
    rewrite all_ops_app, length_app in Hmax. destruct (make_writer_Ok ok r Hr) as (w' & E & Hw'). rewrite Hw in E. injection E as ->.
    apply enter_inv; [|done]. apply IH. split; [done|lia].
  - destruct (front_inv rs db (IH Hrs) Hrs) as [(_ & _ & E)|(db2 & E & Hinv & _)]; rewrite Hstep in E; [done|].
    by injection E as ->.
  - specialize (IH Hrs). by destruct IH.
Qed.

(** A schedule, and the run that it gives. *)
Fixpoint play (evs : list event) (db : DB W) : res (DB W) :=
  match evs with
  | [] => mret db
  | Enter r :: evs => w ← make_writer r; play evs (Write_enter w db)
  | Front :: evs => o ← step db; match o with Some db => play evs db | None => Err UB end
  | Files n :: evs => play evs (set_files n db)
  end.

Lemma play_run dest evs : ∀ rs db db', run dest rs db → play evs db = Ok db' → run dest (rs ++ entered evs) db'.
Proof using.
  induction evs as [|[r| |n] evs IH]; intros rs db db' Hrun; cbn [play entered].
  - intros [= <-]. by rewrite app_nil_r.
  - destruct (make_writer r) as [w|] eqn:E; [|done]. cbn [mbind res_bind]. change (r :: entered evs) with ([r] ++ entered evs).
    rewrite app_assoc. apply IH. by apply run_enter.
  - destruct (step db) as [[db1|]|] eqn:E; [|done..]. cbn [mbind res_bind]. apply IH. by eapply run_front.
  - apply IH. by apply run_files.
Qed.

(** ** Properties *)

(** The thread at the front and those after it, until it has to wait. *)
Fixpoint drain (fuel : nat) (db : DB W) : res (DB W) :=
  match fuel with
  | O => Err Diverge
  | S fuel => o ← step db; match o with None => mret db | Some db => drain fuel db end
  end.

Lemma drain_inv rs fuel : ∀ db, db_inv rs db → requests_ok rs → (rank db < fuel)%nat →
  ∃ db', drain fuel db = Ok db' ∧ db_inv rs db' ∧ phase_ db' = Waiting ∧ waits db' ∧ told_ db `prefix_of` told_ db'.
Proof using Haddr Hfresh HC Hspec.
  induction fuel as [|fuel IH]; intros db Hinv Hrs Hf; [lia|]. cbn [drain].
  destruct (front_inv rs db Hinv Hrs) as [(Hph & Hw & ->)|(db1 & -> & Hinv1 & Ht1 & Hr1)]; cbn [mbind res_bind].
  - exists db. by split_and!.
  - destruct (IH db1 Hinv1 Hrs) as (db' & -> & ? & ? & ? & Ht); [lia|]. exists db'. split_and!; try done. by etrans.
Qed.

(** Claim C4. The write path is first in, first out, in every interleaving: whatever threads
    enter and whenever, the threads in the queue come after those that were told, in the order
    of entry; all that were told were told OK; and a lookup in the memtable at the last
    sequence number answers with the last operation on the key among those of the threads that
    were told, also while a group is being written. *)
Theorem db_writes_fifo (dest : W) (rs : list request) (db : DB W)
  (Hempty : wf_contents dest = []) (Hrun : run dest rs db) (Hrs : requests_ok rs) :
  Forall2 is_writer (map fst (told_ db) ++ writers_ db) rs
  ∧ Forall (λ x, x.2 = OK) (told_ db)
  ∧ ∀ u value (st : Status), ok u → zlen u + 13 < 2^32 →
      @Get_mem W C fresh u value st db = Ok (answer c u (all_ops (take (length (told_ db)) rs)) value st).
Proof using Haddr Hfresh HC Hspec.
  pose proof (run_inv dest rs db Hempty Hrun Hrs) as [Hw Ht Hs _ Hp]. split; [done|]. split; [done|].
  intros u value st Hu Hul. unfold Get_mem. rewrite Hs. set (dn := take _ rs) in *.
  assert (∃ more, minv (mem_ db) (versions_from 1 (all_ops dn ++ more))) as [more Hm].
  { unfold phase_inv in Hp. destruct (phase_ db).
    - destruct Hp as (_ & gs & <- & _ & _ & Hm & _). exists []. by rewrite app_nil_r.
    - destruct Hp as (_ & gs & _ & _ & <- & _ & _ & Hm & _). exists []. by rewrite app_nil_r.
    - destruct Hp as (_ & _ & grp & gs & _ & E & _ & _ & Hm & _). exists (all_ops grp). by rewrite E, all_ops_app in Hm. }
  destruct Hrs as [_ Hmax]. rewrite <-(take_drop (length (told_ db)) rs) in Hmax. fold dn in Hmax.
  rewrite all_ops_app, length_app in Hmax.
  destruct (Get_answer fresh Hfresh (mem_ db) (all_ops dn) more u value st Hm) as (lk & -> & Hget); [lia|done|done|].
  exact Hget.
Qed.

(** Claim C5. Writes make progress while the memtable has room: from any state that can be reached, with any number of threads
    in the queue, the front threads left to themselves come to rest without an error, within three steps for every thread in it; if
    then the memtable is within [write_buffer_size], and no thread came without a batch to force a switch, the queue is
    empty, every thread was told, and told OK. No thread that was told is told again. (Beyond that size, the code waits
    for compactions or switches to a new memtable; the steps modelled end there.) *)
Theorem db_write_progress (dest : W) (rs : list request) (db : DB W)
  (Hempty : wf_contents dest = []) (Hrun : run dest rs db) (Hrs : requests_ok rs) :
  ∃ db', drain (S (3 * length (writers_ db))) db = Ok db' ∧ phase_ db' = Waiting
    ∧ told_ db `prefix_of` told_ db' ∧ Forall (λ x, x.2 = OK) (told_ db')
    ∧ (Forall (λ r, is_Some (r_ops r)) rs → ApproximateMemoryUsage (capacity (arena_ (mem_ db'))) (mem_ db') ≤ write_buffer_size →
       writers_ db' = [] ∧ length (told_ db') = length rs).
Proof using Haddr Hfresh HC Hspec.
  pose proof (run_inv dest rs db Hempty Hrun Hrs) as Hinv.
  destruct (drain_inv rs (S (3 * length (writers_ db))) db Hinv Hrs) as (db' & E & Hinv' & Hph & Hw & Ht).
  { unfold rank. destruct (phase_ db); lia. }
  exists db'. split; [done|]. split; [done|]. split; [done|]. split; [apply Hinv'|]. intros Hsome Hu. pose proof (inv_told_length _ _ Hinv') as Hl.
  destruct (inv_split rs db' Hinv') as (dn & rest & -> & _ & _ & _ & Hws). apply Forall_app in Hsome as [_ Hsome].
  unfold waits in Hw. destruct (writers_ db') as [|w ws]; [split; [done|simpl in Hl; lia]|]. exfalso.
  destruct rest as [|r rest]; [by apply Forall2_nil_inv_r in Hws|]. apply Forall2_cons_1 in Hws as [[_ Hb] _]. apply Forall_cons_1 in Hsome as [[ops Hr] _].
  rewrite Hr in Hb. destruct Hb as [s0 Hb]. apply Hw. split; [|done]. by rewrite Hb.
Qed.
End queue.

(** Two threads enter and are joined in a group; a third one enters while the group is written,
    then the number of files grows. *)
Definition sample_events : list event :=
  [Enter (MkRequest (Some [OpPut [x61] [x31]; OpPut [x62] []]) false); Enter (MkRequest (Some [OpDelete [x61]]) false);
   Front; Enter (MkRequest (Some [OpPut [x62] [x32]]) true); Front; Files 9; Front; Front].

Lemma sample_requests : @requests_ok short (entered sample_events).
Proof.
  split; [|reflexivity]. unfold sample_events; cbn [entered].
  repeat (apply Forall_cons_2; [split; [cbn [request_ops r_ops]|reflexivity]|]); repeat constructor; done.
Qed.

Definition sample_db : res (DB mem_writer) :=
  db ← @new_DB _ bump_allocator (λ _, 0) (MemWriter []);
  @play mem_writer _ bump_allocator BytewiseComparator zeros (λ _, 0) (λ _, 0) 4194304 sample_events db.

Lemma sample_run db : sample_db = Ok db →
  @run mem_writer _ bump_allocator BytewiseComparator zeros (λ _, 0) (λ _, 0) 4194304 (MemWriter []) (entered sample_events) db.
Proof.
  unfold sample_db. destruct (new_DB _ _) as [db0|] eqn:E; [|done]. cbn [mbind res_bind]. intros Hp.
  by apply (@play_run _ _ _ _ zeros (λ _, 0) (λ _, 0) 4194304 (MemWriter []) sample_events [] db0 db); [constructor|].
Qed.

Lemma sample_told : ∃ db, sample_db = Ok db ∧ length (told_ db) = 2%nat ∧ length (writers_ db) = 1%nat.
Proof.
  assert (match sample_db with Ok db => (length (told_ db), length (writers_ db)) = (2, 1)%nat | Err _ => False end) as E
    by (vm_compute; reflexivity).
  destruct sample_db as [db|]; [|done]. injection E as E1 E2. by exists db.
Qed.

Lemma addr_0 (bs : list byte) : zlen bs ≤ LogFile.kBlockSize → 0 ≤ (λ _ : list byte, 0) bs < 2^63.
Proof. intros _. split; [discriminate|reflexivity]. Qed.

Lemma db_writes_fifo_witness : ∃ db, sample_db = Ok db ∧ length (told_ db) = 2%nat
  ∧ Forall2 is_writer (map fst (told_ db) ++ writers_ db) (entered sample_events)
  ∧ Forall (λ x, x.2 = OK) (told_ db)
  ∧ ∀ u value (st : Status), short u → zlen u + 13 < 2^32 →
      @Get_mem mem_writer BytewiseComparator zeros u value st db =
      Ok (answer strcmp_aux u (all_ops (take (length (told_ db)) (entered sample_events))) value st).
Proof.
  destruct sample_told as (db & E & Ht & _). exists db. split; [done|]. split; [done|].
  apply (@db_writes_fifo mem_writer _ mem_writable_spec bump_allocator bump_spec BytewiseComparator short strcmp_aux bytewise_spec
    zeros zeros_length (λ _, 0) addr_0 (λ _, 0) 4194304 (MemWriter [])); [done|by apply sample_run|apply sample_requests].
Defined.

Definition sample_drain (db : DB mem_writer) : res (DB mem_writer) :=
  @drain mem_writer _ bump_allocator BytewiseComparator zeros (λ _, 0) (λ _, 0) 4194304 (S (3 * length (writers_ db))) db.

Lemma sample_room db db' : sample_db = Ok db → sample_drain db = Ok db' → ApproximateMemoryUsage 0 (mem_ db') ≤ 4194304.
Proof.
  intros E1 E2. assert (match db ← sample_db; sample_drain db with Ok db' => ApproximateMemoryUsage 0 (mem_ db') <=? 4194304 | Err _ => false end = true) as E
    by (vm_compute; reflexivity).
  rewrite E1 in E. cbn [mbind res_bind] in E. rewrite E2 in E. by apply Z.leb_le.
Qed.

(** Here the third thread gets on as well. *)
Lemma db_write_progress_witness : ∃ db, sample_db = Ok db ∧ length (writers_ db) = 1%nat ∧ ∃ db',
  sample_drain db = Ok db' ∧ phase_ db' = Waiting ∧ told_ db `prefix_of` told_ db' ∧ Forall (λ x, x.2 = OK) (told_ db')
    ∧ writers_ db' = [] ∧ length (told_ db') = 3%nat.
Proof.
  destruct sample_told as (db & E & _ & Hw). exists db. split; [done|]. split; [done|].
  destruct (@db_write_progress mem_writer _ mem_writable_spec bump_allocator bump_spec BytewiseComparator short strcmp_aux bytewise_spec
    zeros zeros_length (λ _, 0) addr_0 (λ _, 0) 4194304 (MemWriter []) (entered sample_events) db) as (db' & Hd & Hph & Ht & Hok & Hall);
    [done|by apply sample_run|apply sample_requests|]. exists db'. split; [done|]. split; [done|]. split; [done|]. split; [done|].
  apply Hall; [unfold sample_events; cbn [entered]; by repeat (constructor; [by eexists|])|by apply (sample_room db)].
Defined.
