(* ===== verification/DbRecover.v ===== *)
(** * What recovery brings back

    The log of a database that crashed, cut at any byte, is read again: the tables written by
    [RecoverLogFile] hold the operations of a prefix of the requests, that no group is split by, and
    of all that were told if no byte is lost. With paranoid checks a log that was cut may be refused. *)
From Stdlib Require Import Strings.String.
From stdpp Require Import gmap sorting.
From S2P Require Import Prelude Buffers CLib Order Coding Comparator DbFormat Status Env LogFile LogProps Random Arena SkipList SkipProps SkipSpec MemTable MemProps WriteBatch DbWrite DbQueue.

#[local] Open Scope Z_scope.
#[local] Open Scope list_scope.

(** Tables are written without errors, in order. *)
Class Level0Spec (L : Type) `{Level0 L} := {
  l0_tables : L → list MemTable;
  WriteLevel0_spec m l : ∃ l', WriteLevel0Table m l = (OK, l') ∧ l0_tables l' = l0_tables l ++ [m] }.

#[export] Instance list_level0 : Level0 (list MemTable) := λ m l, (OK, l ++ [m]).
#[export] Instance list_level0_spec : Level0Spec (list MemTable).
Proof. refine {| l0_tables := λ l, l |}. intros m l. by eexists. Defined.

Section recover.
Context {W : Type} `{HW : WritableFileSpec W} {F : Type} `{HF : SequentialFileSpec F} `{Hspec : AllocatorSpec} {C : Comparator}
  {ok : list byte → Prop} {c : list byte → list byte → Z} {HC : ComparatorSpec C ok c} {L : Type} `{HL : Level0Spec L}
  (fresh : Z → list byte) (Hfresh : ∀ n, 0 ≤ n → zlen (fresh n) = n)
  (addr : list byte → Z) (Haddr : ∀ bs, zlen bs ≤ LogFile.kBlockSize → 0 ≤ addr bs < 2^63)
  (capacity : Arena → Z) (write_buffer_size : Z) (paranoid_checks : bool).

Abbreviation minv := (@mem_inv ok c).
Abbreviation loop := (@recover_loop F _ _ C L _ fresh addr capacity write_buffer_size paranoid_checks).

(** The tables and the current memtable hold [ops]. *)
Definition recovered (ops : list batch_op) (st : Recovery) : Prop :=
  r_max_sequence st = zlen ops
  ∧ ∃ vss vs, Forall2 minv (l0_tables (r_level0 st)) vss
      ∧ match r_mem st with None => vs = [] | Some m => minv m vs ∧ refs_ m = 1 end
      ∧ concat vss ++ vs = versions_from 1 ops.

(** The memtable in use, or a new one. *)
Lemma current_mem ops (st : @Recovery L) : recovered ops st →
  ∃ m vss vs, match r_mem st with Some mem => mret mem | None => mem ← new_MemTable; Ref mem end = Ok m
    ∧ Forall2 minv (l0_tables (r_level0 st)) vss ∧ minv m vs ∧ refs_ m = 1 ∧ concat vss ++ vs = versions_from 1 ops.
Proof using Hspec.
  intros (_ & vss & vs & Ht & Hm & Hvs). destruct (r_mem st) as [m|].
  - exists m, vss, vs. destruct Hm. by split_and!.
  - subst vs. destruct (new_MemTable_Ok (ok := ok) (c := c)) as (m & -> & Hm & Hr). cbn [mbind res_bind]. unfold Ref.
    rewrite Hr, cint_ok by (unfold int_min, int_max; lia). cbn [mbind res_bind mret res_ret].
    eexists _, vss, []. by split_and!.
Qed.

(** The status after the reports of one read. *)
Abbreviation reported r r1 := (foldl (λ st x, Reporter_Corruption paranoid_checks x.2 st) OK (drop (length (reports r)) (reports r1))).

Lemma foldl_quiet (l : list (Z * Status)) s : foldl (λ st r, Reporter_Corruption false r.2 st) s l = s.
Proof using. induction l as [|r l IH]; [done|exact IH]. Qed.

(** One record of the log: a group. *)
Lemma recover_record ops g (st : @Recovery L) : recovered ops st → r_status st = OK → Forall (fits ok) (all_ops g) → zlen (all_ops g) < 2^31 →
  zlen ops + zlen (all_ops g) < 2^56 →
  ∃ st', recovered (ops ++ all_ops g) st' ∧ r_status st' = OK ∧ ∀ fuel (r r1 : Reader F),
    ReadRecord addr (S fuel) r = Ok (Some (batch (1 + zlen ops) (all_ops g)), r1) → reported r r1 = OK → loop (S fuel) r st = loop fuel r1 st'.
Proof using Hfresh HC Hspec HL.
  intros Hst Hs Hfit Hl Hmax. pose proof Hst as (Hseq & _). pose proof (batch_length (1 + zlen ops) (all_ops g)) as Hbl.
  destruct (current_mem ops st Hst) as (m & vss & vs & Emem & Ht & Hm & Hr & Hvs).
  destruct (InsertInto_Ok fresh Hfresh (all_ops g) (1 + zlen ops) m vs Hm Hfit) as (m' & Hins & Hm' & Hr'); [lia|lia|done| |].
  { intros v Hv. assert (v ∈ versions_from 1 ops) as Hin by (rewrite <-Hvs; apply elem_of_app; by right). apply versions_elem in Hin. lia. }
  set (mx := zlen (ops ++ all_ops g)).
  assert (∀ st', (if write_buffer_size <? ApproximateMemoryUsage (capacity (arena_ m')) m' then
      MkRecovery OK mx None (WriteLevel0Table m' (r_level0 st)).2 else MkRecovery OK mx (Some m') (r_level0 st)) = st' →
    recovered (ops ++ all_ops g) st' ∧ r_status st' = OK) as Hrec.
  { intros st' <-. assert (concat vss ++ vs ++ versions_from (1 + zlen ops) (all_ops g) = versions_from 1 (ops ++ all_ops g)) as Ev
      by (by rewrite versions_app, <-Hvs, app_assoc). destruct (_ <? _); (split; [|done]); (split; [done|]).
    - destruct (WriteLevel0_spec m' (r_level0 st)) as (l' & -> & El).
      exists (vss ++ [vs ++ versions_from (1 + zlen ops) (all_ops g)]), []. cbn [r_level0 snd r_mem]. rewrite El.
      split; [by apply Forall2_app; [|constructor]|]. split; [done|]. by rewrite concat_app; cbn [concat]; rewrite !app_nil_r.
    - exists vss, (vs ++ versions_from (1 + zlen ops) (all_ops g)). split; [done|]. split; [split; [done|congruence]|done]. }
  destruct (Hrec _ eq_refl) as [Hrec1 Hrec2]. eexists. split; [exact Hrec1|]. split; [exact Hrec2|]. clear Hrec Hrec1 Hrec2.
  intros fuel r r1 Hread Hrep. cbn [recover_loop]. rewrite Hread. cbn [mbind res_bind].
  rewrite Hs, Hrep. change (negb (Status.ok OK)) with false. cbv iota.
  replace (zlen (batch (1 + zlen ops) (all_ops g)) <? 12) with false by lia. unfold SetContents.
  rewrite c_assert_true by (unfold kHeader; lia). cbn [mbind res_bind mret res_ret set_status r_mem r_max_sequence r_level0].
  rewrite Emem. cbn [mbind res_bind]. rewrite Hins. cbn [mbind res_bind].
  change (MaybeIgnoreError paranoid_checks OK) with OK. change (negb (Status.ok OK)) with false. cbv iota.
  rewrite batch_Sequence, batch_Count by lia. cbn [mbind res_bind]. rewrite u64_small by lia.
  assert ((if r_max_sequence st <? 1 + zlen ops + zlen (all_ops g) - 1 then 1 + zlen ops + zlen (all_ops g) - 1
           else r_max_sequence st) = mx) as ->.
  { unfold mx. rewrite length_app, Hseq. destruct (Z.ltb_spec (zlen ops) (1 + zlen ops + zlen (all_ops g) - 1)); lia. }
  destruct (_ <? _); [|done]. destruct (WriteLevel0_spec m' (r_level0 st)) as (l' & -> & _).
  change (negb (Status.ok OK)) with false. cbv iota. unfold Unref. rewrite Hr', Hr, cint_ok by (unfold int_min, int_max; lia).
  cbn [mbind res_bind]. done.
Qed.

Lemma quiet_read fuel (r r1 : Reader F) l o : reads_quietly addr (S fuel) r l → ReadRecord addr (S fuel) r = Ok (o, r1) →
  reports r1 = reports r ∧ match o, l with None, [] => True | Some rec, rec' :: l' => rec' = rec ∧ reads_quietly addr fuel r1 l' | _, _ => False end.
Proof using. intros Hq E. inversion Hq as [fuel' r2 r3 E1 Er|fuel' r2 rec r3 l' E1 Er Hl]; subst; rewrite E in E1; by injection E1 as -> ->. Qed.

(** Some of the groups were recovered when the loop ends; all of them if its status is OK, which it is when nothing is reported. *)
Lemma recover_records gs : ∀ s ops fuel r r' (st : @Recovery L), read_records addr fuel r = Ok (recs s gs, r') →
  s = 1 + zlen ops → recovered ops st → r_status st = OK → Forall (λ g, Forall (fits ok) (all_ops g)) gs → Forall (λ g, zlen (all_ops g) < 2^31) gs →
  zlen (ops ++ all_ops (concat gs)) < 2^56 →
  ∃ st' i, loop fuel r st = Ok st' ∧ recovered (ops ++ all_ops (concat (take i gs))) st'
    ∧ (r_status st' = OK → take i gs = gs) ∧ (paranoid_checks = false ∨ reads_quietly addr fuel r (recs s gs) → r_status st' = OK).
Proof using Hfresh HC Hspec HL.
  assert (∀ r r1 : Reader F, paranoid_checks = false → reported r r1 = OK) as Hoff by (intros r r1 ->; apply foldl_quiet).
  assert (∀ r r1 : Reader F, reports r1 = reports r → reported r r1 = OK) as Hquiet by (intros r r1 ->; by rewrite drop_all).
  induction gs as [|g gs IH]; intros s ops fuel r r' st Hread -> Hst Hok Hfit Hl Hmax; (destruct fuel as [|fuel]; [done|]);
    cbn [read_records recs concat] in *.
  - destruct (ReadRecord addr (S fuel) r) as [[[rec|] r1]|] eqn:E; cbn [mbind res_bind] in Hread; [|clear Hread|done].
    { destruct (read_records addr fuel r1) as [[l r2]|]; done. }
    cbn [recover_loop]. rewrite E, Hok. cbn [mbind res_bind]. eexists _, 0%nat. split; [reflexivity|].
    split; [change (all_ops (concat (take 0 []))) with (@nil batch_op); by rewrite app_nil_r|]. split; [done|].
    intros [Hp|Hq]; [by apply Hoff|]. by apply Hquiet, (quiet_read fuel r r1 _ _ Hq E).
  - destruct (ReadRecord addr (S fuel) r) as [[[rec|] r1]|] eqn:E; cbn [mbind res_bind] in Hread; [|done..].
    destruct (read_records addr fuel r1) as [[l r2]|] eqn:E1; [|done]. cbn [mbind res_bind] in Hread. injection Hread as -> -> ->.
    apply Forall_cons_1 in Hfit as [Hf Hfit], Hl as [Hl Hls]. rewrite all_ops_app, !length_app in Hmax.
    destruct (decide (reported r r1 = OK)) as [Hrep|Hrep].
    + destruct (recover_record ops g st Hst Hok Hf Hl) as (st1 & Hst1 & Hok1 & Hloop); [lia|]. rewrite (Hloop fuel r r1 E Hrep).
      destruct (IH (1 + zlen ops + zlen (all_ops g)) (ops ++ all_ops g) fuel r1 r' st1 E1) as (st' & i & Hrun & Hst' & Hall & Hq); [rewrite length_app; lia|done..|rewrite !length_app; lia|].
      exists st', (S i). split; [done|]. cbn [take concat]. rewrite all_ops_app, app_assoc. split; [done|]. split; [intros Hs; by rewrite (Hall Hs)|].
      intros [Hp|Hr]; apply Hq; [by left|right]. by apply (quiet_read fuel r r1 _ _ Hr E).
    + cbn [recover_loop]. rewrite E, Hok. cbn [mbind res_bind]. assert (Status.ok (reported r r1) = false) as -> by (by apply bool_decide_false). cbn [negb].
      eexists _, 0%nat. split; [reflexivity|]. split; [change (all_ops (concat (take 0 (g :: gs)))) with (@nil batch_op); by rewrite app_nil_r|].
      split; [done|]. intros [Hp|Hq]; exfalso; apply Hrep; [by apply Hoff|]. by apply Hquiet, (quiet_read fuel r r1 _ _ Hq E).
Qed.

Lemma RecoverLogFile_Ok gs fuel f r' (l : L) : read_records addr fuel (new_Reader f true true 0) = Ok (recs 1 gs, r') →
  l0_tables l = [] → Forall (λ g, Forall (fits ok) (all_ops g)) gs → Forall (λ g, zlen (all_ops g) < 2^31) gs →
  zlen (all_ops (concat gs)) < 2^56 →
  ∃ s mx l' vss vs i, @RecoverLogFile F _ _ C L _ fresh addr capacity write_buffer_size paranoid_checks fuel (OK, f) 0 l = Ok (s, mx, l')
    ∧ Forall2 minv (l0_tables l') vss ∧ concat vss ++ vs = versions_from 1 (all_ops (concat (take i gs)))
    ∧ (s = OK → take i gs = gs ∧ vs = [] ∧ mx = zlen (all_ops (concat gs)))
    ∧ (paranoid_checks = false ∨ reads_quietly addr fuel (new_Reader f true true 0) (recs 1 gs) → s = OK).
Proof using Hfresh HC Hspec HL.
  intros Hread Hl Hfit Hsmall Hmax. unfold RecoverLogFile. change (negb (Status.ok OK)) with false. cbv iota.
  destruct (recover_records gs 1 [] fuel _ r' (MkRecovery OK 0 None l) Hread) as (st & i & -> & (Hseq & vss & vs & Ht & Hm & Hvs) & Hall & Hq); try done.
  { split; [done|]. exists [], []. cbn [r_level0]. by rewrite Hl. }
  cbn [mbind res_bind app] in *. destruct (r_mem st) as [m|].
  - destruct Hm as [Hm Hr]. unfold Unref. rewrite Hr, cint_ok by (unfold int_min, int_max; lia). cbn [mbind res_bind].
    destruct (decide (r_status st = OK)) as [Hs|Hs].
    + rewrite Hs. change (Status.ok OK) with true. cbv iota. destruct (WriteLevel0_spec m (r_level0 st)) as (l' & -> & El).
      eexists _, _, l', (vss ++ [vs]), [], i. split; [done|]. rewrite El, concat_app. cbn [concat]. rewrite !app_nil_r.
      split; [by apply Forall2_app; [|constructor]|]. split; [done|]. split; [|done]. intros _. by rewrite Hseq, (Hall Hs).
    + assert (Status.ok (r_status st) = false) as -> by (by apply bool_decide_false). eexists _, _, (r_level0 st), vss, vs, i. by split_and!.
  - subst vs. eexists _, _, (r_level0 st), vss, [], i. split; [done|]. split; [done|]. split; [done|]. split; [|done]. intros Hs. by rewrite Hseq, (Hall Hs).
Qed.

(** The groups that were logged. *)
Lemma logged rs (db : DB W) : @db_inv W _ _ ok c rs db →
  ∃ gs j, log_holds (log_ db) (recs 1 gs) ∧ concat gs = take j rs ∧ (length (told_ db) ≤ j ≤ length rs)%nat
    ∧ Forall (λ g, zlen (all_ops g) < 2^31) gs.
Proof using.
  intros Hinv. destruct (inv_split rs db Hinv) as (dn & rest & Ers & Edn & Hdn & _ & _). destruct Hinv as [_ _ _ _ Hp].
  rewrite Edn in Hp. pose proof (f_equal length Ers) as Hlen. rewrite length_app in Hlen.
  assert (∀ gs, concat gs = dn → @stored W _ _ ok c gs db → ∃ gs j, log_holds (log_ db) (recs 1 gs) ∧ concat gs = take j rs
    ∧ (length (told_ db) ≤ j ≤ length rs)%nat ∧ Forall (λ g, zlen (all_ops g) < 2^31) gs) as Hdone.
  { intros gs Hgs (Hsmall & Hlog & _). exists gs, (length dn). rewrite Hgs. split; [done|].
    split; [by rewrite Ers, take_app_length|]. split; [lia|done]. }
  unfold phase_inv in Hp. destruct (phase_ db).
  - destruct Hp as (_ & gs & Hgs & Hst). by apply (Hdone gs).
  - destruct Hp as (_ & gs & _ & _ & Hgs & Hst). by apply (Hdone gs).
  - destruct Hp as (_ & _ & grp & gs & [(rest' & Er) _ _ _ _ _ _] & Hgs & Hsmall & Hlog & _).
    exists gs, (length (dn ++ grp)). pose proof (f_equal length Er) as Hl. rewrite !length_app in Hl.
    rewrite Hgs. split; [done|]. split; [by rewrite Er, app_assoc, take_app_length|]. rewrite length_app. split; [lia|done].
Qed.

Lemma concat_prefix {X} (gs : list (list X)) i : ∃ k, concat (take i gs) = take k (concat gs) ∧ (k ≤ length (concat gs))%nat.
Proof using.
  clear. exists (length (concat (take i gs))). pose proof (f_equal (@concat X) (take_drop i gs)) as E. rewrite concat_app in E.
  rewrite <-E, take_app_length, length_app. split; [done|lia].
Qed.

Lemma some_requests (rs : list request) gs j i : concat gs = take j rs → (j ≤ length rs)%nat → ∃ k, concat (take i gs) = take k rs ∧ (k ≤ length rs)%nat.
Proof using. intros Hgs Hj. destruct (concat_prefix gs i) as (k & -> & _). rewrite Hgs, take_take. exists (k `min` j)%nat. split; [done|lia]. Qed.

Lemma groups_fit gs : Forall (request_ok ok) (concat gs) → Forall (λ g, Forall (fits ok) (all_ops g)) gs.
Proof using.
  induction gs as [|g gs IH]; [done|]. cbn [concat]. intros [Hg Hgs]%Forall_app. constructor; [by apply all_fits|by apply IH].
Qed.

(** Claim C6. Recovery is safe: in any state that the write path can reach, if the log file loses
    all but its first [m] bytes, reading it again ends, and the tables that are written hold operations of the requests in their
    order, under their sequence numbers. If the status is OK, they hold, one
    after the other, exactly the operations of the first [j]
    requests, with their number as the last sequence number, and when no byte was lost, every
    request that was told is among them. The status is OK when no byte was lost, and without paranoid checks
    always; with them, a log that was cut may be refused. *)
Theorem db_recovery (dest : W) (rs : list request) (db : DB W) (f : F) (l : L) (m fuel : nat)
  (Hempty : wf_contents dest = []) (Hrun : @run W _ _ C fresh addr capacity write_buffer_size dest rs db)
  (Hrs : @requests_ok ok rs) (Hf : sf_rest f = take m (wf_contents (dest_ (log_ db)))) (Hl : l0_tables l = [])
  (Hfuel : (length (wf_contents (dest_ (log_ db))) < fuel)%nat) :
  ∃ s mx l' vss, @RecoverLogFile F _ _ C L _ fresh addr capacity write_buffer_size paranoid_checks fuel (OK, f) 0 l = Ok (s, mx, l')
    ∧ Forall2 minv (l0_tables l') vss ∧ concat vss `prefix_of` versions_from 1 (all_ops rs)
    ∧ (s = OK → ∃ j, (j ≤ length rs)%nat ∧ mx = zlen (all_ops (take j rs)) ∧ concat vss = versions_from 1 (all_ops (take j rs))
        ∧ ((length (wf_contents (dest_ (log_ db))) ≤ m)%nat → (length (told_ db) ≤ j)%nat))
    ∧ (paranoid_checks = false ∨ (length (wf_contents (dest_ (log_ db))) ≤ m)%nat → s = OK).
Proof using Haddr Hfresh HC Hspec HL.
  pose proof (run_inv fresh Hfresh addr Haddr capacity write_buffer_size dest rs db Hempty Hrun Hrs) as Hinv.
  destruct (logged rs db Hinv) as (gs & j & Hlog & Hgs & Hj & Hsmall). destruct Hrs as [Hok Hmax].
  assert (∃ i r', read_records addr fuel (new_Reader f true true 0) = Ok (recs 1 (take i gs), r')
    ∧ ((length (wf_contents (dest_ (log_ db))) ≤ m)%nat → take i gs = gs ∧ reads_quietly addr fuel (new_Reader f true true 0) (recs 1 gs))) as (i & r' & Hread & Hall).
  { destruct (le_lt_dec (length (wf_contents (dest_ (log_ db)))) m) as [Hm|Hm].
    - rewrite take_ge in Hf by done. destruct (read_records_holds addr Haddr (log_ db) _ f true true fuel Hlog Hf) as (r' & Hread & _); [by rewrite Hf|].
      exists (length gs), r'. rewrite firstn_all. split; [done|]. intros _. split; [done|]. apply (reads_quietly_holds addr Haddr (log_ db)); [done|done|by rewrite Hf].
    - destruct (read_records_prefix addr Haddr (log_ db) _ f true true fuel m Hlog Hf Hfuel) as (l0 & r' & Hread & Hpre).
      exists (length l0), r'. rewrite <-recs_take. split; [|lia]. destruct Hpre as (l1 & ->). by rewrite take_app_length. }
  assert (∀ i, ∃ k, concat (take i gs) = take k rs ∧ (k ≤ length rs)%nat) as Hsome by (intros; apply (some_requests rs gs j); [done|lia]).
  destruct (Hsome i) as (k & Hk & Hkr). destruct (RecoverLogFile_Ok (take i gs) fuel f r' l Hread Hl) as (s & mx & l' & vss & vs & i' & Hrun' & Hvss & Ev & Hs & Hq).
  { apply groups_fit. rewrite Hk. by apply Forall_take. }
  { by apply Forall_take. }
  { rewrite Hk. rewrite <-(take_drop k rs), all_ops_app, length_app in Hmax. lia. }
  exists s, mx, l', vss. split; [done|]. split; [done|]. split; [|split].
  - rewrite take_take in Ev. destruct (Hsome (i' `min` i)%nat) as (k' & Hk' & _). rewrite Hk' in Ev.
    exists (vs ++ versions_from (1 + zlen (all_ops (take k' rs))) (all_ops (drop k' rs))). by rewrite app_assoc, Ev, <-versions_app, <-all_ops_app, take_drop.
  - intros E. destruct (Hs E) as (Ei & -> & ->). rewrite Ei, Hk, app_nil_r in *. exists k. split; [done|]. split; [done|]. split; [done|].
    intros Hm. destruct (Hall Hm) as [Eall _]. rewrite Eall, Hgs in Hk. apply (f_equal length) in Hk. rewrite !length_take in Hk. lia.
  - intros [Hp|Hm]; apply Hq; [by left|right]. destruct (Hall Hm) as [-> Hquiet]. exact Hquiet.
Qed.
End recover.

(** With paranoid checks, and without. *)
Lemma db_recovery_witness : ∃ db, sample_db = Ok db ∧ Forall (λ paranoid_checks, ∃ s mx l' vss,
  @RecoverLogFile mem_reader _ bump_allocator BytewiseComparator (list MemTable) _ zeros (λ _, 0) (λ _, 0) 4194304 paranoid_checks
      (S (length (wf_contents (dest_ (log_ db))))) (OK, MemReader (take 40 (wf_contents (dest_ (log_ db))))) 0 [] = Ok (s, mx, l')
  ∧ Forall2 (@mem_inv short strcmp_aux) l' vss ∧ concat vss `prefix_of` versions_from 1 (all_ops (entered sample_events))
  ∧ (s = OK → ∃ j, (j ≤ 3)%nat ∧ mx = zlen (all_ops (take j (entered sample_events))) ∧ concat vss = versions_from 1 (all_ops (take j (entered sample_events)))
      ∧ ((length (wf_contents (dest_ (log_ db))) ≤ 40)%nat → (length (told_ db) ≤ j)%nat))
  ∧ (paranoid_checks = false ∨ (length (wf_contents (dest_ (log_ db))) ≤ 40)%nat → s = OK)) [false; true].
Proof.
  destruct sample_told as (db & E & _). exists db. split; [done|]. apply Forall_forall. intros paranoid_checks _.
  apply (@db_recovery mem_writer _ mem_writable_spec mem_reader _ mem_sequential_spec bump_allocator bump_spec BytewiseComparator short strcmp_aux
    bytewise_spec (list MemTable) _ list_level0_spec zeros zeros_length (λ _, 0) addr_0 (λ _, 0) 4194304 paranoid_checks (MemWriter []) (entered sample_events) db
    (MemReader (take 40 (wf_contents (dest_ (log_ db))))) [] 40 (S (length (wf_contents (dest_ (log_ db))))));
    [done|by apply sample_run|apply sample_requests|done|done|lia].
Defined.

(** Without its last byte the log is refused by paranoid checks. *)
Example cut_refused : match sample_db with
  | Ok db => let log := wf_contents (dest_ (log_ db)) in
      match @RecoverLogFile mem_reader _ bump_allocator BytewiseComparator (list MemTable) _ zeros (λ _, 0) (λ _, 0) 4194304 true
        (S (length log)) (OK, MemReader (take (pred (length log)) log)) 0 [] with Ok (s, _, _) => Status.ok s | Err _ => true end
  | Err _ => true
  end = false.
Proof. vm_compute. reflexivity. Qed.
