(* ===== verification/LruCache.v ===== *)
(** * The LRU cache: leveldb include/leveldb/cache.h, util/cache.cc

    Entries live in a heap indexed by address. A shard links the entries it holds in a circular
    list, from the oldest to the newest, and in the chains of a hash table; an entry that left
    the shard stays in the heap until its last handle is released, and is then passed to its
    deleter. The cache has sixteen shards, chosen by the first bits of the hash of a key. *)
From stdpp Require Import gmap.
From S2P Require Import Prelude Bloom.

#[local] Open Scope Z_scope.

(** [malloc] and [new]: an address that is not in use, nor NULL. *)
Class Malloc := malloc : gset Z → Z.

Definition NULL : Z := 0.

Record LRUHandle := MkHandle {
  h_value : Z; h_deleter : Z; h_next_hash : Z; h_next : Z; h_prev : Z; h_charge : Z; h_key_length : Z;
  h_refs : Z; h_hash : Z; h_key_data : list byte }.

Definition set_next (p : Z) (h : LRUHandle) : LRUHandle :=
  MkHandle (h_value h) (h_deleter h) (h_next_hash h) p (h_prev h) (h_charge h) (h_key_length h) (h_refs h) (h_hash h) (h_key_data h).
Definition set_prev (p : Z) (h : LRUHandle) : LRUHandle :=
  MkHandle (h_value h) (h_deleter h) (h_next_hash h) (h_next h) p (h_charge h) (h_key_length h) (h_refs h) (h_hash h) (h_key_data h).
Definition set_next_hash (p : Z) (h : LRUHandle) : LRUHandle :=
  MkHandle (h_value h) (h_deleter h) p (h_next h) (h_prev h) (h_charge h) (h_key_length h) (h_refs h) (h_hash h) (h_key_data h).
Definition set_refs (n : Z) (h : LRUHandle) : LRUHandle :=
  MkHandle (h_value h) (h_deleter h) (h_next_hash h) (h_next h) (h_prev h) (h_charge h) (h_key_length h) n (h_hash h) (h_key_data h).

(** [length_], [elems_], [list_]. *)
Record HandleTable := MkTable { length_ : Z; elems_ : Z; list_ : list Z }.

(** [lru_] is the address of the dummy head. *)
Record LRUCache := MkLRU { capacity_ : Z; usage_ : Z; lru_ : Z; table_ : HandleTable }.

(** A call of a deleter: which one, the key and the value. *)
Abbreviation deletion := (Z * list byte * Z)%type.

(** What the operations of a shard work on; the calls of deleters are recorded. *)
Record Lru := MkState { shard : LRUCache; heap : gmap Z LRUHandle; deleted : list deletion }.

Abbreviation lru := (st Lru).

Definition load (p : Z) : lru LRUHandle := λ s, match heap s !! p with Some h => Ok (h, s) | None => Err UB end.
Definition set_heap (m : gmap Z LRUHandle) (s : Lru) : Lru := MkState (shard s) m (deleted s).
(** [p->field = ...]. *)
Definition update (p : Z) (f : LRUHandle → LRUHandle) : lru unit :=
  h ← load p; modify (λ s, set_heap (<[p := f h]> (heap s)) s).

Definition set_shard (c : LRUCache) (s : Lru) : Lru := MkState c (heap s) (deleted s).
Definition set_table (t : HandleTable) : lru unit :=
  modify (λ s, set_shard (MkLRU (capacity_ (shard s)) (usage_ (shard s)) (lru_ (shard s)) t) s).
Definition set_usage (n : Z) : lru unit :=
  modify (λ s, set_shard (MkLRU (capacity_ (shard s)) n (lru_ (shard s)) (table_ (shard s))) s).

(** A handle whose [next] is itself has a slice in [value]; none is made here. *)
Definition handle_key (p : Z) : lru (list byte) :=
  h ← load p;
  if h_next h =? p then lift (Err UB) else mret (take (Z.to_nat (h_key_length h)) (h_key_data h)).

(** ** HandleTable *)

(** A place that holds a pointer: [&list_[i]], or [&p->next_hash]. *)
Inductive slot : Type :=
  | Bucket (i : Z)
  | NextHash (p : Z).

Definition get_slot (ptr : slot) : lru Z :=
  match ptr with
  | Bucket i => s ← get_st; lift (of_option (list_ (table_ (shard s)) !! Z.to_nat i))
  | NextHash p => h ← load p; mret (h_next_hash h)
  end.
Definition set_slot (ptr : slot) (v : Z) : lru unit :=
  match ptr with
  | Bucket i =>
      _ ← get_slot ptr; s ← get_st;
      let t := table_ (shard s) in set_table (MkTable (length_ t) (elems_ t) (<[Z.to_nat i := v]> (list_ t)))
  | NextHash p => update p (set_next_hash v)
  end.

Fixpoint find_loop (fuel : nat) (key : list byte) (hash : Z) (ptr : slot) : lru slot :=
  match fuel with
  | O => lift (Err Diverge)
  | S fuel =>
      p ← get_slot ptr;
      if p =? NULL then mret ptr
      else
        h ← load p;
        if negb (h_hash h =? hash) then find_loop fuel key hash (NextHash p)
        else
          k ← handle_key p;
          if negb (bool_decide (key = k)) then find_loop fuel key hash (NextHash p) else mret ptr
  end.

(** A chain is shorter than the heap. *)
Definition FindPointer (key : list byte) (hash : Z) : lru slot :=
  s ← get_st;
  find_loop (S (size (heap s))) key hash (Bucket (Z.land hash (u32 (length_ (table_ (shard s)) - 1)))).

Definition Table_Lookup (key : list byte) (hash : Z) : lru Z := ptr ← FindPointer key hash; get_slot ptr.

(** [while (new_length < elems_) new_length *= 2]: 32 doublings of an [uint32_t] give 0. *)
Fixpoint length_loop (fuel : nat) (elems new_length : Z) : res Z :=
  match fuel with
  | O => Err Diverge
  | S fuel => if new_length <? elems then length_loop fuel elems (u32 (new_length * 2)) else mret new_length
  end.

(** The chain from [h] on; [new_list] and [count] are passed. *)
Fixpoint move_chain (fuel : nat) (h : Z) (new_length : Z) (new_list : list Z) (count : Z) : lru (list Z * Z) :=
  match fuel with
  | O => lift (Err Diverge)
  | S fuel =>
      if h =? NULL then mret (new_list, count)
      else
        e ← load h;
        let next := h_next_hash e in
        let i := Z.to_nat (Z.land (h_hash e) (u32 (new_length - 1))) in
        first ← lift (of_option (new_list !! i));
        _ ← update h (set_next_hash first);
        move_chain fuel next new_length (<[i := h]> new_list) (u32 (count + 1))
  end.

(** The buckets that are left. *)
Fixpoint move_chains (buckets : list Z) (new_length : Z) (new_list : list Z) (count : Z) : lru (list Z * Z) :=
  match buckets with
  | [] => mret (new_list, count)
  | h :: buckets =>
      s ← get_st;
      '(new_list, count) ← move_chain (S (size (heap s))) h new_length new_list count;
      move_chains buckets new_length new_list count
  end.

Definition Resize : lru unit :=
  s ← get_st;
  let t := table_ (shard s) in
  new_length ← lift (length_loop 33 (elems_ t) 4);
  '(new_list, count) ← move_chains (take (Z.to_nat (length_ t)) (list_ t)) new_length (replicate (Z.to_nat new_length) NULL) 0;
  _ ← lift (c_assert (elems_ t =? count));
  set_table (MkTable new_length (elems_ t) new_list).

Definition Table_Insert (p : Z) : lru Z :=
  key ← handle_key p; h ← load p;
  ptr ← FindPointer key (h_hash h);
  old ← get_slot ptr;
  next ← (if old =? NULL then mret NULL else o ← load old; mret (h_next_hash o));
  _ ← update p (set_next_hash next);
  _ ← set_slot ptr p;
  if old =? NULL then
    s ← get_st;
    let t := table_ (shard s) in
    let elems := u32 (elems_ t + 1) in
    _ ← set_table (MkTable (length_ t) elems (list_ t));
    _ ← (if length_ t <? elems then Resize else mret tt);
    mret old
  else mret old.

Definition Table_Remove (key : list byte) (hash : Z) : lru Z :=
  ptr ← FindPointer key hash;
  result ← get_slot ptr;
  if result =? NULL then mret result
  else
    h ← load result;
    _ ← set_slot ptr (h_next_hash h);
    s ← get_st;
    let t := table_ (shard s) in
    _ ← set_table (MkTable (length_ t) (u32 (elems_ t - 1)) (list_ t));
    mret result.

(** ** LRUCache *)

Definition LRU_Remove (e : Z) : lru unit :=
  h ← load e; _ ← update (h_next h) (set_prev (h_prev h));
  h ← load e; update (h_prev h) (set_next (h_next h)).

Definition LRU_Append (e : Z) : lru unit :=
  s ← get_st;
  let head := lru_ (shard s) in
  _ ← update e (set_next head);
  l ← load head; _ ← update e (set_prev (h_prev l));
  h ← load e; _ ← update (h_prev h) (set_next e);
  h ← load e; update (h_next h) (set_prev e).

Definition log_deletion (d : deletion) (s : Lru) : Lru := MkState (shard s) (heap s) (deleted s ++ [d]).
Definition free (p : Z) : lru unit := _ ← load p; modify (λ s, set_heap (delete p (heap s)) s).

Definition Unref (e : Z) : lru unit :=
  h ← load e; _ ← lift (c_assert (0 <? h_refs h));
  let refs := u32 (h_refs h - 1) in
  _ ← update e (set_refs refs);
  if refs <=? 0 then
    s ← get_st; _ ← set_usage (u64 (usage_ (shard s) - h_charge h));
    key ← handle_key e; h ← load e;
    _ ← modify (log_deletion (h_deleter h, key, h_value h));
    free e
  else mret tt.

Definition LRU_Lookup (key : list byte) (hash : Z) : lru Z :=
  e ← Table_Lookup key hash;
  _ ← (if e =? NULL then mret tt
       else h ← load e; _ ← update e (set_refs (u32 (h_refs h + 1))); _ ← LRU_Remove e; LRU_Append e);
  mret e.

Definition LRU_Release (handle : Z) : lru unit := Unref handle.

Definition LRU_Erase (key : list byte) (hash : Z) : lru unit :=
  e ← Table_Remove key hash;
  if e =? NULL then mret tt else _ ← LRU_Remove e; Unref e.

(** [while (usage_ > capacity_ && lru_.next != &lru_)]. *)
Fixpoint evict_loop (fuel : nat) : lru unit :=
  match fuel with
  | O => lift (Err Diverge)
  | S fuel =>
      s ← get_st; l ← load (lru_ (shard s));
      if (capacity_ (shard s) <? usage_ (shard s)) && negb (h_next l =? lru_ (shard s)) then
        let old := h_next l in
        _ ← LRU_Remove old;
        key ← handle_key old; h ← load old; _ ← Table_Remove key (h_hash h);
        _ ← Unref old;
        evict_loop fuel
      else mret tt
  end.

Section malloc.
Context `{Malloc}.

(** [next] and [prev] of a new entry are not initialised: [garbage]. *)
Definition LRU_Insert (garbage : Z * Z) (key : list byte) (hash value charge deleter : Z) : lru Z :=
  s ← get_st;
  let e := malloc (dom (heap s)) in
  _ ← modify (λ s, set_heap (<[e := MkHandle value deleter NULL garbage.1 garbage.2 charge (zlen key) 2 hash key]> (heap s)) s);
  _ ← LRU_Append e;
  s ← get_st; _ ← set_usage (u64 (usage_ (shard s) + charge));
  old ← Table_Insert e;
  _ ← (if old =? NULL then mret tt else _ ← LRU_Remove old; Unref old);
  s ← get_st; _ ← evict_loop (S (size (heap s)));
  mret e.

(** The constructor: of the dummy head only the links are initialised. *)
Definition new_LRUCache (garbage : LRUHandle) (m : gmap Z LRUHandle) (log : list deletion) : res (unit * Lru) :=
  let head := malloc (dom m) in
  let s := MkState (MkLRU 0 0 head (MkTable 0 0 [])) (<[head := set_prev head (set_next head garbage)]> m) log in
  Resize s.

Definition SetCapacity (capacity : Z) (c : LRUCache) : LRUCache := MkLRU capacity (usage_ c) (lru_ c) (table_ c).

(** The destructor, from the entry [e] on. *)
Fixpoint destroy_loop (fuel : nat) (e : Z) : lru unit :=
  match fuel with
  | O => lift (Err Diverge)
  | S fuel =>
      s ← get_st;
      if e =? lru_ (shard s) then mret tt
      else
        h ← load e; let next := h_next h in
        _ ← lift (c_assert (h_refs h =? 1));
        _ ← Unref e; destroy_loop fuel next
  end.
Definition delete_LRUCache : lru unit :=
  s ← get_st; l ← load (lru_ (shard s)); destroy_loop (S (size (heap s))) (h_next l).

(** ** ShardedLRUCache *)

Definition kNumShardBits : Z := 4.
Definition kNumShards : Z := Z.shiftl 1 kNumShardBits.

Record ShardedLRUCache := MkCache {
  shard_ : list LRUCache; last_id_ : Z; c_heap : gmap Z LRUHandle; c_deleted : list deletion }.

Definition HashSlice (s : list byte) : Z := Hash s 0.
Definition Shard (hash : Z) : Z := Z.shiftr hash (32 - kNumShardBits).

Fixpoint new_shards (n : nat) (garbage : LRUHandle) (per_shard : Z) (m : gmap Z LRUHandle) (log : list deletion)
    : res (list LRUCache * gmap Z LRUHandle) :=
  match n with
  | O => mret ([], m)
  | S n =>
      '(_, s) ← new_LRUCache garbage m log;
      '(cs, m) ← new_shards n garbage per_shard (heap s) log;
      mret (SetCapacity per_shard (shard s) :: cs, m)
  end.

Definition NewLRUCache (garbage : LRUHandle) (capacity : Z) : res ShardedLRUCache :=
  let per_shard := u64 (capacity + (kNumShards - 1)) / kNumShards in
  '(cs, m) ← new_shards (Z.to_nat kNumShards) garbage per_shard ∅ [];
  mret (MkCache cs 0 m []).

(** An operation of shard [i]. *)
Definition on_shard {A} (i : Z) (op : lru A) (c : ShardedLRUCache) : res (A * ShardedLRUCache) :=
  sh ← of_option (shard_ c !! Z.to_nat i);
  '(a, s) ← op (MkState sh (c_heap c) (c_deleted c));
  mret (a, MkCache (<[Z.to_nat i := shard s]> (shard_ c)) (last_id_ c) (heap s) (deleted s)).

Definition Cache_Insert (garbage : Z * Z) (key : list byte) (value charge deleter : Z) : st ShardedLRUCache Z :=
  let hash := HashSlice key in on_shard (Shard hash) (LRU_Insert garbage key hash value charge deleter).
Definition Cache_Lookup (key : list byte) : st ShardedLRUCache Z :=
  let hash := HashSlice key in on_shard (Shard hash) (LRU_Lookup key hash).
Definition Cache_Release (handle : Z) : st ShardedLRUCache unit := λ c,
  h ← of_option (c_heap c !! handle); on_shard (Shard (h_hash h)) (LRU_Release handle) c.
Definition Cache_Erase (key : list byte) : st ShardedLRUCache unit :=
  let hash := HashSlice key in on_shard (Shard hash) (LRU_Erase key hash).
Definition Cache_Value (handle : Z) (c : ShardedLRUCache) : res Z :=
  h ← of_option (c_heap c !! handle); mret (h_value h).
Definition NewId : st ShardedLRUCache Z := λ c,
  let id := u64 (last_id_ c + 1) in mret (id, MkCache (shard_ c) id (c_heap c) (c_deleted c)).
End malloc.
