(* ===== verification/LruTable.v ===== *)
(** * The lists and the hash table of the LRU cache

    What the links of a heap represent, which changes of the heap keep it, and the operations
    on the circular list of a shard as operations on lists of addresses.

    The buckets of a table as lists of addresses; lookup, insertion, removal and resizing as
    operations on the set of their elements. *)
From stdpp Require Import gmap.
From S2P Require Import Prelude Bloom LruCache.

#[local] Open Scope Z_scope.

(** ** Runs *)

Lemma wp_load p h (Q : LRUHandle → Lru → Prop) s : heap s !! p = Some h → Q h s → wp (load p) Q s.
Proof. unfold wp, load. by intros ->. Qed.

Lemma wp_update p f h (Q : unit → Lru → Prop) s : heap s !! p = Some h → Q tt (set_heap (<[p := f h]> (heap s)) s) → wp (update p f) Q s.
Proof. intros Hp HQ. unfold update. apply wp_bind. by apply (wp_load p h). Qed.

(** ** Equality up to some fields *)

Definition same {A} (f : LRUHandle → A) (m m' : gmap Z LRUHandle) : Prop := ∀ p, f <$> m' !! p = f <$> m !! p.

Lemma same_refl {A} (f : LRUHandle → A) m : same f m m.
Proof. done. Qed.
Lemma same_trans {A} (f : LRUHandle → A) m1 m2 m3 : same f m1 m2 → same f m2 m3 → same f m1 m3.
Proof. intros H1 H2 p. by rewrite H2, H1. Qed.
Lemma same_insert {A} (f : LRUHandle → A) m m' p h h' : same f m m' → m' !! p = Some h → f h' = f h → same f m (<[p := h']> m').
Proof.
  intros Hs Hp Hf q. destruct (decide (p = q)) as [<-|Hne]; [|by rewrite lookup_insert_ne].
  rewrite lookup_insert_eq, <-Hs, Hp. simpl. by rewrite Hf.
Qed.
Lemma same_lookup {A} (f : LRUHandle → A) m m' p h : same f m m' → m !! p = Some h → ∃ h', m' !! p = Some h' ∧ f h' = f h.
Proof. intros Hs Hp. specialize (Hs p). rewrite Hp in Hs. destruct (m' !! p) as [h'|]; [|done]. injection Hs as Hs. by exists h'. Qed.
Lemma same_weaken {A B} (f : LRUHandle → A) (g : A → B) m m' : same f m m' → same (g ∘ f) m m'.
Proof. intros Hs p. rewrite !option_fmap_compose. by rewrite Hs. Qed.
Lemma same_dom {A} (f : LRUHandle → A) m m' : same f m m' → dom m' = dom m.
Proof.
  intros Hs. apply set_eq. intros p. rewrite !elem_of_dom. specialize (Hs p).
  destruct (m !! p), (m' !! p); try done; split; by intros []; eauto.
Qed.

(** All but the links of the circular list; all but those of the chains. *)
Definition unlinked (h : LRUHandle) : LRUHandle := set_next 0 (set_prev 0 h).
Definition unchained (h : LRUHandle) : LRUHandle := set_next_hash 0 h.

(** ** Circular lists *)

Definition nxt (m : gmap Z LRUHandle) (p : Z) : option Z := h_next <$> m !! p.
Definition prv (m : gmap Z LRUHandle) (p : Z) : option Z := h_prev <$> m !! p.

(** From [a], the links lead through [l]. *)
Fixpoint links (m : gmap Z LRUHandle) (a : Z) (l : list Z) : Prop :=
  match l with [] => True | b :: l => nxt m a = Some b ∧ prv m b = Some a ∧ links m b l end.
Definition circ (m : gmap Z LRUHandle) (head : Z) (ids : list Z) : Prop := links m head (ids ++ [head]).

Lemma links_app m a l1 b l2 : links m a (l1 ++ b :: l2) ↔ links m a (l1 ++ [b]) ∧ links m b l2.
Proof. revert a. induction l1 as [|x l1 IH]; intros a; simpl; [tauto|]. rewrite IH. tauto. Qed.

(** The last element of [a :: l]. *)
Fixpoint last_of (a : Z) (l : list Z) : Z := match l with [] => a | b :: l => last_of b l end.

Lemma last_of_snoc a l x : last_of a (l ++ [x]) = x.
Proof. revert a. induction l as [|b l IH]; intros a; [done|apply IH]. Qed.
Lemma last_of_in a l : last_of a l ∈ a :: l.
Proof. revert a. induction l as [|b l IH]; intros a; simpl; [left|]. right. apply IH. Qed.

Lemma links_snoc m a l x : links m a (l ++ [x]) ↔ links m a l ∧ nxt m (last_of a l) = Some x ∧ prv m x = Some (last_of a l).
Proof. revert a. induction l as [|b l IH]; intros a; simpl; [tauto|]. rewrite IH. tauto. Qed.

Lemma links_frame m m' a l : links m a l → NoDup (a :: l) →
  (∀ x, x ∈ a :: l → x ≠ last_of a l → nxt m' x = nxt m x) → (∀ x, x ∈ l → prv m' x = prv m x) → links m' a l.
Proof.
  revert a. induction l as [|b l IH]; intros a; [done|]. intros (H1 & H2 & H3) [Ha Hnd]%NoDup_cons Hn Hp. simpl in Hn |- *.
  split; [|split].
  - rewrite Hn; [done|left|]. intros ->. apply Ha, last_of_in.
  - rewrite Hp; [done|left].
  - apply IH; [done|done| |]; intros x Hx; [apply Hn|apply Hp]; by right.
Qed.

Lemma links_lookup m a l x : links m a l → x ∈ l → is_Some (m !! x).
Proof.
  revert a. induction l as [|b l IH]; intros a Hl Hx; [by apply elem_of_nil in Hx|]. destruct Hl as (_ & Hp & Hl).
  apply elem_of_cons in Hx as [->|Hx]; [|by apply (IH b)]. unfold prv in Hp. destruct (m !! b); [by eexists|done].
Qed.

Lemma nxt_insert m p h q : nxt (<[p := h]> m) q = if decide (p = q) then Some (h_next h) else nxt m q.
Proof. unfold nxt. case_decide as E; [subst; by rewrite lookup_insert_eq|by rewrite lookup_insert_ne]. Qed.
Lemma prv_insert m p h q : prv (<[p := h]> m) q = if decide (p = q) then Some (h_prev h) else prv m q.
Proof. unfold prv. case_decide as E; [subst; by rewrite lookup_insert_eq|by rewrite lookup_insert_ne]. Qed.

(** Joining the neighbours [a] and [b]. *)
Lemma circ_join m m' head pre e post : circ m head (pre ++ e :: post) → NoDup (head :: pre ++ e :: post) →
  let a := last_of head pre in let b := match post with [] => head | b :: _ => b end in
  nxt m' a = Some b → prv m' b = Some a →
  (∀ x, x ≠ a → nxt m' x = nxt m x) → (∀ x, x ≠ b → prv m' x = prv m x) → circ m' head (pre ++ post).
Proof.
  intros Hc Hnd a b Ha Hb Hn Hp. unfold circ in *. rewrite <-app_assoc in *. cbn [app] in Hc.
  apply links_app in Hc as [H1 H2]. apply links_snoc in H1 as (H1 & _).
  assert (∃ rest, post ++ [head] = b :: rest) as [rest Er] by (unfold b; destruct post; by eexists).
  rewrite Er in *. destruct H2 as (_ & _ & H2). apply links_app.
  apply NoDup_cons in Hnd as [Hh Hnd]. apply NoDup_app in Hnd as (Hnd1 & Hdis & Hnd2). apply NoDup_cons in Hnd2 as [He Hnd2].
  assert ((head ∉ pre) ∧ (head ∉ post)) as [Hh1 Hh2] by (rewrite elem_of_app, elem_of_cons in Hh; tauto).
  assert (b = head ∨ b ∈ post) as Hbin by (unfold b; destruct post; [by left|right; left]).
  assert (NoDup (b :: rest)) as Hndb.
  { rewrite <-Er. apply NoDup_app. split; [done|]. split; [|apply NoDup_singleton]. intros x Hx ->%list_elem_of_singleton. done. }
  split.
  - apply links_snoc. split; [|by split]. apply (links_frame m); [done|by constructor| |].
    + intros x _ Hx. by apply Hn.
    + intros x Hx. apply Hp. intros ->. destruct Hbin as [->|Hbin]; [done|]. apply (Hdis b Hx). by right.
  - apply (links_frame m); [done|done| |].
    + intros x Hx Hlast. apply Hn. intros ->. assert (a ∈ post) as Hin.
      { rewrite <-Er in Hx. apply elem_of_app in Hx as [?|Ea%list_elem_of_singleton]; [done|]. exfalso. apply Hlast.
        rewrite Ea. apply (f_equal (last_of 0)) in Er. rewrite last_of_snoc in Er. exact Er. }
      pose proof (last_of_in head pre) as Hl. fold a in Hl. apply elem_of_cons in Hl as [->|Hl]; [done|]. apply (Hdis a Hl). by right.
    + intros x Hx. apply Hp. intros ->. by apply NoDup_cons in Hndb as [? _].
Qed.

Lemma LRU_Remove_wp s head pre e post (Q : unit → Lru → Prop) : circ (heap s) head (pre ++ e :: post) → NoDup (head :: pre ++ e :: post) →
  (∀ m', circ m' head (pre ++ post) → same unlinked (heap s) m' → (∀ p, p ∉ head :: pre ++ post → m' !! p = heap s !! p) →
     Q tt (set_heap m' s)) → wp (LRU_Remove e) Q s.
Proof.
  intros Hc Hnd HQ. pose proof Hc as Hc'. unfold circ in Hc'. rewrite <-app_assoc in Hc'. cbn [app] in Hc'.
  apply links_app in Hc' as [H1 H2]. apply links_snoc in H1 as (H1 & Hna & Hpe).
  set (a := last_of head pre) in *. set (b := match post with [] => head | b :: _ => b end).
  assert (nxt (heap s) e = Some b ∧ prv (heap s) b = Some e) as [Hne Hpb] by (unfold b; destruct post; simpl in H2; tauto).
  unfold nxt, prv in Hna, Hpe, Hne, Hpb.
  destruct (heap s !! e) as [he|] eqn:Ee; [|done]. destruct (heap s !! a) as [ha|] eqn:Ea; [|done].
  destruct (heap s !! b) as [hb|] eqn:Eb; [|done]. injection Hpe as Hpe. injection Hne as Hne.
  assert (e ≠ a ∧ e ≠ b) as [Hea Heb].
  { apply NoDup_cons in Hnd as [Hh Hnd]. apply NoDup_app in Hnd as (_ & Hdis & [He _]%NoDup_cons).
    assert (head ≠ e) by (intros ->; apply Hh, elem_of_app; right; left). split; intros E.
    - pose proof (last_of_in head pre) as Hl. fold a in Hl. rewrite <-E in Hl. apply elem_of_cons in Hl as [?|Hl]; [done|]. apply (Hdis e Hl). left.
    - unfold b in E. destruct post; [done|]. apply He. rewrite E. left. }
  unfold LRU_Remove. apply wp_bind, (wp_load _ he); [done|]. rewrite Hne, Hpe.
  apply wp_bind, (wp_update _ _ hb); [done|]. cbn [set_heap heap].
  apply wp_bind, (wp_load _ he); [cbn [set_heap heap]; by rewrite lookup_insert_ne|]. rewrite Hpe, Hne.
  set (m1 := <[b := set_prev a hb]> (heap s)).
  assert (∃ ha1, m1 !! a = Some ha1 ∧ unlinked ha1 = unlinked ha ∧ h_prev ha1 = if decide (a = b) then a else h_prev ha) as (ha1 & Ha1 & Eu & Ep).
  { unfold m1. destruct (decide (a = b)) as [E|E]; [|rewrite lookup_insert_ne by done; by exists ha]. rewrite <-E in *. rewrite lookup_insert_eq.
    eexists. split; [done|]. rewrite Ea in Eb. by injection Eb as ->. }
  apply (wp_update _ _ ha1); [done|]. unfold set_heap at 1 2. cbn [shard heap deleted]. fold m1.
  apply (HQ (<[a := set_next b ha1]> m1)).
  - apply (circ_join (heap s) _ head pre e post); [done|done|..]; fold a b.
    + by rewrite nxt_insert, decide_True.
    + rewrite prv_insert. destruct (decide (a = b)) as [E|E]; [simpl; by rewrite Ep|].
      unfold m1. by rewrite prv_insert, decide_True.
    + intros x Hx. rewrite nxt_insert, decide_False by done. unfold m1. rewrite nxt_insert.
      destruct (decide (b = x)) as [E|E]; [|done]. subst x. unfold nxt. by rewrite Eb.
    + intros x Hx. rewrite prv_insert. destruct (decide (a = x)) as [E|E]; [|unfold m1; rewrite prv_insert; by rewrite decide_False by done].
      subst x. unfold prv. rewrite Ea. rewrite decide_False in Ep by done. simpl. by rewrite Ep.
  - apply (same_insert _ _ _ _ ha1); [|done|done]. by apply (same_insert _ _ _ _ hb).
  - intros p Hp. unfold m1. rewrite !lookup_insert_ne; [done|..]; intros <-; apply Hp.
    + unfold b. destruct post as [|x post]; [left|]. apply elem_of_cons. right. apply elem_of_app. right. left.
    + pose proof (last_of_in head pre) as Hl. fold a in Hl. apply elem_of_cons in Hl as [->|Hl]; [left|right]. apply elem_of_app. by left.
Qed.

(** Inserting [e] before the head, after the last element [a]. *)
Lemma circ_append m m' head ids e : circ m head ids → NoDup (head :: ids) → e ∉ head :: ids →
  let a := last_of head ids in
  nxt m' a = Some e → prv m' e = Some a → nxt m' e = Some head → prv m' head = Some e →
  (∀ x, x ≠ a → x ≠ e → nxt m' x = nxt m x) → (∀ x, x ≠ e → x ≠ head → prv m' x = prv m x) → circ m' head (ids ++ [e]).
Proof.
  intros Hc Hnd He a H1 H2 H3 H4 Hn Hp. unfold circ in *. apply links_snoc in Hc as (Hc & _).
  apply links_snoc. rewrite last_of_snoc. split; [|by split]. apply links_snoc. split; [|by split].
  apply (links_frame m); [done|done| |].
  - intros x Hx Hlast. apply Hn; [done|]. by intros ->.
  - intros x Hx. apply Hp; intros ->; [apply He; by right|]. by apply NoDup_cons in Hnd as [? _].
Qed.

Lemma LRU_Append_wp s ids e he (Q : unit → Lru → Prop) : let head := lru_ (shard s) in
  circ (heap s) head ids → NoDup (head :: ids) → e ∉ head :: ids → heap s !! e = Some he →
  (∀ m', circ m' head (ids ++ [e]) → same unlinked (heap s) m' → (∀ p, p ∉ head :: e :: ids → m' !! p = heap s !! p) →
     Q tt (set_heap m' s)) → wp (LRU_Append e) Q s.
Proof.
  intros head Hc Hnd He Hhe HQ. pose proof Hc as Hl. apply links_snoc in Hl as (_ & Hna & Hph).
  set (a := last_of head ids) in *. pose proof (last_of_in head ids) as Hain. fold a in Hain.
  assert (e ≠ a) as Hea by (by intros ->). assert (e ≠ head) as Heh by (intros ->; apply He; left).
  unfold nxt, prv in Hna, Hph. destruct (heap s !! a) as [ha|] eqn:Ea; [|done]. destruct (heap s !! head) as [hh|] eqn:Eh; [|done].
  injection Hna as Hna. injection Hph as Hph. unfold LRU_Append.
  apply wp_bind, (wp_intro _ _ _ s s); [done|]. fold head. apply wp_bind, (wp_update _ _ he); [done|].
  apply wp_bind, (wp_load _ hh); [cbn; by rewrite lookup_insert_ne|].
  apply wp_bind, (wp_update _ _ (set_next head he)); [cbn; by rewrite lookup_insert_eq|]. cbn [set_heap heap].
  rewrite insert_insert_eq, Hph. set (e2 := set_prev a (set_next head he)).
  apply wp_bind, (wp_load _ e2); [cbn; by rewrite lookup_insert_eq|]. cbn [e2 h_prev set_prev].
  apply wp_bind, (wp_update _ _ ha); [cbn; by rewrite lookup_insert_ne|]. cbn [set_heap heap].
  apply wp_bind, (wp_load _ e2); [cbn; by rewrite lookup_insert_ne, lookup_insert_eq by done|]. cbn [e2 h_next set_next set_prev].
  set (m3 := <[a := set_next e ha]> (<[e := e2]> (heap s))).
  assert (∃ h3, m3 !! head = Some h3 ∧ unlinked h3 = unlinked hh ∧ nxt m3 head = Some (h_next h3)) as (h3 & Eh3 & Eu & En).
  { unfold m3, nxt. destruct (decide (a = head)) as [E|E].
    - rewrite E in *. rewrite lookup_insert_eq. eexists. split; [done|]. split; [|done]. rewrite Eh in Ea. by injection Ea as ->.
    - rewrite !lookup_insert_ne by done. rewrite Eh. by exists hh. }
  apply (wp_update _ _ h3); [done|]. unfold set_heap at 1 2. cbn [shard heap deleted]. fold m3.
  assert (∀ x, nxt (<[head := set_prev e h3]> m3) x = nxt m3 x) as Hn4.
  { intros x. rewrite nxt_insert. destruct (decide (head = x)) as [<-|]; [|done]. by rewrite En. }
  apply (HQ (<[head := set_prev e h3]> m3)).
  - apply (circ_append (heap s)); [done|done|done|..]; fold a; rewrite ?Hn4.
    + unfold m3. by rewrite nxt_insert, decide_True.
    + rewrite prv_insert, decide_False by done. unfold m3. rewrite prv_insert, decide_False by done. by rewrite prv_insert, decide_True.
    + unfold m3. rewrite nxt_insert, decide_False by done. by rewrite nxt_insert, decide_True.
    + by rewrite prv_insert, decide_True.
    + intros x Hxa Hxe. rewrite Hn4. unfold m3. by rewrite !nxt_insert, !decide_False by done.
    + intros x Hxe Hxh. rewrite prv_insert, decide_False by done. unfold m3. rewrite prv_insert.
      destruct (decide (a = x)) as [<-|]; [unfold prv; by rewrite Ea|]. by rewrite prv_insert, decide_False by done.
  - apply (same_insert _ _ _ _ h3); [|done|done]. apply (same_insert _ _ _ _ ha); [|by rewrite lookup_insert_ne|done].
    by apply (same_insert _ _ _ _ he).
  - intros p Hp. unfold m3. rewrite !lookup_insert_ne; [done|..]; intros <-; apply Hp; [right; left| |left].
    apply elem_of_cons in Hain as [->|Hain]; [left|by do 2 right].
Qed.

(** ** Chains *)

(** The chain that starts with the pointer [p]. *)
Fixpoint chain (m : gmap Z LRUHandle) (p : Z) (c : list Z) : Prop :=
  match c with
  | [] => p = NULL
  | x :: c => p = x ∧ x ≠ NULL ∧ ∃ h, m !! x = Some h ∧ chain m (h_next_hash h) c
  end.

Lemma chain_frame m m' p c : chain m p c → (∀ x, x ∈ c → h_next_hash <$> m' !! x = h_next_hash <$> m !! x) → chain m' p c.
Proof.
  revert p. induction c as [|x c IH]; intros p; [done|]. intros (-> & Hx & h & Hm & Hc) Hs. simpl. split; [done|]. split; [done|].
  pose proof (Hs x ltac:(left)) as E. rewrite Hm in E. destruct (m' !! x) as [h'|]; [|done]. injection E as E.
  exists h'. rewrite E. split; [done|]. apply IH; [done|]. intros y Hy. apply Hs. by right.
Qed.

Lemma chain_same {A} (f : LRUHandle → A) (g : A → Z) m m' p c : h_next_hash = g ∘ f → same f m m' → chain m p c → chain m' p c.
Proof. intros Hg Hs Hc. apply (chain_frame m); [done|]. intros x _. rewrite Hg. by apply same_weaken. Qed.

(** The place of the pointer to what follows [pre] in bucket [i]. *)
Definition slot_after (i : Z) (pre : list Z) : slot := match last pre with None => Bucket i | Some x => NextHash x end.

Lemma slot_after_snoc i pre x : slot_after i (pre ++ [x]) = NextHash x.
Proof. unfold slot_after. by rewrite last_snoc. Qed.

Definition head_of (c : list Z) : Z := match c with [] => NULL | x :: _ => x end.

Lemma chain_head m p c : chain m p c → p = head_of c.
Proof. destruct c; simpl; tauto. Qed.

(** The part of a chain before the pointer [q]. *)
Fixpoint seg (m : gmap Z LRUHandle) (p : Z) (c : list Z) (q : Z) : Prop :=
  match c with
  | [] => p = q
  | x :: c => p = x ∧ x ≠ NULL ∧ ∃ h, m !! x = Some h ∧ seg m (h_next_hash h) c q
  end.

Lemma chain_app m p c1 c2 : chain m p (c1 ++ c2) ↔ ∃ q, seg m p c1 q ∧ chain m q c2.
Proof.
  revert p. induction c1 as [|x c1 IH]; intros p; simpl; [split; [by exists p|by intros (q & -> & ?)]|]. split.
  - intros (-> & Hx & h & Hm & (q & Hs & Hc)%IH). exists q. split; [|done]. split; [done|]. split; [done|]. by exists h.
  - intros (q & (-> & Hx & h & Hm & Hs) & Hc). split; [done|]. split; [done|]. exists h. split; [done|]. apply IH. by exists q.
Qed.

Lemma seg_snoc m p c x q : seg m p (c ++ [x]) q ↔ seg m p c x ∧ x ≠ NULL ∧ ∃ h, m !! x = Some h ∧ h_next_hash h = q.
Proof.
  revert p. induction c as [|y c IH]; intros p; simpl.
  - split; [|intros (-> & ? & ?); done]. by intros (-> & ? & ?).
  - split.
    + intros (-> & ? & h & Hm & (Hs & ? & ?)%IH). split; [|done]. split; [done|]. split; [done|]. by exists h.
    + intros ((-> & ? & h & Hm & Hs) & ? & ?). split; [done|]. split; [done|]. exists h. split; [done|]. by apply IH.
Qed.

Lemma seg_frame m m' p c q : seg m p c q → (∀ x, x ∈ c → h_next_hash <$> m' !! x = h_next_hash <$> m !! x) → seg m' p c q.
Proof.
  revert p. induction c as [|x c IH]; intros p; [done|]. intros (-> & Hx & h & Hm & Hc) Hs. simpl. split; [done|]. split; [done|].
  pose proof (Hs x ltac:(left)) as E. rewrite Hm in E. destruct (m' !! x) as [h'|]; [|done]. injection E as E.
  exists h'. rewrite E. split; [done|]. apply IH; [done|]. intros y Hy. apply Hs. by right.
Qed.

(** * The hash table of the LRU cache *)

Definition key_of (h : LRUHandle) : list byte := take (Z.to_nat (h_key_length h)) (h_key_data h).
Definition matches (m : gmap Z LRUHandle) (key : list byte) (hash : Z) (x : Z) : bool :=
  match m !! x with Some h => (h_hash h =? hash) && bool_decide (key = key_of h) | None => false end.

Record table_ok (m : gmap Z LRUHandle) (t : HandleTable) (cs : list (list Z)) : Prop := {
  tb_length : ∃ k, 2 ≤ k < 32 ∧ length_ t = 2^k;
  tb_list : zlen (list_ t) = length_ t;
  tb_chains : Forall2 (chain m) (list_ t) cs;
  tb_nodup : NoDup (concat cs);
  tb_elems : elems_ t = zlen (concat cs);
  tb_nodes : ∀ i c x, cs !! i = Some c → x ∈ c →
    ∃ h, m !! x = Some h ∧ h_next h ≠ x ∧ Z.land (h_hash h) (length_ t - 1) = Z.of_nat i }.

Definition with_table (t : HandleTable) (s : Lru) : Lru :=
  set_shard (MkLRU (capacity_ (shard s)) (usage_ (shard s)) (lru_ (shard s)) t) s.

Abbreviation tbl s := (table_ (shard s)).

Lemma chain_nodes m p c x : chain m p c → x ∈ c → is_Some (m !! x) ∧ x ≠ NULL.
Proof.
  revert p. induction c as [|y c IH]; intros p Hc Hx; [by apply elem_of_nil in Hx|]. destruct Hc as (_ & Hy & h & Hm & Hc).
  apply elem_of_cons in Hx as [->|Hx]; [by rewrite Hm|]. by apply (IH (h_next_hash h)).
Qed.

Lemma chain_short m p c : chain m p c → NoDup c → (length c ≤ size m)%nat.
Proof.
  intros Hc Hnd. rewrite <-size_dom, <-(size_list_to_set (C := gset Z) c Hnd). apply subseteq_size.
  intros x Hx%elem_of_list_to_set. apply elem_of_dom. by apply (chain_nodes m p c x).
Qed.

(** ** Places *)

Section slots.
Context (s : Lru) (cs : list (list Z)) (Hcs : Forall2 (chain (heap s)) (list_ (tbl s)) cs).

Lemma get_slot_Ok i pre rest : cs !! i = Some (pre ++ rest) → get_slot (slot_after (Z.of_nat i) pre) s = Ok (head_of rest, s).
Proof using Hcs.
  intros Hi. destruct (Forall2_lookup_r _ _ _ _ _ Hcs Hi) as (p0 & Hp0 & Hc). apply chain_app in Hc as (q & Hs & Hc).
  apply chain_head in Hc as ->. destruct (decide (pre = [])) as [->|Hne].
  - simpl in Hs. subst p0. unfold slot_after, get_slot. cbn [last]. unfold mbind, st_bind, get_st, lift.
    by rewrite Nat2Z.id, Hp0.
  - destruct (exists_last Hne) as (pre' & x & ->). rewrite slot_after_snoc. apply seg_snoc in Hs as (_ & _ & h & Hm & <-).
    unfold get_slot, mbind, st_bind, load. by rewrite Hm.
Qed.

Lemma find_loop_Ok key hash i rest : ∀ pre fuel, cs !! i = Some (pre ++ rest) → (length rest < fuel)%nat →
  (∀ x, x ∈ rest → ∃ h, heap s !! x = Some h ∧ h_next h ≠ x) →
  ∃ pre' rest', rest = pre' ++ rest' ∧ find_loop fuel key hash (slot_after (Z.of_nat i) pre) s = Ok (slot_after (Z.of_nat i) (pre ++ pre'), s)
    ∧ (∀ x, x ∈ pre' → matches (heap s) key hash x = false)
    ∧ match rest' with [] => True | x :: _ => matches (heap s) key hash x = true end.
Proof using Hcs.
  induction rest as [|x rest IH]; intros pre fuel Hi Hf Hk; (destruct fuel as [|fuel]; [simpl in Hf; lia|]); cbn [find_loop];
    (erewrite run_bind; [|by apply (get_slot_Ok i pre)]); cbv beta; cbn [head_of].
  - change (NULL =? NULL) with true. cbv iota. exists [], []. rewrite !app_nil_r. split_and!; try done. by intros x ?%elem_of_nil.
  - destruct (Hk x ltac:(left)) as (h & Hm & Hn). destruct (Forall2_lookup_r _ _ _ _ _ Hcs Hi) as (p0 & _ & Hc).
    destruct (chain_nodes _ _ _ x Hc) as [_ Hx0]; [apply elem_of_app; right; left|].
    replace (x =? NULL) with false by lia. erewrite run_bind; [|unfold load; by rewrite Hm]. cbv beta.
    assert (matches (heap s) key hash x = false →
      ∃ pre' rest', x :: rest = pre' ++ rest' ∧ find_loop fuel key hash (NextHash x) s = Ok (slot_after (Z.of_nat i) (pre ++ pre'), s)
        ∧ (∀ y, y ∈ pre' → matches (heap s) key hash y = false)
        ∧ match rest' with [] => True | y :: _ => matches (heap s) key hash y = true end) as Hnext.
    { intros Hmx. destruct (IH (pre ++ [x]) fuel) as (pre' & rest' & -> & E & Hp & Hr); [by rewrite <-app_assoc|simpl in Hf; lia|intros; apply Hk; by right|].
      rewrite slot_after_snoc in E. exists (x :: pre'), rest'. rewrite <-app_assoc in E. split; [done|]. split; [done|]. split; [|done].
      intros y [->|Hy]%elem_of_cons; [done|by apply Hp]. }
    unfold matches in Hnext at 1. rewrite Hm in Hnext. destruct (h_hash h =? hash) eqn:Eh; cbn [negb]; [|by apply Hnext].
    assert (handle_key x s = Ok (key_of h, s)) as Ek.
    { unfold handle_key, mbind, st_bind, load. rewrite Hm. by replace (h_next h =? x) with false by lia. }
    erewrite run_bind; [|exact Ek]. cbv beta. destruct (bool_decide (key = key_of h)) eqn:Eb; cbn [negb]; [|by apply Hnext].
    exists [], (x :: rest). rewrite app_nil_r. split_and!; try done; [by intros y ?%elem_of_nil|].
    unfold matches. by rewrite Hm, Eh, Eb.
Qed.

(** Replacing what follows [pre] by the chain [rest'], which starts at [q]. *)
Lemma set_slot_wp i pre rest q rest' (Q : unit → Lru → Prop) : cs !! i = Some (pre ++ rest) → NoDup (concat cs) →
  chain (heap s) q rest' → (∀ x, x ∈ pre → x ∉ rest') →
  (∀ m' l', Forall2 (chain m') l' (<[i := pre ++ rest']> cs) → length l' = length (list_ (tbl s)) → same unchained (heap s) m' →
     (∀ p, p ∉ pre → m' !! p = heap s !! p) →
     Q tt (set_heap m' (with_table (MkTable (length_ (tbl s)) (elems_ (tbl s)) l') s))) →
  wp (set_slot (slot_after (Z.of_nat i) pre) q) Q s.
Proof using Hcs.
  intros Hi Hnd Hq Hdis HQ. destruct (Forall2_lookup_r _ _ _ _ _ Hcs Hi) as (p0 & Hp0 & Hc).
  apply chain_app in Hc as (q0 & Hs & _). destruct (decide (pre = [])) as [->|Hne].
  - unfold slot_after, set_slot. cbn [last]. apply wp_bind, (wp_intro _ _ _ (head_of rest) s); [by apply (get_slot_Ok i [] rest)|].
    apply wp_bind, (wp_intro _ _ _ s s); [done|]. rewrite Nat2Z.id.
    apply (HQ (heap s)); [|by rewrite length_insert|done|done].
    apply Forall2_insert; [done|exact Hq].
  - destruct (exists_last Hne) as (pre' & x & ->). rewrite slot_after_snoc. unfold set_slot.
    pose proof Hs as Hs'. apply seg_snoc in Hs as (Hs & Hx & h & Hm & _).
    apply (wp_update _ _ h); [done|]. destruct s as [sh m dels] eqn:Es. destruct sh as [cap us hd [len el l]]. cbn [heap shard table_ list_ length_ elems_] in *.
    apply (HQ (<[x := set_next_hash q h]> m) l); [|done|by apply (same_insert _ _ _ _ h)|].
    2:{ intros p Hp. rewrite lookup_insert_ne; [done|]. intros <-. apply Hp, elem_of_app. right. left. }
    assert (NoDup (pre' ++ [x])) as Hndp.
    { destruct (concat_update cs i _ [] Hi) as (l1 & l2 & E & _). rewrite E in Hnd.
      apply NoDup_app in Hnd as (_ & _ & (Hnd & _)%NoDup_app). by apply NoDup_app in Hnd as (Hnd & _). }
    apply Forall2_same_length_lookup. split; [rewrite length_insert; by apply Forall2_length in Hcs|].
    intros j p c Hj Hcj. destruct (decide (i = j)) as [<-|Hij].
    + rewrite list_lookup_insert_eq in Hcj by (by apply lookup_lt_Some in Hi). injection Hcj as <-. rewrite Hp0 in Hj. injection Hj as <-.
      apply chain_app. exists q. split.
      * apply seg_snoc. split; [|split; [done|]].
        -- apply (seg_frame m); [done|]. intros y Hy. rewrite lookup_insert_ne; [done|]. intros <-.
           apply NoDup_app in Hndp as (_ & Hd & _). apply (Hd x Hy). left.
        -- eexists. by rewrite lookup_insert_eq.
      * apply (chain_frame m); [done|]. intros y Hy. rewrite lookup_insert_ne; [done|]. intros <-. apply (Hdis x); [|done].
        apply elem_of_app. right. left.
    + rewrite list_lookup_insert_ne in Hcj by done. destruct (Forall2_lookup_r _ _ _ _ _ Hcs Hcj) as (p' & Hp' & Hc).
      rewrite Hj in Hp'. injection Hp' as <-. apply (chain_frame m); [done|]. intros y Hy. rewrite lookup_insert_ne; [done|]. intros <-.
      apply (concat_apart cs i j _ c x Hnd Hi Hcj Hij); [|done]. apply elem_of_app. left. apply elem_of_app. right. left.
Qed.
End slots.

(** ** Lookups *)

Lemma bucket_index k hash : 2 ≤ k < 32 → Z.land hash (u32 (2^k - 1)) = hash mod 2^k ∧ 0 ≤ hash mod 2^k < 2^k.
Proof.
  intros Hk. assert (0 < 2^k) by lia. assert (2^k ≤ 2^31) by (apply Z.pow_le_mono_r; lia).
  split; [|by apply Z.mod_pos_bound]. rewrite u32_small by lia. rewrite <-Z.land_ones by lia. f_equal. rewrite Z.ones_equiv. lia.
Qed.

Lemma tbl_length m t cs : table_ok m t cs → length cs = Z.to_nat (length_ t).
Proof. intros H. rewrite <-(Forall2_length _ _ _ (tb_chains _ _ _ H)). pose proof (tb_list _ _ _ H). lia. Qed.

Lemma nodup_bucket (cs : list (list Z)) i c : NoDup (concat cs) → cs !! i = Some c → NoDup c.
Proof.
  intros Hnd Hi. destruct (concat_update cs i c [] Hi) as (l1 & l2 & E & _). rewrite E in Hnd.
  apply NoDup_app in Hnd as (_ & _ & (Hnd & _)%NoDup_app). done.
Qed.

Lemma FindPointer_Ok s cs key hash : table_ok (heap s) (tbl s) cs →
  ∃ i pre rest, FindPointer key hash s = Ok (slot_after (Z.of_nat i) pre, s) ∧ cs !! i = Some (pre ++ rest)
    ∧ Z.of_nat i = Z.land hash (length_ (tbl s) - 1)
    ∧ match rest with [] => ∀ x, x ∈ concat cs → matches (heap s) key hash x = false | x :: _ => matches (heap s) key hash x = true end.
Proof.
  intros Ht. destruct (tb_length _ _ _ Ht) as (k & Hk & Hlen). destruct (bucket_index k hash Hk) as [Hland Hrange].
  assert (2^k ≤ 2^31) by (apply Z.pow_le_mono_r; lia).
  assert (Z.land hash (length_ (tbl s) - 1) = hash mod 2^k) as Hland2 by (rewrite <-Hland, Hlen, u32_small by lia; done).
  set (i := Z.to_nat (hash mod 2^k)). assert (is_Some (cs !! i)) as [c Hc].
  { apply lookup_lt_is_Some. rewrite (tbl_length _ _ _ Ht), Hlen. unfold i. lia. }
  pose proof (tb_nodes _ _ _ Ht) as Hnodes. pose proof (tb_nodup _ _ _ Ht) as Hnd.
  destruct (Forall2_lookup_r _ _ _ _ _ (tb_chains _ _ _ Ht) Hc) as (p0 & _ & Hch).
  pose proof (chain_short _ _ _ Hch (nodup_bucket _ _ _ Hnd Hc)) as Hshort.
  destruct (find_loop_Ok s cs (tb_chains _ _ _ Ht) key hash i c [] (S (size (heap s)))) as (pre & rest & Ec & E & Hpre & Hrest); [done|lia| |].
  { intros x Hx. destruct (Hnodes i c x Hc Hx) as (h & Hm & Hn & _). by exists h. }
  exists i, pre, rest. cbn [app] in E. split.
  { unfold FindPointer, mbind, st_bind, get_st. rewrite Hlen, Hland. rewrite <-E. unfold slot_after. cbn [last]. do 2 f_equal.
    unfold i. lia. }
  split; [by rewrite <-Ec|]. split; [unfold i; lia|]. destruct rest as [|x rest]; [|done]. rewrite app_nil_r in Ec. subst c.
  intros x (j & c & Hj & Hx)%elem_concat. destruct (decide (i = j)) as [<-|Hij].
  - rewrite Hc in Hj. injection Hj as <-. by apply Hpre.
  - destruct (Hnodes j c x Hj Hx) as (h & Hm & _ & Hl). unfold matches. rewrite Hm. destruct (Z.eqb_spec (h_hash h) hash) as [E1|]; [|done].
    exfalso. apply Hij. rewrite E1, Hland2 in Hl. unfold i. lia.
Qed.

(** What the table has for a key. *)
Definition found (m : gmap Z LRUHandle) (l : list Z) (key : list byte) (hash : Z) (r : Z) : Prop :=
  (r = NULL ∧ ∀ x, x ∈ l → matches m key hash x = false) ∨ (r ≠ NULL ∧ r ∈ l ∧ matches m key hash r = true).

Lemma found_at s cs key hash i pre rest : table_ok (heap s) (tbl s) cs → cs !! i = Some (pre ++ rest) →
  match rest with [] => ∀ x, x ∈ concat cs → matches (heap s) key hash x = false | x :: _ => matches (heap s) key hash x = true end →
  found (heap s) (concat cs) key hash (head_of rest).
Proof.
  intros Ht Hi Hr. destruct rest as [|x rest]; [by left|]. right. cbn [head_of].
  destruct (Forall2_lookup_r _ _ _ _ _ (tb_chains _ _ _ Ht) Hi) as (p0 & _ & Hc).
  assert (x ∈ pre ++ x :: rest) as Hx by (apply elem_of_app; right; left). split; [by apply (chain_nodes _ _ _ _ Hc)|]. split; [|done].
  apply elem_concat. by exists i, (pre ++ x :: rest).
Qed.

Lemma Table_Lookup_Ok s cs key hash : table_ok (heap s) (tbl s) cs →
  ∃ r, Table_Lookup key hash s = Ok (r, s) ∧ found (heap s) (concat cs) key hash r.
Proof.
  intros Ht. destruct (FindPointer_Ok s cs key hash Ht) as (i & pre & rest & E & Hi & _ & Hr).
  exists (head_of rest). split; [|by apply (found_at s cs key hash i pre)]. unfold Table_Lookup.
  erewrite run_bind; [|exact E]. cbv beta. apply (get_slot_Ok s cs (tb_chains _ _ _ Ht) i pre rest Hi).
Qed.

(** The nodes keep what the table needs of them. *)
Lemma nodes_same m m' (cs : list (list Z)) len : same unchained m m' →
  (∀ i c x, cs !! i = Some c → x ∈ c → ∃ h, m !! x = Some h ∧ h_next h ≠ x ∧ Z.land (h_hash h) (len - 1) = Z.of_nat i) →
  (∀ i c x, cs !! i = Some c → x ∈ c → ∃ h, m' !! x = Some h ∧ h_next h ≠ x ∧ Z.land (h_hash h) (len - 1) = Z.of_nat i).
Proof.
  intros Hs Hn i c x Hi Hx. destruct (Hn i c x Hi Hx) as (h & Hm & H1 & H2). destruct (same_lookup _ _ _ _ _ Hs Hm) as (h' & Hm' & E).
  exists h'. split; [done|]. pose proof (f_equal h_next E) as E1. pose proof (f_equal h_hash E) as E2. cbn in E1, E2. by rewrite E1, E2.
Qed.

Lemma Table_Remove_wp s cs key hash (Q : Z → Lru → Prop) : table_ok (heap s) (tbl s) cs →
  zlen (concat cs) < 2^32 →
  (((∀ x, x ∈ concat cs → matches (heap s) key hash x = false) → Q NULL s)
   ∧ ∀ r m' t' cs', r ≠ NULL → matches (heap s) key hash r = true → concat cs ≡ₚ r :: concat cs' → table_ok m' t' cs' →
       same unchained (heap s) m' → (∀ p, p ∉ concat cs → m' !! p = heap s !! p) → Q r (set_heap m' (with_table t' s))) →
  wp (Table_Remove key hash) Q s.
Proof.
  intros Ht Hsize [HQ0 HQ]. destruct (FindPointer_Ok s cs key hash Ht) as (i & pre & rest & E & Hi & _ & Hr).
  pose proof (tb_chains _ _ _ Ht) as Hcs. pose proof (tb_nodup _ _ _ Ht) as Hnd.
  unfold Table_Remove. apply wp_bind, (wp_intro _ _ _ _ _ E). apply wp_bind, (wp_intro _ _ _ _ _ (get_slot_Ok s cs Hcs i pre rest Hi)).
  destruct (found_at s cs key hash i pre rest Ht Hi Hr) as [[E0 Hnone]|(Hne & _ & Hm)].
  { rewrite E0. change (NULL =? NULL) with true. cbv iota. apply wp_ret, HQ0, Hnone. }
  destruct rest as [|r rest]; [done|]. cbn [head_of] in *. replace (r =? NULL) with false by (unfold NULL in *; lia).
  destruct (Forall2_lookup_r _ _ _ _ _ Hcs Hi) as (p0 & _ & Hc). apply chain_app in Hc as (q & _ & (-> & _ & h & Hmr & Hc)).
  apply wp_bind, (wp_load _ h); [done|]. pose proof (nodup_bucket _ _ _ Hnd Hi) as Hndb.
  apply NoDup_app in Hndb as (_ & Hdis & (Hrr & Hndr)%NoDup_cons).
  apply wp_bind, (set_slot_wp s cs Hcs i pre (r :: rest) (h_next_hash h) rest); [done|done|done|intros x Hx Hx'; apply (Hdis x Hx); by right|].
  intros m' l' Hcs' Hll Hsame Hframe. apply wp_bind, (wp_intro _ _ _ _ _ eq_refl). apply wp_bind, wp_modify, wp_ret.
  destruct (concat_update cs i _ (pre ++ rest) Hi) as (l1 & l2 & E1 & E2).
  assert (concat cs ≡ₚ r :: concat (<[i := pre ++ rest]> cs)) as Hperm.
  { rewrite E1, E2, <-!app_assoc. cbn [app]. by rewrite !Permutation_middle. }
  set (t' := MkTable (length_ (tbl s)) (u32 (elems_ (tbl s) - 1)) l').
  apply (HQ r m' t' (<[i := pre ++ rest]> cs)); [done|done|done| |done|].
  - pose proof (Permutation_length Hperm) as Hpl. cbn [length] in Hpl. split; cbn [t' length_ list_ elems_].
    + apply Ht.
    + rewrite Hll. apply Ht.
    + done.
    + rewrite Hperm in Hnd. by apply NoDup_cons in Hnd as [_ ?].
    + rewrite (tb_elems _ _ _ Ht), u32_small by lia. lia.
    + apply (nodes_same (heap s)); [done|]. intros j c x Hj Hx. destruct (decide (i = j)) as [<-|Hij].
      * rewrite list_lookup_insert_eq in Hj by (by apply lookup_lt_Some in Hi). injection Hj as <-.
        apply (tb_nodes _ _ _ Ht i (pre ++ r :: rest)); [done|]. rewrite elem_of_app, elem_of_cons. apply elem_of_app in Hx. tauto.
      * rewrite list_lookup_insert_ne in Hj by done. by apply (tb_nodes _ _ _ Ht j c).
  - intros p Hp. apply Hframe. intros Hin. apply Hp, elem_concat. exists i, (pre ++ r :: rest). split; [done|]. apply elem_of_app. by left.
Qed.

(** ** Resizing *)

Lemma length_loop_Ok elems fuel : ∀ k, 2 ≤ k < 32 → elems ≤ 2^31 → 32 - k < Z.of_nat fuel →
  ∃ k', length_loop fuel elems (2^k) = Ok (2^k') ∧ 2 ≤ k' < 32.
Proof.
  induction fuel as [|fuel IH]; intros k Hk He Hf; [lia|]. cbn [length_loop].
  destruct (Z.ltb_spec (2^k) elems); [|by exists k]. assert (k < 31).
  { destruct (decide (k = 31)) as [->|]; lia. }
  assert (2^(k+1) = 2^k * 2) as E by (rewrite Z.pow_add_r by lia; done). assert (2^(k+1) ≤ 2^31) by (apply Z.pow_le_mono_r; lia).
  rewrite u32_small, <-E by lia. apply IH; lia.
Qed.

(** New buckets for [2^k] lists. *)
Record filled (m : gmap Z LRUHandle) (k : Z) (nl : list Z) (ncs : list (list Z)) : Prop := {
  fl_length : zlen nl = 2^k;
  fl_chains : Forall2 (chain m) nl ncs;
  fl_nodup : NoDup (concat ncs);
  fl_nodes : ∀ i c x, ncs !! i = Some c → x ∈ c →
    ∃ h, m !! x = Some h ∧ h_next h ≠ x ∧ Z.land (h_hash h) (2^k - 1) = Z.of_nat i }.

(** Moving one node to its bucket. *)
Lemma filled_move m k nl ncs x h : 2 ≤ k < 32 → filled m k nl ncs → m !! x = Some h → h_next h ≠ x → x ≠ NULL → x ∉ concat ncs →
  let i := Z.to_nat (Z.land (h_hash h) (u32 (2^k - 1))) in
  ∃ first ncs', nl !! i = Some first ∧ filled (<[x := set_next_hash first h]> m) k (<[i := x]> nl) ncs'
    ∧ concat ncs' ≡ₚ x :: concat ncs.
Proof.
  intros Hk [Hl Hc Hnd Hn] Hm Hx Hx0 Hin i. destruct (bucket_index k (h_hash h) Hk) as [Hland Hr].
  assert (i < length nl)%nat as Hi by (unfold i; rewrite Hland; lia).
  destruct (lookup_lt_is_Some_2 _ _ Hi) as [first Hfirst]. destruct (Forall2_lookup_l _ _ _ _ _ Hc Hfirst) as (c & Hci & Hch).
  destruct (concat_update ncs i c (x :: c) Hci) as (l1 & l2 & E1 & E2).
  assert (concat (<[i := x :: c]> ncs) ≡ₚ x :: concat ncs) as Hperm by (rewrite E1, E2; symmetry; apply Permutation_middle).
  exists first, (<[i := x :: c]> ncs). split; [done|]. split; [|done].
  assert (∀ c' p, chain m p c' → (∀ y, y ∈ c' → y ∈ concat ncs) → chain (<[x := set_next_hash first h]> m) p c') as Hkeep.
  { intros c' p Hch' Hsub. apply (chain_frame m); [done|]. intros y Hy. rewrite lookup_insert_ne; [done|]. intros <-. by apply Hin, Hsub. }
  assert (2^k ≤ 2^31) by (apply Z.pow_le_mono_r; lia).
  split.
  - by rewrite length_insert.
  - apply Forall2_same_length_lookup. split; [rewrite !length_insert; by apply Forall2_length in Hc|].
    intros j p c' Hj Hcj. destruct (decide (i = j)) as [<-|Hij].
    + rewrite list_lookup_insert_eq in Hj by done. rewrite list_lookup_insert_eq in Hcj by (by apply lookup_lt_Some in Hci).
      injection Hj as <-. injection Hcj as <-. split; [done|]. split; [done|]. eexists. split; [by rewrite lookup_insert_eq|].
      apply Hkeep; [done|]. intros y Hy. apply elem_concat. by exists i, c.
    + rewrite list_lookup_insert_ne in Hj by done. rewrite list_lookup_insert_ne in Hcj by done. apply Hkeep; [by apply (Forall2_lookup_lr _ _ _ _ _ _ Hc Hj Hcj)|].
      intros y Hy. apply elem_concat. by exists j, c'.
  - rewrite Hperm. by apply NoDup_cons.
  - intros j c' y Hj Hy. destruct (decide (y = x)) as [->|Hyx].
    + assert (j = i) as ->.
      { destruct (decide (i = j)) as [->|Hij]; [done|]. rewrite list_lookup_insert_ne in Hj by done. exfalso. apply Hin, elem_concat. by exists j, c'. }
      eexists. split; [by rewrite lookup_insert_eq|]. split; [done|]. cbn [set_next_hash h_hash].
      unfold i. rewrite u32_small in * by lia. lia.
    + rewrite lookup_insert_ne by done. destruct (decide (i = j)) as [<-|Hij].
      * rewrite list_lookup_insert_eq in Hj by (by apply lookup_lt_Some in Hci). injection Hj as <-.
        apply (Hn i c); [done|]. by apply elem_of_cons in Hy as [?|?].
      * rewrite list_lookup_insert_ne in Hj by done. by apply (Hn j c').
Qed.

Lemma filled_same m m' k nl ncs : filled m k nl ncs → (∀ x, x ∈ concat ncs → m' !! x = m !! x) → filled m' k nl ncs.
Proof.
  intros [Hl Hc Hnd Hn] Hs. split; [done| |done|].
  - apply Forall2_same_length_lookup. split; [by apply Forall2_length in Hc|]. intros i p c Hi Hci.
    apply (chain_frame m); [by apply (Forall2_lookup_lr _ _ _ _ _ _ Hc Hi Hci)|]. intros x Hx. rewrite Hs; [done|]. apply elem_concat. by exists i, c.
  - intros i c x Hi Hx. rewrite Hs; [by apply (Hn i c)|]. apply elem_concat. by exists i, c.
Qed.

Lemma move_chain_Ok k c : 2 ≤ k < 32 → ∀ fuel s p nl ncs, chain (heap s) p c → filled (heap s) k nl ncs → NoDup (c ++ concat ncs) →
  (∀ x, x ∈ c → ∃ h, heap s !! x = Some h ∧ h_next h ≠ x) → zlen (c ++ concat ncs) < 2^32 → (length c < fuel)%nat →
  ∃ m' nl' ncs', move_chain fuel p (2^k) nl (zlen (concat ncs)) s = Ok (nl', zlen (concat ncs'), set_heap m' s)
    ∧ filled m' k nl' ncs' ∧ concat ncs' ≡ₚ c ++ concat ncs ∧ same unchained (heap s) m' ∧ (∀ p, p ∉ c → m' !! p = heap s !! p).
Proof.
  intros Hk. induction c as [|x c IH]; intros fuel s p nl ncs Hc Hf Hnd Hn Hsize Hfuel; (destruct fuel as [|fuel]; [simpl in Hfuel; lia|]); cbn [move_chain].
  - rewrite Hc. change (NULL =? NULL) with true. exists (heap s), nl, ncs. destruct s. by split_and!.
  - destruct Hc as (-> & Hx0 & h & Hm & Hc). replace (x =? NULL) with false by lia.
    apply NoDup_cons in Hnd as [Hx Hnd]. assert (x ∉ concat ncs) as Hxn by (rewrite elem_of_app in Hx; tauto).
    assert (x ∉ c) as Hxc by (rewrite elem_of_app in Hx; tauto).
    destruct (Hn x ltac:(left)) as (h' & Hm' & Hnx). rewrite Hm in Hm'. injection Hm' as <-.
    destruct (filled_move (heap s) k nl ncs x h Hk Hf Hm Hnx Hx0 Hxn) as (first & ncs1 & Hfirst & Hf1 & Hp1).
    erewrite run_bind; [|unfold load; by rewrite Hm]. cbv beta zeta.
    erewrite run_bind; [|apply run_lift; by rewrite Hfirst]. cbv beta.
    erewrite run_bind; [|unfold update, mbind, st_bind, load; by rewrite Hm]. cbv beta.
    pose proof (Permutation_length Hp1) as Hlen. cbn [length] in Hlen. cbn [app length] in Hsize. rewrite length_app in Hsize.
    set (s1 := set_heap (<[x := set_next_hash first h]> (heap s)) s).
    assert (NoDup (c ++ concat ncs1)) as Hnd1.
    { rewrite Hp1. rewrite <-Permutation_middle. by apply NoDup_cons. }
    destruct (IH fuel s1 (h_next_hash h) (<[Z.to_nat (Z.land (h_hash h) (u32 (2^k - 1))) := x]> nl) ncs1) as (m' & nl' & ncs' & E & Hf' & Hp' & Hs' & Hfr').
    + apply (chain_frame (heap s)); [done|]. intros y Hy. cbn [s1 set_heap heap]. rewrite lookup_insert_ne; [done|]. by intros <-.
    + exact Hf1.
    + done.
    + intros y Hy. cbn [s1 set_heap heap]. rewrite lookup_insert_ne by (by intros <-). apply Hn. by right.
    + rewrite length_app, Hlen. lia.
    + simpl in Hfuel. lia.
    + exists m', nl', ncs'. split; [|split; [done|split; [|split]]].
      * rewrite (u32_small (zlen (concat ncs) + 1)) by lia. replace (zlen (concat ncs) + 1) with (zlen (concat ncs1)) by lia. exact E.
      * rewrite Hp', Hp1. symmetry. apply Permutation_middle.
      * apply (same_trans _ _ (heap s1)); [|done]. by apply (same_insert _ _ _ _ h).
      * intros q Hq. rewrite Hfr' by (intros Hq'; apply Hq; by right). cbn [s1 set_heap heap]. rewrite lookup_insert_ne; [done|].
        intros <-. apply Hq. left.
Qed.

Lemma move_chains_Ok k cs : 2 ≤ k < 32 → ∀ s buckets nl ncs, Forall2 (chain (heap s)) buckets cs → filled (heap s) k nl ncs →
  NoDup (concat cs ++ concat ncs) → (∀ x, x ∈ concat cs → ∃ h, heap s !! x = Some h ∧ h_next h ≠ x) →
  zlen (concat cs ++ concat ncs) < 2^32 →
  ∃ m' nl' ncs', move_chains buckets (2^k) nl (zlen (concat ncs)) s = Ok (nl', zlen (concat ncs'), set_heap m' s)
    ∧ filled m' k nl' ncs' ∧ concat ncs' ≡ₚ concat cs ++ concat ncs ∧ same unchained (heap s) m'
    ∧ (∀ p, p ∉ concat cs → m' !! p = heap s !! p).
Proof.
  intros Hk. induction cs as [|c cs IH]; intros s buckets nl ncs Hcs Hf Hnd Hn Hsize.
  - apply Forall2_nil_inv_r in Hcs as ->. exists (heap s), nl, ncs. destruct s. by split_and!.
  - apply Forall2_cons_inv_r in Hcs as (p & buckets' & Hc & Hcs & ->). cbn [move_chains concat] in *. rewrite <-app_assoc in Hnd, Hsize.
    rename buckets' into buckets. apply NoDup_app in Hnd as (Hndc & Hdis & Hnd2). pose proof Hnd2 as Hnd2'. apply NoDup_app in Hnd2' as (Hnd3 & Hdis3 & Hnd4).
    rewrite !length_app in Hsize.
    destruct (move_chain_Ok k c Hk (S (size (heap s))) s p nl ncs Hc Hf) as (m1 & nl1 & ncs1 & E1 & Hf1 & Hp1 & Hs1 & Hfr1).
    + apply NoDup_app. split; [done|]. split; [|done]. intros x Hx Hx'. apply (Hdis x Hx), elem_of_app. by right.
    + intros x Hx. apply Hn, elem_of_app. by left.
    + rewrite length_app. lia.
    + pose proof (chain_short _ _ _ Hc Hndc). lia.
    + assert (∀ x, x ∈ concat cs → x ∉ c) as Hxc by (intros x Hx Hx'; apply (Hdis x Hx'), elem_of_app; by left).
      erewrite run_bind; [|done]. cbv beta. erewrite run_bind; [|exact E1]. cbv beta iota.
      destruct (IH (set_heap m1 s) buckets nl1 ncs1) as (m' & nl' & ncs' & E & Hf' & Hp' & Hs' & Hfr'); cbn [set_heap heap].
      * apply Forall2_same_length_lookup. split; [by apply Forall2_length in Hcs|]. intros i q d Hi Hd.
        apply (chain_frame (heap s)); [by apply (Forall2_lookup_lr _ _ _ _ _ _ Hcs Hi Hd)|]. intros x Hx. rewrite Hfr1; [done|].
        apply Hxc, elem_concat. by exists i, d.
      * done.
      * rewrite Hp1. apply NoDup_app. split; [done|]. split; [|apply NoDup_app; split; [done|]; split; [|done]].
        -- intros x Hx [Hx'|Hx']%elem_of_app; [by apply (Hxc x)|by apply (Hdis3 x)].
        -- intros x Hx Hx'. apply (Hdis x Hx), elem_of_app. by right.
      * intros x Hx. rewrite Hfr1 by by apply Hxc. apply Hn, elem_of_app. by right.
      * rewrite length_app. rewrite (Permutation_length Hp1), length_app. lia.
      * exists m', nl', ncs'. split; [exact E|]. split; [done|]. split; [|split].
        -- rewrite Hp', Hp1, app_assoc. rewrite (Permutation_app_comm (concat cs)). by rewrite <-app_assoc.
        -- by apply (same_trans _ _ m1).
        -- intros q Hq. rewrite elem_of_app in Hq. cbn [set_heap heap] in Hfr'. rewrite Hfr', Hfr1; tauto.
Qed.

Lemma Resize_wp s cs (Q : unit → Lru → Prop) :
  Forall2 (chain (heap s)) (list_ (tbl s)) cs → zlen (list_ (tbl s)) = length_ (tbl s) → NoDup (concat cs) →
  elems_ (tbl s) = zlen (concat cs) → zlen (concat cs) ≤ 2^31 →
  (∀ x, x ∈ concat cs → ∃ h, heap s !! x = Some h ∧ h_next h ≠ x) →
  (∀ m' t' cs', table_ok m' t' cs' → concat cs' ≡ₚ concat cs → same unchained (heap s) m' →
     (∀ p, p ∉ concat cs → m' !! p = heap s !! p) → Q tt (set_heap m' (with_table t' s))) →
  wp Resize Q s.
Proof.
  intros Hcs Hl Hnd He Hsize Hn HQ. unfold Resize. apply wp_bind, (wp_intro _ _ _ _ _ eq_refl).
  destruct (length_loop_Ok (elems_ (tbl s)) 33 2) as (k & Ek & Hk); [lia|lia|lia|]. change (2^2) with 4 in Ek.
  apply wp_bind, (wp_lift _ (2^k)); [done|]. rewrite take_ge by lia.
  assert (0 < 2^k) by lia. set (nl := replicate (Z.to_nat (2^k)) NULL). set (ncs := replicate (Z.to_nat (2^k)) (@nil Z)).
  assert (concat ncs = []) as Enil by (unfold ncs; generalize (Z.to_nat (2^k)) as n; induction n; done).
  assert (filled (heap s) k nl ncs) as Hf.
  { split; [unfold nl; rewrite length_replicate; lia| |rewrite Enil; constructor|].
    - unfold nl, ncs. generalize (Z.to_nat (2^k)) as n. induction n; constructor; done.
    - intros i c x Hi Hx. apply lookup_replicate in Hi as [-> _]. by apply elem_of_nil in Hx. }
  destruct (move_chains_Ok k cs Hk s (list_ (tbl s)) nl ncs Hcs Hf) as (m' & nl' & ncs' & E & Hf' & Hp' & Hs' & Hfr');
    rewrite ?Enil, ?app_nil_r in *; [done|done|lia|].
  apply wp_bind, (wp_intro _ _ _ _ _ E). cbv beta iota. rewrite He, (Permutation_length Hp'), Z.eqb_refl.
  apply wp_bind, (wp_lift _ tt); [done|]. apply wp_modify.
  apply (HQ m' (MkTable (2^k) (zlen (concat cs)) nl') ncs'); [|done|done|done].
  destruct Hf' as [Hl' Hc' Hnd' Hn']. split; cbn; [by exists k|done|done|done|by rewrite (Permutation_length Hp')|exact Hn'].
Qed.

(** ** Insertion *)

Lemma handle_key_Ok s p h : heap s !! p = Some h → h_next h ≠ p → handle_key p s = Ok (key_of h, s).
Proof. intros Hm Hn. unfold handle_key, mbind, st_bind, load. rewrite Hm. by replace (h_next h =? p) with false by lia. Qed.

(** [p] takes the place of the first element of [rest], if there is one. *)
Lemma placed_perm (cs : list (list Z)) i (pre rest : list Z) p : cs !! i = Some (pre ++ rest) →
  ∃ l : list Z, concat (<[i := pre ++ p :: tail rest]> cs) ≡ₚ p :: l
    ∧ match rest with [] => concat cs = l | old :: _ => concat cs ≡ₚ old :: l end.
Proof.
  intros Hi. destruct (concat_split cs i _ Hi) as (l1 & l2 & E1 & E2). exists (l1 ++ (pre ++ tail rest) ++ l2). rewrite E1, E2.
  assert (∀ x, l1 ++ (pre ++ x :: tail rest) ++ l2 ≡ₚ x :: l1 ++ (pre ++ tail rest) ++ l2) as Hp.
  { intros x. rewrite <-!app_assoc, !(app_assoc l1 pre). symmetry. apply Permutation_middle. }
  split; [apply Hp|]. destruct rest as [|old rest]; [done|apply Hp].
Qed.

Lemma table_grow s cs cs' m' t' p h i : table_ok (heap s) (tbl s) cs → heap s !! p = Some h → h_next h ≠ p →
  Z.of_nat i = Z.land (h_hash h) (length_ (tbl s) - 1) → same unchained (heap s) m' →
  length cs' = length cs → (∀ j c x, cs' !! j = Some c → x ∈ c → (x = p ∧ i = j) ∨ ∃ d, cs !! j = Some d ∧ x ∈ d) →
  Forall2 (chain m') (list_ t') cs' → NoDup (concat cs') → length_ t' = length_ (tbl s) → elems_ t' = zlen (concat cs') → table_ok m' t' cs'.
Proof.
  intros Ht Hm Hn Hi Hs Hl Hsub Hc Hnd El Ee. split; [rewrite El; apply Ht| |done|done|done|].
  - rewrite (Forall2_length _ _ _ Hc), Hl, El, (tbl_length _ _ _ Ht). destruct (tb_length _ _ _ Ht) as (k & Hk & ->).
    pose proof (Z.pow_pos_nonneg 2 k). lia.
  - rewrite El. intros j c x Hj Hx. destruct (Hsub j c x Hj Hx) as [[-> <-]|(d & Hd & Hxd)].
    + destruct (same_lookup _ _ _ _ _ Hs Hm) as (h' & Hm' & E). exists h'. split; [done|].
      pose proof (f_equal h_next E) as E1. pose proof (f_equal h_hash E) as E2. cbn in E1, E2. rewrite E1, E2. by split.
    + apply (nodes_same (heap s) m' cs _ Hs (tb_nodes _ _ _ Ht) j d x Hd Hxd).
Qed.

Lemma elem_tail (l : list Z) x : x ∈ tail l → x ∈ l.
Proof. destruct l; [done|]. by right. Qed.

Lemma placed_sub (cs : list (list Z)) i (pre rest : list Z) p : cs !! i = Some (pre ++ rest) →
  ∀ j c x, <[i := pre ++ p :: tail rest]> cs !! j = Some c → x ∈ c → (x = p ∧ i = j) ∨ ∃ d, cs !! j = Some d ∧ x ∈ d.
Proof.
  intros Hi j c x Hj Hx. destruct (decide (i = j)) as [<-|Hij].
  - rewrite list_lookup_insert_eq in Hj by (by apply lookup_lt_Some in Hi). injection Hj as <-.
    apply elem_of_app in Hx as [Hx|[->|Hx]%elem_of_cons]; [right; exists (pre ++ rest); split; [done|apply elem_of_app; by left]|by left|].
    right. exists (pre ++ rest). split; [done|]. apply elem_of_app. right. by apply elem_tail.
  - right. exists c. by rewrite list_lookup_insert_ne in Hj.
Qed.

(** The new node points at what is to follow it. *)
Lemma link_new s cs p h i pre rest : table_ok (heap s) (tbl s) cs → cs !! i = Some (pre ++ rest) → heap s !! p = Some h → p ≠ NULL →
  p ∉ concat cs → let m1 := <[p := set_next_hash (head_of (tail rest)) h]> (heap s) in
  Forall2 (chain m1) (list_ (tbl s)) cs ∧ chain m1 p (p :: tail rest).
Proof.
  intros Ht Hi Hm Hp Hpc m1. pose proof (tb_chains _ _ _ Ht) as Hcs.
  assert (∀ c x, chain (heap s) x c → (∀ y, y ∈ c → y ∈ concat cs) → chain m1 x c) as Hkeep.
  { intros c x Hch Hsub. apply (chain_frame (heap s)); [done|]. intros y Hy. unfold m1. rewrite lookup_insert_ne; [done|].
    intros <-. by apply Hpc, Hsub. }
  split.
  - apply Forall2_same_length_lookup. split; [by apply Forall2_length in Hcs|]. intros j x c Hj Hcj.
    apply Hkeep; [by apply (Forall2_lookup_lr _ _ _ _ _ _ Hcs Hj Hcj)|]. intros y Hy. apply elem_concat. by exists j, c.
  - destruct (Forall2_lookup_r _ _ _ _ _ Hcs Hi) as (p0 & _ & Hc). apply chain_app in Hc as (q & _ & Hc).
    split; [done|]. split; [done|]. eexists. split; [unfold m1; by rewrite lookup_insert_eq|]. cbn [h_next_hash set_next_hash].
    destruct rest as [|old rest]; [done|]. destruct Hc as (_ & _ & ho & _ & Hc). cbn [tail] in *. rewrite <-(chain_head _ _ _ Hc).
    apply Hkeep; [done|]. intros y Hy. apply elem_concat. exists i, (pre ++ old :: rest). split; [done|]. apply elem_of_app. right. by right.
Qed.

(** The rest of [Insert], from the count on: [old] was replaced, if it is not NULL. *)
Lemma count_wp s cs cs' m' l' p h i old l (Q : Z → Lru → Prop) : table_ok (heap s) (tbl s) cs → heap s !! p = Some h → h_next h ≠ p →
  Z.of_nat i = Z.land (h_hash h) (length_ (tbl s) - 1) → same unchained (heap s) m' → length cs' = length cs →
  (∀ j c x, cs' !! j = Some c → x ∈ c → (x = p ∧ i = j) ∨ ∃ d, cs !! j = Some d ∧ x ∈ d) →
  Forall2 (chain m') l' cs' → NoDup (concat cs') → concat cs' ≡ₚ p :: l → zlen (concat cs) < 2^31 →
  (old = NULL → concat cs = l) → (old ≠ NULL → concat cs ≡ₚ old :: l) →
  (∀ m2 t' cs2, table_ok m2 t' cs2 → concat cs2 ≡ₚ p :: l → same unchained (heap s) m2 →
     (∀ q, q ∉ concat cs' → m2 !! q = m' !! q) → Q old (set_heap m2 (with_table t' s))) →
  wp (if old =? NULL then
        s ← get_st;
        let t := table_ (shard s) in
        let elems := u32 (elems_ t + 1) in
        _ ← set_table (MkTable (length_ t) elems (list_ t));
        _ ← (if length_ t <? elems then Resize else mret tt);
        mret old
      else mret old) Q (set_heap m' (with_table (MkTable (length_ (tbl s)) (elems_ (tbl s)) l') s)).
Proof.
  intros Ht Hm Hn Hi Hs Hl Hsub Hc Hnd Hp Hsize Hnull Hold HQ. pose proof (Permutation_length Hp) as Hpl. cbn [length] in Hpl.
  pose proof (tb_elems _ _ _ Ht) as Hel.
  assert (∀ e, e = zlen (concat cs') → table_ok m' (MkTable (length_ (tbl s)) e l') cs') as Hok.
  { intros e ->. by apply (table_grow s cs cs' m' _ p h i). }
  destruct (Z.eqb_spec old NULL) as [E|E].
  - rewrite (Hnull E) in *. apply wp_bind, (wp_intro _ _ _ _ _ eq_refl). cbn [shard set_heap with_table set_shard table_ length_ elems_ list_].
    rewrite u32_small by lia. apply wp_bind, wp_modify. apply wp_bind.
    assert (elems_ (tbl s) + 1 = zlen (concat cs')) as Ecount by lia. rewrite Ecount. specialize (Hok _ eq_refl).
    destruct (length_ (tbl s) <? zlen (concat cs')).
    + apply (Resize_wp _ cs'); cbn; [done|by apply Hok|done|done|lia| |].
      * intros x (j & c & Hj & Hx)%elem_concat. destruct (tb_nodes _ _ _ Hok j c x Hj Hx) as (h' & ? & ? & _). by exists h'.
      * intros m2 t2 cs2 Ht2 Hp2 Hs2 Hf2. apply wp_ret. apply (HQ m2 t2 cs2); [done|by rewrite Hp2|by apply (same_trans _ _ m')|done].
    + apply wp_ret, wp_ret. by apply (HQ m' (MkTable (length_ (tbl s)) (zlen (concat cs')) l') cs').
  - apply wp_ret. apply (HQ m' (MkTable (length_ (tbl s)) (elems_ (tbl s)) l') cs'); [|done|done|done]. apply Hok.
    rewrite Hel. rewrite (Permutation_length (Hold E)). cbn [length]. lia.
Qed.

Lemma Table_Insert_wp s cs p h (Q : Z → Lru → Prop) : table_ok (heap s) (tbl s) cs → heap s !! p = Some h → h_next h ≠ p →
  p ≠ NULL → p ∉ concat cs → zlen (concat cs) < 2^31 →
  (∀ old m' t' cs' l, found (heap s) (concat cs) (key_of h) (h_hash h) old → table_ok m' t' cs' → concat cs' ≡ₚ p :: l →
     (old = NULL → concat cs = l) → (old ≠ NULL → concat cs ≡ₚ old :: l) → same unchained (heap s) m' →
     (∀ q, q ∉ p :: concat cs → m' !! q = heap s !! q) → Q old (set_heap m' (with_table t' s))) →
  wp (Table_Insert p) Q s.
Proof.
  intros Ht Hm Hn Hp Hpc Hsize HQ. unfold Table_Insert. apply wp_bind, (wp_intro _ _ _ _ _ (handle_key_Ok s p h Hm Hn)).
  apply wp_bind, (wp_load _ h); [done|].
  destruct (FindPointer_Ok s cs (key_of h) (h_hash h) Ht) as (i & pre & rest & E & Hi & Hidx & Hr).
  pose proof (tb_chains _ _ _ Ht) as Hcs. pose proof (tb_nodup _ _ _ Ht) as Hnd.
  apply wp_bind, (wp_intro _ _ _ _ _ E). apply wp_bind, (wp_intro _ _ _ _ _ (get_slot_Ok s cs Hcs i pre rest Hi)).
  pose proof (found_at s cs _ _ i pre rest Ht Hi Hr) as Hfound.
  destruct (Forall2_lookup_r _ _ _ _ _ Hcs Hi) as (p0 & _ & Hc). apply chain_app in Hc as (q & _ & Hc).
  apply wp_bind, (wp_intro _ _ _ (head_of (tail rest)) s).
  { destruct rest as [|old rest]; [done|]. destruct Hc as (_ & Hold & ho & Hmo & Hc). cbn [head_of tail].
    replace (old =? NULL) with false by lia. unfold mbind, st_bind, load. rewrite Hmo. by rewrite (chain_head _ _ _ Hc). }
  apply wp_bind, (wp_update _ _ h); [done|]. set (m1 := <[p := set_next_hash (head_of (tail rest)) h]> (heap s)).
  destruct (link_new s cs p h i pre rest Ht Hi Hm Hp Hpc) as [Hcs1 Hch1]. fold m1 in Hcs1, Hch1.
  assert (∀ x, x ∈ pre ++ rest → x ∈ concat cs) as Hin by (intros x Hx; apply elem_concat; by exists i, (pre ++ rest)).
  pose proof (nodup_bucket _ _ _ Hnd Hi) as Hndb. apply NoDup_app in Hndb as (_ & Hdis & _).
  apply wp_bind, (set_slot_wp (set_heap m1 s) cs Hcs1 i pre rest p (p :: tail rest)); [done|done|done| |].
  { intros x Hx [->|Hx']%elem_of_cons; [apply Hpc, Hin, elem_of_app; by left|]. by apply (Hdis x Hx), elem_tail. }
  intros m' l' Hcs' Hll Hsame Hframe. cbn [set_heap heap] in *.
  destruct (placed_perm cs i pre rest p Hi) as (l & Hperm & Hl). set (cs' := <[i := pre ++ p :: tail rest]> cs) in *.
  assert (same unchained (heap s) m') as Hsame' by (apply (same_trans _ _ m1); [by apply (same_insert _ _ _ _ h)|done]).
  assert (∀ q, q ∉ p :: concat cs → m' !! q = heap s !! q) as Hframe'.
  { intros y Hy. rewrite Hframe by (intros Hy'; apply Hy; right; apply Hin, elem_of_app; by left).
    unfold m1. rewrite lookup_insert_ne; [done|]. intros <-. apply Hy. left. }
  assert (NoDup (concat cs')) as Hnd'.
  { rewrite Hperm. apply NoDup_cons. destruct rest as [|old rest]; [by subst l|]. rewrite Hl in Hnd, Hpc.
    apply NoDup_cons in Hnd as [_ Hnd]. split; [|done]. intros Hx. apply Hpc. by right. }
  pose proof (placed_sub cs i pre rest p Hi) as Hsub. fold cs' in Hsub.
  assert (length cs' = length cs) as Hlcs by (unfold cs'; by rewrite length_insert).
  assert (concat cs' ⊆ p :: concat cs) as Hincl.
  { intros x (j & c & Hj & Hx)%elem_concat. destruct (Hsub j c x Hj Hx) as [[-> _]|(d & Hd & Hx')]; [left|right]. apply elem_concat. by exists j, d. }
  assert (head_of rest = NULL → concat cs = l) as Hnull.
  { destruct rest as [|old rest]; [done|]. cbn [head_of]. intros ->. by destruct Hc as (_ & ? & _). }
  assert (head_of rest ≠ NULL → concat cs ≡ₚ head_of rest :: l) as Hold by (by destruct rest).
  apply (count_wp s cs cs' m' l' p h i (head_of rest) l); try done.
  intros m2 t' cs2 Ht2 Hp2 Hs2 Hf2. apply (HQ (head_of rest) m2 t' cs2 l); try done.
  intros y Hy. rewrite Hf2 by (intros Hy'; by apply Hy, Hincl). by apply Hframe'.
Qed.
