(* ===== verification/LruInsert.v ===== *)
(** * A shard of the LRU cache

    The abstract shard: the entries that are cached, from the oldest to the newest, and all
    entries that are alive with the number of handles that clients hold.

    A new entry is linked, hashed in the place of the one with its key, and the oldest entries
    leave until the usage is within the capacity. *)
From stdpp Require Import gmap.
From S2P Require Import Prelude Bloom LruCache LruTable.

#[local] Open Scope Z_scope.

(** ** The abstract shard *)

Record item := MkItem { i_key : list byte; i_value : Z; i_charge : Z; i_deleter : Z }.
Record alru := MkALru { a_cached : list Z; a_items : gmap Z (item * nat) }.

Definition deletion_of (it : item) : deletion := (i_deleter it, i_key it, i_value it).
Definition usage_of (items : gmap Z (item * nat)) : Z := map_fold (λ _ x n, i_charge x.1 + n) 0 items.

Definition has_key (items : gmap Z (item * nat)) (key : list byte) (p : Z) : bool :=
  match items !! p with Some (it, _) => bool_decide (i_key it = key) | None => false end.
Definition a_find (key : list byte) (a : alru) : option Z := List.find (has_key (a_items a) key) (a_cached a).

(** An entry without handles that is not cached is passed to its deleter. *)
Definition a_collect (p : Z) (a : alru) : alru * list deletion :=
  match a_items a !! p with
  | Some (it, O) =>
      if decide (p ∈ a_cached a) then (a, []) else (MkALru (a_cached a) (delete p (a_items a)), [deletion_of it])
  | _ => (a, [])
  end.

Definition without (p : Z) (l : list Z) : list Z := filter (λ q, q ≠ p) l.
Definition a_drop (p : Z) (a : alru) : alru * list deletion := a_collect p (MkALru (without p (a_cached a)) (a_items a)).

Definition a_lookup (key : list byte) (a : alru) : Z * alru :=
  match a_find key a with
  | None => (NULL, a)
  | Some p => (p, MkALru (without p (a_cached a) ++ [p]) (alter (λ x, (x.1, S x.2)) p (a_items a)))
  end.
Definition a_release (p : Z) (a : alru) : alru * list deletion :=
  a_collect p (MkALru (a_cached a) (alter (λ x, (x.1, pred x.2)) p (a_items a))).
Definition a_erase (key : list byte) (a : alru) : alru * list deletion :=
  match a_find key a with None => (a, []) | Some p => a_drop p a end.

(** The oldest entries leave until the usage is within the capacity. *)
Fixpoint a_evict (fuel : nat) (capacity : Z) (a : alru) : alru * list deletion :=
  match fuel with
  | O => (a, [])
  | S fuel =>
      match a_cached a with
      | p :: _ =>
          if capacity <? usage_of (a_items a) then
            let '(a, d) := a_drop p a in let '(a, d') := a_evict fuel capacity a in (a, d ++ d')
          else (a, [])
      | [] => (a, [])
      end
  end.

(** A new entry at the address [p]; it takes the place of the one with the same key. *)
Definition a_place (p : Z) (it : item) (a : alru) : alru * list deletion :=
  let a' := MkALru (a_cached a ++ [p]) (<[p := (it, 1%nat)]> (a_items a)) in
  match a_find (i_key it) a with Some old => a_drop old a' | None => (a', []) end.
Definition a_insert (p : Z) (it : item) (capacity : Z) (a : alru) : alru * list deletion :=
  let '(a', d) := a_place p it a in
  let '(a', d') := a_evict (length (a_cached a')) capacity a' in
  (a', d ++ d').

(** ** Usage *)

Lemma usage_insert items p it n : items !! p = None → usage_of (<[p := (it, n)]> items) = i_charge it + usage_of items.
Proof. intros Hp. unfold usage_of. rewrite map_fold_insert_L; [done| |done]. intros; lia. Qed.

Lemma usage_delete items p it n : items !! p = Some (it, n) → usage_of (delete p items) = usage_of items - i_charge it.
Proof.
  intros Hp. rewrite <-(insert_delete_id items p (it, n) Hp) at 2. rewrite usage_insert by apply lookup_delete_eq. lia.
Qed.

Lemma usage_alter items p f : (∀ x, (f x).1 = x.1) → usage_of (alter f p items) = usage_of items.
Proof.
  intros Hf. destruct (items !! p) as [[it n]|] eqn:E; [|by rewrite alter_id'].
  rewrite <-(insert_delete_id items p (it, n) E) at 1. rewrite alter_insert_eq, (surjective_pairing (f (it, n))), Hf.
  rewrite usage_insert by apply lookup_delete_eq. cbn [fst]. rewrite (usage_delete items p it n E). lia.
Qed.

(** ** The state of a shard *)

Section shard.
(** The hash of a key. *)
Context (H : list byte → Z).

Definition node (h : LRUHandle) (it : item) : Prop :=
  h_value h = i_value it ∧ h_deleter h = i_deleter it ∧ h_charge h = i_charge it ∧ key_of h = i_key it ∧ h_hash h = H (i_key it).

Definition one (P : Prop) `{Decision P} : Z := if decide P then 1 else 0.

Lemma one_range P `{Decision P} : 0 ≤ one P ≤ 1.
Proof using. clear. unfold one. destruct (decide P); lia. Qed.
Lemma one_true P `{Decision P} : P → one P = 1.
Proof using. clear. intros HP. unfold one. by rewrite decide_True. Qed.
Lemma one_false P `{Decision P} : ¬ P → one P = 0.
Proof using. clear. intros HP. unfold one. by rewrite decide_False. Qed.

(** The circular list holds [l], the table [l2]; [x] is an entry whose count is one more, as it
    is about to lose a reference; [u] is the usage. *)
Record inv (c : LRUCache) (m : gmap Z LRUHandle) (items : gmap Z (item * nat)) (l l2 : list Z) (x : option Z) (u : Z) : Prop := {
  iv_nodup : NoDup (lru_ c :: l);
  iv_head : items !! lru_ c = None;
  iv_circ : circ m (lru_ c) l;
  iv_items : ∀ p it n, items !! p = Some (it, n) → ∃ h, m !! p = Some h ∧ node h it
    ∧ h_refs h = Z.of_nat n + one (p ∈ l) + one (x = Some p) ∧ h_next h ≠ p ∧ p ≠ NULL;
  iv_l : ∀ p, p ∈ l → is_Some (items !! p);
  iv_l2 : ∀ p, p ∈ l2 → is_Some (items !! p);
  iv_live : ∀ p it, items !! p = Some (it, O) → p ∈ l ∨ x = Some p;
  iv_table : ∃ cs, table_ok m (table_ c) cs ∧ concat cs ≡ₚ l2;
  iv_usage : usage_ c = u }.

(** Nothing but the addresses in [own] changed; of these, those not in [own'] are free. *)
Definition kept (own : gset Z) (m : gmap Z LRUHandle) (own' : gset Z) (m' : gmap Z LRUHandle) : Prop :=
  own' ⊆ own ∧ ∀ q, q ∉ own' → m' !! q = if decide (q ∈ own) then None else m !! q.
Definition owns (c : LRUCache) (items : gmap Z (item * nat)) : gset Z := {[lru_ c]} ∪ dom items.

Lemma kept_same own m m' : (∀ q, q ∉ own → m' !! q = m !! q) → kept own m own m'.
Proof using. clear. intros Hs. split; [done|]. intros q Hq. rewrite decide_False by done. by apply Hs. Qed.

Lemma kept_trans own1 m1 own2 m2 own3 m3 : kept own1 m1 own2 m2 → kept own2 m2 own3 m3 → kept own1 m1 own3 m3.
Proof using.
  clear. intros [H12 F12] [H23 F23]. split; [by etrans|]. intros q Hq. rewrite F23 by done.
  destruct (decide (q ∈ own2)); [|by apply F12]. rewrite decide_True; [done|]. by apply H12.
Qed.

Lemma owns_elem c items q : q ∈ owns c items ↔ q = lru_ c ∨ is_Some (items !! q).
Proof using. clear. unfold owns. by rewrite elem_of_union, elem_of_singleton, elem_of_dom. Qed.

(** Links never lead from an entry to itself. *)
Lemma circ_next_ne m head l x : circ m head l → NoDup (head :: l) → x ∈ l → nxt m x ≠ Some x.
Proof using.
  clear. intros Hc Hnd Hx E. apply list_elem_of_split in Hx as (pre & post & ->). unfold circ in Hc. rewrite <-app_assoc in Hc.
  cbn [app] in Hc. apply links_app in Hc as [_ Hc]. apply NoDup_cons in Hnd as [Hh Hnd].
  apply NoDup_app in Hnd as (_ & _ & [Hxp _]%NoDup_cons). destruct post as [|y post]; simpl in Hc; destruct Hc as [Hn _]; rewrite E in Hn; injection Hn as ->.
  - apply Hh, elem_of_app. right. left.
  - apply Hxp. left.
Qed.

(** What the links do not touch. *)
Lemma table_unlinked m m' t cs : table_ok m t cs → same unlinked m m' →
  (∀ x, x ∈ concat cs → ∃ h, m' !! x = Some h ∧ h_next h ≠ x) → table_ok m' t cs.
Proof using.
  clear. intros [Hl Hll Hc Hnd He Hn] Hs Hx. split; try done.
  - apply Forall2_same_length_lookup. split; [by apply Forall2_length in Hc|]. intros i p c Hi Hci.
    apply (chain_same unlinked h_next_hash m); [done|done|]. by apply (Forall2_lookup_lr _ _ _ _ _ _ Hc Hi Hci).
  - intros i c x Hi Hxc. destruct (Hn i c x Hi Hxc) as (h & Hm & _ & Hh). destruct (same_lookup _ _ _ _ _ Hs Hm) as (h' & Hm' & E).
    destruct (Hx x) as (h2 & Hm2 & Hn2); [apply elem_concat; by exists i, c|]. rewrite Hm' in Hm2. injection Hm2 as <-.
    exists h'. split; [done|]. split; [done|]. pose proof (f_equal h_hash E) as E1. cbn in E1. by rewrite E1.
Qed.

Lemma circ_ext m m' head l : (∀ x, nxt m' x = nxt m x ∧ prv m' x = prv m x) → circ m head l → circ m' head l.
Proof using.
  clear. intros Hx Hc. unfold circ in *.
  assert (∀ k a, links m a k → links m' a k) as Hk; [|by apply Hk]. induction k as [|b k IH]; intros a; [done|].
  intros (H1 & H2 & H3). destruct (Hx a) as [E1 _], (Hx b) as [_ E2]. simpl. rewrite E1, E2. split_and!; [done|done|by apply IH].
Qed.

Lemma circ_unchained m m' head l : circ m head l → same unchained m m' → circ m' head l.
Proof using.
  clear. intros Hc Hs. apply (circ_ext m); [|done]. intros x. unfold nxt, prv. specialize (Hs x).
  destruct (m !! x) as [h|], (m' !! x) as [h'|]; try done. apply (inj Some) in Hs.
  pose proof (f_equal h_next Hs) as E1. pose proof (f_equal h_prev Hs) as E2. cbn in E1, E2 |- *. by rewrite E1, E2.
Qed.

Lemma unlinked_node h h' it : unlinked h' = unlinked h → node h it → node h' it ∧ h_refs h' = h_refs h.
Proof using.
  intros E (H1 & H2 & H3 & H4 & H5). pose proof (f_equal h_value E) as E1. pose proof (f_equal h_deleter E) as E2. pose proof (f_equal h_charge E) as E3.
  pose proof (f_equal key_of E) as E4. pose proof (f_equal h_hash E) as E5. pose proof (f_equal h_refs E) as E6.
  unfold key_of in *. cbn in *. unfold node, key_of. rewrite E1, E2, E3, E4, E5, E6. by split_and!.
Qed.

Lemma unchained_node h h' it : unchained h' = unchained h → node h it → node h' it ∧ h_refs h' = h_refs h ∧ h_next h' = h_next h.
Proof using.
  intros E (H1 & H2 & H3 & H4 & H5). pose proof (f_equal h_value E) as E1. pose proof (f_equal h_deleter E) as E2. pose proof (f_equal h_charge E) as E3.
  pose proof (f_equal key_of E) as E4. pose proof (f_equal h_hash E) as E5. pose proof (f_equal h_refs E) as E6. pose proof (f_equal h_next E) as E7.
  unfold key_of in *. cbn in *. unfold node, key_of. rewrite E1, E2, E3, E4, E5, E6, E7. by split_and!.
Qed.

(** After a change of the links: the list is [l'], and the reference of the list is moved. *)
Lemma inv_relinked c m m' items l l' l2 x x' u : inv c m items l l2 x u → same unlinked m m' → circ m' (lru_ c) l' → NoDup (lru_ c :: l') →
  (∀ p, p ∉ lru_ c :: l' → p ∉ l → m' !! p = m !! p) → (∀ p, p ∈ l → p ∉ l' → nxt m' p = nxt m p) →
  (∀ p, one (p ∈ l') + one (x' = Some p) = one (p ∈ l) + one (x = Some p)) → (∀ p, p ∈ l' → is_Some (items !! p)) →
  inv c m' items l' l2 x' u.
Proof using.
  intros [Hnd Hh Hc Hi Hl Hl2 Hlive (cs & Ht & Hp) Hu] Hs Hc' Hnd' Hf Hout Hone Hl'.
  assert (∀ p it n, items !! p = Some (it, n) → ∃ h, m' !! p = Some h ∧ node h it
    ∧ h_refs h = Z.of_nat n + one (p ∈ l') + one (x' = Some p) ∧ h_next h ≠ p ∧ p ≠ NULL) as Hi'.
  { intros p it n Hpi. destruct (Hi p it n Hpi) as (h & Hm & Hn & Hr & Hne & Hp0).
    destruct (same_lookup _ _ _ _ _ Hs Hm) as (h' & Hm' & E). destruct (unlinked_node h h' it E Hn) as [Hn' Hr'].
    exists h'. split; [done|]. split; [done|]. split; [rewrite Hr', Hr; specialize (Hone p); lia|]. split; [|done].
    assert (nxt m' p ≠ Some p) as Hx; [|intros E1; apply Hx; unfold nxt; rewrite Hm'; simpl; by rewrite E1].
    destruct (decide (p ∈ l')); [by apply (circ_next_ne m' (lru_ c) l')|].
    assert (nxt m' p = nxt m p) as ->; [|unfold nxt; rewrite Hm; simpl; by intros [= ?]].
    destruct (decide (p ∈ l)); [by apply Hout|]. unfold nxt. rewrite Hf; [done| |done].
    intros [->|Hpl]%elem_of_cons; [by rewrite Hh in Hpi|done]. }
  split; try done.
  - intros p it Hpi. destruct (Hlive p it Hpi) as [Hin|Hx]; specialize (Hone p); unfold one in Hone; repeat case_decide; first [tauto|lia].
  - exists cs. split; [|done]. apply (table_unlinked m); [done|done|]. intros y Hy. rewrite Hp in Hy. destruct (Hl2 y Hy) as [[it n] Hyi].
    destruct (Hi' y it n Hyi) as (h & Hm & _ & _ & Hne & _). by exists h.
Qed.

(** After a change of the table: it holds [l2']. *)
Lemma inv_rehashed c t' cs m m' items l l2 l2' x u : inv c m items l l2 x u → same unchained m m' → table_ok m' t' cs → concat cs ≡ₚ l2' →
  (∀ p, p ∈ l2' → is_Some (items !! p)) → inv (MkLRU (capacity_ c) (usage_ c) (lru_ c) t') m' items l l2' x u.
Proof using.
  intros [Hnd Hh Hc Hi Hl Hl2 Hlive Ht Hu] Hs Ht' Hp Hl2'. split; cbn; try done.
  - by apply (circ_unchained m).
  - intros p it n Hpi. destruct (Hi p it n Hpi) as (h & Hm & Hn & Hr & Hne & Hp0).
    destruct (same_lookup _ _ _ _ _ Hs Hm) as (h' & Hm' & E). destruct (unchained_node h h' it E Hn) as (Hn' & Hr' & Hx').
    exists h'. rewrite Hr', Hx'. by split_and!.
  - by exists cs.
Qed.

(** The first two of three computations. *)
Lemma wp_seq {A B D} (m : lru A) (f : A → lru B) (k : lru D) Q s : wp (x ← m; f x) (λ _ s', wp k Q s') s → wp (x ← m; _ ← f x; k) Q s.
Proof using.
  clear. unfold wp, mbind, st_bind. destruct (m s) as [[x s']|]; [|done]. destruct (f x s') as [[y s2]|]; done.
Qed.

(** ** Steps *)

(** From [s] to [s'], the entries that are alive become [items'], and [d] is deleted. *)
Definition step_ok (s s' : Lru) (items items' : gmap Z (item * nat)) (d : list deletion) : Prop :=
  lru_ (shard s') = lru_ (shard s) ∧ capacity_ (shard s') = capacity_ (shard s)
  ∧ kept (owns (shard s) items) (heap s) (owns (shard s') items') (heap s') ∧ deleted s' = deleted s ++ d.

Lemma step_ok_trans s1 s2 s3 i1 i2 i3 d1 d2 : step_ok s1 s2 i1 i2 d1 → step_ok s2 s3 i2 i3 d2 → step_ok s1 s3 i1 i3 (d1 ++ d2).
Proof using.
  intros (L1 & C1 & K1 & D1) (L2 & C2 & K2 & D2). split; [congruence|]. split; [congruence|]. split; [by eapply kept_trans|].
  by rewrite D2, D1, app_assoc.
Qed.

Lemma step_ok_same s s' items : lru_ (shard s') = lru_ (shard s) → capacity_ (shard s') = capacity_ (shard s) → deleted s' = deleted s →
  (∀ q, q ∉ owns (shard s) items → heap s' !! q = heap s !! q) → step_ok s s' items items [].
Proof using.
  intros El Ec Ed Hq. split; [done|]. split; [done|]. rewrite app_nil_r. split; [|done]. unfold owns at 2. rewrite El. by apply kept_same.
Qed.

(** The machine integers do not overflow. *)
Definition sized (items : gmap Z (item * nat)) : Prop :=
  map_Forall (λ _ x, 0 ≤ i_charge x.1 ∧ Z.of_nat x.2 + 2 < 2^32) items ∧ usage_of items < 2^64.

Lemma usage_nonneg items : map_Forall (λ _ x, 0 ≤ i_charge x.1 ∧ Z.of_nat x.2 + 2 < 2^32) items → 0 ≤ usage_of items.
Proof using.
  clear. intros Hf. induction items as [|p [it n] items Hp IH] using map_ind; [done|]. rewrite usage_insert by done.
  apply map_Forall_insert in Hf as [[H1 _] Hf]; [|done]. cbn [fst] in H1. specialize (IH Hf). lia.
Qed.

Lemma sized_delete items p : sized items → sized (delete p items).
Proof using.
  clear. intros [Hf Hu]. split; [by apply map_Forall_delete|]. destruct (items !! p) as [[it n]|] eqn:E; [|by rewrite delete_id].
  rewrite (usage_delete _ _ _ _ E). specialize (Hf p _ E). cbn in Hf. lia.
Qed.

Lemma without_split pre e post : NoDup (pre ++ e :: post) → without e (pre ++ e :: post) = pre ++ post.
Proof using.
  clear. intros Hnd. apply NoDup_app in Hnd as (_ & Hd & [He _]%NoDup_cons). unfold without. rewrite filter_app, filter_cons_False by tauto.
  f_equal; apply filter_keep; intros x Hx ->; [|done]. apply (Hd e Hx). left.
Qed.

Lemma without_elem p l q : q ∈ without p l ↔ q ≠ p ∧ q ∈ l.
Proof using. clear. unfold without. by rewrite list_elem_of_filter. Qed.

Lemma owned_link c m items l l2 x u p : inv c m items l l2 x u → p ∈ lru_ c :: l → p ∈ owns c items.
Proof using. intros Hinv [->|Hp]%elem_of_cons; apply owns_elem; [by left|right; by apply (iv_l _ _ _ _ _ _ _ Hinv)]. Qed.

Lemma remove_step s items l l2 e u : inv (shard s) (heap s) items l l2 None u → e ∈ l →
  wp (LRU_Remove e) (λ _ s', shard s' = shard s ∧ inv (shard s') (heap s') items (without e l) l2 (Some e) u ∧ step_ok s s' items items []) s.
Proof using.
  intros Hinv He. pose proof Hinv as [Hnd _ Hc _ Hl _ _ _ _]. apply list_elem_of_split in He as (pre & post & ->).
  pose proof (NoDup_cons_1_2 _ _ Hnd) as Hndl. rewrite without_split by done.
  apply (LRU_Remove_wp s (lru_ (shard s)) pre e post); [done|done|]. intros m' Hc' Hs Hf.
  assert (∀ p, p ∈ pre ++ post → p ∈ pre ++ e :: post) as Hsub by (intros p; rewrite !elem_of_app, elem_of_cons; tauto).
  assert (NoDup (lru_ (shard s) :: pre ++ post) ∧ e ∉ lru_ (shard s) :: pre ++ post) as [Hnd' He'].
  { rewrite <-Permutation_middle in Hnd. apply NoDup_cons in Hnd as [Hh [Hep Hnd2]%NoDup_cons]. split.
    - apply NoDup_cons. split; [|done]. intros Hin. apply Hh. by right.
    - intros [->|Hin]%elem_of_cons; [|done]. apply Hh. left. }
  split; [done|]. split.
  - apply (inv_relinked _ (heap s) m' items (pre ++ e :: post) _ l2 None); try done.
    + intros p Hp _. by apply Hf.
    + intros p Hp Hp'. assert (p = e) as -> by (rewrite !elem_of_app, elem_of_cons in *; tauto). unfold nxt. by rewrite Hf.
    + intros p. unfold one. destruct (decide (p = e)) as [->|Hpe].
      * rewrite (decide_False (P := e ∈ pre ++ post)), (decide_True (P := Some e = Some e)), (decide_True (P := e ∈ pre ++ e :: post)); try done;
          [rewrite elem_of_app, elem_of_cons; tauto|intros Hin; apply He'; by right].
      * rewrite (decide_False (P := Some e = Some p)) by congruence. rewrite (decide_False (P := None = Some p)) by done.
        rewrite (decide_ext (p ∈ pre ++ post) (p ∈ pre ++ e :: post)); [done|]. rewrite !elem_of_app, elem_of_cons. tauto.
    + intros p Hp. by apply Hl, Hsub.
  - apply step_ok_same; try done. intros q Hq. apply Hf. intros Hin. apply Hq. apply (owned_link _ _ _ _ _ _ _ _ Hinv).
    apply elem_of_cons. apply elem_of_cons in Hin as [->|Hin]; [by left|right; by apply Hsub].
Qed.

Lemma append_step s items l l2 e u : inv (shard s) (heap s) items l l2 (Some e) u → e ∉ l → is_Some (items !! e) →
  wp (LRU_Append e) (λ _ s', shard s' = shard s ∧ inv (shard s') (heap s') items (l ++ [e]) l2 None u ∧ step_ok s s' items items []) s.
Proof using.
  intros Hinv He [[it n] Hie]. pose proof Hinv as [Hnd Hh Hc Hi Hl _ _ _ _]. destruct (Hi e it n Hie) as (h & Hm & _).
  assert (e ∉ lru_ (shard s) :: l) as Hel by (intros [->|?]%elem_of_cons; [by rewrite Hh in Hie|done]).
  apply (LRU_Append_wp s l e h); [done|done|done|done|]. intros m' Hc' Hs Hf.
  split; [done|]. split.
  - apply (inv_relinked _ (heap s) m' items l _ l2 (Some e)); try done.
    + rewrite app_comm_cons. apply NoDup_app. split; [done|]. split; [|apply NoDup_singleton].
      intros x Hx Hxe. apply list_elem_of_singleton in Hxe as ->. done.
    + intros p Hp _. apply Hf. rewrite elem_of_cons, elem_of_app, list_elem_of_singleton in Hp. rewrite !elem_of_cons. tauto.
    + intros p Hp Hp'. rewrite elem_of_app in Hp'. tauto.
    + intros p. unfold one. rewrite (decide_False (P := None = Some p)) by done. destruct (decide (p = e)) as [->|Hpe].
      * rewrite (decide_True (P := e ∈ l ++ [e])), (decide_False (P := e ∈ l)), (decide_True (P := Some e = Some e)); try done.
        rewrite elem_of_app, list_elem_of_singleton. tauto.
      * rewrite (decide_False (P := Some e = Some p)) by congruence.
        rewrite (decide_ext (p ∈ l ++ [e]) (p ∈ l)); [lia|]. rewrite elem_of_app, list_elem_of_singleton. tauto.
    + intros p [Hp|Hp]%elem_of_app; [by apply Hl|apply list_elem_of_singleton in Hp as ->; by rewrite Hie].
  - apply step_ok_same; try done. intros q Hq. apply Hf. intros [->|[->|Hin]%elem_of_cons]%elem_of_cons; apply Hq, owns_elem.
    + by left.
    + right. by rewrite Hie.
    + right. by apply Hl.
Qed.

(** One more handle. *)
Definition more (p : Z) (items : gmap Z (item * nat)) : gmap Z (item * nat) := alter (λ x, (x.1, S x.2)) p items.

Lemma more_some p items q : is_Some (more p items !! q) ↔ is_Some (items !! q).
Proof using.
  clear. unfold more. destruct (decide (q = p)) as [->|]; [|by rewrite lookup_alter_ne].
  rewrite lookup_alter_eq. destruct (items !! p); simpl; split; intros []; eauto; discriminate.
Qed.

Lemma inv_counted c m items items' l l2 x x' u p it n n' h r : inv c m items l l2 x u → items !! p = Some (it, n) → items' = <[p := (it, n')]> items →
  m !! p = Some h → Z.of_nat n' + one (p ∈ l) + one (x' = Some p) = r → (n' = O → p ∈ l ∨ x' = Some p) →
  (∀ q, q ≠ p → x' = Some q ↔ x = Some q) → inv c (<[p := set_refs r h]> m) items' l l2 x' u.
Proof using.
  intros [Hnd Hh Hc Hi Hl Hl2 Hlive (cs & Ht & Hp) Hu] Hpi -> Hm Hr Hn' Hx.
  assert (p ≠ lru_ c) as Hpc by (intros ->; by rewrite Hh in Hpi).
  assert (same (λ h, set_refs 0 h) m (<[p := set_refs r h]> m)) as Hs by (by apply (same_insert _ _ _ _ h)).
  assert (∀ q, is_Some (<[p := (it, n')]> items !! q) ↔ is_Some (items !! q)) as Hsome.
  { intros q. destruct (decide (p = q)) as [<-|]; [rewrite lookup_insert_eq, Hpi; by split|by rewrite lookup_insert_ne]. }
  assert (∀ q it' k, <[p := (it, n')]> items !! q = Some (it', k) → ∃ h', <[p := set_refs r h]> m !! q = Some h' ∧ node h' it'
    ∧ h_refs h' = Z.of_nat k + one (q ∈ l) + one (x' = Some q) ∧ h_next h' ≠ q ∧ q ≠ NULL) as Hi'.
  { intros q it' k Hq. destruct (decide (p = q)) as [<-|Hpq].
    - rewrite lookup_insert_eq in Hq. injection Hq as <- <-. rewrite lookup_insert_eq. eexists. split; [done|].
      destruct (Hi p it n Hpi) as (h2 & Hm2 & Hn & _ & Hne). rewrite Hm in Hm2. injection Hm2 as <-. split; [exact Hn|]. split; [by symmetry|exact Hne].
    - rewrite lookup_insert_ne in Hq by done. rewrite lookup_insert_ne by done. unfold one.
      rewrite (decide_ext (x' = Some q) (x = Some q)) by (by apply Hx). by apply Hi. }
  split; try done.
  - by rewrite lookup_insert_ne.
  - apply (circ_ext m); [|done]. intros y. rewrite nxt_insert, prv_insert. destruct (decide (p = y)) as [<-|]; [|done].
    unfold nxt, prv. by rewrite Hm.
  - intros q Hq. by apply Hsome, Hl.
  - intros q Hq. by apply Hsome, Hl2.
  - intros q it' Hq. destruct (decide (p = q)) as [<-|]; [|rewrite lookup_insert_ne in Hq by done; rewrite (Hx q) by done; by apply (Hlive q it')].
    rewrite lookup_insert_eq in Hq. injection Hq as _ ->. by apply Hn'.
  - exists cs. split; [|done]. destruct Ht as [T1 T2 T3 T4 T5 T6]. split; try done.
    + apply Forall2_same_length_lookup. split; [by apply Forall2_length in T3|]. intros i q d Hiq Hd.
      apply (chain_same (λ h, set_refs 0 h) h_next_hash m); [done|done|]. by apply (Forall2_lookup_lr _ _ _ _ _ _ T3 Hiq Hd).
    + intros i d q Hd Hq. destruct (T6 i d q Hd Hq) as (h' & Hm' & Hx'). destruct (decide (p = q)) as [<-|]; [|rewrite lookup_insert_ne by done; by exists h'].
      rewrite lookup_insert_eq. rewrite Hm in Hm'. injection Hm' as <-. by eexists.
Qed.

Lemma ref_step s items l l2 p it n u : inv (shard s) (heap s) items l l2 None u → items !! p = Some (it, n) → sized items → p ∈ l →
  wp (h ← load p; update p (set_refs (u32 (h_refs h + 1))))
    (λ _ s', shard s' = shard s ∧ inv (shard s') (heap s') (more p items) l l2 None u ∧ step_ok s s' items (more p items) []) s.
Proof using.
  intros Hinv Hp [Hf _] Hpl. destruct (iv_items _ _ _ _ _ _ _ Hinv p it n Hp) as (h & Hm & _ & Hr & _).
  pose proof (Hf p _ Hp) as [_ Hn]. cbn [snd] in Hn. apply wp_bind, (wp_load _ h); [done|]. apply (wp_update _ _ h); [done|].
  assert (more p items = <[p := (it, S n)]> items) as Em.
  { unfold more. rewrite <-(insert_id items p (it, n) Hp) at 1. by rewrite alter_insert_eq. }
  cbn [shard set_heap heap deleted]. split; [done|]. split.
  - apply (inv_counted _ (heap s) items _ l l2 None None u p it n (S n) h); [done|done|done|done| |by intros ?|done].
    unfold one in *. rewrite decide_True in * by done. rewrite decide_False in * by done. rewrite u32_small by lia. lia.
  - assert (owns (shard s) (more p items) = owns (shard s) items) as Eo.
    { apply set_eq. intros q. rewrite !owns_elem, more_some. done. }
    split; [done|]. split; [done|]. rewrite app_nil_r. split; [|done]. cbn [shard set_heap heap]. rewrite Eo. apply kept_same.
    intros q Hq. rewrite lookup_insert_ne; [done|]. intros <-. apply Hq, owns_elem. right. by rewrite Hp.
Qed.

Lemma circ_local m m' head l : circ m head l → (∀ x, x ∈ head :: l → m' !! x = m !! x) → circ m' head l.
Proof using.
  clear. unfold circ. intros Hc Hx. assert (∀ x, x ∈ l ++ [head] → m' !! x = m !! x) as Hk.
  { intros x Hin. apply Hx. rewrite elem_of_app, list_elem_of_singleton in Hin. rewrite elem_of_cons. tauto. }
  assert (∀ k a, links m a k → m' !! a = m !! a → (∀ x, x ∈ k → m' !! x = m !! x) → links m' a k) as Hgen; [|apply Hgen; [done|apply Hx; left|done]].
  clear Hc Hx Hk. induction k as [|b k IH]; intros a; [done|]. intros (H1 & H2 & H3) Ha Hb. simpl. unfold nxt, prv in *.
  rewrite Ha, (Hb b) by left. split; [done|]. split; [done|]. apply IH; [done|apply Hb; left|]. intros x Hxk. apply Hb. by right.
Qed.

Lemma table_local m m' t cs : table_ok m t cs → (∀ x, x ∈ concat cs → m' !! x = m !! x) → table_ok m' t cs.
Proof using.
  clear. intros [T1 T2 T3 T4 T5 T6] Hx. split; try done.
  - apply Forall2_same_length_lookup. split; [by apply Forall2_length in T3|]. intros i p c Hi Hci.
    apply (chain_frame m); [by apply (Forall2_lookup_lr _ _ _ _ _ _ T3 Hi Hci)|]. intros y Hy. rewrite Hx; [done|]. apply elem_concat. by exists i, c.
  - intros i c x Hi Hxc. rewrite Hx; [by apply (T6 i c)|]. apply elem_concat. by exists i, c.
Qed.

(** An entry without references is freed. *)
Lemma inv_freed c m items l l2 p it u u' : inv c m items l l2 (Some p) u → items !! p = Some (it, O) → p ∉ l → p ∉ l2 →
  inv (MkLRU (capacity_ c) u' (lru_ c) (table_ c)) (delete p m) (delete p items) l l2 None u'.
Proof using.
  intros [Hnd Hh Hc Hi Hl Hl2 Hlive (cs & Ht & Hp) Hu] Hpi Hpl Hpl2. assert (p ≠ lru_ c) as Hpc by (intros ->; by rewrite Hh in Hpi).
  split; cbn; try done.
  - by rewrite lookup_delete_ne.
  - apply (circ_local m); [done|]. intros x Hx. rewrite lookup_delete_ne; [done|]. intros <-. by apply elem_of_cons in Hx as [?|?].
  - intros q it' n Hq. apply lookup_delete_Some in Hq as [Hqp Hq]. rewrite lookup_delete_ne by done.
    destruct (Hi q it' n Hq) as (h & Hm & Hn & Hr & Hne). exists h. split; [done|]. split; [done|]. split; [|done].
    rewrite Hr. unfold one. rewrite (decide_False (P := Some p = Some q)) by congruence. by rewrite (decide_False (P := None = Some q)).
  - intros q Hq. rewrite lookup_delete_ne by (by intros <-). by apply Hl.
  - intros q Hq. rewrite lookup_delete_ne by (by intros <-). by apply Hl2.
  - intros q it' Hq. apply lookup_delete_Some in Hq as [Hqp Hq]. destruct (Hlive q it' Hq) as [?|[= ?]]; [by left|done].
  - exists cs. split; [|done]. apply (table_local m); [done|]. intros x Hx. rewrite Hp in Hx. rewrite lookup_delete_ne; [done|]. by intros <-.
Qed.

(** The end of [Unref], when no reference is left. *)
Lemma free_step s items l l2 p it h : inv (shard s) (heap s) items l l2 (Some p) (usage_of items) → items !! p = Some (it, O) → sized items →
  p ∉ l → p ∉ l2 → heap s !! p = Some h → node h it → h_next h ≠ p →
  wp (s ← get_st; _ ← set_usage (u64 (usage_ (shard s) - h_charge h));
      key ← handle_key p; h ← load p; _ ← modify (log_deletion (h_deleter h, key, h_value h)); free p)
    (λ _ s', inv (shard s') (heap s') (delete p items) l l2 None (usage_of (delete p items))
       ∧ step_ok s s' items (delete p items) [deletion_of it]) (set_heap (<[p := set_refs 0 h]> (heap s)) s).
Proof using.
  intros Hinv Hp [Hf Hu] Hpl Hpl2 Hm (N1 & N2 & N3 & N4 & _) Hne. pose proof Hinv as [_ _ _ _ _ _ _ _ Hus].
  assert (u64 (usage_ (shard s) - h_charge h) = usage_of (delete p items)) as Eu.
  { pose proof (usage_delete _ _ _ _ Hp) as Ed. rewrite Ed, N3, Hus. pose proof (Hf p _ Hp) as [Hc _]. cbn [fst] in Hc.
    pose proof (usage_nonneg (delete p items) (map_Forall_delete _ _ _ Hf)). apply u64_small. lia. }
  apply wp_bind, (wp_intro _ _ _ _ _ eq_refl). apply wp_bind, wp_modify. cbn [set_shard set_heap shard heap deleted]. rewrite Eu.
  set (c := MkLRU _ _ _ _). set (s1 := MkState c (<[p := set_refs 0 h]> (heap s)) (deleted s)).
  apply wp_bind, (wp_intro _ _ _ _ _ (handle_key_Ok s1 p (set_refs 0 h) (lookup_insert_eq _ _ _) Hne)).
  apply wp_bind, (wp_load _ (set_refs 0 h)); [apply lookup_insert_eq|]. apply wp_bind, wp_modify. unfold free.
  apply wp_bind, (wp_load _ (set_refs 0 h)); [apply lookup_insert_eq|]. apply wp_modify.
  unfold s1, step_ok. cbn [set_heap log_deletion shard heap deleted]. rewrite delete_insert_eq. split; [by apply (inv_freed _ _ _ _ _ _ it (usage_of items))|]. split; [done|]. split; [done|].
  split; [|cbn; unfold deletion_of; by rewrite N1, N2, <-N4].
  assert (∀ q, q ∈ owns c (delete p items) ↔ q ∈ owns (shard s) items ∧ q ≠ p) as Hown.
  { intros q. rewrite !owns_elem. cbn [lru_ c]. destruct (decide (q = p)) as [->|Hqp].
    - rewrite lookup_delete_eq. split; [|tauto]. intros [->|[]]; [|done]. by rewrite (iv_head _ _ _ _ _ _ _ Hinv) in Hp.
    - rewrite lookup_delete_ne by done. tauto. }
  split; [intros q Hq; by apply Hown in Hq as [? _]|]. intros q Hq. rewrite Hown in Hq.
  destruct (decide (q = p)) as [->|Hqp].
  - rewrite lookup_delete_eq, decide_True; [done|]. apply owns_elem. right. by rewrite Hp.
  - rewrite lookup_delete_ne by done. rewrite decide_False; [done|]. tauto.
Qed.

Lemma unref_step s items l l2 p it n : inv (shard s) (heap s) items l l2 (Some p) (usage_of items) → items !! p = Some (it, n) → sized items →
  (p ∉ l → p ∉ l2) →
  wp (Unref p) (λ _ s', let '(a', d) := a_collect p (MkALru l items) in
    inv (shard s') (heap s') (a_items a') l l2 None (usage_of (a_items a')) ∧ a_cached a' = l ∧ step_ok s s' items (a_items a') d) s.
Proof using.
  intros Hinv Hp Hsized Hpl2. pose proof Hinv as [_ _ _ Hi _ _ _ _ _]. destruct (Hi p it n Hp) as (h & Hm & Hnode & Hr & Hne & _).
  destruct Hsized as [Hf Hu] eqn:Es. pose proof (Hf p _ Hp) as [_ Hn]. cbn [snd] in Hn. clear Es.
  rewrite (one_true (Some p = Some p)) in Hr by done. pose proof (one_range (p ∈ l)) as Hone.
  unfold Unref. apply wp_bind, (wp_load _ h); [done|]. apply wp_bind, (wp_lift _ tt); [apply c_assert_true; lia|].
  rewrite u32_small by lia. apply wp_bind, (wp_update _ _ h); [done|].
  destruct (Z.leb_spec (h_refs h - 1) 0) as [Hz|Hz].
  - assert (n = O) as -> by lia. assert (p ∉ l) as Hpl by (intros Hin; rewrite one_true in Hr by done; lia).
    replace (h_refs h - 1) with 0 by lia. unfold a_collect. cbn [a_items a_cached]. rewrite Hp, decide_False by done.
    eapply wp_mono; [apply (free_step s items l l2 p it h); try done; by apply Hpl2|]. intros _ s' [Hinv' Hs']. by split_and!.
  - assert (a_collect p (MkALru l items) = (MkALru l items, [])) as ->.
    { unfold a_collect. cbn [a_items a_cached]. rewrite Hp. destruct n; [|done]. rewrite decide_True; [done|].
      destruct (decide (p ∈ l)) as [|Hpl]; [done|]. rewrite (one_false (p ∈ l)) in Hr by done. lia. }
    apply wp_ret. cbn [set_heap shard heap deleted a_items a_cached]. split; [|split; [done|]].
    + apply (inv_counted _ (heap s) items items l l2 (Some p) None _ p it n n h); [done|done|by rewrite insert_id|done|..].
      * rewrite (one_false (None = Some p)) by done. lia.
      * intros ->. left. destruct (decide (p ∈ l)) as [|Hpl]; [done|]. rewrite (one_false (p ∈ l)) in Hr by done. lia.
      * intros q Hq. split; [done|]. intros [= ->]. done.
    + apply step_ok_same; try done. intros q Hq. cbn [set_heap heap]. rewrite lookup_insert_ne; [done|]. intros <-.
      apply Hq, owns_elem. right. by rewrite Hp.
Qed.

(** ** Operations *)

Definition unique (items : gmap Z (item * nat)) (l : list Z) : Prop :=
  ∀ p q it n it' k, p ∈ l → q ∈ l → items !! p = Some (it, n) → items !! q = Some (it', k) → i_key it = i_key it' → p = q.

(** The memory of a shard represents the abstract one. *)
Definition shard_ok (c : LRUCache) (m : gmap Z LRUHandle) (a : alru) : Prop :=
  inv c m (a_items a) (a_cached a) (a_cached a) None (usage_of (a_items a)) ∧ unique (a_items a) (a_cached a).

Lemma unique_sub items items' l l' : unique items l → (∀ p, p ∈ l' → p ∈ l) →
  (∀ p it n, items' !! p = Some (it, n) → ∃ k, items !! p = Some (it, k)) → unique items' l'.
Proof using.
  clear. intros Hu Hl Hi p q it n it' k Hp Hq Hip Hiq E. destruct (Hi _ _ _ Hip) as [n' Hip']. destruct (Hi _ _ _ Hiq) as [k' Hiq'].
  by apply (Hu p q it n' it' k' (Hl p Hp) (Hl q Hq)).
Qed.

Lemma inv_perm c m items l l2 l2' x u : inv c m items l l2 x u → l2 ≡ₚ l2' → inv c m items l l2' x u.
Proof using.
  intros [Hnd Hh Hc Hi Hl Hl2 Hlive (cs & Ht & Hp) Hu] Hperm. split; try done.
  - intros p Hpl. apply Hl2. by rewrite Hperm.
  - exists cs. split; [done|]. by rewrite Hp.
Qed.

Lemma matches_key c m items l l2 x u key p : inv c m items l l2 x u → is_Some (items !! p) → matches m key (H key) p = has_key items key p.
Proof using.
  intros Hinv [[it n] Hp]. destruct (iv_items _ _ _ _ _ _ _ Hinv p it n Hp) as (h & Hm & (_ & _ & _ & Hk & Hh) & _).
  unfold matches, has_key. rewrite Hm, Hp, Hk, Hh. destruct (decide (key = i_key it)) as [->|Hne].
  - rewrite Z.eqb_refl, !bool_decide_true by done. done.
  - rewrite !bool_decide_false by congruence. apply andb_false_r.
Qed.

Lemma find_unique items l key r : unique items l → r ∈ l → has_key items key r = true → List.find (has_key items key) l = Some r.
Proof using.
  clear. intros Hun Hr Hk. destruct (List.find (has_key items key) l) as [y|] eqn:E.
  - apply find_some in E as [Hy%list_elem_of_In Hky]. f_equal. unfold has_key in *. destruct (items !! y) as [[it n]|] eqn:Ey; [|done].
    destruct (items !! r) as [[it' k]|] eqn:Er; [|done]. apply bool_decide_eq_true in Hk, Hky. apply (Hun y r it n it' k); congruence.
  - by rewrite (find_none _ _ E r) in Hk by by apply list_elem_of_In.
Qed.

(** What the table finds is what the abstract shard finds. *)
Lemma found_matches m items l l2 key r : (∀ y, y ∈ l → matches m key (H key) y = has_key items key y) → unique items l → l2 ≡ₚ l →
  found m l2 key (H key) r →
  (r = NULL ∧ a_find key (MkALru l items) = None) ∨ (r ≠ NULL ∧ r ∈ l ∧ a_find key (MkALru l items) = Some r).
Proof using.
  intros Hm Hun Hp Hf. unfold a_find. cbn [a_items a_cached].
  destruct Hf as [[-> Hnone]|(Hr & Hin & Hmr)]; [left|right]; (split; [done|]).
  - destruct (List.find (has_key items key) l) as [y|] eqn:E; [|done]. apply find_some in E as [Hy%list_elem_of_In Hk].
    rewrite <-Hm, Hnone in Hk by (rewrite ?Hp; done). done.
  - rewrite Hp in Hin. split; [done|]. rewrite Hm in Hmr by done. by apply find_unique.
Qed.

Lemma found_find c m items l l2 x u key r : inv c m items l l2 x u → unique items l → l2 ≡ₚ l → found m l2 key (H key) r →
  (r = NULL ∧ a_find key (MkALru l items) = None) ∨ (r ≠ NULL ∧ r ∈ l ∧ a_find key (MkALru l items) = Some r).
Proof using.
  intros Hinv. apply found_matches. intros y Hy. apply (matches_key c m items l l2 x u); [done|]. by apply (iv_l _ _ _ _ _ _ _ Hinv).
Qed.

Lemma without_perm p l : NoDup l → p ∈ l → l ≡ₚ p :: without p l.
Proof using.
  clear. intros Hnd Hp. apply list_elem_of_split in Hp as (pre & post & ->). rewrite without_split by done. symmetry. apply Permutation_middle.
Qed.

Lemma without_len p l : NoDup l → p ∈ l → length l = S (length (without p l)).
Proof using. clear. intros Hnd Hp. by rewrite (Permutation_length (without_perm p l Hnd Hp)) at 1. Qed.

Lemma lookup_ok s a key : shard_ok (shard s) (heap s) a → sized (a_items a) →
  wp (LRU_Lookup key (H key)) (λ r s', let '(r', a') := a_lookup key a in
    r = r' ∧ shard_ok (shard s') (heap s') a' ∧ step_ok s s' (a_items a) (a_items a') []) s.
Proof using.
  destruct a as [l items]. intros [Hinv Hun] Hsz. cbn [a_items a_cached] in *.
  pose proof Hinv as [Hnd _ _ _ Hl _ _ (cs & Ht & Hp) _]. apply NoDup_cons in Hnd as [_ Hnd].
  destruct (Table_Lookup_Ok s cs key (H key) Ht) as (r & E & Hf). unfold LRU_Lookup, a_lookup.
  apply wp_bind, (wp_intro _ _ _ _ _ E).
  destruct (found_find _ _ items l (concat cs) None _ key r (inv_perm _ _ _ _ _ _ _ _ Hinv (symmetry Hp)) Hun Hp Hf) as [[-> ->]|(Hr & Hrl & ->)].
  - change (NULL =? NULL) with true. apply wp_bind, wp_ret, wp_ret. split; [done|]. split; [by split|]. by apply step_ok_same.
  - replace (r =? NULL) with false by lia. destruct (Hl r Hrl) as [[it n] Hr'].
    apply wp_bind, wp_seq. eapply wp_mono; [by apply (ref_step s items l l r it n _ Hinv Hr' Hsz Hrl)|]. intros _ s1 (E1 & Hi1 & Hs1).
    apply wp_bind. eapply wp_mono; [by apply (remove_step s1 (more r items) l l r _ Hi1)|]. intros _ s2 (E2 & Hi2 & Hs2).
    eapply wp_mono; [apply (append_step s2 (more r items) (without r l) l r _ Hi2); [rewrite without_elem; tauto|by apply more_some; rewrite Hr']|].
    intros _ s3 (E3 & Hi3 & Hs3). apply wp_ret. split; [done|]. split; [|by apply (step_ok_trans _ _ _ _ _ _ [] [] (step_ok_trans _ _ _ _ _ _ [] [] Hs1 Hs2))].
    split; cbn [a_items a_cached] in *.
    + rewrite (usage_alter items r (λ x, (x.1, S x.2))) by done. apply (inv_perm _ _ _ _ l); [done|].
      rewrite (without_perm r l) at 1 by done. apply Permutation_cons_append.
    + apply (unique_sub items _ l); [done| |].
      * intros p. rewrite elem_of_app, without_elem, list_elem_of_singleton. intros [[_ ?]| ->]; done.
      * intros p it' k Hpk. destruct (decide (p = r)) as [->|]; [|rewrite lookup_alter_ne in Hpk by done; by exists k].
        rewrite lookup_alter_eq, Hr' in Hpk. injection Hpk as <- _. by exists n.
Qed.

Lemma collect_items p a : let a' := (a_collect p a).1 in a_cached a' = a_cached a ∧ ∀ q it n, a_items a' !! q = Some (it, n) → a_items a !! q = Some (it, n).
Proof using.
  clear. unfold a_collect. destruct (a_items a !! p) as [[it [|n]]|]; cbn; [|done..]. destruct (decide (p ∈ a_cached a)); [done|]. split; [done|].
  intros q it' k Hq. cbn in Hq. by apply lookup_delete_Some in Hq as [_ ?].
Qed.

Lemma release_ok s a p it n : shard_ok (shard s) (heap s) a → sized (a_items a) → a_items a !! p = Some (it, S n) →
  wp (LRU_Release p) (λ _ s', let '(a', d) := a_release p a in
    shard_ok (shard s') (heap s') a' ∧ step_ok s s' (a_items a) (a_items a') d) s.
Proof using.
  destruct a as [l items]. intros [Hinv Hun] Hsz Hp. cbn [a_items a_cached] in *. unfold LRU_Release, a_release. cbn [a_items a_cached].
  destruct (iv_items _ _ _ _ _ _ _ Hinv p it (S n) Hp) as (h & Hm & _ & Hr & _).
  set (items' := alter _ p items). assert (items' = <[p := (it, n)]> items) as Ei.
  { unfold items'. rewrite <-(insert_id items p (it, S n) Hp) at 1. by rewrite alter_insert_eq. }
  assert (usage_of items' = usage_of items) as Eu by (apply usage_alter; done).
  assert (inv (shard s) (heap s) items' l l (Some p) (usage_of items')) as Hinv'.
  { rewrite Eu. pose proof (inv_counted _ _ items items' l l None (Some p) _ p it (S n) n h (h_refs h) Hinv Hp Ei Hm) as Hc.
    replace (set_refs (h_refs h) h) with h in Hc by by destruct h. rewrite insert_id in Hc by done. apply Hc.
    - rewrite Hr, (one_true (Some p = Some p)), (one_false (None = Some p)) by done. lia.
    - intros _. by right.
    - intros q Hq. split; [by intros [= ->]|done]. }
  assert (sized items') as Hsz'.
  { destruct Hsz as [Hf Hu]. rewrite <-Eu in Hu. split; [|done]. rewrite Ei. apply map_Forall_insert_2; [|done].
    destruct (Hf p _ Hp) as [H1 H2]. cbn [fst snd] in *. split; [done|lia]. }
  assert (items' !! p = Some (it, n)) as Hp' by (rewrite Ei; apply lookup_insert_eq).
  eapply wp_mono; [apply (unref_step s items' l l p it n Hinv' Hp' Hsz'); tauto|]. intros [] s'.
  pose proof (collect_items p (MkALru l items')) as [Hc1 Hc2]. destruct (a_collect p (MkALru l items')) as [a' d]. cbn [fst a_cached a_items] in *.
  intros (Hi & Hl & Hs). split; [|].
  - split; [by rewrite Hl|]. rewrite Hl. apply (unique_sub items _ l); [done|done|]. intros q it' k Hq. apply Hc2 in Hq. rewrite Ei in Hq.
    destruct (decide (p = q)) as [<-|]; [rewrite lookup_insert_eq in Hq; injection Hq as <- <-; by exists (S n)|].
    rewrite lookup_insert_ne in Hq by done. by exists k.
  - destruct Hs as (L & Cc & K & D). split; [done|]. split; [done|]. split; [|done].
    assert (owns (shard s) items' = owns (shard s) items) as <-; [|done]. unfold owns. f_equal. rewrite Ei. apply dom_insert_lookup_L. by rewrite Hp.
Qed.

Lemma collect_sized p a : sized (a_items a) → sized (a_items (a_collect p a).1).
Proof using.
  intros Hs. unfold a_collect. destruct (a_items a !! p) as [[it [|n]]|]; cbn; [|done..]. destruct (decide _); [done|].
  by apply sized_delete.
Qed.

(** An entry that is no longer in the table leaves the list and loses the reference. *)
Lemma drop_ok s items l l2 e : inv (shard s) (heap s) items l l2 None (usage_of items) → l ≡ₚ e :: l2 → unique items (without e l) → sized items →
  wp (_ ← LRU_Remove e; Unref e) (λ _ s', let '(a', d) := a_drop e (MkALru l items) in
    shard_ok (shard s') (heap s') a' ∧ step_ok s s' items (a_items a') d) s.
Proof using.
  intros Hinv Hp Hun Hsz. pose proof (iv_nodup _ _ _ _ _ _ _ Hinv) as Hnd. apply NoDup_cons in Hnd as [_ Hnd].
  assert (e ∈ l) as He by (rewrite Hp; left). destruct (iv_l _ _ _ _ _ _ _ Hinv e He) as [[it n] Hie].
  apply wp_bind. eapply wp_mono; [by apply (remove_step s items l l2 e _ Hinv)|]. intros _ s1 (E1 & Hi1 & Hs1).
  eapply wp_mono; [apply (unref_step s1 items (without e l) l2 e it n Hi1 Hie Hsz)|].
  { intros _. rewrite Hp in Hnd. by apply NoDup_cons in Hnd as [? _]. }
  intros [] s2. unfold a_drop. pose proof (collect_items e (MkALru (without e l) items)) as [Hc1 Hc2]. cbn [a_cached a_items] in *.
  destruct (a_collect e (MkALru (without e l) items)) as [a' d]. cbn [fst] in *. intros (Hi2 & El & Hs2).
  split; [|by apply (step_ok_trans _ _ _ _ _ _ [] d Hs1 Hs2)]. split; rewrite Hc1.
  - apply (inv_perm _ _ _ _ l2); [done|]. apply (Permutation_cons_inv (a := e)). by rewrite <-Hp, <-without_perm.
  - apply (unique_sub items _ (without e l)); [done|done|]. intros p it' k Hpk. exists k. by apply Hc2.
Qed.

Lemma table_remove_step s items l l2 x u key : inv (shard s) (heap s) items l l2 x u → zlen l2 < 2^31 →
  wp (Table_Remove key (H key)) (λ r s',
    (r = NULL ∧ s' = s ∧ ∀ y, y ∈ l2 → has_key items key y = false)
    ∨ (r ≠ NULL ∧ has_key items key r = true ∧ ∃ l2', l2 ≡ₚ r :: l2' ∧ inv (shard s') (heap s') items l l2' x u ∧ step_ok s s' items items [])) s.
Proof using.
  intros Hinv Hsize. pose proof Hinv as [_ _ _ _ _ Hl2 _ (cs & Ht & Hp) _].
  assert (∀ y, y ∈ l2 → matches (heap s) key (H key) y = has_key items key y) as Hm.
  { intros y Hy. apply (matches_key (shard s) (heap s) items l l2 x u); [done|by apply Hl2]. }
  apply (Table_Remove_wp s cs key (H key)); [done|rewrite (Permutation_length Hp); lia|]. split.
  - intros Hnone. left. split; [done|]. split; [done|]. intros y Hy. rewrite <-Hm by done. apply Hnone. by rewrite Hp.
  - intros r m' t' cs' Hr Hmr Hperm Ht' Hs Hf. right. split; [done|]. assert (l2 ≡ₚ r :: concat cs') as Hp' by (by rewrite <-Hp).
    split; [rewrite <-Hm; [done|rewrite Hp'; left]|]. exists (concat cs'). split; [done|]. split.
    + apply (inv_rehashed _ _ cs' (heap s) _ items l l2); [done|done|done|done|]. intros p Hpc. apply Hl2. rewrite Hp'. by right.
    + apply step_ok_same; try done. intros q Hq. apply Hf. rewrite Hp. intros Hin. apply Hq, owns_elem. right. by apply Hl2.
Qed.

Lemma erase_ok s a key : shard_ok (shard s) (heap s) a → sized (a_items a) → zlen (a_cached a) < 2^31 →
  wp (LRU_Erase key (H key)) (λ _ s', let '(a', d) := a_erase key a in
    shard_ok (shard s') (heap s') a' ∧ step_ok s s' (a_items a) (a_items a') d) s.
Proof using.
  destruct a as [l items]. intros [Hinv Hun] Hsz Hsize. cbn [a_items a_cached] in *. unfold LRU_Erase, a_erase, a_find. cbn [a_items a_cached].
  apply wp_bind. eapply wp_mono; [by apply (table_remove_step s items l l None _ key Hinv)|].
  intros r s1 [(-> & -> & Hnone)|(Hr & Hk & l2' & Hp & Hi1 & Hs1)].
  - change (NULL =? NULL) with true. cbv iota. destruct (List.find (has_key items key) l) as [y|] eqn:E.
    { apply find_some in E as [Hy%list_elem_of_In Hk]. by rewrite Hnone in Hk. }
    apply wp_ret. split; [by split|]. by apply step_ok_same.
  - replace (r =? NULL) with false by lia. cbv iota.
    rewrite (find_unique items l key r) by (done || (rewrite Hp; left)).
    eapply wp_mono; [apply (drop_ok s1 items l l2' r Hi1 Hp); [|done]|].
    { apply (unique_sub items _ l); [done|intros p Hpw; by apply without_elem in Hpw as [_ ?]|intros p it n ?; by exists n]. }
    intros [] s2. destruct (a_drop r (MkALru l items)) as [a' d]. intros [H1 H2]. split; [done|]. by apply (step_ok_trans _ _ _ _ _ _ [] d Hs1).
Qed.

(** ** Eviction *)

Lemma drop_unfold e a : a_drop e a = a_collect e (MkALru (without e (a_cached a)) (a_items a)).
Proof using. done. Qed.

(** The oldest entry leaves the list, the table, and loses its reference. *)
Lemma evict_one s items l e : inv (shard s) (heap s) items (e :: l) (e :: l) None (usage_of items) → unique items (e :: l) → sized items →
  zlen (e :: l) < 2^31 →
  wp (_ ← LRU_Remove e; key ← handle_key e; h ← load e; _ ← Table_Remove key (h_hash h); Unref e)
    (λ _ s', let '(a', d) := a_drop e (MkALru (e :: l) items) in
       a_cached a' = l ∧ sized (a_items a') ∧ shard_ok (shard s') (heap s') a' ∧ step_ok s s' items (a_items a') d) s.
Proof using.
  intros Hinv Hun Hsz Hsize. pose proof Hinv as [Hnd _ _ _ Hl _ _ _ _]. apply NoDup_cons in Hnd as [_ Hnd]. pose proof Hnd as Hnd'.
  apply NoDup_cons in Hnd' as [Hel _]. destruct (Hl e ltac:(left)) as [[it n] Hie].
  assert (without e (e :: l) = l) as Ew by (by apply (without_split [] e l)).
  apply wp_bind. eapply wp_mono; [apply (remove_step s items (e :: l) (e :: l) e _ Hinv); left|]. intros _ s1 (E1 & Hi1 & Hs1). rewrite Ew in Hi1.
  destruct (iv_items _ _ _ _ _ _ _ Hi1 e it n Hie) as (h & Hm & (_ & _ & _ & Hk & Hh) & _ & Hne & _).
  apply wp_bind, (wp_intro _ _ _ _ _ (handle_key_Ok s1 e h Hm Hne)). apply wp_bind, (wp_load _ h); [done|]. rewrite Hk, Hh.
  apply wp_bind. eapply wp_mono; [by apply (table_remove_step s1 items l (e :: l) (Some e) _ (i_key it) Hi1)|].
  assert (has_key items (i_key it) e = true) as Hke by (unfold has_key; rewrite Hie; by apply bool_decide_eq_true).
  intros r s2 [(-> & -> & Hnone)|(Hr & Hkr & l2 & Hp & Hi2 & Hs2)]; [by rewrite Hnone in Hke by left|].
  assert (r = e) as ->.
  { unfold has_key in Hkr. destruct (items !! r) as [[it' k]|] eqn:Er; [|done]. apply bool_decide_eq_true in Hkr.
    apply (Hun r e it' k it n); [rewrite Hp; left|left|done|done|done]. }
  apply Permutation_cons_inv in Hp. eapply wp_mono; [apply (unref_step s2 items l l2 e it n Hi2 Hie Hsz)|]; [intros _; by rewrite <-Hp|].
  intros [] s3. unfold a_drop. cbn [a_cached a_items]. rewrite Ew.
  pose proof (collect_items e (MkALru l items)) as [Hc1 Hc2]. pose proof (collect_sized e (MkALru l items) Hsz) as Hsz'.
  cbn [a_cached a_items] in *. destruct (a_collect e (MkALru l items)) as [a' d]. cbn [fst] in *. intros (Hi3 & El & Hs3).
  split; [done|]. split; [done|]. split; [split; rewrite Hc1|].
  - by apply (inv_perm _ _ _ _ l2).
  - apply (unique_sub items _ (e :: l)); [done|intros p ?; by right|]. intros p it' k Hpk. exists k. by apply Hc2.
  - apply (step_ok_trans s s1 s3 items items _ [] d); [done|]. by apply (step_ok_trans s1 s2 s3 items items _ [] d).
Qed.

Lemma evict_ok fuel : ∀ s a n, shard_ok (shard s) (heap s) a → sized (a_items a) → zlen (a_cached a) < 2^31 → (length (a_cached a) < fuel)%nat →
  (length (a_cached a) ≤ n)%nat →
  wp (evict_loop fuel) (λ _ s', let '(a', d) := a_evict n (capacity_ (shard s)) a in
    shard_ok (shard s') (heap s') a' ∧ step_ok s s' (a_items a) (a_items a') d) s.
Proof using.
  induction fuel as [|fuel IH]; intros s [l items] n [Hinv Hun] Hsz Hsize Hf Hn; [lia|]. cbn [a_cached a_items] in *. cbn [evict_loop].
  pose proof Hinv as [Hnd _ Hc _ _ _ _ _ Hu].
  assert (nxt (heap s) (lru_ (shard s)) = Some (match l with [] => lru_ (shard s) | p :: _ => p end)) as Hnx by (destruct l; apply Hc).
  unfold nxt in Hnx. destruct (heap s !! lru_ (shard s)) as [hl|] eqn:Eh; [|done]. injection Hnx as Hnx.
  apply wp_bind, (wp_intro _ _ _ _ _ eq_refl). apply wp_bind, (wp_load _ hl); [done|]. rewrite Hu, Hnx.
  assert (shard_ok (shard s) (heap s) (MkALru l items) ∧ step_ok s s items items []) as Hsame by (split; [by split|by apply step_ok_same]).
  destruct l as [|p l].
  - rewrite Z.eqb_refl, andb_false_r. apply wp_ret. destruct n; exact Hsame.
  - destruct n as [|n]; [simpl in Hn; lia|]. apply NoDup_cons in Hnd as [Hh _].
    replace (p =? lru_ (shard s)) with false by (symmetry; apply Z.eqb_neq; intros ->; apply Hh; left). rewrite andb_true_r.
    cbn [a_evict a_cached a_items]. destruct (capacity_ (shard s) <? usage_of items); [|apply wp_ret; exact Hsame].
    assert (∀ Q, wp (x ← (_ ← LRU_Remove p; key ← handle_key p; h ← load p; _ ← Table_Remove key (h_hash h); Unref p); evict_loop fuel) Q s →
      wp (_ ← LRU_Remove p; key ← handle_key p; h ← load p; _ ← Table_Remove key (h_hash h); _ ← Unref p; evict_loop fuel) Q s) as Hassoc.
    { intros Q. unfold wp, mbind, st_bind. destruct (LRU_Remove p s) as [[? s1]|]; [|done]. destruct (handle_key p s1) as [[? s2]|]; [|done].
      destruct (load p s2) as [[? s3]|]; [|done]. by destruct (Table_Remove _ _ s3) as [[? s4]|]. }
    apply Hassoc, wp_bind. eapply wp_mono; [by apply (evict_one s items l p Hinv Hun Hsz)|].
    intros [] s1. destruct (a_drop p (MkALru (p :: l) items)) as [a1 d1]. intros (El & Hsz1 & Hok1 & Hs1).
    pose proof Hs1 as (_ & Ecap & _). cbn [length] in *.
    eapply wp_mono; [apply (IH s1 a1 n Hok1 Hsz1); rewrite El; lia|]. intros [] s2. rewrite Ecap.
    destruct (a_evict n (capacity_ (shard s)) a1) as [a2 d2]. intros [H1 H2]. split; [done|]. by apply (step_ok_trans s s1 s2 _ (a_items a1)).
Qed.

End shard.

(** * The LRU cache: insertion into a shard *)

Section shard.
Context (H : list byte → Z).

#[local] Abbreviation inv := (inv H).
#[local] Abbreviation node := (node H).
#[local] Abbreviation shard_ok := (shard_ok H).

(** ** Insertion *)

(** The heap after the stores of [Insert] and [LRU_Append] for the new entry [e]. *)
Record extended (c : LRUCache) (m m' : gmap Z LRUHandle) (items : gmap Z (item * nat)) (l : list Z) (e : Z) (it : item) (h0 : LRUHandle) : Prop := {
  ex_inv : inv c m items l l None (usage_of items);
  ex_new : m !! e = None;
  ex_null : e ≠ NULL;
  ex_node : node h0 it ∧ h_refs h0 = 2;
  ex_same : same unlinked (<[e := h0]> m) m';
  ex_circ : circ m' (lru_ c) (l ++ [e]);
  ex_frame : ∀ p, p ∉ lru_ c :: e :: l → m' !! p = <[e := h0]> m !! p;
  ex_nodup : NoDup (lru_ c :: l ++ [e]) }.

Lemma new_item c m items l e : inv c m items l l None (usage_of items) → m !! e = None → items !! e = None ∧ e ∉ l.
Proof using.
  intros Hinv Hme. assert (items !! e = None) as Hie.
  { destruct (items !! e) as [[it' n]|] eqn:E; [|done]. destruct (iv_items _ _ _ _ _ _ _ _ Hinv e it' n E) as (h & Hm & _). by rewrite Hme in Hm. }
  split; [done|]. intros Hin. apply (iv_l _ _ _ _ _ _ _ _ Hinv) in Hin as [? E]. by rewrite Hie in E.
Qed.

Lemma extended_items c m m' items l e it h0 : extended c m m' items l e it h0 →
  ∀ p it' n, <[e := (it, 1%nat)]> items !! p = Some (it', n) → ∃ h, m' !! p = Some h ∧ node h it'
    ∧ h_refs h = Z.of_nat n + one (p ∈ l ++ [e]) + one (None = Some p) ∧ h_next h ≠ p ∧ p ≠ NULL.
Proof using.
  intros [Hinv Hme He0 [Hnode Hrefs] Hs Hc' Hf Hnd'] p it' n Hpi. destruct (new_item _ _ _ _ _ Hinv Hme) as [Hie Hel].
  pose proof Hinv as [_ Hh _ Hi _ _ _ _ _]. rewrite (one_false (None = Some p)) by done.
  assert (∀ h', m' !! p = Some h' → p ∈ l ++ [e] → h_next h' ≠ p) as Hnext.
  { intros h' Hm' Hin. pose proof (circ_next_ne m' (lru_ c) (l ++ [e]) p Hc' Hnd' Hin) as Hx. unfold nxt in Hx. rewrite Hm' in Hx.
    intros E; apply Hx; simpl; by rewrite E. }
  destruct (decide (e = p)) as [<-|Hep].
  - rewrite lookup_insert_eq in Hpi. injection Hpi as <- <-.
    destruct (same_lookup _ _ _ e h0 Hs (lookup_insert_eq _ _ _)) as (h' & Hm' & E). destruct (unlinked_node H h0 h' it E Hnode) as [Hn' Hr'].
    exists h'. split; [done|]. split; [done|]. assert (e ∈ l ++ [e]) as Hin by (apply elem_of_app; right; left).
    rewrite (one_true (e ∈ l ++ [e])) by done. split; [lia|]. split; [|done]. by apply Hnext.
  - rewrite lookup_insert_ne in Hpi by done. destruct (Hi p it' n Hpi) as (h & Hm & Hn & Hr & Hne & Hp0).
    assert (<[e := h0]> m !! p = Some h) as Hm1 by by rewrite lookup_insert_ne.
    destruct (same_lookup _ _ _ p h Hs Hm1) as (h' & Hm' & E). destruct (unlinked_node H h h' it' E Hn) as [Hn' Hr'].
    exists h'. split; [done|]. split; [done|]. rewrite (one_false (None = Some p)) in Hr by done. split; [|split; [|done]].
    + rewrite Hr', Hr. unfold one. rewrite (decide_ext (p ∈ l ++ [e]) (p ∈ l)); [lia|]. rewrite elem_of_app, list_elem_of_singleton. split; [by intros [?| ->]|by left].
    + destruct (decide (p ∈ l)); [apply Hnext; [done|apply elem_of_app; by left]|].
      rewrite Hf, Hm1 in Hm'; [by injection Hm' as <-|]. intros [->|[->|?]%elem_of_cons]%elem_of_cons; [by rewrite Hh in Hpi|done|done].
Qed.

Lemma inv_extend c m m' items l e it h0 : extended c m m' items l e it h0 →
  inv c m' (<[e := (it, 1%nat)]> items) (l ++ [e]) l None (usage_of items).
Proof using.
  intros Hex. pose proof (extended_items _ _ _ _ _ _ _ _ Hex) as Hi'. destruct Hex as [Hinv Hme He0 [Hnode Hrefs] Hs Hc' Hf Hnd'].
  destruct (new_item _ _ _ _ _ Hinv Hme) as [Hie Hel]. destruct Hinv as [Hnd Hh Hc Hi Hl Hl2 Hlive (cs & Ht & Hp) Hu].
  assert (∀ p, is_Some (items !! p) → is_Some (<[e := (it, 1%nat)]> items !! p)) as Hsome.
  { intros p Hpi. rewrite lookup_insert_ne; [done|]. intros <-. rewrite Hie in Hpi. by destruct Hpi. }
  split; try done.
  - rewrite lookup_insert_ne; [done|]. intros E. apply NoDup_cons in Hnd' as [Hx _]. apply Hx. rewrite <-E, elem_of_app. right. left.
  - intros p [Hpl|Hpe]%elem_of_app; [by apply Hsome, Hl|]. apply list_elem_of_singleton in Hpe as ->. by rewrite lookup_insert_eq.
  - intros p Hpl. by apply Hsome, Hl2.
  - intros p it' Hpi. left. apply elem_of_app. destruct (decide (e = p)) as [<-|]; [right; left|].
    rewrite lookup_insert_ne in Hpi by done. left. by destruct (Hlive p it' Hpi).
  - exists cs. split; [|done]. apply (table_unlinked (<[e := h0]> m)); [|done|].
    + apply (table_local m); [done|]. intros x Hx. rewrite lookup_insert_ne; [done|]. intros <-. rewrite Hp in Hx. done.
    + intros x Hx. rewrite Hp in Hx. destruct (Hsome x (Hl2 x Hx)) as [[it' n] E]. destruct (Hi' x it' n E) as (h & Hm & _ & _ & Hne & _). by exists h.
Qed.

Lemma usage_inv c m items l l2 x u u' : inv c m items l l2 x u → inv (MkLRU (capacity_ c) u' (lru_ c) (table_ c)) m items l l2 x u'.
Proof using. by intros []. Qed.

Lemma sized_insert items e it : items !! e = None → sized items → 0 ≤ i_charge it → usage_of items + i_charge it < 2^64 →
  sized (<[e := (it, 1%nat)]> items).
Proof using.
  clear. intros He [Hf Hu] Hc Hsum. split; [|rewrite usage_insert by done; lia]. apply map_Forall_insert_2; [|done]. cbn. lia.
Qed.

(** [Table_Insert] replaces the entry with the same key. *)
Lemma rehash_step s items l e it u : inv (shard s) (heap s) (<[e := (it, 1%nat)]> items) (l ++ [e]) l None u →
  items !! e = None → (∀ p, p ∈ l → is_Some (items !! p)) → unique items l → zlen l < 2^31 →
  wp (Table_Insert e) (λ old s', ∃ l2, inv (shard s') (heap s') (<[e := (it, 1%nat)]> items) (l ++ [e]) l2 None u
    ∧ step_ok s s' (<[e := (it, 1%nat)]> items) (<[e := (it, 1%nat)]> items) []
    ∧ ((old = NULL ∧ a_find (i_key it) (MkALru l items) = None ∧ l2 ≡ₚ l ++ [e])
       ∨ (old ≠ NULL ∧ a_find (i_key it) (MkALru l items) = Some old ∧ l ++ [e] ≡ₚ old :: l2))) s.
Proof using.
  set (items' := <[e := (it, 1%nat)]> items). intros Hinv Hie Hl Hun Hsize. pose proof Hinv as [Hnd _ _ Hi _ Hl2 _ (cs & Ht & Hp) _].
  assert (e ∉ l) as Hel by (intros Hin; apply Hl in Hin as [? E]; by rewrite Hie in E).
  destruct (Hi e it 1%nat (lookup_insert_eq _ _ _)) as (h & Hm & (_ & _ & _ & Hk & Hh) & _ & Hne & He0).
  apply (Table_Insert_wp s cs e h); [done|done|done|done|by rewrite Hp|by rewrite (Permutation_length Hp)|].
  intros old m' t' cs' l0 Hf Ht' Hp' Hnull Hsome Hs Hfr. rewrite Hk, Hh in Hf. exists (concat cs').
  assert (∀ p, p ∈ l → matches (heap s) (i_key it) (H (i_key it)) p = has_key items (i_key it) p) as Hmatch.
  { intros p Hpl. rewrite (matches_key H _ _ _ _ _ _ _ (i_key it) p Hinv) by by apply Hl2. unfold has_key, items'.
    rewrite lookup_insert_ne; [done|by intros <-]. }
  assert (∀ p, p ∈ e :: l → p ∈ l ++ [e]) as Hperm by (intros p; rewrite elem_of_cons, elem_of_app, list_elem_of_singleton; tauto).
  assert (∀ p, p ∈ l0 → p ∈ l) as Hl0.
  { intros p Hpl. rewrite <-Hp. destruct (decide (old = NULL)) as [E|E]; [by rewrite (Hnull E)|]. rewrite (Hsome E). by right. }
  assert (∀ p, p ∈ concat cs' → p ∈ l ++ [e]) as Hincl.
  { intros p Hpc. apply Hperm. rewrite Hp' in Hpc. apply elem_of_cons in Hpc as [->|Hpc]; [left|right; by apply Hl0]. }
  split; [|split].
  - apply (inv_rehashed H _ _ cs' (heap s) _ items' (l ++ [e]) l); [done|done|done|done|]. intros p Hpc. by apply (iv_l _ _ _ _ _ _ _ _ Hinv), Hincl.
  - apply step_ok_same; try done. intros q Hq. apply Hfr. rewrite Hp. intros Hin. apply Hq, owns_elem. right.
    by apply (iv_l _ _ _ _ _ _ _ _ Hinv), Hperm.
  - rewrite Hp', <-Permutation_cons_append. destruct (found_matches H _ items l _ _ old Hmatch Hun Hp Hf) as [[Hr ->]|(Hr & Hin & ->)]; [left|right].
    + split; [done|]. split; [done|]. by rewrite <-(Hnull Hr), Hp.
    + split; [done|]. split; [done|]. rewrite <-Hp, (Hsome Hr). apply Permutation_swap.
Qed.

(** No other entry has the key of the new one. *)
Lemma unique_insert items l e it l' : items !! e = None → unique items l →
  (∀ p, p ∈ l' → p = e ∨ (p ∈ l ∧ p ≠ e ∧ has_key items (i_key it) p = false)) → unique (<[e := (it, 1%nat)]> items) l'.
Proof using.
  clear. intros He Hun Hl p q itp n itq k Hp Hq Hip Hiq E.
  assert (∀ x y itx itx', y ∈ l → x = e → has_key items (i_key it) y = false → <[e := (it, 1%nat)]> items !! x = Some itx →
    items !! y = Some itx' → i_key itx.1 = i_key itx'.1 → False) as Hno.
  { intros x y itx [ity j] _ -> Hk Hx Hy Ex. rewrite lookup_insert_eq in Hx. injection Hx as <-. unfold has_key in Hk. rewrite Hy in Hk.
    by apply bool_decide_eq_false in Hk. }
  destruct (Hl p Hp) as [->|(Hpl & Hpe & Hpk)], (Hl q Hq) as [->|(Hql & Hqe & Hqk)].
  - done.
  - rewrite (lookup_insert_ne _ e q) in Hiq by done. by destruct (Hno e q _ _ Hql eq_refl Hqk Hip Hiq).
  - rewrite (lookup_insert_ne _ e p) in Hip by done. by destruct (Hno e p _ _ Hpl eq_refl Hpk Hiq Hip).
  - rewrite lookup_insert_ne in Hip, Hiq by done. by apply (Hun p q itp n itq k).
Qed.

Lemma not_found items l key p : a_find key (MkALru l items) = None → p ∈ l → has_key items key p = false.
Proof using. clear. intros Hf Hp. apply (find_none _ _ Hf). by apply list_elem_of_In. Qed.

Lemma found_only items l key old p : a_find key (MkALru l items) = Some old → unique items l → p ∈ l → p ≠ old → has_key items key p = false.
Proof using.
  clear. intros [Ho%list_elem_of_In Hko]%find_some Hun Hp Hne. destruct (has_key items key p) eqn:Hk; [|done]. destruct Hne. cbn [a_items a_cached] in *.
  unfold has_key in *. destruct (items !! p) as [[it n]|] eqn:Ep; [|done]. destruct (items !! old) as [[it' k]|] eqn:Eo; [|done].
  apply bool_decide_eq_true in Hk, Hko. apply (Hun p old it n it' k); congruence.
Qed.

Lemma replace_ok s items l e it : inv (shard s) (heap s) (<[e := (it, 1%nat)]> items) (l ++ [e]) l None (usage_of (<[e := (it, 1%nat)]> items)) →
  items !! e = None → (∀ p, p ∈ l → is_Some (items !! p)) → unique items l → sized (<[e := (it, 1%nat)]> items) → zlen l < 2^31 →
  wp (old ← Table_Insert e; if old =? NULL then mret tt else _ ← LRU_Remove old; Unref old)
    (λ _ s', let '(a', d) := a_place e it (MkALru l items) in
       shard_ok (shard s') (heap s') a' ∧ step_ok s s' (<[e := (it, 1%nat)]> items) (a_items a') d) s.
Proof using.
  set (items' := <[e := (it, 1%nat)]> items). intros Hinv Hie Hl Hun Hsz Hsize.
  assert (e ∉ l) as Hel by (intros Hin; apply Hl in Hin as [? E]; by rewrite Hie in E).
  apply wp_bind. eapply wp_mono; [by apply (rehash_step s items l e it _ Hinv)|]. fold items'. unfold a_place. cbn [a_cached a_items].
  intros old s1 (l2 & Hi1 & Hs1 & [(-> & Ef & Hp)|(Hr & Ef & Hp)]); rewrite Ef.
  - change (NULL =? NULL) with true. apply wp_ret. split; [|done]. split; [by apply (inv_perm _ _ _ _ _ l2)|]. cbn [a_items a_cached].
    apply (unique_insert items l); [done|done|]. intros p Hpl. rewrite elem_of_app, list_elem_of_singleton in Hpl.
    destruct Hpl as [Hpl|]; [right|by left]. split; [done|]. split; [by intros ->|]. by apply (not_found items l).
  - replace (old =? NULL) with false by lia. eapply wp_mono; [apply (drop_ok H s1 items' (l ++ [e]) l2 old Hi1 Hp); [|done]|].
    + apply (unique_insert items l); [done|done|]. intros p [Hpo Hpl]%without_elem. rewrite elem_of_app, list_elem_of_singleton in Hpl.
      destruct (decide (p = e)) as [|Hpe]; [by left|right]. destruct Hpl as [Hpl|]; [|done].
      split; [done|]. split; [done|]. by apply (found_only items l _ old).
    + intros [] s2. fold items'. destruct (a_drop old (MkALru (l ++ [e]) items')) as [a' d]. intros [H1 H2]. split; [done|].
      by apply (step_ok_trans _ _ _ _ _ _ [] d Hs1).
Qed.

Context `{Malloc}.

(** [malloc] returns an address that is not in use. *)
Class MallocSpec : Prop := { malloc_fresh : ∀ X : gset Z, malloc X ∉ X; malloc_nonnull : ∀ X : gset Z, malloc X ≠ NULL }.
Context `{!MallocSpec}.

Definition new_handle (garbage : Z * Z) (it : item) : LRUHandle :=
  MkHandle (i_value it) (i_deleter it) NULL garbage.1 garbage.2 (i_charge it) (zlen (i_key it)) 2 (H (i_key it)) (i_key it).
Definition with_new (garbage : Z * Z) (it : item) (s : Lru) : Lru :=
  set_heap (<[malloc (dom (heap s)) := new_handle garbage it]> (heap s)) s.

Lemma new_node garbage it : node (new_handle garbage it) it.
Proof using. clear. unfold LruInsert.node, key_of, zlen. cbn. rewrite Nat2Z.id, firstn_all. by split_and!. Qed.

(** The entry before it is hashed. *)
Lemma linked_ok s items l e garbage it m' : inv (shard s) (heap s) items l l None (usage_of items) → e = malloc (dom (heap s)) → e ∉ lru_ (shard s) :: l →
  sized items → 0 ≤ i_charge it → usage_of items + i_charge it < 2^64 →
  let m := <[e := new_handle garbage it]> (heap s) in
  circ m' (lru_ (shard s)) (l ++ [e]) → same unlinked m m' → (∀ p, p ∉ lru_ (shard s) :: e :: l → m' !! p = m !! p) →
  let items' := <[e := (it, 1%nat)]> items in
  let s1 := set_shard (MkLRU (capacity_ (shard s)) (u64 (usage_ (shard s) + i_charge it)) (lru_ (shard s)) (table_ (shard s))) (set_heap m' s) in
  inv (shard s1) (heap s1) items' (l ++ [e]) l None (usage_of items') ∧ step_ok (with_new garbage it s) s1 items' items' [].
Proof using All.
  intros Hinv -> Hel Hsz Hcharge Husage m Hc' Hs Hf items' s1. set (e := malloc (dom (heap s))) in *.
  assert (heap s !! e = None) as He by (apply not_elem_of_dom, malloc_fresh). destruct (new_item _ _ _ _ _ Hinv He) as [Hie _].
  pose proof Hinv as [Hnd _ _ _ Hl _ _ _ Hu]. pose proof (usage_nonneg items (proj1 Hsz)) as Hpos.
  assert (inv (shard s) m' items' (l ++ [e]) l None (usage_of items)) as Hi1.
  { apply (inv_extend _ (heap s) m' items l e it (new_handle garbage it)). split; try done.
    - apply malloc_nonnull.
    - split; [apply new_node|done].
    - rewrite app_comm_cons. apply NoDup_app. split; [done|]. split; [|apply NoDup_singleton]. by intros x Hx ->%list_elem_of_singleton. }
  split.
  - apply (usage_inv _ _ _ _ _ _ (usage_of items) (usage_of items')) in Hi1. cbn [s1 set_shard set_heap shard heap]. unfold items' in *.
    rewrite Hu, u64_small, Z.add_comm, <-(usage_insert items e it 1) by (done || lia). exact Hi1.
  - apply step_ok_same; try done. intros q Hq. apply Hf. intros Hin. apply Hq, owns_elem.
    apply elem_of_cons in Hin as [->|[->|Hin]%elem_of_cons]; [by left|right..].
    + unfold items'. by rewrite lookup_insert_eq.
    + unfold items'. destruct (decide (e = q)) as [<-|]; [by rewrite lookup_insert_eq|]. rewrite lookup_insert_ne by done. by apply Hl.
Qed.

(** The loop that evicts runs less often than the heap has entries. *)
Lemma cached_size c m a : shard_ok c m a → (length (a_cached a) ≤ size m)%nat.
Proof using.
  intros [Hinv _]. pose proof Hinv as [Hnd _ _ Hi Hl _ _ _ _]. apply NoDup_cons in Hnd as [_ Hnd].
  rewrite <-(size_list_to_set (C := gset Z)), <-size_dom by done. apply subseteq_size. intros p Hp. apply elem_of_list_to_set, Hl in Hp as [[it n] Hp].
  destruct (Hi p it n Hp) as (h & Hm & _). by apply elem_of_dom.
Qed.

Lemma place_cached e it a : e ∉ a_cached a → (length (a_cached (a_place e it a).1) ≤ S (length (a_cached a)))%nat.
Proof using.
  clear. intros He. unfold a_place. destruct (a_find (i_key it) a) as [old|]; cbn [fst]; [|cbn; rewrite length_app; simpl; lia].
  rewrite drop_unfold. rewrite (proj1 (collect_items _ _)). cbn. unfold without. etrans; [apply length_filter|]. rewrite length_app. simpl. lia.
Qed.

Lemma place_sized e it a : sized (<[e := (it, 1%nat)]> (a_items a)) → sized (a_items (a_place e it a).1).
Proof using. clear. intros Hs. unfold a_place. destruct (a_find (i_key it) a) as [old|]; [|done]. rewrite drop_unfold. by apply collect_sized. Qed.

Lemma insert_ok s a garbage it : shard_ok (shard s) (heap s) a → sized (a_items a) → 0 ≤ i_charge it → usage_of (a_items a) + i_charge it < 2^64 →
  zlen (a_cached a) < 2^31 - 1 → let e := malloc (dom (heap s)) in
  wp (LRU_Insert garbage (i_key it) (H (i_key it)) (i_value it) (i_charge it) (i_deleter it))
    (λ r s', let '(a', d) := a_insert e it (capacity_ (shard s)) a in
       r = e ∧ shard_ok (shard s') (heap s') a'
       ∧ step_ok (with_new garbage it s) s' (<[e := (it, 1%nat)]> (a_items a)) (a_items a') d) s.
Proof using All.
  destruct a as [l items]. intros [Hinv Hun] Hsz Hcharge Husage Hsize e. cbn [a_items a_cached] in *. unfold LRU_Insert.
  assert (heap s !! e = None) as He by (apply not_elem_of_dom, malloc_fresh). pose proof (malloc_nonnull (dom (heap s))) as He0. fold e in He0.
  destruct (new_item _ _ _ _ _ Hinv He) as [Hie Hel]. pose proof Hinv as [Hnd Hh Hc _ Hl _ _ _ Hu].
  assert (e ∉ lru_ (shard s) :: l) as Hne.
  { intros [E|?]%elem_of_cons; [|done]. rewrite E in He. unfold circ in Hc. destruct l; destruct Hc as [Hn _]; unfold nxt in Hn; by rewrite He in Hn. }
  apply wp_bind, (wp_intro _ _ _ _ _ eq_refl). fold e. apply wp_bind, wp_modify. fold (new_handle garbage it).
  apply wp_bind, (LRU_Append_wp _ l e (new_handle garbage it)); [|done|done|apply lookup_insert_eq|].
  { apply (circ_local (heap s)); [done|]. intros x Hx. cbn. rewrite lookup_insert_ne; [done|]. by intros <-. }
  intros m' Hc' Hs Hf. apply wp_bind, (wp_intro _ _ _ _ _ eq_refl). apply wp_bind, wp_modify.
  destruct (linked_ok s items l e garbage it m' Hinv eq_refl Hne Hsz Hcharge Husage Hc' Hs Hf) as [Hi1 Hs1].
  set (s1 := set_shard _ (set_heap m' s)) in *. set (items' := <[e := (it, 1%nat)]> items) in *.
  assert (sized items') as Hsz' by by apply sized_insert.
  apply wp_seq. eapply wp_mono; [apply (replace_ok s1 items l e it); try done; lia|]. intros [] s2.
  pose proof (place_cached e it (MkALru l items) Hel) as Hlen. pose proof (place_sized e it (MkALru l items) Hsz') as Hsz2. unfold a_insert.
  destruct (a_place e it (MkALru l items)) as [a1 d1]. cbn [fst a_cached a_items] in *. intros [Hok2 Hs2]. fold items' in Hs2.
  apply wp_bind, (wp_intro _ _ _ _ _ eq_refl). apply wp_bind.
  assert (step_ok (with_new garbage it s) s2 items' (a_items a1) d1) as Hs3 by by apply (step_ok_trans _ _ _ _ _ _ [] d1 Hs1).
  eapply wp_mono; [apply (evict_ok H _ s2 a1 (length (a_cached a1)) Hok2 Hsz2)|]; [lia| |done|].
  { pose proof (cached_size _ _ _ Hok2). lia. }
  replace (capacity_ (shard s2)) with (capacity_ (shard s)) by (by destruct Hs3 as (_ & -> & _)).
  intros [] s3. destruct (a_evict _ _ a1) as [a2 d2]. intros [Hok3 Hs4]. apply wp_ret. split; [done|]. split; [done|].
  by apply (step_ok_trans _ _ _ _ _ _ d1 d2 Hs3).
Qed.
End shard.
