(* ===== verification/LruClient.v ===== *)
(** * Clients of the LRU cache

    Every shard owns its dummy head and its entries in the common heap; an operation of one shard
    leaves the others alone.

    A client inserts, looks up and erases keys, and gives back handles it holds. Every program of
    a client runs, and does what the list of abstract shards says. *)
From stdpp Require Import gmap.
From S2P Require Import Prelude Crc32c Bloom LruCache LruTable LruInsert.

#[local] Open Scope Z_scope.

(** ** What the abstract operations keep *)

(** The entries that are alive were alive before. *)
Definition kin (items items' : gmap Z (item * nat)) : Prop :=
  ∀ p it n, items' !! p = Some (it, n) → ∃ k, items !! p = Some (it, k).

Lemma kin_refl items : kin items items.
Proof. intros p it n Hp. by exists n. Qed.
Lemma kin_trans i1 i2 i3 : kin i1 i2 → kin i2 i3 → kin i1 i3.
Proof. intros H1 H2 p it n Hp. destruct (H2 p it n Hp) as [k Hk]. by apply (H1 p it k). Qed.
Lemma kin_alter f p items : (∀ x : item * nat, (f x).1 = x.1) → kin items (alter f p items).
Proof.
  intros Hf q it n Hq. destruct (decide (q = p)) as [->|]; [|rewrite lookup_alter_ne in Hq by done; by exists n].
  rewrite lookup_alter_eq in Hq. destruct (items !! p) as [[it' k]|]; [|done]. injection Hq as Hq. pose proof (Hf (it', k)) as E.
  rewrite Hq in E. cbn in E. subst it'. by exists k.
Qed.

(** [n] bounds the counts and the number of cached entries, [u] the usage. *)
Record small (n : nat) (u : Z) (a : alru) : Prop := {
  sm_items : map_Forall (λ _ x, 0 ≤ i_charge x.1 ∧ (x.2 ≤ n)%nat) (a_items a);
  sm_usage : usage_of (a_items a) ≤ u;
  sm_cached : (length (a_cached a) ≤ n)%nat }.

Lemma small_mono n u n' u' a : small n u a → (n ≤ n')%nat → u ≤ u' → small n' u' a.
Proof. intros [H1 H2 H3] Hn Hu. split; [|lia|lia]. intros p x Hx. destruct (H1 p x Hx). split; [done|lia]. Qed.

Lemma small_sized n u a : small n u a → Z.of_nat n + 2 < 2^31 → u < 2^64 → sized (a_items a) ∧ zlen (a_cached a) < 2^31 - 1.
Proof.
  intros [H1 H2 H3] Hn Hu. split; [split; [|lia]|lia]. intros p x Hx. destruct (H1 p x Hx). split; [done|]. lia.
Qed.

Lemma small_usage n u a p it k : small n u a → a_items a !! p = Some (it, k) → usage_of (delete p (a_items a)) ≤ u.
Proof. intros [H1 H2 _] Hp. rewrite (usage_delete _ _ _ _ Hp). destruct (H1 p _ Hp). cbn in *. lia. Qed.

Lemma collect_small n u p a : small n u a → small n u (a_collect p a).1.
Proof.
  intros Hs. unfold a_collect. destruct (a_items a !! p) as [[it [|k]]|] eqn:E; [|done..]. destruct (decide _); [done|]. cbn [fst].
  split; cbn [a_items a_cached]; [by apply map_Forall_delete, Hs|by apply (small_usage n u _ _ it O)|apply Hs].
Qed.

Lemma drop_small n u p a : small n u a → small n u (a_drop p a).1.
Proof.
  intros Hs. apply collect_small. split; cbn [a_items a_cached]; [apply Hs..|]. etrans; [apply length_filter|]. apply Hs.
Qed.

Lemma drop_kin p a : kin (a_items a) (a_items (a_drop p a).1).
Proof. intros q it n Hq. exists n. by apply (proj2 (collect_items p (MkALru (without p (a_cached a)) (a_items a)))). Qed.

Lemma evict_small m cap n u : ∀ a, small n u a → small n u (a_evict m cap a).1 ∧ kin (a_items a) (a_items (a_evict m cap a).1).
Proof.
  induction m as [|m IH]; intros a Hs; [split; [done|apply kin_refl]|]. cbn [a_evict]. destruct (a_cached a) as [|p l]; [split; [done|apply kin_refl]|].
  destruct (cap <? usage_of (a_items a)); [|split; [done|apply kin_refl]]. pose proof (drop_small n u p a Hs) as Hs'. pose proof (drop_kin p a) as Hk.
  destruct (a_drop p a) as [a1 d1]. cbn [fst] in *. destruct (IH a1 Hs') as [Hs2 Hk2]. destruct (a_evict m cap a1) as [a2 d2]. cbn [fst] in *.
  split; [done|]. by apply (kin_trans _ (a_items a1)).
Qed.

Lemma alter_small n n' u p f a l : small n u a → (∀ x : item * nat, (f x).1 = x.1 ∧ (x.2 ≤ n → (f x).2 ≤ n')%nat) → (n ≤ n')%nat →
  (length l ≤ n')%nat → small n' u (MkALru l (alter f p (a_items a))).
Proof.
  intros [H1 H2 H3] Hf Hn Hl. split; cbn [a_items a_cached]; [|rewrite usage_alter; [done|apply Hf]|done].
  intros q x Hq. destruct (decide (q = p)) as [->|].
  - rewrite lookup_alter_eq in Hq. destruct (a_items a !! p) as [y|] eqn:E; [|done]. injection Hq as <-. destruct (H1 p y E), (Hf y) as [-> ?].
    split; [done|]. tauto.
  - rewrite lookup_alter_ne in Hq by done. destruct (H1 q x Hq). split; [done|lia].
Qed.

Lemma lookup_small key n u a : small n u a → NoDup (a_cached a) →
  small (S n) u (a_lookup key a).2 ∧ kin (a_items a) (a_items (a_lookup key a).2).
Proof.
  intros Hs Hnd. unfold a_lookup. destruct (a_find key a) as [p|] eqn:E; cbn [snd].
  - split; [|by apply kin_alter]. apply (alter_small n); [done|intros x; cbn; split; [done|lia]|lia|].
    apply find_some in E as [Hp%list_elem_of_In _]. rewrite length_app, Nat.add_comm. cbn [length Nat.add].
    rewrite <-(without_len p) by done. pose proof (sm_cached _ _ _ Hs). lia.
  - split; [|apply kin_refl]. apply (small_mono n u); [done|lia|lia].
Qed.

Lemma release_small p n u a : small n u a → small n u (a_release p a).1 ∧ kin (a_items a) (a_items (a_release p a).1).
Proof.
  intros Hs. split.
  - apply collect_small. apply (alter_small n); [done|intros x; cbn; split; [done|lia]|lia|apply Hs].
  - set (a1 := MkALru (a_cached a) (alter (λ x, (x.1, pred x.2)) p (a_items a))).
    apply (kin_trans _ (a_items a1)); [by apply kin_alter|]. intros q it k Hq. exists k. by apply (proj2 (collect_items p a1)).
Qed.

Lemma erase_small key n u a : small n u a → small n u (a_erase key a).1 ∧ kin (a_items a) (a_items (a_erase key a).1).
Proof. intros Hs. unfold a_erase. destruct (a_find key a) as [p|]; [|split; [done|apply kin_refl]]. split; [by apply drop_small|apply drop_kin]. Qed.

Lemma insert_small e it cap n u a : small n u a → a_items a !! e = None → 0 ≤ i_charge it →
  small (S n) (u + i_charge it) (a_insert e it cap a).1 ∧ kin (<[e := (it, 1%nat)]> (a_items a)) (a_items (a_insert e it cap a).1).
Proof.
  intros Hs He Hc. assert (small (S n) (u + i_charge it) (a_place e it a).1 ∧ kin (<[e := (it, 1%nat)]> (a_items a)) (a_items (a_place e it a).1)) as [Hs1 Hk1].
  { unfold a_place. set (a' := MkALru (a_cached a ++ [e]) (<[e := (it, 1%nat)]> (a_items a))).
    assert (small (S n) (u + i_charge it) a') as Hs'.
    { destruct (small_mono n u (S n) u a Hs) as [H1 H2 _]; [lia|lia|]. split; cbn [a_items a_cached a'].
      - apply map_Forall_insert_2; [|done]. cbn. lia.
      - rewrite usage_insert by done. lia.
      - rewrite length_app. pose proof (sm_cached _ _ _ Hs). simpl. lia. }
    destruct (a_find (i_key it) a) as [old|]; [|split; [done|apply kin_refl]]. split; [by apply drop_small|apply (drop_kin old a')]. }
  unfold a_insert. destruct (a_place e it a) as [a1 d1]. cbn [fst] in *. destruct (evict_small (length (a_cached a1)) cap _ _ a1 Hs1) as [Hs2 Hk2].
  destruct (a_evict _ cap a1) as [a2 d2]. cbn [fst] in *. split; [done|]. by apply (kin_trans _ (a_items a1)).
Qed.

(** ** One shard among others *)

Lemma mixed_range z h k : 0 ≤ k → 0 ≤ Z.lxor (u32 (z * h)) (Z.shiftr (u32 (z * h)) k) < 2^32.
Proof.
  intros Hk. pose proof (u32_range (z * h)) as Hr. apply lxor_range; [lia|done|]. rewrite Z.shiftr_div_pow2 by done.
  assert (0 < 2^k) by lia. split; [apply Z.div_pos; lia|]. apply Z.div_lt_upper_bound; nia.
Qed.

Section shards.
Context `{Malloc} `{!MallocSpec}.

Abbreviation shard_ok := (LruInsert.shard_ok HashSlice).

Lemma shard_local c m m' a : shard_ok c m a → (∀ q, q ∈ owns c (a_items a) → m' !! q = m !! q) → shard_ok c m' a.
Proof.
  intros [Hinv Hun] Hm. split; [|done]. destruct Hinv as [Hnd Hh Hc Hi Hl Hl2 Hlive (cs & Ht & Hp) Hu]. split; try done.
  - apply (circ_local m); [done|]. intros x Hx. apply Hm, owns_elem. apply elem_of_cons in Hx as [->|Hx]; [by left|right; by apply Hl].
  - intros p it n Hpi. rewrite Hm; [by apply Hi|]. apply owns_elem. right. by rewrite Hpi.
  - exists cs. split; [|done]. apply (table_local m); [done|]. intros x Hx. apply Hm, owns_elem. right. apply Hl2. by rewrite <-Hp.
Qed.

Lemma shard_capacity c m a cap : shard_ok c m a → shard_ok (SetCapacity cap c) m a.
Proof. by intros [[] Hun]. Qed.

Lemma shard_owned c m a q : shard_ok c m a → q ∈ owns c (a_items a) → is_Some (m !! q).
Proof.
  intros [Hinv _] [->|[[it n] Hq]]%owns_elem.
  - pose proof (iv_circ _ _ _ _ _ _ _ _ Hinv) as Hc. apply (links_lookup _ _ _ _ Hc). apply elem_of_app. right. left.
  - destruct (iv_items _ _ _ _ _ _ _ _ Hinv q it n Hq) as (h & Hm & _). by rewrite Hm.
Qed.

Lemma shard_nodup c m a : shard_ok c m a → NoDup (a_cached a).
Proof. intros [Hinv _]. pose proof (iv_nodup _ _ _ _ _ _ _ _ Hinv) as Hnd. by apply NoDup_cons in Hnd as [_ ?]. Qed.

(** A step of a shard: entries come from free memory, and only its own memory changes. *)
Definition moved (s s' : Lru) (items items' : gmap Z (item * nat)) (d : list deletion) : Prop :=
  capacity_ (shard s') = capacity_ (shard s) ∧ deleted s' = deleted s ++ d
  ∧ (∀ q, q ∈ owns (shard s') items' → q ∈ owns (shard s) items ∨ heap s !! q = None)
  ∧ (∀ q, q ∉ owns (shard s') items' → heap s' !! q = if decide (q ∈ owns (shard s) items) then None else heap s !! q).

Lemma step_moved s s' items items' d : step_ok s s' items items' d → moved s s' items items' d.
Proof. intros (_ & Ec & [Hsub Hf] & Ed). split; [done|]. split; [done|]. split; [|done]. intros q Hq. left. by apply Hsub. Qed.

Lemma insert_moved garbage it s s' items items' d : (∀ q, q ∈ owns (shard s) items → is_Some (heap s !! q)) →
  step_ok (with_new HashSlice garbage it s) s' (<[malloc (dom (heap s)) := (it, 1%nat)]> items) items' d → moved s s' items items' d.
Proof.
  intros Hown (_ & Ec & [Hsub Hf] & Ed). set (e := malloc (dom (heap s))) in *.
  assert (heap s !! e = None) as He by (apply not_elem_of_dom, malloc_fresh).
  assert (∀ q, q ∈ owns (shard s) (<[e := (it, 1%nat)]> items) ↔ q = e ∨ q ∈ owns (shard s) items) as Ho.
  { intros q. rewrite !owns_elem. destruct (decide (q = e)) as [->|]; [rewrite lookup_insert_eq; split; [by left|right; by eexists]|].
    rewrite lookup_insert_ne by done. tauto. }
  split; [done|]. split; [done|]. cbn [with_new set_heap shard heap] in *. split.
  - intros q Hq. apply Hsub, Ho in Hq as [->|Hq]; [by right|by left].
  - intros q Hq. rewrite Hf by done. fold e. destruct (decide (q = e)) as [->|Hqe].
    + rewrite decide_True by (apply Ho; by left). destruct (decide (e ∈ owns (shard s) items)); [done|]. by rewrite He.
    + rewrite lookup_insert_ne by done. rewrite (decide_ext (q ∈ owns (shard s) (<[e := (it, 1%nat)]> items)) (q ∈ owns (shard s) items)); [done|].
      rewrite Ho. tauto.
Qed.

(** ** The cache *)

(** Every address of the heap belongs to exactly one shard, and every entry to the shard of its key. *)
Record represents (cap : Z) (c : ShardedLRUCache) (abs : list alru) : Prop := {
  rp_shards : Forall2 (λ sh a, shard_ok sh (c_heap c) a) (shard_ c) abs;
  rp_number : length abs = Z.to_nat kNumShards;
  rp_apart : ∀ i j sh sh' a a' q, shard_ c !! i = Some sh → shard_ c !! j = Some sh' → abs !! i = Some a → abs !! j = Some a' →
    q ∈ owns sh (a_items a) → q ∈ owns sh' (a_items a') → i = j;
  rp_exact : ∀ q, is_Some (c_heap c !! q) → ∃ i sh a, shard_ c !! i = Some sh ∧ abs !! i = Some a ∧ q ∈ owns sh (a_items a);
  rp_home : ∀ i a p it n, abs !! i = Some a → a_items a !! p = Some (it, n) → Shard (HashSlice (i_key it)) = Z.of_nat i;
  rp_capacity : Forall (λ sh, capacity_ sh = cap) (shard_ c) }.

Lemma cells_case {A B} (l : list A) (k : list B) i j x y x' y' : <[i := x]> l !! j = Some x' → <[i := y]> k !! j = Some y' →
  (i = j ∧ x' = x ∧ y' = y) ∨ (i ≠ j ∧ l !! j = Some x' ∧ k !! j = Some y').
Proof using. clear. intros [(<- & <- & _)|[Hne Hl]]%list_lookup_insert_Some [(E & <- & _)|[Hne' Hk]]%list_lookup_insert_Some; try done; [by left|by right]. Qed.

(** An operation of shard [i]. *)
Lemma on_shard_ok {A} cap c abs i sh a (op : lru A) (Q : A → alru → list deletion → Prop) : represents cap c abs →
  shard_ c !! i = Some sh → abs !! i = Some a →
  wp op (λ r s', ∃ a' d, Q r a' d ∧ shard_ok (shard s') (heap s') a' ∧ moved (MkState sh (c_heap c) (c_deleted c)) s' (a_items a) (a_items a') d
    ∧ ∀ p it n, a_items a' !! p = Some (it, n) → Shard (HashSlice (i_key it)) = Z.of_nat i) (MkState sh (c_heap c) (c_deleted c)) →
  wp (on_shard (Z.of_nat i) op) (λ r c', ∃ a' d, Q r a' d ∧ represents cap c' (<[i := a']> abs) ∧ c_deleted c' = c_deleted c ++ d) c.
Proof.
  intros [Hsh Hlen Hap Hex Hhome Hcap] Hi Ha Hwp. unfold wp, on_shard in *. rewrite Nat2Z.id, Hi. cbn [of_option mbind res_bind].
  destruct (op (MkState sh (c_heap c) (c_deleted c))) as [[r s']|]; [|done]. cbn [mret res_ret] in *.
  destruct Hwp as (a' & d & HQ & Hok & (Ec & Ed & Hfresh & Hf) & Hh'). cbn [shard heap deleted] in *. exists a', d. split; [done|]. split; [|done].
  pose proof (lookup_lt_Some _ _ _ Hi) as Hi1. pose proof (lookup_lt_Some _ _ _ Ha) as Hi2.
  assert (∀ j sh2 a2 q, i ≠ j → shard_ c !! j = Some sh2 → abs !! j = Some a2 → q ∈ owns sh2 (a_items a2) → q ∉ owns (shard s') (a_items a')) as Hnew.
  { intros j sh2 a2 q Hij Hj Haj Hq Hq'. destruct (Hfresh q Hq') as [Hq2|Hq2]; [by apply Hij, (Hap i j sh sh2 a a2 q)|].
    pose proof (Forall2_lookup_lr _ _ _ _ _ _ Hsh Hj Haj) as Hokj. destruct (shard_owned _ _ _ q Hokj Hq) as [? E]. by rewrite Hq2 in E. }
  split; cbn [shard_ c_heap].
  - apply Forall2_same_length_lookup. split; [rewrite !length_insert; by apply Forall2_length in Hsh|]. intros j sh2 a2 Hj Haj.
    destruct (cells_case _ _ _ _ _ _ _ _ Hj Haj) as [(<- & -> & ->)|(Hij & Hj' & Haj')]; [done|].
    apply (shard_local _ (c_heap c)); [by apply (Forall2_lookup_lr _ _ _ _ _ _ Hsh Hj' Haj')|].
    intros q Hq. rewrite Hf by by apply (Hnew j sh2 a2). rewrite decide_False; [done|]. intros Hq2. by apply Hij, (Hap i j sh sh2 a a2 q).
  - by rewrite length_insert.
  - intros j k sh2 sh3 a2 a3 q Hj Hk Haj Hak Hq2 Hq3.
    destruct (cells_case _ _ _ _ _ _ _ _ Hj Haj) as [(<- & -> & ->)|(Hij & Hj' & Haj')], (cells_case _ _ _ _ _ _ _ _ Hk Hak) as [(<- & -> & ->)|(Hik & Hk' & Hak')].
    + done.
    + by destruct (Hnew k sh3 a3 q Hik Hk' Hak' Hq3).
    + by destruct (Hnew j sh2 a2 q Hij Hj' Haj' Hq2).
    + by apply (Hap j k sh2 sh3 a2 a3 q).
  - intros q Hq. destruct (decide (q ∈ owns (shard s') (a_items a'))) as [Hq'|Hq'].
    + exists i, (shard s'), a'. by rewrite !list_lookup_insert_eq.
    + rewrite Hf in Hq by done. destruct (decide (q ∈ owns sh (a_items a))) as [|Hq2]; [by destruct Hq|].
      destruct (Hex q Hq) as (j & sh2 & a2 & Hj & Haj & Hq3). exists j, sh2, a2.
      assert (i ≠ j) by (intros <-; rewrite Hi in Hj; rewrite Ha in Haj; injection Hj as <-; by injection Haj as <-).
      by rewrite !list_lookup_insert_ne.
  - intros j a2 p it n Haj Hp. apply list_lookup_insert_Some in Haj as [(<- & <- & _)|[_ Haj]]; [by apply (Hh' p it n)|by apply (Hhome j a2 p it n)].
  - apply Forall_insert; [done|]. rewrite Ec. by apply (Forall_lookup_1 _ _ _ _ Hcap Hi).
Qed.

(** ** Operations of the cache *)

Lemma hash_words_range data : ∀ h, 0 ≤ h < 2^32 → 0 ≤ (hash_words h data).1 < 2^32.
Proof using.
  clear. remember (length data) as n eqn:En. revert data En. induction n as [n IH] using lt_wf_ind. intros data -> h Hh.
  destruct data as [|b0 [|b1 [|b2 [|b3 data]]]]; [exact Hh..|]. cbn [hash_words]. apply (IH (length data)); [simpl; lia|done|].
  apply mixed_range; lia.
Qed.

Lemma HashSlice_range key : 0 ≤ HashSlice key < 2^32.
Proof using.
  clear. unfold HashSlice, Hash. set (h := u32 _). pose proof (hash_words_range key h (u32_range _)) as Hr.
  destruct (hash_words h key) as [h' [|d0 [|d1 [|d2 [|d3 rest]]]]]; cbn [fst hash_tail] in *; try done; apply mixed_range; unfold hash_r; lia.
Qed.

Definition shard_at (key : list byte) : nat := Z.to_nat (Shard (HashSlice key)).

Lemma shard_at_lt key : (shard_at key < 16)%nat ∧ Z.of_nat (shard_at key) = Shard (HashSlice key).
Proof using.
  clear. unfold shard_at, Shard, kNumShardBits. pose proof (HashSlice_range key) as Hr. rewrite Z.shiftr_div_pow2 by lia.
  assert (0 ≤ HashSlice key / 2^(32 - 4) < 16); [|lia]. split; [apply Z.div_pos; lia|]. apply Z.div_lt_upper_bound; lia.
Qed.

Lemma shard_lookup cap c abs i : represents cap c abs → (i < 16)%nat → ∃ sh a, shard_ c !! i = Some sh ∧ abs !! i = Some a
  ∧ shard_ok sh (c_heap c) a ∧ capacity_ sh = cap ∧ a ∈ abs.
Proof using.
  clear. intros Hr Hi. destruct (lookup_lt_is_Some_2 abs i) as [a Ha]; [by rewrite (rp_number _ _ _ Hr)|].
  destruct (Forall2_lookup_r _ _ _ _ _ (rp_shards _ _ _ Hr) Ha) as (sh & Hsh & Hok). exists sh, a.
  pose proof (Forall_lookup_1 _ _ _ _ (rp_capacity _ _ _ Hr) Hsh) as Hc. cbn in Hc. split_and!; try done. by apply (list_elem_of_lookup_2 _ i).
Qed.

Lemma kin_home cap c abs i a items' : represents cap c abs → abs !! i = Some a → kin (a_items a) items' →
  ∀ p it n, items' !! p = Some (it, n) → Shard (HashSlice (i_key it)) = Z.of_nat i.
Proof using. clear. intros Hr Ha Hk p it n Hp. destruct (Hk p it n Hp) as [k Hpk]. by apply (rp_home _ _ _ Hr i a p it k). Qed.

Lemma cache_lookup_ok cap c abs key a n u : represents cap c abs → abs !! shard_at key = Some a → small n u a → Z.of_nat n + 2 < 2^31 → u < 2^64 →
  wp (Cache_Lookup key) (λ r c', r = (a_lookup key a).1 ∧ represents cap c' (<[shard_at key := (a_lookup key a).2]> abs) ∧ c_deleted c' = c_deleted c) c.
Proof using.
  clear. intros Hr Ha Hs Hn Hu. destruct (shard_at_lt key) as [Hlt Ei]. destruct (shard_lookup _ _ _ _ Hr Hlt) as (sh & a' & Hsh & Ha' & Hok & _).
  rewrite Ha in Ha'. injection Ha' as <-. destruct (small_sized n u a Hs Hn Hu) as [Hsz _]. unfold Cache_Lookup. rewrite <-Ei.
  eapply wp_mono; [apply (on_shard_ok cap c abs _ sh a _ (λ r a' d, (r, a') = a_lookup key a ∧ d = []) Hr Hsh Ha)|].
  - eapply wp_mono; [by apply (lookup_ok HashSlice (MkState sh (c_heap c) (c_deleted c)) a key)|]. cbn beta.
    pose proof (lookup_small key n u a Hs (shard_nodup _ _ _ Hok)) as [_ Hk].
    intros r s'. destruct (a_lookup key a) as [r' a']. intros (-> & Hok' & Hst). exists a', []. split; [done|]. split; [done|].
    split; [by apply step_moved|]. by apply (kin_home cap c abs _ a).
  - intros r c' (a' & d & [E ->] & Hr' & Hd). rewrite <-E. cbn [fst snd]. rewrite app_nil_r in Hd. done.
Qed.

Lemma cache_erase_ok cap c abs key a n u : represents cap c abs → abs !! shard_at key = Some a → small n u a → Z.of_nat n + 2 < 2^31 → u < 2^64 →
  wp (Cache_Erase key) (λ _ c', represents cap c' (<[shard_at key := (a_erase key a).1]> abs) ∧ c_deleted c' = c_deleted c ++ (a_erase key a).2) c.
Proof using.
  clear. intros Hr Ha Hs Hn Hu. destruct (shard_at_lt key) as [Hlt Ei]. destruct (shard_lookup _ _ _ _ Hr Hlt) as (sh & a' & Hsh & Ha' & Hok & _).
  rewrite Ha in Ha'. injection Ha' as <-. destruct (small_sized n u a Hs Hn Hu) as [Hsz Hlen]. unfold Cache_Erase. rewrite <-Ei.
  eapply wp_mono; [apply (on_shard_ok cap c abs _ sh a _ (λ _ a' d, (a', d) = a_erase key a) Hr Hsh Ha)|].
  - eapply wp_mono; [apply (erase_ok HashSlice (MkState sh (c_heap c) (c_deleted c)) a key Hok Hsz); lia|]. cbn beta.
    pose proof (erase_small key n u a Hs) as [_ Hk].
    intros [] s'. destruct (a_erase key a) as [a' d]. intros (Hok' & Hst). exists a', d. split; [done|]. split; [done|].
    split; [by apply step_moved|]. by apply (kin_home cap c abs _ a).
  - intros [] c' (a' & d & E & Hr' & Hd). by rewrite <-E.
Qed.

Lemma cache_release_ok cap c abs p i a it k n u : represents cap c abs → abs !! i = Some a → a_items a !! p = Some (it, S k) →
  small n u a → Z.of_nat n + 2 < 2^31 → u < 2^64 →
  wp (Cache_Release p) (λ _ c', represents cap c' (<[i := (a_release p a).1]> abs) ∧ c_deleted c' = c_deleted c ++ (a_release p a).2) c.
Proof using.
  clear. intros Hr Ha Hp Hs Hn Hu. pose proof (lookup_lt_Some _ _ _ Ha) as Hlt. rewrite (rp_number _ _ _ Hr) in Hlt.
  destruct (shard_lookup _ _ _ _ Hr Hlt) as (sh & a' & Hsh & Ha' & Hok & _).
  rewrite Ha in Ha'. injection Ha' as <-. destruct (small_sized n u a Hs Hn Hu) as [Hsz _].
  destruct (iv_items _ _ _ _ _ _ _ _ (proj1 Hok) p it (S k) Hp) as (h & Hm & (_ & _ & _ & _ & Hh) & _).
  unfold Cache_Release. unfold wp at 1. rewrite Hm. cbn [of_option mbind res_bind]. rewrite Hh, (rp_home _ _ _ Hr i a p it (S k) Ha Hp).
  match goal with |- match ?r with _ => _ end => change (wp (on_shard (Z.of_nat i) (LRU_Release p)) (λ _ c', represents cap c' (<[i := (a_release p a).1]> abs) ∧ c_deleted c' = c_deleted c ++ (a_release p a).2) c) end.
  eapply wp_mono; [apply (on_shard_ok cap c abs _ sh a _ (λ _ a' d, (a', d) = a_release p a) Hr Hsh Ha)|].
  - eapply wp_mono; [by apply (release_ok HashSlice (MkState sh (c_heap c) (c_deleted c)) a p it k)|]. cbn beta.
    pose proof (release_small p n u a Hs) as [_ Hk].
    intros [] s'. destruct (a_release p a) as [a' d]. intros (Hok' & Hst). exists a', d. split; [done|]. split; [done|].
    split; [by apply step_moved|]. by apply (kin_home cap c abs _ a).
  - intros [] c' (a' & d & E & Hr' & Hd). by rewrite <-E.
Qed.

Lemma cache_insert_ok cap c abs garbage it a n u : represents cap c abs → abs !! shard_at (i_key it) = Some a → small n u a →
  Z.of_nat n + 2 < 2^31 → 0 ≤ i_charge it → u + i_charge it < 2^64 → let e := malloc (dom (c_heap c)) in
  wp (Cache_Insert garbage (i_key it) (i_value it) (i_charge it) (i_deleter it)) (λ r c', r = e
    ∧ represents cap c' (<[shard_at (i_key it) := (a_insert e it cap a).1]> abs) ∧ c_deleted c' = c_deleted c ++ (a_insert e it cap a).2) c.
Proof using All.
  intros Hr Ha Hs Hn Hc Hu e. destruct (shard_at_lt (i_key it)) as [Hlt Ei]. destruct (shard_lookup _ _ _ _ Hr Hlt) as (sh & a' & Hsh & Ha' & Hok & Hcap & _).
  rewrite Ha in Ha'. injection Ha' as <-. destruct (small_sized n u a Hs Hn ltac:(lia)) as [Hsz Hlen]. unfold Cache_Insert. rewrite <-Ei.
  pose proof (sm_usage _ _ _ Hs) as Hus.
  eapply wp_mono; [apply (on_shard_ok cap c abs _ sh a _ (λ r a' d, r = e ∧ (a', d) = a_insert e it cap a) Hr Hsh Ha)|].
  - eapply wp_mono; [apply (insert_ok HashSlice (MkState sh (c_heap c) (c_deleted c)) a garbage it Hok Hsz Hc); lia|]. cbn [shard heap deleted].
    fold e. rewrite Hcap.
    assert (a_items a !! e = None) as He.
    { destruct (a_items a !! e) as [[it' k]|] eqn:E; [|done]. destruct (iv_items _ _ _ _ _ _ _ _ (proj1 Hok) e it' k E) as (h & Hm & _).
      assert (e ∉ dom (c_heap c)) as Hne by apply malloc_fresh. apply not_elem_of_dom in Hne. by rewrite Hne in Hm. }
    pose proof (insert_small e it cap n u a Hs He Hc) as [_ Hk].
    intros r s'. destruct (a_insert e it cap a) as [a' d]. intros (-> & Hok' & Hst). exists a', d. split; [done|]. split; [done|].
    split; [by apply (insert_moved garbage it); [intros q Hq; apply (shard_owned _ _ _ q Hok)|]|].
    intros p it' k Hp. destruct (Hk p it' k Hp) as [j Hj]. destruct (decide (p = e)) as [->|]; [rewrite lookup_insert_eq in Hj; by injection Hj as <- _|].
    rewrite lookup_insert_ne in Hj by done. by apply (rp_home _ _ _ Hr _ a p it' j).
  - intros r c' (a' & d & [-> E] & Hr' & Hd). by rewrite <-E.
Qed.

(** ** The constructor *)

Definition empty_shard : alru := MkALru [] ∅.

Lemma new_LRUCache_ok garbage m log : let head := malloc (dom m) in
  wp (λ _, new_LRUCache garbage m log) (λ _ s', shard_ok (shard s') (heap s') empty_shard ∧ lru_ (shard s') = head
    ∧ (∀ q, q ≠ head → heap s' !! q = m !! q)) (MkState (MkLRU 0 0 head (MkTable 0 0 [])) m log).
Proof using.
  clear. intros head. set (d := set_prev head (set_next head garbage)). set (s := MkState (MkLRU 0 0 head (MkTable 0 0 [])) (<[head := d]> m) log).
  change (wp Resize (λ _ s', shard_ok (shard s') (heap s') empty_shard ∧ lru_ (shard s') = head ∧ (∀ q, q ≠ head → heap s' !! q = m !! q)) s).
  apply (Resize_wp s []); [constructor|done|constructor|done|done|by intros x Hx%elem_of_nil|].
  intros m' t' cs' Ht' Hp _ Hf. assert (∀ p, m' !! p = <[head := d]> m !! p) as Hm by (intros p; apply Hf; by intros ?%elem_of_nil).
  cbn [set_heap with_table s shard heap lru_]. split; [|split; [done|]].
  - split; [|by intros p q it n it' k ?%elem_of_nil]. split; cbn; try done.
    + apply NoDup_singleton.
    + split; [|split; [|done]]; [unfold nxt|unfold prv]; rewrite Hm, lookup_insert_eq; done.
    + by intros p ?%elem_of_nil.
    + by intros p ?%elem_of_nil.
    + by exists cs'.
  - intros q Hq. by rewrite Hm, lookup_insert_ne.
Qed.

Lemma new_shards_ok garbage per_shard log n : ∀ m, ∃ cs m', new_shards n garbage per_shard m log = Ok (cs, m') ∧ length cs = n
  ∧ (∀ q, is_Some (m !! q) → m' !! q = m !! q)
  ∧ Forall (λ sh, shard_ok sh m' empty_shard ∧ m !! lru_ sh = None ∧ capacity_ sh = per_shard) cs ∧ NoDup (lru_ <$> cs)
  ∧ (∀ q, is_Some (m' !! q) → is_Some (m !! q) ∨ q ∈ lru_ <$> cs).
Proof using All.
  induction n as [|n IH]; intros m; cbn [new_shards].
  { exists [], m. split_and!; try done; [constructor|by left]. }
  pose proof (new_LRUCache_ok garbage m log) as Hn. unfold wp in Hn. destruct (new_LRUCache garbage m log) as [[[] s]|]; [|done].
  destruct Hn as (Hok & Hhead & Hf). cbn [mbind res_bind]. destruct (IH (heap s)) as (cs & m' & -> & Hlen & Hm' & Hall & Hnd & Hex). cbn [mbind res_bind mret res_ret].
  assert (m !! malloc (dom m) = None) as Hfresh by apply not_elem_of_dom, malloc_fresh.
  assert (is_Some (heap s !! malloc (dom m))) as Hused by (rewrite <-Hhead; apply (shard_owned _ _ _ _ Hok), owns_elem; by left).
  eexists _, m'. split; [done|]. split; [by rewrite <-Hlen|].
  assert (∀ q, is_Some (m !! q) → heap s !! q = m !! q) as Hkeep by (intros q Hq; apply Hf; intros ->; by rewrite Hfresh in Hq; destruct Hq).
  split; [|split; [|split]].
  - intros q Hq. rewrite Hm'; [by apply Hkeep|]. by rewrite Hkeep.
  - constructor.
    + split; [|split; [cbn; by rewrite Hhead|done]]. apply shard_capacity, (shard_local _ (heap s)); [done|].
      intros q Hq. apply Hm', (shard_owned _ _ _ _ Hok Hq).
    + eapply Forall_impl; [exact Hall|]. intros sh (H1 & H2 & H3). split; [done|]. split; [|done].
      destruct (m !! lru_ sh) eqn:E; [|done]. rewrite Hkeep, E in H2 by by rewrite E. done.
  - cbn. apply NoDup_cons. split; [|done]. rewrite Hhead. intros (sh & E & Hin)%list_elem_of_fmap. rewrite Forall_forall in Hall.
    destruct (Hall sh Hin) as (_ & H2 & _). rewrite <-E in H2. rewrite H2 in Hused. by destruct Hused.
  - intros q Hq. cbn. rewrite elem_of_cons, Hhead. destruct (Hex q Hq) as [Hq2|]; [|tauto].
    destruct (decide (q = malloc (dom m))); [tauto|]. rewrite Hf in Hq2 by done. by left.
Qed.

Definition per_shard (capacity : Z) : Z := u64 (capacity + (kNumShards - 1)) / kNumShards.
Definition empty_shards : list alru := replicate (Z.to_nat kNumShards) empty_shard.

Lemma NewLRUCache_ok garbage capacity : ∃ c, NewLRUCache garbage capacity = Ok c ∧ represents (per_shard capacity) c empty_shards ∧ c_deleted c = [].
Proof using All.
  destruct (new_shards_ok garbage (per_shard capacity) [] (Z.to_nat kNumShards) ∅) as (cs & m' & E & Hlen & _ & Hall & Hnd & Hex).
  unfold NewLRUCache. fold (per_shard capacity). rewrite E. cbn [mbind res_bind mret res_ret]. eexists. split; [done|]. split; [|done].
  rewrite Forall_forall in Hall.
  assert (∀ i a, empty_shards !! i = Some a → a = empty_shard) as Hempty by (intros i a Hi; by apply lookup_replicate in Hi as [-> _]).
  assert (∀ sh q, q ∈ owns sh (a_items empty_shard) ↔ q = lru_ sh) as Hown.
  { intros sh q. rewrite owns_elem. split; [|by left]. intros [?|[? Hq]]; [done|]. cbn in Hq. by rewrite lookup_empty in Hq. }
  split; cbn [shard_ c_heap].
  - apply Forall2_same_length_lookup. split; [unfold empty_shards; by rewrite Hlen, length_replicate|]. intros i sh a Hi Ha. rewrite (Hempty i a Ha).
    apply Hall. by apply (list_elem_of_lookup_2 _ i).
  - apply length_replicate.
  - intros i j sh sh' a a' q Hi Hj Ha Ha'. rewrite (Hempty i a Ha), (Hempty j a' Ha'), !Hown. intros -> E'.
    apply (NoDup_lookup (lru_ <$> cs) i j (lru_ sh)); [done|by rewrite list_lookup_fmap, Hi|by rewrite list_lookup_fmap, Hj, E'].
  - intros q Hq. destruct (Hex q Hq) as [[? Hq2]|(sh & -> & [i Hi]%list_elem_of_lookup)%list_elem_of_fmap]; [by rewrite lookup_empty in Hq2|].
    exists i, sh, empty_shard. split; [done|]. split; [|by apply Hown]. apply lookup_replicate. split; [done|].
    rewrite <-Hlen. by apply lookup_lt_Some in Hi.
  - intros i a p it n Ha Hp. rewrite (Hempty i a Ha) in Hp. cbn in Hp. by rewrite lookup_empty in Hp.
  - rewrite Forall_forall. intros sh Hsh. by apply Hall.
Qed.
End shards.

(** * Clients of the LRU cache *)

(** ** Programs *)

Inductive op : Type :=
  | OInsert (key : list byte) (value charge deleter : Z)
  | OLookup (key : list byte)
  | ORelease (k : nat)
  | OErase (key : list byte).

Section exec.
Context `{Malloc}.

(** [held] are the handles the client holds; [ORelease k] gives back the one at position [k]. *)
Definition exec (garbage : Z * Z) (o : op) (held : list Z) : st ShardedLRUCache (list Z) :=
  match o with
  | OInsert key value charge deleter => e ← Cache_Insert garbage key value charge deleter; mret (held ++ [e])
  | OLookup key => e ← Cache_Lookup key; mret (if e =? NULL then held else held ++ [e])
  | ORelease k => match held !! k with Some p => _ ← Cache_Release p; mret (delete k held) | None => mret held end
  | OErase key => _ ← Cache_Erase key; mret held
  end.

Fixpoint exec_all (garbage : Z * Z) (ops : list op) (held : list Z) : st ShardedLRUCache (list Z) :=
  match ops with [] => mret held | o :: ops => held ← exec garbage o held; exec_all garbage ops held end.

Definition program (d : LRUHandle) (garbage : Z * Z) (capacity : Z) (ops : list op) : res (list Z * ShardedLRUCache) :=
  c ← NewLRUCache d capacity; exec_all garbage ops [] c.
End exec.

(** The charges a program asks for; what it inserts. *)
Definition charge_of (o : op) : Z := match o with OInsert _ _ charge _ => charge | _ => 0 end.
Definition charges (ops : list op) : Z := fold_right (λ o u, charge_of o + u) 0 ops.
Definition inserted (ops : list op) : list deletion :=
  omap (λ o, match o with OInsert key value _ deleter => Some (deleter, key, value) | _ => None end) ops.

(** ** The abstract cache *)

Record client := MkClient { a_shards : list alru; a_held : list Z; a_log : list deletion }.

(** Shard [i] becomes [a], and [d] is deleted. *)
Definition a_set (i : nat) (r : alru * list deletion) (held : list Z) (x : client) : client :=
  MkClient (<[i := r.1]> (a_shards x)) held (a_log x ++ r.2).

(** [e] is the address of a new entry. *)
Definition a_exec (cap e : Z) (o : op) (x : client) : option client :=
  match o with
  | OInsert key value charge deleter =>
      a ← a_shards x !! shard_at key;
      Some (a_set (shard_at key) (a_insert e (MkItem key value charge deleter) cap a) (a_held x ++ [e]) x)
  | OLookup key =>
      a ← a_shards x !! shard_at key;
      let '(r, a') := a_lookup key a in
      Some (a_set (shard_at key) (a', []) (if r =? NULL then a_held x else a_held x ++ [r]) x)
  | ORelease k =>
      match a_held x !! k with
      | None => Some x
      | Some p =>
          '(i, a) ← list_find (λ a, is_Some (a_items a !! p)) (a_shards x);
          Some (a_set i (a_release p a) (delete k (a_held x)) x)
      end
  | OErase key =>
      a ← a_shards x !! shard_at key;
      Some (a_set (shard_at key) (a_erase key a) (a_held x) x)
  end.

(** An address that no entry that is alive has. *)
Definition fresh (e : Z) (x : client) : Prop := e ≠ NULL ∧ ∀ a, a ∈ a_shards x → a_items a !! e = None.

Inductive a_run (cap : Z) : list op → client → client → Prop :=
  | run_done x : a_run cap [] x x
  | run_step e o ops x y z : a_run cap ops x y → fresh e y → a_exec cap e o y = Some z → a_run cap (ops ++ [o]) x z.

Definition a_empty : client := MkClient empty_shards [] [].

(** ** The handles of the client *)

Definition apart (abs : list alru) : Prop :=
  ∀ i j a a' p, abs !! i = Some a → abs !! j = Some a' → is_Some (a_items a !! p) → is_Some (a_items a' !! p) → i = j.

(** Every handle is counted. *)
Record counted (abs : list alru) (held : list Z) : Prop := {
  ct_count : ∀ i a p it k, abs !! i = Some a → a_items a !! p = Some (it, k) → count_occ Z.eq_dec held p = k;
  ct_alive : ∀ p, p ∈ held → ∃ i a it k, abs !! i = Some a ∧ a_items a !! p = Some (it, k) }.

(** Entries without handles may leave. *)
Definition shrink (items items' : gmap Z (item * nat)) : Prop :=
  (∀ p x, items' !! p = Some x → items !! p = Some x) ∧ (∀ p it k, items !! p = Some (it, S k) → items' !! p = Some (it, S k)).

Lemma shrink_refl items : shrink items items.
Proof. done. Qed.
Lemma shrink_trans i1 i2 i3 : shrink i1 i2 → shrink i2 i3 → shrink i1 i3.
Proof. intros [A1 B1] [A2 B2]. split; [intros p x Hp; by apply A1, A2|intros p it k Hp; by apply B2, B1]. Qed.

Lemma collect_shrink p a : shrink (a_items a) (a_items (a_collect p a).1).
Proof.
  unfold a_collect. destruct (a_items a !! p) as [[it [|k]]|] eqn:E; [|done..]. destruct (decide _); [done|]. cbn [fst a_items]. split.
  - intros q x Hq. by apply lookup_delete_Some in Hq as [_ ?].
  - intros q it' k Hq. rewrite lookup_delete_ne; [done|]. intros <-. by rewrite E in Hq.
Qed.

Lemma drop_shrink p a : shrink (a_items a) (a_items (a_drop p a).1).
Proof. apply (collect_shrink p (MkALru (without p (a_cached a)) (a_items a))). Qed.

Lemma erase_shrink key a : shrink (a_items a) (a_items (a_erase key a).1).
Proof. unfold a_erase. destruct (a_find key a); [apply drop_shrink|apply shrink_refl]. Qed.

Lemma evict_shrink m cap : ∀ a, shrink (a_items a) (a_items (a_evict m cap a).1).
Proof.
  induction m as [|m IH]; intros a; [done|]. cbn [a_evict]. destruct (a_cached a) as [|p l]; [done|]. destruct (cap <? _); [|done].
  pose proof (drop_shrink p a) as Hs. destruct (a_drop p a) as [a1 d1]. specialize (IH a1). destruct (a_evict m cap a1) as [a2 d2].
  by apply (shrink_trans _ (a_items a1)).
Qed.

Lemma insert_shrink e it cap a : shrink (<[e := (it, 1%nat)]> (a_items a)) (a_items (a_insert e it cap a).1).
Proof.
  unfold a_insert, a_place. set (a' := MkALru (a_cached a ++ [e]) (<[e := (it, 1%nat)]> (a_items a))).
  assert (shrink (a_items a') (a_items (match a_find (i_key it) a with Some old => a_drop old a' | None => (a', []) end).1)) as Hs.
  { destruct (a_find (i_key it) a); [apply drop_shrink|done]. }
  destruct (match a_find (i_key it) a with Some old => a_drop old a' | None => (a', []) end) as [a1 d1]. cbn [fst] in Hs.
  pose proof (evict_shrink (length (a_cached a1)) cap a1) as Hs2. destruct (a_evict _ cap a1) as [a2 d2]. by apply (shrink_trans _ (a_items a1)).
Qed.

Lemma counted_shrink abs held i a a' : counted abs held → abs !! i = Some a → shrink (a_items a) (a_items a') → counted (<[i := a']> abs) held.
Proof.
  intros [Hc Ha] Hi [Hs1 Hs2]. pose proof (lookup_lt_Some _ _ _ Hi) as Hlt. split.
  - intros j b p it k Hj Hp. apply list_lookup_insert_Some in Hj as [(<- & <- & _)|[_ Hj]]; [|by apply (Hc j b p it)].
    apply (Hc i a p it); [done|by apply Hs1].
  - intros p Hp. destruct (Ha p Hp) as (j & b & it & k & Hj & Hb). destruct (decide (i = j)) as [<-|Hij].
    + rewrite Hi in Hj. injection Hj as <-. pose proof (Hc i a p it k Hi Hb) as Ek. destruct k as [|k].
      { apply list_elem_of_In, (count_occ_In Z.eq_dec) in Hp. lia. }
      exists i, a', it, (S k). split; [by rewrite list_lookup_insert_eq|by apply Hs2].
    + exists j, b, it, k. by rewrite list_lookup_insert_ne.
Qed.

(** After the count of an entry of shard [i] has changed, entries without handles leave. *)
Lemma counted_then abs held i a a1 a' : abs !! i = Some a → shrink (a_items a1) (a_items a') → counted (<[i := a1]> abs) held → counted (<[i := a']> abs) held.
Proof.
  intros Hi Hs Hc. rewrite <-(list_insert_insert_eq abs i a' a1). apply (counted_shrink _ _ _ a1); [done| |done].
  by apply list_lookup_insert_eq, (lookup_lt_Some _ _ _ Hi).
Qed.

(** The count of an entry of shard [i] becomes [k]. *)
Lemma counted_set abs held held' i a p it k l : counted abs held → abs !! i = Some a →
  (∀ j b, abs !! j = Some b → is_Some (a_items b !! p) → i = j) →
  count_occ Z.eq_dec held' p = k → (∀ q, q ≠ p → count_occ Z.eq_dec held' q = count_occ Z.eq_dec held q) →
  counted (<[i := MkALru l (<[p := (it, k)]> (a_items a))]> abs) held'.
Proof.
  intros [Hc Ha] Hi Hap Hk Hq. pose proof (lookup_lt_Some _ _ _ Hi) as Hlt. split.
  - intros j b q it' n Hj Hb. apply list_lookup_insert_Some in Hj as [(<- & <- & _)|[Hij Hj]].
    + cbn in Hb. destruct (decide (q = p)) as [->|Hqp]; [rewrite lookup_insert_eq in Hb; by injection Hb as _ <-|].
      rewrite lookup_insert_ne in Hb by done. rewrite Hq by done. by apply (Hc i a q it').
    + rewrite Hq; [by apply (Hc j b q it')|]. intros ->. apply Hij, (Hap j b); [done|by rewrite Hb].
  - intros q Hin. destruct (decide (q = p)) as [->|Hqp].
    { exists i. eexists _, it, k. split; [by apply list_lookup_insert_eq|]. apply lookup_insert_eq. }
    apply list_elem_of_In, (count_occ_In Z.eq_dec) in Hin. rewrite Hq in Hin by done. apply (count_occ_In Z.eq_dec), list_elem_of_In in Hin.
    destruct (Ha q Hin) as (j & b & it' & n & Hj & Hb). destruct (decide (i = j)) as [<-|Hij].
    + rewrite Hi in Hj. injection Hj as <-. exists i. eexists _, it', n. split; [by apply list_lookup_insert_eq|]. cbn. by rewrite lookup_insert_ne.
    + exists j, b, it', n. by rewrite list_lookup_insert_ne.
Qed.

Lemma count_snoc held p q : count_occ Z.eq_dec (held ++ [p]) q = (count_occ Z.eq_dec held q + if decide (q = p) then 1 else 0)%nat.
Proof. rewrite count_occ_app. simpl. destruct (Z.eq_dec p q), (decide (q = p)); congruence || lia. Qed.

Lemma count_delete held k p q : held !! k = Some p →
  count_occ Z.eq_dec held q = (count_occ Z.eq_dec (delete k held) q + if decide (q = p) then 1 else 0)%nat.
Proof.
  intros Hk. rewrite <-(take_drop_middle held k p Hk) at 1. rewrite delete_take_drop, !count_occ_app. simpl.
  destruct (Z.eq_dec p q), (decide (q = p)); congruence || lia.
Qed.

(** ** Usage *)

(** The usage is within the capacity, or nothing is cached. *)
Definition settled (cap : Z) (a : alru) : Prop := usage_of (a_items a) ≤ cap ∨ a_cached a = [].

Lemma settled_keep cap n a a' : settled cap a → small n (usage_of (a_items a)) a' → (a_cached a = [] → a_cached a' = []) → settled cap a'.
Proof. intros [Hu|Hc] Hs Hk; [left|right; by apply Hk]. etrans; [apply (sm_usage _ _ _ Hs)|done]. Qed.

Lemma small_self n u a : small n u a → small n (usage_of (a_items a)) a.
Proof. by intros []. Qed.

Lemma lookup_settled cap n u key a : settled cap a → small n u a → NoDup (a_cached a) → settled cap (a_lookup key a).2.
Proof.
  intros Hs Hsm Hnd. apply (settled_keep cap (S n) a); [done|by apply lookup_small, Hnd; apply (small_self n u)|].
  unfold a_lookup, a_find. intros E. by rewrite E.
Qed.

Lemma release_settled cap n u p a : settled cap a → small n u a → settled cap (a_release p a).1.
Proof.
  intros Hs Hsm. apply (settled_keep cap n a); [done|by apply release_small, (small_self n u)|].
  unfold a_release. by rewrite (proj1 (collect_items _ _)).
Qed.

Lemma erase_settled cap n u key a : settled cap a → small n u a → settled cap (a_erase key a).1.
Proof.
  intros Hs Hsm. apply (settled_keep cap n a); [done|by apply erase_small, (small_self n u)|]. unfold a_erase, a_find. intros E. by rewrite E.
Qed.

Lemma evict_settled cap m : ∀ a, (length (a_cached a) ≤ m)%nat → settled cap (a_evict m cap a).1.
Proof.
  induction m as [|m IH]; intros a Hm; cbn [a_evict]; destruct (a_cached a) as [|p l] eqn:El; [by right|simpl in Hm; lia|by right|].
  destruct (Z.ltb_spec cap (usage_of (a_items a))) as [Hu|Hu]; [|by left]. pose proof (collect_items p (MkALru (without p (p :: l)) (a_items a))) as [Hc _].
  unfold a_drop. rewrite El. destruct (a_collect p _) as [a1 d1]. cbn [fst a_cached] in Hc. specialize (IH a1). destruct (a_evict m cap a1) as [a2 d2].
  apply IH. rewrite Hc. unfold without. rewrite filter_cons_False by (intros Hx; by apply Hx). pose proof (length_filter (λ q, q ≠ p) l). simpl in Hm. lia.
Qed.

Lemma insert_settled cap e it a : settled cap (a_insert e it cap a).1.
Proof.
  unfold a_insert. destruct (a_place e it a) as [a1 d1]. pose proof (evict_settled cap (length (a_cached a1)) a1 (le_n _)) as Hs.
  by destruct (a_evict _ cap a1) as [a2 d2].
Qed.

(** ** Steps *)

Section run.
Context `{Malloc} `{!MallocSpec}.

Record client_ok (cap : Z) (n : nat) (u : Z) (c : ShardedLRUCache) (x : client) : Prop := {
  cl_rep : represents cap c (a_shards x);
  cl_log : c_deleted c = a_log x;
  cl_small : Forall (small n u) (a_shards x);
  cl_counted : counted (a_shards x) (a_held x);
  cl_settled : Forall (settled cap) (a_shards x) }.

Lemma represents_apart cap c abs : represents cap c abs → apart abs.
Proof using.
  clear. intros Hr i j a a' p Ha Ha' Hp Hp'. pose proof (rp_shards _ _ _ Hr) as Hs.
  destruct (Forall2_lookup_r _ _ _ _ _ Hs Ha) as (sh & Hsh & _), (Forall2_lookup_r _ _ _ _ _ Hs Ha') as (sh' & Hsh' & _).
  apply (rp_apart _ _ _ Hr i j sh sh' a a' p); [done|done|done|done|apply owns_elem; by right..].
Qed.

Lemma represents_fresh cap c x : represents cap c (a_shards x) → fresh (malloc (dom (c_heap c))) x.
Proof using All.
  intros Hr. split; [apply malloc_nonnull|]. intros a [i Ha]%list_elem_of_lookup.
  destruct (Forall2_lookup_r _ _ _ _ _ (rp_shards _ _ _ Hr) Ha) as (sh & Hsh & Hok).
  destruct (a_items a !! malloc (dom (c_heap c))) as [x'|] eqn:E; [|done]. assert (malloc (dom (c_heap c)) ∉ dom (c_heap c)) as Hn by apply malloc_fresh.
  destruct Hn. apply elem_of_dom, (shard_owned _ _ _ _ Hok), owns_elem. right. by rewrite E.
Qed.

Lemma client_set cap n u u' c c' x i a a' d held : client_ok cap n u c x → a_shards x !! i = Some a → represents cap c' (<[i := a']> (a_shards x)) →
  c_deleted c' = c_deleted c ++ d → small (S n) u' a' → u ≤ u' → counted (<[i := a']> (a_shards x)) held → settled cap a' →
  client_ok cap (S n) u' c' (a_set i (a', d) held x).
Proof using.
  clear. intros [Hr Hlog Hs Hc Hset] Ha Hr' Hd Hs' Hu Hc' Hset'. split; cbn [a_set a_shards a_held a_log fst snd]; try done.
  - by rewrite Hd, Hlog.
  - apply Forall_insert; [|done]. eapply Forall_impl; [exact Hs|]. intros b Hb. by apply (small_mono n u); [|lia|].
  - by apply Forall_insert.
Qed.

Lemma client_shard cap n u c x key : client_ok cap n u c x → ∃ a, a_shards x !! shard_at key = Some a ∧ small n u a ∧ settled cap a ∧ NoDup (a_cached a).
Proof using.
  clear. intros [Hr _ Hs _ Hset]. destruct (shard_lookup _ _ _ _ Hr (proj1 (shard_at_lt key))) as (sh & a & _ & Ha & Hok & _). exists a.
  split; [done|]. split; [by apply (Forall_lookup_1 _ _ _ _ Hs Ha)|]. split; [by apply (Forall_lookup_1 _ _ _ _ Hset Ha)|]. by apply (shard_nodup _ _ _ Hok).
Qed.

(** What an operation establishes; [e] is the address of a new entry. *)
Definition step_post (cap : Z) (n : nat) (u : Z) (x : client) (o : op) (held : list Z) (c' : ShardedLRUCache) : Prop :=
  ∃ e y, fresh e x ∧ a_exec cap e o x = Some y ∧ held = a_held y ∧ client_ok cap (S n) (u + charge_of o) c' y.

Lemma insert_step cap n u c x garbage key value charge deleter : client_ok cap n u c x → Z.of_nat n + 2 < 2^31 → 0 ≤ charge → u + charge < 2^64 →
  let o := OInsert key value charge deleter in wp (exec garbage o (a_held x)) (step_post cap n u x o) c.
Proof using All.
  intros Hcl Hn Hch Hu o. destruct (client_shard _ _ _ _ _ key Hcl) as (a & Ha & Hsm & Hset & Hnd). set (it := MkItem key value charge deleter).
  set (e := malloc (dom (c_heap c))). pose proof (represents_fresh _ _ _ (cl_rep _ _ _ _ _ Hcl)) as Hfresh. fold e in Hfresh. cbn [exec].
  apply wp_bind. eapply wp_mono; [by apply (cache_insert_ok cap c (a_shards x) garbage it a n u (cl_rep _ _ _ _ _ Hcl) Ha)|]. cbn [it i_key]. fold it.
  intros r c' (-> & Hr' & Hd). apply wp_ret. exists e. eexists. split; [done|]. split; [cbn [a_exec o]; by rewrite Ha|]. split; [done|].
  assert (a_items a !! e = None) as He by (apply Hfresh, (list_elem_of_lookup_2 _ _ _ Ha)).
  assert (e ∉ a_held x) as Hhe.
  { intros Hin. destruct (ct_alive _ _ (cl_counted _ _ _ _ _ Hcl) e Hin) as (j & b & it' & k & Hj & Hb).
    rewrite (proj2 Hfresh b) in Hb by by apply (list_elem_of_lookup_2 _ _ _ Hj). done. }
  assert (count_occ Z.eq_dec (a_held x) e = O) as Hc0 by (apply count_occ_not_In; by rewrite <-list_elem_of_In).
  rewrite (surjective_pairing (a_insert e _ cap a)).
  apply (client_set cap n u _ c c' x (shard_at key) a); [done|done|done|done| |cbn; lia| |apply insert_settled].
  - by apply (insert_small e it cap n u a).
  - apply (counted_then _ _ _ a (MkALru [] (<[e := (it, 1%nat)]> (a_items a))) _ Ha); [apply insert_shrink|].
    apply (counted_set _ (a_held x)); [apply (cl_counted _ _ _ _ _ Hcl)|done| | |].
    + intros j b Hj [? Hb]. rewrite (proj2 Hfresh b) in Hb by by apply (list_elem_of_lookup_2 _ _ _ Hj). done.
    + rewrite count_snoc, decide_True by done. lia.
    + intros q Hq. rewrite count_snoc, decide_False by done. lia.
Qed.

Lemma lookup_step cap n u c x garbage key : client_ok cap n u c x → Z.of_nat n + 2 < 2^31 → u < 2^64 →
  let o := OLookup key in wp (exec garbage o (a_held x)) (step_post cap n u x o) c.
Proof using All.
  intros Hcl Hn Hu o. destruct (client_shard _ _ _ _ _ key Hcl) as (a & Ha & Hsm & Hset & Hnd).
  pose proof (represents_fresh _ _ _ (cl_rep _ _ _ _ _ Hcl)) as Hfresh. cbn [exec].
  apply wp_bind. eapply wp_mono; [by apply (cache_lookup_ok cap c (a_shards x) key a n u (cl_rep _ _ _ _ _ Hcl) Ha)|].
  intros r c' (Er & Hr' & Hd). apply wp_ret. exists (malloc (dom (c_heap c))). eexists. split; [done|].
  pose proof (lookup_small key n u a Hsm Hnd) as [Hsm' _]. pose proof (lookup_settled cap n u key a Hset Hsm Hnd) as Hset'.
  split; [cbn [a_exec o]; rewrite Ha; cbn [mbind option_bind]; rewrite (surjective_pairing (a_lookup key a)), <-Er; done|]. split; [done|].
  apply (client_set cap n u _ c c' x (shard_at key) a); [done|done|done|by rewrite app_nil_r|by rewrite Z.add_0_r|cbn; lia| |done].
  unfold a_lookup in *. destruct (a_find key a) as [p|] eqn:Ef; cbn [fst snd] in *; subst r.
  - pose proof Ef as [Hp _]%find_some. apply list_elem_of_In in Hp.
    destruct (shard_lookup _ _ _ _ (cl_rep _ _ _ _ _ Hcl) (proj1 (shard_at_lt key))) as (sh & a2 & _ & Ha2 & Hok & _). rewrite Ha in Ha2. injection Ha2 as <-.
    destruct (iv_l _ _ _ _ _ _ _ _ (proj1 Hok) p Hp) as [[it k] Hpi]. destruct (iv_items _ _ _ _ _ _ _ _ (proj1 Hok) p it k Hpi) as (h & _ & _ & _ & _ & Hp0).
    replace (p =? NULL) with false by lia.
    assert (alter (λ x, (x.1, S x.2)) p (a_items a) = <[p := (it, S k)]> (a_items a)) as ->.
    { rewrite <-(insert_id (a_items a) p (it, k) Hpi) at 1. by rewrite alter_insert_eq. }
    apply (counted_set _ (a_held x)); [apply (cl_counted _ _ _ _ _ Hcl)|done| | |].
    + intros j b Hj Hb. apply (represents_apart _ _ _ (cl_rep _ _ _ _ _ Hcl) _ j a b p); [done|done|by rewrite Hpi|done].
    + rewrite count_snoc, decide_True by done. rewrite (ct_count _ _ (cl_counted _ _ _ _ _ Hcl) _ a p it k Ha Hpi). lia.
    + intros q Hq. rewrite count_snoc, decide_False by done. lia.
  - rewrite Z.eqb_refl, list_insert_id by done. apply (cl_counted _ _ _ _ _ Hcl).
Qed.

Lemma release_step cap n u c x garbage k : client_ok cap n u c x → Z.of_nat n + 2 < 2^31 → u < 2^64 →
  wp (exec garbage (ORelease k) (a_held x)) (step_post cap n u x (ORelease k)) c.
Proof using All.
  intros Hcl Hn Hu. pose proof (represents_fresh _ _ _ (cl_rep _ _ _ _ _ Hcl)) as Hfresh. cbn [exec].
  destruct (a_held x !! k) as [p|] eqn:Ek; [|apply wp_ret].
  2:{ exists (malloc (dom (c_heap c))), x. split; [done|]. split; [cbn [a_exec]; by rewrite Ek|]. split; [done|].
      destruct Hcl as [H1 H2 H3 H4 H5]. split; try done. eapply Forall_impl; [exact H3|]. intros b Hb. cbn. apply (small_mono n u); [done|lia|lia]. }
  assert (p ∈ a_held x) as Hin by by apply (list_elem_of_lookup_2 _ k). destruct (ct_alive _ _ (cl_counted _ _ _ _ _ Hcl) p Hin) as (j & b & it & m & Hj & Hb).
  destruct (list_find_elem_of (λ a, is_Some (a_items a !! p)) (a_shards x) b) as [[i a] Hfind]; [by apply (list_elem_of_lookup_2 _ j)|by rewrite Hb|].
  pose proof Hfind as (Ha & Hsome & _)%list_find_Some.
  assert (j = i) as -> by (apply (represents_apart _ _ _ (cl_rep _ _ _ _ _ Hcl) j i b a p); [done|done|by rewrite Hb|done]).
  rewrite Ha in Hj. injection Hj as <-. pose proof (ct_count _ _ (cl_counted _ _ _ _ _ Hcl) i a p it m Ha Hb) as Em.
  rewrite (count_delete _ _ _ p Ek), decide_True, Nat.add_1_r in Em by done. destruct m as [|m]; [done|]. injection Em as Em.
  pose proof (Forall_lookup_1 _ _ _ _ (cl_small _ _ _ _ _ Hcl) Ha) as Hsm. pose proof (Forall_lookup_1 _ _ _ _ (cl_settled _ _ _ _ _ Hcl) Ha) as Hset.
  apply wp_bind. eapply wp_mono; [by apply (cache_release_ok cap c (a_shards x) p i a it m n u (cl_rep _ _ _ _ _ Hcl) Ha)|].
  intros [] c' (Hr' & Hd). apply wp_ret. exists (malloc (dom (c_heap c))). eexists. split; [done|].
  split; [cbn [a_exec]; rewrite Ek, Hfind; done|]. split; [done|]. rewrite (surjective_pairing (a_release p a)).
  apply (client_set cap n u _ c c' x i a); [done|done|done|done| |cbn; lia| |by apply (release_settled cap n u)].
  - cbn. rewrite Z.add_0_r. apply (small_mono n u); [by apply release_small|lia|lia].
  - assert (alter (λ x, (x.1, pred x.2)) p (a_items a) = <[p := (it, m)]> (a_items a)) as Ei.
    { rewrite <-(insert_id (a_items a) p (it, S m) Hb) at 1. by rewrite alter_insert_eq. }
    apply (counted_then _ _ _ a (MkALru (a_cached a) (<[p := (it, m)]> (a_items a))) _ Ha); [unfold a_release; rewrite Ei; apply collect_shrink|].
    apply (counted_set _ (a_held x)); [apply (cl_counted _ _ _ _ _ Hcl)|done| |done|].
    + intros j b Hj Hbj. apply (represents_apart _ _ _ (cl_rep _ _ _ _ _ Hcl) _ j a b p); [done|done|by rewrite Hb|done].
    + intros q Hq. rewrite (count_delete _ _ _ q Ek), decide_False by done. lia.
Qed.

Lemma erase_step cap n u c x garbage key : client_ok cap n u c x → Z.of_nat n + 2 < 2^31 → u < 2^64 →
  let o := OErase key in wp (exec garbage o (a_held x)) (step_post cap n u x o) c.
Proof using All.
  intros Hcl Hn Hu o. destruct (client_shard _ _ _ _ _ key Hcl) as (a & Ha & Hsm & Hset & Hnd).
  pose proof (represents_fresh _ _ _ (cl_rep _ _ _ _ _ Hcl)) as Hfresh. cbn [exec].
  apply wp_bind. eapply wp_mono; [by apply (cache_erase_ok cap c (a_shards x) key a n u (cl_rep _ _ _ _ _ Hcl) Ha)|].
  intros [] c' (Hr' & Hd). apply wp_ret. exists (malloc (dom (c_heap c))). eexists. split; [done|].
  split; [cbn [a_exec o]; by rewrite Ha|]. split; [done|]. rewrite (surjective_pairing (a_erase key a)).
  apply (client_set cap n u _ c c' x (shard_at key) a); [done|done|done|done| |cbn; lia| |by apply (erase_settled cap n u)].
  - cbn. rewrite Z.add_0_r. apply (small_mono n u); [by apply erase_small|lia|lia].
  - apply (counted_shrink _ _ _ a); [apply (cl_counted _ _ _ _ _ Hcl)|done|apply erase_shrink].
Qed.

Lemma exec_step cap n u c x garbage o : client_ok cap n u c x → Z.of_nat n + 2 < 2^31 → 0 ≤ charge_of o → u + charge_of o < 2^64 →
  wp (exec garbage o (a_held x)) (step_post cap n u x o) c.
Proof using All.
  intros Hcl Hn Hc Hu. destruct o; cbn [charge_of] in *; [by apply insert_step|apply lookup_step|apply release_step|apply erase_step]; done || lia.
Qed.

(** The entries of a shard are distinct, so are their keys, and these belong to the shard. *)
Definition wf (x : client) : Prop :=
  (∀ a, a ∈ a_shards x → NoDup (a_cached a) ∧ unique (a_items a) (a_cached a) ∧ ∀ p, p ∈ a_cached a → is_Some (a_items a !! p))
  ∧ ∀ i a p it n, a_shards x !! i = Some a → a_items a !! p = Some (it, n) → shard_at (i_key it) = i.

Lemma client_wf cap n u c x : client_ok cap n u c x → wf x.
Proof using.
  clear. intros [Hr _ _ _ _]. split.
  - intros a [i Ha]%list_elem_of_lookup. destruct (Forall2_lookup_r _ _ _ _ _ (rp_shards _ _ _ Hr) Ha) as (sh & _ & Hok).
    split; [by apply (shard_nodup _ _ _ Hok)|]. split; [apply Hok|apply (iv_l _ _ _ _ _ _ _ _ (proj1 Hok))].
  - intros i a p it k Ha Hp. unfold shard_at. rewrite (rp_home _ _ _ Hr i a p it k Ha Hp). apply Nat2Z.id.
Qed.

(** What holds of the abstract cache before, and is kept by its operations, holds after a program. *)
Lemma exec_all_ok cap garbage (I : list op → client → Prop) :
  (∀ before e o x y, I before x → wf x → fresh e x → a_exec cap e o x = Some y → I (before ++ [o]) y) →
  ∀ ops before n u c x, client_ok cap n u c x → I before x → Z.of_nat n + zlen ops + 2 < 2^31 → Forall (λ o, 0 ≤ charge_of o) ops →
  u + charges ops < 2^64 →
  wp (exec_all garbage ops (a_held x)) (λ held c', ∃ y, I (before ++ ops) y ∧ held = a_held y ∧ client_ok cap (n + length ops) (u + charges ops) c' y) c.
Proof using All.
  intros Hstep. induction ops as [|o ops IH]; intros before n u c x Hcl HI Hn Hch Hu; cbn [exec_all].
  - apply wp_ret. exists x. rewrite app_nil_r. split; [done|]. split; [done|]. cbn. by rewrite Nat.add_0_r, Z.add_0_r.
  - apply Forall_cons in Hch as [Ho Hch]. cbn [charges fold_right length] in *. fold (charges ops) in *.
    assert (0 ≤ charges ops) as Hpos by (clear - Hch; induction Hch; cbn; [done|]; unfold charges in *; lia).
    apply wp_bind. eapply wp_mono; [apply (exec_step cap n u c x garbage o Hcl); lia|].
    intros held c' (e & y & Hf & Ey & -> & Hcl'). pose proof (Hstep before e o x y HI (client_wf _ _ _ _ _ Hcl) Hf Ey) as HI'.
    eapply wp_mono; [apply (IH (before ++ [o]) (S n) _ c' y Hcl' HI'); [lia|done|lia]|].
    intros held c2 (z & Hz & -> & Hcl2). exists z. rewrite <-app_assoc in Hz. split; [done|]. split; [done|]. by rewrite <-plus_n_Sm, Z.add_assoc.
Qed.

Lemma a_empty_ok cap c : represents cap c empty_shards → c_deleted c = [] → 0 ≤ cap → client_ok cap 0 0 c a_empty.
Proof using.
  clear. intros Hr Hd Hcap. split; cbn [a_empty a_shards a_held a_log]; [done|done| | |].
  - apply Forall_replicate. by split.
  - split; [|by intros p ?%elem_of_nil]. intros i a p it k Hi Hp. apply lookup_replicate in Hi as [-> _]. cbn in Hp. by rewrite lookup_empty in Hp.
  - apply Forall_replicate. by left.
Qed.

(** The machine integers hold what a program asks for. *)
Definition fits (ops : list op) : Prop := Forall (λ o, 0 ≤ charge_of o) ops ∧ charges ops < 2^64 ∧ zlen ops + 2 < 2^31.

Lemma per_shard_nonneg capacity : 0 ≤ per_shard capacity.
Proof using. clear. unfold per_shard. apply Z.div_pos; [apply u64_range|done]. Qed.

Lemma program_ok d garbage capacity ops (I : list op → client → Prop) : fits ops → I [] a_empty →
  (∀ before e o x y, I before x → wf x → fresh e x → a_exec (per_shard capacity) e o x = Some y → I (before ++ [o]) y) →
  ∃ held c x, program d garbage capacity ops = Ok (held, c) ∧ held = a_held x ∧ I ops x
    ∧ client_ok (per_shard capacity) (length ops) (charges ops) c x.
Proof using All.
  intros (Hc & Hu & Hn) HI0 Hstep. destruct (NewLRUCache_ok d capacity) as (c0 & E & Hr & Hd). unfold program. rewrite E. cbn [mbind res_bind].
  pose proof (a_empty_ok _ _ Hr Hd (per_shard_nonneg capacity)) as Hcl.
  pose proof (exec_all_ok (per_shard capacity) garbage I Hstep ops [] 0 0 c0 a_empty Hcl HI0 ltac:(lia) Hc ltac:(lia)) as Hrun.
  apply wp_elim in Hrun as (held & c & Erun & x & HI & -> & Hcl'). exists (a_held x), c, x. by split_and!.
Qed.
End run.
