(* ===== verification/LruSpec.v ===== *)
(** * What the LRU cache promises its clients

    Programs match the abstract cache; no entry is lost or deleted twice; a hit is never stale. *)
From stdpp Require Import gmap.
From S2P Require Import Prelude Bloom LruCache LruTable LruInsert LruClient.

#[local] Open Scope Z_scope.

(** ** Deletions *)

(** What is alive, as what is passed to its deleter in the end. *)
Definition alive (a : alru) : list deletion := (λ x : Z * (item * nat), deletion_of x.2.1) <$> map_to_list (a_items a).
Definition live (abs : list alru) : list deletion := concat (alive <$> abs).

Lemma alive_insert l items p it n : items !! p = None → alive (MkALru l (<[p := (it, n)]> items)) ≡ₚ deletion_of it :: alive (MkALru l items).
Proof. intros Hp. unfold alive. cbn [a_items]. by rewrite map_to_list_insert. Qed.

Lemma alive_delete l items p it n : items !! p = Some (it, n) → alive (MkALru l items) ≡ₚ deletion_of it :: alive (MkALru l (delete p items)).
Proof. intros Hp. rewrite <-(insert_delete_id items p (it, n) Hp) at 1. apply alive_insert, lookup_delete_eq. Qed.

Lemma alive_cached l l' items : alive (MkALru l items) = alive (MkALru l' items).
Proof. done. Qed.

Lemma alive_alter l l' p f items : (∀ x : item * nat, (f x).1 = x.1) → alive (MkALru l (alter f p items)) ≡ₚ alive (MkALru l' items).
Proof.
  intros Hf. destruct (items !! p) as [[it n]|] eqn:E; [|by rewrite alter_id'].
  rewrite (alive_delete l' items p it n E). rewrite <-(insert_delete_id items p (it, n) E) at 1. rewrite alter_insert_eq.
  rewrite (surjective_pairing (f (it, n))), Hf. rewrite (alive_cached l' l). apply alive_insert, lookup_delete_eq.
Qed.

Lemma collect_alive p a : alive a ≡ₚ (a_collect p a).2 ++ alive (a_collect p a).1.
Proof.
  destruct a as [l items]. unfold a_collect. cbn [a_items a_cached]. destruct (items !! p) as [[it [|n]]|] eqn:E; [|done..].
  destruct (decide (p ∈ l)); [done|]. by apply (alive_delete l items p it 0).
Qed.

Lemma drop_alive p a : alive a ≡ₚ (a_drop p a).2 ++ alive (a_drop p a).1.
Proof. apply (collect_alive p (MkALru (without p (a_cached a)) (a_items a))). Qed.

Lemma evict_alive m cap : ∀ a, alive a ≡ₚ (a_evict m cap a).2 ++ alive (a_evict m cap a).1.
Proof.
  induction m as [|m IH]; intros a; [done|]. cbn [a_evict]. destruct (a_cached a) as [|p l]; [done|]. destruct (cap <? _); [|done].
  pose proof (drop_alive p a) as Hd. destruct (a_drop p a) as [a1 d1]. specialize (IH a1). destruct (a_evict m cap a1) as [a2 d2]. cbn [fst snd] in *.
  by rewrite Hd, IH, app_assoc.
Qed.

Lemma insert_alive e it cap a : a_items a !! e = None → deletion_of it :: alive a ≡ₚ (a_insert e it cap a).2 ++ alive (a_insert e it cap a).1.
Proof.
  intros He. assert (deletion_of it :: alive a ≡ₚ (a_place e it a).2 ++ alive (a_place e it a).1) as Hp.
  { rewrite <-(alive_insert (a_cached a ++ [e]) (a_items a) e it 1 He). unfold a_place. destruct (a_find (i_key it) a); [apply drop_alive|done]. }
  unfold a_insert. destruct (a_place e it a) as [a1 d1]. pose proof (evict_alive (length (a_cached a1)) cap a1) as Hv.
  destruct (a_evict _ cap a1) as [a2 d2]. cbn [fst snd] in *. by rewrite Hp, Hv, app_assoc.
Qed.

Lemma live_set abs i a a' new d : abs !! i = Some a → new ++ alive a ≡ₚ d ++ alive a' → new ++ live abs ≡ₚ d ++ live (<[i := a']> abs).
Proof.
  intros Hi Hp. unfold live. rewrite list_fmap_insert. assert ((alive <$> abs) !! i = Some (alive a)) as Ha by by rewrite list_lookup_fmap, Hi.
  destruct (concat_update (alive <$> abs) i (alive a) (alive a') Ha) as (l1 & l2 & -> & ->).
  rewrite !(app_assoc l1), !(Permutation_app_comm l1), <-!app_assoc, !app_assoc. by rewrite Hp.
Qed.

Definition conserved (ops : list op) (x : client) : Prop := inserted ops ≡ₚ a_log x ++ live (a_shards x).

Lemma inserted_snoc ops o : inserted (ops ++ [o]) = inserted ops ++ inserted [o].
Proof. apply omap_app. Qed.

Lemma set_conserved ops x o i a r held : conserved ops x → a_shards x !! i = Some a → inserted [o] ++ alive a ≡ₚ r.2 ++ alive r.1 →
  conserved (ops ++ [o]) (a_set i r held x).
Proof.
  intros Hc Hi Hp. unfold conserved in *. cbn [a_set a_log a_shards]. rewrite inserted_snoc, Hc, <-app_assoc.
  rewrite (Permutation_app_comm (live (a_shards x))), (live_set _ _ _ _ _ _ Hi Hp). by rewrite app_assoc.
Qed.

Lemma exec_conserved cap before e o x y : conserved before x → fresh e x → a_exec cap e o x = Some y → conserved (before ++ [o]) y.
Proof.
  intros Hc Hf Ey. destruct o as [key value charge deleter|key|k|key]; cbn [a_exec] in Ey.
  - destruct (a_shards x !! shard_at key) as [a|] eqn:Ha; [|done]. injection Ey as <-. apply (set_conserved _ _ _ _ a); [done|done|].
    apply (insert_alive e (MkItem key value charge deleter)). apply Hf. by apply (list_elem_of_lookup_2 _ _ _ Ha).
  - destruct (a_shards x !! shard_at key) as [a|] eqn:Ha; [|done]. cbn [mbind option_bind] in Ey. rewrite (surjective_pairing (a_lookup key a)) in Ey.
    injection Ey as <-. apply (set_conserved _ _ _ _ a); [done|done|]. cbn. unfold a_lookup. destruct (a_find key a) as [p|]; [|done]. symmetry. by apply (alive_alter _ (a_cached a)).
  - destruct (a_held x !! k) as [p|] eqn:Ek; [|injection Ey as <-; unfold conserved; by rewrite inserted_snoc, app_nil_r].
    destruct (list_find _ (a_shards x)) as [[i a]|] eqn:Hfind; [|done]. injection Ey as <-. apply list_find_Some in Hfind as (Ha & _).
    apply (set_conserved _ _ _ _ a); [done|done|]. cbn [inserted omap list_omap app]. unfold a_release. rewrite <-collect_alive. symmetry. by apply (alive_alter _ (a_cached a)).
  - destruct (a_shards x !! shard_at key) as [a|] eqn:Ha; [|done]. injection Ey as <-. apply (set_conserved _ _ _ _ a); [done|done|].
    cbn. unfold a_erase. destruct (a_find key a); [apply drop_alive|done].
Qed.

(** ** Hits *)

(** The value that was inserted last under [key], unless the key was erased since. *)
Definition latest (key : list byte) (ops : list op) : option Z :=
  fold_left (λ r o, match o with
    | OInsert k value _ _ => if decide (k = key) then Some value else r
    | OErase k => if decide (k = key) then None else r
    | _ => r end) ops None.

Lemma latest_snoc key ops o : latest key (ops ++ [o]) = match o with
    | OInsert k value _ _ => if decide (k = key) then Some value else latest key ops
    | OErase k => if decide (k = key) then None else latest key ops
    | _ => latest key ops end.
Proof. unfold latest. by rewrite fold_left_app. Qed.

Definition current (ops : list op) (a : alru) : Prop :=
  ∀ p it n, p ∈ a_cached a → a_items a !! p = Some (it, n) → latest (i_key it) ops = Some (i_value it).
Definition all_current (ops : list op) (x : client) : Prop := ∀ a, a ∈ a_shards x → current ops a.

Lemma collect_cached p a : a_cached (a_collect p a).1 = a_cached a.
Proof. apply collect_items. Qed.

Lemma evict_cached m cap : ∀ a p, p ∈ a_cached (a_evict m cap a).1 → p ∈ a_cached a.
Proof.
  induction m as [|m IH]; intros a p; [done|]. cbn [a_evict]. destruct (a_cached a) as [|q l] eqn:El; [cbn; by rewrite El|]. destruct (cap <? _); [|cbn; by rewrite El].
  pose proof (collect_cached q (MkALru (without q (a_cached a)) (a_items a))) as Hc. fold (a_drop q a) in Hc. specialize (IH (a_drop q a).1 p).
  destruct (a_drop q a) as [a1 d1]. cbn [fst] in *. revert IH. destruct (a_evict m cap a1) as [a2 d2]. cbn [fst a_cached] in *. intros IH Hp.
  specialize (IH Hp). rewrite Hc in IH. apply without_elem in IH as [_ IH]. by rewrite El in IH.
Qed.

(** After an insertion, the other cached entries have other keys. *)
Lemma insert_cached e it cap a p : unique (a_items a) (a_cached a) → p ∈ a_cached (a_insert e it cap a).1 →
  p = e ∨ (p ∈ a_cached a ∧ has_key (a_items a) (i_key it) p = false).
Proof.
  destruct a as [l items]. intros Hun Hp. unfold a_insert in Hp.
  assert (p ∈ a_cached (a_place e it (MkALru l items)).1) as Hp1.
  { destruct (a_place e it (MkALru l items)) as [a1 d1]. pose proof (evict_cached (length (a_cached a1)) cap a1 p) as Hv.
    destruct (a_evict _ cap a1) as [a2 d2]. by apply Hv. }
  clear Hp. unfold a_place in Hp1. cbn [a_items a_cached] in *. destruct (a_find (i_key it) (MkALru l items)) as [old|] eqn:Ef.
  - unfold a_drop in Hp1. rewrite collect_cached in Hp1. cbn [a_cached] in Hp1. apply without_elem in Hp1 as [Hpo Hp].
    rewrite elem_of_app, list_elem_of_singleton in Hp. destruct Hp as [Hp|]; [right|by left]. split; [done|]. by apply (found_only items l _ old).
  - cbn [fst a_cached] in Hp1. rewrite elem_of_app, list_elem_of_singleton in Hp1. destruct Hp1 as [Hp|]; [right|by left].
    split; [done|]. by apply (not_found items l).
Qed.

Lemma erase_cached key a p : unique (a_items a) (a_cached a) → p ∈ a_cached (a_erase key a).1 → p ∈ a_cached a ∧ has_key (a_items a) key p = false.
Proof.
  destruct a as [l items]. intros Hun. unfold a_erase. destruct (a_find key (MkALru l items)) as [r|] eqn:Ef.
  - unfold a_drop. rewrite collect_cached. cbn [a_cached a_items] in *. intros [Hpr Hp]%without_elem. split; [done|]. by apply (found_only items l _ r).
  - intros Hp. split; [done|]. by apply (not_found items l).
Qed.

Lemma lookup_cached key a p : p ∈ a_cached (a_lookup key a).2 → p ∈ a_cached a.
Proof.
  unfold a_lookup. destruct (a_find key a) as [r|] eqn:Ef; [|done]. cbn [snd a_cached]. rewrite elem_of_app, list_elem_of_singleton, without_elem.
  apply find_some in Ef as [Hr%list_elem_of_In _]. by intros [[_ ?]| ->].
Qed.

Lemma has_key_other items key p it n : items !! p = Some (it, n) → has_key items key p = false → key ≠ i_key it.
Proof. unfold has_key. intros ->. by intros Hk%bool_decide_eq_false ->. Qed.

(** Shard [i] changes, and the operation does not concern the keys of the others. *)
Lemma set_current ops x o i a r held : all_current ops x → wf x → a_shards x !! i = Some a → current (ops ++ [o]) r.1 →
  (∀ key, shard_at key ≠ i → latest key (ops ++ [o]) = latest key ops) → all_current (ops ++ [o]) (a_set i r held x).
Proof.
  intros Hc [_ Hhome] Hi Hr Ho b [j Hj]%list_elem_of_lookup. cbn [a_set a_shards] in Hj.
  apply list_lookup_insert_Some in Hj as [(_ & <- & _)|[Hij Hj]]; [done|]. intros p it n Hp Hpi.
  rewrite Ho; [by apply (Hc b (list_elem_of_lookup_2 _ _ _ Hj) p it n)|]. intros E. apply Hij. rewrite <-E. by apply (Hhome j b p it n).
Qed.

Lemma subset_current ops ops' a a' : current ops a → kin (a_items a) (a_items a') → (∀ p, p ∈ a_cached a' → p ∈ a_cached a) →
  (∀ p it n, p ∈ a_cached a' → a_items a !! p = Some (it, n) → latest (i_key it) ops' = latest (i_key it) ops) → current ops' a'.
Proof.
  intros Hc Hk Hsub Hl p it n Hp Hpi. destruct (Hk p it n Hpi) as [k Hpk]. rewrite (Hl p it k) by done. by apply (Hc p it k); [apply Hsub|].
Qed.

Lemma shrink_kin items items' : shrink items items' → kin items items'.
Proof. intros [Hs _] p it n Hp. exists n. by apply Hs. Qed.

Lemma lookup_kin key a : kin (a_items a) (a_items (a_lookup key a).2).
Proof. unfold a_lookup. destruct (a_find key a); [by apply kin_alter|apply kin_refl]. Qed.

Lemma release_kin p a : kin (a_items a) (a_items (a_release p a).1).
Proof.
  set (a1 := MkALru (a_cached a) (alter (λ x, (x.1, pred x.2)) p (a_items a))).
  apply (kin_trans _ (a_items a1)); [by apply kin_alter|]. apply shrink_kin, (collect_shrink p a1).
Qed.

Lemma insert_current before e it cap a : current before a → a_items a !! e = None → unique (a_items a) (a_cached a) →
  (∀ p, p ∈ a_cached a → is_Some (a_items a !! p)) →
  current (before ++ [OInsert (i_key it) (i_value it) (i_charge it) (i_deleter it)]) (a_insert e it cap a).1.
Proof.
  intros Hc He Hun Hsome p it' k Hp Hpi. destruct (shrink_kin _ _ (insert_shrink e it cap a) p it' k Hpi) as [j Hj].
  rewrite latest_snoc. destruct (insert_cached e it cap a p Hun Hp) as [->|[Hpc Hno]].
  - rewrite lookup_insert_eq in Hj. injection Hj as <- _. by rewrite decide_True.
  - assert (p ≠ e) as Hpe by (intros ->; destruct (Hsome e Hpc) as [? E]; by rewrite He in E).
    rewrite lookup_insert_ne in Hj by done. rewrite decide_False by by apply (has_key_other _ _ _ _ _ Hj). by apply (Hc p it' j).
Qed.

Lemma exec_current cap before e o x y : all_current before x → wf x → fresh e x → a_exec cap e o x = Some y → all_current (before ++ [o]) y.
Proof.
  intros Hc Hwf Hf Ey. destruct o as [key value charge deleter|key|k|key]; cbn [a_exec] in Ey.
  - destruct (a_shards x !! shard_at key) as [a|] eqn:Ha; [|done]. injection Ey as <-. pose proof (list_elem_of_lookup_2 _ _ _ Ha) as Hin.
    destruct (proj1 Hwf a Hin) as (_ & Hun & Hsome). apply (set_current _ _ _ _ a); [done|done|done| |].
    + apply (insert_current before e (MkItem key value charge deleter) cap a); [by apply Hc|by apply Hf|done|done].
    + intros key' Hk. rewrite latest_snoc, decide_False; [done|by intros ->].
  - destruct (a_shards x !! shard_at key) as [a|] eqn:Ha; [|done]. cbn [mbind option_bind] in Ey. rewrite (surjective_pairing (a_lookup key a)) in Ey.
    injection Ey as <-. apply (set_current _ _ _ _ a); [done|done|done| |intros key' _; by rewrite latest_snoc].
    apply (subset_current before _ a); [by apply Hc, (list_elem_of_lookup_2 _ _ _ Ha)|apply lookup_kin|apply lookup_cached|intros; by rewrite latest_snoc].
  - destruct (a_held x !! k) as [p|] eqn:Ek.
    2:{ injection Ey as <-. intros a Ha q it n Hq Hqi. rewrite latest_snoc. by apply (Hc a Ha q it n). }
    destruct (list_find _ (a_shards x)) as [[i a]|] eqn:Hfind; [|done]. injection Ey as <-. apply list_find_Some in Hfind as (Ha & _).
    apply (set_current _ _ _ _ a); [done|done|done| |intros key' _; by rewrite latest_snoc].
    apply (subset_current before _ a); [by apply Hc, (list_elem_of_lookup_2 _ _ _ Ha)|apply release_kin| |intros; by rewrite latest_snoc].
    intros q. unfold a_release. by rewrite collect_cached.
  - destruct (a_shards x !! shard_at key) as [a|] eqn:Ha; [|done]. injection Ey as <-. pose proof (list_elem_of_lookup_2 _ _ _ Ha) as Hin.
    destruct (proj1 Hwf a Hin) as (_ & Hun & _). apply (set_current _ _ _ _ a); [done|done|done| |].
    + apply (subset_current before _ a); [by apply Hc|apply shrink_kin, erase_shrink|by intros p [? _]%erase_cached|].
      intros p it n Hp Hpi. apply erase_cached in Hp as [_ Hk]; [|done]. rewrite latest_snoc, decide_False; [done|]. by apply (has_key_other _ _ _ _ _ Hpi).
    + intros key' Hk. rewrite latest_snoc, decide_False; [done|by intros ->].
Qed.

(** ** Promises *)

Section promises.
Context `{Malloc} `{!MallocSpec}.

(** Claim C7. Every program of a client of the LRU cache runs to its end, whatever the memory it gets
    from [malloc] holds, and its handles, the entries that are alive, cached and in which order, and
    the calls of deleters are those of the abstract cache. *)
Theorem lru_cache_refines d garbage capacity ops : fits ops →
  ∃ held c x, program d garbage capacity ops = Ok (held, c) ∧ a_run (per_shard capacity) ops a_empty x
    ∧ held = a_held x ∧ c_deleted c = a_log x ∧ represents (per_shard capacity) c (a_shards x).
Proof using All.
  intros Hf. destruct (program_ok d garbage capacity ops (λ ops x, a_run (per_shard capacity) ops a_empty x) Hf) as (held & c & x & E & Eh & Hx & Hcl).
  - constructor.
  - intros before e o x y Hx _ He Ey. by apply (run_step _ e o before a_empty x y).
  - exists held, c, x. destruct Hcl as [Hr Hlog _ _ _]. by split_and!.
Qed.

Lemma settled_shard cap c m a : shard_ok HashSlice c m a → settled cap a → usage_ c ≤ cap ∨ h_next <$> m !! lru_ c = Some (lru_ c).
Proof using.
  clear. intros [Hinv _] [Hu|Hl]; [left|right].
  - by rewrite (iv_usage _ _ _ _ _ _ _ _ Hinv).
  - pose proof (iv_circ _ _ _ _ _ _ _ _ Hinv) as Hc. rewrite Hl in Hc. by destruct Hc as [Hc _].
Qed.

Lemma alive_elem a p it n : a_items a !! p = Some (it, n) → deletion_of it ∈ alive a.
Proof using. clear. intros Hp. apply list_elem_of_fmap. exists (p, (it, n)). split; [done|]. by apply elem_of_map_to_list. Qed.

(** Claim C8. After every program of a client of the LRU cache, each entry that was inserted has
    been passed to its deleter exactly once or is alive, every handle that is held denotes
    an entry that was inserted and has a reference for each time it is held, and each shard is
    within its capacity unless all of its entries are in use. *)
Theorem lru_cache_conserves d garbage capacity ops : fits ops →
  ∃ held c abs, program d garbage capacity ops = Ok (held, c) ∧ represents (per_shard capacity) c abs
    ∧ inserted ops ≡ₚ c_deleted c ++ live abs
    ∧ (∀ p, p ∈ held → ∃ h, c_heap c !! p = Some h ∧ (h_deleter h, key_of h, h_value h) ∈ inserted ops
        ∧ Z.of_nat (count_occ Z.eq_dec held p) ≤ h_refs h)
    ∧ Forall (λ sh, usage_ sh ≤ per_shard capacity ∨ h_next <$> c_heap c !! lru_ sh = Some (lru_ sh)) (shard_ c).
Proof using All.
  intros Hf. destruct (program_ok d garbage capacity ops conserved Hf) as (held & c & x & E & -> & Hx & Hcl).
  - unfold conserved. by vm_compute.
  - intros before e o x y Hx _ He Ey. by apply (exec_conserved (per_shard capacity) before e o x y).
  - exists (a_held x), c, (a_shards x). destruct Hcl as [Hr Hlog _ Hc Hset]. unfold conserved in Hx. rewrite <-Hlog in Hx.
    split; [done|]. split; [done|]. split; [done|]. split.
    + intros p Hp. destruct (ct_alive _ _ Hc p Hp) as (i & a & it & k & Hi & Hpi). pose proof (ct_count _ _ Hc i a p it k Hi Hpi) as Ek.
      destruct (Forall2_lookup_r _ _ _ _ _ (rp_shards _ _ _ Hr) Hi) as (sh & _ & Hok).
      destruct (iv_items _ _ _ _ _ _ _ _ (proj1 Hok) p it k Hpi) as (h & Hm & (N1 & N2 & _ & N4 & _) & Hrefs & _). exists h. split; [done|]. split.
      * rewrite Hx, N1, N2, N4. apply elem_of_app. right. apply list_elem_of_In, in_concat. exists (alive a). split; apply list_elem_of_In.
        -- apply list_elem_of_fmap. exists a. split; [done|]. by apply (list_elem_of_lookup_2 _ i).
        -- by apply (alive_elem a p it k).
      * rewrite Ek, Hrefs. pose proof (one_range (p ∈ a_cached a)). rewrite (one_false (None = Some p)) by done. lia.
    + apply Forall_lookup_2. intros i sh Hi. destruct (Forall2_lookup_l _ _ _ _ _ (rp_shards _ _ _ Hr) Hi) as (a & Ha & Hok).
      apply (settled_shard _ _ _ a); [done|]. by apply (Forall_lookup_1 _ _ _ _ Hset Ha).
Qed.

(** Claim C9. After every program of a client of the LRU cache, a lookup that finds an entry returns
    a handle whose value is the one inserted last under that key, and the key has not been
    erased since: the cache never serves a stale value. *)
Theorem lru_lookup_latest d garbage capacity ops key : fits ops →
  ∃ held c r c', program d garbage capacity ops = Ok (held, c) ∧ Cache_Lookup key c = Ok (r, c')
    ∧ (r = NULL ∨ ∃ v, Cache_Value r c' = Ok v ∧ latest key ops = Some v).
Proof using All.
  intros Hf. destruct (program_ok d garbage capacity ops all_current Hf) as (held & c & x & E & _ & Hx & Hcl).
  { intros a Ha p it n Hp. apply list_elem_of_lookup in Ha as [i Ha]. apply lookup_replicate in Ha as [-> _]. by apply elem_of_nil in Hp. }
  { intros before e o x y Hx Hwf He Ey. by apply (exec_current (per_shard capacity) before e o x y). }
  destruct (client_shard _ _ _ _ _ key Hcl) as (a & Ha & Hsm & _). destruct (client_wf _ _ _ _ _ Hcl) as [Hwf _].
  pose proof (list_elem_of_lookup_2 _ _ _ Ha) as Hin. destruct (Hwf a Hin) as (Hnd & _ & Hsome). destruct Hf as (_ & Hu & Hn).
  destruct (wp_elim _ _ _ (cache_lookup_ok _ c _ key a _ _ (cl_rep _ _ _ _ _ Hcl) Ha Hsm ltac:(lia) Hu)) as (r & c' & El & Er & Hr' & _).
  exists held, c, r, c'. split; [done|]. split; [done|]. unfold a_lookup in *. destruct (a_find key a) as [p|] eqn:Ef; [right|by left].
  cbn [fst snd] in *. subst r. apply find_some in Ef as [Hp%list_elem_of_In Hk]. destruct (Hsome p Hp) as [[it n] Hpi].
  set (a' := MkALru _ _) in Hr'. assert (a_items a' !! p = Some (it, S n)) as Hpi' by (cbn; by rewrite lookup_alter_eq, Hpi).
  assert (<[shard_at key := a']> (a_shards x) !! shard_at key = Some a') as Ha' by by apply list_lookup_insert_eq, (lookup_lt_Some _ _ _ Ha).
  destruct (Forall2_lookup_r _ _ _ _ _ (rp_shards _ _ _ Hr') Ha') as (sh & _ & Hok).
  destruct (iv_items _ _ _ _ _ _ _ _ (proj1 Hok) p it (S n) Hpi') as (h & Hm & (N1 & _) & _). exists (i_value it). unfold Cache_Value. rewrite Hm.
  split; [cbn; by rewrite N1|]. unfold has_key in Hk. rewrite Hpi in Hk. apply bool_decide_eq_true in Hk as <-. by apply (Hx a Hin p it n).
Qed.
End promises.

(** ** A client *)

Definition free_malloc : Malloc := λ X, infinite_fresh (NULL :: elements X).

Lemma free_malloc_spec : @MallocSpec free_malloc.
Proof.
  split; intros X; pose proof (infinite_is_fresh (NULL :: elements X)) as Hf; rewrite elem_of_cons, elem_of_elements in Hf; tauto.
Qed.

Definition blank : LRUHandle := MkHandle 0 0 0 0 0 0 0 0 0 [].

(** The entry under x61 is replaced while its first handle is held. *)
Definition client_ops : list op :=
  [OInsert [Byte.x61] 7 1 2; OLookup [Byte.x61]; OInsert [Byte.x61] 8 1 2; OErase [Byte.x62]; ORelease 0].

Lemma client_fits : fits client_ops.
Proof. split; [|by vm_compute]. repeat constructor; cbn; lia. Qed.

Lemma lru_cache_refines_witness : fits client_ops ∧ ∃ held c x,
  @program free_malloc (blank) (3, 4) 100 client_ops = Ok (held, c) ∧ a_run (per_shard 100) client_ops a_empty x
    ∧ held = a_held x ∧ c_deleted c = a_log x ∧ represents (per_shard 100) c (a_shards x).
Proof. split; [apply client_fits|]. apply (@lru_cache_refines free_malloc free_malloc_spec). apply client_fits. Defined.

Lemma lru_cache_conserves_witness : fits client_ops ∧ ∃ held c abs,
  @program free_malloc (blank) (3, 4) 100 client_ops = Ok (held, c) ∧ represents (per_shard 100) c abs
    ∧ inserted client_ops ≡ₚ c_deleted c ++ live abs
    ∧ (∀ p, p ∈ held → ∃ h, c_heap c !! p = Some h ∧ (h_deleter h, key_of h, h_value h) ∈ inserted client_ops
        ∧ Z.of_nat (count_occ Z.eq_dec held p) ≤ h_refs h)
    ∧ Forall (λ sh, usage_ sh ≤ per_shard 100 ∨ h_next <$> c_heap c !! lru_ sh = Some (lru_ sh)) (shard_ c).
Proof. split; [apply client_fits|]. apply (@lru_cache_conserves free_malloc free_malloc_spec). apply client_fits. Defined.

Lemma lru_lookup_latest_witness : fits client_ops ∧ latest [Byte.x61] client_ops = Some 8 ∧ ∃ held c r c',
  @program free_malloc (blank) (3, 4) 100 client_ops = Ok (held, c) ∧ Cache_Lookup [Byte.x61] c = Ok (r, c')
    ∧ (r = NULL ∨ ∃ v, Cache_Value r c' = Ok v ∧ latest [Byte.x61] client_ops = Some v).
Proof. split; [apply client_fits|]. split; [by vm_compute|]. apply (@lru_lookup_latest free_malloc free_malloc_spec). apply client_fits. Defined.

(** The first value is passed to its deleter when its last handle is given back. *)
Example client_runs : ∃ c, @program free_malloc (blank) (3, 4) 100 (client_ops ++ [ORelease 0]) = Ok ([18], c)
  ∧ c_deleted c = [(2, [Byte.x61], 7)].
Proof. eexists. split; vm_compute; reflexivity. Qed.
