(* ===== verification/TableFormat.v ===== *)
(** * Tables, their format: leveldb table/format.h, table/format.cc, port/port_posix.h

    Handles of blocks, the footer, and blocks in a file: contents, compression type, checksum.
    The compression library is a class, random-access files an interface of the environment. *)
From Stdlib Require Import Strings.String.
From S2P Require Import Prelude Buffers CLib Coding Crc32c Status.

#[local] Open Scope Z_scope.
#[local] Open Scope list_scope.

(** ** Compression *)

(** The snappy library; without it, the functions of port_posix.h answer false. *)
Class Snappy := {
  Snappy_Compress : list byte → option (list byte);
  Snappy_GetUncompressedLength : list byte → option Z;
  Snappy_Uncompress : list byte → option (list byte) }.

(** What is compressed has less than 4GB, and is got back. *)
Class SnappySpec (S : Snappy) : Prop :=
  snappy_roundtrip raw output : Snappy_Compress raw = Some output →
    zlen raw < 2^32 ∧ Snappy_GetUncompressedLength output = Some (zlen raw) ∧ Snappy_Uncompress output = Some raw.

Definition no_snappy : Snappy := {|
  Snappy_Compress := λ _, None; Snappy_GetUncompressedLength := λ _, None; Snappy_Uncompress := λ _, None |}.

#[export] Instance no_snappy_spec : SnappySpec no_snappy.
Proof. by intros raw output. Qed.

Inductive CompressionType := kNoCompression | kSnappyCompression.
Definition type_byte (t : CompressionType) : byte := match t with kNoCompression => zb 0 | kSnappyCompression => zb 1 end.

(** ** Random-access files *)

(** The status, what was read, and whether it was read into the scratch buffer. *)
Class RandomAccessFile (F : Type) := ra_Read : Z → Z → F → Status * list byte * bool.

Class RandomAccessFileSpec (F : Type) `{RandomAccessFile F} := {
  ra_contents : F → list byte;
  ra_Read_spec offset n f : 0 ≤ offset → 0 ≤ n → ∃ scratch,
    ra_Read offset n f = (OK, take (Z.to_nat n) (drop (Z.to_nat offset) (ra_contents f)), scratch) }.

(** In memory; what is read is in the scratch buffer. *)
Record mem_file := MemFile { mem_bytes : list byte }.
#[export] Instance mem_random : RandomAccessFile mem_file :=
  λ offset n f, (OK, take (Z.to_nat n) (drop (Z.to_nat offset) (mem_bytes f)), true).
#[export] Instance mem_random_spec : RandomAccessFileSpec mem_file.
Proof. refine {| ra_contents := mem_bytes |}. intros. by eexists. Defined.

(** ** Handles *)

Definition ones64 : Z := 2^64 - 1.
Definition kMaxEncodedLength : Z := 10 + 10.

Record BlockHandle := MkBlockHandle { h_offset : Z; h_size : Z }.
Definition new_BlockHandle : BlockHandle := MkBlockHandle ones64 ones64.

Definition Handle_EncodeTo (h : BlockHandle) (dst : list byte) : res (list byte) :=
  _ ← c_assert (negb (h_offset h =? ones64)); _ ← c_assert (negb (h_size h =? ones64));
  mret (PutVarint64 (PutVarint64 dst (h_offset h)) (h_size h)).

(** The handle keeps what is not decoded. *)
Definition Handle_DecodeFrom (h : BlockHandle) (input : list byte) : res (Status * BlockHandle * list byte) :=
  let bad h input := s ← Corruption (str "bad block handle") []; mret (s, h, input) in
  match GetVarint64 input with
  | None => bad h input
  | Some (offset, input) =>
      let h := MkBlockHandle offset (h_size h) in
      match GetVarint64 input with
      | None => bad h input
      | Some (size, input) => mret (OK, MkBlockHandle offset size, input)
      end
  end.

(** ** Footer *)

Definition kTableMagicNumber : Z := 0xdb4775248b80fb57.
Definition kEncodedLength : Z := 2 * kMaxEncodedLength + 8.

Record Footer := MkFooter { metaindex_handle_ : BlockHandle; index_handle_ : BlockHandle }.

(** [std::string::resize]. *)
Definition resize (n : Z) (s : list byte) : list byte :=
  take (Z.to_nat n) s ++ replicate (Z.to_nat n - length s) x00.

Definition Footer_EncodeTo (f : Footer) (dst : list byte) : res (list byte) :=
  let original_size := zlen dst in
  dst ← Handle_EncodeTo (metaindex_handle_ f) dst;
  dst ← Handle_EncodeTo (index_handle_ f) dst;
  let dst := resize (2 * kMaxEncodedLength) dst in
  let dst := PutFixed32 dst (Z.land kTableMagicNumber 0xffffffff) in
  let dst := PutFixed32 dst (u32 (Z.shiftr kTableMagicNumber 32)) in
  _ ← c_assert (zlen dst =? original_size + kEncodedLength);
  mret dst.

Definition Footer_DecodeFrom (f : Footer) (input : list byte) : res (Status * Footer * list byte) :=
  let magic_ptr := drop (Z.to_nat (kEncodedLength - 8)) input in
  magic_lo ← DecodeFixed32 magic_ptr;
  magic_hi ← DecodeFixed32 (drop 4 magic_ptr);
  let magic := Z.lor (Z.shiftl magic_hi 32) magic_lo in
  if negb (magic =? kTableMagicNumber) then
    s ← InvalidArgument (str "not an sstable (bad magic number)") []; mret (s, f, input)
  else
    '(result, metaindex, rest) ← Handle_DecodeFrom (metaindex_handle_ f) input;
    '(result, index, rest) ← (if ok result then Handle_DecodeFrom (index_handle_ f) rest else mret (result, index_handle_ f, rest));
    mret (result, MkFooter metaindex index, if ok result then drop (Z.to_nat kEncodedLength) input else rest).

(** ** Blocks in a file *)

Definition kBlockTrailerSize : Z := 5.

Record BlockContents := MkContents { bc_data : list byte; cachable : bool; heap_allocated : bool }.
Definition no_contents : BlockContents := MkContents [] false false.

Section file.
(** The address of a buffer, which [Extend] aligns on. *)
Context {F : Type} `{RandomAccessFile F} `{Snappy} (addr : list byte → Z).

(** The switch on the type of a block; [data] has been read, the contents are its first [n] bytes. *)
Definition read_contents (data : list byte) (n : Z) (scratch : bool) : res (Status * BlockContents) :=
  type ← get8 data n;
  contents ← read_bytes data 0 n;
  if sz type =? 0 then mret (OK, MkContents contents scratch scratch)
  else if sz type =? 1 then
    match Snappy_GetUncompressedLength contents with
    | None => s ← Corruption (str "corrupted compressed block contents") []; mret (s, no_contents)
    | Some ulength =>
        match Snappy_Uncompress contents with
        | None => s ← Corruption (str "corrupted compressed block contents") []; mret (s, no_contents)
        | Some ubuf => _ ← defined (zlen ubuf =? ulength); mret (OK, MkContents ubuf true true)
        end
    end
  else s ← Corruption (str "bad block type") []; mret (s, no_contents).

Definition ReadBlock (file : F) (verify_checksums : bool) (handle : BlockHandle) : res (Status * BlockContents) :=
  let n := h_size handle in
  let '(s, contents, scratch) := ra_Read (h_offset handle) (u64 (n + kBlockTrailerSize)) file in
  if negb (ok s) then mret (s, no_contents)
  else if negb (zlen contents =? u64 (n + kBlockTrailerSize)) then
    s ← Corruption (str "truncated block read") []; mret (s, no_contents)
  else
    let data := contents in
    intact ← (if verify_checksums then
                stored ← DecodeFixed32 (drop (Z.to_nat (n + 1)) data);
                checked ← read_bytes data 0 (n + 1);
                actual ← Value (addr data) checked;
                mret (actual =? Unmask stored)
              else mret true);
    if negb intact then s ← Corruption (str "block checksum mismatch") []; mret (s, no_contents)
    else read_contents data n scratch.
End file.

(** ** Round trips *)

Definition handle_ok (h : BlockHandle) : Prop := 0 ≤ h_offset h < ones64 ∧ 0 ≤ h_size h < ones64.
Definition encode_handle (h : BlockHandle) : list byte := EncodeVarint64 (h_offset h) ++ EncodeVarint64 (h_size h).

Lemma Handle_EncodeTo_Ok h dst : handle_ok h → Handle_EncodeTo h dst = Ok (dst ++ encode_handle h).
Proof.
  intros [Ho Hs]. unfold Handle_EncodeTo, PutVarint64, encode_handle, ones64 in *. rewrite !c_assert_true by lia.
  cbn [mbind res_bind]. by rewrite <-app_assoc.
Qed.

Lemma Handle_DecodeFrom_Ok h h0 rest : handle_ok h → Handle_DecodeFrom h0 (encode_handle h ++ rest) = Ok (OK, h, rest).
Proof.
  intros [Ho Hs]. unfold Handle_DecodeFrom, encode_handle, GetVarint64, ones64 in *. rewrite <-app_assoc.
  rewrite GetVarint64Ptr_Ok by lia. rewrite GetVarint64Ptr_Ok by lia. by destruct h.
Qed.

Lemma encode_handle_length h : 2 ≤ zlen (encode_handle h) ≤ kMaxEncodedLength.
Proof.
  unfold encode_handle, EncodeVarint64, kMaxEncodedLength. rewrite length_app.
  pose proof (varint64_loop_bound 9 (h_offset h)). pose proof (varint64_loop_bound 9 (h_size h)). lia.
Qed.

Lemma encode_handle_inj h h' : handle_ok h → handle_ok h' → encode_handle h = encode_handle h' → h = h'.
Proof.
  intros Hh Hh' E. pose proof (Handle_DecodeFrom_Ok h h [] Hh) as E1. pose proof (Handle_DecodeFrom_Ok h' h [] Hh') as E2.
  rewrite E, E2 in E1. by injection E1.
Qed.

Definition footer_bytes (f : Footer) : list byte :=
  resize (2 * kMaxEncodedLength) (encode_handle (metaindex_handle_ f) ++ encode_handle (index_handle_ f))
  ++ EncodeFixed32 (Z.land kTableMagicNumber 0xffffffff) ++ EncodeFixed32 (u32 (Z.shiftr kTableMagicNumber 32)).

Lemma resize_length n s : 0 ≤ n → zlen (resize n s) = n.
Proof. intros Hn. unfold resize. rewrite length_app, length_take, length_replicate. lia. Qed.

Lemma resize_pad n s : zlen s ≤ n → resize n s = s ++ replicate (Z.to_nat n - length s) x00.
Proof. intros Hs. unfold resize. by rewrite take_ge by lia. Qed.

Lemma Footer_EncodeTo_Ok f : handle_ok (metaindex_handle_ f) → handle_ok (index_handle_ f) → Footer_EncodeTo f [] = Ok (footer_bytes f).
Proof.
  intros Hm Hi. unfold Footer_EncodeTo. rewrite Handle_EncodeTo_Ok by done. cbn [mbind res_bind]. rewrite Handle_EncodeTo_Ok by done.
  cbn [mbind res_bind app]. rewrite c_assert_true; [|apply Z.eqb_eq]; cbn [mbind res_bind]; unfold PutFixed32, footer_bytes.
  - by rewrite <-!app_assoc.
  - rewrite !length_app, !length_EncodeFixed32. cbn [length]. pose proof (resize_length (2 * kMaxEncodedLength)
      (encode_handle (metaindex_handle_ f) ++ encode_handle (index_handle_ f)) ltac:(done)). unfold kEncodedLength, kMaxEncodedLength in *. lia.
Qed.

Lemma footer_length f : zlen (footer_bytes f) = kEncodedLength.
Proof.
  unfold footer_bytes. rewrite !length_app, !length_EncodeFixed32. pose proof (resize_length (2 * kMaxEncodedLength)
      (encode_handle (metaindex_handle_ f) ++ encode_handle (index_handle_ f)) ltac:(done)). unfold kEncodedLength, kMaxEncodedLength in *. lia.
Qed.

Lemma Footer_DecodeFrom_Ok f f0 : handle_ok (metaindex_handle_ f) → handle_ok (index_handle_ f) →
  Footer_DecodeFrom f0 (footer_bytes f) = Ok (OK, f, []).
Proof.
  intros Hm Hi. unfold Footer_DecodeFrom. set (hs := encode_handle (metaindex_handle_ f) ++ encode_handle (index_handle_ f)).
  assert (length (resize (2 * kMaxEncodedLength) hs) = Z.to_nat (kEncodedLength - 8)) as Hl.
  { pose proof (resize_length (2 * kMaxEncodedLength) hs ltac:(done)). unfold kEncodedLength, kMaxEncodedLength in *. lia. }
  assert (drop (Z.to_nat (kEncodedLength - 8)) (footer_bytes f) = EncodeFixed32 (Z.land kTableMagicNumber 0xffffffff)
    ++ EncodeFixed32 (u32 (Z.shiftr kTableMagicNumber 32))) as ->.
  { unfold footer_bytes. fold hs. rewrite <-Hl. by rewrite drop_app_length. }
  rewrite DecodeFixed32_Ok. cbn [mbind res_bind]. rewrite <-(length_EncodeFixed32 (Z.land kTableMagicNumber 0xffffffff)), drop_app_length.
  rewrite <-(app_nil_r (EncodeFixed32 (u32 (Z.shiftr kTableMagicNumber 32)))), DecodeFixed32_Ok. cbn [mbind res_bind].
  replace (_ =? kTableMagicNumber) with true by by vm_compute. cbn [negb].
  assert (footer_bytes f = encode_handle (metaindex_handle_ f) ++ encode_handle (index_handle_ f)
     ++ drop (length hs) (footer_bytes f)) as E.
  { rewrite app_assoc. fold hs. rewrite <-(take_drop (length hs) (footer_bytes f)) at 1. f_equal. unfold footer_bytes. fold hs.
    rewrite resize_pad; [by rewrite <-app_assoc, take_app_length|]. unfold hs. rewrite length_app.
    pose proof (encode_handle_length (metaindex_handle_ f)). pose proof (encode_handle_length (index_handle_ f)). lia. }
  rewrite E at 1. rewrite Handle_DecodeFrom_Ok by done. cbn [mbind res_bind]. change (ok OK) with true. cbv iota.
  rewrite Handle_DecodeFrom_Ok by done. cbn [mbind res_bind]. change (ok OK) with true. cbv iota.
  rewrite drop_ge; [by destruct f|]. pose proof (footer_length f). lia.
Qed.

(** ** Stored blocks *)

(** The bytes of a block in a file. *)
Definition raw_block (payload : list byte) (t : CompressionType) : list byte :=
  payload ++ [type_byte t] ++ EncodeFixed32 (Mask (crc32c 0 (payload ++ [type_byte t]))).

Lemma raw_block_length payload t : zlen (raw_block payload t) = zlen payload + kBlockTrailerSize.
Proof. unfold raw_block. rewrite !length_app, length_EncodeFixed32. simpl. unfold kBlockTrailerSize. lia. Qed.

Section stored.
Context {F : Type} `{RandomAccessFileSpec F} `{Snappy} (addr : list byte → Z).

Definition payload_of (contents payload : list byte) (t : CompressionType) : Prop :=
  match t with
  | kNoCompression => payload = contents
  | kSnappyCompression => Snappy_GetUncompressedLength payload = Some (zlen contents) ∧ Snappy_Uncompress payload = Some contents
  end.

(** The file holds a block at a handle. *)
Definition stored (file : list byte) (h : BlockHandle) (contents : list byte) : Prop :=
  ∃ pre payload t post, file = pre ++ raw_block payload t ++ post ∧ h = MkBlockHandle (zlen pre) (zlen payload) ∧ payload_of contents payload t.

Lemma stored_app file h contents more : stored file h contents → stored (file ++ more) h contents.
Proof using. clear. intros (pre & payload & t & post & -> & Hh & Hp). exists pre, payload, t, (post ++ more). by rewrite <-!app_assoc. Qed.

Lemma stored_handle file h contents : stored file h contents → zlen file < ones64 →
  handle_ok h ∧ h_offset h + h_size h + kBlockTrailerSize ≤ zlen file.
Proof using.
  clear. intros (pre & payload & t & post & -> & -> & _) Hl. rewrite !length_app in *. pose proof (raw_block_length payload t) as Hr.
  unfold handle_ok, kBlockTrailerSize in *. cbn. lia.
Qed.

Lemma ReadBlock_Ok file h contents verify : stored (ra_contents file) h contents → zlen (ra_contents file) < ones64 →
  ∃ b, ReadBlock addr file verify h = Ok (OK, b) ∧ bc_data b = contents.
Proof using.
  intros Hst Hl. destruct (stored_handle _ _ _ Hst Hl) as [[Ho Hs] Hfit]. destruct Hst as (pre & payload & t & post & Ef & -> & Hp).
  unfold ReadBlock. cbn [h_size h_offset] in *. unfold kBlockTrailerSize, ones64 in *. rewrite u64_small by lia.
  destruct (ra_Read_spec (zlen pre) (zlen payload + 5) file) as [scratch ->]; [lia|lia|]. rewrite Ef, Nat2Z.id, drop_app_length.
  pose proof (raw_block_length payload t) as Hr. unfold kBlockTrailerSize in Hr. rewrite take_app_le, take_ge by lia.
  change (ok OK) with true. cbn [negb]. rewrite Hr, Z.eqb_refl. cbn [negb].
  assert (∃ tail, raw_block payload t = payload ++ [type_byte t] ++ tail) as [tail Et] by by eexists.
  assert ((if verify then stored ← DecodeFixed32 (drop (Z.to_nat (zlen payload + 1)) (raw_block payload t));
      checked ← read_bytes (raw_block payload t) 0 (zlen payload + 1); actual ← Value (addr (raw_block payload t)) checked;
      mret (actual =? Unmask stored) else mret true) = Ok true) as ->.
  { destruct verify; [|done]. set (body := payload ++ [type_byte t]). assert (length body = Z.to_nat (zlen payload + 1)) as Hb.
    { unfold body. rewrite length_app. simpl. lia. }
    assert (raw_block payload t = body ++ EncodeFixed32 (Mask (crc32c 0 body))) as -> by (unfold raw_block, body; by rewrite app_assoc).
    rewrite <-Hb, drop_app_length, <-(app_nil_r (EncodeFixed32 _)), DecodeFixed32_Ok. cbn [mbind res_bind]. rewrite app_nil_r.
    rewrite read_bytes_Ok by (rewrite ?length_app, ?length_EncodeFixed32; lia). cbn [mbind res_bind].
    rewrite slice_prefix by lia. unfold Value.
    assert (word (crc32c 0 body)) as Hw by (apply crc32c_word; by unfold word). destruct (Unmask_Mask _ Hw) as [Hu Hm].
    rewrite Extend_any by by unfold word. cbn [mbind res_bind]. unfold word in Hm. by rewrite (u32_small (Mask _)), Hu, Z.eqb_refl by done. }
  cbn [mbind res_bind negb]. unfold read_contents.
  rewrite (get8_Ok (raw_block payload t) (zlen payload) (type_byte t)) by (lia || (rewrite Nat2Z.id, Et; by apply list_lookup_middle)).
  cbn [mbind res_bind]. rewrite read_bytes_Ok by lia. rewrite Et, slice_prefix by done. cbn [mbind res_bind].
  destruct t; cbn [payload_of type_byte] in *.
  - change (sz (zb 0) =? 0) with true. cbv iota. eexists. by split.
  - change (sz (zb 1) =? 0) with false. change (sz (zb 1) =? 1) with true. cbv iota. destruct Hp as [-> ->].
    rewrite defined_true by apply Z.eqb_refl. cbn [mbind res_bind]. eexists. by split.
Qed.
End stored.
