(* ===== verification/TableBuilder.v ===== *)
(** * Building tables: leveldb table/table_builder.cc

    Data blocks are written as they fill; the index entry of a block is emitted when the first
    key of the next one is known. The file, its offset and the status are the sink. The buffer for
    compressed output is empty between calls and not part of the state. *)
From Stdlib Require Import Strings.String.
From S2P Require Import Prelude Buffers CLib Coding Crc32c Status Comparator Bloom FilterBlock Env Block TableFormat.

#[local] Open Scope Z_scope.
#[local] Open Scope list_scope.

(** A filter policy and its name. *)
Record NamedPolicy := MkPolicy { policy_Name : list byte; policy : FilterPolicy }.

(** The options a table uses; the comparator is a class. *)
Record Options := MkOptions {
  block_size : Z; block_restart_interval : Z; compression : CompressionType; filter_policy : option NamedPolicy }.

Section builder.
Context {comparator : Comparator} {W : Type} `{WritableFile W} `{Snappy} (addr : list byte → Z).

Record Sink := MkSink { file : W; offset : Z; sink_status : Status }.

(** [index_interval] is the restart interval of [index_block_options]; the filter builder keeps
    its policy. *)
Record Rep := MkRep {
  options : Options; index_interval : Z; sink : Sink; data_block : BlockBuilder; index_block : BlockBuilder;
  last_key : list byte; num_entries : Z; closed : bool; filter_block : option (FilterPolicy * FilterBlockBuilder);
  pending_index_entry : bool; pending_handle : BlockHandle }.

Definition with_sink (s : Sink) (r : Rep) : Rep :=
  MkRep (options r) (index_interval r) s (data_block r) (index_block r) (last_key r) (num_entries r) (closed r)
    (filter_block r) (pending_index_entry r) (pending_handle r).
Definition with_filter (f : option (FilterPolicy * FilterBlockBuilder)) (r : Rep) : Rep :=
  MkRep (options r) (index_interval r) (sink r) (data_block r) (index_block r) (last_key r) (num_entries r) (closed r)
    f (pending_index_entry r) (pending_handle r).

Definition builder_status (r : Rep) : Status := sink_status (sink r).
Definition builder_ok (r : Rep) : bool := ok (builder_status r).

Definition start_filter (block_offset : Z) (f : option (FilterPolicy * FilterBlockBuilder)) : res (option (FilterPolicy * FilterBlockBuilder)) :=
  match f with None => mret None | Some (p, b) => b ← StartBlock block_offset b; mret (Some (p, b)) end.

Definition new_TableBuilder (opt : Options) (f : W) : res Rep :=
  data ← new_BlockBuilder (block_restart_interval opt);
  index ← new_BlockBuilder (block_restart_interval opt);
  let filter := match filter_policy opt with None => None | Some p => Some (policy p, new_FilterBlockBuilder) end in
  filter ← start_filter 0 filter;
  mret (MkRep opt 1 (MkSink f 0 OK) data index [] 0 false filter false new_BlockHandle).

Definition delete_TableBuilder (r : Rep) : res unit := c_assert (closed r).

(** [same] is the comparison of the pointers to the comparators. *)
Definition ChangeOptions (opt : Options) (same : bool) (r : Rep) : res (Status * Rep) :=
  if negb same then s ← InvalidArgument (str "changing comparator while building table") []; mret (s, r)
  else mret (OK, MkRep opt 1 (sink r) (data_block r) (index_block r) (last_key r) (num_entries r) (closed r)
               (filter_block r) (pending_index_entry r) (pending_handle r)).

Definition WriteRawBlock (block_contents : list byte) (type : CompressionType) (s : Sink) : res (BlockHandle * Sink) :=
  let handle := MkBlockHandle (offset s) (zlen block_contents) in
  let '(status, f) := wf_Append block_contents (file s) in
  if ok status then
    crc ← Value (addr block_contents) block_contents;
    crc ← Extend crc (addr [type_byte type]) [type_byte type];
    let '(status, f) := wf_Append ([type_byte type] ++ EncodeFixed32 (Mask crc)) f in
    mret (handle, MkSink f (if ok status then u64 (offset s + (zlen block_contents + kBlockTrailerSize)) else offset s) status)
  else mret (handle, MkSink f (offset s) status).

(** The contents that are written, and their type. *)
Definition compress (type : CompressionType) (raw : list byte) : list byte * CompressionType :=
  match type with
  | kNoCompression => (raw, kNoCompression)
  | kSnappyCompression =>
      match Snappy_Compress raw with
      | Some compressed =>
          if zlen compressed <? zlen raw - zlen raw / 8 then (compressed, kSnappyCompression) else (raw, kNoCompression)
      | None => (raw, kNoCompression)
      end
  end.

Definition WriteBlock (type : CompressionType) (block : BlockBuilder) (s : Sink) : res (BlockHandle * BlockBuilder * Sink) :=
  _ ← c_assert (ok (sink_status s));
  let '(raw, block) := Finish block in
  let '(block_contents, type) := compress type raw in
  '(handle, s) ← WriteRawBlock block_contents type s;
  mret (handle, Reset block, s).

Definition Flush (r : Rep) : res Rep :=
  _ ← c_assert (negb (closed r));
  if negb (builder_ok r) then mret r
  else if builder_empty (data_block r) then mret r
  else
    _ ← c_assert (negb (pending_index_entry r));
    '(handle, data, s) ← WriteBlock (compression (options r)) (data_block r) (sink r);
    let '(pending, s) :=
      if ok (sink_status s) then let '(status, f) := wf_Flush (file s) in (true, MkSink f (offset s) status)
      else (pending_index_entry r, s) in
    filter ← start_filter (offset s) (filter_block r);
    mret (MkRep (options r) (index_interval r) s data (index_block r) (last_key r) (num_entries r) (closed r) filter pending handle).

(** The index entry of the last block, under the separator [key]. *)
Definition add_index_entry (key : list byte) (r : Rep) : res Rep :=
  handle_encoding ← Handle_EncodeTo (pending_handle r) [];
  index ← Block.Add (index_interval r) key handle_encoding (index_block r);
  mret (MkRep (options r) (index_interval r) (sink r) (data_block r) index key (num_entries r) (closed r) (filter_block r)
    false (pending_handle r)).

(** The entry in the filter and in the data block. *)
Definition add_entry (key value : list byte) (r : Rep) : res Rep :=
  let filter := match filter_block r with None => None | Some (p, b) => Some (p, AddKey key b) end in
  n ← clong (num_entries r + 1);
  data ← Block.Add (block_restart_interval (options r)) key value (data_block r);
  mret (MkRep (options r) (index_interval r) (sink r) data (index_block r) key n (closed r) filter
          (pending_index_entry r) (pending_handle r)).

Definition Add (key value : list byte) (r : Rep) : res Rep :=
  _ ← c_assert (negb (closed r));
  if negb (builder_ok r) then mret r
  else
    larger ← (if 0 <? num_entries r then c ← Compare key (last_key r); mret (0 <? c) else mret true);
    _ ← c_assert larger;
    r ← (if pending_index_entry r then
           _ ← c_assert (builder_empty (data_block r));
           separator ← FindShortestSeparator (last_key r) key; add_index_entry separator r
         else mret r);
    r ← add_entry key value r;
    if block_size (options r) <=? CurrentSizeEstimate (data_block r) then Flush r else mret r.

Definition Finish_filter (r : Rep) : res (BlockHandle * Rep) :=
  match filter_block r with
  | Some (p, b) =>
      if builder_ok r then
        contents ← FilterBlock.Finish b;
        '(handle, s) ← WriteRawBlock contents kNoCompression (sink r);
        mret (handle, with_sink s r)
      else mret (new_BlockHandle, r)
  | None => mret (new_BlockHandle, r)
  end.

Definition Finish_metaindex (filter_block_handle : BlockHandle) (r : Rep) : res (BlockHandle * Rep) :=
  if builder_ok r then
    meta ← new_BlockBuilder (block_restart_interval (options r));
    meta ← match filter_block r with
      | None => mret meta
      | Some _ =>
          p ← of_option (filter_policy (options r));
          handle_encoding ← Handle_EncodeTo filter_block_handle [];
          Block.Add (block_restart_interval (options r)) (str "filter." ++ policy_Name p) handle_encoding meta
      end;
    '(handle, _, s) ← WriteBlock (compression (options r)) meta (sink r);
    mret (handle, with_sink s r)
  else mret (new_BlockHandle, r).

Definition Finish_index (r : Rep) : res (BlockHandle * Rep) :=
  if builder_ok r then
    r ← (if pending_index_entry r then successor ← FindShortSuccessor (last_key r); add_index_entry successor r else mret r);
    '(handle, index, s) ← WriteBlock (compression (options r)) (index_block r) (sink r);
    mret (handle, MkRep (options r) (index_interval r) s (data_block r) index (last_key r) (num_entries r) (closed r) (filter_block r)
      (pending_index_entry r) (pending_handle r))
  else mret (new_BlockHandle, r).

Definition Finish_footer (metaindex index : BlockHandle) (r : Rep) : res Rep :=
  if builder_ok r then
    footer_encoding ← Footer_EncodeTo (MkFooter metaindex index) [];
    let '(status, f) := wf_Append footer_encoding (file (sink r)) in
    mret (with_sink (MkSink f (if ok status then u64 (offset (sink r) + zlen footer_encoding) else offset (sink r)) status) r)
  else mret r.

Definition Finish (r : Rep) : res (Status * Rep) :=
  r ← Flush r;
  _ ← c_assert (negb (closed r));
  let r := MkRep (options r) (index_interval r) (sink r) (data_block r) (index_block r) (last_key r) (num_entries r) true (filter_block r)
             (pending_index_entry r) (pending_handle r) in
  '(filter_block_handle, r) ← Finish_filter r;
  '(metaindex_block_handle, r) ← Finish_metaindex filter_block_handle r;
  '(index_block_handle, r) ← Finish_index r;
  r ← Finish_footer metaindex_block_handle index_block_handle r;
  mret (builder_status r, r).

Definition Abandon (r : Rep) : res Rep :=
  _ ← c_assert (negb (closed r));
  mret (MkRep (options r) (index_interval r) (sink r) (data_block r) (index_block r) (last_key r) (num_entries r) true (filter_block r)
    (pending_index_entry r) (pending_handle r)).

Definition NumEntries (r : Rep) : Z := u64 (num_entries r).
Definition FileSize (r : Rep) : Z := offset (sink r).

(** How the database builds a table. *)
Fixpoint add_entries (es : list (list byte * list byte)) (r : Rep) : res Rep :=
  match es with [] => mret r | (k, v) :: es => r ← Add k v r; add_entries es r end.

Definition build_table (opt : Options) (es : list (list byte * list byte)) (f : W) : res (Status * Rep) :=
  r ← new_TableBuilder opt f; r ← add_entries es r; Finish r.
End builder.
