(* ===== verification/TableFinish.v ===== *)
(** * The builder of tables, and what a finished table holds

    The size of blocks and filter blocks, the bytes a sink gets, and the invariant of the builder:
    the blocks that are written, the entries of the index, and the block that is being filled.

    The data blocks that are written, the entries of the index, the entries of the block that is
    being filled, and the keys the filters know; adding an entry and flushing keep it.

    All of [Add] and [Finish]: a table is its data blocks, a filter block and a metaindex block that
    names it, an index block, and a footer. *)
From Stdlib Require Import Strings.String.
From stdpp Require Import sorting.
From S2P Require Import Prelude Buffers CLib Coding Crc32c Status Comparator Bloom FilterBlock Env Block BlockProps TableFormat TableBuilder Order.

#[local] Open Scope Z_scope.
#[local] Open Scope list_scope.

(** ** Sizes *)

(** The room an entry takes in a block at most, with its share of the restart points and the trailer. *)
Definition weight (e : entry) : Z := zlen e.1 + zlen e.2 + 32.
Definition weights (es : list entry) : Z := fold_right (λ e n, weight e + n) 0 es.

Lemma weights_app es es' : weights (es ++ es') = weights es + weights es'.
Proof. induction es as [|e es IH]; [done|]. cbn [app weights fold_right] in *. unfold weights in *. cbn [fold_right]. lia. Qed.

Lemma weights_nonneg es : 32 * zlen es ≤ weights es.
Proof. induction es as [|e es IH]; [done|]. unfold weights, weight in *. cbn [fold_right length]. lia. Qed.

Lemma EncodeVarint32_short v : zlen (EncodeVarint32 (u32 v)) ≤ 5.
Proof.
  rewrite EncodeVarint32_loop by apply u32_range. unfold EncodeVarint64. pose proof (u32_range v).
  rewrite (varint64_loop_more 4) by (lia || (simpl; lia)). pose proof (varint64_loop_bound 4 (u32 v)). lia.
Qed.

Lemma enc_short sh e : zlen (enc sh e) ≤ weight e - 17.
Proof.
  unfold enc, weight. rewrite !length_app, length_drop. pose proof (EncodeVarint32_short sh). pose proof (EncodeVarint32_short (zlen e.1 - sh)).
  pose proof (EncodeVarint32_short (zlen e.2)). lia.
Qed.

Lemma encs_short shs : ∀ es, zlen (concat (zip_with enc shs es)) ≤ weights es - 17 * zlen es.
Proof.
  induction shs as [|sh shs IH]; intros es; [pose proof (weights_nonneg es); simpl; lia|]. destruct es as [|e es]; [done|].
  cbn [zip_with concat]. rewrite length_app. specialize (IH es). pose proof (enc_short sh e). unfold weights in *. cbn [fold_right length]. lia.
Qed.

Lemma restarts_few es shs rs : layout es shs rs → zlen rs ≤ zlen es + 1.
Proof.
  intros Hlay. assert (NoDup rs) as Hnd.
  { pose proof (lay_sorted _ _ _ Hlay) as Hs. clear - Hs. induction Hs as [|r rs _ IH Hr]; constructor; [|done].
    intros Hin. rewrite Forall_forall in Hr. specialize (Hr r Hin). lia. }
  assert (rs ⊆ seq 0 (S (length es))) as Hsub.
  { intros r Hr. apply elem_of_seq. destruct (lay_restarts _ _ _ Hlay r Hr) as [->|[? _]]; lia. }
  pose proof (NoDup_submseteq _ _ Hnd Hsub) as Hl%submseteq_length. rewrite length_seq in Hl. lia.
Qed.

Lemma block_short es shs rs : layout es shs rs → zlen (block_of es shs rs) ≤ weights es - 13 * zlen es + 8.
Proof.
  intros Hlay. pose proof (restarts_few _ _ _ Hlay). rewrite (bytes_length es shs rs Hlay). unfold off.
  rewrite take_ge by (rewrite length_zip_with; lia). pose proof (encs_short shs es). lia.
Qed.

Section slim.
Context (K : Z) (p : FilterPolicy) (Hslim : slim K p).

Definition load (b : FilterBlockBuilder) : Z := zlen (result_ b) + 2 * K * zlen (start_ b).

Lemma tmp_keys_few starts : ∀ keys l, tmp_keys starts keys = Ok l → zlen l ≤ zlen starts - 1 ∨ l = [].
Proof using.
  clear. induction starts as [|s starts IH]; intros keys l; [intros [= <-]; by right|]. cbn [tmp_keys]. destruct starts as [|s' starts]; [intros [= <-]; by right|].
  intros H. inv_ok. left. destruct (IH keys _ ltac:(eassumption)) as [Hl| ->]; cbn [length] in *; lia.
Qed.

Lemma GenerateFilter_load b b' : GenerateFilter b = Ok b' → load b' ≤ load b ∧ length (filter_offsets_ b') = S (length (filter_offsets_ b)).
Proof using Hslim.
  unfold GenerateFilter. destruct Hslim as [HK Hs]. destruct (Z.eqb_spec (zlen (start_ b)) 0) as [E|E]; intros H; inv_ok; unfold load; cbn.
  - rewrite length_app. split; [lia|simpl; lia].
  - match goal with Ht : tmp_keys _ _ = Ok _ |- _ => apply tmp_keys_few in Ht end.
    match goal with Hc : CreateFilter _ _ = Ok _ |- _ => apply Hs in Hc end. rewrite length_app in *. cbn [length] in *. split; [|lia].
    match goal with Ht : _ ∨ _ |- _ => destruct Ht as [Ht| ->] end; cbn [length] in *; nia.
Qed.

Lemma start_loop_load idx fuel : ∀ b b', start_loop fuel idx b = Ok b' → load b' ≤ load b ∧ zlen (filter_offsets_ b') ≤ Z.max (zlen (filter_offsets_ b)) idx.
Proof using Hslim.
  induction fuel as [|fuel IH]; intros b b'; [done|]. cbn [start_loop]. destruct (Z.ltb_spec (zlen (filter_offsets_ b)) idx) as [Hl|Hl].
  - intros H. apply bind_Ok in H as (b1 & Hg & H). destruct (GenerateFilter_load b b1 Hg). destruct (IH b1 b' H). lia.
  - intros [= <-]. lia.
Qed.

Lemma StartBlock_load off b b' : StartBlock off b = Ok b' → load b' ≤ load b ∧ zlen (filter_offsets_ b') ≤ Z.max (zlen (filter_offsets_ b)) (off / kFilterBase).
Proof using Hslim. unfold StartBlock. intros H. apply bind_Ok in H as (_ & _ & H). by apply start_loop_load in H. Qed.

Lemma filter_Finish_load b contents : FilterBlock.Finish b = Ok contents → zlen contents ≤ load b + 4 * zlen (filter_offsets_ b) + 9.
Proof using Hslim.
  unfold FilterBlock.Finish. intros H. apply bind_Ok in H as (b1 & Hg & H). injection H as <-. destruct Hslim as [HK _].
  assert (load b1 ≤ load b ∧ zlen (filter_offsets_ b1) ≤ zlen (filter_offsets_ b) + 1) as [H1 H2].
  { destruct (0 <? zlen (start_ b)); [|injection Hg as <-; lia]. destruct (GenerateFilter_load b b1 Hg). lia. }
  rewrite fold_PutFixed32. unfold PutFixed32. rewrite !length_app, length_EncodeFixed32, words_length. unfold load in *. cbn [length]. nia.
Qed.
End slim.

(** ** The sink *)

(** The contents of a stored block are shorter than 4GB if the file is. *)
Definition compact (file : list byte) (contents : list byte) : Prop := zlen contents < 2^32 ∨ zlen contents ≤ zlen file.

Section sink.
Context {W : Type} `{WritableFileSpec W} {S : Snappy} {HS : SnappySpec S} (addr : list byte → Z).

(** Nothing failed, and the offset is the length of the file. *)
Definition sink_ok (s : Sink) (X : list byte) : Prop :=
  wf_contents (file s) = X ∧ offset s = zlen X ∧ sink_status s = OK.

Lemma WriteRawBlock_Ok s X contents t : sink_ok s X → zlen X + zlen contents + kBlockTrailerSize < 2^64 →
  ∃ s', WriteRawBlock addr contents t s = Ok (MkBlockHandle (zlen X) (zlen contents), s') ∧ sink_ok s' (X ++ raw_block contents t).
Proof using.
  clear HS. intros (Hc & Ho & _) Hl. unfold WriteRawBlock. destruct (Append_spec contents (file s)) as (w1 & -> & Hw1). change (ok OK) with true. cbv iota.
  unfold Value. rewrite Extend_any by by unfold word. cbn [mbind res_bind].
  rewrite Extend_any by (apply crc32c_word; by unfold word). cbn [mbind res_bind]. rewrite crc32c_app.
  destruct (Append_spec ([type_byte t] ++ EncodeFixed32 (Mask (crc32c 0 (contents ++ [type_byte t])))) w1) as (w2 & -> & Hw2).
  change (ok OK) with true. cbv iota. rewrite Ho. eexists. split; [done|]. split; [|split; [|done]]; cbn.
  - rewrite Hw2, Hw1, Hc. unfold raw_block. by rewrite <-app_assoc.
  - rewrite length_app, Nat2Z.inj_add, raw_block_length. apply u64_small. unfold kBlockTrailerSize in *. lia.
Qed.

Lemma compress_Ok type raw : let '(payload, t) := compress type raw in
  payload_of raw payload t ∧ zlen payload ≤ zlen raw ∧ (zlen raw < 2^32 ∨ zlen raw ≤ zlen payload).
Proof using HS.
  unfold compress. destruct type; [by repeat split; [|right]|].
  destruct (Snappy_Compress raw) as [out|] eqn:E; [|by repeat split; [|right]].
  destruct (Z.ltb_spec (zlen out) (zlen raw - zlen raw / 8)); [|by repeat split; [|right]].
  destruct (HS raw out E) as (? & ? & ?). split; [by split|]. split; [|by left]. pose proof (Z.div_pos (zlen raw) 8). lia.
Qed.

Section block.
Context (interval : Z) (Hint : 1 ≤ interval ≤ int_max).

Lemma Finish_block b es shs rs : BlockProps.builder_inv interval b es shs rs → (Block.Finish b).1 = block_of es shs rs.
Proof using.
  intros [Hlay Hbuf Hres _ _ _ _]. unfold Block.Finish. cbn [fst]. rewrite fold_PutFixed32, Hbuf, Hres, length_map.
  unfold PutFixed32, block_of. by rewrite <-app_assoc.
Qed.

Lemma Reset_inv b : BlockProps.builder_inv interval (Reset b) [] [] [0%nat].
Proof using Hint. destruct (new_BlockBuilder_Ok interval Hint) as (b0 & E & Hinv). unfold new_BlockBuilder in E. inv_ok. exact Hinv. Qed.

Lemma WriteBlock_Ok type b es shs rs s X : BlockProps.builder_inv interval b es shs rs → sink_ok s X →
  zlen X + zlen (block_of es shs rs) + kBlockTrailerSize < 2^64 →
  ∃ h b' s' more, WriteBlock addr type b s = Ok (h, b', s') ∧ BlockProps.builder_inv interval b' [] [] [0%nat] ∧ sink_ok s' (X ++ more)
    ∧ stored (X ++ more) h (block_of es shs rs) ∧ compact (X ++ more) (block_of es shs rs) ∧ h_offset h = zlen X
    ∧ 0 < zlen more ≤ zlen (block_of es shs rs) + kBlockTrailerSize.
Proof using HS Hint.
  intros Hb Hs Hl. unfold WriteBlock. rewrite (proj2 (proj2 Hs)). change (ok OK) with true. cbn [c_assert mbind res_bind].
  pose proof (Finish_block b es shs rs Hb) as Ef. destruct (Block.Finish b) as [raw b'] eqn:Eb. cbn [fst] in Ef. subst raw.
  pose proof (compress_Ok type (block_of es shs rs)) as Hcomp. destruct (compress type (block_of es shs rs)) as [payload t].
  destruct Hcomp as (Hp & Hle & Hcp). destruct (WriteRawBlock_Ok s X payload t Hs ltac:(lia)) as (s' & -> & Hs'). cbn [mbind res_bind].
  eexists _, _, s', (raw_block payload t). split; [done|]. split; [apply Reset_inv|]. split; [done|].
  pose proof (raw_block_length payload t) as Hr. unfold kBlockTrailerSize in *.
  split; [exists X, payload, t, []; by rewrite app_nil_r|]. split; [|split; [done|lia]]. unfold compact. rewrite length_app. lia.
Qed.
End block.
End sink.

(** * The invariant of the table builder *)

(** ** Data blocks *)

Record dblock := DBlock { d_entries : list entry; d_shs : list Z; d_rs : list nat; d_handle : BlockHandle }.

Definition d_contents (d : dblock) : list byte := block_of (d_entries d) (d_shs d) (d_rs d).
Definition all_entries (ds : list dblock) : list entry := concat (d_entries <$> ds).

Lemma all_entries_app ds ds' : all_entries (ds ++ ds') = all_entries ds ++ all_entries ds'.
Proof. unfold all_entries. by rewrite fmap_app, concat_app. Qed.

Lemma all_entries_elem ds d e : d ∈ ds → e ∈ d_entries d → e ∈ all_entries ds.
Proof.
  intros Hd He. apply list_elem_of_In, in_concat. exists (d_entries d). split; apply list_elem_of_In; [|done].
  apply list_elem_of_fmap. by exists d.
Qed.

(** Blocks in a file, in the order of their offsets. *)
Section blocks.
Context `{Snappy}.

Definition data_ok (X : list byte) (d : dblock) : Prop :=
  layout (d_entries d) (d_shs d) (d_rs d) ∧ d_entries d ≠ [] ∧ stored X (d_handle d) (d_contents d) ∧ compact X (d_contents d).

Lemma data_ok_app X more d : data_ok X d → data_ok (X ++ more) d.
Proof using.
  intros (H1 & H2 & H3 & H4). split; [done|]. split; [done|]. split; [by apply stored_app|].
  unfold compact in *. rewrite length_app. lia.
Qed.

Definition ascending (ds : list dblock) : Prop := StronglySorted (λ d d', h_offset (d_handle d) < h_offset (d_handle d')) ds.
End blocks.

Section inv.
Context {C : Comparator} {okk : list byte → Prop} {c : list byte → list byte → Z} {Hspec : ComparatorSpec C okk c}.
Context {W : Type} `{WritableFileSpec W} {S : Snappy} {HS : SnappySpec S} (addr : list byte → Z).
(** Keys that the comparator accepts have at most [B] bytes; [max_keys], [okf] and [K] are the
    limits of the filter policy. *)
Context (B : Z) (HB : 0 ≤ B) (Hkeys : ∀ k, okk k → zlen k ≤ B).
Context (max_keys : Z) (okf : list byte → Prop) (K : Z).
Context (opt : Options) (Hint : 1 ≤ block_restart_interval opt ≤ int_max).

Definition filter_key (p : NamedPolicy) : list byte := str "filter." ++ policy_Name p.
Definition policy_ok : Prop :=
  match filter_policy opt with
  | None => True
  | Some p => @FilterPolicySpec (policy p) max_keys okf ∧ slim K (policy p) ∧ 0 ≤ max_keys ∧ short (filter_key p)
  end.
Context (Hpolicy : policy_ok).

(** The index: the entry of a block separates it from the ones after it. *)
Definition separated (idx : list entry) (ds : list dblock) : Prop :=
  ∀ i e d, idx !! i = Some e → ds !! i = Some d → okk e.1 ∧ e.2 = encode_handle (d_handle d)
    ∧ (∀ x, x ∈ d_entries d → c x.1 e.1 ≤ 0)
    ∧ ∀ j d' x, (i < j)%nat → ds !! j = Some d' → x ∈ d_entries d' → c e.1 x.1 < 0.

(** The filters know the keys of the blocks, and will know those of the current one. *)
Definition filters (r : Rep (W := W)) (ds : list dblock) (cur : list entry) (X : list byte) : Prop :=
  match filter_policy opt, filter_block r with
  | None, None => True
  | Some p, Some (p', b) => p' = policy p ∧ ∃ fs kss pend,
      @FilterBlock.builder_inv (policy p) okf b fs kss pend ∧ zlen fs = zlen X / kFilterBase
      ∧ (∀ d e, d ∈ ds → e ∈ d_entries d → kept fs kss pend (h_offset (d_handle d)) e.1)
      ∧ (∀ e, e ∈ cur → e.1 ∈ pend)
      ∧ zlen pend ≤ zlen (all_entries ds ++ cur) ∧ zlen (concat pend) ≤ weights (all_entries ds ++ cur)
      ∧ load K b ≤ 2 * K * zlen (all_entries ds ++ cur) ∧ zlen (filter_offsets_ b) ≤ zlen X / kFilterBase
  | _, _ => False
  end.

Record built (r : Rep (W := W)) (ds : list dblock) (cur idx : list entry) (X : list byte) : Prop := {
  bt_options : options r = opt ∧ index_interval r = 1;
  bt_open : closed r = false;
  bt_sink : sink_ok (sink r) X;
  bt_blocks : Forall (data_ok X) ds ∧ ascending ds ∧ Forall (λ d, h_offset (d_handle d) < zlen X) ds;
  bt_data : ∃ shs rs, BlockProps.builder_inv (block_restart_interval opt) (data_block r) cur shs rs;
  bt_index : ∃ shs rs, BlockProps.builder_inv 1 (index_block r) idx shs rs;
  bt_separated : separated idx ds;
  bt_current : ∀ e x, e ∈ idx → x ∈ cur → c e.1 x.1 < 0;
  bt_sorted_idx : StronglySorted (λ a b : entry, c a.1 b.1 < 0) idx;
  bt_pending : if pending_index_entry r
    then cur = [] ∧ ∃ ds' d, ds = ds' ++ [d] ∧ length idx = length ds' ∧ pending_handle r = d_handle d
    else length idx = length ds;
  bt_size : zlen X ≤ weights (all_entries ds);
  bt_number : num_entries r = zlen (all_entries ds ++ cur);
  bt_filters : filters r ds cur X }.

(** What fits in the address space. *)
Definition fits (es : list entry) : Prop :=
  weights es + (B + 2 * K + 60) * zlen es < 2^62 ∧ 0 ≤ K ∧ zlen es ≤ max_keys.

Definition sorted (es : list entry) : Prop := StronglySorted (λ a b : entry, c a.1 b.1 < 0) es ∧ Forall (λ e : entry, okk e.1 ∧ okf e.1) es.

Lemma fits_bounds es : fits es → weights es < 2^62 ∧ 32 * zlen es ≤ weights es ∧ 0 ≤ K ∧ zlen es ≤ max_keys
  ∧ weights es + (B + 2 * K + 60) * zlen es < 2^62.
Proof using HB.
  intros (Hf & HK & Hm). pose proof (weights_nonneg es). assert (0 ≤ (B + 2 * K + 60) * zlen es) by (apply Z.mul_nonneg_nonneg; lia). lia.
Qed.

Lemma fits_app es es' : fits (es ++ es') → fits es.
Proof using HB.
  intros Hf. destruct (fits_bounds _ Hf) as (H1 & H2 & HK & Hm & _). destruct Hf as (Hf & _ & _). rewrite weights_app, !length_app in *.
  pose proof (weights_nonneg es'). split; [|lia].
  assert ((B + 2 * K + 60) * zlen es ≤ (B + 2 * K + 60) * Z.of_nat (length es + length es')) by (apply Z.mul_le_mono_nonneg_l; lia). lia.
Qed.

Lemma stored_offset X d : stored X (d_handle d) (d_contents d) → 0 ≤ h_offset (d_handle d) ∧ 0 ≤ h_size (d_handle d) ∧ h_offset (d_handle d) + h_size (d_handle d) < zlen X.
Proof using.
  clear. intros (pre & payload & t & post & -> & -> & _). cbn. pose proof (raw_block_length payload t) as Hr. rewrite !length_app in *.
  unfold kBlockTrailerSize in *. lia.
Qed.

Lemma data_handle_ok X d : data_ok X d → zlen X < 2^63 → handle_ok (d_handle d).
Proof using. clear. intros (_ & _ & Hs & _) Hl. apply stored_offset in Hs. unfold handle_ok, ones64. lia. Qed.

(** ** Flushing *)

Lemma start_filter_Ok r ds cur X X' d : filters r ds cur X → fits (all_entries ds ++ cur) → zlen X ≤ zlen X' →
  d_entries d = cur → h_offset (d_handle d) = zlen X →
  ∃ f, start_filter (zlen X') (filter_block r) = Ok f ∧ ∀ r', filter_block r' = f → filters r' (ds ++ [d]) [] X'.
Proof using Hpolicy.
  unfold filters, start_filter. unfold policy_ok in Hpolicy. destruct (filter_policy opt) as [p|], (filter_block r) as [[p' b]|]; try done.
  2:{ intros _ _ _ _ _. exists None. split; [done|]. by intros r' ->. }
  destruct Hpolicy as (Hps & Hslim & Hmax & _). intros (-> & fs & kss & pend & Hinv & Hfs & Hk & Hcur & Hn & Hsz & Hload & Hoff) (_ & _ & Hfit) HX Hd Ho.
  assert (zlen X / kFilterBase ≤ zlen X' / kFilterBase) as Hmono by (apply Z.div_le_mono; [done|lia]).
  destruct (@StartBlock_inv (policy p) max_keys okf Hps (zlen X') b fs kss pend Hinv ltac:(lia) Hmax ltac:(lia))
    as (b' & fs' & kss' & pend' & E & Hinv' & Hfs' & Hp' & Hc' & Hkept). rewrite E. cbn [mbind res_bind].
  destruct (@StartBlock_load K (policy p) Hslim _ _ _ E) as [Hl1 Hl2].
  eexists. split; [done|]. intros r' ->. split; [done|]. exists fs', kss', pend'. rewrite all_entries_app, app_nil_r.
  assert (all_entries [d] = cur) as -> by (unfold all_entries; cbn; by rewrite app_nil_r).
  split; [done|]. split; [done|]. split; [|split; [|lia]].
  - intros d' e [Hin| ->%list_elem_of_singleton]%elem_of_app He; [by apply Hkept, Hk|].
    rewrite Ho. apply Hkept. right. split; [lia|]. apply Hcur. by rewrite <-Hd.
  - by intros e ?%elem_of_nil.
Qed.

Lemma separated_more (idx : list entry) (ds : list dblock) d : separated idx ds → (∀ e x, e ∈ idx → x ∈ d_entries d → c e.1 x.1 < 0) → (length idx ≤ length ds)%nat →
  separated idx (ds ++ [d]).
Proof using.
  clear. intros Hs Hd Hl i e d0 He Hd0. pose proof (lookup_lt_Some _ _ _ He) as Hi.
  rewrite lookup_app_l in Hd0 by lia. destruct (Hs i e d0 He Hd0) as (H1 & H2 & H3 & H4). split; [done|]. split; [done|]. split; [done|].
  intros j d' x Hij Hj Hx. apply lookup_app_Some in Hj as [Hj|[Hge Hj]]; [by apply (H4 j d' x)|].
  apply list_lookup_singleton_Some in Hj as [_ <-]. apply Hd; [by apply (list_elem_of_lookup_2 _ i)|done].
Qed.

Lemma ascending_more (X : list byte) ds d : ascending ds → Forall (λ d, h_offset (d_handle d) < zlen X) ds → h_offset (d_handle d) = zlen X → ascending (ds ++ [d]).
Proof using.
  clear. intros Ha Hl Hd. apply StronglySorted_app_2; [|done|repeat constructor]. intros d1 d2 H1 ->%list_elem_of_singleton. rewrite Forall_forall in Hl.
  rewrite Hd. by apply Hl.
Qed.

Lemma data_empty r cur shs rs : BlockProps.builder_inv (block_restart_interval opt) (data_block (W := W) r) cur shs rs → builder_empty (data_block r) = bool_decide (cur = []).
Proof using. intros [Hlay Hbuf _ _ _ _ _]. unfold builder_empty. rewrite Hbuf. by apply (buffer_empty _ _ rs). Qed.

Lemma Flush_empty r ds idx X : built r ds [] idx X → Flush addr r = Ok r.
Proof using.
  intros Hb. unfold Flush. rewrite (bt_open _ _ _ _ _ Hb). cbn [negb c_assert mbind res_bind].
  unfold builder_ok, builder_status. destruct (bt_sink _ _ _ _ _ Hb) as (_ & _ & ->). change (ok OK) with true. cbn [negb].
  destruct (bt_data _ _ _ _ _ Hb) as (shs & rs & Hd). by rewrite (data_empty _ _ _ _ Hd), bool_decide_true.
Qed.

Lemma Flush_Ok r ds cur idx X : built r ds cur idx X → fits (all_entries ds ++ cur) → cur ≠ [] → pending_index_entry r = false →
  ∃ r' d X', Flush addr r = Ok r' ∧ built r' (ds ++ [d]) [] idx X' ∧ d_entries d = cur ∧ last_key r' = last_key r.
Proof using HB Hint Hpolicy HS.
  intros Hb Hfits Hne Hp. pose proof Hb as [[Ho Hoi] Hopen Hsink (Hblocks & Hasc & Hlt) (shs & rs & Hd) Hidx Hsep Hcur Hsi Hpend Hsize Hnum Hfil].
  rewrite Hp in Hpend. unfold Flush. rewrite Hopen. cbn [negb c_assert mbind res_bind]. unfold builder_ok, builder_status.
  rewrite (proj2 (proj2 Hsink)). change (ok OK) with true. cbn [negb]. rewrite (data_empty _ _ _ _ Hd), bool_decide_false, Hp by done.
  cbn [negb c_assert mbind res_bind]. rewrite Ho. pose proof (block_short cur shs rs (bi_layout _ _ _ _ _ Hd)) as Hshort.
  assert (1 ≤ zlen cur) as Hc1 by (destruct cur; simpl; [done|lia]). pose proof (weights_app (all_entries ds) cur) as Hw.
  pose proof (weights_nonneg (all_entries ds)) as Hw1. pose proof (weights_nonneg cur) as Hw2. destruct Hfits as (Hfit & HK & Hmax).
  assert (zlen X + zlen (block_of cur shs rs) + kBlockTrailerSize < 2^62) as Hsz by (unfold kBlockTrailerSize; nia).
  destruct (WriteBlock_Ok addr (block_restart_interval opt) Hint (compression opt) _ cur shs rs _ X Hd Hsink ltac:(lia))
    as (h & b' & s' & more & -> & Hb' & Hs' & Hst & Hcomp & Hoff & Hmore). cbn [mbind res_bind].
  destruct Hs' as (Hs1 & Hs2 & ->). change (ok OK) with true. cbv iota.
  destruct (Flush_spec (file s')) as (w & -> & Hw'). cbv iota. cbn [offset]. rewrite Hs2.
  set (d := DBlock cur shs rs h).
  destruct (start_filter_Ok r ds cur X (X ++ more) d Hfil (conj Hfit (conj HK Hmax)) ltac:(rewrite length_app; lia) eq_refl Hoff) as (f & -> & Hf).
  cbn [mbind res_bind]. eexists _, d, (X ++ more). split; [done|]. split; [|by split].
  split; cbn [options index_interval closed sink data_block index_block pending_index_entry pending_handle num_entries filter_block].
  - done.
  - done.
  - by split; [cbn; rewrite Hw'|].
  - split; [|split; [by apply (ascending_more X)|]].
    + apply Forall_app. split; [by eapply Forall_impl; [exact Hblocks|]; intros; apply data_ok_app|]. constructor; [|done].
      split; [apply Hd|]. by split.
    + apply Forall_app. rewrite length_app. split; [|constructor; [cbn; lia|done]]. eapply Forall_impl; [exact Hlt|]. intros d0 Hd0. cbn in *. lia.
  - by exists [], [0%nat].
  - done.
  - apply separated_more; [done|done|lia].
  - by intros e x _ ?%elem_of_nil.
  - done.
  - split; [done|]. exists ds, d. by split_and!.
  - rewrite all_entries_app, weights_app, length_app. assert (all_entries [d] = cur) as -> by (unfold all_entries; cbn; by rewrite app_nil_r).
    unfold kBlockTrailerSize in *. lia.
  - rewrite Hnum, all_entries_app, app_nil_r. by assert (all_entries [d] = cur) as -> by (unfold all_entries; cbn; by rewrite app_nil_r).
  - by apply Hf.
Qed.

(** ** Adding *)

Lemma add_index_Ok r ds' d idx X separator : index_interval r = 1 → Forall (data_ok X) (ds' ++ [d]) → zlen X < 2^63 →
  (∃ shs rs, BlockProps.builder_inv 1 (index_block (W := W) r) idx shs rs) → separated idx (ds' ++ [d]) →
  StronglySorted (λ a b : entry, c a.1 b.1 < 0) idx → length idx = length ds' → pending_handle r = d_handle d →
  okk separator → (∀ x, x ∈ d_entries d → c x.1 separator ≤ 0) →
  ∃ b e shs rs, add_index_entry separator r = Ok (MkRep (options r) (index_interval r) (sink r) (data_block r) b separator
        (num_entries r) (closed r) (filter_block r) false (pending_handle r))
    ∧ BlockProps.builder_inv 1 b (idx ++ [e]) shs rs ∧ separated (idx ++ [e]) (ds' ++ [d])
    ∧ StronglySorted (λ a b : entry, c a.1 b.1 < 0) (idx ++ [e]) ∧ e.1 = separator.
Proof using Hspec.
  intros Hoi Hblocks HX (shs & rs & Hidx) Hsep Hsi Hlen Hh Hok Hle. rewrite Forall_app, Forall_singleton in Hblocks. destruct Hblocks as [Hbl Hbd].
  pose proof (data_handle_ok X d Hbd HX) as Hhok. unfold add_index_entry. rewrite Hh, Handle_EncodeTo_Ok, Hoi by done. cbn [mbind res_bind app].
  assert (∀ e, e ∈ idx → c e.1 separator < 0) as Hbelow.
  { intros e [i He]%list_elem_of_lookup. pose proof (lookup_lt_Some _ _ _ He) as Hi. destruct (lookup_lt_is_Some_2 ds' i) as [di Hdi]; [lia|].
    destruct (Hsep i e di He) as (_ & _ & _ & Hlater); [by apply lookup_app_l_Some|]. destruct Hbd as (_ & Hne & _).
    destruct (d_entries d) as [|x l] eqn:Ed; [done|]. apply (@cmp_lt_le _ c (@spec_order _ _ _ Hspec) e.1 x.1).
    - apply (Hlater (length ds') d x); [lia|by apply list_lookup_middle|rewrite Ed; left].
    - apply Hle. left. }
  destruct (BlockProps.Add_Ok 1 ltac:(done) (index_block r) idx shs rs separator (encode_handle (d_handle d)) Hidx Hok) as (b' & shs' & rs' & -> & Hb').
  { destruct (decide (idx = [])) as [|Hne]; [by left|right]. unfold BlockProps.last_key. destruct (last idx) as [e|] eqn:El; [|by apply last_None in El].
    pose proof El as [l ->]%last_Some. split; [|apply Hbelow; apply elem_of_app; right; left]. cbn. rewrite length_app in Hlen. cbn in Hlen.
    destruct (lookup_lt_is_Some_2 ds' (length l)) as [di Hdi]; [lia|].
    apply (Hsep (length l) e di); [by apply list_lookup_middle|by apply lookup_app_l_Some]. }
  cbn [mbind res_bind]. eexists _, (separator, encode_handle (d_handle d)), _, _. split; [done|]. split; [exact Hb'|]. split; [|split; [|done]].
  - intros i e d0 He Hd0. apply lookup_app_Some in He as [He|[Hge He]]; [by apply (Hsep i e d0)|].
    apply list_lookup_singleton_Some in He as [Hi <-]. assert (i = length ds') as -> by lia.
    rewrite (list_lookup_middle ds' [] d) in Hd0 by done. injection Hd0 as <-. split; [done|]. split; [done|]. split; [intros x Hx; by apply Hle|].
    intros j d' x Hj Hd'. apply lookup_lt_Some in Hd'. rewrite length_app in Hd'. cbn in Hd'. lia.
  - apply StronglySorted_app_2; [|done|repeat constructor]. intros e e' He ->%list_elem_of_singleton. by apply Hbelow.
Qed.

Lemma index_Ok r ds idx X separator : built r ds [] idx X → fits (all_entries ds) → pending_index_entry r = true → okk separator →
  (∀ ds' d x, ds = ds' ++ [d] → x ∈ d_entries d → c x.1 separator ≤ 0) →
  ∃ r' e, add_index_entry separator r = Ok r' ∧ built r' ds [] (idx ++ [e]) X ∧ e.1 = separator ∧ pending_index_entry r' = false ∧ last_key r' = separator.
Proof using HB Hspec.
  intros Hb Hfits Hp Hok Hle. pose proof Hb as [[Ho Hoi] Hopen Hsink Hblocks Hd Hidx Hsep Hcur Hsi Hpend Hsize Hnum Hfil].
  rewrite Hp in Hpend. destruct Hpend as (_ & ds' & d & -> & Hlen & Hh).
  destruct (add_index_Ok r ds' d idx X separator) as (b & e & shs & rs & -> & Hb' & Hsep' & Hsi' & He); try done.
  { apply Hblocks. }
  { destruct (fits_bounds _ Hfits). lia. }
  { intros x Hx. by apply (Hle ds' d). }
  eexists _, e. split; [done|]. split; [|done].
  split; cbn [options index_interval closed sink data_block index_block pending_index_entry pending_handle num_entries filter_block]; try done.
  - by exists shs, rs.
  - by intros e' x _ ?%elem_of_nil.
  - rewrite !length_app. cbn. lia.
Qed.

Lemma filters_add r r' ds cur X e : filters r ds cur X → okf e.1 → fits (all_entries ds ++ cur ++ [e]) →
  filter_block r' = match filter_block r with None => None | Some (p, b) => Some (p, AddKey e.1 b) end → filters r' ds (cur ++ [e]) X.
Proof using HB.
  unfold filters. intros Hf Hok (Hfit & HK & _) ->. destruct (filter_policy opt) as [p|], (filter_block r) as [[p' b]|]; try done.
  destruct Hf as (-> & fs & kss & pend & Hinv & Hfs & Hk & Hcur & Hn & Hsz & Hload & Hoff). split; [done|].
  rewrite app_assoc in *. set (es := all_entries ds ++ cur) in *. rewrite weights_app, !length_app in *. cbn [length weights fold_right] in *.
  pose proof (weights_nonneg es) as Hw. unfold weight in *. exists fs, kss, (pend ++ [e.1]). rewrite concat_app, !length_app. cbn [concat length].
  rewrite app_nil_r. assert (0 ≤ (B + 2 * K + 60) * Z.of_nat (length es + 1)) as Hroom by (apply Z.mul_nonneg_nonneg; lia).
  split; [apply AddKey_inv; [done|done|rewrite concat_app, length_app; cbn [concat]; rewrite app_nil_r; lia]|]. split; [done|].
  split; [|split; [|split; [lia|split; [lia|]]]].
  - intros d x Hd Hx. destruct (Hk d x Hd Hx) as [Hl|[Hj Hin]]; [by left|right]. split; [done|]. apply elem_of_app. by left.
  - intros x [Hx| ->%list_elem_of_singleton]%elem_of_app; apply elem_of_app; [left; by apply Hcur|right; left].
  - unfold load, AddKey in *. cbn [result_ start_ filter_offsets_]. rewrite length_app. cbn [length]. split; [nia|done].
Qed.

Lemma add_entry_Ok r ds cur idx X k v : built r ds cur idx X → pending_index_entry r = false → okk k → okf k →
  (∀ e, e ∈ idx → c e.1 k < 0) → (cur = [] ∨ okk (BlockProps.last_key cur) ∧ c (BlockProps.last_key cur) k < 0) →
  fits (all_entries ds ++ cur ++ [(k, v)]) →
  ∃ r', add_entry k v r = Ok r' ∧ built r' ds (cur ++ [(k, v)]) idx X ∧ last_key r' = k ∧ pending_index_entry r' = false.
Proof using HB Hint Hspec.
  intros Hb Hp Hk Hkf Hidx Hlast Hfits. pose proof Hb as [[Ho Hoi] Hopen Hsink Hblocks (shs & rs & Hd) Hi Hsep Hcur Hsi Hpend Hsize Hnum Hfil].
  rewrite Hp in Hpend. unfold add_entry. rewrite Hnum, clong_ok.
  2:{ rewrite app_assoc in Hfits. destruct (fits_bounds _ Hfits) as (Hw & Hn & _). rewrite length_app in Hn. lia. }
  cbn [mbind res_bind]. rewrite Ho. destruct (BlockProps.Add_Ok _ Hint (data_block r) cur shs rs k v Hd Hk Hlast) as (b' & shs' & rs' & -> & Hb').
  cbn [mbind res_bind]. eexists. split; [done|]. split; [|done].
  split; cbn [options index_interval closed sink data_block index_block pending_index_entry pending_handle num_entries filter_block]; try done.
  - by exists shs', rs'.
  - intros e x He [Hx| ->%list_elem_of_singleton]%elem_of_app; [by apply Hcur|by apply Hidx].
  - by rewrite Hp.
  - rewrite app_assoc, (length_app (_ ++ _)). cbn. lia.
  - by apply (filters_add r _ ds cur X (k, v)).
Qed.

(** Between calls: the last key is that of the last entry, and the current block is empty only if
    there are no blocks or an index entry is pending. *)
Definition rested (r : Rep (W := W)) (es : list entry) (ds : list dblock) (cur : list entry) : Prop :=
  es = all_entries ds ++ cur ∧ last_key r = BlockProps.last_key es ∧ (cur = [] → pending_index_entry r = false → ds = []).

Lemma last_key_snoc es k v : BlockProps.last_key (es ++ [(k, v)]) = k.
Proof using. clear. unfold BlockProps.last_key. by rewrite last_snoc. Qed.

Lemma last_key_app es es' : es' ≠ [] → BlockProps.last_key (es ++ es') = BlockProps.last_key es'.
Proof using.
  clear. intros Hne. destruct es' as [|x l _] using rev_ind; [done|]. rewrite app_assoc. unfold BlockProps.last_key. by rewrite !last_snoc.
Qed.

Lemma last_key_elem es : es ≠ [] → ∃ v, (BlockProps.last_key es, v) ∈ es.
Proof using.
  clear. intros Hne. destruct es as [|[k v] l _] using rev_ind; [done|]. exists v. rewrite last_key_snoc. apply elem_of_app. right. left.
Qed.

Lemma sorted_snoc es k v : sorted (es ++ [(k, v)]) → okk k ∧ okf k ∧ ∀ e, e ∈ es → okk e.1 ∧ c e.1 k < 0.
Proof using.
  intros [Hs Hok]. rewrite Forall_app, Forall_singleton in Hok. destruct Hok as [Hok [Hk Hkf]]. split; [done|]. split; [done|].
  intros e He. rewrite Forall_forall in Hok. split; [by apply Hok|]. apply (StronglySorted_app_1_elem_of _ _ _ e (k, v) Hs He). left.
Qed.

Lemma sorted_last es x : StronglySorted (λ a b : entry, c a.1 b.1 < 0) es → x ∈ es → c x.1 (BlockProps.last_key es) ≤ 0.
Proof using Hspec.
  pose proof (@spec_order _ _ _ Hspec) as Hord. intros Hs Hx. destruct es as [|[k v] l _] using rev_ind; [by apply elem_of_nil in Hx|]. rewrite last_key_snoc.
  apply elem_of_app in Hx as [Hx| ->%list_elem_of_singleton]; [|cbn; by rewrite (@cmp_refl _ c Hord)].
  pose proof (StronglySorted_app_1_elem_of _ _ _ x (k, v) Hs Hx ltac:(left)) as Hlt. cbn in Hlt. lia.
Qed.

(** The entry of the last block, when the next key is known. *)
Lemma pending_Ok r es ds cur idx X k v : built r ds cur idx X → rested r es ds cur → sorted (es ++ [(k, v)]) → fits (es ++ [(k, v)]) →
  ∃ r' idx', (if pending_index_entry r then
        _ ← c_assert (builder_empty (data_block r)); separator ← FindShortestSeparator (last_key r) k; add_index_entry separator r
      else mret r) = Ok r'
    ∧ built r' ds cur idx' X ∧ pending_index_entry r' = false ∧ (∀ e, e ∈ idx' → c e.1 k < 0).
Proof using HB Hspec.
  intros Hb (-> & Hlast & Hrest) Hs Hfits. destruct (sorted_snoc _ _ _ Hs) as (Hk & Hkf & Hlt). pose proof (@spec_order _ _ _ Hspec) as Hord.
  destruct (pending_index_entry r) eqn:Hp.
  - pose proof (bt_pending _ _ _ _ _ Hb) as Hpend. rewrite Hp in Hpend. destruct Hpend as (-> & ds' & d & Eds & Hlen & Hh).
    destruct (bt_data _ _ _ _ _ Hb) as (shs & rs & Hd). rewrite (data_empty _ _ _ _ Hd), bool_decide_true by done. cbn [c_assert mbind res_bind].
    destruct (bt_blocks _ _ _ _ _ Hb) as (Hblocks & _). rewrite Eds, Forall_app, Forall_singleton in Hblocks. destruct Hblocks as [_ (_ & Hne & _)].
    rewrite app_nil_r in *. assert (all_entries ds ≠ []) as Hes.
    { rewrite Eds, all_entries_app. intros [_ E]%app_eq_nil. apply Hne. unfold all_entries in E. cbn in E. by rewrite app_nil_r in E. }
    destruct (last_key_elem _ Hes) as [w Hw]. destruct (Hlt _ Hw) as [Hl1 Hl2]. cbn [fst] in *. rewrite Hlast.
    destruct (separator_spec (BlockProps.last_key (all_entries ds)) k Hl1 Hk ltac:(lia)) as (sep & -> & Hsok & Hle & Hlt2 & _). cbn [mbind res_bind].
    pose proof (fits_app _ _ Hfits) as Hfits'.
    destruct (index_Ok r ds idx X sep Hb Hfits' Hp Hsok) as (r' & e & -> & Hb' & <- & Hp' & _).
    { intros ds2 d2 x E Hx. apply (@cmp_trans _ _ Hord _ (BlockProps.last_key (all_entries ds))); [|done].
      apply sorted_last; [by destruct Hs as [Hs _]; apply StronglySorted_app_1_l in Hs|].
      apply (all_entries_elem ds d2); [rewrite E; apply elem_of_app; right; left|done]. }
    exists r', (idx ++ [e]). split; [done|]. split; [done|]. split; [done|].
    intros e' [He'| ->%list_elem_of_singleton]%elem_of_app; [|by apply Hlt2].
    apply list_elem_of_lookup in He' as [i He']. pose proof (lookup_lt_Some _ _ _ He') as Hi. destruct (lookup_lt_is_Some_2 ds' i) as [di Hdi]; [lia|].
    destruct (bt_separated _ _ _ _ _ Hb i e' di He') as (_ & _ & _ & Hlater); [rewrite Eds; by apply lookup_app_l_Some|].
    destruct (d_entries d) as [|x l] eqn:Ed; [done|]. apply (@cmp_lt_le _ c Hord e'.1 x.1).
    + apply (Hlater (length ds') d x); [lia|rewrite Eds; by apply list_lookup_middle|rewrite Ed; left].
    + assert (x ∈ all_entries ds) as Hx by (apply (all_entries_elem ds d); [rewrite Eds; apply elem_of_app; right; left|rewrite Ed; left]).
      destruct (Hlt x Hx). lia.
  - exists r, idx. split; [done|]. split; [done|]. split; [done|]. intros e He. destruct cur as [|x cur].
    + pose proof (bt_pending _ _ _ _ _ Hb) as Hlen. rewrite Hp, (Hrest eq_refl eq_refl) in Hlen. by destruct idx; [apply elem_of_nil in He|].
    + apply (@cmp_lt_le _ c Hord e.1 x.1); [apply (bt_current _ _ _ _ _ Hb e x He); left|].
      destruct (Hlt x) as [_ Hx]; [apply elem_of_app; right; left|lia].
Qed.
End inv.

(** * What a finished table holds *)

Section finish.
Context {C : Comparator} {okk : list byte → Prop} {c : list byte → list byte → Z} {Hspec : ComparatorSpec C okk c}.
Context {W : Type} `{WritableFileSpec W} {S : Snappy} {HS : SnappySpec S} (addr : list byte → Z).
Context (B : Z) (HB : 0 ≤ B) (Hkeys : ∀ k, okk k → zlen k ≤ B).
Context (max_keys : Z) (okf : list byte → Prop) (K : Z).
Context (opt : Options) (Hint : 1 ≤ block_restart_interval opt ≤ int_max) (Hpolicy : policy_ok max_keys okf K opt).

#[local] Abbreviation built := (built (okk := okk) (c := c) okf K opt).
#[local] Abbreviation sorted := (sorted (okk := okk) (c := c) okf).
#[local] Abbreviation fits := (fits B max_keys K).
#[local] Abbreviation separated := (separated (okk := okk) (c := c)).

(** ** Adding the entries *)

(** Between calls, the builder has the entries [es]. *)
Definition building (es : list entry) (r : Rep (W := W)) : Prop :=
  ∃ ds cur idx X, built r ds cur idx X ∧ rested r es ds cur.

Lemma new_TableBuilder_Ok f : wf_contents f = [] → ∃ r, new_TableBuilder opt f = Ok r ∧ building [] r.
Proof using Hint.
  intros Hf. unfold new_TableBuilder. destruct (new_BlockBuilder_Ok _ Hint) as (b & -> & Hb). cbn [mbind res_bind].
  assert (BlockProps.builder_inv 1 b [] [] [0%nat]) as Hb1 by (destruct Hb; split; try done; rewrite bi_empty by done; lia).
  assert (start_filter 0 (match filter_policy opt with None => None | Some p => Some (policy p, new_FilterBlockBuilder) end)
     = Ok (match filter_policy opt with None => None | Some p => Some (policy p, new_FilterBlockBuilder) end)) as ->.
  { by destruct (filter_policy opt). }
  cbn [mbind res_bind]. eexists. split; [done|]. exists [], [], [], []. split; [|done].
  split; cbn [options index_interval closed sink data_block index_block pending_index_entry pending_handle num_entries]; try done.
  - split; [done|]. split; [constructor|done].
  - by exists [], [0%nat].
  - by exists [], [0%nat].
  - by intros e x ?%elem_of_nil.
  - constructor.
  - unfold filters. cbn [filter_block]. destruct (filter_policy opt) as [p|] eqn:Ep; [|done].
    split; [done|]. exists [], [], []. clear Hpolicy.
    assert (@FilterBlock.builder_inv (policy p) okf new_FilterBlockBuilder [] [] []) as Hinv by (split; cbn; try done; constructor).
    repeat (split; [done || (intros ? ? ?%elem_of_nil; done) || (intros ? ?%elem_of_nil; done)|]). done.
Qed.

Lemma building_flushed es r : building es r → fits es →
  ∃ r' ds idx X, Flush addr r = Ok r' ∧ built r' ds [] idx X ∧ rested r' es ds [].
Proof using HB Hint Hpolicy HS.
  intros (ds & cur & idx & X & Hb & -> & Hlast & Hrest) Hfits. destruct (decide (cur = [])) as [->|Hne].
  { exists r, ds, idx, X. split; [by eapply Flush_empty|]. by split. }
  pose proof (bt_pending _ _ _ _ _ _ _ _ Hb) as Hp. destruct (pending_index_entry r) eqn:Ep; [by destruct Hp as [-> _]|].
  destruct (Flush_Ok addr B HB max_keys okf K opt Hint Hpolicy r ds cur idx X Hb Hfits Hne Ep) as (r' & d & X' & E & Hb' & Hd & Hl).
  exists r', (ds ++ [d]), idx, X'. split; [done|]. split; [done|].
  assert (all_entries (ds ++ [d]) = all_entries ds ++ cur) as Ea by (rewrite all_entries_app; unfold all_entries at 2; cbn; by rewrite app_nil_r, Hd).
  split; [by rewrite app_nil_r|]. split; [by rewrite Hl, Hlast|]. intros _ Hp'. pose proof (bt_pending _ _ _ _ _ _ _ _ Hb') as Hl'.
  rewrite Hp' in Hl'. rewrite length_app in Hl'. cbn in Hl'. lia.
Qed.

Lemma building_ok es r : building es r → closed r = false ∧ builder_ok r = true.
Proof using.
  intros (ds & cur & idx & X & Hb & _). split; [apply Hb|]. unfold builder_ok, builder_status. by destruct (bt_sink _ _ _ _ _ _ _ _ Hb) as (_ & _ & ->).
Qed.

Lemma table_Add_Ok es r k v : building es r → sorted (es ++ [(k, v)]) → fits (es ++ [(k, v)]) →
  ∃ r', Add addr k v r = Ok r' ∧ building (es ++ [(k, v)]) r'.
Proof using HB Hint Hpolicy HS Hspec.
  intros Hbuild Hs Hfits. destruct (building_ok _ _ Hbuild) as [Hopen Hok]. destruct Hbuild as (ds & cur & idx & X & Hb & Hrested).
  destruct (sorted_snoc okf _ _ _ Hs) as (Hk & Hkf & Hlt). unfold Add. rewrite Hopen, Hok. cbn [negb c_assert mbind res_bind].
  pose proof Hrested as (Ees & Hlast & _). pose proof (bt_number _ _ _ _ _ _ _ _ Hb) as Hnum. rewrite <-Ees in Hnum.
  assert ((if 0 <? num_entries r then x ← Compare k (last_key r); mret (0 <? x) else mret true) = Ok true) as ->.
  { rewrite Hnum. destruct (Z.ltb_spec 0 (zlen es)) as [Hpos|]; [|done]. destruct (last_key_elem es) as [w Hw]; [by intros ->|].
    destruct (Hlt _ Hw) as [Hl1 Hl2]. cbn [fst] in *. rewrite Hlast, Compare_spec by done. cbn [mbind res_bind].
    pose proof (@cmp_anti _ c (@spec_order _ _ _ Hspec) (BlockProps.last_key es) k). by rewrite (proj2 (Z.ltb_lt _ _)) by lia. }
  cbn [c_assert mbind res_bind]. destruct (pending_Ok B HB max_keys okf K opt r es ds cur idx X k v Hb Hrested Hs Hfits) as (r1 & idx1 & -> & Hb1 & Hp1 & Hidx1).
  cbn [mbind res_bind].
  destruct (add_entry_Ok B HB max_keys okf K opt Hint r1 ds cur idx1 X k v Hb1 Hp1 Hk Hkf Hidx1) as (r2 & -> & Hb2 & Hl2 & Hp2).
  { destruct (decide (cur = [])) as [|Hne]; [by left|right]. destruct (last_key_elem cur Hne) as [w Hw].
    apply (Hlt (BlockProps.last_key cur, w)). rewrite Ees. apply elem_of_app. by right. }
  { by rewrite app_assoc, <-Ees. }
  cbn [mbind res_bind]. assert (building (es ++ [(k, v)]) r2) as Hbuild2.
  { exists ds, (cur ++ [(k, v)]), idx1, X. split; [done|]. split; [by rewrite app_assoc, <-Ees|]. split; [by rewrite Hl2, last_key_snoc|].
    intros E; by destruct cur. }
  case_match; [|by exists r2]. destruct (building_flushed _ _ Hbuild2 Hfits) as (r3 & ds3 & idx3 & X3 & -> & Hb3 & Hr3).
  exists r3. split; [done|]. by exists ds3, [], idx3, X3.
Qed.

Lemma add_entries_Ok es2 : ∀ es1 r, building es1 r → sorted (es1 ++ es2) → fits (es1 ++ es2) →
  ∃ r', add_entries addr es2 r = Ok r' ∧ building (es1 ++ es2) r'.
Proof using HB Hint Hpolicy HS Hspec.
  induction es2 as [|[k v] es2 IH]; intros es1 r Hb Hs Hf; cbn [add_entries]; [exists r; by rewrite app_nil_r|].
  assert (es1 ++ (k, v) :: es2 = (es1 ++ [(k, v)]) ++ es2) as E by by rewrite <-app_assoc. rewrite E in *.
  destruct (table_Add_Ok es1 r k v Hb) as (r1 & -> & Hb1); [|by eapply fits_app|].
  - destruct Hs as [Hs1 Hs2]. apply Forall_app in Hs2 as [Hs2 _]. split; [by apply StronglySorted_app_1_l in Hs1|done].
  - cbn [mbind res_bind]. by apply IH.
Qed.

(** ** Finishing *)

(** A block at a handle that lays out some entries. *)
Definition holds (X : list byte) (h : BlockHandle) (es : list entry) : Prop :=
  ∃ shs rs, layout es shs rs ∧ stored X h (block_of es shs rs) ∧ compact X (block_of es shs rs).

Lemma holds_app X more h es : holds X h es → holds (X ++ more) h es.
Proof using.
  intros (shs & rs & Hl & Hs & Hc). exists shs, rs. split; [done|]. split; [by apply stored_app|].
  unfold compact in *. rewrite length_app. lia.
Qed.

(** The filter block has the keys of the data blocks. *)
Definition filter_ok (X : list byte) (ds : list dblock) (h : BlockHandle) : Prop :=
  match filter_policy opt with
  | None => True
  | Some p => ∃ (fs : list (list byte)) (kss : list (list (list byte))), handle_ok h ∧ stored X h (block_bytes fs) ∧ zlen (block_bytes fs) ≤ zlen X
      ∧ Forall2 (λ f ks, ∀ k, k ∈ ks → @KeyMayMatch (policy p) k f = Ok true ∧ f ≠ []) fs kss
      ∧ ∀ d e, d ∈ ds → e ∈ d_entries d → ∃ ks, kss !! Z.to_nat (h_offset (d_handle d) / kFilterBase) = Some ks ∧ e.1 ∈ ks
  end.

Lemma filter_ok_app X more ds h : filter_ok X ds h → filter_ok (X ++ more) ds h.
Proof using.
  unfold filter_ok. destruct (filter_policy opt); [|done]. intros (fs & kss & Hh & Hs & Hl & Hrest). exists fs, kss.
  split; [done|]. split; [by apply stored_app|]. split; [rewrite length_app; lia|done].
Qed.

Lemma sink_builder_ok (r : Rep (W := W)) X : sink_ok (sink r) X → builder_ok r = true.
Proof using. unfold builder_ok, builder_status. by intros (_ & _ & ->). Qed.

Lemma Finish_filter_Ok r ds X : sink_ok (sink r) X → zlen X ≤ weights (all_entries ds) → filters okf K opt r ds [] X → fits (all_entries ds) →
  ∃ h s more, Finish_filter addr r = Ok (h, with_sink s r) ∧ sink_ok s (X ++ more) ∧ zlen (X ++ more) < 2^62 + 2^54 ∧ filter_ok (X ++ more) ds h.
Proof using HB Hpolicy.
  intros Hs Hl Hf Hfits. destruct (fits_bounds B HB _ _ _ Hfits) as (Hw & Hn & HK & Hm & Hroom). unfold Finish_filter, filters, filter_ok, policy_ok in *.
  rewrite (sink_builder_ok r X Hs). destruct (filter_policy opt) as [p|], (filter_block r) as [[p' b]|]; try done.
  2:{ exists new_BlockHandle, (sink r), []. rewrite app_nil_r. split; [by destruct r|]. split; [done|]. split; [lia|done]. }
  destruct Hf as (-> & fs & kss & pend & Hinv & Hfs & Hk & _ & Hnum & Hsz & Hload & Hoff). rewrite app_nil_r in *.
  destruct Hpolicy as (Hps & Hslim & _). destruct (@FilterBlock.Finish_Ok (policy p) max_keys okf Hps b fs kss pend Hinv ltac:(lia))
    as (fs' & kss' & E & Hall & Hkept). rewrite E. cbn [mbind res_bind]. pose proof (filter_Finish_load K _ Hslim _ _ E) as Hlen.
  assert (zlen X / kFilterBase ≤ 2^51) as Hdiv by (change kFilterBase with 2048; apply Z.div_le_upper_bound; lia).
  assert (2 * K * zlen (all_entries ds) ≤ 2^62 - weights (all_entries ds)) as Hkn by (pose proof (Z.mul_nonneg_nonneg (B + 60) (zlen (all_entries ds)) ltac:(lia) ltac:(lia)); lia).
  destruct (WriteRawBlock_Ok addr (sink r) X (block_bytes fs') kNoCompression Hs) as (s & -> & Hs'); [unfold kBlockTrailerSize; lia|].
  cbn [mbind res_bind]. eexists _, s, _. split; [done|]. split; [exact Hs'|]. rewrite length_app.
  pose proof (raw_block_length (block_bytes fs') kNoCompression) as Hr. unfold kBlockTrailerSize in Hr. split; [lia|].
  exists fs', kss'. split; [unfold handle_ok, ones64; cbn; lia|]. split; [|split; [lia|split; [done|]]].
  - exists X, (block_bytes fs'), kNoCompression, []. by rewrite app_nil_r.
  - intros d e Hd He. by apply Hkept, Hk.
Qed.

Lemma Add_first interval k v b : buffer_ b = [] → Block.Add (comparator := C) interval k v b = Block.Add (comparator := BytewiseComparator) interval k v b.
Proof using. clear. intros Hb. unfold Block.Add. by rewrite Hb. Qed.

(** The entries of the metaindex block. *)
Definition meta_entries (h : BlockHandle) : list entry :=
  match filter_policy opt with None => [] | Some p => [(filter_key p, encode_handle h)] end.

Lemma Finish_metaindex_Ok r ds X0 X h : options r = opt → filters okf K opt r ds [] X0 → sink_ok (sink r) X → zlen X < 2^63 → filter_ok X ds h →
  ∃ mh s more, Finish_metaindex addr h r = Ok (mh, with_sink s r) ∧ h_offset mh = zlen X ∧ sink_ok s (X ++ more) ∧ zlen more < 2^33 ∧ holds (X ++ more) mh (meta_entries h).
Proof using Hint Hpolicy HS.
  intros Ho Hf Hs HX Hh. unfold Finish_metaindex. rewrite (sink_builder_ok r X Hs), Ho.
  destruct (new_BlockBuilder_Ok _ Hint) as (b & -> & Hb). cbn [mbind res_bind].
  assert (∃ b' shs rs, match filter_block r with
      | Some _ => p ← of_option (filter_policy opt); handle_encoding ← Handle_EncodeTo h [];
          Block.Add (block_restart_interval opt) (str "filter." ++ policy_Name p) handle_encoding b
      | None => mret b end = Ok b' ∧ BlockProps.builder_inv (block_restart_interval opt) b' (meta_entries h) shs rs ∧ weights (meta_entries h) < 2^32) as (b' & shs & rs & -> & Hb' & Hw).
  { unfold filters, filter_ok, meta_entries, policy_ok in *. destruct (filter_policy opt) as [p|], (filter_block r) as [[p' fb]|]; try done.
    2:{ by exists b, [], [0%nat]. }
    destruct Hh as (fs & kss & Hh & _). cbn [of_option mbind res_bind]. rewrite Handle_EncodeTo_Ok by done. cbn [mbind res_bind app].
    destruct Hpolicy as (_ & _ & _ & Hshort). rewrite (Add_first _ _ _ b) by apply (bi_buffer _ _ _ _ _ Hb).
    destruct (BlockProps.Add_Ok (Hspec := bytewise_spec) _ Hint b [] [] [0%nat] (filter_key p) (encode_handle h) Hb Hshort ltac:(by left)) as (b' & shs & rs & E & Hb').
    exists b', shs, rs. split; [exact E|]. split; [done|]. pose proof (encode_handle_length h). unfold weights, weight, short, int_max, kMaxEncodedLength in *.
    cbn [fold_right fst snd]. lia. }
  cbn [mbind res_bind]. pose proof (block_short _ _ _ (bi_layout _ _ _ _ _ Hb')) as Hsz.
  destruct (WriteBlock_Ok addr _ Hint (compression opt) b' _ _ _ (sink r) X Hb' Hs) as (mh & b2 & s & more & -> & _ & Hs' & Hst & Hc & Hoff & Hmore);
    [unfold kBlockTrailerSize; lia|].
  cbn [mbind res_bind]. exists mh, s, more. split; [done|]. split; [done|]. split; [done|]. split; [unfold kBlockTrailerSize in *; lia|].
  exists shs, rs. split; [apply Hb'|]. by split.
Qed.

(** The index has an entry for each block. *)
Definition index_of (idx : list entry) (ds : list dblock) : Prop :=
  length idx = length ds ∧ separated idx ds ∧ StronglySorted (λ a b : entry, c a.1 b.1 < 0) idx.

Lemma index_weights idx ds : index_of idx ds → weights idx ≤ (B + 52) * zlen idx.
Proof using HB Hkeys.
  intros (Hl & Hs & _). assert (∀ e, e ∈ idx → weight e ≤ B + 52) as Hw.
  { intros e [i He]%list_elem_of_lookup. destruct (lookup_lt_is_Some_2 ds i) as [d Hd]; [rewrite <-Hl; by eapply lookup_lt_Some|].
    destruct (Hs i e d He Hd) as (Hk & Hv & _). pose proof (Hkeys _ Hk). pose proof (encode_handle_length (d_handle d)) as Hh.
    unfold weight. rewrite Hv. unfold kMaxEncodedLength in *. lia. }
  clear - Hw. induction idx as [|e idx IH]; [cbn; lia|]. unfold weights in *. cbn [fold_right length].
  pose proof (Hw e ltac:(left)). specialize (IH (λ e' H', Hw e' (list_elem_of_further _ _ _ H'))). lia.
Qed.

Lemma blocks_few X ds : Forall (data_ok X) ds → zlen ds ≤ zlen (all_entries ds).
Proof using.
  clear. induction 1 as [|d ds (_ & Hne & _) _ IH]; [done|]. unfold all_entries in *. cbn [fmap list_fmap concat length]. rewrite length_app.
  destruct (d_entries d); [done|]. cbn [length]. lia.
Qed.

(** The entry of the last block. *)
Lemma last_index_Ok (r : Rep (W := W)) ds idx X : index_interval r = 1 → Forall (data_ok X) ds → zlen X < 2^63 →
  (∃ shs rs, BlockProps.builder_inv 1 (index_block r) idx shs rs) → separated idx ds → StronglySorted (λ a b : entry, c a.1 b.1 < 0) idx →
  (if pending_index_entry r then ∃ ds' d, ds = ds' ++ [d] ∧ length idx = length ds' ∧ pending_handle r = d_handle d else length idx = length ds) →
  last_key r = BlockProps.last_key (all_entries ds) → sorted (all_entries ds) →
  ∃ r' idx' shs rs, (if pending_index_entry r then successor ← FindShortSuccessor (last_key r); add_index_entry successor r else mret r) = Ok r'
    ∧ options r' = options r ∧ sink r' = sink r ∧ closed r' = closed r ∧ BlockProps.builder_inv 1 (index_block r') idx' shs rs ∧ index_of idx' ds.
Proof using Hspec.
  intros Hi Hblocks HX Hidx Hsep Hsi Hp Hlast [Hs Hok]. destruct (pending_index_entry r).
  2:{ destruct Hidx as (shs & rs & Hidx). by exists r, idx, shs, rs. }
  destruct Hp as (ds' & d & -> & Hlen & Hh). pose proof Hblocks as Hbs. rewrite Forall_app, Forall_singleton in Hbs. destruct Hbs as [_ (_ & Hne & _)].
  assert (all_entries (ds' ++ [d]) ≠ []) as Hes.
  { destruct (d_entries d) as [|x l] eqn:Ed; [done|]. intros E. apply (elem_of_nil x). rewrite <-E.
    apply (all_entries_elem _ d); [apply elem_of_app; right; left|rewrite Ed; left]. }
  destruct (last_key_elem _ Hes) as [w Hw]. rewrite Forall_forall in Hok. destruct (Hok _ Hw) as [Hlk _]. cbn [fst] in Hlk.
  destruct (successor_spec _ Hlk) as (succ & Es & Hsok & Hle). rewrite Hlast, Es. cbn [mbind res_bind].
  destruct (add_index_Ok r ds' d idx X succ) as (b & e & shs & rs & -> & Hb & Hsep' & Hsi' & He); try done.
  { intros x Hx. apply (@cmp_trans _ _ (@spec_order _ _ _ Hspec) _ (BlockProps.last_key (all_entries (ds' ++ [d])))); [|done].
    apply (sorted_last _ x Hs), (all_entries_elem _ d); [apply elem_of_app; right; left|done]. }
  eexists _, (idx ++ [e]), shs, rs. split; [done|]. split; [done|]. split; [done|]. split; [done|]. split; [done|]. split; [rewrite !length_app; simpl; lia|done].
Qed.

Lemma Finish_index_Ok (r : Rep (W := W)) ds idx X : options r = opt → sink_ok (sink r) X → fits (all_entries ds) →
  index_interval r = 1 → Forall (data_ok X) ds → zlen X < 2^63 →
  (∃ shs rs, BlockProps.builder_inv 1 (index_block r) idx shs rs) → separated idx ds → StronglySorted (λ a b : entry, c a.1 b.1 < 0) idx →
  (if pending_index_entry r then ∃ ds' d, ds = ds' ++ [d] ∧ length idx = length ds' ∧ pending_handle r = d_handle d else length idx = length ds) →
  last_key r = BlockProps.last_key (all_entries ds) → sorted (all_entries ds) →
  ∃ ih r' idx' more, Finish_index addr r = Ok (ih, r') ∧ closed r' = closed r ∧ sink_ok (sink r') (X ++ more) ∧ zlen more < 2^62 + 100
    ∧ holds (X ++ more) ih idx' ∧ index_of idx' ds.
Proof using HB Hkeys Hspec HS.
  intros Ho Hs Hfits Hi Hblocks HX Hidx Hsep Hsi Hp Hlast Hsorted. unfold Finish_index. rewrite (sink_builder_ok r X Hs).
  destruct (last_index_Ok r ds idx X Hi Hblocks HX Hidx Hsep Hsi Hp Hlast Hsorted) as (r1 & idx1 & shs & rs & -> & Ho1 & Hs1 & Hc1 & Hb1 & Hof).
  cbn [mbind res_bind]. rewrite Ho1, Hs1, Ho. pose proof (block_short _ _ _ (bi_layout _ _ _ _ _ Hb1)) as Hsz.
  pose proof (index_weights _ _ Hof) as Hw. pose proof (blocks_few _ _ Hblocks) as Hfew. destruct (fits_bounds B HB _ _ _ Hfits) as (Hw1 & Hn1 & HK & _ & Hroom).
  assert (zlen idx1 ≤ zlen (all_entries ds)) as Hn by (rewrite (proj1 Hof); lia).
  pose proof (Z.mul_le_mono_nonneg_l _ _ (B + 52) ltac:(lia) Hn). pose proof (Z.mul_nonneg_nonneg (2 * K) (zlen (all_entries ds)) ltac:(lia) ltac:(lia)).
  destruct (WriteBlock_Ok addr 1 ltac:(done) (compression opt) (index_block r1) _ _ _ (sink r) X Hb1 Hs) as (ih & b2 & s & more & -> & _ & Hs' & Hst & Hc & _ & Hmore);
    [unfold kBlockTrailerSize; lia|].
  cbn [mbind res_bind]. eexists ih, _, idx1, more. split; [done|]. split; [done|]. split; [done|]. split; [unfold kBlockTrailerSize in *; lia|].
  split; [|done]. exists shs, rs. split; [apply Hb1|]. by split.
Qed.

(** A table with the entries [es]. *)
Definition table_file (X : list byte) (ds : list dblock) (idx : list entry) (fh : BlockHandle) : Prop :=
  Forall (data_ok X) ds ∧ ascending ds ∧ index_of idx ds ∧ filter_ok X ds fh
  ∧ ∃ body mh ih, X = body ++ footer_bytes (MkFooter mh ih) ∧ handle_ok mh ∧ handle_ok ih
    ∧ Forall (λ d, h_offset (d_handle d) < h_offset mh) ds ∧ holds X mh (meta_entries fh) ∧ holds X ih idx.

Lemma holds_handle X h es : holds X h es → zlen X < ones64 → handle_ok h.
Proof using. intros (shs & rs & _ & Hs & _) Hl. by destruct (stored_handle _ _ _ Hs Hl). Qed.

Lemma table_Finish_Ok es r : building es r → sorted es → fits es →
  ∃ r' ds idx fh, Finish addr r = Ok (OK, r') ∧ es = all_entries ds ∧ closed r' = true ∧ FileSize r' = zlen (wf_contents (file (sink r')))
    ∧ table_file (wf_contents (file (sink r'))) ds idx fh.
Proof using HB Hint Hkeys Hpolicy HS Hspec.
  intros Hbuild Hsorted Hfits. unfold Finish. destruct (building_flushed es r Hbuild Hfits) as (r1 & ds & idx & X & -> & Hb & Hes & Hlast & Hrest).
  cbn [mbind res_bind]. rewrite app_nil_r in Hes. subst es. pose proof Hb as [[Ho Hoi] Hopen Hsink (Hblocks & Hasc & Hlow) _ Hidx Hsep _ Hsi Hpend Hsize _ Hfil].
  rewrite Hopen. cbn [negb c_assert mbind res_bind]. set (r2 := MkRep _ _ _ _ _ _ _ _ _ _ _).
  destruct (Finish_filter_Ok r2 ds X Hsink Hsize Hfil Hfits) as (fh & s3 & m3 & -> & Hs3 & Hl3 & Hf3). cbn [mbind res_bind].
  destruct (Finish_metaindex_Ok (with_sink s3 r2) ds X (X ++ m3) fh Ho Hfil Hs3 ltac:(lia) Hf3) as (mh & s4 & m4 & -> & Hmo & Hs4 & Hl4 & Hm). cbn [mbind res_bind].
  assert (zlen ((X ++ m3) ++ m4) < 2^62 + 2^55) as Hl4' by (rewrite length_app; lia).
  assert (Forall (data_ok ((X ++ m3) ++ m4)) ds) as Hblocks4 by (eapply Forall_impl; [exact Hblocks|]; intros d Hd; by do 2 apply data_ok_app).
  destruct (Finish_index_Ok (with_sink s4 (with_sink s3 r2)) ds idx ((X ++ m3) ++ m4) Ho Hs4 Hfits Hoi Hblocks4 ltac:(lia) Hidx Hsep Hsi) as (ih & r5 & idx' & m5 & -> & Hcl & Hs5 & Hl5 & Hi5 & Hof).
  { cbn. destruct (pending_index_entry r1); [by destruct Hpend|done]. }
  { done. }
  { done. }
  cbn [mbind res_bind]. set (X5 := ((X ++ m3) ++ m4) ++ m5) in *. assert (zlen X5 < ones64 - 48) as Hl by (unfold X5, ones64; rewrite length_app; lia).
  apply (holds_app _ m5) in Hm. fold X5 in Hm. pose proof (holds_handle _ _ _ Hm ltac:(lia)) as Hmh. pose proof (holds_handle _ _ _ Hi5 ltac:(lia)) as Hih.
  unfold Finish_footer. rewrite (sink_builder_ok r5 _ Hs5), Footer_EncodeTo_Ok by done. cbn [mbind res_bind].
  destruct Hs5 as (Hc5 & Ho5 & Hst5). destruct (Append_spec (footer_bytes (MkFooter mh ih)) (file (sink r5))) as (w & -> & Hw).
  change (ok OK) with true. cbn [mbind res_bind builder_status with_sink sink sink_status]. rewrite Hc5 in Hw.
  pose proof (footer_length (MkFooter mh ih)) as Hfl. change kEncodedLength with 48 in Hfl.
  eexists _, ds, idx', fh. split; [done|]. split; [done|]. cbn [closed FileSize sink file offset with_sink]. rewrite Hw. split; [|split].
  - exact Hcl.
  - unfold FileSize. cbn. rewrite length_app, Hfl, Ho5. rewrite u64_small; unfold ones64 in *; lia.
  - split; [by eapply Forall_impl; [exact Hblocks4|]; intros d Hd; do 2 apply data_ok_app|]. split; [done|]. split; [done|].
    split; [by do 3 apply filter_ok_app|]. exists X5, mh, ih. split; [done|]. split; [done|]. split; [done|].
    split; [|split; by apply holds_app]. rewrite Hmo, length_app. eapply Forall_impl; [exact Hlow|]. intros d Hd. cbn in *. lia.
Qed.

(** The whole construction. *)
Lemma build_table_Ok es f : wf_contents f = [] → sorted es → fits es →
  ∃ r ds idx fh, build_table addr opt es f = Ok (OK, r) ∧ es = all_entries ds ∧ closed r = true ∧ FileSize r = zlen (wf_contents (file (sink r)))
    ∧ table_file (wf_contents (file (sink r))) ds idx fh.
Proof using HB Hint Hkeys Hpolicy HS Hspec.
  intros Hf Hs Hfits. unfold build_table. destruct (new_TableBuilder_Ok f Hf) as (r0 & -> & Hb0). cbn [mbind res_bind].
  destruct (add_entries_Ok es [] r0 Hb0 Hs Hfits) as (r1 & -> & Hb1). cbn [mbind res_bind app] in *. by apply table_Finish_Ok.
Qed.
End finish.
