(* ===== verification/Iterator.v ===== *)
(** * Iterators: leveldb include/leveldb/iterator.h, table/iterator.cc, table/iterator_wrapper.h

    The interface of iterators and its laws; iterators with cleanups, the empty iterator, the
    wrapper that caches [Valid] and [key], and the iterators of a block. *)
From stdpp Require Import sorting.
From S2P Require Import Prelude Buffers CLib Order Coding Comparator Status Block BlockProps.

#[local] Open Scope Z_scope.
#[local] Open Scope list_scope.

(** ** The interface

    [T] is the state iterators share, such as a cache; [i_delete] is the destructor. *)
Class Iterator (T I : Type) := {
  i_Valid : I → bool;
  i_SeekToFirst : I → st T I;
  i_SeekToLast : I → st T I;
  i_Seek : list byte → I → st T I;
  i_Next : I → st T I;
  i_Prev : I → st T I;
  i_key : I → res (list byte);
  i_value : I → res (list byte);
  i_status : I → res Status;
  i_delete : I → st T unit }.

(** How many entries are below a target. *)
Fixpoint rank (c : list byte → list byte → Z) (target : list byte) (es : list entry) : nat :=
  match es with [] => 0 | e :: es => if c e.1 target <? 0 then S (rank c target es) else 0 end.

(** The position before [i]; before the first entry, the iterator is not valid. *)
Definition prev_pos (n i : nat) : nat := match i with O => n | S i => i end.

(** What iterators promise. [pos it i]: at entry [i] of [es], or not valid where [i] is the number of entries.
    [owns it] are the resources it gives back when it is deleted, and [P] says which resources are in use. *)
Section spec.
Context {T R : Type} (P : list R → T → Prop) (okk : list byte → Prop) (c : list byte → list byte → Z).

Definition moves {I} (pos : I → nat → Prop) (owns : I → list R) (it : I) (m : st T I) (i : nat) : Prop :=
  ∀ frame t, P (owns it ++ frame) t → wp m (λ it' t', pos it' i ∧ P (owns it' ++ frame) t') t.

Class IteratorSpec {I} `{Iterator T I} (es : list entry) (pos : I → nat → Prop) (owns : I → list R) : Prop := {
  pos_valid it i : pos it i → (i ≤ length es)%nat ∧ i_Valid it = bool_decide (i < length es)%nat ∧ i_status it = Ok OK;
  pos_entry it i k v : pos it i → es !! i = Some (k, v) → i_key it = Ok k ∧ i_value it = Ok v;
  SeekToFirst_spec it i : pos it i → moves pos owns it (i_SeekToFirst it) 0;
  SeekToLast_spec it i : pos it i → moves pos owns it (i_SeekToLast it) (pred (length es));
  Seek_spec it i target : pos it i → okk target → moves pos owns it (i_Seek target it) (rank c target es);
  Next_spec it i : pos it i → (i < length es)%nat → moves pos owns it (i_Next it) (S i);
  Prev_spec it i : pos it i → (i < length es)%nat → moves pos owns it (i_Prev it) (prev_pos (length es) i);
  delete_spec it i frame t : pos it i → P (owns it ++ frame) t → wp (i_delete it) (λ _ t', P frame t') t }.
End spec.
Arguments pos_valid {T R P okk c I H es pos owns _} it i _.
Arguments pos_entry {T R P okk c I H es pos owns _} it i k v _ _.
Arguments SeekToFirst_spec {T R P okk c I H es pos owns _} it i _.
Arguments SeekToLast_spec {T R P okk c I H es pos owns _} it i _.
Arguments Seek_spec {T R P okk c I H es pos owns _} it i target _ _.
Arguments Next_spec {T R P okk c I H es pos owns _} it i _ _.
Arguments Prev_spec {T R P okk c I H es pos owns _} it i _ _.
Arguments delete_spec {T R P okk c I H es pos owns _} it i frame t _ _.

(** ** Cleanups *)

Section cleanup.
Context {T I Cl : Type} `{Iterator T I} (run_cleanup : Cl → st T unit).

(** An iterator and its cleanups: the first one, then the others from the last to the second. *)
Record cleaned := Cleaned { cl_iter : I; cleanup_ : list Cl }.

Definition RegisterCleanup (f : Cl) (it : cleaned) : cleaned :=
  Cleaned (cl_iter it) (match cleanup_ it with [] => [f] | first :: next => first :: f :: next end).

Fixpoint run_cleanups (fs : list Cl) : st T unit :=
  match fs with [] => mret tt | f :: fs => _ ← run_cleanup f; run_cleanups fs end.

Definition on_iter (f : I → st T I) (it : cleaned) : st T cleaned := i ← f (cl_iter it); mret (Cleaned i (cleanup_ it)).

(** The destructor of the class, then the one of [Iterator]. *)
#[export] Instance cleaned_iterator : Iterator T cleaned := {|
  i_Valid it := i_Valid (cl_iter it);
  i_SeekToFirst := on_iter i_SeekToFirst;
  i_SeekToLast := on_iter i_SeekToLast;
  i_Seek target := on_iter (i_Seek target);
  i_Next := on_iter i_Next;
  i_Prev := on_iter i_Prev;
  i_key it := i_key (cl_iter it);
  i_value it := i_value (cl_iter it);
  i_status it := i_status (cl_iter it);
  i_delete it := _ ← i_delete (cl_iter it); run_cleanups (cleanup_ it) |}.
End cleanup.
Arguments cleaned : clear implicits.

(** ** IteratorWrapper *)

Section wrapper.
Context {T I : Type} `{Iterator T I}.

(** [iter_] may be NULL; [key_] is not initialised until an iterator is valid. *)
Record IteratorWrapper := MkWrapper { iter_ : option I; valid_ : bool; wkey_ : list byte }.

Definition new_IteratorWrapper : IteratorWrapper := MkWrapper None false [].

Definition Update (it : I) (w : IteratorWrapper) : res IteratorWrapper :=
  let valid := i_Valid it in
  if valid then k ← i_key it; mret (MkWrapper (Some it) valid k) else mret (MkWrapper (Some it) valid (wkey_ w)).

Definition Wrapper_Set (iter : option I) (w : IteratorWrapper) : st T IteratorWrapper :=
  _ ← match iter_ w with None => mret tt | Some old => i_delete old end;
  match iter with
  | None => mret (MkWrapper None false (wkey_ w))
  | Some it => lift (Update it w)
  end.

Definition Wrapper_op (f : I → st T I) (w : IteratorWrapper) : st T IteratorWrapper :=
  match iter_ w with None => lift (Err AssertFail) | Some it => it ← f it; lift (Update it w) end.

#[export] Instance wrapper_iterator : Iterator T IteratorWrapper := {|
  i_Valid := valid_;
  i_SeekToFirst := Wrapper_op i_SeekToFirst;
  i_SeekToLast := Wrapper_op i_SeekToLast;
  i_Seek target := Wrapper_op (i_Seek target);
  i_Next := Wrapper_op i_Next;
  i_Prev := Wrapper_op i_Prev;
  i_key w := _ ← c_assert (valid_ w); mret (wkey_ w);
  i_value w := _ ← c_assert (valid_ w); it ← of_option (iter_ w); i_value it;
  i_status w := match iter_ w with None => Err AssertFail | Some it => i_status it end;
  i_delete w := match iter_ w with None => mret tt | Some it => i_delete it end |}.
End wrapper.
Arguments IteratorWrapper : clear implicits.

(** ** The iterators of a block, and the empty iterator of table/iterator.cc *)

Section block.
Context {T : Type} {comparator : Comparator}.

Definition on_block (nothing : st T block_iterator) (f : Iter → res Iter) (it : block_iterator) : st T block_iterator :=
  match it with BlockIterator it => it ← lift (f it); mret (BlockIterator it) | _ => nothing end.

#[export] Instance block_iterator_iterator : Iterator T block_iterator := {|
  i_Valid it := match it with BlockIterator it => Valid it | _ => false end;
  i_SeekToFirst it := on_block (mret it) SeekToFirst it;
  i_SeekToLast it := on_block (mret it) SeekToLast it;
  i_Seek target it := on_block (mret it) (Seek target) it;
  i_Next := on_block (lift (Err AssertFail)) Next;
  i_Prev := on_block (lift (Err AssertFail)) Prev;
  i_key it := match it with BlockIterator it => key it | _ => Err AssertFail end;
  i_value it := match it with BlockIterator it => value it | _ => Err AssertFail end;
  i_status it := mret (match it with BlockIterator it => status it | EmptyIterator => OK | ErrorIterator s => s end);
  i_delete it := mret tt |}.
End block.

(** ** Loops of clients *)

Section loops.
Context {T I : Type} `{Iterator T I}.

(** [for (; iter->Valid(); iter->Next()) ...], or [Prev]: the entries, and the iterator after them. *)
Fixpoint scan (step : I → st T I) (fuel : nat) (it : I) : st T (list entry * I) :=
  match fuel with
  | O => lift (Err Diverge)
  | S fuel =>
      if i_Valid it then
        k ← lift (i_key it); v ← lift (i_value it);
        it ← step it;
        '(rest, it) ← scan step fuel it;
        mret ((k, v) :: rest, it)
      else mret ([], it)
  end.

Definition scan_forward (fuel : nat) (it : I) : st T (list entry * I) := it ← i_SeekToFirst it; scan i_Next fuel it.
Definition scan_backward (fuel : nat) (it : I) : st T (list entry * I) := it ← i_SeekToLast it; scan i_Prev fuel it.

(** A client moves the iterator about, and looks at it after each move; it moves on from an entry only. *)
Inductive move := MFirst | MLast | MSeek (target : list byte) | MNext | MPrev.

Definition make_move (m : move) (it : I) : st T I :=
  match m with
  | MFirst => i_SeekToFirst it
  | MLast => i_SeekToLast it
  | MSeek target => i_Seek target it
  | MNext => if i_Valid it then i_Next it else mret it
  | MPrev => if i_Valid it then i_Prev it else mret it
  end.

Definition look (it : I) : res (option entry) :=
  if i_Valid it then k ← i_key it; v ← i_value it; mret (Some (k, v)) else mret None.

Fixpoint tour (ms : list move) (it : I) : st T (list (option entry) * I) :=
  match ms with
  | [] => mret ([], it)
  | m :: ms => it ← make_move m it; e ← lift (look it); '(rest, it) ← tour ms it; mret (e :: rest, it)
  end.
End loops.

(** The same moves on a list of entries. *)
Definition move_pos (c : list byte → list byte → Z) (es : list entry) (m : move) (i : nat) : nat :=
  match m with
  | MFirst => 0
  | MLast => pred (length es)
  | MSeek target => rank c target es
  | MNext => if decide (i < length es)%nat then S i else i
  | MPrev => if decide (i < length es)%nat then prev_pos (length es) i else i
  end.
Fixpoint tour_of (c : list byte → list byte → Z) (es : list entry) (ms : list move) (i : nat) : list (option entry) :=
  match ms with [] => [] | m :: ms => let i := move_pos c es m i in es !! i :: tour_of c es ms i end.

(** Moves that start somewhere, and to targets that can be compared. *)
Definition starts (ms : list move) : Prop := match ms with MNext :: _ | MPrev :: _ => False | _ => True end.
Definition move_ok (okk : list byte → Prop) (m : move) : Prop := match m with MSeek target => okk target | _ => True end.
