(* ===== verification/IterProps.v ===== *)
(** * What iterators guarantee

    Scans over any iterator that keeps its laws; wrappers, iterators with cleanups and the
    iterators of blocks keep them. *)
From stdpp Require Import sorting.
From S2P Require Import Prelude Buffers CLib Order Coding Comparator Status Block BlockProps Iterator.

#[local] Open Scope Z_scope.
#[local] Open Scope list_scope.

(** ** The rank of a key *)

Section rank.
Context {okk : list byte → Prop} {c : list byte → list byte → Z}.

Lemma rank_le target es : (rank c target es ≤ length es)%nat.
Proof using. induction es as [|e es IH]; [done|]. cbn [rank length]. case_match; lia. Qed.

Lemma rank_unique target es m : (m ≤ length es)%nat → (∀ i e, (i < m)%nat → es !! i = Some e → c e.1 target < 0) →
  (∀ e, es !! m = Some e → 0 ≤ c e.1 target) → rank c target es = m.
Proof using.
  revert m. induction es as [|e es IH]; intros m Hm Hlt Hge; cbn [rank length] in *; [lia|]. destruct m as [|m].
  - specialize (Hge e eq_refl). by rewrite (proj2 (Z.ltb_ge _ _)).
  - rewrite (proj2 (Z.ltb_lt _ _)) by by apply (Hlt 0%nat); [lia|]. f_equal. apply IH; [lia| |done].
    intros i e' Hi He'. apply (Hlt (S i)); [lia|done].
Qed.

Lemma rank_below target es i e : (i < rank c target es)%nat → es !! i = Some e → c e.1 target < 0.
Proof using.
  revert i. induction es as [|e' es IH]; intros i; [done|]. cbn [rank]. destruct (Z.ltb_spec (c e'.1 target) 0) as [Hlt|]; [|lia].
  destruct i as [|i]; intros Hi He; [by injection He as <-|]. apply (IH i); [lia|done].
Qed.

Lemma rank_at target es e : es !! rank c target es = Some e → 0 ≤ c e.1 target.
Proof using.
  induction es as [|e' es IH]; [done|]. cbn [rank]. destruct (Z.ltb_spec (c e'.1 target) 0) as [Hlt|Hge]; [done|]. intros He. by injection He as <-.
Qed.

Lemma find_rank target es : List.find (λ e : entry, 0 <=? c e.1 target) es = es !! rank c target es.
Proof using.
  induction es as [|e es IH]; [done|]. cbn [List.find rank]. destruct (Z.ltb_spec (c e.1 target) 0) as [Hlt|Hge].
  - by rewrite (proj2 (Z.leb_gt _ _)).
  - by rewrite (proj2 (Z.leb_le _ _)).
Qed.

(** In sorted entries, those from the rank on are the ones that are not below the target. *)
Lemma filter_rank (Hord : CmpOrder c) target es : StronglySorted (λ a b : entry, c a.1 b.1 < 0) es →
  List.filter (λ e : entry, 0 <=? c e.1 target) es = drop (rank c target es) es.
Proof using.
  induction 1 as [|e es Hs IH He]; [done|]. cbn [List.filter rank]. destruct (Z.ltb_spec (c e.1 target) 0) as [Hlt|Hge].
  - by rewrite (proj2 (Z.leb_gt _ _)).
  - rewrite (proj2 (Z.leb_le _ _)) by done. cbn [drop]. f_equal. clear IH Hs. induction He as [|x es Hx _ IH]; [done|].
    cbn [List.filter]. rewrite (proj2 (Z.leb_le _ _)); [by rewrite IH|]. pose proof (@cmp_anti _ c Hord e.1 target). pose proof (@cmp_anti _ c Hord x.1 target).
    pose proof (@cmp_le_lt _ c Hord target e.1 x.1). cbn in Hx. lia.
Qed.
End rank.

(** ** Scans *)

Section scans.
Context {T R : Type} {P : list R → T → Prop} {okk : list byte → Prop} {c : list byte → list byte → Z}.
Context {I : Type} `{HI : Iterator T I} {es : list entry} {pos : I → nat → Prop} {owns : I → list R}.
Context {Hspec : IteratorSpec P okk c es pos owns}.

#[local] Abbreviation n := (length es).

(** After a scan: the iterator is not valid, and what it holds is accounted for. *)
Definition scanned (l : list entry) (frame : list R) (r : list entry * I) (t : T) : Prop :=
  r.1 = l ∧ pos r.2 n ∧ P (owns r.2 ++ frame) t.

Lemma scan_step (step : I → st T I) fuel it i e frame t Q : pos it i → es !! i = Some e → P (owns it ++ frame) t →
  wp (step it) (λ it' t', wp (scan step fuel it') (λ r t', Q (e :: r.1, r.2) t') t') t → wp (scan step (S fuel) it) Q t.
Proof using Hspec.
  intros Hp He HP Hstep. destruct e as [k v]. cbn [scan]. destruct (pos_valid it i Hp) as (_ & -> & _).
  rewrite bool_decide_true by by eapply lookup_lt_Some. destruct (pos_entry it i k v Hp He) as [Hk Hv].
  apply wp_bind, (wp_lift _ k); [done|]. apply wp_bind, (wp_lift _ v); [done|]. apply wp_bind. apply (wp_mono _ _ _ _ Hstep).
  intros it' t' Hscan. apply wp_bind. apply (wp_mono _ _ _ _ Hscan). by intros [l it''] t'' HQ.
Qed.

Lemma scan_end (step : I → st T I) fuel it frame t : pos it n → P (owns it ++ frame) t → wp (scan step (S fuel) it) (scanned [] frame) t.
Proof using Hspec.
  intros Hp HP. cbn [scan]. destruct (pos_valid it n Hp) as (_ & -> & _). rewrite bool_decide_false by lia. by apply wp_ret.
Qed.

Lemma scan_Next fuel : ∀ it i frame t, pos it i → P (owns it ++ frame) t → (n - i < fuel)%nat →
  wp (scan i_Next fuel it) (scanned (drop i es) frame) t.
Proof using Hspec.
  induction fuel as [|fuel IH]; intros it i frame t Hp HP Hf; [lia|]. destruct (pos_valid it i Hp) as (Hi & _ & _).
  destruct (decide (i = n)) as [->|Hne]; [rewrite drop_ge by done; by apply scan_end|].
  destruct (lookup_lt_is_Some_2 es i) as [e He]; [lia|]. apply (scan_step _ _ _ i e frame); [done|done|done|].
  apply (wp_mono _ _ _ _ (Next_spec it i Hp ltac:(lia) frame t HP)). intros it' t' [Hp' HP'].
  apply (wp_mono _ _ _ _ (IH it' (S i) frame t' Hp' HP' ltac:(lia))). intros r t'' (Hr & Hpr & HPr).
  split; [|done]. cbn. by rewrite Hr, (drop_S es e i He).
Qed.

Lemma scan_Prev fuel : ∀ it i frame t, pos it i → P (owns it ++ frame) t → (i < n)%nat → (S i < fuel)%nat →
  wp (scan i_Prev fuel it) (scanned (reverse (take (S i) es)) frame) t.
Proof using Hspec.
  induction fuel as [|fuel IH]; intros it i frame t Hp HP Hi Hf; [lia|]. destruct (lookup_lt_is_Some_2 es i Hi) as [e He].
  apply (scan_step _ _ _ i e frame); [done|done|done|].
  apply (wp_mono _ _ _ _ (Prev_spec it i Hp Hi frame t HP)). intros it' t' [Hp' HP'].
  destruct i as [|i]; cbn [prev_pos] in Hp'.
  - destruct fuel as [|fuel]; [lia|]. apply (wp_mono _ _ _ _ (scan_end _ fuel it' frame t' Hp' HP')). intros r t'' (Hr & Hpr & HPr).
    split; [|done]. cbn. rewrite Hr. destruct es as [|e' l]; [done|]. cbn in *. by simplify_eq.
  - apply (wp_mono _ _ _ _ (IH it' i frame t' Hp' HP' ltac:(lia) ltac:(lia))). intros r t'' (Hr & Hpr & HPr).
    split; [|done]. cbn [fst]. by rewrite Hr, (take_S_r es (S i) e He), reverse_app.
Qed.

Lemma scan_forward_Ok fuel it i frame t : pos it i → P (owns it ++ frame) t → (n < fuel)%nat →
  wp (scan_forward fuel it) (scanned es frame) t.
Proof using Hspec.
  intros Hp HP Hf. unfold scan_forward. apply wp_bind. apply (wp_mono _ _ _ _ (SeekToFirst_spec it i Hp frame t HP)).
  intros it' t' [Hp' HP']. apply (scan_Next fuel it' 0 frame); [done|done|lia].
Qed.

Lemma scan_backward_Ok fuel it i frame t : pos it i → P (owns it ++ frame) t → (n < fuel)%nat →
  wp (scan_backward fuel it) (scanned (reverse es) frame) t.
Proof using Hspec.
  intros Hp HP Hf. unfold scan_backward. apply wp_bind. apply (wp_mono _ _ _ _ (SeekToLast_spec it i Hp frame t HP)).
  intros it' t' [Hp' HP']. destruct (decide (n = 0)%nat) as [En|Hne].
  - rewrite En in *. destruct fuel as [|fuel]; [lia|]. replace (reverse es) with (@nil entry) by by destruct es.
    apply (scan_end _ fuel it' frame); [by rewrite En|done].
  - replace (reverse es) with (reverse (take (S (pred n)) es)) by (rewrite take_ge by lia; done).
    apply (scan_Prev fuel it' (pred n) frame); [done|done|lia|lia].
Qed.

Lemma make_move_Ok m it i : pos it i → move_ok okk m → moves P pos owns it (make_move m it) (move_pos c es m i).
Proof using Hspec.
  intros Hp Hm. destruct (pos_valid it i Hp) as (Hi & Hv & _). destruct m as [| |target| |]; cbn [make_move move_pos move_ok] in *.
  - by apply (SeekToFirst_spec it i).
  - by apply (SeekToLast_spec it i).
  - by apply (Seek_spec it i).
  - rewrite Hv. destruct (decide (i < n)%nat) as [Hlt|Hge]; [rewrite bool_decide_true by done; by apply Next_spec|]. rewrite bool_decide_false by done. intros frame t HP. by apply wp_ret.
  - rewrite Hv. destruct (decide (i < n)%nat) as [Hlt|Hge]; [rewrite bool_decide_true by done; by apply Prev_spec|]. rewrite bool_decide_false by done. intros frame t HP. by apply wp_ret.
Qed.

Lemma look_Ok it i : pos it i → look (T := T) it = Ok (es !! i).
Proof using Hspec.
  intros Hp. destruct (pos_valid it i Hp) as (Hi & Hv & _). unfold look. rewrite Hv. destruct (es !! i) as [[k v]|] eqn:He.
  - rewrite bool_decide_true by by eapply lookup_lt_Some. destruct (pos_entry it i k v Hp He) as [-> ->]. done.
  - apply lookup_ge_None in He. by rewrite bool_decide_false by lia.
Qed.

(** An iterator that keeps its laws is a position in its list. *)
Lemma tour_Ok ms : Forall (move_ok okk) ms → ∀ it i frame t, pos it i → P (owns it ++ frame) t →
  wp (tour ms it) (λ r t', r.1 = tour_of c es ms i ∧ ∃ i', pos r.2 i' ∧ P (owns r.2 ++ frame) t') t.
Proof using Hspec.
  induction 1 as [|m ms Hm _ IH]; intros it i frame t Hp HP; cbn [tour tour_of]; [apply wp_ret; split; [done|by exists i]|].
  apply wp_bind. apply (wp_mono _ _ _ _ (make_move_Ok m it i Hp Hm frame t HP)). intros it1 t1 [Hp1 HP1].
  apply wp_bind, (wp_lift _ _ _ _ (look_Ok it1 _ Hp1)), wp_bind. apply (wp_mono _ _ _ _ (IH it1 _ frame t1 Hp1 HP1)).
  intros [l it2] t2 [Hl Hit2]. apply wp_ret. cbn [fst] in Hl. by rewrite <-Hl.
Qed.

Lemma tour_start ms i j : starts ms → tour_of c es ms i = tour_of c es ms j.
Proof using. clear. by destruct ms as [|[] ms]. Qed.
End scans.

(** ** Iterators with cleanups *)

Section cleaned.
Context {T R : Type} {P : list R → T → Prop} {okk : list byte → Prop} {c : list byte → list byte → Z}.
Context {I : Type} `{HI : Iterator T I} {es : list entry} {pos : I → nat → Prop} {owns : I → list R}.
Context {Hspec : IteratorSpec P okk c es pos owns}.
Context {Cl : Type} (run_cleanup : Cl → st T unit) (gives : Cl → list R).
Context (Hgives : ∀ f frame t, P (gives f ++ frame) t → wp (run_cleanup f) (λ _ t', P frame t') t).

Definition cleaned_pos (it : cleaned I Cl) (i : nat) : Prop := pos (cl_iter it) i.
Definition cleaned_owns (it : cleaned I Cl) : list R := owns (cl_iter it) ++ concat (gives <$> cleanup_ it).

Lemma on_iter_moves f it i : moves P pos owns (cl_iter it) (f (cl_iter it)) i → moves P cleaned_pos cleaned_owns it (on_iter f it) i.
Proof using.
  clear. intros Hf frame t HP. unfold cleaned_owns in *. rewrite <-app_assoc in HP. unfold on_iter. apply wp_bind.
  apply (wp_mono _ _ _ _ (Hf _ t HP)). intros it' t' [Hp HP']. apply wp_ret. cbn. rewrite <-app_assoc. by split.
Qed.

Lemma run_cleanups_Ok fs frame : ∀ t, P (concat (gives <$> fs) ++ frame) t → wp (run_cleanups run_cleanup fs) (λ _ t', P frame t') t.
Proof using Hgives.
  clear Hspec. induction fs as [|f fs IH]; intros t HP; [done|]. cbn [run_cleanups fmap list_fmap concat] in *. rewrite <-app_assoc in HP.
  apply wp_bind. apply (wp_mono _ _ _ _ (Hgives _ _ _ HP)). intros _ t'. apply IH.
Qed.

#[export] Instance cleaned_spec : @IteratorSpec T R P okk c (cleaned I Cl) (cleaned_iterator run_cleanup) es cleaned_pos cleaned_owns.
Proof using Hspec Hgives.
  split; unfold cleaned_pos.
  - intros it i. apply (pos_valid (cl_iter it)).
  - intros it i k v. apply (pos_entry (cl_iter it)).
  - intros it i Hp. apply on_iter_moves. by apply (SeekToFirst_spec _ i).
  - intros it i Hp. apply on_iter_moves. by apply (SeekToLast_spec _ i).
  - intros it i target Hp Ht. by apply (on_iter_moves (i_Seek target)), (Seek_spec _ i).
  - intros it i Hp Hi. apply on_iter_moves. by apply Next_spec.
  - intros it i Hp Hi. apply on_iter_moves. by apply Prev_spec.
  - intros it i frame t Hp HP. unfold cleaned_owns in HP. rewrite <-app_assoc in HP. apply wp_bind.
    apply (wp_mono _ _ _ _ (delete_spec (cl_iter it) i _ t Hp HP)). intros _ t'. apply run_cleanups_Ok.
Qed.
End cleaned.

(** ** Wrappers *)

Section wrapper.
Context {T R : Type} {P : list R → T → Prop} {okk : list byte → Prop} {c : list byte → list byte → Z}.
Context {I : Type} `{HI : Iterator T I} {es : list entry} {pos : I → nat → Prop} {owns : I → list R}.
Context {Hspec : IteratorSpec P okk c es pos owns}.

(** The wrapper knows what its iterator answers. *)
Definition wrapper_pos (w : IteratorWrapper I) (i : nat) : Prop :=
  ∃ it, iter_ w = Some it ∧ pos it i ∧ valid_ w = i_Valid it ∧ (i_Valid it = true → i_key it = Ok (wkey_ w)).
Definition wrapper_owns (w : IteratorWrapper I) : list R := match iter_ w with Some it => owns it | None => [] end.

Lemma Update_Ok it i w : pos it i → ∃ w', Update it w = Ok w' ∧ wrapper_pos w' i ∧ iter_ w' = Some it.
Proof using Hspec.
  intros Hp. destruct (pos_valid it i Hp) as (Hi & Hv & _). unfold Update. destruct (i_Valid it) eqn:Ev.
  - symmetry in Hv. apply bool_decide_eq_true in Hv. destruct (lookup_lt_is_Some_2 es i Hv) as [[k v] He]. destruct (pos_entry it i k v Hp He) as [Hk _].
    rewrite Hk. cbn [mbind res_bind]. eexists. split; [done|]. split; [|done]. exists it. cbn. by rewrite Ev.
  - eexists. split; [done|]. split; [|done]. exists it. cbn. by rewrite Ev.
Qed.

Lemma Wrapper_op_moves f w i j : wrapper_pos w i → (∀ it, pos it i → moves P pos owns it (f it) j) → moves P wrapper_pos wrapper_owns w (Wrapper_op f w) j.
Proof using Hspec.
  intros (it & Hit & Hp & _) Hf frame t HP. unfold Wrapper_op, wrapper_owns in *. rewrite Hit in *. apply wp_bind.
  apply (wp_mono _ _ _ _ (Hf it Hp frame t HP)). intros it' t' [Hp' HP']. destruct (Update_Ok it' j w Hp') as (w' & E & Hw' & Ei).
  apply (wp_lift _ w'); [done|]. by rewrite Ei.
Qed.

Lemma Wrapper_Set_Ok it i w frame t : iter_ w = None → pos it i → P (owns it ++ frame) t →
  wp (Wrapper_Set (Some it) w) (λ w' t', wrapper_pos w' i ∧ P (wrapper_owns w' ++ frame) t') t.
Proof using Hspec.
  intros Hw Hp HP. unfold Wrapper_Set. rewrite Hw. apply wp_bind, wp_ret. destruct (Update_Ok it i w Hp) as (w' & E & Hw' & Ei).
  apply (wp_lift _ w'); [done|]. unfold wrapper_owns. by rewrite Ei.
Qed.

#[export] Instance wrapper_spec : @IteratorSpec T R P okk c (IteratorWrapper I) wrapper_iterator es wrapper_pos wrapper_owns.
Proof using Hspec.
  split.
  - intros w i (it & Hit & Hp & Hv & _). destruct (pos_valid it i Hp) as (Hi & Hv' & Hs). cbn. rewrite Hit, Hv. by split.
  - intros w i k v (it & Hit & Hp & Hv & Hk) He. destruct (pos_entry it i k v Hp He) as [Ek Ev]. destruct (pos_valid it i Hp) as (_ & Hv' & _).
    rewrite bool_decide_true in Hv' by by eapply lookup_lt_Some. cbn. rewrite Hv, Hit, Hv'. cbn. specialize (Hk Hv'). rewrite Ek in Hk. by injection Hk as <-.
  - intros w i Hp. apply (Wrapper_op_moves _ w i); [done|]. intros it Hit. by apply (SeekToFirst_spec it i).
  - intros w i Hp. apply (Wrapper_op_moves _ w i); [done|]. intros it Hit. by apply (SeekToLast_spec it i).
  - intros w i target Hp Ht. apply (Wrapper_op_moves _ w i); [done|]. intros it Hit. by apply (Seek_spec it i).
  - intros w i Hp Hi. apply (Wrapper_op_moves _ w i); [done|]. intros it Hit. by apply Next_spec.
  - intros w i Hp Hi. apply (Wrapper_op_moves _ w i); [done|]. intros it Hit. by apply Prev_spec.
  - intros w i frame t (it & Hit & Hp & _) HP. unfold wrapper_owns in HP. cbn. rewrite Hit in *. by apply (delete_spec it i).
Qed.
End wrapper.

(** ** Iterators of blocks *)

Section block.
Context {T R : Type} (P : list R → T → Prop).
Context {C : Comparator} {okk : list byte → Prop} {c : list byte → list byte → Z} {Hspec : ComparatorSpec C okk c}.

Definition block_pos (es : list entry) (it : block_iterator) (i : nat) : Prop :=
  ∃ b shs rs, it = BlockIterator b ∧ layout es shs rs ∧ zlen (block_of es shs rs) < 2^32 ∧ at_or_end es shs rs b i.
Definition block_owns (it : block_iterator) : list R := [].

Lemma on_block_moves es b shs rs i j f : layout es shs rs → zlen (block_of es shs rs) < 2^32 → at_or_end es shs rs b i →
  (∃ b', f b = Ok b' ∧ at_or_end es shs rs b' j) →
  ∀ nothing, moves P (block_pos es) block_owns (BlockIterator b) (on_block (T := T) nothing f (BlockIterator b)) j.
Proof using.
  clear. intros Hl Hs Ha (b' & Ef & Ha') nothing frame t HP. cbn [on_block]. apply wp_bind, (wp_lift _ b'); [done|]. apply wp_ret.
  split; [|done]. by exists b', shs, rs.
Qed.

Lemma at_or_end_ok es shs rs b i : at_or_end es shs rs b i → it_ok es shs rs b.
Proof using. clear. by intros [(_ & Ha & _)|(_ & Ha & _)]. Qed.

#[export] Instance block_spec es : StronglySorted (λ a b : entry, c a.1 b.1 < 0) es → Forall (λ e : entry, okk e.1) es →
  IteratorSpec P okk c es (block_pos es) block_owns.
Proof using Hspec.
  intros Hsorted Hokk. split.
  - intros it i (b & shs & rs & -> & Hl & Hs & Ha). pose proof (at_or_end_ok _ _ _ _ _ Ha) as (_ & _ & _ & Hst). cbn. unfold status. rewrite Hst.
    destruct Ha as [[Hi Ha]|[-> Ha]]; [destruct (at_entry_valid es shs rs Hl Hs b i Ha) as [-> _]|rewrite (at_end_invalid _ _ _ _ Ha)].
    + by rewrite bool_decide_true by done; split; [lia|].
    + by rewrite bool_decide_false by lia.
  - intros it i k v (b & shs & rs & -> & Hl & Hs & Ha) He. pose proof (lookup_lt_Some _ _ _ He) as Hi.
    destruct Ha as [[_ Ha]|[-> _]]; [|lia]. by apply (at_entry_read es shs rs Hl Hs b i).
  - intros it i (b & shs & rs & -> & Hl & Hs & Ha). apply (on_block_moves es b shs rs i); [done|done|done|].
    by apply (SeekToFirst_Ok es shs rs Hl Hs), (at_or_end_ok _ _ _ _ i).
  - intros it i (b & shs & rs & -> & Hl & Hs & Ha). apply (on_block_moves es b shs rs i); [done|done|done|].
    destruct (SeekToLast_Ok es shs rs Hl Hs b (at_or_end_ok _ _ _ _ i Ha)) as (b' & -> & [[Hn Hb]|[Hn Hb]]); exists b'; (split; [done|]).
    + left. split; [lia|]. by replace (pred (length es)) with (length es - 1)%nat by lia.
    + right. split; [by rewrite Hn|done].
  - intros it i target (b & shs & rs & -> & Hl & Hs & Ha) Ht. apply (on_block_moves es b shs rs i _ (Seek target)); [done|done|done|].
    destruct (Seek_Ok es shs rs Hl Hs Hsorted Hokk target b (at_or_end_ok _ _ _ _ i Ha) Ht) as (b' & m & -> & Hm & Hb & Hge). exists b'. split; [done|].
    rewrite (rank_unique target es m); [done| | |].
    + destruct Hm as [[? _]|[-> _]]; lia.
    + intros i' [k v] Hi He. by apply (Hb i' k v).
    + intros [k v] He. by apply (Hge k v).
  - intros it i (b & shs & rs & -> & Hl & Hs & Ha) Hi. apply (on_block_moves es b shs rs i); [done|done|done|].
    destruct Ha as [[_ Ha]|[-> _]]; [|lia]. by apply (Next_Ok es shs rs Hl Hs).
  - intros it i (b & shs & rs & -> & Hl & Hs & Ha) Hi. apply (on_block_moves es b shs rs i); [done|done|done|].
    destruct Ha as [[_ Ha]|[-> _]]; [|lia]. destruct (Prev_Ok es shs rs Hl Hs b i Ha) as (b' & -> & Hb). exists b'. split; [done|].
    destruct i as [|i]; cbn [prev_pos]; [by right|left]. split; [lia|done].
  - intros it i frame t _ HP. done.
Qed.
End block.
