(* ===== verification/TwoLevel.v ===== *)
(** * Two-level iterators: leveldb table/two_level_iterator.cc

    An iterator over an index whose values a function turns into iterators over data; the
    two-level iterator visits the data of the whole index, skipping what is empty. *)
From stdpp Require Import sorting.
From S2P Require Import Prelude Buffers CLib Order Coding Comparator Status Block BlockProps Iterator.

#[local] Open Scope Z_scope.
#[local] Open Scope list_scope.

Section two_level.
Context {T I J : Type} `{Iterator T I} `{Iterator T J}.
(** [block_function_] with its argument and the options; how many rounds the loops that skip empty
    data may take. *)
Context (block_function_ : list byte → st T J) (fuel : nat).

Record TwoLevelIterator := MkTwoLevel {
  tl_status_ : Status; index_iter_ : IteratorWrapper I; data_iter_ : IteratorWrapper J; data_block_handle_ : list byte }.

Definition new_TwoLevelIterator (index_iter : I) : st T TwoLevelIterator :=
  index ← Wrapper_Set (Some index_iter) new_IteratorWrapper;
  data ← Wrapper_Set None new_IteratorWrapper;
  mret (MkTwoLevel OK index data []).

Definition with_index (w : IteratorWrapper I) (it : TwoLevelIterator) : TwoLevelIterator :=
  MkTwoLevel (tl_status_ it) w (data_iter_ it) (data_block_handle_ it).
Definition with_data (w : IteratorWrapper J) (it : TwoLevelIterator) : TwoLevelIterator :=
  MkTwoLevel (tl_status_ it) (index_iter_ it) w (data_block_handle_ it).
Definition with_handle (h : list byte) (it : TwoLevelIterator) : TwoLevelIterator :=
  MkTwoLevel (tl_status_ it) (index_iter_ it) (data_iter_ it) h.

(** [data_iter_.iter() != NULL]. *)
Definition has_data (it : TwoLevelIterator) : bool := match iter_ (data_iter_ it) with None => false | Some _ => true end.

Definition SaveError (s : Status) (it : TwoLevelIterator) : TwoLevelIterator :=
  MkTwoLevel (if ok (tl_status_ it) && negb (ok s) then s else tl_status_ it) (index_iter_ it) (data_iter_ it) (data_block_handle_ it).

Definition SetDataIterator (data_iter : option J) (it : TwoLevelIterator) : st T TwoLevelIterator :=
  it ← (if has_data it then s ← lift (i_status (data_iter_ it)); mret (SaveError s it) else mret it);
  w ← Wrapper_Set data_iter (data_iter_ it);
  mret (with_data w it).

Definition InitDataBlock (it : TwoLevelIterator) : st T TwoLevelIterator :=
  if negb (i_Valid (index_iter_ it)) then SetDataIterator None it
  else
    handle ← lift (i_value (index_iter_ it));
    same ← (if has_data it then r ← lift (Slice_compare handle (data_block_handle_ it)); mret (r =? 0) else mret false);
    if same : bool then mret it
    else
      iter ← block_function_ handle;
      SetDataIterator (Some iter) (with_handle handle it).

(** [if (data_iter_.iter() != NULL) data_iter_.f()]. *)
Definition on_data (f : IteratorWrapper J → st T (IteratorWrapper J)) (it : TwoLevelIterator) : st T TwoLevelIterator :=
  if has_data it then w ← f (data_iter_ it); mret (with_data w it) else mret it.
Definition on_index (f : IteratorWrapper I → st T (IteratorWrapper I)) (it : TwoLevelIterator) : st T TwoLevelIterator :=
  w ← f (index_iter_ it); mret (with_index w it).

(** Both loops: [step] moves the index, [start] positions the new data. *)
Fixpoint skip_empty (n : nat) (step : IteratorWrapper I → st T (IteratorWrapper I)) (start : IteratorWrapper J → st T (IteratorWrapper J))
    (it : TwoLevelIterator) : st T TwoLevelIterator :=
  match n with
  | O => lift (Err Diverge)
  | S n =>
      if negb (has_data it) || negb (i_Valid (data_iter_ it)) then
        if negb (i_Valid (index_iter_ it)) then SetDataIterator None it
        else
          it ← on_index step it; it ← InitDataBlock it; it ← on_data start it;
          skip_empty n step start it
      else mret it
  end.
Definition SkipEmptyDataBlocksForward : TwoLevelIterator → st T TwoLevelIterator := skip_empty fuel i_Next i_SeekToFirst.
Definition SkipEmptyDataBlocksBackward : TwoLevelIterator → st T TwoLevelIterator := skip_empty fuel i_Prev i_SeekToLast.

Definition TwoLevel_Seek (target : list byte) (it : TwoLevelIterator) : st T TwoLevelIterator :=
  it ← on_index (i_Seek target) it; it ← InitDataBlock it; it ← on_data (i_Seek target) it; SkipEmptyDataBlocksForward it.
Definition TwoLevel_SeekToFirst (it : TwoLevelIterator) : st T TwoLevelIterator :=
  it ← on_index i_SeekToFirst it; it ← InitDataBlock it; it ← on_data i_SeekToFirst it; SkipEmptyDataBlocksForward it.
Definition TwoLevel_SeekToLast (it : TwoLevelIterator) : st T TwoLevelIterator :=
  it ← on_index i_SeekToLast it; it ← InitDataBlock it; it ← on_data i_SeekToLast it; SkipEmptyDataBlocksBackward it.

Definition TwoLevel_Next (it : TwoLevelIterator) : st T TwoLevelIterator :=
  _ ← lift (c_assert (i_Valid (data_iter_ it)));
  w ← i_Next (data_iter_ it); SkipEmptyDataBlocksForward (with_data w it).
Definition TwoLevel_Prev (it : TwoLevelIterator) : st T TwoLevelIterator :=
  _ ← lift (c_assert (i_Valid (data_iter_ it)));
  w ← i_Prev (data_iter_ it); SkipEmptyDataBlocksBackward (with_data w it).

Definition TwoLevel_status (it : TwoLevelIterator) : res Status :=
  s ← i_status (index_iter_ it);
  if negb (ok s) then mret s
  else if has_data it then
    s ← i_status (data_iter_ it); mret (if negb (ok s) then s else tl_status_ it)
  else mret (tl_status_ it).

(** The members are destroyed in the reverse of their order. *)
Definition delete_TwoLevelIterator (it : TwoLevelIterator) : st T unit := _ ← i_delete (data_iter_ it); i_delete (index_iter_ it).

#[export] Instance two_level_iterator : Iterator T TwoLevelIterator := {|
  i_Valid it := i_Valid (data_iter_ it);
  i_SeekToFirst := TwoLevel_SeekToFirst;
  i_SeekToLast := TwoLevel_SeekToLast;
  i_Seek := TwoLevel_Seek;
  i_Next := TwoLevel_Next;
  i_Prev := TwoLevel_Prev;
  i_key it := _ ← c_assert (i_Valid (data_iter_ it)); i_key (data_iter_ it);
  i_value it := _ ← c_assert (i_Valid (data_iter_ it)); i_value (data_iter_ it);
  i_status := TwoLevel_status;
  i_delete := delete_TwoLevelIterator |}.
End two_level.
Arguments TwoLevelIterator : clear implicits.
