(* ===== verification/TwoLevelProps.v ===== *)
(** * What two-level iterators guarantee

    If the iterator over the index and those the block function makes keep the laws of iterators,
    the two-level iterator keeps them for all the data. *)
From stdpp Require Import sorting.
From S2P Require Import Prelude Buffers CLib Order Coding Comparator Status Block BlockProps Iterator IterProps TwoLevel.

#[local] Open Scope Z_scope.
#[local] Open Scope list_scope.

Section two_level.
Context {T R : Type} {P : list R → T → Prop} {Hperm : Proper ((≡ₚ) ==> (=) ==> impl) P}.
Context {okk : list byte → Prop} {c : list byte → list byte → Z}.
Context {I J : Type} `{HI : Iterator T I} `{HJ : Iterator T J}.
Context {idx : list entry} {ipos : I → nat → Prop} {iowns : I → list R} {Hindex : IteratorSpec P okk c idx ipos iowns}.
(** The data that an index value stands for. *)
Context (entries_of : list byte → list entry) (jpos : list entry → J → nat → Prop) (jowns : J → list R).
Context (Hdata : ∀ e, e ∈ idx → IteratorSpec P okk c (entries_of e.2) (jpos (entries_of e.2)) jowns).
Context (block_function_ : list byte → st T J).
Context (Hfun : ∀ e frame t, e ∈ idx → P frame t →
  wp (block_function_ e.2) (λ j t', jpos (entries_of e.2) j (length (entries_of e.2)) ∧ P (jowns j ++ frame) t') t).
Context (Hshort : ∀ e, e ∈ idx → short e.2).

#[local] Abbreviation N := (length idx).
Definition data (e : entry) : list entry := entries_of e.2.
Definition blocks : list (list entry) := data <$> idx.
Definition all : list entry := concat blocks.
Definition start (b : nat) : nat := length (concat (take b blocks)).

#[local] Abbreviation two := (TwoLevelIterator I J).
#[local] Abbreviation dpos e := (wrapper_pos (pos := jpos (data e))).
#[local] Abbreviation downs := (wrapper_owns (owns := jowns)).
#[local] Abbreviation xpos := (wrapper_pos (pos := ipos)).
#[local] Abbreviation xowns := (wrapper_owns (owns := iowns)).

Definition two_owns (it : two) : list R := xowns (index_iter_ it) ++ downs (data_iter_ it).

(** The data iterator, wherever it is, is one of the index. *)
Definition data_ok (it : two) : Prop :=
  match iter_ (data_iter_ it) with
  | None => valid_ (data_iter_ it) = false
  | Some _ => ∃ e j, e ∈ idx ∧ data_block_handle_ it = e.2 ∧ dpos e (data_iter_ it) j
  end.

Definition indexed (it : two) (b : nat) : Prop := xpos (index_iter_ it) b ∧ tl_status_ it = OK.

(** The index is at [b], and the data at position [x] of its block. *)
Definition mid (it : two) (b : nat) (x : option nat) : Prop :=
  indexed it b ∧ match idx !! b, x with
    | Some e, Some j => dpos e (data_iter_ it) j ∧ data_block_handle_ it = e.2
    | None, None => iter_ (data_iter_ it) = None ∧ valid_ (data_iter_ it) = false
    | _, _ => False
    end.

Definition two_pos (it : two) (p : nat) : Prop :=
  (∃ b e j, mid it b (Some j) ∧ idx !! b = Some e ∧ (j < length (data e))%nat ∧ p = (start b + j)%nat) ∨ mid it N None ∧ p = length all.

(** ** Positions *)

Lemma start_S b e : idx !! b = Some e → start (S b) = (start b + length (data e))%nat.
Proof using.
  clear. intros He. unfold start. rewrite (take_S_r _ b (data e)) by (unfold blocks; by rewrite list_lookup_fmap, He).
  by rewrite concat_app, length_app, concat_cons, app_nil_r.
Qed.

Lemma start_end : start N = length all.
Proof using. clear. unfold start, all. by rewrite take_ge by (unfold blocks; by rewrite length_fmap). Qed.

Lemma start_lookup b e j : idx !! b = Some e → (j < length (data e))%nat → all !! (start b + j)%nat = data e !! j.
Proof using.
  clear. intros He Hj. unfold all, start. assert (blocks !! b = Some (data e)) as Hb by (unfold blocks; by rewrite list_lookup_fmap, He).
  rewrite <-(take_drop_middle blocks b (data e) Hb) at 2. rewrite concat_app, lookup_app_r, concat_cons by lia.
  rewrite Nat.add_comm, Nat.add_sub. by rewrite lookup_app_l.
Qed.

Lemma start_le b e : idx !! b = Some e → (start b + length (data e) ≤ length all)%nat.
Proof using.
  clear. intros He. unfold all, start. assert (blocks !! b = Some (data e)) as Hb by (unfold blocks; by rewrite list_lookup_fmap, He).
  rewrite <-(take_drop_middle blocks b (data e) Hb) at 2. rewrite concat_app, concat_cons, !length_app. lia.
Qed.

(** ** Steps *)

Lemma mid_data it b x : mid it b x → indexed it b ∧ data_ok it.
Proof using.
  clear. intros [Hi Hm]. split; [done|]. unfold data_ok. destruct (idx !! b) as [e|] eqn:He, x as [j|]; try done.
  - destruct Hm as [Hd Hh]. pose proof Hd as (d & -> & _). exists e, j. split; [by eapply list_elem_of_lookup_2|done].
  - by destruct Hm as [-> ->].
Qed.

Lemma two_owns_swap it frame t : P (two_owns it ++ frame) t → P (downs (data_iter_ it) ++ xowns (index_iter_ it) ++ frame) t.
Proof using Hperm. unfold two_owns. intros HP. refine (Hperm _ _ _ _ _ eq_refl HP). solve_Permutation. Qed.

Lemma two_owns_back it frame t : P (downs (data_iter_ it) ++ xowns (index_iter_ it) ++ frame) t → P (two_owns it ++ frame) t.
Proof using Hperm. unfold two_owns. intros HP. refine (Hperm _ _ _ _ _ eq_refl HP). solve_Permutation. Qed.

Definition data_alive (it : two) : Prop :=
  match iter_ (data_iter_ it) with None => True | Some _ => ∃ e j, e ∈ idx ∧ dpos e (data_iter_ it) j end.

Lemma data_ok_alive it : data_ok it → data_alive it.
Proof using. clear. unfold data_ok, data_alive. destruct (iter_ _); [|done]. intros (e & i & He & _ & Hd). by exists e, i. Qed.

Lemma delete_data it frame t : data_alive it → P (downs (data_iter_ it) ++ frame) t →
  wp (match iter_ (data_iter_ it) with None => mret tt | Some old => i_delete old end) (λ _ t', P frame t') t.
Proof using Hdata.
  unfold data_alive, wrapper_owns. destruct (iter_ (data_iter_ it)) as [d|] eqn:Ed; [|by intros _ HP; apply wp_ret].
  intros (e & j & He & (d' & Ed' & Hp & _)) HP. rewrite Ed in Ed'. injection Ed' as <-. pose proof (Hdata e He). by apply (delete_spec d j).
Qed.

Lemma data_status it : data_alive it → has_data it = true → i_status (data_iter_ it) = Ok OK.
Proof using Hdata.
  unfold data_alive, has_data. cbn. destruct (iter_ (data_iter_ it)) as [d|] eqn:Ed; [|done]. intros (e & j & He & (d' & Ed' & Hp & _)) _.
  rewrite Ed in Ed'. injection Ed' as <-. pose proof (Hdata e He). by destruct (pos_valid d j Hp) as (_ & _ & Hs).
Qed.

(** The data iterator is replaced; no error is saved. *)
Lemma SetDataIterator_Ok it iter frame Q t : data_alive it → P (downs (data_iter_ it) ++ frame) t →
  (∀ t', P frame t' → wp (match iter with None => mret (MkWrapper None false (wkey_ (data_iter_ it))) | Some j => lift (Update j (data_iter_ it)) end)
    (λ w t', Q (with_data w it) t') t') →
  wp (SetDataIterator iter it) Q t.
Proof using Hdata.
  intros Hd HP HQ. unfold SetDataIterator. apply wp_bind.
  assert (wp (if has_data it then s ← lift (i_status (data_iter_ it)); mret (SaveError s it) else mret it) (λ it1 t1, it1 = it ∧ t1 = t) t) as Hsave.
  { destruct (has_data it) eqn:Eh; [|by apply wp_ret]. apply wp_bind, (wp_lift _ OK); [by apply data_status|]. apply wp_ret.
    split; [|done]. unfold SaveError. change (ok OK) with true. rewrite andb_false_r. by destruct it. }
  apply (wp_mono _ _ _ _ Hsave). intros ? ? [-> ->]. unfold Wrapper_Set. apply wp_bind, wp_bind.
  apply (wp_mono _ _ _ _ (delete_data it _ t Hd HP)). intros _ t1 HP1. apply (wp_mono _ _ _ _ (HQ t1 HP1)). intros w t2 HQ2. by apply wp_ret.
Qed.

Lemma clear_data_Ok it frame t : indexed it N → data_alive it → P (two_owns it ++ frame) t →
  wp (SetDataIterator None it) (λ it' t', mid it' N None ∧ P (two_owns it' ++ frame) t') t.
Proof using Hdata Hperm.
  intros Hi Hd HP. apply (SetDataIterator_Ok it None (xowns (index_iter_ it) ++ frame)); [done|by apply two_owns_swap|].
  intros t1 HP1. apply wp_ret. split; [|unfold two_owns; cbn; by rewrite app_nil_r]. split; [done|]. by rewrite lookup_ge_None_2 by done.
Qed.

Lemma load_data_Ok it b e j frame t : indexed it b → idx !! b = Some e → data_alive it → jpos (data e) j (length (data e)) → data_block_handle_ it = e.2 →
  P (jowns j ++ two_owns it ++ frame) t →
  wp (SetDataIterator (Some j) it) (λ it' t', mid it' b (Some (length (data e))) ∧ P (two_owns it' ++ frame) t') t.
Proof using Hdata Hperm.
  intros Hi He Hd Hj Hh HP. pose proof (list_elem_of_lookup_2 _ _ _ He) as Hin. pose proof (Hdata e Hin) as Hspec.
  apply (SetDataIterator_Ok it (Some j) (jowns j ++ xowns (index_iter_ it) ++ frame)); [done| |].
  { refine (Hperm _ _ _ _ _ eq_refl HP). unfold two_owns. solve_Permutation. }
  intros t1 HP1. destruct (Update_Ok j _ (data_iter_ it) Hj) as (w & E & Hw & Ei). apply (wp_lift _ w); [done|]. split.
  - split; [done|]. by rewrite He.
  - apply two_owns_back. cbn. unfold wrapper_owns at 1. by rewrite Ei.
Qed.

Lemma InitDataBlock_Ok it b frame t : indexed it b → data_ok it → P (two_owns it ++ frame) t →
  wp (InitDataBlock block_function_ it) (λ it' t', (∃ x, mid it' b x) ∧ P (two_owns it' ++ frame) t') t.
Proof using Hdata Hperm Hfun Hshort Hindex.
  intros Hi Hd HP. pose proof Hi as [Hx Hst]. destruct (pos_valid _ b Hx) as (Hb & Hv & _). unfold InitDataBlock. rewrite Hv.
  destruct (decide (b < N)%nat) as [Hlt|Hge].
  2:{ rewrite bool_decide_false by done. assert (b = N) as -> by lia.
      apply (wp_mono _ _ _ _ (clear_data_Ok it frame t Hi (data_ok_alive _ Hd) HP)). intros it' t' [Hm HP']. split; [by exists None|done]. }
  rewrite bool_decide_true by done. destruct (lookup_lt_is_Some_2 idx b Hlt) as [e He]. pose proof (list_elem_of_lookup_2 _ _ _ He) as Hin.
  destruct e as [k v]. destruct (pos_entry _ b k v Hx He) as [_ Hval]. cbn [negb]. apply wp_bind, (wp_lift _ v); [done|].
  pose proof (Hshort _ Hin) as Hsh. cbn [snd] in Hsh. apply wp_bind.
  assert (wp (if has_data it then r ← lift (Slice_compare v (data_block_handle_ it)); mret (r =? 0) else mret false)
    (λ same t1, t1 = t ∧ (same = true → has_data it = true ∧ data_block_handle_ it = v)) t) as Hsame.
  { destruct (has_data it); [|by apply wp_ret]. apply wp_bind, (wp_lift _ (strcmp_aux v (data_block_handle_ it))); [apply Slice_compare_Ok; by left|].
    apply wp_ret. split; [done|]. intros Heq%Z.eqb_eq. split; [done|]. symmetry. by apply strcmp_aux_eq. }
  apply (wp_mono _ _ _ _ Hsame). intros same ? [-> Hs]. destruct same.
  - destruct (Hs eq_refl) as [Hhas Hh]. apply wp_ret. split; [|done]. unfold data_ok, has_data in *. destruct (iter_ (data_iter_ it)) as [d|]; [|done].
    destruct Hd as (e' & j & _ & Hh' & Hp). exists (Some j). split; [done|]. rewrite He. split; [|done]. unfold data in *. cbn [snd]. by rewrite <-Hh, Hh'.
  - clear Hs Hsame. apply wp_bind. apply (wp_mono _ _ _ _ (Hfun (k, v) _ t Hin HP)). intros j t1 [Hj HP1].
    apply (wp_mono _ _ _ _ (load_data_Ok (with_handle v it) b (k, v) j frame t1 Hi He (data_ok_alive _ Hd) Hj eq_refl HP1)).
    intros it' t' [Hm HP']. split; [by eexists|done].
Qed.

Lemma on_data_Ok it b e j j' f frame t : mid it b (Some j) → idx !! b = Some e →
  (∀ w, dpos e w j → moves P (dpos e) downs w (f w) j') → P (two_owns it ++ frame) t →
  wp (on_data f it) (λ it' t', mid it' b (Some j') ∧ P (two_owns it' ++ frame) t') t.
Proof using Hperm.
  intros [Hi Hm] He Hf HP. rewrite He in Hm. destruct Hm as [Hp Hh]. unfold on_data, has_data. pose proof Hp as (d & -> & _).
  apply wp_bind. apply (wp_mono _ _ _ _ (Hf _ Hp _ t (two_owns_swap _ _ _ HP))). intros w t1 [Hw HP1]. apply wp_ret. split.
  - split; [done|]. by rewrite He.
  - by apply two_owns_back.
Qed.

Lemma on_data_none it b (f : IteratorWrapper J → st T (IteratorWrapper J)) : mid it b None → on_data f it = mret it.
Proof using. intros [_ Hm]. unfold on_data, has_data. destruct (idx !! b); [done|]. by destruct Hm as [-> _]. Qed.

Lemma on_index_Ok it b b' f frame t : indexed it b → data_ok it → (∀ w, xpos w b → moves P xpos xowns w (f w) b') → P (two_owns it ++ frame) t →
  wp (on_index f it) (λ it' t', indexed it' b' ∧ data_ok it' ∧ P (two_owns it' ++ frame) t') t.
Proof using.
  intros [Hx Hs] Hd Hf HP. unfold on_index. apply wp_bind. unfold two_owns in *. rewrite <-app_assoc in HP.
  apply (wp_mono _ _ _ _ (Hf _ Hx _ t HP)). intros w t1 [Hw HP1]. apply wp_ret. cbn. rewrite <-app_assoc. by split; [|split].
Qed.

(** The index moves, the data is loaded and positioned; what comes after is [K]. *)
Lemma move_Ok (it : two) b b' step first g (K : two → st T two) Q frame t : indexed it b → data_ok it →
  (∀ w, xpos w b → moves P xpos xowns w (step w) b') →
  (∀ e w j, e ∈ idx → dpos e w j → moves P (dpos e) downs w (first w) (g (data e))) →
  P (two_owns it ++ frame) t →
  (∀ it' t', mid it' b' ((λ e, g (data e)) <$> (idx !! b')) → P (two_owns it' ++ frame) t' → wp (K it') Q t') →
  wp (it ← on_index step it; it ← InitDataBlock block_function_ it; it ← on_data first it; K it) Q t.
Proof using Hdata Hperm Hfun Hshort Hindex.
  intros Hi Hd Hstep Hfirst HP HK. apply wp_bind. apply (wp_mono _ _ _ _ (on_index_Ok it b b' step frame t Hi Hd Hstep HP)).
  intros it1 t1 (Hi1 & Hd1 & HP1). apply wp_bind. apply (wp_mono _ _ _ _ (InitDataBlock_Ok it1 b' frame t1 Hi1 Hd1 HP1)).
  intros it2 t2 [[x Hm] HP2]. apply wp_bind. destruct (idx !! b') as [e|] eqn:He.
  - destruct x as [j|]; [|by destruct Hm as [_ Hm]; rewrite He in Hm]. pose proof (list_elem_of_lookup_2 _ _ _ He) as Hin.
    apply (wp_mono _ _ _ _ (on_data_Ok it2 b' e j (g (data e)) first frame t2 Hm He (λ w, Hfirst e w j Hin) HP2)). intros it3 t3 [Hm3 HP3]. by apply HK.
  - destruct x as [j|]; [by destruct Hm as [_ Hm]; rewrite He in Hm|]. rewrite (on_data_none _ b') by done. apply wp_ret. by apply HK.
Qed.

Lemma dpos_valid it b j : mid it b (Some j) → ∃ e, idx !! b = Some e ∧ e ∈ idx ∧ dpos e (data_iter_ it) j ∧ has_data it = true
  ∧ (j ≤ length (data e))%nat ∧ i_Valid (data_iter_ it) = bool_decide (j < length (data e))%nat.
Proof using Hdata.
  intros [_ Hm]. destruct (idx !! b) as [e|] eqn:He; [|done]. pose proof (list_elem_of_lookup_2 _ _ _ He) as Hin. destruct Hm as [Hp _].
  pose proof (Hdata e Hin) as Hs. destruct (pos_valid (data_iter_ it) j Hp) as (Hj & Hv & _). exists e.
  split; [done|]. split; [done|]. split; [done|]. split; [|done]. unfold has_data. by destruct Hp as (d & -> & _).
Qed.

Lemma mid_none it b : mid it b None → b = N ∧ has_data it = false.
Proof using Hindex.
  intros [[Hx _] Hm]. unfold has_data. destruct (idx !! b) as [e|] eqn:He; [done|]. apply lookup_ge_None in He.
  destruct (pos_valid _ b Hx) as (Hb & _). destruct Hm as [-> _]. split; [lia|done].
Qed.

(** At the end of the index, the data iterator is dropped. *)
Lemma skip_none n step first it b frame t : mid it b None → P (two_owns it ++ frame) t → (0 < n)%nat →
  wp (skip_empty block_function_ n step first it) (λ it' t', two_pos it' (length all) ∧ P (two_owns it' ++ frame) t') t.
Proof using Hdata Hperm Hindex.
  intros Hm HP Hn. destruct n as [|n]; [lia|]. cbn [skip_empty]. destruct (mid_none it b Hm) as [-> ->]. cbn [negb orb].
  destruct (mid_data _ _ _ Hm) as [[Hx Hs] Hd]. destruct (pos_valid _ N Hx) as (_ & -> & _). rewrite bool_decide_false by lia. cbn [negb].
  apply (wp_mono _ _ _ _ (clear_data_Ok it frame t (conj Hx Hs) (data_ok_alive _ Hd) HP)). intros it' t' [Hm' HP']. split; [by right|done].
Qed.

(** At an entry there is nothing to skip. *)
Lemma skip_valid n step first it b j e frame t : mid it b (Some j) → idx !! b = Some e → (j < length (data e))%nat → P (two_owns it ++ frame) t → (0 < n)%nat →
  wp (skip_empty block_function_ n step first it) (λ it' t', two_pos it' (start b + j) ∧ P (two_owns it' ++ frame) t') t.
Proof using Hdata.
  intros Hm He Hj HP Hn. destruct n as [|n]; [lia|]. cbn [skip_empty]. destruct (dpos_valid it b j Hm) as (e' & He' & _ & _ & -> & _ & ->).
  rewrite He in He'. injection He' as <-. rewrite bool_decide_true by done. apply wp_ret. split; [|done]. left. by exists b, e, j.
Qed.

(** At the end of a block, the index moves. *)
Lemma skip_move n step first it b b' j e g (Q : two → T → Prop) frame t : mid it b (Some j) → idx !! b = Some e → j = length (data e) → P (two_owns it ++ frame) t →
  (∀ w, xpos w b → moves P xpos xowns w (step w) b') →
  (∀ e w j, e ∈ idx → dpos e w j → moves P (dpos e) downs w (first w) (g (data e))) →
  (∀ it' t', mid it' b' ((λ e, g (data e)) <$> (idx !! b')) → P (two_owns it' ++ frame) t' → wp (skip_empty block_function_ n step first it') Q t') →
  wp (skip_empty block_function_ (S n) step first it) Q t.
Proof using Hdata Hperm Hfun Hshort Hindex.
  intros Hm He -> HP Hstep Hfirst HK. destruct (mid_data _ _ _ Hm) as [[Hx Hs] Hd]. cbn [skip_empty].
  destruct (dpos_valid it b _ Hm) as (e' & He' & _ & _ & -> & _ & ->). rewrite He in He'. injection He' as <-. rewrite bool_decide_false by lia. cbn [negb orb].
  destruct (pos_valid _ b Hx) as (_ & -> & _). rewrite bool_decide_true by by eapply lookup_lt_Some. cbn [negb].
  by apply (move_Ok it b b' step first g _ Q frame).
Qed.

Lemma first_moves e w j : e ∈ idx → dpos e w j → moves P (dpos e) downs w (i_SeekToFirst w) 0.
Proof using Hdata. intros He Hp. pose proof (Hdata e He). by apply (SeekToFirst_spec w j). Qed.
Lemma last_moves e w j : e ∈ idx → dpos e w j → moves P (dpos e) downs w (i_SeekToLast w) (pred (length (data e))).
Proof using Hdata. intros He Hp. pose proof (Hdata e He). by apply (SeekToLast_spec w j). Qed.

Definition place (b : nat) (x : option nat) : nat := match x with Some j => start b + j | None => length all end.

Lemma skip_forward_Ok n : ∀ it b x frame t, mid it b x → P (two_owns it ++ frame) t → (N - b < n)%nat →
  wp (skip_empty block_function_ n i_Next i_SeekToFirst it) (λ it' t', two_pos it' (place b x) ∧ P (two_owns it' ++ frame) t') t.
Proof using Hdata Hperm Hfun Hshort Hindex.
  induction n as [|n IH]; intros it b x frame t Hm HP Hn; [lia|]. destruct x as [j|]; [|by apply (skip_none _ _ _ _ b); [| |lia]].
  destruct (dpos_valid it b j Hm) as (e & He & Hin & Hd & _ & Hj & _). destruct (decide (j < length (data e))%nat) as [Hlt|Hge].
  { by apply (skip_valid _ _ _ _ b j e); [| | | |lia]. }
  pose proof (lookup_lt_Some _ _ _ He) as Hb.
  apply (skip_move n _ _ it b (S b) j e (λ _, 0%nat) _ frame); [done|done|lia|done| |by apply first_moves|].
  { intros w Hw. by apply Next_spec. }
  intros it' t' Hm' HP'. apply (wp_mono _ _ _ _ (IH it' (S b) _ frame t' Hm' HP' ltac:(lia))). intros it'' t'' [Htwo HP'']. split; [|done].
  assert (place (S b) ((λ _, 0%nat) <$> idx !! S b) = place b (Some j)) as <-; [|done]. cbn [place]. replace j with (length (data e)) by lia.
  rewrite <-(start_S b e He). destruct (idx !! S b) eqn:E; cbn [fmap option_fmap option_map place]; [lia|].
  apply lookup_ge_None in E. replace (S b) with N by lia. symmetry. apply start_end.
Qed.

(** Going backwards, the end of a block stands for the entry before it. *)
Definition back_place (b : nat) (x : option nat) : nat :=
  match x, idx !! b with
  | Some j, Some e => if decide (j < length (data e))%nat then (start b + j)%nat else prev_pos (length all) (start b)
  | _, _ => length all
  end.

Lemma back_last b e : idx !! b = Some e → back_place b (Some (pred (length (data e)))) = prev_pos (length all) (start b + length (data e)).
Proof using.
  clear. intros He. cbn [back_place]. rewrite He. destruct (decide _) as [Hlt|Hge].
  - replace (start b + length (data e))%nat with (S (start b + pred (length (data e)))) by lia. done.
  - by replace (start b + length (data e))%nat with (start b) by lia.
Qed.

Lemma skip_backward_Ok n : ∀ it b x frame t, mid it b x → P (two_owns it ++ frame) t → (match x with None => 0 | Some _ => S b end < n)%nat →
  wp (skip_empty block_function_ n i_Prev i_SeekToLast it) (λ it' t', two_pos it' (back_place b x) ∧ P (two_owns it' ++ frame) t') t.
Proof using Hdata Hperm Hfun Hshort Hindex.
  induction n as [|n IH]; intros it b x frame t Hm HP Hn; [lia|]. destruct x as [j|]; [|by apply (skip_none _ _ _ _ b)].
  destruct (dpos_valid it b j Hm) as (e & He & Hin & Hd & _ & Hj & _). cbn [back_place]. rewrite He. destruct (decide (j < length (data e))%nat) as [Hlt|Hge].
  { by apply (skip_valid _ _ _ _ b j e); [| | | |lia]. }
  pose proof (lookup_lt_Some _ _ _ He) as Hb.
  apply (skip_move n _ _ it b (prev_pos N b) j e (λ l, pred (length l)) _ frame); [done|done|lia|done| |by apply last_moves|].
  { intros w Hw. by apply Prev_spec. }
  intros it' t' Hm' HP'. destruct b as [|b]; cbn [prev_pos] in Hm'.
  - rewrite lookup_ge_None_2 in Hm' by done. apply (wp_mono _ _ _ _ (IH it' N None frame t' Hm' HP' ltac:(cbn in Hn |- *; lia))). by intros it'' t''.
  - destruct (lookup_lt_is_Some_2 idx b) as [e' He']; [lia|]. rewrite He' in Hm'. cbn [fmap option_fmap option_map] in Hm'.
    apply (wp_mono _ _ _ _ (IH it' b _ frame t' Hm' HP' ltac:(cbn in Hn |- *; lia))). intros it'' t'' [Htwo HP'']. split; [|done].
    by rewrite (start_S b e' He'), <-(back_last b e' He').
Qed.

(** ** The laws *)

(** The entries of the index separate the blocks. *)
Definition index_splits : Prop := ∀ b e, idx !! b = Some e →
  (∀ x, x ∈ data e → c x.1 e.1 ≤ 0) ∧ ∀ b' e' x, (b < b')%nat → idx !! b' = Some e' → x ∈ data e' → c e.1 x.1 < 0.
Context (Hord : CmpOrder c) (Hsplit : index_splits).

Lemma all_lookup p x : all !! p = Some x → ∃ b e j, idx !! b = Some e ∧ data e !! j = Some x ∧ p = (start b + j)%nat.
Proof using.
  clear. unfold all, start, blocks. revert p. induction idx as [|e l IH]; intros p; [done|]. cbn [fmap list_fmap concat]. intros Hx.
  apply lookup_app_Some in Hx as [Hx|[Hge Hx]]; [by exists 0%nat, e, p|]. destruct (IH _ Hx) as (b & e' & j & Hb & Hj & Hp). exists (S b), e', j.
  split; [done|]. split; [done|]. cbn [take concat]. rewrite length_app. unfold fmap in *. lia.
Qed.

Lemma start_mono b b' : (b ≤ b')%nat → (start b ≤ start b')%nat.
Proof using.
  clear. intros Hb. unfold start. rewrite <-(take_drop b (take b' blocks)), take_take, Nat.min_l by done. rewrite concat_app, length_app. lia.
Qed.

(** The rank of a target: its rank in the block that the index gives. *)
Lemma rank_all target : rank c target all = place (rank c target idx) ((λ e, rank c target (data e)) <$> idx !! rank c target idx).
Proof using Hord Hsplit.
  set (b := rank c target idx). assert (∀ b' e' j, idx !! b' = Some e' → (j < length (data e'))%nat → (start b' + j < start (S b'))%nat) as Hin.
  { intros b' e' j He' Hj. rewrite (start_S b' e' He'). lia. }
  apply rank_unique.
  - destruct (idx !! b) as [e|] eqn:He; cbn [fmap option_fmap option_map place]; [|done]. pose proof (start_le b e He). pose proof (rank_le (c := c) target (data e)). lia.
  - intros p x Hp Hx. destruct (all_lookup p x Hx) as (b' & e' & j & He' & Hj & ->). pose proof (lookup_lt_Some _ _ _ Hj) as Hlt.
    pose proof (list_elem_of_lookup_2 _ _ _ Hj) as Hxin. destruct (Hsplit b' e' He') as [Hl _]. destruct (decide (b' < b)%nat) as [Hb|Hb].
    { apply (@cmp_le_lt _ c Hord _ e'.1); [by apply Hl|]. by apply (rank_below target idx b'). }
    pose proof (start_mono b b' ltac:(lia)) as Hm. destruct (idx !! b) as [e|] eqn:He.
    2:{ apply lookup_ge_None in He. apply lookup_lt_Some in He'. lia. }
    cbn [fmap option_fmap option_map place] in Hp. destruct (decide (b' = b)) as [->|Hne].
    + rewrite He in He'. injection He' as <-. apply (rank_below target (data e) j); [lia|done].
    + pose proof (start_mono (S b) b' ltac:(lia)) as Hm2. rewrite (start_S b e He) in Hm2. pose proof (rank_le (c := c) target (data e)). lia.
  - intros x Hx. destruct (idx !! b) as [e|] eqn:He; cbn [fmap option_fmap option_map place] in Hx; [|apply lookup_lt_Some in Hx; lia].
    destruct (all_lookup _ x Hx) as (b' & e' & j & He' & Hj & Ep). pose proof (lookup_lt_Some _ _ _ Hj) as Hlt. pose proof (Hin b' e' j He' Hlt) as Hin'.
    pose proof (rank_le (c := c) target (data e)) as Hrank. destruct (decide (b' < b)%nat) as [Hb|Hb]; [pose proof (start_mono (S b') b); lia|].
    destruct (decide (b' = b)) as [->|Hne].
    + rewrite He in He'. injection He' as <-. apply (rank_at target (data e)). by replace (rank c target (data e)) with j by lia.
    + destruct (Hsplit b e He) as [_ Hr]. pose proof (Hr b' e' x ltac:(lia) He' (list_elem_of_lookup_2 _ _ _ Hj)) as Hlt2.
      pose proof (rank_at (c := c) target idx e He) as Hge. pose proof (@cmp_anti _ c Hord e.1 target). pose proof (@cmp_anti _ c Hord x.1 target).
      pose proof (@cmp_le_lt _ c Hord target e.1 x.1). lia.
Qed.

(** The position of the iterator, when its data is at one. *)
Lemma two_pos_mid it p : two_pos it p → ∃ b x, mid it b x ∧ p = place b x ∧ (x = None → b = N) ∧ indexed it b ∧ data_ok it
  ∧ ((p < length all)%nat → ∃ e j, idx !! b = Some e ∧ e ∈ idx ∧ x = Some j ∧ (j < length (data e))%nat ∧ dpos e (data_iter_ it) j ∧ all !! p = data e !! j).
Proof using Hdata.
  intros [(b & e & j & Hm & He & Hj & ->)|[Hm ->]].
  - exists b, (Some j). destruct (mid_data _ _ _ Hm) as [Hi Hd]. split; [done|]. split; [done|]. split; [done|]. split; [done|]. split; [done|].
    intros _. exists e, j. destruct (dpos_valid it b j Hm) as (e' & He' & Hin & Hp & _). rewrite He in He'. injection He' as <-. split; [done|].
    split; [done|]. split; [done|]. split; [done|]. split; [done|]. by apply start_lookup.
  - exists N, None. destruct (mid_data _ _ _ Hm) as [Hi Hd]. split; [done|]. split; [done|]. split; [done|]. split; [done|]. split; [done|]. lia.
Qed.

Lemma two_end it : two_pos it (length all) → valid_ (data_iter_ it) = false ∧ has_data it = false.
Proof using.
  clear. intros [(b & e & j & _ & He & Hj & Hp)|[Hm _]].
  - pose proof (start_le b e He). lia.
  - destruct Hm as [_ Hm]. rewrite lookup_ge_None_2 in Hm by done. destruct Hm as [Hn Hv]. unfold has_data. by rewrite Hn.
Qed.

Lemma two_valid it p : two_pos it p → (p ≤ length all)%nat ∧ i_Valid (data_iter_ it) = bool_decide (p < length all)%nat ∧ TwoLevel_status it = Ok OK.
Proof using Hdata Hindex.
  intros Htwo. destruct (two_pos_mid it p Htwo) as (b & x & Hm & Hp & Hb & [Hx Hs] & Hd & Hat). pose proof (data_ok_alive _ Hd) as Ha.
  assert (TwoLevel_status it = Ok OK) as Hst.
  { unfold TwoLevel_status. destruct (pos_valid _ b Hx) as (_ & _ & ->). cbn [mbind res_bind]. change (ok OK) with true. cbn [negb].
    destruct (has_data it) eqn:Eh; [|by rewrite Hs]. rewrite (data_status it Ha Eh). cbn [mbind res_bind]. by rewrite Hs. }
  destruct (decide (p < length all)%nat) as [Hlt|Hge].
  - destruct (Hat Hlt) as (e & j & He & Hin & -> & Hj & Hpos & _). rewrite bool_decide_true by done. split; [lia|]. split; [|done].
    destruct (dpos_valid it b j Hm) as (e' & He' & _ & _ & _ & _ & ->). rewrite He in He'. injection He' as <-. by rewrite bool_decide_true.
  - rewrite bool_decide_false by done. destruct Htwo as [(b' & e & j & _ & He & Hj & ->)|[Hm' ->]].
    + pose proof (start_le b' e He). lia.
    + split; [done|]. split; [|done]. apply two_end. by right.
Qed.

(** A positioning operation of the iterator moves the index and then the data. *)
Lemma position_Ok it p b' step (first : IteratorWrapper J → st T (IteratorWrapper J)) g (skip : two → st T two) q : two_pos it p →
  (∀ b w, xpos w b → moves P xpos xowns w (step w) b') →
  (∀ e w j, e ∈ idx → dpos e w j → moves P (dpos e) downs w (first w) (g (data e))) →
  (∀ it' frame t', mid it' b' ((λ e, g (data e)) <$> (idx !! b')) → P (two_owns it' ++ frame) t' →
    wp (skip it') (λ it'' t'', two_pos it'' q ∧ P (two_owns it'' ++ frame) t'') t') →
  moves P two_pos two_owns it (it ← on_index step it; it ← InitDataBlock block_function_ it; it ← on_data first it; skip it) q.
Proof using Hdata Hperm Hfun Hshort Hindex.
  intros Htwo Hstep Hfirst Hskip frame t HP. destruct (two_pos_mid it p Htwo) as (b & x & _ & _ & _ & Hi & Hd & _).
  apply (move_Ok it b b' step first g _ _ frame); [done|done|by apply Hstep|done|done|]. intros it' t' Hm HP'. by apply Hskip.
Qed.

(** The data moves by one. *)
Lemma step_Ok it p (step : IteratorWrapper J → st T (IteratorWrapper J)) g (skip : two → st T two) q : two_pos it p → (p < length all)%nat →
  (∀ e w j, e ∈ idx → dpos e w j → (j < length (data e))%nat → moves P (dpos e) downs w (step w) (g (data e) j)) →
  (∀ b e j it' frame t', idx !! b = Some e → (j < length (data e))%nat → p = (start b + j)%nat → mid it' b (Some (g (data e) j)) → P (two_owns it' ++ frame) t' →
    wp (skip it') (λ it'' t'', two_pos it'' q ∧ P (two_owns it'' ++ frame) t'') t') →
  moves P two_pos two_owns it (_ ← lift (c_assert (i_Valid (data_iter_ it))); w ← step (data_iter_ it); skip (with_data w it)) q.
Proof using Hdata Hperm Hindex.
  intros Htwo Hlt Hstep Hskip frame t HP. destruct (two_valid it p Htwo) as (_ & Hv & _). rewrite bool_decide_true in Hv by done.
  destruct (two_pos_mid it p Htwo) as (b & x & Hm & Hp & _ & _ & _ & Hat). destruct (Hat Hlt) as (e & j & He & Hin & -> & Hj & Hpos & _).
  rewrite Hv. apply wp_bind, (wp_lift _ tt); [done|]. apply wp_bind.
  apply (wp_mono _ _ _ _ (Hstep e _ j Hin Hpos Hj _ t (two_owns_swap _ _ _ HP))). intros w t1 [Hw HP1].
  apply (Hskip b e j); [done|done|done| |by apply two_owns_back]. destruct Hm as [Hi Hm]. rewrite He in Hm. split; [done|]. rewrite He. split; [done|apply Hm].
Qed.

Context (fuel : nat) (Hfuel : (S (length idx) < fuel)%nat).

Lemma forward_place_Ok it b x frame t : mid it b x → P (two_owns it ++ frame) t →
  wp (SkipEmptyDataBlocksForward block_function_ fuel it) (λ it' t', two_pos it' (place b x) ∧ P (two_owns it' ++ frame) t') t.
Proof using Hdata Hperm Hfun Hshort Hindex Hfuel. intros Hm HP. apply skip_forward_Ok; [done|done|lia]. Qed.

Lemma backward_place_Ok it b x frame t : mid it b x → P (two_owns it ++ frame) t →
  wp (SkipEmptyDataBlocksBackward block_function_ fuel it) (λ it' t', two_pos it' (back_place b x) ∧ P (two_owns it' ++ frame) t') t.
Proof using Hdata Hperm Hfun Hshort Hindex Hfuel.
  intros Hm HP. apply skip_backward_Ok; [done|done|]. destruct x as [j|]; [|lia]. destruct (dpos_valid it b j Hm) as (e & He & _).
  apply lookup_lt_Some in He. lia.
Qed.

#[export] Instance two_level_spec : @IteratorSpec T R P okk c two (two_level_iterator block_function_ fuel) all two_pos two_owns.
Proof using Hdata Hperm Hfun Hshort Hindex Hfuel Hord Hsplit.
  split.
  - apply two_valid.
  - intros it p k v Htwo Hx. pose proof (lookup_lt_Some _ _ _ Hx) as Hlt. destruct (two_valid it p Htwo) as (_ & Hv & _).
    rewrite bool_decide_true in Hv by done. destruct (two_pos_mid it p Htwo) as (b & x & _ & _ & _ & _ & _ & Hat).
    destruct (Hat Hlt) as (e & j & He & Hin & _ & Hj & Hpos & E). rewrite E in Hx. pose proof (Hdata e Hin) as Hspec.
    destruct (pos_entry (data_iter_ it) j k v Hpos Hx) as [Hk Hval]. cbn [i_key i_value two_level_iterator]. by rewrite Hv.
  - intros it p Htwo. apply (position_Ok it p 0 _ _ (λ _, 0%nat)); [done| |by apply first_moves|].
    { intros b w Hw. by apply (SeekToFirst_spec w b). }
    intros it' frame t' Hm HP. apply (wp_mono _ _ _ _ (forward_place_Ok it' _ _ frame t' Hm HP)). intros it'' t'' [Hp HP'']. split; [|done].
    destruct (idx !! 0%nat) eqn:E; [exact Hp|]. apply lookup_ge_None in E. unfold place, fmap in Hp. cbn in Hp. rewrite <-start_end in Hp. by replace N with 0%nat in Hp by lia.
  - intros it p Htwo. apply (position_Ok it p (pred N) _ _ (λ l, pred (length l))); [done| |by apply last_moves|].
    { intros b w Hw. by apply (SeekToLast_spec w b). }
    intros it' frame t' Hm HP. apply (wp_mono _ _ _ _ (backward_place_Ok it' _ _ frame t' Hm HP)). intros it'' t'' [Hp HP'']. split; [|done].
    destruct (idx !! pred N) as [e|] eqn:E; cbn [fmap option_fmap option_map] in Hp.
    + rewrite (back_last _ e E) in Hp. rewrite <-(start_S _ e E) in Hp. apply lookup_lt_Some in E. replace (S (pred N)) with N in Hp by lia.
      rewrite start_end in Hp. by destruct (length all).
    + apply lookup_ge_None in E. assert (length all = 0%nat) as E0 by (rewrite <-start_end; by replace N with 0%nat by lia). cbn in Hp. by rewrite E0 in *.
  - intros it p target Htwo Ht. apply (position_Ok it p (rank c target idx) _ _ (rank c target)); [done| | |].
    { intros b w Hw. by apply (Seek_spec w b target). }
    { intros e w j He Hp. pose proof (Hdata e He). by apply (Seek_spec w j target). }
    intros it' frame t' Hm HP. rewrite rank_all. by apply forward_place_Ok.
  - intros it p Htwo Hlt. apply (step_Ok it p _ (λ _ j, S j)); [done|done| |].
    { intros e w j He Hp Hj. pose proof (Hdata e He). by apply Next_spec. }
    intros b e j it' frame t' He Hj -> Hm HP. replace (S (start b + j)) with (place b (Some (S j))) by (cbn; lia). by apply forward_place_Ok.
  - intros it p Htwo Hlt. apply (step_Ok it p _ (λ l j, prev_pos (length l) j)); [done|done| |].
    { intros e w j He Hp Hj. pose proof (Hdata e He). by apply Prev_spec. }
    intros b e j it' frame t' He Hj -> Hm HP.
    assert (prev_pos (length all) (start b + j) = back_place b (Some (prev_pos (length (data e)) j))) as ->; [|by apply backward_place_Ok].
    cbn [back_place]. rewrite He. destruct j as [|j]; cbn [prev_pos].
    + rewrite decide_False by lia. by rewrite Nat.add_0_r.
    + rewrite decide_True by lia. by rewrite Nat.add_succ_r.
  - intros it p frame t Htwo HP. destruct (two_pos_mid it p Htwo) as (b & x & _ & _ & _ & [Hx _] & Hd & _).
    cbn [i_delete two_level_iterator]. apply wp_bind. apply two_owns_swap in HP.
    apply (wp_mono (S := T) (match iter_ (data_iter_ it) with None => mret tt | Some old => i_delete old end) _ _ _ (delete_data it _ t (data_ok_alive _ Hd) HP)).
    intros _ t1 HP1. by apply (delete_spec _ b).
Qed.
End two_level.
