(* ===== verification/Table.v ===== *)
(** * Tables: leveldb table/table.cc

    Opening a table, its iterator, looking a key up through the filter, and the offset of a key.
    The block cache is an interface, with the laws a table relies on; blocks are not changed after
    they are made, so the cache holds them by value. *)
From Stdlib Require Import Strings.String.
From stdpp Require Import gmap.
From S2P Require Import Prelude Buffers CLib Order Coding Comparator Status Bloom FilterBlock Block BlockProps TableFormat TableBuilder Iterator TwoLevel.

#[local] Open Scope Z_scope.
#[local] Open Scope list_scope.

(** ** The block cache *)

(** [T] is the state of the cache, [Hd] its handles. *)
Class BlockCache (T Hd : Type) := {
  bc_Insert : list byte → Block → Z → st T Hd;
  bc_Lookup : list byte → st T (option Hd);
  bc_Release : Hd → st T unit;
  bc_Value : Hd → T → res Block;
  bc_NewId : st T Z }.

(** The key of the block at an offset, for a client of the cache. *)
Definition cache_key (id offset : Z) : list byte := EncodeFixed64 id ++ EncodeFixed64 offset.

(** The blocks of client [id] satisfy [Φ id]; the handles of the list are in use. A handle that was got
    can be released once, and a new client shares no block with others as long as there are new numbers. *)
Class BlockCacheSpec (T Hd : Type) `{BlockCache T Hd} := {
  cache_ok : (Z → Z → Block → Prop) → list Hd → T → Prop;
  ids_left : T → Z;
  cache_ok_perm Φ : Proper ((≡ₚ) ==> (=) ==> impl) (cache_ok Φ);
  bc_Insert_spec Φ held id offset b charge t : cache_ok Φ held t → 0 ≤ id < 2^64 → 0 ≤ offset < 2^64 → Φ id offset b →
    wp (bc_Insert (cache_key id offset) b charge) (λ h t', cache_ok Φ (h :: held) t') t;
  bc_Lookup_spec Φ held id offset t : cache_ok Φ held t → 0 ≤ id < 2^64 → 0 ≤ offset < 2^64 →
    wp (bc_Lookup (cache_key id offset)) (λ h t', match h with
      | None => cache_ok Φ held t'
      | Some h => cache_ok Φ (h :: held) t' ∧ ∃ b, bc_Value h t' = Ok b ∧ Φ id offset b
      end) t;
  bc_Release_spec Φ h held t : cache_ok Φ (h :: held) t → wp (bc_Release h) (λ _ t', cache_ok Φ held t') t;
  bc_NewId_spec Φ held t : cache_ok Φ held t → 0 < ids_left t →
    wp bc_NewId (λ id t', 0 ≤ id < 2^64 ∧ ∀ Ψ, (∀ i, i ≠ id → Ψ i = Φ i) → cache_ok Ψ held t') t }.

(** In memory, without a bound: the blocks that were inserted, the newest first, and the last number. A handle is its block. *)
Record mem_cache := MemCache { mc_blocks : list (list byte * Block); mc_last : Z }.

#[export] Instance mem_block_cache : BlockCache mem_cache Block := {|
  bc_Insert key b charge := λ s, mret (b, MemCache ((key, b) :: mc_blocks s) (mc_last s));
  bc_Lookup key := gets (λ s, snd <$> List.find (λ x, bool_decide (x.1 = key)) (mc_blocks s));
  bc_Release h := mret tt;
  bc_Value h s := mret h;
  bc_NewId := λ s, mret (mc_last s + 1, MemCache (mc_blocks s) (mc_last s + 1)) |}.

Lemma cache_key_inj id offset id' offset' : 0 ≤ id < 2^64 → 0 ≤ offset < 2^64 → 0 ≤ id' < 2^64 → 0 ≤ offset' < 2^64 →
  cache_key id offset = cache_key id' offset' → id = id' ∧ offset = offset'.
Proof.
  unfold cache_key. intros H1 H2 H3 H4 E. apply app_inj_1 in E as [E1 E2]; [|by rewrite !length_EncodeFixed64].
  assert (∀ a b, 0 ≤ a < 2^64 → 0 ≤ b < 2^64 → EncodeFixed64 a = EncodeFixed64 b → a = b) as Hinj; [|by split; apply Hinj].
  intros a b Ha Hb Eab. pose proof (DecodeFixed64_Ok a []) as Ea. rewrite Eab, DecodeFixed64_Ok in Ea. injection Ea as Ea. by rewrite !u64_small in Ea.
Qed.

(** What is in it, by client; only clients that have a number have blocks. *)
Definition mem_cache_ok (Φ : Z → Z → Block → Prop) (s : mem_cache) : Prop :=
  0 ≤ mc_last s < 2^64 ∧ (∀ id offset b, Φ id offset b → 0 ≤ id ≤ mc_last s)
  ∧ ∀ key b, (key, b) ∈ mc_blocks s → ∃ id offset, key = cache_key id offset ∧ 0 ≤ offset < 2^64 ∧ Φ id offset b.

#[export] Instance mem_block_cache_spec : BlockCacheSpec mem_cache Block.
Proof.
  refine {| cache_ok := λ Φ _, mem_cache_ok Φ; ids_left := λ s, 2^64 - 1 - mc_last s |}.
  - intros Φ held id offset b charge s (Hl & Hids & Hall) Hid Ho Hb. split; [done|]. split; [done|].
    intros key b' [[= -> ->]|Hin]%elem_of_cons; [by exists id, offset|by apply Hall].
  - intros Φ held id offset s (Hl & Hids & Hall) Hid Ho. unfold bc_Lookup, mem_block_cache, gets, wp. cbn.
    destruct (List.find _ (mc_blocks s)) as [[key b]|] eqn:E; cbn; [|done]. split; [done|]. exists b. split; [done|].
    apply find_some in E as [Hin%list_elem_of_In Ekey%bool_decide_eq_true]. destruct (Hall _ _ Hin) as (id' & o' & Ek & Ho' & Hb).
    pose proof (Hids _ _ _ Hb). cbn in Ekey. rewrite Ekey in Ek. by destruct (cache_key_inj id offset id' o') as [-> ->]; [done|done|lia|done|done|].
  - done.
  - intros Φ held s (Hl & Hids & Hall) Hleft. cbn. split; [lia|]. intros Ψ HΨ. split; [cbn; lia|]. split.
    + intros id offset b Hb. cbn. destruct (decide (id = mc_last s + 1)) as [->|Hne]; [lia|]. rewrite HΨ in Hb by done. apply Hids in Hb. lia.
    + intros key b Hin. destruct (Hall key b Hin) as (id & offset & -> & Ho & Hb). exists id, offset. split; [done|]. split; [done|].
      pose proof (Hids _ _ _ Hb). by rewrite HΨ by lia.
Defined.

(** ** Options of reads *)

Record ReadOptions := MkReadOptions { verify_checksums : bool; fill_cache : bool }.
Definition default_ReadOptions : ReadOptions := MkReadOptions false true.

Section table.
Context {comparator : Comparator} {F : Type} `{RandomAccessFile F} `{Snappy} (addr : list byte → Z).
Context {T Hd : Type} `{BlockCache T Hd}.

(** [has_cache]: the options have a block cache. The filter keeps its policy. *)
Record Table := MkTable {
  t_options : Options; has_cache : bool; t_file : F; cache_id : Z; t_filter : option (FilterPolicy * FilterBlockReader);
  t_metaindex_handle : BlockHandle; t_index_block : Block }.

(** ** Opening *)

Definition ReadFilter (filter_handle_value : list byte) (p : NamedPolicy) (file : F) : res (option (FilterPolicy * FilterBlockReader)) :=
  '(s, filter_handle, _) ← Handle_DecodeFrom new_BlockHandle filter_handle_value;
  if negb (ok s) then mret None
  else
    '(s, block) ← ReadBlock addr file (verify_checksums default_ReadOptions) filter_handle;
    if negb (ok s) then mret None
    else r ← new_FilterBlockReader (bc_data block); mret (Some (policy p, r)).

(** The filter of the table, where there is one. *)
Definition ReadMeta (opt : Options) (footer : Footer) (file : F) : st T (option (FilterPolicy * FilterBlockReader)) :=
  match filter_policy opt with
  | None => mret None
  | Some p =>
      '(s, contents) ← lift (ReadBlock addr file (verify_checksums default_ReadOptions) (metaindex_handle_ footer));
      if negb (ok s) then mret None
      else
        meta ← lift (new_Block (bc_data contents));
        iter ← lift (NewIterator meta);
        let bytewise := block_iterator_iterator (comparator := BytewiseComparator) in
        let key := str "filter." ++ policy_Name p in
        iter ← i_Seek (Iterator := bytewise) key iter;
        if i_Valid (Iterator := bytewise) iter then
          k ← lift (i_key (Iterator := bytewise) iter); same ← lift (Slice_eq k key);
          if same : bool then
            v ← lift (i_value (Iterator := bytewise) iter); filter ← lift (ReadFilter v p file);
            _ ← i_delete (Iterator := bytewise) iter; mret filter
          else _ ← i_delete (Iterator := bytewise) iter; mret None
        else _ ← i_delete (Iterator := bytewise) iter; mret None
  end.

Definition Table_Open (opt : Options) (cache : bool) (file : F) (size : Z) : st T (Status * option Table) :=
  if size <? kEncodedLength then s ← lift (InvalidArgument (str "file is too short to be an sstable") []); mret (s, None)
  else
    let '(s, footer_input, _) := ra_Read (u64 (size - kEncodedLength)) kEncodedLength file in
    if negb (ok s) then mret (s, None)
    else
      '(s, footer, _) ← lift (Footer_DecodeFrom (MkFooter new_BlockHandle new_BlockHandle) footer_input);
      if negb (ok s) then mret (s, None)
      else
        '(s, contents) ← lift (ReadBlock addr file (verify_checksums default_ReadOptions) (index_handle_ footer));
        if negb (ok s) then mret (s, None)
        else
          index_block ← lift (new_Block (bc_data contents));
          id ← (if cache then bc_NewId else mret 0);
          filter ← ReadMeta opt footer file;
          mret (s, Some (MkTable opt cache file id filter (metaindex_handle_ footer) index_block)).

(** ** Reading blocks *)

(** What the iterator of a block does when it is destroyed: [DeleteBlock], or [ReleaseBlock] of a handle. *)
Inductive block_cleanup := DeleteBlock | ReleaseBlock (h : Hd).
Definition run_block_cleanup (f : block_cleanup) : st T unit :=
  match f with DeleteBlock => mret tt | ReleaseBlock h => bc_Release h end.

#[local] Abbreviation block_iter := (cleaned block_iterator block_cleanup).
#[local] Existing Instance block_iterator_iterator.
#[local] Instance block_iter_iterator : Iterator T block_iter := cleaned_iterator run_block_cleanup.

(** The block at a handle, from the cache or the file; the handle of the cache. *)
Definition find_block (table : Table) (opts : ReadOptions) (handle : BlockHandle) : st T (Status * option (Block * option Hd)) :=
  if has_cache table then
    let key := cache_key (cache_id table) (h_offset handle) in
    cache_handle ← bc_Lookup key;
    match cache_handle with
    | Some h => t ← get_st; block ← lift (bc_Value h t); mret (OK, Some (block, Some h))
    | None =>
        '(s, contents) ← lift (ReadBlock addr (t_file table) (verify_checksums opts) handle);
        if ok s then
          block ← lift (new_Block (bc_data contents));
          if cachable contents && fill_cache opts then
            h ← bc_Insert key block (size_ block); mret (s, Some (block, Some h))
          else mret (s, Some (block, None))
        else mret (s, None)
    end
  else
    '(s, contents) ← lift (ReadBlock addr (t_file table) (verify_checksums opts) handle);
    if ok s then block ← lift (new_Block (bc_data contents)); mret (s, Some (block, None)) else mret (s, None).

Definition BlockReader (table : Table) (opts : ReadOptions) (index_value : list byte) : st T block_iter :=
  '(s, handle, _) ← lift (Handle_DecodeFrom new_BlockHandle index_value);
  '(s, block) ← (if ok s then find_block table opts handle else mret (s, None));
  match block with
  | Some (block, cache_handle) =>
      iter ← lift (NewIterator block);
      mret (RegisterCleanup (match cache_handle with None => DeleteBlock | Some h => ReleaseBlock h end) (Cleaned iter []))
  | None => mret (Cleaned (ErrorIterator s) [])
  end.

(** ** The iterator of a table *)

(** The skipping loops take a round for each entry of the index, and one more. *)
Definition table_fuel (table : Table) : nat := S (S (Z.to_nat (size_ (t_index_block table)))).
Definition table_iterator (table : Table) (opts : ReadOptions) : Iterator T (TwoLevelIterator block_iterator block_iter) :=
  two_level_iterator (BlockReader table opts) (table_fuel table).

Definition Table_NewIterator (table : Table) : st T (TwoLevelIterator block_iterator block_iter) :=
  index ← lift (NewIterator (t_index_block table)); new_TwoLevelIterator index.

(** ** Lookups *)

(** [!filter->KeyMayMatch(handle.offset(), k)], if there is a filter and the handle can be decoded. *)
Definition filter_rejects (table : Table) (handle_value k : list byte) : res bool :=
  match t_filter table with
  | None => mret false
  | Some (p, filter) =>
      '(s, handle, _) ← Handle_DecodeFrom new_BlockHandle handle_value;
      if ok s then m ← @Reader_KeyMayMatch p filter (h_offset handle) k; mret (negb m) else mret false
  end.

(** The status, and what [saver] is called with. *)
Definition InternalGet (table : Table) (opts : ReadOptions) (k : list byte) : st T (Status * option entry) :=
  iiter ← lift (NewIterator (t_index_block table));
  iiter ← i_Seek k iiter;
  '(s, saved) ← (if i_Valid (T := T) iiter then
      handle_value ← lift (i_value (T := T) iiter);
      rejects ← lift (filter_rejects table handle_value k);
      if rejects : bool then mret (OK, None)
      else
        v ← lift (i_value (T := T) iiter);
        block_iter ← BlockReader table opts v;
        block_iter ← i_Seek k block_iter;
        saved ← (if i_Valid (T := T) block_iter then k ← lift (i_key (T := T) block_iter); v ← lift (i_value (T := T) block_iter); mret (Some (k, v)) else mret None);
        s ← lift (i_status (T := T) block_iter);
        _ ← i_delete block_iter;
        mret (s, saved)
    else mret (OK, None));
  s ← (if ok s then lift (i_status (T := T) iiter) else mret s);
  _ ← i_delete iiter;
  mret (s, saved).

Definition ApproximateOffsetOf (table : Table) (key : list byte) : st T Z :=
  index_iter ← lift (NewIterator (t_index_block table));
  index_iter ← i_Seek key index_iter;
  result ← (if i_Valid (T := T) index_iter then
      input ← lift (i_value (T := T) index_iter);
      '(s, handle, _) ← lift (Handle_DecodeFrom new_BlockHandle input);
      mret (if ok s then h_offset handle else h_offset (t_metaindex_handle table))
    else mret (h_offset (t_metaindex_handle table)));
  _ ← i_delete index_iter;
  mret result.
End table.
Arguments Table : clear implicits.
Arguments block_cleanup : clear implicits.
