(* ===== verification/TableProps.v ===== *)
(** * What tables guarantee

    Opening a table that was built; its iterator keeps the laws of iterators for the entries of
    the table, with or without a block cache; lookups through the filter miss no key. *)
From Stdlib Require Import Strings.String.
From stdpp Require Import sorting gmap.
From S2P Require Import Prelude Buffers CLib Order Coding Comparator Status Bloom FilterBlock Env Block BlockProps TableFormat TableBuilder TableFinish Iterator IterProps TwoLevel TwoLevelProps Table.

#[local] Open Scope Z_scope.
#[local] Open Scope list_scope.

(** ** A table in a file *)

Section table.
Context {C : Comparator} {okk : list byte → Prop} {c : list byte → list byte → Z} {Hspec : ComparatorSpec C okk c}.
Context {F : Type} `{HF : RandomAccessFileSpec F} {S : Snappy} (addr : list byte → Z).
Context {T Han : Type} `{HT : BlockCacheSpec T Han}.
Context (okf : list byte → Prop) (opt : Options) (file : F) (ds : list dblock) (idx : list entry) (fh : BlockHandle).
#[local] Abbreviation X := (ra_contents file).
Context (HX : zlen X < 2^32) (Htable : table_file (okk := okk) (c := c) opt X ds idx fh) (Hsorted : sorted (okk := okk) (c := c) okf (all_entries ds)).

Lemma small_block contents : compact X contents → zlen contents < 2^32.
Proof using HX. unfold compact. lia. Qed.

(** Reading the block at a handle. *)
Lemma read_block h contents verify : stored X h contents → ∃ b, ReadBlock addr file verify h = Ok (OK, b) ∧ bc_data b = contents.
Proof using HX. intros Hs. apply ReadBlock_Ok; [done|]. unfold ones64. lia. Qed.

(** A block that lays out entries is opened. *)
Lemma holds_open h es verify : holds X h es → ∃ contents b it, ReadBlock addr file verify h = Ok (OK, contents) ∧ new_Block (bc_data contents) = Ok b
  ∧ NewIterator b = Ok it ∧ block_pos es it (length es).
Proof using HX.
  intros (shs & rs & Hl & Hs & Hc). destruct (read_block h _ verify Hs) as (b & E & Eb). pose proof (small_block _ Hc) as Hsz.
  destruct (new_Block_Ok es shs rs Hl Hsz) as (blk & it & E1 & E2 & Hend). exists b, blk, (BlockIterator it). rewrite Eb.
  split; [done|]. split; [done|]. split; [done|]. exists it, shs, rs. split; [done|]. split; [done|]. split; [done|]. by right.
Qed.

Lemma data_holds d : d ∈ ds → holds X (d_handle d) (d_entries d).
Proof using Htable.
  destruct Htable as (Hb & _). intros Hd. rewrite Forall_forall in Hb. destruct (Hb d Hd) as (Hl & _ & Hs & Hc). by exists (d_shs d), (d_rs d).
Qed.

(** *** What index values stand for *)

Definition entries_at (v : list byte) : list entry :=
  match List.find (λ d, bool_decide (encode_handle (d_handle d) = v)) ds with Some d => d_entries d | None => [] end.

Lemma data_handle_fine d : d ∈ ds → handle_ok (d_handle d).
Proof using Htable HX.
  intros Hd. destruct Htable as (Hb & _). rewrite Forall_forall in Hb. apply (data_handle_ok X d (Hb d Hd)). lia.
Qed.

Lemma ascending_inj d d' : d ∈ ds → d' ∈ ds → h_offset (d_handle d) = h_offset (d_handle d') → d = d'.
Proof using Htable.
  destruct Htable as (_ & Ha & _). revert Ha. clear. unfold ascending. induction 1 as [|x l Hl IH Hx]; [by intros ?%elem_of_nil|].
  rewrite Forall_forall in Hx. intros [->|Hd]%elem_of_cons [->|Hd']%elem_of_cons E; [done| | |by apply IH].
  - specialize (Hx _ Hd'). rewrite E in Hx. lia.
  - specialize (Hx _ Hd). rewrite E in Hx. lia.
Qed.

Lemma entries_at_Ok d : d ∈ ds → entries_at (encode_handle (d_handle d)) = d_entries d.
Proof using Htable HX.
  intros Hd. unfold entries_at. destruct (List.find _ ds) as [d'|] eqn:E.
  - apply find_some in E as [Hd' E%bool_decide_eq_true]. apply list_elem_of_In in Hd'.
    apply encode_handle_inj in E; [|by apply data_handle_fine..]. by rewrite (ascending_inj d' d) by by rewrite ?E.
  - apply (find_none _ _) with (x := d) in E; [|by apply list_elem_of_In]. by rewrite bool_decide_true in E.
Qed.

(** The entry of the index for a block. *)
Lemma index_block i e : idx !! i = Some e → ∃ d, ds !! i = Some d ∧ d ∈ ds ∧ e.2 = encode_handle (d_handle d) ∧ data entries_at e = d_entries d.
Proof using Htable HX.
  intros He. destruct Htable as (_ & _ & (Hl & Hsep & _) & _). destruct (lookup_lt_is_Some_2 ds i) as [d Hd]; [rewrite <-Hl; by eapply lookup_lt_Some|].
  destruct (Hsep i e d He Hd) as (_ & Ev & _). pose proof (list_elem_of_lookup_2 _ _ _ Hd) as Hin. exists d. split; [done|]. split; [done|].
  split; [done|]. unfold data. rewrite Ev. by apply entries_at_Ok.
Qed.

Lemma index_block_in e : e ∈ idx → ∃ d, d ∈ ds ∧ e.2 = encode_handle (d_handle d) ∧ data entries_at e = d_entries d.
Proof using Htable HX. intros [i He]%list_elem_of_lookup. destruct (index_block i e He) as (d & _ & Hd). by exists d. Qed.

Lemma all_data : all (idx := idx) entries_at = all_entries ds.
Proof using Htable HX.
  unfold all, blocks, all_entries. f_equal. apply list_eq. intros i. rewrite !list_lookup_fmap. destruct (idx !! i) as [e|] eqn:He.
  - destruct (index_block i e He) as (d & -> & _ & _ & E). cbn. by rewrite E.
  - destruct Htable as (_ & _ & (Hl & _) & _). apply lookup_ge_None in He. by rewrite (lookup_ge_None_2 ds) by lia.
Qed.

Lemma index_splits_Ok : index_splits (idx := idx) (c := c) entries_at.
Proof using Htable HX.
  intros b e He. destruct (index_block b e He) as (d & Hd & _ & _ & ->). destruct Htable as (_ & _ & (_ & Hsep & _) & _).
  destruct (Hsep b e d He Hd) as (_ & _ & Hle & Hlt). split; [done|]. intros b' e' x Hb He'. destruct (index_block b' e' He') as (d' & Hd' & _ & _ & ->).
  by apply (Hlt b' d').
Qed.

Lemma data_sorted e : e ∈ idx → StronglySorted (λ a b : entry, c a.1 b.1 < 0) (data entries_at e) ∧ Forall (λ e : entry, okk e.1) (data entries_at e).
Proof using Htable HX Hsorted.
  intros He. destruct (index_block_in e He) as (d & Hd & _ & ->). apply list_elem_of_split in Hd as (l1 & l2 & E). destruct Hsorted as [Hs Ho]. clear - Hs Ho E.
  rewrite E, all_entries_app in *. unfold all_entries in Hs at 2, Ho at 2. cbn in Hs, Ho. apply StronglySorted_app_1_r, StronglySorted_app_1_l in Hs. split; [done|].
  rewrite !Forall_app in Ho. destruct Ho as (_ & Ho & _). by eapply Forall_impl; [exact Ho|]; intros x [? _].
Qed.

(** *** The block cache *)

(** What the cache holds for this table. *)
Definition cached_block (off : Z) (b : Block) : Prop :=
  ∃ d, d ∈ ds ∧ h_offset (d_handle d) = off ∧ new_Block (d_contents d) = Ok b.

(** An open table: its file and index, and the meaning of the cache for its number. *)
Record opened (tab : Table F) (Φ : Z → Z → Block → Prop) : Prop := {
  op_file : t_file tab = file;
  op_cache : has_cache tab = true → 0 ≤ cache_id tab < 2^64 ∧ ∀ off b, Φ (cache_id tab) off b ↔ cached_block off b;
  op_index : ∃ it, NewIterator (t_index_block tab) = Ok it ∧ block_pos idx it (length idx) ∧ (length idx ≤ Z.to_nat (size_ (t_index_block tab)))%nat;
  op_meta : Forall (λ d, h_offset (d_handle d) < h_offset (t_metaindex_handle tab)) ds }.

(** The filter of an open table answers for each block with the filter of its keys. *)
Definition filter_opened (filter : option (FilterPolicy * FilterBlockReader)) : Prop :=
  match filter_policy opt with
  | None => filter = None
  | Some p => ∃ r (fs : list (list byte)), filter = Some (policy p, r)
      ∧ (∀ off k f, 0 ≤ off → fs !! Z.to_nat (off / kFilterBase) = Some f → @Reader_KeyMayMatch (policy p) r off k = @KeyMayMatch (policy p) k f)
      ∧ ∀ d, d ∈ ds → ∃ f, fs !! Z.to_nat (h_offset (d_handle d) / kFilterBase) = Some f
          ∧ ∀ e, e ∈ d_entries d → @KeyMayMatch (policy p) e.1 f = Ok true
  end.

Lemma ReadFilter_Ok p : filter_policy opt = Some p → ∃ filter, ReadFilter addr (encode_handle fh) p file = Ok filter ∧ filter_opened filter.
Proof using HX Htable.
  intros Ep. destruct Htable as (Hblocks & _ & _ & Hf & _). unfold filter_ok, filter_opened in *. rewrite Ep in *.
  destruct Hf as (fs & kss & Hh & Hst & Hl & Hall & Hk). unfold ReadFilter.
  pose proof (Handle_DecodeFrom_Ok fh new_BlockHandle [] Hh) as Edec. rewrite app_nil_r in Edec. rewrite Edec. cbn [mbind res_bind].
  change (ok OK) with true. cbn [negb]. destruct (read_block fh _ (verify_checksums default_ReadOptions) Hst) as (b & -> & Ebd). cbn [mbind res_bind].
  change (ok OK) with true. cbn [negb]. rewrite Ebd. destruct (@reader_reads (policy p) fs ltac:(lia)) as (r & -> & Hr). cbn [mbind res_bind].
  eexists. split; [done|]. exists r, fs. split; [done|]. split; [exact Hr|]. intros d Hd. rewrite Forall_forall in Hblocks. destruct (Hblocks d Hd) as (_ & Hne & _).
  destruct (d_entries d) as [|x l] eqn:El; [done|]. destruct (Hk d x Hd) as (ks & Hks & _); [rewrite El; left|].
  destruct (Forall2_lookup_r _ _ _ _ _ Hall Hks) as (f & Hf & Hm). exists f. split; [done|]. intros e He.
  destruct (Hk d e Hd) as (ks' & Hks' & Hin); [by rewrite El|]. rewrite Hks in Hks'. injection Hks' as <-. by apply Hm.
Qed.

Context (Hshort : ∀ p, filter_policy opt = Some p → short (filter_key p)).

Lemma ReadMeta_Ok mh ih t : holds X mh (meta_entries opt fh) →
  wp (ReadMeta (T := T) addr opt (MkFooter mh ih) file) (λ filter t', t' = t ∧ filter_opened filter) t.
Proof using HX Htable Hshort.
  intros Hm. unfold ReadMeta. destruct (filter_policy opt) as [p|] eqn:Ep; [|by apply wp_ret; split; [|unfold filter_opened; rewrite Ep]].
  destruct (holds_open mh _ (verify_checksums default_ReadOptions) Hm) as (contents & b & it & Er & Eb & Eit & Hpos). unfold meta_entries in Hpos. rewrite Ep in Hpos. pose proof (Hshort p eq_refl) as Hsh.
  apply wp_bind, (wp_lift _ (OK, contents)); [done|]. change (ok OK) with true. cbn [negb]. apply wp_bind, (wp_lift _ b); [done|].
  apply wp_bind, (wp_lift _ it); [done|]. set (es := [(filter_key p, encode_handle fh)]) in *.
  assert (IteratorSpec (R := unit) (H := block_iterator_iterator (comparator := BytewiseComparator)) (λ _ t', t' = t) short strcmp_aux es (block_pos es) block_owns) as Hs.
  { apply block_spec; [apply bytewise_spec|repeat constructor|]. constructor; [exact Hsh|done]. }
  apply wp_bind. apply (wp_mono _ _ _ _ (@Seek_spec _ _ _ _ _ _ _ _ _ _ Hs it _ (filter_key p) Hpos Hsh [] t eq_refl)). intros it2 t2 [Hpos2 ->].
  assert (rank strcmp_aux (filter_key p) es = 0%nat) as Erank by (unfold es; cbn [rank fst]; by rewrite (@cmp_refl _ strcmp_aux bytes_order)). rewrite Erank in Hpos2.
  destruct (@pos_valid _ _ _ _ _ _ _ _ _ _ Hs it2 _ Hpos2) as (_ & Hv & _). destruct (@pos_entry _ _ _ _ _ _ _ _ _ _ Hs it2 _ _ _ Hpos2 eq_refl) as [Ek Ev].
  rewrite Hv. cbn [bool_decide length]. rewrite bool_decide_true by (cbn; lia). apply wp_bind, (wp_lift _ (filter_key p)); [done|].
  apply wp_bind, (wp_lift _ true); [rewrite Slice_eq_Ok; by rewrite bool_decide_true|]. apply wp_bind, (wp_lift _ (encode_handle fh)); [done|].
  destruct (ReadFilter_Ok p Ep) as (filter & Ef & Hf). apply wp_bind, (wp_lift _ filter); [done|]. apply wp_bind, wp_ret, wp_ret. by split.
Qed.

Lemma new_Block_size contents b it : new_Block contents = Ok b → NewIterator b = Ok (BlockIterator it) → size_ b = zlen contents.
Proof using.
  clear. unfold new_Block, NewIterator. destruct (zlen contents <? 4); [by intros [= <-]|]. intros Hb. inv_ok.
  case_match; inv_ok; cbn in *; [|done]. intros Hn. by inv_ok.
Qed.

Lemma layout_length es shs rs : layout es shs rs → zlen es ≤ zlen (block_of es shs rs).
Proof using.
  clear. intros Hl. pose proof (off_le es shs rs Hl 0 (length es) ltac:(lia) ltac:(lia)). rewrite (bytes_length es shs rs Hl).
  assert (∀ i, (i ≤ length es)%nat → Z.of_nat i ≤ off shs es i) as Hi; [|specialize (Hi (length es)); lia].
  induction i as [|i IH]; intros Hi; [unfold off; simpl; lia|]. pose proof (off_step es shs rs Hl i). lia.
Qed.

(** The blocks of one more table. *)
Definition with_table (cache : bool) (id : Z) (Φ0 : Z → Z → Block → Prop) (i : Z) : Z → Block → Prop :=
  if decide (cache = true ∧ i = id) then cached_block else Φ0 i.

Lemma Table_Open_Ok cache Φ0 frame t : (cache = true → 0 < ids_left t) → cache_ok Φ0 frame t →
  wp (Table_Open addr opt cache file (zlen X)) (λ r t', ∃ tab, r = (OK, Some tab) ∧ has_cache tab = cache ∧ filter_opened (t_filter tab)
    ∧ opened tab (with_table cache (cache_id tab) Φ0) ∧ cache_ok (with_table cache (cache_id tab) Φ0) frame t') t.
Proof using HX Htable Hshort.
  intros Hids HP. pose proof Htable as (_ & _ & _ & _ & body & mh & ih & EX & Hmh & Hih & Hlow & Hm & Hi).
  assert (zlen X = zlen body + 48) as Hl by (rewrite EX at 1; rewrite length_app; pose proof (footer_length (MkFooter mh ih)) as Hf; change kEncodedLength with 48 in Hf; lia).
  unfold Table_Open. change kEncodedLength with 48. rewrite (proj2 (Z.ltb_ge _ _)) by lia. rewrite u64_small by lia.
  destruct (ra_Read_spec (zlen X - 48) 48 file) as [scratch ->]; [lia|lia|]. change (ok OK) with true. cbn [negb].
  replace (drop (Z.to_nat (zlen X - 48)) X) with (footer_bytes (MkFooter mh ih)).
  2:{ rewrite EX at 2. replace (Z.to_nat (zlen X - 48)) with (length body) by lia. by rewrite drop_app_length. }
  rewrite take_ge by (pose proof (footer_length (MkFooter mh ih)) as Hf; change kEncodedLength with 48 in Hf; lia).
  apply wp_bind, (wp_lift _ (OK, MkFooter mh ih, [])); [by apply Footer_DecodeFrom_Ok|]. change (ok OK) with true. cbn [negb index_handle_].
  destruct (holds_open ih idx (verify_checksums default_ReadOptions) Hi) as (contents & b & it & Er & Eb & Eit & Hpos).
  apply wp_bind, (wp_lift _ (OK, contents)); [done|]. change (ok OK) with true. cbn [negb]. apply wp_bind, (wp_lift _ b); [done|].
  apply wp_bind.
  assert (wp (if cache then bc_NewId else mret 0) (λ id t', (cache = true → 0 ≤ id < 2^64) ∧ cache_ok (with_table cache id Φ0) frame t') t) as Hid.
  { destruct cache; [|by apply wp_ret]. apply (wp_mono _ _ _ _ (bc_NewId_spec Φ0 frame t HP (Hids eq_refl))). intros id t' [Hid Hall]. split; [done|]. apply Hall.
    intros i Hne. unfold with_table. by rewrite decide_False by (intros [_ E]; by apply Hne). }
  apply (wp_mono _ _ _ _ Hid). intros id t1 [Hnum HP1]. apply wp_bind. apply (wp_mono _ _ _ _ (ReadMeta_Ok mh ih t1 Hm)). intros filter ? [-> Hf].
  apply wp_ret. eexists. split; [done|]. split; [done|]. split; [done|]. split; [|done].
  split; cbn [t_file has_cache cache_id t_index_block t_metaindex_handle]; [done| | |done].
  - intros ->. split; [by apply Hnum|]. intros off blk. unfold with_table. by rewrite decide_True.
  - destruct Hi as (shs & rs & Hlay & Hst & Hc). exists it. split; [done|]. split; [done|].
      destruct (read_block ih _ (verify_checksums default_ReadOptions) Hst) as (b' & Er' & Ec'). rewrite Er in Er'. injection Er' as <-.
      destruct Hpos as (bit & shs' & rs' & -> & _). rewrite (new_Block_size _ b bit Eb Eit), Ec'. pose proof (layout_length _ _ _ Hlay). lia.
Qed.

Context (tab : Table F) (Φ : Z → Z → Block → Prop) (Hopen : opened tab Φ) (opts : ReadOptions).

Lemma contents_open d : d ∈ ds → ∃ b it, new_Block (d_contents d) = Ok b ∧ NewIterator b = Ok it ∧ block_pos (d_entries d) it (length (d_entries d)).
Proof using HX Htable.
  intros Hd. destruct Htable as (Hb & _). rewrite Forall_forall in Hb. destruct (Hb d Hd) as (Hl & _ & Hs & Hc). pose proof (small_block _ Hc) as Hsz.
  destruct (new_Block_Ok _ _ _ Hl Hsz) as (b & it & E1 & E2 & Hend). exists b, (BlockIterator it). split; [done|]. split; [done|].
  exists it, (d_shs d), (d_rs d). split; [done|]. split; [done|]. split; [done|]. by right.
Qed.

Lemma data_offset d : d ∈ ds → 0 ≤ h_offset (d_handle d) < 2^64.
Proof using HX Htable. intros Hd. pose proof (data_handle_fine d Hd) as [? _]. unfold ones64 in *. lia. Qed.

Lemma find_block_Ok d frame t : d ∈ ds → cache_ok Φ frame t →
  wp (find_block addr tab opts (d_handle d))
    (λ r t', ∃ b h, r = (OK, Some (b, h)) ∧ new_Block (d_contents d) = Ok b ∧ cache_ok Φ (option_list h ++ frame) t') t.
Proof using HX Htable Hopen.
  intros Hd HP. destruct Hopen as [Hfile Hphi _ _]. unfold find_block. rewrite Hfile. destruct (contents_open d Hd) as (b & it & Eb & _).
  assert (stored X (d_handle d) (d_contents d)) as Hst by (destruct Htable as (Hb & _); rewrite Forall_forall in Hb; apply (Hb d Hd)).
  destruct (read_block _ _ (verify_checksums opts) Hst) as (contents & Er & Ec). pose proof (data_offset d Hd) as Hoff.
  destruct (has_cache tab) eqn:Ecache.
  - destruct (Hphi eq_refl) as [Hid Hblocks]. apply wp_bind.
    apply (wp_mono _ _ _ _ (bc_Lookup_spec Φ frame (cache_id tab) _ t HP Hid Hoff)). intros [h|] t1.
    + intros [HP1 (b' & Eb' & Hb')]. apply wp_bind. unfold get_st. apply (wp_intro _ _ _ t1 t1); [done|]. apply wp_bind, (wp_lift _ b'); [done|]. apply wp_ret.
      apply Hblocks in Hb' as (d' & Hd' & Eo & Eb2). exists b', (Some h). split; [done|]. split; [|done].
      by rewrite <-(ascending_inj d' d).
    + intros HP1. apply wp_bind, (wp_lift _ (OK, contents)); [done|]. change (ok OK) with true. cbv iota. rewrite Ec.
      apply wp_bind, (wp_lift _ b); [done|]. destruct (cachable contents && fill_cache opts).
      * apply wp_bind. assert (Φ (cache_id tab) (h_offset (d_handle d)) b) as Hb by (apply Hblocks; by exists d).
        apply (wp_mono _ _ _ _ (bc_Insert_spec Φ frame _ _ b (size_ b) t1 HP1 Hid Hoff Hb)). intros h t2 HP2. apply wp_ret. by exists b, (Some h).
      * apply wp_ret. by exists b, None.
  - apply wp_bind, (wp_lift _ (OK, contents)); [done|]. change (ok OK) with true. cbv iota. rewrite Ec.
    apply wp_bind, (wp_lift _ b); [done|]. apply wp_ret. by exists b, None.
Qed.

(** The handle an iterator of a block gives back. *)
Definition gives (f : block_cleanup Han) : list Han := match f with DeleteBlock => [] | ReleaseBlock h => [h] end.

Lemma gives_Ok f frame t : cache_ok Φ (gives f ++ frame) t → wp (run_block_cleanup f) (λ _ t', cache_ok Φ frame t') t.
Proof using. destruct f as [|h]; [by intros; apply wp_ret|]. apply bc_Release_spec. Qed.

#[local] Abbreviation block_iter := (cleaned block_iterator (block_cleanup Han)).
Definition jpos (es : list entry) : block_iter → nat → Prop := cleaned_pos (pos := block_pos es).
Definition jowns : block_iter → list Han := cleaned_owns (owns := block_owns) gives.

Lemma BlockReader_Ok e frame t : e ∈ idx → cache_ok Φ frame t →
  wp (BlockReader addr tab opts e.2) (λ j t', jpos (data entries_at e) j (length (data entries_at e)) ∧ cache_ok Φ (jowns j ++ frame) t') t.
Proof using HX Htable Hopen.
  intros He HP. destruct (index_block_in e He) as (d & Hd & Ev & ->). unfold BlockReader. rewrite Ev.
  pose proof (Handle_DecodeFrom_Ok (d_handle d) new_BlockHandle [] (data_handle_fine d Hd)) as Edec. rewrite app_nil_r in Edec.
  apply wp_bind, (wp_lift _ (OK, d_handle d, [])); [done|]. change (ok OK) with true. cbv iota. apply wp_bind.
  apply (wp_mono _ _ _ _ (find_block_Ok d frame t Hd HP)). intros r t' (b & h & -> & Eb & HP').
  destruct (contents_open d Hd) as (b' & it & Eb' & Eit & Hpos). rewrite Eb in Eb'. injection Eb' as <-.
  apply wp_bind, (wp_lift _ it); [done|]. apply wp_ret. split; [done|]. unfold jowns, cleaned_owns. cbn. rewrite app_nil_r. by destruct h.
Qed.

#[local] Existing Instance block_iter_iterator.
#[local] Instance data_spec e : e ∈ idx → @IteratorSpec T Han (cache_ok Φ) okk c block_iter block_iter_iterator (data entries_at e) (jpos (data entries_at e)) jowns.
Proof using HX Htable Hopen Hsorted Hspec.
  intros He. destruct (data_sorted e He) as [Hs Ho]. pose proof (block_spec (cache_ok Φ) _ Hs Ho). apply cleaned_spec, gives_Ok.
Qed.

Lemma index_sorted : StronglySorted (λ a b : entry, c a.1 b.1 < 0) idx ∧ Forall (λ e : entry, okk e.1) idx.
Proof using Htable.
  destruct Htable as (_ & _ & (Hl & Hsep & Hs) & _). split; [done|]. apply Forall_forall. intros e [i He]%list_elem_of_lookup.
  destruct (lookup_lt_is_Some_2 ds i) as [d Hd]; [rewrite <-Hl; by eapply lookup_lt_Some|]. by destruct (Hsep i e d He Hd) as [Hk _].
Qed.

(** *** The iterator of a table *)

Definition tpos : TwoLevelIterator block_iterator block_iter → nat → Prop := two_pos (idx := idx) (ipos := block_pos idx) entries_at jpos.
Definition towns : TwoLevelIterator block_iterator block_iter → list Han := two_owns (iowns := block_owns) jowns.

#[export] Instance table_spec : @IteratorSpec T Han (cache_ok Φ) okk c _ (table_iterator addr tab opts) (all_entries ds) tpos towns.
Proof using HX Htable Hopen Hsorted Hspec.
  destruct index_sorted as [Hs Ho]. pose proof (block_spec (cache_ok Φ) idx Hs Ho) as Hindex. rewrite <-all_data.
  pose proof (cache_ok_perm Φ). apply two_level_spec.
  - apply data_spec.
  - apply BlockReader_Ok.
  - intros e He. destruct (index_block_in e He) as (d & _ & -> & _). unfold short, int_max. pose proof (encode_handle_length (d_handle d)).
    unfold kMaxEncodedLength in *. lia.
  - apply (@spec_order _ _ _ Hspec).
  - apply index_splits_Ok.
  - destruct (op_index _ _ Hopen) as (it & _ & _ & Hl). unfold table_fuel. lia.
Qed.

Lemma Table_NewIterator_Ok frame t : cache_ok Φ frame t →
  wp (Table_NewIterator tab) (λ it t', tpos it (length (all_entries ds)) ∧ cache_ok Φ (towns it ++ frame) t') t.
Proof using HX Htable Hopen Hsorted Hspec.
  intros HP. destruct (op_index _ _ Hopen) as (it & Eit & Hpos & _). unfold Table_NewIterator. apply wp_bind, (wp_lift _ it); [done|].
  unfold new_TwoLevelIterator. apply wp_bind. destruct index_sorted as [Hs Ho]. pose proof (block_spec (cache_ok Φ) idx Hs Ho) as Hindex.
  apply (wp_mono _ _ _ _ (Wrapper_Set_Ok (P := cache_ok Φ) (owns := block_owns) it _ new_IteratorWrapper frame t eq_refl Hpos HP)). intros w t1 [Hw HP1].
  apply wp_bind, wp_ret, wp_ret. split; [|unfold towns, two_owns; cbn; by rewrite app_nil_r].
  right. split; [|by rewrite all_data]. split; [done|]. by rewrite lookup_ge_None_2 by done.
Qed.

(** *** Lookups *)

Lemma index_seek k frame t : okk k → cache_ok Φ frame t → ∃ it0, NewIterator (t_index_block tab) = Ok it0 ∧
  wp (i_Seek k it0) (λ it t', block_pos idx it (rank c k idx) ∧ cache_ok Φ frame t') t.
Proof using HX Htable Hopen Hspec.
  intros Hk HP. destruct (op_index _ _ Hopen) as (it & Eit & Hpos & _). exists it. split; [done|].
  destruct index_sorted as [Hs Ho]. pose proof (block_spec (cache_ok Φ) idx Hs Ho) as Hindex. by apply (Seek_spec (owns := block_owns) it (length idx) k Hpos Hk frame t HP).
Qed.

(** The entry that [saver] gets, unless the filter rejects the key: the first one of the block that is not below it. *)
Definition block_entry (k : list byte) : option entry :=
  e ← idx !! rank c k idx; data entries_at e !! rank c k (data entries_at e).

Lemma block_get e k frame t : e ∈ idx → okk k → cache_ok Φ frame t →
  wp (block_iter ← BlockReader addr tab opts e.2;
      block_iter ← i_Seek k block_iter;
      saved ← (if i_Valid (T := T) block_iter then k ← lift (i_key (T := T) block_iter); v ← lift (i_value (T := T) block_iter); mret (Some (k, v)) else mret None);
      s ← lift (i_status (T := T) block_iter);
      _ ← i_delete block_iter;
      mret (s, saved))
    (λ r t', r = (OK, data entries_at e !! rank c k (data entries_at e)) ∧ cache_ok Φ frame t') t.
Proof using HX Htable Hopen Hsorted Hspec.
  intros He Hk HP. pose proof (data_spec e He) as Hdata. apply wp_bind. apply (wp_mono _ _ _ _ (BlockReader_Ok e frame t He HP)). intros j t1 [Hpos HP1].
  apply wp_bind. apply (wp_mono _ _ _ _ (Seek_spec j _ k Hpos Hk frame t1 HP1)). intros j2 t2 [Hpos2 HP2].
  destruct (pos_valid j2 _ Hpos2) as (Hle & Hv & Hst). apply wp_bind. rewrite Hv.
  assert (wp (if bool_decide (rank c k (data entries_at e) < length (data entries_at e))%nat
      then k ← lift (i_key (T := T) j2); v ← lift (i_value (T := T) j2); mret (Some (k, v)) else mret None)
    (λ saved t', saved = data entries_at e !! rank c k (data entries_at e) ∧ t' = t2) t2) as Hsaved.
  { case_bool_decide as Hlt; [|apply wp_ret; by rewrite lookup_ge_None_2 by lia].
    destruct (lookup_lt_is_Some_2 _ _ Hlt) as [[k' v'] Hx]. destruct (pos_entry j2 _ _ _ Hpos2 Hx) as [Ek Ev].
    apply wp_bind, (wp_lift _ k'); [done|]. apply wp_bind, (wp_lift _ v'); [done|]. apply wp_ret. by rewrite Hx. }
  apply (wp_mono _ _ _ _ Hsaved). intros saved ? [-> ->]. apply wp_bind, (wp_lift _ OK); [done|]. apply wp_bind.
  apply (wp_mono _ _ _ _ (delete_spec j2 _ frame t2 Hpos2 HP2)). intros _ t3 HP3. by apply wp_ret.
Qed.

Lemma InternalGet_Ok k frame t : okk k → cache_ok Φ frame t →
  (∀ e, idx !! rank c k idx = Some e → ∃ rejects, filter_rejects tab e.2 k = Ok rejects) →
  wp (InternalGet addr tab opts k) (λ r t', cache_ok Φ frame t' ∧ r.1 = OK
    ∧ (r.2 = block_entry k ∨ r.2 = None ∧ ∃ e, idx !! rank c k idx = Some e ∧ filter_rejects tab e.2 k = Ok true)) t.
Proof using HX Htable Hopen Hsorted Hspec.
  intros Hk HP Hrej. unfold InternalGet. destruct (index_seek k frame t Hk HP) as (it0 & E0 & Hseek). apply wp_bind, (wp_lift _ it0); [done|].
  apply wp_bind. apply (wp_mono _ _ _ _ Hseek). intros it t1 [Hpos HP1]. destruct index_sorted as [Hs Ho].
  pose proof (block_spec (cache_ok Φ) idx Hs Ho) as Hindex. destruct (pos_valid (owns := block_owns) it _ Hpos) as (_ & Hv & Hst). unfold block_entry in *. apply wp_bind.
  destruct (idx !! rank c k idx) as [[ik iv]|] eqn:He.
  2:{ apply lookup_ge_None in He. rewrite Hv, bool_decide_false by lia. apply wp_ret. apply wp_bind. change (ok OK) with true. cbv iota.
      apply (wp_lift _ OK); [done|]. apply wp_bind, wp_ret, wp_ret. split; [done|]. split; [done|]. by left. }
  rewrite Hv, bool_decide_true by by eapply lookup_lt_Some. destruct (pos_entry (owns := block_owns) it _ _ _ Hpos He) as [_ Hval].
  apply wp_bind, (wp_lift _ iv); [done|]. destruct (Hrej _ eq_refl) as [rejects Er]. cbn [snd] in Er. apply wp_bind, (wp_lift _ rejects); [done|].
  destruct rejects.
  { apply wp_ret. apply wp_bind. change (ok OK) with true. cbv iota. apply (wp_lift _ OK); [done|]. apply wp_bind, wp_ret, wp_ret.
    split; [done|]. split; [done|]. right. split; [done|]. by exists (ik, iv). }
  apply wp_bind, (wp_lift _ iv); [done|].
  apply (wp_mono _ _ _ _ (block_get (ik, iv) k frame t1 (list_elem_of_lookup_2 _ _ _ He) Hk HP1)). intros r t2 [-> HP2].
  apply wp_bind. change (ok OK) with true. cbv iota. apply (wp_lift _ OK); [done|]. apply wp_bind, wp_ret, wp_ret. split; [done|]. split; [done|]. by left.
Qed.
End table.
