(* ===== verification/TableSpec.v ===== *)
(** * Tables from building to reading

    What a table that was built gives back: scans in both directions, scans from a key, lookups. *)
From Stdlib Require Import Strings.String.
From stdpp Require Import sorting gmap.
From S2P Require Import Prelude Buffers CLib Order Coding Comparator Status Bloom FilterBlock Env Block BlockProps TableFormat TableBuilder TableFinish Iterator IterProps TwoLevel TwoLevelProps Table TableProps.

#[local] Open Scope Z_scope.
#[local] Open Scope list_scope.

(** ** Programs of a client *)

Section client.
Context {comparator : Comparator} {F : Type} `{RandomAccessFile F} `{Snappy} (addr : list byte → Z).
Context {T Han : Type} `{BlockCache T Han}.
Context (opt : Options) (cache : bool) (opts : ReadOptions) (fuel : nat) (file : F) (size : Z).

(** Open the table and run a program of its iterator. *)
Definition with_iterator {A} (body : Iterator T (TwoLevelIterator block_iterator (cleaned block_iterator (block_cleanup Han))) →
    TwoLevelIterator block_iterator (cleaned block_iterator (block_cleanup Han)) →
    st T (A * TwoLevelIterator block_iterator (cleaned block_iterator (block_cleanup Han)))) : st T (Status * A) :=
  '(_, table) ← Table_Open addr opt cache file size;
  table ← lift (of_option table);
  let ops := table_iterator addr table opts in
  it ← Table_NewIterator table;
  '(a, it) ← body ops it;
  s ← lift (i_status (Iterator := ops) it);
  _ ← i_delete (Iterator := ops) it;
  mret (s, a).

(** All entries, forwards and backwards. *)
Definition read_table : st T (Status * (list entry * list entry)) :=
  with_iterator (λ ops it,
    '(forward, it) ← scan_forward fuel it;
    '(backward, it) ← scan_backward fuel it;
    mret ((forward, backward), it)).

(** The entries from a key on. *)
Definition read_from (target : list byte) : st T (Status * list entry) :=
  with_iterator (λ ops it, it ← i_Seek target it; scan i_Next fuel it).

(** Open the table and look a key up. *)
Definition get_table (k : list byte) : st T (Status * option entry) :=
  '(_, table) ← Table_Open addr opt cache file size; table ← lift (of_option table); InternalGet addr table opts k.
End client.

(** ** The read side, for any table *)

Section reads.
Context {C : Comparator} {okk : list byte → Prop} {c : list byte → list byte → Z} {Hspec : ComparatorSpec C okk c}.
Context {F : Type} `{HF : RandomAccessFileSpec F} {Sn : Snappy} (addr : list byte → Z).
Context {T Han : Type} `{HT : BlockCacheSpec T Han}.
Context (okf : list byte → Prop) (opt : Options) (file : F) (ds : list dblock) (idx : list entry) (fh : BlockHandle).
#[local] Abbreviation X := (ra_contents file).
#[local] Abbreviation es := (all_entries ds).
Context (HX : zlen X < 2^32) (Htable : table_file (okk := okk) (c := c) opt X ds idx fh) (Hsorted : sorted (okk := okk) (c := c) okf es).
Context (Hshort : ∀ p, filter_policy opt = Some p → short (filter_key p)).
Context (cache : bool) (opts : ReadOptions) (Φ : Z → Z → Block → Prop) (held : list Han).

(** A cache that has the blocks of the table and of others. *)
Definition cached (t : T) : Prop := ∃ Ψ, cache_ok Ψ held t.

Lemma with_iterator_Ok {A} (body : Iterator T _ → _ → st T (A * _)) (Q : A → Prop) t :
  (cache = true → 0 < ids_left t) → cache_ok Φ held t →
  (∀ ops pos owns Ψ it t, @IteratorSpec T Han (cache_ok Ψ) okk c _ ops es pos owns → pos it (length es) → cache_ok Ψ (owns it ++ held) t →
    wp (body ops it) (λ r t', Q r.1 ∧ ∃ i, pos r.2 i ∧ cache_ok Ψ (owns r.2 ++ held) t') t) →
  wp (with_iterator addr opt cache opts file (zlen X) body) (λ r t', r.1 = OK ∧ Q r.2 ∧ cached t') t.
Proof using HX Htable Hsorted Hspec Hshort.
  intros Hids HP Hbody. unfold with_iterator. apply wp_bind.
  apply (wp_mono _ _ _ _ (Table_Open_Ok addr opt file ds idx fh HX Htable Hshort cache Φ held t Hids HP)).
  intros r t1 (tab & -> & _ & _ & Hopen & HP1). apply wp_bind, (wp_lift _ tab); [done|]. apply wp_bind.
  apply (wp_mono _ _ _ _ (Table_NewIterator_Ok okf opt file ds idx fh HX Htable Hsorted tab _ Hopen held t1 HP1)). intros it t2 [Hpos HP2].
  pose proof (table_spec addr okf opt file ds idx fh HX Htable Hsorted tab _ Hopen opts) as Hs.
  apply wp_bind. apply (wp_mono _ _ _ _ (Hbody _ _ _ _ it t2 Hs Hpos HP2)). intros [a it'] t3 (HQ & i & Hpos' & HP3). cbn [fst snd] in *.
  destruct (@pos_valid _ _ _ _ _ _ _ _ _ _ Hs it' i Hpos') as (_ & _ & Hst). apply wp_bind, (wp_lift _ OK); [done|]. apply wp_bind.
  apply (wp_mono _ _ _ _ (@delete_spec _ _ _ _ _ _ _ _ _ _ Hs it' i held t3 Hpos' HP3)). intros _ t4 HP4. apply wp_ret. split; [done|]. split; [done|]. by eexists.
Qed.

Lemma read_table_Ok fuel t : (cache = true → 0 < ids_left t) → cache_ok Φ held t → (length es < fuel)%nat →
  wp (read_table addr opt cache opts fuel file (zlen X)) (λ r t', r = (OK, (es, reverse es)) ∧ cached t') t.
Proof using HX Htable Hsorted Hspec Hshort.
  intros Hids HP Hf. eapply wp_mono; [apply (with_iterator_Ok _ (λ a, a = (es, reverse es)) t Hids HP)|].
  - intros ops pos owns Ψ it t0 Hs Hpos HP0. apply wp_bind. apply (wp_mono _ _ _ _ (scan_forward_Ok (Hspec := Hs) fuel it _ held t0 Hpos HP0 Hf)).
    intros [l it1] t1 (E1 & Hpos1 & HP1). cbn [fst snd] in *. subst l. apply wp_bind.
    apply (wp_mono _ _ _ _ (scan_backward_Ok (Hspec := Hs) fuel it1 _ held t1 Hpos1 HP1 Hf)). intros [l it2] t2 (E2 & Hpos2 & HP2). cbn [fst snd] in *. subst l. apply wp_ret.
    split; [done|]. by eexists.
  - intros [s a] t' (Es & Ea & Hc). cbn [fst snd] in *. by rewrite Es, Ea.
Qed.

Lemma read_from_Ok fuel target t : (cache = true → 0 < ids_left t) → cache_ok Φ held t → okk target → (length es < fuel)%nat →
  wp (read_from addr opt cache opts fuel file (zlen X) target) (λ r t', r = (OK, drop (rank c target es) es) ∧ cached t') t.
Proof using HX Htable Hsorted Hspec Hshort.
  intros Hids HP Ht Hf. eapply wp_mono; [apply (with_iterator_Ok _ (λ a, a = drop (rank c target es) es) t Hids HP)|].
  - intros ops pos owns Ψ it t0 Hs Hpos HP0. apply wp_bind. apply (wp_mono _ _ _ _ (@Seek_spec _ _ _ _ _ _ _ _ _ _ Hs it _ target Hpos Ht held t0 HP0)).
    intros it1 t1 [Hpos1 HP1]. eapply wp_mono; [apply (scan_Next (Hspec := Hs) fuel it1 _ held t1 Hpos1 HP1); lia|].
    intros [l it2] t2 (E2 & Hpos2 & HP2). split; [done|]. by eexists.
  - intros [s a] t' (Es & Ea & Hc). cbn [fst snd] in *. by rewrite Es, Ea.
Qed.

(** The filter answers for every key it is asked about. *)
Definition filter_total : Prop := ∀ p k f, filter_policy opt = Some p → okf k → ∃ m, @KeyMayMatch (policy p) k f = Ok m.

Lemma filter_rejects_Ok tab e k : filter_opened opt ds (t_filter tab) → filter_total → okf k → e ∈ idx →
  ∃ m, filter_rejects (F := F) tab e.2 k = Ok (negb m) ∧ ∀ x, x ∈ data (entries_at ds) e → x.1 = k → m = true.
Proof using HX Htable.
  clear Hshort. intros Hf Htot Hk He. destruct (index_block_in opt file ds idx fh HX Htable e He) as (d & Hd & -> & ->). unfold filter_opened, filter_rejects, filter_total in *.
  destruct (filter_policy opt) as [p|]; [|rewrite Hf; by exists true]. destruct Hf as (r & fs & -> & Hread & Hkeys).
  pose proof (data_handle_fine opt file ds idx fh HX Htable d Hd) as Hh.
  pose proof (Handle_DecodeFrom_Ok (d_handle d) new_BlockHandle [] Hh) as Edec. rewrite app_nil_r in Edec. rewrite Edec. cbn [mbind res_bind].
  change (ok OK) with true. cbv iota. destruct (Hkeys d Hd) as (f & Ef & Hm). destruct Hh as [Ho _]. rewrite (Hread (h_offset (d_handle d)) k f ltac:(lia) Ef).
  destruct (Htot p k f eq_refl Hk) as [m Em]. rewrite Em. cbn [mbind res_bind]. exists m. split; [done|]. intros x Hx <-. rewrite (Hm x Hx) in Em. by injection Em.
Qed.

(** The entry of the block is the first one of the table that is not below the key. *)
Lemma block_entry_first k e : block_entry (c := c) ds idx k = Some e → es !! rank c k es = Some e.
Proof using HX Htable Hspec.
  unfold block_entry. destruct (idx !! rank c k idx) as [ie|] eqn:He; [|done]. cbn [mbind option_bind]. intros Hx.
  pose proof (rank_all (entries_at ds) (@spec_order _ _ _ Hspec) (index_splits_Ok opt file ds idx fh HX Htable) k) as Hr.
  rewrite (all_data opt file ds idx fh HX Htable), He in Hr. rewrite Hr. cbn [fmap option_fmap option_map place].
  rewrite <-(all_data opt file ds idx fh HX Htable), (start_lookup _ _ ie); [done|done|by eapply lookup_lt_Some].
Qed.

Lemma block_entry_key k v : (k, v) ∈ es → okk k → block_entry (c := c) ds idx k = Some (k, v)
  ∧ ∃ e, idx !! rank c k idx = Some e ∧ (k, v) ∈ data (entries_at ds) e.
Proof using HX Htable Hspec Hsorted.
  intros Hin Hk. pose proof (@spec_order _ _ _ Hspec) as Hord. destruct Hsorted as [Hs _]. apply list_elem_of_lookup in Hin as [p Hp].
  assert (rank c k es = p) as Er.
  { apply rank_unique; [apply lookup_lt_Some in Hp; lia| |].
    - intros i e Hi He. apply (sorted_lt es Hs i p e.1 e.2 k v); [by destruct e|done|done].
    - intros e He. rewrite Hp in He. injection He as <-. cbn. by rewrite (@cmp_refl _ c Hord). }
  pose proof (rank_all (entries_at ds) Hord (index_splits_Ok opt file ds idx fh HX Htable) k) as Hr. rewrite (all_data opt file ds idx fh HX Htable), Er in Hr.
  rewrite <-(all_data opt file ds idx fh HX Htable) in Hp. pose proof (lookup_lt_Some _ _ _ Hp) as Hlt. unfold block_entry.
  destruct (idx !! rank c k idx) as [e|] eqn:He; cbn [fmap option_fmap option_map place] in Hr.
  2:{ lia. }
  cbn [mbind option_bind]. pose proof (rank_le (c := c) k (data (entries_at ds) e)) as Hle.
  destruct (decide (rank c k (data (entries_at ds) e) < length (data (entries_at ds) e))%nat) as [Hl|Hge].
  - rewrite Hr, (start_lookup _ _ e _ He Hl) in Hp. rewrite Hp. split; [done|]. exists e. split; [done|]. by eapply list_elem_of_lookup_2.
  - destruct (all_lookup _ _ _ Hp) as (b' & e' & j & He' & Hj & Ep). exfalso.
    destruct (index_splits_Ok opt file ds idx fh HX Htable _ e He) as [_ Hafter]. pose proof (rank_at (c := c) k idx e He) as Hge2.
    assert (rank c k idx < b')%nat as Hb.
    { destruct (decide (rank c k idx < b')%nat); [done|]. pose proof (lookup_lt_Some _ _ _ Hj) as Hlj.
      pose proof (start_mono (idx := idx) (entries_at ds) (S b') (S (rank c k idx)) ltac:(lia)) as Hm. rewrite !(start_S _ _ _ He), (start_S _ _ _ He') in Hm. lia. }
    specialize (Hafter b' e' (k, v) Hb He' (list_elem_of_lookup_2 _ _ _ Hj)). cbn in Hafter. lia.
Qed.

Lemma get_table_Ok k t : (cache = true → 0 < ids_left t) → cache_ok Φ held t → filter_total → okk k → okf k →
  wp (get_table addr opt cache opts file (zlen X) k) (λ r t', r.1 = OK ∧ cached t'
    ∧ (∀ v, (k, v) ∈ es → r.2 = Some (k, v)) ∧ ∀ e, r.2 = Some e → es !! rank c k es = Some e) t.
Proof using HX Htable Hsorted Hspec Hshort.
  intros Hids HP Htot Hk Hkf. unfold get_table. apply wp_bind.
  apply (wp_mono _ _ _ _ (Table_Open_Ok addr opt file ds idx fh HX Htable Hshort cache Φ held t Hids HP)).
  intros r t1 (tab & -> & _ & Hf & Hopen & HP1). apply wp_bind, (wp_lift _ tab); [done|].
  eapply wp_mono; [apply (InternalGet_Ok addr okf opt file ds idx fh HX Htable Hsorted tab _ Hopen opts k held t1 Hk HP1)|].
  { intros e He. destruct (filter_rejects_Ok tab e k Hf Htot Hkf (list_elem_of_lookup_2 _ _ _ He)) as (m & E & _). by eexists. }
  intros r t2 (HP2 & Es & Hcase). split; [done|]. split; [by eexists|]. split.
  - intros v Hin. destruct (block_entry_key k v Hin Hk) as (Eb & e & He & Hx). destruct Hcase as [->|(_ & e' & He' & Er)]; [done|].
    rewrite He in He'. injection He' as <-. destruct (filter_rejects_Ok tab e k Hf Htot Hkf (list_elem_of_lookup_2 _ _ _ He)) as (m & Em & Hm).
    rewrite Em in Er. by rewrite (Hm _ Hx eq_refl) in Er.
  - intros e Ee. destruct Hcase as [E|(E & _)]; rewrite E in Ee; [by apply block_entry_first|done].
Qed.
End reads.
(** ** Properties *)

Section tables.
Context {C : Comparator} {okk : list byte → Prop} {c : list byte → list byte → Z} {Hspec : ComparatorSpec C okk c}.
Context {W : Type} `{HW : WritableFileSpec W} {F : Type} `{HF : RandomAccessFileSpec F} {Sn : Snappy} {HSn : SnappySpec Sn} (addr : list byte → Z).
Context {T Han : Type} `{HT : BlockCacheSpec T Han}.
(** Keys have at most [B] bytes; the filter policy takes [max_keys] keys in [okf], and [K] bytes for each. *)
Context (B : Z) (HB : 0 ≤ B) (Hkeys : ∀ k, okk k → zlen k ≤ B).
Context (max_keys : Z) (okf : list byte → Prop) (K : Z).
Context (opt : Options) (Hint : 1 ≤ block_restart_interval opt ≤ int_max) (Hpolicy : policy_ok max_keys okf K opt).
Context (es : list entry) (w : W) (Hempty : wf_contents w = []).
Context (Hsorted : sorted (okk := okk) (c := c) okf es) (Hfits : fits B max_keys K es).

(** What has been written. *)
Definition written (r : Rep (W := W)) : list byte := wf_contents (TableBuilder.file (sink r)).

(** A file with the table, of less than 4GB, and a cache that works and has a number for it. *)
Definition readable (r : Rep (W := W)) (f : F) (cache : bool) (Φ : Z → Z → Block → Prop) (held : list Han) (t : T) : Prop :=
  ra_contents f = written r ∧ FileSize r < 2^32 ∧ (cache = true → 0 < ids_left t) ∧ cache_ok Φ held t.

Lemma policy_short p : filter_policy opt = Some p → short (filter_key p).
Proof using Hpolicy. intros E. unfold policy_ok in Hpolicy. rewrite E in Hpolicy. by destruct Hpolicy as (_ & _ & _ & ?). Qed.

(** The table that was built, as its readers find it. *)
Lemma table_built_Ok : ∃ r, build_table addr opt es w = Ok (OK, r) ∧ closed r = true ∧ FileSize r = zlen (written r)
  ∧ ∀ f cache Φ held t, readable r f cache Φ held t → ∃ ds idx fh, zlen (ra_contents f) < 2^32
    ∧ table_file (okk := okk) (c := c) opt (ra_contents f) ds idx fh ∧ sorted (okk := okk) (c := c) okf (all_entries ds)
    ∧ es = all_entries ds ∧ FileSize r = zlen (ra_contents f) ∧ (cache = true → 0 < ids_left t) ∧ cache_ok Φ held t.
Proof using HB Hint Hkeys Hpolicy HSn Hspec Hempty Hsorted Hfits.
  destruct (build_table_Ok addr B HB Hkeys max_keys okf K opt Hint Hpolicy es w Hempty Hsorted Hfits)
    as (r & ds & idx & fh & Hb & Hes & Hcl & Hsz & Ht). exists r. split; [done|]. split; [done|]. split; [done|].
  intros f cache Φ held t (Hf & Hl & Hids & HP). fold (written r) in *. rewrite Hsz in *. rewrite <-Hf in *. rewrite Hes in Hsorted.
  by exists ds, idx, fh.
Qed.

(** Claim C23. Tables round trip: for any comparator, filter policy, compression library, files and
    block cache that keep their promises, and entries in strictly increasing order of their keys,
    the builder writes a table without an error; if it has less than 4GB, opening the file and
    scanning it gives exactly the entries, forwards and backwards, with status OK, whether blocks
    come from the file or the cache, and the cache gets back every handle. *)
Theorem table_roundtrip :
  ∃ r, build_table addr opt es w = Ok (OK, r) ∧ closed r = true ∧ FileSize r = zlen (written r)
    ∧ ∀ f cache Φ held t opts fuel, readable r f cache Φ held t → (length es < fuel)%nat →
        wp (read_table addr opt cache opts fuel f (FileSize r)) (λ a t', a = (OK, (es, reverse es)) ∧ cached held t') t.
Proof using HB Hint Hkeys Hpolicy HSn Hspec Hempty Hsorted Hfits.
  destruct table_built_Ok as (r & Hb & Hcl & Hsz & Hread). exists r. split; [done|]. split; [done|]. split; [done|].
  intros f cache Φ held t opts fuel Hr Hfuel. destruct (Hread _ _ _ _ _ Hr) as (ds & idx & fh & HX & Ht & Hs & Hes & -> & Hids & HP).
  rewrite Hes in Hfuel |- *. by apply (read_table_Ok addr okf opt f ds idx fh HX Ht Hs policy_short cache opts Φ).
Qed.

(** Seeking in a table: on a table that was built, [Seek] and then [Next] until the end
    give exactly the entries whose keys are not below the target, in order. *)
Theorem table_seek :
  ∃ r, build_table addr opt es w = Ok (OK, r)
    ∧ ∀ f cache Φ held t opts fuel target, readable r f cache Φ held t → (length es < fuel)%nat → okk target →
        wp (read_from addr opt cache opts fuel f (FileSize r) target)
          (λ a t', a = (OK, List.filter (λ e : entry, 0 <=? c e.1 target) es) ∧ cached held t') t.
Proof using HB Hint Hkeys Hpolicy HSn Hspec Hempty Hsorted Hfits.
  destruct table_built_Ok as (r & Hb & Hcl & Hsz & Hread). exists r. split; [done|].
  intros f cache Φ held t opts fuel target Hr Hfuel Htarget. destruct (Hread _ _ _ _ _ Hr) as (ds & idx & fh & HX & Ht & Hs & Hes & -> & Hids & HP).
  rewrite (filter_rank (@spec_order _ _ _ Hspec) target es) by apply Hsorted. rewrite Hes in Hfuel |- *.
  by apply (read_from_Ok addr okf opt f ds idx fh HX Ht Hs policy_short cache opts Φ).
Qed.

(** Claim C24. Lookups in a table miss nothing: on a table that was built, with a filter or without,
    [InternalGet] of a key that is in the table calls the saver with its entry; of any other key it
    returns OK too, and what the saver gets, if it is called, is the first entry after the key. *)
Theorem table_get (Htotal : filter_total okf opt) :
  ∃ r, build_table addr opt es w = Ok (OK, r)
    ∧ ∀ f cache Φ held t opts k, readable r f cache Φ held t → okk k → okf k →
        wp (get_table addr opt cache opts f (FileSize r) k) (λ a t', a.1 = OK ∧ cached held t'
          ∧ (∀ v, (k, v) ∈ es → a.2 = Some (k, v)) ∧ ∀ e, a.2 = Some e → List.find (λ e : entry, 0 <=? c e.1 k) es = Some e) t.
Proof using HB Hint Hkeys Hpolicy HSn Hspec Hempty Hsorted Hfits.
  destruct table_built_Ok as (r & Hb & Hcl & Hsz & Hread). exists r. split; [done|].
  intros f cache Φ held t opts k Hr Hk Hkf. destruct (Hread _ _ _ _ _ Hr) as (ds & idx & fh & HX & Ht & Hs & Hes & -> & Hids & HP).
  rewrite find_rank, Hes. by apply (get_table_Ok addr okf opt f ds idx fh HX Ht Hs policy_short cache opts Φ).
Qed.
End tables.

(** A table whose file is shorter than it is said to be is not refused: [Table::Open] decodes
    the footer without looking at how many bytes were read, and reads past them. *)
Theorem table_open_truncated {F : Type} `{RandomAccessFileSpec F} `{Snappy} {T Han : Type} `{BlockCache T Han}
    addr opt cache (f : F) size (t : T) (Hsize : kEncodedLength ≤ size < 2^64) (Hshort : zlen (ra_contents f) < size) :
  Table_Open addr opt cache f size t = Err UB.
Proof.
  change kEncodedLength with 48 in Hsize. unfold Table_Open. change kEncodedLength with 48. rewrite (proj2 (Z.ltb_ge _ _)) by lia. rewrite u64_small by lia.
  destruct (ra_Read_spec (size - 48) 48 f) as [scratch ->]; [lia|lia|]. change (ok OK) with true. cbn [negb]. apply run_err, lift_err.
  set (input := take _ _). assert (zlen input < 48) as Hl by (unfold input; rewrite length_take, length_drop; lia).
  unfold Footer_DecodeFrom. change (Z.to_nat (kEncodedLength - 8)) with 40%nat. destruct (Z.ltb_spec (zlen (drop 40 input)) 4) as [Hs|Hs].
  - unfold DecodeFixed32. by rewrite (read_bytes_UB (drop 40 input)) by lia.
  - destruct (DecodeFixed32 (drop 40 input)) as [lo|e] eqn:E.
    + cbn [mbind res_bind]. unfold DecodeFixed32. rewrite read_bytes_UB; [done|]. rewrite !length_drop in *. lia.
    + unfold DecodeFixed32 in E. rewrite read_bytes_Ok in E by lia. done.
Qed.
(** ** Witnesses *)

(** Five entries in blocks of a few of them, with a Bloom filter, a block cache, and a compression library that compresses nothing. *)
Definition sample_options : Options :=
  MkOptions 20 2 kSnappyCompression (Some (MkPolicy (str "leveldb.BuiltinBloomFilter") (bloom_policy (MkBloom 10 6)))).

Lemma sample_policy : policy_ok 100 (λ _, True) 20 sample_options.
Proof.
  split; [apply bloom_policy_spec; [by split|done]|]. split; [by apply (bloom_slim (MkBloom 10 6))|]. split; [done|]. vm_compute. discriminate.
Qed.

Lemma sample_entries_sorted : sorted (okk := short) (c := strcmp_aux) (λ _, True) sample.
Proof. split; [apply sample_sorted|]. repeat constructor; vm_compute; discriminate. Qed.

Lemma sample_fits : fits int_max 100 20 sample.
Proof. split; [reflexivity|]. split; [done|]. vm_compute. discriminate. Qed.

#[local] Existing Instance no_snappy.
Definition sample_build : res (Status * Rep (W := mem_writer)) :=
  build_table (comparator := BytewiseComparator) (λ _, 0) sample_options sample (MemWriter []).

Lemma sample_readable r : sample_build = Ok (OK, r) → readable (F := mem_file) r (MemFile (written r)) true (λ _ _ _, False) [] (MemCache [] 0).
Proof.
  intros Hb. split; [done|]. assert (match sample_build with Ok (_, r) => FileSize r | Err _ => 0 end < 2^32) as Hl by by vm_compute.
  rewrite Hb in Hl. refine (conj Hl (conj _ (conj _ (conj _ _)))); [by vm_compute|cbn; lia|intros ? ? ? []|intros key b []%elem_of_nil].
Qed.

Lemma table_roundtrip_witness :
  ∃ r, sample_build = Ok (OK, r)
    ∧ wp (read_table (comparator := BytewiseComparator) (λ _, 0) sample_options true default_ReadOptions 6 (MemFile (written r)) (FileSize r))
        (λ a t', a = (OK, (sample, reverse sample)) ∧ cached [] t') (MemCache [] 0).
Proof.
  destruct (table_roundtrip (Hspec := bytewise_spec) (HW := mem_writable_spec) (HF := mem_random_spec) (HSn := no_snappy_spec) (HT := mem_block_cache_spec)
    (λ _, 0) int_max ltac:(done) (λ k Hk, Hk) 100 (λ _, True) 20 sample_options ltac:(by split) sample_policy sample (MemWriter []) eq_refl
    sample_entries_sorted sample_fits) as (r & Hb & _ & _ & Hread).
  exists r. split; [exact Hb|]. apply (Hread _ true (λ _ _ _, False) [] _ default_ReadOptions 6%nat); [by apply sample_readable|]. vm_compute. lia.
Defined.

Lemma table_seek_witness :
  ∃ r, sample_build = Ok (OK, r)
    ∧ wp (read_from (comparator := BytewiseComparator) (λ _, 0) sample_options true default_ReadOptions 6 (MemFile (written r)) (FileSize r) (str "b"))
        (λ a t', a = (OK, List.filter (λ e : entry, 0 <=? strcmp_aux e.1 (str "b")) sample) ∧ cached [] t') (MemCache [] 0).
Proof.
  destruct (table_seek (Hspec := bytewise_spec) (HW := mem_writable_spec) (HF := mem_random_spec) (HSn := no_snappy_spec) (HT := mem_block_cache_spec)
    (λ _, 0) int_max ltac:(done) (λ k Hk, Hk) 100 (λ _, True) 20 sample_options ltac:(by split) sample_policy sample (MemWriter []) eq_refl
    sample_entries_sorted sample_fits) as (r & Hb & Hread).
  exists r. split; [exact Hb|]. apply (Hread _ true (λ _ _ _, False) [] _ default_ReadOptions 6%nat); [by apply sample_readable|vm_compute; lia|]. vm_compute. discriminate.
Defined.

Lemma table_get_witness :
  ∃ r, sample_build = Ok (OK, r)
    ∧ wp (get_table (comparator := BytewiseComparator) (λ _, 0) sample_options true default_ReadOptions (MemFile (written r)) (FileSize r) (str "b"))
        (λ a t', a.1 = OK ∧ cached [] t' ∧ (∀ v, (str "b", v) ∈ sample → a.2 = Some (str "b", v))
           ∧ ∀ e, a.2 = Some e → List.find (λ e : entry, 0 <=? strcmp_aux e.1 (str "b")) sample = Some e) (MemCache [] 0).
Proof.
  destruct (table_get (Hspec := bytewise_spec) (HW := mem_writable_spec) (HF := mem_random_spec) (HSn := no_snappy_spec) (HT := mem_block_cache_spec)
    (λ _, 0) int_max ltac:(done) (λ k Hk, Hk) 100 (λ _, True) 20 sample_options ltac:(by split) sample_policy sample (MemWriter []) eq_refl
    sample_entries_sorted sample_fits) as (r & Hb & Hread).
  { intros p k f [= <-]. apply (bloom_answers (λ _, True)). }
  exists r. split; [exact Hb|]. apply (Hread _ true (λ _ _ _, False) [] _ default_ReadOptions (str "b")); [by apply sample_readable| |done]. vm_compute. discriminate.
Defined.

(** A footer's length is promised, nothing is there. *)
Lemma table_open_truncated_witness :
  Table_Open (λ _, 0) sample_options true (MemFile []) 48 (MemCache [] 0) = Err UB.
Proof. by apply (table_open_truncated (λ _, 0) sample_options true (MemFile []) 48 (MemCache [] 0)). Defined.
