(* ===== verification/Merger.v ===== *)
(** * Merging iterators: leveldb table/merger.cc

    An iterator over several children shows the union of their entries in order: the smallest
    child when it moves forwards, the largest one when it moves backwards. *)
From S2P Require Import Prelude Buffers CLib Order Coding Comparator Status Block BlockProps Iterator.

#[local] Open Scope Z_scope.
#[local] Open Scope list_scope.

Inductive Direction := kForward | kReverse.

Section merger.
Context {T I : Type} `{Iterator T I} {comparator : Comparator}.
#[local] Abbreviation child := (IteratorWrapper I).

(** [current_] is the index of a child. *)
Record MergingIterator := MkMerging { children_ : list child; current_ : option nat; direction_ : Direction }.

Fixpoint set_children (children : list I) : st T (list child) :=
  match children with
  | [] => mret []
  | it :: children => w ← Wrapper_Set (Some it) new_IteratorWrapper; ws ← set_children children; mret (w :: ws)
  end.

Definition new_MergingIterator (children : list I) : st T MergingIterator :=
  ws ← set_children children; mret (MkMerging ws None kForward).

(** [for (int i = 0; i < n_; i++) f(i, children_[i])]. *)
Fixpoint each (f : nat → child → st T child) (i : nat) (ws : list child) : st T (list child) :=
  match ws with
  | [] => mret []
  | w :: ws => w ← f i w; ws ← each f (S i) ws; mret (w :: ws)
  end.

(** The smallest valid child from [i] on, or [smallest]; the first one of equal ones. *)
Fixpoint smallest_loop (ws : list child) (i : nat) (smallest : option (nat * child)) : res (option (nat * child)) :=
  match ws with
  | [] => mret smallest
  | w :: ws =>
      smallest ← (if i_Valid (T := T) w then
          match smallest with
          | None => mret (Some (i, w))
          | Some (_, s) => k ← i_key (T := T) w; k' ← i_key (T := T) s; r ← Compare k k'; mret (if r <? 0 then Some (i, w) else smallest)
          end
        else mret smallest);
      smallest_loop ws (S i) smallest
  end.

(** The children from the last one down. *)
Fixpoint largest_loop (ws : list child) (largest : option (nat * child)) : res (option (nat * child)) :=
  match ws with
  | [] => mret largest
  | w :: ws =>
      largest ← (if i_Valid (T := T) w then
          match largest with
          | None => mret (Some (length ws, w))
          | Some (_, s) => k ← i_key (T := T) w; k' ← i_key (T := T) s; r ← Compare k k'; mret (if 0 <? r then Some (length ws, w) else largest)
          end
        else mret largest);
      largest_loop ws largest
  end.

Definition FindSmallest (m : MergingIterator) : res MergingIterator :=
  smallest ← smallest_loop (children_ m) 0 None; mret (MkMerging (children_ m) (fst <$> smallest) (direction_ m)).
Definition FindLargest (m : MergingIterator) : res MergingIterator :=
  largest ← largest_loop (reverse (children_ m)) None; mret (MkMerging (children_ m) (fst <$> largest) (direction_ m)).

Definition Merging_Valid (m : MergingIterator) : bool := match current_ m with None => false | Some _ => true end.
Definition current (m : MergingIterator) : res child := i ← of_option (current_ m); of_option (children_ m !! i).
Definition is_current (m : MergingIterator) (i : nat) : bool := bool_decide (current_ m = Some i).

Definition Merging_key (m : MergingIterator) : res (list byte) :=
  _ ← c_assert (Merging_Valid m); w ← current m; i_key (T := T) w.
Definition Merging_value (m : MergingIterator) : res (list byte) :=
  _ ← c_assert (Merging_Valid m); w ← current m; i_value (T := T) w.

Definition Merging_SeekToFirst (m : MergingIterator) : st T MergingIterator :=
  ws ← each (λ _, i_SeekToFirst) 0 (children_ m);
  m ← lift (FindSmallest (MkMerging ws (current_ m) (direction_ m)));
  mret (MkMerging (children_ m) (current_ m) kForward).
Definition Merging_SeekToLast (m : MergingIterator) : st T MergingIterator :=
  ws ← each (λ _, i_SeekToLast) 0 (children_ m);
  m ← lift (FindLargest (MkMerging ws (current_ m) (direction_ m)));
  mret (MkMerging (children_ m) (current_ m) kReverse).
Definition Merging_Seek (target : list byte) (m : MergingIterator) : st T MergingIterator :=
  ws ← each (λ _, i_Seek target) 0 (children_ m);
  m ← lift (FindSmallest (MkMerging ws (current_ m) (direction_ m)));
  mret (MkMerging (children_ m) (current_ m) kForward).

(** Position a child after [key()], in [Next]; before it, in [Prev]. *)
Definition child_after (m : MergingIterator) (i : nat) (w : child) : st T child :=
  if is_current m i then mret w
  else
    key ← lift (Merging_key m);
    w ← i_Seek key w;
    if i_Valid (T := T) w then
      k ← lift (i_key (T := T) w); r ← lift (Compare key k);
      if r =? 0 then i_Next w else mret w
    else mret w.
Definition child_before (m : MergingIterator) (i : nat) (w : child) : st T child :=
  if is_current m i then mret w
  else
    key ← lift (Merging_key m);
    w ← i_Seek key w;
    if i_Valid (T := T) w then i_Prev w else i_SeekToLast w.

(** Move the current child. *)
Definition move_current (f : child → st T child) (m : MergingIterator) : st T MergingIterator :=
  i ← lift (of_option (current_ m)); w ← lift (of_option (children_ m !! i));
  w ← f w;
  mret (MkMerging (<[i := w]> (children_ m)) (current_ m) (direction_ m)).

Definition Merging_Next (m : MergingIterator) : st T MergingIterator :=
  _ ← lift (c_assert (Merging_Valid m));
  m ← match direction_ m with
      | kForward => mret m
      | kReverse => ws ← each (child_after m) 0 (children_ m); mret (MkMerging ws (current_ m) kForward)
      end;
  m ← move_current i_Next m; lift (FindSmallest m).
Definition Merging_Prev (m : MergingIterator) : st T MergingIterator :=
  _ ← lift (c_assert (Merging_Valid m));
  m ← match direction_ m with
      | kReverse => mret m
      | kForward => ws ← each (child_before m) 0 (children_ m); mret (MkMerging ws (current_ m) kReverse)
      end;
  m ← move_current i_Prev m; lift (FindLargest m).

(** [status] of the first child that has an error. *)
Fixpoint status_loop (ws : list child) (status : Status) : res Status :=
  match ws with
  | [] => mret status
  | w :: ws => status ← i_status (T := T) w; if negb (ok status) then mret status else status_loop ws status
  end.
Definition Merging_status (m : MergingIterator) : res Status := status_loop (children_ m) OK.

(** [delete[]] destroys the elements from the last one down. *)
Fixpoint delete_children (ws : list child) : st T unit :=
  match ws with [] => mret tt | w :: ws => _ ← i_delete w; delete_children ws end.
Definition delete_MergingIterator (m : MergingIterator) : st T unit := delete_children (reverse (children_ m)).

#[export] Instance merging_iterator : Iterator T MergingIterator := {|
  i_Valid := Merging_Valid;
  i_SeekToFirst := Merging_SeekToFirst;
  i_SeekToLast := Merging_SeekToLast;
  i_Seek := Merging_Seek;
  i_Next := Merging_Next;
  i_Prev := Merging_Prev;
  i_key := Merging_key;
  i_value := Merging_value;
  i_status := Merging_status;
  i_delete := delete_MergingIterator |}.

(** What [NewMergingIterator] makes: an empty iterator, its only argument, or a merging iterator. *)
Inductive merged := NoChild | OneChild (it : I) | Children (m : MergingIterator).

Definition NewMergingIterator (list : list I) : st T merged :=
  match list with
  | [] => mret NoChild
  | [it] => mret (OneChild it)
  | _ => m ← new_MergingIterator list; mret (Children m)
  end.

Definition on_merged (nothing : st T merged) (f : I → st T I) (g : MergingIterator → st T MergingIterator) (x : merged) : st T merged :=
  match x with
  | NoChild => nothing
  | OneChild it => it ← f it; mret (OneChild it)
  | Children m => m ← g m; mret (Children m)
  end.

#[export] Instance merged_iterator : Iterator T merged := {|
  i_Valid x := match x with NoChild => false | OneChild it => i_Valid it | Children m => i_Valid m end;
  i_SeekToFirst x := on_merged (mret x) i_SeekToFirst i_SeekToFirst x;
  i_SeekToLast x := on_merged (mret x) i_SeekToLast i_SeekToLast x;
  i_Seek target x := on_merged (mret x) (i_Seek target) (i_Seek target) x;
  i_Next := on_merged (lift (Err AssertFail)) i_Next i_Next;
  i_Prev := on_merged (lift (Err AssertFail)) i_Prev i_Prev;
  i_key x := match x with NoChild => Err AssertFail | OneChild it => i_key it | Children m => i_key m end;
  i_value x := match x with NoChild => Err AssertFail | OneChild it => i_value it | Children m => i_value m end;
  i_status x := match x with NoChild => mret OK | OneChild it => i_status it | Children m => i_status m end;
  i_delete x := match x with NoChild => mret tt | OneChild it => i_delete it | Children m => i_delete m end |}.
End merger.
Arguments MergingIterator : clear implicits.
Arguments merged : clear implicits.
