(* ===== verification/MergerProps.v ===== *)
(** * The merging iterator keeps the laws of iterators

    Children with the entries [s.1] of the sources [ss] make an iterator over the entries [es] of
    all of them, when these are in strictly increasing order. *)
From stdpp Require Import sorting.
From S2P Require Import Prelude Buffers CLib Order Coding Comparator Status Block BlockProps Iterator IterProps Merger.

#[local] Open Scope Z_scope.
#[local] Open Scope list_scope.

(** ** Cutting a sorted list *)

(** How many entries, from the first one, have keys that are [low]. *)
Fixpoint cut (low : list byte → bool) (es : list entry) : nat :=
  match es with [] => 0 | e :: es => if low e.1 then S (cut low es) else 0 end.

Lemma cut_le low es : (cut low es ≤ length es)%nat.
Proof. induction es as [|e es IH]; [done|]. cbn [cut length]. case_match; lia. Qed.

Lemma cut_before low es i e : (i < cut low es)%nat → es !! i = Some e → low e.1 = true.
Proof.
  revert i. induction es as [|e' es IH]; intros i; [done|]. cbn [cut]. destruct (low e'.1) eqn:E; [|lia].
  destruct i as [|i]; intros Hi He; [by injection He as <-|]. apply (IH i); [lia|done].
Qed.

Lemma cut_at low es e : es !! cut low es = Some e → low e.1 = false.
Proof.
  induction es as [|e' es IH]; [done|]. cbn [cut]. destruct (low e'.1) eqn:E; [done|]. intros He. by injection He as <-.
Qed.

Lemma cut_unique low es n : (n ≤ length es)%nat → (∀ i e, (i < n)%nat → es !! i = Some e → low e.1 = true) →
  (∀ e, es !! n = Some e → low e.1 = false) → cut low es = n.
Proof.
  revert n. induction es as [|e es IH]; intros n Hn Hlt Hge; cbn [cut length] in *; [lia|]. destruct n as [|n].
  - by rewrite (Hge e eq_refl).
  - rewrite (Hlt 0%nat e) by (done || lia). f_equal. apply IH; [lia| |done]. intros i e' Hi He'. apply (Hlt (S i)); [lia|done].
Qed.

Lemma cut_ext low low' es : (∀ e, e ∈ es → low e.1 = low' e.1) → cut low es = cut low' es.
Proof.
  induction es as [|e es IH]; intros H; [done|]. cbn [cut]. rewrite H by left. by rewrite IH by (intros; apply H; by right).
Qed.

Lemma cut_rank c target es : rank c target es = cut (λ k, c k target <? 0) es.
Proof. induction es as [|e es IH]; [done|]. cbn [cut rank]. by rewrite IH. Qed.

Lemma cut_true low es : (∀ e, e ∈ es → low e.1 = true) → cut low es = length es.
Proof. intros H. apply cut_unique; [done| |by intros e He; apply lookup_lt_Some in He; lia]. intros i e _ He. apply H. by eapply list_elem_of_lookup_2. Qed.

Lemma cut_false low es : (∀ e, e ∈ es → low e.1 = false) → cut low es = 0%nat.
Proof. intros H. apply cut_unique; [lia|intros; lia|]. intros e He. apply H. by eapply list_elem_of_lookup_2. Qed.

(** In sorted entries, the first [p] ones are those with keys below that of entry [p]. *)
Section below.
Context {c : list byte → list byte → Z} {Hord : CmpOrder c} (es : list entry) (Hsorted : StronglySorted (λ a b : entry, c a.1 b.1 < 0) es).

Definition below (p : nat) (k : list byte) : bool := match es !! p with Some e => c k e.1 <? 0 | None => true end.

Lemma index_lt i j e e' : es !! i = Some e → es !! j = Some e' → (i < j)%nat ↔ c e.1 e'.1 < 0.
Proof using Hsorted Hord.
  assert (∀ i j e e', es !! i = Some e → es !! j = Some e' → (i < j)%nat → c e.1 e'.1 < 0) as Hlt.
  { intros i0 j0 [k v] [k' v']. by apply (sorted_lt es Hsorted). }
  intros Hi Hj. split; [by apply Hlt|]. intros H. destruct (lt_eq_lt_dec i j) as [[?| ->]|Hji]; [done| |].
  - rewrite Hi in Hj. injection Hj as <-. rewrite (cmp_refl c) in H. lia.
  - pose proof (Hlt _ _ _ _ Hj Hi Hji). pose proof (cmp_anti (c := c) e.1 e'.1). lia.
Qed.

Lemma index_eq e e' : e ∈ es → e' ∈ es → c e.1 e'.1 = 0 → e = e'.
Proof using Hsorted Hord.
  intros [i Hi]%list_elem_of_lookup [j Hj]%list_elem_of_lookup E. pose proof (index_lt i j e e' Hi Hj). pose proof (index_lt j i e' e Hj Hi).
  pose proof (cmp_anti (c := c) e.1 e'.1). assert (i = j) as -> by lia. congruence.
Qed.

Lemma below_index i p e : es !! i = Some e → below p e.1 = bool_decide (i < p)%nat.
Proof using Hsorted Hord.
  intros Hi. unfold below. destruct (es !! p) as [e'|] eqn:Hp.
  - pose proof (index_lt i p e e' Hi Hp). destruct (Z.ltb_spec (c e.1 e'.1) 0); [rewrite bool_decide_true|rewrite bool_decide_false]; try done; lia.
  - apply lookup_ge_None in Hp. apply lookup_lt_Some in Hi. rewrite bool_decide_true; [done|lia].
Qed.

Lemma below_key p e k : es !! p = Some e → below p k = (c k e.1 <? 0).
Proof using. unfold below. by intros ->. Qed.

Lemma below_rank target e : e ∈ es → below (rank c target es) e.1 = (c e.1 target <? 0).
Proof using Hsorted Hord.
  intros [i Hi]%list_elem_of_lookup. rewrite (below_index i) by done. pose proof (rank_below (c := c) target es i e) as H1.
  destruct (decide (i < rank c target es)%nat) as [Hl|Hl]; [rewrite bool_decide_true by done; specialize (H1 Hl Hi); lia|].
  rewrite bool_decide_false by done. destruct (lookup_lt_is_Some_2 es (rank c target es)) as [e' He'].
  { apply lookup_lt_Some in Hi. lia. }
  pose proof (rank_at (c := c) target es e' He') as H2. symmetry. apply Z.ltb_ge. destruct (decide (i = rank c target es)) as [->|Hne].
  - rewrite He' in Hi. by injection Hi as <-.
  - pose proof (proj1 (index_lt _ _ _ _ He' Hi) ltac:(lia)). pose proof (cmp_anti (c := c) target e'.1). pose proof (cmp_anti (c := c) target e.1).
    pose proof (cmp_le_lt c target e'.1 e.1). lia.
Qed.
End below.

(** ** The loops that choose the current child *)

Section pick.
Context {T I : Type} `{HI : Iterator T I}.
Context {C : Comparator} {okk : list byte → Prop} {c : list byte → list byte → Z} {Hspec : ComparatorSpec C okk c}.
#[local] Abbreviation child := (IteratorWrapper I).

Fixpoint numbered (i : nat) (ws : list child) : list (nat * child) := match ws with [] => [] | w :: ws => (i, w) :: numbered (S i) ws end.

Lemma numbered_lookup i ws n w : (n, w) ∈ numbered i ws ↔ (i ≤ n)%nat ∧ ws !! (n - i)%nat = Some w.
Proof using.
  clear. revert i. induction ws as [|w' ws IH]; intros i; cbn [numbered].
  - split; [by intros ?%elem_of_nil|]. by intros [_ H].
  - rewrite elem_of_cons, IH. split.
    + intros [[= -> ->]|[Hi Hw]]; [split; [lia|]; by rewrite Nat.sub_diag|]. split; [lia|]. by replace (n - i)%nat with (S (n - S i)) by lia.
    + intros [Hi Hw]. destruct (decide (n = i)) as [->|Hne]; [left|right].
      * rewrite Nat.sub_diag in Hw. by injection Hw as ->.
      * split; [lia|]. by replace (n - i)%nat with (S (n - S i)) in Hw by lia.
Qed.

Lemma numbered_snoc i ws w : numbered i (ws ++ [w]) = numbered i ws ++ [((i + length ws)%nat, w)].
Proof using.
  clear. revert i. induction ws as [|w' ws IH]; intros i; cbn [numbered app length]; [by rewrite Nat.add_0_r|]. rewrite IH. by replace (S i + length ws)%nat with (i + S (length ws))%nat by lia.
Qed.

(** Both loops: the first child that is better than those before it. *)
Definition pick_step (better : Z → bool) (x : nat * child) (best : option (nat * child)) : res (option (nat * child)) :=
  if i_Valid (T := T) x.2 then
    match best with
    | None => mret (Some x)
    | Some b => k ← i_key (T := T) x.2; k' ← i_key (T := T) b.2; r ← Compare k k'; mret (if better r then Some x else best)
    end
  else mret best.
Fixpoint pick (better : Z → bool) (xs : list (nat * child)) (best : option (nat * child)) : res (option (nat * child)) :=
  match xs with [] => mret best | x :: xs => best ← pick_step better x best; pick better xs best end.

Lemma smallest_pick ws i best : smallest_loop ws i best = pick (λ r, r <? 0) (numbered i ws) best.
Proof using.
  clear. revert i best. induction ws as [|w ws IH]; intros i best; [done|]. cbn [smallest_loop pick numbered]. unfold pick_step. cbn [snd].
  destruct (i_Valid w); [|apply IH]. destruct best as [[j b]|]; [|apply IH]. cbn [snd].
  destruct (i_key w) as [k|]; [|done]. destruct (i_key b) as [k'|]; [|done]. cbn [mbind res_bind].
  destruct (Compare k k') as [r|]; [|done]. apply IH.
Qed.

Lemma largest_pick ws best : largest_loop (reverse ws) best = pick (λ r, 0 <? r) (reverse (numbered 0 ws)) best.
Proof using.
  clear. revert best. induction ws as [|w ws IH] using rev_ind; intros best; [done|]. rewrite reverse_snoc, numbered_snoc, reverse_snoc, Nat.add_0_l.
  cbn [largest_loop pick]. unfold pick_step. cbn [snd]. rewrite length_reverse.
  destruct (i_Valid w); [|apply IH]. destruct best as [[j b]|]; [|apply IH]. cbn [snd].
  destruct (i_key w) as [k|]; [|done]. destruct (i_key b) as [k'|]; [|done]. cbn [mbind res_bind].
  destruct (Compare k k') as [r|]; [|done]. apply IH.
Qed.

(** A child that is valid shows a key that can be compared. *)
Definition shows (w : child) (k : list byte) : Prop := i_Valid (T := T) w = true ∧ i_key (T := T) w = Ok k ∧ okk k.
Definition showing (w : child) : Prop := i_Valid (T := T) w = true → ∃ k, shows w k.

Lemma shows_inj w k k' : shows w k → shows w k' → k = k'.
Proof using. intros (_ & H1 & _) (_ & H2 & _). congruence. Qed.

(** [b] is one of [bs], and no key of [bs] comes before its key in the order [d]. *)
Definition first_of (d : list byte → list byte → Z) (b : nat * child) (bs : list (nat * child)) : Prop :=
  b ∈ bs ∧ ∃ k, shows b.2 k ∧ ∀ b' k', b' ∈ bs → shows b'.2 k' → d k k' ≤ 0.
Definition picked d (bs : list (nat * child)) (r : option (nat * child)) : Prop :=
  match r with None => ∀ b, b ∈ bs → i_Valid (T := T) b.2 = false | Some b => first_of d b bs end.
Definition seen (best : option (nat * child)) : list (nat * child) := match best with None => [] | Some b => [b] end.

Context (d : list byte → list byte → Z) (Hd : CmpOrder d).

Lemma picked_app bs1 bs2 r1 r : picked d bs1 r1 → picked d (seen r1 ++ bs2) r → picked d (bs1 ++ bs2) r.
Proof using Hd.
  destruct r1 as [b1|], r as [b|]; cbn [picked seen app].
  - intros (Hb1 & k1 & Hk1 & Hle1) (Hb & k & Hk & Hle). split.
    + apply elem_of_app. apply elem_of_cons in Hb as [->|Hb]; [by left|by right].
    + exists k. split; [done|]. intros b' k' [Hb'|Hb']%elem_of_app Hk'; [|apply (Hle b'); [by right|done]].
      apply (cmp_trans (c := d) k k1 k'); [apply (Hle b1); [by left|done]|by apply (Hle1 b')].
  - intros (_ & k & (Hv & _) & _) Hinv. specialize (Hinv b1 ltac:(by left)). congruence.
  - intros Hinv (Hb & k & Hk & Hle). split; [apply elem_of_app; by right|]. exists k. split; [done|].
    intros b' k' [Hb'|Hb']%elem_of_app Hk'; [|by apply (Hle b')]. apply Hinv in Hb'. destruct Hk' as [Hv _]. congruence.
  - intros H1 H2 b [Hb|Hb]%elem_of_app; [by apply H1|by apply H2].
Qed.

Lemma first_of_two b b1 b2 k : b = b1 ∨ b = b2 → shows b.2 k → (∀ k', shows b1.2 k' → d k k' ≤ 0) → (∀ k', shows b2.2 k' → d k k' ≤ 0) → first_of d b [b1; b2].
Proof using.
  intros Hb Hk H1 H2. split; [destruct Hb as [->| ->]; [by left|right; by left]|]. exists k. split; [done|].
  intros b' k' [->|[->|[]%elem_of_nil]%elem_of_cons]%elem_of_cons; [apply H1|apply H2].
Qed.

Lemma shows_refl w k k' : shows w k → shows w k' → d k k' ≤ 0.
Proof using Hd. intros H1 H2. rewrite (shows_inj _ _ _ H1 H2), (cmp_refl d). done. Qed.

Lemma pick_step_Ok better x best : (∀ a b, better (c a b) = (d a b <? 0)) → showing x.2 → (∀ b, best = Some b → ∃ k, shows b.2 k) →
  ∃ r, pick_step better x best = Ok r ∧ picked d (seen best ++ [x]) r.
Proof using Hspec Hd.
  intros Hb Hx Hbest. unfold pick_step, showing in *. destruct (i_Valid x.2) eqn:Ev.
  - destruct (Hx eq_refl) as [kx Hkx]. destruct best as [b|]; cbn [seen app].
    + destruct (Hbest b eq_refl) as [kb Hkb]. pose proof Hkx as (_ & -> & Hokx). pose proof Hkb as (_ & -> & Hokb). cbn [mbind res_bind].
      rewrite Compare_spec by done. cbn [mbind res_bind]. rewrite Hb. eexists. split; [done|]. destruct (Z.ltb_spec (d kx kb) 0) as [Hlt|Hge]; cbn [picked].
      * apply (first_of_two x b x kx); [by right|done| |intros k'; by apply shows_refl]. intros k' Hk'. rewrite <-(shows_inj _ _ _ Hkb Hk'). lia.
      * apply (first_of_two b b x kb); [by left|done|intros k'; by apply shows_refl|]. intros k' Hk'. rewrite <-(shows_inj _ _ _ Hkx Hk').
        pose proof (cmp_anti (c := d) kx kb). lia.
    + eexists. split; [done|]. split; [by left|]. exists kx. split; [done|]. intros b' k' [->|[]%elem_of_nil]%elem_of_cons. by apply shows_refl.
  - exists best. split; [done|]. destruct best as [b|]; cbn [seen app picked].
    + destruct (Hbest b eq_refl) as [kb Hkb]. apply (first_of_two b b x kb); [by left|done|intros k'; by apply shows_refl|]. intros k' [Hv _]. congruence.
    + by intros b [->|[]%elem_of_nil]%elem_of_cons.
Qed.

Lemma pick_Ok better xs : (∀ a b, better (c a b) = (d a b <? 0)) → ∀ best,
  (∀ x, x ∈ xs → showing x.2) → (∀ b, best = Some b → ∃ k, shows b.2 k) →
  ∃ r, pick better xs best = Ok r ∧ picked d (seen best ++ xs) r.
Proof using Hspec Hd.
  intros Hb. induction xs as [|x xs IH]; intros best Hxs Hbest; cbn [pick].
  - exists best. split; [done|]. rewrite app_nil_r. destruct best as [b|]; cbn [picked seen]; [|by intros ? ?%elem_of_nil].
    destruct (Hbest b eq_refl) as [k Hk]. split; [by left|]. exists k. split; [done|]. intros b' k' [->|[]%elem_of_nil]%elem_of_cons. by apply shows_refl.
  - destruct (pick_step_Ok better x best Hb (Hxs x ltac:(by left)) Hbest) as (b & -> & Hp). cbn [mbind res_bind].
    destruct (IH b) as (r & -> & Hr).
    + intros y Hy. apply Hxs. by right.
    + intros b' ->. destruct Hp as (_ & k & Hk & _). by exists k.
    + exists r. split; [done|]. replace (seen best ++ x :: xs) with ((seen best ++ [x]) ++ xs) by by rewrite <-app_assoc. by apply (picked_app _ _ b).
Qed.
End pick.

Section merging.
Context {T R : Type} {P : list R → T → Prop} {Hperm : Proper ((≡ₚ) ==> (=) ==> impl) P}.
Context {C : Comparator} {okk : list byte → Prop} {c : list byte → list byte → Z} {Hspec : ComparatorSpec C okk c}.
Context {I : Type} `{HI : Iterator T I} {owns : I → list R}.

(** A source: its entries, and when an iterator over them is at a position. *)
#[local] Abbreviation source := (list entry * (I → nat → Prop))%type.
#[local] Abbreviation sorted_entries := (StronglySorted (λ a b : entry, c a.1 b.1 < 0)).
Context (ss : list source) (Hsrc : Forall (λ s : source, IteratorSpec P okk c s.1 s.2 owns) ss).
Context (Hss : Forall (λ s : source, sorted_entries s.1) ss).
Context (es : list entry) (Hes : es ≡ₚ concat ss.*1) (Hsorted : sorted_entries es) (Hokk : Forall (λ e : entry, okk e.1) es).

#[local] Abbreviation child := (IteratorWrapper I).
#[local] Abbreviation wpos s := (wrapper_pos (pos := s.2)).
#[local] Abbreviation wowns := (wrapper_owns (owns := owns)).

(** ** Where the children are *)

(** Child [j] is at the position that [q] gives. *)
Fixpoint placed (q : nat → list entry → nat) (j : nat) (ss : list source) (ws : list child) : Prop :=
  match ss, ws with
  | [], [] => True
  | s :: ss, w :: ws => wpos s w (q j s.1) ∧ placed q (S j) ss ws
  | _, _ => False
  end.

Lemma placed_lookup q j l ws i s : placed q j l ws → l !! i = Some s → ∃ w, ws !! i = Some w ∧ wpos s w (q (j + i)%nat s.1).
Proof using.
  clear. revert j ws i. induction l as [|s' l IH]; intros j [|w ws] i; try done. intros [Hw Hws]. destruct i as [|i]; cbn.
  - intros [= <-]. exists w. by rewrite Nat.add_0_r.
  - intros Hi. destruct (IH (S j) ws i Hws Hi) as (w' & Hw' & Hp). exists w'. by replace (j + S i)%nat with (S j + i)%nat by lia.
Qed.

Lemma placed_lookup_r q j l ws i w : placed q j l ws → ws !! i = Some w → ∃ s, l !! i = Some s ∧ wpos s w (q (j + i)%nat s.1).
Proof using.
  clear. revert j ws i. induction l as [|s' l IH]; intros j [|w' ws] i; try done. intros [Hw Hws]. destruct i as [|i]; cbn.
  - intros [= <-]. exists s'. by rewrite Nat.add_0_r.
  - intros Hi. destruct (IH (S j) ws i Hws Hi) as (s & Hs & Hp). exists s. by replace (j + S i)%nat with (S j + i)%nat by lia.
Qed.

Lemma placed_mono q q' j l ws : placed q j l ws → (∀ i s, l !! i = Some s → q (j + i)%nat s.1 = q' (j + i)%nat s.1) → placed q' j l ws.
Proof using.
  clear. revert j ws. induction l as [|s l IH]; intros j [|w ws]; try done. intros [Hw Hws] Hq. split.
  - pose proof (Hq 0%nat s eq_refl) as E. rewrite Nat.add_0_r in E. by rewrite <-E.
  - apply IH; [done|]. intros i s' Hs. replace (S j + i)%nat with (j + S i)%nat by lia. by apply (Hq (S i)).
Qed.

Lemma placed_insert q q' j l ws i s w : placed q j l ws → l !! i = Some s → wpos s w (q' (j + i)%nat s.1) →
  (∀ i' s, i' ≠ i → l !! i' = Some s → q (j + i')%nat s.1 = q' (j + i')%nat s.1) → placed q' j l (<[i := w]> ws).
Proof using.
  clear. revert j ws i. induction l as [|s' l IH]; intros j [|w' ws] i; try done. intros [Hw' Hws] Hi Hw Hq. destruct i as [|i].
  - injection Hi as <-. rewrite Nat.add_0_r in Hw. split; [done|]. apply (placed_mono q); [done|]. intros i s Hs.
    replace (S j + i)%nat with (j + S i)%nat by lia. by apply Hq.
  - split.
    + pose proof (Hq 0%nat s' ltac:(lia) eq_refl) as E. rewrite Nat.add_0_r in E. by rewrite <-E.
    + apply IH; [done|done| |].
      * by replace (S j + i)%nat with (j + S i)%nat by lia.
      * intros i' s'' Hne Hs. replace (S j + i')%nat with (j + S i')%nat by lia. apply Hq; [lia|done].
Qed.

Lemma each_at f q q' l frame : ∀ j ws t, placed q j l ws →
  (∀ i s w, l !! i = Some s → wpos s w (q (j + i)%nat s.1) → moves P (wpos s) wowns w (f (j + i)%nat w) (q' (j + i)%nat s.1)) →
  P (concat (wowns <$> ws) ++ frame) t →
  wp (each f j ws) (λ ws' t', placed q' j l ws' ∧ P (concat (wowns <$> ws') ++ frame) t') t.
Proof using Hperm.
  clear Hsrc Hss Hes Hsorted Hokk. revert frame. induction l as [|s l IH]; intros frame j [|w ws] t; try done. intros [Hw Hws] Hf HP.
  cbn [each fmap list_fmap concat] in *. rewrite <-app_assoc in HP. apply wp_bind.
  pose proof (Hf 0%nat s w eq_refl) as Hm. rewrite Nat.add_0_r in Hm. apply (wp_mono _ _ _ _ (Hm Hw _ t HP)). intros w' t1 [Hw' HP1].
  assert (P (concat (wowns <$> ws) ++ (wowns w' ++ frame)) t1) as HP2 by (eapply Hperm; [|reflexivity|exact HP1]; solve_Permutation).
  apply wp_bind. refine (wp_mono _ _ _ _ (IH _ (S j) ws t1 Hws _ HP2) _).
  - intros i s' w'' Hs. replace (S j + i)%nat with (j + S i)%nat by lia. by apply (Hf (S i)).
  - intros ws' t2 [Hws' HP3]. apply wp_ret. split; [by split|]. cbn [fmap list_fmap concat]. eapply Hperm; [|reflexivity|exact HP3]. solve_Permutation.
Qed.

Lemma each_Ok f q q' ws frame t : placed q 0 ss ws →
  (∀ i s w, ss !! i = Some s → wpos s w (q i s.1) → moves P (wpos s) wowns w (f i w) (q' i s.1)) → P (concat (wowns <$> ws) ++ frame) t →
  wp (each f 0 ws) (λ ws' t', placed q' 0 ss ws' ∧ P (concat (wowns <$> ws') ++ frame) t') t.
Proof using Hperm. intros Hws Hf. apply (each_at f q q' ss frame 0); [done|]. intros i s w. apply Hf. Qed.

(** ** The child that is chosen *)

Lemma source_in i s e : ss !! i = Some s → e ∈ s.1 → e ∈ es.
Proof using Hes. intros Hs He. rewrite Hes, elem_concat. exists i, s.1. split; [|done]. by rewrite list_lookup_fmap, Hs. Qed.

Lemma source_of e : e ∈ es → ∃ i s, ss !! i = Some s ∧ e ∈ s.1.
Proof using Hes.
  rewrite Hes, elem_concat. intros (i & l & Hl & He). rewrite list_lookup_fmap in Hl. destruct (ss !! i) as [s|] eqn:Hs; [|done].
  injection Hl as <-. by exists i, s.
Qed.

#[local] Instance merging_order : CmpOrder c := @spec_order _ _ _ Hspec.

(** No entry is in two sources. *)
Lemma source_apart i j s s' e e' : ss !! i = Some s → ss !! j = Some s' → e ∈ s.1 → e' ∈ s'.1 → c e.1 e'.1 = 0 → i = j ∧ e = e'.
Proof using Hes Hsorted Hspec.
  intros Hi Hj He He' E. pose proof (index_eq es Hsorted e e' (source_in i s e Hi He) (source_in j s' e' Hj He') E) as <-. split; [|done].
  destruct (decide (i = j)) as [|Hne]; [done|]. exfalso. apply (concat_apart ss.*1 i j s.1 s'.1 e); try done.
  - rewrite <-Hes. apply NoDup_alt. intros x y z Hx Hy. destruct (lt_eq_lt_dec x y) as [[H| ->]|H]; [|done|].
    + apply (index_lt es Hsorted x y z z Hx Hy) in H. rewrite (cmp_refl c) in H. lia.
    + apply (index_lt es Hsorted y x z z Hy Hx) in H. rewrite (cmp_refl c) in H. lia.
  - by rewrite list_lookup_fmap, Hi.
  - by rewrite list_lookup_fmap, Hj.
Qed.

Lemma source_sorted i s : ss !! i = Some s → sorted_entries s.1.
Proof using Hss. intros Hi. rewrite Forall_forall in Hss. apply Hss. by eapply list_elem_of_lookup_2. Qed.

Lemma source_spec i s : ss !! i = Some s → IteratorSpec P okk c s.1 s.2 owns.
Proof using Hsrc. intros Hi. rewrite Forall_forall in Hsrc. apply Hsrc. by eapply list_elem_of_lookup_2. Qed.

(** What a child shows. *)
Lemma child_valid i s w q : ss !! i = Some s → wpos s w q → i_Valid (T := T) w = bool_decide (q < length s.1)%nat ∧ i_status (T := T) w = Ok OK.
Proof using Hsrc. intros Hi Hw. pose proof (source_spec i s Hi). by destruct (pos_valid w q Hw) as (_ & -> & ->). Qed.

Lemma child_shows i s w q e : ss !! i = Some s → wpos s w q → s.1 !! q = Some e →
  shows (T := T) (okk := okk) w e.1 ∧ i_value (T := T) w = Ok e.2.
Proof using Hsrc Hes Hokk.
  intros Hi Hw He. pose proof (source_spec i s Hi). destruct (child_valid i s w q Hi Hw) as [Hv _]. destruct e as [k v].
  destruct (pos_entry w q k v Hw He) as [Hk Hval]. split; [|done]. split; [rewrite Hv; apply bool_decide_true; by eapply lookup_lt_Some|].
  split; [done|]. rewrite Forall_forall in Hokk. apply (Hokk (k, v)), (source_in i s); [done|]. by eapply list_elem_of_lookup_2.
Qed.

(** The child with the first key in the order [d], of those that are not at their end. *)
Definition chosen (d : list byte → list byte → Z) (q : nat → list entry → nat) (r : option nat) : Prop :=
  match r with
  | None => ∀ i s, ss !! i = Some s → s.1 !! q i s.1 = None
  | Some i => ∃ s e, ss !! i = Some s ∧ s.1 !! q i s.1 = Some e
      ∧ ∀ i' s' e', ss !! i' = Some s' → s'.1 !! q i' s'.1 = Some e' → d e.1 e'.1 ≤ 0
  end.

Lemma pick_chosen better d (Hd : CmpOrder d) (Hb : ∀ a b, better (c a b) = (d a b <? 0)) xs ws q :
  (∀ x, x ∈ xs ↔ x ∈ numbered 0 ws) → placed q 0 ss ws → ∃ r, pick better xs None = Ok r ∧ chosen d q (fst <$> r).
Proof using Hsrc Hes Hokk Hspec.
  intros Hxs Hws.
  assert (∀ i w, (i, w) ∈ xs → ∃ s, ss !! i = Some s ∧ wpos s w (q i s.1)) as Hin.
  { intros i w [_ Hw]%Hxs%numbered_lookup. rewrite Nat.sub_0_r in Hw. by apply (placed_lookup_r q 0 ss ws). }
  assert (∀ i s e, ss !! i = Some s → s.1 !! q i s.1 = Some e → ∃ w, (i, w) ∈ xs ∧ shows (T := T) (okk := okk) w e.1) as Hshow.
  { intros i s e Hs He. destruct (placed_lookup q 0 ss ws i s Hws Hs) as (w & Hw & Hp). exists w. split; [|by apply (child_shows i s w _ e Hs Hp)].
    apply Hxs, numbered_lookup. split; [lia|]. by rewrite Nat.sub_0_r. }
  destruct (pick_Ok (okk := okk) (c := c) d Hd better xs Hb None) as (r & Hr & Hp); [|done|].
  { intros [i w] Hx Hv. cbn [snd] in *. destruct (Hin i w Hx) as (s & Hs & Hw). destruct (child_valid i s w _ Hs Hw) as [Hv' _]. rewrite Hv in Hv'.
    symmetry in Hv'. apply bool_decide_eq_true in Hv'. destruct (lookup_lt_is_Some_2 _ _ Hv') as [e He]. exists e.1. by apply (child_shows i s w _ e Hs Hw). }
  exists r. split; [done|]. cbn [seen app] in Hp. destruct r as [[i w]|]; cbn.
  - destruct Hp as (Hb' & k & Hk & Hle). cbn [snd] in Hk. destruct (Hin i w Hb') as (s & Hs & Hw). pose proof Hk as (Hv & _). destruct (child_valid i s w _ Hs Hw) as [Hv' _].
    rewrite Hv in Hv'. symmetry in Hv'. apply bool_decide_eq_true in Hv'. destruct (lookup_lt_is_Some_2 _ _ Hv') as [e He]. exists s, e. split; [done|]. split; [done|].
    intros i' s' e' Hs' He'. destruct (Hshow i' s' e' Hs' He') as (w' & Hw' & Hk'). destruct (child_shows i s w _ e Hs Hw He) as [Hk'' _].
    rewrite (shows_inj _ _ _ Hk'' Hk). by apply (Hle (i', w')).
  - intros i s Hs. destruct (s.1 !! q i s.1) as [e|] eqn:He; [|done]. destruct (Hshow i s e Hs He) as (w & Hw & Hv & _). apply Hp in Hw. change (i_Valid (T := T) w = false) in Hw. congruence.
Qed.

(** ** Positions *)

Abbreviation low p := (below (c := c) es p).

(** Moving forwards, the children are at their first entries from entry [p] on; moving backwards, at their last ones before it. *)
Definition ahead (p : nat) (j : nat) (l : list entry) : nat := cut (low p) l.
Definition behind (p : nat) (j : nat) (l : list entry) : nat := prev_pos (length l) (cut (low p) l).

Lemma cut_split i s p e n : ss !! i = Some s → es !! p = Some e → s.1 !! n = Some e → cut (low p) s.1 = n.
Proof using Hss Hspec.
  intros Hs Hp Hn. pose proof (source_sorted i s Hs) as Hsort. apply cut_unique.
  - apply lookup_lt_Some in Hn. lia.
  - intros n' e' Hn' He'. rewrite (below_key es p e) by done. pose proof (proj1 (index_lt s.1 Hsort n' n e' e He' Hn) Hn'). lia.
  - intros e' He'. rewrite Hn in He'. injection He' as <-. rewrite (below_key es p e) by done. rewrite (cmp_refl c). done.
Qed.

(** An entry of a source compared to entry [p]. *)
Lemma low_S i s p e e' : ss !! i = Some s → es !! p = Some e → e' ∈ s.1 → low (S p) e'.1 = (c e'.1 e.1 <=? 0).
Proof using Hss Hspec Hes Hsorted.
  intros Hs Hp He'. apply (source_in i s) in He'; [|done]. apply list_elem_of_lookup in He' as [j Hj]. rewrite (below_index es Hsorted j) by done.
  pose proof (index_lt es Hsorted p j e e' Hp Hj). pose proof (cmp_anti (c := c) e.1 e'.1).
  destruct (Z.leb_spec (c e'.1 e.1) 0); [rewrite bool_decide_true|rewrite bool_decide_false]; try done; lia.
Qed.

(** Entry [p] in its source, and in the others. *)
Lemma cut_here i s p e : ss !! i = Some s → es !! p = Some e → e ∈ s.1 → s.1 !! cut (low p) s.1 = Some e ∧ cut (low (S p)) s.1 = S (cut (low p) s.1).
Proof using Hss Hspec Hes Hsorted.
  intros Hs Hp [n Hn]%list_elem_of_lookup. pose proof (source_sorted i s Hs) as Hsort. rewrite (cut_split i s p e n) by done. split; [done|]. apply cut_unique.
  - apply lookup_lt_Some in Hn. lia.
  - intros n' e' Hn' He'. rewrite (low_S i s p e) by (done || by eapply list_elem_of_lookup_2). apply Z.leb_le. destruct (decide (n' = n)) as [->|Hne].
    + rewrite Hn in He'. injection He' as <-. by rewrite (cmp_refl c).
    + pose proof (proj1 (index_lt s.1 Hsort n' n e' e He' Hn) ltac:(lia)). lia.
  - intros e' He'. rewrite (low_S i s p e) by (done || by eapply list_elem_of_lookup_2). apply Z.leb_gt.
    pose proof (proj1 (index_lt s.1 Hsort n (S n) e e' Hn He') ltac:(lia)). pose proof (cmp_anti (c := c) e.1 e'.1). lia.
Qed.

Lemma cut_other i s p e : ss !! i = Some s → es !! p = Some e → e ∉ s.1 → cut (low (S p)) s.1 = cut (low p) s.1.
Proof using Hss Hspec Hes Hsorted.
  intros Hs Hp Hn. apply cut_ext. intros e' He'. rewrite (low_S i s p e) by done. rewrite (below_key es p e) by done.
  destruct (Z.eq_dec (c e'.1 e.1) 0) as [E|]; [|destruct (Z.leb_spec (c e'.1 e.1) 0), (Z.ltb_spec (c e'.1 e.1) 0); lia].
  exfalso. apply Hn. apply list_elem_of_lookup_2 in Hp. by rewrite <-(index_eq es Hsorted e' e (source_in i s e' Hs He') Hp E).
Qed.

(** The chosen child shows entry [p]. *)
Lemma chosen_ahead p r : chosen c (ahead p) r →
  match r with None => (length es ≤ p)%nat | Some i => ∃ s e, es !! p = Some e ∧ ss !! i = Some s ∧ e ∈ s.1 end.
Proof using Hss Hspec Hes Hsorted.
  unfold ahead. destruct r as [i|]; cbn.
  - intros (s & e & Hs & He & Hle). assert (e ∈ s.1) as Hin by by eapply list_elem_of_lookup_2. pose proof (source_in i s e Hs Hin) as Hj.
    apply list_elem_of_lookup in Hj as [j Hj]. pose proof (cut_at _ _ _ He) as Hlow. rewrite (below_index es Hsorted j) in Hlow by done. apply bool_decide_eq_false in Hlow.
    destruct (lookup_lt_is_Some_2 es p) as [e0 Hp]; [apply lookup_lt_Some in Hj; lia|].
    destruct (source_of e0 (list_elem_of_lookup_2 _ _ _ Hp)) as (i0 & s0 & Hs0 & Hin0). destruct (cut_here i0 s0 p e0 Hs0 Hp Hin0) as [H0 _].
    specialize (Hle i0 s0 e0 Hs0 H0). pose proof (index_lt es Hsorted p j e0 e Hp Hj) as Hpj. pose proof (cmp_anti (c := c) e0.1 e.1).
    assert (j = p) as -> by lia. exists s, e. by split.
  - intros Hnone. destruct (decide (length es ≤ p)%nat) as [|Hlt]; [done|]. destruct (lookup_lt_is_Some_2 es p) as [e0 Hp]; [lia|].
    destruct (source_of e0 (list_elem_of_lookup_2 _ _ _ Hp)) as (i0 & s0 & Hs0 & Hin0). destruct (cut_here i0 s0 p e0 Hs0 Hp Hin0) as [H0 _].
    specialize (Hnone i0 s0 Hs0). congruence.
Qed.
Lemma behind_lookup p i (s : source) e : s.1 !! behind p i s.1 = Some e → ∃ m, cut (low p) s.1 = S m ∧ s.1 !! m = Some e.
Proof using.
  clear. unfold behind. destruct (cut (low p) s.1) as [|m]; cbn [prev_pos]; [|intros He; by exists m]. intros He. apply lookup_lt_Some in He. lia.
Qed.

Lemma chosen_behind p r : (p ≤ length es)%nat → chosen (λ a b, c b a) (behind p) r →
  match r with None => p = 0%nat | Some i => ∃ p' s e, p = S p' ∧ es !! p' = Some e ∧ ss !! i = Some s ∧ e ∈ s.1 end.
Proof using Hss Hspec Hes Hsorted.
  intros Hpn. destruct r as [i|]; cbn.
  - intros (s & e & Hs & He & Hle). apply behind_lookup in He as (m & Em & He). pose proof (cut_before (low p) s.1 m e ltac:(lia) He) as Hlow.
    assert (e ∈ s.1) as Hin by by eapply list_elem_of_lookup_2. pose proof (source_in i s e Hs Hin) as Hj. apply list_elem_of_lookup in Hj as [j Hj].
    rewrite (below_index es Hsorted j) in Hlow by done. apply bool_decide_eq_true in Hlow. destruct p as [|p']; [lia|].
    destruct (lookup_lt_is_Some_2 es p') as [e0 Hp]; [lia|].
    destruct (source_of e0 (list_elem_of_lookup_2 _ _ _ Hp)) as (i0 & s0 & Hs0 & Hin0). destruct (cut_here i0 s0 p' e0 Hs0 Hp Hin0) as [H0 H1].
    specialize (Hle i0 s0 e0 Hs0). unfold behind in Hle. rewrite H1 in Hle. specialize (Hle H0).
    pose proof (index_lt es Hsorted j p' e e0 Hj Hp) as Hpj. pose proof (cmp_anti (c := c) e0.1 e.1). assert (j = p') as -> by lia. by exists p', s, e.
  - intros Hnone. destruct p as [|p']; [done|]. destruct (lookup_lt_is_Some_2 es p') as [e0 Hp]; [lia|].
    destruct (source_of e0 (list_elem_of_lookup_2 _ _ _ Hp)) as (i0 & s0 & Hs0 & Hin0). destruct (cut_here i0 s0 p' e0 Hs0 Hp Hin0) as [H0 H1].
    specialize (Hnone i0 s0 Hs0). unfold behind in Hnone. rewrite H1 in Hnone. cbn [prev_pos] in Hnone. congruence.
Qed.

(** ** The laws *)

Definition merging_owns (m : MergingIterator I) : list R := concat (wowns <$> children_ m).

(** At entry [p], the current child shows it, and the others are on the side that the direction says. *)
Definition on_side (dir : Direction) (p i j : nat) (l : list entry) : nat :=
  if decide (j = i) then ahead p j l else match dir with kForward => ahead p j l | kReverse => behind p j l end.
Definition merging_at (m : MergingIterator I) (p i : nat) (s : source) (e : entry) : Prop :=
  es !! p = Some e ∧ current_ m = Some i ∧ ss !! i = Some s ∧ e ∈ s.1 ∧ placed (on_side (direction_ m) p i) 0 ss (children_ m).
Definition merging_pos (m : MergingIterator I) (p : nat) : Prop :=
  (∃ i s e, merging_at m p i s e) ∨ p = length es ∧ current_ m = None ∧ ∃ q, placed q 0 ss (children_ m).

Lemma placed_pos m p : merging_pos m p → ∃ q, placed q 0 ss (children_ m).
Proof using. clear. by intros [(i & s & e & _ & _ & _ & _ & H)|(_ & _ & H)]; [eexists|]. Qed.

Lemma FindSmallest_Ok ws cur dir p : placed (ahead p) 0 ss ws → (p ≤ length es)%nat →
  ∃ cur', FindSmallest (MkMerging ws cur dir) = Ok (MkMerging ws cur' dir) ∧ merging_pos (MkMerging ws cur' kForward) p.
Proof using Hss Hsrc Hspec Hes Hsorted Hokk.
  intros Hws Hp. unfold FindSmallest. cbn [children_]. rewrite smallest_pick.
  destruct (pick_chosen (λ r, r <? 0) c _ ltac:(done) (numbered 0 ws) ws (ahead p) ltac:(done) Hws) as (r & -> & Hr). cbn [mbind res_bind].
  exists (fst <$> r). split; [done|]. apply chosen_ahead in Hr. destruct (fst <$> r) as [i|]; [left|right].
  - destruct Hr as (s & e & He & Hs & Hin). exists i, s, e. split; [done|]. split; [done|]. split; [done|]. split; [done|]. cbn.
    apply (placed_mono (ahead p)); [done|]. intros j s' _. unfold on_side. by case_decide.
  - split; [lia|]. split; [done|]. by exists (ahead p).
Qed.

Lemma FindLargest_Ok ws cur dir p : placed (behind p) 0 ss ws → (p ≤ length es)%nat →
  ∃ cur', FindLargest (MkMerging ws cur dir) = Ok (MkMerging ws cur' dir) ∧ merging_pos (MkMerging ws cur' kReverse) (prev_pos (length es) p).
Proof using Hss Hsrc Hspec Hes Hsorted Hokk.
  intros Hws Hp. unfold FindLargest. cbn [children_]. rewrite largest_pick.
  destruct (pick_chosen (λ r, 0 <? r) (λ a b, c b a)) with (xs := reverse (numbered 0 ws)) (ws := ws) (q := behind p) as (r & -> & Hr).
  { split; [intros a b; apply (cmp_anti (c := c))|]. intros a b d H1 H2. by apply (cmp_trans (c := c) d b a). }
  { intros a b. pose proof (cmp_anti (c := c) a b). destruct (Z.ltb_spec 0 (c a b)), (Z.ltb_spec (c b a) 0); lia. }
  { intros x. by rewrite elem_of_reverse. }
  { done. }
  cbn [mbind res_bind]. exists (fst <$> r). split; [done|]. apply chosen_behind in Hr; [|done]. destruct (fst <$> r) as [i|]; [left|right].
  - destruct Hr as (p' & s & e & -> & He & Hs & Hin). exists i, s, e. split; [done|]. split; [done|]. split; [done|]. split; [done|]. cbn.
    apply (placed_mono (behind (S p'))); [done|]. intros j s' Hs'. cbn [Nat.add]. unfold on_side. case_decide as Hj.
    + subst j. rewrite Hs in Hs'. injection Hs' as <-. destruct (cut_here i s p' e Hs He Hin) as [_ E]. unfold behind. by rewrite E.
    + unfold behind. rewrite (cut_other j s' p' e); [done|done|done|]. intros Hin'. apply Hj.
      apply (source_apart j i s' s e e Hs' Hs Hin' Hin). apply (cmp_refl c).
  - subst p. split; [done|]. split; [done|]. by exists (behind 0).
Qed.

(** Seeking moves all children. *)
Lemma seek_children q0 f q' m frame t : placed q0 0 ss (children_ m) → P (merging_owns m ++ frame) t →
  (∀ i s w, ss !! i = Some s → wpos s w (q0 i s.1) → moves P (wpos s) wowns w (f w) (q' i s.1)) →
  wp (each (λ _, f) 0 (children_ m)) (λ ws t', placed q' 0 ss ws ∧ P (concat (wowns <$> ws) ++ frame) t') t.
Proof using Hperm. intros Hq HP Hf. by apply (each_Ok _ q0). Qed.

Lemma Merging_SeekToFirst_Ok m p : merging_pos m p → moves P merging_pos merging_owns m (Merging_SeekToFirst m) 0.
Proof using Hss Hsrc Hspec Hes Hsorted Hokk Hperm.
  intros [q0 Hq]%placed_pos frame t HP. apply wp_bind. refine (wp_mono _ _ _ _ (seek_children q0 i_SeekToFirst (ahead 0) m frame t Hq HP _) _).
  - intros i s w Hs Hw. pose proof (source_spec i s Hs). replace (ahead 0 i s.1) with 0%nat; [by apply (SeekToFirst_spec w (q0 i s.1))|].
    symmetry. apply cut_false. intros e [j Hj]%(source_in i s)%list_elem_of_lookup; [|done]. by rewrite (below_index es Hsorted j).
  - intros ws t' [Hws HP']. destruct (FindSmallest_Ok ws (current_ m) (direction_ m) 0 Hws ltac:(lia)) as (cur & E & Hpos).
    apply wp_bind, (wp_lift _ _ _ _ E), wp_ret. by split.
Qed.

Lemma Merging_Seek_Ok m p target : merging_pos m p → okk target → moves P merging_pos merging_owns m (Merging_Seek target m) (rank c target es).
Proof using Hss Hsrc Hspec Hes Hsorted Hokk Hperm.
  intros [q0 Hq]%placed_pos Ht frame t HP. apply wp_bind.
  refine (wp_mono _ _ _ _ (seek_children q0 (i_Seek target) (ahead (rank c target es)) m frame t Hq HP _) _).
  - intros i s w Hs Hw. pose proof (source_spec i s Hs). replace (ahead _ i s.1) with (rank c target s.1); [by apply (Seek_spec w (q0 i s.1))|].
    rewrite cut_rank. apply cut_ext. intros e He. symmetry. by apply (below_rank es Hsorted), (source_in i s).
  - intros ws t' [Hws HP']. destruct (FindSmallest_Ok ws (current_ m) (direction_ m) _ Hws (rank_le (c := c) target es)) as (cur & E & Hpos).
    apply wp_bind, (wp_lift _ _ _ _ E), wp_ret. by split.
Qed.

Lemma Merging_SeekToLast_Ok m p : merging_pos m p → moves P merging_pos merging_owns m (Merging_SeekToLast m) (pred (length es)).
Proof using Hss Hsrc Hspec Hes Hsorted Hokk Hperm.
  intros [q0 Hq]%placed_pos frame t HP. apply wp_bind.
  refine (wp_mono _ _ _ _ (seek_children q0 i_SeekToLast (behind (length es)) m frame t Hq HP _) _).
  - intros i s w Hs Hw. pose proof (source_spec i s Hs). replace (behind _ i s.1) with (pred (length s.1)); [by apply (SeekToLast_spec w (q0 i s.1))|].
    unfold behind. rewrite cut_true; [by destruct s.1|]. intros e [j Hj]%(source_in i s)%list_elem_of_lookup; [|done].
    rewrite (below_index es Hsorted j) by done. apply bool_decide_eq_true. by eapply lookup_lt_Some.
  - intros ws t' [Hws HP']. destruct (FindLargest_Ok ws (current_ m) (direction_ m) _ Hws ltac:(done)) as (cur & E & Hpos).
    apply wp_bind, (wp_lift _ _ _ _ E), wp_ret. split; [|done]. replace (pred (length es)) with (prev_pos (length es) (length es)) by by destruct es. done.
Qed.
(** What the current child shows. *)
Lemma current_Ok m p i s e : merging_at m p i s e → ∃ w, children_ m !! i = Some w ∧ wpos s w (ahead p i s.1) ∧ s.1 !! ahead p i s.1 = Some e
  ∧ Merging_Valid m = true ∧ Merging_key m = Ok e.1 ∧ Merging_value m = Ok e.2 ∧ okk e.1.
Proof using Hsrc Hss Hspec Hes Hsorted Hokk.
  intros (He & Hc & Hs & Hin & Hws). destruct (placed_lookup _ 0 ss _ i s Hws Hs) as (w & Hw & Hp). unfold on_side in Hp. rewrite decide_True in Hp by done.
  destruct (cut_here i s p e Hs He Hin) as [Hcut _]. destruct (child_shows i s w _ e Hs Hp Hcut) as [(_ & Hk & Hok) Hv].
  exists w. unfold Merging_key, Merging_value, Merging_Valid, current. rewrite Hc. cbn [of_option mbind res_bind c_assert]. rewrite Hw. by split_and!.
Qed.

Lemma move_current_Ok m p i s e f q' frame t : merging_at m p i s e → P (merging_owns m ++ frame) t →
  (∀ w, wpos s w (ahead p i s.1) → moves P (wpos s) wowns w (f w) (q' i s.1)) →
  (∀ j s', j ≠ i → ss !! j = Some s' → on_side (direction_ m) p i j s'.1 = q' j s'.1) →
  wp (move_current f m) (λ m' t', ∃ ws, m' = MkMerging ws (current_ m) (direction_ m) ∧ placed q' 0 ss ws ∧ P (concat (wowns <$> ws) ++ frame) t') t.
Proof using Hsrc Hss Hspec Hes Hsorted Hokk Hperm.
  intros Hm HP Hf Hq. destruct (current_Ok m p i s e Hm) as (w & Hw & Hp & _). destruct Hm as (_ & Hc & Hs & _ & Hws). unfold move_current.
  apply wp_bind, (wp_lift _ i); [by rewrite Hc|]. apply wp_bind, (wp_lift _ w); [by rewrite Hw|].
  destruct (concat_split (wowns <$> children_ m) i (wowns w)) as (l1 & l2 & E & Eins); [by rewrite list_lookup_fmap, Hw|].
  assert (P (wowns w ++ (l1 ++ l2 ++ frame)) t) as HP1.
  { eapply Hperm; [|reflexivity|exact HP]. unfold merging_owns. rewrite E. solve_Permutation. }
  apply wp_bind. apply (wp_mono _ _ _ _ (Hf w Hp _ t HP1)). intros w' t' [Hp' HP']. apply wp_ret. exists (<[i := w']> (children_ m)). split; [done|]. split.
  - by apply (placed_insert (on_side (direction_ m) p i) q' 0 ss _ i s).
  - eapply Hperm; [|reflexivity|exact HP']. rewrite list_fmap_insert, Eins. solve_Permutation.
Qed.

(** Turning around: the other children move to the other side of the current one. *)
Lemma turn_Ok m p i s e f q' frame t : merging_at m p i s e → P (merging_owns m ++ frame) t →
  (∀ j s' w, j ≠ i → ss !! j = Some s' → wpos s' w (on_side (direction_ m) p i j s'.1) → moves P (wpos s') wowns w (f j w) (q' j s'.1)) →
  (∀ w, f i w = mret w) → q' i s.1 = ahead p i s.1 →
  wp (each f 0 (children_ m)) (λ ws t', placed q' 0 ss ws ∧ P (concat (wowns <$> ws) ++ frame) t') t.
Proof using Hperm.
  intros (_ & _ & Hs & _ & Hws) HP Hf Hi Hq. apply (each_Ok _ (on_side (direction_ m) p i)); [done| |done]. intros j s' w Hs' Hw.
  destruct (decide (j = i)) as [->|Hne]; [|by apply Hf]. rewrite Hs in Hs'. injection Hs' as <-. rewrite Hi, Hq.
  unfold on_side in Hw. rewrite decide_True in Hw by done. intros frame' t' HP'. by apply wp_ret.
Qed.

Lemma rank_ahead p j s e : es !! p = Some e → rank c e.1 s = ahead p j s.
Proof using. intros He. rewrite cut_rank. apply cut_ext. intros e' _. by rewrite (below_key es p e). Qed.

Lemma child_after_Ok m p i s e j s' w : merging_at m p i s e → j ≠ i → ss !! j = Some s' → wpos s' w (on_side (direction_ m) p i j s'.1) →
  moves P (wpos s') wowns w (child_after m j w) (ahead p j s'.1).
Proof using Hsrc Hss Hspec Hes Hsorted Hokk.
  intros Hm Hne Hs' Hw frame t HP. destruct (current_Ok m p i s e Hm) as (_ & _ & _ & _ & _ & Hk & _ & Hok). destruct Hm as (He & Hc & Hs & Hin & _).
  pose proof (source_spec j s' Hs'). unfold child_after, is_current. rewrite Hc, bool_decide_false by congruence.
  apply wp_bind, (wp_lift _ e.1); [done|]. apply wp_bind. apply (wp_mono _ _ _ _ (Seek_spec w _ e.1 Hw Hok frame t HP)). intros w' t' [Hw' HP'].
  rewrite (rank_ahead p j _ e He) in Hw'. destruct (child_valid j s' w' _ Hs' Hw') as [-> _]. case_bool_decide as Hlt; [|by apply wp_ret].
  destruct (lookup_lt_is_Some_2 _ _ Hlt) as [e' He']. destruct (child_shows j s' w' _ e' Hs' Hw' He') as [(_ & Hk' & Hok') _].
  apply wp_bind, (wp_lift _ e'.1); [done|]. apply wp_bind, (wp_lift _ (c e.1 e'.1)); [by apply Compare_spec|].
  replace (c e.1 e'.1 =? 0) with false; [by apply wp_ret|]. symmetry. apply Z.eqb_neq. intros E. apply Hne. symmetry.
  by apply (source_apart i j s s' e e' Hs Hs' Hin (list_elem_of_lookup_2 _ _ _ He')).
Qed.

Lemma child_before_Ok m p i s e j s' w : merging_at m p i s e → j ≠ i → ss !! j = Some s' → wpos s' w (on_side (direction_ m) p i j s'.1) →
  moves P (wpos s') wowns w (child_before m j w) (behind p j s'.1).
Proof using Hsrc Hss Hspec Hes Hsorted Hokk.
  intros Hm Hne Hs' Hw frame t HP. destruct (current_Ok m p i s e Hm) as (_ & _ & _ & _ & _ & Hk & _ & Hok). destruct Hm as (He & Hc & _).
  pose proof (source_spec j s' Hs'). unfold child_before, is_current. rewrite Hc, bool_decide_false by congruence.
  apply wp_bind, (wp_lift _ e.1); [done|]. apply wp_bind. apply (wp_mono _ _ _ _ (Seek_spec w _ e.1 Hw Hok frame t HP)). intros w' t' [Hw' HP'].
  rewrite (rank_ahead p j _ e He) in Hw'. unfold behind. fold (ahead p j s'.1). destruct (child_valid j s' w' _ Hs' Hw') as [-> _]. case_bool_decide as Hlt.
  - by apply (Prev_spec w' _ Hw' Hlt).
  - pose proof (cut_le (low p) s'.1) as Hle. fold (ahead p j s'.1) in Hle. replace (prev_pos _ _) with (pred (length s'.1)); [by apply (SeekToLast_spec w' _ Hw')|].
    replace (ahead p j s'.1) with (length s'.1) by lia. by destruct s'.1.
Qed.
Lemma merging_at_pos m p i s e : merging_at m p i s e → merging_pos m p.
Proof using. clear. intros Hm. left. by exists i, s, e. Qed.

(** Moving the current child on, when the others are on the right side. *)
Lemma forward_on m p i s e frame t : merging_at m p i s e → direction_ m = kForward → P (merging_owns m ++ frame) t →
  wp (m ← move_current i_Next m; lift (FindSmallest m)) (λ m' t', merging_pos m' (S p) ∧ P (merging_owns m' ++ frame) t') t.
Proof using Hsrc Hss Hspec Hes Hsorted Hokk Hperm.
  intros Hm Hdir HP. pose proof Hm as (He & _ & Hs & Hin & _). destruct (cut_here i s p e Hs He Hin) as [Hcut Hnext]. apply wp_bind.
  refine (wp_mono _ _ _ _ (move_current_Ok m p i s e i_Next (ahead (S p)) frame t Hm HP _ _) _).
  - intros w Hw. pose proof (source_spec i s Hs). unfold ahead in *. rewrite Hnext. apply (Next_spec w _ Hw). by eapply lookup_lt_Some.
  - intros j s' Hne Hs'. unfold on_side. rewrite decide_False, Hdir by done. unfold ahead. rewrite (cut_other j s' p e); [done|done|done|].
    intros Hin'. apply Hne. apply (source_apart j i s' s e e Hs' Hs Hin' Hin), (cmp_refl c).
  - intros m' t' (ws & -> & Hws & HP'). destruct (FindSmallest_Ok ws (current_ m) (direction_ m) (S p) Hws) as (cur & E & Hpos).
    { apply lookup_lt_Some in He. lia. }
    apply (wp_lift _ _ _ _ E). rewrite Hdir. by split.
Qed.

Lemma backward_on m p i s e frame t : merging_at m p i s e → direction_ m = kReverse → P (merging_owns m ++ frame) t →
  wp (m ← move_current i_Prev m; lift (FindLargest m)) (λ m' t', merging_pos m' (prev_pos (length es) p) ∧ P (merging_owns m' ++ frame) t') t.
Proof using Hsrc Hss Hspec Hes Hsorted Hokk Hperm.
  intros Hm Hdir HP. pose proof Hm as (He & _ & Hs & Hin & _). destruct (cut_here i s p e Hs He Hin) as [Hcut _]. apply wp_bind.
  refine (wp_mono _ _ _ _ (move_current_Ok m p i s e i_Prev (behind p) frame t Hm HP _ _) _).
  - intros w Hw. pose proof (source_spec i s Hs). apply (Prev_spec w _ Hw). by eapply lookup_lt_Some.
  - intros j s' Hne Hs'. unfold on_side. by rewrite decide_False, Hdir by done.
  - intros m' t' (ws & -> & Hws & HP'). destruct (FindLargest_Ok ws (current_ m) (direction_ m) p Hws) as (cur & E & Hpos).
    { apply lookup_lt_Some in He. lia. }
    apply (wp_lift _ _ _ _ E). rewrite Hdir. by split.
Qed.

Lemma merging_valid m p : merging_pos m p → Merging_Valid m = bool_decide (p < length es)%nat ∧ (p ≤ length es)%nat
  ∧ ((p < length es)%nat → ∃ i s e, merging_at m p i s e).
Proof using.
  clear. intros [(i & s & e & Hm)|(-> & Hc & _)].
  - pose proof Hm as (He & Hc & _). apply lookup_lt_Some in He as Hlt. unfold Merging_Valid. rewrite Hc, bool_decide_true by done.
    split_and!; [done|lia|]. intros _. by exists i, s, e.
  - unfold Merging_Valid. rewrite Hc, bool_decide_false by lia. split_and!; [done|done|lia].
Qed.

Lemma Merging_Next_Ok m p : merging_pos m p → (p < length es)%nat → moves P merging_pos merging_owns m (Merging_Next m) (S p).
Proof using Hsrc Hss Hspec Hes Hsorted Hokk Hperm.
  intros Hpos Hlt frame t HP. destruct (merging_valid m p Hpos) as (Hv & _ & Hat). rewrite bool_decide_true in Hv by done.
  destruct (Hat Hlt) as (i & s & e & Hm). unfold Merging_Next. rewrite Hv. apply wp_bind, (wp_lift _ tt); [done|]. apply wp_bind.
  destruct (direction_ m) eqn:Hdir; [by apply wp_ret, (forward_on m p i s e)|]. apply wp_bind.
  refine (wp_mono _ _ _ _ (turn_Ok m p i s e _ (ahead p) frame t Hm HP _ _ _) _).
  - intros j s' w. by apply (child_after_Ok m p i s e).
  - intros w. unfold child_after, is_current. destruct Hm as (_ & -> & _). by rewrite bool_decide_true.
  - done.
  - intros ws t' [Hws HP']. apply wp_ret. apply (forward_on _ p i s e); [|done|done]. destruct Hm as (He & Hc & Hs & Hin & _). split_and!; try done.
    cbn. apply (placed_mono (ahead p)); [done|]. intros j s' _. unfold on_side. by case_decide.
Qed.

Lemma Merging_Prev_Ok m p : merging_pos m p → (p < length es)%nat → moves P merging_pos merging_owns m (Merging_Prev m) (prev_pos (length es) p).
Proof using Hsrc Hss Hspec Hes Hsorted Hokk Hperm.
  intros Hpos Hlt frame t HP. destruct (merging_valid m p Hpos) as (Hv & _ & Hat). rewrite bool_decide_true in Hv by done.
  destruct (Hat Hlt) as (i & s & e & Hm). unfold Merging_Prev. rewrite Hv. apply wp_bind, (wp_lift _ tt); [done|]. apply wp_bind.
  destruct (direction_ m) eqn:Hdir; [|by apply wp_ret, (backward_on m p i s e)]. apply wp_bind.
  refine (wp_mono _ _ _ _ (turn_Ok m p i s e _ (on_side kReverse p i) frame t Hm HP _ _ _) _).
  - intros j s' w Hne Hs' Hw. unfold on_side. rewrite decide_False by done. by apply (child_before_Ok m p i s e).
  - intros w. unfold child_before, is_current. destruct Hm as (_ & -> & _). by rewrite bool_decide_true.
  - unfold on_side. by rewrite decide_True by done.
  - intros ws t' [Hws HP']. apply wp_ret. apply (backward_on _ p i s e); [|done|done]. destruct Hm as (He & Hc & Hs & Hin & _). by split_and!.
Qed.

Lemma status_loop_Ok q j l ws : Forall (λ s : source, IteratorSpec P okk c s.1 s.2 owns) l → placed q j l ws → status_loop ws OK = Ok OK.
Proof using.
  clear. intros Hl. revert j ws. induction Hl as [|s l Hs _ IH]; intros j [|w ws]; try done. intros [Hw Hws]. cbn [status_loop].
  destruct (pos_valid w _ Hw) as (_ & _ & ->). cbn [mbind res_bind]. change (ok OK) with true. by apply (IH (S j)).
Qed.

Lemma delete_children_Ok ws : (∀ w, w ∈ ws → ∃ s q, s ∈ ss ∧ wpos s w q) → ∀ frame t, P (concat (wowns <$> ws) ++ frame) t →
  wp (delete_children ws) (λ _ t', P frame t') t.
Proof using Hsrc.
  induction ws as [|w ws IH]; intros Hws frame t HP; [by apply wp_ret|]. cbn [delete_children fmap list_fmap concat] in *. rewrite <-app_assoc in HP.
  destruct (Hws w ltac:(by left)) as (s & q & Hs & Hw). rewrite Forall_forall in Hsrc. specialize (Hsrc s Hs). apply wp_bind.
  apply (wp_mono _ _ _ _ (delete_spec w q _ t Hw HP)). intros _ t' HP'. apply IH; [|done]. intros w' Hw'. apply Hws. by right.
Qed.

#[export] Instance merging_spec : IteratorSpec P okk c es merging_pos merging_owns.
Proof using Hsrc Hss Hspec Hes Hsorted Hokk Hperm.
  split.
  - intros m p Hpos. destruct (merging_valid m p Hpos) as (Hv & Hle & _). split; [done|]. split; [done|].
    destruct (placed_pos m p Hpos) as [q Hq]. by apply (status_loop_Ok q 0 ss).
  - intros m p k v Hpos He. destruct (merging_valid m p Hpos) as (_ & _ & Hat). destruct (Hat (lookup_lt_Some _ _ _ He)) as (i & s & e & Hm).
    destruct (current_Ok m p i s e Hm) as (w & _ & _ & _ & _ & Hk & Hval & _). destruct Hm as (He' & _). rewrite He in He'. by injection He' as <-.
  - apply Merging_SeekToFirst_Ok.
  - apply Merging_SeekToLast_Ok.
  - intros m p target. apply Merging_Seek_Ok.
  - apply Merging_Next_Ok.
  - apply Merging_Prev_Ok.
  - intros m p frame t Hpos HP. destruct (placed_pos m p Hpos) as [q Hq]. apply (delete_children_Ok (reverse (children_ m))).
    + intros w Hw. rewrite elem_of_reverse in Hw. apply list_elem_of_lookup in Hw as [i Hi]. destruct (placed_lookup_r q 0 ss _ i w Hq Hi) as (s & Hs & Hp).
      exists s, (q i s.1). split; [|done]. by eapply list_elem_of_lookup_2.
    + eapply Hperm; [|reflexivity|exact HP]. unfold merging_owns. by rewrite (reverse_Permutation (children_ m)).
Qed.
(** ** What [NewMergingIterator] makes *)

Definition merged_pos (x : merged I) (p : nat) : Prop :=
  match x with
  | NoChild => ss = [] ∧ p = 0%nat
  | OneChild it => ∃ s, ss = [s] ∧ s.2 it p
  | Children m => merging_pos m p
  end.
Definition merged_owns (x : merged I) : list R :=
  match x with NoChild => [] | OneChild it => owns it | Children m => merging_owns m end.

Lemma es_none : ss = [] → es = [].
Proof using Hes. intros E. rewrite E in Hes. by apply Permutation_nil_r. Qed.

Lemma es_one s : ss = [s] → es = s.1.
Proof using Hes Hsorted Hss Hspec.
  intros E. apply (StronglySorted_unique_strong (λ a b : entry, c a.1 b.1 < 0)); [|done| |].
  - intros x y _ _ H1 H2. pose proof (cmp_anti (c := c) x.1 y.1). lia.
  - apply (source_sorted 0). by rewrite E.
  - rewrite Hes, E. cbn. by rewrite app_nil_r.
Qed.

Lemma on_merged_moves x nothing f g i :
  match x with
  | NoChild => ss = [] → i = 0%nat ∧ nothing = mret NoChild
  | OneChild it => ∀ s, ss = [s] → moves P s.2 owns it (f it) i
  | Children m => moves P merging_pos merging_owns m (g m) i
  end → ∀ p, merged_pos x p → moves P merged_pos merged_owns x (on_merged nothing f g x) i.
Proof using.
  clear. intros Hx p Hp frame t HP. destruct x as [|it|m]; cbn [merged_pos merged_owns on_merged] in *.
  - destruct (Hx (proj1 Hp)) as [-> ->]. apply wp_ret. by destruct Hp.
  - destruct Hp as (s & Hs & Hp). apply wp_bind. apply (wp_mono _ _ _ _ (Hx s Hs frame t HP)). intros it' t' [Hp' HP']. apply wp_ret. split; [by exists s|done].
  - apply wp_bind. apply (wp_mono _ _ _ _ (Hx frame t HP)). intros m' t' [Hp' HP']. by apply wp_ret.
Qed.

Lemma one_spec s : ss = [s] → IteratorSpec P okk c es s.2 owns.
Proof using Hes Hsorted Hss Hspec Hsrc. intros E. rewrite (es_one s E). apply (source_spec 0). by rewrite E. Qed.

#[export] Instance merged_spec : IteratorSpec P okk c es merged_pos merged_owns.
Proof using Hsrc Hss Hspec Hes Hsorted Hokk Hperm.
  split.
  - intros [|it|m] p Hp; cbn [merged_pos i_Valid i_status merged_iterator] in *.
    + destruct Hp as [E ->]. by rewrite (es_none E).
    + destruct Hp as (s & E & Hp). pose proof (one_spec s E) as Hs. by apply (pos_valid it).
    + by apply (pos_valid m).
  - intros [|it|m] p k v Hp He; cbn [merged_pos i_key i_value merged_iterator] in *.
    + destruct Hp as [E ->]. by rewrite (es_none E) in He.
    + destruct Hp as (s & E & Hp). pose proof (one_spec s E) as Hs. by apply (pos_entry it p).
    + by apply (pos_entry m p).
  - intros x p Hp. apply (on_merged_moves x _ _ _ _) with (p := p); [|done]. destruct x as [|it|m]; [done| |by apply (SeekToFirst_spec m p)].
    intros s E. destruct Hp as (s' & E' & Hp). assert (s' = s) as -> by congruence. pose proof (one_spec s E) as Hs. by apply (SeekToFirst_spec it p).
  - intros x p Hp. apply (on_merged_moves x _ _ _ _) with (p := p); [|done]. destruct x as [|it|m]; [|  |by apply (SeekToLast_spec m p)].
    { intros E. by rewrite (es_none E). }
    intros s E. destruct Hp as (s' & E' & Hp). assert (s' = s) as -> by congruence. pose proof (one_spec s E) as Hs. by apply (SeekToLast_spec it p).
  - intros x p target Hp Ht. apply (on_merged_moves x _ (i_Seek target) (i_Seek target) _) with (p := p); [|done]. destruct x as [|it|m]; [| |by apply (Seek_spec m p)].
    { intros E. by rewrite (es_none E). }
    intros s E. destruct Hp as (s' & E' & Hp). assert (s' = s) as -> by congruence. pose proof (one_spec s E) as Hs. by apply (Seek_spec it p).
  - intros x p Hp Hlt. apply (on_merged_moves x _ _ _ _) with (p := p); [|done]. destruct x as [|it|m]; [| |by apply (Next_spec m p)].
    { intros E. rewrite (es_none E) in Hlt. cbn in Hlt. lia. }
    intros s E. destruct Hp as (s' & E' & Hp). assert (s' = s) as -> by congruence. pose proof (one_spec s E) as Hs. by apply (Next_spec it p).
  - intros x p Hp Hlt. apply (on_merged_moves x _ _ _ _) with (p := p); [|done]. destruct x as [|it|m]; [| |by apply (Prev_spec m p)].
    { intros E. rewrite (es_none E) in Hlt. cbn in Hlt. lia. }
    intros s E. destruct Hp as (s' & E' & Hp). assert (s' = s) as -> by congruence. pose proof (one_spec s E) as Hs. by apply (Prev_spec it p).
  - intros [|it|m] p frame t Hp HP; cbn [merged_pos merged_owns i_delete merged_iterator] in *.
    + by apply wp_ret.
    + destruct Hp as (s & E & Hp). pose proof (one_spec s E) as Hs. by apply (delete_spec it p).
    + by apply (delete_spec m p).
Qed.

(** Iterators over the sources, at any position. *)
Definition over (s : source) (it : I) : Prop := ∃ q, s.2 it q.

Lemma set_children_Ok l its : Forall (λ s : source, IteratorSpec P okk c s.1 s.2 owns) l → Forall2 over l its → ∀ j frame t, P (concat (owns <$> its) ++ frame) t →
  wp (set_children its) (λ ws t', (∃ q, placed q j l ws) ∧ P (concat (wowns <$> ws) ++ frame) t') t.
Proof using Hperm.
  clear Hsrc Hss Hes Hsorted Hokk. intros Hl Hits. induction Hits as [|s it l its [q0 Hit] _ IH]; intros j frame t HP.
  { apply wp_ret. split; [by exists (λ _ _, 0%nat)|done]. }
  cbn [set_children fmap list_fmap concat] in *. rewrite <-app_assoc in HP. apply Forall_cons in Hl as [Hs Hl].
  apply wp_bind. apply (wp_mono _ _ _ _ (Wrapper_Set_Ok it q0 new_IteratorWrapper _ t eq_refl Hit HP)). intros w t1 [Hw HP1].
  assert (P (concat (owns <$> its) ++ (wowns w ++ frame)) t1) as HP2 by (eapply Hperm; [|reflexivity|exact HP1]; solve_Permutation).
  apply wp_bind. apply (wp_mono _ _ _ _ (IH Hl (S j) _ t1 HP2)). intros ws t2 [[q Hws] HP3]. apply wp_ret. split.
  - exists (λ i l, if decide (i = j) then q0 else q i l). split; [by rewrite decide_True|]. apply (placed_mono q); [done|]. intros i s' _. by rewrite decide_False by lia.
  - cbn [fmap list_fmap concat]. eapply Hperm; [|reflexivity|exact HP3]. solve_Permutation.
Qed.

Lemma NewMergingIterator_Ok its frame t : Forall2 over ss its → P (concat (owns <$> its) ++ frame) t →
  wp (NewMergingIterator its) (λ x t', (∃ p, merged_pos x p) ∧ P (merged_owns x ++ frame) t') t.
Proof using Hsrc Hperm.
  intros Hits HP. unfold NewMergingIterator. pose proof (set_children_Ok ss its Hsrc Hits 0 frame t HP) as Hset.
  destruct its as [|it [|it' its]].
  - apply Forall2_nil_inv_r in Hits. apply wp_ret. split; [by exists 0%nat|done].
  - apply Forall2_cons_inv_r in Hits as (s & l & [q Hit] & Hl & E). apply Forall2_nil_inv_r in Hl as ->. apply wp_ret. split; [exists q, s; by split|]. cbn [fmap list_fmap concat] in HP. by rewrite app_nil_r in HP.
  - apply wp_bind, wp_bind. apply (wp_mono _ _ _ _ Hset). intros ws t' [Hws HP']. apply wp_ret, wp_ret. split; [|done].
    exists (length es). right. by split_and!.
Qed.
End merging.
