(* ===== verification/DbIter.v ===== *)
(** * The iterator of a database: leveldb db/db_iter.cc

    Over an iterator of internal keys, it shows the user keys that have a value at a sequence
    number, each once, with the newest value that the sequence number sees. *)
From Stdlib Require Import Strings.String.
From S2P Require Import Prelude Buffers CLib Order Coding Comparator Status DbFormat Random Block BlockProps Iterator.

#[local] Open Scope Z_scope.
#[local] Open Scope list_scope.

Definition kReadBytesPeriod : Z := 1048576.

(** Moving forwards, the internal iterator is at the entry that is shown; moving backwards, just before
    all entries of its user key. *)
Inductive Direction := kForward | kReverse.

(** The generator, the bytes until the next sample, and the keys that [RecordReadSample] was called with. *)
Record Sampler := MkSampler { rnd_ : Z; bytes_counter_ : Z; samples_ : list (list byte) }.

(** Pick the next gap. *)
Definition RandomPeriod (rnd : Z) : res (Z * Z) := Uniform (2 * kReadBytesPeriod) rnd.

Fixpoint sample_loop (fuel : nat) (k : list byte) (s : Sampler) : res Sampler :=
  match fuel with
  | O => Err Diverge
  | S fuel =>
      if bytes_counter_ s <? 0 then
        '(period, rnd) ← RandomPeriod (rnd_ s);
        counter ← clong (bytes_counter_ s + period);
        sample_loop fuel k (MkSampler rnd counter (samples_ s ++ [k]))
      else mret s
  end.

(** A period is not 0 twice in a row. *)
Definition count_bytes (k v : list byte) (s : Sampler) : res Sampler :=
  let n := zlen k + zlen v in
  counter ← clong (bytes_counter_ s - n);
  sample_loop (S (2 * Z.to_nat (- counter))) k (MkSampler (rnd_ s) counter (samples_ s)).

Section db_iter.
Context {T I : Type} `{Iterator T I} {user_comparator_ : Comparator}.
(** How many entries of the internal iterator a loop may pass. *)
Context (fuel : nat).

Record DBIter := MkDBIter {
  iter_ : I; sequence_ : Z; status_ : Status; saved_key_ : list byte; saved_value_ : list byte;
  direction_ : Direction; valid_ : bool; sampler_ : Sampler }.

Definition new_DBIter (iter : I) (s seed : Z) : res DBIter :=
  '(counter, rnd) ← RandomPeriod (new_Random seed);
  mret (MkDBIter iter s OK [] [] kForward false (MkSampler rnd counter [])).

Definition with_iter (i : I) (it : DBIter) : DBIter :=
  MkDBIter i (sequence_ it) (status_ it) (saved_key_ it) (saved_value_ it) (direction_ it) (valid_ it) (sampler_ it).
Definition with_saved (k v : list byte) (it : DBIter) : DBIter :=
  MkDBIter (iter_ it) (sequence_ it) (status_ it) k v (direction_ it) (valid_ it) (sampler_ it).
Definition with_direction (d : Direction) (it : DBIter) : DBIter :=
  MkDBIter (iter_ it) (sequence_ it) (status_ it) (saved_key_ it) (saved_value_ it) d (valid_ it) (sampler_ it).
Definition with_valid (b : bool) (it : DBIter) : DBIter :=
  MkDBIter (iter_ it) (sequence_ it) (status_ it) (saved_key_ it) (saved_value_ it) (direction_ it) b (sampler_ it).
Definition with_sampler (s : Sampler) (status : Status) (it : DBIter) : DBIter :=
  MkDBIter (iter_ it) (sequence_ it) status (saved_key_ it) (saved_value_ it) (direction_ it) (valid_ it) s.
#[local] Abbreviation SaveKey k it := (with_saved k (saved_value_ it) it).
#[local] Abbreviation ClearSavedValue it := (with_saved (saved_key_ it) [] it).

Definition DBIter_key (it : DBIter) : res (list byte) :=
  _ ← c_assert (valid_ it);
  match direction_ it with kForward => k ← i_key (iter_ it); ExtractUserKey k | kReverse => mret (saved_key_ it) end.
Definition DBIter_value (it : DBIter) : res (list byte) :=
  _ ← c_assert (valid_ it);
  match direction_ it with kForward => i_value (iter_ it) | kReverse => mret (saved_value_ it) end.
Definition DBIter_status (it : DBIter) : res Status := if ok (status_ it) then i_status (iter_ it) else mret (status_ it).

(** The key, unless it is corrupted. *)
Definition ParseKey (it : DBIter) : res (option ParsedInternalKey * DBIter) :=
  k ← i_key (iter_ it); v ← i_value (iter_ it);
  sampler ← count_bytes k v (sampler_ it);
  ikey ← ParseInternalKey k;
  match ikey with
  | None => s ← Corruption (str "corrupted internal key in DBIter") []; mret (None, with_sampler sampler s it)
  | Some ikey => mret (Some ikey, with_sampler sampler (status_ it) it)
  end.

(** The switch on the type of an entry: whether it is acceptable, and [skipping]; what is skipped is in [saved_key_]. *)
Definition accept (ikey : option ParsedInternalKey) (skipping : bool) (it : DBIter) : res (bool * bool * DBIter) :=
  match ikey with
  | None => mret (false, skipping, it)
  | Some ikey =>
      if sequence ikey <=? sequence_ it then
        if type ikey =? kTypeDeletion then mret (false, true, SaveKey (user_key ikey) it)
        else
          hidden ← (if skipping then r ← Compare (user_key ikey) (saved_key_ it); mret (r <=? 0) else mret false);
          if hidden : bool then mret (false, skipping, it)
          else mret (true, skipping, with_valid true (SaveKey [] it))
      else mret (false, skipping, it)
  end.

Fixpoint next_loop (n : nat) (skipping : bool) (it : DBIter) : st T DBIter :=
  match n with
  | O => lift (Err Diverge)
  | S n =>
      '(ikey, it) ← lift (ParseKey it);
      '(found, skipping, it) ← lift (accept ikey skipping it);
      if found : bool then mret it
      else
        i ← i_Next (iter_ it);
        let it := with_iter i it in
        if i_Valid (iter_ it) then next_loop n skipping it else mret (with_valid false (SaveKey [] it))
  end.

Definition is_forward (it : DBIter) : bool := match direction_ it with kForward => true | kReverse => false end.

Definition FindNextUserEntry (skipping : bool) (it : DBIter) : st T DBIter :=
  _ ← lift (c_assert (i_Valid (iter_ it))); _ ← lift (c_assert (is_forward it));
  next_loop fuel skipping it.

Definition DBIter_Next (it : DBIter) : st T DBIter :=
  _ ← lift (c_assert (valid_ it));
  match direction_ it with
  | kReverse =>
      let it := with_direction kForward it in
      i ← (if negb (i_Valid (iter_ it)) then i_SeekToFirst (iter_ it) else i_Next (iter_ it));
      let it := with_iter i it in
      if negb (i_Valid (iter_ it)) then mret (SaveKey [] (with_valid false it)) else FindNextUserEntry true it
  | kForward =>
      k ← lift (i_key (iter_ it)); u ← lift (ExtractUserKey k);
      FindNextUserEntry true (SaveKey u it)
  end.

(** Back to the entry before those of [saved_key_]; false at the start. *)
Fixpoint before_loop (n : nat) (it : DBIter) : st T (bool * DBIter) :=
  match n with
  | O => lift (Err Diverge)
  | S n =>
      i ← i_Prev (iter_ it);
      let it := with_iter i it in
      if negb (i_Valid (iter_ it)) then mret (false, with_saved [] [] (with_valid false it))
      else
        k ← lift (i_key (iter_ it)); u ← lift (ExtractUserKey k); r ← lift (Compare u (saved_key_ it));
        if r <? 0 then mret (true, it) else before_loop n it
  end.

(** An entry on the way back: whether to stop before it, and the type of the last entry. *)
Definition collect (ikey : option ParsedInternalKey) (value_type : Z) (it : DBIter) : res (bool * Z * DBIter) :=
  match ikey with
  | None => mret (false, value_type, it)
  | Some ikey =>
      if sequence ikey <=? sequence_ it then
        previous ← (if negb (value_type =? kTypeDeletion) then r ← Compare (user_key ikey) (saved_key_ it); mret (r <? 0) else mret false);
        if previous : bool then mret (true, value_type, it)
        else
          let value_type := type ikey in
          if value_type =? kTypeDeletion then mret (false, value_type, with_saved [] [] it)
          else
            raw_value ← i_value (iter_ it); k ← i_key (iter_ it); u ← ExtractUserKey k;
            mret (false, value_type, with_saved u raw_value it)
      else mret (false, value_type, it)
  end.

Fixpoint prev_loop (n : nat) (value_type : Z) (it : DBIter) : st T (Z * DBIter) :=
  match n with
  | O => lift (Err Diverge)
  | S n =>
      '(ikey, it) ← lift (ParseKey it);
      '(stop, value_type, it) ← lift (collect ikey value_type it);
      if stop : bool then mret (value_type, it)
      else
        i ← i_Prev (iter_ it);
        let it := with_iter i it in
        if i_Valid (iter_ it) then prev_loop n value_type it else mret (value_type, it)
  end.

Definition FindPrevUserEntry (it : DBIter) : st T DBIter :=
  _ ← lift (c_assert (negb (is_forward it)));
  '(value_type, it) ← (if i_Valid (iter_ it) then prev_loop fuel kTypeDeletion it else mret (kTypeDeletion, it));
  if value_type =? kTypeDeletion then mret (with_direction kForward (with_saved [] [] (with_valid false it)))
  else mret (with_valid true it).

Definition DBIter_Prev (it : DBIter) : st T DBIter :=
  _ ← lift (c_assert (valid_ it));
  match direction_ it with
  | kForward =>
      _ ← lift (c_assert (i_Valid (iter_ it)));
      k ← lift (i_key (iter_ it)); u ← lift (ExtractUserKey k);
      '(more, it) ← before_loop fuel (SaveKey u it);
      if more : bool then FindPrevUserEntry (with_direction kReverse it) else mret it
  | kReverse => FindPrevUserEntry it
  end.

Definition DBIter_Seek (target : list byte) (it : DBIter) : st T DBIter :=
  let it := ClearSavedValue (with_direction kForward it) in
  saved ← lift (AppendInternalKey [] (MkParsed target (sequence_ it) kValueTypeForSeek));
  let it := SaveKey saved it in
  i ← i_Seek (saved_key_ it) (iter_ it);
  let it := with_iter i it in
  if i_Valid (iter_ it) then FindNextUserEntry false it else mret (with_valid false it).

Definition DBIter_SeekToFirst (it : DBIter) : st T DBIter :=
  let it := ClearSavedValue (with_direction kForward it) in
  i ← i_SeekToFirst (iter_ it);
  let it := with_iter i it in
  if i_Valid (iter_ it) then FindNextUserEntry false it else mret (with_valid false it).

Definition DBIter_SeekToLast (it : DBIter) : st T DBIter :=
  let it := ClearSavedValue (with_direction kReverse it) in
  i ← i_SeekToLast (iter_ it);
  FindPrevUserEntry (with_iter i it).

#[export] Instance db_iterator : Iterator T DBIter := {|
  i_Valid := valid_;
  i_SeekToFirst := DBIter_SeekToFirst;
  i_SeekToLast := DBIter_SeekToLast;
  i_Seek := DBIter_Seek;
  i_Next := DBIter_Next;
  i_Prev := DBIter_Prev;
  i_key := DBIter_key;
  i_value := DBIter_value;
  i_status := DBIter_status;
  i_delete it := i_delete (iter_ it) |}.
End db_iter.
Arguments DBIter : clear implicits.
