(* ===== verification/DbIterProps.v ===== *)
(** * The iterator of a database shows what its sequence number sees

    The user keys that have a value in sorted internal entries, as a computation over the entries
    and as a statement about them.

    Over an internal iterator that keeps its laws, [DBIter] keeps them over [visible]. *)
From stdpp Require Import sorting.
From S2P Require Import Prelude Buffers CLib Order Coding Comparator DbFormat Block BlockProps Status Random Iterator IterProps DbIter.

#[local] Open Scope Z_scope.
#[local] Open Scope list_scope.

(** The parts of an internal entry. *)
Definition e_user (e : entry) : list byte := user_part e.1.
Definition e_seq (e : entry) : Z := tag_part e.1 / 256.
Definition e_type (e : entry) : Z := tag_part e.1 mod 256.

Section visible.
Context (c : list byte → list byte → Z) {Hord : CmpOrder c} (s : Z).

Definition sees (e : entry) : bool := e_seq e <=? s.

(** What has been decided so far: all keys up to [skip]. *)
Definition hides (skip : option (list byte)) (u : list byte) : bool := match skip with None => false | Some x => c u x <=? 0 end.

Definition skip_after (skip : option (list byte)) (e : entry) : option (list byte) :=
  if sees e then if (e_type e =? kTypeDeletion) || negb (hides skip (e_user e)) then Some (e_user e) else skip else skip.
Definition accepted (skip : option (list byte)) (e : entry) : bool :=
  sees e && negb (e_type e =? kTypeDeletion) && negb (hides skip (e_user e)).

Fixpoint visible (skip : option (list byte)) (es : list entry) : list entry :=
  match es with
  | [] => []
  | e :: es => (if accepted skip e then [(e_user e, e.2)] else []) ++ visible (skip_after skip e) es
  end.
Definition skips (skip : option (list byte)) (es : list entry) : option (list byte) := foldl skip_after skip es.

Lemma visible_app skip l1 l2 : visible skip (l1 ++ l2) = visible skip l1 ++ visible (skips skip l1) l2.
Proof using. revert skip. induction l1 as [|e l1 IH]; intros skip; [done|]. cbn [visible app]. by rewrite IH, <-app_assoc. Qed.

Lemma skips_app skip l1 l2 : skips skip (l1 ++ l2) = skips (skips skip l1) l2.
Proof using. apply foldl_app. Qed.

(** Entries that are not seen do nothing. *)
Lemma unseen skip l : (∀ e, e ∈ l → sees e = false) → visible skip l = [] ∧ skips skip l = skip.
Proof using.
  revert skip. induction l as [|e l IH]; intros skip Hl; [done|]. cbn [visible skips foldl]. unfold accepted, skip_after.
  rewrite (Hl e) by left. cbn [andb app]. apply IH. intros e' He'. apply Hl. by right.
Qed.

(** What is skipped is a key that was seen. *)
Lemma skips_from skip l : skips skip l = skip ∨ ∃ e, e ∈ l ∧ sees e = true ∧ skips skip l = Some (e_user e).
Proof using.
  revert skip. induction l as [|e l IH]; intros skip; [by left|]. cbn [skips foldl]. fold (skips (skip_after skip e) l).
  destruct (IH (skip_after skip e)) as [->|(e' & He' & Hs & ->)]; [|right; exists e'; split; [by right|done]].
  unfold skip_after. destruct (sees e) eqn:Es; [|by left]. case_match; [|by left]. right. exists e. split; [by left|done].
Qed.

(** Sorted by user key, as sorted internal entries are. *)
Definition by_user (l : list entry) : Prop := StronglySorted (λ a b, c (e_user a) (e_user b) ≤ 0) l.

Lemma hides_le skip u u' : hides skip u = true → c u' u ≤ 0 → hides skip u' = true.
Proof using Hord.
  destruct skip as [x|]; [|done]. cbn. intros H1 H2. pose proof (cmp_trans (c := c) u' u x). destruct (Z.leb_spec (c u x) 0); [|done]. apply Z.leb_le. lia.
Qed.

Lemma hides_skips skip l u : hides skip u = true → (∀ e, e ∈ l → c u (e_user e) ≤ 0) → hides (skips skip l) u = true.
Proof using.
  intros Hh Hl. destruct (skips_from skip l) as [->|(e & He & _ & ->)]; [done|]. cbn. apply Z.leb_le. by apply Hl.
Qed.

(** An entry that is seen hides its key and those before it from then on. *)
Lemma seen_hides skip l e u : by_user l → e ∈ l → sees e = true → c u (e_user e) ≤ 0 → hides (skips skip l) u = true.
Proof using Hord.
  intros Hl. revert skip. induction Hl as [|a l Hs IH Ha]; intros skip Hin Hse Hu; [by apply elem_of_nil in Hin|].
  cbn [skips foldl]. fold (skips (skip_after skip a) l). apply elem_of_cons in Hin as [->|Hin]; [|by apply IH].
  apply hides_skips.
  - unfold skip_after. rewrite Hse. destruct (e_type a =? kTypeDeletion); cbn [orb]; [cbn; by apply Z.leb_le|].
    destruct (hides skip (e_user a)) eqn:E; cbn [negb]; [by apply (hides_le _ (e_user a))|cbn; by apply Z.leb_le].
  - intros e' He'. rewrite Forall_forall in Ha. specialize (Ha e' He'). by apply (cmp_trans (c := c) u (e_user a)).
Qed.

(** Skips that hide the same keys of [l] show the same. *)
Lemma visible_ext skip skip' l : (∀ e, e ∈ l → hides skip (e_user e) = hides skip' (e_user e)) → visible skip l = visible skip' l.
Proof using.
  revert skip skip'. induction l as [|e l IH]; intros skip skip' Hl; [done|]. cbn [visible]. unfold accepted. rewrite (Hl e) by left. f_equal.
  apply IH. intros e' He'. unfold skip_after. rewrite (Hl e) by left. destruct (sees e); [|by apply Hl; right]. case_match; [done|]. apply Hl. by right.
Qed.

(** ** What is shown *)

Lemma elem_visible skip es x : x ∈ visible skip es ↔ ∃ l1 e l2, es = l1 ++ e :: l2 ∧ accepted (skips skip l1) e = true ∧ x = (e_user e, e.2).
Proof using.
  split.
  - revert skip. induction es as [|e es IH]; intros skip; cbn [visible]; [by intros ?%elem_of_nil|]. intros [Hx|Hx]%elem_of_app.
    + destruct (accepted skip e) eqn:E; [|by apply elem_of_nil in Hx]. apply list_elem_of_singleton in Hx as ->. by exists [], e, es.
    + destruct (IH _ Hx) as (l1 & e' & l2 & -> & Ha & ->). by exists (e :: l1), e', l2.
  - intros (l1 & e & l2 & -> & Ha & ->). rewrite visible_app. apply elem_of_app. right. cbn [visible]. rewrite Ha. by left.
Qed.

Lemma visible_users skip es u v : (u, v) ∈ visible skip es → ∃ e, e ∈ es ∧ e_user e = u ∧ sees e = true.
Proof using.
  intros (l1 & e & l2 & -> & Ha & [= -> ->])%elem_visible. exists e. split; [apply elem_of_app; right; by left|]. split; [done|].
  unfold accepted in Ha. by destruct (sees e).
Qed.

Definition floor (skip : option (list byte)) (es : list entry) : Prop :=
  match skip with None => True | Some x => ∀ e, e ∈ es → c x (e_user e) ≤ 0 end.

Lemma floor_after skip e es : by_user (e :: es) → floor skip (e :: es) → floor (skip_after skip e) es.
Proof using.
  intros Hs Hf. apply StronglySorted_inv in Hs as [_ He]. rewrite Forall_forall in He. unfold skip_after.
  assert (floor skip es) as Hf' by (destruct skip; [|done]; cbn in *; intros e' He'; apply Hf; by right).
  destruct (sees e); [|done]. case_match; [|done]. exact He.
Qed.

(** The keys that are shown are not hidden, and in order. *)
Lemma shown_sorted skip es : by_user es → floor skip es →
  (∀ x, x ∈ visible skip es → hides skip x.1 = false) ∧ StronglySorted (λ a b : entry, c a.1 b.1 < 0) (visible skip es).
Proof using Hord.
  intros Hs. revert skip. induction Hs as [|e es Hs IH He]; intros skip Hf; cbn [visible]; [split; [by intros ? ?%elem_of_nil|constructor]|].
  assert (by_user (e :: es)) as Hs' by by constructor. destruct (IH _ (floor_after skip e es Hs' Hf)) as [IH1 IH2].
  assert (∀ x, x ∈ visible (skip_after skip e) es → hides skip x.1 = false) as Hrest.
  { intros x Hx. specialize (IH1 x Hx). revert IH1. unfold skip_after. destruct (sees e); [|done]. case_match; [|done]. cbn [hides]. intros Hh.
    destruct skip as [y|]; [|done]. cbn. apply Z.leb_gt in Hh. apply Z.leb_gt. cbn in Hf. specialize (Hf e ltac:(by left)).
    pose proof (cmp_flip c (e_user e) x.1). pose proof (cmp_le_lt c y (e_user e) x.1). pose proof (cmp_flip c y x.1). lia. }
  destruct (accepted skip e) eqn:Ea; cbn [app]; [|by split]. unfold accepted in Ea. apply andb_true_iff in Ea as [[Ese Ety]%andb_true_iff Eh]. split.
  - intros x [->|Hx]%elem_of_cons; [by apply negb_true_iff|by apply Hrest].
  - constructor; [done|]. apply Forall_forall. intros x Hx. specialize (IH1 x Hx). revert IH1. unfold skip_after. rewrite Ese, Eh, orb_true_r.
    cbn [hides fst]. intros H%Z.leb_gt. by apply (cmp_flip c).
Qed.

(** Sorted internal entries. *)
Lemma internal_by_user es : StronglySorted (λ a b : entry, internal_order c a.1 b.1 < 0) es → by_user es.
Proof using.
  intros Hs. unfold by_user. induction Hs as [|e es Hs IH He]; constructor; [done|]. eapply Forall_impl; [exact He|]. intros e' H.
  apply internal_order_le, Z.lt_le_incl, H.
Qed.

(** The value of [u], if the newest entry that is seen has one. *)
Definition newest_value (es : list entry) (u v : list byte) : Prop :=
  ∃ e, e ∈ es ∧ e_user e = u ∧ e.2 = v ∧ e_seq e ≤ s ∧ e_type e ≠ kTypeDeletion
    ∧ ∀ e', e' ∈ es → c (e_user e') u = 0 → e_seq e' ≤ s → tag_part e'.1 ≤ tag_part e.1.

Lemma visible_newest es u v : StronglySorted (λ a b : entry, internal_order c a.1 b.1 < 0) es →
  (u, v) ∈ visible None es ↔ newest_value es u v.
Proof using Hord.
  intros Hs. pose proof (internal_by_user es Hs) as Hu. rewrite elem_visible. split.
  - intros (l1 & e & l2 & -> & Ha & [= -> ->]). unfold accepted in Ha. apply andb_true_iff in Ha as [[Ese Ety]%andb_true_iff Eh].
    exists e. split; [apply elem_of_app; right; by left|]. split; [done|]. split; [done|]. split; [by apply Z.leb_le|]. split; [by apply Z.eqb_neq, negb_true_iff|].
    intros e' [He'|[->|He']%elem_of_cons]%elem_of_app Hc Hse; [|done|].
    + apply negb_true_iff in Eh. rewrite (seen_hides None l1 e') in Eh; [done| |done|by apply Z.leb_le|pose proof (cmp_anti (c := c) (e_user e') (e_user e)); lia].
      by apply StronglySorted_app_1_l in Hu.
    + apply StronglySorted_app_1_r in Hs. apply StronglySorted_inv in Hs as [_ Hs]. rewrite Forall_forall in Hs. specialize (Hs e' He').
      rewrite internal_order_parts in Hs. unfold e_user in Hc. pose proof (cmp_anti (c := c) (user_part e'.1) (user_part e.1)).
      destruct (Z.eqb_spec (c (user_part e.1) (user_part e'.1)) 0); lia.
  - intros (e & He & <- & <- & Hse & Hty & Hnew). apply list_elem_of_split in He as (l1 & l2 & ->). exists l1, e, l2. split; [done|]. split; [|done].
    unfold accepted, sees. rewrite (proj2 (Z.leb_le _ _) Hse). rewrite (proj2 (Z.eqb_neq _ _) Hty). cbn [negb andb]. apply negb_true_iff.
    destruct (skips_from None l1) as [->|(e' & He' & Hse' & ->)]; [done|]. cbn. apply Z.leb_gt.
    assert (e' ∈ l1 ++ e :: l2) as Hin by (apply elem_of_app; by left). apply Z.leb_le in Hse'.
    assert (internal_order c e'.1 e.1 < 0) as Hlt by (apply (StronglySorted_app_1_elem_of (λ a b : entry, internal_order c a.1 b.1 < 0) l1 (e :: l2)); [done|done|by left]). rewrite internal_order_parts in Hlt.
    unfold e_user in *. pose proof (cmp_anti (c := c) (user_part e'.1) (user_part e.1)).
    destruct (Z.eqb_spec (c (user_part e'.1) (user_part e.1)) 0) as [E|]; [|lia]. specialize (Hnew e' Hin E Hse'). lia.
Qed.
End visible.

(** * The iterator of a database shows what its sequence number sees *)

(** ** Sampling *)

Definition period : Z := 2 * kReadBytesPeriod.
Definition sampler_ok (s : Sampler) : Prop := seed_ok (rnd_ s) ∧ 0 ≤ bytes_counter_ s < period.

Lemma RandomPeriod_Ok rnd : seed_ok rnd → RandomPeriod rnd = Ok (Random_Next rnd mod period, Random_Next rnd)
  ∧ seed_ok (Random_Next rnd) ∧ 0 ≤ Random_Next rnd mod period < period.
Proof.
  intros Hs. split; [done|]. split; [by apply Next_ok|]. by apply Z.mod_pos_bound.
Qed.

(** A multiple of the period is not followed by another one. *)
Lemma period_twice rnd : seed_ok rnd → rnd mod period = 0 → Random_Next rnd mod period ≠ 0.
Proof.
  intros Hs Hz. rewrite Next_mod by done. assert (period = 2^21) as Ep by done. unfold seed_ok in Hs.
  assert (∃ k, rnd = period * k ∧ 1 ≤ k < 1024) as (k & -> & Hk).
  { exists (rnd / period). pose proof (Z.div_mod rnd period ltac:(by rewrite Ep)) as Hd. rewrite Hz, Z.add_0_r in Hd. split; [done|]. rewrite Ep in *. lia. }
  clear Hz Hs.
  assert (forallb (λ n, negb (((period * (Z.of_nat n + 1) * 16807) mod 2147483647) mod period =? 0)) (seq 0 1023) = true) as Hall by by vm_compute.
  rewrite forallb_forall in Hall. specialize (Hall (Z.to_nat (k - 1))). rewrite Z2Nat.id in Hall by lia. replace (k - 1 + 1) with k in Hall by lia.
  apply Z.eqb_neq, negb_true_iff, Hall. apply in_seq. lia.
Qed.

(** Rounds of the loop: two for each byte at most, one fewer after an empty period. *)
Definition rounds (s : Sampler) : Z :=
  if 0 <=? bytes_counter_ s then 0 else 2 * (- bytes_counter_ s) - (if rnd_ s mod period =? 0 then 1 else 0).

Lemma sample_loop_Ok fuel k : ∀ s, seed_ok (rnd_ s) → - 2^62 ≤ bytes_counter_ s < period → rounds s < Z.of_nat fuel →
  ∃ s', sample_loop fuel k s = Ok s' ∧ sampler_ok s'.
Proof.
  induction fuel as [|fuel IH]; intros s Hs Hc Hr; cbn [sample_loop].
  { unfold rounds in Hr. destruct (Z.leb_spec 0 (bytes_counter_ s)); [lia|]. case_match; lia. }
  destruct (Z.ltb_spec (bytes_counter_ s) 0) as [Hneg|Hpos]; [|exists s; split; [done|]; split; [done|lia]].
  destruct (RandomPeriod_Ok (rnd_ s) Hs) as (-> & Hs' & Hp). cbn [mbind res_bind]. assert (period = 2097152) as Ep by done.
  rewrite clong_ok by lia. cbn [mbind res_bind]. apply IH; cbn [rnd_ bytes_counter_]; [done|lia|].
  revert Hr. unfold rounds. cbn [rnd_ bytes_counter_]. rewrite (proj2 (Z.leb_gt _ _)) by done. pose proof (period_twice (rnd_ s) Hs) as Htwice.
  destruct (Z.leb_spec 0 (bytes_counter_ s + Random_Next (rnd_ s) mod period)); [case_match; lia|].
  destruct (Z.eqb_spec (rnd_ s mod period) 0), (Z.eqb_spec (Random_Next (rnd_ s) mod period) 0); lia.
Qed.

Lemma count_bytes_Ok k v s : sampler_ok s → zlen k + zlen v < 2^62 → ∃ s', count_bytes k v s = Ok s' ∧ sampler_ok s'.
Proof.
  intros [Hs Hc] Hl. unfold count_bytes. assert (period = 2097152) as Ep by done. rewrite clong_ok by lia. cbn [mbind res_bind]. apply sample_loop_Ok; cbn [rnd_ bytes_counter_].
  - done.
  - lia.
  - unfold rounds. cbn [rnd_ bytes_counter_]. case_match; [lia|]. case_match; lia.
Qed.

(** ** Positions *)

Section db_iter.
Context {T R : Type} {P : list R → T → Prop}.
Context {C : Comparator} {okk : list byte → Prop} {c : list byte → list byte → Z} {Hspec : ComparatorSpec C okk c}.
Context {I : Type} `{HI : Iterator T I} {es : list entry} {pos : I → nat → Prop} {owns : I → list R}.
Context {Hit : IteratorSpec P (internal_ok okk) (internal_order c) es pos owns}.
Context (s : Z) (Hs : 0 ≤ s ≤ kMaxSequenceNumber).

(** Internal keys of the two types, and entries that an [ssize_t] can count. *)
Definition entry_fine (e : entry) : Prop := internal_ok okk e.1 ∧ e_type e ≤ kTypeValue ∧ zlen e.1 + zlen e.2 < 2^62.

Context (Hsorted : StronglySorted (λ a b : entry, internal_order c a.1 b.1 < 0) es) (Hfine : Forall entry_fine es).
#[local] Abbreviation N := (length es).
#[local] Abbreviation vs := (visible c s None es).
#[local] Abbreviation shown l := (visible c s None l).
#[local] Abbreviation skipped l := (skips c s None l).
#[local] Instance db_order : CmpOrder c := @spec_order _ _ _ Hspec.

(** Entry [q] is the one that the [p]th visible key comes from. *)
Definition at_shown (q p : nat) (e : entry) : Prop :=
  es !! q = Some e ∧ accepted c s (skipped (take q es)) e = true ∧ shown (take q es) = take p vs ∧ (p ≤ length vs)%nat.

Lemma take_snoc q e : es !! q = Some e → shown (take (S q) es) = shown (take q es) ++ (if accepted c s (skipped (take q es)) e then [(e_user e, e.2)] else [])
  ∧ skipped (take (S q) es) = skip_after c s (skipped (take q es)) e.
Proof using. clear. intros He. rewrite (take_S_r es q e He), visible_app, skips_app. cbn [visible]. by rewrite app_nil_r. Qed.

Lemma shown_entry q p e : at_shown q p e → vs !! p = Some (e_user e, e.2) ∧ shown (take (S q) es) = take (S p) vs
  ∧ skipped (take (S q) es) = Some (e_user e).
Proof using.
  clear. intros (He & Ha & Hp & Hle). destruct (take_snoc q e He) as [E1 E2]. rewrite Ha in E1.
  assert (vs = take p vs ++ (e_user e, e.2) :: visible c s (skipped (take (S q) es)) (drop (S q) es)) as Evs.
  { rewrite <-Hp. rewrite <-(take_drop (S q) es) at 1. rewrite visible_app, E1. by rewrite <-app_assoc. }
  assert (vs !! p = Some (e_user e, e.2)) as Hlook.
  { rewrite Evs, lookup_app_r by (rewrite length_take; lia). rewrite length_take. replace (p - p `min` length vs)%nat with 0%nat by lia. done. }
  split; [done|]. split; [by rewrite E1, Hp, (take_S_r vs p _ Hlook)|]. rewrite E2. unfold accepted in Ha. unfold skip_after.
  apply andb_true_iff in Ha as [[-> _]%andb_true_iff ->]. by rewrite orb_true_r.
Qed.

(** Looking for the next key from entry [q]: the one after those of [take p vs]. Either the loop skips what was skipped,
    or it still has to pass the entry of the key it skips. *)
Definition unseen_between (n q : nat) : Prop := ∀ j e, (n ≤ j < q)%nat → es !! j = Some e → sees s e = false.
Definition going (q : nat) (skip : option (list byte)) (p : nat) : Prop :=
  (shown (take q es) = take p vs ∧ (p ≤ length vs)%nat ∧ ∀ e, e ∈ drop q es → hides c skip (e_user e) = hides c (skipped (take q es)) (e_user e))
  ∨ ∃ g p0 e, p = S p0 ∧ (q ≤ g)%nat ∧ at_shown g p0 e ∧ skip = Some (e_user e) ∧ unseen_between q g.

Lemma going_accept q skip p e : going q skip p → es !! q = Some e → accepted c s skip e = true → at_shown q p e.
Proof using Hspec.
  intros [(Hp & Hle & Hsame)|(g & p0 & e0 & -> & Hqg & Hg & -> & Hun)] He Ha.
  - split; [done|]. split; [|done]. unfold accepted in *. rewrite <-(Hsame e); [done|]. rewrite (drop_S es e q He). by left.
  - exfalso. unfold accepted in Ha. destruct (decide (q = g)) as [->|Hne].
    + destruct Hg as (He0 & _). rewrite He in He0. injection He0 as <-. cbn in Ha. rewrite (cmp_refl c) in Ha. cbn in Ha. by rewrite andb_false_r in Ha.
    + rewrite (Hun q e) in Ha; [done|lia|done].
Qed.

Lemma going_skip q skip p e : going q skip p → es !! q = Some e → accepted c s skip e = false → going (S q) (skip_after c s skip e) p.
Proof using Hspec.
  intros [(Hp & Hle & Hsame)|(g & p0 & e0 & -> & Hqg & Hg & -> & Hun)] He Ha.
  - left. destruct (take_snoc q e He) as [E1 E2]. rewrite (drop_S es e q He) in Hsame. pose proof (Hsame e ltac:(by left)) as He'.
    unfold accepted in *. rewrite <-He' in E1. rewrite Ha, app_nil_r in E1. rewrite E1, E2. split; [done|]. split; [done|].
    intros e' Hin. unfold skip_after. rewrite <-He'. destruct (sees s e); [|apply Hsame; by right]. case_match; [done|]. apply Hsame. by right.
  - destruct (decide (q = g)) as [->|Hne].
    + destruct (shown_entry g p0 e0 Hg) as (Hlook & E1 & E2). left. destruct Hg as (He0 & Ha0 & _). rewrite He in He0. injection He0 as <-.
      split; [done|]. split; [by apply lookup_lt_Some in Hlook|]. intros e' _. rewrite E2. unfold skip_after. destruct (sees s e); [|done].
      by case_match.
    + right. exists g, p0, e0. split; [done|]. split; [lia|]. split; [done|]. split.
      * unfold skip_after. rewrite (Hun q e); [done|lia|done].
      * intros j e' Hj. apply Hun. lia.
Qed.

Lemma going_end skip p : going N skip p → p = length vs.
Proof using.
  clear. intros [(Hp & Hle & _)|(g & p0 & e0 & _ & Hqg & (Hg & _) & _)]; [|apply lookup_lt_Some in Hg; lia].
  rewrite firstn_all in Hp. apply (f_equal length) in Hp. rewrite length_take in Hp. lia.
Qed.

(** ** What an entry does to the iterator *)

Definition base (it : DBIter I) : Prop := sequence_ it = s ∧ status_ it = OK ∧ sampler_ok (sampler_ it).

Lemma fine_lookup q e : es !! q = Some e → entry_fine e.
Proof using Hfine. intros He. rewrite Forall_forall in Hfine. apply Hfine. by eapply list_elem_of_lookup_2. Qed.

Lemma entry_key_user q e i : pos i q → es !! q = Some e → ∃ k v, e = (k, v) ∧ i_key (T := T) i = Ok k ∧ i_value (T := T) i = Ok v ∧ ExtractUserKey k = Ok (e_user e).
Proof using Hit Hfine.
  intros Hp He. destruct e as [k v]. destruct (pos_entry i q k v Hp He) as [Hk Hv]. exists k, v. split_and!; try done. apply ExtractUserKey_Ok, (fine_lookup q (k, v) He).
Qed.

Definition parsed (e : entry) : ParsedInternalKey := MkParsed (e_user e) (e_seq e) (e_type e).

Lemma ParseKey_Ok it q e : base it → pos (iter_ it) q → es !! q = Some e →
  ∃ smp, ParseKey it = Ok (Some (parsed e), with_sampler smp OK it) ∧ sampler_ok smp.
Proof using Hit Hfine.
  intros (_ & Hst & Hsm) Hp He. destruct (entry_key_user q e _ Hp He) as (k & v & -> & Hk & Hv & _). pose proof (fine_lookup q _ He) as ((H8 & _) & Hty & Hl).
  unfold ParseKey. rewrite Hk, Hv. cbn [mbind res_bind]. destruct (count_bytes_Ok k v _ Hsm Hl) as (smp & -> & Hsmp). cbn [mbind res_bind].
  rewrite ParseInternalKey_Ok by done. cbn [mbind res_bind]. unfold e_type, kTypeValue in Hty. cbn [fst] in Hty. rewrite (proj2 (Z.leb_le _ _) Hty), Hst. by exists smp.
Qed.

Definition skip_of (skipping : bool) (k : list byte) : option (list byte) := if skipping then Some k else None.

Lemma accept_Ok e skipping it : base it → entry_fine e → (skipping = true → okk (saved_key_ it)) →
  ∃ skipping' it', accept (Some (parsed e)) skipping it = Ok (accepted c s (skip_of skipping (saved_key_ it)) e, skipping', it')
    ∧ base it' ∧ iter_ it' = iter_ it ∧ direction_ it' = direction_ it
    ∧ if accepted c s (skip_of skipping (saved_key_ it)) e then valid_ it' = true
      else skip_of skipping' (saved_key_ it') = skip_after c s (skip_of skipping (saved_key_ it)) e ∧ (skipping' = true → okk (saved_key_ it')).
Proof using Hspec.
  clear Hsorted Hfine. intros Hb ((_ & Hok) & _ & _) Hsk. unfold accept, parsed, accepted, skip_after. cbn [sequence type user_key]. pose proof Hb as (-> & _).
  fold (sees s e). destruct (sees s e) eqn:Ese; cbn [andb]; [|by exists skipping, it]. destruct (Z.eqb_spec (e_type e) kTypeDeletion) as [Hd|Hd]; cbn [negb andb orb].
  { by exists true, (with_saved (e_user e) (saved_value_ it) it). }
  destruct skipping; cbn [skip_of hides] in *.
  - rewrite (Compare_spec (e_user e)) by (done || by apply Hsk). cbn [mbind res_bind]. destruct (c (e_user e) (saved_key_ it) <=? 0); cbn [negb].
    + by exists true, it.
    + by eexists true, _.
  - cbn [mbind res_bind negb]. by eexists false, _.
Qed.

(** ** Positions *)

Definition forward_at (it : DBIter I) (p : nat) : Prop :=
  valid_ it = true ∧ direction_ it = kForward ∧ ∃ q e, pos (iter_ it) q ∧ at_shown q p e.
Definition reverse_at (it : DBIter I) (p : nat) : Prop :=
  valid_ it = true ∧ direction_ it = kReverse ∧ ∃ g n e, at_shown g p e ∧ (n ≤ g)%nat ∧ unseen_between n g
    ∧ pos (iter_ it) (prev_pos N n) ∧ saved_key_ it = e_user e ∧ saved_value_ it = e.2.
Definition ended (it : DBIter I) (p : nat) : Prop := p = length vs ∧ valid_ it = false ∧ ∃ q, pos (iter_ it) q.
Definition db_pos (it : DBIter I) (p : nat) : Prop := base it ∧ (forward_at it p ∨ reverse_at it p ∨ ended it p).
Definition db_owns (it : DBIter I) : list R := owns (iter_ it).
#[local] Abbreviation reaches m p frame t := (wp m (λ it' t', db_pos it' p ∧ P (db_owns it' ++ frame) t') t).

Lemma base_with it b d k v i smp : base it → sampler_ok smp → base (MkDBIter i (sequence_ it) OK k v d b smp).
Proof using. clear. by intros (Hq & _). Qed.

(** ** Forwards *)

Lemma next_loop_Ok n : ∀ it q p skipping frame t, base it → direction_ it = kForward → pos (iter_ it) q → (q < N)%nat → (N - q ≤ n)%nat →
  going q (skip_of skipping (saved_key_ it)) p → (skipping = true → okk (saved_key_ it)) → P (db_owns it ++ frame) t →
  reaches (next_loop n skipping it) p frame t.
Proof using Hit Hfine Hspec.
  induction n as [|n IH]; intros it q p skipping frame t Hb Hdir Hp Hq Hn Hgo Hsk HP; [lia|]. cbn [next_loop].
  destruct (lookup_lt_is_Some_2 es q Hq) as [e He]. destruct (ParseKey_Ok it q e Hb Hp He) as (smp & E & Hsmp).
  apply wp_bind, (wp_lift _ _ _ _ E). set (it1 := with_sampler smp OK it). assert (base it1) as Hb1 by by apply base_with.
  destruct (accept_Ok e skipping it1 Hb1 (fine_lookup q e He) Hsk) as (skipping' & it2 & E2 & Hb2 & Ei & Ed & Hcase).
  apply wp_bind, (wp_lift _ _ _ _ E2). change (saved_key_ it1) with (saved_key_ it) in *. change (iter_ it1) with (iter_ it) in *.
  destruct (accepted c s (skip_of skipping (saved_key_ it)) e) eqn:Ea.
  - apply wp_ret. unfold db_owns. rewrite Ei. split; [|done]. split; [done|]. left. split; [done|]. split; [by rewrite Ed|].
    rewrite Ei. exists q, e. split; [done|]. by apply (going_accept q (skip_of skipping (saved_key_ it))).
  - destruct Hcase as [Hskip Hsk']. rewrite Ei. apply wp_bind. apply (wp_mono _ _ _ _ (Next_spec (iter_ it) q Hp Hq frame t HP)). intros i t' [Hp' HP'].
    pose proof (going_skip q _ p e Hgo He Ea) as Hgo'. rewrite <-Hskip in Hgo'. cbn [with_iter iter_]. destruct (pos_valid i (S q) Hp') as (Hle & -> & _).
    case_bool_decide as Hlt.
    + apply (IH _ (S q) p); try done; [exact (eq_trans Ed Hdir)|lia].
    + apply wp_ret. split; [|done]. split; [done|]. right. right. split; [|split; [done|by exists (S q)]].
      assert (S q = N) as EN by lia. rewrite EN in Hgo'. by apply (going_end _ p Hgo').
Qed.

Lemma prev_pos_lt n : (n ≤ N)%nat → (0 < N)%nat → (prev_pos N n < N)%nat ↔ n ≠ 0%nat.
Proof using. clear. destruct n; cbn; lia. Qed.

Lemma db_iter_pos it p : db_pos it p → base it ∧ ∃ q, pos (iter_ it) q.
Proof using. clear. intros [Hb [(_ & _ & q & e & H & _)|[(_ & _ & g & n & e & _ & _ & _ & H & _)|(_ & _ & H)]]]; split; try done; by eexists. Qed.

Lemma shown_below q p e : at_shown q p e → (q < N)%nat ∧ (p < length vs)%nat.
Proof using. clear. intros He. destruct (shown_entry q p e He) as (Hl & _). destruct He as (He & _). by apply lookup_lt_Some in He, Hl. Qed.

Lemma seek_key target : okk target → AppendInternalKey [] (MkParsed target s kValueTypeForSeek) = Ok (internal target s kValueTypeForSeek)
  ∧ internal_ok okk (internal target s kValueTypeForSeek).
Proof using Hs.
  intros Ht. assert (packable s kValueTypeForSeek) as Hp by (split; [done|unfold kValueTypeForSeek, kTypeValue; lia]).
  split; [by apply AppendInternalKey_Ok|]. apply internal_ok_app; [by apply packable_range|done].
Qed.

(** The first entry that is not below the key that is sought. *)
Lemma sought_between target q e : okk target → es !! q = Some e →
  let r := rank (internal_order c) (internal target s kValueTypeForSeek) es in
  ((q < r)%nat → sees s e = true → c (e_user e) target < 0) ∧ ((r ≤ q)%nat → 0 ≤ c (e_user e) target).
Proof using Hs Hfine Hsorted Hspec.
  intros Ht He r. pose proof (fine_lookup q e He) as (_ & Hty & _). assert (packable s kValueTypeForSeek) as Hp by (split; [done|unfold kValueTypeForSeek, kTypeValue; lia]).
  destruct (internal_parts target s kValueTypeForSeek Hp) as [Eu Etag]. split.
  - intros Hq Hsee. pose proof (rank_below (c := internal_order c) _ es q e Hq He) as Hlt. rewrite internal_order_parts, Eu, Etag in Hlt. unfold e_user.
    destruct (Z.eqb_spec (c (user_part e.1) target) 0) as [E|]; [|done]. exfalso. unfold sees, e_seq in Hsee. apply Z.leb_le in Hsee. unfold e_type, pack, kValueTypeForSeek, kTypeValue in *.
    pose proof (Z.div_mod (tag_part e.1) 256 ltac:(lia)). lia.
  - intros Hq. destruct (decide (c (e_user e) target < 0)) as [Hlt|]; [|lia]. exfalso.
    destruct (lookup_lt_is_Some_2 es r) as [e' He']; [apply lookup_lt_Some in He; lia|]. pose proof (rank_at (c := internal_order c) _ es e' He') as Hge.
    assert (c (e_user e') (e_user e) ≤ 0) as Hle.
    { destruct (decide (r = q)) as [->|Hne]; [rewrite He in He'; injection He' as <-; by rewrite (cmp_refl c)|].
      apply internal_order_le. destruct e' as [k' v'], e as [k v]. pose proof (sorted_lt (c := internal_order c) es Hsorted r q k' v' k v He' He ltac:(lia)). cbn. lia. }
    assert (c (e_user e') target < 0) as Hlt' by by apply (cmp_le_lt c _ (e_user e)).
    rewrite internal_order_parts, Eu in Hge. unfold e_user in Hlt'. destruct (Z.eqb_spec (c (user_part e'.1) target) 0); lia.
Qed.

Lemma going_seek target : okk target → let q := rank (internal_order c) (internal target s kValueTypeForSeek) es in going q None (rank c target vs).
Proof using Hs Hfine Hsorted Hspec.
  intros Ht q.
  assert (∀ e, e ∈ take q es → sees s e = true → c (e_user e) target < 0) as Hlow.
  { intros e [i [Hi Hq]%lookup_take_Some]%list_elem_of_lookup. by apply (sought_between target i e Ht Hi). }
  assert (∀ e, e ∈ drop q es → 0 ≤ c (e_user e) target) as Hhigh.
  { intros e [i Hi]%list_elem_of_lookup. rewrite lookup_drop in Hi. apply (sought_between target (q + i) e Ht Hi). fold q. lia. }
  assert (vs = shown (take q es) ++ visible c s (skipped (take q es)) (drop q es)) as Evs by by rewrite <-visible_app, take_drop.
  assert (rank c target vs = length (shown (take q es))) as Er.
  { rewrite Evs. apply rank_unique; [rewrite length_app; lia| |].
    - intros i [u v] Hi He. rewrite lookup_app_l in He by done. apply list_elem_of_lookup_2, visible_users in He as (e & He & <- & Hse). by apply Hlow.
    - intros [u v] He. rewrite lookup_app_r, Nat.sub_diag in He by done. apply list_elem_of_lookup_2, visible_users in He as (e & He & <- & _). by apply Hhigh. }
  left. rewrite Er. split; [by rewrite Evs, take_app_length|]. split; [rewrite Evs, length_app; lia|]. intros e He. cbn [hides].
  destruct (skips_from c s None (take q es)) as [->|(e' & He' & Hse & ->)]; [done|]. cbn. symmetry. apply Z.leb_gt.
  specialize (Hlow e' He' Hse). specialize (Hhigh e He). pose proof (cmp_flip c (e_user e') (e_user e)). pose proof (cmp_lt_le c (e_user e') target (e_user e)).
  pose proof (cmp_anti (c := c) target (e_user e)). lia.
Qed.

(** ** Backwards *)

Lemma user_le i j e e' : (i ≤ j)%nat → es !! i = Some e → es !! j = Some e' → c (e_user e) (e_user e') ≤ 0.
Proof using Hsorted Hspec.
  intros Hij Hi Hj. destruct (decide (i = j)) as [->|Hne]; [rewrite Hi in Hj; injection Hj as <-; by rewrite (cmp_refl c)|].
  apply internal_order_le, Z.lt_le_incl. destruct e as [k v], e' as [k' v']. apply (sorted_lt (c := internal_order c) es Hsorted i j k v k' v'); [done|done|lia].
Qed.

(** Entries [n] to [m]. *)
Definition seg (n m : nat) : list entry := drop n (take m es).

Lemma seg_cons n m e : (n < m)%nat → es !! n = Some e → seg n m = e :: seg (S n) m.
Proof using. intros Hn He. unfold seg. apply drop_S. by rewrite lookup_take_lt. Qed.

Lemma seg_unseen n g m skip : (n ≤ g ≤ m)%nat → unseen_between n g → visible c s skip (seg n m) = visible c s skip (seg g m).
Proof using.
  intros Hg Hun. unfold seg. replace (drop n (take m es)) with (take (g - n) (drop n (take m es)) ++ drop g (take m es)).
  - rewrite visible_app. destruct (unseen c s skip (take (g - n) (drop n (take m es)))) as [-> ->]; [|done].
    intros e [i Hi]%list_elem_of_lookup. apply lookup_take_Some in Hi as [Hi Hlt]. rewrite lookup_drop in Hi. apply lookup_take_Some in Hi as [Hi _].
    apply (Hun (n + i)%nat); [lia|done].
  - rewrite <-(take_drop (g - n) (drop n (take m es))) at 2. rewrite drop_drop. by replace (n + (g - n))%nat with g by lia.
Qed.

(** Entries [n] to [m] have been passed: no key that has a value, or the first one is saved. *)
Definition saved_from (n m : nat) (it : DBIter I) : Prop :=
  ∃ g e, (n ≤ g < m)%nat ∧ es !! g = Some e ∧ sees s e = true ∧ e_type e ≠ kTypeDeletion ∧ unseen_between n g
    ∧ saved_key_ it = e_user e ∧ saved_value_ it = e.2 ∧ visible c s (Some (e_user e)) (seg (S g) m) = [].
Definition collecting (n m : nat) (vt : Z) (it : DBIter I) : Prop :=
  if vt =? kTypeDeletion then ∀ skip, visible c s skip (seg n m) = [] else saved_from n m it.

Lemma rest_hidden n n' m vt it e : n = S n' → (n ≤ m)%nat → es !! n' = Some e → collecting n m vt it →
  (vt ≠ kTypeDeletion → 0 ≤ c (e_user e) (saved_key_ it)) → visible c s (Some (e_user e)) (seg n m) = [].
Proof using Hsorted Hspec.
  intros -> Hm He. unfold collecting. destruct (Z.eqb_spec vt kTypeDeletion) as [|Hvt]; [done|]. intros (g & eg & Hg & Heg & Hse & Hty & Hun & Hk & _ & Hrest) Hge.
  specialize (Hge Hvt). rewrite Hk in Hge. pose proof (user_le n' g e eg ltac:(lia) He Heg) as Hle. rewrite (seg_unseen _ g) by (done || lia). rewrite (seg_cons g m eg) by (done || lia).
  cbn [visible]. pose proof (cmp_anti (c := c) (e_user eg) (e_user e)) as Hanti.
  assert (hides c (Some (e_user e)) (e_user eg) = true) as Hh by (cbn; apply Z.leb_le; lia).
  unfold accepted, skip_after. rewrite Hse, Hh, (proj2 (Z.eqb_neq _ _) Hty). cbn [negb andb orb app].
  rewrite <-Hrest. apply visible_ext. intros x _. cbn. pose proof (cmp_trans (c := c) (e_user x) (e_user e) (e_user eg)). pose proof (cmp_trans (c := c) (e_user x) (e_user eg) (e_user e)).
  destruct (Z.leb_spec (c (e_user x) (e_user e)) 0), (Z.leb_spec (c (e_user x) (e_user eg)) 0); try done; lia.
Qed.

(** One more entry is passed, unless it is that of a key before the saved one. *)
Lemma collect_Ok n m vt it e : (S n ≤ m)%nat → es !! n = Some e → pos (iter_ it) n → base it → collecting (S n) m vt it →
  ∃ stop vt' it', collect (T := T) (Some (parsed e)) vt it = Ok (stop, vt', it') ∧ base it' ∧ iter_ it' = iter_ it ∧ direction_ it' = direction_ it
    ∧ if stop : bool then vt ≠ kTypeDeletion ∧ sees s e = true ∧ c (e_user e) (saved_key_ it) < 0 ∧ vt' = vt ∧ it' = it else collecting n m vt' it'.
Proof using Hit Hsorted Hfine Hspec.
  intros Hm He Hp Hb Hcol. pose proof (rest_hidden (S n) n m vt it e eq_refl Hm He Hcol) as Hrest. unfold collect, parsed. cbn [sequence type user_key]. pose proof Hb as (-> & _).
  fold (sees s e). destruct (sees s e) eqn:Ese.
  2:{ exists false, vt, it. split_and!; try done. unfold collecting in *. destruct (vt =? kTypeDeletion).
      - intros skip. rewrite (seg_unseen n (S n)); [done|lia|]. intros j e' Hj He'. replace j with n in He' by lia. rewrite He in He'. by injection He' as <-.
      - destruct Hcol as (g & eg & Hg & Heg & Hse & Hty & Hun & Hsaved). exists g, eg. split; [lia|]. do 3 (split; [done|]). split; [|done].
        intros j e' Hj He'. destruct (decide (j = n)) as [->|Hne]; [rewrite He in He'; by injection He' as <-|]. apply (Hun j); [lia|done]. }
  assert (∃ previous, (if negb (vt =? kTypeDeletion) then r ← Compare (e_user e) (saved_key_ it); mret (r <? 0) else mret false) = Ok previous
    ∧ (previous = true → vt ≠ kTypeDeletion ∧ c (e_user e) (saved_key_ it) < 0) ∧ (previous = false → vt ≠ kTypeDeletion → 0 ≤ c (e_user e) (saved_key_ it)))
    as (previous & -> & Hyes & Hno).
  { unfold collecting in Hcol. destruct (Z.eqb_spec vt kTypeDeletion) as [|Hvt]; cbn [negb]; [by exists false|].
    destruct Hcol as (g & eg & _ & Heg & _ & _ & _ & Hk & _). destruct (fine_lookup n e He) as ((_ & Hok) & _). destruct (fine_lookup g eg Heg) as ((_ & Hok') & _).
    rewrite Hk, (Compare_spec (e_user e)) by done. cbn [mbind res_bind]. eexists. split; [done|]. split; intros; lia. }
  cbn [mbind res_bind]. destruct previous; [exists true, vt, it; destruct (Hyes eq_refl); by split_and!|]. specialize (Hrest (Hno eq_refl)).
  destruct (Z.eqb_spec (e_type e) kTypeDeletion) as [Hd|Hd].
  - exists false, (e_type e), (with_saved [] [] it). split_and!; try done. unfold collecting. rewrite (proj2 (Z.eqb_eq _ _) Hd). intros skip. rewrite (seg_cons n m e) by (done || lia).
    cbn [visible]. unfold accepted, skip_after. by rewrite Ese, (proj2 (Z.eqb_eq _ _) Hd).
  - destruct (entry_key_user n e _ Hp He) as (k & v & -> & Ek & Ev & Eu). rewrite Ek, Ev. cbn [mbind res_bind]. rewrite Eu. cbn [mbind res_bind].
    eexists false, _, _. split; [done|]. split_and!; try done. unfold collecting. rewrite (proj2 (Z.eqb_neq _ _) Hd). exists n, (k, v).
    split; [lia|]. split_and!; try done. intros j e' Hj. lia.
Qed.

(** The loop ends at the start, or before the entry of a smaller key. *)
Definition collected (n m : nat) (vt : Z) (it : DBIter I) : Prop :=
  collecting n m vt it ∧ (n = 0%nat ∨ vt ≠ kTypeDeletion ∧ ∃ n' e, n = S n' ∧ es !! n' = Some e ∧ sees s e = true ∧ c (e_user e) (saved_key_ it) < 0).

Lemma prev_loop_Ok k : ∀ n m vt it frame t, (n < k)%nat → (S n ≤ m)%nat → (m ≤ N)%nat → pos (iter_ it) n → base it → collecting (S n) m vt it →
  P (db_owns it ++ frame) t →
  wp (prev_loop k vt it) (λ r t', base r.2 ∧ direction_ r.2 = direction_ it ∧ P (db_owns r.2 ++ frame) t'
    ∧ ∃ n', collected n' m r.1 r.2 ∧ pos (iter_ r.2) (prev_pos N n') ∧ (n' ≤ m)%nat) t.
Proof using Hit Hsorted Hfine Hspec.
  induction k as [|k IH]; intros n m vt it frame t Hk Hm HN Hp Hb Hcol HP; [lia|]. cbn [prev_loop].
  destruct (lookup_lt_is_Some_2 es n) as [e He]; [lia|]. destruct (ParseKey_Ok it n e Hb Hp He) as (smp & E & Hsmp).
  apply wp_bind, (wp_lift _ _ _ _ E). set (it1 := with_sampler smp OK it). assert (base it1) as Hb1 by by apply base_with.
  destruct (collect_Ok n m vt it1 e Hm He Hp Hb1 Hcol) as (stop & vt' & it2 & E2 & Hb2 & Ei & Ed & Hcase). apply wp_bind, (wp_lift _ _ _ _ E2).
  change (iter_ it1) with (iter_ it) in *. destruct stop.
  - destruct Hcase as (Hvt & Hse & Hlt & -> & ->). apply wp_ret. split; [done|]. split; [done|]. split; [done|]. exists (S n). split; [|split; [done|lia]].
    split; [done|]. right. split; [done|]. by exists n, e.
  - rewrite Ei. apply wp_bind. apply (wp_mono _ _ _ _ (Prev_spec (iter_ it) n Hp ltac:(lia) frame t HP)). intros i t' [Hp' HP']. cbn [with_iter iter_].
    destruct (pos_valid i _ Hp') as (_ & -> & _). destruct n as [|n].
    + rewrite bool_decide_false by (cbn; lia). apply wp_ret. split; [done|]. split; [done|]. split; [done|]. exists 0%nat. split; [|split; [done|lia]]. split; [done|by left].
    + rewrite bool_decide_true by (cbn; lia). cbn [prev_pos] in Hp'. refine (wp_mono _ _ _ _ (IH n m vt' (with_iter i it2) frame t' _ _ _ Hp' _ _ HP') _); [lia|lia|done|done|done|].
      intros r t'' (H1 & H2 & H3). split; [done|]. split; [|done]. rewrite H2. exact Ed.
Qed.

Lemma unseen_take n g : (n ≤ g)%nat → unseen_between n g → shown (take g es) = shown (take n es) ∧ skipped (take g es) = skipped (take n es).
Proof using.
  clear. intros Hg Hun. replace (take g es) with (take n es ++ take (g - n) (drop n es)) by (rewrite take_take_drop; f_equal; lia).
  destruct (unseen c s (skipped (take n es)) (take (g - n) (drop n es))) as [E1 E2]; [|by rewrite visible_app, skips_app, E1, app_nil_r].
  intros e' [i [Hi Hlt]%lookup_take_Some]%list_elem_of_lookup. rewrite lookup_drop in Hi. apply (Hun (n + i)%nat); [lia|done].
Qed.

(** The key that is saved is the last one that is shown. *)
Lemma collected_shown n m vt it p : collected n m vt it → (m ≤ N)%nat → shown (take m es) = take p vs → (p ≤ length vs)%nat →
  if vt =? kTypeDeletion then p = 0%nat
  else ∃ p' g e, p = S p' ∧ at_shown g p' e ∧ (n ≤ g)%nat ∧ unseen_between n g ∧ saved_key_ it = e_user e ∧ saved_value_ it = e.2.
Proof using Hsorted Hspec.
  intros [Hcol Hend] Hm Hshown Hle. unfold collecting in Hcol. destruct (Z.eqb_spec vt kTypeDeletion) as [|Hvt].
  - destruct Hend as [->|[]]; [|done]. specialize (Hcol None). unfold seg in Hcol. rewrite drop_0, Hshown in Hcol. apply (f_equal length) in Hcol.
    rewrite length_take in Hcol. cbn in Hcol. lia.
  - destruct Hcol as (g & e & Hg & He & Hse & Hty & Hun & Hk & Hv & Hrest).
    destruct (unseen_take n g) as [_ Eskip]; [lia|done|].
    assert (hides c (skipped (take g es)) (e_user e) = false) as Hh.
    { rewrite Eskip. destruct (skips_from c s None (take n es)) as [->|(e' & He' & _ & ->)]; [done|]. cbn. apply Z.leb_gt.
      destruct Hend as [->|(_ & n' & en & -> & Hen & _ & Hlt)]; [by apply elem_of_nil in He'|]. rewrite Hk in Hlt.
      apply list_elem_of_lookup in He' as [i [Hi Hin]%lookup_take_Some]. pose proof (user_le i n' e' en ltac:(lia) Hi Hen).
      pose proof (cmp_le_lt c (e_user e') (e_user en) (e_user e)). pose proof (cmp_flip c (e_user e') (e_user e)). lia. }
    assert (accepted c s (skipped (take g es)) e = true) as Ha by (unfold accepted; by rewrite Hse, Hh, (proj2 (Z.eqb_neq _ _) Hty)).
    assert (take m es = take g es ++ e :: seg (S g) m) as Em.
    { rewrite <-(seg_cons g m e) by (done || lia). unfold seg. rewrite <-(take_drop g (take m es)) at 1. rewrite take_take. by replace (g `min` m)%nat with g by lia. }
    rewrite Em, visible_app in Hshown. cbn [visible] in Hshown. rewrite Ha in Hshown.
    assert (skip_after c s (skipped (take g es)) e = Some (e_user e)) as Ek by (unfold skip_after; by rewrite Hse, Hh, orb_true_r).
    rewrite Ek, Hrest in Hshown. cbn [app] in Hshown. destruct p as [|p']; [by destruct (shown (take g es))|].
    destruct (lookup_lt_is_Some_2 vs p' Hle) as [x Hx]. rewrite (take_S_r vs p' x Hx) in Hshown. apply app_inj_tail in Hshown as [Hp' _].
    exists p', g, e. split; [done|]. split; [|split_and!; by try lia]. split_and!; try done; lia.
Qed.

Context (fuel : nat) (Hfuel : (length es < fuel)%nat).

Lemma find_next_Ok it q p skipping frame t : base it → direction_ it = kForward → pos (iter_ it) q → (q < N)%nat →
  going q (skip_of skipping (saved_key_ it)) p → (skipping = true → okk (saved_key_ it)) → P (db_owns it ++ frame) t →
  reaches (FindNextUserEntry fuel skipping it) p frame t.
Proof using Hit Hfine Hspec Hfuel.
  intros Hb Hdir Hp Hq Hgo Hsk HP. unfold FindNextUserEntry, is_forward. rewrite Hdir. destruct (pos_valid (iter_ it) q Hp) as (_ & Hv & _).
  apply wp_bind, (wp_lift _ tt); [by rewrite Hv, bool_decide_true|]. apply wp_bind, (wp_lift _ tt); [done|]. apply (next_loop_Ok fuel it q p); try done. lia.
Qed.

(** After seeking the internal iterator to entry [q]. *)
Lemma sought_Ok it q p frame t : base it → direction_ it = kForward → pos (iter_ it) q → going q None p → P (db_owns it ++ frame) t →
  reaches (if i_Valid (T := T) (iter_ it) then FindNextUserEntry fuel false it else mret (with_valid false it)) p frame t.
Proof using Hit Hfine Hspec Hfuel.
  intros Hb Hdir Hp Hgo HP. destruct (pos_valid (iter_ it) q Hp) as (Hle & -> & _). case_bool_decide as Hlt.
  - by apply (find_next_Ok it q p false).
  - apply wp_ret. split; [|done]. split; [done|]. right. right. split; [|split; [done|by exists q]].
    assert (q = N) as -> by lia. by apply (going_end _ p Hgo).
Qed.

Lemma DBIter_SeekToFirst_Ok it p : db_pos it p → moves P db_pos db_owns it (DBIter_SeekToFirst fuel it) 0.
Proof using Hit Hfine Hspec Hfuel.
  intros [(Hb & Hst & Hsm) [q Hq]]%db_iter_pos frame t HP. unfold DBIter_SeekToFirst. cbv zeta. apply wp_bind.
  apply (wp_mono _ _ _ _ (SeekToFirst_spec (iter_ it) q Hq frame t HP)). intros i t' [Hp HP']. apply (sought_Ok _ 0); try done.
  left. split; [done|]. split; [lia|]. done.
Qed.

Lemma DBIter_Seek_Ok it p target : db_pos it p → okk target → moves P db_pos db_owns it (DBIter_Seek fuel target it) (rank c target vs).
Proof using Hit Hfine Hsorted Hspec Hs Hfuel.
  intros [(Hq & Hst & Hsm) [q Hpos]]%db_iter_pos Ht frame t HP. destruct (seek_key target Ht) as [Ek Hok]. unfold DBIter_Seek. cbv zeta. cbn [sequence_ with_saved with_direction].
  rewrite Hq. apply wp_bind, (wp_lift _ _ _ _ Ek), wp_bind. cbn [with_saved iter_ saved_key_].
  apply (wp_mono _ _ _ _ (Seek_spec (iter_ it) q _ Hpos Hok frame t HP)). intros i t' [Hp HP'].
  apply (sought_Ok _ (rank (internal_order c) (internal target s kValueTypeForSeek) es) (rank c target vs) frame t'); [done|done|exact Hp|by apply going_seek|exact HP'].
Qed.

Lemma DBIter_Next_Ok it p : db_pos it p → (p < length vs)%nat → moves P db_pos db_owns it (DBIter_Next fuel it) (S p).
Proof using Hit Hfine Hspec Hfuel.
  intros [Hb [(Hv & Hdir & q & e & Hp & Hat)|[(Hv & Hdir & g & n & e & Hat & Hn & Hun & Hp & Hk & _)|(-> & _)]]] Hlt frame t HP; [| |lia].
  - unfold DBIter_Next. rewrite Hv, Hdir. apply wp_bind, (wp_lift _ tt); [done|]. destruct (shown_below q p e Hat) as [Hq _]. pose proof Hat as (He & _).
    destruct (entry_key_user q e _ Hp He) as (k & v & -> & Ek & _ & Eu). apply wp_bind, (wp_lift _ _ _ _ Ek), wp_bind, (wp_lift _ _ _ _ Eu).
    apply (find_next_Ok _ q (S p) true); try done.
    + right. exists q, p, (k, v). split_and!; try done. intros j e' Hj. lia.
    + intros _. by apply (fine_lookup q (k, v)).
  - unfold DBIter_Next. rewrite Hv, Hdir. apply wp_bind, (wp_lift _ tt); [done|]. cbv zeta. destruct (shown_below g p e Hat) as [Hg _]. pose proof Hat as (He & _).
    apply wp_bind. cbn [with_direction iter_]. destruct (pos_valid (iter_ it) _ Hp) as (_ & Hvi & _).
    assert (wp (if negb (i_Valid (iter_ it)) then i_SeekToFirst (iter_ it) else i_Next (iter_ it)) (λ i t', pos i n ∧ P (owns i ++ frame) t') t) as Hstep.
    { rewrite Hvi. destruct n as [|n].
      - rewrite bool_decide_false by (cbn; lia). by apply (SeekToFirst_spec _ _ Hp).
      - rewrite bool_decide_true by (cbn; lia). apply (Next_spec _ _ Hp); [cbn; lia|done]. }
    apply (wp_mono _ _ _ _ Hstep). intros i t' [Hp' HP']. cbn [with_iter iter_]. destruct (pos_valid i n Hp') as (_ & -> & _). rewrite bool_decide_true by lia.
    apply (find_next_Ok _ n (S p) true); try done; [lia| |].
    + right. exists g, p, e. split_and!; try done. cbn. by rewrite Hk.
    + intros _. cbn. rewrite Hk. by apply (fine_lookup g e).
Qed.
Lemma FindPrev_Ok it m p frame t : base it → direction_ it = kReverse → pos (iter_ it) (prev_pos N m) → (m ≤ N)%nat →
  shown (take m es) = take p vs → (p ≤ length vs)%nat → P (db_owns it ++ frame) t → reaches (FindPrevUserEntry fuel it) (prev_pos (length vs) p) frame t.
Proof using Hit Hsorted Hfine Hspec Hfuel.
  intros Hb Hdir Hp Hm Hshown Hle HP. unfold FindPrevUserEntry, is_forward. rewrite Hdir. apply wp_bind, (wp_lift _ tt); [done|]. apply wp_bind.
  assert (wp (if i_Valid (iter_ it) then prev_loop fuel kTypeDeletion it else mret (kTypeDeletion, it))
    (λ r t', base r.2 ∧ direction_ r.2 = kReverse ∧ P (db_owns r.2 ++ frame) t' ∧ ∃ n', collected n' m r.1 r.2 ∧ pos (iter_ r.2) (prev_pos N n') ∧ (n' ≤ m)%nat) t) as Hloop.
  { destruct (pos_valid (iter_ it) _ Hp) as (_ & -> & _). destruct m as [|m].
    - rewrite bool_decide_false by (cbn; lia). apply wp_ret. split; [done|]. split; [done|]. split; [done|]. exists 0%nat. split; [|done]. split; [|by left]. by intros skip.
    - rewrite bool_decide_true by (cbn; lia). cbn [prev_pos] in Hp. refine (wp_mono _ _ _ _ (prev_loop_Ok fuel m (S m) kTypeDeletion it frame t _ _ Hm Hp Hb _ HP) _); [lia|lia| |].
      + intros skip. unfold seg. by rewrite drop_ge by (rewrite length_take; lia).
      + intros r t' (H1 & H2 & H3). split; [done|]. split; [by rewrite H2|done]. }
  apply (wp_mono _ _ _ _ Hloop). intros [vt it'] t' (Hb' & Hd' & HP' & n & Hcol & Hp' & Hn). cbn [fst snd] in *.
  pose proof (collected_shown n m vt it' p Hcol Hm Hshown Hle) as Hlast. destruct (vt =? kTypeDeletion).
  - subst p. apply wp_ret. split; [|done]. split; [done|]. right. right. split; [done|]. split; [done|by eexists].
  - destruct Hlast as (p' & g & e & -> & Hat & Hng & Hun & Hk & Hv). apply wp_ret. split; [|done]. split; [done|]. right. left. split; [done|]. split; [done|].
    exists g, n, e. by split_and!.
Qed.

(** Before the entries of the key that is shown, none of which is seen apart from the one it comes from. *)
Lemma before_loop_Ok q p e k : at_shown q p e → ∀ n it frame t, (n < k)%nat → (n ≤ q)%nat → pos (iter_ it) n → base it → unseen_between n q →
  saved_key_ it = e_user e → P (db_owns it ++ frame) t →
  wp (before_loop k it) (λ r t', base r.2 ∧ direction_ r.2 = direction_ it ∧ P (db_owns r.2 ++ frame) t'
    ∧ ∃ n', (n' ≤ q)%nat ∧ unseen_between n' q ∧ pos (iter_ r.2) (prev_pos N n') ∧ (r.1 = false → n' = 0%nat ∧ valid_ r.2 = false)) t.
Proof using Hit Hsorted Hfine Hspec.
  clear fuel Hfuel. intros Hat. destruct (shown_below q p e Hat) as [Hq _]. destruct Hat as (He & Ha & _). induction k as [|k IH]; intros n it frame t Hk Hn Hp Hb Hun Hu HP; [lia|].
  cbn [before_loop]. apply wp_bind, (wp_mono _ _ _ _ (Prev_spec (iter_ it) n Hp ltac:(lia) frame t HP)). intros i t' [Hp' HP']. cbn [with_iter iter_].
  destruct (pos_valid i _ Hp') as (_ & -> & _). destruct n as [|n].
  - rewrite bool_decide_false by (cbn; lia). apply wp_ret. split; [done|]. split; [done|]. split; [done|]. by exists 0%nat.
  - rewrite bool_decide_true by (cbn; lia). cbn [prev_pos negb] in *. destruct (lookup_lt_is_Some_2 es n) as [e' He']; [lia|].
    destruct (entry_key_user n e' i Hp' He') as (key & v & -> & Ek & _ & Eu). apply wp_bind, (wp_lift _ _ _ _ Ek), wp_bind, (wp_lift _ _ _ _ Eu).
    destruct (fine_lookup n _ He') as ((_ & Hok') & _), (fine_lookup q e He) as ((_ & Hok) & _). change (saved_key_ (with_iter i it)) with (saved_key_ it). rewrite Hu.
    assert (Compare (e_user (key, v)) (e_user e) = Ok (c (e_user (key, v)) (e_user e))) as Ecmp by by apply Compare_spec.
    apply wp_bind, (wp_lift _ _ _ _ Ecmp). destruct (Z.ltb_spec (c (e_user (key, v)) (e_user e)) 0) as [|Hge].
    + apply wp_ret. split; [done|]. split; [done|]. split; [done|]. by exists (S n).
    + refine (wp_mono _ _ _ _ (IH n (with_iter i it) frame t' _ _ Hp' Hb _ Hu HP') _); [lia|lia| |done].
      intros j ej Hj Hej. destruct (decide (j = n)) as [->|]; [|apply (Hun j); [lia|done]]. rewrite He' in Hej. injection Hej as <-.
      destruct (sees s (key, v)) eqn:Ese; [|done]. exfalso. unfold accepted in Ha. rewrite (seen_hides c s None (take q es) (key, v)) in Ha; [by rewrite andb_false_r in Ha| | |done|].
      * eapply StronglySorted_app_1_l. rewrite take_drop. by apply internal_by_user.
      * apply list_elem_of_lookup. exists n. by rewrite lookup_take_lt.
      * pose proof (cmp_anti (c := c) (e_user (key, v)) (e_user e)). lia.
Qed.

Lemma DBIter_Prev_Ok it p : db_pos it p → (p < length vs)%nat → moves P db_pos db_owns it (DBIter_Prev fuel it) (prev_pos (length vs) p).
Proof using Hit Hsorted Hfine Hspec Hfuel.
  intros [Hb [(Hv & Hdir & q & e & Hp & Hat)|[(Hv & Hdir & g & n & e & Hat & Hn & Hun & Hp & _)|(-> & _)]]] Hlt frame t HP; [| |lia];
    unfold DBIter_Prev; rewrite Hv, Hdir; (apply wp_bind, (wp_lift _ tt); [done|]).
  - destruct (shown_below q p e Hat) as [Hq _]. pose proof Hat as (He & _ & Hshown & Hle). destruct (pos_valid (iter_ it) q Hp) as (_ & Hvi & _).
    rewrite bool_decide_true in Hvi by done. apply wp_bind, (wp_lift _ tt); [by rewrite Hvi|]. destruct (entry_key_user q e _ Hp He) as (k & v & -> & Ek & _ & Eu).
    apply wp_bind, (wp_lift _ _ _ _ Ek), wp_bind, (wp_lift _ _ _ _ Eu), wp_bind.
    refine (wp_mono _ _ _ _ (before_loop_Ok q p (k, v) fuel Hat q (with_saved (e_user (k, v)) (saved_value_ it) it) frame t _ _ Hp Hb _ eq_refl HP) _); [lia|done|intros j; lia|].
    intros [more it'] t' (Hb' & Hd' & HP' & n & Hn & Hun & Hp' & Hend). cbn [fst snd] in *. destruct (unseen_take n q Hn Hun) as [E _]. rewrite Hshown in E. destruct more.
    + apply (FindPrev_Ok _ n p); try done. lia.
    + destruct (Hend eq_refl) as [-> Hv']. apply wp_ret. split; [|done]. split; [done|]. right. right. assert (length (take p vs) = 0%nat) as E0 by by rewrite E. rewrite length_take in E0.
      split; [by replace p with 0%nat by lia|]. split; [done|by eexists].
  - destruct (shown_below g p e Hat) as [Hg _]. pose proof Hat as (_ & _ & Hshown & Hle). destruct (unseen_take n g Hn Hun) as [E _]. rewrite Hshown in E.
    apply (FindPrev_Ok _ n p); try done. lia.
Qed.

Lemma DBIter_SeekToLast_Ok it p : db_pos it p → moves P db_pos db_owns it (DBIter_SeekToLast fuel it) (pred (length vs)).
Proof using Hit Hsorted Hfine Hspec Hfuel.
  intros [Hb [q Hq]]%db_iter_pos frame t HP. unfold DBIter_SeekToLast. cbv zeta. apply wp_bind.
  apply (wp_mono _ _ _ _ (SeekToLast_spec (iter_ it) q Hq frame t HP)). intros i t' [Hp HP'].
  replace (pred (length vs)) with (prev_pos (length vs) (length vs)) by by destruct (length vs). apply (FindPrev_Ok _ N); try done.
  by rewrite firstn_all, firstn_all.
Qed.

Lemma forward_entry it p : base it → forward_at it p → ∃ e, vs !! p = Some (e_user e, e.2) ∧ DBIter_key it = Ok (e_user e) ∧ DBIter_value it = Ok e.2.
Proof using Hit Hfine.
  intros Hb (Hv & Hdir & q & e & Hp & Hat). destruct (shown_entry q p e Hat) as [Hl _]. exists e. split; [done|]. unfold DBIter_key, DBIter_value. rewrite Hv, Hdir.
  destruct (entry_key_user q e _ Hp ltac:(by destruct Hat)) as (k & v & -> & Ek & Ev & Eu). cbn [c_assert mbind res_bind]. rewrite Ek. by split.
Qed.

#[export] Instance db_iter_spec : @IteratorSpec T R P okk c (DBIter I) (db_iterator fuel) vs db_pos db_owns.
Proof using Hit Hsorted Hfine Hspec Hs Hfuel.
  split.
  - intros it p Hp. destruct (db_iter_pos it p Hp) as [(_ & Hst & _) [q Hq]]. destruct (pos_valid (iter_ it) q Hq) as (_ & _ & Est). cbn. unfold DBIter_status. rewrite Hst. change (ok OK) with true.
    destruct Hp as [_ [(Hv & _ & q' & e & _ & Hat)|[(Hv & _ & g & n & e & Hat & _)|(-> & Hv & _)]]]; rewrite Hv.
    + destruct (shown_below _ _ _ Hat). rewrite bool_decide_true by done. split; [lia|done].
    + destruct (shown_below _ _ _ Hat). rewrite bool_decide_true by done. split; [lia|done].
    + by rewrite bool_decide_false by lia.
  - intros it p k v [Hb [Hf|[(Hv & Hdir & g & n & e & Hat & _ & _ & _ & Hk & Hval)|(-> & _)]]] He; [| |by apply lookup_lt_Some in He; lia].
    + destruct (forward_entry it p Hb Hf) as (e & Hl & Ek & Ev). rewrite He in Hl. by injection Hl as -> ->.
    + destruct (shown_entry g p e Hat) as [Hl _]. rewrite He in Hl. injection Hl as -> ->. cbn. unfold DBIter_key, DBIter_value. by rewrite Hv, Hdir, Hk, Hval.
  - apply DBIter_SeekToFirst_Ok.
  - apply DBIter_SeekToLast_Ok.
  - intros it p target. apply DBIter_Seek_Ok.
  - apply DBIter_Next_Ok.
  - apply DBIter_Prev_Ok.
  - intros it p frame t Hp HP. destruct (db_iter_pos it p Hp) as [_ [q Hq]]. by apply (delete_spec (iter_ it) q).
Qed.

Lemma new_DBIter_Ok i q seed : pos i q → ∃ it, new_DBIter i s seed = Ok it ∧ db_pos it (length vs) ∧ db_owns it = owns i.
Proof using.
  intros Hp. unfold new_DBIter. destruct (RandomPeriod_Ok (new_Random seed) (new_Random_ok seed)) as (-> & Hok & Hr). cbn [mbind res_bind].
  eexists. split; [done|]. split; [|done]. split; [done|]. right. right. split; [done|]. split; [done|by exists q].
Qed.
End db_iter.
