(* ===== verification/DbIterSpec.v ===== *)
(** * Merging iterators and database iterators as sorted lists

    The properties of table/merger.cc and db/db_iter.cc: clients that move such an iterator about see
    a list of entries, and deleting the iterator gives back all that its children hold. *)
From Stdlib Require Import Strings.String.
From stdpp Require Import sorting.
From S2P Require Import Prelude Buffers CLib Order Coding Comparator Status DbFormat Random Block BlockProps Iterator IterProps Merger MergerProps DbIterProps DbIter.

#[local] Open Scope Z_scope.
#[local] Open Scope list_scope.

(** ** Clients *)

(** Move an iterator about and delete it: what was seen, and the status at the end. *)
Definition tour_delete {T I} `{Iterator T I} (ms : list move) (it : I) : st T (list (option entry) * Status) :=
  '(seen, it) ← tour ms it;
  status ← lift (i_status it);
  _ ← i_delete it;
  mret (seen, status).

Definition merge_client {T I} `{Iterator T I} {comparator : Comparator} (ms : list move) (children : list I) : st T (list (option entry) * Status) :=
  it ← NewMergingIterator children; tour_delete ms it.

(** An iterator of a database over the internal iterators of its parts. *)
Definition db_client {T I} `{Iterator T I} {user_comparator : Comparator} (fuel : nat) (s seed : Z) (ms : list move) (children : list I) :
    st T (list (option entry) * Status) :=
  internal_iter ← NewMergingIterator children;
  it ← lift (new_DBIter internal_iter s seed);
  tour_delete (H := db_iterator (H := merged_iterator (comparator := InternalKeyComparator user_comparator)) (user_comparator_ := user_comparator) fuel) ms it.

Lemma tour_delete_Ok {T R} {P : list R → T → Prop} {okk c I} `{HI : Iterator T I} {es pos owns} {Hspec : IteratorSpec (I := I) P okk c es pos owns} ms it i frame t :
  starts ms → Forall (move_ok okk) ms → pos it i → P (owns it ++ frame) t →
  wp (tour_delete ms it) (λ r t', r = (tour_of c es ms 0, OK) ∧ P frame t') t.
Proof.
  intros Hstart Hms Hp HP. unfold tour_delete. apply wp_bind. apply (wp_mono _ _ _ _ (tour_Ok ms Hms it i frame t Hp HP)).
  intros [seen it'] t' (Eseen & i' & Hp' & HP'). cbn [fst snd] in *. subst seen. destruct (pos_valid it' i' Hp') as (_ & _ & Est). apply wp_bind, (wp_lift _ _ _ _ Est), wp_bind.
  apply (wp_mono _ _ _ _ (delete_spec it' i' frame t' Hp' HP')). intros _ t'' HP''. apply wp_ret. by rewrite (tour_start ms i 0).
Qed.

(** ** Properties *)

Section merging.
Context {T R : Type} {P : list R → T → Prop} {Hperm : Proper ((≡ₚ) ==> (=) ==> impl) P}.
Context {C : Comparator} {okk : list byte → Prop} {c : list byte → list byte → Z} {Hspec : ComparatorSpec C okk c}.
Context {I : Type} `{HI : Iterator T I} {owns : I → list R}.

(** Iterators over sorted lists, which hold the entries of the sorted list [es]; no key is in two of them. *)
Record sources (ss : list (list entry * (I → nat → Prop))) (es : list entry) : Prop := {
  src_spec : Forall (λ s, IteratorSpec P okk c s.1 s.2 owns) ss;
  src_sorted : Forall (λ s, StronglySorted (λ a b : entry, c a.1 b.1 < 0) s.1) ss;
  src_all : es ≡ₚ concat ss.*1;
  all_sorted : StronglySorted (λ a b : entry, c a.1 b.1 < 0) es;
  all_ok : Forall (λ e : entry, okk e.1) es }.

(** Claim C11. Merging iterators: over any number of iterators, each on its own sorted list, where no key is in the union of the lists
    more than once (internal keys never are; for keys that repeat, see [merging_equal_keys] below), the iterator that
    [NewMergingIterator] makes is one on their sorted union: whatever moves a client makes, forwards, backwards
    and to keys, it sees what it would in that list, with status OK, and deleting the iterator gives back what
    the children hold. *)
Theorem merging_refines ss es its frame t ms (Hss : sources ss es) (Hits : Forall2 over ss its) (HP : P (concat (owns <$> its) ++ frame) t)
    (Hstart : starts ms) (Hms : Forall (move_ok okk) ms) :
  wp (merge_client ms its) (λ r t', r = (tour_of c es ms 0, OK) ∧ P frame t') t.
Proof using Hperm Hspec.
  destruct Hss as [Hsrc Hsort Hall Hes Hok]. unfold merge_client. apply wp_bind.
  apply (wp_mono _ _ _ _ (NewMergingIterator_Ok ss Hsrc es its frame t Hits HP)). intros x t' [[p Hp] HP'].
  pose proof (merged_spec ss Hsrc Hsort es Hall Hes Hok) as Hm. by apply (tour_delete_Ok ms x p).
Qed.
End merging.
Arguments sources {T R} P {okk c I HI} owns ss es.

Section db.
Context {T R : Type} {P : list R → T → Prop} {Hperm : Proper ((≡ₚ) ==> (=) ==> impl) P}.
Context {C : Comparator} {okk : list byte → Prop} {c : list byte → list byte → Z} {Hspec : ComparatorSpec C okk c}.
Context {I : Type} `{HI : Iterator T I} {owns : I → list R}.

Lemma db_client_Ok ss es s (Hss : sources P (okk := internal_ok okk) (c := internal_order c) owns ss es)
    (Hfine : Forall (entry_fine (okk := okk)) es) (Hs : 0 ≤ s ≤ kMaxSequenceNumber) :
  let vs := visible c s None es in StronglySorted (λ a b : entry, c a.1 b.1 < 0) vs ∧ (∀ u v, (u, v) ∈ vs ↔ newest_value c s es u v)
    ∧ ∀ its frame t ms fuel seed, Forall2 over ss its → P (concat (owns <$> its) ++ frame) t → (length es < fuel)%nat →
        starts ms → Forall (move_ok okk) ms →
        wp (db_client fuel s seed ms its) (λ r t', r = (tour_of c vs ms 0, OK) ∧ P frame t') t.
Proof using Hperm Hspec.
  destruct Hss as [Hsrc Hsort Hall Hes Hok]. pose proof (@spec_order _ _ _ Hspec) as Hord. intros vs. split; [|split].
  - by apply (shown_sorted c s None es (internal_by_user c es Hes)).
  - intros u v. by apply (visible_newest c s).
  - intros its frame t ms fuel seed Hits HP Hfuel Hstart Hms. unfold db_client. apply wp_bind.
    apply (wp_mono _ _ _ _ (NewMergingIterator_Ok ss Hsrc es its frame t Hits HP)). intros x t' [[p Hp] HP'].
    pose proof (merged_spec (Hspec := internal_comparator_spec) ss Hsrc Hsort es Hall Hes Hok) as Hm. destruct (new_DBIter_Ok (c := c) (es := es) (owns := merged_owns (owns := owns)) s x p seed Hp) as (it & E & Hit & Eo).
    apply wp_bind, (wp_lift _ _ _ _ E). pose proof (db_iter_spec (Hspec := Hspec) (Hit := Hm) s Hs Hes Hfine fuel Hfuel) as Hdb.
    apply (tour_delete_Ok (Hspec := Hdb) ms it (length (visible c s None es)) frame t' Hstart Hms Hit). by rewrite Eo.
Qed.

(** Claim C10. Iterators of a database: over internal iterators whose union is the sorted list [es] of internal
    entries, the iterator of a database at sequence number [s] is one on the user keys that have a value at
    [s]: each once, in strictly increasing order, with the value of its newest entry that [s] sees, and without
    the keys whose newest entry is a deletion. Whatever moves a client makes, in both directions, it sees what
    it would in that list, with status OK; no loop diverges, and all that the children hold is given back. *)
Theorem db_iterator_refines ss es s (Hss : sources P (okk := internal_ok okk) (c := internal_order c) owns ss es)
    (Hfine : Forall (entry_fine (okk := okk)) es) (Hs : 0 ≤ s ≤ kMaxSequenceNumber) :
  ∃ vs, StronglySorted (λ a b : entry, c a.1 b.1 < 0) vs ∧ (∀ u v, (u, v) ∈ vs ↔ newest_value c s es u v)
    ∧ ∀ its frame t ms fuel seed, Forall2 over ss its → P (concat (owns <$> its) ++ frame) t → (length es < fuel)%nat →
        starts ms → Forall (move_ok okk) ms →
        wp (db_client fuel s seed ms its) (λ r t', r = (tour_of c vs ms 0, OK) ∧ P frame t') t.
Proof using Hperm Hspec. exists (visible c s None es). by apply (db_client_Ok ss). Qed.
End db.

(** ** Witnesses *)

(** Children over blocks, which share no state and hold nothing. *)
Section blocks.
Context {C : Comparator} {okk : list byte → Prop} {c : list byte → list byte → Z} {Hspec : ComparatorSpec C okk c}.
#[local] Abbreviation sorted_entries := (StronglySorted (λ a b : entry, c a.1 b.1 < 0)).

Definition open_block (es : list entry) : res block_iterator := contents ← build_block 2 es; b ← new_Block contents; NewIterator b.
Definition free (l : list unit) (t : unit) : Prop := True.

Lemma open_block_Ok es : sorted_entries es → Forall (λ e : entry, okk e.1) es → (∀ x, build_block 2 es = Ok x → zlen x < 2^32) →
  ∃ it, open_block es = Ok it ∧ block_pos es it (length es).
Proof using Hspec.
  intros Hs Ho Hl. destruct (build_block_Ok 2 ltac:(split; discriminate) es Hs Ho) as (shs & rs & Hb & Hlay). specialize (Hl _ Hb).
  destruct (new_Block_Ok es shs rs Hlay Hl) as (b & it & Eb & Eit & Hend). exists (BlockIterator it). unfold open_block. rewrite Hb. cbn [mbind res_bind].
  rewrite Eb. cbn [mbind res_bind]. split; [done|]. exists it, shs, rs. split_and!; try done. by right.
Qed.

Lemma block_sources ess es : Forall (λ l, sorted_entries l ∧ Forall (λ e : entry, okk e.1) l) ess → es ≡ₚ concat ess → sorted_entries es → Forall (λ e : entry, okk e.1) es →
  sources (HI := block_iterator_iterator) (okk := okk) (c := c) free block_owns ((λ l, (l, block_pos l)) <$> ess) es.
Proof using Hspec.
  intros Hess Hes Hs Ho. split; [| | |done|done].
  - apply Forall_fmap. eapply Forall_impl; [exact Hess|]. intros l [Hl Hok]. by apply block_spec.
  - apply Forall_fmap. eapply Forall_impl; [exact Hess|]. by intros l [Hl _].
  - rewrite <-list_fmap_compose. by rewrite list_fmap_id.
Qed.
End blocks.

(** Internal entries in two parts. *)
Definition put (u : string) (s : Z) (v : string) : entry := (internal (str u) s kTypeValue, str v).
Definition del (u : string) (s : Z) : entry := (internal (str u) s kTypeDeletion, []).
Definition newer : list entry := [put "a" 9 "new"; put "a" 5 "old"; del "b" 7; put "d" 8 "late"].
Definition older : list entry := [put "b" 4 "gone"; put "c" 2 "kept"; put "d" 1 "early"].
Definition together : list entry := [put "a" 9 "new"; put "a" 5 "old"; del "b" 7; put "b" 4 "gone"; put "c" 2 "kept"; put "d" 8 "late"; put "d" 1 "early"].
Definition path : list move := [MLast; MPrev; MPrev; MNext; MSeek (internal (str "c") 9 kTypeValue); MPrev; MFirst; MPrev].
Definition user_path : list move := [MFirst; MNext; MPrev; MNext; MNext; MNext; MLast; MPrev; MSeek (str "b"); MPrev; MPrev].

Lemma parts_sorted : Forall (λ l, StronglySorted (λ a b : entry, internal_order strcmp_aux a.1 b.1 < 0) l ∧ Forall (λ e : entry, internal_ok short e.1) l) [newer; older; together].
Proof. repeat constructor; vm_compute; try discriminate. Qed.

Lemma parts_together : together ≡ₚ concat [newer; older].
Proof. unfold together, newer, older. cbn [concat app]. solve_Permutation. Qed.

#[local] Instance internal_bytewise : Comparator := InternalKeyComparator BytewiseComparator.
#[local] Instance internal_bytewise_spec : ComparatorSpec internal_bytewise (internal_ok short) (internal_order strcmp_aux) := internal_comparator_spec.

Lemma parts_open : ∃ a b, open_block newer = Ok a ∧ open_block older = Ok b ∧ Forall2 over [(newer, block_pos newer); (older, block_pos older)] [a; b].
Proof.
  pose proof parts_sorted as Hp. rewrite !Forall_cons in Hp. destruct Hp as ((Hn & Hno) & (Ho & Hoo) & _).
  destruct (open_block_Ok newer Hn Hno) as (a & Ea & Ha); [intros x E; vm_compute in E; by injection E as <-|].
  destruct (open_block_Ok older Ho Hoo) as (b & Eb & Hb); [intros x E; vm_compute in E; by injection E as <-|].
  exists a, b. split; [done|]. split; [done|]. repeat constructor; by eexists.
Qed.

Lemma parts_sources : sources (HI := block_iterator_iterator) (okk := internal_ok short) (c := internal_order strcmp_aux) free block_owns
  [(newer, block_pos newer); (older, block_pos older)] together.
Proof.
  pose proof parts_sorted as Hp. rewrite !Forall_cons in Hp. destruct Hp as (Hn & Ho & (Ht & Hto) & _).
  apply (block_sources [newer; older]); [by repeat constructor|exact parts_together|done|done].
Qed.

(** A key in one part ends one tour, and the last position of another is used for a turn. *)
Lemma merging_refines_witness :
  ∃ a b, open_block newer = Ok a ∧ open_block older = Ok b
    ∧ wp (merge_client (H := block_iterator_iterator) path [a; b]) (λ r t', r = (tour_of (internal_order strcmp_aux) together path 0, OK) ∧ free [] t') tt.
Proof.
  destruct parts_open as (a & b & Ea & Eb & Hab). exists a, b. split; [done|]. split; [done|].
  apply (merging_refines _ _ _ [] tt path parts_sources Hab); [done|done|].
  repeat constructor; vm_compute; try discriminate.
Defined.

Lemma db_iterator_refines_witness :
  ∃ a b vs, open_block newer = Ok a ∧ open_block older = Ok b
    ∧ (∀ u v, (u, v) ∈ vs ↔ newest_value strcmp_aux 7 together u v)
    ∧ wp (db_client (user_comparator := BytewiseComparator) (H := block_iterator_iterator) 8 7 0xdeadbeef user_path [a; b])
        (λ r t', r = (tour_of strcmp_aux vs user_path 0, OK) ∧ free [] t') tt.
Proof.
  destruct parts_open as (a & b & Ea & Eb & Hab). exists a, b.
  destruct (db_iterator_refines (Hspec := bytewise_spec) _ together 7 parts_sources) as (vs & _ & Hvs & Htour).
  - repeat constructor; vm_compute; try discriminate.
  - by split.
  - exists vs. split; [done|]. split; [done|]. split; [exact Hvs|]. apply (Htour [a; b] [] tt user_path 8%nat); [exact Hab|done|cbn; lia|done|].
    repeat constructor; vm_compute; try discriminate.
Defined.

(** What that client sees. *)
Example user_path_seen :
  (a ← lift (open_block newer); b ← lift (open_block older);
   db_client (user_comparator := BytewiseComparator) (H := block_iterator_iterator) 8 7 0xdeadbeef user_path [a; b]) tt
  = let a := Some (str "a", str "old") in let c := Some (str "c", str "kept") in let d := Some (str "d", str "early") in
    Ok (([a; c; a; c; d; None; d; c; c; a; None], OK), tt).
Proof. vm_compute. reflexivity. Qed.

(** The header promises a key that is present in two children twice; a turn passes over its second occurrence:
    one step forwards and one step back from the first entry end before it. *)
Example merging_equal_keys :
  (let open l := lift (open_block (C := BytewiseComparator) l) in
   a ← open [(str "a", str "1")]; b ← open [(str "a", str "2")];
   merge_client (comparator := BytewiseComparator) (H := block_iterator_iterator (comparator := BytewiseComparator)) [MFirst; MNext; MPrev] [a; b]) tt
  = Ok (([Some (str "a", str "1"); Some (str "a", str "2"); None], OK), tt).
Proof. vm_compute. reflexivity. Qed.
