(* ===== verification/FileName.v ===== *)
(** * File names and small files: leveldb db/filename.cc, util/logging.cc, util/env.cc

    The names of the files of a database and what they are parsed to; decimal numbers; writing and reading a whole file; and
    the file CURRENT, which names the descriptor. *)
From Stdlib Require Import Strings.String.
From S2P Require Import Prelude Buffers CLib Comparator Status Env.

#[local] Open Scope Z_scope.
#[local] Open Scope list_scope.

(** ** Numbers *)

(** [%llu], and [%06llu]: zeros in front up to six digits. *)
Definition NumberToString (num : Z) : list byte := dec_of_nonneg num.
Definition six_digits (num : Z) : list byte := let d := dec_of_nonneg num in replicate (6 - length d) x30 ++ d.

Definition kMaxUint64 : Z := 2^64 - 1.

(** The number, the count of digits and what is left; nothing when the number does not fit. *)
Fixpoint consume_digits (v digits : Z) (s : list byte) : option (Z * Z * list byte) :=
  match s with
  | [] => Some (v, digits, s)
  | c :: s' =>
      if isdigit c then
        let delta := bz c - 48 in
        if (kMaxUint64 / 10 <? v) || ((v =? kMaxUint64 / 10) && (kMaxUint64 mod 10 <? delta)) then None
        else consume_digits (u64 (v * 10 + delta)) (digits + 1) s'
      else Some (v, digits, s)
  end.
Definition ConsumeDecimalNumber (s : list byte) : option (Z * list byte) :=
  '(v, digits, rest) ← consume_digits 0 0 s; if 0 <? digits then Some (v, rest) else None.

(** ** Names *)

Inductive FileType := kLogFile | kDBLockFile | kTableFile | kDescriptorFile | kCurrentFile | kTempFile | kInfoLogFile.

Definition MakeFileName (name : list byte) (number : Z) (suffix : string) : list byte := name ++ str "/" ++ six_digits number ++ str "." ++ str suffix.
Definition LogFileName (name : list byte) (number : Z) : res (list byte) := _ ← c_assert (0 <? number); mret (MakeFileName name number "log").
Definition TableFileName (name : list byte) (number : Z) : res (list byte) := _ ← c_assert (0 <? number); mret (MakeFileName name number "ldb").
Definition SSTTableFileName (name : list byte) (number : Z) : res (list byte) := _ ← c_assert (0 <? number); mret (MakeFileName name number "sst").
Definition DescriptorFileName (dbname : list byte) (number : Z) : res (list byte) :=
  _ ← c_assert (0 <? number); mret (dbname ++ str "/MANIFEST-" ++ six_digits number).
Definition CurrentFileName (dbname : list byte) : list byte := dbname ++ str "/CURRENT".
Definition LockFileName (dbname : list byte) : list byte := dbname ++ str "/LOCK".
Definition TempFileName (dbname : list byte) (number : Z) : res (list byte) := _ ← c_assert (0 <? number); mret (MakeFileName dbname number "dbtmp").
Definition InfoLogFileName (dbname : list byte) : list byte := dbname ++ str "/LOG".
Definition OldInfoLogFileName (dbname : list byte) : list byte := dbname ++ str "/LOG.old".

Definition ParseFileName (fname : list byte) : res (option (Z * FileType)) :=
  let rest := fname in
  if bool_decide (rest = str "CURRENT") then mret (Some (0, kCurrentFile))
  else if bool_decide (rest = str "LOCK") then mret (Some (0, kDBLockFile))
  else if bool_decide (rest = str "LOG") || bool_decide (rest = str "LOG.old") then mret (Some (0, kInfoLogFile))
  else
    manifest ← starts_with rest (str "MANIFEST-");
    if manifest : bool then
      rest ← remove_prefix (zlen (str "MANIFEST-")) rest;
      mret ('(num, rest) ← ConsumeDecimalNumber rest; if zlen rest =? 0 then Some (num, kDescriptorFile) else None)
    else
      mret ('(num, suffix) ← ConsumeDecimalNumber rest;
            if bool_decide (suffix = str ".log") then Some (num, kLogFile)
            else if bool_decide (suffix = str ".sst") || bool_decide (suffix = str ".ldb") then Some (num, kTableFile)
            else if bool_decide (suffix = str ".dbtmp") then Some (num, kTempFile)
            else None).

(** ** Whole files *)

(** The environment's files, and the files that are open for writing. *)
Class FileEnv (E W : Type) := {
  env_NewWritableFile : list byte → E → Status * W * E;
  env_Append : list byte → W → E → Status * E;
  env_Sync : W → E → Status * E;
  env_Close : W → E → Status * E;
  env_delete : W → E → E;
  env_DeleteFile : list byte → E → Status * E;
  env_RenameFile : list byte → list byte → E → Status * E }.

Section files.
Context {E W : Type} `{FileEnv E W}.

Definition DoWriteStringToFile (data fname : list byte) (should_sync : bool) (env : E) : Status * E :=
  let '(s, file, env) := env_NewWritableFile fname env in
  if negb (ok s) then (s, env)
  else
    let '(s, env) := env_Append data file env in
    let '(s, env) := if ok s && should_sync then env_Sync file env else (s, env) in
    let '(s, env) := if ok s then env_Close file env else (s, env) in
    let env := env_delete file env in
    if ok s then (s, env) else (s, (env_DeleteFile fname env).2).
Definition WriteStringToFile (data fname : list byte) : E → Status * E := DoWriteStringToFile data fname false.
Definition WriteStringToFileSync (data fname : list byte) : E → Status * E := DoWriteStringToFile data fname true.

Definition SetCurrentFile (dbname : list byte) (descriptor_number : Z) (env : E) : res (Status * E) :=
  manifest ← DescriptorFileName dbname descriptor_number;
  prefix ← starts_with manifest (dbname ++ str "/");
  _ ← c_assert prefix;
  contents ← remove_prefix (zlen dbname + 1) manifest;
  tmp ← TempFileName dbname descriptor_number;
  let '(s, env) := WriteStringToFileSync (contents ++ [NEWLINE]) tmp env in
  let '(s, env) := if ok s then env_RenameFile tmp (CurrentFileName dbname) env else (s, env) in
  mret (if ok s then (s, env) else (s, (env_DeleteFile tmp env).2)).
End files.

Section read.
Context {F : Type} `{SequentialFile F}.

Definition kBufferSize : Z := 8192.

(** The status, and what was read so far. *)
Fixpoint read_loop (fuel : nat) (data : list byte) (file : F) : res (Status * list byte) :=
  match fuel with
  | O => Err Diverge
  | S fuel =>
      let '(s, fragment, file) := sf_Read kBufferSize file in
      if negb (ok s) then mret (s, data)
      else
        let data := data ++ fragment in
        if zlen fragment =? 0 then mret (s, data) else read_loop fuel data file
  end.

(** [file]: the answer of [NewSequentialFile]. *)
Definition ReadFileToString (fuel : nat) (file : Status * F) : res (Status * list byte) :=
  let '(s, file) := file in if negb (ok s) then mret (s, []) else read_loop fuel [] file.
End read.

(** ** Numbers are read back *)

Lemma digits_val_ge ds : Forall (λ b, isdigit b = true) ds → ∀ v, 0 ≤ v → v ≤ digits_val v ds.
Proof.
  induction 1 as [|b ds Hb _ IH]; intros v Hv; cbn [digits_val]; [lia|]. rewrite Hb. unfold isdigit in Hb. specialize (IH (10 * v + (bz b - 48))). lia.
Qed.

(** What follows the digits. *)
Definition no_digit (s : list byte) : Prop := match s with [] => True | b :: _ => isdigit b = false end.

Lemma consume_digits_Ok ds rest : Forall (λ b, isdigit b = true) ds → no_digit rest → ∀ v n, 0 ≤ v ≤ kMaxUint64 →
  consume_digits v n (ds ++ rest) = if digits_val v ds <=? kMaxUint64 then Some (digits_val v ds, n + zlen ds, rest) else None.
Proof.
  intros Hds Hrest. induction Hds as [|b ds Hb Hds IH]; intros v n Hv; cbn [app consume_digits digits_val length].
  - rewrite (proj2 (Z.leb_le v _)) by lia. rewrite Z.add_0_r. destruct rest as [|b rest]; cbn [consume_digits no_digit] in *; [done|]. by rewrite Hrest.
  - rewrite Hb. pose proof Hb as Hd. unfold isdigit in Hd. pose proof (digits_val_ge ds Hds (10 * v + (bz b - 48)) ltac:(lia)) as Hge.
    change (kMaxUint64 / 10) with 1844674407370955161. change (kMaxUint64 mod 10) with 5.
    destruct ((1844674407370955161 <? v) || ((v =? 1844674407370955161) && (5 <? bz b - 48))) eqn:Eo.
    + rewrite (proj2 (Z.leb_gt _ _)); [done|]. unfold kMaxUint64 in *. lia.
    + rewrite u64_small by (unfold kMaxUint64 in *; lia). rewrite (IH (v * 10 + (bz b - 48)) (n + 1)) by (unfold kMaxUint64 in *; lia).
      replace (v * 10) with (10 * v) by lia. case_match; [|done]. do 2 f_equal. f_equal. lia.
Qed.

Lemma ConsumeDecimalNumber_Ok ds rest : Forall (λ b, isdigit b = true) ds → ds ≠ [] → no_digit rest →
  ConsumeDecimalNumber (ds ++ rest) = if digits_val 0 ds <=? kMaxUint64 then Some (digits_val 0 ds, rest) else None.
Proof.
  intros Hds Hne Hrest. unfold ConsumeDecimalNumber. rewrite consume_digits_Ok by (done || unfold kMaxUint64; lia). case_match; [|done]. cbn [mbind option_bind].
  rewrite (proj2 (Z.ltb_lt _ _)); [done|]. destruct ds; [done|]. cbn [length]. lia.
Qed.

Lemma six_digits_Ok n : 0 ≤ n → Forall (λ b, isdigit b = true) (six_digits n) ∧ six_digits n ≠ [] ∧ digits_val 0 (six_digits n) = n.
Proof.
  intros Hn. unfold six_digits. pose proof (dec_aux_digits (S (Z.to_nat (Z.log2 n))) n [] (Forall_nil_2 _)) as Hd. fold (dec_of_nonneg n) in Hd.
  split; [apply Forall_app; split; [|done]; by apply Forall_replicate|]. split.
  - intros [_ E]%app_eq_nil. by apply (dec_aux_nonempty (S (Z.to_nat (Z.log2 n))) n []); [right|].
  - induction (6 - length (dec_of_nonneg n))%nat as [|k IH]; [by apply dec_of_nonneg_val|done].
Qed.

(** ** Names are parsed back *)

Lemma starts_with_Ok s x : starts_with s x = Ok (bool_decide (take (length x) s = x)).
Proof.
  unfold starts_with. destruct (Z.leb_spec (zlen x) (zlen s)) as [Hle|Hgt].
  - unfold memcmp. rewrite (proj2 (in_range_true 0 (zlen x) s)), (proj2 (in_range_true 0 (zlen x) x)) by lia. cbn [andb defined mbind res_bind mret res_ret]. rewrite Nat2Z.id, (take_ge x) by lia. f_equal.
    case_bool_decide as E; [rewrite E; clear; induction x as [|b x IH]; [done|]; cbn [strcmp_aux]; by rewrite Z.ltb_irrefl|]. apply Z.eqb_neq. by intros ?%strcmp_aux_eq.
  - cbn. f_equal. symmetry. apply bool_decide_eq_false. intros E. apply (f_equal length) in E. rewrite length_take in E. lia.
Qed.

(** The name of a numbered file, without the directory. *)
Lemma parse_number n suffix : 0 ≤ n ≤ kMaxUint64 → no_digit (str suffix) →
  ParseFileName (six_digits n ++ str suffix) = Ok (if bool_decide (str suffix = str ".log") then Some (n, kLogFile)
    else if bool_decide (str suffix = str ".sst") || bool_decide (str suffix = str ".ldb") then Some (n, kTableFile) else if bool_decide (str suffix = str ".dbtmp") then Some (n, kTempFile) else None).
Proof.
  intros Hn Hs. destruct (six_digits_Ok n) as (Hd & Hne & Hv); [lia|]. unfold ParseFileName. pose proof (ConsumeDecimalNumber_Ok _ _ Hd Hne Hs) as Hc. rewrite Hv, (proj2 (Z.leb_le n _)) in Hc by lia.
  assert (∀ s : string, match str s with b :: _ => isdigit b = false | [] => False end → bool_decide (six_digits n ++ str suffix = str s) = false) as Hno.
  { intros s Hb. apply bool_decide_eq_false. intros E. destruct (six_digits n) as [|d ds]; [done|]. rewrite <-E in Hb. apply Forall_cons in Hd as [Hd _]. cbn in Hb. congruence. }
  rewrite !Hno by done. cbn [orb]. rewrite starts_with_Ok. cbn [mbind res_bind]. rewrite bool_decide_false; [by rewrite Hc|].
  destruct (six_digits n) as [|d ds]; [done|]. apply Forall_cons in Hd as [Hd _]. cbn. intros [= -> _]. done.
Qed.

Lemma parse_manifest n : 0 ≤ n ≤ kMaxUint64 → ParseFileName (str "MANIFEST-" ++ six_digits n) = Ok (Some (n, kDescriptorFile)).
Proof.
  intros Hn. destruct (six_digits_Ok n) as (Hd & Hne & Hv); [lia|]. unfold ParseFileName. rewrite !(bool_decide_false (str "MANIFEST-" ++ six_digits n = _)) by done. cbn [orb].
  rewrite starts_with_Ok, take_app_length, bool_decide_true by done. cbn [mbind res_bind]. unfold remove_prefix. rewrite c_assert_true by (rewrite length_app; lia). cbn [mbind res_bind mret res_ret].
  rewrite Nat2Z.id, drop_app_length. pose proof (ConsumeDecimalNumber_Ok _ [] Hd Hne I) as Hc. rewrite app_nil_r, Hv, (proj2 (Z.leb_le n _)) in Hc by lia. by rewrite Hc.
Qed.

Lemma consume_digits_range s : ∀ v n v' n' rest, 0 ≤ v < 2^64 → consume_digits v n s = Some (v', n', rest) → 0 ≤ v' < 2^64.
Proof.
  induction s as [|b s IH]; intros v n v' n' rest Hv; cbn [consume_digits]; [by intros [= <- _ _]|]. destruct (isdigit b); [|by intros [= <- _ _]].
  destruct (_ || _); [done|]. apply IH, u64_range.
Qed.

Lemma ConsumeDecimalNumber_range s v rest : ConsumeDecimalNumber s = Some (v, rest) → 0 ≤ v < 2^64.
Proof.
  unfold ConsumeDecimalNumber. destruct (consume_digits 0 0 s) as [[[v' n'] r']|] eqn:E; [|done]. cbn [mbind option_bind]. case_match; [|done]. intros [= <- <-]. by eapply consume_digits_range.
Qed.

Lemma parse_total name : ∃ r, ParseFileName name = Ok r ∧ match r with Some (m, _) => 0 ≤ m < 2^64 | None => True end.
Proof.
  unfold ParseFileName. case_bool_decide; [by eexists|]. case_bool_decide; [by eexists|]. destruct (_ || _); [by eexists|]. rewrite starts_with_Ok. cbn [mbind res_bind]. case_bool_decide as E.
  - unfold remove_prefix. rewrite c_assert_true by (apply (f_equal length) in E; rewrite length_take in E; lia). cbn [mbind res_bind mret res_ret]. eexists. split; [done|].
    destruct (ConsumeDecimalNumber _) as [[m rest]|] eqn:Ec; [|done]. cbn [mbind option_bind]. apply ConsumeDecimalNumber_range in Ec. by destruct (zlen rest =? 0).
  - eexists. split; [done|]. destruct (ConsumeDecimalNumber name) as [[m rest]|] eqn:Ec; [|done]. cbn [mbind option_bind]. apply ConsumeDecimalNumber_range in Ec. destruct (bool_decide _); [done|]. destruct (_ || _); [done|]. by destruct (bool_decide _).
Qed.

(** Names round trip: the name of every numbered file of a database, for any 64-bit number other than 0, is the directory, a
    slash and a name that is parsed to the number and the type of the file, also for numbers of more than six digits; the names without a number
    are parsed to their types. Parsing ends for any bytes at all, and the numbers it gives have 64 bits: a larger one
    is refused. *)
Theorem filename_roundtrip dbname n (Hn : 0 < n < 2^64) :
  Forall (λ p : (list byte → Z → res (list byte)) * FileType, ∃ name, p.1 dbname n = Ok (dbname ++ str "/" ++ name) ∧ ParseFileName name = Ok (Some (n, p.2)))
    [(LogFileName, kLogFile); (TableFileName, kTableFile); (SSTTableFileName, kTableFile); (DescriptorFileName, kDescriptorFile); (TempFileName, kTempFile)]
  ∧ Forall (λ p : (list byte → list byte) * FileType, ∃ name, p.1 dbname = dbname ++ str "/" ++ name ∧ ParseFileName name = Ok (Some (0, p.2)))
    [(CurrentFileName, kCurrentFile); (LockFileName, kDBLockFile); (InfoLogFileName, kInfoLogFile); (OldInfoLogFileName, kInfoLogFile)]
  ∧ ∀ name, ∃ r, ParseFileName name = Ok r ∧ match r with Some (m, _) => 0 ≤ m < 2^64 | None => True end.
Proof.
  split; [|split; [|exact parse_total]].
  - assert (0 ≤ n ≤ kMaxUint64) as Hr by (unfold kMaxUint64; lia). unfold LogFileName, TableFileName, SSTTableFileName, DescriptorFileName, TempFileName, MakeFileName.
    rewrite !Forall_cons. cbn [fst snd]. rewrite !c_assert_true by lia. cbn [mbind res_bind mret res_ret]. split_and!; [| | | | |done].
    + exists (six_digits n ++ str ".log"). by rewrite parse_number.
    + exists (six_digits n ++ str ".ldb"). by rewrite parse_number.
    + exists (six_digits n ++ str ".sst"). by rewrite parse_number.
    + exists (str "MANIFEST-" ++ six_digits n). by rewrite parse_manifest.
    + exists (six_digits n ++ str ".dbtmp"). by rewrite parse_number.
  - by repeat (constructor; [eexists; split; [reflexivity|by vm_compute]|]).
Qed.

(** A descriptor of seven digits. *)
Lemma filename_roundtrip_witness : ∃ name, DescriptorFileName (str "/tmp/db") 1234567 = Ok (str "/tmp/db" ++ str "/" ++ name) ∧ ParseFileName name = Ok (Some (1234567, kDescriptorFile)).
Proof.
  destruct (filename_roundtrip (str "/tmp/db") 1234567 ltac:(lia)) as (Hn & _). rewrite !Forall_cons in Hn. by destruct Hn as (_ & _ & _ & Hd & _).
Defined.

(** ** The file CURRENT *)

(** What the operations may do, with errors: a file is changed by the operations on its name only, and renaming is all or nothing. *)
Class FileEnvSpec (E W : Type) `{FileEnv E W} := {
  env_file : E → list byte → option (list byte);
  env_named : W → list byte;
  NewWritableFile_law fname env : ∃ s w env', env_NewWritableFile fname env = (s, w, env') ∧ (∀ m, m ≠ fname → env_file env' m = env_file env m)
    ∧ (ok s = true → env_named w = fname ∧ env_file env' fname = Some []);
  Append_law data w env : ∃ s env', env_Append data w env = (s, env') ∧ (∀ m, m ≠ env_named w → env_file env' m = env_file env m)
    ∧ (ok s = true → ∀ c, env_file env (env_named w) = Some c → env_file env' (env_named w) = Some (c ++ data));
  Sync_law w env : ∃ s env', env_Sync w env = (s, env') ∧ (∀ m, m ≠ env_named w → env_file env' m = env_file env m) ∧ (ok s = true → env_file env' (env_named w) = env_file env (env_named w));
  EnvClose_law w env : ∃ s env', env_Close w env = (s, env') ∧ (∀ m, m ≠ env_named w → env_file env' m = env_file env m) ∧ (ok s = true → env_file env' (env_named w) = env_file env (env_named w));
  delete_law w env : env_file (env_delete w env) = env_file env;
  DeleteFile_law fname env : ∃ s env', env_DeleteFile fname env = (s, env') ∧ ∀ m, m ≠ fname → env_file env' m = env_file env m;
  RenameFile_law src target env : src ≠ target → ∃ s env', env_RenameFile src target env = (s, env')
    ∧ (∀ m, m ≠ src → m ≠ target → env_file env' m = env_file env m) ∧ (if ok s then env_file env' target = env_file env src else env_file env' target = env_file env target) }.

Section current.
Context {E W : Type} `{HE : FileEnvSpec E W}.

Lemma DoWriteStringToFile_Ok data fname sync env :
  ∃ s env', DoWriteStringToFile data fname sync env = (s, env') ∧ (∀ m, m ≠ fname → env_file env' m = env_file env m) ∧ (ok s = true → env_file env' fname = Some data).
Proof using.
  unfold DoWriteStringToFile. destruct (NewWritableFile_law fname env) as (s & w & e1 & -> & Hf1 & H1). destruct (ok s) eqn:Es; cbn [negb]; [|exists s, e1; by rewrite Es].
  destruct (H1 eq_refl) as [Hw Hc1]. destruct (Append_law data w e1) as (s2 & e2 & -> & Hf2 & H2). rewrite Hw in *.
  assert (∃ s3 e3, (if ok s2 && sync then env_Sync w e2 else (s2, e2)) = (s3, e3) ∧ (∀ m, m ≠ fname → env_file e3 m = env_file e2 m) ∧ (ok s3 = true → ok s2 = true ∧ env_file e3 fname = env_file e2 fname)) as (s3 & e3 & -> & Hf3 & H3).
  { destruct (ok s2) eqn:E2; cbn [andb]; [|exists s2, e2; by rewrite E2]. destruct sync; [|exists s2, e2; by rewrite E2]. destruct (Sync_law w e2) as (s3 & e3 & -> & Hf & Hs). rewrite Hw in *. exists s3, e3. split; [done|]. split; [done|]. intros E3. by split; [|apply Hs]. }
  assert (∃ s4 e4, (if ok s3 then env_Close w e3 else (s3, e3)) = (s4, e4) ∧ (∀ m, m ≠ fname → env_file e4 m = env_file e3 m) ∧ (ok s4 = true → ok s3 = true ∧ env_file e4 fname = env_file e3 fname)) as (s4 & e4 & -> & Hf4 & H4).
  { destruct (ok s3) eqn:E3; [|exists s3, e3; by rewrite E3]. destruct (EnvClose_law w e3) as (s4 & e4 & -> & Hf & Hs). rewrite Hw in *. exists s4, e4. split; [done|]. split; [done|]. intros E4. by split; [|apply Hs]. }
  assert (∀ m, m ≠ fname → env_file (env_delete w e4) m = env_file env m) as Hframe by (intros m Hm; by rewrite delete_law, Hf4, Hf3, Hf2, Hf1).
  destruct (ok s4) eqn:E4.
  - exists s4, (env_delete w e4). split; [done|]. split; [done|]. intros _. destruct (H4 eq_refl) as [E3 Hc4]. destruct (H3 E3) as [E2 Hc3]. by rewrite delete_law, Hc4, Hc3, (H2 E2 [] Hc1).
  - destruct (DeleteFile_law fname (env_delete w e4)) as (s5 & e5 & -> & Hf5). exists s4, e5. split; [done|]. split; [|by rewrite E4]. intros m Hm. by rewrite Hf5, Hframe.
Qed.

Lemma temp_not_current dbname n tmp : TempFileName dbname n = Ok tmp → 0 < n → tmp ≠ CurrentFileName dbname.
Proof using.
  unfold TempFileName. intros Ht Hn. rewrite c_assert_true in Ht by lia. injection Ht as <-. unfold MakeFileName, CurrentFileName. intros Eq.
  change (str "/CURRENT") with (str "/" ++ str "CURRENT") in Eq. apply app_inv_head, app_inv_head in Eq. destruct (six_digits_Ok n) as (Hd & Hne & _); [lia|].
  destruct (six_digits n) as [|d ds]; [done|]. injection Eq as -> _. apply Forall_cons in Hd as [Hd _]. done.
Qed.

(** Claim C21. CURRENT changes at once or not at all: whatever operations of the environment fail, it names the new descriptor
    if the status is OK, with the newline that a reader asks for, and is what it was otherwise; and no other file but the temporary one
    is touched. *)
Theorem set_current_atomic dbname n env (Hn : 0 < n < 2^64) :
  ∃ s env' tmp name, SetCurrentFile dbname n env = Ok (s, env') ∧ TempFileName dbname n = Ok tmp ∧ DescriptorFileName dbname n = Ok (dbname ++ str "/" ++ name)
    ∧ ParseFileName name = Ok (Some (n, kDescriptorFile))
    ∧ env_file env' (CurrentFileName dbname) = (if ok s then Some (name ++ [NEWLINE]) else env_file env (CurrentFileName dbname))
    ∧ ∀ m, m ≠ tmp → m ≠ CurrentFileName dbname → env_file env' m = env_file env m.
Proof using.
  unfold SetCurrentFile. assert (DescriptorFileName dbname n = Ok (dbname ++ str "/" ++ str "MANIFEST-" ++ six_digits n)) as Ed by (unfold DescriptorFileName; by rewrite c_assert_true by lia).
  rewrite Ed. cbn [mbind res_bind]. rewrite starts_with_Ok, app_assoc, take_app_length, bool_decide_true by done. cbn [mbind res_bind c_assert]. unfold remove_prefix. rewrite c_assert_true by (rewrite !length_app; cbn; lia).
  cbn [mbind res_bind mret res_ret]. replace (Z.to_nat (zlen dbname + 1)) with (length (dbname ++ str "/")) by (rewrite length_app; cbn; lia). rewrite drop_app_length.
  assert (∃ tmp, TempFileName dbname n = Ok tmp) as [tmp Et] by (eexists; unfold TempFileName; by rewrite c_assert_true by lia). pose proof (temp_not_current dbname n tmp Et ltac:(lia)) as Hne. rewrite Et. cbn [mbind res_bind].
  set (name := str "MANIFEST-" ++ six_digits n) in *. destruct (DoWriteStringToFile_Ok (name ++ [NEWLINE]) tmp true env) as (s1 & e1 & E1 & Hf1 & Hc1). unfold WriteStringToFileSync. rewrite E1.
  assert (∃ s2 e2, (if ok s1 then env_RenameFile tmp (CurrentFileName dbname) e1 else (s1, e1)) = (s2, e2) ∧ (∀ m, m ≠ tmp → m ≠ CurrentFileName dbname → env_file e2 m = env_file env m)
    ∧ env_file e2 (CurrentFileName dbname) = (if ok s2 then Some (name ++ [NEWLINE]) else env_file env (CurrentFileName dbname))) as (s2 & e2 & -> & Hf2 & Hc2).
  { destruct (ok s1) eqn:Eo; [|exists s1, e1; rewrite Eo; split; [done|]; split; [by intros m Hm _; apply Hf1|by apply Hf1, not_eq_sym]].
    destruct (RenameFile_law tmp (CurrentFileName dbname) e1 Hne) as (s2 & e2 & -> & Hf & Hr). exists s2, e2. split; [done|]. split; [by intros m Hm Hm'; rewrite Hf, Hf1|].
    destruct (ok s2); rewrite Hr; [by apply Hc1|by apply Hf1, not_eq_sym]. }
  destruct (ok s2) eqn:Eo.
  - exists s2, e2, tmp, name. rewrite Eo. split; [done|]. split; [done|]. split; [by rewrite <-app_assoc|]. split; [apply parse_manifest; unfold kMaxUint64; lia|done].
  - destruct (DeleteFile_law tmp e2) as (s3 & e3 & E3 & Hf3). exists s2, e3, tmp, name. rewrite E3, Eo. split; [done|]. split; [done|]. split; [by rewrite <-app_assoc|]. split; [apply parse_manifest; unfold kMaxUint64; lia|].
    split; [by rewrite Hf3 by by apply not_eq_sym|]. intros m Hm Hm'. by rewrite Hf3, Hf2.
Qed.
End current.

(** Reading a whole file, in pieces. *)
Section reading.
Context {F : Type} `{SequentialFileSpec F}.

Lemma read_loop_Ok fuel : ∀ data f, (length (sf_rest f) < fuel)%nat → read_loop fuel data f = Ok (OK, data ++ sf_rest f).
Proof using.
  induction fuel as [|fuel IH]; intros data f Hf; [lia|]. cbn [read_loop]. destruct (Read_spec kBufferSize f) as (f' & -> & Hr). change (ok OK) with true. cbn [negb].
  destruct (Z.eqb_spec (zlen (take (Z.to_nat kBufferSize) (sf_rest f))) 0) as [E|Hne]; rewrite length_take in *.
  - unfold kBufferSize in E. destruct (sf_rest f); [by rewrite take_nil|cbn in E; lia].
  - unfold kBufferSize in *. rewrite IH by (rewrite Hr, length_drop; lia). by rewrite Hr, <-app_assoc, take_drop.
Qed.

Lemma ReadFileToString_Ok fuel f : (length (sf_rest f) < fuel)%nat → ReadFileToString fuel (OK, f) = Ok (OK, sf_rest f).
Proof using. intros Hf. by apply (read_loop_Ok fuel []). Qed.
End reading.

(** ** A disk in memory, on which renaming may fail *)

Record disk := MkDisk { disk_files : list byte → option (list byte); disk_renames : bool }.
Definition disk_set (fname : list byte) (c : option (list byte)) (d : disk) : disk := MkDisk (λ m, if bool_decide (m = fname) then c else disk_files d m) (disk_renames d).

#[export] Instance disk_env : FileEnv disk (list byte) := {|
  env_NewWritableFile fname d := (OK, fname, disk_set fname (Some []) d);
  env_Append data w d := (OK, disk_set w (Some (default [] (disk_files d w) ++ data)) d);
  env_Sync w d := (OK, d);
  env_Close w d := (OK, d);
  env_delete w d := d;
  env_DeleteFile fname d := (OK, disk_set fname None d);
  env_RenameFile src target d := if disk_renames d then (OK, disk_set src None (disk_set target (disk_files d src) d)) else (Some [x00], d) |}.

Lemma disk_set_eq m c d : disk_files (disk_set m c d) m = c.
Proof. cbn. by rewrite bool_decide_true. Qed.
Lemma disk_set_ne m m' c d : m' ≠ m → disk_files (disk_set m c d) m' = disk_files d m'.
Proof. intros Hm. cbn. by rewrite bool_decide_false. Qed.

#[export] Instance disk_env_spec : FileEnvSpec disk (list byte).
Proof.
  refine {| env_file := disk_files; env_named := λ w, w |}.
  - intros fname d. eexists _, _, _. split; [done|]. split; [intros m; apply disk_set_ne|]. intros _. split; [done|apply disk_set_eq].
  - intros data w d. eexists _, _. split; [done|]. split; [intros m; apply disk_set_ne|]. intros _ c Hc. rewrite disk_set_eq. by rewrite Hc.
  - intros w d. by eexists _, _.
  - intros w d. by eexists _, _.
  - done.
  - intros fname d. eexists _, _. split; [done|]. intros m; apply disk_set_ne.
  - intros src target d Hne. cbn [env_RenameFile disk_env]. destruct (disk_renames d); eexists _, _; (split; [done|]); [|by split].
    split; [intros m Hs Ht; by rewrite !disk_set_ne|]. change (ok OK) with true. cbv iota. rewrite disk_set_ne by by apply not_eq_sym. apply disk_set_eq.
Defined.

Lemma set_current_atomic_witness : Forall (λ renames, ∃ s d, SetCurrentFile (str "db") 5 (MkDisk (λ _, Some (str "old")) renames) = Ok (s, d)
  ∧ disk_files d (str "db/CURRENT") = (if ok s then Some (str "MANIFEST-000005" ++ [NEWLINE]) else Some (str "old")) ∧ ok s = renames) [true; false].
Proof.
  apply Forall_forall. intros renames _. destruct (set_current_atomic (str "db") 5 (MkDisk (λ _, Some (str "old")) renames) ltac:(lia)) as (s & d & tmp & name & Es & _ & Ed & _ & Hc & _).
  exists s, d. split; [done|]. injection Ed as <-. split; [exact Hc|]. destruct renames; vm_compute in Es; by injection Es as <- <-.
Defined.
