(* ===== verification/VersionEdit.v ===== *)
(** * Version edits: leveldb db/version_edit.h, db/version_edit.cc

    The changes between two versions of the set of files, and the records of the descriptor that hold them. *)
From Stdlib Require Import Strings.String.
From stdpp Require Import sorting.
From S2P Require Import Prelude Buffers CLib Order Coding Comparator Status DbFormat.

#[local] Open Scope Z_scope.
#[local] Open Scope list_scope.

Definition kNumLevels : Z := 7.

(** Keys are the [rep_] of an [InternalKey]. *)
Record FileMetaData := MkFile {
  refs : Z; allowed_seeks : Z; number : Z; file_size : Z; smallest : list byte; largest : list byte }.
Definition new_FileMetaData (number file_size : Z) (smallest largest : list byte) : FileMetaData :=
  MkFile 0 (Z.shiftl 1 30) number file_size smallest largest.

(** [std::set<std::pair<int, uint64_t>>]: without repetitions, in order. *)
Definition pair_lt (a b : Z * Z) : bool := (a.1 <? b.1) || ((a.1 =? b.1) && (a.2 <? b.2)).
Fixpoint set_insert (x : Z * Z) (l : list (Z * Z)) : list (Z * Z) :=
  match l with
  | [] => [x]
  | y :: l' => if pair_lt x y then x :: l else if pair_lt y x then y :: set_insert x l' else l
  end.

Record VersionEdit := MkEdit {
  comparator_ : list byte; log_number_ : Z; prev_log_number_ : Z; next_file_number_ : Z; last_sequence_ : Z;
  has_comparator_ : bool; has_log_number_ : bool; has_prev_log_number_ : bool; has_next_file_number_ : bool; has_last_sequence_ : bool;
  compact_pointers_ : list (Z * list byte); deleted_files_ : list (Z * Z); new_files_ : list (Z * FileMetaData) }.

(** [compact_pointers_] is left as it is. *)
Definition Clear (e : VersionEdit) : VersionEdit :=
  MkEdit [] 0 0 0 0 false false false false false (compact_pointers_ e) [] [].
Definition new_VersionEdit : VersionEdit := Clear (MkEdit [] 0 0 0 0 false false false false false [] [] []).

Definition SetComparatorName (name : list byte) (e : VersionEdit) : VersionEdit :=
  MkEdit name (log_number_ e) (prev_log_number_ e) (next_file_number_ e) (last_sequence_ e)
    true (has_log_number_ e) (has_prev_log_number_ e) (has_next_file_number_ e) (has_last_sequence_ e)
    (compact_pointers_ e) (deleted_files_ e) (new_files_ e).
Definition SetLogNumber (num : Z) (e : VersionEdit) : VersionEdit :=
  MkEdit (comparator_ e) num (prev_log_number_ e) (next_file_number_ e) (last_sequence_ e)
    (has_comparator_ e) true (has_prev_log_number_ e) (has_next_file_number_ e) (has_last_sequence_ e)
    (compact_pointers_ e) (deleted_files_ e) (new_files_ e).
Definition SetPrevLogNumber (num : Z) (e : VersionEdit) : VersionEdit :=
  MkEdit (comparator_ e) (log_number_ e) num (next_file_number_ e) (last_sequence_ e)
    (has_comparator_ e) (has_log_number_ e) true (has_next_file_number_ e) (has_last_sequence_ e)
    (compact_pointers_ e) (deleted_files_ e) (new_files_ e).
Definition SetNextFile (num : Z) (e : VersionEdit) : VersionEdit :=
  MkEdit (comparator_ e) (log_number_ e) (prev_log_number_ e) num (last_sequence_ e)
    (has_comparator_ e) (has_log_number_ e) (has_prev_log_number_ e) true (has_last_sequence_ e)
    (compact_pointers_ e) (deleted_files_ e) (new_files_ e).
Definition SetLastSequence (seq : Z) (e : VersionEdit) : VersionEdit :=
  MkEdit (comparator_ e) (log_number_ e) (prev_log_number_ e) (next_file_number_ e) seq
    (has_comparator_ e) (has_log_number_ e) (has_prev_log_number_ e) (has_next_file_number_ e) true
    (compact_pointers_ e) (deleted_files_ e) (new_files_ e).
Definition with_lists (ps : list (Z * list byte)) (ds : list (Z * Z)) (fs : list (Z * FileMetaData)) (e : VersionEdit) : VersionEdit :=
  MkEdit (comparator_ e) (log_number_ e) (prev_log_number_ e) (next_file_number_ e) (last_sequence_ e)
    (has_comparator_ e) (has_log_number_ e) (has_prev_log_number_ e) (has_next_file_number_ e) (has_last_sequence_ e) ps ds fs.
Definition SetCompactPointer (level : Z) (key : list byte) (e : VersionEdit) : VersionEdit :=
  with_lists (compact_pointers_ e ++ [(level, key)]) (deleted_files_ e) (new_files_ e) e.
Definition AddFile (level file file_size : Z) (smallest largest : list byte) (e : VersionEdit) : VersionEdit :=
  with_lists (compact_pointers_ e) (deleted_files_ e) (new_files_ e ++ [(level, new_FileMetaData file file_size smallest largest)]) e.
Definition DeleteFile (level file : Z) (e : VersionEdit) : VersionEdit :=
  with_lists (compact_pointers_ e) (set_insert (level, file) (deleted_files_ e)) (new_files_ e) e.

(** ** Encoding *)

Definition kComparator : Z := 1.
Definition kLogNumber : Z := 2.
Definition kNextFileNumber : Z := 3.
Definition kLastSequence : Z := 4.
Definition kCompactPointer : Z := 5.
Definition kDeletedFile : Z := 6.
Definition kNewFile : Z := 7.
Definition kPrevLogNumber : Z := 9.

(** A tag and a number, if there is one. *)
Definition put_number (has : bool) (tag num : Z) (dst : list byte) : list byte :=
  if has then PutVarint64 (PutVarint32 dst tag) num else dst.

Fixpoint put_pointers (ps : list (Z * list byte)) (dst : list byte) : res (list byte) :=
  match ps with
  | [] => mret dst
  | (level, key) :: ps =>
      key ← InternalKey_Encode key;
      put_pointers ps (PutLengthPrefixedSlice (PutVarint32 (PutVarint32 dst kCompactPointer) (u32 level)) key)
  end.

Fixpoint put_deleted (ds : list (Z * Z)) (dst : list byte) : list byte :=
  match ds with
  | [] => dst
  | (level, file) :: ds => put_deleted ds (PutVarint64 (PutVarint32 (PutVarint32 dst kDeletedFile) (u32 level)) file)
  end.

Fixpoint put_files (fs : list (Z * FileMetaData)) (dst : list byte) : res (list byte) :=
  match fs with
  | [] => mret dst
  | (level, f) :: fs =>
      let dst := PutVarint32 (PutVarint32 dst kNewFile) (u32 level) in
      let dst := PutVarint64 (PutVarint64 dst (number f)) (file_size f) in
      small ← InternalKey_Encode (smallest f);
      let dst := PutLengthPrefixedSlice dst small in
      large ← InternalKey_Encode (largest f);
      put_files fs (PutLengthPrefixedSlice dst large)
  end.

Definition EncodeTo (e : VersionEdit) (dst : list byte) : res (list byte) :=
  let dst := if has_comparator_ e then PutLengthPrefixedSlice (PutVarint32 dst kComparator) (comparator_ e) else dst in
  let dst := put_number (has_log_number_ e) kLogNumber (log_number_ e) dst in
  let dst := put_number (has_prev_log_number_ e) kPrevLogNumber (prev_log_number_ e) dst in
  let dst := put_number (has_next_file_number_ e) kNextFileNumber (next_file_number_ e) dst in
  let dst := put_number (has_last_sequence_ e) kLastSequence (last_sequence_ e) dst in
  dst ← put_pointers (compact_pointers_ e) dst;
  put_files (new_files_ e) (put_deleted (deleted_files_ e) dst).

(** ** Decoding *)

Definition GetInternalKey (input : list byte) : option (list byte * list byte) := GetLengthPrefixedSlice input.

Definition GetLevel (input : list byte) : option (Z * list byte) :=
  match GetVarint32 input with
  | Some (v, input) => if v <? kNumLevels then Some (v, input) else None
  | None => None
  end.

(** The fields of a new file. *)
Definition GetFile (input : list byte) : option (Z * FileMetaData * list byte) :=
  '(level, input) ← GetLevel input;
  '(number, input) ← GetVarint64 input;
  '(file_size, input) ← GetVarint64 input;
  '(smallest, input) ← GetInternalKey input;
  '(largest, input) ← GetInternalKey input;
  Some (level, new_FileMetaData number file_size smallest largest, input).

(** What follows a tag: the edit and what is left, or a message. *)
Definition decode_number (set : Z → VersionEdit → VersionEdit) (msg : string) (input : list byte) (e : VersionEdit) : VersionEdit * list byte + list byte :=
  match GetVarint64 input with Some (n, input) => inl (set n e, input) | None => inr (str msg) end.

Definition decode_field (tag : Z) (input : list byte) (e : VersionEdit) : VersionEdit * list byte + list byte :=
  if tag =? kComparator then
    match GetLengthPrefixedSlice input with
    | Some (s, input) => inl (SetComparatorName s e, input)
    | None => inr (str "comparator name")
    end
  else if tag =? kLogNumber then decode_number SetLogNumber "log number" input e
  else if tag =? kPrevLogNumber then decode_number SetPrevLogNumber "previous log number" input e
  else if tag =? kNextFileNumber then decode_number SetNextFile "next file number" input e
  else if tag =? kLastSequence then decode_number SetLastSequence "last sequence number" input e
  else if tag =? kCompactPointer then
    match '(level, input) ← GetLevel input; '(key, input) ← GetInternalKey input; Some (level, key, input) with
    | Some (level, key, input) => inl (SetCompactPointer level key e, input)
    | None => inr (str "compaction pointer")
    end
  else if tag =? kDeletedFile then
    match '(level, input) ← GetLevel input; '(file, input) ← GetVarint64 input; Some (level, file, input) with
    | Some (level, file, input) => inl (DeleteFile level file e, input)
    | None => inr (str "deleted file")
    end
  else if tag =? kNewFile then
    match GetFile input with
    | Some (level, f, input) => inl (with_lists (compact_pointers_ e) (deleted_files_ e) (new_files_ e ++ [(level, f)]) e, input)
    | None => inr (str "new-file entry")
    end
  else inr (str "unknown tag").

(** The edit, and the message if there is one. *)
Fixpoint decode_loop (fuel : nat) (input : list byte) (e : VersionEdit) : res (VersionEdit * option (list byte)) :=
  match fuel with
  | O => Err Diverge
  | S fuel =>
      match GetVarint32 input with
      | Some (tag, input) =>
          match decode_field tag input e with
          | inl (e, input) => decode_loop fuel input e
          | inr msg => mret (e, Some msg)
          end
      | None => mret (e, match input with [] => None | _ => Some (str "invalid tag") end)
      end
  end.

Definition DecodeFrom (src : list byte) (e : VersionEdit) : res (Status * VersionEdit) :=
  '(e, msg) ← decode_loop (S (length src)) src (Clear e);
  match msg with
  | Some msg => s ← Corruption (str "VersionEdit") msg; mret (s, e)
  | None => mret (OK, e)
  end.

(** ** What an edit says, field by field *)

Inductive field :=
  | FComparator (name : list byte) | FLogNumber (n : Z) | FPrevLogNumber (n : Z) | FNextFile (n : Z) | FLastSequence (n : Z)
  | FPointer (level : Z) (key : list byte) | FDeleted (level file : Z) | FFile (level : Z) (f : FileMetaData).

Definition set_field (f : field) : VersionEdit → VersionEdit :=
  match f with
  | FComparator name => SetComparatorName name
  | FLogNumber n => SetLogNumber n
  | FPrevLogNumber n => SetPrevLogNumber n
  | FNextFile n => SetNextFile n
  | FLastSequence n => SetLastSequence n
  | FPointer level key => SetCompactPointer level key
  | FDeleted level file => DeleteFile level file
  | FFile level f => AddFile level (number f) (file_size f) (smallest f) (largest f)
  end.

Definition prefixed (s : list byte) : list byte := EncodeVarint32 (zlen s) ++ s.
(** The tag, and what follows it. *)
Definition field_tag (f : field) : Z :=
  match f with
  | FComparator _ => kComparator | FLogNumber _ => kLogNumber | FPrevLogNumber _ => kPrevLogNumber | FNextFile _ => kNextFileNumber
  | FLastSequence _ => kLastSequence | FPointer _ _ => kCompactPointer | FDeleted _ _ => kDeletedFile | FFile _ _ => kNewFile
  end.
Definition field_body (f : field) : list byte :=
  match f with
  | FComparator name => prefixed name
  | FLogNumber n | FPrevLogNumber n | FNextFile n | FLastSequence n => EncodeVarint64 n
  | FPointer level key => EncodeVarint32 level ++ prefixed key
  | FDeleted level file => EncodeVarint32 level ++ EncodeVarint64 file
  | FFile level f => EncodeVarint32 level ++ EncodeVarint64 (number f) ++ EncodeVarint64 (file_size f) ++ prefixed (smallest f) ++ prefixed (largest f)
  end.
Definition field_bytes (f : field) : list byte := EncodeVarint32 (field_tag f) ++ field_body f.

Definition scalars (e : VersionEdit) : list field :=
  (if has_comparator_ e then [FComparator (comparator_ e)] else [])
  ++ (if has_log_number_ e then [FLogNumber (log_number_ e)] else [])
  ++ (if has_prev_log_number_ e then [FPrevLogNumber (prev_log_number_ e)] else [])
  ++ (if has_next_file_number_ e then [FNextFile (next_file_number_ e)] else [])
  ++ (if has_last_sequence_ e then [FLastSequence (last_sequence_ e)] else []).
Definition fields (e : VersionEdit) : list field :=
  scalars e ++ ((λ p, FPointer p.1 p.2) <$> compact_pointers_ e) ++ ((λ d, FDeleted d.1 d.2) <$> deleted_files_ e) ++ ((λ f, FFile f.1 f.2) <$> new_files_ e).

(** Levels that exist, 64-bit numbers, keys that are not empty. *)
Definition level_ok (level : Z) : Prop := 0 ≤ level < kNumLevels.
Definition slice_ok (s : list byte) : Prop := zlen s < 2^32.
Definition key_ok (k : list byte) : Prop := k ≠ [] ∧ slice_ok k.
Definition number_ok (n : Z) : Prop := 0 ≤ n < 2^64.
Definition file_ok (f : FileMetaData) : Prop :=
  refs f = 0 ∧ allowed_seeks f = Z.shiftl 1 30 ∧ number_ok (number f) ∧ number_ok (file_size f) ∧ key_ok (smallest f) ∧ key_ok (largest f).
Definition field_ok (f : field) : Prop :=
  match f with
  | FComparator name => slice_ok name
  | FLogNumber n | FPrevLogNumber n | FNextFile n | FLastSequence n => number_ok n
  | FPointer level key => level_ok level ∧ key_ok key
  | FDeleted level file => level_ok level ∧ number_ok file
  | FFile level f => level_ok level ∧ file_ok f
  end.

Lemma GetPrefixed s rest : slice_ok s → GetLengthPrefixedSlice (prefixed s ++ rest) = Some (s, rest).
Proof. intros Hs. unfold prefixed. rewrite <-app_assoc. by apply (GetLengthPrefixedSlice_Ok [] s rest Hs). Qed.

Lemma GetLevel_Ok level rest : level_ok level → GetLevel (EncodeVarint32 level ++ rest) = Some (level, rest).
Proof.
  unfold level_ok, kNumLevels. intros Hl. unfold GetLevel, GetVarint32. rewrite GetVarint32Ptr_Ok by lia. unfold kNumLevels. by rewrite (proj2 (Z.ltb_lt level 7)) by lia.
Qed.

Lemma GetNumber n rest : number_ok n → GetVarint64 (EncodeVarint64 n ++ rest) = Some (n, rest).
Proof. apply GetVarint64Ptr_Ok. Qed.

#[local] Ltac parse := repeat first
  [rewrite <-!app_assoc | rewrite GetPrefixed by done | rewrite GetLevel_Ok by done | rewrite GetNumber by done | progress cbn [mbind option_bind]].

Lemma file_new f : file_ok f → new_FileMetaData (number f) (file_size f) (smallest f) (largest f) = f.
Proof. intros (H1 & H2 & _). destruct f. cbn in *. by subst. Qed.

Lemma GetFile_Ok level f rest : level_ok level → file_ok f → GetFile (field_body (FFile level f) ++ rest) = Some (level, f, rest).
Proof.
  intros Hl Hf. pose proof Hf as (_ & _ & H3 & H4 & [_ H5] & [_ H6]). unfold GetFile, GetInternalKey. cbn [field_body]. parse. by rewrite file_new.
Qed.

Lemma decode_field_Ok f rest e : field_ok f → decode_field (field_tag f) (field_body f ++ rest) e = inl (set_field f e, rest).
Proof.
  intros Hf. destruct f as [name|n|n|n|n|level key|level file|level f]; cbn [field_tag field_body set_field field_ok] in *;
    unfold decode_field, decode_number, GetInternalKey; cbn [Z.eqb Pos.eqb kComparator kLogNumber kPrevLogNumber kNextFileNumber kLastSequence kCompactPointer kDeletedFile kNewFile].
  - by parse.
  - by parse.
  - by parse.
  - by parse.
  - by parse.
  - destruct Hf as [Hl [_ Hk]]. by parse.
  - destruct Hf as [Hl Hn]. by parse.
  - destruct Hf as [Hl Hf]. change (EncodeVarint32 level ++ _) with (field_body (FFile level f)). rewrite GetFile_Ok by done.
    unfold AddFile. by rewrite (file_new f).
Qed.

Lemma field_tag_range f : 0 ≤ field_tag f < 2^32.
Proof. by destruct f. Qed.

Lemma field_bytes_nonempty f : (0 < length (field_bytes f))%nat.
Proof. unfold field_bytes. rewrite length_app. assert (0 < length (EncodeVarint32 (field_tag f)))%nat by (destruct f; vm_compute; lia). lia. Qed.

Lemma fields_length fs : (length fs ≤ length (concat (field_bytes <$> fs)))%nat.
Proof. induction fs as [|f fs IH]; [done|]. cbn [fmap list_fmap concat length] in *. rewrite length_app. pose proof (field_bytes_nonempty f). lia. Qed.

Lemma decode_loop_Ok fs : ∀ fuel e, Forall field_ok fs → (length fs < fuel)%nat →
  decode_loop fuel (concat (field_bytes <$> fs)) e = Ok (foldl (flip set_field) e fs, None).
Proof.
  induction fs as [|f fs IH]; intros fuel e Hfs Hf; (destruct fuel as [|fuel]; [cbn in Hf; lia|]); [done|]. apply Forall_cons in Hfs as [Hf1 Hfs].
  cbn [fmap list_fmap concat decode_loop foldl]. unfold field_bytes at 1. rewrite <-app_assoc. unfold GetVarint32.
  rewrite GetVarint32Ptr_Ok by apply field_tag_range. rewrite decode_field_Ok by done. apply IH; [done|cbn in Hf; lia].
Qed.

(** ** Encoding writes the fields *)

Definition edit_ok (e : VersionEdit) : Prop :=
  Forall field_ok (fields e)
  ∧ (has_comparator_ e = false → comparator_ e = []) ∧ (has_log_number_ e = false → log_number_ e = 0)
  ∧ (has_prev_log_number_ e = false → prev_log_number_ e = 0) ∧ (has_next_file_number_ e = false → next_file_number_ e = 0)
  ∧ (has_last_sequence_ e = false → last_sequence_ e = 0) ∧ StronglySorted (λ a b, pair_lt a b = true) (deleted_files_ e).

Lemma put_prefixed dst s : slice_ok s → PutLengthPrefixedSlice dst s = dst ++ prefixed s.
Proof. intros Hs. apply (GetLengthPrefixedSlice_Ok dst s [] Hs). Qed.

Lemma key_encode k : key_ok k → InternalKey_Encode k = Ok k.
Proof. intros [Hk _]. unfold InternalKey_Encode. destruct k; done. Qed.

Lemma u32_level level : level_ok level → u32 level = level.
Proof. unfold level_ok, kNumLevels. intros. apply u32_small. lia. Qed.

Lemma put_pointers_Ok ps : ∀ dst, Forall field_ok ((λ p, FPointer p.1 p.2) <$> ps) →
  put_pointers ps dst = Ok (dst ++ concat (field_bytes <$> ((λ p, FPointer p.1 p.2) <$> ps))).
Proof.
  induction ps as [|[level key] ps IH]; intros dst Hps; cbn [put_pointers fmap list_fmap concat]; [by rewrite app_nil_r|].
  rewrite fmap_cons in Hps. apply Forall_cons in Hps as [[Hl Hk] Hps]. rewrite key_encode by done. cbn [mbind res_bind]. rewrite IH by done. f_equal.
  rewrite put_prefixed by apply Hk. unfold PutVarint32. rewrite u32_level by done. unfold field_bytes. cbn [field_tag field_body fst snd]. by rewrite <-!app_assoc.
Qed.

Lemma put_deleted_Ok ds : ∀ dst, Forall field_ok ((λ d, FDeleted d.1 d.2) <$> ds) →
  put_deleted ds dst = dst ++ concat (field_bytes <$> ((λ d, FDeleted d.1 d.2) <$> ds)).
Proof.
  induction ds as [|[level file] ds IH]; intros dst Hds; cbn [put_deleted fmap list_fmap concat]; [by rewrite app_nil_r|].
  rewrite fmap_cons in Hds. apply Forall_cons in Hds as [[Hl Hk] Hds]. rewrite IH by done.
  unfold PutVarint64, PutVarint32. rewrite u32_level by done. unfold field_bytes. cbn [field_tag field_body fst snd]. by rewrite <-!app_assoc.
Qed.

Lemma put_files_Ok fs : ∀ dst, Forall field_ok ((λ f, FFile f.1 f.2) <$> fs) →
  put_files fs dst = Ok (dst ++ concat (field_bytes <$> ((λ f, FFile f.1 f.2) <$> fs))).
Proof.
  induction fs as [|[level f] fs IH]; intros dst Hfs; cbn [put_files fmap list_fmap concat]; [by rewrite app_nil_r|].
  rewrite fmap_cons in Hfs. apply Forall_cons in Hfs as [[Hl (_ & _ & _ & _ & Hs & Hg)] Hfs]. cbn [fst snd] in *. rewrite (key_encode (smallest f)), (key_encode (largest f)) by done. cbn [mbind res_bind].
  rewrite IH by done. f_equal. rewrite !put_prefixed by (apply Hs || apply Hg). unfold PutVarint32, PutVarint64. rewrite u32_level by done.
  unfold field_bytes. cbn [field_tag field_body]. by rewrite <-!app_assoc.
Qed.

Lemma put_number_Ok has tag num mk dst : field_bytes (mk num) = EncodeVarint32 tag ++ EncodeVarint64 num →
  put_number has tag num dst = dst ++ concat (field_bytes <$> (if has then [mk num] else [])).
Proof.
  intros Hf. unfold put_number, PutVarint64, PutVarint32. destruct has; cbn [fmap list_fmap concat]; rewrite ?app_nil_r; [|done]. by rewrite Hf, <-app_assoc.
Qed.

Lemma EncodeTo_Ok e dst : Forall field_ok (fields e) → EncodeTo e dst = Ok (dst ++ concat (field_bytes <$> fields e)).
Proof.
  intros Hf. unfold fields, scalars in *. rewrite !Forall_app in Hf. destruct Hf as ((Hc & _) & Hp & Hd & Hn). unfold EncodeTo. cbv zeta.
  rewrite (put_number_Ok _ kLogNumber _ FLogNumber), (put_number_Ok _ kPrevLogNumber _ FPrevLogNumber), (put_number_Ok _ kNextFileNumber _ FNextFile), (put_number_Ok _ kLastSequence _ FLastSequence) by done.
  rewrite put_pointers_Ok by done. cbn [mbind res_bind]. rewrite put_deleted_Ok, put_files_Ok by done. f_equal. rewrite !fmap_app, !concat_app, <-!app_assoc.
  destruct (has_comparator_ e); cbn [fmap list_fmap concat app]; [|done]. apply Forall_cons in Hc as [Hc _]. rewrite put_prefixed by done. unfold PutVarint32, field_bytes at 2.
  cbn [field_tag field_body]. by rewrite app_nil_r, <-!app_assoc.
Qed.

(** ** Decoding rebuilds the edit *)

Lemma set_insert_last x l : Forall (λ y, pair_lt y x = true) l → set_insert x l = l ++ [x].
Proof.
  induction 1 as [|y l Hy _ IH]; [done|]. cbn [set_insert app]. rewrite Hy. assert (pair_lt x y = false) as -> by (unfold pair_lt in *; lia). by rewrite IH.
Qed.

#[local] Abbreviation set_fields e fs := (foldl (flip set_field) e fs).

Lemma set_pointers ps : ∀ e, set_fields e ((λ p, FPointer p.1 p.2) <$> ps) = with_lists (compact_pointers_ e ++ ps) (deleted_files_ e) (new_files_ e) e.
Proof.
  induction ps as [|[level key] ps IH]; intros e; cbn [fmap list_fmap foldl]; [rewrite app_nil_r; by destruct e|]. rewrite IH. cbn. by rewrite <-app_assoc.
Qed.

Lemma set_deleted ds : ∀ e, StronglySorted (λ a b, pair_lt a b = true) (deleted_files_ e ++ ds) →
  set_fields e ((λ d, FDeleted d.1 d.2) <$> ds) = with_lists (compact_pointers_ e) (deleted_files_ e ++ ds) (new_files_ e) e.
Proof.
  induction ds as [|[level file] ds IH]; intros e Hs; cbn [fmap list_fmap foldl fst snd]; [rewrite app_nil_r; by destruct e|].
  assert (deleted_files_ (DeleteFile level file e) = deleted_files_ e ++ [(level, file)]) as E.
  { cbn. apply set_insert_last, Forall_forall. intros y Hy. apply (StronglySorted_app_1_elem_of (λ a b, pair_lt a b = true) (deleted_files_ e) ((level, file) :: ds)); [done|done|by left]. }
  change (flip set_field e (FDeleted level file)) with (DeleteFile level file e). rewrite IH; rewrite E, <-app_assoc; done.
Qed.

Lemma set_files fs : ∀ e, Forall (λ f, file_ok f.2) fs → set_fields e ((λ f, FFile f.1 f.2) <$> fs) = with_lists (compact_pointers_ e) (deleted_files_ e) (new_files_ e ++ fs) e.
Proof.
  induction fs as [|[level f] fs IH]; intros e Hfs; cbn [fmap list_fmap foldl]; [rewrite app_nil_r; by destruct e|]. apply Forall_cons in Hfs as [Hf Hfs].
  rewrite IH by done. cbn. by rewrite file_new, <-app_assoc.
Qed.

(** Fields that are not present have their default values. *)
Lemma set_scalars e e0 : edit_ok e → set_fields (Clear e0) (scalars e) = with_lists (compact_pointers_ e0) [] [] e.
Proof.
  intros (_ & Hc & Hl & Hp & Hn & Hs & _).
  destruct e as [? ? ? ? ? [] [] [] [] [] ? ? ?]; cbn in *; rewrite ?(Hc eq_refl), ?(Hl eq_refl), ?(Hp eq_refl), ?(Hn eq_refl), ?(Hs eq_refl); done.
Qed.

Lemma set_fields_Ok e e0 : edit_ok e → set_fields (Clear e0) (fields e) = with_lists (compact_pointers_ e0 ++ compact_pointers_ e) (deleted_files_ e) (new_files_ e) e.
Proof.
  intros He. pose proof He as (Hf & _ & _ & _ & _ & _ & Hsort). unfold fields in *. rewrite !Forall_app in Hf. destruct Hf as (_ & _ & _ & Hfiles).
  rewrite !foldl_app, set_scalars, set_pointers, set_deleted by done. rewrite set_files; [done|].
  rewrite Forall_fmap in Hfiles. eapply Forall_impl; [exact Hfiles|]. by intros [level f] [_ ?].
Qed.

(** Claim C14. Version edits round trip: what [EncodeTo] writes for an edit with levels that exist, 64-bit numbers and keys that are not
    empty is decoded, with status OK, to the same edit, except that the compaction pointers which the edit that decodes had before stay in
    front: [Clear] does not clear them. *)
Theorem version_edit_roundtrip e (He : edit_ok e) :
  ∃ record, EncodeTo e [] = Ok record
    ∧ ∀ e0, DecodeFrom record e0 = Ok (OK, with_lists (compact_pointers_ e0 ++ compact_pointers_ e) (deleted_files_ e) (new_files_ e) e).
Proof.
  pose proof He as (Hf & _). eexists. split; [by apply EncodeTo_Ok|]. intros e0. unfold DecodeFrom. cbn [app].
  pose proof (fields_length (fields e)).
  rewrite decode_loop_Ok by (done || lia). cbn [mbind res_bind]. by rewrite set_fields_Ok.
Qed.

(** ** Decoding any bytes *)

Lemma lor_below w a b : 0 ≤ w → 0 ≤ a < 2^w → 0 ≤ b < 2^w → 0 ≤ Z.lor a b < 2^w.
Proof.
  intros Hw Ha Hb. split; [apply Z.lor_nonneg; lia|]. destruct (decide (Z.lor a b = 0)) as [->|Hn]; [lia|].
  apply Z.log2_lt_pow2; [pose proof (Z.lor_nonneg a b); lia|]. rewrite Z.log2_lor by lia.
  assert (∀ x, 0 ≤ x < 2^w → x ≠ 0 → Z.log2 x < w) as Hlog by (intros x Hx Hx0; apply Z.log2_lt_pow2; lia).
  destruct (decide (a = 0)) as [->|], (decide (b = 0)) as [->|].
  - done.
  - rewrite Z.max_r by (rewrite Z.log2_nonpos by done; apply Z.log2_nonneg). by apply Hlog.
  - rewrite Z.max_l by (rewrite (Z.log2_nonpos 0) by done; apply Z.log2_nonneg). by apply Hlog.
  - apply Z.max_lub_lt; by apply Hlog.
Qed.

Lemma get_varint_below wrap w n : 0 ≤ w → (∀ x, 0 ≤ wrap x < 2^w) → ∀ shift result p v rest, 0 ≤ result < 2^w →
  get_varint_loop wrap n shift result p = Some (v, rest) → 0 ≤ v < 2^w.
Proof.
  intros Hw Hwrap. induction n as [|n IH]; intros shift result p v rest Hr; [done|]. cbn [get_varint_loop]. destruct p as [|b p]; [done|].
  case_match.
  - apply IH. by apply lor_below.
  - intros [= <- <-]. by apply lor_below.
Qed.

Lemma GetVarint64_below p v rest : GetVarint64 p = Some (v, rest) → number_ok v ∧ (length rest < length p)%nat.
Proof.
  intros H. split; [|by apply get_varint_loop_shorter in H]. unfold number_ok. apply (get_varint_below u64 64 10) with 0 0 p rest; try done.
  intros x. apply Z.mod_pos_bound. lia.
Qed.

Lemma GetSlice_below p s rest : GetLengthPrefixedSlice p = Some (s, rest) → slice_ok s ∧ (length rest < length p)%nat.
Proof.
  unfold GetLengthPrefixedSlice, GetVarint32. rewrite GetVarint32Ptr_fallback. destruct (GetVarint32PtrFallback p) as [[n q]|] eqn:E; [|done].
  assert (0 ≤ n < 2^32) as Hn.
  { apply (get_varint_below u32 32 5) with 0 0 p q; try done. intros x. apply Z.mod_pos_bound. lia. }
  apply get_varint_loop_shorter in E. case_match; [|done]. intros [= <- <-]. unfold slice_ok. rewrite length_take, length_drop. split; lia.
Qed.

Lemma GetLevel_below p l rest : GetLevel p = Some (l, rest) → level_ok l ∧ (length rest < length p)%nat.
Proof.
  unfold GetLevel, GetVarint32. rewrite GetVarint32Ptr_fallback. destruct (GetVarint32PtrFallback p) as [[n q]|] eqn:E; [|done].
  assert (0 ≤ n < 2^32) as Hn.
  { apply (get_varint_below u32 32 5) with 0 0 p q; try done. intros x. apply Z.mod_pos_bound. lia. }
  apply get_varint_loop_shorter in E. destruct (Z.ltb_spec n kNumLevels); [|done]. intros [= <- <-]. split; [split; lia|done].
Qed.

(** The types of the fields of an edit; decoding does not ask that keys are not empty. *)
Definition file_typed (f : FileMetaData) : Prop := number_ok (number f) ∧ number_ok (file_size f) ∧ slice_ok (smallest f) ∧ slice_ok (largest f).
Record edit_typed (e : VersionEdit) : Prop := {
  typed_comparator : slice_ok (comparator_ e);
  typed_numbers : Forall number_ok [log_number_ e; prev_log_number_ e; next_file_number_ e; last_sequence_ e];
  typed_pointers : Forall (λ p, level_ok p.1 ∧ slice_ok p.2) (compact_pointers_ e);
  typed_deleted : Forall (λ d, level_ok d.1 ∧ number_ok d.2) (deleted_files_ e) ∧ StronglySorted (λ a b, pair_lt a b = true) (deleted_files_ e);
  typed_files : Forall (λ f, level_ok f.1 ∧ file_typed f.2) (new_files_ e) }.

Lemma set_insert_elem x l y : y ∈ set_insert x l → y = x ∨ y ∈ l.
Proof.
  induction l as [|z l IH]; cbn [set_insert]; [intros ->%list_elem_of_singleton; by left|]. case_match.
  - intros [->|Hy]%elem_of_cons; [by left|by right].
  - case_match; [|by right]. intros [->|Hy]%elem_of_cons; [right; by left|]. destruct (IH Hy); [by left|right; by right].
Qed.

Lemma pair_lt_trans a b d : pair_lt a b = true → pair_lt b d = true → pair_lt a d = true.
Proof. unfold pair_lt. lia. Qed.

Lemma set_insert_sorted x l : StronglySorted (λ a b, pair_lt a b = true) l → StronglySorted (λ a b, pair_lt a b = true) (set_insert x l).
Proof.
  induction 1 as [|y l Hl IH Hy]; cbn [set_insert]; [repeat constructor|]. destruct (pair_lt x y) eqn:E1; [|destruct (pair_lt y x) eqn:E2; [|by constructor]].
  - constructor; [by constructor|]. constructor; [done|]. eapply Forall_impl; [exact Hy|]. intros z Hz. by apply (pair_lt_trans x y).
  - constructor; [done|]. apply Forall_forall. intros z [->|Hz]%set_insert_elem; [done|]. rewrite Forall_forall in Hy. by apply Hy.
Qed.

Lemma decode_number_typed set msg p e e' rest : (∀ n, number_ok n → edit_typed (set n e)) → decode_number set msg p e = inl (e', rest) → edit_typed e' ∧ (length rest < length p)%nat.
Proof.
  intros Hset. unfold decode_number. destruct (GetVarint64 p) as [[n q]|] eqn:E; [|done]. intros [= <- <-]. destruct (GetVarint64_below _ _ _ E). split; [by apply Hset|done].
Qed.

(** The parts of a field, from the last one. *)
#[local] Ltac parts := repeat match goal with
  | H : Some _ = Some _ |- _ => injection H as H; subst
  | H : option_bind _ _ _ _ = Some _ |- _ => apply bind_Some in H as ([? ?] & ? & H)
  | H : mbind _ _ = Some _ |- _ => apply bind_Some in H as ([? ?] & ? & H)
  | H : GetLevel _ = Some _ |- _ => apply GetLevel_below in H as [? ?]
  | H : GetVarint64 _ = Some _ |- _ => apply GetVarint64_below in H as [? ?]
  | H : GetInternalKey _ = Some _ |- _ => apply GetSlice_below in H as [? ?]
  end.

Lemma GetFile_below p level f rest : GetFile p = Some (level, f, rest) → level_ok level ∧ file_typed f ∧ (length rest < length p)%nat.
Proof.
  unfold GetFile. intros H. parts. simplify_eq. split; [done|]. split; [by split_and!|lia].
Qed.

Lemma decode_field_typed tag p e e' rest : edit_typed e → decode_field tag p e = inl (e', rest) → edit_typed e' ∧ (length rest ≤ length p)%nat.
Proof.
  intros He. pose proof He as [H1 H2 H3 [H4 H5] H6]. rewrite !Forall_cons in H2. destruct H2 as (N1 & N2 & N3 & N4 & _).
  assert (∀ set msg, (∀ n, number_ok n → edit_typed (set n e)) → decode_number set msg p e = inl (e', rest) → edit_typed e' ∧ (length rest ≤ length p)%nat) as Hnum.
  { intros set msg Hset Hd. destruct (decode_number_typed set msg p e e' rest Hset Hd). split; [done|lia]. }
  unfold decode_field. repeat case_match; try done.
  - intros [= <- <-]. match goal with H : GetLengthPrefixedSlice _ = Some _ |- _ => apply GetSlice_below in H as [Hs Hl] end. split; [|lia]. split; try done. by rewrite !Forall_cons.
  - apply Hnum. intros n Hn. split; try done. by rewrite !Forall_cons.
  - apply Hnum. intros n Hn. split; try done. by rewrite !Forall_cons.
  - apply Hnum. intros n Hn. split; try done. by rewrite !Forall_cons.
  - apply Hnum. intros n Hn. split; try done. by rewrite !Forall_cons.
  - intros [= <- <-]. parts. simplify_eq. split; [|lia]. split; try done; [by rewrite !Forall_cons|]. cbn. apply Forall_app. by rewrite Forall_singleton.
  - intros [= <- <-]. parts. simplify_eq. split; [|lia]. split; try done; [by rewrite !Forall_cons|]. cbn. split; [|by apply set_insert_sorted].
    apply Forall_forall. intros d [->|Hd]%set_insert_elem; [done|]. rewrite Forall_forall in H4. by apply H4.
  - intros [= <- <-]. match goal with H : GetFile _ = Some _ |- _ => apply GetFile_below in H as (Hl & Hf & Hr) end. split; [|lia]. split; try done; [by rewrite !Forall_cons|].
    cbn. apply Forall_app. by rewrite Forall_singleton.
Qed.

Lemma decode_field_msg tag p e msg : decode_field tag p e = inr msg → zlen msg < 100.
Proof.
  unfold decode_field, decode_number. repeat case_match; intros E; simplify_eq; by vm_compute.
Qed.

Lemma decode_loop_typed fuel : ∀ p e, (length p < fuel)%nat → edit_typed e →
  ∃ e' msg, decode_loop fuel p e = Ok (e', msg) ∧ edit_typed e' ∧ match msg with Some msg => zlen msg < 100 | None => True end.
Proof.
  induction fuel as [|fuel IH]; intros p e Hp He; [lia|]. cbn [decode_loop]. destruct (GetVarint32 p) as [[tag q]|] eqn:Et.
  - apply GetVarint32Ptr_shorter in Et. destruct (decode_field tag q e) as [[e' rest]|msg] eqn:Ed.
    + destruct (decode_field_typed _ _ _ _ _ He Ed) as [He' Hl]. apply IH; [lia|done].
    + exists e, (Some msg). split; [done|]. split; [done|]. by apply (decode_field_msg tag q e).
  - eexists e, _. split; [done|]. split; [done|]. destruct p; [done|]. by vm_compute.
Qed.

(** Claim C22. Decoding is total and typed: any bytes at all are decoded to an edit, into one whose compaction pointers are well typed, and
    whatever the status is, its levels exist, its numbers have 64 bits, its slices have fewer than 2^32 bytes and its set of deleted
    files is in order without repetitions; a status that is not OK is a corruption. *)
Theorem version_edit_typed src e0 (He0 : Forall (λ p, level_ok p.1 ∧ slice_ok p.2) (compact_pointers_ e0)) :
  ∃ s e, DecodeFrom src e0 = Ok (s, e) ∧ edit_typed e ∧ (ok s = true ∨ code s = Ok kCorruption).
Proof.
  assert (edit_typed (Clear e0)) as Hclear by (split; try done; [by rewrite !Forall_cons|by repeat constructor]).
  destruct (decode_loop_typed (S (length src)) src (Clear e0) ltac:(lia) Hclear) as (e & msg & E & He & Hmsg). unfold DecodeFrom. rewrite E. cbn [mbind res_bind].
  destruct msg as [msg|]; [|by exists OK, e; split; [done|split; [done|by left]]]. unfold Corruption. assert (zlen (str "VersionEdit") = 11) as Hs by done.
  rewrite new_Status_Ok by (done || lia). cbn [mbind res_bind]. eexists _, e. split; [done|]. split; [done|]. right.
  destruct (ToString_Ok kCorruption (str "VersionEdit") msg) as (Hc & _); [done|done|lia|done].
Qed.

(** ** The operations that make edits *)

Lemma new_VersionEdit_ok : edit_ok new_VersionEdit.
Proof. split; [constructor|]. by repeat constructor. Qed.

Lemma Forall_if (b : bool) f : Forall field_ok (if b then [f] else []) ↔ (b = true → field_ok f).
Proof. destruct b; rewrite ?Forall_singleton; [naive_solver|by split]. Qed.

Lemma fields_ok e : Forall field_ok (fields e) ↔
  ((has_comparator_ e = true → slice_ok (comparator_ e)) ∧ (has_log_number_ e = true → number_ok (log_number_ e)) ∧ (has_prev_log_number_ e = true → number_ok (prev_log_number_ e))
    ∧ (has_next_file_number_ e = true → number_ok (next_file_number_ e)) ∧ (has_last_sequence_ e = true → number_ok (last_sequence_ e)))
  ∧ Forall (λ p, level_ok p.1 ∧ key_ok p.2) (compact_pointers_ e) ∧ Forall (λ d, level_ok d.1 ∧ number_ok d.2) (deleted_files_ e) ∧ Forall (λ f, level_ok f.1 ∧ file_ok f.2) (new_files_ e).
Proof. unfold fields, scalars. by rewrite !Forall_app, !Forall_fmap, !Forall_if. Qed.

Lemma set_field_ok f e : field_ok f → edit_ok e → edit_ok (set_field f e).
Proof.
  intros Hf (Hfs & Hc & Hl & Hp & Hn & Hs & Hsort). apply fields_ok in Hfs as ((C1 & C2 & C3 & C4 & C5) & H2 & H3 & H4).
  destruct f as [name|n|n|n|n|level key|level file|level f]; (split; [apply fields_ok; split; [|split_and!]|]); try done; cbn.
  - apply Forall_app. by rewrite Forall_singleton.
  - apply Forall_forall. intros d [->|Hd]%set_insert_elem; [done|]. rewrite Forall_forall in H3. by apply H3.
  - split_and!; try done. by apply set_insert_sorted.
  - apply Forall_app. rewrite Forall_singleton. cbn. by destruct Hf as [Hl' (_ & _ & Hr)].
Qed.

Lemma version_edit_roundtrip_witness :
  let e := DeleteFile 1 7 (DeleteFile 0 9 (AddFile 2 12 4096 (str "a1234567") (str "z1234567") (SetCompactPointer 1 (str "k1234567")
    (SetLastSequence 42 (SetNextFile 13 (SetLogNumber 11 (SetComparatorName (str "leveldb.BytewiseComparator") new_VersionEdit))))))) in
  ∃ record, EncodeTo e [] = Ok record
    ∧ ∀ e0, DecodeFrom record e0 = Ok (OK, with_lists (compact_pointers_ e0 ++ compact_pointers_ e) (deleted_files_ e) (new_files_ e) e).
Proof.
  intros e. apply (version_edit_roundtrip e). split; [|by vm_compute; repeat constructor].
  repeat constructor; vm_compute; try discriminate.
Defined.

Lemma version_edit_typed_witness :
  ∃ s e, DecodeFrom [x06; x09; x01] new_VersionEdit = Ok (s, e) ∧ edit_typed e ∧ (ok s = true ∨ code s = Ok kCorruption).
Proof. apply (version_edit_typed [x06; x09; x01] new_VersionEdit). constructor. Defined.
