(* ===== verification/VersionSet.v ===== *)
(** * Versions: leveldb db/version_set.h, db/version_set.cc

    The table files of a database by level, the searches in them, and the lookups of keys. *)
From Stdlib Require Import Strings.String.
From stdpp Require Import sorting.
From S2P Require Import Prelude Buffers CLib Order Coding Comparator Status DbFormat Block BlockProps Iterator TwoLevel TableFormat Table VersionEdit.

#[local] Open Scope Z_scope.
#[local] Open Scope list_scope.

Definition kTargetFileSize : Z := 2 * 1048576.
Definition kMaxGrandParentOverlapBytes : Z := 10 * kTargetFileSize.
Definition kExpandedCompactionByteSizeLimit : Z := 25 * kTargetFileSize.
Definition MaxFileSizeForLevel (level : Z) : Z := kTargetFileSize.
Definition kMaxMemCompactLevel : Z := 2.

(** A 64-bit number as an [int64_t]. *)
Definition to_int64 (z : Z) : Z := (z + 2^63) mod 2^64 - 2^63.

Definition TotalFileSize (files : list FileMetaData) : Z := foldl (λ sum f, to_int64 (sum + file_size f)) 0 files.

Section versions.
Context {user_comparator : Comparator}.
#[local] Abbreviation icmp := (@internal_Compare user_comparator).

(** ** Searches *)

(** The indices are [uint32_t]; the range shrinks in every round. *)
Fixpoint find_loop (fuel : nat) (files : list FileMetaData) (key : list byte) (left right : Z) : res Z :=
  match fuel with
  | O => Err Diverge
  | S fuel =>
      if left <? right then
        let mid := u32 (left + right) / 2 in
        f ← of_option (files !! Z.to_nat mid);
        k ← InternalKey_Encode (largest f);
        r ← icmp k key;
        if r <? 0 then find_loop fuel files key (u32 (mid + 1)) right else find_loop fuel files key left mid
      else mret right
  end.

Definition FindFile (files : list FileMetaData) (key : list byte) : res Z :=
  right ← find_loop (S (length files)) files key 0 (u32 (zlen files)); mret (to_int right).

(** NULL is before all keys, and after all keys. *)
Definition AfterFile (user_key : option (list byte)) (f : FileMetaData) : res bool :=
  match user_key with None => mret false | Some u => k ← InternalKey_user_key (largest f); r ← Compare u k; mret (0 <? r) end.
Definition BeforeFile (user_key : option (list byte)) (f : FileMetaData) : res bool :=
  match user_key with None => mret false | Some u => k ← InternalKey_user_key (smallest f); r ← Compare u k; mret (r <? 0) end.

Fixpoint some_overlaps (files : list FileMetaData) (small large : option (list byte)) : res bool :=
  match files with
  | [] => mret false
  | f :: files =>
      after ← AfterFile small f;
      apart ← (if after : bool then mret true else BeforeFile large f);
      if apart : bool then some_overlaps files small large else mret true
  end.

Definition SomeFileOverlapsRange (disjoint_sorted_files : bool) (files : list FileMetaData) (small large : option (list byte)) : res bool :=
  if negb disjoint_sorted_files then some_overlaps files small large
  else
    index ← match small with
      | None => mret 0
      | Some u => k ← new_InternalKey u kMaxSequenceNumber kValueTypeForSeek; k ← InternalKey_Encode k; i ← FindFile files k; mret (u32 i)
      end;
    if zlen files <=? index then mret false
    else f ← of_option (files !! Z.to_nat index); before ← BeforeFile large f; mret (negb before).

(** ** LevelFileNumIterator: the index of a level *)

Record LevelFileNumIterator := MkLevelIter { flist_ : list FileMetaData; index_ : Z }.
Definition new_LevelFileNumIterator (files : list FileMetaData) : LevelFileNumIterator := MkLevelIter files (u32 (zlen files)).
Definition level_Valid (it : LevelFileNumIterator) : bool := index_ it <? zlen (flist_ it).
Definition level_file (it : LevelFileNumIterator) : res FileMetaData :=
  _ ← c_assert (level_Valid it); of_option (flist_ it !! Z.to_nat (index_ it)).
Definition file_value (f : FileMetaData) : list byte := EncodeFixed64 (number f) ++ EncodeFixed64 (file_size f).

#[export] Instance level_iterator {T} : Iterator T LevelFileNumIterator := {|
  i_Valid := level_Valid;
  i_SeekToFirst it := mret (MkLevelIter (flist_ it) 0);
  i_SeekToLast it := mret (MkLevelIter (flist_ it) (match flist_ it with [] => 0 | _ => u32 (zlen (flist_ it) - 1) end));
  i_Seek target it := i ← lift (FindFile (flist_ it) target); mret (MkLevelIter (flist_ it) (u32 i));
  i_Next it := _ ← lift (c_assert (level_Valid it)); mret (MkLevelIter (flist_ it) (u32 (index_ it + 1)));
  i_Prev it :=
    _ ← lift (c_assert (level_Valid it));
    mret (MkLevelIter (flist_ it) (if index_ it =? 0 then u32 (zlen (flist_ it)) else u32 (index_ it - 1)));
  i_key it := f ← level_file it; InternalKey_Encode (largest f);
  i_value it := f ← level_file it; mret (file_value f);
  i_status it := mret OK;
  i_delete it := mret tt |}.

(** ** Versions *)

(** [files_], by level. *)
Record Version := MkVersion { files_ : list (list FileMetaData) }.
Definition new_Version : Version := MkVersion (repeat [] (Z.to_nat kNumLevels)).
Definition level_files (v : Version) (level : Z) : res (list FileMetaData) := of_option (files_ v !! Z.to_nat level).

Definition OverlapInLevel (v : Version) (level : Z) (small large : option (list byte)) : res bool :=
  files ← level_files v level; SomeFileOverlapsRange (0 <? level) files small large.

(** From file [i] on; at level 0 a file that widens the range starts the search again. *)
Fixpoint overlap_loop (fuel : nat) (level : Z) (files : list FileMetaData) (i : nat) (user_begin user_end : option (list byte))
    (inputs : list FileMetaData) : res (list FileMetaData) :=
  match fuel with
  | O => Err Diverge
  | S fuel =>
      match files !! i with
      | None => mret inputs
      | Some f =>
          file_start ← InternalKey_user_key (smallest f);
          file_limit ← InternalKey_user_key (largest f);
          before ← match user_begin with None => mret false | Some b => r ← Compare file_limit b; mret (r <? 0) end;
          after ← (if before : bool then mret false else match user_end with None => mret false | Some e => r ← Compare file_start e; mret (0 <? r) end);
          if before || after : bool then overlap_loop fuel level files (S i) user_begin user_end inputs
          else if level =? 0 then
            wider ← match user_begin with None => mret false | Some b => r ← Compare file_start b; mret (r <? 0) end;
            if wider : bool then overlap_loop fuel level files 0 (Some file_start) user_end []
            else
              longer ← match user_end with None => mret false | Some e => r ← Compare file_limit e; mret (0 <? r) end;
              if longer : bool then overlap_loop fuel level files 0 user_begin (Some file_limit) []
              else overlap_loop fuel level files (S i) user_begin user_end (inputs ++ [f])
          else overlap_loop fuel level files (S i) user_begin user_end (inputs ++ [f])
      end
  end.

Definition user_key_of (k : option (list byte)) : res (option (list byte)) :=
  match k with None => mret None | Some k => u ← InternalKey_user_key k; mret (Some u) end.

(** Every restart takes in the start or the limit of a file. *)
Definition GetOverlappingInputs (v : Version) (level : Z) (start limit : option (list byte)) : res (list FileMetaData) :=
  _ ← c_assert (0 <=? level); _ ← c_assert (level <? kNumLevels);
  user_begin ← user_key_of start;
  user_end ← user_key_of limit;
  files ← level_files v level;
  overlap_loop ((2 * length files + 1) * S (length files)) level files 0 user_begin user_end [].

Fixpoint pick_level_loop (fuel : nat) (v : Version) (small large start limit : list byte) (level : Z) : res Z :=
  match fuel with
  | O => Err Diverge
  | S fuel =>
      if level <? kMaxMemCompactLevel then
        overlap ← OverlapInLevel v (level + 1) (Some small) (Some large);
        if overlap : bool then mret level
        else
          stop ← (if level + 2 <? kNumLevels then
              overlaps ← GetOverlappingInputs v (level + 2) (Some start) (Some limit);
              mret (kMaxGrandParentOverlapBytes <? TotalFileSize overlaps)
            else mret false);
          if stop : bool then mret level else pick_level_loop fuel v small large start limit (level + 1)
      else mret level
  end.

Definition PickLevelForMemTableOutput (v : Version) (small large : list byte) : res Z :=
  overlap ← OverlapInLevel v 0 (Some small) (Some large);
  if negb overlap then
    start ← new_InternalKey small kMaxSequenceNumber kValueTypeForSeek;
    limit ← new_InternalKey large 0 0;
    pick_level_loop (S (Z.to_nat kMaxMemCompactLevel)) v small large start limit 0
  else mret 0.

(** ** Lookups *)

Inductive SaverState := kNotFound | kFound | kDeleted | kCorrupt.

(** The state of the saver and the value, after the call. *)
Definition SaveValue (user_key value ikey v : list byte) : res (SaverState * list byte) :=
  parsed_key ← ParseInternalKey ikey;
  match parsed_key with
  | None => mret (kCorrupt, value)
  | Some parsed_key =>
      r ← Compare (DbFormat.user_key parsed_key) user_key;
      if r =? 0 then if type parsed_key =? kTypeValue then mret (kFound, v) else mret (kDeleted, value)
      else mret (kNotFound, value)
  end.

(** [NewestFirst]; [std::sort] of files whose numbers differ. *)
Definition NewestFirst (a b : FileMetaData) : Prop := number b ≤ number a.
#[export] Instance NewestFirst_dec a b : Decision (NewestFirst a b) := decide (number b ≤ number a).

(** The files that hold the user key, if their ranges say the truth. *)
Fixpoint holding (user_key : list byte) (files : list FileMetaData) : res (list FileMetaData) :=
  match files with
  | [] => mret []
  | f :: files =>
      small ← InternalKey_user_key (smallest f);
      r ← Compare user_key small;
      inside ← (if 0 <=? r then large ← InternalKey_user_key (largest f); r ← Compare user_key large; mret (r <=? 0) else mret false);
      rest ← holding user_key files;
      mret (if inside : bool then f :: rest else rest)
  end.

(** The files to search in a level. *)
Definition files_to_search (level : Z) (files : list FileMetaData) (ikey user_key : list byte) : res (list FileMetaData) :=
  if level =? 0 then tmp ← holding user_key files; mret (merge_sort NewestFirst tmp)
  else
    i ← FindFile files ikey;
    let index := u32 i in
    if zlen files <=? index then mret []
    else
      tmp2 ← of_option (files !! Z.to_nat index);
      small ← InternalKey_user_key (smallest tmp2);
      r ← Compare user_key small;
      mret (if r <? 0 then [] else [tmp2]).

Record GetStats := MkStats { seek_file : option FileMetaData; seek_file_level : Z }.

(** [func] on the files that overlap the key, from the newest on, until it answers false. *)
Section each.
Context {A : Type} (func : Z → FileMetaData → A → res (bool * A)).
Fixpoint call_each (level : Z) (files : list FileMetaData) (arg : A) : res (bool * A) :=
  match files with
  | [] => mret (true, arg)
  | f :: files => '(more, arg) ← func level f arg; if more : bool then call_each level files arg else mret (false, arg)
  end.
Fixpoint each_level (level : Z) (levels : list (list FileMetaData)) (user_key internal_key : list byte) (arg : A) : res A :=
  match levels with
  | [] => mret arg
  | files :: levels =>
      searched ← match files with [] => mret [] | _ => files_to_search level files internal_key user_key end;
      '(more, arg) ← call_each level searched arg;
      if more : bool then each_level (level + 1) levels user_key internal_key arg else mret arg
  end.
Definition ForEachOverlapping (v : Version) (user_key internal_key : list byte) (arg : A) : res A :=
  each_level 0 (files_ v) user_key internal_key arg.
End each.

(** ** The cache of open tables, db/table_cache.h: iterators over table files, lookups in them, and error iterators *)

Class TableCache (T I : Type) := {
  tc_NewIterator : ReadOptions → Z → Z → st T I;
  tc_Get : ReadOptions → Z → Z → list byte → st T (Status * option entry);
  error_iterator : Status → I }.

Section tables.
Context {T I : Type} `{Iterator T I} `{TableCache T I}.

(** The files of a level, one after the other: the answer if there is one, the last file that was read and its level, and the statistics. *)
Fixpoint search_files (options : ReadOptions) (level : Z) (files : list FileMetaData) (ikey user_key value : list byte)
    (last_file_read : option (FileMetaData * Z)) (stats : GetStats) : st T (option (Status * list byte) * option (FileMetaData * Z) * GetStats) :=
  match files with
  | [] => mret (None, last_file_read, stats)
  | f :: files =>
      let stats := match last_file_read, seek_file stats with Some (last, last_level), None => MkStats (Some last) last_level | _, _ => stats end in
      let last_file_read := Some (f, level) in
      '(s, saved) ← tc_Get options (number f) (file_size f) ikey;
      if negb (ok s) then mret (Some (s, value), last_file_read, stats)
      else
        '(state, value) ← match saved with Some (k, v) => lift (SaveValue user_key value k v) | None => mret (kNotFound, value) end;
        match state with
        | kNotFound => search_files options level files ikey user_key value last_file_read stats
        | kFound => mret (Some (s, value), last_file_read, stats)
        | kDeleted => s ← lift (NotFound [] []); mret (Some (s, value), last_file_read, stats)
        | kCorrupt => s ← lift (Corruption (str "corrupted key for ") user_key); mret (Some (s, value), last_file_read, stats)
        end
  end.

Fixpoint search_levels (options : ReadOptions) (level : Z) (levels : list (list FileMetaData)) (ikey user_key value : list byte)
    (last_file_read : option (FileMetaData * Z)) (stats : GetStats) : st T (Status * list byte * GetStats) :=
  match levels with
  | [] => s ← lift (NotFound [] []); mret (s, value, stats)
  | files :: levels =>
      searched ← match files with [] => mret [] | _ => lift (files_to_search level files ikey user_key) end;
      '(answer, last_file_read, stats) ← search_files options level searched ikey user_key value last_file_read stats;
      match answer with
      | Some (s, value) => mret (s, value, stats)
      | None => search_levels options (level + 1) levels ikey user_key value last_file_read stats
      end
  end.

(** The status, the value and the statistics. *)
Definition Version_Get (v : Version) (options : ReadOptions) (k : LookupKey) (value : list byte) : st T (Status * list byte * GetStats) :=
  ikey ← lift (LookupKey_internal_key k);
  user_key ← lift (LookupKey_user_key k);
  search_levels options 0 (files_ v) ikey user_key value None (MkStats None (-1)).

(** ** Iterators over the files of a level *)

Definition GetFileIterator (options : ReadOptions) (file_value : list byte) : st T I :=
  if negb (zlen file_value =? 16) then s ← lift (Corruption (str "FileReader invoked with unexpected value") []); mret (error_iterator s)
  else n ← lift (DecodeFixed64 file_value); size ← lift (DecodeFixed64 (drop 8 file_value)); tc_NewIterator options n size.

(** The skipping loops take a round for each file, and two more. *)
Definition concatenating (options : ReadOptions) (files : list FileMetaData) : Iterator T (TwoLevelIterator LevelFileNumIterator I) :=
  two_level_iterator (GetFileIterator options) (S (S (length files))).
Definition new_concatenating (files : list FileMetaData) : st T (TwoLevelIterator LevelFileNumIterator I) :=
  new_TwoLevelIterator (new_LevelFileNumIterator files).

(** An iterator over a table, or over a level with its files. *)
Inductive version_iterator := TableIter (it : I) | LevelIter (options : ReadOptions) (files : list FileMetaData) (it : TwoLevelIterator LevelFileNumIterator I).

Definition on_version (f : I → st T I) (g : Iterator T (TwoLevelIterator LevelFileNumIterator I) → TwoLevelIterator LevelFileNumIterator I → st T (TwoLevelIterator LevelFileNumIterator I))
    (x : version_iterator) : st T version_iterator :=
  match x with
  | TableIter it => it ← f it; mret (TableIter it)
  | LevelIter options files it => it ← g (concatenating options files) it; mret (LevelIter options files it)
  end.
Definition ask_version {A} (f : I → A) (g : Iterator T (TwoLevelIterator LevelFileNumIterator I) → TwoLevelIterator LevelFileNumIterator I → A) (x : version_iterator) : A :=
  match x with TableIter it => f it | LevelIter options files it => g (concatenating options files) it end.

#[export] Instance version_iterator_iterator : Iterator T version_iterator := {|
  i_Valid := ask_version i_Valid (@i_Valid _ _);
  i_SeekToFirst := on_version i_SeekToFirst (@i_SeekToFirst _ _);
  i_SeekToLast := on_version i_SeekToLast (@i_SeekToLast _ _);
  i_Seek target := on_version (i_Seek target) (λ ops, @i_Seek _ _ ops target);
  i_Next := on_version i_Next (@i_Next _ _);
  i_Prev := on_version i_Prev (@i_Prev _ _);
  i_key := ask_version i_key (@i_key _ _);
  i_value := ask_version i_value (@i_value _ _);
  i_status := ask_version i_status (@i_status _ _);
  i_delete := ask_version i_delete (@i_delete _ _) |}.

Fixpoint table_iterators (options : ReadOptions) (files : list FileMetaData) : st T (list version_iterator) :=
  match files with
  | [] => mret []
  | f :: files => it ← tc_NewIterator options (number f) (file_size f); its ← table_iterators options files; mret (TableIter it :: its)
  end.
Fixpoint level_iterators (options : ReadOptions) (levels : list (list FileMetaData)) : st T (list version_iterator) :=
  match levels with
  | [] => mret []
  | [] :: levels => level_iterators options levels
  | files :: levels => it ← new_concatenating files; its ← level_iterators options levels; mret (LevelIter options files it :: its)
  end.

(** [AddIterators]: one for each file of level 0, and one for each other level that has files. *)
Definition AddIterators (v : Version) (options : ReadOptions) (iters : list version_iterator) : st T (list version_iterator) :=
  files0 ← lift (level_files v 0);
  tables ← table_iterators options files0;
  levels ← level_iterators options (drop 1 (files_ v));
  mret (iters ++ tables ++ levels).
End tables.
End versions.
