(* ===== verification/VersionProps.v ===== *)
(** * What the searches in a version find

    The binary search over the files of a level, the iterator over them, and the files that overlap a range. *)
From stdpp Require Import sorting.
From S2P Require Import Prelude Buffers CLib Order Coding Comparator Status DbFormat Block BlockProps Iterator IterProps VersionEdit VersionSet.

#[local] Open Scope Z_scope.
#[local] Open Scope list_scope.

(** The largest keys of files are the keys of an index. *)
Definition file_entry (f : FileMetaData) : entry := (largest f, file_value f).
Definition index_of (files : list FileMetaData) : list entry := file_entry <$> files.

Section versions.
Context {C : Comparator} {okk : list byte → Prop} {c : list byte → list byte → Z} {Hspec : ComparatorSpec C okk c}.
#[local] Abbreviation ic := (internal_order c).
#[local] Abbreviation ikey := (internal_ok okk).
#[local] Instance versions_order : CmpOrder c := @spec_order _ _ _ Hspec.
#[local] Existing Instance internal_cmp_order.

Definition keys_ok (f : FileMetaData) : Prop := ikey (smallest f) ∧ ikey (largest f).
Definition by_largest (files : list FileMetaData) : Prop := StronglySorted (λ a b, ic (largest a) (largest b) < 0) files.

Lemma ikey_encode k : ikey k → InternalKey_Encode k = Ok k.
Proof. intros [H8 _]. unfold InternalKey_Encode. by replace (zlen k =? 0) with false by lia. Qed.

Lemma ikey_user k : ikey k → InternalKey_user_key k = Ok (user_part k) ∧ okk (user_part k).
Proof. intros [H8 Hk]. split; [by apply ExtractUserKey_Ok|done]. Qed.

Lemma index_sorted_files files : by_largest files → StronglySorted (λ a b : entry, ic a.1 b.1 < 0) (index_of files).
Proof. unfold index_of. induction 1 as [|f files Hs IH Hf]; cbn [fmap list_fmap]; constructor; [done|]. by rewrite Forall_fmap. Qed.

Lemma index_lookup files i f : files !! i = Some f → index_of files !! i = Some (file_entry f).
Proof. intros Hf. unfold index_of. by rewrite list_lookup_fmap, Hf. Qed.

Lemma find_file_loop_Ok files key : Forall keys_ok files → by_largest files → zlen files < 2^31 → ikey key →
  ∀ fuel left right, 0 ≤ left ≤ Z.of_nat (rank ic key (index_of files)) → Z.of_nat (rank ic key (index_of files)) ≤ right ≤ zlen files →
  right - left < Z.of_nat fuel → find_loop fuel files key left right = Ok (Z.of_nat (rank ic key (index_of files))).
Proof.
  intros Hok Hs Hl Hk. set (r := rank ic key (index_of files)). induction fuel as [|fuel IH]; intros left right Hleft Hright Hf; [lia|]. cbn [find_loop].
  destruct (Z.ltb_spec left right) as [Hlt|Hge]; [|do 2 f_equal; lia]. rewrite (u32_small (left + right)) by lia. set (mid := (left + right) / 2).
  assert (left ≤ mid < right) as Hmid by (unfold mid; split; [apply Z.div_le_lower_bound; lia|apply Z.div_lt_upper_bound; lia]).
  destruct (lookup_lt_is_Some_2 files (Z.to_nat mid)) as [f Hfm]; [lia|]. rewrite Hfm. cbn [of_option mbind res_bind].
  rewrite Forall_forall in Hok. destruct (Hok f) as [_ Hlk]; [by eapply list_elem_of_lookup_2|]. rewrite ikey_encode by done. cbn [mbind res_bind].
  rewrite internal_Compare_Ok by done. cbn [mbind res_bind]. pose proof (index_lookup files _ f Hfm) as Hfi.
  destruct (Z.ltb_spec (ic (largest f) key) 0) as [Hneg|Hpos].
  - rewrite u32_small by lia. apply IH; [|done|lia]. split; [lia|]. destruct (decide (Z.to_nat mid < r)%nat); [lia|]. exfalso.
    destruct (lookup_lt_is_Some_2 (index_of files) r) as [e He]; [apply lookup_lt_Some in Hfi; unfold r in *; lia|].
    pose proof (rank_at (c := ic) key (index_of files) e He) as Hge. destruct (decide (Z.to_nat mid = r)) as [E|Hne].
    + rewrite E, He in Hfi. injection Hfi as ->. cbn in Hge. lia.
    + pose proof (sorted_lt (c := ic) _ (index_sorted_files files Hs) r (Z.to_nat mid) e.1 e.2 (file_entry f).1 (file_entry f).2 ltac:(by destruct e) Hfi ltac:(lia)) as Hel.
      cbn in Hel. pose proof (cmp_trans (c := ic) e.1 (largest f) key). pose proof (cmp_lt_le ic e.1 (largest f) key). lia.
  - apply IH; [done| |lia]. split; [|lia]. destruct (decide (Z.to_nat mid < r)%nat) as [Hlt'|]; [|lia]. exfalso.
    pose proof (rank_below (c := ic) key (index_of files) _ _ Hlt' Hfi). cbn in *. lia.
Qed.

(** The first file whose largest key is not below the key. *)
Lemma FindFile_Ok files key : Forall keys_ok files → by_largest files → zlen files < 2^31 → ikey key →
  FindFile files key = Ok (Z.of_nat (rank ic key (index_of files))).
Proof.
  intros Hok Hs Hl Hk. pose proof (rank_le (c := ic) key (index_of files)) as Hr. unfold index_of in Hr at 2. rewrite length_fmap in Hr. unfold FindFile.
  rewrite (u32_small (zlen files)) by lia. rewrite find_file_loop_Ok by (done || lia). cbn [mbind res_bind]. unfold mret, res_ret. f_equal. apply to_int_small. unfold int_min, int_max. lia.
Qed.

(** ** The iterator over the files of a level *)

Definition level_pos (files : list FileMetaData) (it : LevelFileNumIterator) (i : nat) : Prop := it = MkLevelIter files (Z.of_nat i) ∧ (i ≤ length files)%nat.
Definition level_owns {R} (it : LevelFileNumIterator) : list R := [].

Lemma level_file_Ok files i f : files !! i = Some f → level_file (MkLevelIter files (Z.of_nat i)) = Ok f.
Proof.
  intros Hf. pose proof (lookup_lt_Some _ _ _ Hf). unfold level_file, level_Valid. cbn [index_ flist_]. rewrite c_assert_true by lia. cbn [mbind res_bind].
  by rewrite Nat2Z.id, Hf.
Qed.

Lemma level_moves {T R} (P : list R → T → Prop) files it j m : (∀ t, m t = Ok (MkLevelIter files (Z.of_nat j), t)) → (j ≤ length files)%nat →
  moves P (level_pos files) level_owns it m j.
Proof. intros Hm Hj frame t HP. unfold wp. rewrite Hm. by split. Qed.

#[export] Instance level_spec {T R} (P : list R → T → Prop) files : Forall keys_ok files → by_largest files → zlen files < 2^31 →
  IteratorSpec P ikey ic (index_of files) (level_pos files) level_owns.
Proof.
  intros Hok Hs Hl. assert (length (index_of files) = length files) as El by by unfold index_of; rewrite length_fmap. split.
  - intros it i [-> Hi]. cbn [i_Valid i_status level_iterator]. unfold level_Valid. rewrite El. cbn [index_ flist_]. split; [done|]. split; [|done].
    case_bool_decide; lia.
  - intros it i k v [-> _] He. destruct (files !! i) as [f|] eqn:Hf; [|unfold index_of in He; by rewrite list_lookup_fmap, Hf in He].
    rewrite (index_lookup files i f Hf) in He. injection He as <- <-. cbn [i_key i_value level_iterator]. rewrite (level_file_Ok files i f Hf). cbn [mbind res_bind].
    rewrite Forall_forall in Hok. destruct (Hok f) as [_ Hlk]; [by eapply list_elem_of_lookup_2|]. by rewrite ikey_encode.
  - intros it i [-> _]. by apply level_moves; [|lia].
  - intros it i [-> _]. rewrite El. apply level_moves; [|lia]. intros t. cbn [i_SeekToLast level_iterator flist_]. unfold mret, st_ret. do 3 f_equal. destruct files as [|f files]; [done|]. assert (length (f :: files) = S (length files)) by done. rewrite u32_small by lia. lia.
  - intros it i target [-> _] Ht. pose proof (rank_le (c := ic) target (index_of files)) as Hr. rewrite El in Hr. apply level_moves; [|done].
    intros t. cbn [i_Seek level_iterator flist_]. rewrite FindFile_Ok by done. unfold mbind, st_bind, lift, mret, st_ret. by rewrite u32_small by lia.
  - intros it i [-> _] Hi. rewrite El in Hi. apply level_moves; [|lia]. intros t. cbn [i_Next level_iterator]. unfold level_Valid. cbn [index_ flist_].
    rewrite c_assert_true by lia. unfold mbind, st_bind, lift, mret, st_ret. rewrite u32_small by lia. do 3 f_equal. lia.
  - intros it i [-> _] Hi. rewrite El in *. apply level_moves; [|destruct i; cbn; lia]. intros t. cbn [i_Prev level_iterator]. unfold level_Valid. cbn [index_ flist_].
    rewrite c_assert_true by lia. unfold mbind, st_bind, lift, mret, st_ret. do 3 f_equal. destruct i as [|i]; cbn [prev_pos].
    + by rewrite u32_small by lia.
    + replace (Z.of_nat (S i) =? 0) with false by lia. rewrite u32_small by lia. lia.
  - intros it i frame t _ HP. done.
Qed.

(** ** Files that overlap a range of user keys *)

#[local] Abbreviation ukey := user_part.
(** Keys with one of the two types; a range that is not empty. *)
Definition file_fine (f : FileMetaData) : Prop :=
  keys_ok f ∧ tag_part (smallest f) mod 256 ≤ kTypeValue ∧ tag_part (largest f) mod 256 ≤ kTypeValue ∧ ic (smallest f) (largest f) ≤ 0.
(** A level other than 0: no two files overlap, and they are in order. *)
Definition disjoint_files (files : list FileMetaData) : Prop := StronglySorted (λ a b, ic (largest a) (smallest b) < 0) files.

Definition after_file (small : option (list byte)) (f : FileMetaData) : bool := match small with None => false | Some u => 0 <? c u (ukey (largest f)) end.
Definition before_file (large : option (list byte)) (f : FileMetaData) : bool := match large with None => false | Some u => c u (ukey (smallest f)) <? 0 end.
Definition overlaps (small large : option (list byte)) (f : FileMetaData) : bool := negb (after_file small f) && negb (before_file large f).
Definition bound_ok (u : option (list byte)) : Prop := match u with None => True | Some u => okk u end.

Lemma fine_keys_ok files : Forall file_fine files → Forall keys_ok files.
Proof. intros H. eapply Forall_impl; [exact H|]. by intros f (? & _). Qed.

Lemma AfterFile_Ok small f : bound_ok small → keys_ok f → AfterFile small f = Ok (after_file small f).
Proof.
  intros Hs [_ Hl]. destruct small as [u|]; [|done]. cbn [AfterFile after_file]. destruct (ikey_user _ Hl) as [-> Hk]. cbn [mbind res_bind].
  by rewrite (Compare_spec u _ Hs Hk).
Qed.

Lemma BeforeFile_Ok large f : bound_ok large → keys_ok f → BeforeFile large f = Ok (before_file large f).
Proof.
  intros Hs [Hl _]. destruct large as [u|]; [|done]. cbn [BeforeFile before_file]. destruct (ikey_user _ Hl) as [-> Hk]. cbn [mbind res_bind].
  by rewrite (Compare_spec u _ Hs Hk).
Qed.

Lemma some_overlaps_Ok files small large : Forall keys_ok files → bound_ok small → bound_ok large → some_overlaps files small large = Ok (existsb (overlaps small large) files).
Proof.
  intros Hf Hs Hl. induction Hf as [|f files Hf _ IH]; [done|]. cbn [some_overlaps existsb]. rewrite (AfterFile_Ok small f Hs Hf). cbn [mbind res_bind]. unfold overlaps at 1.
  destruct (after_file small f); cbn [negb andb orb]; [done|]. rewrite (BeforeFile_Ok large f Hl Hf). cbn [mbind res_bind]. by destruct (before_file large f).
Qed.

(** The first internal key of a user key is not above any other. *)
Lemma first_of_user u k : tag_part k mod 256 ≤ kTypeValue → 0 ≤ tag_part k < 2^64 →
  let first := internal u kMaxSequenceNumber kValueTypeForSeek in ic k first < 0 ↔ c (ukey k) u < 0.
Proof.
  intros Hty Htag first. assert (packable kMaxSequenceNumber kValueTypeForSeek) as Hp by by vm_compute. destruct (internal_parts u _ _ Hp) as [Eu Et].
  unfold first. rewrite internal_order_parts, Eu, Et. destruct (Z.eqb_spec (c (user_part k) u) 0) as [E|]; [|done]. split; [|lia]. intros Hlt. exfalso. revert Hlt.
  change (pack kMaxSequenceNumber kValueTypeForSeek) with (2^64 - 255). unfold kTypeValue in Hty. pose proof (Z.div_mod (tag_part k) 256 ltac:(lia)).
  assert (tag_part k / 256 < 2^56) by (apply Z.div_lt_upper_bound; lia). lia.
Qed.

Lemma disjoint_by_largest files : Forall file_fine files → disjoint_files files → by_largest files.
Proof.
  intros Hf. induction 1 as [|f files Hs IH Hd]; [constructor|]. apply Forall_cons in Hf as [_ Hf]. constructor; [by apply IH|].
  rewrite Forall_forall in *. intros g Hg. destruct (Hf g Hg) as (_ & _ & _ & Hle). apply (cmp_lt_le ic _ (smallest g)); [exact (Hd g Hg)|exact Hle].
Qed.

Lemma user_order a b : ic a b ≤ 0 → c (ukey a) (ukey b) ≤ 0.
Proof. apply internal_order_le. Qed.

(** In a level without overlaps, the first file that is not after the start decides. *)
Lemma overlaps_first files small large r : Forall file_fine files → disjoint_files files →
  (∀ i f, (i < r)%nat → files !! i = Some f → after_file small f = true) → (∀ f, files !! r = Some f → after_file small f = false) →
  existsb (overlaps small large) files = match files !! r with Some f => negb (before_file large f) | None => false end.
Proof.
  intros Hf Hd. revert r. induction Hd as [|f files Hd IH Hall]; intros r Hlow Hat; [by rewrite lookup_nil|]. apply Forall_cons in Hf as [Hf1 Hf]. cbn [existsb].
  unfold overlaps at 1. destruct r as [|r].
  - rewrite (Hat f eq_refl). cbn [negb andb lookup list_lookup]. destruct (before_file large f) eqn:Eb; cbn [negb orb]; [|done].
    apply not_true_iff_false. intros (g & Hg%list_elem_of_In & Ho)%existsb_exists. apply andb_true_iff in Ho as [_ Ho%negb_true_iff]. revert Ho. apply not_false_iff_true.
    destruct large as [u|]; [|done]. cbn in *. apply Z.ltb_lt in Eb. apply Z.ltb_lt. apply (cmp_lt_le c _ (ukey (smallest f))); [done|]. apply user_order.
    rewrite Forall_forall in Hall. apply (cmp_trans (c := ic) _ (largest f)); [apply Hf1|]. specialize (Hall g Hg). cbn in Hall. lia.
  - rewrite (Hlow 0%nat f) by (done || lia). cbn [negb andb orb lookup list_lookup]. apply IH; [done| |done]. intros i g Hi. apply (Hlow (S i)). lia.
Qed.

Lemma overlap_start files u : okk u → Forall file_fine files → disjoint_files files → zlen files < 2^31 →
  ∃ r, FindFile files (internal u kMaxSequenceNumber kValueTypeForSeek) = Ok (Z.of_nat r) ∧ (r ≤ length files)%nat
    ∧ (∀ i f, (i < r)%nat → files !! i = Some f → after_file (Some u) f = true) ∧ ∀ f, files !! r = Some f → after_file (Some u) f = false.
Proof.
  intros Hu Hf Hd Hl. set (first := internal u _ _). exists (rank ic first (index_of files)). pose proof (rank_le (c := ic) first (index_of files)) as Hr.
  unfold index_of in Hr at 2. rewrite length_fmap in Hr.
  assert (ikey first) as Hk by (apply internal_ok_app; [by vm_compute|done]).
  assert (∀ f, file_fine f → ic (largest f) first < 0 ↔ c (ukey (largest f)) u < 0) as Hfirst.
  { intros f ([_ [H8 _]] & _ & Hty & _). destruct (internal_split _ H8) as (_ & Htag & _). by apply first_of_user. }
  split; [apply FindFile_Ok; [by apply fine_keys_ok|by apply disjoint_by_largest|done|done]|]. split; [done|]. rewrite Forall_forall in Hf. split.
  - intros i f Hi Hfi. pose proof (rank_below (c := ic) _ _ _ _ Hi (index_lookup _ _ _ Hfi)) as Hb. cbn in Hb. apply Hfirst in Hb; [|by eapply Hf, list_elem_of_lookup_2].
    cbn. apply Z.ltb_lt. by apply (cmp_flip c).
  - intros f Hfi. pose proof (rank_at (c := ic) _ _ _ (index_lookup _ _ _ Hfi)) as Hb. cbn in Hb. cbn. apply Z.ltb_ge.
    destruct (Hfirst f) as [_ Hback]; [by eapply Hf, list_elem_of_lookup_2|]. pose proof (cmp_flip c (ukey (largest f)) u). lia.
Qed.

(** Whether some file overlaps the range; the binary search in a level without overlaps gives the same answer as looking at all files. *)
Lemma SomeFileOverlapsRange_Ok (disjoint : bool) files small large : Forall file_fine files → (disjoint = true → disjoint_files files) → zlen files < 2^31 →
  bound_ok small → bound_ok large → SomeFileOverlapsRange disjoint files small large = Ok (existsb (overlaps small large) files).
Proof.
  intros Hf Hd Hl Hs Hlg. unfold SomeFileOverlapsRange. destruct disjoint; cbn [negb]; [|by apply some_overlaps_Ok; [apply fine_keys_ok|..]].
  specialize (Hd eq_refl). assert (∃ r, match small with None => mret 0 | Some u => k ← new_InternalKey u kMaxSequenceNumber kValueTypeForSeek; k ← InternalKey_Encode k; i ← FindFile files k; mret (u32 i) end = Ok (Z.of_nat r)
    ∧ (r ≤ length files)%nat ∧ (∀ i f, (i < r)%nat → files !! i = Some f → after_file small f = true) ∧ ∀ f, files !! r = Some f → after_file small f = false) as (r & -> & Hr & Hlow & Hat).
  { destruct small as [u|]; [|by exists 0%nat; split; [done|split; [lia|split; [lia|done]]]]. destruct (overlap_start files u Hs Hf Hd Hl) as (r & E & Hr & Hlow & Hat). exists r.
    split; [|done]. assert (ikey (internal u kMaxSequenceNumber kValueTypeForSeek)) as Hk by (apply internal_ok_app; [by vm_compute|done]).
    unfold new_InternalKey. rewrite AppendInternalKey_Ok by by vm_compute. cbn [app mbind res_bind user_key sequence type]. rewrite ikey_encode by done. cbn [mbind res_bind]. rewrite E. cbn [mbind res_bind].
    unfold mret, res_ret. f_equal. apply u32_small. lia. }
  cbn [mbind res_bind]. rewrite (overlaps_first files small large r Hf Hd Hlow Hat). destruct (files !! r) as [f|] eqn:Hfr.
  - pose proof (lookup_lt_Some _ _ _ Hfr). replace (zlen files <=? Z.of_nat r) with false by lia. rewrite Nat2Z.id, Hfr. cbn [of_option mbind res_bind].
    rewrite Forall_forall in Hf. destruct (Hf f) as [Hk _]; [by eapply list_elem_of_lookup_2|]. by rewrite (BeforeFile_Ok large f Hlg Hk).
  - apply lookup_ge_None in Hfr. by replace (zlen files <=? Z.of_nat r) with true by lia.
Qed.

(** ** The inputs that overlap a range *)

Definition starts_before (b : option (list byte)) (f : FileMetaData) : bool := match b with None => false | Some u => c (ukey (smallest f)) u <? 0 end.
Definition ends_after (e : option (list byte)) (f : FileMetaData) : bool := match e with None => false | Some u => 0 <? c (ukey (largest f)) u end.
Definition inside (b e : option (list byte)) (f : FileMetaData) : bool := negb (starts_before b f) && negb (ends_after e f).

(** One step of the search. *)
Lemma overlap_step fuel level files i b e inputs f : bound_ok b → bound_ok e → keys_ok f → files !! i = Some f →
  overlap_loop (S fuel) level files i b e inputs =
    if negb (overlaps b e f) then overlap_loop fuel level files (S i) b e inputs
    else if (level =? 0) && starts_before b f then overlap_loop fuel level files 0 (Some (ukey (smallest f))) e []
    else if (level =? 0) && ends_after e f then overlap_loop fuel level files 0 b (Some (ukey (largest f))) []
    else overlap_loop fuel level files (S i) b e (inputs ++ [f]).
Proof.
  intros Hb He [Hs Hl] Hf. cbn [overlap_loop]. rewrite Hf. destruct (ikey_user _ Hs) as [-> Hsk], (ikey_user _ Hl) as [-> Hlk]. cbn [mbind res_bind].
  assert (match b with None => mret false | Some b => r ← Compare (ukey (largest f)) b; mret (r <? 0) end = Ok (after_file b f)) as ->.
  { destruct b as [u|]; [|done]. rewrite (Compare_spec _ u Hlk Hb). cbn [mbind res_bind after_file]. unfold mret, res_ret. f_equal.
    pose proof (cmp_anti (c := c) (ukey (largest f)) u). destruct (Z.ltb_spec (c (ukey (largest f)) u) 0), (Z.ltb_spec 0 (c u (ukey (largest f)))); lia. }
  cbn [mbind res_bind]. unfold overlaps. destruct (after_file b f); cbn [negb andb orb mbind res_bind]; [done|].
  assert (match e with None => mret false | Some e => r ← Compare (ukey (smallest f)) e; mret (0 <? r) end = Ok (before_file e f)) as ->.
  { destruct e as [u|]; [|done]. rewrite (Compare_spec _ u Hsk He). cbn [mbind res_bind before_file]. unfold mret, res_ret. f_equal.
    pose proof (cmp_anti (c := c) (ukey (smallest f)) u). destruct (Z.ltb_spec (c u (ukey (smallest f))) 0), (Z.ltb_spec 0 (c (ukey (smallest f)) u)); lia. }
  cbn [mbind res_bind]. destruct (before_file e f); cbn [negb andb orb]; [done|]. destruct (level =? 0); cbn [andb]; [|done].
  assert (match b with None => mret false | Some b => r ← Compare (ukey (smallest f)) b; mret (r <? 0) end = Ok (starts_before b f)) as ->.
  { destruct b as [u|]; [|done]. by rewrite (Compare_spec _ u Hsk Hb). }
  cbn [mbind res_bind]. destruct (starts_before b f); [done|].
  assert (match e with None => mret false | Some e => r ← Compare (ukey (largest f)) e; mret (0 <? r) end = Ok (ends_after e f)) as ->.
  { destruct e as [u|]; [|done]. by rewrite (Compare_spec _ u Hlk He). }
  by cbn [mbind res_bind].
Qed.

Lemma take_filter (p : FileMetaData → bool) files i f : files !! i = Some f → List.filter p (take (S i) files) = List.filter p (take i files) ++ (if p f then [f] else []).
Proof. intros Hf. rewrite (take_S_r files i f Hf), List.filter_app. cbn. by destruct (p f). Qed.

(** Above level 0: the files that overlap. *)
Lemma overlap_level_Ok level files b e : level ≠ 0 → Forall keys_ok files → bound_ok b → bound_ok e → ∀ fuel i, (length files < fuel + i)%nat → (i ≤ length files)%nat →
  overlap_loop fuel level files i b e (List.filter (overlaps b e) (take i files)) = Ok (List.filter (overlaps b e) files).
Proof.
  intros Hlv Hf Hb He. induction fuel as [|fuel IH]; intros i Hi Hle; [lia|]. destruct (files !! i) as [f|] eqn:Hfi.
  - rewrite Forall_forall in Hf. pose proof (lookup_lt_Some _ _ _ Hfi). rewrite (overlap_step _ _ _ _ _ _ _ f) by (done || by eapply Hf, list_elem_of_lookup_2).
    rewrite (proj2 (Z.eqb_neq _ _) Hlv). cbn [andb]. pose proof (take_filter (overlaps b e) files i f Hfi) as E. destruct (overlaps b e f); cbn [negb] in *.
    + rewrite <-E. apply IH; lia.
    + rewrite app_nil_r in E. rewrite <-E. apply IH; lia.
  - cbn [overlap_loop]. rewrite Hfi. apply lookup_ge_None in Hfi. by rewrite take_ge by lia.
Qed.

(** At level 0 each restart leaves fewer files that reach out of the range. *)
Definition outside (b e : option (list byte)) (files : list FileMetaData) : nat := length (List.filter (starts_before b) files) + length (List.filter (ends_after e) files).

Lemma filter_fewer {X} (p q : X → bool) l x : (∀ y, p y = true → q y = true) → x ∈ l → p x = false → q x = true → (length (List.filter p l) < length (List.filter q l))%nat.
Proof.
  intros Hpq Hx Hp Hq. assert (∀ l, length (List.filter p l) ≤ length (List.filter q l))%nat as Hle.
  { clear -Hpq. induction l as [|y l IH]; [done|]. cbn. pose proof (Hpq y). destruct (p y), (q y); cbn; try lia; by discriminate (H eq_refl). }
  induction l as [|y l IH]; [by apply elem_of_nil in Hx|]. cbn. apply elem_of_cons in Hx as [<-|Hx].
  - rewrite Hp, Hq. cbn. specialize (Hle l). lia.
  - specialize (IH Hx). pose proof (Hpq y). destruct (p y), (q y); cbn; try lia; by discriminate (H eq_refl).
Qed.

Lemma outside_start files b e f : f ∈ files → starts_before b f = true → (outside (Some (ukey (smallest f))) e files < outside b e files)%nat.
Proof.
  intros Hf Hb. unfold outside. destruct b as [u|]; [|done]. cbn in Hb. apply Z.ltb_lt in Hb.
  assert (length (List.filter (starts_before (Some (ukey (smallest f)))) files) < length (List.filter (starts_before (Some u)) files))%nat; [|lia].
  apply (filter_fewer _ _ _ f); [|done| |by apply Z.ltb_lt].
  - intros g Hg. cbn in *. apply Z.ltb_lt in Hg. apply Z.ltb_lt. pose proof (cmp_lt_le c (ukey (smallest g)) (ukey (smallest f)) u). lia.
  - cbn. by rewrite (cmp_refl c).
Qed.

Lemma outside_end files b e f : f ∈ files → ends_after e f = true → (outside b (Some (ukey (largest f))) files < outside b e files)%nat.
Proof.
  intros Hf He. unfold outside. destruct e as [u|]; [|done]. cbn in He. apply Z.ltb_lt in He.
  assert (length (List.filter (ends_after (Some (ukey (largest f)))) files) < length (List.filter (ends_after (Some u)) files))%nat; [|lia].
  apply (filter_fewer _ _ _ f); [|done| |by apply Z.ltb_lt].
  - intros g Hg. cbn in *. apply Z.ltb_lt in Hg. apply Z.ltb_lt. apply (cmp_flip c) in Hg, He. apply (cmp_flip c).
    pose proof (cmp_lt_le c u (ukey (largest f)) (ukey (largest g))). lia.
  - cbn. by rewrite (cmp_refl c).
Qed.

(** A wider range overlaps more. *)
Definition widens (b e b' e' : option (list byte)) : Prop := ∀ f, overlaps b e f = true → overlaps b' e' f = true.

Lemma widen_start b e f : starts_before b f = true → widens b e (Some (ukey (smallest f))) e.
Proof.
  destruct b as [u|]; [|done]. intros Hb%Z.ltb_lt g. unfold overlaps. intros [Ha Hbe]%andb_true_iff. rewrite Hbe, andb_true_r. cbn in *. apply negb_true_iff in Ha. apply negb_true_iff.
  apply Z.ltb_ge in Ha. apply Z.ltb_ge. pose proof (cmp_trans (c := c) (ukey (smallest f)) u (ukey (largest g))). lia.
Qed.

Lemma widen_end b e f : ends_after e f = true → widens b e b (Some (ukey (largest f))).
Proof.
  destruct e as [u|]; [|done]. intros He%Z.ltb_lt g. unfold overlaps. intros [-> Hbe]%andb_true_iff. cbn in *. apply negb_true_iff in Hbe. apply negb_true_iff.
  apply Z.ltb_ge in Hbe. apply Z.ltb_ge. apply (cmp_flip c) in He. pose proof (cmp_anti (c := c) u (ukey (smallest g))). pose proof (cmp_anti (c := c) (ukey (largest f)) (ukey (smallest g))).
  pose proof (cmp_trans (c := c) (ukey (smallest g)) u (ukey (largest f))). lia.
Qed.

Definition range_closed (files : list FileMetaData) (b e : option (list byte)) : Prop := ∀ f, f ∈ files → overlaps b e f = true → inside b e f = true.

Lemma overlap_zero_Ok files : Forall keys_ok files → ∀ fuel i b e, bound_ok b → bound_ok e → (i ≤ length files)%nat →
  (outside b e files * S (length files) + (length files - i) < fuel)%nat → (∀ f, f ∈ take i files → overlaps b e f = true → inside b e f = true) →
  ∃ b' e', overlap_loop fuel 0 files i b e (List.filter (overlaps b e) (take i files)) = Ok (List.filter (overlaps b' e') files)
    ∧ widens b e b' e' ∧ range_closed files b' e' ∧ bound_ok b' ∧ bound_ok e'.
Proof.
  intros Hf. induction fuel as [|fuel IH]; intros i b e Hb He Hi Hfuel Hin; [lia|]. destruct (files !! i) as [f|] eqn:Hfi.
  2:{ cbn [overlap_loop]. rewrite Hfi. apply lookup_ge_None in Hfi. rewrite take_ge in Hin |- * by lia. exists b, e. split; [done|]. split; [by intros f|]. by split. }
  pose proof (lookup_lt_Some _ _ _ Hfi) as Hlt. pose proof (list_elem_of_lookup_2 _ _ _ Hfi) as Hel. rewrite Forall_forall in Hf. pose proof (Hf f Hel) as Hk.
  rewrite (overlap_step _ _ _ _ _ _ _ f) by done. cbn [Z.eqb andb]. pose proof (take_filter (overlaps b e) files i f Hfi) as E.
  assert (∀ b' e', bound_ok b' → bound_ok e' → (outside b' e' files < outside b e files)%nat → widens b e b' e' →
    ∃ b'' e'', overlap_loop fuel 0 files 0 b' e' [] = Ok (List.filter (overlaps b'' e'') files) ∧ widens b e b'' e'' ∧ range_closed files b'' e'' ∧ bound_ok b'' ∧ bound_ok e'') as Hrestart.
  { intros b' e' Hb' He' Hless Hw. destruct (IH 0%nat b' e' Hb' He') as (b'' & e'' & E' & Hw' & Hrest); [lia| |by intros g ?%elem_of_nil|].
    - rewrite Nat.sub_0_r. assert (S (outside b' e' files) * S (length files) ≤ outside b e files * S (length files))%nat by (apply Nat.mul_le_mono_r; lia). cbn [Nat.mul] in *. lia.
    - exists b'', e''. split; [done|]. split; [|done]. intros g Hg. by apply Hw', Hw. }
  assert (overlaps b e f = false ∨ inside b e f = true → ∃ b' e', overlap_loop fuel 0 files (S i) b e (List.filter (overlaps b e) (take (S i) files)) = Ok (List.filter (overlaps b' e') files)
    ∧ widens b e b' e' ∧ range_closed files b' e' ∧ bound_ok b' ∧ bound_ok e') as Hstep.
  { intros Hcase. apply IH; [done|done|lia|lia|]. intros g Hg Ho. rewrite (take_S_r files i f Hfi) in Hg. apply elem_of_app in Hg as [Hg|Hg]; [by apply Hin|].
    apply list_elem_of_singleton in Hg as ->. destruct Hcase as [Hcase|Hcase]; [congruence|done]. }
  rewrite E in Hstep. destruct (overlaps b e f) eqn:Ho; cbn [negb]; [|rewrite app_nil_r in Hstep; apply Hstep; by left].
  destruct (ikey_user _ (proj1 Hk)) as [_ Hsk], (ikey_user _ (proj2 Hk)) as [_ Hlk].
  destruct (starts_before b f) eqn:Es; [apply Hrestart; [done|done|by apply outside_start|by apply widen_start]|].
  destruct (ends_after e f) eqn:Ee; [apply Hrestart; [done|done|by apply outside_end|by apply widen_end]|].
  apply Hstep. right. unfold inside. by rewrite Es, Ee.
Qed.

Definition user_bound (k : option (list byte)) : option (list byte) := ukey <$> k.

Lemma user_key_of_Ok k : match k with None => True | Some k => ikey k end → user_key_of k = Ok (user_bound k) ∧ bound_ok (user_bound k).
Proof. destruct k as [k|]; [|done]. intros Hk. destruct (ikey_user k Hk) as [E Ho]. cbn [user_key_of]. by rewrite E. Qed.

Lemma outside_bound b e files : (outside b e files ≤ 2 * length files)%nat.
Proof. unfold outside. pose proof (List.filter_length_le (starts_before b) files). pose proof (List.filter_length_le (ends_after e) files). lia. Qed.

(** The files that overlap a range: the given one, or at level 0 a wider one that holds whole files only. *)
Lemma GetOverlappingInputs_Ok v level files start limit : 0 ≤ level < kNumLevels → level_files v level = Ok files → Forall keys_ok files →
  match start with None => True | Some k => ikey k end → match limit with None => True | Some k => ikey k end →
  ∃ b e, GetOverlappingInputs v level start limit = Ok (List.filter (overlaps b e) files) ∧ widens (user_bound start) (user_bound limit) b e
    ∧ if level =? 0 then range_closed files b e else b = user_bound start ∧ e = user_bound limit.
Proof.
  intros Hl Hv Hf Hs He. unfold GetOverlappingInputs. rewrite !c_assert_true by lia. cbn [mbind res_bind].
  destruct (user_key_of_Ok start Hs) as [-> Hb], (user_key_of_Ok limit He) as [-> Hend]. cbn [mbind res_bind]. rewrite Hv. cbn [mbind res_bind].
  pose proof (outside_bound (user_bound start) (user_bound limit) files) as Ho. destruct (Z.eqb_spec level 0) as [->|Hne].
  - destruct (overlap_zero_Ok files Hf ((2 * length files + 1) * S (length files)) 0 _ _ Hb Hend) as (b & e & E & Hw & Hc & _); [lia| |by intros f ?%elem_of_nil|by exists b, e].
    rewrite Nat.sub_0_r. assert (outside (user_bound start) (user_bound limit) files * S (length files) ≤ 2 * length files * S (length files))%nat by (apply Nat.mul_le_mono_r; lia). lia.
  - exists (user_bound start), (user_bound limit). split; [|split; [by intros f|done]]. apply (overlap_level_Ok level files _ _ Hne Hf Hb Hend _ 0); lia.
Qed.

(** Two files with user keys between the same bounds. *)
Definition shares_keys (f g : FileMetaData) : bool := overlaps (Some (ukey (smallest f))) (Some (ukey (largest f))) g.

Lemma closed_shares files b e f g : range_closed files b e → f ∈ files → g ∈ files → overlaps b e f = true → shares_keys f g = true → overlaps b e g = true.
Proof.
  intros Hc Hf Hg Ho Hs. specialize (Hc f Hf Ho). unfold inside, shares_keys, overlaps in *. apply andb_true_iff in Hc as [Hb%negb_true_iff He%negb_true_iff], Hs as [Ha%negb_true_iff Hbe%negb_true_iff].
  cbn in Ha, Hbe. apply Z.ltb_ge in Hbe. apply Z.ltb_ge in Ha. apply andb_true_iff. split; apply negb_true_iff; [destruct b as [u|]|destruct e as [u|]]; try done; cbn in *; apply Z.ltb_ge.
  - apply Z.ltb_ge in Hb. pose proof (cmp_anti (c := c) (ukey (smallest f)) u). pose proof (cmp_trans (c := c) u (ukey (smallest f)) (ukey (largest g))). lia.
  - apply Z.ltb_ge in He. pose proof (cmp_anti (c := c) (ukey (largest f)) (ukey (smallest g))). pose proof (cmp_anti (c := c) u (ukey (smallest g))). pose proof (cmp_trans (c := c) (ukey (smallest g)) (ukey (largest f)) u). lia.
Qed.

(** ** Well-formed versions *)

Record version_ok (v : Version) : Prop := {
  vo_levels : length (files_ v) = Z.to_nat kNumLevels;
  vo_fine files : files ∈ files_ v → Forall file_fine files ∧ zlen files < 2^31;
  vo_disjoint level files : (0 < level)%nat → files_ v !! level = Some files → disjoint_files files }.

Lemma level_files_Ok v level : version_ok v → 0 ≤ level < kNumLevels →
  ∃ files, level_files v level = Ok files ∧ files_ v !! Z.to_nat level = Some files ∧ Forall file_fine files ∧ zlen files < 2^31 ∧ (0 < level → disjoint_files files).
Proof.
  intros Hv Hl. destruct (lookup_lt_is_Some_2 (files_ v) (Z.to_nat level)) as [files Hf]; [rewrite vo_levels by done; lia|]. exists files. unfold level_files. rewrite Hf.
  destruct (vo_fine v Hv files) as [Hfine Hlen]; [by eapply list_elem_of_lookup_2|]. split; [done|]. split; [done|]. split; [done|]. split; [done|].
  intros Hpos. apply (vo_disjoint v Hv (Z.to_nat level)); [lia|done].
Qed.

Definition no_overlap (v : Version) (small large : list byte) (level : Z) : Prop :=
  ∀ files f, files_ v !! Z.to_nat level = Some files → f ∈ files → overlaps (Some small) (Some large) f = false.

Lemma OverlapInLevel_Ok v level small large : version_ok v → 0 ≤ level < kNumLevels → okk small → okk large →
  ∃ r, OverlapInLevel v level (Some small) (Some large) = Ok r ∧ (r = false → no_overlap v small large level).
Proof.
  intros Hv Hl Hs Hlg. destruct (level_files_Ok v level Hv Hl) as (files & E & Hfl & Hf & Hlen & Hd). unfold OverlapInLevel. rewrite E. cbn [mbind res_bind].
  rewrite SomeFileOverlapsRange_Ok by (done || (intros; apply Hd; lia)). eexists. split; [done|]. intros Hno files' f Hf' Hin. rewrite Hfl in Hf'. injection Hf' as <-.
  destruct (overlaps (Some small) (Some large) f) eqn:Ho; [|done]. rewrite <-Hno. symmetry. apply existsb_exists. exists f. split; [by apply list_elem_of_In|done].
Qed.

Lemma pick_level_loop_Ok v small large start limit : version_ok v → okk small → okk large → ikey start → ikey limit → ∀ fuel level, 0 ≤ level ≤ kMaxMemCompactLevel → kMaxMemCompactLevel - level < Z.of_nat fuel →
  (∀ l, 0 ≤ l ≤ level → no_overlap v small large l) →
  ∃ r, pick_level_loop fuel v small large start limit level = Ok r ∧ 0 ≤ r ≤ kMaxMemCompactLevel ∧ ∀ l, 0 ≤ l ≤ r → no_overlap v small large l.
Proof.
  intros Hv Hs Hlg Hst Hli. induction fuel as [|fuel IH]; intros level Hl Hf Hno; [lia|]. cbn [pick_level_loop]. change kMaxMemCompactLevel with 2 in *. change kNumLevels with 7 in *.
  destruct (Z.ltb_spec level 2) as [Hlt|]; [|by exists level]. destruct (OverlapInLevel_Ok v (level + 1) small large Hv ltac:(change kNumLevels with 7; lia) Hs Hlg) as (r & -> & Hr). cbn [mbind res_bind].
  destruct r; [by exists level|]. rewrite (proj2 (Z.ltb_lt (level + 2) 7)) by lia. destruct (level_files_Ok v (level + 2) Hv) as (files & E & _ & Hff & _); [change kNumLevels with 7; lia|].
  destruct (GetOverlappingInputs_Ok v (level + 2) files (Some start) (Some limit)) as (b & e & -> & _); [change kNumLevels with 7; lia|done|by apply fine_keys_ok|done|done|].
  cbn [mbind res_bind mret res_ret]. destruct (kMaxGrandParentOverlapBytes <? _); [by exists level|]. apply IH; [lia|lia|]. intros l Hl'. destruct (decide (l = level + 1)) as [->|]; [by apply Hr|apply Hno; lia].
Qed.

Lemma PickLevel_Ok v small large : version_ok v → okk small → okk large →
  ∃ r, PickLevelForMemTableOutput v small large = Ok r ∧ 0 ≤ r ≤ kMaxMemCompactLevel ∧ (0 < r → ∀ l, 0 ≤ l ≤ r → no_overlap v small large l).
Proof.
  intros Hv Hs Hl. unfold PickLevelForMemTableOutput. destruct (OverlapInLevel_Ok v 0 small large Hv ltac:(by split) Hs Hl) as (r & -> & Hr). cbn [mbind res_bind].
  destruct r; cbn [negb]; [exists 0; split; [done|]; split; [by split|lia]|].
  assert (∀ s t, packable s t → ∀ u, okk u → new_InternalKey u s t = Ok (internal u s t) ∧ ikey (internal u s t)) as Hnew.
  { intros s t Hp u Hu. split; [by apply (AppendInternalKey_Ok [])|]. apply internal_ok_app; [by apply packable_range|done]. }
  destruct (Hnew kMaxSequenceNumber kValueTypeForSeek ltac:(by vm_compute) small Hs) as [-> Hk1], (Hnew 0 0 ltac:(by vm_compute) large Hl) as [-> Hk2]. cbn [mbind res_bind].
  destruct (pick_level_loop_Ok v small large _ _ Hv Hs Hl Hk1 Hk2 (S (Z.to_nat kMaxMemCompactLevel)) 0) as (r & E & Hr' & Hno); [by split|by vm_compute| |].
  - intros l Hl0. replace l with 0 by lia. by apply Hr.
  - exists r. split; [done|]. split; [done|]. intros _. exact Hno.
Qed.
End versions.
