(* ===== verification/VersionIters.v ===== *)
(** * Versions: what they hold, lookups, and their iterators

    The promises of a cache of tables, what a well-formed version holds, and the search through its levels.

    The iterator that concatenates the files of a level, the iterators that a version adds, and what they hold. *)
From Stdlib Require Import Strings.String.
From stdpp Require Import sorting.
From S2P Require Import Prelude Buffers CLib Order Coding Comparator Status DbFormat Block BlockProps Iterator IterProps TwoLevel TableFormat Table DbIterProps VersionEdit VersionSet VersionProps TwoLevelProps Merger MergerProps DbIterSpec.

#[local] Open Scope Z_scope.
#[local] Open Scope list_scope.

(** ** Caches of tables

    [tables n size es]: the file with number [n] and size [size] is a table of the entries [es]. A lookup calls the saver
    with the first entry that is not below the key, and may leave that out only if the entry has another user key. *)
Class TableCacheSpec {T I R : Type} `{Iterator T I} `{TableCache T I} (P : list R → T → Prop) (okk : list byte → Prop) (c : list byte → list byte → Z)
    (tables : Z → Z → list entry → Prop) := {
  tc_pos : list entry → I → nat → Prop;
  tc_owns : I → list R;
  tc_perm : Proper ((≡ₚ) ==> (=) ==> impl) P;
  tc_iter_spec n size es : tables n size es → IteratorSpec P (internal_ok okk) (internal_order c) es (tc_pos es) tc_owns;
  tc_NewIterator_spec options n size es frame t : tables n size es → P frame t →
    wp (tc_NewIterator options n size) (λ it t', tc_pos es it (length es) ∧ P (tc_owns it ++ frame) t') t;
  tc_Get_spec options n size es k frame t : tables n size es → internal_ok okk k → P frame t →
    wp (tc_Get options n size k) (λ r t', r.1 = OK ∧ P frame t' ∧
      match es !! rank (internal_order c) k es with
      | None => r.2 = None
      | Some e => r.2 = Some e ∨ r.2 = None ∧ c (user_part e.1) (user_part k) ≠ 0
      end) t }.

Section newest.
Context (c : list byte → list byte → Z) {Hord : CmpOrder c} (u : list byte) (s : Z).
#[local] Abbreviation ic := (internal_order c).
#[local] Existing Instance internal_cmp_order.
#[local] Abbreviation sorted_ic := (StronglySorted (λ a b : entry, ic a.1 b.1 < 0)).

(** The entries of the user key that the sequence number sees, and the newest one. *)
Definition candidate_of (e : entry) : Prop := c (e_user e) u = 0 ∧ e_seq e ≤ s.
Definition newest_entry (es : list entry) (e : entry) : Prop := e ∈ es ∧ candidate_of e ∧ ∀ e', e' ∈ es → candidate_of e' → tag_part e'.1 ≤ tag_part e.1.
Definition no_entry (es : list entry) : Prop := ∀ e, e ∈ es → ¬ candidate_of e.

Lemma newest_value_entry es v : newest_value c s es u v ↔ ∃ e, newest_entry es e ∧ e_user e = u ∧ e_type e ≠ kTypeDeletion ∧ e.2 = v.
Proof using Hord.
  split.
  - intros (e & He & Hu & Hv & Hs & Ht & Hn). exists e. split; [|done]. split; [done|]. split; [split; [rewrite Hu; apply (cmp_refl c)|done]|]. intros e' He' [Hc Hs']. by apply Hn.
  - intros (e & (He & [Hc Hs] & Hn) & Hu & Ht & Hv). exists e. split_and!; try done. intros e' He' Hc' Hs'. by apply Hn.
Qed.

Lemma newest_value_perm l1 l2 v : l1 ≡ₚ l2 → newest_value c s l1 u v ↔ newest_value c s l2 u v.
Proof using. intros Hp. unfold newest_value. by setoid_rewrite Hp. Qed.

(** Older entries do not matter, nor do those without a candidate. *)
Definition newer (l1 l2 : list entry) : Prop := ∀ a b, a ∈ l1 → b ∈ l2 → c (e_user a) (e_user b) = 0 → tag_part b.1 < tag_part a.1.

Lemma newest_app_l l1 l2 e : newest_entry l1 e → newer l1 l2 → newest_entry (l1 ++ l2) e.
Proof using Hord.
  intros (He & Hc & Hn) Hnew. split; [apply elem_of_app; by left|]. split; [done|]. intros e' [He'|He']%elem_of_app Hc'; [by apply Hn|].
  destruct Hc as [Hc _], Hc' as [Hc' _]. assert (c (e_user e) (e_user e') = 0) as E; [|specialize (Hnew e e' He He' E); lia].
  pose proof (cmp_eq_l c (e_user e) u (e_user e') Hc). pose proof (cmp_anti (c := c) u (e_user e')). lia.
Qed.

Lemma newest_app_r l1 l2 e : no_entry l1 → newest_entry l2 e → newest_entry (l1 ++ l2) e.
Proof using.
  intros Hno (He & Hc & Hn). split; [apply elem_of_app; by right|]. split; [done|]. intros e' [He'|He']%elem_of_app Hc'; [by exfalso; apply (Hno e' He')|by apply Hn].
Qed.

Lemma no_entry_app l1 l2 : no_entry (l1 ++ l2) ↔ no_entry l1 ∧ no_entry l2.
Proof using.
  split.
  - intros Hn. split; intros e He; apply Hn, elem_of_app; [by left|by right].
  - intros [H1 H2] e [He|He]%elem_of_app; [by apply H1|by apply H2].
Qed.

Lemma newest_perm l1 l2 e : l1 ≡ₚ l2 → newest_entry l1 e → newest_entry l2 e.
Proof using. intros Hp (He & Hc & Hn). split; [by rewrite <-Hp|]. split; [done|]. intros e' He'. apply Hn. by rewrite Hp. Qed.

Lemma no_entry_perm l1 l2 : l1 ≡ₚ l2 → no_entry l1 → no_entry l2.
Proof using. intros Hp Hn e He. apply Hn. by rewrite Hp. Qed.

Definition newer_check (l1 l2 : list entry) : bool := forallb (λ a, forallb (λ b, negb (c (e_user a) (e_user b) =? 0) || (tag_part b.1 <? tag_part a.1)) l2) l1.

Lemma newer_checked l1 l2 : newer_check l1 l2 = true → newer l1 l2.
Proof using.
  unfold newer_check. rewrite forallb_forall. intros H a b Ha%list_elem_of_In Hb%list_elem_of_In E. specialize (H a Ha). rewrite forallb_forall in H. specialize (H b Hb).
  rewrite E in H. apply Z.ltb_lt. by destruct (_ <? _).
Qed.

(** Sorted entries: the first one that is not below the lookup key. *)
Definition lookup_key : list byte := internal u s kValueTypeForSeek.

Lemma below_lookup e : 0 ≤ s ≤ kMaxSequenceNumber → e_type e ≤ kTypeValue → ic e.1 lookup_key < 0 ↔ c (e_user e) u < 0 ∨ c (e_user e) u = 0 ∧ s < e_seq e.
Proof using.
  intros Hs Hty. assert (packable s kValueTypeForSeek) as Hp by (split; [done|unfold kValueTypeForSeek, kTypeValue; lia]). destruct (internal_parts u s kValueTypeForSeek Hp) as [Eu Et].
  unfold lookup_key. rewrite internal_order_parts, Eu, Et. unfold e_user, e_seq, e_type, pack, kValueTypeForSeek, kTypeValue in *. pose proof (Z.div_mod (tag_part e.1) 256 ltac:(lia)).
  pose proof (Z.mod_pos_bound (tag_part e.1) 256 ltac:(lia)). destruct (Z.eqb_spec (c (user_part e.1) u) 0) as [E|]; [rewrite E|]; lia.
Qed.

Lemma sorted_newest es : 0 ≤ s ≤ kMaxSequenceNumber → sorted_ic es → Forall (λ e, e_type e ≤ kTypeValue) es →
  match es !! rank ic lookup_key es with
  | Some e => (c (e_user e) u = 0 → newest_entry es e) ∧ (c (e_user e) u ≠ 0 → no_entry es)
  | None => no_entry es
  end.
Proof using Hord.
  intros Hs Hsort Hty. rewrite Forall_forall in Hty. set (r := rank ic lookup_key es).
  assert (∀ i e, es !! i = Some e → candidate_of e → (r ≤ i)%nat) as Hr.
  { intros i e He [Hc Hse]. destruct (decide (i < r)%nat) as [Hlt|]; [|lia]. pose proof (rank_below (c := ic) _ _ _ _ Hlt He) as Hb. apply below_lookup in Hb; [|done|by eapply Hty, list_elem_of_lookup_2]. lia. }
  destruct (es !! r) as [e|] eqn:He.
  2:{ intros e' [i Hi]%list_elem_of_lookup Hc. apply lookup_ge_None in He. pose proof (Hr i e' Hi Hc). apply lookup_lt_Some in Hi. lia. }
  pose proof (rank_at (c := ic) _ _ _ He) as Hge. pose proof (below_lookup e Hs (Hty e (list_elem_of_lookup_2 _ _ _ He))) as Hbelow.
  assert (∀ i e', es !! i = Some e' → candidate_of e' → e' = e ∨ ic e.1 e'.1 < 0) as Hafter.
  { intros i [k' v'] Hi Hc. destruct e as [k v]. destruct (decide (i = r)) as [->|Hne]; [left; congruence|right]. pose proof (Hr i _ Hi Hc).
    apply (sorted_lt (c := ic) es Hsort r i k v k' v'); [done|done|lia]. }
  split.
  - intros Hc. split; [by eapply list_elem_of_lookup_2|]. split; [split; [done|lia]|]. intros e' [i Hi]%list_elem_of_lookup Hc'. destruct (Hafter i e' Hi Hc') as [->|Hlt]; [lia|].
    rewrite internal_order_parts in Hlt. destruct Hc' as [Hc' _]. unfold e_user in *. pose proof (cmp_eq_l c (user_part e.1) u (user_part e'.1) Hc). pose proof (cmp_anti (c := c) u (user_part e'.1)).
    destruct (Z.eqb_spec (c (user_part e.1) (user_part e'.1)) 0); lia.
  - intros Hne e' [i Hi]%list_elem_of_lookup Hc'. destruct (Hafter i e' Hi Hc') as [->|Hlt]; [by destruct Hc'|]. destruct Hc' as [Hc' _]. apply Z.lt_le_incl, internal_order_le in Hlt. fold (e_user e) (e_user e') in Hlt.
    destruct Hbelow as [_ Hb]. assert (¬ c (e_user e) u < 0) by (intros Hu; specialize (Hb (or_introl Hu)); lia). pose proof (cmp_anti (c := c) (e_user e) u). pose proof (cmp_anti (c := c) u (e_user e')). pose proof (cmp_anti (c := c) (e_user e) (e_user e')).
    pose proof (cmp_trans (c := c) (e_user e) (e_user e') u). lia.
Qed.
End newest.

Lemma NoDup_filter_fmap {A B} (f : A → B) (p : A → bool) l : NoDup (f <$> l) → NoDup (f <$> List.filter p l).
Proof.
  induction l as [|x l IH]; [done|]. rewrite fmap_cons. intros [Hx Hl]%NoDup_cons. cbn [List.filter]. destruct (p x); [|by apply IH]. rewrite fmap_cons. apply NoDup_cons. split; [|by apply IH].
  intros Hin. apply Hx. apply list_elem_of_fmap in Hin as (y & -> & Hy). apply list_elem_of_fmap_2. apply list_elem_of_In, filter_In in Hy as [Hy _]. by apply list_elem_of_In.
Qed.

(** ** What a version holds *)

Section versions.
Context {C : Comparator} {okk : list byte → Prop} {c : list byte → list byte → Z} {Hspec : ComparatorSpec C okk c}.
Context {T I R : Type} `{HI : Iterator T I} {HTC : TableCache T I} {P : list R → T → Prop} {tables : Z → Z → list entry → Prop} {HT : TableCacheSpec P okk c tables}.
#[local] Abbreviation ic := (internal_order c).
#[local] Abbreviation sorted_ic := (StronglySorted (λ a b : entry, ic a.1 b.1 < 0)).
#[local] Instance get_order : CmpOrder c := @spec_order _ _ _ Hspec.
#[local] Existing Instance internal_cmp_order.

(** The entries of each file: those of a table, from its smallest key to its largest one. *)
Context (data : FileMetaData → list entry).
Record file_holds (f : FileMetaData) : Prop := {
  fh_table : tables (number f) (file_size f) (data f);
  fh_numbers : 0 ≤ number f < 2^64 ∧ 0 ≤ file_size f < 2^64;
  fh_sorted : sorted_ic (data f);
  fh_fine : Forall (entry_fine (okk := okk)) (data f);
  fh_first : ∃ e l, data f = e :: l ∧ e.1 = smallest f;
  fh_last : ∃ l e, data f = l ++ [e] ∧ e.1 = largest f }.

Definition level_entries (files : list FileMetaData) : list entry := concat (data <$> files).

(** Levels other than 0 have no overlaps; what is in a level, or in a file of level 0 with a larger number, is newer
    than what is in the levels after it, or in the files with smaller numbers. *)
Record version_holds (v : Version) : Prop := {
  vh_levels : length (files_ v) = Z.to_nat kNumLevels;
  vh_files files f : files ∈ files_ v → f ∈ files → file_holds f;
  vh_short files : files ∈ files_ v → zlen files < 2^31;
  vh_disjoint i files : (0 < i)%nat → files_ v !! i = Some files → disjoint_files (c := c) files;
  vh_zero files f g : files_ v !! 0%nat = Some files → f ∈ files → g ∈ files → number g < number f → newer c (data f) (data g);
  vh_numbers files : files ∈ files_ v → NoDup (number <$> files);
  vh_newer : StronglySorted (λ fs gs, newer c (level_entries fs) (level_entries gs)) (files_ v) }.

Definition version_entries (v : Version) : list entry := concat (level_entries <$> files_ v).

Lemma file_last f : file_holds f → ∃ e, last (data f) = Some e ∧ e ∈ data f ∧ e.1 = largest f.
Proof using. intros Hf. destruct (fh_last f Hf) as (l & e & E & Ek). exists e. rewrite E, last_snoc. split; [done|]. split; [apply elem_of_app; right; by left|done]. Qed.

Lemma file_first f : file_holds f → ∃ e, e ∈ data f ∧ e.1 = smallest f ∧ ∀ x, x ∈ data f → ic e.1 x.1 ≤ 0.
Proof using Hspec.
  intros Hf. destruct (fh_first f Hf) as (e & l & E & Ek). exists e. pose proof (fh_sorted f Hf) as Hs. rewrite E in *. split; [by left|]. split; [done|].
  intros x [->|Hx]%elem_of_cons; [by rewrite (cmp_refl ic)|]. apply StronglySorted_inv in Hs as [_ Hs]. rewrite Forall_forall in Hs. specialize (Hs x Hx). cbn in Hs. lia.
Qed.

Lemma file_range f e : file_holds f → e ∈ data f → ic (smallest f) e.1 ≤ 0 ∧ ic e.1 (largest f) ≤ 0.
Proof using Hspec.
  intros Hf He. split; [destruct (file_first f Hf) as (x & _ & <- & Hx); by apply Hx|]. destruct (fh_last f Hf) as (l & x & E & <-). pose proof (fh_sorted f Hf) as Hs. rewrite E in *.
  apply elem_of_app in He as [He|He]; [|apply list_elem_of_singleton in He as ->; by rewrite (cmp_refl ic)].
  assert (ic e.1 x.1 < 0); [|lia]. apply (StronglySorted_app_1_elem_of (λ a b : entry, ic a.1 b.1 < 0) l [x]); [done|done|by left].
Qed.

Lemma holds_fine f : file_holds f → file_fine (c := c) (okk := okk) f.
Proof using Hspec.
  intros Hf. pose proof (fh_fine f Hf) as Hfine. rewrite Forall_forall in Hfine. destruct (file_first f Hf) as (e & He & Ee & _), (file_last f Hf) as (e' & _ & He' & Ee').
  destruct (Hfine e He) as (Hk & Hty & _), (Hfine e' He') as (Hk' & Hty' & _). unfold e_type in *. rewrite Ee, Ee' in *. split; [by split|]. split; [done|]. split; [done|].
  rewrite <-Ee. by apply (file_range f e Hf He).
Qed.

Lemma version_holds_ok v : version_holds v → version_ok (c := c) (okk := okk) v.
Proof using Hspec.
  intros Hv. split; [by apply vh_levels| |by apply vh_disjoint]. intros files Hf. split; [|by apply (vh_short v Hv)]. apply Forall_forall. intros f Hin. by apply holds_fine, (vh_files v Hv files).
Qed.

(** A level other than 0 is sorted. *)
Lemma level_sorted files : Forall file_holds files → disjoint_files (c := c) files → sorted_ic (level_entries files).
Proof using Hspec.
  intros Hf Hd. induction Hd as [|f files Hd IH Hall]; [constructor|]. apply Forall_cons in Hf as [Hf1 Hf]. unfold level_entries. cbn [fmap list_fmap concat].
  apply StronglySorted_app_2; [|by apply fh_sorted|by apply IH]. intros a b Ha Hb. apply elem_concat in Hb as (i & l & Hl & Hb). rewrite list_lookup_fmap in Hl.
  destruct (files !! i) as [g|] eqn:Hg; [|done]. injection Hl as <-. apply list_elem_of_lookup_2 in Hg. rewrite Forall_forall in Hf, Hall.
  apply (cmp_le_lt ic _ (largest f)); [by apply (file_range f)|]. apply (cmp_lt_le ic _ (smallest g)); [exact (Hall g Hg)|]. by apply (file_range g b (Hf g Hg)).
Qed.

(** ** One file *)

Context (u : list byte) (s : Z) (Hu : okk u) (Hs : 0 ≤ s ≤ kMaxSequenceNumber).
#[local] Abbreviation ikey := (lookup_key u s).
#[local] Abbreviation newest es e := (newest_entry c u s es e).
#[local] Abbreviation none es := (no_entry c u s es).

Definition not_found : Status := status_of Status.kNotFound [] [].
(** What a lookup answers when it finds an entry. *)
Definition answer_of (value : list byte) (e : entry) : Status * list byte := if e_type e =? kTypeDeletion then (not_found, value) else (OK, e.2).

Lemma packable_seek : packable s kValueTypeForSeek.
Proof using Hs. split; [done|]. unfold kValueTypeForSeek, kTypeValue. lia. Qed.

Lemma lookup_key_ok : internal_ok okk ikey ∧ user_part ikey = u.
Proof using Hs Hu. split; [apply internal_ok_app; [apply packable_range, packable_seek|done]|apply internal_parts, packable_seek]. Qed.

Lemma fine_types es : Forall (entry_fine (okk := okk)) es → Forall (λ e, e_type e ≤ kTypeValue) es.
Proof using. intros H. eapply Forall_impl; [exact H|]. by intros e (_ & ? & _). Qed.

Lemma tc_Get_Ok options f frame t : file_holds f → P frame t → wp (tc_Get options (number f) (file_size f) ikey) (λ r t', r.1 = OK ∧ P frame t'
  ∧ ((∃ e, newest (data f) e ∧ r.2 = Some e) ∨ none (data f) ∧ (r.2 = None ∨ ∃ e, e ∈ data f ∧ r.2 = Some e ∧ c (e_user e) u ≠ 0))) t.
Proof using HT Hspec Hs Hu.
  intros Hf HP. destruct lookup_key_ok as [Hk Eu]. apply (wp_mono _ _ _ _ (tc_Get_spec options _ _ _ ikey frame t (fh_table f Hf) Hk HP)). intros r t' (Hst & HP' & Hr). split; [done|]. split; [done|].
  pose proof (sorted_newest c u s (data f) Hs (fh_sorted f Hf) (fine_types _ (fh_fine f Hf))) as Hn. destruct (data f !! rank ic ikey (data f)) as [e|] eqn:He.
  - destruct Hn as [Hyes Hno]. rewrite Eu in Hr. fold (e_user e) in Hr. destruct (decide (c (e_user e) u = 0)) as [E|Hne].
    + left. exists e. split; [by apply Hyes|]. by destruct Hr as [?|[_ ?]].
    + right. split; [by apply Hno|]. destruct Hr as [Hr|[Hr _]]; [right|by left]. exists e. split; [by eapply list_elem_of_lookup_2|done].
  - right. split; [done|]. by left.
Qed.

Lemma SaveValue_Ok e value : entry_fine (okk := okk) e → SaveValue u value e.1 e.2 =
  Ok (if c (e_user e) u =? 0 then if e_type e =? kTypeDeletion then (kDeleted, value) else (kFound, e.2) else (kNotFound, value)).
Proof using Hspec Hu.
  intros ((H8 & Hk) & Hty & _). unfold SaveValue. rewrite ParseInternalKey_Ok by done. cbn [mbind res_bind]. unfold e_type, kTypeValue, e_user in *. rewrite (proj2 (Z.leb_le _ _) Hty).
  cbn [DbFormat.user_key type]. rewrite (Compare_spec _ u Hk Hu). cbn [mbind res_bind]. destruct (c (user_part e.1) u =? 0); [|done].
  pose proof (Z.mod_pos_bound (tag_part e.1) 256 ltac:(lia)). unfold kTypeDeletion. destruct (Z.eqb_spec (tag_part e.1 mod 256) 1), (Z.eqb_spec (tag_part e.1 mod 256) 0); try done; lia.
Qed.

Lemma newest_candidate es e : newest es e → e ∈ es ∧ c (e_user e) u = 0.
Proof using. by intros (He & [Hc _] & _). Qed.

Lemma search_files_Ok options level value files : Forall file_holds files → ∀ last stats frame t, P frame t →
  wp (search_files options level files ikey u value last stats) (λ r t', P frame t' ∧ match r.1.1 with
    | Some a => ∃ pre f post e, files = pre ++ f :: post ∧ none (level_entries pre) ∧ newest (data f) e ∧ a = answer_of value e
    | None => none (level_entries files)
    end) t.
Proof using HT Hspec Hs Hu.
  induction 1 as [|f files Hf _ IH]; intros last stats frame t HP; [apply wp_ret; split; [done|by intros e ?%elem_of_nil]|]. cbn [search_files]. apply wp_bind.
  apply (wp_mono _ _ _ _ (tc_Get_Ok options f frame t Hf HP)). intros [st saved] t1 (Est & HP1 & Hcase). cbn [fst snd] in *. subst st. change (ok OK) with true. cbn [negb].
  pose proof (fh_fine f Hf) as Hfine. rewrite Forall_forall in Hfine.
  assert (∀ last stats, none (data f) → wp (search_files options level files ikey u value last stats) (λ r t', P frame t' ∧ match r.1.1 with
    | Some a => ∃ pre f' post e, f :: files = pre ++ f' :: post ∧ none (level_entries pre) ∧ newest (data f') e ∧ a = answer_of value e
    | None => none (level_entries (f :: files)) end) t1) as Hnext.
  { intros last' stats' Hno. apply (wp_mono _ _ _ _ (IH last' stats' frame t1 HP1)). intros [[answer ?] ?] t2 [HP2 Ha]. split; [done|]. cbn [fst] in *. destruct answer as [a|].
    - destruct Ha as (pre & f' & post & e & -> & Hpre & He & ->). exists (f :: pre), f', post, e. split; [done|]. split; [|done]. unfold level_entries. cbn [fmap list_fmap concat]. by apply no_entry_app.
    - unfold level_entries. cbn [fmap list_fmap concat]. by apply no_entry_app. }
  destruct Hcase as [(e & He & ->)|(Hno & [->|(e & He & -> & Hne)])].
  - destruct (newest_candidate _ e He) as [Hin Hc]. pose proof (SaveValue_Ok e value (Hfine e Hin)) as E. rewrite Hc in E. destruct e as [k v]. apply wp_bind, (wp_lift _ _ _ _ E). cbn [Z.eqb].
    assert (∃ pre f' post e, f :: files = pre ++ f' :: post ∧ none (level_entries pre) ∧ newest (data f') e ∧ answer_of value (k, v) = answer_of value e) as Hans.
    { exists [], f, files, (k, v). split; [done|]. split; [by intros x ?%elem_of_nil|]. by split. }
    unfold answer_of at 1 in Hans. destruct (e_type (k, v) =? kTypeDeletion); [|by apply wp_ret].
    apply wp_bind, (wp_lift _ not_found); [by vm_compute|]. by apply wp_ret.
  - apply wp_bind, wp_ret. by apply Hnext.
  - pose proof (SaveValue_Ok e value (Hfine e He)) as E. rewrite (proj2 (Z.eqb_neq _ _) Hne) in E. destruct e as [k v]. apply wp_bind, (wp_lift _ _ _ _ E). by apply Hnext.
Qed.

(** ** One level *)

(** The files that are searched hold the newest entry of their level. *)
Definition searched_right (files searched : list FileMetaData) : Prop :=
  Forall file_holds searched ∧ (none (level_entries searched) → none (level_entries files))
  ∧ ∀ pre f post e, searched = pre ++ f :: post → none (level_entries pre) → newest (data f) e → newest (level_entries files) e.

Lemma level_elem files e : e ∈ level_entries files ↔ ∃ f, f ∈ files ∧ e ∈ data f.
Proof using.
  unfold level_entries. rewrite elem_concat. split.
  - intros (i & l & Hl & He). rewrite list_lookup_fmap in Hl. destruct (files !! i) as [f|] eqn:Hf; [|done]. injection Hl as <-. exists f. split; [by eapply list_elem_of_lookup_2|done].
  - intros (f & [i Hf]%list_elem_of_lookup & He). exists i, (data f). by rewrite list_lookup_fmap, Hf.
Qed.

Definition user_inside (f : FileMetaData) : bool := (0 <=? c u (user_part (smallest f))) && (c u (user_part (largest f)) <=? 0).

Lemma holding_Ok files : Forall file_holds files → holding u files = Ok (List.filter user_inside files).
Proof using Hspec Hu.
  induction 1 as [|f files Hf _ IH]; [done|]. cbn [holding List.filter]. destruct (holds_fine f Hf) as ([Hsm Hlg] & _). destruct (ikey_user (okk := okk) _ Hsm) as [-> Hsk], (ikey_user (okk := okk) _ Hlg) as [-> Hlk].
  cbn [mbind res_bind]. rewrite (Compare_spec u _ Hu Hsk). cbn [mbind res_bind]. unfold user_inside at 1. destruct (0 <=? c u (user_part (smallest f))); cbn [andb].
  - rewrite (Compare_spec u _ Hu Hlk). cbn [mbind res_bind mret res_ret]. rewrite IH. cbn [mbind res_bind]. by destruct (_ <=? 0).
  - cbn [mbind res_bind mret res_ret]. rewrite IH. done.
Qed.

Lemma candidate_inside f e : file_holds f → e ∈ data f → candidate_of c u s e → user_inside f = true.
Proof using Hspec.
  intros Hf He [Hc _]. destruct (file_range f e Hf He) as [H1%internal_order_le H2%internal_order_le]. unfold user_inside, e_user in *. apply andb_true_iff. split; apply Z.leb_le.
  - pose proof (cmp_trans (c := c) (user_part (smallest f)) (user_part e.1) u). pose proof (cmp_anti (c := c) (user_part (smallest f)) u). lia.
  - pose proof (cmp_trans (c := c) u (user_part e.1) (user_part (largest f))). pose proof (cmp_anti (c := c) u (user_part e.1)). lia.
Qed.

Lemma sorted_newest_first l : StronglySorted NewestFirst (merge_sort NewestFirst l).
Proof using. apply Sorted_StronglySorted; [intros a b d; unfold NewestFirst; lia|]. apply Sorted_merge_sort. intros a b. unfold NewestFirst. lia. Qed.

Lemma search_zero_Ok files : Forall file_holds files → NoDup (number <$> files) → (∀ f g, f ∈ files → g ∈ files → number g < number f → newer c (data f) (data g)) →
  ∃ l, files_to_search 0 files ikey u = Ok l ∧ searched_right files l.
Proof using Hspec Hu.
  intros Hf Hnd Hnew. unfold files_to_search. cbn [Z.eqb]. rewrite holding_Ok by done. cbn [mbind res_bind]. eexists. split; [done|].
  set (l := merge_sort NewestFirst (List.filter user_inside files)). assert (l ≡ₚ List.filter user_inside files) as Hp by apply merge_sort_Permutation.
  assert (∀ f, f ∈ l ↔ f ∈ files ∧ user_inside f = true) as Hl by (intros f; rewrite Hp, !list_elem_of_In; apply filter_In). rewrite Forall_forall in Hf.
  split; [apply Forall_forall; intros f Hfl; apply Hf, Hl, Hfl|]. split.
  - intros Hno e (f & Hfl & He)%level_elem Hc. apply (Hno e); [|done]. apply level_elem. exists f. split; [|done]. apply Hl. split; [done|]. by apply (candidate_inside f e (Hf f Hfl)).
  - intros pre f post e E Hpre He. assert (f ∈ l) as Hfl by (rewrite E; apply elem_of_app; right; by left). destruct (proj1 (Hl f) Hfl) as [Hff _]. destruct He as (He & Hc & Hn).
    split; [apply level_elem; by exists f|]. split; [done|]. intros e' (g & Hg & He')%level_elem Hc'. assert (g ∈ l) as Hgl by (apply Hl; split; [done|by apply (candidate_inside g e' (Hf g Hg))]).
    rewrite E in Hgl. apply elem_of_app in Hgl as [Hgl|[->|Hgl]%elem_of_cons]; [|by apply Hn|].
    + destruct (Hpre e'); [|done]. apply level_elem. by exists g.
    + pose proof (sorted_newest_first (List.filter user_inside files)) as Hsort. fold l in Hsort. rewrite E in Hsort. apply StronglySorted_app_1_r in Hsort. apply StronglySorted_inv in Hsort as [_ Hsort].
      rewrite Forall_forall in Hsort. pose proof (Hsort g Hgl) as Hle. unfold NewestFirst in Hle.
      assert (number g ≠ number f) as Hne.
      { assert (NoDup (number <$> l)) as Hndl by (rewrite Hp; by apply NoDup_filter_fmap). rewrite E, fmap_app, fmap_cons in Hndl. apply NoDup_app in Hndl as (_ & _ & Hndl).
        apply NoDup_cons in Hndl as [Hndl _]. intros En. apply Hndl. rewrite <-En. by apply list_elem_of_fmap_2. }
      destruct Hc as [Hc _], Hc' as [Hc' _]. assert (c (e_user e) (e_user e') = 0) as Ec.
      { pose proof (cmp_eq_l c (e_user e) u (e_user e') Hc). pose proof (cmp_anti (c := c) u (e_user e')). lia. }
      pose proof (Hnew f g Hff Hg ltac:(lia) e e' He He' Ec). lia.
Qed.

Section other_level.
Context (files : list FileMetaData) (Hf : Forall file_holds files) (Hd : disjoint_files (c := c) files).
#[local] Abbreviation r := (rank ic ikey (index_of files)).

Lemma not_below e : e_type e ≤ kTypeValue → candidate_of c u s e → 0 ≤ ic e.1 ikey.
Proof using Hs.
  intros Hty [Hc Hse]. destruct (decide (ic e.1 ikey < 0)) as [Hb|]; [|lia]. apply below_lookup in Hb; [|done|done]. lia.
Qed.

Lemma candidate_after i g e : files !! i = Some g → e ∈ data g → candidate_of c u s e → (r ≤ i)%nat.
Proof using Hspec Hs Hf.
  intros Hg He Hc. destruct (decide (i < r)%nat) as [Hlt|]; [|lia]. exfalso. rewrite Forall_forall in Hf. pose proof (Hf g (list_elem_of_lookup_2 _ _ _ Hg)) as Hh.
  pose proof (rank_below (c := ic) _ _ _ _ Hlt (index_lookup _ _ _ Hg)) as Hb. cbn in Hb. pose proof (fine_types _ (fh_fine g Hh)) as Hty. rewrite Forall_forall in Hty.
  pose proof (not_below e (Hty e He) Hc). destruct (file_range g e Hh He) as [_ Hl]. pose proof (cmp_le_lt ic e.1 (largest g) ikey). lia.
Qed.

Lemma files_apart i j f g x y : files !! i = Some f → files !! j = Some g → (i < j)%nat → x ∈ data f → y ∈ data g → ic x.1 y.1 < 0.
Proof using Hspec Hf Hd.
  intros Hi Hj Hij Hx Hy. rewrite Forall_forall in Hf. pose proof (Hf f (list_elem_of_lookup_2 _ _ _ Hi)) as Hff. pose proof (Hf g (list_elem_of_lookup_2 _ _ _ Hj)) as Hfg.
  assert (ic (largest f) (smallest g) < 0) as Hfg'.
  { apply list_elem_of_split_length in Hi as (l1 & l2 & E & El). rewrite E in Hd, Hj. apply StronglySorted_app_1_r in Hd. apply StronglySorted_inv in Hd as [_ Hall]. rewrite Forall_forall in Hall.
    apply (Hall g). rewrite lookup_app_r in Hj by lia. apply list_elem_of_lookup. exists (j - length l1 - 1)%nat. replace (j - length l1)%nat with (S (j - length l1 - 1)) in Hj by lia. exact Hj. }
  destruct (file_range f x Hff Hx) as [_ H1], (file_range g y Hfg Hy) as [H2 _]. apply (cmp_le_lt ic _ (largest f)); [done|]. by apply (cmp_lt_le ic _ (smallest g)).
Qed.

(** The last entry of the file at the rank is not below the lookup key. *)
Lemma no_candidate_after f : files !! r = Some f → none (data f) → none (level_entries files).
Proof using Hspec Hs Hf Hd.
  intros Hr Hno e (g & [i Hi]%list_elem_of_lookup & He)%level_elem Hc. pose proof (candidate_after i g e Hi He Hc) as Hle. pose proof Hf as Hf'. rewrite Forall_forall in Hf'.
  destruct (decide (i = r)) as [->|Hne]; [rewrite Hr in Hi; injection Hi as <-; by apply (Hno e)|]. pose proof (Hf' f (list_elem_of_lookup_2 _ _ _ Hr)) as Hh.
  destruct (file_last f Hh) as (x & _ & Hx & Ex). pose proof (rank_at (c := ic) _ _ _ (index_lookup _ _ _ Hr)) as Hge. cbn in Hge. rewrite <-Ex in Hge.
  pose proof (fine_types _ (fh_fine f Hh)) as Hty. rewrite Forall_forall in Hty. pose proof (below_lookup c u s x Hs (Hty x Hx)) as [_ Hb].
  pose proof (files_apart r i f g x e Hr Hi ltac:(lia) Hx He) as Hxe. apply Z.lt_le_incl, internal_order_le in Hxe. fold (e_user x) (e_user e) in Hxe. destruct Hc as [Hc Hse].
  assert (c (e_user x) u ≤ 0) as Hxu by (apply (cmp_trans (c := c) _ (e_user e)); [done|lia]).
  destruct (decide (c (e_user x) u < 0)) as [Hlt|]; [specialize (Hb (or_introl Hlt)); lia|]. assert (c (e_user x) u = 0) as E0 by lia.
  destruct (decide (s < e_seq x)) as [Hlt|]; [specialize (Hb (or_intror (conj E0 Hlt))); lia|]. apply (Hno x Hx). split; [done|lia].
Qed.

Lemma search_level_Ok level : level ≠ 0 → zlen files < 2^31 → ∃ l, files_to_search level files ikey u = Ok l ∧ searched_right files l.
Proof using Hspec Hs Hu Hf Hd.
  intros Hlv Hlen. pose proof (fine_keys_ok (c := c) (okk := okk) files) as Hkeys. assert (Forall (file_fine (c := c) (okk := okk)) files) as Hfine by (eapply Forall_impl; [exact Hf|apply holds_fine]).
  pose proof (rank_le (c := ic) ikey (index_of files)) as Hr. unfold index_of in Hr at 2. rewrite length_fmap in Hr.
  unfold files_to_search. rewrite (proj2 (Z.eqb_neq _ _) Hlv). rewrite (FindFile_Ok files ikey (Hkeys Hfine) (disjoint_by_largest files Hfine Hd) Hlen (proj1 lookup_key_ok)). cbn [mbind res_bind]. rewrite u32_small by lia.
  pose proof Hf as Hf'. rewrite Forall_forall in Hf'. destruct (files !! r) as [f|] eqn:Hfr.
  2:{ apply lookup_ge_None in Hfr. rewrite (proj2 (Z.leb_le _ _)) by lia. exists []. split; [done|]. split; [constructor|]. split; [|by intros [] ? ? ? ?].
      intros _ e (g & [i Hi]%list_elem_of_lookup & He)%level_elem Hc. pose proof (candidate_after i g e Hi He Hc). apply lookup_lt_Some in Hi. lia. }
  pose proof (lookup_lt_Some _ _ _ Hfr) as Hlt. rewrite (proj2 (Z.leb_gt _ _)) by lia. rewrite Nat2Z.id, Hfr. cbn [of_option mbind res_bind]. pose proof (Hf' f (list_elem_of_lookup_2 _ _ _ Hfr)) as Hh.
  destruct (holds_fine f Hh) as ([Hsm _] & _). destruct (ikey_user (okk := okk) _ Hsm) as [-> Hsk]. cbn [mbind res_bind]. rewrite (Compare_spec u _ Hu Hsk). cbn [mbind res_bind].
  eexists. split; [done|]. destruct (Z.ltb_spec (c u (user_part (smallest f))) 0) as [Hb|Hb].
  - assert (none (data f)) as Hno.
    { intros e He Hc. pose proof (candidate_inside f e Hh He Hc) as Hin. unfold user_inside in Hin. apply andb_true_iff in Hin as [Hin%Z.leb_le _]. lia. }
    split; [constructor|]. split; [intros _; by apply (no_candidate_after f)|by intros [] ? ? ? ?].
  - split; [by constructor|]. split; [intros Hno; apply (no_candidate_after f Hfr); intros e He; apply Hno, level_elem; exists f; split; [by left|done]|].
    intros pre f' post e E _ (He & Hc & Hn). assert (f' = f) as -> by (destruct pre as [|? [|]]; cbn in E; congruence).
    split; [apply level_elem; exists f; split; [by eapply list_elem_of_lookup_2|done]|]. split; [done|]. intros e' (g & [i Hi]%list_elem_of_lookup & He')%level_elem Hc'.
    pose proof (candidate_after i g e' Hi He' Hc') as Hle. destruct (decide (i = r)) as [->|Hne]; [rewrite Hfr in Hi; injection Hi as <-; by apply Hn|].
    pose proof (files_apart r i f g e e' Hfr Hi ltac:(lia) He He') as Hee. rewrite internal_order_parts in Hee. destruct Hc as [Hc _], Hc' as [Hc' _]. unfold e_user in *.
    pose proof (cmp_eq_l c (user_part e.1) u (user_part e'.1) Hc). pose proof (cmp_anti (c := c) u (user_part e'.1)). destruct (Z.eqb_spec (c (user_part e.1) (user_part e'.1)) 0); lia.
Qed.
End other_level.

(** ** All levels *)

Definition level_good (level : nat) (files : list FileMetaData) : Prop :=
  Forall file_holds files ∧ zlen files < 2^31 ∧ (level = 0%nat → NoDup (number <$> files) ∧ ∀ f g, f ∈ files → g ∈ files → number g < number f → newer c (data f) (data g))
  ∧ (level ≠ 0%nat → disjoint_files (c := c) files).

Lemma version_good v level files : version_holds v → files_ v !! level = Some files → level_good level files.
Proof using.
  intros Hv Hl. pose proof (list_elem_of_lookup_2 _ _ _ Hl) as Hin. split; [apply Forall_forall; intros f; by apply (vh_files v Hv)|]. split; [by apply (vh_short v Hv)|]. split.
  - intros ->. split; [by apply (vh_numbers v Hv)|]. intros f g. by apply (vh_zero v Hv files).
  - intros Hne. by apply (vh_disjoint v Hv level); [lia|].
Qed.

Lemma searched_Ok level files : level_good level files →
  ∃ l, match files with [] => Ok [] | _ => files_to_search (Z.of_nat level) files ikey u end = Ok l ∧ searched_right files l.
Proof using Hspec Hs Hu.
  intros (Hf & Hlen & Hz & Hd). destruct files as [|f files'] eqn:E; [exists []; split; [done|]|].
  { split; [constructor|]. split; [done|]. intros [] ? ? ? ?; discriminate. }
  rewrite <-E in *. clear E f files'. destruct (decide (level = 0%nat)) as [->|Hne].
  - destruct (Hz eq_refl). by apply search_zero_Ok.
  - apply search_level_Ok; [done|by apply Hd|lia|done].
Qed.

Definition levels_entries (levels : list (list FileMetaData)) : list entry := concat (level_entries <$> levels).

(** What a lookup answers, by the newest entry. *)
Definition answers (es : list entry) (value : list byte) (a : Status * list byte) : Prop := (∃ e, newest es e ∧ a = answer_of value e) ∨ none es ∧ a = (not_found, value).

Lemma levels_newer_head files levels : Forall (λ gs, newer c (level_entries files) (level_entries gs)) levels → newer c (level_entries files) (levels_entries levels).
Proof using.
  intros Hn a b Ha Hb. apply elem_concat in Hb as (i & l & Hl & Hb). rewrite list_lookup_fmap in Hl. destruct (levels !! i) as [gs|] eqn:Hg; [|done]. injection Hl as <-.
  rewrite Forall_forall in Hn. by apply (Hn gs (list_elem_of_lookup_2 _ _ _ Hg)).
Qed.

Lemma search_levels_Ok options value levels : ∀ level, (∀ i files, levels !! i = Some files → level_good (level + i)%nat files) →
  StronglySorted (λ fs gs, newer c (level_entries fs) (level_entries gs)) levels →
  ∀ last stats frame t, P frame t →
  wp (search_levels options (Z.of_nat level) levels ikey u value last stats) (λ r t', P frame t' ∧ answers (levels_entries levels) value r.1) t.
Proof using HT Hspec Hs Hu.
  induction levels as [|files levels IH]; intros level Hgood Hnew last stats frame t HP; cbn [search_levels].
  { apply wp_bind, (wp_lift _ not_found); [by vm_compute|]. apply wp_ret. split; [done|]. right. split; [by intros e ?%elem_of_nil|done]. }
  apply StronglySorted_inv in Hnew as [Hnew Hhead]. pose proof (Hgood 0%nat files eq_refl) as Hg. rewrite Nat.add_0_r in Hg. destruct (searched_Ok level files Hg) as (searched & Hs1 & Hall & Hnone & Hright).
  apply wp_bind. assert (match files with [] => mret [] | _ => lift (files_to_search (Z.of_nat level) files ikey u) end t = Ok (searched, t)) as E.
  { destruct files; [injection Hs1 as <-; done|]. unfold lift. by rewrite Hs1. }
  unfold wp at 1. rewrite E. apply wp_bind. apply (wp_mono _ _ _ _ (search_files_Ok options (Z.of_nat level) value searched Hall last stats frame t HP)). intros [[answer last'] stats'] t1 [HP1 Ha]. cbn [fst] in Ha.
  unfold levels_entries. cbn [fmap list_fmap concat]. fold (levels_entries levels). destruct answer as [[s' v']|].
  - destruct Ha as (pre & f & post & e & -> & Hpre & He & E'). apply wp_ret. split; [done|]. left. exists e. split; [|done].
    apply (newest_app_l c u s); [by eapply Hright|by apply levels_newer_head].
  - replace (Z.of_nat level + 1) with (Z.of_nat (S level)) by lia. apply (wp_mono _ _ _ _ (IH (S level) ltac:(intros i fs Hi; replace (S level + i)%nat with (level + S i)%nat by lia; by apply Hgood)
      Hnew last' stats' frame t1 HP1)). intros r t2 [HP2 Hr]. split; [done|].
    pose proof (Hnone Ha) as Hno. destruct Hr as [(e & He & Er)|[Hn Er]]; [left; exists e; split; [by apply newest_app_r|done]|right; split; [by apply no_entry_app|done]].
Qed.
End versions.
Arguments file_holds okk c tables data f : clear implicits.
Arguments version_holds okk c tables data v : clear implicits.

(** * The iterators of a version *)

Lemma file_value_eq f g : 0 ≤ number f < 2^64 → 0 ≤ number g < 2^64 → file_value f = file_value g → number f = number g.
Proof.
  unfold file_value. intros Hf Hg E. pose proof (f_equal DecodeFixed64 E) as D. rewrite !DecodeFixed64_Ok in D. injection D as D. rewrite !u64_small in D by done. done.
Qed.

Lemma elem_of_index files e : e ∈ index_of files → ∃ f, f ∈ files ∧ e = file_entry f.
Proof. intros (f & -> & Hf)%list_elem_of_fmap. by exists f. Qed.

Section versions.
Context {C : Comparator} {okk : list byte → Prop} {c : list byte → list byte → Z} {Hspec : ComparatorSpec C okk c}.
Context {T I R : Type} `{HI : Iterator T I} {HTC : TableCache T I} {P : list R → T → Prop} {tables : Z → Z → list entry → Prop} {HT : TableCacheSpec P okk c tables}.
#[local] Abbreviation ic := (internal_order c).
#[local] Instance iters_order : CmpOrder c := @spec_order _ _ _ Hspec.
#[local] Existing Instance internal_cmp_order.
#[local] Existing Instance tc_perm.
Context (data : FileMetaData → list entry).
#[local] Abbreviation holds := (file_holds okk c tables data).

(** ** One level *)

Section level.
Context (options : ReadOptions) (files : list FileMetaData).
Context (Hf : Forall holds files) (Hd : disjoint_files (c := c) files) (Hn : NoDup (number <$> files)) (Hlen : zlen files < 2^31).

(** The entries of the file that an index value names. *)
Definition entries_named (v : list byte) : list entry :=
  match List.find (λ f, bool_decide (file_value f = v)) files with Some f => data f | None => [] end.

Lemma entries_named_Ok f : f ∈ files → entries_named (file_value f) = data f.
Proof using Hf Hn.
  intros Hin. unfold entries_named. destruct (List.find _ files) as [g|] eqn:E.
  - apply find_some in E as [Hg%list_elem_of_In Eg%bool_decide_eq_true]. rewrite Forall_forall in Hf. destruct (fh_numbers data _ (Hf f Hin)), (fh_numbers data _ (Hf g Hg)).
    apply file_value_eq in Eg; [|done|done]. apply list_elem_of_lookup in Hin as [i Hi], Hg as [j Hj]. f_equal.
    assert (j = i) as -> by (eapply (NoDup_lookup _ j i (number f) Hn); rewrite list_lookup_fmap, ?Hi, ?Hj; cbn; congruence). congruence.
  - pose proof (find_none _ _ E f) as H. rewrite <-list_elem_of_In in H. specialize (H Hin). by rewrite bool_decide_eq_false in H.
Qed.

Lemma level_splits : index_splits (idx := index_of files) (c := ic) entries_named.
Proof using Hf Hn Hd Hspec.
  intros b e He. unfold index_of in He. rewrite list_lookup_fmap in He. destruct (files !! b) as [f|] eqn:Hb; [|done]. injection He as <-.
  pose proof (list_elem_of_lookup_2 _ _ _ Hb) as Hin. pose proof Hf as Hf'. rewrite Forall_forall in Hf'. unfold TwoLevelProps.data. cbn [file_entry fst snd]. split.
  - intros x Hx. rewrite entries_named_Ok in Hx by done. by apply (file_range data f x (Hf' f Hin)).
  - intros b' e' x Hbb He' Hx. unfold index_of in He'. rewrite list_lookup_fmap in He'. destruct (files !! b') as [g|] eqn:Hb'; [|done]. injection He' as <-. pose proof (list_elem_of_lookup_2 _ _ _ Hb') as Hgin.
    cbn [file_entry fst snd] in Hx. rewrite entries_named_Ok in Hx by done. destruct (fh_last data _ (Hf' f Hin)) as (l & y & Ey & <-).
    apply (files_apart data files Hf Hd b b' f g y x Hb Hb' Hbb); [rewrite Ey; apply elem_of_app; right; by left|done].
Qed.

Definition cat_pos : TwoLevelIterator LevelFileNumIterator I → nat → Prop := two_pos (idx := index_of files) (ipos := level_pos files) entries_named tc_pos.
Definition cat_owns : TwoLevelIterator LevelFileNumIterator I → list R := two_owns (iowns := level_owns) (tc_owns (P := P)).

Lemma cat_all : TwoLevelProps.all (idx := index_of files) entries_named = level_entries data files.
Proof using Hf Hn.
  unfold TwoLevelProps.all, TwoLevelProps.blocks, TwoLevelProps.data, index_of, level_entries. rewrite <-list_fmap_compose. f_equal. apply list_fmap_ext.
  intros i f Hi. cbn. by apply entries_named_Ok, (list_elem_of_lookup_2 _ i).
Qed.

Lemma level_index : IteratorSpec P (internal_ok okk) ic (index_of files) (level_pos files) level_owns.
Proof using Hf Hd Hlen Hspec.
  assert (Forall (file_fine (c := c) (okk := okk)) files) as Hfine by (eapply Forall_impl; [exact Hf|apply (holds_fine data)]).
  apply level_spec; [by apply (fine_keys_ok (c := c))|by apply disjoint_by_largest|done].
Qed.

Lemma GetFileIterator_Ok f frame t : f ∈ files → P frame t →
  wp (GetFileIterator options (file_value f)) (λ it t', tc_pos (data f) it (length (data f)) ∧ P (tc_owns (P := P) it ++ frame) t') t.
Proof using Hf HT.
  intros Hin HP. rewrite Forall_forall in Hf. pose proof (Hf f Hin) as Hh. destruct (fh_numbers data _ Hh) as [Hnum Hsize]. unfold GetFileIterator, file_value.
  assert (zlen (EncodeFixed64 (number f) ++ EncodeFixed64 (file_size f)) = 16) as -> by (rewrite length_app, !length_EncodeFixed64; done). cbn [Z.eqb Pos.eqb negb].
  apply wp_bind, (wp_lift _ (number f)); [rewrite DecodeFixed64_Ok; by rewrite u64_small|]. apply wp_bind, (wp_lift _ (file_size f)).
  { rewrite drop_app_length' by by rewrite length_EncodeFixed64. pose proof (DecodeFixed64_Ok (file_size f) []) as E. rewrite app_nil_r in E. rewrite E. by rewrite u64_small. }
  by apply (tc_NewIterator_spec (P := P)); [apply (fh_table data _ Hh)|].
Qed.

Lemma cat_spec : @IteratorSpec T R P (internal_ok okk) ic _ (concatenating options files) (level_entries data files) cat_pos cat_owns.
Proof using Hf Hd Hn Hlen HT Hspec.
  rewrite <-cat_all. pose proof level_index as Hindex. apply two_level_spec.
  - intros e (f & Hin & ->)%elem_of_index. cbn [file_entry fst snd]. rewrite entries_named_Ok by done. rewrite Forall_forall in Hf. apply (tc_iter_spec _ _ _ (fh_table data _ (Hf f Hin))).
  - intros e frame t (f & Hin & ->)%elem_of_index HP. cbn [file_entry fst snd]. rewrite entries_named_Ok by done. by apply GetFileIterator_Ok.
  - intros e (f & Hin & ->)%elem_of_index. cbn [file_entry fst snd]. unfold short, file_value. rewrite length_app, !length_EncodeFixed64. by vm_compute.
  - exact _.
  - apply level_splits.
  - unfold index_of. rewrite length_fmap. lia.
Qed.

Lemma new_concatenating_Ok frame t : P frame t → wp (new_concatenating (I := I) files) (λ it t', cat_pos it (length (level_entries data files)) ∧ P (cat_owns it ++ frame) t') t.
Proof using Hf Hd Hn Hlen Hspec.
  intros HP. unfold new_concatenating, new_TwoLevelIterator. apply wp_bind. pose proof level_index as Hindex.
  assert (level_pos files (new_LevelFileNumIterator files) (length (index_of files))) as Hpos.
  { unfold index_of. rewrite length_fmap. split; [|lia]. unfold new_LevelFileNumIterator. by rewrite u32_small by lia. }
  apply (wp_mono _ _ _ _ (Wrapper_Set_Ok (P := P) (owns := level_owns) _ _ new_IteratorWrapper frame t eq_refl Hpos HP)). intros w t1 [Hw HP1].
  apply wp_bind, wp_ret, wp_ret. split; [|unfold cat_owns, two_owns; cbn; by rewrite app_nil_r].
  right. split; [|by rewrite cat_all]. split; [done|]. by rewrite lookup_ge_None_2 by done.
Qed.
End level.

(** ** A table, or a level *)

#[local] Abbreviation vit := (version_iterator (I := I)).
Definition vit_owns (x : vit) : list R := match x with TableIter it => tc_owns (P := P) it | LevelIter _ _ it => cat_owns it end.
Definition table_pos (f : FileMetaData) (x : vit) (i : nat) : Prop := ∃ it, x = TableIter it ∧ tc_pos (data f) it i.
Definition run_pos (options : ReadOptions) (files : list FileMetaData) (x : vit) (i : nat) : Prop :=
  ∃ it, x = LevelIter options files it ∧ cat_pos files it i.

Lemma moves_inside {J} (K : J → vit) (pos : J → nat → Prop) (owns : J → list R) it (m : st T J) j : (∀ it, vit_owns (K it) = owns it) → moves P pos owns it m j →
  moves P (λ x i, ∃ it, x = K it ∧ pos it i) vit_owns (K it) (it ← m; mret (K it)) j.
Proof using.
  intros Ho Hm frame t HP. rewrite Ho in HP. apply wp_bind. apply (wp_mono _ _ _ _ (Hm frame t HP)). intros it' t' [Hp HP']. apply wp_ret. split; [by exists it'|]. by rewrite Ho.
Qed.

Lemma table_iter_spec f : holds f → IteratorSpec P (internal_ok okk) ic (data f) (table_pos f) vit_owns.
Proof using HT.
  intros Hf. pose proof (tc_iter_spec _ _ _ (fh_table data f Hf)) as Hs. split.
  - intros x i (it & -> & Hp). by apply (pos_valid (P := P) (okk := internal_ok okk) (c := ic) (owns := tc_owns (P := P)) it i).
  - intros x i k v (it & -> & Hp). by apply (pos_entry (P := P) (okk := internal_ok okk) (c := ic) (owns := tc_owns (P := P)) it i).
  - intros x i (it & -> & Hp). apply (moves_inside TableIter _ (tc_owns (P := P))); [done|]. by apply (SeekToFirst_spec it i).
  - intros x i (it & -> & Hp). apply (moves_inside TableIter _ (tc_owns (P := P))); [done|]. by apply (SeekToLast_spec it i).
  - intros x i target (it & -> & Hp) Ht. apply (moves_inside TableIter _ (tc_owns (P := P))); [done|]. by apply (Seek_spec it i).
  - intros x i (it & -> & Hp) Hi. apply (moves_inside TableIter _ (tc_owns (P := P))); [done|]. by apply (Next_spec it i).
  - intros x i (it & -> & Hp) Hi. apply (moves_inside TableIter _ (tc_owns (P := P))); [done|]. by apply (Prev_spec it i).
  - intros x i frame t (it & -> & Hp). by apply (delete_spec it i).
Qed.

Definition run_ok (files : list FileMetaData) : Prop := Forall holds files ∧ disjoint_files (c := c) files ∧ NoDup (number <$> files) ∧ zlen files < 2^31.

Lemma run_iter_spec options files : run_ok files → IteratorSpec P (internal_ok okk) ic (level_entries data files) (run_pos options files) vit_owns.
Proof using HT Hspec.
  intros (Hf & Hd & Hn & Hlen). pose proof (cat_spec options files Hf Hd Hn Hlen) as Hs. split.
  - intros x i (it & -> & Hp). by apply (pos_valid (H := concatenating options files) (P := P) (okk := internal_ok okk) (c := ic) (owns := cat_owns) it i).
  - intros x i k v (it & -> & Hp). by apply (pos_entry (H := concatenating options files) (P := P) (okk := internal_ok okk) (c := ic) (owns := cat_owns) it i).
  - intros x i (it & -> & Hp). apply (moves_inside (LevelIter options files) _ cat_owns); [done|]. by apply (SeekToFirst_spec (H := concatenating options files) it i).
  - intros x i (it & -> & Hp). apply (moves_inside (LevelIter options files) _ cat_owns); [done|]. by apply (SeekToLast_spec (H := concatenating options files) it i).
  - intros x i target (it & -> & Hp) Ht. apply (moves_inside (LevelIter options files) _ cat_owns); [done|]. by apply (Seek_spec (H := concatenating options files) it i).
  - intros x i (it & -> & Hp) Hi. apply (moves_inside (LevelIter options files) _ cat_owns); [done|]. by apply (Next_spec (H := concatenating options files) it i).
  - intros x i (it & -> & Hp) Hi. apply (moves_inside (LevelIter options files) _ cat_owns); [done|]. by apply (Prev_spec (H := concatenating options files) it i).
  - intros x i frame t (it & -> & Hp). by apply (delete_spec (H := concatenating options files) it i).
Qed.

(** ** The iterators of a version *)

#[local] Abbreviation source := (list entry * (vit → nat → Prop))%type.
Definition table_source (f : FileMetaData) : source := (data f, table_pos f).
Definition run_source (options : ReadOptions) (files : list FileMetaData) : source := (level_entries data files, run_pos options files).
Definition is_nil {A} (l : list A) : bool := match l with [] => true | _ => false end.
Definition version_sources (options : ReadOptions) (levels : list (list FileMetaData)) : list source :=
  match levels with [] => [] | files :: levels => (table_source <$> files) ++ (run_source options <$> List.filter (λ l, negb (is_nil l)) levels) end.

Lemma owns_cons (x : vit) its frame t : P (vit_owns x ++ concat (vit_owns <$> its) ++ frame) t → P (concat (vit_owns <$> x :: its) ++ frame) t.
Proof using. cbn [fmap list_fmap concat]. by rewrite <-app_assoc. Qed.

Lemma owns_later (l : list R) its frame t : P (concat (vit_owns <$> its) ++ l ++ frame) t → P (l ++ concat (vit_owns <$> its) ++ frame) t.
Proof using HT. intros HP. eapply tc_perm; [|reflexivity|exact HP]. rewrite !app_assoc. by rewrite (Permutation_app_comm (concat _)). Qed.

Lemma table_iterators_Ok options files : Forall holds files → ∀ frame t, P frame t →
  wp (table_iterators options files) (λ its t', Forall2 over (table_source <$> files) its ∧ P (concat (vit_owns <$> its) ++ frame) t') t.
Proof using HT.
  induction 1 as [|f files Hf _ IH]; intros frame t HP; cbn [table_iterators]; [apply wp_ret; split; [constructor|done]|]. apply wp_bind.
  apply (wp_mono _ _ _ _ (tc_NewIterator_spec options _ _ _ frame t (fh_table data f Hf) HP)). intros it t1 [Hp HP1]. apply wp_bind. apply (wp_mono _ _ _ _ (IH _ t1 HP1)).
  intros its t2 [Hits HP2]. apply wp_ret. split; [constructor; [|done]; exists (length (data f)), it; by split|]. by apply owns_cons, owns_later.
Qed.

Lemma level_iterators_Ok options levels : Forall run_ok levels → ∀ frame t, P frame t →
  wp (level_iterators options levels) (λ its t', Forall2 over (run_source options <$> List.filter (λ l, negb (is_nil l)) levels) its ∧ P (concat (vit_owns <$> its) ++ frame) t') t.
Proof using HT Hspec.
  induction 1 as [|files levels Hf _ IH]; intros frame t HP; cbn [level_iterators]; [apply wp_ret; split; [constructor|done]|].
  destruct files as [|f files'] eqn:E; [by apply IH|]. rewrite <-E in *. assert (List.filter (λ l, negb (is_nil l)) (files :: levels) = files :: List.filter (λ l, negb (is_nil l)) levels) as -> by by rewrite E.
  clear E f files'. destruct Hf as (Hf & Hd & Hn & Hlen). apply wp_bind. apply (wp_mono _ _ _ _ (new_concatenating_Ok files Hf Hd Hn Hlen frame t HP)).
  intros it t1 [Hp HP1]. apply wp_bind. apply (wp_mono _ _ _ _ (IH _ t1 HP1)). intros its t2 [Hits HP2]. apply wp_ret. split; [constructor; [|done]; exists (length (level_entries data files)), it; by split|].
  by apply owns_cons, owns_later.
Qed.

Lemma version_runs v : version_holds okk c tables data v → Forall holds (default [] (head (files_ v))) ∧ Forall run_ok (drop 1 (files_ v)).
Proof using.
  intros Hv. pose proof (vh_levels data v Hv) as Hl. split.
  - destruct (files_ v) as [|files levels] eqn:E; [done|]. apply Forall_forall. intros f. apply (vh_files data v Hv). rewrite E. by left.
  - apply Forall_forall. intros files [i Hi]%list_elem_of_lookup. rewrite lookup_drop in Hi. pose proof (list_elem_of_lookup_2 _ _ _ Hi) as Hin.
    split_and!; [apply Forall_forall; intros f; by apply (vh_files data v Hv)|by apply (vh_disjoint data v Hv (1 + i)%nat); [lia|]|by apply (vh_numbers data v Hv)|by apply (vh_short data v Hv)].
Qed.

Lemma AddIterators_Ok v options frame t : version_holds okk c tables data v → P frame t →
  wp (AddIterators v options []) (λ its t', Forall2 over (version_sources options (files_ v)) its ∧ P (concat (vit_owns <$> its) ++ frame) t') t.
Proof using HT Hspec.
  intros Hv HP. destruct (version_runs v Hv) as [H0 Hruns]. pose proof (vh_levels data v Hv) as Hl. unfold AddIterators, level_files. destruct (files_ v) as [|files levels] eqn:E; [done|].
  apply wp_bind, (wp_lift _ files); [done|]. apply wp_bind. apply (wp_mono _ _ _ _ (table_iterators_Ok options files H0 frame t HP)). intros its t1 [Hits HP1].
  apply wp_bind. apply (wp_mono _ _ _ _ (level_iterators_Ok options (drop 1 (files :: levels)) Hruns _ t1 HP1)). intros its' t2 [Hits' HP2]. apply wp_ret. cbn [app].
  split; [by apply Forall2_app|]. rewrite fmap_app, concat_app, <-app_assoc. by apply owns_later.
Qed.

Lemma levels_filter levels : concat (level_entries data <$> List.filter (λ l, negb (is_nil l)) levels) = concat (level_entries data <$> levels).
Proof using. induction levels as [|[|f files] levels IH]; [done|done|]. cbn [List.filter is_nil negb fmap list_fmap concat]. by rewrite <-IH. Qed.

Lemma version_fine v es : version_holds okk c tables data v → es ≡ₚ version_entries data v → Forall (entry_fine (okk := okk)) es.
Proof using.
  intros Hv Hes. apply Forall_forall. intros e He. rewrite Hes in He. apply elem_concat in He as (i & l & Hi & He). rewrite list_lookup_fmap in Hi. destruct (files_ v !! i) as [fs|] eqn:Hfs; [|done]. injection Hi as <-.
  apply level_elem in He as (f & Hf & He). pose proof (fh_fine data f (vh_files data v Hv fs f (list_elem_of_lookup_2 _ _ _ Hfs) Hf)) as Hfine. rewrite Forall_forall in Hfine. by apply Hfine.
Qed.

(** Each entry of the version is in one of the sources. *)
Lemma version_sources_Ok v options es : version_holds okk c tables data v → es ≡ₚ version_entries data v → StronglySorted (λ a b : entry, ic a.1 b.1 < 0) es →
  sources P (okk := internal_ok okk) (c := ic) vit_owns (version_sources options (files_ v)) es.
Proof using HT Hspec.
  intros Hv Hes Hs. destruct (version_runs v Hv) as [H0 Hruns]. unfold version_entries in Hes. pose proof (vh_levels data v Hv) as Hl. destruct (files_ v) as [|files levels] eqn:E; [done|]. cbn [version_sources drop head default] in *.
  assert (Forall run_ok (List.filter (λ l, negb (is_nil l)) levels)) as Hruns'.
  { apply Forall_forall. intros l [Hin _]%list_elem_of_In%filter_In. rewrite Forall_forall in Hruns. by apply Hruns, list_elem_of_In. }
  split.
  - apply Forall_app. split; apply Forall_fmap; [eapply Forall_impl; [exact H0|intros f Hf; by apply table_iter_spec]|eapply Forall_impl; [exact Hruns'|intros l Hr; by apply run_iter_spec]].
  - apply Forall_app. split; apply Forall_fmap; [eapply Forall_impl; [exact H0|intros f Hf; exact (fh_sorted data f Hf)]|eapply Forall_impl; [exact Hruns'|intros l (Hf & Hd & _); exact (level_sorted data l Hf Hd)]].
  - rewrite Hes. rewrite fmap_app, concat_app, <-!list_fmap_compose. cbn [fmap list_fmap concat]. rewrite <-levels_filter. done.
  - done.
  - apply (Forall_impl (entry_fine (okk := okk))); [|by intros e [He _]]. apply (version_fine v es Hv). unfold version_entries. by rewrite E.
Qed.
(** ** The entries of a version have an order *)

#[local] Abbreviation sorted_entries := (StronglySorted (λ a b : entry, ic a.1 b.1 < 0)).
#[local] Abbreviation apart := (StronglySorted (λ a b : entry, ic a.1 b.1 ≠ 0)).

Lemma insert_apart x l : sorted_entries l → Forall (λ y : entry, ic x.1 y.1 ≠ 0) l → ∃ l', l' ≡ₚ x :: l ∧ sorted_entries l'.
Proof using Hspec.
  induction 1 as [|y l Hs IH Hy]; intros Hx; [exists [x]; by repeat constructor|]. apply Forall_cons in Hx as [Hxy Hx]. destruct (decide (ic x.1 y.1 < 0)) as [Hlt|Hge].
  - exists (x :: y :: l). split; [done|]. constructor; [by constructor|]. constructor; [done|]. eapply Forall_impl; [exact Hy|]. intros z Hz. cbn in Hz. apply (cmp_lt_le ic _ y.1); [done|lia].
  - destruct (IH Hx) as (l' & Hp & Hs'). exists (y :: l'). split; [rewrite Hp; by apply Permutation_swap|]. constructor; [done|]. rewrite Hp. constructor; [|done].
    pose proof (cmp_anti (c := ic) x.1 y.1). lia.
Qed.

Lemma sort_apart l : apart l → ∃ l', l' ≡ₚ l ∧ sorted_entries l'.
Proof using Hspec.
  induction 1 as [|x l _ IH Hx]; [exists []; by repeat constructor|]. destruct IH as (l' & Hp & Hs). destruct (insert_apart x l' Hs) as (l'' & Hp' & Hs'); [by rewrite Hp|].
  exists l''. split; [by rewrite Hp', Hp|done].
Qed.

Lemma newer_apart l1 l2 a b : newer c l1 l2 → a ∈ l1 → b ∈ l2 → ic a.1 b.1 ≠ 0 ∧ ic b.1 a.1 ≠ 0.
Proof using Hspec.
  intros Hn Ha Hb. assert (ic a.1 b.1 ≠ 0) as Hne; [|split; [done|]; pose proof (cmp_anti (c := ic) a.1 b.1); lia].
  rewrite internal_order_parts. destruct (Z.eqb_spec (c (user_part a.1) (user_part b.1)) 0) as [E|]; [|done]. specialize (Hn a b Ha Hb E). lia.
Qed.

Lemma sorted_apart l : sorted_entries l → apart l.
Proof using. induction 1 as [|x l _ IH Hx]; constructor; [done|]. eapply Forall_impl; [exact Hx|]. intros y Hy. cbn in Hy. lia. Qed.

Lemma zero_apart files : Forall holds files → NoDup (number <$> files) → (∀ f g, f ∈ files → g ∈ files → number g < number f → newer c (data f) (data g)) → apart (level_entries data files).
Proof using Hspec.
  unfold level_entries. induction 1 as [|f files Hf _ IH]; intros Hn Hnew; [constructor|]. rewrite fmap_cons in Hn. apply NoDup_cons in Hn as [Hnf Hn]. cbn [fmap list_fmap concat].
  apply StronglySorted_app_2; [|by apply sorted_apart, (fh_sorted data f Hf)|apply IH; [done|intros g h Hg Hh; apply Hnew; by right]].
  intros a b Ha (g & Hg & Hb)%level_elem. destruct (Z.lt_total (number f) (number g)) as [Hlt|[E|Hlt]].
  - by destruct (newer_apart (data g) (data f) b a); [apply Hnew; [by right|by left|done]|..].
  - destruct Hnf. rewrite E. by apply list_elem_of_fmap_2.
  - by destruct (newer_apart (data f) (data g) a b); [apply Hnew; [by left|by right|done]|..].
Qed.

Lemma version_apart v : version_holds okk c tables data v → apart (version_entries data v).
Proof using Hspec.
  intros Hv. unfold version_entries.
  assert (∀ files, files ∈ files_ v → apart (level_entries data files)) as Hall.
  { intros files [i Hi]%list_elem_of_lookup. destruct (version_good data v i files Hv Hi) as (Hf & _ & Hz & Hd). destruct (decide (i = 0%nat)) as [E|Hne].
    - destruct (Hz E). by apply zero_apart.
    - by apply sorted_apart, (level_sorted data files Hf), Hd. }
  pose proof (vh_newer data v Hv) as Hn. induction Hn as [|files levels _ IH Hn]; [constructor|]. cbn [fmap list_fmap concat].
  apply StronglySorted_app_2; [|apply Hall; by left|apply IH; intros g Hg; apply Hall; by right].
  intros a b Ha Hb. by destruct (newer_apart (level_entries data files) (concat (level_entries data <$> levels)) a b); [apply (levels_newer_head data)|..].
Qed.

Lemma version_sorted v : version_holds okk c tables data v → ∃ es, es ≡ₚ version_entries data v ∧ sorted_entries es.
Proof using Hspec. intros Hv. by apply sort_apart, version_apart. Qed.

End versions.
