(* ===== verification/VersionSpec.v ===== *)
(** * What versions guarantee

    Lookups find the newest entry, searches and overlaps are those of plain scans. *)
From Stdlib Require Import Strings.String.
From stdpp Require Import sorting.
From S2P Require Import Prelude Buffers CLib Order Coding Comparator Status DbFormat MemProps Block BlockProps Iterator IterProps TwoLevel TableFormat Table DbIterProps DbIterSpec VersionEdit VersionSet VersionProps VersionIters.

#[local] Open Scope Z_scope.
#[local] Open Scope list_scope.

Section versions.
Context {C : Comparator} {okk : list byte → Prop} {c : list byte → list byte → Z} {Hspec : ComparatorSpec C okk c}.
Context {T I R : Type} `{HI : Iterator T I} {HTC : TableCache T I} {P : list R → T → Prop} {tables : Z → Z → list entry → Prop} {HT : TableCacheSpec P okk c tables}.
Context (data : FileMetaData → list entry).

(** Claim C12. A lookup in a version whose files hold the entries [data] says, for a user key [u] at a sequence number [s],
    what the newest of all entries of the version says that [s] sees: its value, or that there is none when it is a
    deletion, or when no entry has that key; whatever other files are searched before the one that has it. The version is one in which newer
    entries are found first: for each user key, the entries of a level are newer than those of the levels after it, and at level 0
    those of a file with a larger number are newer; the files of each other level are one after the other in the order of their internal keys.
    The lookup returns, and the cache of tables is left with what the caller holds. *)
Theorem version_get_newest v u s fresh options value frame t (Hv : version_holds okk c tables data v) (Hu : okk u) (Hs : 0 ≤ s ≤ kMaxSequenceNumber)
    (Hfresh : ∀ n, 0 ≤ n → zlen (fresh n) = n) (Hlen : zlen u + 13 < 2^32) (HP : P frame t) :
  ∃ lk, new_LookupKey fresh u s = Ok lk ∧ wp (Version_Get v options lk value) (λ r t', P frame t' ∧
    ((∃ e, newest_entry c u s (version_entries data v) e ∧ r.1 = if e_type e =? kTypeDeletion then (not_found, value) else (OK, e.2))
     ∨ no_entry c u s (version_entries data v) ∧ r.1 = (not_found, value))) t.
Proof using HT Hspec.
  destruct (LookupKey_Ok fresh u s Hfresh (packable_seek s Hs) Hlen) as (lk & E & _ & Hik & Huk). exists lk. split; [done|].
  apply wp_bind, (wp_lift _ _ _ _ Hik), wp_bind, (wp_lift _ _ _ _ Huk). change 0 with (Z.of_nat 0).
  apply (search_levels_Ok data u s Hu Hs options value (files_ v) 0); [|exact (vh_newer data v Hv)|done].
  intros i files Hi. by apply (version_good _ v).
Qed.

(** Claim C13. The iterator of a database over the tables of a version, which are those of level 0 and, one after
    the other, those of each other level: the entries of the files can be put in one sorted list [es], and the client
    sees each user key that has a value at [s] in it once, in order, with the newest value, wherever it moves. No loop
    diverges, the status is OK, and every table that was opened is given back when the iterator is deleted. *)
Theorem version_iterator_refines v s options (Hv : version_holds okk c tables data v) (Hs : 0 ≤ s ≤ kMaxSequenceNumber) :
  ∃ es vs, es ≡ₚ version_entries data v ∧ StronglySorted (λ a b : entry, internal_order c a.1 b.1 < 0) es
    ∧ StronglySorted (λ a b : entry, c a.1 b.1 < 0) vs ∧ (∀ u w, (u, w) ∈ vs ↔ newest_value c s es u w)
    ∧ ∀ frame t ms fuel seed, P frame t → (length es < fuel)%nat → starts ms → Forall (move_ok okk) ms →
        wp (its ← AddIterators v options []; db_client fuel s seed ms its) (λ r t', r = (tour_of c vs ms 0, OK) ∧ P frame t') t.
Proof using HT Hspec.
  destruct (version_sorted data v Hv) as (es & Hes & Hsort). pose proof (version_sources_Ok data v options es Hv Hes Hsort) as Hss. pose proof tc_perm as Hperm.
  destruct (db_client_Ok _ es s Hss (version_fine data v es Hv Hes) Hs) as (Hvs & Hnew & Hclient). exists es, (visible c s None es). split_and!; [done|done|done|done|].
  intros frame t ms fuel seed HP Hfuel Hstart Hms. apply wp_bind. apply (wp_mono _ _ _ _ (AddIterators_Ok data v options frame t Hv HP)). intros its t' [Hits HP'].
  by apply Hclient.
Qed.
End versions.

Section searches.
Context {C : Comparator} {okk : list byte → Prop} {c : list byte → list byte → Z} {Hspec : ComparatorSpec C okk c}.
#[local] Abbreviation fine := (file_fine (c := c) (okk := okk)).
#[local] Abbreviation bound k := (match k with None => True | Some k => internal_ok okk k end).

(** Whether a level without overlaps has a file in a range of user keys, either end of which may be open: the
    binary search, with its key before all entries of the first user key, answers what a scan of all files does, which is
    whether some file overlaps the range. *)
Theorem overlap_search_scan files small large (Hf : Forall fine files) (Hd : disjoint_files (c := c) files) (Hl : zlen files < 2^31)
    (Hs : bound_ok (okk := okk) small) (Hlg : bound_ok (okk := okk) large) :
  SomeFileOverlapsRange true files small large = SomeFileOverlapsRange false files small large
  ∧ SomeFileOverlapsRange true files small large = Ok (existsb (overlaps (c := c) small large) files).
Proof using Hspec. by rewrite !SomeFileOverlapsRange_Ok. Qed.

(** Claim C15. The files that overlap a range: every file of the level with a user key in the range is among them, and no
    other file in levels above 0. At level 0, where files overlap each other, the search starts again with a wider range
    until nothing is left out: a file that shares user keys with one of the answers is itself one of them. The search
    ends, since every new range takes in the end of another file. *)
Theorem overlapping_inputs_closed v level files start limit (Hl : 0 ≤ level < kNumLevels) (Hv : level_files v level = Ok files) (Hf : Forall fine files)
    (Hs : bound start) (He : bound limit) :
  ∃ inputs, GetOverlappingInputs v level start limit = Ok inputs ∧ (∀ f, f ∈ inputs → f ∈ files)
    ∧ (∀ f, f ∈ files → overlaps (c := c) (user_bound start) (user_bound limit) f = true → f ∈ inputs)
    ∧ (level ≠ 0 → ∀ f, f ∈ inputs → overlaps (c := c) (user_bound start) (user_bound limit) f = true)
    ∧ (level = 0 → ∀ f g, f ∈ inputs → g ∈ files → shares_keys (c := c) f g = true → g ∈ inputs).
Proof using Hspec.
  destruct (GetOverlappingInputs_Ok (Hspec := Hspec) v level files start limit Hl Hv (fine_keys_ok files Hf) Hs He) as (b & e & E & Hw & Hcase). exists (List.filter (overlaps (c := c) b e) files).
  assert (∀ f, f ∈ List.filter (overlaps (c := c) b e) files ↔ f ∈ files ∧ overlaps (c := c) b e f = true) as Hin by (intros f; rewrite !list_elem_of_In; apply filter_In).
  split; [done|]. split; [by intros f [? _]%Hin|]. split; [intros f Hff Ho; apply Hin; split; [done|by apply Hw]|]. split.
  - intros Hne f [_ Ho]%Hin. rewrite (proj2 (Z.eqb_neq _ _) Hne) in Hcase. by destruct Hcase as [<- <-].
  - intros -> f g [Hff Ho]%Hin Hg Hsh. apply Hin. split; [done|]. by apply (closed_shares files b e f g).
Qed.

(** Claim C17. Where a memtable's table goes: at most to level 2, and if it is not level 0, then no file of that level or
    of a level before it has a user key in the range of the table; so what is newer is still found first. *)
Theorem memtable_level_safe v small large (Hv : version_ok (c := c) (okk := okk) v) (Hs : okk small) (Hl : okk large) :
  ∃ level, PickLevelForMemTableOutput v small large = Ok level ∧ 0 ≤ level ≤ kMaxMemCompactLevel
    ∧ (0 < level → ∀ l files f, 0 ≤ l ≤ level → files_ v !! Z.to_nat l = Some files → f ∈ files → overlaps (c := c) (Some small) (Some large) f = false).
Proof using Hspec.
  destruct (PickLevel_Ok (Hspec := Hspec) v small large Hv Hs Hl) as (level & E & Hr & Hno). exists level. split; [done|]. split; [done|]. intros Hpos l files f Hl' Hf Hin. by apply (Hno Hpos l Hl' files f).
Qed.
End searches.


(** ** Witnesses: a cache of tables whose blocks are built from lists of entries *)

#[local] Instance internal_bytewise : Comparator := InternalKeyComparator BytewiseComparator.
#[local] Instance internal_bytewise_spec : ComparatorSpec internal_bytewise (internal_ok short) (internal_order strcmp_aux) := internal_comparator_spec.
#[local] Abbreviation ic := (internal_order strcmp_aux).
#[local] Abbreviation sorted_entries := (StronglySorted (λ a b : entry, ic a.1 b.1 < 0)).

Definition stored (n : Z) : list entry :=
  if n =? 9 then [put "a" 15 "new"; put "b" 14 "second"]
  else if n =? 7 then [put "b" 12 "first"; del "c" 11]
  else if n =? 4 then [put "a" 5 "old"; put "c" 3 "gone"]
  else if n =? 5 then [put "d" 6 "kept"; put "d" 2 "lost"; put "e" 1 "low"]
  else if n =? 14 then [put "a" 7 "first"; put "b" 9 "now"]
  else if n =? 15 then [put "b" 3 "before"; put "c" 2 "third"]
  else [].

#[local] Instance blocks {T} : Iterator T block_iterator := block_iterator_iterator (comparator := internal_bytewise).
Definition open_stored (n : Z) : res block_iterator := open_block (C := internal_bytewise) (stored n).

Definition seek_entry {T} (it : block_iterator) (k : list byte) : st T (option entry) :=
  it ← i_Seek k it;
  if i_Valid (T := T) it then a ← lift (i_key (T := T) it); b ← lift (i_value (T := T) it); mret (Some (a, b)) else mret None.

#[local] Instance stored_cache {T} : TableCache T block_iterator := {|
  tc_NewIterator _ n _ := lift (open_stored n);
  tc_Get _ n _ k := it ← lift (open_stored n); e ← seek_entry it k; mret (OK, e);
  error_iterator := ErrorIterator |}.

Definition stored_table (n size : Z) (es : list entry) : Prop := es = stored n.

Lemma stored_good n : sorted_entries (stored n) ∧ Forall (λ e : entry, internal_ok short e.1) (stored n) ∧ (∀ x, build_block (H := internal_bytewise) 2 (stored n) = Ok x → zlen x < 2^32).
Proof.
  unfold stored. repeat case_match; (split_and!; [repeat constructor; vm_compute; try discriminate|repeat constructor; vm_compute; try discriminate|intros x E; vm_compute in E; by injection E as <-]).
Qed.

Lemma stored_open n : ∃ it, open_stored n = Ok it ∧ block_pos (stored n) it (length (stored n)).
Proof. destruct (stored_good n) as (Hs & Ho & Hl). by apply (open_block_Ok (C := internal_bytewise)). Qed.

Lemma stored_spec {T R} (P : list R → T → Prop) n : IteratorSpec P (internal_ok short) ic (stored n) (block_pos (stored n)) block_owns.
Proof. destruct (stored_good n) as (Hs & Ho & _). exact (block_spec P (Hspec := internal_bytewise_spec) (stored n) Hs Ho). Qed.

#[local] Instance stored_cache_spec {T R} {P : list R → T → Prop} {Hperm : Proper ((≡ₚ) ==> (=) ==> impl) P} : TableCacheSpec P short strcmp_aux stored_table.
Proof.
  refine {| tc_pos := block_pos; tc_owns := block_owns; tc_perm := Hperm |}.
  - intros n size es ->. apply stored_spec.
  - intros options n size es frame t -> HP. destruct (stored_open n) as (it & E & Hit). by apply (wp_lift _ it).
  - intros options n size es k frame t -> Hk HP. destruct (stored_open n) as (it & E & Hit). cbn [tc_Get stored_cache]. apply wp_bind, (wp_lift _ it _ _ E), wp_bind, wp_bind.
    pose proof (stored_spec P n) as Hsp. apply (wp_mono _ _ _ _ (Seek_spec (IteratorSpec := Hsp) it _ k Hit Hk frame t HP)). intros it' t' [Hp HP']. destruct (pos_valid (IteratorSpec := Hsp) it' _ Hp) as (_ & -> & _).
    destruct (stored n !! rank ic k (stored n)) as [[a b]|] eqn:Er.
    + rewrite bool_decide_true by (by eapply lookup_lt_Some). destruct (pos_entry (IteratorSpec := Hsp) it' _ a b Hp Er) as [Ea Eb].
      apply wp_bind, (wp_lift _ _ _ _ Ea), wp_bind, (wp_lift _ _ _ _ Eb), wp_ret, wp_ret. split_and!; try done. by left.
    + apply lookup_ge_None in Er. rewrite bool_decide_false by lia. by apply wp_ret, wp_ret.
Qed.

(** Two overlapping files at level 0 and two files at level 1. *)
Definition bound (l : list entry) (d : list byte) : list byte := match l with [] => d | e :: _ => e.1 end.
Definition stored_file (n : Z) : FileMetaData := MkFile 0 (2^30) n 4096 (bound (stored n) []) (bound (rev (stored n)) []).
Definition sample_version : Version := MkVersion [[stored_file 7; stored_file 9]; [stored_file 4; stored_file 5]; []; []; []; []; []].
Definition stored_data (f : FileMetaData) : list entry := stored (number f).

Lemma stored_holds n : n ∈ [4; 5; 7; 9] → file_holds short strcmp_aux stored_table stored_data (stored_file n).
Proof.
  intros Hn. destruct (stored_good n) as (Hs & _ & _). split; [done| |done| | |].
  - cbn [number file_size stored_file]. repeat (apply elem_of_cons in Hn as [->|Hn]; [by vm_compute|]). by apply elem_of_nil in Hn.
  - apply Forall_forall. intros e He. repeat (apply elem_of_cons in Hn as [->|Hn]; [unfold stored_data in He; cbn in He; repeat (apply elem_of_cons in He as [->|He]; [repeat split; vm_compute; discriminate|]); by apply elem_of_nil in He|]). by apply elem_of_nil in Hn.
  - repeat (apply elem_of_cons in Hn as [->|Hn]; [by eexists _, _|]). by apply elem_of_nil in Hn.
  - repeat (apply elem_of_cons in Hn as [->|Hn]; [|]); [eexists [_], _|eexists [_; _], _|eexists [_], _|eexists [_], _|by apply elem_of_nil in Hn]; by split.
Qed.

Lemma sample_holds : version_holds short strcmp_aux stored_table stored_data sample_version.
Proof.
  split.
  - done.
  - intros files f Hl Hf. repeat (apply elem_of_cons in Hl as [->|Hl]; [repeat (apply elem_of_cons in Hf as [->|Hf]; [apply stored_holds; apply (bool_decide_unpack _); by vm_compute|]); by apply elem_of_nil in Hf|]). by apply elem_of_nil in Hl.
  - intros files Hl. repeat (apply elem_of_cons in Hl as [->|Hl]; [done|]). by apply elem_of_nil in Hl.
  - intros i files Hi Hl. destruct i as [|[|i]]; [lia|injection Hl as <-; repeat constructor|]. destruct i as [|[|[|[|[|i]]]]]; cbn in Hl; try discriminate; injection Hl as <-; constructor.
  - intros files f g Hl Hf Hg Hlt. injection Hl as <-. apply newer_checked. rewrite !elem_of_cons, elem_of_nil in Hf, Hg. destruct Hf as [->|[->|[]]], Hg as [->|[->|[]]]; try (cbn in Hlt; lia). by vm_compute.
  - intros files Hl. repeat (apply elem_of_cons in Hl as [->|Hl]; [apply (bool_decide_unpack _); by vm_compute|]). by apply elem_of_nil in Hl.
  - repeat (constructor; [|repeat (constructor; [apply newer_checked; by vm_compute|]); constructor]). constructor.
Qed.

(** A key of the first file, a deletion, and a key of the level below. *)
Definition sample_options : ReadOptions := MkReadOptions false true.
Lemma version_get_newest_witness : Forall (λ u, ∃ lk, new_LookupKey zeros (str u) 13 = Ok lk ∧
  wp (Version_Get (user_comparator := BytewiseComparator) sample_version sample_options lk []) (λ r t', free [] t' ∧
    ((∃ e, newest_entry strcmp_aux (str u) 13 (version_entries stored_data sample_version) e ∧ r.1 = if e_type e =? kTypeDeletion then (not_found, []) else (OK, e.2))
     ∨ no_entry strcmp_aux (str u) 13 (version_entries stored_data sample_version) ∧ r.1 = (not_found, []))) tt) ["a"; "b"; "c"; "d"; "f"]%string.
Proof.
  repeat (constructor; [apply (version_get_newest (P := free) (Hspec := bytewise_spec) stored_data sample_version _ 13 zeros sample_options [] [] tt sample_holds); [by vm_compute|by split|exact zeros_length|by vm_compute|done]|]).
  constructor.
Defined.

Example sample_found : map (λ u, (k ← lift (new_LookupKey zeros (str u) 13); r ← Version_Get (user_comparator := BytewiseComparator) sample_version sample_options k []; mret r.1) tt) ["a"; "b"; "c"; "d"; "f"]%string
  = map (λ r, Ok (r, tt)) [(OK, str "old"); (OK, str "first"); (not_found, []); (OK, str "kept"); (not_found, [])].
Proof. vm_compute. reflexivity. Qed.

Lemma version_iterator_refines_witness : ∃ vs,
  (∀ u w, (u, w) ∈ vs ↔ newest_value strcmp_aux 13 (version_entries stored_data sample_version) u w)
  ∧ wp (its ← AddIterators (user_comparator := BytewiseComparator) sample_version sample_options [];
        db_client (user_comparator := BytewiseComparator) (H := version_iterator_iterator (user_comparator := BytewiseComparator)) 12 13 0xdeadbeef user_path its)
       (λ r t', r = (tour_of strcmp_aux vs user_path 0, OK) ∧ free [] t') tt.
Proof.
  destruct (version_iterator_refines (P := free) (Hspec := bytewise_spec) stored_data sample_version 13 sample_options sample_holds ltac:(by split)) as (es & vs & Hes & _ & _ & Hvs & Htour).
  exists vs. split; [intros u w; rewrite (Hvs u w); by apply newest_value_perm|]. apply Htour; [done| |done|].
  - rewrite (Permutation_length Hes). by vm_compute; lia.
  - repeat constructor; vm_compute; try discriminate.
Defined.

Example sample_seen : (its ← AddIterators (user_comparator := BytewiseComparator) sample_version sample_options [];
    db_client (user_comparator := BytewiseComparator) (H := version_iterator_iterator (user_comparator := BytewiseComparator)) 12 13 0xdeadbeef [MFirst; MNext; MNext; MNext; MNext] its) tt
  = Ok (([Some (str "a", str "old"); Some (str "b", str "first"); Some (str "d", str "kept"); Some (str "e", str "low"); None], OK), tt).
Proof. vm_compute. reflexivity. Qed.

Lemma sample_fine i files : files_ sample_version !! i = Some files → Forall (file_fine (c := strcmp_aux) (okk := short)) files.
Proof. intros Hi. by apply (vo_fine sample_version (version_holds_ok (Hspec := bytewise_spec) stored_data sample_version sample_holds) files), (list_elem_of_lookup_2 _ i). Qed.

(** From b to anything: the second file; between two files: none. *)
Lemma overlap_search_scan_witness :
  let files := [stored_file 4; stored_file 5] in
  SomeFileOverlapsRange (user_comparator := BytewiseComparator) true files (Some (str "cc")) None = Ok true
  ∧ SomeFileOverlapsRange (user_comparator := BytewiseComparator) true files (Some (str "ca")) (Some (str "cb")) = Ok false.
Proof.
  pose proof (sample_fine 1 _ eq_refl) as Hf. assert (disjoint_files (c := strcmp_aux) [stored_file 4; stored_file 5]) as Hd by by repeat constructor. split.
  - by rewrite (proj2 (overlap_search_scan (Hspec := bytewise_spec) _ (Some (str "cc")) None Hf Hd eq_refl ltac:(by vm_compute) I)).
  - by rewrite (proj2 (overlap_search_scan (Hspec := bytewise_spec) _ (Some (str "ca")) (Some (str "cb")) Hf Hd eq_refl ltac:(by vm_compute) ltac:(by vm_compute))).
Defined.

(** Key c is only in the first file of level 0, but that shares b with the other one. *)
Lemma overlapping_inputs_closed_witness : ∃ inputs,
  GetOverlappingInputs (user_comparator := BytewiseComparator) sample_version 0 (Some (internal (str "c") 20 kTypeValue)) None = Ok inputs ∧ stored_file 9 ∈ inputs.
Proof.
  destruct (overlapping_inputs_closed (Hspec := bytewise_spec) sample_version 0 _ (Some (internal (str "c") 20 kTypeValue)) None ltac:(by split) eq_refl (sample_fine 0 _ eq_refl) ltac:(by vm_compute) I)
    as (inputs & E & _ & Hall & _ & Hclosed).
  exists inputs. split; [done|]. apply (Hclosed eq_refl (stored_file 7)); [|by right; left|by vm_compute]. apply Hall; [by left|by vm_compute].
Defined.

(** A table of key f goes to level 2. *)
Lemma memtable_level_safe_witness :
  PickLevelForMemTableOutput (user_comparator := BytewiseComparator) sample_version (str "f") (str "g") = Ok 2
  ∧ ∃ level, PickLevelForMemTableOutput (user_comparator := BytewiseComparator) sample_version (str "f") (str "g") = Ok level ∧ 0 ≤ level ≤ kMaxMemCompactLevel.
Proof.
  split; [by vm_compute|]. destruct (memtable_level_safe (Hspec := bytewise_spec) sample_version (str "f") (str "g") (version_holds_ok (Hspec := bytewise_spec) stored_data _ sample_holds)) as (level & E & Hl & _);
    [by vm_compute|by vm_compute|by exists level].
Defined.
