(* ===== verification/VersionBuilder.v ===== *)
(** * Applying edits: the builder of leveldb db/version_set.cc

    [VersionSet::Builder] collects the edits that are applied to a version, and saves the version that results.
    The counts of references to files, which versions share, are not followed: a file of an edit has the count 1. *)
From stdpp Require Import gmap.
From S2P Require Import Prelude Buffers CLib Order Coding Comparator Status DbFormat VersionEdit VersionSet.

#[local] Open Scope Z_scope.
#[local] Open Scope list_scope.

Section builder.
Context {user_comparator : Comparator}.
#[local] Abbreviation icmp := (@internal_Compare user_comparator).

(** [InternalKeyComparator::Compare] of two internal keys. *)
Definition compare_keys (a b : list byte) : res Z := a ← InternalKey_Encode a; b ← InternalKey_Encode b; icmp a b.

Definition BySmallestKey (f1 f2 : FileMetaData) : res bool :=
  r ← compare_keys (smallest f1) (smallest f2);
  mret (if negb (r =? 0) then r <? 0 else number f1 <? number f2).

(** [FileSet::insert]: a file that is equivalent to one in the set is left out. *)
Fixpoint fileset_insert (f : FileMetaData) (s : list FileMetaData) : res (list FileMetaData) :=
  match s with
  | [] => mret [f]
  | g :: s =>
      lt ← BySmallestKey f g;
      if lt : bool then mret (f :: g :: s)
      else gt ← BySmallestKey g f; if gt : bool then s ← fileset_insert f s; mret (g :: s) else mret (g :: s)
  end.

Record LevelState := MkLevelState { deleted_files : gset Z; added_files : list FileMetaData }.

(** With the compaction pointers of the version set, which [Apply] updates. *)
Record Builder := MkBuilder { compact_pointer_ : list (list byte); base_ : Version; levels_ : list LevelState }.
Definition new_Builder (compact_pointer : list (list byte)) (base : Version) : Builder :=
  MkBuilder compact_pointer base (repeat (MkLevelState ∅ []) (Z.to_nat kNumLevels)).

(** An index of an array with an element for each level. *)
Definition level_index (level : Z) : res nat := if (0 <=? level) && (level <? kNumLevels) then mret (Z.to_nat level) else Err UB.

Fixpoint apply_pointers (ps : list (Z * list byte)) (pointers : list (list byte)) : res (list (list byte)) :=
  match ps with
  | [] => mret pointers
  | (level, key) :: ps => i ← level_index level; key ← InternalKey_Encode key; apply_pointers ps (<[i := key]> pointers)
  end.

Fixpoint apply_deleted (ds : list (Z * Z)) (levels : list LevelState) : res (list LevelState) :=
  match ds with
  | [] => mret levels
  | (level, file) :: ds =>
      i ← level_index level; st ← of_option (levels !! i);
      apply_deleted ds (<[i := MkLevelState ({[file]} ∪ deleted_files st) (added_files st)]> levels)
  end.

(** The copy of a file of an edit: one seek for every 16KB before it is compacted, and 100 at least. *)
Definition opened (f : FileMetaData) : FileMetaData :=
  let seeks := to_int (file_size f / 16384) in
  MkFile 1 (if seeks <? 100 then 100 else seeks) (number f) (file_size f) (smallest f) (largest f).

Fixpoint apply_added (fs : list (Z * FileMetaData)) (levels : list LevelState) : res (list LevelState) :=
  match fs with
  | [] => mret levels
  | (level, f) :: fs =>
      let f := opened f in
      i ← level_index level; st ← of_option (levels !! i);
      added ← fileset_insert f (added_files st);
      apply_added fs (<[i := MkLevelState (deleted_files st ∖ {[number f]}) added]> levels)
  end.

Definition Apply (edit : VersionEdit) (b : Builder) : res Builder :=
  pointers ← apply_pointers (compact_pointers_ edit) (compact_pointer_ b);
  levels ← apply_deleted (deleted_files_ edit) (levels_ b);
  levels ← apply_added (new_files_ edit) levels;
  mret (MkBuilder pointers (base_ b) levels).

(** ** Saving *)

Definition MaybeAddFile (level : Z) (deleted : gset Z) (f : FileMetaData) (files : list FileMetaData) : res (list FileMetaData) :=
  if bool_decide (number f ∈ deleted) then mret files
  else
    _ ← match last files with
      | Some prev => if 0 <? level then r ← compare_keys (largest prev) (smallest f); c_assert (r <? 0) else mret tt
      | None => mret tt
      end;
    mret (files ++ [f]).

Fixpoint add_files (level : Z) (deleted : gset Z) (fs files : list FileMetaData) : res (list FileMetaData) :=
  match fs with [] => mret files | f :: fs => files ← MaybeAddFile level deleted f files; add_files level deleted fs files end.

(** [std::upper_bound] in sorted files: those before the first one that comes after [f], and the others. *)
Fixpoint upper_bound (f : FileMetaData) (base : list FileMetaData) : res (list FileMetaData * list FileMetaData) :=
  match base with
  | [] => mret ([], [])
  | g :: base' => lt ← BySmallestKey f g; if lt : bool then mret ([], base) else '(before, after) ← upper_bound f base'; mret (g :: before, after)
  end.

(** The added files in order, each after the files of the base that are smaller. *)
Fixpoint save_added (level : Z) (deleted : gset Z) (added base files : list FileMetaData) : res (list FileMetaData) :=
  match added with
  | [] => add_files level deleted base files
  | f :: added =>
      '(before, base) ← upper_bound f base;
      files ← add_files level deleted before files;
      files ← MaybeAddFile level deleted f files;
      save_added level deleted added base files
  end.

(** The check for overlaps, which aborts. *)
Fixpoint check_overlaps (files : list FileMetaData) : res unit :=
  match files with
  | prev :: (this :: _) as rest => r ← compare_keys (largest prev) (smallest this); if 0 <=? r then Err AssertFail else check_overlaps rest
  | _ => mret tt
  end.

Fixpoint save_levels (n : nat) (level : Z) (b : Builder) (v : Version) : res Version :=
  match n with
  | O => mret v
  | S n =>
      base_files ← level_files (base_ b) level;
      st ← of_option (levels_ b !! Z.to_nat level);
      files ← level_files v level;
      files ← save_added level (deleted_files st) (added_files st) base_files files;
      _ ← (if 0 <? level then check_overlaps files else mret tt);
      save_levels n (level + 1) b (MkVersion (<[Z.to_nat level := files]> (files_ v)))
  end.

Definition SaveTo (b : Builder) (v : Version) : res Version := save_levels (Z.to_nat kNumLevels) 0 b v.
End builder.
