(* ===== verification/BuilderProps.v ===== *)
(** * What the builder of versions saves

    Each level of the saved version holds the files of the base and of the edits that are not deleted, in order; and
    applying edits together is applying them one by one. *)
From Stdlib Require Import Strings.String.
From stdpp Require Import gmap sorting.
From S2P Require Import Prelude Buffers CLib Order Coding Comparator Status DbFormat VersionEdit VersionSet VersionProps VersionBuilder.

#[local] Open Scope Z_scope.
#[local] Open Scope list_scope.

(** Two sorted lists with the same elements. *)
Lemma sorted_ext {A} (R : A → A → Prop) l1 l2 : (∀ x y, R x y → ¬ R y x) → StronglySorted R l1 → StronglySorted R l2 → (∀ x, x ∈ l1 ↔ x ∈ l2) → l1 = l2.
Proof.
  intros Hasym H1 H2 E. assert (∀ l, StronglySorted R l → NoDup l) as Hnd.
  { induction 1 as [|x l _ IH Hx]; [constructor|]. apply NoDup_cons. split; [|done]. intros Hin. rewrite Forall_forall in Hx. specialize (Hx x Hin). by apply (Hasym x x). }
  apply (StronglySorted_unique_strong R); [|done|done|by apply NoDup_Permutation; auto]. intros x y _ _ Hxy Hyx. by destruct (Hasym x y).
Qed.

Lemma lookup_repeat {A} (x : A) n i : (i < n)%nat → repeat x n !! i = Some x.
Proof. revert i. induction n as [|n IH]; intros [|i] Hi; [lia|lia|done|]. cbn. apply IH. lia. Qed.

Lemma union_step (x : Z) (l : list Z) (S : gset Z) : list_to_set l ∪ ({[x]} ∪ S) = list_to_set (x :: l) ∪ S.
Proof. cbn. by rewrite (assoc_L (∪)), (comm_L (∪) _ {[x]}). Qed.
Lemma difference_step (x : Z) (l : list Z) (S : gset Z) : S ∖ {[x]} ∖ list_to_set l = S ∖ list_to_set (x :: l).
Proof. apply difference_difference_l_L. Qed.

Section builder.
Context {C : Comparator} {okk : list byte → Prop} {c : list byte → list byte → Z} {Hspec : ComparatorSpec C okk c}.
#[local] Abbreviation ic := (internal_order c).
#[local] Abbreviation ikey := (internal_ok okk).
#[local] Abbreviation good := (keys_ok (okk := okk)).
#[local] Instance builder_order : CmpOrder c := @spec_order _ _ _ Hspec.
#[local] Existing Instance internal_cmp_order.

(** ** The order of files *)

Definition file_cmp : FileMetaData → FileMetaData → Z := lex_cmp (λ f g, ic (smallest f) (smallest g)) (λ f g, number f - number g).
Definition sorted_files (l : list FileMetaData) : Prop := StronglySorted (λ f g, file_cmp f g < 0) l.

#[local] Instance file_order : CmpOrder file_cmp.
Proof using Hspec. unfold file_cmp. apply lex_order; [apply (on_order smallest ic); exact _|apply diff_order]. Qed.

Lemma file_cmp_number f g : file_cmp f g = 0 → number f = number g.
Proof using. unfold file_cmp, lex_cmp. repeat case_match; lia. Qed.

Lemma file_cmp_asym f g : file_cmp f g < 0 → ¬ file_cmp g f < 0.
Proof using Hspec. pose proof (cmp_anti (c := file_cmp) f g). lia. Qed.

Lemma compare_keys_Ok a b : ikey a → ikey b → compare_keys a b = Ok (ic a b).
Proof using Hspec. intros Ha Hb. unfold compare_keys. rewrite (ikey_encode a Ha), (ikey_encode b Hb). cbn [mbind res_bind]. by apply internal_Compare_Ok. Qed.

Lemma BySmallestKey_Ok f g : good f → good g → BySmallestKey f g = Ok (file_cmp f g <? 0).
Proof using Hspec.
  intros [Hf _] [Hg _]. unfold BySmallestKey. rewrite compare_keys_Ok by done. cbn [mbind res_bind mret res_ret]. unfold file_cmp, lex_cmp. f_equal.
  destruct (Z.eqb_spec (ic (smallest f) (smallest g)) 0) as [E|Hne]; cbn [negb].
  - rewrite ?E. repeat case_match; lia.
  - repeat case_match; lia.
Qed.

Lemma fileset_insert_Ok f s : good f → Forall good s → sorted_files s → (∀ g, g ∈ s → number g ≠ number f) →
  ∃ s', fileset_insert f s = Ok s' ∧ sorted_files s' ∧ ∀ x, x ∈ s' ↔ x = f ∨ x ∈ s.
Proof using Hspec.
  intros Hf. induction s as [|g s IH]; intros Hgs Hs Hn; [exists [f]; split; [done|]; split; [by repeat constructor|]; intros x; rewrite list_elem_of_singleton, elem_of_nil; tauto|].
  apply Forall_cons in Hgs as [Hg Hgs]. apply StronglySorted_inv in Hs as [Hs Hgt]. cbn [fileset_insert]. rewrite (BySmallestKey_Ok f g Hf Hg), (BySmallestKey_Ok g f Hg Hf). cbn [mbind res_bind].
  assert (file_cmp f g ≠ 0) as Hne by (intros E; apply file_cmp_number in E; by apply (Hn g); [left|]). pose proof (cmp_anti (c := file_cmp) f g). destruct (Z.ltb_spec (file_cmp f g) 0) as [Hlt|].
  - eexists. split; [done|]. split; [|intros x; by rewrite elem_of_cons]. constructor; [by constructor|]. constructor; [done|]. eapply Forall_impl; [exact Hgt|]. intros x Hx. cbn in Hx.
    apply (cmp_lt_le file_cmp _ g); [done|lia].
  - rewrite (proj2 (Z.ltb_lt (file_cmp g f) 0)) by lia. destruct (IH Hgs Hs) as (s' & E & Hs' & Hin); [intros x Hx; apply Hn; by right|]. rewrite E. cbn [mbind res_bind]. eexists. split; [done|]. split.
    + constructor; [done|]. apply Forall_forall. intros x [->|Hx]%Hin; [lia|]. rewrite Forall_forall in Hgt. by apply Hgt.
    + intros x. rewrite !elem_of_cons, Hin. tauto.
Qed.

(** ** Merging a sorted set with sorted files *)

Fixpoint split_files (f : FileMetaData) (base : list FileMetaData) : list FileMetaData * list FileMetaData :=
  match base with [] => ([], []) | g :: base' => if file_cmp f g <? 0 then ([], base) else let '(before, after) := split_files f base' in (g :: before, after) end.

Lemma upper_bound_Ok f base : good f → Forall good base → upper_bound f base = Ok (split_files f base).
Proof using Hspec.
  intros Hf. induction 1 as [|g base Hg _ IH]; [done|]. cbn [upper_bound split_files]. rewrite (BySmallestKey_Ok f g Hf Hg). cbn [mbind res_bind]. destruct (file_cmp f g <? 0); [done|].
  rewrite IH. cbn [mbind res_bind]. by destruct (split_files f base).
Qed.

Lemma split_files_Ok f base before after : split_files f base = (before, after) → sorted_files base → (∀ g, g ∈ base → number g ≠ number f) →
  base = before ++ after ∧ (∀ g, g ∈ before → file_cmp g f < 0) ∧ (∀ g, g ∈ after → file_cmp f g < 0).
Proof using Hspec.
  revert before after. induction base as [|g base IH]; intros before after E Hs Hn; cbn [split_files] in E; [injection E as <- <-; split; [done|]; split; by intros x ?%elem_of_nil|].
  apply StronglySorted_inv in Hs as [Hs Hgt]. destruct (Z.ltb_spec (file_cmp f g) 0) as [Hlt|Hge].
  - injection E as <- <-. split; [done|]. split; [by intros x ?%elem_of_nil|]. intros x [->|Hx]%elem_of_cons; [done|]. rewrite Forall_forall in Hgt. specialize (Hgt x Hx). cbn in Hgt.
    apply (cmp_lt_le file_cmp _ g); [done|lia].
  - destruct (split_files f base) as [b a] eqn:E'. injection E as <- <-. destruct (IH b a eq_refl Hs) as (-> & Hb & Ha); [intros x Hx; apply Hn; by right|]. split; [done|]. split; [|done].
    intros x [->|Hx]%elem_of_cons; [|by apply Hb]. assert (file_cmp f g ≠ 0) as Hne by (intros E; apply file_cmp_number in E; by apply (Hn g); [left|]). pose proof (cmp_anti (c := file_cmp) f g). lia.
Qed.

Fixpoint merged (added base : list FileMetaData) : list FileMetaData :=
  match added with [] => base | f :: added => let '(before, after) := split_files f base in before ++ f :: merged added after end.

Lemma merged_Ok added : ∀ base, sorted_files added → sorted_files base → (∀ f g, f ∈ added → g ∈ base → number g ≠ number f) →
  sorted_files (merged added base) ∧ ∀ x, x ∈ merged added base ↔ x ∈ added ∨ x ∈ base.
Proof using Hspec.
  induction added as [|f added IH]; intros base Ha Hb Hn; cbn [merged]; [split; [done|intros x; rewrite elem_of_nil; tauto]|].
  apply StronglySorted_inv in Ha as [Ha Hgt]. destruct (split_files f base) as [before after] eqn:E. destruct (split_files_Ok f base before after E Hb) as (-> & Hbf & Haf); [intros g; apply Hn; by left|].
  rewrite Forall_forall in Hgt. assert (sorted_files after) as Hb2 by by apply StronglySorted_app_1_r in Hb. assert (sorted_files before) as Hb1 by by apply StronglySorted_app_1_l in Hb.
  destruct (IH after Ha Hb2) as [Hs Hin]; [intros x g Hx Hg; apply Hn; [by right|apply elem_of_app; by right]|]. split.
  - assert (sorted_files (f :: merged added after)) as Hs'.
    { constructor; [done|]. apply Forall_forall. intros x [Hx|Hx]%Hin; [by apply Hgt|by apply Haf]. }
    apply StronglySorted_app_2; [|done|done]. intros x y Hx [->|[Hy|Hy]%Hin]%elem_of_cons; [by apply Hbf| |by apply (StronglySorted_app_1_elem_of (λ f g, file_cmp f g < 0) before after)].
    apply (cmp_lt_le file_cmp _ f); [by apply Hbf|]. specialize (Hgt y Hy). cbn in Hgt. lia.
  - intros x. rewrite elem_of_app, !elem_of_cons, Hin, elem_of_app. tauto.
Qed.

(** ** What a level becomes *)

Definition joins (prev : option FileMetaData) (f : FileMetaData) : bool := match prev with Some p => ic (largest p) (smallest f) <? 0 | None => true end.
Fixpoint fits (l : list FileMetaData) : bool := match l with f :: ((g :: _) as rest) => joins (Some f) g && fits rest | _ => true end.

Lemma fits_snoc l f : fits (l ++ [f]) = fits l && joins (last l) f.
Proof using.
  induction l as [|g [|h l] IH]; [done| |]; cbn [fits app] in *; [by rewrite !andb_true_r|]. rewrite IH. cbn [last]. by rewrite andb_assoc.
Qed.

Lemma fits_app_l l1 l2 : fits (l1 ++ l2) = true → fits l1 = true.
Proof using.
  induction l2 as [|f l2 IH] using rev_ind; [by rewrite app_nil_r|]. rewrite app_assoc, fits_snoc. intros [H _]%andb_true_iff. by apply IH.
Qed.

Lemma check_overlaps_Ok l : Forall good l → check_overlaps l = if fits l then Ok tt else Err AssertFail.
Proof using Hspec.
  induction 1 as [|f l [_ Hf] Hl IH]; [done|]. destruct l as [|g l]; [done|]. cbn [check_overlaps fits joins] in *. apply Forall_cons in Hl as [[Hg _] _].
  rewrite compare_keys_Ok by done. cbn [mbind res_bind]. destruct (Z.leb_spec 0 (ic (largest f) (smallest g))), (Z.ltb_spec (ic (largest f) (smallest g)) 0); cbn [andb]; done || lia.
Qed.

Definition keep (deleted : gset Z) (f : FileMetaData) : bool := negb (bool_decide (number f ∈ deleted)).
Definition allowed (level : Z) (l : list FileMetaData) : bool := negb (0 <? level) || fits l.

Lemma allowed_app_l level l1 l2 : allowed level (l1 ++ l2) = true → allowed level l1 = true.
Proof using. unfold allowed. destruct (0 <? level); cbn [negb orb]; [apply fits_app_l|done]. Qed.

Lemma add_files_Ok level deleted fs : Forall good fs → ∀ files, Forall good files → allowed level files = true →
  add_files level deleted fs files = if allowed level (files ++ List.filter (keep deleted) fs) then Ok (files ++ List.filter (keep deleted) fs) else Err AssertFail.
Proof using Hspec.
  induction 1 as [|f fs Hf _ IH]; intros files Hfiles Hfit; cbn [add_files List.filter]; [by rewrite app_nil_r, Hfit|]. assert (Forall good [f]) as Hf1 by by constructor. unfold MaybeAddFile. assert (keep deleted f = negb (bool_decide (number f ∈ deleted))) as Ek by done. rewrite Ek.
  destruct (bool_decide (number f ∈ deleted)); cbn [negb mbind res_bind mret res_ret]; [by apply IH|].
  assert (match last files with Some prev => if 0 <? level then r ← compare_keys (largest prev) (smallest f); c_assert (r <? 0) else mret tt | None => mret tt end
    = if allowed level (files ++ [f]) then Ok tt else Err AssertFail) as ->.
  { unfold allowed in *. rewrite fits_snoc. destruct (last files) as [p|] eqn:Hp; [|cbn [joins]; rewrite andb_true_r; by rewrite Hfit]. destruct (0 <? level); cbn [negb orb] in *; [|done]. rewrite Hfit. cbn [andb joins].
    destruct Hf as [Hsm _]. rewrite Forall_forall in Hfiles. destruct (Hfiles p) as [_ Hlg]; [apply last_Some in Hp as [l ->]; apply elem_of_app; right; by left|].
    rewrite compare_keys_Ok by done. cbn [mbind res_bind]. unfold c_assert. by destruct (_ <? 0). }
  destruct (allowed level (files ++ [f])) eqn:Ef; cbn [mbind res_bind mret res_ret].
  - rewrite IH; [|by apply Forall_app|done]. by rewrite <-app_assoc.
  - change (f :: List.filter (keep deleted) fs) with ([f] ++ List.filter (keep deleted) fs). rewrite app_assoc. destruct (allowed level ((files ++ [f]) ++ _)) eqn:E; [|done]. apply allowed_app_l in E. congruence.
Qed.

Lemma save_added_Ok level deleted added : Forall good added → ∀ base files, Forall good base → Forall good files → allowed level files = true →
  save_added level deleted added base files =
    if allowed level (files ++ List.filter (keep deleted) (merged added base)) then Ok (files ++ List.filter (keep deleted) (merged added base)) else Err AssertFail.
Proof using Hspec.
  induction 1 as [|f added Hf _ IH]; intros base files Hb Hfiles Hfit; cbn [save_added merged]; [by apply add_files_Ok|].
  rewrite (upper_bound_Ok f base Hf Hb). cbn [mbind res_bind]. destruct (split_files f base) as [before after] eqn:E.
  assert (Forall good before ∧ Forall good after) as [Hb1 Hb2].
  { clear IH Hfit. revert before after E. induction Hb as [|g base Hg Hb IH]; intros before after E; cbn [split_files] in E; [injection E as <- <-; by split|].
    destruct (file_cmp f g <? 0); [injection E as <- <-; split; [done|by constructor]|]. destruct (split_files f base) as [b a]. injection E as <- <-. destruct (IH b a eq_refl). split; [by constructor|done]. }
  rewrite add_files_Ok by done. rewrite List.filter_app. set (l1 := List.filter (keep deleted) before).
  assert (List.filter (keep deleted) (f :: merged added after) = List.filter (keep deleted) [f] ++ List.filter (keep deleted) (merged added after)) as -> by by rewrite <-List.filter_app.
  set (l2 := List.filter (keep deleted) [f]). set (l3 := List.filter (keep deleted) (merged added after)). rewrite !app_assoc.
  assert (Forall good l1) as Hl1 by (apply Forall_forall; intros x [Hx _]%list_elem_of_In%filter_In; rewrite Forall_forall in Hb1; by apply Hb1, list_elem_of_In).
  assert (Forall good l2) as Hl2 by (apply Forall_forall; intros x [Hx _]%list_elem_of_In%filter_In; by destruct Hx as [<-|[]]).
  destruct (allowed level (files ++ l1)) eqn:E1; cbn [mbind res_bind].
  2:{ destruct (allowed level (((files ++ l1) ++ l2) ++ l3)) eqn:E3; [|done]. do 2 apply allowed_app_l in E3. congruence. }
  assert (MaybeAddFile level deleted f (files ++ l1) = add_files level deleted [f] (files ++ l1)) as ->.
  { cbn [add_files]. by destruct (MaybeAddFile level deleted f (files ++ l1)). }
  rewrite add_files_Ok; [|by constructor|by apply Forall_app|done]. fold l2. destruct (allowed level ((files ++ l1) ++ l2)) eqn:E2; cbn [mbind res_bind].
  - rewrite IH; [done|done|by repeat (apply Forall_app; split)|done].
  - destruct (allowed level (((files ++ l1) ++ l2) ++ l3)) eqn:E3; [|done]. apply allowed_app_l in E3. congruence.
Qed.

(** ** Builders *)

Definition saved (base : list FileMetaData) (st : LevelState) : list FileMetaData := List.filter (keep (deleted_files st)) (merged (added_files st) base).
Definition current (b : Builder) : list (list FileMetaData) := zip_with saved (files_ (base_ b)) (levels_ b).

(** Sorted files with their own numbers at each level. *)
Definition level_state_ok (base : list FileMetaData) (st : LevelState) : Prop :=
  Forall good base ∧ sorted_files base ∧ Forall good (added_files st) ∧ sorted_files (added_files st) ∧ (∀ f g, f ∈ added_files st → g ∈ base → number g ≠ number f).
Record builder_ok (b : Builder) : Prop := {
  bo_base : length (files_ (base_ b)) = Z.to_nat kNumLevels;
  bo_levels : length (levels_ b) = Z.to_nat kNumLevels;
  bo_level i base st : files_ (base_ b) !! i = Some base → levels_ b !! i = Some st → level_state_ok base st }.

Lemma saved_Ok base st : level_state_ok base st → sorted_files (saved base st) ∧ Forall good (saved base st)
  ∧ ∀ x, x ∈ saved base st ↔ (x ∈ added_files st ∨ x ∈ base) ∧ number x ∉ deleted_files st.
Proof using Hspec.
  intros (Hbg & Hbs & Hag & Has & Hn). destruct (merged_Ok (added_files st) base Has Hbs Hn) as [Hs Hin].
  assert (∀ x, x ∈ saved base st ↔ (x ∈ added_files st ∨ x ∈ base) ∧ number x ∉ deleted_files st) as Hel.
  { intros x. unfold saved. rewrite list_elem_of_In, filter_In, <-list_elem_of_In, Hin. unfold keep. rewrite negb_true_iff, bool_decide_eq_false. done. }
  split; [|split; [|done]].
  - unfold saved, sorted_files. clear -Hs. induction Hs as [|x l Hs IH Hx]; [constructor|]. cbn [List.filter]. destruct (keep _ x); [|done]. constructor; [done|].
    apply Forall_forall. intros y [Hy _]%list_elem_of_In%filter_In. rewrite Forall_forall in Hx. by apply Hx, list_elem_of_In.
  - apply Forall_forall. intros x [[Hx|Hx] _]%Hel; rewrite Forall_forall in Hag, Hbg; [by apply Hag|by apply Hbg].
Qed.

Definition fitting (levels : list (list FileMetaData)) : bool := forallb fits (drop 1 levels).

Lemma save_levels_Ok b : builder_ok b → ∀ n i v, (i + n = Z.to_nat kNumLevels)%nat → files_ v = take i (current b) ++ repeat [] n →
  save_levels n (Z.of_nat i) b v = if forallb fits (drop (i `max` 1) (current b)) then Ok (MkVersion (current b)) else Err AssertFail.
Proof using Hspec.
  intros [Hlb Hll Hlv]. assert (length (current b) = Z.to_nat kNumLevels) as Hlc by (unfold current; rewrite length_zip_with; lia). induction n as [|n IH]; intros i v Hi Hv; cbn [save_levels].
  { rewrite drop_ge by lia. cbn [forallb]. destruct v as [fs]. cbn [files_] in Hv. rewrite app_nil_r, take_ge in Hv by lia. by rewrite Hv. }
  destruct (lookup_lt_is_Some_2 (files_ (base_ b)) i) as [base Hbase]; [lia|]. destruct (lookup_lt_is_Some_2 (levels_ b) i) as [st Hst]; [lia|].
  pose proof (Hlv i base st Hbase Hst) as Hok. pose proof Hok as (Hbg & Hbs & Hag & Has & Hn). destruct (saved_Ok base st Hok) as (_ & Hsg & _).
  unfold level_files. rewrite Nat2Z.id, Hbase. cbn [of_option mbind res_bind]. rewrite Hst. cbn [of_option mbind res_bind].
  assert (length (take i (current b)) = i) as Hlt by (rewrite length_take; lia). assert (files_ v !! i = Some []) as Hvi by (rewrite Hv, lookup_app_r, Hlt, Nat.sub_diag by lia; done).
  rewrite Hvi. cbn [of_option mbind res_bind]. assert (current b !! i = Some (saved base st)) as Hci by (unfold current; by rewrite lookup_zip_with, Hbase, Hst).
  rewrite (save_added_Ok (Z.of_nat i) (deleted_files st) (added_files st) Hag base [] Hbg ltac:(constructor)) by (unfold allowed; by destruct (0 <? _)). cbn [app]. fold (saved base st).
  set (rest := forallb fits (drop (S i `max` 1) (current b))).
  assert (forallb fits (drop (i `max` 1) (current b)) = allowed (Z.of_nat i) (saved base st) && rest) as ->.
  { unfold allowed, rest. destruct i as [|i]; [done|]. replace (S i `max` 1)%nat with (S i) by lia. rewrite (drop_S (current b) (saved base st) (S i) Hci). replace (S (S i) `max` 1)%nat with (S (S i)) by lia. rewrite (proj2 (Z.ltb_lt 0 (Z.of_nat (S i)))) by lia. done. }
  destruct (allowed (Z.of_nat i) (saved base st)) eqn:Ea; cbn [mbind res_bind andb]; [|done].
  assert ((if 0 <? Z.of_nat i then check_overlaps (saved base st) else mret tt) = Ok tt) as ->.
  { unfold allowed in Ea. destruct (0 <? Z.of_nat i); [|done]. cbn [negb orb] in Ea. rewrite check_overlaps_Ok by done. by rewrite Ea. }
  cbn [mbind res_bind]. replace (Z.of_nat i + 1) with (Z.of_nat (S i)) by lia. apply IH; [lia|]. cbn [files_]. rewrite Hv.
  rewrite (take_S_r _ i _ Hci). rewrite insert_app_r_alt by lia. rewrite Hlt, Nat.sub_diag. cbn [repeat insert list_insert]. by rewrite <-app_assoc.
Qed.

Lemma SaveTo_Ok b : builder_ok b → SaveTo b new_Version = if fitting (current b) then Ok (MkVersion (current b)) else Err AssertFail.
Proof using Hspec. intros Hb. apply (save_levels_Ok b Hb (Z.to_nat kNumLevels) 0); done. Qed.

(** ** Applying an edit *)

Definition at_level {A} (i : nat) (l : list (Z * A)) : list A := snd <$> List.filter (λ p : Z * A, p.1 =? Z.of_nat i) l.
#[local] Abbreviation level_in p := (0 ≤ p.1 < kNumLevels).

Lemma at_level_cons {A} i (p : Z * A) l : at_level i (p :: l) = if p.1 =? Z.of_nat i then p.2 :: at_level i l else at_level i l.
Proof using. unfold at_level. cbn [List.filter]. by destruct (p.1 =? Z.of_nat i). Qed.

Lemma elem_at_level {A} i (l : list (Z * A)) x : x ∈ at_level i l ↔ (Z.of_nat i, x) ∈ l.
Proof using.
  induction l as [|[level y] l IH]; [unfold at_level; cbn; by rewrite !elem_of_nil|]. rewrite at_level_cons. cbn [fst snd]. rewrite (elem_of_cons l). rewrite <-IH. destruct (Z.eqb_spec level (Z.of_nat i)) as [->|Hne].
  - rewrite elem_of_cons. split; [intros [->|?]; [by left|by right]|intros [[= ->]|?]; [by left|by right]].
  - split; [by right|]. intros [[= E ->]|?]; [done|done].
Qed.

Lemma level_index_Ok level : 0 ≤ level < kNumLevels → level_index level = Ok (Z.to_nat level).
Proof using. intros Hl. unfold level_index. rewrite (proj2 (Z.leb_le 0 level)), (proj2 (Z.ltb_lt level kNumLevels)) by lia. done. Qed.

Lemma apply_deleted_Ok ds : Forall (λ p : Z * Z, level_in p) ds → ∀ levels, length levels = Z.to_nat kNumLevels →
  ∃ levels', apply_deleted ds levels = Ok levels' ∧ length levels' = Z.to_nat kNumLevels
    ∧ ∀ i st, levels !! i = Some st → levels' !! i = Some (MkLevelState (list_to_set (at_level i ds) ∪ deleted_files st) (added_files st)).
Proof using.
  induction 1 as [|[level file] ds Hl _ IH]; intros levels Hlen; cbn [apply_deleted].
  { exists levels. split; [done|]. split; [done|]. intros i st Hst. rewrite Hst. destruct st as [d a]. do 2 f_equal. cbn. by rewrite (left_id_L ∅ (∪)). }
  cbn [fst] in Hl. rewrite (level_index_Ok level Hl). cbn [mbind res_bind]. destruct (lookup_lt_is_Some_2 levels (Z.to_nat level)) as [st Hst]; [lia|]. rewrite Hst. cbn [of_option mbind res_bind].
  edestruct IH as (levels' & E & Hlen' & Hlv); [by rewrite length_insert|]. exists levels'. split; [exact E|]. split; [done|]. intros i st' Hst'. rewrite at_level_cons. cbn [fst snd].
  destruct (Z.eqb_spec level (Z.of_nat i)) as [->|Hne].
  - rewrite Nat2Z.id in *. rewrite Hst in Hst'. injection Hst' as <-. rewrite (Hlv i _ (list_lookup_insert_eq _ _ _ ltac:(by eapply lookup_lt_Some))). cbn [deleted_files added_files]. by rewrite union_step.
  - apply Hlv. rewrite list_lookup_insert_ne by lia. done.
Qed.

Definition numbers_at (i : nat) (l : list (Z * FileMetaData)) : list Z := number <$> at_level i l.

Lemma opened_good f : good f → good (opened f).
Proof using. done. Qed.

Lemma apply_added_Ok fs : Forall (λ p : Z * FileMetaData, level_in p ∧ good p.2) fs → ∀ levels, length levels = Z.to_nat kNumLevels →
  (∀ i st, levels !! i = Some st → Forall good (added_files st) ∧ sorted_files (added_files st) ∧ NoDup (numbers_at i fs) ∧ ∀ f, f ∈ added_files st → number f ∉ numbers_at i fs) →
  ∃ levels', apply_added fs levels = Ok levels' ∧ length levels' = Z.to_nat kNumLevels
    ∧ ∀ i st, levels !! i = Some st → ∃ st', levels' !! i = Some st' ∧ deleted_files st' = deleted_files st ∖ list_to_set (numbers_at i fs)
        ∧ sorted_files (added_files st') ∧ ∀ x, x ∈ added_files st' ↔ x ∈ added_files st ∨ x ∈ opened <$> at_level i fs.
Proof using Hspec.
  induction 1 as [|[level f] fs [Hl Hf] _ IH]; intros levels Hlen Hst; cbn [apply_added].
  { exists levels. split; [done|]. split; [done|]. intros i st Hi. exists st. destruct (Hst i st Hi) as (_ & Hs & _). split; [done|]. cbn. split; [by rewrite difference_empty_L|]. split; [done|]. intros x. rewrite elem_of_nil. tauto. }
  cbn [fst snd] in Hl, Hf. rewrite (level_index_Ok level Hl). cbn [mbind res_bind]. destruct (lookup_lt_is_Some_2 levels (Z.to_nat level)) as [st Hi]; [lia|]. rewrite Hi. cbn [of_option mbind res_bind].
  destruct (Hst _ st Hi) as (Hg & Hs & Hnd & Hn). unfold numbers_at in Hnd, Hn. rewrite at_level_cons in Hnd, Hn. cbn [fst snd] in Hnd, Hn. rewrite (proj2 (Z.eqb_eq level _)) in Hnd, Hn by lia.
  rewrite fmap_cons in Hnd, Hn. apply NoDup_cons in Hnd as [Hnf Hnd].
  destruct (fileset_insert_Ok (opened f) (added_files st) (opened_good f Hf) Hg Hs) as (s' & -> & Hs' & Hin); [intros g Hgs E; apply (Hn g Hgs); rewrite E; by left|]. cbn [mbind res_bind].
  assert (∀ i st', levels !! i = Some st' → i ≠ Z.to_nat level → numbers_at i ((level, f) :: fs) = numbers_at i fs) as Hother.
  { intros i st' _ Hne. unfold numbers_at. rewrite at_level_cons. cbn [fst]. rewrite (proj2 (Z.eqb_neq level _)) by lia. done. }
  edestruct IH as (levels' & E & Hlen' & Hlv); [by rewrite length_insert| |exists levels'; split; [exact E|split; [done|]]].
  - intros i st' Hi'. destruct (decide (i = Z.to_nat level)) as [->|Hne].
    + rewrite list_lookup_insert_eq in Hi' by by eapply lookup_lt_Some. injection Hi' as <-. cbn [added_files]. split_and!; [|done|done|].
      * apply Forall_forall. intros x [->|Hx]%Hin; [done|]. rewrite Forall_forall in Hg. by apply Hg.
      * intros x [->|Hx]%Hin; [done|]. intros Hx'. apply (Hn x Hx). by right.
    + rewrite list_lookup_insert_ne in Hi' by done. specialize (Hst i st' Hi'). by rewrite (Hother i st' Hi' Hne) in Hst.
  - intros i st' Hi'. destruct (decide (i = Z.to_nat level)) as [->|Hne].
    + rewrite Hi in Hi'. injection Hi' as <-. destruct (Hlv (Z.to_nat level) _ (list_lookup_insert_eq _ _ _ ltac:(by eapply lookup_lt_Some))) as (st' & Hst' & Hd & Hso & Hel). exists st'. cbn [deleted_files added_files] in *.
      split; [done|]. unfold numbers_at in *. rewrite at_level_cons. cbn [fst snd]. rewrite (proj2 (Z.eqb_eq level _)) by lia. rewrite !fmap_cons. split; [|split; [done|]].
      * rewrite Hd. apply difference_step.
      * intros x. rewrite Hel, Hin, elem_of_cons. tauto.
    + destruct (Hlv i st') as (st'' & Hst'' & Hd & Hso & Hel); [by rewrite list_lookup_insert_ne|]. exists st''. split; [done|]. rewrite (Hother i st' Hi' Hne). split; [done|]. split; [done|].
      intros x. rewrite Hel, at_level_cons. cbn [fst]. by rewrite (proj2 (Z.eqb_neq level _)) by lia.
Qed.

(** ** Edits in sequence *)

(** The levels of an edit exist, its keys are internal keys, and it adds no number twice to a level. *)
Definition edit_good (e : VersionEdit) : Prop :=
  Forall (λ p : Z * list byte, level_in p ∧ ikey p.2) (compact_pointers_ e) ∧ Forall (λ p : Z * Z, level_in p) (deleted_files_ e)
  ∧ Forall (λ p : Z * FileMetaData, level_in p ∧ good p.2) (new_files_ e).

(** The number [n] is, or was, that of a file of level [i]. *)
Definition used (b : Builder) (i : nat) (n : Z) : Prop :=
  ∃ base st, files_ (base_ b) !! i = Some base ∧ levels_ b !! i = Some st ∧ (n ∈ number <$> added_files st ∨ n ∈ number <$> base).
Definition fresh (b : Builder) (e : VersionEdit) : Prop := ∀ i, NoDup (numbers_at i (new_files_ e)) ∧ ∀ n, n ∈ numbers_at i (new_files_ e) → ¬ used b i n.

Lemma apply_pointers_Ok ps : Forall (λ p : Z * list byte, level_in p ∧ ikey p.2) ps → ∀ pointers, ∃ pointers', apply_pointers ps pointers = Ok pointers'.
Proof using.
  induction 1 as [|[level key] ps [Hl Hk] _ IH]; intros pointers; cbn [apply_pointers]; [by exists pointers|]. rewrite (level_index_Ok level Hl). cbn [mbind res_bind].
  rewrite (ikey_encode key Hk). cbn [mbind res_bind]. apply IH.
Qed.

Lemma Apply_Ok b e : builder_ok b → edit_good e → fresh b e →
  ∃ pointers b', apply_pointers (compact_pointers_ e) (compact_pointer_ b) = Ok pointers ∧ Apply e b = Ok b' ∧ compact_pointer_ b' = pointers ∧ base_ b' = base_ b ∧ builder_ok b'
    ∧ ∀ i base st, files_ (base_ b) !! i = Some base → levels_ b !! i = Some st → ∃ st', levels_ b' !! i = Some st'
        ∧ deleted_files st' = (list_to_set (at_level i (deleted_files_ e)) ∪ deleted_files st) ∖ list_to_set (numbers_at i (new_files_ e))
        ∧ ∀ x, x ∈ added_files st' ↔ x ∈ added_files st ∨ x ∈ opened <$> at_level i (new_files_ e).
Proof using Hspec.
  intros [Hlb Hll Hlv] (Hp & Hd & Hn) Hfresh. destruct (apply_pointers_Ok _ Hp (compact_pointer_ b)) as [pointers Ep].
  destruct (apply_deleted_Ok _ Hd (levels_ b) Hll) as (l1 & E1 & Hl1 & Hlook1).
  assert (∀ i st1, l1 !! i = Some st1 → ∃ base st, files_ (base_ b) !! i = Some base ∧ levels_ b !! i = Some st ∧ added_files st1 = added_files st) as Hback.
  { intros i st1 Hi. pose proof (lookup_lt_Some _ _ _ Hi). destruct (lookup_lt_is_Some_2 (levels_ b) i) as [st Hst]; [lia|]. destruct (lookup_lt_is_Some_2 (files_ (base_ b)) i) as [base Hbase]; [lia|].
    exists base, st. split; [done|]. split; [done|]. pose proof (Hlook1 i st Hst) as Hi'. rewrite Hi in Hi'. by injection Hi' as ->. }
  destruct (apply_added_Ok _ Hn l1 Hl1) as (l2 & E2 & Hl2 & Hlook2).
  { intros i st1 Hi. destruct (Hback i st1 Hi) as (base & st & Hbase & Hst & ->). destruct (Hlv i base st Hbase Hst) as (_ & _ & Hg & Hs & _). destruct (Hfresh i) as [Hnd Hnu]. split_and!; try done.
    intros f Hf Hin. apply (Hnu _ Hin). exists base, st. split; [done|]. split; [done|]. left. by apply list_elem_of_fmap_2. }
  exists pointers, (MkBuilder pointers (base_ b) l2). split; [done|]. unfold Apply. rewrite Ep. cbn [mbind res_bind]. rewrite E1. cbn [mbind res_bind]. rewrite E2. cbn [mbind res_bind]. split; [done|]. split; [done|]. split; [done|].
  assert (∀ i base st, files_ (base_ b) !! i = Some base → levels_ b !! i = Some st → ∃ st', l2 !! i = Some st'
        ∧ deleted_files st' = (list_to_set (at_level i (deleted_files_ e)) ∪ deleted_files st) ∖ list_to_set (numbers_at i (new_files_ e))
        ∧ sorted_files (added_files st') ∧ ∀ x, x ∈ added_files st' ↔ x ∈ added_files st ∨ x ∈ opened <$> at_level i (new_files_ e)) as Hall.
  { intros i base st _ Hst. destruct (Hlook2 i _ (Hlook1 i st Hst)) as (st' & ? & ? & ? & ?). by exists st'. }
  split; [|by intros i base st Hb Hst; destruct (Hall i base st Hb Hst) as (st' & ? & ? & _ & ?); exists st'].
  split; cbn [base_ levels_]; [done|done|]. intros i base st' Hbase Hst'. pose proof (lookup_lt_Some _ _ _ Hbase). destruct (lookup_lt_is_Some_2 (levels_ b) i) as [st Hst]; [lia|].
  destruct (Hall i base st Hbase Hst) as (st'' & Hi & _ & Hs & Hin). rewrite Hst' in Hi. injection Hi as <-. destruct (Hlv i base st Hbase Hst) as (Hbg & Hbs & Hag & _ & Hne).
  split_and!; [done|done| |done|].
  - apply Forall_forall. intros x [Hx|Hx]%Hin; [rewrite Forall_forall in Hag; by apply Hag|]. apply list_elem_of_fmap in Hx as (f & -> & Hf). apply elem_at_level in Hf. rewrite Forall_forall in Hn. by destruct (Hn _ Hf).
  - intros f g [Hf|Hf]%Hin Hg; [by apply Hne|]. apply list_elem_of_fmap in Hf as (f' & -> & Hf). intros E. destruct (Hfresh i) as [_ Hnu]. apply (Hnu (number f')).
    + by apply list_elem_of_fmap_2.
    + exists base, st. split; [done|]. split; [done|]. right. rewrite <-(E : number g = number f'). by apply list_elem_of_fmap_2.
Qed.

(** What a level holds after the edit, in terms of what it held. *)
Lemma current_Apply b e b' i fs : builder_ok b → edit_good e → fresh b e → Apply e b = Ok b' → current b !! i = Some fs →
  ∃ fs', current b' !! i = Some fs' ∧ sorted_files fs' ∧ ∀ x, x ∈ fs' ↔ (x ∈ fs ∧ number x ∉ at_level i (deleted_files_ e)) ∨ x ∈ opened <$> at_level i (new_files_ e).
Proof using Hspec.
  intros Hb He Hf Hap Hfs. destruct (Apply_Ok b e Hb He Hf) as (ps & b1 & _ & E & _ & Hbase & Hb' & Hall). rewrite Hap in E. injection E as <-.
  unfold current in Hfs. rewrite lookup_zip_with in Hfs. destruct (files_ (base_ b) !! i) as [base|] eqn:Hbi; [|done]. destruct (levels_ b !! i) as [st|] eqn:Hst; [|done]. injection Hfs as <-.
  destruct (Hall i base st Hbi Hst) as (st' & Hst' & Hd & Hin). exists (saved base st'). unfold current. rewrite lookup_zip_with, Hbase, Hbi, Hst'. split; [done|].
  rewrite <-Hbase in Hbi. destruct (saved_Ok base st' (bo_level b' Hb' i base st' Hbi Hst')) as (Hs & _ & Hel). split; [done|]. rewrite Hbase in Hbi.
  destruct (saved_Ok base st (bo_level b Hb i base st Hbi Hst)) as (_ & _ & Hel0). intros x. rewrite Hel, Hel0, Hd, Hin. rewrite elem_of_difference, elem_of_union, !elem_of_list_to_set.
  assert (x ∈ added_files st ∨ x ∈ base → number x ∉ numbers_at i (new_files_ e)) as Hold.
  { intros Hx Hn. destruct (Hf i) as [_ Hnu]. apply (Hnu _ Hn). exists base, st. split; [done|]. split; [done|]. destruct Hx as [Hx|Hx]; [left|right]; by apply list_elem_of_fmap_2. }
  assert (x ∈ opened <$> at_level i (new_files_ e) → number x ∈ numbers_at i (new_files_ e)) as Hnew.
  { intros (f & -> & Hfi)%list_elem_of_fmap. apply (list_elem_of_fmap_2 number) in Hfi. exact Hfi. }
  split.
  - intros [[[Hx|Hx]|Hx] Hnot]; [left|by right|left]; (split; [split; [tauto|]|]; intros Hdel; apply Hnot; (split; [tauto|apply Hold; tauto])).
  - intros [[[Hx Hnd] Hnot]|Hx]; [split; [tauto|]; intros [[?|?] _]; tauto|]. split; [tauto|]. intros [_ H]. by apply H, Hnew.
Qed.

(** ** Together and one by one *)

Record version_saved (v : Version) : Prop := {
  vs_levels : length (files_ v) = Z.to_nat kNumLevels;
  vs_good i files : files_ v !! i = Some files → Forall good files ∧ sorted_files files;
  vs_fits : fitting (files_ v) = true }.

Fixpoint apply_all (es : list VersionEdit) (b : Builder) : res Builder := match es with [] => mret b | e :: es => b ← Apply e b; apply_all es b end.
(** A version for each edit. *)
Fixpoint save_each (es : list VersionEdit) (pointers : list (list byte)) (v : Version) : res (list (list byte) * Version) :=
  match es with
  | [] => mret (pointers, v)
  | e :: es => b ← Apply e (new_Builder pointers v); v ← SaveTo b new_Version; save_each es (compact_pointer_ b) v
  end.

Definition added_numbers (i : nat) (es : list VersionEdit) : list Z := concat ((λ e, numbers_at i (new_files_ e)) <$> es).
Definition all_fresh (b : Builder) (es : list VersionEdit) : Prop := ∀ i, NoDup (added_numbers i es) ∧ ∀ n, n ∈ added_numbers i es → ¬ used b i n.
(** No number is added to a level that has, or had, a file with that number. *)
Definition fresh_edits (v : Version) (es : list VersionEdit) : Prop :=
  ∀ i, NoDup (added_numbers i es) ∧ ∀ files n, files_ v !! i = Some files → n ∈ added_numbers i es → n ∉ number <$> files.

Lemma new_builder_lookup ps v i st : levels_ (new_Builder ps v) !! i = Some st → st = MkLevelState ∅ [].
Proof using. intros Hi. apply list_elem_of_lookup_2 in Hi. cbn [levels_ new_Builder] in Hi. apply list_elem_of_In, repeat_spec in Hi. done. Qed.

Lemma new_builder_ok ps v : version_saved v → builder_ok (new_Builder ps v).
Proof using.
  intros Hv. split; [by apply vs_levels|done|]. intros i base st Hb Hst. apply new_builder_lookup in Hst as ->. destruct (vs_good v Hv i base Hb). by split_and!; try constructor; try (intros f g ?%elem_of_nil).
Qed.

Lemma saved_empty base : saved base (MkLevelState ∅ []) = base.
Proof using. unfold saved. cbn [deleted_files added_files merged]. induction base as [|f base IH]; [done|]. cbn [List.filter]. unfold keep at 1. rewrite bool_decide_false by by apply not_elem_of_empty. cbn [negb]. by rewrite IH. Qed.

Lemma new_builder_current ps v : length (files_ v) = Z.to_nat kNumLevels → current (new_Builder ps v) = files_ v.
Proof using.
  intros Hl. unfold current. cbn [base_ levels_ new_Builder]. apply list_eq. intros i. rewrite lookup_zip_with. destruct (files_ v !! i) as [base|] eqn:Hb; cbn [mbind option_bind]; [|done].
  apply lookup_lt_Some in Hb. rewrite lookup_repeat by lia. cbn [mbind option_bind]. by rewrite saved_empty.
Qed.

Lemma current_length b : builder_ok b → length (current b) = Z.to_nat kNumLevels.
Proof using. intros [Hb Hl _]. unfold current. rewrite length_zip_with. lia. Qed.

Lemma saved_version b v : builder_ok b → SaveTo b new_Version = Ok v → files_ v = current b ∧ version_saved v.
Proof using Hspec.
  intros Hb E. rewrite SaveTo_Ok in E by done. destruct (fitting (current b)) eqn:Ef; [|done]. injection E as <-. split; [done|]. split; cbn [files_]; [by apply current_length| |done].
  intros i files Hi. unfold current in Hi. rewrite lookup_zip_with in Hi. destruct (files_ (base_ b) !! i) as [base|] eqn:Hbi; [|done]. destruct (levels_ b !! i) as [st|] eqn:Hst; [|done]. injection Hi as <-.
  by destruct (saved_Ok base st (bo_level b Hb i base st Hbi Hst)) as (? & ? & _).
Qed.

Lemma used_Apply b e b' i n : builder_ok b → edit_good e → fresh b e → Apply e b = Ok b' → used b' i n → used b i n ∨ n ∈ numbers_at i (new_files_ e).
Proof using Hspec.
  intros Hb He Hf Hap (base & st' & Hbi & Hst' & Hn). destruct (Apply_Ok b e Hb He Hf) as (ps & b1 & _ & E & _ & Hbase & Hb' & Hall). rewrite Hap in E. injection E as <-. rewrite Hbase in Hbi.
  destruct (lookup_lt_is_Some_2 (levels_ b) i) as [st Hst]; [rewrite (bo_levels b Hb), <-(bo_base b Hb); by eapply lookup_lt_Some|].
  destruct (Hall i base st Hbi Hst) as (st'' & Hst'' & _ & Hin). rewrite Hst' in Hst''. injection Hst'' as <-. destruct Hn as [(f & -> & Hfi)%list_elem_of_fmap|Hn]; [|left; exists base, st; tauto].
  apply Hin in Hfi as [Hfi|Hfi]; [left; exists base, st; split; [done|]; split; [done|]; left; by apply list_elem_of_fmap_2|]. right. apply list_elem_of_fmap in Hfi as (g & -> & Hg).
  by apply (list_elem_of_fmap_2 number) in Hg.
Qed.

Lemma used_new ps v i n : used (new_Builder ps v) i n → ∃ files, files_ v !! i = Some files ∧ n ∈ number <$> files.
Proof using. intros (base & st & Hb & Hst & Hn). apply new_builder_lookup in Hst as ->. destruct Hn as [Hn|Hn]; [by apply elem_of_nil in Hn|]. by exists base. Qed.

Lemma all_fresh_cons b e es : all_fresh b (e :: es) → fresh b e ∧ ∀ b', builder_ok b → edit_good e → Apply e b = Ok b' → all_fresh b' es.
Proof using Hspec.
  intros Hf. assert (∀ i, added_numbers i (e :: es) = numbers_at i (new_files_ e) ++ added_numbers i es) as E by done.
  assert (fresh b e) as He.
  { intros i. destruct (Hf i) as [Hnd Hn]. rewrite E in Hnd, Hn. apply NoDup_app in Hnd as (Hnd & _). split; [done|]. intros n Hin. apply Hn, elem_of_app. by left. }
  split; [done|]. intros b' Hb Hg Hap i. destruct (Hf i) as [Hnd Hn]. rewrite E in Hnd, Hn. apply NoDup_app in Hnd as (_ & Hdis & Hnd). split; [done|]. intros n Hin Hused.
  destruct (used_Apply b e b' i n Hb Hg He Hap Hused) as [Hu|Hu]; [by apply (Hn n); [apply elem_of_app; right|]|]. by apply (Hdis n).
Qed.

(** One edit, on a builder and on the version that it would save. *)
Lemma current_same b v e b1 b2 : builder_ok b → files_ v = current b → version_saved v → edit_good e → fresh b e →
  Apply e (new_Builder (compact_pointer_ b) v) = Ok b1 → Apply e b = Ok b2 → current b1 = current b2 ∧ compact_pointer_ b1 = compact_pointer_ b2 ∧ builder_ok b1 ∧ builder_ok b2.
Proof using Hspec.
  intros Hb Ev Hv He Hf H1 H2. pose proof (new_builder_ok (compact_pointer_ b) v Hv) as Hb0. set (b0 := new_Builder (compact_pointer_ b) v) in *.
  assert (current b0 = current b) as Ec by (unfold b0; rewrite new_builder_current by (by apply vs_levels); done).
  assert (fresh b0 e) as Hf0.
  { intros i. destruct (Hf i) as [Hnd Hn]. split; [done|]. intros n Hin (files & Hfi & Hfn)%used_new. apply (Hn n Hin). rewrite Ev in Hfi. unfold current in Hfi. rewrite lookup_zip_with in Hfi.
    destruct (files_ (base_ b) !! i) as [base|] eqn:Hbi; [|done]. destruct (levels_ b !! i) as [st|] eqn:Hst; [|done]. injection Hfi as <-. apply list_elem_of_fmap in Hfn as (f & -> & Hfs).
    destruct (saved_Ok base st (bo_level b Hb i base st Hbi Hst)) as (_ & _ & Hel). apply Hel in Hfs as [Hfs _]. exists base, st. split; [done|]. split; [done|]. destruct Hfs; [left|right]; by apply list_elem_of_fmap_2. }
  destruct (Apply_Ok b0 e Hb0 He Hf0) as (ps & b1' & Ep & E1 & Eps & _ & Hok1 & _). rewrite H1 in E1. injection E1 as <-.
  destruct (Apply_Ok b e Hb He Hf) as (ps' & b2' & Ep' & E2 & Eps' & _ & Hok2 & _). rewrite H2 in E2. injection E2 as <-.
  split; [|split; [rewrite Eps, Eps'; cbn in Ep; congruence|done]]. apply list_eq. intros i. destruct (current b !! i) as [fs|] eqn:Hi.
  - destruct (current_Apply b e b2 i fs Hb He Hf H2 Hi) as (f2 & -> & Hs2 & Hin2). destruct (current_Apply b0 e b1 i fs Hb0 He Hf0 H1) as (f1 & -> & Hs1 & Hin1); [by rewrite Ec|]. f_equal.
    apply (sorted_ext (λ f g, file_cmp f g < 0)); [apply file_cmp_asym|done|done|]. intros x. by rewrite Hin1, Hin2.
  - apply lookup_ge_None in Hi. rewrite current_length in Hi by done. by rewrite !lookup_ge_None_2 by (by rewrite current_length).
Qed.

Lemma apply_all_Ok es : Forall edit_good es → ∀ b v ps v', builder_ok b → SaveTo b new_Version = Ok v → all_fresh b es → save_each es (compact_pointer_ b) v = Ok (ps, v') →
  ∃ b', apply_all es b = Ok b' ∧ SaveTo b' new_Version = Ok v' ∧ compact_pointer_ b' = ps.
Proof using Hspec.
  induction 1 as [|e es He _ IH]; intros b v ps v' Hb Hsave Hf Heach; cbn [save_each apply_all] in *; [injection Heach as <- <-; by exists b|].
  destruct (saved_version b v Hb Hsave) as [Ev Hv]. destruct (all_fresh_cons b e es Hf) as [Hfe Hrest]. destruct (Apply_Ok b e Hb He Hfe) as (ps2 & b2 & _ & E2 & _ & _ & Hb2 & _).
  destruct (Apply e (new_Builder (compact_pointer_ b) v)) as [b1|] eqn:E1; [|done]. cbn [mbind res_bind] in Heach. destruct (SaveTo b1 new_Version) as [v1|] eqn:Es1; [|done]. cbn [mbind res_bind] in Heach.
  destruct (current_same b v e b1 b2 Hb Ev Hv He Hfe E1 E2) as (Ec & Ep & Hb1 & _). rewrite E2. cbn [mbind res_bind]. apply (IH b2 v1); [done| |by apply Hrest|by rewrite <-Ep].
  rewrite SaveTo_Ok by done. rewrite <-Ec. by rewrite <-SaveTo_Ok.
Qed.

Lemma new_builder_saves ps v : version_saved v → SaveTo (new_Builder ps v) new_Version = Ok v.
Proof using Hspec.
  intros Hv. rewrite SaveTo_Ok by by apply new_builder_ok. rewrite new_builder_current by by apply vs_levels. rewrite (vs_fits v Hv). by destruct v.
Qed.

(** Claim C19. Applying a sequence of edits at once, without the versions in between, gives what applying them one by one
    does: if saving a version after each edit passes the checks for overlaps, then so does saving only once, and the
    versions are equal, file by file in the same order, with the same compaction pointers. *)
Theorem builder_together v ps es ps' v' (Hv : version_saved v) (Hes : Forall edit_good es) (Hf : fresh_edits v es) (Heach : save_each es ps v = Ok (ps', v')) :
  ∃ b, apply_all es (new_Builder ps v) = Ok b ∧ SaveTo b new_Version = Ok v' ∧ compact_pointer_ b = ps'.
Proof using Hspec.
  apply (apply_all_Ok es Hes (new_Builder ps v) v); [by apply new_builder_ok|by apply new_builder_saves| |done].
  intros i. destruct (Hf i) as [Hnd Hn]. split; [done|]. intros n Hin (files & Hfi & Hfn)%used_new. by apply (Hn files n).
Qed.
End builder.

(** ** Witness *)

Definition at_key (u : string) (s : Z) : list byte := internal (str u) s kTypeValue.
Definition level_file_at (n : Z) (small large : list byte) : FileMetaData := MkFile 1 100 n 4096 small large.
Definition two_levels : Version :=
  MkVersion [[level_file_at 7 (at_key "a" 12) (at_key "c" 11)]; [level_file_at 4 (at_key "a" 5) (at_key "b" 3); level_file_at 5 (at_key "d" 6) (at_key "e" 1)]; []; []; []; []; []].
(** A table from memory; then files 7 and 4 become file 11. *)
Definition flush_edit : VersionEdit := AddFile 0 9 4096 (at_key "b" 20) (at_key "f" 21) new_VersionEdit.
Definition compact_edit : VersionEdit :=
  AddFile 1 11 8192 (at_key "a" 12) (at_key "c" 11) (DeleteFile 1 4 (DeleteFile 0 7 (SetCompactPointer 0 (at_key "c" 11) new_VersionEdit))).

Lemma builder_together_witness :
  let pointers := repeat [] 7 in ∃ ps v' b,
  save_each (C := BytewiseComparator) [flush_edit; compact_edit] pointers two_levels = Ok (ps, v')
  ∧ apply_all (C := BytewiseComparator) [flush_edit; compact_edit] (new_Builder pointers two_levels) = Ok b
  ∧ SaveTo (user_comparator := BytewiseComparator) b new_Version = Ok v' ∧ compact_pointer_ b = ps.
Proof.
  intros pointers. destruct (save_each (C := BytewiseComparator) [flush_edit; compact_edit] pointers two_levels) as [[ps v']|] eqn:Heach; [|by vm_compute in Heach].
  destruct (builder_together (Hspec := bytewise_spec) two_levels pointers [flush_edit; compact_edit] ps v') as (b & E & Es & Ep).
  - split; [done| |by vm_compute]. intros i files Hi. do 7 (destruct i as [|i]; [cbn in Hi; injection Hi as <-; by repeat (constructor || vm_compute)|]). done.
  - by repeat (constructor || vm_compute).
  - intros i. do 3 (destruct i as [|i]; [split; [apply (bool_decide_unpack _); by vm_compute|]; intros files n Hi Hn; cbn in Hi; injection Hi as <-; cbn in Hn; revert n Hn; apply Forall_forall; repeat (constructor; [apply (bool_decide_unpack _); by vm_compute|]); constructor|]).
    assert (added_numbers (S (S (S i))) [flush_edit; compact_edit] = []) as ->; [|split; [constructor|]; by intros files n _ ?%elem_of_nil].
    unfold added_numbers, numbers_at. cbn [fmap list_fmap flush_edit compact_edit new_files_ AddFile DeleteFile SetCompactPointer with_lists new_VersionEdit Clear app]. rewrite !at_level_cons. cbn [fst]. by rewrite !(proj2 (Z.eqb_neq _ _)) by lia.
  - exact Heach.
  - by exists ps, v', b.
Defined.
