(* ===== verification/Manifest.v ===== *)
(** * The descriptor: leveldb db/version_set.cc

    The numbers of the version set, the log of edits that it keeps in the descriptor, and how it reads them back. The scores of
    levels, which are computed for every new version, and the counts of references are left out. *)
From Stdlib Require Import Strings.String.
From S2P Require Import Prelude Buffers CLib Order Coding Comparator Status DbFormat Env LogFile FileName VersionEdit VersionSet VersionBuilder.

#[local] Open Scope Z_scope.
#[local] Open Scope list_scope.

(** With the writer of the descriptor when it is open; its file is [descriptor_file_]. *)
Record VersionSet (W : Type) := MkVersionSet {
  vs_next_file_number : Z; vs_manifest_file_number : Z; vs_last_sequence : Z; vs_log_number : Z; vs_prev_log_number : Z;
  vs_descriptor_log : option (Writer W); vs_current : Version; vs_compact_pointer : list (list byte) }.
Arguments MkVersionSet {W} _ _ _ _ _ _ _ _.
Arguments vs_next_file_number {W} _.
Arguments vs_manifest_file_number {W} _.
Arguments vs_last_sequence {W} _.
Arguments vs_log_number {W} _.
Arguments vs_prev_log_number {W} _.
Arguments vs_descriptor_log {W} _.
Arguments vs_current {W} _.
Arguments vs_compact_pointer {W} _.

Section manifest.
Context {user_comparator : Comparator} (comparator_name : list byte) (addr : list byte → Z).

Section write.
Context {W : Type} `{WritableFile W}.
#[local] Abbreviation VS := (VersionSet W).

Definition new_VersionSet : VS := MkVersionSet 2 0 0 0 0 None new_Version (repeat [] (Z.to_nat kNumLevels)).

Definition NewFileNumber (vs : VS) : Z * VS :=
  (vs_next_file_number vs, MkVersionSet (u64 (vs_next_file_number vs + 1)) (vs_manifest_file_number vs) (vs_last_sequence vs) (vs_log_number vs) (vs_prev_log_number vs)
    (vs_descriptor_log vs) (vs_current vs) (vs_compact_pointer vs)).
Definition ReuseFileNumber (file_number : Z) (vs : VS) : VS :=
  if vs_next_file_number vs =? u64 (file_number + 1) then
    MkVersionSet file_number (vs_manifest_file_number vs) (vs_last_sequence vs) (vs_log_number vs) (vs_prev_log_number vs) (vs_descriptor_log vs) (vs_current vs) (vs_compact_pointer vs)
  else vs.
Definition SetLastSequence (s : Z) (vs : VS) : res VS :=
  _ ← c_assert (vs_last_sequence vs <=? s);
  mret (MkVersionSet (vs_next_file_number vs) (vs_manifest_file_number vs) s (vs_log_number vs) (vs_prev_log_number vs) (vs_descriptor_log vs) (vs_current vs) (vs_compact_pointer vs)).

(** ** Writing *)

Fixpoint snapshot_pointers (level : Z) (pointers : list (list byte)) (edit : VersionEdit) : VersionEdit :=
  match pointers with
  | [] => edit
  | p :: pointers => snapshot_pointers (level + 1) pointers (match p with [] => edit | _ => SetCompactPointer level p edit end)
  end.
Definition snapshot_level (level : Z) (files : list FileMetaData) (edit : VersionEdit) : VersionEdit :=
  foldl (λ e f, AddFile level (number f) (file_size f) (smallest f) (largest f) e) edit files.
Fixpoint snapshot_files (level : Z) (levels : list (list FileMetaData)) (edit : VersionEdit) : VersionEdit :=
  match levels with [] => edit | files :: levels => snapshot_files (level + 1) levels (snapshot_level level files edit) end.

Definition WriteSnapshot (log : Writer W) (pointers : list (list byte)) (current : Version) : res (Status * Writer W) :=
  let edit := SetComparatorName comparator_name new_VersionEdit in
  let edit := snapshot_pointers 0 pointers edit in
  let edit := snapshot_files 0 (files_ current) edit in
  record ← EncodeTo edit [];
  AddRecord addr record log.

(** What the edit lacks. *)
Definition complete_edit (edit : VersionEdit) (vs : VS) : res VersionEdit :=
  edit ← (if has_log_number_ edit then
            _ ← c_assert (vs_log_number vs <=? log_number_ edit); _ ← c_assert (log_number_ edit <? vs_next_file_number vs); mret edit
          else mret (SetLogNumber (vs_log_number vs) edit));
  let edit := if has_prev_log_number_ edit then edit else SetPrevLogNumber (vs_prev_log_number vs) edit in
  mret (VersionEdit.SetLastSequence (vs_last_sequence vs) (SetNextFile (vs_next_file_number vs) edit)).

(** A record, on the file. *)
Definition log_edit (edit : VersionEdit) (log : Writer W) : res (Status * Writer W) :=
  record ← EncodeTo edit [];
  '(s, log) ← AddRecord addr record log;
  if ok s then let '(s, dest) := wf_Sync (dest_ log) in mret (s, MkWriter dest (block_offset_ log) (type_crc_ log)) else mret (s, log).

(** [new_file] is the answer of [NewWritableFile], for the first edit; [set_current] that of [SetCurrentFile]. The compaction pointers
    are those of the edit from now on, even if it fails. A new file that fails is deleted, which is not seen here. *)
Definition LogAndApply (edit : VersionEdit) (new_file : Status * W) (set_current : Status) (vs : VS) : res (Status * VS) :=
  edit ← complete_edit edit vs;
  builder ← Apply edit (new_Builder (vs_compact_pointer vs) (vs_current vs));
  v ← SaveTo builder new_Version;
  let pointers := compact_pointer_ builder in
  '(s, log, created) ← (match vs_descriptor_log vs with
    | Some log => mret (OK, Some log, false)
    | None =>
        _ ← DescriptorFileName [] (vs_manifest_file_number vs);
        let '(s, file) := new_file in
        if ok s then log ← new_Writer addr file; '(s, log) ← WriteSnapshot log pointers (vs_current vs); mret (s, Some log, true) else mret (s, None, true)
    end);
  '(s, log) ← (match log with
    | Some log => if ok s then '(s, log) ← log_edit edit log; mret (s, Some log) else mret (s, Some log)
    | None => mret (s, None)
    end);
  let s := if ok s && created then set_current else s in
  mret (if ok s then
          (s, MkVersionSet (vs_next_file_number vs) (vs_manifest_file_number vs) (vs_last_sequence vs) (log_number_ edit) (prev_log_number_ edit) log v pointers)
        else
          (s, MkVersionSet (vs_next_file_number vs) (vs_manifest_file_number vs) (vs_last_sequence vs) (vs_log_number vs) (vs_prev_log_number vs)
                (if created then None else log) (vs_current vs) pointers)).
End write.

(** ** Reading *)

(** The numbers that the records give. *)
Record Numbers := MkNumbers { n_next_file : option Z; n_last_sequence : option Z; n_log_number : option Z; n_prev_log_number : option Z }.
Definition take_numbers (edit : VersionEdit) (n : Numbers) : Numbers :=
  MkNumbers (if has_next_file_number_ edit then Some (next_file_number_ edit) else n_next_file n)
    (if has_last_sequence_ edit then Some (last_sequence_ edit) else n_last_sequence n)
    (if has_log_number_ edit then Some (log_number_ edit) else n_log_number n)
    (if has_prev_log_number_ edit then Some (prev_log_number_ edit) else n_prev_log_number n).

Section read.
Context {F : Type} `{SequentialFile F}.

(** [LogReporter] keeps the first error. *)
Definition LogReporter_Corruption (status : Status) (report : Z * Status) : Status := if ok status then report.2 else status.

Fixpoint recover_edits (fuel : nat) (reader : Reader F) (s : Status) (b : Builder) (n : Numbers) : res (Status * Builder * Numbers) :=
  match fuel with
  | O => Err Diverge
  | S fuel' =>
      '(record, reader') ← ReadRecord addr fuel reader;
      let s := foldl LogReporter_Corruption s (drop (length (reports reader)) (reports reader')) in
      match record with
      | None => mret (s, b, n)
      | Some record =>
          if negb (ok s) then mret (s, b, n)
          else
            '(s, edit) ← DecodeFrom record new_VersionEdit;
            s ← (if ok s && has_comparator_ edit && negb (bool_decide (comparator_ edit = comparator_name)) then
                   InvalidArgument (comparator_ edit ++ str " does not match existing comparator ") comparator_name
                 else mret s);
            b ← (if ok s then Apply edit b else mret b);
            recover_edits fuel' reader' s b (take_numbers edit n)
      end
  end.

Definition MarkFileNumberUsed (number next : Z) : Z := if next <=? number then u64 (number + 1) else next.

(** [open] is [NewSequentialFile]. Only the numbers, the version and the pointers change. *)
Definition Recover {W : Type} (fuel : nat) (dbname : list byte) (open : list byte → Status * F) (vs : VersionSet W) : res (Status * VersionSet W) :=
  '(s, current) ← ReadFileToString fuel (open (CurrentFileName dbname));
  if negb (ok s) then mret (s, vs)
  else if negb (bool_decide (last current = Some NEWLINE)) then s ← Corruption (str "CURRENT file does not end with newline") []; mret (s, vs)
  else
    let '(s, file) := open (dbname ++ str "/" ++ take (pred (length current)) current) in
    if negb (ok s) then mret (s, vs)
    else
      '(s, b, n) ← recover_edits fuel (new_Reader file true true 0) OK (new_Builder (vs_compact_pointer vs) (vs_current vs)) (MkNumbers None None None None);
      let next := if ok s then MarkFileNumberUsed (default 0 (n_log_number n)) (MarkFileNumberUsed (default 0 (n_prev_log_number n)) (vs_next_file_number vs)) else vs_next_file_number vs in
      s ← (if negb (ok s) then mret s
           else match n_next_file n, n_log_number n, n_last_sequence n with
             | None, _, _ => Corruption (str "no meta-nextfile entry in descriptor") []
             | _, None, _ => Corruption (str "no meta-lognumber entry in descriptor") []
             | _, _, None => Corruption (str "no last-sequence-number entry in descriptor") []
             | _, _, _ => mret s
             end);
      if ok s then
        v ← SaveTo b new_Version;
        let next_file := default 0 (n_next_file n) in
        mret (s, MkVersionSet (u64 (next_file + 1)) next_file (default 0 (n_last_sequence n)) (default 0 (n_log_number n)) (default 0 (n_prev_log_number n))
                   (vs_descriptor_log vs) v (compact_pointer_ b))
      else
        mret (s, MkVersionSet next (vs_manifest_file_number vs) (vs_last_sequence vs) (vs_log_number vs) (vs_prev_log_number vs)
                   (vs_descriptor_log vs) (vs_current vs) (compact_pointer_ b)).
End read.
End manifest.
