(* ===== verification/ManifestProps.v ===== *)
(** * The descriptor is read back

    What a snapshot holds, what the version set has written after each edit, and that recovery from the descriptor, whole or cut
    at any byte, finds the state after one of the edits. *)
From Stdlib Require Import Strings.String.
From stdpp Require Import gmap sorting.
From S2P Require Import Prelude Buffers CLib Order Coding Comparator Status DbFormat Env LogFile LogProps FileName VersionEdit VersionSet VersionProps VersionBuilder BuilderProps Manifest.

#[local] Open Scope Z_scope.
#[local] Open Scope list_scope.

Section manifest.
Context {C : Comparator} {okk : list byte → Prop} {c : list byte → list byte → Z} {Hspec : ComparatorSpec C okk c}.
#[local] Abbreviation ikey := (internal_ok okk).
#[local] Abbreviation good := (keys_ok (okk := okk)).
#[local] Abbreviation saved_ok := (version_saved (okk := okk) (c := c)).
#[local] Abbreviation builder_fine := (builder_ok (okk := okk) (c := c)).
#[local] Abbreviation levels_of := (current (c := c)).
#[local] Instance manifest_order : CmpOrder c := @spec_order _ _ _ Hspec.

(** ** Snapshots *)

Fixpoint pointer_pairs (level : Z) (pointers : list (list byte)) : list (Z * list byte) :=
  match pointers with [] => [] | p :: pointers => (match p with [] => [] | _ => [(level, p)] end) ++ pointer_pairs (level + 1) pointers end.
(** The file as a record of an edit has it. *)
Definition bare (f : FileMetaData) : FileMetaData := new_FileMetaData (number f) (file_size f) (smallest f) (largest f).
Fixpoint file_pairs (level : Z) (levels : list (list FileMetaData)) : list (Z * FileMetaData) :=
  match levels with [] => [] | files :: levels => ((λ f, (level, bare f)) <$> files) ++ file_pairs (level + 1) levels end.

Lemma snapshot_pointers_eq pointers : ∀ level e, snapshot_pointers level pointers e = with_lists (compact_pointers_ e ++ pointer_pairs level pointers) (deleted_files_ e) (new_files_ e) e.
Proof using.
  induction pointers as [|p pointers IH]; intros level e; cbn [snapshot_pointers pointer_pairs]; [rewrite app_nil_r; by destruct e|]. rewrite IH. destruct p; [done|]. cbn. by rewrite <-app_assoc.
Qed.

Lemma snapshot_level_eq level files : ∀ e, snapshot_level level files e = with_lists (compact_pointers_ e) (deleted_files_ e) (new_files_ e ++ ((λ f, (level, bare f)) <$> files)) e.
Proof using.
  induction files as [|f files IH]; intros e; [cbn; rewrite app_nil_r; by destruct e|]. unfold snapshot_level in *. cbn [foldl fmap list_fmap]. rewrite IH. cbn. by rewrite <-app_assoc.
Qed.

Lemma snapshot_files_eq levels : ∀ level e, snapshot_files level levels e = with_lists (compact_pointers_ e) (deleted_files_ e) (new_files_ e ++ file_pairs level levels) e.
Proof using.
  induction levels as [|files levels IH]; intros level e; cbn [snapshot_files file_pairs]; [rewrite app_nil_r; by destruct e|]. rewrite IH, snapshot_level_eq. cbn. by rewrite <-app_assoc.
Qed.

Definition snapshot_edit (name : list byte) (pointers : list (list byte)) (v : Version) : VersionEdit :=
  with_lists (pointer_pairs 0 pointers) [] (file_pairs 0 (files_ v)) (SetComparatorName name new_VersionEdit).

Lemma at_level_other {A} (i : nat) (l : list (Z * A)) : Forall (λ p, p.1 ≠ Z.of_nat i) l → at_level i l = [].
Proof using. induction 1 as [|p l Hp _ IH]; [done|]. rewrite at_level_cons, IH. by rewrite (proj2 (Z.eqb_neq _ _) Hp). Qed.

Lemma at_level_app {A} (i : nat) (l1 l2 : list (Z * A)) : at_level i (l1 ++ l2) = at_level i l1 ++ at_level i l2.
Proof using. induction l1 as [|p l1 IH]; [done|]. cbn [app]. rewrite !at_level_cons, IH. by destruct (_ =? _). Qed.

Lemma at_level_all {A} (i : nat) (l : list A) : at_level i ((λ x, (Z.of_nat i, x)) <$> l) = l.
Proof using. induction l as [|x l IH]; [done|]. cbn [fmap list_fmap]. rewrite at_level_cons. cbn [fst snd]. by rewrite Z.eqb_refl, IH. Qed.

Lemma file_pairs_levels levels : ∀ n, Forall (λ p : Z * FileMetaData, Z.of_nat n ≤ p.1 < Z.of_nat (n + length levels)) (file_pairs (Z.of_nat n) levels).
Proof using.
  induction levels as [|files levels IH]; intros n; cbn [file_pairs]; [constructor|]. apply Forall_app. split.
  - apply Forall_fmap, Forall_forall. intros f _. cbn. lia.
  - replace (Z.of_nat n + 1) with (Z.of_nat (S n)) by lia. eapply Forall_impl; [apply IH|]. intros p Hp. cbn in *. lia.
Qed.

Lemma file_pairs_at levels i files : ∀ n, levels !! i = Some files → at_level (n + i) (file_pairs (Z.of_nat n) levels) = bare <$> files.
Proof using.
  revert i. induction levels as [|fs levels IH]; intros i n Hi; [done|]. cbn [file_pairs]. rewrite at_level_app. replace (Z.of_nat n + 1) with (Z.of_nat (S n)) by lia. destruct i as [|i].
  - injection Hi as ->. rewrite Nat.add_0_r. pose proof (at_level_all n (bare <$> files)) as E. rewrite <-list_fmap_compose in E. unfold compose in E. rewrite E.
    rewrite at_level_other; [by rewrite app_nil_r|]. eapply Forall_impl; [apply file_pairs_levels|]. intros p Hp. cbn in *. lia.
  - rewrite at_level_other; [|apply Forall_fmap, Forall_forall; intros f _; cbn; lia]. cbn [app]. rewrite <-(IH i (S n) Hi). f_equal. lia.
Qed.

(** A compaction pointer is empty, or an internal key. *)
Definition pointer_ok (p : list byte) : Prop := p = [] ∨ ikey p ∧ slice_ok p.
Definition pointers_ok (ps : list (list byte)) : Prop := length ps = Z.to_nat kNumLevels ∧ Forall pointer_ok ps.

Lemma restore_pointers ps : Forall pointer_ok ps → ∀ before, (length before + length ps = Z.to_nat kNumLevels)%nat →
  apply_pointers (pointer_pairs (Z.of_nat (length before)) ps) (before ++ repeat [] (length ps)) = Ok (before ++ ps).
Proof using.
  induction 1 as [|p ps Hp _ IH]; intros before Hl; [done|]. cbn [pointer_pairs length repeat] in *. specialize (IH (before ++ [p])). rewrite length_app in IH. cbn [length] in IH.
  specialize (IH ltac:(lia)). replace (Z.of_nat (length before + 1)) with (Z.of_nat (length before) + 1) in IH by lia. rewrite <-!app_assoc in IH. cbn [app] in IH.
  destruct p as [|x p]; [exact IH|]. cbn [app apply_pointers]. rewrite level_index_Ok by lia. cbn [mbind res_bind]. destruct Hp as [?|[Hp _]]; [done|]. rewrite (ikey_encode (okk := okk)) by done. cbn [mbind res_bind].
  rewrite Nat2Z.id. rewrite insert_app_r_alt, Nat.sub_diag by lia. exact IH.
Qed.

(** Files as edits leave them: with a count of 1 and their first number of seeks, and with distinct numbers at each level. *)
Record version_kept (v : Version) : Prop := {
  vk_saved : saved_ok v;
  vk_files files f : files ∈ files_ v → f ∈ files → f = opened (bare f) ∧ file_ok (bare f);
  vk_numbers files : files ∈ files_ v → NoDup (number <$> files) }.

Lemma new_version_saved : saved_ok new_Version.
Proof using.
  split; [done| |done]. intros i files Hi. apply list_elem_of_lookup_2, list_elem_of_In, repeat_spec in Hi. subst files. split; constructor.
Qed.

Lemma new_version_unused ps i n : ¬ used (new_Builder ps new_Version) i n.
Proof using. intros (files & Hi & Hn)%used_new. apply list_elem_of_lookup_2, list_elem_of_In, repeat_spec in Hi. subst files. by apply elem_of_nil in Hn. Qed.

Lemma file_pairs_elem v p : p ∈ file_pairs 0 (files_ v) → ∃ files f, files ∈ files_ v ∧ f ∈ files ∧ p.2 = bare f.
Proof using.
  generalize 0. induction (files_ v) as [|files levels IH]; intros level; cbn [file_pairs]; [by intros ?%elem_of_nil|]. intros [Hp|Hp]%elem_of_app.
  - apply list_elem_of_fmap in Hp as (f & -> & Hf). exists files, f. split; [by left|done].
  - destruct (IH _ Hp) as (files' & f & Hl & Hf). exists files', f. split; [by right|done].
Qed.

Lemma snapshot_numbers name ps v i : version_kept v → numbers_at i (new_files_ (snapshot_edit name ps v)) = match files_ v !! i with Some files => number <$> files | None => [] end.
Proof using.
  intros Hv. unfold numbers_at, snapshot_edit. cbn [new_files_ with_lists]. destruct (files_ v !! i) as [files|] eqn:Hi.
  - rewrite (file_pairs_at (files_ v) i files 0 Hi : at_level i (file_pairs 0 (files_ v)) = _). by rewrite <-list_fmap_compose.
  - rewrite at_level_other; [done|]. eapply Forall_impl; [apply (file_pairs_levels (files_ v) 0)|]. apply lookup_ge_None in Hi. intros p Hp. cbn in *. lia.
Qed.

Lemma snapshot_good name ps v : pointers_ok ps → version_kept v → edit_good (okk := okk) (snapshot_edit name ps v).
Proof using.
  intros [Hl Hps] Hv. split; [|split; [constructor|]]; cbn [compact_pointers_ new_files_ with_lists snapshot_edit].
  - assert (∀ n, (n + length ps = Z.to_nat kNumLevels)%nat → Forall (λ p : Z * list byte, 0 ≤ p.1 < kNumLevels ∧ ikey p.2) (pointer_pairs (Z.of_nat n) ps)) as Hp; [|apply (Hp 0%nat); lia].
    clear Hl. induction Hps as [|p ps Hp _ IH]; intros n Hn; cbn [pointer_pairs length] in *; [constructor|]. apply Forall_app. split; [|replace (Z.of_nat n + 1) with (Z.of_nat (S n)) by lia; apply IH; lia].
    destruct p as [|x p]; [constructor|]. constructor; [|constructor]. cbn. split; [lia|]. by destruct Hp as [?|[? _]].
  - pose proof (file_pairs_levels (files_ v) 0) as Hr. pose proof (vs_levels v (vk_saved v Hv)) as Hlen. apply Forall_forall. intros p Hp. rewrite Forall_forall in Hr. pose proof (Hr p Hp) as Hrp. cbn in Hrp. split; [lia|].
    destruct (file_pairs_elem v p Hp) as (files & f & Hfl & Hf & ->). apply list_elem_of_lookup in Hfl as [i Hi]. destruct (vs_good v (vk_saved v Hv) i files Hi) as [Hg _]. rewrite Forall_forall in Hg. exact (Hg f Hf).
Qed.

Lemma snapshot_fresh name ps qs v : version_kept v → fresh (new_Builder qs new_Version) (snapshot_edit name ps v).
Proof using.
  intros Hv i. split; [|intros n _; apply new_version_unused]. rewrite snapshot_numbers by done. destruct (files_ v !! i) as [files|] eqn:Hi; [|constructor]. apply (vk_numbers v Hv). by eapply list_elem_of_lookup_2.
Qed.

(** Saving the snapshot's edit gives back the version and the pointers. *)
Lemma save_snapshot name ps v : pointers_ok ps → version_kept v →
  save_each [snapshot_edit name ps v] (repeat [] (Z.to_nat kNumLevels)) new_Version = Ok (ps, v).
Proof using Hspec.
  intros Hps Hv. pose proof (snapshot_good name ps v Hps Hv) as Hg. set (qs := repeat [] (Z.to_nat kNumLevels)). pose proof (snapshot_fresh name ps qs v Hv) as Hf. set (e := snapshot_edit name ps v) in *.
  pose proof (new_builder_ok (okk := okk) (c := c) qs new_Version new_version_saved) as Hb. destruct (Apply_Ok _ e Hb Hg Hf) as (ps' & b' & Ep & E & Eps & _ & Hb' & _).
  assert (ps' = ps) as ->. { destruct Hps as [Hl Hps]. pose proof (restore_pointers ps Hps [] Hl) as Hr. unfold qs in Ep. rewrite <-Hl in Ep. change (compact_pointers_ e) with (pointer_pairs 0 ps) in Ep. cbn [compact_pointer_ new_Builder app] in *. cbn [length] in Hr. change (Z.of_nat 0) with 0 in Hr. congruence. }
  cbn [save_each]. rewrite E. cbn [mbind res_bind]. assert (levels_of b' = files_ v) as Ec.
  { apply list_eq. intros i. pose proof (vs_levels v (vk_saved v Hv)) as Hlen. destruct (files_ v !! i) as [files|] eqn:Hi; [|apply lookup_ge_None_2; rewrite (current_length (okk := okk) (c := c) b' Hb'); apply lookup_ge_None in Hi; lia].
    assert (levels_of (new_Builder qs new_Version) !! i = Some []) as Hc. { rewrite new_builder_current by done. apply lookup_lt_Some in Hi. apply lookup_repeat. lia. }
    destruct (current_Apply _ e b' i [] Hb Hg Hf E Hc) as (fs' & -> & Hs & Hin). f_equal. destruct (vs_good v (vk_saved v Hv) i files Hi) as [_ Hsf].
    apply (sorted_ext (λ f g, file_cmp (c := c) f g < 0)); [apply file_cmp_asym|done|done|]. intros x. rewrite Hin, elem_of_nil. change (new_files_ e) with (file_pairs 0 (files_ v)). rewrite (file_pairs_at (files_ v) i files 0 Hi : at_level i (file_pairs 0 (files_ v)) = _).
    assert (opened <$> (bare <$> files) = files) as ->; [|tauto]. rewrite <-list_fmap_compose. transitivity (id <$> files); [|apply list_fmap_id]. apply list_fmap_ext. intros j f Hj. cbn. symmetry. apply (vk_files v Hv files); by eapply list_elem_of_lookup_2. }
  rewrite SaveTo_Ok, Ec, (vs_fits v (vk_saved v Hv)) by done. cbn [mbind res_bind]. rewrite Eps. by destruct v.
Qed.

(** ** Compaction pointers *)

Definition put_pointer (q : list (list byte)) (p : Z * list byte) : list (list byte) := <[Z.to_nat p.1 := p.2]> q.

Lemma apply_pointers_eq ps : Forall (λ p : Z * list byte, 0 ≤ p.1 < kNumLevels ∧ ikey p.2) ps → ∀ q, apply_pointers ps q = Ok (foldl put_pointer q ps).
Proof using.
  induction 1 as [|[level key] ps [Hl Hk] _ IH]; intros q; [done|]. cbn [apply_pointers foldl]. cbn [fst snd] in *. rewrite level_index_Ok by done. cbn [mbind res_bind]. rewrite (ikey_encode (okk := okk)) by done. cbn [mbind res_bind]. apply IH.
Qed.

Lemma put_pointers_length ps : ∀ q, length (foldl put_pointer q ps) = length q.
Proof using. induction ps as [|p ps IH]; intros q; [done|]. cbn [foldl]. rewrite IH. apply length_insert. Qed.

Lemma put_pointers_lookup ps i : Forall (λ p : Z * list byte, 0 ≤ p.1) ps → ∀ q, (i < length q)%nat → foldl put_pointer q ps !! i = match last (at_level i ps) with Some k => Some k | None => q !! i end.
Proof using.
  induction 1 as [|[level key] ps Hl _ IH]; intros q Hi; [done|]. cbn [foldl fst] in *. rewrite IH by (unfold put_pointer; by rewrite length_insert). rewrite at_level_cons. cbn [fst snd]. unfold put_pointer. cbn [fst snd].
  destruct (Z.eqb_spec level (Z.of_nat i)) as [->|Hne].
  - rewrite last_cons, Nat2Z.id, list_lookup_insert_eq by done. by destruct (last (at_level i ps)).
  - by rewrite list_lookup_insert_ne by lia.
Qed.

Lemma put_pointers_again ps q : Forall (λ p : Z * list byte, 0 ≤ p.1) ps → foldl put_pointer (foldl put_pointer q ps) ps = foldl put_pointer q ps.
Proof using.
  intros Hps. apply list_eq. intros i. destruct (decide (i < length q)%nat) as [Hi|Hi].
  - rewrite put_pointers_lookup by (done || by rewrite put_pointers_length). destruct (last (at_level i ps)) eqn:E; [|done]. by rewrite put_pointers_lookup, E.
  - by rewrite !lookup_ge_None_2 by (rewrite !put_pointers_length; lia).
Qed.

Lemma Apply_again e ps v b : edit_good (okk := okk) e → Apply e (new_Builder ps v) = Ok b → Apply e (new_Builder (compact_pointer_ b) v) = Ok b.
Proof using.
  intros (Hp & _) E. unfold Apply in *. cbn [compact_pointer_ levels_ new_Builder base_] in *. rewrite apply_pointers_eq in E |- * by done. cbn [mbind res_bind] in *.
  destruct (apply_deleted _ _) as [l1|]; [|done]. cbn [mbind res_bind] in *. destruct (apply_added _ _) as [l2|]; [|done]. cbn [mbind res_bind mret res_ret] in *. injection E as <-. cbn [compact_pointer_].
  rewrite put_pointers_again; [done|]. eapply Forall_impl; [exact Hp|]. intros p Hpp. cbn in Hpp. lia.
Qed.

Lemma Apply_pointers_ok e ps v b : edit_good (okk := okk) e → edit_ok e → pointers_ok ps → Apply e (new_Builder ps v) = Ok b → pointers_ok (compact_pointer_ b).
Proof using.
  intros (Hp & _) (Hf & _) [Hl Hps] E. unfold Apply in E. cbn [compact_pointer_ levels_ new_Builder base_] in E. rewrite apply_pointers_eq in E by done. cbn [mbind res_bind] in E.
  destruct (apply_deleted _ _) as [l1|]; [|done]. cbn [mbind res_bind] in E. destruct (apply_added _ _) as [l2|]; [|done]. cbn [mbind res_bind mret res_ret] in E. injection E as <-. cbn [compact_pointer_].
  split; [by rewrite put_pointers_length|]. apply fields_ok in Hf as (_ & Hk & _ & _). clear Hl. revert ps Hps. induction (compact_pointers_ e) as [|p l IH]; intros ps Hps; [done|]. cbn [foldl].
  apply Forall_cons in Hp as [[_ Hp] Hl], Hk as [[_ [_ Hk]] Hks]. apply IH; [done|done|]. unfold put_pointer. apply Forall_insert; [done|]. by right.
Qed.

(** ** Complete edits *)

Context {W : Type} `{HW : WritableFileSpec W}.
#[local] Abbreviation VS := (VersionSet W).

Definition numbers_ok (vs : VS) : Prop := number_ok (vs_next_file_number vs) ∧ number_ok (vs_last_sequence vs) ∧ number_ok (vs_log_number vs) ∧ number_ok (vs_prev_log_number vs).
Definition complete (e : VersionEdit) : Prop := has_log_number_ e = true ∧ has_prev_log_number_ e = true ∧ has_next_file_number_ e = true ∧ has_last_sequence_ e = true.
(** The same files and pointers, and the same name. *)
Definition same_lists (e e' : VersionEdit) : Prop :=
  compact_pointers_ e' = compact_pointers_ e ∧ deleted_files_ e' = deleted_files_ e ∧ new_files_ e' = new_files_ e ∧ comparator_ e' = comparator_ e ∧ has_comparator_ e' = has_comparator_ e.

Lemma complete_edit_Ok e e' vs : edit_ok e → numbers_ok vs → complete_edit e vs = Ok e' →
  edit_ok e' ∧ complete e' ∧ same_lists e e' ∧ next_file_number_ e' = vs_next_file_number vs ∧ last_sequence_ e' = vs_last_sequence vs.
Proof using.
  intros He (Hn & Hs & Hl & Hp) E. unfold complete_edit in E.
  assert (∃ e1, (if has_log_number_ e then _ ← c_assert (vs_log_number vs <=? log_number_ e); _ ← c_assert (log_number_ e <? vs_next_file_number vs); mret e else mret (SetLogNumber (vs_log_number vs) e)) = Ok e1
    ∧ edit_ok e1 ∧ has_log_number_ e1 = true ∧ same_lists e e1) as (e1 & E1 & H1 & Hl1 & Hs1).
  { destruct (has_log_number_ e) eqn:Eh; [|eexists; split; [done|]; split; [by apply (set_field_ok (FLogNumber _))|done]]. exists e. split; [|done]. unfold c_assert in *. destruct (_ <=? _); [|done]. by destruct (_ <? _). }
  rewrite E1 in E. cbn [mbind res_bind mret res_ret] in E. injection E as <-. set (e2 := if has_prev_log_number_ e1 then e1 else SetPrevLogNumber (vs_prev_log_number vs) e1).
  assert (edit_ok e2 ∧ has_log_number_ e2 = true ∧ has_prev_log_number_ e2 = true ∧ same_lists e e2) as (H2 & Hl2 & Hp2 & Hs2).
  { unfold e2. destruct (has_prev_log_number_ e1) eqn:Eh; [done|]. split; [by apply (set_field_ok (FPrevLogNumber _))|done]. }
  split; [by apply (set_field_ok (FLastSequence _)), (set_field_ok (FNextFile _))|]. done.
Qed.

Lemma encode_decode e : edit_ok e → ∃ record, EncodeTo e [] = Ok record ∧ DecodeFrom record new_VersionEdit = Ok (OK, e).
Proof using.
  intros He. pose proof He as (Hf & _). eexists. split; [by apply EncodeTo_Ok|]. unfold DecodeFrom. cbn [app]. pose proof (fields_length (fields e)).
  rewrite decode_loop_Ok by (done || lia). cbn [mbind res_bind]. rewrite set_fields_Ok by done. do 2 f_equal. by destruct e.
Qed.

(** ** Writing *)

Context {F : Type} `{HSF : SequentialFileSpec F}.
Context (name : list byte) (Hname : slice_ok name) (addr : list byte → Z) (Haddr : ∀ bs, zlen bs ≤ LogFile.kBlockSize → 0 ≤ addr bs < 2^63).
Definition decodes (e : VersionEdit) (record : list byte) : Prop := DecodeFrom record new_VersionEdit = Ok (OK, e).

Lemma snapshot_edit_ok ps v : pointers_ok ps → version_kept v → edit_ok (snapshot_edit name ps v).
Proof using Hname.
  intros Hp Hv. pose proof (snapshot_good name ps v Hp Hv) as (Hgp & _ & Hgf). split; [|by repeat constructor]. apply fields_ok. split; [by split_and!|]. split; [|split; [constructor|]].
  - destruct Hp as [_ Hps]. assert (∀ level, Forall (λ p : Z * list byte, key_ok p.2) (pointer_pairs level ps)) as Hk.
    { clear Hgp Hgf. induction Hps as [|p ps Hp _ IH]; intros level; cbn [pointer_pairs]; [constructor|]. apply Forall_app. split; [|apply IH]. destruct p as [|x p]; [constructor|]. constructor; [|constructor]. split; [done|]. by destruct Hp as [?|[_ ?]]. }
    specialize (Hk 0). cbn [compact_pointers_ snapshot_edit with_lists] in *. rewrite Forall_forall in Hgp, Hk |- *. intros p Hin. split; [by apply Hgp|by apply Hk].
  - apply Forall_forall. intros p Hin. rewrite Forall_forall in Hgf. split; [by apply Hgf|]. destruct (file_pairs_elem v p Hin) as (files & f & Hfl & Hf & ->). by apply (vk_files v Hv files f).
Qed.

Lemma WriteSnapshot_Ok log records ps v : pointers_ok ps → version_kept v → log_holds log records →
  ∃ r log', WriteSnapshot name addr log ps v = Ok (OK, log') ∧ log_holds log' (records ++ [r]) ∧ decodes (snapshot_edit name ps v) r.
Proof using HW Hname Haddr.
  intros Hp Hv Hlog. destruct (encode_decode _ (snapshot_edit_ok ps v Hp Hv)) as (r & Er & Hd). unfold WriteSnapshot. rewrite snapshot_pointers_eq, snapshot_files_eq. cbn [compact_pointers_ deleted_files_ new_files_ with_lists SetComparatorName new_VersionEdit Clear app].
  change (with_lists _ _ _ (with_lists _ _ _ _)) with (snapshot_edit name ps v). rewrite Er. cbn [mbind res_bind].
  destruct (AddRecord_holds addr Haddr log records r Hlog) as (log' & Ea & Hl'). exists r, log'. by split_and!.
Qed.

Lemma log_edit_Ok e r log records : EncodeTo e [] = Ok r → log_holds log records → ∃ log', log_edit addr e log = Ok (OK, log') ∧ log_holds log' (records ++ [r]).
Proof using HW Haddr.
  intros Er Hlog. unfold log_edit. rewrite Er. cbn [mbind res_bind]. destruct (AddRecord_holds addr Haddr log records r Hlog) as (l1 & -> & Hl1). cbn [mbind res_bind]. change (ok OK) with true. cbv iota.
  destruct (Sync_spec (dest_ l1)) as (d & -> & Hd). eexists. split; [done|]. by apply log_holds_dest.
Qed.

(** What has been written since [v0] was current: the snapshot, with the pointers [p0], and the edits [es]. *)
Record written (p0 : list (list byte)) (v0 : Version) (es : list VersionEdit) (vs : VS) : Prop := {
  wr_log : ∃ log records, vs_descriptor_log vs = Some log ∧ log_holds log records ∧ Forall2 decodes (snapshot_edit name p0 v0 :: es) records;
  wr_saved : save_each es p0 v0 = Ok (vs_compact_pointer vs, vs_current vs);
  wr_edits : Forall (λ e, edit_good (okk := okk) e ∧ complete e ∧ (has_comparator_ e = true → comparator_ e = name)) es;
  wr_numbers : ∃ e, last es = Some e ∧ next_file_number_ e = vs_next_file_number vs ∧ last_sequence_ e = vs_last_sequence vs ∧ log_number_ e = vs_log_number vs ∧ prev_log_number_ e = vs_prev_log_number vs;
  wr_ok : number_ok (vs_log_number vs) ∧ number_ok (vs_prev_log_number vs) }.

Lemma save_each_snoc es e : ∀ ps v, save_each (es ++ [e]) ps v = '(ps, v) ← save_each es ps v; b ← Apply e (new_Builder ps v); v ← SaveTo b new_Version; mret (compact_pointer_ b, v).
Proof using.
  induction es as [|x es IH]; intros ps v; cbn [app save_each]; [done|].
  destruct (Apply x (new_Builder ps v)) as [b|]; [|done]. cbn [mbind res_bind]. destruct (SaveTo b new_Version) as [v'|]; [|done]. cbn [mbind res_bind]. apply IH.
Qed.

Definition edit_fine (e : VersionEdit) : Prop := edit_ok e ∧ edit_good (okk := okk) e ∧ (has_comparator_ e = true → comparator_ e = name).

Lemma same_lists_good e e' : same_lists e e' → edit_good (okk := okk) e → edit_good (okk := okk) e'.
Proof using. intros (E1 & E2 & E3 & _). unfold edit_good. by rewrite E1, E2, E3. Qed.

Lemma edit_numbers e : edit_ok e → number_ok (log_number_ e) ∧ number_ok (prev_log_number_ e).
Proof using.
  intros (Hf & _ & Hl & Hp & _). apply fields_ok in Hf as ((_ & Hl' & Hp' & _) & _). split.
  - destruct (has_log_number_ e); [by apply Hl'|]. rewrite Hl by done. done.
  - destruct (has_prev_log_number_ e); [by apply Hp'|]. rewrite Hp by done. done.
Qed.

(** The parts of a run of [LogAndApply] on files without errors. *)
Lemma LogAndApply_parts e dest vs s vs' : edit_fine e → numbers_ok vs → LogAndApply name addr e (OK, dest) OK vs = Ok (s, vs') →
  ∃ e' b v, complete_edit e vs = Ok e' ∧ edit_fine e' ∧ complete e' ∧ same_lists e e' ∧ next_file_number_ e' = vs_next_file_number vs ∧ last_sequence_ e' = vs_last_sequence vs
    ∧ Apply e' (new_Builder (vs_compact_pointer vs) (vs_current vs)) = Ok b ∧ SaveTo b new_Version = Ok v.
Proof using.
  intros (He & Hg & Hc) Hn E. unfold LogAndApply in E. destruct (complete_edit e vs) as [e'|] eqn:Ee; [|done]. cbn [mbind res_bind] in E. destruct (complete_edit_Ok e e' vs He Hn Ee) as (He' & Hcomp & Hsame & Hnext & Hlast).
  destruct (Apply e' _) as [b|] eqn:Eb; [|done]. cbn [mbind res_bind] in E. destruct (SaveTo b new_Version) as [v|] eqn:Ev; [|done]. exists e', b, v. split; [done|]. split; [|done].
  split; [done|]. split; [by apply (same_lists_good e)|]. destruct Hsame as (_ & _ & _ & -> & ->). done.
Qed.

Definition installed (vs : VS) (e : VersionEdit) (log : Writer W) (v : Version) (b : Builder) : VS :=
  MkVersionSet (vs_next_file_number vs) (vs_manifest_file_number vs) (vs_last_sequence vs) (log_number_ e) (prev_log_number_ e) (Some log) v (compact_pointer_ b).

Lemma run_first e e' b v dest vs : complete_edit e vs = Ok e' → edit_ok e' → edit_good (okk := okk) e' → Apply e' (new_Builder (vs_compact_pointer vs) (vs_current vs)) = Ok b → SaveTo b new_Version = Ok v →
  vs_descriptor_log vs = None → pointers_ok (vs_compact_pointer vs) → version_kept (vs_current vs) → 0 < vs_manifest_file_number vs → wf_contents dest = [] →
  ∃ log records, LogAndApply name addr e (OK, dest) OK vs = Ok (OK, installed vs e' log v b) ∧ log_holds log records ∧ Forall2 decodes [snapshot_edit name (compact_pointer_ b) (vs_current vs); e'] records.
Proof using HW Hname Haddr.
  intros Ee He' Hg' Eb Ev Hnone Hp Hk Hm Hempty. unfold LogAndApply. rewrite Ee. cbn [mbind res_bind]. rewrite Eb. cbn [mbind res_bind]. rewrite Ev. cbn [mbind res_bind]. rewrite Hnone.
  unfold DescriptorFileName. rewrite c_assert_true by lia. cbn [mbind res_bind mret res_ret]. change (ok OK) with true. cbv iota.
  destruct (new_log_holds addr Haddr dest Hempty) as (l0 & -> & Hl0). cbn [mbind res_bind].
  destruct (WriteSnapshot_Ok l0 [] (compact_pointer_ b) (vs_current vs) (Apply_pointers_ok e' _ _ b Hg' He' Hp Eb) Hk Hl0) as (r0 & l1 & -> & Hl1 & Hd0). cbn [mbind res_bind mret res_ret]. change (ok OK) with true. cbv iota.
  destruct (encode_decode e' He') as (r & Er & Hd). destruct (log_edit_Ok e' r l1 _ Er Hl1) as (l2 & -> & Hl2). cbn [mbind res_bind andb]. change (ok OK) with true. cbv iota.
  exists l2, [r0; r]. split; [done|]. split; [done|]. by repeat constructor.
Qed.

Lemma run_next e e' b v dest log records vs : complete_edit e vs = Ok e' → edit_ok e' → Apply e' (new_Builder (vs_compact_pointer vs) (vs_current vs)) = Ok b → SaveTo b new_Version = Ok v →
  vs_descriptor_log vs = Some log → log_holds log records →
  ∃ log' r, LogAndApply name addr e (OK, dest) OK vs = Ok (OK, installed vs e' log' v b) ∧ log_holds log' (records ++ [r]) ∧ decodes e' r.
Proof using HW Haddr.
  intros Ee He' Eb Ev Hsome Hl. unfold LogAndApply. rewrite Ee. cbn [mbind res_bind]. rewrite Eb. cbn [mbind res_bind]. rewrite Ev. cbn [mbind res_bind]. rewrite Hsome. cbn [mbind res_bind mret res_ret]. change (ok OK) with true. cbv iota.
  destruct (encode_decode e' He') as (r & Er & Hd). destruct (log_edit_Ok e' r log _ Er Hl) as (l2 & -> & Hl2). cbn [mbind res_bind]. exists l2, r. by split_and!.
Qed.

(** ** Sequences of edits *)

(** Each with the next file number and the last sequence at its time. *)
Definition step := (Z * Z * VersionEdit)%type.
Definition at_numbers (x : step) (vs : VS) : VS :=
  MkVersionSet x.1.1 (vs_manifest_file_number vs) x.1.2 (vs_log_number vs) (vs_prev_log_number vs) (vs_descriptor_log vs) (vs_current vs) (vs_compact_pointer vs).
Fixpoint log_all (dest : W) (steps : list step) (vs : VS) : res (Status * VS) :=
  match steps with
  | [] => mret (OK, vs)
  | x :: steps => '(s, vs) ← LogAndApply name addr x.2 (OK, dest) OK (at_numbers x vs); if ok s then log_all dest steps vs else mret (s, vs)
  end.
Definition step_fine (x : step) : Prop := number_ok x.1.1 ∧ number_ok x.1.2 ∧ edit_fine x.2.

(** A version set before its descriptor is open. *)
Record vs_ready (vs : VS) : Prop := {
  ready_closed : vs_descriptor_log vs = None;
  ready_manifest : 0 < vs_manifest_file_number vs;
  ready_numbers : number_ok (vs_log_number vs) ∧ number_ok (vs_prev_log_number vs);
  ready_pointers : pointers_ok (vs_compact_pointer vs);
  ready_version : version_kept (vs_current vs) }.

Lemma first_written dest x vs s vs' : step_fine x → vs_ready vs → wf_contents dest = [] → LogAndApply name addr x.2 (OK, dest) OK (at_numbers x vs) = Ok (s, vs') →
  s = OK ∧ vs_manifest_file_number vs' = vs_manifest_file_number vs ∧ ∃ e' p0, same_lists x.2 e' ∧ pointers_ok p0 ∧ written p0 (vs_current vs) [e'] vs'.
Proof using HW Hname Haddr.
  intros (Hx1 & Hx2 & Hx) Hr Hempty E. pose proof (ready_numbers vs Hr) as [Hn1 Hn2]. assert (numbers_ok (at_numbers x vs)) as Hn by done.
  destruct (LogAndApply_parts x.2 dest _ s vs' Hx Hn E) as (e' & b & v & Ee & (He' & Hg' & Hc') & Hcomp & Hsame & Hnext & Hlast & Eb & Ev).
  destruct (run_first x.2 e' b v dest (at_numbers x vs) Ee He' Hg' Eb Ev (ready_closed vs Hr) (ready_pointers vs Hr) (ready_version vs Hr) (ready_manifest vs Hr) Hempty) as (log & records & E' & Hl & Hd).
  rewrite E in E'. injection E' as -> ->. split; [done|]. split; [done|]. exists e', (compact_pointer_ b). split; [done|].
  split; [by apply (Apply_pointers_ok e' _ _ b Hg' He' (ready_pointers vs Hr) Eb)|]. split.
  - by exists log, records.
  - cbn [save_each vs_current at_numbers vs_compact_pointer] in *. rewrite (Apply_again _ _ _ _ Hg' Eb). cbn [mbind res_bind]. rewrite Ev. done.
  - constructor; [|constructor]. split; [done|]. by split.
  - exists e'. by split_and!.
  - by apply edit_numbers.
Qed.

Lemma next_written dest x p0 v0 es vs s vs' : step_fine x → written p0 v0 es vs → LogAndApply name addr x.2 (OK, dest) OK (at_numbers x vs) = Ok (s, vs') →
  s = OK ∧ vs_manifest_file_number vs' = vs_manifest_file_number vs ∧ ∃ e', same_lists x.2 e' ∧ written p0 v0 (es ++ [e']) vs'.
Proof using HW Haddr.
  intros (Hx1 & Hx2 & Hx) Hw E. pose proof (wr_ok _ _ _ _ Hw) as [Hn1 Hn2]. assert (numbers_ok (at_numbers x vs)) as Hn by done.
  destruct (LogAndApply_parts x.2 dest _ s vs' Hx Hn E) as (e' & b & v & Ee & (He' & Hg' & Hc') & Hcomp & Hsame & Hnext & Hlast & Eb & Ev). destruct (wr_log _ _ _ _ Hw) as (log & records & El & Hl & Hd).
  destruct (run_next x.2 e' b v dest log records (at_numbers x vs) Ee He' Eb Ev El Hl) as (log' & r & E' & Hl' & Hd').
  rewrite E in E'. injection E' as -> ->. split; [done|]. split; [done|]. exists e'. split; [done|]. split.
  - exists log', (records ++ [r]). split; [done|]. split; [done|]. change (_ :: es ++ [e']) with ((snapshot_edit name p0 v0 :: es) ++ [e']). apply Forall2_app; [done|by repeat constructor].
  - rewrite save_each_snoc, (wr_saved _ _ _ _ Hw). cbn [mbind res_bind vs_current at_numbers vs_compact_pointer] in *. rewrite Eb. cbn [mbind res_bind]. rewrite Ev. done.
  - apply Forall_app. split; [by apply (wr_edits _ _ _ _ Hw)|]. constructor; [|constructor]. split; [done|]. by split.
  - exists e'. rewrite last_snoc. by split_and!.
  - by apply edit_numbers.
Qed.

Lemma log_rest dest steps : Forall step_fine steps → ∀ p0 v0 es vs s vs', written p0 v0 es vs → log_all dest steps vs = Ok (s, vs') →
  s = OK ∧ vs_manifest_file_number vs' = vs_manifest_file_number vs ∧ ∃ es', Forall2 same_lists steps.*2 es' ∧ written p0 v0 (es ++ es') vs'
    ∧ ∀ k, (k ≤ length steps)%nat → ∃ vsk, log_all dest (take k steps) vs = Ok (OK, vsk) ∧ written p0 v0 (es ++ take k es') vsk.
Proof using HW Haddr.
  induction 1 as [|x steps Hx _ IH]; intros p0 v0 es vs s vs' Hw E; cbn [log_all] in E.
  { injection E as <- <-. split; [done|]. split; [done|]. exists []. rewrite app_nil_r. split; [constructor|]. split; [done|]. intros k _. exists vs. by rewrite !take_nil, app_nil_r. }
  destruct (LogAndApply name addr x.2 (OK, dest) OK (at_numbers x vs)) as [[s1 vs1]|] eqn:E1; [|done]. cbn [mbind res_bind] in E.
  destruct (next_written dest x p0 v0 es vs s1 vs1 Hx Hw E1) as (-> & Em & e' & Hs & Hw1). change (ok OK) with true in E. cbv iota in E.
  destruct (IH p0 v0 _ vs1 s vs' Hw1 E) as (-> & Em' & es' & Hs' & Hw' & Hk). split; [done|]. split; [congruence|]. exists (e' :: es'). split; [by constructor|]. split; [by rewrite <-app_assoc in Hw'|].
  intros [|k] Hle; [exists vs; by rewrite app_nil_r|]. destruct (Hk k) as (vsk & Ek & Hwk); [cbn in Hle; lia|]. exists vsk. cbn [take log_all firstn]. rewrite E1. cbn [mbind res_bind]. split; [exact Ek|]. by rewrite <-app_assoc in Hwk.
Qed.

Lemma log_all_written dest steps vs s vs' : Forall step_fine steps → steps ≠ [] → vs_ready vs → wf_contents dest = [] → log_all dest steps vs = Ok (s, vs') →
  s = OK ∧ vs_manifest_file_number vs' = vs_manifest_file_number vs ∧ ∃ p0 es, Forall2 same_lists steps.*2 es ∧ pointers_ok p0 ∧ written p0 (vs_current vs) es vs'
    ∧ ∀ k, (0 < k ≤ length steps)%nat → ∃ vsk, log_all dest (take k steps) vs = Ok (OK, vsk) ∧ written p0 (vs_current vs) (take k es) vsk.
Proof using HW Hname Haddr.
  intros Hsteps Hne Hr Hempty E. destruct Hsteps as [|x steps Hx Hsteps]; [done|]. cbn [log_all] in E.
  destruct (LogAndApply name addr x.2 (OK, dest) OK (at_numbers x vs)) as [[s1 vs1]|] eqn:E1; [|done]. cbn [mbind res_bind] in E.
  destruct (first_written dest x vs s1 vs1 Hx Hr Hempty E1) as (-> & Em & e' & p0 & Hs & Hp0 & Hw). change (ok OK) with true in E. cbv iota in E.
  destruct (log_rest dest steps Hsteps p0 _ _ vs1 s vs' Hw E) as (-> & Em' & es' & Hs' & Hw' & Hk). split; [done|]. split; [congruence|]. exists p0, (e' :: es'). split; [by constructor|]. split; [done|]. split; [done|].
  intros [|k] Hle; [lia|]. destruct (Hk k) as (vsk & Ek & Hwk); [cbn in Hle; lia|]. exists vsk. cbn [firstn log_all]. rewrite E1. by split.
Qed.

(** ** Reading *)

Lemma take_numbers_complete es : ∀ n e, Forall complete es → last es = Some e →
  foldl (flip take_numbers) n es = MkNumbers (Some (next_file_number_ e)) (Some (last_sequence_ e)) (Some (log_number_ e)) (Some (prev_log_number_ e)).
Proof using.
  induction es as [|e es IH] using rev_ind; intros n e' Hc Hl; [done|]. rewrite last_snoc in Hl. injection Hl as ->. rewrite foldl_snoc. apply Forall_app in Hc as [_ Hc]. apply Forall_cons in Hc as [Hc _].
  destruct Hc as (H1 & H2 & H3 & H4). unfold flip, take_numbers. by rewrite H1, H2, H3, H4.
Qed.

Lemma added_same i es es' : Forall2 same_lists es es' → added_numbers i es' = added_numbers i es.
Proof using.
  unfold added_numbers. induction 1 as [|e e' es es' (_ & _ & E & _) _ IH]; [done|]. cbn [fmap list_fmap concat]. by rewrite IH, E.
Qed.

(** The builder after the snapshot and some edits. *)
Lemma builder_recovers p0 v0 es ps v : pointers_ok p0 → version_kept v0 → Forall (edit_good (okk := okk)) es → fresh_edits v0 es → save_each es p0 v0 = Ok (ps, v) →
  ∃ b, apply_all (snapshot_edit name p0 v0 :: es) (new_Builder (repeat [] (Z.to_nat kNumLevels)) new_Version) = Ok b ∧ SaveTo b new_Version = Ok v ∧ compact_pointer_ b = ps.
Proof using Hspec.
  intros Hp Hv Hes Hf Hsave. set (snap := snapshot_edit name p0 v0). set (qs := repeat [] (Z.to_nat kNumLevels)).
  apply (apply_all_Ok (snap :: es)) with (v := new_Version); [constructor; [by apply snapshot_good|done]|apply new_builder_ok, new_version_saved|apply new_builder_saves, new_version_saved| |].
  - intros i. split; [|intros n _; apply new_version_unused]. change (added_numbers i (snap :: es)) with (numbers_at i (new_files_ snap) ++ added_numbers i es). unfold snap. rewrite snapshot_numbers by done.
    destruct (Hf i) as [Hnd Hno]. destruct (files_ v0 !! i) as [files|] eqn:Hi; [|done]. apply NoDup_app. split; [apply (vk_numbers v0 Hv); by eapply list_elem_of_lookup_2|]. split; [|done]. intros n Hin Hadd. by apply (Hno files n eq_refl Hadd).
  - pose proof (save_snapshot name p0 v0 Hp Hv) as Hs. cbn [save_each compact_pointer_ new_Builder] in *. fold snap qs in Hs |- *. destruct (Apply snap (new_Builder qs new_Version)) as [b|]; [|done]. cbn [mbind res_bind] in *.
    destruct (SaveTo b new_Version) as [v'|]; [|done]. cbn [mbind res_bind mret res_ret] in *. injection Hs as -> ->. exact Hsave.
Qed.

Definition named (e : VersionEdit) : Prop := has_comparator_ e = true → comparator_ e = name.

(** One record. *)
Lemma recover_one fuel r rec r1 e b b1 n s : ReadRecord addr (S fuel) r = Ok (Some rec, r1) → s = foldl LogReporter_Corruption OK (drop (length (reports r)) (reports r1)) →
  decodes e rec → named e → Apply e b = Ok b1 →
  recover_edits name addr (S fuel) r OK b n = if ok s then recover_edits name addr fuel r1 OK b1 (take_numbers e n) else Ok (s, b, n).
Proof using.
  intros E -> Hd Hn Hb. cbn [recover_edits]. rewrite E. cbn [mbind res_bind]. destruct (ok (foldl _ _ _)) eqn:Eo; cbn [negb]; [|done]. unfold decodes in Hd. rewrite Hd. cbn [mbind res_bind].
  change (ok OK) with true. cbn [andb]. assert (has_comparator_ e && negb (bool_decide (comparator_ e = name)) = false) as ->. { destruct (has_comparator_ e) eqn:Ec; [|done]. rewrite (Hn Ec), bool_decide_true by done. done. }
  cbn [mbind res_bind mret res_ret]. change (ok OK) with true. cbv iota. rewrite Hb. done.
Qed.

Lemma recover_edits_quiet fuel r records : reads_quietly addr fuel r records → ∀ es b b' n, Forall2 decodes es records → Forall named es → apply_all es b = Ok b' →
  recover_edits name addr fuel r OK b n = Ok (OK, b', foldl (flip take_numbers) n es).
Proof using.
  induction 1 as [fuel r r' E Er|fuel r rec r1 records E Er _ IH]; intros es b b' n Hd Hn Hb.
  - apply Forall2_nil_inv_r in Hd as ->. cbn [apply_all recover_edits foldl] in *. rewrite E. cbn [mbind res_bind]. rewrite Er, drop_all. by injection Hb as ->.
  - apply Forall2_cons_inv_r in Hd as (e & es' & Hde & Hd & ->). apply Forall_cons in Hn as [Hne Hn]. cbn [apply_all] in Hb. destruct (Apply e b) as [b1|] eqn:E1; [|done]. cbn [mbind res_bind] in Hb.
    rewrite (recover_one fuel r rec r1 e b b1 n OK E) by (done || by rewrite Er, drop_all). change (ok OK) with true. cbv iota. by rewrite (IH es' b1 b').
Qed.

Lemma recover_edits_cut fuel : ∀ r l r' es b b' n, read_records addr fuel r = Ok (l, r') → Forall2 decodes es l → Forall named es → apply_all es b = Ok b' →
  ∃ s b2 n2, recover_edits name addr fuel r OK b n = Ok (s, b2, n2) ∧ (ok s = true → b2 = b' ∧ n2 = foldl (flip take_numbers) n es).
Proof using.
  induction fuel as [|fuel IH]; intros r l r' es b b' n E Hd Hn Hb; [done|]. cbn [read_records] in E. destruct (ReadRecord addr (S fuel) r) as [[[rec|] r1]|] eqn:Er; [| |done]; cbn [mbind res_bind] in E.
  - destruct (read_records addr fuel r1) as [[l1 r2]|] eqn:E1; [|done]. cbn [mbind res_bind mret res_ret] in E. injection E as <- <-. apply Forall2_cons_inv_r in Hd as (e & es' & Hde & Hd & ->). apply Forall_cons in Hn as [Hne Hn].
    cbn [apply_all] in Hb. destruct (Apply e b) as [b1|] eqn:Eb; [|done]. cbn [mbind res_bind] in Hb. rewrite (recover_one fuel r rec r1 e b b1 n _ Er eq_refl Hde Hne Eb).
    destruct (ok (foldl _ _ _)) eqn:Eo; [by apply (IH r1 l1 r2 es' b1 b')|]. eexists _, b, n. split; [done|]. by rewrite Eo.
  - injection E as <- <-. apply Forall2_nil_inv_r in Hd as ->. injection Hb as ->. cbn [recover_edits]. rewrite Er. cbn [mbind res_bind]. eexists _, b', n. by split.
Qed.

(** What recovery does after the records. *)
Definition after_records (r : Status * Builder * Numbers) : res (Status * VS) :=
  let '(s, b, n) := r in
  let next := if ok s then MarkFileNumberUsed (default 0 (n_log_number n)) (MarkFileNumberUsed (default 0 (n_prev_log_number n)) 2) else 2 in
  s ← (if negb (ok s) then mret s
       else match n_next_file n, n_log_number n, n_last_sequence n with
         | None, _, _ => Corruption (str "no meta-nextfile entry in descriptor") []
         | _, None, _ => Corruption (str "no meta-lognumber entry in descriptor") []
         | _, _, None => Corruption (str "no last-sequence-number entry in descriptor") []
         | _, _, _ => mret s
         end);
  if ok s then
    v ← SaveTo b new_Version;
    mret (s, MkVersionSet (u64 (default 0 (n_next_file n) + 1)) (default 0 (n_next_file n)) (default 0 (n_last_sequence n)) (default 0 (n_log_number n)) (default 0 (n_prev_log_number n)) None v (compact_pointer_ b))
  else mret (s, MkVersionSet next 0 0 0 0 None new_Version (compact_pointer_ b)).

Definition start : Builder := new_Builder (repeat [] (Z.to_nat kNumLevels)) new_Version.
Definition no_numbers : Numbers := MkNumbers None None None None.

Lemma Recover_Ok fuel dbname dname (open : list byte → Status * F) cf f : open (CurrentFileName dbname) = (OK, cf) → sf_rest cf = dname ++ [NEWLINE] → (length dname + 1 < fuel)%nat →
  open (dbname ++ str "/" ++ dname) = (OK, f) →
  Recover name addr fuel dbname open new_VersionSet = r ← recover_edits name addr fuel (new_Reader f true true 0) OK start no_numbers; after_records r.
Proof using.
  intros Hcur Hcf Hfuel Hopen. unfold Recover. rewrite Hcur, ReadFileToString_Ok by (rewrite Hcf, length_app; cbn; lia). cbn [mbind res_bind]. change (ok OK) with true. cbn [negb].
  rewrite Hcf, last_snoc, bool_decide_true by done. cbn [negb]. rewrite length_app. cbn [length]. replace (pred (length dname + 1)) with (length dname) by lia. rewrite take_app_length, Hopen. change (ok OK) with true. cbn [negb].
  fold start no_numbers. change (new_Builder (vs_compact_pointer new_VersionSet) (vs_current new_VersionSet)) with start. by destruct (recover_edits _ _ _ _ _ _ _) as [[[s b] n]|].
Qed.

(** The state is that of the version set after its last edit. The descriptor gets the number that was the next one. *)
Definition recovers (vs vs' : VS) : Prop :=
  vs_current vs' = vs_current vs ∧ vs_compact_pointer vs' = vs_compact_pointer vs ∧ vs_log_number vs' = vs_log_number vs ∧ vs_prev_log_number vs' = vs_prev_log_number vs
  ∧ vs_last_sequence vs' = vs_last_sequence vs ∧ vs_manifest_file_number vs' = vs_next_file_number vs ∧ vs_next_file_number vs' = u64 (vs_next_file_number vs + 1).

Lemma after_written p0 v0 es vs b : written p0 v0 es vs → SaveTo b new_Version = Ok (vs_current vs) → compact_pointer_ b = vs_compact_pointer vs →
  ∃ vs', after_records (OK, b, foldl (flip take_numbers) no_numbers (snapshot_edit name p0 v0 :: es)) = Ok (OK, vs') ∧ recovers vs vs'.
Proof using.
  intros Hw Hb Hps. destruct (wr_numbers _ _ _ _ Hw) as (e & Hl & E1 & E2 & E3 & E4). cbn [foldl]. rewrite (take_numbers_complete es _ e).
  - unfold after_records. change (ok OK) with true. cbn [negb n_next_file n_log_number n_last_sequence n_prev_log_number default mbind res_bind mret res_ret]. change (ok OK) with true. cbv iota. rewrite Hb. cbn [mbind res_bind mret res_ret].
    eexists. split; [done|]. split_and!; cbn; congruence.
  - eapply Forall_impl; [exact (wr_edits _ _ _ _ Hw)|]. by intros x (_ & ? & _).
  - done.
Qed.

Lemma after_nothing s b n : ok s = false ∨ n_next_file n = None → ∃ s' vs', after_records (s, b, n) = Ok (s', vs') ∧ ok s' = false.
Proof using.
  intros Hor. unfold after_records. destruct (ok s) eqn:Es; cbn [negb].
  - destruct Hor as [?| ->]; [done|]. assert (∃ s', Corruption (str "no meta-nextfile entry in descriptor") [] = Ok s' ∧ ok s' = false) as (s' & -> & Es') by (eexists; split; [vm_compute; reflexivity|done]).
    cbn [mbind res_bind]. rewrite Es'. by eexists _, _.
  - cbn [mbind res_bind mret res_ret]. rewrite Es. by eexists _, _.
Qed.

Lemma fresh_take v es k : fresh_edits v es → fresh_edits v (take k es).
Proof using.
  intros Hf i. destruct (Hf i) as [Hnd Hn]. assert (added_numbers i es = added_numbers i (take k es) ++ added_numbers i (drop k es)) as E by (unfold added_numbers; by rewrite <-concat_app, <-fmap_app, take_drop).
  rewrite E in Hnd, Hn. apply NoDup_app in Hnd as (Hnd & _). split; [done|]. intros files n Hi Hin. apply (Hn files n Hi), elem_of_app. by left.
Qed.

(** The records of the descriptor, read as far as there are any. *)
Lemma recover_prefix p0 v0 es vs : pointers_ok p0 → version_kept v0 → written p0 v0 es vs → fresh_edits v0 es →
  ∃ b, apply_all (snapshot_edit name p0 v0 :: es) start = Ok b ∧ SaveTo b new_Version = Ok (vs_current vs) ∧ compact_pointer_ b = vs_compact_pointer vs.
Proof using Hspec.
  intros Hp Hv Hw Hf. apply builder_recovers; [done|done| |done|by apply (wr_saved _ _ _ _ Hw)]. eapply Forall_impl; [exact (wr_edits _ _ _ _ Hw)|]. by intros e [? _].
Qed.

Lemma written_named p0 v0 es vs : written p0 v0 es vs → Forall named (snapshot_edit name p0 v0 :: es).
Proof using. intros Hw. constructor; [done|]. eapply Forall_impl; [exact (wr_edits _ _ _ _ Hw)|]. by intros e (_ & _ & ?). Qed.

(** Claim C16. Recovery from the descriptor: after any sequence of edits, each with the numbers of its time, a new version set that follows
    CURRENT reads the state back: the same files at each level with the same numbers of seeks, the same compaction pointers, log numbers and last sequence, and as
    the number of its own descriptor the next file number of that time. If the descriptor was cut at any byte, recovery still ends, and if
    its status is OK then what it finds is the state after one of the edits; nothing is mixed or made up. *)
Theorem manifest_recovers vs0 vs steps dest log dbname dname (open : list byte → Status * F) cf f m fuel
    (Hsteps : Forall step_fine steps) (Hne : steps ≠ []) (Hready : vs_ready vs0) (Hfresh : fresh_edits (vs_current vs0) steps.*2) (Hempty : wf_contents dest = [])
    (Hrun : log_all dest steps vs0 = Ok (OK, vs)) (Hlog : vs_descriptor_log vs = Some log)
    (Hdname : DescriptorFileName dbname (vs_manifest_file_number vs) = Ok (dbname ++ str "/" ++ dname))
    (Hcur : open (CurrentFileName dbname) = (OK, cf)) (Hcf : sf_rest cf = dname ++ [NEWLINE])
    (Hopen : ∀ n, DescriptorFileName dbname (vs_manifest_file_number vs) = Ok n → open n = (OK, f)) (Hf : sf_rest f = take m (wf_contents (dest_ log)))
    (Hfuel : (length dname + 1 < fuel)%nat) (Hfuel' : (length (wf_contents (dest_ log)) < fuel)%nat) :
  ∃ s vs', Recover name addr fuel dbname open new_VersionSet = Ok (s, vs')
    ∧ (ok s = true → ∃ k vsk, (0 < k ≤ length steps)%nat ∧ log_all dest (take k steps) vs0 = Ok (OK, vsk) ∧ recovers vsk vs')
    ∧ ((length (wf_contents (dest_ log)) ≤ m)%nat → s = OK ∧ recovers vs vs').
Proof using Hspec HW HSF Hname Haddr.
  destruct (log_all_written dest steps vs0 OK vs Hsteps Hne Hready Hempty Hrun) as (_ & _ & p0 & es & Hsame & Hp0 & Hw & Hprefix). pose proof (ready_version vs0 Hready) as Hk0.
  assert (fresh_edits (vs_current vs0) es) as Hfresh' by (intros i; rewrite (added_same i _ _ Hsame); apply Hfresh).
  rewrite (Recover_Ok fuel dbname dname open cf f Hcur Hcf Hfuel (Hopen _ Hdname)). destruct (wr_log _ _ _ _ Hw) as (log' & records & El & Hl & Hd). rewrite Hlog in El. injection El as <-.
  destruct (le_lt_dec (length (wf_contents (dest_ log))) m) as [Hm|Hm].
  - rewrite take_ge in Hf by done. destruct (recover_prefix p0 _ es vs Hp0 Hk0 Hw Hfresh') as (b & Hb & Hsave & Hps).
    rewrite (recover_edits_quiet fuel _ records (reads_quietly_holds addr Haddr log records f true true fuel Hl Hf ltac:(by rewrite Hf)) _ start b no_numbers Hd (written_named _ _ _ _ Hw) Hb).
    cbn [mbind res_bind]. destruct (after_written p0 _ es vs b Hw Hsave Hps) as (vs' & -> & Hr). exists OK, vs'. split; [done|]. split; [|done]. intros _. exists (length steps), vs. rewrite firstn_all. split; [destruct steps; [done|cbn; lia]|done].
  - destruct (read_records_prefix addr Haddr log records f true true fuel m Hl Hf Hfuel') as (l & r' & Hread & Hpre). set (j := length l).
    assert (l = take j records) as El by (destruct Hpre as [l2 ->]; unfold j; by rewrite take_app_length).
    assert (Forall2 decodes (take j (snapshot_edit name p0 (vs_current vs0) :: es)) l) as Hdj by (rewrite El; by apply Forall2_take).
    assert (∃ b', apply_all (take j (snapshot_edit name p0 (vs_current vs0) :: es)) start = Ok b' ∧ ∀ k, j = S (S k) → ∃ vsk, log_all dest (take (S k) steps) vs0 = Ok (OK, vsk) ∧ (S k ≤ length steps)%nat
      ∧ written p0 (vs_current vs0) (take (S k) es) vsk ∧ SaveTo b' new_Version = Ok (vs_current vsk) ∧ compact_pointer_ b' = vs_compact_pointer vsk) as (b' & Hb' & Hk).
    { destruct j as [|[|k]] eqn:Ej.
      - exists start. by split.
      - destruct (builder_recovers p0 (vs_current vs0) [] p0 (vs_current vs0) Hp0 Hk0) as (b & Hb & _); [constructor|by apply (fresh_take _ es 0)|done|]. by exists b.
      - assert (length steps = length es) as Hlen by (apply Forall2_length in Hsame; by rewrite length_fmap in Hsame). assert (S k ≤ length steps)%nat as Hle.
        { apply Forall2_length in Hd, Hdj. rewrite length_take in Hdj. unfold j in Ej. rewrite Ej in Hdj. cbn [length] in Hdj. lia. }
        destruct (Hprefix (S k)) as (vsk & Hrk & Hwk); [lia|]. destruct (recover_prefix p0 _ _ vsk Hp0 Hk0 Hwk (fresh_take _ es (S k) Hfresh')) as (b & Hb & Hsave & Hps).
        exists b. split; [exact Hb|]. intros k' [= <-]. by exists vsk. }
    assert (Forall named (take j (snapshot_edit name p0 (vs_current vs0) :: es))) as Hnm by (apply Forall_take; by apply (written_named _ _ _ vs)).
    destruct (recover_edits_cut fuel _ l r' _ start b' no_numbers Hread Hdj Hnm Hb') as (s & b2 & n2 & -> & Hs). cbn [mbind res_bind].
    assert (¬ (length (wf_contents (dest_ log)) ≤ m)%nat) as Hnot by lia. destruct (ok s) eqn:Es.
    + destruct (Hs eq_refl) as [-> ->]. unfold ok in Es. apply bool_decide_eq_true in Es as ->. destruct j as [|[|k]] eqn:Ej.
      * destruct (after_nothing OK b' no_numbers) as (s' & vs' & E & Es'); [by right|]. exists s', vs'. split; [exact E|]. split; [|done]. by rewrite Es'.
      * destruct (after_nothing OK b' (take_numbers (snapshot_edit name p0 (vs_current vs0)) no_numbers)) as (s' & vs' & E & Es'); [by right|]. exists s', vs'. split; [exact E|]. split; [|done]. by rewrite Es'.
      * destruct (Hk k eq_refl) as (vsk & Hrk & Hle & Hwk & Hsave & Hps). destruct (after_written p0 _ _ vsk b' Hwk Hsave Hps) as (vs' & E & Hr). exists OK, vs'. split; [exact E|]. split; [|done]. intros _. exists (S k), vsk. split; [lia|done].
    + destruct (after_nothing s b2 n2) as (s' & vs' & E & Es'); [by left|]. exists s', vs'. split; [exact E|]. split; [|done]. by rewrite Es'.
Qed.
End manifest.

(** ** Witness: a flush and a compaction, from a version with two levels *)

Definition sample_set : VersionSet mem_writer := MkVersionSet 3 2 0 0 0 None two_levels ([] :: at_key "a" 5 :: repeat [] 5).
Definition sample_steps : list step := [(12, 30, VersionEdit.SetLogNumber 10 flush_edit); (13, 41, compact_edit)].
Definition bytewise_name : list byte := str "leveldb.BytewiseComparator".
Definition sample_run := log_all (C := BytewiseComparator) bytewise_name (λ _, 0) (MemWriter []) sample_steps sample_set.
(** The files at recovery: [m] bytes of the descriptor. *)
Definition sample_open (contents : list byte) (m : nat) (n : list byte) : Status * mem_reader :=
  (OK, MemReader (if bool_decide (n = str "db/CURRENT") then str "MANIFEST-000002" ++ [NEWLINE] else take m contents)).

Lemma sample_edit_ok e : e ∈ [VersionEdit.SetLogNumber 10 flush_edit; compact_edit] → edit_ok e ∧ edit_good (okk := short) e.
Proof.
  intros He. rewrite !elem_of_cons, elem_of_nil in He. destruct He as [->|[->|[]]]; (split; [split; [|by vm_compute; repeat constructor]; repeat constructor; vm_compute; try discriminate|by repeat (constructor || vm_compute)]).
Qed.

Lemma sample_steps_fine : Forall (step_fine (okk := short) bytewise_name) sample_steps.
Proof.
  assert (∀ e, e ∈ [VersionEdit.SetLogNumber 10 flush_edit; compact_edit] → has_comparator_ e = false → edit_fine (okk := short) bytewise_name e) as Hfine.
  { intros e He Hc. destruct (sample_edit_ok e He). split; [done|]. split; [done|]. by rewrite Hc. }
  constructor; [|constructor; [|constructor]]; (split; [by vm_compute|]; split; [by vm_compute|]; apply Hfine; [|done]); [by left|by right; left].
Qed.

Lemma two_levels_kept : version_kept (okk := short) (c := strcmp_aux) two_levels.
Proof.
  split.
  - split; [done| |by vm_compute]. intros i files Hi. do 7 (destruct i as [|i]; [cbn in Hi; injection Hi as <-; by repeat (constructor || vm_compute)|]). done.
  - intros files f Hl Hf. repeat (apply elem_of_cons in Hl as [->|Hl]; [repeat (apply elem_of_cons in Hf as [->|Hf]; [split; [by vm_compute|repeat split; vm_compute; discriminate]|]); by apply elem_of_nil in Hf|]). by apply elem_of_nil in Hl.
  - intros files Hl. repeat (apply elem_of_cons in Hl as [->|Hl]; [apply (bool_decide_unpack _); by vm_compute|]). by apply elem_of_nil in Hl.
Qed.

Lemma sample_ready : vs_ready (okk := short) (c := strcmp_aux) sample_set.
Proof.
  split; [done|done|by split| |exact two_levels_kept]. split; [done|]. constructor; [by left|]. constructor; [right; by repeat split; vm_compute|]. by repeat (constructor; [by left|]).
Qed.

Lemma sample_numbers i : (3 ≤ i)%nat → added_numbers i sample_steps.*2 = [].
Proof.
  intros Hi. change (sample_steps.*2) with [VersionEdit.SetLogNumber 10 flush_edit; compact_edit]. unfold added_numbers, numbers_at. cbn [fmap list_fmap].
  assert (∀ f j, (j = 0 ∨ j = 1) → at_level i [(j, f)] = [] :> list FileMetaData) as H by (intros f j Hj; rewrite at_level_cons; cbn [fst]; rewrite (proj2 (Z.eqb_neq _ _)) by lia; done).
  assert (∃ f, new_files_ flush_edit = [(0, f)]) as [f1 H1] by (by eexists). assert (∃ f, new_files_ compact_edit = [(1, f)]) as [f2 H2] by (by eexists).
  change (new_files_ (VersionEdit.SetLogNumber 10 flush_edit)) with (new_files_ flush_edit). rewrite H1, H2, !H by tauto. reflexivity.
Qed.

Lemma sample_fresh : fresh_edits two_levels sample_steps.*2.
Proof.
  intros i. destruct (le_lt_dec 3 i) as [Hi|Hi].
  - rewrite sample_numbers by done. split; [constructor|]. by intros files n _ ?%elem_of_nil.
  - do 3 (destruct i as [|i]; [split; [apply (bool_decide_unpack _); by vm_compute|]; intros files n Hf Hn; cbn in Hf; injection Hf as <-; cbn in Hn; revert n Hn; apply Forall_forall; repeat (constructor; [apply (bool_decide_unpack _); by vm_compute|]); constructor|]). lia.
Qed.

Lemma manifest_recovers_witness : ∃ vs log, sample_run = Ok (OK, vs) ∧ vs_descriptor_log vs = Some log
  ∧ Forall (λ m, ∃ s vs', Recover (user_comparator := BytewiseComparator) bytewise_name (λ _, 0) 2000 (str "db") (sample_open (wf_contents (dest_ log)) m) (new_VersionSet (W := mem_writer)) = Ok (s, vs')
      ∧ ((length (wf_contents (dest_ log)) ≤ m)%nat → s = OK ∧ recovers vs vs')) [2000%nat; 230%nat; 50%nat].
Proof.
  destruct sample_run as [[s vs]|] eqn:E; [|by vm_compute in E]. assert (s = OK) as -> by (vm_compute in E; by injection E as <- _). assert (∃ log, vs_descriptor_log vs = Some log ∧ (length (wf_contents (dest_ log)) < 2000)%nat) as (log & Hlog & Hlen).
  { vm_compute in E. injection E as <-. eexists. split; [reflexivity|]. apply Nat.ltb_lt. by vm_compute. }
  exists vs, log. split; [done|]. split; [done|]. apply Forall_forall. intros m _.
  assert (vs_manifest_file_number vs = 2) as Hm by (vm_compute in E; by injection E as <-).
  destruct (manifest_recovers (Hspec := bytewise_spec) bytewise_name ltac:(by vm_compute) (λ _, 0) ltac:(by intros bs _; split) sample_set vs sample_steps (MemWriter []) log (str "db") (str "MANIFEST-000002")
    (sample_open (wf_contents (dest_ log)) m) (MemReader (str "MANIFEST-000002" ++ [NEWLINE])) (MemReader (take m (wf_contents (dest_ log)))) m 2000) as (s' & vs' & ER & _ & Hfull).
  - exact sample_steps_fine.
  - done.
  - exact sample_ready.
  - exact sample_fresh.
  - vm_compute. reflexivity.
  - exact E.
  - exact Hlog.
  - rewrite Hm. clear. vm_compute. reflexivity.
  - clear. unfold sample_open. by rewrite bool_decide_true.
  - reflexivity.
  - rewrite Hm. intros n Hn. assert (n = str "db/MANIFEST-000002") as -> by (clear -Hn; vm_compute in Hn; by injection Hn as <-). clear. unfold sample_open. by rewrite bool_decide_false by (by vm_compute).
  - reflexivity.
  - apply Nat.ltb_lt. clear. vm_compute. reflexivity.
  - exact Hlen.
  - exists s', vs'. exact (conj ER Hfull).
Defined.
