(* ===== verification/Compaction.v ===== *)
(** * Compactions: leveldb db/version_set.cc and db/db_impl.cc

    How the inputs of a compaction are chosen, and the loop that copies their entries to new tables. *)
From Stdlib Require Import Strings.String.
From S2P Require Import Prelude Buffers CLib Order Coding Comparator Status DbFormat Iterator TwoLevel Table Merger VersionEdit VersionSet VersionBuilder.

#[local] Open Scope Z_scope.
#[local] Open Scope list_scope.

Record Compaction := MkCompaction {
  level_ : Z; max_output_file_size_ : Z; input_version_ : Version; edit_ : VersionEdit;
  inputs_ : list FileMetaData * list FileMetaData; grandparents_ : list FileMetaData;
  grandparent_index_ : nat; seen_key_ : bool; overlapped_bytes_ : Z; level_ptrs_ : list nat }.

Definition new_Compaction (level : Z) (v : Version) : Compaction :=
  MkCompaction level (MaxFileSizeForLevel level) v new_VersionEdit ([], []) [] 0 false 0 (repeat 0%nat (Z.to_nat kNumLevels)).
Definition with_edit (e : VersionEdit) (c : Compaction) : Compaction :=
  MkCompaction (level_ c) (max_output_file_size_ c) (input_version_ c) e (inputs_ c) (grandparents_ c) (grandparent_index_ c) (seen_key_ c) (overlapped_bytes_ c) (level_ptrs_ c).
Definition with_inputs (inputs : list FileMetaData * list FileMetaData) (grandparents : list FileMetaData) (c : Compaction) : Compaction :=
  MkCompaction (level_ c) (max_output_file_size_ c) (input_version_ c) (edit_ c) inputs grandparents (grandparent_index_ c) (seen_key_ c) (overlapped_bytes_ c) (level_ptrs_ c).
Definition with_ptrs (ptrs : list nat) (c : Compaction) : Compaction :=
  MkCompaction (level_ c) (max_output_file_size_ c) (input_version_ c) (edit_ c) (inputs_ c) (grandparents_ c) (grandparent_index_ c) (seen_key_ c) (overlapped_bytes_ c) ptrs.
Definition with_grandparent (i : nat) (bytes : Z) (c : Compaction) : Compaction :=
  MkCompaction (level_ c) (max_output_file_size_ c) (input_version_ c) (edit_ c) (inputs_ c) (grandparents_ c) i true bytes (level_ptrs_ c).

Definition IsTrivialMove (c : Compaction) : bool :=
  (zlen (inputs_ c).1 =? 1) && (zlen (inputs_ c).2 =? 0) && (TotalFileSize (grandparents_ c) <=? kMaxGrandParentOverlapBytes).

Definition delete_files (level : Z) (files : list FileMetaData) (edit : VersionEdit) : VersionEdit := foldl (λ e f, DeleteFile level (number f) e) edit files.
Definition AddInputDeletions (c : Compaction) (edit : VersionEdit) : VersionEdit :=
  delete_files (level_ c + 1) (inputs_ c).2 (delete_files (level_ c) (inputs_ c).1 edit).

(** The edit of a trivial move: the only file goes to the next level as it is. *)
Definition move_file (c : Compaction) : res VersionEdit :=
  _ ← c_assert (zlen (inputs_ c).1 =? 1);
  f ← of_option (head (inputs_ c).1);
  mret (AddFile (level_ c + 1) (number f) (file_size f) (smallest f) (largest f) (DeleteFile (level_ c) (number f) (edit_ c))).

Section compaction.
Context {user_comparator : Comparator}.
#[local] Abbreviation icmp := (@internal_Compare user_comparator).

(** ** Ranges *)

Fixpoint grow_range (files : list FileMetaData) (small large : list byte) : res (list byte * list byte) :=
  match files with
  | [] => mret (small, large)
  | f :: files =>
      r ← compare_keys (smallest f) small;
      let small := if r <? 0 then smallest f else small in
      r ← compare_keys (largest f) large;
      grow_range files small (if 0 <? r then largest f else large)
  end.
Definition GetRange (inputs : list FileMetaData) : res (list byte * list byte) :=
  match inputs with [] => Err AssertFail | f :: inputs => grow_range inputs (smallest f) (largest f) end.
Definition GetRange2 (inputs1 inputs2 : list FileMetaData) : res (list byte * list byte) := GetRange (inputs1 ++ inputs2).

(** ** Choosing inputs *)

(** The files of both levels, and the range of those of the first one. *)
Definition expand_inputs (v : Version) (level : Z) (inputs0 inputs1 : list FileMetaData) (small large : list byte) :
    res (list FileMetaData * list FileMetaData * list byte) :=
  '(all_start, all_limit) ← GetRange2 inputs0 inputs1;
  expanded0 ← GetOverlappingInputs v level (Some all_start) (Some all_limit);
  let inputs1_size := TotalFileSize inputs1 in
  let expanded0_size := TotalFileSize expanded0 in
  wider ← (if zlen inputs0 <? zlen expanded0 then total ← clong (inputs1_size + expanded0_size); mret (total <? kExpandedCompactionByteSizeLimit) else mret false);
  if wider : bool then
    '(new_start, new_limit) ← GetRange expanded0;
    expanded1 ← GetOverlappingInputs v (level + 1) (Some new_start) (Some new_limit);
    if zlen expanded1 =? zlen inputs1 then mret (expanded0, expanded1, new_limit) else mret (inputs0, inputs1, large)
  else mret (inputs0, inputs1, large).

(** The compaction, and the compaction pointers. *)
Definition SetupOtherInputs (c : Compaction) (pointers : list (list byte)) : res (Compaction * list (list byte)) :=
  let level := level_ c in
  let v := input_version_ c in
  let inputs0 := (inputs_ c).1 in
  '(small, large) ← GetRange inputs0;
  inputs1 ← GetOverlappingInputs v (level + 1) (Some small) (Some large);
  '(inputs0, inputs1, large) ← (match inputs1 with [] => mret (inputs0, inputs1, large) | _ => expand_inputs v level inputs0 inputs1 small large end);
  '(all_start, all_limit) ← GetRange2 inputs0 inputs1;
  grandparents ← (if level + 2 <? kNumLevels then GetOverlappingInputs v (level + 2) (Some all_start) (Some all_limit) else mret []);
  i ← level_index level;
  key ← InternalKey_Encode large;
  mret (with_edit (SetCompactPointer level large (edit_ c)) (with_inputs (inputs0, inputs1) grandparents c), <[i := key]> pointers).

(** What [Finalize] and the seeks ask for: the level whose score is at least 1, and the file that was sought too often. *)
Record Hints := MkHints { size_level : option Z; file_to_compact_ : option (FileMetaData * Z) }.

Fixpoint first_after (pointer : list byte) (files : list FileMetaData) : res (option FileMetaData) :=
  match files with
  | [] => mret None
  | f :: files =>
      after ← match pointer with [] => mret true | _ => k ← InternalKey_Encode (largest f); r ← icmp k pointer; mret (0 <? r) end;
      if after : bool then mret (Some f) else first_after pointer files
  end.

Definition PickCompaction (current_ : Version) (hints : Hints) (pointers : list (list byte)) : res (option (Compaction * list (list byte))) :=
  picked ← match size_level hints, file_to_compact_ hints with
    | Some level, _ =>
        _ ← c_assert (0 <=? level); _ ← c_assert (level + 1 <? kNumLevels);
        files ← level_files current_ level;
        pointer ← of_option (pointers !! Z.to_nat level);
        f ← first_after pointer files;
        f ← match f with Some f => mret f | None => of_option (head files) end;
        mret (Some (level, [f]))
    | None, Some (f, level) => mret (Some (level, [f]))
    | None, None => mret None
    end;
  match picked with
  | None => mret None
  | Some (level, inputs0) =>
      inputs0 ← (if level =? 0 then
          '(small, large) ← GetRange inputs0;
          inputs0 ← GetOverlappingInputs current_ 0 (Some small) (Some large);
          _ ← c_assert (negb (zlen inputs0 =? 0)); mret inputs0
        else mret inputs0);
      r ← SetupOtherInputs (with_inputs (inputs0, []) [] (new_Compaction level current_)) pointers; mret (Some r)
  end.

(** Up to the first file that reaches the limit. *)
Fixpoint limit_inputs (limit total : Z) (files : list FileMetaData) : list FileMetaData :=
  match files with
  | [] => []
  | f :: files => let total := u64 (total + file_size f) in f :: (if limit <=? total then [] else limit_inputs limit total files)
  end.

Definition CompactRange (current_ : Version) (level : Z) (start limit : option (list byte)) (pointers : list (list byte)) : res (option (Compaction * list (list byte))) :=
  inputs ← GetOverlappingInputs current_ level start limit;
  match inputs with
  | [] => mret None
  | _ =>
      let inputs := if 0 <? level then limit_inputs (MaxFileSizeForLevel level) 0 inputs else inputs in
      r ← SetupOtherInputs (with_inputs (inputs, []) [] (new_Compaction level current_)) pointers; mret (Some r)
  end.

(** ** Keys of a compaction *)

(** The files from the pointer on: whether the key is in the range of one, and how many end before the key. *)
Fixpoint advance_ptr (user_key : list byte) (files : list FileMetaData) : res (bool * nat) :=
  match files with
  | [] => mret (false, 0%nat)
  | f :: files =>
      large ← InternalKey_user_key (largest f);
      r ← Compare user_key large;
      if r <=? 0 then small ← InternalKey_user_key (smallest f); r ← Compare user_key small; mret (0 <=? r, 0%nat)
      else '(found, n) ← advance_ptr user_key files; mret (found, S n)
  end.

Fixpoint base_levels (n : nat) (lvl : Z) (v : Version) (user_key : list byte) (ptrs : list nat) : res (bool * list nat) :=
  match n with
  | O => mret (true, ptrs)
  | S n =>
      files ← level_files v lvl;
      ptr ← of_option (ptrs !! Z.to_nat lvl);
      '(found, k) ← advance_ptr user_key (drop ptr files);
      let ptrs := <[Z.to_nat lvl := (ptr + k)%nat]> ptrs in
      if found : bool then mret (false, ptrs) else base_levels n (lvl + 1) v user_key ptrs
  end.

Definition IsBaseLevelForKey (user_key : list byte) (c : Compaction) : res (bool * Compaction) :=
  '(base, ptrs) ← base_levels (Z.to_nat (kNumLevels - (level_ c + 2))) (level_ c + 2) (input_version_ c) user_key (level_ptrs_ c);
  mret (base, with_ptrs ptrs c).

Fixpoint skip_grandparents (internal_key : list byte) (files : list FileMetaData) (seen : bool) (bytes : Z) : res (nat * Z) :=
  match files with
  | [] => mret (0%nat, bytes)
  | f :: files =>
      k ← InternalKey_Encode (largest f);
      r ← icmp internal_key k;
      if 0 <? r then '(n, bytes) ← skip_grandparents internal_key files seen (if seen then to_int64 (bytes + file_size f) else bytes); mret (S n, bytes)
      else mret (0%nat, bytes)
  end.

Definition ShouldStopBefore (internal_key : list byte) (c : Compaction) : res (bool * Compaction) :=
  '(n, bytes) ← skip_grandparents internal_key (drop (grandparent_index_ c) (grandparents_ c)) (seen_key_ c) (overlapped_bytes_ c);
  let i := (grandparent_index_ c + n)%nat in
  if kMaxGrandParentOverlapBytes <? bytes then mret (true, with_grandparent i 0 c) else mret (false, with_grandparent i bytes c).

(** ** Dropping entries *)

Record KeyState := MkKeyState { current_user_key : list byte; has_current_user_key : bool; last_sequence_for_key : Z }.
Definition no_key : KeyState := MkKeyState [] false kMaxSequenceNumber.

(** Whether the entry is dropped. *)
Definition handle_key (smallest_snapshot : Z) (key : list byte) (ks : KeyState) (c : Compaction) : res (bool * KeyState * Compaction) :=
  ikey ← ParseInternalKey key;
  match ikey with
  | None => mret (false, no_key, c)
  | Some ikey =>
      again ← (if has_current_user_key ks then r ← Compare (user_key ikey) (current_user_key ks); mret (r =? 0) else mret false);
      let ks := if again : bool then ks else MkKeyState (user_key ikey) true kMaxSequenceNumber in
      '(drop, c) ← (if last_sequence_for_key ks <=? smallest_snapshot then mret (true, c)
        else if (type ikey =? kTypeDeletion) && (sequence ikey <=? smallest_snapshot) then IsBaseLevelForKey (user_key ikey) c
        else mret (false, c));
      mret (drop, MkKeyState (current_user_key ks) (has_current_user_key ks) (sequence ikey), c)
  end.
End compaction.

(** ** The tables that a compaction writes

    The file numbers of the version set, the builder of a table on the file with a number, with what [FinishCompactionOutputFile]
    does to that file, and the iterator that verifies the table. *)
Class TableFiles (T B : Type) := {
  NewFileNumber : st T Z;
  NewTable : Z → st T (Status * option B);
  tf_Add : list byte → list byte → B → st T B;
  tf_NumEntries : B → Z;
  tf_FileSize : B → Z;
  tf_Finish : B → st T (Status * B);
  tf_Abandon : B → st T B;
  tf_Sync : B → st T Status;
  tf_Close : B → st T Status;
  tf_Verify : Z → Z → st T Status }.

(** The size of an output is set when it is finished. *)
Record Output := MkOutput { out_number : Z; out_file_size : Z; out_smallest : list byte; out_largest : list byte }.
Record CompactionState (B : Type) := MkState { compaction : Compaction; outputs : list Output; builder : option B; total_bytes : Z }.
Arguments MkState {B} _ _ _ _.
Arguments compaction {B} _.
Arguments outputs {B} _.
Arguments builder {B} _.
Arguments total_bytes {B} _.

(** [current_output()]. *)
Definition change_output (f : Output → Output) (outs : list Output) : res (list Output) :=
  match last outs with None => Err UB | Some o => mret (take (pred (length outs)) outs ++ [f o]) end.

Section outputs.
Context {T B : Type} `{TableFiles T B}.
#[local] Abbreviation CS := (CompactionState B).

Definition OpenCompactionOutputFile (cs : CS) : st T (Status * CS) :=
  _ ← lift (c_assert (negb (bool_decide (is_Some (builder cs)))));
  file_number ← NewFileNumber;
  let outs := outputs cs ++ [MkOutput file_number 0 [] []] in
  '(s, b) ← NewTable file_number;
  mret (s, MkState (compaction cs) outs (if ok s then b else builder cs) (total_bytes cs)).

Definition FinishCompactionOutputFile (input_status : Status) (cs : CS) : st T (Status * CS) :=
  b ← lift (match builder cs with Some b => mret b | None => Err AssertFail end);
  out ← lift (of_option (last (outputs cs)));
  _ ← lift (c_assert (negb (out_number out =? 0)));
  let current_entries := tf_NumEntries b in
  '(s, b) ← (if ok input_status then tf_Finish b else b ← tf_Abandon b; mret (input_status, b));
  let current_bytes := tf_FileSize b in
  outs ← lift (change_output (λ o, MkOutput (out_number o) current_bytes (out_smallest o) (out_largest o)) (outputs cs));
  s ← (if ok s then tf_Sync b else mret s);
  s ← (if ok s then tf_Close b else mret s);
  s ← (if ok s && (0 <? current_entries) then tf_Verify (out_number out) current_bytes else mret s);
  mret (s, MkState (compaction cs) outs None (u64 (total_bytes cs + current_bytes))).

(** An entry that is not dropped. *)
Definition add_output (input_status : Status) (key value : list byte) (cs : CS) : st T (Status * CS) :=
  '(status, cs) ← (match builder cs with None => OpenCompactionOutputFile cs | Some _ => mret (OK, cs) end);
  if negb (ok status) then mret (status, cs)
  else
    b ← lift (of_option (builder cs));
    outs ← lift (change_output (λ o, MkOutput (out_number o) (out_file_size o) (if tf_NumEntries b =? 0 then key else out_smallest o) key) (outputs cs));
    b ← tf_Add key value b;
    let cs := MkState (compaction cs) outs (Some b) (total_bytes cs) in
    if max_output_file_size_ (compaction cs) <=? tf_FileSize b then FinishCompactionOutputFile input_status cs else mret (OK, cs).

Context {user_comparator : Comparator} {I : Type} `{Iterator T I}.

Definition with_compaction (c : Compaction) (cs : CS) : CS := MkState c (outputs cs) (builder cs) (total_bytes cs).

(** [shut] are the answers of [shutting_down_], round by round; false when there are no more. *)
Fixpoint work_loop (fuel : nat) (shut : list bool) (smallest_snapshot : Z) (input : I) (ks : KeyState) (cs : CS) : st T (Status * I * CS) :=
  match fuel with
  | O => lift (Err Diverge)
  | S fuel =>
      if negb (i_Valid input) || default false (head shut) then mret (OK, input, cs)
      else
        key ← lift (i_key input);
        input_status ← lift (i_status input);
        '(stop, c) ← lift (ShouldStopBefore key (compaction cs));
        let cs := with_compaction c cs in
        '(status, cs) ← (if stop && bool_decide (is_Some (builder cs)) then FinishCompactionOutputFile input_status cs else mret (OK, cs));
        if negb (ok status) then mret (status, input, cs)
        else
          '(drop, ks, c) ← lift (handle_key smallest_snapshot key ks (compaction cs));
          let cs := with_compaction c cs in
          '(status, cs) ← (if drop : bool then mret (OK, cs) else value ← lift (i_value input); add_output input_status key value cs);
          if negb (ok status) then mret (status, input, cs)
          else input ← i_Next input; work_loop fuel (tail shut) smallest_snapshot input ks cs
  end.
End outputs.

(** ** The whole compaction *)

Section work.
Context {T I B : Type} `{Iterator T I} `{TableCache T I} `{TableFiles T B} {user_comparator : Comparator}.

Definition level_inputs (options : ReadOptions) (level : Z) (files : list FileMetaData) : st T (list (version_iterator (I := I))) :=
  match files with
  | [] => mret []
  | _ => if level =? 0 then table_iterators options files else it ← new_concatenating files; mret [LevelIter options files it]
  end.

Definition MakeInputIterator (paranoid_checks : bool) (c : Compaction) : st T (merged (version_iterator (I := I))) :=
  let options := MkReadOptions paranoid_checks false in
  its0 ← level_inputs options (level_ c) (inputs_ c).1;
  its1 ← level_inputs options (level_ c + 1) (inputs_ c).2;
  NewMergingIterator (H := version_iterator_iterator) (its0 ++ its1).

(** What [InstallCompactionResults] puts in the edit. *)
Definition compaction_results (c : Compaction) (outs : list Output) : VersionEdit :=
  foldl (λ e o, AddFile (level_ c + 1) (out_number o) (out_file_size o) (out_smallest o) (out_largest o) e) (AddInputDeletions c (edit_ c)) outs.

(** The status, the outputs, and the edit that is to be installed. [shut_after] is the answer of [shutting_down_] after the loop. *)
Definition DoCompactionWork (fuel : nat) (paranoid_checks : bool) (shut : list bool) (shut_after : bool) (smallest_snapshot : Z) (c : Compaction) :
    st T (Status * list Output * option VersionEdit) :=
  files ← lift (level_files (input_version_ c) (level_ c));
  _ ← lift (c_assert (0 <? zlen files));
  let ops := merged_iterator (comparator := InternalKeyComparator user_comparator) (H := version_iterator_iterator) in
  input ← MakeInputIterator paranoid_checks c;
  input ← i_SeekToFirst (Iterator := ops) input;
  '(status, input, cs) ← work_loop (H0 := ops) fuel shut smallest_snapshot input no_key (MkState c [] None 0);
  status ← (if ok status && shut_after then lift (IOError (str "Deleting DB during compaction") []) else mret status);
  input_status ← lift (i_status (Iterator := ops) input);
  '(status, cs) ← (if ok status && bool_decide (is_Some (builder cs)) then FinishCompactionOutputFile input_status cs else mret (status, cs));
  let status := if ok status then input_status else status in
  _ ← i_delete (Iterator := ops) input;
  mret (status, outputs cs, if ok status then Some (compaction_results (compaction cs) (outputs cs)) else None).
End work.
