(* ===== verification/CompactionSpec.v ===== *)
(** * What a compaction drops, and what it writes

    Which levels are asked for a user key, which entries are dropped, and that no reader at a snapshot that is in use,
    or at a later one, can tell.

    The promises of the tables that are written, the loop of a compaction, and the version after it. *)
From Stdlib Require Import Strings.String.
From stdpp Require Import sorting gmap.
From S2P Require Import Prelude Buffers CLib Order Coding Comparator Status DbFormat MemProps Block BlockProps Iterator IterProps TwoLevel Table Merger MergerProps DbIterProps DbIterSpec VersionEdit VersionSet VersionProps VersionIters VersionBuilder BuilderProps VersionSpec Compaction.

#[local] Open Scope Z_scope.
#[local] Open Scope list_scope.

(** ** Dropping, on lists *)

Section drops.
Context (c : list byte → list byte → Z) {Hord : CmpOrder c} (snap : Z) (base : list byte → bool).
#[local] Abbreviation ic := (internal_order c).
#[local] Abbreviation sorted_entries := (StronglySorted (λ a b : entry, ic a.1 b.1 < 0)).
#[local] Existing Instance internal_cmp_order.

Definition same_user (a b : entry) : bool := c (e_user a) (e_user b) =? 0.

(** Whether an entry is dropped, after the entry before it. *)
Definition drops (prev : option entry) (e : entry) : bool :=
  match prev with Some p => same_user e p && (e_seq p <=? snap) | None => false end
  || (e_type e =? kTypeDeletion) && (e_seq e <=? snap) && base (e_user e).

Fixpoint kept (prev : option entry) (es : list entry) : list entry :=
  match es with [] => [] | e :: es => if drops prev e then kept (Some e) es else e :: kept (Some e) es end.

Definition before (prev : option entry) (es : list entry) (i : nat) : option entry := match i with O => prev | S i => es !! i end.

Lemma elem_kept es : ∀ prev x, x ∈ kept prev es ↔ ∃ i, es !! i = Some x ∧ drops (before prev es i) x = false.
Proof using.
  clear. induction es as [|e es IH]; intros prev x; cbn [kept]; [rewrite elem_of_nil; split; [done|]; by intros (i & Hi & _)|].
  assert (x ∈ kept (Some e) es ↔ ∃ i, (e :: es) !! S i = Some x ∧ drops (before prev (e :: es) (S i)) x = false) as Hrest.
  { rewrite IH. split; intros (i & Hi & Hd); exists i; (split; [done|]); destruct i; exact Hd. }
  destruct (drops prev e) eqn:Ed.
  - rewrite Hrest. split; [intros (i & Hi & Hd); by exists (S i)|]. intros ([|i] & Hi & Hd); [|by exists i]. injection Hi as ->. cbn [before] in Hd. congruence.
  - rewrite elem_of_cons, Hrest. split; [intros [->|(i & Hi & Hd)]; [by exists 0%nat|by exists (S i)]|]. intros ([|i] & Hi & Hd); [injection Hi as ->; by left|right; by exists i].
Qed.

Lemma kept_sublist es : ∀ prev, kept prev es `sublist_of` es.
Proof using. induction es as [|e es IH]; intros prev; cbn [kept]; [constructor|]. destruct (drops prev e); [apply sublist_cons, IH|apply sublist_skip, IH]. Qed.

Lemma kept_elem es prev x : x ∈ kept prev es → x ∈ es.
Proof using. rewrite elem_kept. intros (i & Hi & _). by eapply list_elem_of_lookup_2. Qed.

Lemma sorted_index es i j a b : sorted_entries es → es !! i = Some a → es !! j = Some b → (i < j)%nat → ic a.1 b.1 < 0.
Proof using. intros Hs Hi Hj Hij. destruct a, b. by eapply (sorted_lt (c := ic) es Hs i j). Qed.

Lemma user_tags a b : ic a.1 b.1 < 0 → c (e_user a) (e_user b) = 0 → tag_part b.1 < tag_part a.1.
Proof using. intros Hlt E. rewrite internal_order_parts in Hlt. unfold e_user in E. rewrite E in Hlt. cbn [Z.eqb] in Hlt. lia. Qed.

Lemma tag_seq a b : tag_part a.1 ≤ tag_part b.1 → e_seq a ≤ e_seq b.
Proof using. intros H. unfold e_seq. apply Z.div_le_mono; lia. Qed.

(** Between two entries of a user key there are only entries of that key. *)
Lemma same_between es i k j a m b : sorted_entries es → es !! i = Some a → es !! k = Some m → es !! j = Some b → (i ≤ k ≤ j)%nat →
  c (e_user a) (e_user b) = 0 → c (e_user m) (e_user b) = 0.
Proof using Hord.
  intros Hs Hi Hk Hj Hikj E. assert (ic a.1 m.1 ≤ 0) as H1. { destruct (decide (i = k)) as [->|]; [rewrite Hi in Hk; injection Hk as ->; rewrite (cmp_refl ic); lia|]. pose proof (sorted_index es i k a m Hs Hi Hk). lia. }
  assert (ic m.1 b.1 ≤ 0) as H2. { destruct (decide (k = j)) as [->|]; [rewrite Hj in Hk; injection Hk as ->; rewrite (cmp_refl ic); lia|]. pose proof (sorted_index es k j m b Hs Hk Hj). lia. }
  apply internal_order_le in H1, H2. fold (e_user a) (e_user m) (e_user b) in *. pose proof (cmp_trans (c := c) (e_user b) (e_user a) (e_user m)). pose proof (cmp_anti (c := c) (e_user a) (e_user b)). pose proof (cmp_anti (c := c) (e_user m) (e_user b)). lia.
Qed.

(** The first entry of a user key that the snapshot sees. *)
Lemma first_seen es i e : sorted_entries es → es !! i = Some e → e_seq e ≤ snap →
  ∃ j m, es !! j = Some m ∧ (j ≤ i)%nat ∧ c (e_user m) (e_user e) = 0 ∧ e_seq m ≤ snap
    ∧ ∀ k x, es !! k = Some x → (k < j)%nat → c (e_user x) (e_user e) = 0 → snap < e_seq x.
Proof using Hord.
  intros Hs. revert e. induction i as [|i IH]; intros e Hi Hse; [exists 0%nat, e; split_and!; [done|lia|apply (cmp_refl c)|done|lia]|].
  destruct (lookup_lt_is_Some_2 es i) as [p Hp]; [apply lookup_lt_Some in Hi; lia|]. destruct (decide (c (e_user p) (e_user e) = 0 ∧ e_seq p ≤ snap)) as [[Hu Hps]|Hno].
  - destruct (IH p Hp Hps) as (j & m & Hj & Hji & Hmu & Hms & Hfirst). exists j, m.
    assert (∀ x, c (e_user x) (e_user e) = 0 ↔ c (e_user x) (e_user p) = 0) as Heq.
    { intros x. pose proof (cmp_eq_l c (e_user p) (e_user e) (e_user x) Hu). pose proof (cmp_anti (c := c) (e_user x) (e_user e)). pose proof (cmp_anti (c := c) (e_user x) (e_user p)). lia. }
    split_and!; [done|lia|by apply Heq|done|]. intros k x Hk Hkj Hx. apply (Hfirst k x Hk Hkj). by apply Heq.
  - exists (S i), e. split_and!; [done|lia|apply (cmp_refl c)|done|]. intros k x Hk Hlt Hx. pose proof (same_between es k i (S i) x p e Hs Hk Hp Hi ltac:(lia) Hx) as Hpe.
    assert (snap < e_seq p) by (destruct (decide (e_seq p ≤ snap)); [by destruct Hno|lia]). destruct (decide (k = i)) as [->|Hne]; [congruence|].
    assert (c (e_user x) (e_user p) = 0) as Hxp. { pose proof (cmp_eq_l c (e_user x) (e_user e) (e_user p) Hx). pose proof (cmp_anti (c := c) (e_user p) (e_user e)). lia. }
    pose proof (user_tags x p (sorted_index es k i x p Hs Hk Hp ltac:(lia)) Hxp). pose proof (tag_seq p x). lia.
Qed.

(** A dropped entry is hidden at the snapshot by an entry that is kept, or by a deletion without any entry of its key below. *)
Lemma dropped_hidden es e : sorted_entries es → e ∈ es → e ∉ kept None es →
  ∃ m, m ∈ es ∧ c (e_user m) (e_user e) = 0 ∧ e_seq m ≤ snap ∧
    (m ∈ kept None es ∧ tag_part e.1 < tag_part m.1
     ∨ tag_part e.1 ≤ tag_part m.1 ∧ e_type m = kTypeDeletion ∧ base (e_user m) = true ∧ ∀ x, x ∈ kept None es → c (e_user x) (e_user e) = 0 → snap < e_seq x).
Proof using Hord.
  intros Hs [i Hi]%list_elem_of_lookup Hno. assert (drops (before None es i) e = true) as Hd.
  { destruct (drops _ _) eqn:Ed; [done|]. destruct Hno. apply elem_kept. by exists i. }
  assert (∀ j p x, es !! j = Some p → es !! S j = Some x → same_user x p = true → tag_part x.1 < tag_part p.1 ∧ (e_seq p ≤ snap → e_seq x ≤ snap)) as Hnext.
  { intros j p x Hp Hx E%Z.eqb_eq. pose proof (cmp_anti (c := c) (e_user p) (e_user x)). pose proof (user_tags p x (sorted_index es j (S j) p x Hs Hp Hx ltac:(lia))). pose proof (tag_seq x p). lia. }
  assert (e_seq e ≤ snap) as Hse.
  { unfold drops in Hd. apply orb_true_iff in Hd as [Hd|Hd]; [|apply andb_true_iff in Hd as [[_ Hd]%andb_true_iff _]; by apply Z.leb_le].
    destruct i as [|i]; cbn [before] in Hd; [done|]. destruct (es !! i) as [p|] eqn:Hp; [|done]. apply andb_true_iff in Hd as [Hu Hps%Z.leb_le]. by apply (Hnext i p e). }
  destruct (first_seen es i e Hs Hi Hse) as (j & m & Hj & Hji & Hmu & Hms & Hfirst). exists m. split; [by eapply list_elem_of_lookup_2|]. split; [done|]. split; [done|].
  assert (∀ p, before None es j = Some p → same_user m p && (e_seq p <=? snap) = false) as Hbefore.
  { destruct j as [|j]; cbn [before]; [done|]. intros p Hp. destruct (same_user m p) eqn:Hu; [|done]. cbn [andb]. apply Z.leb_gt. apply (Hfirst j p Hp); [lia|]. apply Z.eqb_eq in Hu.
    pose proof (cmp_eq_l c (e_user m) (e_user p) (e_user e) Hu). lia. }
  assert (tag_part e.1 ≤ tag_part m.1 ∧ (e ≠ m → tag_part e.1 < tag_part m.1)) as [Htag Hstrict].
  { destruct (decide (j = i)) as [->|Hne]; [rewrite Hi in Hj; injection Hj as ->; split; [lia|done]|]. pose proof (user_tags m e (sorted_index es j i m e Hs Hj Hi ltac:(lia)) Hmu). lia. }
  destruct (drops (before None es j) m) eqn:Em; [|left; assert (m ∈ kept None es) as Hmk by (apply elem_kept; by exists j); split; [done|apply Hstrict; by intros ->]].
  right. unfold drops in Em. assert (match before None es j with Some p => same_user m p && (e_seq p <=? snap) | None => false end = false) as E by (destruct (before None es j) as [p|] eqn:Hp; [by apply Hbefore|done]).
  rewrite E in Em. cbn [orb] in Em. apply andb_true_iff in Em as [[Ety%Z.eqb_eq _]%andb_true_iff Hb]. split_and!; [done|done|done|].
  intros x Hx Hxe. apply elem_kept in Hx as (k & Hk & Hdx). destruct (decide (k < j)%nat) as [Hlt|Hge]; [by apply (Hfirst k x Hk Hlt)|]. exfalso.
  destruct (decide (k = j)) as [->|Hne]; [rewrite Hj in Hk; injection Hk as <-; unfold drops in Hdx; rewrite E, Ety, Hb, (proj2 (Z.leb_le _ _) Hms) in Hdx; by rewrite Z.eqb_refl in Hdx|].
  destruct k as [|k]; [lia|]. cbn [before] in Hdx. destruct (lookup_lt_is_Some_2 es k) as [p Hp]; [apply lookup_lt_Some in Hk; lia|]. rewrite Hp in Hdx. unfold drops in Hdx. apply orb_false_iff in Hdx as [Hdx _].
  assert (c (e_user m) (e_user x) = 0) as Hmx. { pose proof (cmp_eq_l c (e_user m) (e_user e) (e_user x) Hmu). pose proof (cmp_anti (c := c) (e_user x) (e_user e)). lia. }
  pose proof (same_between es j k (S k) m p x Hs Hj Hp Hk ltac:(lia) Hmx) as Hpx. assert (same_user x p = true) as Hsame by (apply Z.eqb_eq; pose proof (cmp_anti (c := c) (e_user x) (e_user p)); lia).
  rewrite Hsame in Hdx. cbn [andb] in Hdx. apply Z.leb_gt in Hdx. assert (e_seq p ≤ e_seq m); [|lia]. apply tag_seq. destruct (decide (k = j)) as [->|]; [rewrite Hj in Hp; injection Hp as ->; lia|].
  assert (c (e_user m) (e_user p) = 0) as Hmp. { pose proof (cmp_eq_l c (e_user m) (e_user x) (e_user p) Hmx). pose proof (cmp_anti (c := c) (e_user p) (e_user x)). lia. }
  pose proof (user_tags m p (sorted_index es j k m p Hs Hj Hp ltac:(lia)) Hmp). lia.
Qed.

(** No later reader can tell: [others] are the entries that are not compacted; those of a key without entries below are newer. *)
Lemma kept_newest es others s u v : sorted_entries es → snap ≤ s →
  (∀ e x, e ∈ es → x ∈ others → base (e_user e) = true → c (e_user e) (e_user x) = 0 → tag_part e.1 < tag_part x.1) →
  newest_value c s (kept None es ++ others) u v ↔ newest_value c s (es ++ others) u v.
Proof using Hord.
  intros Hs Hsnap Hothers. assert (∀ a b d, c (e_user a) u = 0 → c (e_user b) (e_user a) = 0 → d = e_user b → c d u = 0) as Htrans.
  { intros a b d Ha Hb ->. pose proof (cmp_eq_l c (e_user b) (e_user a) u Hb). lia. }
  assert (∀ e, e ∈ es → e ∉ kept None es → c (e_user e) u = 0 → ∀ w, c (e_user w) u = 0 → c (e_user w) (e_user e) = 0) as Hsame.
  { intros e _ _ He w Hw. pose proof (cmp_eq_l c (e_user w) u (e_user e) Hw). pose proof (cmp_anti (c := c) (e_user e) u). lia. }
  split; intros (e & He & Eu & Ev & Hse & Hty & Hmax); exists e; (split; [|split; [done|]; split; [done|]; split; [done|]; split; [done|]]).
  - apply elem_of_app in He as [He|He]; apply elem_of_app; [left; by eapply kept_elem|by right].
  - intros x Hx Hxu Hxs. destruct (decide (x ∈ kept None es ++ others)) as [Hin|Hno]; [by apply Hmax|]. rewrite elem_of_app in Hno. apply elem_of_app in Hx as [Hx|Hx]; [|tauto].
    destruct (dropped_hidden es x Hs Hx ltac:(tauto)) as (m & Hm & Hmx & Hms & [(Hmk & Hlt)|(Hle & _ & Hb & Hkept)]).
    + assert (tag_part m.1 ≤ tag_part e.1); [|lia]. apply Hmax; [apply elem_of_app; by left|by apply (Htrans x m)|lia].
    + assert (c (e_user e) u = 0) as Heu by (rewrite Eu; apply (cmp_refl c)). apply elem_of_app in He as [He|He].
      * pose proof (Hkept e He (Hsame x Hx ltac:(tauto) Hxu e Heu)) as Hlt. pose proof (tag_seq e m). lia.
      * assert (tag_part m.1 < tag_part e.1); [|lia]. apply (Hothers m e Hm He Hb). pose proof (Htrans x m _ Hxu Hmx eq_refl) as Hmu. rewrite <-Eu in Hmu. done.
  - destruct (decide (e ∈ kept None es ++ others)) as [Hin|Hno]; [done|]. exfalso. rewrite elem_of_app in Hno. apply elem_of_app in He as [He|He]; [|tauto].
    destruct (dropped_hidden es e Hs He ltac:(tauto)) as (m & Hm & Hme & Hms & Hcase). assert (c (e_user e) u = 0) as Heu by (rewrite Eu; apply (cmp_refl c)).
    assert (tag_part m.1 ≤ tag_part e.1) as Hle by (apply Hmax; [apply elem_of_app; by left|by apply (Htrans e m)|lia]). destruct Hcase as [(_ & Hlt)|(Hge & Hdel & _)]; [lia|].
    apply Hty. unfold e_type in *. by replace (tag_part e.1) with (tag_part m.1) by lia.
  - intros x Hx Hxu Hxs. apply Hmax; [|done|done]. apply elem_of_app in Hx as [Hx|Hx]; apply elem_of_app; [left; by eapply kept_elem|by right].
Qed.
End drops.

(** ** Levels below *)

Section base.
Context {C : Comparator} {okk : list byte → Prop} {c : list byte → list byte → Z} {Hspec : ComparatorSpec C okk c}.
#[local] Abbreviation ic := (internal_order c).
#[local] Abbreviation ukey := user_part.
#[local] Abbreviation fine := (file_fine (c := c) (okk := okk)).
#[local] Instance base_order : CmpOrder c := @spec_order _ _ _ Hspec.
#[local] Existing Instance internal_cmp_order.

(** The file's range has the user key. *)
Definition covers (u : list byte) (f : FileMetaData) : bool := overlaps (c := c) (Some u) (Some u) f.
Definition ends_before (u : list byte) (f : FileMetaData) : bool := after_file (c := c) (Some u) f.

Lemma advance_ptr_Ok u files : okk u → Forall fine files → disjoint_files (c := c) files →
  ∃ n, advance_ptr u files = Ok (existsb (covers u) files, n) ∧ (n ≤ length files)%nat ∧ ∀ i f, (i < n)%nat → files !! i = Some f → ends_before u f = true.
Proof using Hspec.
  intros Hu Hf Hd. induction Hf as [|f files Hff Hf IH]; cbn [advance_ptr existsb]; [by exists 0%nat; split; [|split; [lia|intros i f; lia]]|].
  apply StronglySorted_inv in Hd as [Hd Hgt]. pose proof Hff as ([Hs Hl] & _). destruct (ikey_user (okk := okk) _ Hs) as [Es Hsk], (ikey_user (okk := okk) _ Hl) as [El Hlk].
  rewrite El. cbn [mbind res_bind]. rewrite (Compare_spec u _ Hu Hlk). cbn [mbind res_bind]. unfold covers at 1, overlaps. cbn [after_file before_file]. destruct (Z.leb_spec (c u (ukey (largest f))) 0) as [Hle|Hlt].
  - rewrite Es. cbn [mbind res_bind]. rewrite (Compare_spec u _ Hu Hsk). cbn [mbind res_bind mret res_ret]. rewrite (proj2 (Z.ltb_ge 0 _)) by lia. cbn [negb andb].
    exists 0%nat. split; [|split; [lia|lia]]. do 2 f_equal. destruct (Z.ltb_spec (c u (ukey (smallest f))) 0) as [Hb|Hb]; cbn [negb orb]; [|rewrite (proj2 (Z.leb_le _ _)) by lia; done].
    rewrite (proj2 (Z.leb_gt _ _)) by lia. symmetry. apply not_true_is_false. intros Hex. apply existsb_exists in Hex as (g & Hg%list_elem_of_In & Hcov).
    rewrite Forall_forall in Hgt. pose proof (Hgt g Hg) as Hfg. apply Z.lt_le_incl, internal_order_le in Hfg. fold (ukey (largest f)) (ukey (smallest g)) in Hfg.
    destruct Hff as (_ & _ & _ & Hr%internal_order_le). unfold covers, overlaps in Hcov. apply andb_true_iff in Hcov as [_ Hcov%negb_true_iff]. cbn [before_file] in Hcov. apply Z.ltb_ge in Hcov.
    pose proof (cmp_lt_le c u (ukey (smallest f)) (ukey (largest f)) Hb Hr). pose proof (cmp_lt_le c u (ukey (largest f)) (ukey (smallest g))). lia.
  - destruct (IH Hd) as (n & -> & Hn & Hends). cbn [mbind res_bind mret res_ret]. rewrite (proj2 (Z.ltb_lt 0 _)) by lia. cbn [negb andb orb]. exists (S n). split; [done|]. split; [cbn; lia|].
    intros [|i] g Hi Hg; [injection Hg as <-; by apply Z.ltb_lt|]. apply (Hends i g); [lia|done].
Qed.

(** A pointer only passes files that end before the key. *)
Definition ptr_ok (u : list byte) (files : list FileMetaData) (ptr : nat) : Prop :=
  (ptr ≤ length files)%nat ∧ ∀ i f, (i < ptr)%nat → files !! i = Some f → ends_before u f = true.

Lemma ptr_ok_mono u u' files ptr : c u u' ≤ 0 → ptr_ok u files ptr → ptr_ok u' files ptr.
Proof using Hspec.
  intros Hle [Hp Hends]. split; [done|]. intros i f Hi Hf. specialize (Hends i f Hi Hf). apply Z.ltb_lt in Hends. apply Z.ltb_lt.
  pose proof (cmp_anti (c := c) u (ukey (largest f))). pose proof (cmp_anti (c := c) u' (ukey (largest f))). pose proof (cmp_trans (c := c) u u' (ukey (largest f))). lia.
Qed.

Lemma passed_not_covers u files ptr : ptr_ok u files ptr → existsb (covers u) files = existsb (covers u) (drop ptr files).
Proof using.
  intros [Hp Hends]. rewrite <-(take_drop ptr files) at 1. rewrite existsb_app. replace (existsb (covers u) (take ptr files)) with false; [done|]. symmetry. apply not_true_is_false. intros Hex.
  apply existsb_exists in Hex as (f & Hf%list_elem_of_In & Hcov). apply list_elem_of_lookup in Hf as [i Hi]. apply lookup_take_Some in Hi as [Hi Hlt]. pose proof (Hends i f Hlt Hi) as Hb.
  unfold covers, overlaps in Hcov. unfold ends_before in Hb. rewrite Hb in Hcov. done.
Qed.

(** No file below the level after the next one has the key in its range. *)
Definition base_level (v : Version) (lvl : nat) (u : list byte) : bool := forallb (λ files, negb (existsb (covers u) files)) (drop lvl (files_ v)).

Definition ptrs_ok (u : list byte) (v : Version) (lvl : nat) (ptrs : list nat) : Prop :=
  length ptrs = Z.to_nat kNumLevels ∧ ∀ l files ptr, (lvl ≤ l)%nat → files_ v !! l = Some files → ptrs !! l = Some ptr → ptr_ok u files ptr.

Lemma base_levels_Ok v u : version_ok (c := c) (okk := okk) v → okk u → ∀ n lvl top ptrs, (lvl + n = Z.to_nat kNumLevels)%nat → (0 < lvl)%nat → (top ≤ lvl)%nat → ptrs_ok u v top ptrs →
  ∃ ptrs', base_levels n (Z.of_nat lvl) v u ptrs = Ok (base_level v lvl u, ptrs') ∧ ptrs_ok u v top ptrs'.
Proof using Hspec.
  intros Hv Hu. induction n as [|n IH]; intros lvl top ptrs Hlvl Hpos Htop Hptrs; cbn [base_levels].
  { exists ptrs. unfold base_level. rewrite drop_ge by (rewrite (vo_levels v Hv); lia). done. }
  pose proof Hptrs as [Hlen Hp]. destruct (lookup_lt_is_Some_2 (files_ v) lvl) as [files Hf]; [rewrite (vo_levels v Hv); lia|]. destruct (lookup_lt_is_Some_2 ptrs lvl) as [ptr Hptr]; [lia|].
  unfold level_files. rewrite Nat2Z.id, Hf. cbn [of_option mbind res_bind]. rewrite Hptr. cbn [of_option mbind res_bind]. destruct (Hp lvl files ptr Htop Hf Hptr) as [Hle Hends].
  destruct (vo_fine v Hv files) as [Hfine _]; [by eapply list_elem_of_lookup_2|]. pose proof (vo_disjoint v Hv lvl files Hpos Hf) as Hd.
  assert (Forall fine (drop ptr files)) as Hfine' by (by apply Forall_drop). assert (disjoint_files (c := c) (drop ptr files)) as Hd' by (rewrite <-(take_drop ptr files) in Hd; by apply StronglySorted_app_1_r in Hd).
  destruct (advance_ptr_Ok u (drop ptr files) Hu Hfine' Hd') as (k & -> & Hk & Hkends). cbn [mbind res_bind]. rewrite length_drop in Hk.
  rewrite <-(passed_not_covers u files ptr) by by split.
  assert (ptrs_ok u v top (<[lvl := (ptr + k)%nat]> ptrs)) as Hptrs'.
  { split; [by rewrite length_insert|]. intros l files' ptr' Hl Hf' Hptr'. destruct (decide (l = lvl)) as [->|Hne]; [|rewrite list_lookup_insert_ne in Hptr' by done; by apply (Hp l)].
    rewrite Hf in Hf'. injection Hf' as <-. rewrite list_lookup_insert_eq in Hptr' by lia. injection Hptr' as <-. split; [lia|]. intros i f Hi Hfi. destruct (decide (i < ptr)%nat) as [Hlt|Hge]; [by apply (Hends i)|].
    apply (Hkends (i - ptr)%nat); [lia|]. rewrite lookup_drop. by replace (ptr + (i - ptr))%nat with i by lia. }
  unfold base_level. rewrite (drop_S _ _ _ Hf). cbn [forallb]. destruct (existsb (covers u) files); cbn [negb andb]; [by eexists|].
  replace (Z.of_nat lvl + 1) with (Z.of_nat (S lvl)) by lia. apply IH; [lia|lia|lia|done].
Qed.

(** ** One entry *)

Context (snap : Z) (Hsnap : snap < kMaxSequenceNumber).

Definition state_of (prev : option entry) (ks : KeyState) : Prop :=
  match prev with
  | None => ks = no_key
  | Some p => has_current_user_key ks = true ∧ okk (current_user_key ks) ∧ c (current_user_key ks) (e_user p) = 0 ∧ last_sequence_for_key ks = e_seq p
  end.

(** The fields of a compaction that its loop does not change. *)
Definition same_compaction (a b : Compaction) : Prop :=
  level_ a = level_ b ∧ max_output_file_size_ a = max_output_file_size_ b ∧ input_version_ a = input_version_ b ∧ edit_ a = edit_ b ∧ inputs_ a = inputs_ b ∧ grandparents_ a = grandparents_ b.
Definition pointed (prev : option entry) (cn : Compaction) : Prop :=
  length (level_ptrs_ cn) = Z.to_nat kNumLevels ∧ ∀ u, match prev with Some p => c (e_user p) u ≤ 0 | None => True end → ptrs_ok u (input_version_ cn) (Z.to_nat (level_ cn + 2)) (level_ptrs_ cn).

Lemma compaction_handle_key_Ok prev e ks cn : version_ok (c := c) (okk := okk) (input_version_ cn) → 0 ≤ level_ cn < kNumLevels - 1 → entry_fine (okk := okk) e → state_of prev ks → pointed prev cn →
  match prev with Some p => c (e_user p) (e_user e) ≤ 0 | None => True end →
  ∃ ks' cn', handle_key snap e.1 ks cn = Ok (drops c snap (base_level (input_version_ cn) (Z.to_nat (level_ cn + 2))) prev e, ks', cn')
    ∧ state_of (Some e) ks' ∧ same_compaction cn cn' ∧ pointed (Some e) cn' ∧ grandparent_index_ cn' = grandparent_index_ cn.
Proof using Hspec Hsnap.
  intros Hv Hlvl ((H8 & Hk) & Hty & _) Hks Hpt Hle. unfold handle_key. rewrite ParseInternalKey_Ok by done. cbn [mbind res_bind]. unfold e_type, kTypeValue in Hty. rewrite (proj2 (Z.leb_le _ _) Hty).
  cbn [user_key type sequence]. fold (e_user e) (e_seq e) (e_type e) in *.
  assert (∃ again, (if has_current_user_key ks then r ← Compare (e_user e) (current_user_key ks); mret (r =? 0) else mret false) = Ok again
    ∧ match prev with Some p => again = same_user c e p | None => again = false end) as (again & -> & Hagain).
  { destruct prev as [p|]; [|rewrite Hks; by exists false]. destruct Hks as (-> & Hck & Hcp & _). rewrite (Compare_spec _ _ Hk Hck). cbn [mbind res_bind]. eexists. split; [done|]. unfold same_user. fold (e_user e).
    pose proof (cmp_eq_l c _ _ (e_user e) Hcp). pose proof (cmp_anti (c := c) (e_user e) (current_user_key ks)). pose proof (cmp_anti (c := c) (e_user e) (e_user p)).
    destruct (Z.eqb_spec (c (e_user e) (current_user_key ks)) 0), (Z.eqb_spec (c (e_user e) (e_user p)) 0); lia. }
  cbn [mbind res_bind]. set (ks1 := if again then ks else MkKeyState (e_user e) true kMaxSequenceNumber).
  assert (has_current_user_key ks1 = true ∧ okk (current_user_key ks1) ∧ c (current_user_key ks1) (e_user e) = 0) as (Hh1 & Hk1 & Hc1).
  { unfold ks1. destruct again; [|split; [done|]; split; [done|apply (cmp_refl c)]]. destruct prev as [p|]; [|done]. destruct Hks as (Hh & Hck & Hcp & _). split; [done|]. split; [done|]. symmetry in Hagain. apply Z.eqb_eq in Hagain.
    pose proof (cmp_eq_l c _ _ (e_user e) Hcp). pose proof (cmp_anti (c := c) (e_user e) (e_user p)). lia. }
  assert ((last_sequence_for_key ks1 <=? snap) = match prev with Some p => same_user c e p && (e_seq p <=? snap) | None => false end) as ->.
  { unfold ks1. destruct prev as [p|]; [destruct Hks as (_ & _ & _ & Hl); rewrite <-Hagain; destruct again; cbn [andb]; [by rewrite Hl|]|rewrite Hagain]; cbn [last_sequence_for_key]; apply Z.leb_gt; lia. }
  assert (state_of (Some e) (MkKeyState (current_user_key ks1) (has_current_user_key ks1) (e_seq e))) as Hks' by by split.
  assert (∀ p : list nat, ptrs_ok (e_user e) (input_version_ cn) (Z.to_nat (level_ cn + 2)) p → pointed (Some e) (with_ptrs p cn)) as Hptd.
  { intros p [Hlen Hp]. split; [done|]. intros u Hu. split; [done|]. intros l files ptr Hl Hf Hptr. apply (ptr_ok_mono (e_user e)); [done|]. by apply (Hp l). }
  assert (pointed (Some e) cn) as Hself.
  { destruct Hpt as [Hlen Hpt]. split; [done|]. intros u Hu. apply Hpt. destruct prev as [p|]; [|done]. by apply (cmp_trans (c := c) _ (e_user e)). }
  unfold drops. fold (e_seq e). destruct (match prev with Some p => _ | None => false end); cbn [orb mbind res_bind].
  { eexists _, cn. split; [done|]. split; [done|]. split; [by repeat split|]. by split. }
  destruct ((e_type e =? kTypeDeletion) && (e_seq e <=? snap)); cbn [andb mbind res_bind].
  2:{ eexists _, cn. split; [done|]. split; [done|]. split; [by repeat split|]. by split. }
  unfold IsBaseLevelForKey. assert (0 < kNumLevels) as H7 by done.
  destruct (base_levels_Ok (input_version_ cn) (e_user e) Hv Hk (Z.to_nat (kNumLevels - (level_ cn + 2))) (Z.to_nat (level_ cn + 2)) (Z.to_nat (level_ cn + 2)) (level_ptrs_ cn)) as (ptrs' & E & Hp'); [change kNumLevels with 7 in *; lia|lia|lia|by apply Hself; rewrite (cmp_refl c)|].
  rewrite Z2Nat.id in E by lia. rewrite E. cbn [mbind res_bind mret res_ret]. eexists _, (with_ptrs ptrs' cn). split; [done|]. split; [done|]. split; [by repeat split|]. split; [by apply Hptd|done].
Qed.
End base.

(** * What a compaction writes *)

(** A table that was written: its number, its size and its entries. *)
Abbreviation table := (Z * Z * list entry)%type.
Definition table_number (x : table) : Z := x.1.1.
Definition table_entries (x : table) : list entry := x.2.

(** ** The files of tables: [PM made frame t], with the tables [made] so far. Numbers are new, and writing succeeds. *)
Class TableFilesSpec {T R B : Type} `{TableFiles T B} (PM : list table → list R → T → Prop) (new_number : Z → Prop) (fitting_entries : list entry → Prop) := {
  tf_writing : Z → list entry → B → Prop;
  tf_finished : Z → list entry → B → Prop;
  NewFileNumber_spec made frame t : PM made frame t →
    wp NewFileNumber (λ n t', new_number n ∧ (n ∉ table_number <$> made) ∧ 0 < n ∧ PM made frame t') t;
  NewTable_spec n made frame t : PM made frame t → wp (NewTable n) (λ r t', r.1 = OK ∧ (∃ b, r.2 = Some b ∧ tf_writing n [] b) ∧ PM made frame t') t;
  tf_Add_spec n es k v b made frame t : tf_writing n es b → fitting_entries (es ++ [(k, v)]) → PM made frame t →
    wp (tf_Add k v b) (λ b' t', tf_writing n (es ++ [(k, v)]) b' ∧ PM made frame t') t;
  tf_NumEntries_spec n es b : tf_writing n es b → (tf_NumEntries b = 0 ↔ es = []);
  tf_Finish_spec n es b made frame t : tf_writing n es b → es ≠ [] → PM made frame t →
    wp (tf_Finish b) (λ r t', r.1 = OK ∧ tf_finished n es r.2 ∧ 0 ≤ tf_FileSize r.2 < 2^64 ∧ PM made frame t') t;
  tf_Sync_spec n es b made frame t : tf_finished n es b → PM made frame t → wp (tf_Sync b) (λ s t', s = OK ∧ PM made frame t') t;
  tf_Close_spec n es b made frame t : tf_finished n es b → PM made frame t → wp (tf_Close b) (λ s t', s = OK ∧ PM (made ++ [(n, tf_FileSize b, es)]) frame t') t;
  tf_Verify_spec n size es made frame t : (n, size, es) ∈ made → PM made frame t → wp (tf_Verify n size) (λ s t', s = OK ∧ PM made frame t') t }.

Definition first_key (es : list entry) : list byte := match es with [] => [] | e :: _ => e.1 end.
Definition last_key (es : list entry) : list byte := match last es with None => [] | Some e => e.1 end.
Definition out_of (x : table) : Output := MkOutput (table_number x) x.1.2 (first_key x.2) (last_key x.2).

Lemma last_key_of_snoc l e : last_key (l ++ [e]) = e.1.
Proof. unfold last_key. by rewrite last_snoc. Qed.

Lemma change_last f outs o : change_output f (outs ++ [o]) = Ok (outs ++ [f o]).
Proof.
  unfold change_output. rewrite last_snoc. unfold mret, res_ret. do 2 f_equal. rewrite length_app. cbn [length]. replace (pred (length outs + 1)) with (length outs) by lia. by rewrite take_app_length.
Qed.

Section work.
Context {T R B : Type} `{TableFiles T B} {PM : list table → list R → T → Prop} {new_number : Z → Prop} {fitting_entries : list entry → Prop} {HTF : TableFilesSpec PM new_number fitting_entries}.
#[local] Abbreviation CS := (CompactionState B).

(** The tables that are closed, and the entries of the one that is open. *)
Definition writes (made : list table) (cur : list entry) (cs : CS) : Prop :=
  NoDup (table_number <$> made) ∧ Forall (λ x, new_number (table_number x) ∧ 0 < table_number x ∧ 0 ≤ x.1.2 < 2^64 ∧ table_entries x ≠ []) made ∧
  match builder cs with
  | None => outputs cs = out_of <$> made ∧ cur = []
  | Some b => ∃ n, tf_writing n cur b ∧ cur ≠ [] ∧ new_number n ∧ (n ∉ table_number <$> made) ∧ 0 < n ∧ outputs cs = (out_of <$> made) ++ [MkOutput n 0 (first_key cur) (last_key cur)]
  end.

Definition all_written (made : list table) (cur : list entry) : list entry := concat (table_entries <$> made) ++ cur.

Lemma FinishOutput_Ok made cur cs frame t : writes made cur cs → cur ≠ [] → PM made frame t →
  wp (FinishCompactionOutputFile OK cs) (λ r t', r.1 = OK ∧ compaction r.2 = compaction cs ∧ builder r.2 = None ∧ ∃ made', writes made' [] r.2 ∧ all_written made' [] = all_written made cur ∧ PM made' frame t') t.
Proof using HTF.
  intros (Hnd & Hnew & Hb) Hcur HP. unfold FinishCompactionOutputFile. destruct (builder cs) as [b|]; [|by destruct Hb]. destruct Hb as (n & Hw & _ & Hn & Hfresh & Hpos & Eo).
  apply wp_bind, (wp_lift _ b); [done|]. apply wp_bind, (wp_lift _ (MkOutput n 0 (first_key cur) (last_key cur))); [by rewrite Eo, last_snoc|]. cbn [out_number].
  apply wp_bind, (wp_lift _ tt); [by rewrite (proj2 (Z.eqb_neq n 0)) by lia|]. change (ok OK) with true. apply wp_bind, (wp_mono _ _ _ _ (tf_Finish_spec n cur b made frame t Hw Hcur HP)).
  intros [s b'] t1 (Es & Hfin & Hsize & HP1). cbn [fst snd] in *. subst s. apply wp_bind. eapply wp_lift; [rewrite Eo; apply change_last|]. change (ok OK) with true. cbn match.
  apply wp_bind, (wp_mono _ _ _ _ (tf_Sync_spec n cur b' made frame t1 Hfin HP1)). intros s t2 [-> HP2]. change (ok OK) with true. cbn match.
  apply wp_bind, (wp_mono _ _ _ _ (tf_Close_spec n cur b' made frame t2 Hfin HP2)). intros s t3 [-> HP3]. change (ok OK) with true. set (made' := made ++ [(n, tf_FileSize b', cur)]) in *.
  assert ((n, tf_FileSize b', cur) ∈ made') as Hin by (apply elem_of_app; right; by left).
  apply wp_bind. apply (wp_mono _ (λ s t', s = OK ∧ PM made' frame t')).
  { cbn [andb]. destruct (0 <? tf_NumEntries b); [by apply (tf_Verify_spec n _ cur)|by apply wp_ret]. }
  intros s t4 [-> HP4]. apply wp_ret. cbn [fst snd compaction builder]. split; [done|]. split; [done|]. split; [done|]. exists made'. split; [|split; [|done]].
  - split; [unfold made'; rewrite fmap_app; apply NoDup_app; split; [done|]; split; [|apply NoDup_singleton]|split].
    + intros x Hx Hx'%list_elem_of_singleton. cbn in Hx'. by subst x.
    + apply Forall_app. split; [done|]. by constructor.
    + cbn [builder outputs]. split; [|done]. unfold made'. by rewrite fmap_app.
  - unfold all_written, made'. rewrite fmap_app, concat_app. cbn. by rewrite !app_nil_r.
Qed.

Lemma add_output_Ok made cur cs k v frame t : writes made cur cs → fitting_entries (cur ++ [(k, v)]) → fitting_entries [(k, v)] → PM made frame t →
  wp (add_output OK k v cs) (λ r t', r.1 = OK ∧ compaction r.2 = compaction cs ∧ ∃ made' cur', writes made' cur' r.2 ∧ (cur' = [] ∨ cur' = cur ++ [(k, v)])
    ∧ all_written made' cur' = all_written made cur ++ [(k, v)] ∧ PM made' frame t') t.
Proof using HTF.
  intros Hw Hfit Hfit1 HP. unfold add_output. apply wp_bind.
  apply (wp_mono _ (λ r t', r.1 = OK ∧ compaction r.2 = compaction cs ∧ PM made frame t' ∧ NoDup (table_number <$> made) ∧ Forall (λ x, new_number (table_number x) ∧ 0 < table_number x ∧ 0 ≤ x.1.2 < 2^64 ∧ table_entries x ≠ []) made
    ∧ ∃ n b small large, builder r.2 = Some b ∧ tf_writing n cur b ∧ new_number n ∧ (n ∉ table_number <$> made) ∧ 0 < n ∧ (cur ≠ [] → small = first_key cur) ∧ outputs r.2 = (out_of <$> made) ++ [MkOutput n 0 small large])).
  { destruct Hw as (Hnd & Hnew & Hb). destruct (builder cs) as [b|] eqn:Eb.
    - apply wp_ret. cbn [fst snd]. split_and!; [done|done|done|done|done|]. destruct Hb as (n & Hwr & _ & ? & ? & ? & Eo). by exists n, b, (first_key cur), (last_key cur).
    - destruct Hb as [Eo ->]. unfold OpenCompactionOutputFile. rewrite Eb. apply wp_bind, (wp_lift _ tt); [done|]. apply wp_bind, (wp_mono _ _ _ _ (NewFileNumber_spec made frame t HP)).
      intros n t1 (Hn & Hfresh & Hpos & HP1). apply wp_bind, (wp_mono _ _ _ _ (NewTable_spec n made frame t1 HP1)). intros [s ob] t2 (Es & (b & Eob & Hwr) & HP2). cbn [fst snd] in *. subst s ob. apply wp_ret. cbn [fst snd compaction builder outputs].
      split_and!; [done|done|done|done|done|]. exists n, b, [], []. by rewrite Eo. }
  intros [s cs1] t1 (Es & Ec & HP1 & Hnd & Hnew & n & b & small & large & Eb & Hwr & Hn & Hfresh & Hpos & Esm & Eo). cbn [fst snd] in *. subst s. change (ok OK) with true. cbn [negb]. rewrite Eb.
  apply wp_bind, (wp_lift _ b); [done|]. apply wp_bind. eapply wp_lift; [rewrite Eo; apply change_last|]. cbn [out_number out_file_size out_smallest].
  apply wp_bind, (wp_mono _ _ _ _ (tf_Add_spec n cur k v b made frame t1 Hwr Hfit HP1)). intros b' t2 [Hwr' HP2]. set (cs2 := MkState _ _ (Some b') _).
  assert (writes made (cur ++ [(k, v)]) cs2) as Hw2.
  { split; [done|]. split; [done|]. cbn [builder cs2 outputs]. exists n. split; [done|]. split; [by destruct cur|]. split; [done|]. split; [done|]. split; [done|]. do 2 f_equal. rewrite last_key_of_snoc. cbn [fst]. f_equal.
    pose proof (tf_NumEntries_spec n cur b Hwr) as Hne. destruct (Z.eqb_spec (tf_NumEntries b) 0) as [E0|Hne0]; [by rewrite (proj1 Hne E0)|]. assert (cur ≠ []) as Hc by (intros E; by apply Hne0, Hne). rewrite (Esm Hc). by destruct cur. }
  change (compaction cs2) with (compaction cs1). destruct (max_output_file_size_ (compaction cs1) <=? tf_FileSize b').
  - apply (wp_mono _ _ _ _ (FinishOutput_Ok made (cur ++ [(k, v)]) cs2 frame t2 Hw2 ltac:(by destruct cur) HP2)). intros [s cs3] t3 (Es & Ec3 & _ & made' & Hw3 & Ew & HP3). cbn [fst snd] in *. split; [done|]. split; [by rewrite Ec3|].
    exists made', []. split; [done|]. split; [by left|]. split; [|done]. rewrite Ew. unfold all_written. by rewrite app_assoc.
  - apply wp_ret. cbn [fst snd]. split; [done|]. split; [done|]. exists made, (cur ++ [(k, v)]). split; [done|]. split; [by right|]. split; [|done]. unfold all_written. by rewrite app_assoc.
Qed.
End work.

(** ** The loop *)

Lemma kept_snoc c snap base l : ∀ prev e, kept c snap base prev (l ++ [e]) = kept c snap base prev l ++ (if drops c snap base (match last l with Some p => Some p | None => prev end) e then [] else [e]).
Proof.
  induction l as [|x l IH]; intros prev e; cbn [kept app]; [cbn [last]; by destruct (drops _ _ _ prev e)|].
  rewrite IH. assert (match last (x :: l) with Some p => Some p | None => prev end = match last l with Some p => Some p | None => Some x end) as -> by (rewrite last_cons; by destruct (last l)).
  by destruct (drops c snap base prev x).
Qed.

Lemma last_take {A} (l : list A) i : (i < length l)%nat → last (take (S i) l) = l !! i.
Proof. intros Hi. destruct (lookup_lt_is_Some_2 l i Hi) as [x Hx]. rewrite (take_S_r l i x Hx), last_snoc. by rewrite Hx. Qed.

Section loop.
Context {C : Comparator} {okk : list byte → Prop} {c : list byte → list byte → Z} {Hspec : ComparatorSpec C okk c}.
Context {T R B I : Type} `{HF : TableFiles T B} {PM : list table → list R → T → Prop} {new_number : Z → Prop} {fitting_entries : list entry → Prop} {HTF : TableFilesSpec PM new_number fitting_entries}.
Context `{HI : Iterator T I} (es : list entry) (pos : I → nat → Prop) (owns : I → list R).
Context (Hit : ∀ made, IteratorSpec (PM made) (internal_ok okk) (internal_order c) es pos owns).
Context (Hsorted : StronglySorted (λ a b : entry, internal_order c a.1 b.1 < 0) es) (Hfine : Forall (entry_fine (okk := okk)) es) (Hfits : ∀ l, l `sublist_of` es → fitting_entries l).
Context (snap : Z) (Hsnap : snap < kMaxSequenceNumber).
#[local] Abbreviation CS := (CompactionState B).
#[local] Abbreviation base_of cn := (base_level (c := c) (input_version_ cn) (Z.to_nat (level_ cn + 2))).
#[local] Instance loop_order : CmpOrder c := @spec_order _ _ _ Hspec.

Definition comp_ok (cn : Compaction) : Prop :=
  version_ok (c := c) (okk := okk) (input_version_ cn) ∧ 0 ≤ level_ cn < kNumLevels - 1 ∧ Forall (keys_ok (okk := okk)) (grandparents_ cn).

Lemma skip_grandparents_Ok key files : internal_ok okk key → Forall (keys_ok (okk := okk)) files → ∀ seen bytes, ∃ n bytes', skip_grandparents key files seen bytes = Ok (n, bytes').
Proof using Hspec.
  intros Hk. induction 1 as [|f files [_ Hl] _ IH]; intros seen bytes; cbn [skip_grandparents]; [by eexists _, _|]. rewrite (ikey_encode _ Hl). cbn [mbind res_bind]. rewrite internal_Compare_Ok by done. cbn [mbind res_bind].
  destruct (0 <? _); [|by eexists _, _]. destruct (IH seen (if seen then to_int64 (bytes + file_size f) else bytes)) as (n & b & ->). cbn [mbind res_bind]. by eexists _, _.
Qed.

Lemma same_compaction_refl cn : same_compaction cn cn.
Proof using. by repeat split. Qed.
Lemma same_compaction_trans c1 c2 c3 : same_compaction c1 c2 → same_compaction c2 c3 → same_compaction c1 c3.
Proof using. unfold same_compaction. intuition congruence. Qed.

Lemma ShouldStopBefore_Ok key prev cn : internal_ok okk key → comp_ok cn → pointed (c := c) prev cn →
  ∃ stop cn', ShouldStopBefore key cn = Ok (stop, cn') ∧ same_compaction cn cn' ∧ pointed (c := c) prev cn'.
Proof using Hspec.
  intros Hk (_ & _ & Hg) Hp. unfold ShouldStopBefore. destruct (skip_grandparents_Ok key (drop (grandparent_index_ cn) (grandparents_ cn)) Hk ltac:(by apply Forall_drop) (seen_key_ cn) (overlapped_bytes_ cn)) as (n & b & ->). cbn [mbind res_bind].
  destruct (kMaxGrandParentOverlapBytes <? b); eexists _, _; (split; [done|]); (split; [by repeat split|exact Hp]).
Qed.

Lemma comp_ok_same cn cn' : same_compaction cn cn' → comp_ok cn → comp_ok cn' ∧ base_of cn' = base_of cn.
Proof using. intros (El & _ & Ev & _ & _ & Eg). unfold comp_ok. by rewrite <-El, <-Ev, <-Eg. Qed.

(** Between two rounds: at entry [i] of the input. *)
Record at_round (cn0 : Compaction) (i : nat) (made : list table) (cur : list entry) (ks : KeyState) (cs : CS) : Prop := {
  ar_same : same_compaction cn0 (compaction cs);
  ar_state : state_of (okk := okk) (c := c) (before None es i) ks;
  ar_pointed : pointed (c := c) (before None es i) (compaction cs);
  ar_writes : writes (PM := PM) (new_number := new_number) (fitting_entries := fitting_entries) made cur cs;
  ar_kept : all_written made cur = kept c snap (base_of cn0) None (take i es) }.

Lemma kept_step cn0 i e : es !! i = Some e →
  kept c snap (base_of cn0) None (take (S i) es) = kept c snap (base_of cn0) None (take i es) ++ (if drops c snap (base_of cn0) (before None es i) e then [] else [e]).
Proof using.
  intros He. rewrite (take_S_r es i e He), kept_snoc. do 2 f_equal. assert (match last (take i es) with Some p => Some p | None => None end = before None es i) as ->; [|done].
  destruct i as [|i]; [done|]. apply lookup_lt_Some in He. rewrite last_take by lia. cbn [before]. by destruct (es !! i).
Qed.

Lemma round_fits cn0 i e made cur : es !! i = Some e → all_written made cur = kept c snap (base_of cn0) None (take i es) → fitting_entries (cur ++ [e]) ∧ fitting_entries [e].
Proof using Hfits.
  intros He Hall. assert ((kept c snap (base_of cn0) None (take i es) ++ [e]) `sublist_of` es) as Hsub.
  { rewrite <-(take_drop i es) at 2. apply sublist_app; [apply kept_sublist|]. rewrite (drop_S es e i He). apply sublist_skip. apply sublist_nil_l. }
  unfold all_written in Hall. rewrite <-Hall in Hsub. split; apply Hfits; (etrans; [|exact Hsub]).
  - rewrite <-app_assoc. by apply sublist_inserts_l.
  - by apply sublist_inserts_l.
Qed.

Lemma work_loop_Ok cn0 (Hcn : comp_ok cn0) fuel : ∀ i input made cur ks cs frame t, (length es - i < fuel)%nat → pos input i → at_round cn0 i made cur ks cs → PM made (owns input ++ frame) t →
  wp (work_loop fuel [] snap input ks cs) (λ r t', let '(s, input', cs') := r in s = OK ∧ pos input' (length es) ∧ ∃ made' cur' ks', at_round cn0 (length es) made' cur' ks' cs' ∧ PM made' (owns input' ++ frame) t') t.
Proof using Hspec HTF Hit Hsorted Hfine Hfits Hsnap.
  induction fuel as [|fuel IH]; intros i input made cur ks cs frame t Hfuel Hpos Har HP; [lia|]. cbn [work_loop head default].
  destruct (pos_valid (IteratorSpec := Hit made) input i Hpos) as (Hle & Hval & Hst). rewrite Hval. destruct (decide (i < length es)%nat) as [Hlt|Hge].
  2:{ rewrite bool_decide_false by done. apply wp_ret. split; [done|]. assert (i = length es) as -> by lia. split; [done|]. by exists made, cur, ks. }
  rewrite bool_decide_true by done. cbn [negb orb]. destruct (lookup_lt_is_Some_2 es i Hlt) as [[k v] He]. destruct (pos_entry (IteratorSpec := Hit made) input i k v Hpos He) as [Hk Hv].
  pose proof (list_elem_of_lookup_2 _ _ _ He) as Hin. rewrite Forall_forall in Hfine. pose proof (Hfine _ Hin) as Hef. destruct Har as [Hsame Hks Hpt Hw Hkept].
  apply wp_bind, (wp_lift _ _ _ _ Hk), wp_bind, (wp_lift _ _ _ _ Hst). destruct (comp_ok_same _ _ Hsame Hcn) as [Hcok Hbase].
  destruct (ShouldStopBefore_Ok k _ _ (proj1 Hef) Hcok Hpt) as (stop & cn1 & E1 & Hs1 & Hpt1). apply wp_bind, (wp_lift _ _ _ _ E1).
  assert (∀ cn2, writes (PM := PM) (new_number := new_number) (fitting_entries := fitting_entries) made cur (with_compaction cn2 cs)) as Hw' by by intros cn2.
  apply wp_bind. apply (wp_mono _ (λ r t', r.1 = OK ∧ compaction r.2 = cn1 ∧ ∃ made1 cur1, writes (PM := PM) (new_number := new_number) (fitting_entries := fitting_entries) made1 cur1 r.2 ∧ (cur1 = cur ∨ cur1 = [])
    ∧ all_written made1 cur1 = all_written made cur ∧ PM made1 (owns input ++ frame) t')).
  { destruct (stop && bool_decide (is_Some (builder (with_compaction cn1 cs)))) eqn:Eb; [|apply wp_ret; split; [done|]; split; [done|]; exists made, cur; split; [done|]; split; [by left|]; by split].
    apply andb_true_iff in Eb as [_ Eb%bool_decide_eq_true]. assert (cur ≠ []) as Hcur.
    { destruct (Hw' cn1) as (_ & _ & Hb). destruct (builder (with_compaction cn1 cs)); [by destruct Hb as (? & _ & ? & _)|by destruct Eb]. }
    apply (wp_mono _ _ _ _ (FinishOutput_Ok made cur _ (owns input ++ frame) t (Hw' cn1) Hcur HP)). intros r t1 (Es & Ec & _ & made1 & Hw1 & Ew & HP1). split; [done|]. split; [done|]. exists made1, []. split; [done|]. split; [by right|]. by split. }
  intros [s1 cs1] t1 (Es & Ec1 & made1 & cur1 & Hw1 & Hcur1 & Ew1 & HP1). cbn [fst snd] in *. subst s1. change (ok OK) with true. cbn [negb].
  assert (same_compaction cn0 cn1) as Hsame1 by by eapply same_compaction_trans. destruct (comp_ok_same _ _ Hsame1 Hcn) as [Hcok1 Hbase1].
  destruct (compaction_handle_key_Ok snap Hsnap (before None es i) (k, v) ks cn1 (proj1 Hcok1) (proj1 (proj2 Hcok1)) Hef Hks Hpt1) as (ks2 & cn2 & E2 & Hks2 & Hs2 & Hpt2 & _).
  { destruct i as [|i]; cbn [before]; [done|]. destruct (es !! i) as [p|] eqn:Hp; [|done]. pose proof (sorted_index c es i (S i) p (k, v) Hsorted Hp He ltac:(lia)) as Hord. apply Z.lt_le_incl, internal_order_le in Hord. exact Hord. }
  rewrite Ec1. apply wp_bind, (wp_lift _ _ _ _ E2). rewrite Hbase1. set (d := drops c snap (base_of cn0) (before None es i) (k, v)) in *.
  assert (∀ cn', writes (PM := PM) (new_number := new_number) (fitting_entries := fitting_entries) made1 cur1 (with_compaction cn' cs1)) as Hw1' by by intros cn'.
  apply wp_bind. apply (wp_mono _ (λ r t', r.1 = OK ∧ compaction r.2 = cn2 ∧ ∃ made2 cur2, writes (PM := PM) (new_number := new_number) (fitting_entries := fitting_entries) made2 cur2 r.2
    ∧ all_written made2 cur2 = kept c snap (base_of cn0) None (take (S i) es) ∧ PM made2 (owns input ++ frame) t')).
  { rewrite (kept_step cn0 i (k, v) He). fold d. destruct d; [apply wp_ret; split; [done|]; split; [done|]; exists made1, cur1; split; [done|]; split; [by rewrite app_nil_r, Ew1|done]|].
    apply wp_bind, (wp_lift _ _ _ _ Hv). destruct (round_fits cn0 i (k, v) made1 cur1 He ltac:(by rewrite Ew1)) as [Hf1 Hf2].
    apply (wp_mono _ _ _ _ (add_output_Ok made1 cur1 (with_compaction cn2 cs1) k v (owns input ++ frame) t1 (Hw1' cn2) Hf1 Hf2 HP1)). intros r t2 (Es & Ec & made2 & cur2 & Hw2 & _ & Ew2 & HP2).
    split; [done|]. split; [done|]. exists made2, cur2. split; [done|]. split; [by rewrite Ew2, Ew1, Hkept|done]. }
  intros [s2 cs2] t2 (Es & Ec2 & made2 & cur2 & Hw2 & Ew2 & HP2). cbn [fst snd] in *. subst s2. change (ok OK) with true. cbn [negb].
  apply wp_bind, (wp_mono _ _ _ _ (Next_spec (IteratorSpec := Hit made2) input i Hpos Hlt frame t2 HP2)). intros input' t3 [Hpos' HP3]. cbn [tail]. apply (IH (S i) input' made2 cur2); [lia|done| |done].
  split; [rewrite Ec2; by eapply same_compaction_trans|cbn [before]; by rewrite He|cbn [before]; by rewrite He, Ec2|done|done].
Qed.
End loop.

(** ** The whole work *)

Section whole.
Context {C : Comparator} {okk : list byte → Prop} {c : list byte → list byte → Z} {Hspec : ComparatorSpec C okk c}.
Context {T I R B : Type} `{HI : Iterator T I} {HTC : TableCache T I} `{HF : TableFiles T B} {P : list R → T → Prop} {tables : Z → Z → list entry → Prop} {HT : TableCacheSpec P okk c tables}.
(** A table that was written is a resource, which stays. *)
Context (token : table → R) {new_number : Z → Prop} {fitting_entries : list entry → Prop}.
Definition holding_tables (made : list table) (frame : list R) (t : T) : Prop := P ((token <$> made) ++ frame) t.
Context {HTF : TableFilesSpec holding_tables new_number fitting_entries}.
Context (data : FileMetaData → list entry).
#[local] Abbreviation holds := (file_holds okk c tables data).
#[local] Abbreviation ic := (internal_order c).
#[local] Abbreviation vit := (version_iterator (I := I)).
#[local] Instance whole_order : CmpOrder c := @spec_order _ _ _ Hspec.
#[local] Existing Instance internal_cmp_order.
#[local] Existing Instance tc_perm.

Lemma perm_P l1 l2 t : l1 ≡ₚ l2 → P l1 t → P l2 t.
Proof using HT. intros Hp HP. eapply tc_perm; [exact Hp|reflexivity|exact HP]. Qed.

Lemma tokens_moves {J} (pos : J → nat → Prop) (owns : J → list R) made it (m : st T J) i : moves P pos owns it m i → moves (holding_tables made) pos owns it m i.
Proof using HT.
  intros Hm frame t HP. unfold holding_tables in *. apply (perm_P _ (owns it ++ (token <$> made) ++ frame)) in HP; [|by rewrite !app_assoc, (Permutation_app_comm (owns it))].
  apply (wp_mono _ _ _ _ (Hm _ t HP)). intros it' t' [Hp HP']. split; [done|]. eapply perm_P; [|exact HP']. by rewrite !app_assoc, (Permutation_app_comm (owns it')).
Qed.

Lemma tokens_spec {J} {HJ : Iterator T J} es (pos : J → nat → Prop) (owns : J → list R) made : IteratorSpec P (internal_ok okk) ic es pos owns → IteratorSpec (holding_tables made) (internal_ok okk) ic es pos owns.
Proof using HT.
  intros Hs. split.
  - intros it i Hp. by apply (pos_valid (IteratorSpec := Hs)).
  - intros it i k v Hp. by apply (pos_entry (IteratorSpec := Hs)).
  - intros it i Hp. apply tokens_moves. by apply (SeekToFirst_spec (IteratorSpec := Hs) it i).
  - intros it i Hp. apply tokens_moves. by apply (SeekToLast_spec (IteratorSpec := Hs) it i).
  - intros it i target Hp Ht. apply tokens_moves. by apply (Seek_spec (IteratorSpec := Hs) it i).
  - intros it i Hp Hi. apply tokens_moves. by apply (Next_spec (IteratorSpec := Hs) it i).
  - intros it i Hp Hi. apply tokens_moves. by apply (Prev_spec (IteratorSpec := Hs) it i).
  - intros it i frame t Hp HP. unfold holding_tables in *. apply (perm_P _ (owns it ++ (token <$> made) ++ frame)) in HP; [|by rewrite !app_assoc, (Permutation_app_comm (owns it))].
    apply (wp_mono _ _ _ _ (delete_spec (IteratorSpec := Hs) it i _ t Hp HP)). done.
Qed.

#[local] Abbreviation source := (list entry * (vit → nat → Prop))%type.
Definition level_sources (options : ReadOptions) (level : Z) (files : list FileMetaData) : list source :=
  match files with [] => [] | _ => if level =? 0 then table_source (HT := HT) data <$> files else [run_source (HT := HT) data options files] end.

Definition inputs_ok (level : Z) (files : list FileMetaData) : Prop := Forall holds files ∧ (level ≠ 0 → run_ok (okk := okk) (c := c) (tables := tables) data files).

Lemma level_inputs_Ok options level files frame t : inputs_ok level files → P frame t →
  wp (level_inputs options level files) (λ its t', Forall2 over (level_sources options level files) its ∧ P (concat (vit_owns (HT := HT) <$> its) ++ frame) t') t.
Proof using HT Hspec.
  intros [Hf Hrun] HP. unfold level_inputs, level_sources. destruct files as [|f files'] eqn:E; [apply wp_ret; split; [constructor|done]|]. rewrite <-E in *. clear E f files'.
  destruct (Z.eqb_spec level 0) as [->|Hne]; [by apply table_iterators_Ok|]. destruct (Hrun Hne) as (_ & Hd & Hn & Hlen). apply wp_bind. apply (wp_mono _ _ _ _ (new_concatenating_Ok data files Hf Hd Hn Hlen frame t HP)).
  intros it t' [Hp HP']. apply wp_ret. split; [constructor; [|constructor]; exists (length (level_entries data files)), it; by split|]. cbn [fmap list_fmap concat vit_owns]. by rewrite app_nil_r.
Qed.

Definition input_sources (options : ReadOptions) (cn : Compaction) : list source := level_sources options (level_ cn) (inputs_ cn).1 ++ level_sources options (level_ cn + 1) (inputs_ cn).2.
Definition input_entries (cn : Compaction) : list entry := level_entries data (inputs_ cn).1 ++ level_entries data (inputs_ cn).2.

Lemma level_sources_spec options level files : inputs_ok level files →
  Forall (λ s : source, IteratorSpec P (internal_ok okk) ic s.1 s.2 (vit_owns (HT := HT))) (level_sources options level files)
  ∧ Forall (λ s : source, StronglySorted (λ a b : entry, ic a.1 b.1 < 0) s.1) (level_sources options level files) ∧ concat (level_sources options level files).*1 = level_entries data files.
Proof using Hspec.
  intros [Hf Hrun]. unfold level_sources. destruct files as [|f files'] eqn:E; [by split_and!; try constructor|]. rewrite <-E in *. clear E f files'. destruct (Z.eqb_spec level 0) as [->|Hne].
  - split; [|split; [|by rewrite <-list_fmap_compose]]; apply Forall_fmap; (eapply Forall_impl; [exact Hf|]); intros f Hff; [by apply table_iter_spec|exact (fh_sorted data f Hff)].
  - pose proof (Hrun Hne) as Hr. pose proof Hr as (_ & Hd & _). split; [|split]; [constructor; [|constructor]; by apply run_iter_spec|constructor; [|constructor]; exact (level_sorted data files Hf Hd)|cbn; by rewrite app_nil_r].
Qed.

Lemma results_same cn cn' outs : same_compaction cn cn' → compaction_results cn' outs = compaction_results cn outs.
Proof using. intros (El & _ & _ & Ee & Ei & _). unfold compaction_results, AddInputDeletions. by rewrite El, Ee, Ei. Qed.

Context (cn : Compaction) (es : list entry) (Hcn : comp_ok (okk := okk) (c := c) cn).
Context (H0 : inputs_ok (level_ cn) (inputs_ cn).1) (H1 : inputs_ok (level_ cn + 1) (inputs_ cn).2).
Context (Hes : es ≡ₚ input_entries cn) (Hsorted : StronglySorted (λ a b : entry, ic a.1 b.1 < 0) es) (Hfits : ∀ l, l `sublist_of` es → fitting_entries l).

Lemma input_fine : Forall (entry_fine (okk := okk)) es.
Proof using H0 H1 Hes.
  apply Forall_forall. intros e He. rewrite Hes in He. unfold input_entries in He. apply elem_of_app in He as [He|He]; apply level_elem in He as (f & Hf & He); [destruct H0 as [Hh _]|destruct H1 as [Hh _]];
    rewrite Forall_forall in Hh; pose proof (fh_fine data f (Hh f Hf)) as Hfine; rewrite Forall_forall in Hfine; by apply Hfine.
Qed.

Lemma MakeInputIterator_Ok paranoid frame t : P frame t →
  ∃ (pos : Merger.merged vit → nat → Prop) (owns : Merger.merged vit → list R),
    IteratorSpec (H := merged_iterator (comparator := InternalKeyComparator C) (H := version_iterator_iterator)) P (internal_ok okk) ic es pos owns
    ∧ wp (MakeInputIterator paranoid cn) (λ x t', (∃ p, pos x p) ∧ P (owns x ++ frame) t') t.
Proof using HT Hspec H0 H1 Hes Hsorted.
  intros HP. set (options := MkReadOptions paranoid false).
  destruct (level_sources_spec options _ _ H0) as (Hs0 & Ho0 & E0), (level_sources_spec options _ _ H1) as (Hs1 & Ho1 & E1).
  assert (Forall (λ s : source, IteratorSpec P (internal_ok okk) ic s.1 s.2 (vit_owns (HT := HT))) (input_sources options cn)) as Hsrc by by apply Forall_app.
  assert (Forall (λ s : source, StronglySorted (λ a b : entry, ic a.1 b.1 < 0) s.1) (input_sources options cn)) as Hso by by apply Forall_app.
  assert (es ≡ₚ concat (input_sources options cn).*1) as Hall by (unfold input_sources; rewrite fmap_app, concat_app, E0, E1; exact Hes).
  assert (Forall (λ e : entry, internal_ok okk e.1) es) as Hok by (eapply Forall_impl; [exact input_fine|by intros e [? _]]).
  pose proof (merged_spec (Hspec := internal_comparator_spec) (input_sources options cn) Hsrc Hso es Hall Hsorted Hok) as Hm. eexists _, _. split; [exact Hm|].
  unfold MakeInputIterator. fold options. apply wp_bind, (wp_mono _ _ _ _ (level_inputs_Ok options _ _ frame t H0 HP)). intros its0 t1 [Hits0 HP1].
  apply wp_bind, (wp_mono _ _ _ _ (level_inputs_Ok options _ _ _ t1 H1 HP1)). intros its1 t2 [Hits1 HP2].
  apply (NewMergingIterator_Ok (input_sources options cn) Hsrc es (its0 ++ its1) frame t2); [by apply Forall2_app|]. rewrite fmap_app, concat_app, <-app_assoc.
  eapply perm_P; [|exact HP2]. rewrite !app_assoc. by rewrite (Permutation_app_comm (concat (vit_owns <$> its0))).
Qed.

Lemma DoCompactionWork_Ok fuel paranoid snap frame t : snap < kMaxSequenceNumber → (length es < fuel)%nat → (inputs_ cn).1 ≠ [] → pointed (c := c) None cn →
  (∃ files, level_files (input_version_ cn) (level_ cn) = Ok files ∧ files ≠ []) → P frame t →
  wp (DoCompactionWork fuel paranoid [] false snap cn) (λ r t', ∃ made, r = (OK, out_of <$> made, Some (compaction_results cn (out_of <$> made)))
    ∧ concat (table_entries <$> made) = kept c snap (base_level (c := c) (input_version_ cn) (Z.to_nat (level_ cn + 2))) None es
    ∧ NoDup (table_number <$> made) ∧ Forall (λ x, new_number (table_number x) ∧ 0 < table_number x ∧ 0 ≤ x.1.2 < 2^64 ∧ table_entries x ≠ []) made
    ∧ P ((token <$> made) ++ frame) t') t.
Proof using HT HTF Hspec Hcn H0 H1 Hes Hsorted Hfits.
  intros Hsnap Hfuel Hin Hpt (files & Ef & Hne) HP. unfold DoCompactionWork. apply wp_bind, (wp_lift _ _ _ _ Ef). apply wp_bind, (wp_lift _ tt); [by destruct files|].
  destruct (MakeInputIterator_Ok paranoid frame t HP) as (pos & owns & Hm & Hmake). apply wp_bind, (wp_mono _ _ _ _ Hmake). intros input t1 [[p Hp] HP1].
  apply wp_bind, (wp_mono _ _ _ _ (SeekToFirst_spec (IteratorSpec := Hm) input p Hp frame t1 HP1)). intros input2 t2 [Hp2 HP2].
  assert (∀ made, IteratorSpec (H := merged_iterator (comparator := InternalKeyComparator C) (H := version_iterator_iterator)) (holding_tables made) (internal_ok okk) ic es pos owns) as Hmm by by intros made; apply tokens_spec.
  apply wp_bind. eapply wp_mono; [apply (work_loop_Ok (fitting_entries := fitting_entries) es pos owns Hmm Hsorted input_fine Hfits snap Hsnap cn Hcn fuel 0 input2 [] [] no_key (MkState cn [] None 0) frame t2); [lia|done| |exact HP2]|].
  { split; [apply same_compaction_refl|done|done|split; [constructor|split; [constructor|by split]]|done]. }
  intros [[s input3] cs] t3 (-> & Hp3 & made & cur & ks' & Har & HP3). change (ok OK) with true. cbn [andb]. apply wp_bind, wp_ret.
  destruct (pos_valid (IteratorSpec := Hm) input3 _ Hp3) as (_ & _ & Est). apply wp_bind, (wp_lift _ _ _ _ Est). destruct Har as [Hsame _ _ Hw Hk]. rewrite firstn_all in Hk.
  apply wp_bind. apply (wp_mono _ (λ r t', r.1 = OK ∧ compaction r.2 = compaction cs ∧ ∃ made', writes (PM := holding_tables) (new_number := new_number) (fitting_entries := fitting_entries) made' [] r.2 ∧ builder r.2 = None ∧ all_written made' [] = all_written made cur ∧ holding_tables made' (owns input3 ++ frame) t')).
  { destruct (bool_decide (is_Some (builder cs))) eqn:Eb; [apply bool_decide_eq_true in Eb|apply bool_decide_eq_false in Eb].
    - assert (cur ≠ []) as Hcur. { destruct Hw as (_ & _ & Hb). destruct (builder cs); [by destruct Hb as (? & _ & ? & _)|by destruct Eb]. }
      apply (wp_mono _ _ _ _ (FinishOutput_Ok made cur cs _ t3 Hw Hcur HP3)). intros r t4 (? & ? & ? & made' & ? & ? & ?). split; [done|]. split; [done|]. by exists made'.
    - assert (builder cs = None) as Hnone by (destruct (builder cs); [destruct Eb; by eexists|done]). apply wp_ret. split; [done|]. split; [done|]. exists made.
      assert (cur = []) as -> by (destruct Hw as (_ & _ & Hb); rewrite Hnone in Hb; by destruct Hb). split; [done|]. split; [exact Hnone|by split]. }
  intros [s cs2] t4 (Es & Ec & made' & Hw' & Hb' & Eall & HP4). cbn [fst snd] in *. subst s. change (ok OK) with true.
  pose proof (delete_spec (IteratorSpec := Hmm made') input3 _ frame t4 Hp3 HP4) as Hdel. apply wp_bind, (wp_mono _ _ _ _ Hdel). intros _ t5 HP5. apply wp_ret.
  destruct Hw' as (Hnd & Hnew & Hb). rewrite Hb' in Hb. destruct Hb as [Eo _]. exists made'. rewrite Eo, Ec, (results_same cn _ _ Hsame). split; [done|]. split; [|done].
  rewrite <-Hk, <-Eall. unfold all_written. by rewrite app_nil_r.
Qed.

Lemma new_pointed : level_ptrs_ cn = repeat 0%nat (Z.to_nat kNumLevels) → pointed (c := c) None cn.
Proof using.
  intros E. unfold pointed, ptrs_ok. rewrite E, repeat_length. split; [done|]. intros u _. split; [done|]. intros l files ptr _ _ Hp.
  apply list_elem_of_lookup_2, list_elem_of_In, repeat_spec in Hp. subst ptr. split; [lia|]. intros i f Hi. lia.
Qed.

(** Claim C18. A whole compaction, from the tables of its inputs to the tables it writes: it ends, with the edit that takes the
    inputs out of their levels and adds the outputs to the next one; the outputs are the ranges of consecutive entries, with
    numbers of their own and in the order of their keys; and no reader at the oldest snapshot in use, or at a later one, sees
    another value for any key, whatever else the version holds, if those other entries are newer than the inputs for
    each user key that no file further below covers. *)
Theorem compaction_keeps_reads fuel paranoid snap others frame t (Hsnap : snap < kMaxSequenceNumber) (Hfuel : (length es < fuel)%nat) (Hin : (inputs_ cn).1 ≠ [])
    (Hptr : level_ptrs_ cn = repeat 0%nat (Z.to_nat kNumLevels)) (Hlevel : ∃ files, level_files (input_version_ cn) (level_ cn) = Ok files ∧ files ≠ [])
    (Hothers : ∀ e x, e ∈ es → x ∈ others → base_level (c := c) (input_version_ cn) (Z.to_nat (level_ cn + 2)) (e_user e) = true → c (e_user e) (e_user x) = 0 → tag_part e.1 < tag_part x.1)
    (HP : P frame t) :
  wp (DoCompactionWork fuel paranoid [] false snap cn) (λ r t', ∃ made, r = (OK, out_of <$> made, Some (compaction_results cn (out_of <$> made)))
    ∧ NoDup (table_number <$> made) ∧ Forall (λ x, new_number (table_number x) ∧ table_entries x ≠ []) made ∧ concat (table_entries <$> made) `sublist_of` es
    ∧ (∀ s u v, snap ≤ s → newest_value c s (concat (table_entries <$> made) ++ others) u v ↔ newest_value c s (input_entries cn ++ others) u v)
    ∧ P ((token <$> made) ++ frame) t') t.
Proof using HT HTF Hspec Hcn H0 H1 Hes Hsorted Hfits.
  eapply wp_mono; [by apply (DoCompactionWork_Ok fuel paranoid snap frame t Hsnap Hfuel Hin (new_pointed Hptr) Hlevel)|].
  intros r t' (made & -> & Ek & Hnd & Hnew & HP'). exists made. split; [done|]. split; [done|]. split; [eapply Forall_impl; [exact Hnew|]; by intros x (? & _ & _ & ?)|].
  split; [rewrite Ek; apply kept_sublist|]. split; [|done]. intros s u v Hs. rewrite Ek, (kept_newest c snap _ es others s u v Hsorted Hs Hothers). apply newest_value_perm. by rewrite Hes.
Qed.
End whole.

(** ** Witness: tables in memory, and the list of the numbers of those that are finished *)

Definition on_disk (l t : list Z) : Prop := ∀ n, n ∈ l → n ∈ t.
Definition few_entries (es : list entry) : Prop := (length es ≤ 100)%nat.

(** An entry has a megabyte. *)
#[local] Instance memory_files : TableFiles (list Z) (Z * list entry) := {|
  NewFileNumber t := Ok (1 + foldr Z.max 9 t, t);
  NewTable n := mret (OK, Some (n, []));
  tf_Add k v b := mret (b.1, b.2 ++ [(k, v)]);
  tf_NumEntries b := zlen b.2;
  tf_FileSize b := zlen b.2 * 2^20;
  tf_Finish b := mret (OK, b);
  tf_Abandon b := mret b;
  tf_Sync _ := mret OK;
  tf_Close b t := Ok (OK, b.1 :: t);
  tf_Verify n _ t := if decide (n ∈ t) then Ok (OK, t) else Err Diverge |}.

Lemma on_disk_perm : Proper ((≡ₚ) ==> (=) ==> impl) on_disk.
Proof. intros l1 l2 Hl t1 t2 -> H n Hn. apply H. by rewrite Hl. Qed.
#[local] Existing Instance on_disk_perm.

Lemma below_max t n : n ∈ t → n ≤ foldr Z.max 9 t.
Proof. induction t as [|x t IH]; [by intros ?%elem_of_nil|]. cbn [foldr]. intros [->|H]%elem_of_cons; [lia|]. specialize (IH H). lia. Qed.
Lemma max_large t : 9 ≤ foldr Z.max 9 t.
Proof. induction t as [|x t IH]; cbn [foldr]; lia. Qed.

#[local] Instance memory_spec : TableFilesSpec (holding_tables (P := on_disk) table_number) (λ n, 9 < n) few_entries.
Proof.
  refine {| tf_writing n es b := b = (n, es) ∧ few_entries es; tf_finished n es b := b = (n, es) ∧ few_entries es |}.
  - intros made frame t HP. unfold wp. cbn [NewFileNumber memory_files]. pose proof (max_large t). split; [lia|]. split; [|split; [lia|done]].
    intros Hin. pose proof (below_max t (1 + foldr Z.max 9 t)) as Hb. specialize (Hb (HP _ ltac:(by apply elem_of_app; left))). lia.
  - intros n made frame t HP. apply wp_ret. split; [done|]. split; [|done]. exists (n, []). split; [done|]. split; [done|]. unfold few_entries. cbn. lia.
  - intros n es k v b made frame t [-> _] Hfew HP. by apply wp_ret.
  - intros n es b [-> _]. cbn. destruct es; cbn; [done|]. split; [lia|done].
  - intros n es b made frame t [-> Hfew] _ HP. apply wp_ret. split; [done|]. split; [done|]. split; [|done]. cbn. unfold few_entries in Hfew. lia.
  - intros n es b made frame t _ HP. by apply wp_ret.
  - intros n es b made frame t [-> _] HP. unfold wp. cbn [tf_Close memory_files fst]. split; [done|]. intros m Hm. unfold holding_tables, tf_FileSize in *. rewrite fmap_app, !elem_of_app in Hm. apply elem_of_cons.
    destruct Hm as [[Hm|Hm]|Hm]; [right; apply HP; apply elem_of_app; by left|left; by apply list_elem_of_singleton in Hm|right; apply HP; apply elem_of_app; by right].
  - intros n size es made frame t Hin HP. unfold wp. cbn [tf_Verify memory_files]. rewrite decide_True; [by split|]. apply HP, elem_of_app. left. by apply (list_elem_of_fmap_2 table_number _ (n, size, es)).
Qed.

#[local] Existing Instances stored_cache stored_cache_spec blocks.

(** The files of level 0, with the file of level 1 that has their keys. *)
Definition sample_compaction : Compaction :=
  match CompactRange (user_comparator := BytewiseComparator) sample_version 0 None None (repeat [] 7) with Ok (Some (cn, _)) => cn | _ => new_Compaction 0 new_Version end.
Definition sample_inputs : list entry := [put "a" 15 "new"; put "a" 5 "old"; put "b" 14 "second"; put "b" 12 "first"; del "c" 11; put "c" 3 "gone"].

Example sample_chosen : (number <$> (inputs_ sample_compaction).1, number <$> (inputs_ sample_compaction).2) = ([7; 9], [4]) ∧ IsTrivialMove sample_compaction = false.
Proof. split; vm_compute; reflexivity. Qed.

(** At snapshot 13 the deletion of c, and what it deletes, go; a new table for every two entries. *)
Example sample_work : (x ← DoCompactionWork (I := block_iterator) (user_comparator := BytewiseComparator) 20 true [] false 13 sample_compaction;
    mret (x.1.1, (λ o, (out_number o, out_smallest o, out_largest o)) <$> x.1.2)) [4; 5; 7; 9]
  = Ok ((OK, [(10, internal (str "a") 15 kTypeValue, internal (str "a") 5 kTypeValue); (11, internal (str "b") 14 kTypeValue, internal (str "b") 12 kTypeValue)]), [11; 10; 4; 5; 7; 9]).
Proof. vm_compute. reflexivity. Qed.

Lemma sample_comp_ok : comp_ok (okk := short) (c := strcmp_aux) sample_compaction.
Proof.
  change (comp_ok (okk := short) (c := strcmp_aux) sample_compaction) with (version_ok (c := strcmp_aux) (okk := short) sample_version ∧ 0 ≤ 0 < kNumLevels - 1 ∧ Forall (keys_ok (okk := short)) []).
  split; [exact (version_holds_ok (Hspec := bytewise_spec) stored_data _ sample_holds)|]. by split.
Qed.

Lemma sample_inputs_ok : inputs_ok (okk := short) (c := strcmp_aux) (tables := stored_table) stored_data 0 (inputs_ sample_compaction).1
  ∧ inputs_ok (okk := short) (c := strcmp_aux) (tables := stored_table) stored_data 1 (inputs_ sample_compaction).2.
Proof.
  change (inputs_ sample_compaction) with ([stored_file 7; stored_file 9], [stored_file 4]). cbn [fst snd].
  assert (∀ n, n ∈ [4; 5; 7; 9] → file_holds short strcmp_aux stored_table stored_data (stored_file n)) as Hf by exact stored_holds.
  split; (split; [repeat (constructor; [apply Hf, (bool_decide_unpack _); by vm_compute|]); constructor|]); [done|]. intros _.
  split; [constructor; [|constructor]; apply Hf, (bool_decide_unpack _); by vm_compute|].
  split; [repeat constructor|]. split; [apply NoDup_singleton|done].
Qed.

Lemma sample_inputs_sorted : StronglySorted (λ a b : entry, internal_order strcmp_aux a.1 b.1 < 0) sample_inputs.
Proof. repeat constructor. Qed.

Lemma sample_input_entries : sample_inputs ≡ₚ input_entries stored_data sample_compaction.
Proof.
  change (input_entries stored_data sample_compaction) with [put "b" 12 "first"; del "c" 11; put "a" 15 "new"; put "b" 14 "second"; put "a" 5 "old"; put "c" 3 "gone"].
  unfold sample_inputs. apply NoDup_Permutation; [apply (bool_decide_unpack _); by vm_compute|apply (bool_decide_unpack _); by vm_compute|]. intros x. rewrite !elem_of_cons. tauto.
Qed.

(** Together with the other file of level 1, the outputs have the values of the version for every reader from 13 on. *)
Lemma compaction_keeps_reads_witness :
  wp (DoCompactionWork (I := block_iterator) (user_comparator := BytewiseComparator) 20 true [] false 13 sample_compaction) (λ r t', ∃ made,
    r = (OK, out_of <$> made, Some (compaction_results sample_compaction (out_of <$> made)))
    ∧ (∀ s u v, 13 ≤ s → newest_value strcmp_aux s (concat (table_entries <$> made) ++ stored 5) u v ↔ newest_value strcmp_aux s (version_entries stored_data sample_version) u v)
    ∧ on_disk (table_number <$> made) t') [4; 5; 7; 9].
Proof.
  eapply wp_mono.
  - apply (compaction_keeps_reads (Hspec := bytewise_spec) (P := on_disk) table_number stored_data sample_compaction sample_inputs sample_comp_ok (proj1 sample_inputs_ok) (proj2 sample_inputs_ok) sample_input_entries sample_inputs_sorted)
      with (snap := 13) (others := stored 5) (frame := []).
    + intros l Hl. apply sublist_length in Hl. unfold few_entries. cbn in Hl. lia.
    + done.
    + cbn. lia.
    + by vm_compute.
    + by vm_compute.
    + eexists. split; [by vm_compute|done].
    + intros e x He Hx _. assert (Forall (λ e : entry, Forall (λ x : entry, strcmp_aux (e_user e) (e_user x) = 0 → tag_part e.1 < tag_part x.1) (stored 5)) sample_inputs) as Hall
        by (repeat (constructor; [repeat (constructor; [by vm_compute|]); constructor|]); constructor).
      rewrite Forall_forall in Hall. specialize (Hall e He). rewrite Forall_forall in Hall. by apply Hall.
    + by intros n ?%elem_of_nil.
  - intros r t' (made & -> & _ & _ & _ & Hreads & HP). exists made. split; [done|]. split; [|by rewrite app_nil_r in HP]. intros s u v Hs. by rewrite (Hreads s u v Hs).
Defined.

(** ** Two files of a level that share a user key *)

(** A level above 0 may be cut between two entries of a user key. *)
Definition boundary_version : Version := MkVersion [[]; [stored_file 14; stored_file 15]; []; []; []; []; []].

Lemma boundary_file n : n ∈ [14; 15] → file_holds short strcmp_aux stored_table stored_data (stored_file n).
Proof.
  intros Hn. destruct (stored_good n) as (Hs & _ & _). rewrite !elem_of_cons, elem_of_nil in Hn. destruct Hn as [->|[->|[]]]; (split; [done|by vm_compute|done| | |]);
    [|by eexists _, _|by eexists [_], _| |by eexists _, _|by eexists [_], _]; repeat (constructor; [repeat split; vm_compute; discriminate|]); constructor.
Qed.

Lemma boundary_holds : version_holds short strcmp_aux stored_table stored_data boundary_version.
Proof.
  split.
  - done.
  - intros files f Hl Hf. repeat (apply elem_of_cons in Hl as [->|Hl]; [repeat (apply elem_of_cons in Hf as [->|Hf]; [apply boundary_file; apply (bool_decide_unpack _); by vm_compute|]); by apply elem_of_nil in Hf|]). by apply elem_of_nil in Hl.
  - intros files Hl. repeat (apply elem_of_cons in Hl as [->|Hl]; [done|]). by apply elem_of_nil in Hl.
  - intros i files Hi Hl. do 7 (destruct i as [|i]; [try lia; cbn in Hl; injection Hl as <-; by repeat constructor|]). done.
  - intros files f g Hl Hf. injection Hl as <-. by apply elem_of_nil in Hf.
  - intros files Hl. repeat (apply elem_of_cons in Hl as [->|Hl]; [apply (bool_decide_unpack _); by vm_compute|]). by apply elem_of_nil in Hl.
  - repeat (constructor; [|repeat (constructor; [apply newer_checked; by vm_compute|]); constructor]). constructor.
Qed.

Definition value_at (v : Version) (u : list byte) : res (Status * list byte) :=
  '(r, _) ← (lk ← lift (new_LookupKey zeros u 13); r ← Version_Get (T := unit) (user_comparator := BytewiseComparator) v sample_options lk []; mret r.1) tt; mret r.

(** Claim C20. A compaction of a level above 0 takes a file without the file after it, though that may start with the user key
    the first one ends with: in a correct version, the file with the new value of b is picked, and moved to the next level, and
    then the file with the old value of b, which stays, is found first. The answer for b was the new value, and is the
    old one. *)
Theorem boundary_move_loses : version_holds short strcmp_aux stored_table stored_data boundary_version
  ∧ ∃ cn ps e b v, PickCompaction (user_comparator := BytewiseComparator) boundary_version (MkHints (Some 1) None) (repeat [] 7) = Ok (Some (cn, ps)) ∧ IsTrivialMove cn = true ∧ move_file cn = Ok e
  ∧ Apply (user_comparator := BytewiseComparator) e (new_Builder ps boundary_version) = Ok b ∧ SaveTo (user_comparator := BytewiseComparator) b new_Version = Ok v
  ∧ value_at boundary_version (str "b") = Ok (OK, str "now") ∧ value_at v (str "b") = Ok (OK, str "before").
Proof.
  split; [exact boundary_holds|]. eexists _, _, _, _, _. split; [vm_compute; reflexivity|]. split; [vm_compute; reflexivity|]. split; [vm_compute; reflexivity|].
  split; [vm_compute; reflexivity|]. split; [vm_compute; reflexivity|]. split; vm_compute; reflexivity.
Qed.
